(* ===== verification/_CoqProject ===== *)
-Q . S2P
Prelude.v
JsString.v
Bytes.v
BufferQueue.v
LineFramer.v
Incremental.v
VideoStream.v
Crc32.v
FrameProtocol.v
JsMap.v
ReleaseEpochLedger.v
SessionSlots.v
SlotStore.v
DeviceHold.v
Liveness.v
ObserverSessions.v
Coordination.v
CoordinationSearch.v
CoordinationSplit.v
CoordinationPlan.v
BarrierResume.v
BarrierRecovery.v
OwnerDisconnect.v
TtlCache.v
HierarchyDiff.v
ReedSolomon.v
QrTables.v
QrEncoder.v
QrData.v
QrBlocks.v
QrReader.v
RestartHolds.v
RestartHoldBounds.v
RestartHoldProperties.v
JsArray.v
GetEventLine.v
PenHover.v
TouchFrames.v
TouchPaths.v
TouchContacts.v
TouchProperties.v
KernelMerge.v
KernelOrder.v
KernelProperties.v
H264.v
AnnexB.v
RtpPackets.v
RtpWriter.v
RtpProperties.v
RtpStreams.v
RtpDelivery.v
RtpPacketBoundaries.v
ExecutionTracker.v
ExecutionIndexes.v
ExecutionQueries.v
ExecutionWaits.v
ExecutionChanges.v
ExecutionCancellation.v
ExecutionProperties.v
DeviceBinding.v
DeviceAssignment.v
DeviceAssignmentProofs.v
DeviceAssignmentProperties.v
BootLedger.v
BootGates.v
BootLedgerProofs.v
BootCapacity.v
BootConcurrency.v
BootProperties.v
Matching.v
StronglyConnected.v
MultiDeviceAllocation.v
AllocationDeadlock.v
AllocationCycles.v
AllocationClaims.v
AllocationProperties.v
ReadinessLock.v
DbWriteBarrier.v
StableNodes.v
StableNodeProperties.v
