(* ===== verification/Prelude.v ===== *)
(** * AutoMobile: a verification development of the daemon's core

    AutoMobile is a TypeScript daemon that lets agents drive Android and iOS
    devices: it pools devices, gives them to sessions, streams video and view
    hierarchies to its clients over sockets, and runs multi-device test plans.
    This library models the parts of [src/src] that carry its own logic, as
    executable Rocq definitions that follow the source function by function, and
    proves what makes them correct.  Paths below are under [src/src].

    ** Conventions

    A TypeScript function that may throw returns an [outcome] (this file).  A
    [Map] or [Set] is an association list in insertion order ([JsMap]); a
    [Buffer] is a list of bytes and 32-bit operators wrap as JavaScript's do
    ([Bytes]); a string is a list of code units ([JsString]).  A class is a Record
    of its fields with one definition per method.  Where identity or aliasing
    matters (a timer that compares the object it was made for with the one in the
    map), objects are references into a heap.  Asynchronous code is cut at its
    awaits: each continuation is an event of a step function, and the theorems
    hold for every order of enabled events ([reachable]).  What a step reads from
    collaborators outside its component (clocks, ports, liveness of a session) is
    an argument of the step, arbitrary at every step unless a theorem says so.

    ** Parts, files and theorems

    Sockets and streams.
    - [BufferQueue]: [utils/BufferQueue.ts].  The class [ByteQueue] is the
      interface its clients are verified against; the instance refines a plain
      list of bytes, and its compaction copies a linear number of chunks.
    - [LineFramer]: [daemon/wire/LineFramer.ts].  Frames do not depend on how the
      input is cut into chunks; memory and scanning are bounded.
    - [Incremental], [VideoStream]: [daemon/videoStreamFraming.ts] and
      [features/webrtc/VideoServerStreamParser.ts].  Independence of chunking is
      proved once for any stable step function and used by both stream decoders;
      the encoders and the parser are inverse.
    - [Crc32], [FrameProtocol]: [features/screen-stream/frameProtocol.ts].  The
      table-driven CRC is the bit-serial one; records round-trip; after damage the
      decoder resumes at exactly the next valid header; it always answers, within
      its buffer limit; damage of up to 32 consecutive bits of a header is seen.
    - [HierarchyDiff]: [daemon/hierarchyStreamDiff.ts].  The marks and the counts
      are those of a comparison by tree position.

    Sessions and devices.
    - [ReleaseEpochLedger]: [daemon/proxy/ReleaseEpochLedger.ts].  Bounded by the
      calls in flight, and a call that holds a reference sees every release.
    - [SessionSlots], [SlotStore]: [daemon/sessionSlots.ts],
      [SlotTransitionGuard.ts], the derived reads of [sessionManager/queries.ts]
      and [sessionSlotShadowProbe.ts].  The phase of a session is derived from the
      lifecycle maps; the probe agrees with the queries; no waiter misses a change.
    - [DeviceHold]: [daemon/deviceHold.ts], the reasons and the policies.
    - [Liveness]: [utils/SteadyWallClock.ts], [daemon/livenessOwnerLease.ts],
      [livenessClaimDecision.ts], [unsettledExecutionVeto.ts] and what they read:
      the timeline of a lease, what renews it, how long a veto can last.
    - [ObserverSessions]: [daemon/observerSessionRegistry.ts].
    - [OwnerDisconnect]: [daemon/ownerDisconnectRelease.ts].  One timer or attempt
      per session, releases only when justified and after the grace, and progress.
    - [RestartHolds], [RestartHoldBounds], [RestartHoldProperties]: the holds of
      [daemon/deviceReservations.ts] with their stops and handoffs.  A handoff
      ends within its window, a device waits for one session, callbacks of
      replaced objects do nothing, observers hear of every change.
    - [ExecutionTracker]: [daemon/executionTracker.ts] and
      [executionTrackerQueries.ts], the registry of running calls.  [ExecutionIndexes]
      (the indexes agree with the calls), [ExecutionQueries], [ExecutionWaits],
      [ExecutionChanges] (what can happen to a call before it ends),
      [ExecutionCancellation] and [ExecutionProperties]: answers are exact, fences
      hold until cleared, cancellations reach exactly their calls, a revoked device
      stays refused, no wait is forgotten.
    - [DeviceBinding], [DeviceAssignment]: the binding of pooled devices to sessions,
      [daemon/deviceBinding.ts], [deviceTable.ts], [devicePoolParts/release.ts], and
      the claims of [deviceAllocation.ts] and [explicitDeviceBind.ts] with what else
      writes the same entries, as steps from one await to the next.
      [DeviceAssignmentProofs] (the invariant) and [DeviceAssignmentProperties]: no
      session is displaced, a late release spares later assignments, releases wait
      for cleanups, a failed claim leaves no trace, which device is selected.
    - [BootLedger], [BootGates], [BootConcurrency]: [devices/bootAdmission/], the
      decisions of [features/iosSimFleet/CapacityGate.ts] and
      [features/bootAdmission/AndroidBootAdmissionGate.ts], and the boot permits of
      [BootConcurrencyGate.ts].  [BootLedgerProofs], [BootCapacity] (the interface
      [BootPolicy] between a gate and a host, on which devices start and stop while
      listings wait to be judged) and [BootProperties]: both gates implement the
      interface, so no admission takes a host past its limit; a slot given back is
      free, permits are first come, first served.
    - [Matching], [StronglyConnected], [MultiDeviceAllocation]: the queue of requests for
      several devices, [daemon/multiDeviceAllocation.ts].  [AllocationClaims]: the matcher
      [DeviceCriteriaMatcher.ts] and the claim check and rounds of
      [devicePoolParts/multiAllocation.ts], which implement the port of the queue.
      [AllocationDeadlock], [AllocationCycles], the end of [AllocationClaims] and
      [AllocationProperties]: the search for distinct devices is exact; the requests found
      deadlocked are those no order of completions serves; the last member of a cycle
      fails, so that every deadlock is broken; claims are taken in turn.
    - [ReadinessLock]: [utils/deviceReadinessLock.ts].  One holder per device, hand-over in
      order of arrival, and markers that cover every acquisition in flight.
    - [DbWriteBarrier]: [db/dbWriteBarrier.ts].  A drain answers for exactly the writes
      counted before it.
    - [StableNodes], [StableNodeProperties]:
      [features/observe/android/StableNodeIdentity.ts] and the element classification of
      [features/utility/elementProperties.ts].  Generated view identifiers are replaced by
      ones derived from content, with SHA-256 a parameter whose digests have 64
      characters: they are distinct, bare ones were unique, ticking text below leaves them
      alone, and a second pass changes nothing.
    - [TtlCache]: [utils/cache/Cache.ts].  Budgets, and a sweep that removes
      exactly what has expired although it looks at a bounded prefix.

    Recording.
    - [GetEventLine], [JsArray], [PenHover], [TouchFrames]: the lines of
      [getevent -lt], [features/record/android/PenHoverTracker.ts] and
      [TouchFrameReconstructor.ts].  [TouchPaths], [TouchContacts] and
      [TouchProperties]: no contact is lost between reports, none is mentioned after
      its end, a pen's bounded path summarises all its samples, and a hover is
      reported exactly when the pen never touched.
    - [KernelMerge]: [KernelTimeReorderBuffer.ts] and [KernelTimeLineMerge.ts].
      [KernelOrder] and [KernelProperties]: lines late by no more than the window
      leave in kernel order, every queued line meets its deadline, and the merge of
      several nodes changes nothing of what each reconstructor recognises.

    Streaming.
    - [H264], [RtpWriter]: [features/webrtc/h264.ts], [H264AccessUnitAssembler.ts]
      and [RtpH264TrackWriter.ts].  [AnnexB], [RtpPackets], [RtpProperties],
      [RtpStreams], [RtpDelivery], [RtpPacketBoundaries]: from bytes in any chunks
      to packets a receiver reassembles, with key frames made self-decodable.

    Plans.
    - [Coordination], [CoordinationSearch], [CoordinationSplit],
      [CoordinationPlan]: [utils/plan/CoordinationScheduleFeasibility.ts].  The
      bounded search and the split into components decide whether some order of
      arrivals lets every device finish.
    - [BarrierResume], [BarrierRecovery]: [utils/plan/BarrierResumeGuard.ts].
      Generations are complete rendezvous, a resume splits none.

    QR codes.
    - [ReedSolomon], [QrTables], [QrEncoder]: [utils/qr].  [QrData], [QrBlocks] and
      [QrReader] are a reader written from the standard's layout: every symbol the
      encoder returns reads back to its payload, is well formed, and completes
      blocks to Reed-Solomon codewords over a field.

    ** Bounds and fuel

    A loop that is not structural takes fuel computed from its input, and a lemma
    or theorem says that this is enough, so that fuel never decides a result.  The
    stream loops ([LineFramer], [VideoStream], [FrameProtocol]) consume queued bytes
    at every pass; [Coordination]'s search is bounded by the code's own limit on
    visited states, its walks and the union-find by the map they climb;
    [BarrierResume]'s rewind strictly lowers the step it starts from; [TtlCache]
    evicts an entry per pass; [QrEncoder]'s [rightColumns] drops two columns per
    pass, [Matching]'s search sees a device once and [StronglyConnected]'s walk expands a
    node once, [MultiDeviceAllocation]'s release loop drops a request per pass, and
    [bchLoop] shortens a remainder of at most 32 bits, which the round
    trip of every symbol covers.  Other recursion is structural or a fold.

    ** Not modelled

    Code whose work is done by other programs or by the operating system (device
    drivers over adb, simctl and the on-device services; sockets, files, SQLite,
    the MCP transport; media encoders), the Kotlin and Swift programs, the command
    line, scripts, lint rules and web tools, and generated schemas.  Of the modelled
    files: logging and message texts, the UTF-8 decoding of frames and payloads,
    callbacks that throw.  Of the session manager and the device pool, the
    acquisition, persistence and recovery flows around the components above are
    left out: between their awaits they run database transactions and device programs,
    and what they decide by themselves (the lease, the claim, the holds, the assignment
    of devices, the multi-device queue) is modelled as steps over an environment.  Of the
    multi-device allocations, the attempt itself is that of [DeviceAssignment].  Of gesture recording, the
    classifier (its geometry is floating point) and the readers that drive adb. *)
From stdpp Require Export base tactics option list list_numbers numbers.
From Stdlib Require Export ZArith.

(** ** Fallible code

    A TypeScript function that may [throw] returns an [outcome]: the value, or
    the error it throws. *)
Inductive outcome (E A : Type) : Type :=
| Returns (a : A)
| Throws (e : E).
Arguments Returns {E A} a.
Arguments Throws {E A} e.

#[export] Instance outcome_ret {E} : MRet (outcome E) := λ A a, Returns a.
#[export] Instance outcome_bind {E} : MBind (outcome E) := λ A B f m,
  match m with Returns a => f a | Throws e => Throws e end.
#[export] Instance outcome_fmap {E} : FMap (outcome E) := λ A B f m,
  match m with Returns a => Returns (f a) | Throws e => Throws e end.

Definition is_returns {E A} (o : outcome E A) : bool :=
  match o with Returns _ => true | Throws _ => false end.

Lemma outcome_bind_Returns {E A B} (m : outcome E A) (f : A → outcome E B) b :
  m ≫= f = Returns b ↔ ∃ a, m = Returns a ∧ f a = Returns b.
Proof. destruct m; simpl; split; [eauto|by intros (? & [= ->] & ?)|done|by intros (? & ? & ?)]. Qed.

Lemma outcome_bind_assoc {E A B C} (m : outcome E A) (f : A → outcome E B) (g : B → outcome E C) :
  (m ≫= f) ≫= g = m ≫= (λ a, f a ≫= g).
Proof. by destruct m. Qed.

(** ** Automation *)

(** The hint database of the development: the lemmas that close the common
    side conditions of several components. *)
Create HintDb automobile.

(** Case analysis on every boolean test and [decide] in the goal, then the
    routine clean-up. *)
Ltac case_tests :=
  repeat (case_match || case_decide || case_bool_decide);
  simplify_eq/=; try done.

(** Reflect boolean hypotheses into propositions. *)
Ltac reflect_bools :=
  repeat match goal with
  | H : _ && _ = true |- _ => apply andb_true_iff in H; destruct H
  | H : _ || _ = false |- _ => apply orb_false_iff in H; destruct H
  | H : negb _ = true |- _ => apply negb_true_iff in H
  | H : negb _ = false |- _ => apply negb_false_iff in H
  | H : bool_decide _ = true |- _ => apply bool_decide_eq_true_1 in H
  | H : bool_decide _ = false |- _ => apply bool_decide_eq_false_1 in H
  end.

(** Close a [bool_decide] goal by its proposition. *)
Ltac by_decide := first [apply bool_decide_eq_true_2 | apply bool_decide_eq_false_2]; try done.

(** ** Lists *)

(** Filters that agree on the elements of the list. *)
Lemma filter_agree {A} (P Q : A → Prop) `{∀ x, Decision (P x)} `{∀ x, Decision (Q x)} (l : list A) :
  (∀ x, x ∈ l → P x ↔ Q x) → filter P l = filter Q l.
Proof.
  induction l as [|x l IH]; intros Hl; [done|]. rewrite !filter_cons, IH by (intros; apply Hl; by right).
  pose proof (Hl x (list_elem_of_here x l)). destruct (decide (P x)), (decide (Q x)); tauto.
Qed.

(** A filter that keeps everything. *)
Lemma filter_all {A} (P : A → Prop) `{∀ x, Decision (P x)} (l : list A) : (∀ x, x ∈ l → P x) → filter P l = l.
Proof.
  induction l as [|x l IH]; intros Hl; [done|]. rewrite filter_cons, decide_True by (apply Hl; by left).
  rewrite IH; [done|]. intros. apply Hl. by right.
Qed.
