(* ===== verification/JsString.v ===== *)
(** * JavaScript strings

    The fragment of [String.prototype] the modelled code uses.  A JavaScript
    string is a Rocq [string], one character per code unit; code units above
    255 are outside the model. *)
From stdpp Require Export strings.
From S2P Require Import Prelude.

(** [String.prototype.trim] removes white space and line terminators: TAB, LF,
    VT, FF, CR, SPACE and NO-BREAK SPACE are those below code unit 256. *)
Definition is_js_space (c : Ascii.ascii) : bool :=
  bool_decide (Ascii.nat_of_ascii c ∈ [9; 10; 11; 12; 13; 32; 160]).

Fixpoint trim_start (s : string) : string :=
  match s with
  | EmptyString => EmptyString
  | String c s' => if is_js_space c then trim_start s' else s
  end.

Fixpoint trim_end (s : string) : string :=
  match s with
  | EmptyString => EmptyString
  | String c s' =>
      let r := trim_end s' in
      if is_js_space c && bool_decide (r = EmptyString) then EmptyString else String c r
  end.

Definition js_trim (s : string) : string := trim_end (trim_start s).

(** The truth value of a string (the empty string is falsy). *)
Definition truthy (s : string) : bool := negb (bool_decide (s = EmptyString)).

(** The truth value of a [string | undefined]. *)
Definition truthy_opt (o : option string) : bool :=
  match o with Some s => truthy s | None => false end.

Lemma trim_end_idemp s : trim_end (trim_end s) = trim_end s.
Proof.
  induction s as [|c s IH]; [done|]; simpl.
  destruct (is_js_space c && bool_decide (trim_end s = EmptyString)) eqn:E; [done|].
  simpl. by rewrite IH, E.
Qed.

Lemma trim_start_head s :
  match trim_start s with EmptyString => True | String c _ => is_js_space c = false end.
Proof. induction s as [|c s IH]; simpl; [done|]. by destruct (is_js_space c) eqn:?. Qed.

Lemma trim_start_id s :
  match s with EmptyString => True | String c _ => is_js_space c = false end → trim_start s = s.
Proof. destruct s as [|c s]; simpl; [done|]. by intros ->. Qed.

(** Trimming is idempotent, so a trimmed key is stable. *)
Lemma js_trim_idemp s : js_trim (js_trim s) = js_trim s.
Proof.
  unfold js_trim. rewrite (trim_start_id (trim_end _)); [apply trim_end_idemp|].
  pose proof (trim_start_head s) as H. destruct (trim_start s) as [|c r]; simpl; [done|].
  by rewrite H.
Qed.
