(* ===== verification/Bytes.v ===== *)
(** * Byte buffers

    Node's [Buffer] as a list of bytes, with the integer accessors the stream
    codecs use and the conversion of an integer to a JavaScript [number]. *)
From S2P Require Import Prelude.
From Stdlib Require Strings.Byte.
From coqutil Require Byte Word.LittleEndianList.

Local Open Scope Z_scope.

Abbreviation byte := Corelib.Init.Byte.byte.
Abbreviation bytes := (list byte).

#[export] Instance byte_eq_dec : EqDecision byte := Stdlib.Strings.Byte.byte_eq_dec.

(** The value of a byte, 0..255, and the byte of a number's low eight bits. *)
Definition ubyte (b : byte) : Z := coqutil.Byte.byte.unsigned b.
Definition to_byte (z : Z) : byte := coqutil.Byte.byte.of_Z z.

(** [n]-byte little-endian and big-endian unsigned integers. *)
Definition le_decode (l : bytes) : Z := LittleEndianList.le_combine l.
Definition le_encode (n : nat) (z : Z) : bytes := LittleEndianList.le_split n z.
Definition be_decode (l : bytes) : Z := le_decode (reverse l).
Definition be_encode (n : nat) (z : Z) : bytes := reverse (le_encode n z).

(** [buf.subarray(first, last)]. *)
Definition subarray (buf : bytes) (first last : nat) : bytes := take (last - first) (drop first buf).

(** [buf.readUInt32LE(offset)] and the others.  The callers read inside a buffer
    whose length they have checked. *)
Definition readUInt32LE (buf : bytes) (offset : nat) : Z := le_decode (subarray buf offset (offset + 4)).
Definition readUInt32BE (buf : bytes) (offset : nat) : Z := be_decode (subarray buf offset (offset + 4)).
Definition readBigUInt64BE (buf : bytes) (offset : nat) : Z := be_decode (subarray buf offset (offset + 8)).

(** [ERR_OUT_OF_RANGE], thrown by the [write*] methods. *)
Inductive BufferError := ErrOutOfRange.

(** The bytes [writeInt32BE] stores: a value outside the signed 32-bit range throws. *)
Definition writeInt32BE (v : Z) : outcome BufferError bytes :=
  if (- 2 ^ 31 <=? v) && (v <=? 2 ^ 31 - 1) then Returns (be_encode 4 v) else Throws ErrOutOfRange.

(** [x >>> 0]: the unsigned 32-bit value of a number. *)
Definition to_uint32 (x : Z) : Z := x mod 2 ^ 32.

(** The signed 32-bit value of a number, and the bitwise operators on it: [&],
    [|] and [^] give a signed result, [>>>] an unsigned one. *)
Definition to_int32 (x : Z) : Z := (x + 2 ^ 31) mod 2 ^ 32 - 2 ^ 31.
Definition js_and (a b : Z) : Z := Z.land (to_int32 a) (to_int32 b).
Definition js_or (a b : Z) : Z := Z.lor (to_int32 a) (to_int32 b).
Definition js_xor (a b : Z) : Z := Z.lxor (to_int32 a) (to_int32 b).
Definition js_ushr (a n : Z) : Z := Z.shiftr (to_uint32 a) n.

(** [Number(x)] for a non-negative integer below 2^1024: the nearest double,
    ties to even.  Integers up to 2^53 are exact. *)
Definition js_number (x : Z) : Z :=
  if x <=? 2 ^ 53 then x
  else
    let unit := 2 ^ (Z.log2 x - 52) in
    let q := x / unit in
    let r := x mod unit in
    if (2 * r <? unit) || ((2 * r =? unit) && Z.even q) then q * unit else (q + 1) * unit.

Lemma js_number_exact x : x ≤ 2 ^ 53 → js_number x = x.
Proof. intros H. unfold js_number. by rewrite (proj2 (Z.leb_le _ _)). Qed.

(** ** Round trips of the integer codecs *)

Lemma length_le_encode n z : length (le_encode n z) = n.
Proof. apply LittleEndianList.length_le_split. Qed.
Lemma length_be_encode n z : length (be_encode n z) = n.
Proof. unfold be_encode. by rewrite length_reverse, length_le_encode. Qed.

Lemma le_decode_encode n z : le_decode (le_encode n z) = z mod 2 ^ (8 * Z.of_nat n).
Proof. unfold le_decode, le_encode. rewrite LittleEndianList.le_combine_split. do 2 f_equal. lia. Qed.

Lemma be_decode_encode n z : be_decode (be_encode n z) = z mod 2 ^ (8 * Z.of_nat n).
Proof. unfold be_decode, be_encode. by rewrite reverse_involutive, le_decode_encode. Qed.

Lemma le_decode_bound l : 0 ≤ le_decode l < 2 ^ (8 * Z.of_nat (length l)).
Proof. apply LittleEndianList.le_combine_bound. Qed.

Lemma be_decode_bound l : 0 ≤ be_decode l < 2 ^ (8 * Z.of_nat (length l)).
Proof. unfold be_decode. rewrite <- length_reverse. apply le_decode_bound. Qed.

(** A big-endian field read back at its offset. *)
Lemma subarray_app_r a b first last :
  (length a ≤ first)%nat →
  subarray (a ++ b) first last = subarray b (first - length a) (last - length a).
Proof.
  intros. unfold subarray. rewrite drop_app_ge by done. f_equal; lia.
Qed.

Lemma subarray_app_l a b first last :
  (last ≤ length a)%nat → subarray (a ++ b) first last = subarray a first last.
Proof.
  intros. unfold subarray. destruct (decide (first ≤ last)%nat).
  - rewrite drop_app_le by lia. rewrite take_app_le; [done|]. rewrite length_drop. lia.
  - replace (last - first)%nat with 0%nat by lia. by rewrite !take_0.
Qed.

Lemma subarray_all a n : n = length a → subarray a 0 n = a.
Proof. intros ->. unfold subarray. rewrite drop_0, Nat.sub_0_r. by apply take_ge. Qed.

Lemma length_subarray a first last :
  (first ≤ last)%nat → (last ≤ length a)%nat → length (subarray a first last) = (last - first)%nat.
Proof. intros. unfold subarray. rewrite length_take, length_drop. lia. Qed.

Lemma read_be32 v rest : 0 ≤ v < 2 ^ 32 → readUInt32BE (be_encode 4 v ++ rest) 0 = v.
Proof.
  intros. unfold readUInt32BE. rewrite subarray_app_l by (rewrite length_be_encode; lia).
  rewrite subarray_all by (by rewrite length_be_encode). rewrite be_decode_encode. by apply Z.mod_small.
Qed.

Lemma read_be64 v rest : 0 ≤ v < 2 ^ 64 → readBigUInt64BE (be_encode 8 v ++ rest) 0 = v.
Proof.
  intros. unfold readBigUInt64BE. rewrite subarray_app_l by (rewrite length_be_encode; lia).
  rewrite subarray_all by (by rewrite length_be_encode). rewrite be_decode_encode. by apply Z.mod_small.
Qed.

Lemma read_le32 v rest : 0 ≤ v < 2 ^ 32 → readUInt32LE (le_encode 4 v ++ rest) 0 = v.
Proof.
  intros. unfold readUInt32LE. rewrite subarray_app_l by (rewrite length_le_encode; lia).
  rewrite subarray_all by (by rewrite length_le_encode). rewrite le_decode_encode. by apply Z.mod_small.
Qed.

(** Skipping a prefix of known length. *)
Lemma readUInt32BE_skip a b k n : length a = k → readUInt32BE (a ++ b) (k + n) = readUInt32BE b n.
Proof.
  intros <-. unfold readUInt32BE. rewrite subarray_app_r by lia. do 2 f_equal; lia.
Qed.
Lemma readUInt32LE_skip a b k n : length a = k → readUInt32LE (a ++ b) (k + n) = readUInt32LE b n.
Proof.
  intros <-. unfold readUInt32LE. rewrite subarray_app_r by lia. do 2 f_equal; lia.
Qed.

Lemma readUInt32LE_bound buf off : 0 ≤ readUInt32LE buf off < 2 ^ 32.
Proof.
  unfold readUInt32LE. pose proof (le_decode_bound (subarray buf off (off + 4))) as [? Hb].
  split; [done|]. eapply Z.lt_le_trans; [exact Hb|]. apply Z.pow_le_mono_r; [lia|].
  unfold subarray. rewrite length_take. lia.
Qed.
Lemma readUInt32BE_bound buf off : 0 ≤ readUInt32BE buf off < 2 ^ 32.
Proof.
  unfold readUInt32BE. pose proof (be_decode_bound (subarray buf off (off + 4))) as [? Hb].
  split; [done|]. eapply Z.lt_le_trans; [exact Hb|]. apply Z.pow_le_mono_r; [lia|].
  unfold subarray. rewrite length_take. lia.
Qed.

(** ** The 32-bit operators on unsigned values *)

Lemma to_uint32_land x : to_uint32 x = Z.land x (Z.ones 32).
Proof. unfold to_uint32. by rewrite Z.land_ones by lia. Qed.

Lemma to_uint32_small x : 0 ≤ x < 2 ^ 32 → to_uint32 x = x.
Proof. apply Z.mod_small. Qed.

Lemma to_uint32_range x : 0 ≤ to_uint32 x < 2 ^ 32.
Proof. by apply Z.mod_pos_bound. Qed.

Lemma to_uint32_int32 x : to_uint32 (to_int32 x) = to_uint32 x.
Proof.
  unfold to_uint32, to_int32. rewrite Zminus_mod_idemp_l. f_equal. lia.
Qed.

Lemma to_uint32_js_xor a b : to_uint32 (js_xor a b) = Z.lxor (to_uint32 a) (to_uint32 b).
Proof.
  rewrite <- (to_uint32_int32 a), <- (to_uint32_int32 b). unfold js_xor. rewrite !to_uint32_land.
  apply Z.bits_inj'. intros n Hn. rewrite !Z.land_spec, !Z.lxor_spec, !Z.land_spec.
  by destruct (Z.testbit (Z.ones 32) n); rewrite ?andb_true_r, ?andb_false_r.
Qed.

Lemma to_uint32_js_and a b : to_uint32 (js_and a b) = Z.land (to_uint32 a) (to_uint32 b).
Proof.
  rewrite <- (to_uint32_int32 a), <- (to_uint32_int32 b). unfold js_and. rewrite !to_uint32_land.
  apply Z.bits_inj'. intros n Hn. rewrite !Z.land_spec.
  by destruct (Z.testbit (Z.ones 32) n); rewrite ?andb_true_r, ?andb_false_r.
Qed.

(** With a mask below 2^31 the signed result is the unsigned one. *)
Lemma js_and_mask a m : 0 ≤ m < 2 ^ 31 → js_and a m = Z.land (to_uint32 a) m.
Proof.
  intros Hm. rewrite <- (to_uint32_small (js_and a m)).
  - by rewrite to_uint32_js_and, (to_uint32_small m) by lia.
  - unfold js_and. assert (to_int32 m = m) as -> by (unfold to_int32; rewrite Z.mod_small; lia).
    split; [apply Z.land_nonneg; right; lia|].
    apply Z.le_lt_trans with m; [|lia].
    apply Z.ldiff_le; [lia|]. apply Z.bits_inj'. intros n Hn.
    rewrite Z.ldiff_spec, Z.land_spec, Z.bits_0. by destruct (Z.testbit m n); rewrite ?andb_true_r, ?andb_false_r.
Qed.
