(* ===== verification/BufferQueue.v ===== *)
(** * Chunked byte storage

    [src/src/utils/BufferQueue.ts].  The first part is the interface the stream
    parsers rely on (class [ByteQueue] for the operations, [ByteQueueLaws] for
    what they promise in terms of the queued bytes); the second is the class
    [BufferQueue] itself, a list of chunks with a head index and offset, and
    the proof that it is an instance. *)
From S2P Require Import Prelude Bytes.

(** ** The interface *)

(** A queue operation may throw: [RangeError] for a request longer than the
    queue, [TypeError] for a read of a missing chunk. *)
Inductive QueueError := RangeError | TypeError.
#[export] Instance QueueError_eq_dec : EqDecision QueueError.
Proof. solve_decision. Defined.

Class ByteQueue (Q : Type) := {
  bq_empty : Q;
  bq_length : Q → nat;
  bq_append : Q → bytes → Q;
  bq_peek : Q → nat → outcome QueueError bytes;
  bq_takeDetached : Q → nat → outcome QueueError (bytes * Q);
  bq_discard : Q → nat → outcome QueueError Q;
  bq_toBuffer : Q → outcome QueueError bytes;
  bq_replace : Q → bytes → Q;
}.

(** What a client may rely on: [bq_ok] is an invariant of the reachable queues
    and [bq_bytes] the bytes queued, oldest first. *)
Class ByteQueueLaws (Q : Type) `{ByteQueue Q} := {
  bq_ok : Q → Prop;
  bq_bytes : Q → bytes;
  bq_empty_ok : bq_ok bq_empty;
  bq_empty_bytes : bq_bytes bq_empty = [];
  bq_length_spec q : bq_ok q → bq_length q = length (bq_bytes q);
  bq_append_ok q c : bq_ok q → bq_ok (bq_append q c);
  bq_append_bytes q c : bq_ok q → bq_bytes (bq_append q c) = bq_bytes q ++ c;
  bq_peek_spec q n : bq_ok q → n ≤ length (bq_bytes q) →
    bq_peek q n = Returns (take n (bq_bytes q));
  bq_peek_range q n : bq_ok q → length (bq_bytes q) < n → bq_peek q n = Throws RangeError;
  bq_takeDetached_spec q n : bq_ok q → n ≤ length (bq_bytes q) →
    ∃ q', bq_takeDetached q n = Returns (take n (bq_bytes q), q') ∧
      bq_ok q' ∧ bq_bytes q' = drop n (bq_bytes q);
  bq_takeDetached_range q n : bq_ok q → length (bq_bytes q) < n →
    bq_takeDetached q n = Throws RangeError;
  bq_discard_spec q n : bq_ok q → n ≤ length (bq_bytes q) →
    ∃ q', bq_discard q n = Returns q' ∧ bq_ok q' ∧ bq_bytes q' = drop n (bq_bytes q);
  bq_discard_range q n : bq_ok q → length (bq_bytes q) < n → bq_discard q n = Throws RangeError;
  bq_toBuffer_spec q : bq_ok q → bq_toBuffer q = Returns (bq_bytes q);
  bq_replace_ok q b : bq_ok (bq_replace q b);
  bq_replace_bytes q b : bq_bytes (bq_replace q b) = b;
}.

(** Two queues are equivalent when they hold the same bytes, however chunked. *)
Section queue_equiv.
Context {Q} `{ByteQueueLaws Q}.

Definition bq_equiv (q1 q2 : Q) : Prop := bq_ok q1 ∧ bq_ok q2 ∧ bq_bytes q1 = bq_bytes q2.

#[export] Instance bq_equiv_per : RelationClasses.PER bq_equiv.
Proof. split; unfold bq_equiv; [intros ?? (?&?&?); eauto|intros ??? (?&?&->) (?&?&?); eauto]. Qed.

#[export] Instance bq_length_proper : Proper (bq_equiv ==> eq) bq_length.
Proof. intros q1 q2 (?&?&Hb). by rewrite !bq_length_spec, Hb. Qed.

#[export] Instance bq_append_proper : Proper (bq_equiv ==> eq ==> bq_equiv) bq_append.
Proof.
  intros q1 q2 (?&?&Hb) c ? <-. split_and!; eauto using bq_append_ok.
  by rewrite !bq_append_bytes, Hb.
Qed.

#[export] Instance bq_peek_proper : Proper (bq_equiv ==> eq ==> eq) bq_peek.
Proof.
  intros q1 q2 (?&?&Hb) n ? <-. destruct (decide (n ≤ length (bq_bytes q1))).
  - by rewrite !bq_peek_spec, Hb by (done || by rewrite <- Hb).
  - by rewrite !bq_peek_range by (done || rewrite <- ?Hb; lia).
Qed.

Lemma bq_append_app q c1 c2 :
  bq_ok q → bq_equiv (bq_append (bq_append q c1) c2) (bq_append q (c1 ++ c2)).
Proof.
  intros. split_and!; eauto using bq_append_ok.
  rewrite !bq_append_bytes by eauto using bq_append_ok. by rewrite app_assoc.
Qed.
End queue_equiv.

(** ** The implementation *)

Record BufferQueue := mkQueue {
  chunks : list bytes;
  headChunk : nat;
  headOffset : nat;
  queueLength : nat;
  compactionWork : nat;
}.

Definition emptyQueue : BufferQueue := mkQueue [] 0 0 0 0.

Definition retainedChunkCount (q : BufferQueue) : nat := length (chunks q).
Definition compactionWorkUnits (q : BufferQueue) : nat := compactionWork q.

Definition append (q : BufferQueue) (chunk : bytes) : BufferQueue :=
  if bool_decide (length chunk = 0) then q
  else mkQueue (chunks q ++ [chunk]) (headChunk q) (headOffset q)
         (queueLength q + length chunk) (compactionWork q).

(** [copyTo]: the first [remaining] bytes from [start] of the first chunk of
    [rest] on; the loop reads [chunk.length] of a missing chunk when the chunks
    run out, a [TypeError]. *)
Fixpoint copyLoop (rest : list bytes) (start remaining : nat) : outcome QueueError bytes :=
  if bool_decide (remaining = 0) then Returns [] else
  match rest with
  | [] => Throws TypeError
  | chunk :: rest' =>
      let available := length chunk - start in
      let count := available `min` remaining in
      out ← copyLoop rest' 0 (remaining - count);
      Returns (subarray chunk start (start + count) ++ out)
  end.

Definition copyTo (q : BufferQueue) (length : nat) : outcome QueueError bytes :=
  copyLoop (drop (headChunk q) (chunks q)) (headOffset q) length.

Definition peek (q : BufferQueue) (n : nat) : outcome QueueError bytes :=
  if bool_decide (queueLength q < n) then Throws RangeError
  else if bool_decide (n = 0) then Returns []
  else match chunks q !! headChunk q with
       | None => Throws TypeError
       | Some first =>
           let firstAvailable := length first - headOffset q in
           if bool_decide (n ≤ firstAvailable)
           then Returns (subarray first (headOffset q) (headOffset q + n))
           else copyTo q n
       end.

Definition compact (q : BufferQueue) : BufferQueue :=
  if bool_decide (headChunk q = length (chunks q))
  then mkQueue [] 0 (headOffset q) (queueLength q) (compactionWork q)
  else if bool_decide (length (chunks q) ≤ headChunk q * 2)
  then let live := drop (headChunk q) (chunks q) in
       mkQueue live 0 (headOffset q) (queueLength q) (compactionWork q + length live)
  else q.

(** The loop of [discard] over the chunks from [headChunk] on. *)
Fixpoint discardLoop (rest : list bytes) (headChunk headOffset len remaining : nat) :
    outcome QueueError (nat * nat * nat) :=
  if bool_decide (remaining = 0) then Returns (headChunk, headOffset, len) else
  match rest with
  | [] => Throws TypeError
  | first :: rest' =>
      let available := length first - headOffset in
      if bool_decide (remaining < available)
      then Returns (headChunk, headOffset + remaining, len - remaining)
      else discardLoop rest' (S headChunk) 0 (len - available) (remaining - available)
  end.

Definition discard (q : BufferQueue) (n : nat) : outcome QueueError BufferQueue :=
  if bool_decide (queueLength q < n) then Throws RangeError
  else
    '(hc, ho, len) ← discardLoop (drop (headChunk q) (chunks q)) (headChunk q) (headOffset q)
                       (queueLength q) n;
    Returns (compact (mkQueue (chunks q) hc ho len (compactionWork q))).

Definition takeDetached (q : BufferQueue) (n : nat) : outcome QueueError (bytes * BufferQueue) :=
  if bool_decide (queueLength q < n) then Throws RangeError
  else if bool_decide (n = 0) then Returns ([], q)
  else out ← copyTo q n; q' ← discard q n; Returns (out, q').

Definition toBuffer (q : BufferQueue) : outcome QueueError bytes :=
  if bool_decide (queueLength q = 0) then Returns []
  else match chunks q !! headChunk q with
       | None => Throws TypeError
       | Some first =>
           if bool_decide (headChunk q = length (chunks q) - 1)
           then Returns (drop (headOffset q) first)
           else copyTo q (queueLength q)
       end.

Definition replace (q : BufferQueue) (b : bytes) : BufferQueue :=
  mkQueue (if bool_decide (length b = 0) then [] else [b]) 0 0 (length b) (compactionWork q).

#[export] Instance BufferQueue_ByteQueue : ByteQueue BufferQueue := {
  bq_empty := emptyQueue; bq_length := queueLength; bq_append := append; bq_peek := peek;
  bq_takeDetached := takeDetached; bq_discard := discard; bq_toBuffer := toBuffer;
  bq_replace := replace;
}.

(** ** Representation invariant and abstraction *)

Definition queue_bytes (q : BufferQueue) : bytes :=
  drop (headOffset q) (concat (drop (headChunk q) (chunks q))).

(** The head offset points strictly inside the first live chunk. *)
Definition head_inside (live : list bytes) (offset : nat) : Prop :=
  match live with [] => offset = 0 | first :: _ => offset < length first end.

Record queue_wf (q : BufferQueue) : Prop := {
  wf_nonempty : Forall (λ c, c ≠ []) (chunks q);
  wf_head : head_inside (drop (headChunk q) (chunks q)) (headOffset q);
  wf_length : queueLength q = length (queue_bytes q);
  wf_compact : headChunk q = 0 ∨ headChunk q * 2 < length (chunks q);
}.

Lemma head_inside_le live offset : head_inside live offset → offset ≤ length (concat live).
Proof. destruct live; simpl; [lia|]. rewrite length_app. lia. Qed.

Lemma queue_wf_length q : queue_wf q →
  queueLength q = length (concat (drop (headChunk q) (chunks q))) - headOffset q.
Proof. intros Hq. rewrite (wf_length q Hq). apply length_drop. Qed.

Lemma wf_live q : queue_wf q → headChunk q ≤ length (chunks q).
Proof. intros [_ _ _ [->|?]]; lia. Qed.

Lemma subarray_app_both (a b : bytes) (start n : nat) :
  start ≤ length a →
  subarray (a ++ b) start (start + n) =
  subarray a start (start + (length a - start) `min` n) ++ subarray b 0 (n - (length a - start)).
Proof.
  intros. unfold subarray. rewrite drop_app_le by done. rewrite take_app, length_drop, drop_0.
  f_equal; [|f_equal; lia].
  destruct (decide (n ≤ length a - start)); [f_equal; lia|].
  rewrite !take_ge; [done|rewrite length_drop; lia..].
Qed.

Lemma copyLoop_spec rest start n :
  match rest with [] => start = 0 | first :: _ => start ≤ length first end →
  start + n ≤ length (concat rest) →
  copyLoop rest start n = Returns (subarray (concat rest) start (start + n)).
Proof.
  revert start n. induction rest as [|c rest IH]; intros start n Hs Hn; simpl in *.
  - rewrite bool_decide_eq_true_2 by lia. replace n with 0 by lia.
    unfold subarray. by rewrite drop_nil, take_nil.
  - case_bool_decide as H0.
    { subst. unfold subarray. by rewrite Nat.add_0_r, Nat.sub_diag, take_0. }
    rewrite length_app in Hn. rewrite IH; simpl.
    + rewrite (subarray_app_both c) by done. do 2 f_equal. f_equal. lia.
    + destruct rest; simpl; lia.
    + lia.
Qed.

Lemma copyTo_spec q n : queue_wf q → n ≤ queueLength q → copyTo q n = Returns (take n (queue_bytes q)).
Proof.
  intros Hq Hn. rewrite (queue_wf_length q Hq) in Hn. unfold copyTo.
  pose proof (wf_head q Hq) as Hh. pose proof (head_inside_le _ _ Hh).
  rewrite copyLoop_spec.
  - unfold subarray, queue_bytes. do 2 f_equal. lia.
  - unfold head_inside in Hh. case_match; lia.
  - lia.
Qed.

Lemma discardLoop_spec rest hc ho len n :
  Forall (λ c, c ≠ []) rest → head_inside rest ho →
  len = length (concat rest) - ho → n ≤ len →
  ∃ k ho', discardLoop rest hc ho len n = Returns (hc + k, ho', len - n) ∧
    k ≤ length rest ∧ head_inside (drop k rest) ho' ∧
    drop ho' (concat (drop k rest)) = drop (ho + n) (concat rest).
Proof.
  revert hc ho len n. induction rest as [|c rest IH]; intros hc ho len n Hne Hh -> Hn; simpl in *.
  - rewrite bool_decide_eq_true_2 by lia. exists 0, ho.
    rewrite !drop_nil. split_and!; [rewrite Nat.add_0_r; repeat f_equal; lia|lia|exact Hh|simpl; by rewrite drop_nil].
  - case_bool_decide as H0.
    { exists 0, ho. subst. rewrite !Nat.add_0_r, Nat.sub_0_r. split_and!; [done|lia|done|done]. }
    rewrite length_app in *. apply Forall_cons_1 in Hne as [Hc Hne].
    case_bool_decide as Hav.
    { exists 0, (ho + n). split_and!; [by rewrite Nat.add_0_r|lia|simpl; lia|done]. }
    destruct (IH (S hc) 0 (length c + length (concat rest) - ho - (length c - ho)) (n - (length c - ho)))
      as (k & ho' & HL & Hk & Hin & Hd); [done| |lia|lia|].
    { destruct rest as [|c' r]; [done|]. apply Forall_cons_1 in Hne as [? _]. simpl.
      destruct c'; simpl; [done|lia]. }
    exists (S k), ho'. simpl. split_and!; [|lia|done|].
    + rewrite HL. by replace (S hc + k) with (hc + S k) by lia;
        replace (length c + length (concat rest) - ho - (length c - ho) - (n - (length c - ho)))
          with (length c + length (concat rest) - ho - n) by lia.
    + rewrite Hd, (drop_app_ge c) by lia. f_equal. lia.
Qed.

(** Compaction changes the representation, never the bytes. *)
Lemma compact_spec q :
  Forall (λ c, c ≠ []) (chunks q) → headChunk q ≤ length (chunks q) →
  head_inside (drop (headChunk q) (chunks q)) (headOffset q) →
  queueLength q = length (queue_bytes q) →
  queue_wf (compact q) ∧ queue_bytes (compact q) = queue_bytes q.
Proof.
  intros Hne Hle Hh Hl. unfold compact. case_bool_decide as Hd; [|case_bool_decide as Hhalf].
  - rewrite Hd, drop_all in Hh. simpl in Hh.
    assert (queue_bytes q = []) as Hb by (unfold queue_bytes; by rewrite Hd, drop_all, Hh).
    unfold queue_bytes in *; simpl. rewrite Hb, Hh in *. simpl.
    split; [|done]. split; simpl; try done; [by left].
  - unfold queue_bytes in *. simpl. rewrite drop_0. split; [|done].
    split; simpl; [by apply Forall_drop|by rewrite drop_0|by unfold queue_bytes; simpl; rewrite drop_0|by left].
  - split; [|done]. split; try done. right. lia.
Qed.

Lemma discard_spec q n : queue_wf q → n ≤ queueLength q →
  ∃ q', discard q n = Returns q' ∧ queue_wf q' ∧ queue_bytes q' = drop n (queue_bytes q).
Proof.
  intros Hq Hn. unfold discard. rewrite bool_decide_eq_false_2 by lia.
  destruct (discardLoop_spec (drop (headChunk q) (chunks q)) (headChunk q) (headOffset q)
              (queueLength q) n) as (k & ho & HL & Hk & Hin & Hd).
  - apply Forall_drop, (wf_nonempty q Hq).
  - apply (wf_head q Hq).
  - by apply queue_wf_length.
  - done.
  - rewrite HL. simpl. eexists. split; [done|]. rewrite length_drop in Hk.
    pose proof (wf_live q Hq).
    rewrite drop_drop in Hin, Hd.
    destruct (compact_spec (mkQueue (chunks q) (headChunk q + k) ho (queueLength q - n)
                              (compactionWork q))) as [Hw Hb]; simpl.
    + apply (wf_nonempty q Hq).
    + lia.
    + done.
    + unfold queue_bytes; simpl. rewrite Hd, length_drop.
      rewrite (queue_wf_length q Hq). lia.
    + split; [done|]. rewrite Hb. unfold queue_bytes; simpl. rewrite Hd.
      by rewrite drop_drop.
Qed.

Lemma append_wf q c : queue_wf q →
  queue_wf (append q c) ∧ queue_bytes (append q c) = queue_bytes q ++ c.
Proof.
  intros Hq. unfold append. case_bool_decide as Hc.
  { split; [done|]. apply nil_length_inv in Hc as ->. by rewrite app_nil_r. }
  pose proof (wf_live q Hq). pose proof (wf_head q Hq) as Hh.
  assert (queue_bytes (mkQueue (chunks q ++ [c]) (headChunk q) (headOffset q)
            (queueLength q + length c) (compactionWork q)) = queue_bytes q ++ c) as Hb.
  { unfold queue_bytes; simpl. rewrite drop_app_le by done. rewrite concat_app; simpl.
    rewrite app_nil_r. by rewrite drop_app_le by (by apply head_inside_le). }
  split; [|done]. split; simpl.
  - apply Forall_app_2; [apply (wf_nonempty q Hq)|]. apply Forall_singleton. by destruct c.
  - rewrite drop_app_le by done. destruct (drop _ (chunks q)); simpl in *; [|done].
    subst. destruct c; simpl in *; [done|]. lia.
  - rewrite Hb, length_app, (wf_length q Hq). done.
  - rewrite length_app. destruct (wf_compact q Hq); [by left|right; lia].
Qed.

Lemma replace_wf q b : queue_wf (replace q b) ∧ queue_bytes (replace q b) = b.
Proof.
  unfold replace. case_bool_decide as Hb.
  - apply nil_length_inv in Hb as ->. split; [|done]. split; try done. by left.
  - assert (queue_bytes (mkQueue [b] 0 0 (length b) (compactionWork q)) = b) as E.
    { unfold queue_bytes. simpl. by rewrite app_nil_r, drop_0. }
    split; [|done]. split; simpl; [by apply Forall_singleton; destruct b|lia|by rewrite E|by left].
Qed.

Lemma empty_wf : queue_wf emptyQueue.
Proof. split; try done. by left. Qed.

(** A queue with bytes has a head chunk. *)
Lemma head_some q : queue_wf q → queueLength q ≠ 0 →
  ∃ first rest, drop (headChunk q) (chunks q) = first :: rest ∧ chunks q !! headChunk q = Some first ∧
    headOffset q < length first.
Proof.
  intros Hq Hn. pose proof (queue_wf_length q Hq) as Hl. pose proof (wf_head q Hq) as Hh.
  destruct (drop (headChunk q) (chunks q)) as [|first rest] eqn:Hd; simpl in *; [lia|].
  exists first, rest. split_and!; try done.
  rewrite <- (Nat.add_0_r (headChunk q)), <- lookup_drop, Hd. done.
Qed.

Lemma peek_spec q n : queue_wf q → n ≤ queueLength q → peek q n = Returns (take n (queue_bytes q)).
Proof.
  intros Hq Hn. unfold peek. rewrite bool_decide_eq_false_2 by lia.
  case_bool_decide as H0; [by subst|].
  destruct (head_some q Hq) as (first & rest & Hd & -> & Ho); [lia|].
  case_bool_decide as Hav; [|by apply copyTo_spec].
  unfold queue_bytes, subarray. rewrite Hd. simpl. rewrite drop_app_le by lia.
  rewrite take_app_le by (rewrite length_drop; lia). do 2 f_equal. lia.
Qed.

Lemma takeDetached_spec q n : queue_wf q → n ≤ queueLength q →
  ∃ q', takeDetached q n = Returns (take n (queue_bytes q), q') ∧
    queue_wf q' ∧ queue_bytes q' = drop n (queue_bytes q).
Proof.
  intros Hq Hn. unfold takeDetached. rewrite bool_decide_eq_false_2 by lia.
  case_bool_decide as H0.
  { subst. exists q. by rewrite take_0, drop_0. }
  rewrite copyTo_spec by done. simpl.
  destruct (discard_spec q n Hq Hn) as (q' & -> & ? & ?). simpl. eauto.
Qed.

Lemma toBuffer_spec q : queue_wf q → toBuffer q = Returns (queue_bytes q).
Proof.
  intros Hq. unfold toBuffer. case_bool_decide as H0.
  { rewrite (wf_length q Hq) in H0. by apply nil_length_inv in H0 as ->. }
  destruct (head_some q Hq H0) as (first & rest & Hd & -> & Ho).
  case_bool_decide as Hlast.
  - pose proof (f_equal length Hd) as Hlen. rewrite length_drop in Hlen. simpl in Hlen.
    destruct rest; simpl in Hlen; [|lia]. unfold queue_bytes. rewrite Hd. simpl.
    by rewrite app_nil_r.
  - rewrite copyTo_spec by done. rewrite take_ge; [done|]. by rewrite (wf_length q Hq).
Qed.

(** A request longer than the queue throws [RangeError]. *)
Lemma peek_range q n : queueLength q < n → peek q n = Throws RangeError.
Proof. intros. unfold peek. by rewrite (bool_decide_eq_true_2 (queueLength q < n)). Qed.
Lemma takeDetached_range q n : queueLength q < n → takeDetached q n = Throws RangeError.
Proof. intros. unfold takeDetached. by rewrite (bool_decide_eq_true_2 (queueLength q < n)). Qed.
Lemma discard_range q n : queueLength q < n → discard q n = Throws RangeError.
Proof. intros. unfold discard. by rewrite (bool_decide_eq_true_2 (queueLength q < n)). Qed.

#[export] Program Instance BufferQueue_laws : ByteQueueLaws BufferQueue := {
  bq_ok := queue_wf; bq_bytes := queue_bytes;
}.
Next Obligation. apply empty_wf. Qed.
Next Obligation. done. Qed.
Next Obligation. intros q Hq. apply (wf_length q Hq). Qed.
Next Obligation. intros q c Hq. by apply append_wf. Qed.
Next Obligation. intros q c Hq. by apply append_wf. Qed.
Next Obligation. intros q n Hq Hn. rewrite <- (wf_length q Hq) in Hn. by apply peek_spec. Qed.
Next Obligation. intros q n Hq Hn. rewrite <- (wf_length q Hq) in Hn. by apply peek_range. Qed.
Next Obligation. intros q n Hq Hn. rewrite <- (wf_length q Hq) in Hn. by apply takeDetached_spec. Qed.
Next Obligation. intros q n Hq Hn. rewrite <- (wf_length q Hq) in Hn. by apply takeDetached_range. Qed.
Next Obligation. intros q n Hq Hn. rewrite <- (wf_length q Hq) in Hn. by apply discard_spec. Qed.
Next Obligation. intros q n Hq Hn. rewrite <- (wf_length q Hq) in Hn. by apply discard_range. Qed.
Next Obligation. apply toBuffer_spec. Qed.
Next Obligation. intros q b. apply replace_wf. Qed.
Next Obligation. intros q b. apply replace_wf. Qed.

(** ** Refinement to a flat byte list *)

Inductive QueueOp :=
| QAppend (chunk : bytes) | QReplace (b : bytes) | QLength
| QPeek (n : nat) | QTake (n : nat) | QDiscard (n : nat) | QToBuffer.

(** What a caller observes of one operation. *)
Inductive QueueObs := Done | Length (n : nat) | Bytes (b : bytes) | Raised (e : QueueError).

Definition observe {A} (o : outcome QueueError A) (f : A → QueueObs) : QueueObs :=
  match o with Returns a => f a | Throws e => Raised e end.
(** The queue after an operation: a throwing one leaves it as it was. *)
Definition queue_after (q : BufferQueue) (o : outcome QueueError BufferQueue) : BufferQueue :=
  match o with Returns q' => q' | Throws _ => q end.

Definition queue_step (q : BufferQueue) (op : QueueOp) : QueueObs * BufferQueue :=
  match op with
  | QAppend c => (Done, append q c)
  | QReplace b => (Done, replace q b)
  | QLength => (Length (queueLength q), q)
  | QPeek n => (observe (peek q n) Bytes, q)
  | QTake n => (observe (takeDetached q n) (λ r, Bytes r.1), queue_after q (snd <$> takeDetached q n))
  | QDiscard n => (observe (discard q n) (λ _, Done), queue_after q (discard q n))
  | QToBuffer => (observe (toBuffer q) Bytes, q)
  end.

(** The specification: the same operations on the bytes themselves. *)
Definition list_step (b : bytes) (op : QueueOp) : QueueObs * bytes :=
  match op with
  | QAppend c => (Done, b ++ c)
  | QReplace b' => (Done, b')
  | QLength => (Length (length b), b)
  | QPeek n => if decide (n ≤ length b) then (Bytes (take n b), b) else (Raised RangeError, b)
  | QTake n => if decide (n ≤ length b) then (Bytes (take n b), drop n b) else (Raised RangeError, b)
  | QDiscard n => if decide (n ≤ length b) then (Done, drop n b) else (Raised RangeError, b)
  | QToBuffer => (Bytes b, b)
  end.

Fixpoint run_queue {Q} (step : Q → QueueOp → QueueObs * Q) (q : Q) (ops : list QueueOp) :
    list QueueObs * Q :=
  match ops with
  | [] => ([], q)
  | op :: ops' =>
      let '(o, q') := step q op in
      let '(os, q'') := run_queue step q' ops' in (o :: os, q'')
  end.

Lemma queue_step_refines q op : queue_wf q →
  (queue_step q op).1 = (list_step (queue_bytes q) op).1 ∧
  queue_wf (queue_step q op).2 ∧
  queue_bytes (queue_step q op).2 = (list_step (queue_bytes q) op).2.
Proof.
  intros Hq. pose proof (wf_length q Hq) as Hl.
  destruct op as [c|b| |n|n|n|]; simpl.
  - split; [done|]. by apply append_wf.
  - split; [done|]. by apply replace_wf.
  - by rewrite Hl.
  - case_decide; simpl; [by rewrite peek_spec by (done || lia)|].
    by rewrite peek_range by lia.
  - case_decide; simpl.
    + destruct (takeDetached_spec q n) as (q' & -> & ? & ?); [done|lia|]. done.
    + by rewrite takeDetached_range by lia.
  - case_decide; simpl.
    + destruct (discard_spec q n) as (q' & -> & ? & ?); [done|lia|]. done.
    + by rewrite discard_range by lia.
  - by rewrite toBuffer_spec.
Qed.

(** [BufferQueue] refines a flat byte list: for every sequence of operations from the empty
    queue, each operation returns the bytes, the length or the [RangeError] the same operation
    on the concatenated bytes gives, and no operation ever reads a missing chunk. *)
Theorem buffer_queue_refines_bytes (ops : list QueueOp) :
  (run_queue queue_step emptyQueue ops).1 = (run_queue list_step [] ops).1 ∧
  queue_bytes (run_queue queue_step emptyQueue ops).2 = (run_queue list_step [] ops).2 ∧
  Raised TypeError ∉ (run_queue queue_step emptyQueue ops).1.
Proof.
  assert (∀ q, queue_wf q →
    (run_queue queue_step q ops).1 = (run_queue list_step (queue_bytes q) ops).1 ∧
    queue_bytes (run_queue queue_step q ops).2 = (run_queue list_step (queue_bytes q) ops).2) as H.
  { induction ops as [|op ops' IH]; intros q Hq; simpl; [done|].
    destruct (queue_step_refines q op Hq) as (Ho & Hw & Hb).
    destruct (queue_step q op) as [o q'], (list_step (queue_bytes q) op) as [o' b'].
    simpl in *. subst. destruct (IH q' Hw) as [H1 H2].
    destruct (run_queue queue_step q' ops'), (run_queue list_step (queue_bytes q') ops').
    simpl in *. by subst. }
  destruct (H emptyQueue empty_wf) as [H1 H2]. split_and!; [done|done|].
  rewrite H1. generalize (queue_bytes emptyQueue). clear.
  induction ops as [|op ops' IH]; intros b; simpl; [by apply not_elem_of_nil|].
  destruct (list_step b op) as [o b'] eqn:E. specialize (IH b').
  destruct (run_queue list_step b' ops'). simpl in *.
  apply not_elem_of_cons. split; [|done].
  destruct op; simpl in E; try case_decide; by simplify_eq.
Qed.

(** ** Amortised cost of compaction *)

(** Chunks an operation adds to the backing array. *)
Definition chunks_added (op : QueueOp) : nat :=
  match op with
  | QAppend c | QReplace c => if decide (length c = 0) then 0 else 1
  | _ => 0
  end.

Lemma compact_work q added :
  headChunk q ≤ length (chunks q) →
  compactionWork q + length (chunks q) ≤ added →
  compactionWork (compact q) + length (chunks (compact q)) ≤ added.
Proof.
  intros ? ?. unfold compact. repeat case_bool_decide; simpl; rewrite ?length_drop; lia.
Qed.

Lemma discard_work q n q' added : queue_wf q → discard q n = Returns q' →
  compactionWork q + length (chunks q) ≤ added → compactionWork q' + length (chunks q') ≤ added.
Proof.
  intros Hq Hd Hw. destruct (decide (n ≤ queueLength q)); [|by rewrite discard_range in Hd by lia].
  unfold discard in Hd. rewrite (bool_decide_eq_false_2 (queueLength q < n)) in Hd by lia.
  destruct (discardLoop_spec (drop (headChunk q) (chunks q)) (headChunk q) (headOffset q)
              (queueLength q) n) as (k & ho & HL & Hk & _ & _).
  - apply Forall_drop, (wf_nonempty q Hq).
  - apply (wf_head q Hq).
  - by apply queue_wf_length.
  - done.
  - rewrite HL in Hd. simplify_eq/=. rewrite length_drop in Hk. pose proof (wf_live q Hq).
    apply compact_work; simpl; lia.
Qed.

Lemma queue_step_work q op added : queue_wf q →
  compactionWork q + length (chunks q) ≤ added →
  compactionWork (queue_step q op).2 + length (chunks (queue_step q op).2) ≤ added + chunks_added op.
Proof.
  intros Hq Hw. destruct op as [c|b| |n|n|n|]; simpl; try lia.
  - unfold append. case_bool_decide; case_decide; simpl; rewrite ?length_app; simpl; lia.
  - unfold replace. case_bool_decide; case_decide; simpl; lia.
  - rewrite Nat.add_0_r. destruct (decide (n ≤ queueLength q)) as [Hn|Hn];
      [|by rewrite takeDetached_range by lia].
    unfold takeDetached. rewrite (bool_decide_eq_false_2 (queueLength q < n)) by lia.
    case_bool_decide; [done|]. rewrite copyTo_spec by done. simpl.
    destruct (discard q n) eqn:Hd; simpl; [|done]. by eapply discard_work.
  - rewrite Nat.add_0_r. unfold queue_after. destruct (discard q n) eqn:Hd; [|done].
    by eapply discard_work.
Qed.

Lemma live_chunks_le live offset : Forall (λ c : bytes, c ≠ []) live → head_inside live offset →
  length live ≤ length (concat live) - offset.
Proof.
  intros Hne Hh. destruct live as [|c live]; simpl in *; [lia|]. rewrite length_app.
  assert (length live ≤ length (concat live)) as Hl.
  { apply Forall_cons_1 in Hne as [_ Hne]. clear Hh. induction Hne as [|x l Hx _ IH]; simpl; [lia|].
    rewrite length_app. destruct x; simpl; [done|lia]. }
  lia.
Qed.

(** Compaction is amortised constant: over any sequence of operations the array elements
    moved by [compact] plus the chunks still retained never exceed the chunks appended, and the
    retained chunks are at most twice the bytes queued, so consumed chunks are released. *)
Theorem buffer_queue_compaction_linear (ops : list QueueOp) :
  let q := (run_queue queue_step emptyQueue ops).2 in
  compactionWorkUnits q + retainedChunkCount q ≤ sum_list_with chunks_added ops ∧
  retainedChunkCount q ≤ 2 * length (queue_bytes q).
Proof.
  assert (∀ q added, queue_wf q → compactionWork q + length (chunks q) ≤ added →
    let q' := (run_queue queue_step q ops).2 in
    queue_wf q' ∧ compactionWork q' + length (chunks q') ≤ added + sum_list_with chunks_added ops) as H.
  { induction ops as [|op ops' IH]; intros q added Hq Hw; simpl; [split; [done|lia]|].
    pose proof (queue_step_work q op added Hq Hw) as Hw'.
    destruct (queue_step_refines q op Hq) as (_ & Hq' & _).
    destruct (queue_step q op) as [o q'']. simpl in *.
    specialize (IH q'' _ Hq' Hw'). destruct (run_queue queue_step q'' ops') as [os q']. simpl in *.
    destruct IH. split; [done|lia]. }
  intros q. destruct (H emptyQueue 0 empty_wf) as [Hq Hw]; [simpl; lia|]. fold q in Hq, Hw.
  split; [exact Hw|]. unfold retainedChunkCount.
  pose proof (live_chunks_le _ _ (Forall_drop _ (headChunk q) _ (wf_nonempty q Hq)) (wf_head q Hq)) as Hl.
  rewrite length_drop in Hl. unfold queue_bytes. rewrite length_drop.
  destruct (wf_compact q Hq); lia.
Qed.

Example buffer_queue_run :
  (run_queue queue_step emptyQueue
     [QAppend [to_byte 1; to_byte 2]; QAppend [to_byte 3]; QTake 2; QPeek 1; QDiscard 5; QLength]).1 =
  [Done; Done; Bytes [to_byte 1; to_byte 2]; Bytes [to_byte 3]; Raised RangeError; Length 1].
Proof. reflexivity. Qed.
