(* ===== verification/LineFramer.v ===== *)
(** * Newline framing of the daemon's sockets

    [src/src/daemon/wire/LineFramer.ts].  [LineFramer] is the class's state,
    [push] one arriving chunk, [Event] a call of one of the two handlers.  The
    specification [frames] reads the concatenated input byte by byte and knows
    nothing of chunks. *)
From S2P Require Import Prelude Bytes.
Local Open Scope Z_scope.

Definition NEWLINE : byte := to_byte 10.

(** The frame limits of the sockets. *)
Definition CONTROL_SOCKET_MAX_FRAME_BYTES : Z := 256 * 1024 * 1024.
Definition AUX_SOCKET_MAX_FRAME_BYTES : Z := 1024 * 1024.
Definition DAEMON_CLIENT_MAX_FRAME_BYTES : Z := CONTROL_SOCKET_MAX_FRAME_BYTES.
Definition DAEMON_ONESHOT_CLIENT_MAX_FRAME_BYTES : Z := AUX_SOCKET_MAX_FRAME_BYTES.
Definition FAILURES_STREAM_MAX_FRAME_BYTES : Z := 8 * 1024 * 1024.

(** Calls of the handlers: [onLine] with the frame's bytes (decoded as UTF-8 by
    the caller of the handler), [onOverflow] with the copied head. *)
Inductive Event := OnLine (frame : bytes) | OnOverflow (frameHead : bytes).

Record LineFramer := mkFramer {
  scanCount : nat;
  scannedBytes : nat;
  pending : list bytes;
  pendingBytes : Z;
  overflowed : bool;
}.

Definition newFramer : LineFramer := mkFramer 0 0 [] 0 false.

Definition blen (b : bytes) : Z := Z.of_nat (length b).

(** [chunk.indexOf(NEWLINE, start) - start], on the bytes from [start] on. *)
Fixpoint indexOfNewline (l : bytes) : option nat :=
  match l with
  | [] => None
  | b :: l' => if decide (b = NEWLINE) then Some 0%nat else S <$> indexOfNewline l'
  end.

(** The copying loop of [overflow]: at most [room] bytes of the pending pieces,
    then of the tail; the loop stops once the head is full. *)
Fixpoint copyHead (room : nat) (pieces : list bytes) (tail : bytes) : bytes :=
  match pieces with
  | [] => take room tail
  | piece :: pieces' =>
      let copied := take room piece in
      if decide (length copied = room) then copied
      else copied ++ copyHead (room - length copied) pieces' tail
  end.

Section Framer.
Context (maxFrameBytes : Z).

Definition overflow (f : LineFramer) (tail : bytes) : LineFramer * list Event :=
  let head := copyHead (Z.to_nat (Z.min 256 (pendingBytes f + blen tail))) (pending f) tail in
  (mkFramer (scanCount f) (scannedBytes f) [] 0 true, [OnOverflow head]).

Definition appendPending (f : LineFramer) (piece : bytes) : LineFramer * list Event :=
  if maxFrameBytes <? pendingBytes f + blen piece then overflow f piece
  else (mkFramer (scanCount f) (scannedBytes f) (pending f ++ [piece])
          (pendingBytes f + blen piece) (overflowed f), []).

(** The boolean is [completeFrame]'s result: false when the frame overflowed. *)
Definition completeFrame (f : LineFramer) (tail : bytes) : LineFramer * list Event * bool :=
  let frameBytes := pendingBytes f + blen tail in
  if maxFrameBytes <? frameBytes then (overflow f tail, false)
  else
    let frame := match pending f with [] => tail | _ => concat (pending f ++ [tail]) end in
    (mkFramer (scanCount f) (scannedBytes f) [] 0 (overflowed f), [OnLine frame], true).

Definition scanned (f : LineFramer) (n : nat) : LineFramer :=
  mkFramer (S (scanCount f)) (scannedBytes f + n) (pending f) (pendingBytes f) (overflowed f).

(** The scanning loop of [push] on the bytes from [start] on; [fuel] bounds the
    iterations by the bytes left, each of which consumes at least one. *)
Fixpoint pushLoop (fuel : nat) (f : LineFramer) (rest : bytes) : LineFramer * list Event :=
  match fuel with
  | O => (f, [])
  | S fuel' =>
      if decide (length rest = 0)%nat then (f, []) else
      match indexOfNewline rest with
      | None => appendPending (scanned f (length rest)) rest
      | Some newline =>
          let '(f', evs, go) := completeFrame (scanned f newline) (take newline rest) in
          if go then
            let '(f'', evs') := pushLoop fuel' f' (drop (S newline) rest) in (f'', evs ++ evs')
          else (f', evs)
      end
  end.

Definition push (f : LineFramer) (chunk : bytes) : LineFramer * list Event :=
  if overflowed f then (f, []) else pushLoop (length chunk) f chunk.

Definition pushAll (f : LineFramer) (cs : list bytes) : LineFramer * list Event :=
  foldl (λ '(f, evs) c, let '(f', evs') := push f c in (f', evs ++ evs')) (f, []) cs.

(** ** Specification *)

(** The frames of an input, read byte by byte; [cur] is the frame being read.
    The first frame longer than the limit ends the stream. *)
Fixpoint frames (cur input : bytes) : list Event :=
  match input with
  | [] => if maxFrameBytes <? blen cur then [OnOverflow (take 256 cur)] else []
  | b :: rest =>
      if decide (b = NEWLINE) then
        if maxFrameBytes <? blen cur then [OnOverflow (take 256 cur)]
        else OnLine cur :: frames [] rest
      else frames (cur ++ [b]) rest
  end.

(** ** Lemmas *)

Lemma copyHead_spec room pieces tail :
  copyHead room pieces tail = take room (concat pieces ++ tail).
Proof.
  revert room. induction pieces as [|p ps IH]; intros room; simpl; [done|].
  rewrite <- app_assoc, take_app.
  case_decide as Hl; rewrite length_take in *.
  - replace (room - length p)%nat with 0%nat by lia. by rewrite take_0, app_nil_r.
  - rewrite IH. do 2 f_equal. lia.
Qed.

Lemma indexOfNewline_None l : indexOfNewline l = None → NEWLINE ∉ l.
Proof.
  induction l as [|b l IH]; simpl; [by intros _ ?%not_elem_of_nil|].
  case_decide; [done|]. destruct (indexOfNewline l); [done|]. intros _.
  apply not_elem_of_cons. split; [congruence|by apply IH].
Qed.

Lemma indexOfNewline_Some l k : indexOfNewline l = Some k →
  (k < length l)%nat ∧ l = take k l ++ NEWLINE :: drop (S k) l ∧ NEWLINE ∉ take k l.
Proof.
  revert k. induction l as [|b l IH]; intros k; simpl; [done|].
  case_decide as Hb.
  - intros [= <-]. subst. split_and!; [lia|done|apply not_elem_of_nil].
  - destruct (indexOfNewline l) as [k'|]; simpl; [|done]. intros [= <-].
    destruct (IH k' eq_refl) as (? & Heq & Hn). simpl.
    split_and!; [lia|by f_equal|]. apply not_elem_of_cons. split; [congruence|done].
Qed.

(** Reading bytes without a newline only extends the current frame. *)
Lemma frames_no_newline cur l rest :
  NEWLINE ∉ l → frames cur (l ++ rest) = frames (cur ++ l) rest.
Proof.
  revert cur. induction l as [|b l IH]; intros cur Hl; simpl; [by rewrite app_nil_r|].
  apply not_elem_of_cons in Hl as [Hb Hl]. rewrite decide_False by congruence.
  rewrite IH by done. by rewrite <- app_assoc.
Qed.

Lemma frames_newline cur l rest :
  NEWLINE ∉ l → frames cur (l ++ NEWLINE :: rest) =
  if maxFrameBytes <? blen (cur ++ l) then [OnOverflow (take 256 (cur ++ l))]
  else OnLine (cur ++ l) :: frames [] rest.
Proof. intros. rewrite frames_no_newline by done. done. Qed.

(** An over-long frame is reported whatever follows it; its head is settled
    once 256 bytes of it are known. *)
Lemma frames_overflow cur rest :
  255 ≤ maxFrameBytes → maxFrameBytes < blen cur → frames cur rest = [OnOverflow (take 256 cur)].
Proof.
  intros Hmax. revert cur. induction rest as [|b rest IH]; intros cur Hcur; simpl.
  - by rewrite (proj2 (Z.ltb_lt _ _)).
  - rewrite (proj2 (Z.ltb_lt _ _)) by done. case_decide; [done|].
    rewrite IH by (unfold blen in *; rewrite length_app; lia).
    rewrite take_app_le by (unfold blen in Hcur; lia). done.
Qed.

(** The framer's invariant: the running count is the size of the pending
    pieces and within the limit; an overflowed framer keeps nothing. *)
Definition framer_inv (f : LineFramer) : Prop :=
  pendingBytes f = blen (concat (pending f)) ∧ pendingBytes f ≤ maxFrameBytes ∧
  (overflowed f = true → pending f = []).

(** The events still to come, given the rest of the input. *)
Definition remaining (f : LineFramer) (rest : bytes) : list Event :=
  if overflowed f then [] else frames (concat (pending f)) rest.

Lemma blen_app a b : blen (a ++ b) = blen a + blen b.
Proof. unfold blen. rewrite length_app. lia. Qed.
Lemma blen_nonneg a : 0 ≤ blen a.
Proof. unfold blen. lia. Qed.

Lemma overflow_spec f tail rest :
  255 ≤ maxFrameBytes → framer_inv f → maxFrameBytes < pendingBytes f + blen tail →
  framer_inv (overflow f tail).1 ∧
  frames (concat (pending f)) (tail ++ rest) = (overflow f tail).2 ∨ NEWLINE ∈ tail.
Proof.
  intros Hmax (Hp & Hle & _) Ho. destruct (decide (NEWLINE ∈ tail)) as [|Hn]; [by right|left].
  split; [split_and!; simpl; [done|lia|done]|].
  rewrite frames_no_newline by done.
  rewrite frames_overflow by (rewrite ?blen_app; lia). simpl. do 2 f_equal.
  rewrite copyHead_spec. symmetry. unfold blen in *.
  destruct (decide (pendingBytes f + Z.of_nat (length tail) ≤ 256)).
  - rewrite Z.min_r by lia. rewrite !take_ge; [done|rewrite length_app; lia..].
  - by rewrite Z.min_l by lia.
Qed.

(** [count_lines] of a list of events: the frames completed. *)
Definition is_line (e : Event) : bool := match e with OnLine _ => true | _ => false end.
Definition count_lines (evs : list Event) : nat := length (List.filter is_line evs).

(** One push: the events emitted, then those of the rest, are those of the
    specification; the scan counters advance by what was examined. *)
Lemma completeFrame_spec f l rest :
  255 ≤ maxFrameBytes → framer_inv f → overflowed f = false → NEWLINE ∉ l →
  let '(f', evs, go) := completeFrame f l in
  framer_inv f' ∧ overflowed f' = negb go ∧
  frames (concat (pending f)) (l ++ NEWLINE :: rest) = evs ++ (if go then frames [] rest else []) ∧
  (go = true → pending f' = [] ∧ count_lines evs = 1%nat) ∧
  scanCount f' = scanCount f ∧ scannedBytes f' = scannedBytes f.
Proof.
  intros Hmax Hf Ho Hl. pose proof Hf as (Hp & Hle & _). unfold completeFrame.
  destruct (Z.ltb_spec maxFrameBytes (pendingBytes f + blen l)) as [Hbig|Hsmall].
  - destruct (overflow_spec f l (NEWLINE :: rest) Hmax Hf Hbig) as [[? Heq]|]; [|done].
    unfold overflow in *. simpl in *. by split_and!.
  - rewrite frames_newline by done. rewrite (proj2 (Z.ltb_ge _ _)) by (rewrite blen_app; lia).
    simpl. split_and!; try done; [split_and!; simpl; [done|lia|done]|].
    destruct (pending f); simpl; [done|]. rewrite concat_app. simpl. by rewrite app_nil_r, <- !app_assoc.
Qed.

Lemma appendPending_spec f l rest :
  255 ≤ maxFrameBytes → framer_inv f → overflowed f = false → NEWLINE ∉ l →
  let '(f', evs) := appendPending f l in
  framer_inv f' ∧ frames (concat (pending f)) (l ++ rest) = evs ++ remaining f' rest ∧
  (overflowed f' = false → evs = []) ∧
  scanCount f' = scanCount f ∧ scannedBytes f' = scannedBytes f.
Proof.
  intros Hmax Hf Ho Hl. pose proof Hf as (Hp & Hle & _). unfold appendPending.
  destruct (Z.ltb_spec maxFrameBytes (pendingBytes f + blen l)) as [Hbig|Hsmall].
  - destruct (overflow_spec f l rest Hmax Hf Hbig) as [[? Heq]|]; [|done].
    unfold overflow, remaining in *. simpl in *. by split_and!.
  - unfold remaining. simpl. rewrite Ho, concat_app. simpl. rewrite app_nil_r.
    split_and!; try done; simpl.
    + split_and!; simpl; [|done|congruence]. rewrite concat_app, !blen_app. simpl.
      rewrite app_nil_r. lia.
    + by rewrite frames_no_newline.
Qed.

Lemma scanned_inv f n : framer_inv f → framer_inv (scanned f n).
Proof. by intros. Qed.

Lemma pushLoop_spec fuel f l rest :
  255 ≤ maxFrameBytes → framer_inv f → overflowed f = false → (length l ≤ fuel)%nat →
  let '(f', evs) := pushLoop fuel f l in
  framer_inv f' ∧ frames (concat (pending f)) (l ++ rest) = evs ++ remaining f' rest ∧
  (overflowed f' = false →
     (scannedBytes f' + count_lines evs = scannedBytes f + length l)%nat) ∧
  (scannedBytes f' ≤ scannedBytes f + length l)%nat ∧
  (scanCount f' ≤ scanCount f + S (count_lines evs))%nat.
Proof.
  intros Hmax. revert f l. induction fuel as [|fuel IH]; intros f l Hf Ho Hfuel.
  { destruct l; simpl in *; [|lia]. unfold remaining. rewrite Ho.
    split_and!; try apply Hf; simpl; try done; lia. }
  simpl. case_decide as Hl.
  { apply nil_length_inv in Hl as ->. simpl. unfold remaining. rewrite Ho.
    split_and!; try apply Hf; simpl; try done; lia. }
  destruct (indexOfNewline l) as [k|] eqn:Hk.
  - apply indexOfNewline_Some in Hk as (Hlt & Heq & Hn).
    pose proof (completeFrame_spec (scanned f k) (take k l) (drop (S k) l ++ rest) Hmax
                  (scanned_inv f k Hf) Ho Hn) as Hc.
    destruct (completeFrame (scanned f k) (take k l)) as [[f' evs] go].
    destruct Hc as (Hf' & Ho' & Hfr & Hgo & Hsc & Hsb). simpl in Hsc, Hsb, Hfr.
    replace (l ++ rest) with (take k l ++ NEWLINE :: drop (S k) l ++ rest)
      by (rewrite Heq at 3; by rewrite <- app_assoc).
    destruct go; simpl in Ho'.
    + destruct (Hgo eq_refl) as [Hp' Hlen].
      pose proof (IH f' (drop (S k) l) Hf' Ho') as Hrec.
      rewrite length_drop in Hrec.
      destruct (pushLoop fuel f' (drop (S k) l)) as [f'' evs'].
      destruct Hrec as (Hf'' & Hfr' & Hex & Hle & Hcnt); [lia|].
      rewrite Hp' in Hfr'. simpl in Hfr'.
      unfold count_lines in *. rewrite List.filter_app, length_app.
      split_and!; [done|by rewrite Hfr, Hfr', app_assoc|intros H; specialize (Hex H); lia|lia|lia].
    + unfold remaining. rewrite Ho'. split_and!; [done|done|done|lia|lia].
  - apply indexOfNewline_None in Hk.
    pose proof (appendPending_spec (scanned f (length l)) l rest Hmax
                  (scanned_inv f _ Hf) Ho Hk) as Ha.
    destruct (appendPending (scanned f (length l)) l) as [f' evs].
    destruct Ha as (? & ? & Hev & Hsc & Hsb). simpl in *.
    split_and!; [done|done|intros H'; rewrite (Hev H'); unfold count_lines; simpl; lia|lia|lia].
Qed.
End Framer.

(** ** Streams of chunks *)

Lemma push_spec maxFrameBytes f c rest :
  255 ≤ maxFrameBytes → framer_inv maxFrameBytes f →
  framer_inv maxFrameBytes (push maxFrameBytes f c).1 ∧
  remaining maxFrameBytes f (c ++ rest) =
    (push maxFrameBytes f c).2 ++ remaining maxFrameBytes (push maxFrameBytes f c).1 rest ∧
  (overflowed (push maxFrameBytes f c).1 = false →
     (scannedBytes (push maxFrameBytes f c).1 + count_lines (push maxFrameBytes f c).2
      = scannedBytes f + length c)%nat) ∧
  (scannedBytes (push maxFrameBytes f c).1 ≤ scannedBytes f + length c)%nat ∧
  (scanCount (push maxFrameBytes f c).1 ≤ scanCount f + S (count_lines (push maxFrameBytes f c).2))%nat.
Proof.
  intros Hmax Hf. unfold push. destruct (overflowed f) eqn:Ho; simpl.
  { unfold remaining. rewrite Ho. split_and!; try done; try lia. }
  pose proof (pushLoop_spec maxFrameBytes (length c) f c rest Hmax Hf Ho (le_n _)) as H.
  destruct (pushLoop maxFrameBytes (length c) f c) as [f' evs]. simpl.
  unfold remaining at 1. rewrite Ho. apply H.
Qed.

Lemma pushAll_snoc maxFrameBytes f cs c :
  pushAll maxFrameBytes f (cs ++ [c]) =
  ((push maxFrameBytes (pushAll maxFrameBytes f cs).1 c).1,
   (pushAll maxFrameBytes f cs).2 ++ (push maxFrameBytes (pushAll maxFrameBytes f cs).1 c).2).
Proof.
  unfold pushAll. rewrite foldl_snoc. destruct (foldl _ _ cs) as [f' evs]. simpl.
  by destruct (push maxFrameBytes f' c).
Qed.

Lemma count_lines_app a b : count_lines (a ++ b) = (count_lines a + count_lines b)%nat.
Proof. unfold count_lines. by rewrite List.filter_app, length_app. Qed.

Lemma pushAll_spec maxFrameBytes cs rest :
  255 ≤ maxFrameBytes →
  let '(f, evs) := pushAll maxFrameBytes newFramer cs in
  framer_inv maxFrameBytes f ∧
  frames maxFrameBytes [] (concat cs ++ rest) = evs ++ remaining maxFrameBytes f rest ∧
  (overflowed f = false → (scannedBytes f + count_lines evs = length (concat cs))%nat) ∧
  (scannedBytes f ≤ length (concat cs))%nat ∧
  (scanCount f ≤ length cs + count_lines evs)%nat.
Proof.
  intros Hmax. revert rest. induction cs as [|c cs IH] using rev_ind; intros rest.
  { unfold framer_inv. simpl. split_and!; simpl; try done; lia. }
  rewrite pushAll_snoc. specialize (IH (c ++ rest)).
  destruct (pushAll maxFrameBytes newFramer cs) as [f evs]. simpl.
  destruct IH as (Hf & Hev & Hex & Hle & Hcnt).
  destruct (push_spec maxFrameBytes f c rest Hmax Hf) as (Hf' & Hev' & Hex' & Hle' & Hcnt').
  rewrite concat_app, !length_app, count_lines_app. simpl. rewrite app_nil_r.
  split_and!; [done| | |lia|lia].
  - by rewrite <- app_assoc, Hev, Hev', app_assoc.
  - intros Ho. specialize (Hex' Ho). destruct (overflowed f) eqn:Ho0.
    + exfalso. unfold push in Ho. rewrite Ho0 in Ho. simpl in Ho. congruence.
    + specialize (Hex eq_refl). lia.
Qed.

(** Framing does not depend on how the transport splits the bytes: with any limit of at least
    255 bytes, the handler calls made for a sequence of chunks are the frames of the
    concatenated input, and after the stream so far every further byte is judged
    as if the whole input had arrived at once. *)
Theorem line_framer_chunk_independent (maxFrameBytes : Z) (cs : list bytes) (rest : bytes) :
  255 ≤ maxFrameBytes →
  let '(f, evs) := pushAll maxFrameBytes newFramer cs in
  frames maxFrameBytes [] (concat cs ++ rest) =
    evs ++ (if overflowed f then [] else frames maxFrameBytes (concat (pending f)) rest).
Proof.
  intros Hmax. pose proof (pushAll_spec maxFrameBytes cs rest Hmax) as H.
  destruct (pushAll maxFrameBytes newFramer cs). apply H.
Qed.

(** Memory and work are bounded: the bytes kept between chunks never exceed the frame limit
    and are none after an overflow; the delimiter scan examines each received byte
    at most once, exactly the received bytes less one per completed frame (its newline) while the stream has not
    overflowed; and it runs at most once per chunk and once per frame. *)
Theorem line_framer_bounded (maxFrameBytes : Z) (cs : list bytes) :
  255 ≤ maxFrameBytes →
  let '(f, evs) := pushAll maxFrameBytes newFramer cs in
  blen (concat (pending f)) ≤ maxFrameBytes ∧
  (overflowed f = true → pending f = []) ∧
  (scannedBytes f ≤ length (concat cs))%nat ∧
  (overflowed f = false → (scannedBytes f + count_lines evs = length (concat cs))%nat) ∧
  (scanCount f ≤ length cs + count_lines evs)%nat.
Proof.
  intros Hmax. pose proof (pushAll_spec maxFrameBytes cs [] Hmax) as H.
  destruct (pushAll maxFrameBytes newFramer cs) as [f evs].
  destruct H as ((Hp & Hle & Ho) & _ & Hex & Hb & Hc). rewrite <- Hp. done.
Qed.

(** A frame split across three chunks, a second one, and an unfinished third. *)
Lemma line_framer_chunk_independent_witness :
  let nl := NEWLINE in let a := to_byte 97 in
  frames AUX_SOCKET_MAX_FRAME_BYTES [] ([a; a; nl; a; nl; a] ++ [nl]) =
    [OnLine [a; a]; OnLine [a]] ++ frames AUX_SOCKET_MAX_FRAME_BYTES [a] [nl].
Proof.
  intros nl a.
  exact (line_framer_chunk_independent AUX_SOCKET_MAX_FRAME_BYTES [[a]; [a; nl; a]; [nl; a]] [nl]
           ltac:(vm_compute; discriminate)).
Defined.

Lemma line_framer_bounded_witness :
  let '(f, evs) := pushAll 255 newFramer [repeat (to_byte 97) 200; repeat (to_byte 98) 100] in
  pending f = [] ∧ count_lines evs = 0%nat ∧ (scannedBytes f ≤ 300)%nat.
Proof.
  pose proof (line_framer_bounded 255 [repeat (to_byte 97) 200; repeat (to_byte 98) 100]
                ltac:(done)) as H.
  vm_compute in H |- *. destruct H as (_ & Ho & Hs & _). auto.
Defined.
