(* ===== verification/Incremental.v ===== *)
(** * Incremental parsers

    The stream decoders of the system all have the same shape: bytes arrive in
    arbitrary chunks, are queued, and a loop consumes what is complete.  This
    file states once what makes such a decoder independent of the chunking: a
    step function on the parser state and the queued bytes whose decisions are
    stable when more bytes arrive (class [IncrementalParser]). *)
From S2P Require Import Prelude Bytes.

(** One iteration of the decoding loop. *)
Inductive presult (S Ev Err : Type) :=
| Need (s : S) (rest : bytes)
| Emit (s : S) (evs : list Ev) (rest : bytes)
| Fail (e : Err).
Arguments Need {S Ev Err} s rest.
Arguments Emit {S Ev Err} s evs rest.
Arguments Fail {S Ev Err} e.

(** How a run over the queued bytes ends. *)
Inductive pfinal (S Err : Type) :=
| Waiting (s : S) (rest : bytes)
| Failed (e : Err).
Arguments Waiting {S Err} s rest.
Arguments Failed {S Err} e.

Class IncrementalParser {S Ev Err} (step : S → bytes → presult S Ev Err) := {
  ip_measure : S → bytes → nat;
  ip_progress s a s' evs r : step s a = Emit s' evs r → ip_measure s' r < ip_measure s a;
  ip_need s a s' r b : step s a = Need s' r → step s (a ++ b) = step s' (r ++ b);
  ip_emit s a s' evs r b : step s a = Emit s' evs r → step s (a ++ b) = Emit s' evs (r ++ b);
  ip_fail s a e b : step s a = Fail e → step s (a ++ b) = Fail e;
}.

Section Incremental.
Context {S Ev Err} (step : S → bytes → presult S Ev Err) `{!IncrementalParser step}.

(** The run of the loop, as a relation. *)
Inductive drains : S → bytes → list Ev → pfinal S Err → Prop :=
| drains_need s a s' r : step s a = Need s' r → drains s a [] (Waiting s' r)
| drains_fail s a e : step s a = Fail e → drains s a [] (Failed e)
| drains_emit s a s' ev r evs fin :
    step s a = Emit s' ev r → drains s' r evs fin → drains s a (ev ++ evs) fin.

Lemma drains_det s a evs fin evs' fin' :
  drains s a evs fin → drains s a evs' fin' → evs = evs' ∧ fin = fin'.
Proof.
  intros H. revert evs' fin'.
  induction H as [s a s0 r0 H1|s a e H1|s a s0 ev r0 evs fin H1 H2 IH]; intros evs' fin' H';
    inversion H'; subst;
    match goal with E : step s a = _ |- _ => rewrite H1 in E; simplify_eq; try done end.
  edestruct IH as [-> ->]; done.
Qed.

(** The loop terminates on every input. *)
Lemma drains_total s a : ∃ evs fin, drains s a evs fin.
Proof.
  remember (ip_measure s a) as n eqn:Hn. revert s a Hn.
  induction n as [n IH] using lt_wf_ind; intros s a ->.
  destruct (step s a) as [s' r|s' ev r|e] eqn:E.
  - eexists _, _. by apply drains_need.
  - destruct (IH _ (ip_progress _ _ _ _ _ E) s' r eq_refl) as (evs & fin & H).
    eexists _, _. by eapply drains_emit.
  - eexists _, _. by apply drains_fail.
Qed.

(** Bytes arriving later continue the run. *)
Lemma drains_app s a evs s' r b evs' fin :
  drains s a evs (Waiting s' r) → drains s' (r ++ b) evs' fin →
  drains s (a ++ b) (evs ++ evs') fin.
Proof.
  intros H. remember (Waiting s' r) as w eqn:Hw. revert Hw.
  induction H as [s a s0 r0 H1|s a e H1|s a s0 ev r0 evs fin0 H1 H2 IH]; intros Hw H'; simplify_eq.
  - simpl. pose proof (ip_need _ _ _ _ b H1) as Hb. inversion H'; subst.
    + apply drains_need. by rewrite Hb.
    + apply drains_fail. by rewrite Hb.
    + eapply drains_emit; [by rewrite Hb|done].
  - rewrite <- app_assoc. eapply drains_emit; [by apply ip_emit|by apply IH].
Qed.

Lemma drains_failed_app s a evs e b :
  drains s a evs (Failed e) → drains s (a ++ b) evs (Failed e).
Proof.
  intros H. remember (Failed e) as w eqn:Hw. revert Hw.
  induction H as [s a s0 r0 H1|s a e0 H1|s a s0 ev r0 evs fin0 H1 H2 IH]; intros Hw; simplify_eq.
  - apply drains_fail. by apply ip_fail.
  - eapply drains_emit; [by apply ip_emit|by apply IH].
Qed.

(** Some iterations of the loop. *)
Inductive steps : S → bytes → list Ev → S → bytes → Prop :=
| steps_refl s a : steps s a [] s a
| steps_emit s a ev s1 a1 evs s' a' :
    step s a = Emit s1 ev a1 → steps s1 a1 evs s' a' → steps s a (ev ++ evs) s' a'.

Lemma steps_one s a ev s' a' : step s a = Emit s' ev a' → steps s a ev s' a'.
Proof. intros H. rewrite <- (app_nil_r ev). eapply steps_emit; [done|constructor]. Qed.

Lemma steps_trans s a evs s1 a1 evs' s' a' :
  steps s a evs s1 a1 → steps s1 a1 evs' s' a' → steps s a (evs ++ evs') s' a'.
Proof.
  intros H. revert evs'. induction H as [|s a ev s1 a1 evs s2 a2 H1 _ IH]; intros evs' H'; [done|].
  rewrite <- app_assoc. eapply steps_emit; [done|by apply IH].
Qed.

Lemma steps_measure s a evs s' a' : steps s a evs s' a' → ip_measure s' a' ≤ ip_measure s a.
Proof.
  induction 1 as [|s a ev s1 a1 evs s' a' H1 _ IH]; [done|]. apply ip_progress in H1. lia.
Qed.

Lemma steps_drains s a evs s' a' evs' fin :
  steps s a evs s' a' → drains s' a' evs' fin → drains s a (evs ++ evs') fin.
Proof.
  intros H. revert evs'. induction H as [|s a ev s1 a1 evs s2 a2 H1 _ IH]; intros evs' H'; [done|].
  rewrite <- app_assoc. eapply drains_emit; [done|by apply IH].
Qed.

Lemma steps_app s a evs s' a' b : steps s a evs s' a' → steps s (a ++ b) evs s' (a' ++ b).
Proof.
  induction 1 as [|s a ev s1 a1 evs s' a' H1 _ IH]; [constructor|].
  eapply steps_emit; [by apply ip_emit|done].
Qed.

(** A parser that has stopped to wait has nothing left to do. *)
Definition settled (s : S) (rest : bytes) : Prop := step s rest = Need s rest.

Lemma drains_settled s a evs s' r : drains s a evs (Waiting s' r) → settled s' r.
Proof.
  intros H. remember (Waiting s' r) as w eqn:Hw. revert Hw.
  induction H as [s a s0 r0 H1|s a e H1|s a s0 ev r0 evs fin H1 H2 IH]; intros Hw; simplify_eq;
    [|by apply IH].
  unfold settled. pose proof (ip_need _ _ _ _ [] H1) as Hn. rewrite !app_nil_r in Hn. congruence.
Qed.

(** Feeding chunks one after the other; a failure ends the stream. *)
Inductive feeds : S → bytes → list bytes → list Ev → pfinal S Err → Prop :=
| feeds_nil s r : feeds s r [] [] (Waiting s r)
| feeds_cons s r c cs evs s' r' evs' fin :
    drains s (r ++ c) evs (Waiting s' r') → feeds s' r' cs evs' fin →
    feeds s r (c :: cs) (evs ++ evs') fin
| feeds_failed s r c cs evs e :
    drains s (r ++ c) evs (Failed e) → feeds s r (c :: cs) evs (Failed e).

(** Feeding the chunks is feeding their concatenation. *)
Lemma feeds_concat s r cs evs fin :
  settled s r → feeds s r cs evs fin → drains s (r ++ concat cs) evs fin.
Proof.
  intros Hs H. induction H as [s r|s r c cs evs s' r' evs' fin H1 H2 IH|s r c cs evs e H1]; simpl.
  - rewrite app_nil_r. by apply drains_need.
  - rewrite app_assoc. eapply drains_app; [done|]. apply IH. by eapply drains_settled.
  - rewrite app_assoc. by apply drains_failed_app.
Qed.
End Incremental.
