(* ===== verification/VideoStream.v ===== *)
(** * The video stream framing

    [src/src/daemon/videoStreamFraming.ts], the encoders of the relay, and
    [src/src/features/webrtc/VideoServerStreamParser.ts], the incremental
    parser of the encoder's stream.  The parser is written against the
    [ByteQueue] interface; its theorems hold for every lawful queue and are
    instantiated with [BufferQueue]. *)
From stdpp Require Import gmap.
From S2P Require Import Prelude Bytes BufferQueue Incremental.
Local Open Scope Z_scope.

(** ** Encoders *)

Definition CODEC_ID_H264 : Z := 0x68323634.
Definition PACKET_FLAG_CONFIG : Z := Z.shiftl 1 63.
Definition PACKET_FLAG_KEY_FRAME : Z := Z.shiftl 1 62.
Definition PACKET_FLAG_ROTATION_PRESENT : Z := Z.shiftl 1 61.
Definition PACKET_FLAG_DROPPED_FRAMES : Z := Z.shiftl 1 59.
Definition PACKET_FLAG_HEARTBEAT : Z := Z.shiftl 1 60.
Definition ROTATION_SHIFT : Z := 59.
Definition ROTATION_MASK : Z := Z.shiftl 3 ROTATION_SHIFT.
Definition PTS_MASK : Z := Z.shiftl 1 ROTATION_SHIFT - 1.

Definition encodeStreamHeader (width height : Z) : outcome BufferError bytes :=
  c ← writeInt32BE CODEC_ID_H264; w ← writeInt32BE width; h ← writeInt32BE height;
  Returns (c ++ w ++ h).

Record PacketOptions := mkOptions { isConfig : bool; isKeyFrame : bool; rotationOption : option Z }.

Definition encodePtsAndFlags (presentationTimeUs : Z) (o : PacketOptions) : Z :=
  let ptsAndFlags := Z.land presentationTimeUs PTS_MASK in
  let ptsAndFlags :=
    if isConfig o then
      let ptsAndFlags := Z.lor ptsAndFlags PACKET_FLAG_CONFIG in
      match rotationOption o with
      | Some rotation =>
          Z.lor (Z.lor ptsAndFlags PACKET_FLAG_ROTATION_PRESENT)
            (Z.shiftl (Z.land rotation 3) ROTATION_SHIFT)
      | None => ptsAndFlags
      end
    else ptsAndFlags in
  if isKeyFrame o then Z.lor ptsAndFlags PACKET_FLAG_KEY_FRAME else ptsAndFlags.

(** [BigInt.asIntN(64, x)] written big-endian is the low 64 bits of [x]. *)
Definition encodePacketHeader (ptsAndFlags size : Z) : outcome BufferError bytes :=
  s ← writeInt32BE size; Returns (be_encode 8 ptsAndFlags ++ s).

Definition encodePacket (ptsAndFlags : Z) (payload : bytes) : outcome BufferError bytes :=
  h ← encodePacketHeader ptsAndFlags (Z.of_nat (length payload)); Returns (h ++ payload).

Definition encodeDroppedFrames (droppedFrames : Z) : outcome BufferError bytes :=
  encodePacket (Z.lor PACKET_FLAG_DROPPED_FRAMES (Z.land droppedFrames PTS_MASK)) [].

Definition encodeHeartbeat : outcome BufferError bytes := encodePacket PACKET_FLAG_HEARTBEAT [].

(** [firstNalUnitType]: the loop over [i] reads the chunk from [i] on. *)
Fixpoint firstNalUnitType (chunk : bytes) : option Z :=
  match chunk with
  | b0 :: (b1 :: b2 :: b3 :: rest) as tail =>
      if bool_decide (ubyte b0 ≠ 0) || bool_decide (ubyte b1 ≠ 0) then firstNalUnitType tail
      else if bool_decide (ubyte b2 = 1) then Some (Z.land (ubyte b3) 0x1f)
      else match rest with
           | b4 :: _ =>
               if bool_decide (ubyte b2 = 0) && bool_decide (ubyte b3 = 1)
               then Some (Z.land (ubyte b4) 0x1f) else firstNalUnitType tail
           | [] => firstNalUnitType tail
           end
  | _ => None
  end.

Definition isParameterSetChunk (chunk : bytes) : bool :=
  match firstNalUnitType chunk with
  | Some nalType => bool_decide (nalType = 7) || bool_decide (nalType = 8)
  | None => false
  end.
Definition isKeyFrameChunk (chunk : bytes) : bool :=
  bool_decide (firstNalUnitType chunk = Some 5).

Definition PACKET_FLAG_SUBSCRIPTION_NOTICE : Z := Z.shiftl 1 61.
Inductive SubscriptionNotice :=
| downgraded_to_viewer | device_removed | identity_quarantined | daemon_shutdown
| session_ended | device_restored.
Definition SUBSCRIPTION_NOTICE_CODES (n : SubscriptionNotice) : Z :=
  match n with
  | downgraded_to_viewer => 1 | device_removed => 2 | identity_quarantined => 3
  | daemon_shutdown => 4 | session_ended => 5 | device_restored => 6
  end.
Definition encodeSubscriptionNotice (notice : SubscriptionNotice) : outcome BufferError bytes :=
  encodePacketHeader (Z.lor PACKET_FLAG_SUBSCRIPTION_NOTICE (SUBSCRIPTION_NOTICE_CODES notice)) 0.

(** ** Parser *)

Definition VIDEO_SERVER_CODEC_ID_H264 : Z := 0x68323634.
Definition VIDEO_SERVER_CODEC_ID_AMUX : Z := 0x616d7578.
Definition VIDEO_SERVER_CODEC_ID_PCM16 : Z := 0x7331366c.
Definition VIDEO_SERVER_TRACK_ID_VIDEO : Z := 1.
Definition VIDEO_SERVER_TRACK_ID_AUDIO : Z := 2.
Definition STREAM_HEADER_BYTES : nat := 12.
Definition PACKET_HEADER_BYTES : nat := 12.
Definition MUX_TRACK_BYTES : nat := 16.
Definition MUX_PACKET_HEADER_BYTES : nat := 16.
Definition MAX_PACKET_BYTES : Z := 16 * 1024 * 1024.
Definition MAX_TRACK_COUNT : Z := 16.
Definition FLAG_CONFIG : Z := Z.shiftl 1 63.
Definition FLAG_KEY_FRAME : Z := Z.shiftl 1 62.
Definition FLAG_REPLAYED : Z := Z.shiftl 1 61.

Record VideoServerStreamHeader := mkHeader {
  codecId : Z; width : Z; height : Z;
  muxed : option bool; audio : option bool; muxVersion : option Z;
}.
Record VideoServerPacket := mkPacket {
  packetTrackId : Z; packetCodecId : Z; data : bytes;
  config : bool; keyFrame : bool; replayed : bool; rotation : option Z; ptsUs : Z;
}.
Record MuxTrack := mkTrack { trackCodecId : Z; param1 : Z; param2 : Z }.

Inductive ParserEvent := OnHeader (h : VideoServerStreamHeader) | OnPacket (p : VideoServerPacket).

(** The errors [push] throws: a declared value over its cap, or a queue error. *)
Inductive CapField := PacketSize | TrackCount.
Inductive ParserError := OverCap (field : CapField) (value : Z) | QueueFailure (e : QueueError).

Definition rotationFromFlags (flags : Z) : option Z :=
  if Z.land flags FLAG_CONFIG =? 0 then None
  else Some (js_number (Z.shiftr (Z.land flags ROTATION_MASK) ROTATION_SHIFT)).

Definition assertWithinCap (value cap : Z) (field : CapField) : outcome ParserError () :=
  if cap <? value then Throws (OverCap field value) else Returns ().

(** The packet a header and payload stand for. *)
Definition packetOf (trackId codec flags : Z) (payload : bytes) : VideoServerPacket :=
  mkPacket trackId codec payload
    (negb (Z.land flags FLAG_CONFIG =? 0)) (negb (Z.land flags FLAG_KEY_FRAME =? 0))
    (negb (Z.land flags FLAG_REPLAYED =? 0)) (rotationFromFlags flags)
    (js_number (Z.land flags PTS_MASK)).

(** The loop over the [trackCount] entries of a mux header. *)
Definition readTrack (fullHeader : bytes)
    (acc : gmap Z MuxTrack * option (Z * Z * Z) * bool) (i : nat) :
    gmap Z MuxTrack * option (Z * Z * Z) * bool :=
  let '(tracks, videoHeader, hasPcm) := acc in
  let offset := (STREAM_HEADER_BYTES + i * MUX_TRACK_BYTES)%nat in
  let trackId := readUInt32BE fullHeader offset in
  let codec := readUInt32BE fullHeader (offset + 4) in
  let p1 := readUInt32BE fullHeader (offset + 8) in
  let p2 := readUInt32BE fullHeader (offset + 12) in
  let tracks := <[trackId := mkTrack codec p1 p2]> tracks in
  if codec =? VIDEO_SERVER_CODEC_ID_H264 then (tracks, Some (codec, p1, p2), hasPcm)
  else if (trackId =? VIDEO_SERVER_TRACK_ID_AUDIO) && (codec =? VIDEO_SERVER_CODEC_ID_PCM16)
  then (tracks, videoHeader, true)
  else (tracks, videoHeader, hasPcm).

Definition readTracks (fullHeader : bytes) (trackCount : nat) :=
  foldl (readTrack fullHeader) (∅, None, false) (seq 0 trackCount).

(** The header a mux preamble announces, when it has a video track. *)
Definition muxHeader (fullHeader : bytes) (videoHeader : option (Z * Z * Z)) (hasPcm : bool) :
    option VideoServerStreamHeader :=
  match videoHeader with
  | Some (c, w, h) => Some (mkHeader c w h (Some true) (Some hasPcm) (Some (readUInt32BE fullHeader 4)))
  | None => None
  end.

Section Parser.
Context {Q} `{ByteQueue Q}.

Record VideoServerStreamParser := mkParser {
  buffered : Q;
  header : option VideoServerStreamHeader;
  muxTracks : option (gmap Z MuxTrack);
}.

Definition newParser : VideoServerStreamParser := mkParser bq_empty None None.

Definition queueOutcome {A} (o : outcome QueueError A) : outcome ParserError A :=
  match o with Returns a => Returns a | Throws e => Throws (QueueFailure e) end.

(** [readStreamHeader]: every throw precedes the first change of state. *)
Definition readStreamHeader (p : VideoServerStreamParser) :
    outcome ParserError (bool * VideoServerStreamParser * list ParserEvent) :=
  if bool_decide (bq_length (buffered p) < STREAM_HEADER_BYTES)%nat then Returns (false, p, [])
  else
    streamHeader ← queueOutcome (bq_peek (buffered p) STREAM_HEADER_BYTES);
    let codecOrMagic := readUInt32BE streamHeader 0 in
    if codecOrMagic =? VIDEO_SERVER_CODEC_ID_AMUX then
      let trackCount := readUInt32BE streamHeader 8 in
      _ ← assertWithinCap trackCount MAX_TRACK_COUNT TrackCount;
      let headerBytes := (STREAM_HEADER_BYTES + Z.to_nat trackCount * MUX_TRACK_BYTES)%nat in
      if bool_decide (bq_length (buffered p) < headerBytes)%nat then Returns (false, p, [])
      else
        fullHeader ← queueOutcome (bq_peek (buffered p) headerBytes);
        let '(tracks, videoHeader, hasPcm) := readTracks fullHeader (Z.to_nat trackCount) in
        q ← queueOutcome (bq_discard (buffered p) headerBytes);
        match muxHeader fullHeader videoHeader hasPcm with
        | Some h => Returns (true, mkParser q (Some h) (Some tracks), [OnHeader h])
        | None => Returns (true, mkParser q (header p) (Some tracks), [])
        end
    else
      let h := mkHeader codecOrMagic (readUInt32BE streamHeader 4) (readUInt32BE streamHeader 8)
                 None None None in
      q ← queueOutcome (bq_discard (buffered p) STREAM_HEADER_BYTES);
      Returns (true, mkParser q (Some h) (muxTracks p), [OnHeader h]).

(** A packet taken off the queue: its header bytes, its flags and its payload. *)
Definition takePacket (headerBytes flagsOffset sizeOffset : nat) (q : Q) :
    outcome ParserError (option (bytes * Z * bytes * Q)) :=
  if bool_decide (bq_length q < headerBytes)%nat then Returns None
  else
    packetHeader ← queueOutcome (bq_peek q headerBytes);
    let flags := readBigUInt64BE packetHeader flagsOffset in
    let size := readUInt32BE packetHeader sizeOffset in
    _ ← assertWithinCap size MAX_PACKET_BYTES PacketSize;
    if Z.of_nat (bq_length q) <? Z.of_nat headerBytes + size then Returns None
    else
      q ← queueOutcome (bq_discard q headerBytes);
      '(payload, q) ← queueOutcome (bq_takeDetached q (Z.to_nat size));
      Returns (Some (packetHeader, flags, payload, q)).

(** The two packet loops: [fuel] bounds the iterations by the bytes queued. *)
Fixpoint drainPackets (fuel : nat) (p : VideoServerStreamParser) :
    VideoServerStreamParser * list ParserEvent * option ParserError :=
  match fuel with
  | O => (p, [], None)
  | S fuel' =>
      match takePacket PACKET_HEADER_BYTES 0 8 (buffered p) with
      | Throws e => (p, [], Some e)
      | Returns None => (p, [], None)
      | Returns (Some (_, flags, payload, q)) =>
          let codec := match header p with Some h => codecId h | None => VIDEO_SERVER_CODEC_ID_H264 end in
          let ev := OnPacket (packetOf VIDEO_SERVER_TRACK_ID_VIDEO codec flags payload) in
          let '(p', evs, err) := drainPackets fuel' (mkParser q (header p) (muxTracks p)) in
          (p', ev :: evs, err)
      end
  end.

Fixpoint drainMuxPackets (fuel : nat) (p : VideoServerStreamParser) :
    VideoServerStreamParser * list ParserEvent * option ParserError :=
  match fuel with
  | O => (p, [], None)
  | S fuel' =>
      match takePacket MUX_PACKET_HEADER_BYTES 4 12 (buffered p) with
      | Throws e => (p, [], Some e)
      | Returns None => (p, [], None)
      | Returns (Some (packetHeader, flags, payload, q)) =>
          let trackId := readUInt32BE packetHeader 0 in
          let ev := match muxTracks p ≫= (.!! trackId) with
                    | Some track => [OnPacket (packetOf trackId (trackCodecId track) flags payload)]
                    | None => []
                    end in
          let '(p', evs, err) := drainMuxPackets fuel' (mkParser q (header p) (muxTracks p)) in
          (p', ev ++ evs, err)
      end
  end.

Definition push (p : VideoServerStreamParser) (chunk : bytes) :
    VideoServerStreamParser * list ParserEvent * option ParserError :=
  let p := mkParser (bq_append (buffered p) chunk) (header p) (muxTracks p) in
  let ready :=
    match header p, muxTracks p with
    | None, None => readStreamHeader p
    | _, _ => Returns (true, p, [])
    end in
  match ready with
  | Throws e => (p, [], Some e)
  | Returns (false, p, evs) => (p, evs, None)
  | Returns (true, p, evs) =>
      let fuel := S (bq_length (buffered p)) in
      let '(p', evs', err) :=
        match muxTracks p with
        | Some _ => drainMuxPackets fuel p
        | None => drainPackets fuel p
        end in (p', evs ++ evs', err)
  end.

(** The stream's owner pushes each chunk until the first throw. *)
Fixpoint pushAll (p : VideoServerStreamParser) (cs : list bytes) :
    VideoServerStreamParser * list ParserEvent * option ParserError :=
  match cs with
  | [] => (p, [], None)
  | c :: cs' =>
      match push p c with
      | (p', evs, Some e) => (p', evs, Some e)
      | (p', evs, None) => let '(p'', evs', err) := pushAll p' cs' in (p'', evs ++ evs', err)
      end
  end.
End Parser.
Arguments VideoServerStreamParser : clear implicits.

(** ** The parser on plain bytes

    One iteration of the parser as a function of its state and of the bytes
    queued; [push] runs it until it waits or fails. *)
Definition ParserState : Type := option VideoServerStreamHeader * option (gmap Z MuxTrack).

Definition packet_step (s : ParserState) (headerBytes flagsOffset sizeOffset : nat)
    (ev : bytes → Z → bytes → list ParserEvent) (a : bytes) :
    presult ParserState ParserEvent ParserError :=
  if bool_decide (length a < headerBytes)%nat then Need s a
  else
    let h := take headerBytes a in
    let size := readUInt32BE h sizeOffset in
    if MAX_PACKET_BYTES <? size then Fail (OverCap PacketSize size)
    else if Z.of_nat (length a) <? Z.of_nat headerBytes + size then Need s a
    else Emit s (ev h (readBigUInt64BE h flagsOffset) (take (Z.to_nat size) (drop headerBytes a)))
           (drop (Z.to_nat size) (drop headerBytes a)).

Definition legacy_events (h : VideoServerStreamHeader) (_ : bytes) (flags : Z) (payload : bytes) :
    list ParserEvent :=
  [OnPacket (packetOf VIDEO_SERVER_TRACK_ID_VIDEO (codecId h) flags payload)].

Definition mux_events (tracks : gmap Z MuxTrack) (h : bytes) (flags : Z) (payload : bytes) :
    list ParserEvent :=
  let trackId := readUInt32BE h 0 in
  match tracks !! trackId with
  | Some track => [OnPacket (packetOf trackId (trackCodecId track) flags payload)]
  | None => []
  end.

Definition header_step (a : bytes) : presult ParserState ParserEvent ParserError :=
  if bool_decide (length a < STREAM_HEADER_BYTES)%nat then Need (None, None) a
  else
    let s := take STREAM_HEADER_BYTES a in
    let codecOrMagic := readUInt32BE s 0 in
    if codecOrMagic =? VIDEO_SERVER_CODEC_ID_AMUX then
      let trackCount := readUInt32BE s 8 in
      if MAX_TRACK_COUNT <? trackCount then Fail (OverCap TrackCount trackCount)
      else
        let headerBytes := (STREAM_HEADER_BYTES + Z.to_nat trackCount * MUX_TRACK_BYTES)%nat in
        if bool_decide (length a < headerBytes)%nat then Need (None, None) a
        else
          let f := take headerBytes a in
          let '(tracks, videoHeader, hasPcm) := readTracks f (Z.to_nat trackCount) in
          let h := muxHeader f videoHeader hasPcm in
          Emit (h, Some tracks) (match h with Some h => [OnHeader h] | None => [] end)
            (drop headerBytes a)
    else
      let h := mkHeader codecOrMagic (readUInt32BE s 4) (readUInt32BE s 8) None None None in
      Emit (Some h, None) [OnHeader h] (drop STREAM_HEADER_BYTES a).

Definition parser_step (s : ParserState) (a : bytes) : presult ParserState ParserEvent ParserError :=
  match s with
  | (_, Some tracks) => packet_step s MUX_PACKET_HEADER_BYTES 4 12 (mux_events tracks) a
  | (Some h, None) => packet_step s PACKET_HEADER_BYTES 0 8 (legacy_events h) a
  | (None, None) => header_step a
  end.

Lemma packet_step_emit s hb fo so ev a s' evs r :
  (0 < hb)%nat → packet_step s hb fo so ev a = Emit s' evs r → (length r < length a)%nat.
Proof.
  unfold packet_step. intros Hhb H. repeat (case_bool_decide || case_match); simplify_eq.
  rewrite !length_drop. lia.
Qed.

Lemma take_drop_extend {A} n m (a b : list A) :
  (m + n ≤ length a)%nat → take n (drop m (a ++ b)) = take n (drop m a).
Proof. intros. rewrite drop_app_le by lia. rewrite take_app_le; [done|]. rewrite length_drop. lia. Qed.

Lemma packet_step_extend s hb fo so ev a b :
  packet_step s hb fo so ev (a ++ b) =
  match packet_step s hb fo so ev a with
  | Need _ _ => packet_step s hb fo so ev (a ++ b)
  | Emit s' evs r => Emit s' evs (r ++ b)
  | Fail e => Fail e
  end.
Proof.
  pose proof (readUInt32BE_bound (take hb a) so).
  destruct (packet_step s hb fo so ev a) as [|s' evs r|e] eqn:E; [done|..];
    unfold packet_step in *; rewrite length_app;
    repeat (case_bool_decide || case_match); simplify_eq; rewrite ?take_app_le in * by lia;
    try lia; simplify_eq; try done; try congruence.
  all: rewrite ?Z.ltb_ge, ?Z.ltb_lt in *; try lia.
  by rewrite take_drop_extend, !drop_drop, drop_app_le by lia.
Qed.

Lemma header_step_extend a b :
  header_step (a ++ b) =
  match header_step a with
  | Need _ _ => header_step (a ++ b)
  | Emit s' evs r => Emit s' evs (r ++ b)
  | Fail e => Fail e
  end.
Proof.
  unfold header_step. rewrite length_app.
  destruct (decide (length a < STREAM_HEADER_BYTES)%nat) as [|Hs]; [by rewrite (bool_decide_eq_true_2 (length a < _)%nat)|].
  rewrite (bool_decide_eq_false_2 (length a < _)%nat), (bool_decide_eq_false_2 (length a + _ < STREAM_HEADER_BYTES)%nat) by lia.
  cbv zeta. rewrite (take_app_le a) by lia.
  case_match; [|by rewrite drop_app_le by lia]. case_match; [done|].
  set (hb := (STREAM_HEADER_BYTES + _)%nat).
  destruct (decide (length a < hb)%nat) as [|Hh]; [by rewrite (bool_decide_eq_true_2 (length a < _)%nat)|].
  rewrite (bool_decide_eq_false_2 (length a < _)%nat), (bool_decide_eq_false_2 (length a + _ < _)%nat) by lia.
  rewrite (take_app_le a) by lia.
  repeat case_match; simplify_eq; by rewrite drop_app_le by lia.
Qed.

Lemma header_step_emit a s' evs r : header_step a = Emit s' evs r → (length r < length a)%nat.
Proof.
  unfold header_step. set (n := Z.to_nat _).
  intros H. repeat (case_bool_decide || case_match); try done; injection H as _ _ <-; rewrite length_drop;
    unfold STREAM_HEADER_BYTES in *; lia.
Qed.

(** A parser that waits keeps its state and its bytes. *)
Lemma parser_step_need s a s' r : parser_step s a = Need s' r → s' = s ∧ r = a.
Proof.
  destruct s as [[h|] [t|]]; simpl; unfold packet_step, header_step; intros H;
    repeat (case_bool_decide || case_match); by simplify_eq.
Qed.

Lemma packet_step_waits_short s hb fo so ev a s' r :
  packet_step s hb fo so ev a = Need s' r → Z.of_nat (length a) < Z.of_nat hb + MAX_PACKET_BYTES.
Proof.
  unfold packet_step. case_bool_decide.
  { intros _. unfold MAX_PACKET_BYTES. lia. }
  destruct (Z.ltb_spec MAX_PACKET_BYTES (readUInt32BE (take hb a) so)); [done|].
  case_match eqn:Hl; [|done]. apply Z.ltb_lt in Hl. intros _. lia.
Qed.

Lemma header_step_waits_short a s' r :
  header_step a = Need s' r →
  (length a < STREAM_HEADER_BYTES + Z.to_nat MAX_TRACK_COUNT * MUX_TRACK_BYTES)%nat.
Proof.
  unfold header_step. case_bool_decide; [intros _; lia|].
  case_match; [|done]. case_match eqn:Hm; [done|]. apply Z.ltb_ge in Hm.
  case_bool_decide as Hl; [|by repeat case_match]. intros _.
  eapply Nat.lt_le_trans; [exact Hl|]. apply Nat.add_le_mono_l, Nat.mul_le_mono_r, Z2Nat.inj_le;
    [apply readUInt32BE_bound|by unfold MAX_TRACK_COUNT|done].
Qed.

Lemma parser_step_waits_short s a s' r :
  parser_step s a = Need s' r →
  Z.of_nat (length a) < Z.of_nat MUX_PACKET_HEADER_BYTES + MAX_PACKET_BYTES.
Proof.
  intros Hs. destruct s as [[h|] [t|]]; simpl in Hs;
    [apply packet_step_waits_short in Hs..|apply header_step_waits_short in Hs]; revert Hs;
    unfold MUX_PACKET_HEADER_BYTES, PACKET_HEADER_BYTES, STREAM_HEADER_BYTES, MAX_TRACK_COUNT,
      MUX_TRACK_BYTES, MAX_PACKET_BYTES; lia.
Qed.

#[export] Instance parser_step_incremental : IncrementalParser parser_step.
Proof.
  refine {| ip_measure _ a := length a |}.
  - intros [[h|] [t|]] a s' evs r H; simpl in H;
      [eapply packet_step_emit, H..|by eapply header_step_emit]; apply Nat.lt_0_succ.
  - intros s a s' r b H. by apply parser_step_need in H as [-> ->].
  - intros [[h|] [t|]] a s' evs r b; simpl; intros H; (rewrite packet_step_extend || rewrite header_step_extend); by rewrite H.
  - intros [[h|] [t|]] a e b; simpl; intros H; (rewrite packet_step_extend || rewrite header_step_extend); by rewrite H.
Qed.

(** ** [push] runs the step on the queued bytes *)

Section ParserSpec.
Context {Q} `{!ByteQueue Q, !ByteQueueLaws Q}.

Implicit Types p : VideoServerStreamParser Q.

Definition parser_state p : ParserState := (header p, muxTracks p).
Definition parser_bytes p : bytes := bq_bytes (buffered p).
Definition parser_ok p : Prop := bq_ok (buffered p).

(** What a run of a loop from [p] on the bytes queued must be. *)
Definition final_of p (err : option ParserError) : pfinal ParserState ParserError :=
  match err with None => Waiting (parser_state p) (parser_bytes p) | Some e => Failed e end.

Lemma takePacket_step s hb fo so ev q :
  bq_ok q → 
  match takePacket hb fo so q with
  | Throws e => packet_step s hb fo so ev (bq_bytes q) = Fail e
  | Returns None => packet_step s hb fo so ev (bq_bytes q) = Need s (bq_bytes q)
  | Returns (Some (h, flags, payload, q')) =>
      bq_ok q' ∧ packet_step s hb fo so ev (bq_bytes q) = Emit s (ev h flags payload) (bq_bytes q')
  end.
Proof.
  intros Hq. unfold takePacket, packet_step. rewrite bq_length_spec by done.
  case_bool_decide as Hl; [done|].
  rewrite bq_peek_spec by (done || lia). simpl. unfold assertWithinCap.
  set (size := readUInt32BE _ so). pose proof (readUInt32BE_bound (take hb (bq_bytes q)) so).
  destruct (MAX_PACKET_BYTES <? size); simpl; [done|].
  destruct (Z.ltb_spec (Z.of_nat (length (bq_bytes q))) (Z.of_nat hb + size)) as [|Hs]; [done|].
  destruct (bq_discard_spec q hb) as (q1 & -> & Hq1 & Hb1); [done|lia|]. simpl.
  destruct (bq_takeDetached_spec q1 (Z.to_nat size)) as (q2 & -> & Hq2 & Hb2); [done| |].
  { rewrite Hb1, length_drop. lia. }
  simpl. split; [done|]. by rewrite Hb2, Hb1.
Qed.

(** A loop whose fuel exceeds the queued bytes runs until it waits or fails. *)
Lemma drainPackets_drains fuel p h :
  parser_ok p → header p = Some h → muxTracks p = None → (length (parser_bytes p) < fuel)%nat →
  let '(p', evs, err) := drainPackets fuel p in
  parser_ok p' ∧ drains parser_step (parser_state p) (parser_bytes p) evs (final_of p' err).
Proof.
  intros Hp Hh Ht. revert p Hp Hh Ht.
  induction fuel as [|fuel IH]; intros p Hp Hh Ht Hf; [lia|]; simpl.
  assert (parser_state p = (Some h, None)) as Hs by (unfold parser_state; by rewrite Hh, Ht).
  pose proof (takePacket_step (Some h, None) PACKET_HEADER_BYTES 0 8 (legacy_events h) (buffered p) Hp) as Hstep.
  destruct (takePacket _ _ _ _) as [[[[[hd flags] payload] q']|]|e].
  - destruct Hstep as [Hq' Hstep].
    assert (length (bq_bytes q') < length (bq_bytes (buffered p)))%nat
      by (eapply packet_step_emit, Hstep; apply Nat.lt_0_succ).
    specialize (IH (mkParser q' (header p) (muxTracks p)) Hq' Hh Ht).
    destruct (drainPackets _ _) as [[p' evs] err].
    destruct IH as [? Hd]; [unfold parser_bytes in *; simpl in *; lia|].
    split; [done|]. rewrite Hs, Hh in *. eapply (drains_emit _ _ _ _ [_]); [exact Hstep|].
    unfold parser_state in Hd; simpl in Hd. by rewrite Ht in Hd.
  - split; [done|]. rewrite Hs. apply drains_need. rewrite Hs. exact Hstep.
  - split; [done|]. rewrite Hs. apply drains_fail. exact Hstep.
Qed.

Lemma drainMuxPackets_drains fuel p tracks :
  parser_ok p → muxTracks p = Some tracks → (length (parser_bytes p) < fuel)%nat →
  let '(p', evs, err) := drainMuxPackets fuel p in
  parser_ok p' ∧ drains parser_step (parser_state p) (parser_bytes p) evs (final_of p' err).
Proof.
  intros Hp Ht. revert p Hp Ht.
  induction fuel as [|fuel IH]; intros p Hp Ht Hf; [lia|]; simpl.
  assert (parser_state p = (header p, Some tracks)) as Hs by (unfold parser_state; by rewrite Ht).
  pose proof (takePacket_step (header p, Some tracks) MUX_PACKET_HEADER_BYTES 4 12 (mux_events tracks) (buffered p) Hp) as Hstep.
  assert (∀ a, parser_step (header p, Some tracks) a =
    packet_step (header p, Some tracks) MUX_PACKET_HEADER_BYTES 4 12 (mux_events tracks) a) as Hps.
  { intros a. by destruct (header p). }
  destruct (takePacket _ _ _ _) as [[[[[hd flags] payload] q']|]|e].
  - destruct Hstep as [Hq' Hstep].
    assert (length (bq_bytes q') < length (bq_bytes (buffered p)))%nat
      by (eapply packet_step_emit, Hstep; apply Nat.lt_0_succ).
    specialize (IH (mkParser q' (header p) (muxTracks p)) Hq' Ht).
    destruct (drainMuxPackets _ _) as [[p' evs] err].
    destruct IH as [? Hd]; [unfold parser_bytes in *; simpl in *; lia|].
    split; [done|]. rewrite Hs. eapply drains_emit.
    + rewrite Hps. unfold parser_bytes. rewrite Hstep, Ht. done.
    + unfold parser_state in Hd; simpl in Hd. by rewrite Ht in Hd.
  - split; [done|]. rewrite Hs. apply drains_need. rewrite Hs, Hps. exact Hstep.
  - split; [done|]. rewrite Hs. apply drains_fail. rewrite Hps. exact Hstep.
Qed.

Lemma readStreamHeader_step p :
  parser_ok p → parser_state p = (None, None) →
  match readStreamHeader p with
  | Throws e => header_step (parser_bytes p) = Fail e
  | Returns (false, p', evs) =>
      p' = p ∧ evs = [] ∧ header_step (parser_bytes p) = Need (None, None) (parser_bytes p)
  | Returns (true, p', evs) =>
      parser_ok p' ∧ (is_Some (header p') ∨ is_Some (muxTracks p')) ∧
      header_step (parser_bytes p) = Emit (parser_state p') evs (parser_bytes p')
  end.
Proof.
  intros Hp Hs. unfold readStreamHeader, header_step, parser_bytes.
  injection Hs as Hh Ht. rewrite bq_length_spec by done. case_bool_decide as Hl; [done|].
  rewrite bq_peek_spec by (done || lia). cbn [mbind outcome_bind queueOutcome].
  destruct (_ =? VIDEO_SERVER_CODEC_ID_AMUX).
  - unfold assertWithinCap. destruct (MAX_TRACK_COUNT <? _); cbn [mbind outcome_bind queueOutcome]; [done|].
    set (hb := (STREAM_HEADER_BYTES + _ * MUX_TRACK_BYTES)%nat).
    case_bool_decide as Hl'; [done|].
    rewrite bq_peek_spec by (done || lia). simpl.
    destruct (readTracks _ _) as [[tracks videoHeader] hasPcm].
    destruct (bq_discard_spec (buffered p) hb) as (q1 & -> & Hq1 & Hb1); [done|lia|]. simpl.
    destruct (muxHeader _ _ _); (split_and!; [done|right; simpl; eauto|]);
      unfold parser_state; simpl; by rewrite Hb1, ?Hh.
  - destruct (bq_discard_spec (buffered p) STREAM_HEADER_BYTES) as (q1 & Hd & Hq1 & Hb1); [done|lia|].
    rewrite Hd. simpl. split_and!; [done|left; simpl; eauto|]. unfold parser_state; simpl. by rewrite Hb1, Ht.
Qed.

Lemma push_drains p chunk :
  parser_ok p →
  let '(p', evs, err) := push p chunk in
  parser_ok p' ∧
  drains parser_step (parser_state p) (parser_bytes p ++ chunk) evs (final_of p' err).
Proof.
  intros Hp. unfold push.
  set (p1 := mkParser (bq_append (buffered p) chunk) (header p) (muxTracks p)).
  assert (parser_ok p1) as Hp1 by by apply bq_append_ok.
  assert (parser_bytes p1 = parser_bytes p ++ chunk) as <- by by apply bq_append_bytes.
  assert (parser_state p = parser_state p1) as -> by done.
  assert (∀ p, parser_ok p → is_Some (header p) ∨ is_Some (muxTracks p) →
    let '(p', evs, err) := match muxTracks p with
      | Some _ => drainMuxPackets (S (bq_length (buffered p))) p
      | None => drainPackets (S (bq_length (buffered p))) p end in
    parser_ok p' ∧ drains parser_step (parser_state p) (parser_bytes p) evs (final_of p' err)) as Hready.
  { intros r Hr Hs. destruct (muxTracks r) as [t|] eqn:Ht.
    - eapply drainMuxPackets_drains; [done..|]. rewrite bq_length_spec by done. unfold parser_bytes. lia.
    - destruct Hs as [[h Hh]|[??]]; [|done].
      eapply drainPackets_drains; [done..|]. rewrite bq_length_spec by done. unfold parser_bytes. lia. }
  destruct (header p) as [h|] eqn:Hh; [|destruct (muxTracks p) as [t|] eqn:Ht]; cbv beta iota.
  - specialize (Hready p1 Hp1 ltac:(left; simpl; eauto)). revert Hready.
    change (header p1) with (Some h); cbv beta iota.
    by destruct (match muxTracks p1 with Some _ => _ | None => _ end) as [[p2 evs'] err].
  - specialize (Hready p1 Hp1 ltac:(right; simpl; eauto)). revert Hready.
    change (header p1) with (@None VideoServerStreamHeader); change (muxTracks p1) with (Some t); cbv beta iota.
    change (muxTracks p1) with (Some t). by destruct (drainMuxPackets _ p1) as [[p2 evs'] err].
  - pose proof (readStreamHeader_step p1 Hp1 eq_refl) as Hstep.
    change (header p1) with (@None VideoServerStreamHeader).
    change (muxTracks p1) with (@None (gmap Z MuxTrack)); cbv beta iota.
    destruct (readStreamHeader p1) as [[[[] p'] evs]|e].
    + destruct Hstep as (Hp' & Hsome & Hstep). specialize (Hready p' Hp' Hsome).
      revert Hready.
      destruct (match muxTracks p' with Some _ => _ | None => _ end) as [[p2 evs'] err]; intros Hready.
      destruct Hready as [? Hd]. split; [done|]. eapply drains_emit; [exact Hstep|exact Hd].
    + destruct Hstep as (-> & -> & Hstep). split; [done|]. by apply drains_need.
    + split; [done|]. by apply drains_fail.
Qed.

Lemma pushAll_feeds p cs :
  parser_ok p →
  let '(p', evs, err) := pushAll p cs in
  parser_ok p' ∧ feeds parser_step (parser_state p) (parser_bytes p) cs evs (final_of p' err).
Proof.
  revert p. induction cs as [|c cs IH]; intros p Hp; simpl; [split; [done|constructor]|].
  pose proof (push_drains p c Hp) as Hpush. destruct (push p c) as [[p' evs] [e|]].
  - destruct Hpush. split; [done|]. by apply feeds_failed.
  - destruct Hpush as [Hp' Hd]. specialize (IH p' Hp'). destruct (pushAll p' cs) as [[p'' evs'] err].
    destruct IH as [? Hf]. split; [done|]. by eapply feeds_cons.
Qed.

(** The whole stream, from a new parser. *)
Lemma pushAll_new cs :
  let '(p', evs, err) := pushAll newParser cs in
  parser_ok p' ∧ drains parser_step (None, None) (concat cs) evs (final_of p' err).
Proof.
  pose proof (pushAll_feeds newParser cs bq_empty_ok) as H.
  destruct (pushAll newParser cs) as [[p' evs] err]. destruct H as [? H]. split; [done|].
  unfold parser_state, parser_bytes in H; simpl in H. rewrite bq_empty_bytes in H.
  by apply (feeds_concat parser_step (None, None) []) in H.
Qed.
End ParserSpec.

(** The parser does not depend on how the stream is cut into chunks, nor on
    the queue that stores them: two parsers, over any two lawful byte queues, fed
    the same bytes in different chunks dispatch the same header and packets in the
    same order and fail with the same error, or wait in the same state with the
    same bytes queued. *)
Theorem video_parser_chunk_independent {Q1 Q2} `{ByteQueueLaws Q1, ByteQueueLaws Q2}
    (cs1 cs2 : list bytes) (p1 : VideoServerStreamParser Q1) (p2 : VideoServerStreamParser Q2)
    evs1 evs2 err1 err2 :
  concat cs1 = concat cs2 →
  pushAll newParser cs1 = (p1, evs1, err1) → pushAll newParser cs2 = (p2, evs2, err2) →
  evs1 = evs2 ∧ err1 = err2 ∧
  (err1 = None → header p1 = header p2 ∧ muxTracks p1 = muxTracks p2 ∧
                 bq_bytes (buffered p1) = bq_bytes (buffered p2)).
Proof.
  intros Hcs E1 E2.
  pose proof (pushAll_new (Q := Q1) cs1) as H1'. pose proof (pushAll_new (Q := Q2) cs2) as H2'.
  rewrite E1 in H1'. rewrite E2 in H2'. rewrite Hcs in H1'.
  destruct H1' as [_ D1], H2' as [_ D2]. destruct (drains_det _ _ _ _ _ _ _ D1 D2) as [-> Hf].
  by destruct err1, err2; simplify_eq/=; split_and!.
Qed.

(** What a live parser holds is bounded: after any chunks that did not fail,
    the queue holds less than one packet of the largest accepted size, header
    included, and the queue reports exactly the bytes it holds. *)
Theorem video_parser_bounded {Q} `{ByteQueueLaws Q} (cs : list bytes)
    (p : VideoServerStreamParser Q) evs :
  pushAll newParser cs = (p, evs, None) →
  Z.of_nat (bq_length (buffered p)) < Z.of_nat MUX_PACKET_HEADER_BYTES + MAX_PACKET_BYTES.
Proof.
  intros E. pose proof (pushAll_new (Q := Q) cs) as HN. rewrite E in HN. destruct HN as [Hok HD].
  apply drains_settled in HD; [|exact _]. rewrite bq_length_spec by done.
  apply parser_step_waits_short in HD. exact HD.
Qed.

(** ** The encoders are read back *)

Lemma land_flag_bit x n : 0 ≤ n → negb (Z.land x (Z.shiftl 1 n) =? 0) = Z.testbit x n.
Proof.
  intros Hn. rewrite Z.shiftl_1_l. destruct (Z.testbit x n) eqn:E.
  - apply negb_true_iff, Z.eqb_neq. intros H0.
    assert (Z.testbit (Z.land x (2 ^ n)) n = true) as Ht
      by (by rewrite Z.land_spec, E, Z.pow2_bits_true).
    rewrite H0, Z.bits_0 in Ht. done.
  - apply negb_false_iff, Z.eqb_eq, Z.bits_inj'. intros m Hm. rewrite Z.bits_0, Z.land_spec.
    destruct (decide (n = m)) as [<-|]; [by rewrite E|]. rewrite Z.pow2_bits_false by done. apply andb_false_r.
Qed.

(** The bits above the time stamp, by field. *)
Lemma pts_bits pts n : 59 ≤ n → Z.testbit (Z.land pts PTS_MASK) n = false.
Proof.
  intros. rewrite Z.land_spec. change PTS_MASK with (Z.ones 59).
  rewrite Z.ones_spec_high by lia. apply andb_false_r.
Qed.

Lemma rotation_bits r n : 61 ≤ n → Z.testbit (Z.shiftl (Z.land r 3) ROTATION_SHIFT) n = false.
Proof.
  intros. unfold ROTATION_SHIFT. rewrite Z.shiftl_spec, Z.land_spec by lia. change 3 with (Z.ones 2).
  rewrite Z.ones_spec_high by lia. apply andb_false_r.
Qed.

Lemma flag_bits k n : 0 ≤ k → 0 ≤ n → Z.testbit (Z.shiftl 1 k) n = bool_decide (n = k).
Proof.
  intros. rewrite Z.shiftl_1_l, Z.pow2_bits_eqb by done.
  case_bool_decide; [subst; apply Z.eqb_refl|]. apply Z.eqb_neq. congruence.
Qed.

(** Whether a packet's flags attest a rotation. *)
Definition attests (o : PacketOptions) : bool :=
  isConfig o && bool_decide (is_Some (rotationOption o)).

Lemma encodePtsAndFlags_high_bits pts o :
  Z.testbit (encodePtsAndFlags pts o) 63 = isConfig o ∧
  Z.testbit (encodePtsAndFlags pts o) 62 = isKeyFrame o ∧
  Z.testbit (encodePtsAndFlags pts o) 61 = attests o.
Proof.
  unfold encodePtsAndFlags, attests, PACKET_FLAG_CONFIG, PACKET_FLAG_KEY_FRAME, PACKET_FLAG_ROTATION_PRESENT.
  destruct o as [[] [] [r|]]; cbn [isConfig isKeyFrame rotationOption];
    rewrite ?Z.lor_spec, ?flag_bits, ?pts_bits, ?rotation_bits by lia; done.
Qed.

Lemma land_shifted_rotation r : Z.land (Z.shiftl (Z.land r 3) ROTATION_SHIFT) PTS_MASK = 0.
Proof.
  apply Z.bits_inj'. intros n Hn. rewrite Z.land_spec, Z.bits_0. change PTS_MASK with (Z.ones 59).
  unfold ROTATION_SHIFT. destruct (decide (n < 59)).
  - by rewrite Z.shiftl_spec_low.
  - rewrite Z.ones_spec_high by lia. apply andb_false_r.
Qed.

Lemma encodePtsAndFlags_pts pts o : Z.land (encodePtsAndFlags pts o) PTS_MASK = Z.land pts PTS_MASK.
Proof.
  unfold encodePtsAndFlags. destruct o as [[] [] [r|]]; cbn [isConfig isKeyFrame rotationOption]; rewrite ?Z.land_lor_distr_l;
    rewrite <- ?Z.land_assoc, ?land_shifted_rotation;
    change (Z.land PACKET_FLAG_CONFIG PTS_MASK) with 0; change (Z.land PACKET_FLAG_KEY_FRAME PTS_MASK) with 0;
    change (Z.land PACKET_FLAG_ROTATION_PRESENT PTS_MASK) with 0; rewrite ?Z.land_diag, ?Z.lor_0_r; done.
Qed.

Definition rotation_field (o : PacketOptions) : Z :=
  if isConfig o then match rotationOption o with Some r => Z.land r 3 | None => 0 end else 0.

Lemma encodePtsAndFlags_rotation pts o :
  Z.shiftr (Z.land (encodePtsAndFlags pts o) ROTATION_MASK) ROTATION_SHIFT = rotation_field o.
Proof.
  assert (∀ r, Z.land (Z.shiftl (Z.land r 3) ROTATION_SHIFT) ROTATION_MASK = Z.shiftl (Z.land r 3) ROTATION_SHIFT) as Hr.
  { intros r. unfold ROTATION_MASK. rewrite <- Z.shiftl_land, <- Z.land_assoc. done. }
  unfold encodePtsAndFlags, rotation_field. destruct o as [[] [] [r|]]; cbn [isConfig isKeyFrame rotationOption]; rewrite ?Z.land_lor_distr_l, ?Hr;
    rewrite <- ?Z.land_assoc; change (Z.land PTS_MASK ROTATION_MASK) with 0;
    change (Z.land PACKET_FLAG_CONFIG ROTATION_MASK) with 0; change (Z.land PACKET_FLAG_KEY_FRAME ROTATION_MASK) with 0;
    change (Z.land PACKET_FLAG_ROTATION_PRESENT ROTATION_MASK) with 0;
    rewrite ?Z.land_0_r, ?Z.lor_0_r, ?Z.lor_0_l; try done;
    by rewrite Z.shiftr_shiftl_l, Z.sub_diag, Z.shiftl_0_r by done.
Qed.

Lemma encodePtsAndFlags_range pts o : 0 ≤ encodePtsAndFlags pts o < 2 ^ 64.
Proof.
  assert (0 ≤ encodePtsAndFlags pts o) as H0.
  { assert (0 ≤ Z.land pts PTS_MASK) by (apply Z.land_nonneg; right; by vm_compute).
    assert (∀ r, 0 ≤ Z.shiftl (Z.land r 3) ROTATION_SHIFT) by (intros; apply Z.shiftl_nonneg, Z.land_nonneg; by right).
    assert (0 ≤ PACKET_FLAG_CONFIG ∧ 0 ≤ PACKET_FLAG_KEY_FRAME ∧ 0 ≤ PACKET_FLAG_ROTATION_PRESENT) as (?&?&?)
      by (split_and!; by vm_compute).
    unfold encodePtsAndFlags. destruct o as [[] [] [r|]]; cbn [isConfig isKeyFrame rotationOption];
      rewrite ?Z.lor_nonneg; split_and?; auto. }
  split; [done|]. destruct (decide (encodePtsAndFlags pts o = 0)) as [->|]; [done|].
  apply Z.log2_lt_pow2; [lia|]. apply Z.nle_gt. intros Hl.
  pose proof (Z.bit_log2 (encodePtsAndFlags pts o) ltac:(lia)) as Hb.
  set (k := Z.log2 _) in *. revert Hb. unfold encodePtsAndFlags, PACKET_FLAG_CONFIG, PACKET_FLAG_KEY_FRAME, PACKET_FLAG_ROTATION_PRESENT.
  destruct o as [[] [] [r|]]; cbn [isConfig isKeyFrame rotationOption];
    rewrite ?Z.lor_spec, ?flag_bits, ?pts_bits, ?rotation_bits by lia;
    repeat rewrite bool_decide_eq_false_2 by lia; done.
Qed.

(** A stream as a sequence of packets, each a time stamp, options and payload. *)
Fixpoint encodePackets (pkts : list (Z * PacketOptions * bytes)) : outcome BufferError bytes :=
  match pkts with
  | [] => Returns []
  | (pts, o, payload) :: pkts' =>
      p ← encodePacket (encodePtsAndFlags pts o) payload; r ← encodePackets pkts'; Returns (p ++ r)
  end.

Definition encodeStream (w h : Z) (pkts : list (Z * PacketOptions * bytes)) : outcome BufferError bytes :=
  hd ← encodeStreamHeader w h; ps ← encodePackets pkts; Returns (hd ++ ps).

(** What the parser dispatches for it: bit 61 is the encoder's "rotation present"
    and the parser's "replayed". *)
Definition decodedPacket (pkt : Z * PacketOptions * bytes) : VideoServerPacket :=
  let '(pts, o, payload) := pkt in
  mkPacket VIDEO_SERVER_TRACK_ID_VIDEO CODEC_ID_H264 payload (isConfig o) (isKeyFrame o) (attests o)
    (if isConfig o then Some (rotation_field o) else None) (js_number (Z.land pts PTS_MASK)).

Lemma writeInt32BE_ok v : 0 ≤ v < 2 ^ 31 → writeInt32BE v = Returns (be_encode 4 v).
Proof. intros. unfold writeInt32BE. by rewrite !(proj2 (Z.leb_le _ _)) by lia. Qed.

Lemma read_be32_at a v rest n : length a = n → 0 ≤ v < 2 ^ 32 →
  readUInt32BE (a ++ be_encode 4 v ++ rest) n = v.
Proof. intros <- ?. rewrite <- (Nat.add_0_r (length a)), readUInt32BE_skip by done. by apply read_be32. Qed.

(** One framed packet in front of the queue is taken off it. *)
Lemma packet_step_encoded s ev flags payload rest :
  0 ≤ flags < 2 ^ 64 → Z.of_nat (length payload) ≤ MAX_PACKET_BYTES →
  let hd := be_encode 8 flags ++ be_encode 4 (Z.of_nat (length payload)) in
  packet_step s PACKET_HEADER_BYTES 0 8 ev ((hd ++ payload) ++ rest) = Emit s (ev hd flags payload) rest.
Proof.
  intros Hf Hp hd. assert (length hd = PACKET_HEADER_BYTES) as Hhd
    by (unfold hd; rewrite length_app, !length_be_encode; done).
  assert (Z.of_nat (length payload) < 2 ^ 31) by (unfold MAX_PACKET_BYTES in Hp; lia).
  unfold packet_step. rewrite <- app_assoc, take_app_length' by done.
  rewrite bool_decide_eq_false_2 by (rewrite length_app; lia). cbv zeta.
  assert (readUInt32BE hd 8 = Z.of_nat (length payload)) as ->.
  { unfold hd. rewrite <- (app_nil_r (be_encode 4 _)). apply read_be32_at; [apply length_be_encode|lia]. }
  assert (readBigUInt64BE hd 0 = flags) as -> by by apply read_be64.
  rewrite (proj2 (Z.ltb_ge _ _)), (proj2 (Z.ltb_ge _ _)), drop_app_length', Nat2Z.id by (done || rewrite ?length_app; lia).
  by rewrite take_app_length, drop_app_length.
Qed.

Lemma encodePackets_drains h pkts :
  codecId h = CODEC_ID_H264 →
  Forall (λ pkt, Z.of_nat (length pkt.2) ≤ MAX_PACKET_BYTES) pkts →
  ∃ s, encodePackets pkts = Returns s ∧
    drains parser_step (Some h, None) s (OnPacket <$> (decodedPacket <$> pkts)) (Waiting (Some h, None) []).
Proof.
  intros Hh. induction 1 as [|[[pts o] payload] pkts Hp Hps IH]; simpl.
  { eexists. split; [done|]. by apply drains_need. }
  destruct IH as (s & -> & Hd). simpl in Hp.
  unfold encodePacket, encodePacketHeader.
  rewrite writeInt32BE_ok by (unfold MAX_PACKET_BYTES in Hp; lia).
  cbn [mbind outcome_bind]. eexists. split; [done|].
  eapply (drains_emit _ _ _ _ [_]); [|exact Hd]. unfold parser_step.
  rewrite packet_step_encoded by (done || apply encodePtsAndFlags_range).
  unfold legacy_events, packetOf, decodedPacket, rotationFromFlags.
  destruct (encodePtsAndFlags_high_bits pts o) as (H63 & H62 & H61).
  rewrite Hh. do 2 f_equal. 
  pose proof (land_flag_bit (encodePtsAndFlags pts o) 63 ltac:(lia)) as Hc. rewrite H63 in Hc.
  unfold FLAG_CONFIG, FLAG_KEY_FRAME, FLAG_REPLAYED. rewrite !land_flag_bit, H63, H62, H61 by lia.
  rewrite encodePtsAndFlags_rotation, encodePtsAndFlags_pts.
  assert (js_number (rotation_field o) = rotation_field o) as ->.
  { apply js_number_exact. unfold rotation_field. destruct (isConfig o), (rotationOption o); try done.
    change 3 with (Z.ones 2). rewrite Z.land_ones by done. pose proof (Z.mod_pos_bound z (2 ^ 2)). lia. }
  by destruct (isConfig o), (_ =? 0).
Qed.


(** ** Concrete runs *)

(** A 64x32 stream of a rotation-attesting config packet and a key frame. *)
Definition demoPackets : list (Z * PacketOptions * bytes) :=
  [(0, mkOptions true false (Some 1), to_byte <$> [0; 0; 1; 103]);
   (2 ^ 59 + 16, mkOptions false true None, to_byte <$> [0; 0; 0; 1; 101; 7])].

Definition demoStream : bytes :=
  match encodeStream 64 32 demoPackets with Returns s => s | Throws _ => [] end.

Example demo_events :
  (pushAll (Q := BufferQueue) newParser ((λ b, [b]) <$> demoStream)).1.2 =
  OnHeader (mkHeader CODEC_ID_H264 64 32 None None None) ::
  (OnPacket <$>
    [mkPacket 1 CODEC_ID_H264 (to_byte <$> [0; 0; 1; 103]) true false true (Some 1) 0;
     mkPacket 1 CODEC_ID_H264 (to_byte <$> [0; 0; 0; 1; 101; 7]) false true false None 16]).
Proof. vm_compute. reflexivity. Qed.

(** A mux preamble with a video and a PCM track, and a packet of an unknown track. *)
Definition demoMux : bytes :=
  be_encode 4 VIDEO_SERVER_CODEC_ID_AMUX ++ be_encode 4 2 ++ be_encode 4 2 ++
  be_encode 4 1 ++ be_encode 4 VIDEO_SERVER_CODEC_ID_H264 ++ be_encode 4 64 ++ be_encode 4 32 ++
  be_encode 4 2 ++ be_encode 4 VIDEO_SERVER_CODEC_ID_PCM16 ++ be_encode 4 44100 ++ be_encode 4 2 ++
  be_encode 4 9 ++ be_encode 8 0 ++ be_encode 4 1 ++ [to_byte 5] ++
  be_encode 4 2 ++ be_encode 8 77 ++ be_encode 4 1 ++ [to_byte 6].

Example demo_mux_events :
  (pushAll (Q := BufferQueue) newParser [demoMux]).1.2 =
  [OnHeader (mkHeader VIDEO_SERVER_CODEC_ID_H264 64 32 (Some true) (Some true) (Some 2));
   OnPacket (mkPacket 2 VIDEO_SERVER_CODEC_ID_PCM16 [to_byte 6] false false false None 77)].
Proof. vm_compute. reflexivity. Qed.

Lemma video_parser_chunk_independent_witness :
  let '(p1, evs1, err1) := pushAll (Q := BufferQueue) newParser [demoMux] in
  let '(p2, evs2, err2) := pushAll (Q := BufferQueue) newParser ((λ b, [b]) <$> demoMux) in
  evs1 = evs2 ∧ err1 = err2.
Proof.
  destruct (pushAll newParser [demoMux]) as [[p1 evs1] err1] eqn:E1.
  destruct (pushAll newParser ((λ b, [b]) <$> demoMux)) as [[p2 evs2] err2] eqn:E2.
  assert (concat [demoMux] = concat ((λ b, [b]) <$> demoMux)) as Hc by (vm_compute; reflexivity).
  destruct (video_parser_chunk_independent _ _ _ _ _ _ _ _ Hc E1 E2) as (? & ? & _). by split.
Defined.

Lemma video_parser_bounded_witness :
  let '(p, _, _) := pushAll (Q := BufferQueue) newParser [take 60 demoMux] in
  Z.of_nat (bq_length (buffered p)) < Z.of_nat MUX_PACKET_HEADER_BYTES + MAX_PACKET_BYTES.
Proof.
  destruct (pushAll newParser [take 60 demoMux]) as [[p evs] err] eqn:E.
  assert (err = None) as -> by (vm_compute in E; congruence).
  exact (video_parser_bounded _ _ _ E).
Defined.

