(* ===== verification/Crc32.v ===== *)
(** * The CRC-32 of the frame protocol

    [crc32] of [src/src/features/screen-stream/frameProtocol.ts]: the table the
    module builds, the table-driven loop on signed 32-bit values, their
    equivalence with the bit-serial register that defines the code, and the
    bursts it detects. *)
From S2P Require Import Prelude Bytes.
Local Open Scope Z_scope.

(** ** The code *)

(** [buildCrc32Table]: the inner loop's body, and its eight rounds for entry [n]. *)
Definition crc32TableRound (c : Z) : Z :=
  if negb (js_and c 1 =? 0) then js_xor 0xedb88320 (js_ushr c 1) else js_ushr c 1.
Definition buildCrc32Table : list Z :=
  (λ n, to_uint32 (Nat.iter 8 crc32TableRound n)) <$> seqZ 0 256.
Definition CRC32_TABLE : list Z := Eval vm_compute in buildCrc32Table.

(** One iteration of the loop over the data.  The index is below 256. *)
Definition crc32Byte (crc : Z) (b : byte) : Z :=
  js_xor (js_ushr crc 8)
    (default 0 (CRC32_TABLE !! Z.to_nat (js_and (js_xor crc (ubyte b)) 0xff))).

Definition crc32 (data : bytes) : Z :=
  to_uint32 (js_xor (foldl crc32Byte 0xffffffff data) 0xffffffff).

(** ** The reference: a 32-bit shift register fed one bit at a time

    The reflected polynomial of IEEE 802.3; each message bit is added to the
    register's low bit, which on leaving the register subtracts the polynomial. *)
Definition CRC32_POLY : Z := 0xedb88320.
Definition lfsr (c : Z) : Z :=
  if Z.odd c then Z.lxor CRC32_POLY (Z.shiftr c 1) else Z.shiftr c 1.
Definition lfsr_bit (c : Z) (bit : bool) : Z := lfsr (Z.lxor c (Z.b2z bit)).
(** The bits of a byte, least significant first. *)
Definition byte_bits (b : byte) : list bool := Z.testbit (ubyte b) <$> seqZ 0 8.
Definition crc32_reference (data : bytes) : Z :=
  Z.lxor (foldl lfsr_bit 0xffffffff (data ≫= byte_bits)) 0xffffffff.

(** ** The register is linear and reversible *)

Lemma lfsr_lxor a b : lfsr (Z.lxor a b) = Z.lxor (lfsr a) (lfsr b).
Proof.
  unfold lfsr. rewrite <- !Z.bit0_odd, Z.lxor_spec, Z.shiftr_lxor.
  destruct (Z.testbit a 0), (Z.testbit b 0); simpl;
    apply Z.bits_inj'; intros n Hn; rewrite !Z.lxor_spec;
    by destruct (Z.testbit CRC32_POLY n), (Z.testbit (Z.shiftr a 1) n), (Z.testbit (Z.shiftr b 1) n).
Qed.

Lemma lfsr_double d : lfsr (2 * d) = d.
Proof.
  unfold lfsr. rewrite Z.odd_mul; simpl. rewrite Z.shiftr_div_pow2 by lia.
  change (2 ^ 1) with 2. rewrite Z.mul_comm. by apply Z.div_mul.
Qed.

Lemma lfsr_0 : lfsr 0 = 0.
Proof. done. Qed.

Lemma bits_above a n m : 0 ≤ a < 2 ^ n → 0 ≤ n ≤ m → Z.testbit a m = false.
Proof. intros Ha Hn. rewrite <- (Z.mod_small a (2 ^ n)) by done. by apply Z.mod_pow2_bits_high. Qed.

Lemma lxor_range a b n : 0 ≤ n → 0 ≤ a < 2 ^ n → 0 ≤ b < 2 ^ n → 0 ≤ Z.lxor a b < 2 ^ n.
Proof.
  intros Hn Ha Hb. assert (Z.lxor a b = Z.lxor a b mod 2 ^ n) as ->; [|by apply Z.mod_pos_bound; lia].
  apply Z.bits_inj'. intros m Hm. destruct (decide (m < n)).
  - by rewrite Z.mod_pow2_bits_low by lia.
  - by rewrite Z.mod_pow2_bits_high, Z.lxor_spec, (bits_above a n), (bits_above b n) by lia.
Qed.

Lemma lfsr_range c : 0 ≤ c < 2 ^ 32 → 0 ≤ lfsr c < 2 ^ 32.
Proof.
  intros Hc. assert (0 ≤ Z.shiftr c 1 < 2 ^ 32).
  { rewrite Z.shiftr_div_pow2 by lia. change (2 ^ 1) with 2. split; [apply Z.div_pos; lia|].
    apply Z.div_lt_upper_bound; lia. }
  unfold lfsr. destruct (Z.odd c); [|done]. by apply lxor_range; [lia|unfold CRC32_POLY; lia|].
Qed.

(** A register that becomes zero was zero. *)
Lemma lfsr_eq_0 c : 0 ≤ c < 2 ^ 32 → lfsr c = 0 → c = 0.
Proof.
  intros Hc. unfold lfsr. destruct (Z.odd c) eqn:Ho; intros H.
  - apply (f_equal (λ z, Z.testbit z 31)) in H. rewrite Z.lxor_spec, Z.shiftr_spec in H by lia.
    rewrite Z.bits_0 in H. replace (Z.testbit c (31 + 1)) with false in H; [done|].
    symmetry. by apply (bits_above c 32).
  - rewrite Z.shiftr_div_pow2 in H by lia. change (2 ^ 1) with 2 in H.
    pose proof (Z.div_mod c 2). rewrite Zmod_odd, Ho in *. lia.
Qed.

Lemma iter_lfsr_lxor n a b : Nat.iter n lfsr (Z.lxor a b) = Z.lxor (Nat.iter n lfsr a) (Nat.iter n lfsr b).
Proof. induction n as [|n IH]; simpl; [done|]. by rewrite IH, lfsr_lxor. Qed.

Lemma iter_lfsr_range n c : 0 ≤ c < 2 ^ 32 → 0 ≤ Nat.iter n lfsr c < 2 ^ 32.
Proof. intros. induction n as [|n IH]; simpl; [done|]. by apply lfsr_range. Qed.

Lemma iter_lfsr_inj n a b :
  0 ≤ a < 2 ^ 32 → 0 ≤ b < 2 ^ 32 → Nat.iter n lfsr a = Nat.iter n lfsr b → a = b.
Proof.
  intros Ha Hb H. assert (∀ c, 0 ≤ c < 2 ^ 32 → Nat.iter n lfsr c = 0 → c = 0) as H0.
  { clear. intros c Hc. induction n as [|n IH]; simpl; [done|]. intros H.
    apply IH, lfsr_eq_0, H. by apply iter_lfsr_range. }
  apply Z.lxor_eq, H0; [by apply lxor_range|]. by rewrite iter_lfsr_lxor, H, Z.lxor_nilpotent.
Qed.

(** [n] rounds move a value out of the low [n] bits: [d * 2^n] becomes [d]. *)
Lemma iter_lfsr_shift n d : Nat.iter n lfsr (2 ^ Z.of_nat n * d) = d.
Proof.
  revert d. induction n as [|n IH]; intros d; [by rewrite Z.mul_1_l|].
  rewrite Nat2Z.inj_succ, Z.pow_succ_r by lia. simpl.
  replace (2 * 2 ^ Z.of_nat n * d) with (2 ^ Z.of_nat n * (2 * d)) by lia. by rewrite IH, lfsr_double.
Qed.

(** ** The table-driven loop *)

Lemma CRC32_TABLE_spec i : 0 ≤ i < 256 → CRC32_TABLE !! Z.to_nat i = Some (Nat.iter 8 lfsr i).
Proof.
  intros Hi. assert (CRC32_TABLE = Nat.iter 8 lfsr <$> seqZ 0 256) as -> by by vm_compute.
  rewrite list_lookup_fmap, lookup_seqZ_lt by lia. simpl. by rewrite Z2Nat.id by lia.
Qed.

Lemma ubyte_range b : 0 ≤ ubyte b < 256.
Proof. apply coqutil.Byte.byte.unsigned_range. Qed.

(** One byte on the unsigned register: eight rounds after adding the byte. *)
Lemma crc32Byte_rounds c b : to_uint32 (crc32Byte c b) = Nat.iter 8 lfsr (Z.lxor (to_uint32 c) (ubyte b)).
Proof.
  pose proof (ubyte_range b) as Hb. pose proof (to_uint32_range c) as Hc.
  unfold crc32Byte. rewrite to_uint32_js_xor, js_and_mask, to_uint32_js_xor by lia.
  unfold js_ushr. rewrite (to_uint32_small (ubyte b)) by lia.
  set (u := to_uint32 c) in *. change 0xff with (Z.ones 8). rewrite Z.land_ones by lia.
  set (lo := Z.lxor u (ubyte b) mod 2 ^ 8).
  assert (0 ≤ lo < 256) as Hlo by (by apply Z.mod_pos_bound).
  rewrite CRC32_TABLE_spec by done. simpl default.
  assert (Z.lxor u (ubyte b) = Z.lxor (2 ^ Z.of_nat 8 * Z.shiftr u 8) lo) as ->.
  { apply Z.bits_inj'. intros n Hn. rewrite !Z.lxor_spec. unfold lo.
    change (2 ^ Z.of_nat 8) with (2 ^ 8). rewrite Z.mul_comm, <- Z.shiftl_mul_pow2 by lia.
    rewrite Z.shiftl_spec by done. destruct (decide (n < 8)).
    - rewrite Z.mod_pow2_bits_low, Z.lxor_spec, (Z.testbit_neg_r _ (n - 8)) by lia. done.
    - rewrite Z.mod_pow2_bits_high, Z.shiftr_spec, (bits_above (ubyte b) 8) by lia.
      do 2 f_equal. lia. }
  rewrite iter_lfsr_lxor, iter_lfsr_shift.
  assert (0 ≤ Z.shiftr u 8 < 2 ^ 32) as Hhi.
  { rewrite Z.shiftr_div_pow2 by lia. split; [apply Z.div_pos; lia|apply Z.div_lt_upper_bound; lia]. }
  rewrite (to_uint32_small (Z.shiftr u 8)) by done. f_equal.
  apply to_uint32_small, iter_lfsr_range. lia.
Qed.

(** Feeding the low [n] bits of [d] one at a time. *)
Lemma lfsr_bits n c d :
  0 ≤ d < 2 ^ Z.of_nat n →
  foldl lfsr_bit c (Z.testbit d <$> seqZ 0 (Z.of_nat n)) = Nat.iter n lfsr (Z.lxor c d).
Proof.
  revert c d. induction n as [|n IH]; intros c d Hd.
  { simpl. assert (d = 0) as -> by lia. by rewrite Z.lxor_0_r. }
  rewrite seqZ_cons by lia. rewrite fmap_cons. simpl foldl.
  replace (Z.testbit d <$> seqZ (Z.succ 0) (Z.pred (Z.of_nat (S n))))
    with (Z.testbit (d / 2) <$> seqZ 0 (Z.of_nat n)).
  2:{ rewrite <- (fmap_add_seqZ 1 0). replace (Z.pred (Z.of_nat (S n))) with (Z.of_nat n) by lia.
      rewrite <- list_fmap_compose. apply list_fmap_ext. intros i x Hx.
      apply lookup_seqZ in Hx as [-> ?]. unfold compose. rewrite Z.div2_bits by lia. f_equal; lia. }
  rewrite Nat2Z.inj_succ, Z.pow_succ_r in Hd by lia.
  rewrite IH by (split; [apply Z.div_pos; lia|apply Z.div_lt_upper_bound; lia]).
  rewrite Nat.iter_succ_r. f_equal. unfold lfsr_bit.
  assert (Z.lxor c d = Z.lxor (Z.lxor c (Z.b2z (Z.testbit d 0))) (2 * (d / 2))) as ->.
  { rewrite Z.lxor_assoc. f_equal. apply Z.bits_inj'. intros m Hm. rewrite Z.lxor_spec.
    destruct (decide (m = 0)) as [->|].
    - rewrite Z.testbit_even_0, xorb_false_r. by rewrite Z.b2z_bit0.
    - replace m with (Z.succ (Z.pred m)) by lia. rewrite Z.testbit_even_succ by lia.
      rewrite Z.div2_bits by lia. rewrite (bits_above (Z.b2z _) 1); [done|by destruct (Z.testbit d 0)|lia]. }
  by rewrite (lfsr_lxor (Z.lxor _ _)), lfsr_double.
Qed.

Lemma crc32Byte_bits c b : to_uint32 (crc32Byte c b) = foldl lfsr_bit (to_uint32 c) (byte_bits b).
Proof. rewrite crc32Byte_rounds. unfold byte_bits. by rewrite (lfsr_bits 8) by apply ubyte_range. Qed.

Lemma crc32_register data c :
  to_uint32 (foldl crc32Byte c data) = foldl lfsr_bit (to_uint32 c) (data ≫= byte_bits).
Proof.
  revert c. induction data as [|b data IH]; intros c; [done|].
  rewrite bind_cons, foldl_app, <- crc32Byte_bits. apply IH.
Qed.

(** The table-driven checksum is the bit-serial one: for every byte string,
    [crc32], with its table of 256 entries and its signed 32-bit arithmetic,
    returns the contents of the shift register fed the message bit by bit. *)
Theorem crc32_is_bit_serial (data : bytes) : crc32 data = crc32_reference data.
Proof.
  unfold crc32, crc32_reference. by rewrite to_uint32_js_xor, crc32_register.
Qed.

(** The standard check vector. *)
Example crc32_check : crc32 (to_byte <$> [0x31; 0x32; 0x33; 0x34; 0x35; 0x36; 0x37; 0x38; 0x39]) = 0xcbf43926.
Proof. by vm_compute. Qed.

Lemma crc32_range data : 0 ≤ crc32 data < 2 ^ 32.
Proof. apply to_uint32_range. Qed.

(** ** Bursts *)

Lemma crc32_cons c b data :
  to_uint32 (foldl crc32Byte c (b :: data)) =
  to_uint32 (foldl crc32Byte (Nat.iter 8 lfsr (Z.lxor (to_uint32 c) (ubyte b))) data).
Proof.
  cbn [foldl]. rewrite !crc32_register, crc32Byte_rounds.
  rewrite (to_uint32_small (Nat.iter _ _ _)); [done|]. apply iter_lfsr_range.
  pose proof (ubyte_range b). apply lxor_range; [lia|apply to_uint32_range|lia].
Qed.

(** A little-endian value, byte by byte. *)
Lemma le_decode_cons b x : le_decode (b :: x) = Z.lxor (ubyte b) (2 ^ Z.of_nat 8 * le_decode x).
Proof.
  change (le_decode (b :: x)) with (Z.lor (ubyte b) (Z.shiftl (le_decode x) 8)).
  change (2 ^ Z.of_nat 8) with (2 ^ 8). rewrite Z.mul_comm, <- Z.shiftl_mul_pow2 by lia.
  apply Z.bits_inj'. intros n Hn. rewrite Z.lor_spec, Z.lxor_spec, Z.shiftl_spec by done.
  destruct (decide (n < 8)).
  - rewrite (Z.testbit_neg_r _ (n - 8)) by lia. by rewrite orb_false_r, xorb_false_r.
  - rewrite (bits_above (ubyte b) 8); [by rewrite orb_false_l, xorb_false_l|by apply ubyte_range|lia].
Qed.

Lemma le_decode_inj x y : length x = length y → le_decode x = le_decode y → x = y.
Proof. apply LittleEndianList.le_combine_inj. Qed.

(** Bytes enter the register as one little-endian number. *)
Lemma crc32_word x u :
  0 ≤ u < 2 ^ 32 →
  to_uint32 (foldl crc32Byte u x) = Nat.iter (8 * length x) lfsr (Z.lxor u (le_decode x)).
Proof.
  revert u. induction x as [|b x IH]; intros u Hu.
  { simpl. change (le_decode []) with 0. by rewrite Z.lxor_0_r, to_uint32_small. }
  pose proof (ubyte_range b).
  assert (0 ≤ Nat.iter 8 lfsr (Z.lxor u (ubyte b)) < 2 ^ 32) by (apply iter_lfsr_range, lxor_range; lia).
  rewrite crc32_cons, (to_uint32_small u), IH by done.
  change (length (b :: x)) with (S (length x)). replace (8 * S (length x))%nat with (8 * length x + 8)%nat by lia.
  rewrite Nat.iter_add. f_equal. rewrite le_decode_cons, <- Z.lxor_assoc.
  by rewrite (iter_lfsr_lxor 8 (Z.lxor u (ubyte b))), iter_lfsr_shift.
Qed.

Lemma crc32_suffix_inj z u v :
  to_uint32 (foldl crc32Byte u z) = to_uint32 (foldl crc32Byte v z) → to_uint32 u = to_uint32 v.
Proof.
  revert u v. induction z as [|b z IH]; intros u v; [done|]. cbn [foldl]. intros H.
  apply IH in H. rewrite !crc32Byte_rounds in H. pose proof (ubyte_range b).
  assert (∀ w, 0 ≤ Z.lxor (to_uint32 w) (ubyte b) < 2 ^ 32)
    by (intros; apply lxor_range; [lia|apply to_uint32_range|lia]).
  apply iter_lfsr_inj in H; [|done..].
  apply (f_equal (λ w, Z.lxor w (ubyte b))) in H. by rewrite !Z.lxor_assoc, !Z.lxor_nilpotent, !Z.lxor_0_r in H.
Qed.

(** Two messages that differ only inside a window of four bytes have different
    checksums. *)
Lemma crc32_burst a x y z :
  length x = length y → (length x ≤ 4)%nat → crc32 (a ++ x ++ z) = crc32 (a ++ y ++ z) → x = y.
Proof.
  intros Hl H4 H. unfold crc32 in H. rewrite !to_uint32_js_xor in H.
  apply (f_equal (λ w, Z.lxor w (to_uint32 0xffffffff))) in H.
  rewrite !Z.lxor_assoc, !Z.lxor_nilpotent, !Z.lxor_0_r in H.
  rewrite !foldl_app in H. apply crc32_suffix_inj in H.
  set (u := foldl crc32Byte 0xffffffff a) in *.
  assert (∀ w, to_uint32 (foldl crc32Byte u w) = to_uint32 (foldl crc32Byte (to_uint32 u) w)) as Hu.
  { intros w. rewrite !crc32_register. by rewrite (to_uint32_small (to_uint32 u)) by apply to_uint32_range. }
  pose proof (to_uint32_range u).
  rewrite (Hu x), (Hu y), !crc32_word, Hl in H by done.
  assert (∀ w, length w = length y → 0 ≤ le_decode w < 2 ^ 32) as Hw.
  { intros w Hw. pose proof (le_decode_bound w) as [? Hb]. split; [done|].
    eapply Z.lt_le_trans; [exact Hb|]. apply Z.pow_le_mono_r; lia. }
  apply iter_lfsr_inj in H; [|by apply lxor_range, Hw; try lia..].
  apply le_decode_inj; [done|]. apply (f_equal (Z.lxor (to_uint32 u))) in H.
  by rewrite <- !Z.lxor_assoc, !Z.lxor_nilpotent, !Z.lxor_0_l in H.
Qed.
