(* ===== verification/FrameProtocol.v ===== *)
(** * The screen-capture frame protocol

    [src/src/features/screen-stream/frameProtocol.ts]: the record headers and
    [FrameDecoder], written against the [ByteQueue] interface.  The decoder's
    loop is the one-step function [frame_step] on plain bytes, which loses
    alignment on a header that does not validate and finds it again by scanning
    for the next marker whose checksum does. *)
From S2P Require Import Prelude Bytes BufferQueue Incremental Crc32.
Local Open Scope Z_scope.

(** ** Headers *)

Definition FRAME_MAGIC : Z := 0x31464d41.
Definition FRAME_MAGIC_BYTES : bytes := to_byte <$> [0x41; 0x4d; 0x46; 0x31].
Definition FRAME_HEADER_SIZE : nat := 24.
Definition HEADER_FIELDS_OFFSET : nat := 8.
Definition MAX_AUDIO_PAYLOAD_BYTES : Z := 16 * 1024 * 1024.
Definition MAX_ENCODED_VIDEO_PAYLOAD_BYTES : Z := 16 * 1024 * 1024.
Definition MAX_RECORD_PAYLOAD_BYTES : Z := Z.max MAX_AUDIO_PAYLOAD_BYTES MAX_ENCODED_VIDEO_PAYLOAD_BYTES.
Definition ENCODED_VIDEO_HEIGHT_BASE : Z := 0xe2640000.
Definition ENCODED_VIDEO_HEIGHT_MASK : Z := 0xfffffffe.
Definition ENCODED_VIDEO_KEYFRAME_BIT : Z := 0x00000001.

Record FrameHeader := mkFrameHeader { width : Z; height : Z; bytesPerRow : Z; timestampMs : Z }.

Inductive MalformedFrameReason :=
| header_magic_mismatch | header_checksum_mismatch | header_unsupported_record
| audio_payload_too_large | encoded_video_payload_too_large.

(** The callbacks, in the order the decoder makes them. *)
Inductive FrameEvent :=
| onMalformed (reason : MalformedFrameReason) (header : FrameHeader)
| onAudio (pcm16le : bytes)
| onEncodedVideo (keyframe : bool) (presentationTimestampMs : Z) (payload : bytes).

Definition isAudioHeader (h : FrameHeader) : bool :=
  (width h =? 0) && (height h =? 8000) && (bytesPerRow h =? 1).

Definition isEncodedVideoHeader (h : FrameHeader) : bool :=
  (width h =? 0) && (to_uint32 (js_and (height h) ENCODED_VIDEO_HEIGHT_MASK) =? ENCODED_VIDEO_HEIGHT_BASE).

Definition payloadSize (h : FrameHeader) : Z :=
  if isAudioHeader h then timestampMs h else bytesPerRow h.

Definition parseFields (buffer : bytes) (offset : nat) : FrameHeader :=
  mkFrameHeader (readUInt32LE buffer (offset + 8)) (readUInt32LE buffer (offset + 12))
    (readUInt32LE buffer (offset + 16)) (readUInt32LE buffer (offset + 20)).

Definition fieldBoundsError (h : FrameHeader) : option MalformedFrameReason :=
  if isAudioHeader h then
    if MAX_AUDIO_PAYLOAD_BYTES <? timestampMs h then Some audio_payload_too_large else None
  else if isEncodedVideoHeader h then
    if MAX_ENCODED_VIDEO_PAYLOAD_BYTES <? bytesPerRow h then Some encoded_video_payload_too_large else None
  else Some header_unsupported_record.

Definition headerErrorAt (buffer : bytes) (offset : nat) : option MalformedFrameReason :=
  if negb (readUInt32LE buffer offset =? FRAME_MAGIC) then Some header_magic_mismatch
  else
    let stored := readUInt32LE buffer (offset + 4) in
    if negb (stored =? crc32 (subarray buffer (offset + HEADER_FIELDS_OFFSET) (offset + FRAME_HEADER_SIZE)))
    then Some header_checksum_mismatch
    else fieldBoundsError (parseFields buffer offset).

(** The writes fill the 24 bytes in the order magic, checksum, fields. *)
Definition encodeFrameHeader (h : FrameHeader) : bytes :=
  let fields := le_encode 4 (to_uint32 (width h)) ++ le_encode 4 (to_uint32 (height h)) ++
                le_encode 4 (to_uint32 (bytesPerRow h)) ++ le_encode 4 (to_uint32 (timestampMs h)) in
  le_encode 4 FRAME_MAGIC ++ le_encode 4 (crc32 fields) ++ fields.

Definition encodeEncodedVideoHeader (payloadLength : Z) (keyframe : bool) (presentationTimestampMs : Z) : bytes :=
  encodeFrameHeader (mkFrameHeader 0
    (to_uint32 (js_or ENCODED_VIDEO_HEIGHT_BASE (if keyframe then ENCODED_VIDEO_KEYFRAME_BIT else 0)))
    payloadLength presentationTimestampMs).

(** [emitRecord]: the callback a completed payload goes to. *)
Definition emitRecord (h : FrameHeader) (payload : bytes) : FrameEvent :=
  if isAudioHeader h then onAudio payload
  else onEncodedVideo (negb (js_and (height h) ENCODED_VIDEO_KEYFRAME_BIT =? 0)) (timestampMs h) payload.

(** ** The decoder *)

(** [buf.indexOf(pattern, from)]. *)
Fixpoint indexOf (pattern buffer : bytes) : option nat :=
  if bool_decide (pattern `prefix_of` buffer) then Some O
  else match buffer with
       | [] => None
       | _ :: tail => S <$> indexOf pattern tail
       end.
Definition indexOfFrom (buffer pattern : bytes) (from : nat) : option nat :=
  Nat.add from <$> indexOf pattern (drop from buffer).

(** What [push] may throw: its backstop, or an error of the queue.  [Diverged]
    stands for a loop that outruns its fuel. *)
Inductive DecoderError := BufferLimitReached | QueueFailed (e : QueueError) | Diverged.

Section Decoder.
Context {Q} `{ByteQueue Q}.

Record FrameDecoder := mkDecoder {
  buffer : Q;
  pendingHeader : option FrameHeader;
  highWaterMarkBytes : nat;
  resynchronizing : bool;
}.

Definition newDecoder : FrameDecoder := mkDecoder bq_empty None 0 false.

Definition setBuffer (d : FrameDecoder) (q : Q) : FrameDecoder :=
  mkDecoder q (pendingHeader d) (highWaterMarkBytes d) (resynchronizing d).
Definition setPending (d : FrameDecoder) (h : option FrameHeader) : FrameDecoder :=
  mkDecoder (buffer d) h (highWaterMarkBytes d) (resynchronizing d).
Definition setResynchronizing (d : FrameDecoder) (b : bool) : FrameDecoder :=
  mkDecoder (buffer d) (pendingHeader d) (highWaterMarkBytes d) b.

Record FrameDecoderMetrics := mkMetrics { bufferedBytes : nat; highWater : nat; maxBufferedBytes : Z }.
Definition getMetrics (d : FrameDecoder) : FrameDecoderMetrics :=
  mkMetrics (bq_length (buffer d)) (highWaterMarkBytes d)
    (Z.of_nat FRAME_HEADER_SIZE + MAX_RECORD_PAYLOAD_BYTES).

Definition replaceBuffer (d : FrameDecoder) (b : bytes) : FrameDecoder :=
  setBuffer d (bq_replace (buffer d) b).

(** The loop of [resynchronize] from [searchFrom] on: where it stops, with the
    flag it returns.  The fuel exceeds the bytes left to search. *)
Fixpoint resynchronizeLoop (fuel : nat) (buf : bytes) (searchFrom : nat) : nat * bool :=
  let giveUp := (length buf - (length FRAME_MAGIC_BYTES - 1), false)%nat in
  match fuel with
  | O => giveUp
  | S fuel' =>
      if bool_decide (searchFrom + length FRAME_MAGIC_BYTES ≤ length buf)%nat then
        match indexOfFrom buf FRAME_MAGIC_BYTES searchFrom with
        | None => giveUp
        | Some index =>
            if bool_decide (length buf < index + FRAME_HEADER_SIZE)%nat then (index, false)
            else match headerErrorAt buf index with
                 | None => (index, true)
                 | Some _ => resynchronizeLoop fuel' buf (index + 1)
                 end
        end
      else giveUp
  end.

Definition resynchronize (d : FrameDecoder) : outcome QueueError (bool * FrameDecoder) :=
  buf ← bq_toBuffer (buffer d);
  let '(index, aligned) := resynchronizeLoop (S (length buf)) buf 0 in
  let d := replaceBuffer d (drop index buf) in
  Returns (aligned, if aligned then setResynchronizing d false else d).

Inductive HeaderOutcome := Starved | Malformed | Taken (h : FrameHeader).

Definition takeHeader (d : FrameDecoder) : outcome QueueError (HeaderOutcome * FrameDecoder * list FrameEvent) :=
  if bool_decide (bq_length (buffer d) < FRAME_HEADER_SIZE)%nat then Returns (Starved, d, [])
  else
    buf ← bq_peek (buffer d) FRAME_HEADER_SIZE;
    match headerErrorAt buf 0 with
    | Some reason =>
        Returns (Malformed, setResynchronizing d true, [onMalformed reason (parseFields buf 0)])
    | None =>
        q ← bq_discard (buffer d) FRAME_HEADER_SIZE;
        Returns (Taken (parseFields buf 0), setBuffer d q, [])
    end.

(** The front of one iteration of [decodeAvailable]: realign when scanning, then
    take the next header unless one is pending.  [None] ends the loop. *)
Definition alignAndTakeHeader (d : FrameDecoder) :
    outcome QueueError (HeaderOutcome * FrameDecoder * list FrameEvent) :=
  '(aligned, d) ← (if resynchronizing d then resynchronize d else Returns (true, d));
  if (aligned : bool) then
    match pendingHeader d with
    | Some h => Returns (Taken h, d, [])
    | None => takeHeader d
    end
  else Returns (Starved, d, []).

(** The loop of [decodeAvailable]; the flag returned is [madeProgress]. *)
Fixpoint decodeLoop (fuel : nat) (d : FrameDecoder) (madeProgress : bool) :
    FrameDecoder * list FrameEvent * outcome DecoderError bool :=
  match fuel with
  | O => (d, [], Throws Diverged)
  | S fuel' =>
      match alignAndTakeHeader d with
      | Throws e => (d, [], Throws (QueueFailed e))
      | Returns (Starved, d, evs) => (d, evs, Returns madeProgress)
      | Returns (Malformed, d, evs) =>
          let '(d', evs', r) := decodeLoop fuel' d true in (d', evs ++ evs', r)
      | Returns (Taken pending, d1, evs) =>
          let madeProgress := madeProgress || bool_decide (pendingHeader d = None) in
          let d := setPending d1 (Some pending) in
          let expected := payloadSize pending in
          if Z.of_nat (bq_length (buffer d)) <? expected then (d, evs, Returns madeProgress)
          else
            match bq_takeDetached (buffer d) (Z.to_nat expected) with
            | Throws e => (d, evs, Throws (QueueFailed e))
            | Returns (payload, q) =>
                let '(d', evs', r) := decodeLoop fuel' (setPending (setBuffer d q) None) true in
                (d', evs ++ emitRecord pending payload :: evs', r)
            end
      end
  end.

Definition decodeAvailable (d : FrameDecoder) : FrameDecoder * list FrameEvent * outcome DecoderError bool :=
  decodeLoop (4 * bq_length (buffer d) + 4) d false.

(** The loop of [push] over the bytes of the chunk from [offset] on. *)
Fixpoint pushLoop (fuel : nat) (d : FrameDecoder) (rest : bytes) :
    FrameDecoder * list FrameEvent * option DecoderError :=
  if bool_decide (length rest = 0%nat) then (d, [], None) else
  match fuel with
  | O => (d, [], Some Diverged)
  | S fuel' =>
      let available := Z.of_nat FRAME_HEADER_SIZE + MAX_RECORD_PAYLOAD_BYTES - Z.of_nat (bq_length (buffer d)) in
      if available =? 0 then
        match decodeAvailable d with
        | (d, evs, Throws e) => (d, evs, Some e)
        | (d, evs, Returns false) => (d, evs, Some BufferLimitReached)
        | (d, evs, Returns true) =>
            let '(d', evs', err) := pushLoop fuel' d rest in (d', evs ++ evs', err)
        end
      else
        let count := Z.to_nat (Z.min (Z.of_nat (length rest)) available) in
        let q := bq_append (buffer d) (take count rest) in
        let d := mkDecoder q (pendingHeader d) (highWaterMarkBytes d `max` bq_length q) (resynchronizing d) in
        match decodeAvailable d with
        | (d, evs, Throws e) => (d, evs, Some e)
        | (d, evs, Returns _) =>
            let '(d', evs', err) := pushLoop fuel' d (drop count rest) in (d', evs ++ evs', err)
        end
  end.

Definition push (d : FrameDecoder) (chunk : bytes) : FrameDecoder * list FrameEvent * option DecoderError :=
  pushLoop (length chunk) d chunk.

(** A stream of chunks, until the first throw. *)
Fixpoint pushAll (d : FrameDecoder) (cs : list bytes) : FrameDecoder * list FrameEvent * option DecoderError :=
  match cs with
  | [] => (d, [], None)
  | c :: cs' =>
      match push d c with
      | (d', evs, Some e) => (d', evs, Some e)
      | (d', evs, None) => let '(d'', evs', err) := pushAll d' cs' in (d'', evs ++ evs', err)
      end
  end.
End Decoder.
Arguments FrameDecoder : clear implicits.

Example push_one_record :
  (push (Q := BufferQueue) newDecoder
     (to_byte <$> [0xff] ++ (ubyte <$> encodeEncodedVideoHeader 3 true 77 ++ (to_byte <$> [1;2;3])))).1.2
  = [onMalformed header_magic_mismatch (parseFields (to_byte 0xff :: encodeEncodedVideoHeader 3 true 77) 0);
     onEncodedVideo true 77 (to_byte <$> [1;2;3])].
Proof. vm_compute. reflexivity. Qed.

(** ** The decoder on plain bytes *)

(** Where the scan for a marker stops, relative to the bytes scanned: at a valid
    header, at a marker whose header has not arrived whole, or past the end. *)
Inductive ScanResult := Found (i : nat) | Partial (i : nat) | NoMarker.
Definition shift_scan (r : ScanResult) : ScanResult :=
  match r with Found i => Found (S i) | Partial i => Partial (S i) | NoMarker => NoMarker end.
Fixpoint scan (a : bytes) : ScanResult :=
  match a with
  | [] => NoMarker
  | _ :: tail =>
      if bool_decide (FRAME_MAGIC_BYTES `prefix_of` a) then
        if bool_decide (length a < FRAME_HEADER_SIZE)%nat then Partial 0
        else match headerErrorAt a 0 with None => Found 0 | Some _ => shift_scan (scan tail) end
      else shift_scan (scan tail)
  end.

(** The three states of the decoder. *)
Inductive Alignment := Aligned | Pending (h : FrameHeader) | Scanning.

Definition scanned (a : bytes) (r : ScanResult) : presult Alignment FrameEvent DecoderError :=
  match r with
  | Found i => Emit Aligned [] (drop i a)
  | Partial i => Need Scanning (drop i a)
  | NoMarker => Need Scanning (drop (length a - 3) a)
  end.

Definition frame_step (s : Alignment) (a : bytes) : presult Alignment FrameEvent DecoderError :=
  match s with
  | Scanning => scanned a (scan a)
  | Aligned =>
      if bool_decide (length a < FRAME_HEADER_SIZE)%nat then Need Aligned a
      else match headerErrorAt a 0 with
           | Some reason => Emit Scanning [onMalformed reason (parseFields a 0)] a
           | None => Emit (Pending (parseFields a 0)) [] (drop FRAME_HEADER_SIZE a)
           end
  | Pending h =>
      if Z.of_nat (length a) <? payloadSize h then Need s a
      else Emit Aligned [emitRecord h (take (Z.to_nat (payloadSize h)) a)] (drop (Z.to_nat (payloadSize h)) a)
  end.

(** ** Headers are read from their 24 bytes *)

Lemma subarray_take a n first last : (last ≤ n)%nat → subarray (take n a) first last = subarray a first last.
Proof. intros. unfold subarray. rewrite skipn_firstn_comm, take_take. f_equal. lia. Qed.

Lemma subarray_drop a n first last : subarray (drop n a) first last = subarray a (n + first) (n + last).
Proof. unfold subarray. rewrite drop_drop. f_equal. lia. Qed.

Lemma parseFields_drop a i : parseFields a i = parseFields (drop i a) 0.
Proof. unfold parseFields, readUInt32LE. rewrite !subarray_drop. f_equal; do 2 f_equal; lia. Qed.

Lemma headerErrorAt_drop a i : headerErrorAt a i = headerErrorAt (drop i a) 0.
Proof.
  unfold headerErrorAt. rewrite (parseFields_drop a i). unfold readUInt32LE. rewrite !subarray_drop.
  by rewrite !Nat.add_0_r, !Nat.add_0_l, Nat.add_assoc.
Qed.

Lemma parseFields_app a b : (FRAME_HEADER_SIZE ≤ length a)%nat → parseFields (a ++ b) 0 = parseFields a 0.
Proof.
  unfold FRAME_HEADER_SIZE. intros. unfold parseFields, readUInt32LE. by rewrite !subarray_app_l by lia.
Qed.

Lemma headerErrorAt_app a b : (FRAME_HEADER_SIZE ≤ length a)%nat → headerErrorAt (a ++ b) 0 = headerErrorAt a 0.
Proof.
  intros Hl. unfold headerErrorAt. rewrite parseFields_app by done. unfold FRAME_HEADER_SIZE in *.
  unfold readUInt32LE. by rewrite !subarray_app_l by (unfold FRAME_HEADER_SIZE; lia).
Qed.

Lemma headerErrorAt_take a : (FRAME_HEADER_SIZE ≤ length a)%nat → headerErrorAt (take FRAME_HEADER_SIZE a) 0 = headerErrorAt a 0.
Proof.
  intros. rewrite <- (take_drop FRAME_HEADER_SIZE a) at 2. rewrite headerErrorAt_app; [done|].
  rewrite length_take. lia.
Qed.

Lemma parseFields_take a : (FRAME_HEADER_SIZE ≤ length a)%nat → parseFields (take FRAME_HEADER_SIZE a) 0 = parseFields a 0.
Proof.
  intros. rewrite <- (take_drop FRAME_HEADER_SIZE a) at 2. rewrite parseFields_app; [done|].
  rewrite length_take. lia.
Qed.

(** ** The loop of [resynchronize] is the scan *)

Definition scan_index (a : bytes) (from : nat) (r : ScanResult) : nat * bool :=
  match r with
  | Found i => (from + i, true)%nat | Partial i => (from + i, false)%nat
  | NoMarker => (length a - 3, false)%nat
  end.
Definition shift_scan_by (k : nat) (r : ScanResult) : ScanResult := Nat.iter k shift_scan r.

Lemma scan_index_shift a from k r : scan_index a from (shift_scan_by k r) = scan_index a (from + k) r.
Proof.
  revert from. induction k as [|k IH]; intros from; [by rewrite Nat.add_0_r|].
  rewrite <- Nat.add_succ_comm, <- IH. change (shift_scan_by (S k) r) with (shift_scan (shift_scan_by k r)).
  destruct (shift_scan_by k r); simpl; f_equal; lia.
Qed.

Lemma scan_short a : (length a < 4)%nat → scan a = NoMarker.
Proof.
  induction a as [|x a IH]; intros Hl; [done|]. cbn [scan]. rewrite bool_decide_eq_false_2.
  - simpl in Hl. by rewrite IH by lia.
  - intros Hp. apply prefix_length in Hp. change (length FRAME_MAGIC_BYTES) with 4%nat in Hp. lia.
Qed.

(** Skipping to the next marker skips nothing the scan would stop at. *)
Lemma scan_indexOf a :
  match indexOf FRAME_MAGIC_BYTES a with
  | None => scan a = NoMarker
  | Some i => scan a = shift_scan_by i (scan (drop i a)) ∧ FRAME_MAGIC_BYTES `prefix_of` drop i a
  end.
Proof.
  induction a as [|x a IH].
  { cbn [indexOf]. rewrite bool_decide_eq_false_2; [done|]. by apply prefix_nil_not. }
  cbn [indexOf]. case_bool_decide as Hp; [done|].
  cbn [scan]. rewrite bool_decide_eq_false_2 by done.
  destruct (indexOf FRAME_MAGIC_BYTES a) as [i|]; simpl.
  - destruct IH as [-> ?]. done.
  - by rewrite IH.
Qed.

(** The scan at a marker. *)
Lemma scan_marker a :
  FRAME_MAGIC_BYTES `prefix_of` a →
  scan a = if bool_decide (length a < FRAME_HEADER_SIZE)%nat then Partial 0
           else match headerErrorAt a 0 with None => Found 0 | Some _ => shift_scan (scan (drop 1 a)) end.
Proof.
  intros Hp. destruct a as [|x a]; [by apply prefix_nil_not in Hp|].
  cbn [scan]. by rewrite (bool_decide_eq_true_2 (FRAME_MAGIC_BYTES `prefix_of` _)).
Qed.

Lemma resynchronizeLoop_scan fuel buf from :
  (length buf < from + fuel)%nat →
  resynchronizeLoop fuel buf from = scan_index buf from (scan (drop from buf)).
Proof.
  revert from. induction fuel as [|fuel IH]; intros from Hf; cbn [resynchronizeLoop];
    change (length FRAME_MAGIC_BYTES) with 4%nat.
  { by rewrite drop_ge by lia. }
  case_bool_decide as Hl; [|by rewrite scan_short by (rewrite length_drop; lia)].
  unfold indexOfFrom. pose proof (scan_indexOf (drop from buf)) as Hs.
  destruct (indexOf FRAME_MAGIC_BYTES (drop from buf)) as [i|]; simpl fmap; cbv iota beta; [|by rewrite Hs].
  destruct Hs as [-> Hp]. rewrite drop_drop in *. rewrite scan_index_shift, scan_marker by done.
  assert (from + i < length buf)%nat as Hlt.
  { apply prefix_length in Hp. change (length FRAME_MAGIC_BYTES) with 4%nat in Hp. rewrite length_drop in Hp. lia. }
  rewrite length_drop. case_bool_decide as Hb.
  { rewrite bool_decide_eq_true_2 by lia. simpl. f_equal. lia. }
  rewrite bool_decide_eq_false_2, <- headerErrorAt_drop by lia.
  destruct (headerErrorAt buf (from + i)); [|simpl; f_equal; lia].
  rewrite IH by lia. rewrite (scan_index_shift _ _ 1), drop_drop. done.
Qed.

(** ** More bytes do not change what was decided *)

Lemma prefix_app_long (p a b : bytes) : (length p ≤ length a)%nat → p `prefix_of` a ++ b ↔ p `prefix_of` a.
Proof.
  intros Hl. split; [|by apply prefix_app_r].
  intros [k Hk]. exists (drop (length p) a). rewrite <- (take_drop (length p) a) at 1. f_equal.
  apply (f_equal (take (length p))) in Hk. by rewrite take_app_le, take_app_length in Hk by done.
Qed.

(** What the scan decides at the front of four or more bytes. *)
Inductive scan_front (x : byte) (a : bytes) : Prop :=
| front_partial : scan (x :: a) = Partial 0 → scan_front x a
| front_found :
    (FRAME_HEADER_SIZE ≤ length (x :: a))%nat → headerErrorAt (x :: a) 0 = None → scan (x :: a) = Found 0 →
    (∀ b, scan ((x :: a) ++ b) = Found 0) → scan_front x a
| front_skip :
    scan (x :: a) = shift_scan (scan a) → (∀ b, scan ((x :: a) ++ b) = shift_scan (scan (a ++ b))) →
    scan_front x a.

Lemma scan_front_cases x a : (4 ≤ length (x :: a))%nat → scan_front x a.
Proof.
  intros Hl. assert (∀ b, FRAME_MAGIC_BYTES `prefix_of` (x :: a) ++ b ↔ FRAME_MAGIC_BYTES `prefix_of` x :: a) as Hp.
  { intros b. by apply prefix_app_long. }
  destruct (decide (FRAME_MAGIC_BYTES `prefix_of` x :: a)) as [Hm|Hm].
  - destruct (decide (length (x :: a) < FRAME_HEADER_SIZE)%nat) as [Hh|Hh].
    { apply front_partial. rewrite scan_marker by done. by rewrite bool_decide_eq_true_2. }
    assert (∀ b, scan ((x :: a) ++ b) = match headerErrorAt (x :: a) 0 with
      | None => Found 0 | Some _ => shift_scan (scan (a ++ b)) end) as Hs.
    { intros b. rewrite scan_marker by by apply Hp.
      rewrite length_app, bool_decide_eq_false_2, headerErrorAt_app by lia. done. }
    pose proof (Hs []) as Hs0. rewrite !app_nil_r in Hs0.
    destruct (headerErrorAt (x :: a) 0) eqn:He; [by apply front_skip|apply front_found; [lia|done..]].
  - assert (∀ b, scan ((x :: a) ++ b) = shift_scan (scan (a ++ b))) as Hs.
    { intros b. change ((x :: a) ++ b) with (x :: a ++ b). cbn [scan]. rewrite bool_decide_eq_false_2; [done|].
      intros ?%Hp. done. }
    pose proof (Hs []) as Hs0. rewrite !app_nil_r in Hs0. by apply front_skip.
Qed.

Lemma scan_app_found a b i :
  scan a = Found i →
  scan (a ++ b) = Found i ∧ (i + FRAME_HEADER_SIZE ≤ length a)%nat ∧ headerErrorAt (drop i a) 0 = None.
Proof.
  revert i. induction a as [|x a IH]; intros i Hi; [done|].
  destruct (decide (length (x :: a) < 4)%nat); [by rewrite scan_short in Hi|].
  destruct (scan_front_cases x a) as [Hs|Hl He Hs Hb|Hs Hb]; [lia|..]; rewrite Hs in Hi; [done|..].
  - injection Hi as <-. by rewrite Hb.
  - destruct (scan a) as [j|j|] eqn:E; try done. injection Hi as <-.
    destruct (IH j eq_refl) as (H1 & H2 & H3).
    rewrite Hb, H1. split_and!; [done|simpl; lia|done].
Qed.

Lemma scan_app_partial a b i :
  scan a = Partial i → scan (a ++ b) = shift_scan_by i (scan (drop i a ++ b)) ∧ (i ≤ length a)%nat.
Proof.
  revert i. induction a as [|x a IH]; intros i Hi; [done|].
  destruct (decide (length (x :: a) < 4)%nat); [by rewrite scan_short in Hi|].
  destruct (scan_front_cases x a) as [Hs|Hl He Hs Hb|Hs Hb]; [lia|..]; rewrite Hs in Hi; [|done|].
  - injection Hi as <-. split; [done|lia].
  - destruct (scan a) as [j|j|] eqn:E; try done. injection Hi as <-.
    destruct (IH j eq_refl) as (H1 & H2). rewrite Hb, H1. split; [done|simpl; lia].
Qed.

Lemma scan_app_none a b :
  scan a = NoMarker →
  scan (a ++ b) = shift_scan_by (length a - 3) (scan (drop (length a - 3) a ++ b)).
Proof.
  induction a as [|x a IH]; intros Hi; [done|].
  destruct (decide (length (x :: a) < 4)%nat) as [|Hl].
  { by replace (length (x :: a) - 3)%nat with O by lia. }
  destruct (scan_front_cases x a) as [Hs|Hh He Hs Hb|Hs Hb]; [lia|..]; rewrite Hs in Hi; [done..|].
  rewrite Hb. destruct (scan a) as [j|j|] eqn:E; try done. rewrite (IH eq_refl).
  replace (length (x :: a) - 3)%nat with (S (length a - 3)) by (simpl in *; lia). done.
Qed.

(** What the scan keeps when it finds no header is a marker without a whole header. *)
Lemma scan_partial_short a i :
  scan a = Partial i → (4 ≤ length (drop i a) < FRAME_HEADER_SIZE)%nat.
Proof.
  revert i. induction a as [|x a IH]; intros i Hi; [done|]. cbn [scan] in Hi.
  case_bool_decide as Hp; [case_bool_decide as Hl|].
  - injection Hi as <-. apply prefix_length in Hp. change (length FRAME_MAGIC_BYTES) with 4%nat in Hp.
    rewrite drop_0. lia.
  - destruct (headerErrorAt _ _); [|done]. destruct (scan a) eqn:E; try done. injection Hi as <-. by apply IH.
  - destruct (scan a) eqn:E; try done. injection Hi as <-. by apply IH.
Qed.

Lemma scanned_shift a i r :
  (i ≤ length a)%nat → (i = 0 ∨ 3 ≤ length (drop i a))%nat →
  scanned a (shift_scan_by i r) = scanned (drop i a) r.
Proof.
  intros Hi Hr. assert (shift_scan_by i r = match r with
    | Found j => Found (i + j) | Partial j => Partial (i + j) | NoMarker => NoMarker end) as ->.
  { clear. induction i as [|i IH]; [by destruct r|]. change (shift_scan_by (S i) r) with (shift_scan (shift_scan_by i r)).
    rewrite IH. by destruct r. }
  rewrite length_drop in Hr. destruct r; simpl; rewrite ?drop_drop; try done.
  do 2 f_equal. rewrite length_drop. lia.
Qed.

(** ** The step is an incremental parser *)

Definition frame_measure (s : Alignment) (a : bytes) : nat :=
  4 * length a +
  match s with
  | Pending _ => 3
  | Scanning => 1
  | Aligned => if bool_decide (headerErrorAt a 0 = None) then 0 else 2
  end.

#[export] Instance MalformedFrameReason_eq_dec : EqDecision MalformedFrameReason.
Proof. solve_decision. Defined.

Lemma frame_step_progress s a s' evs r :
  frame_step s a = Emit s' evs r → (frame_measure s' r < frame_measure s a)%nat.
Proof.
  unfold frame_measure. destruct s as [|h|]; cbn [frame_step].
  - case_bool_decide as Hl; [done|]. destruct (headerErrorAt a 0) eqn:He; intros [= <- <- <-].
    + rewrite bool_decide_eq_false_2; [lia|done].
    + rewrite length_drop. unfold FRAME_HEADER_SIZE in *. lia.
  - case_match; [done|]. intros [= <- <- <-]. rewrite length_drop. case_bool_decide; lia.
  - destruct (scan a) as [i|i|] eqn:Hs; [|done..]. intros [= <- <- <-].
    destruct (scan_app_found a [] i Hs) as (_ & ? & He). rewrite bool_decide_eq_true_2 by done.
    rewrite length_drop. lia.
Qed.

Lemma frame_step_total s a e : frame_step s a ≠ Fail e.
Proof. destruct s; cbn [frame_step]; unfold scanned; repeat case_match; done. Qed.

Lemma frame_step_need s a s' r b :
  frame_step s a = Need s' r → frame_step s (a ++ b) = frame_step s' (r ++ b).
Proof.
  destruct s as [|h|]; cbn [frame_step].
  - case_bool_decide; [by intros [= <- <-]|]. by case_match.
  - case_match; [by intros [= <- <-]|done].
  - destruct (scan a) as [i|i|] eqn:Hs; cbn [scanned]; [done|..]; intros [= <- <-]; cbn [frame_step].
    + pose proof (scan_partial_short _ _ Hs). destruct (scan_app_partial a b i Hs) as [-> Hi].
      rewrite scanned_shift, drop_app_le by (rewrite ?length_drop, ?length_app in *; lia). done.
    + rewrite (scan_app_none a b Hs).
      rewrite scanned_shift, drop_app_le by (rewrite ?length_drop, ?length_app in *; lia). done.
Qed.

Lemma payloadSize_nonneg a : 0 ≤ payloadSize (parseFields a 0).
Proof. unfold payloadSize. case_match; apply readUInt32LE_bound. Qed.

Lemma frame_step_emit s a s' evs r b :
  frame_step s a = Emit s' evs r → frame_step s (a ++ b) = Emit s' evs (r ++ b).
Proof.
  destruct s as [|h|]; cbn [frame_step].
  - rewrite length_app. case_bool_decide; [done|]. rewrite bool_decide_eq_false_2 by lia.
    rewrite headerErrorAt_app, parseFields_app by lia.
    destruct (headerErrorAt a 0); intros [= <- <- <-]; [done|]. by rewrite drop_app_le by lia.
  - destruct (Z.ltb_spec (Z.of_nat (length a)) (payloadSize h)); [done|]. intros [= <- <- <-].
    rewrite length_app. destruct (Z.ltb_spec (Z.of_nat (length a + length b)) (payloadSize h)); [lia|].
    by rewrite take_app_le, drop_app_le by lia.
  - destruct (scan a) as [i|i|] eqn:Hs; [|done..]. intros [= <- <- <-].
    destruct (scan_app_found a b i Hs) as (-> & ? & _). simpl. by rewrite drop_app_le by lia.
Qed.

#[export] Instance frame_step_incremental : IncrementalParser frame_step.
Proof.
  refine {| ip_measure := frame_measure |}.
  - apply frame_step_progress.
  - apply frame_step_need.
  - intros. by apply frame_step_emit.
  - intros s a e b H. by apply frame_step_total in H.
Defined.

(** ** The code runs the step *)

Section DecoderSpec.
Context {Q} `{!ByteQueue Q, !ByteQueueLaws Q}.
Implicit Types d : FrameDecoder Q.

Definition decoder_state d : Alignment :=
  if resynchronizing d then Scanning
  else match pendingHeader d with Some h => Pending h | None => Aligned end.
Definition decoder_bytes d : bytes := bq_bytes (buffer d).

(** A payload the decoder waits for is within the cap, and none is pending while
    it scans. *)
Definition payload_ok (h : FrameHeader) : Prop := 0 ≤ payloadSize h ≤ MAX_RECORD_PAYLOAD_BYTES.
Definition decoder_ok d : Prop :=
  bq_ok (buffer d) ∧ (resynchronizing d = true → pendingHeader d = None) ∧
  (∀ h, pendingHeader d = Some h → payload_ok h).

Lemma header_payload_ok a : headerErrorAt a 0 = None → payload_ok (parseFields a 0).
Proof.
  intros He. split; [apply payloadSize_nonneg|]. revert He. unfold headerErrorAt.
  case_match; [done|]. case_match; [done|]. unfold fieldBoundsError, payloadSize.
  destruct (isAudioHeader _).
  - destruct (Z.ltb_spec MAX_AUDIO_PAYLOAD_BYTES (timestampMs (parseFields a 0))); [done|].
    intros _. etrans; [done|]. apply Z.le_max_l.
  - destruct (isEncodedVideoHeader _); [|done].
    destruct (Z.ltb_spec MAX_ENCODED_VIDEO_PAYLOAD_BYTES (bytesPerRow (parseFields a 0))); [done|].
    intros _. etrans; [done|]. apply Z.le_max_r.
Qed.

(** [resynchronize] ends the scan at a valid header, or waits. *)
Lemma resynchronize_spec d :
  decoder_ok d → resynchronizing d = true →
  ∃ aligned d', resynchronize d = Returns (aligned, d') ∧ decoder_ok d' ∧
    pendingHeader d' = None ∧ highWaterMarkBytes d' = highWaterMarkBytes d ∧
    resynchronizing d' = negb aligned ∧
    frame_step Scanning (decoder_bytes d) =
      if aligned then Emit Aligned [] (decoder_bytes d') else Need Scanning (decoder_bytes d').
Proof.
  intros (Hq & Hp & Hc) Hr. unfold resynchronize. rewrite bq_toBuffer_spec by done.
  cbn [mbind outcome_bind]. rewrite resynchronizeLoop_scan by lia. rewrite drop_0.
  cbn [frame_step]. fold (decoder_bytes d).
  assert (∀ b aligned, decoder_ok (if aligned : bool then setResynchronizing (replaceBuffer d b) false else replaceBuffer d b)) as Hok.
  { intros b aligned. split_and!; destruct aligned; simpl; auto using bq_replace_ok. }
  destruct (scan (decoder_bytes d)) as [i|i|]; cbn [scan_index scanned]; rewrite ?Nat.add_0_l.
  - exists true, (setResynchronizing (replaceBuffer d (drop i (decoder_bytes d))) false).
    split_and!; [done|apply (Hok _ true)|by apply Hp|done..|]. unfold decoder_bytes; simpl. by rewrite bq_replace_bytes.
  - exists false, (replaceBuffer d (drop i (decoder_bytes d))).
    split_and!; [done|apply (Hok _ false)|by apply Hp|done..|]. unfold decoder_bytes; simpl. by rewrite bq_replace_bytes.
  - exists false, (replaceBuffer d (drop (length (decoder_bytes d) - 3) (decoder_bytes d))).
    split_and!; [done|apply (Hok _ false)|by apply Hp|done..|]. unfold decoder_bytes; simpl. by rewrite bq_replace_bytes.
Qed.

(** [takeHeader] on an aligned decoder is one step. *)
Lemma takeHeader_spec d :
  decoder_ok d → resynchronizing d = false → pendingHeader d = None →
  ∃ o d' evs, takeHeader d = Returns (o, d', evs) ∧ decoder_ok d' ∧
    pendingHeader d' = None ∧ highWaterMarkBytes d' = highWaterMarkBytes d ∧
    match o with
    | Starved => d' = d ∧ evs = [] ∧ frame_step Aligned (decoder_bytes d) = Need Aligned (decoder_bytes d)
    | Malformed => resynchronizing d' = true ∧
        frame_step Aligned (decoder_bytes d) = Emit Scanning evs (decoder_bytes d')
    | Taken h => resynchronizing d' = false ∧ evs = [] ∧ payload_ok h ∧
        frame_step Aligned (decoder_bytes d) = Emit (Pending h) [] (decoder_bytes d')
    end.
Proof.
  intros Hok Hr Hn. pose proof Hok as (Hq & Hp & Hc). unfold takeHeader. rewrite bq_length_spec by done. cbn [frame_step].
  fold (decoder_bytes d). case_bool_decide as Hl.
  { exists Starved, d, []. by split_and!. }
  rewrite bq_peek_spec by (done || (fold (decoder_bytes d); lia)). cbn [mbind outcome_bind]. fold (decoder_bytes d).
  rewrite headerErrorAt_take, parseFields_take by lia.
  destruct (headerErrorAt (decoder_bytes d) 0) as [reason|] eqn:He.
  { eexists Malformed, (setResynchronizing d true), _. by split_and!. }
  destruct (bq_discard_spec (buffer d) FRAME_HEADER_SIZE) as (q & -> & Hq' & Hb); [done|fold (decoder_bytes d); lia|].
  cbn [mbind outcome_bind]. eexists (Taken _), (setBuffer d q), [].
  split_and!; try done; [by apply header_payload_ok|]. unfold decoder_bytes; simpl. by rewrite Hb.
Qed.

Definition same_water d d' : Prop := highWaterMarkBytes d' = highWaterMarkBytes d.

(** The front of an iteration: it waits, or reports a header and starts to scan,
    or has the header whose payload comes next. *)
Lemma alignAndTakeHeader_spec d :
  decoder_ok d →
  ∃ o d' evs, alignAndTakeHeader d = Returns (o, d', evs) ∧ decoder_ok d' ∧ same_water d d' ∧
    match o with
    | Starved => evs = [] ∧
        drains frame_step (decoder_state d) (decoder_bytes d) [] (Waiting (decoder_state d') (decoder_bytes d'))
    | Malformed => 
        (frame_measure (decoder_state d') (decoder_bytes d') < frame_measure (decoder_state d) (decoder_bytes d))%nat ∧
        steps frame_step (decoder_state d) (decoder_bytes d) evs (decoder_state d') (decoder_bytes d')
    | Taken h => evs = [] ∧ resynchronizing d' = false ∧ payload_ok h ∧
        steps frame_step (decoder_state d) (decoder_bytes d) [] (Pending h) (decoder_bytes d')
    end.
Proof.
  intros Hok. unfold alignAndTakeHeader.
  assert (∀ d, decoder_ok d → resynchronizing d = false → ∃ o d' evs,
    match pendingHeader d with Some h => Returns (Taken h, d, []) | None => takeHeader d end = Returns (o, d', evs) ∧
    decoder_ok d' ∧ same_water d d' ∧
    match o with
    | Starved => d' = d ∧ evs = [] ∧ frame_step (decoder_state d) (decoder_bytes d) = Need (decoder_state d) (decoder_bytes d)
    | Malformed => frame_step (decoder_state d) (decoder_bytes d) = Emit (decoder_state d') evs (decoder_bytes d')
    | Taken h => evs = [] ∧ resynchronizing d' = false ∧ payload_ok h ∧
        steps frame_step (decoder_state d) (decoder_bytes d) [] (Pending h) (decoder_bytes d')
    end) as Hfront.
  { clear d Hok. intros d Hok Hr. unfold decoder_state; rewrite Hr. destruct (pendingHeader d) as [h|] eqn:Hn.
    - eexists (Taken h), d, []. pose proof Hok as (_ & _ & Hc). split_and!; try done; [apply Hc..|constructor]; done.
    - destruct (takeHeader_spec d Hok Hr Hn) as (o & d' & evs & -> & Hok' & Hn' & Hw & Ho).
      exists o, d', evs. split_and!; [done..|]. destruct o as [| |h].
      + by destruct Ho as (-> & -> & ?).
      + destruct Ho as [Hr' ?]. by rewrite Hr'.
      + destruct Ho as (? & -> & ? & ?). split_and!; [done..|]. by apply steps_one. }
  destruct (resynchronizing d) eqn:Hr.
  - destruct (resynchronize_spec d Hok Hr) as (aligned & d1 & -> & Hok1 & Hn1 & Hw1 & Hr1 & Hs1).
    cbn [mbind outcome_bind]. destruct aligned.
    + destruct (Hfront d1 Hok1 Hr1) as (o & d' & evs & -> & Hok' & Hw & Ho).
      assert (decoder_state d1 = Aligned) as Hs by (unfold decoder_state; by rewrite Hr1, Hn1).
      assert (decoder_state d = Scanning) as Hs0 by (unfold decoder_state; by rewrite Hr).
      rewrite Hs0. rewrite Hs in Ho.
      exists o, d', evs. split_and!; [done..|unfold same_water in *; congruence|]. destruct o as [| |h].
      * destruct Ho as (-> & -> & Ho). split; [done|]. rewrite Hs. eapply (drains_emit _ _ _ _ []); [done|by apply drains_need].
      * pose proof (frame_step_progress _ _ _ _ _ Hs1). pose proof (frame_step_progress _ _ _ _ _ Ho).
        split; [lia|]. by eapply (steps_emit _ _ _ []), steps_one.
      * destruct Ho as (-> & ? & ? & ?). split_and!; [done..|]. by eapply (steps_emit _ _ _ []).
    + exists Starved, d1, []. split_and!; [done..|]. apply drains_need.
      unfold decoder_state. by rewrite Hr, Hr1.
  - cbn [mbind outcome_bind].
    destruct (Hfront d Hok Hr) as (o & d' & evs & -> & Hok' & Hw & Ho).
    exists o, d', evs. split_and!; [done..|]. destruct o as [| |h].
    + destruct Ho as (-> & -> & Ho). split; [done|by apply drains_need].
    + split; [by eapply frame_step_progress|by apply steps_one].
    + done.
Qed.

(** The loop of [decodeAvailable] runs until it waits, and never throws. *)
Lemma decodeLoop_spec fuel d mp :
  decoder_ok d → (frame_measure (decoder_state d) (decoder_bytes d) < fuel)%nat →
  ∃ d' evs mp', decodeLoop fuel d mp = (d', evs, Returns mp') ∧ decoder_ok d' ∧ same_water d d' ∧
    drains frame_step (decoder_state d) (decoder_bytes d) evs (Waiting (decoder_state d') (decoder_bytes d')).
Proof.
  revert d mp. induction fuel as [|fuel IH]; intros d mp Hok Hf; [lia|]. cbn [decodeLoop].
  destruct (alignAndTakeHeader_spec d Hok) as (o & d1 & evs & -> & Hok1 & Hw1 & Ho). destruct o as [| |h].
  - destruct Ho as [-> Hd]. by exists d1, [], mp.
  - destruct Ho as [Hm Hs].
    destruct (IH d1 true Hok1) as (d2 & evs2 & mp2 & -> & Hok2 & Hw2 & Hd2); [lia|].
    exists d2, (evs ++ evs2), mp2. split_and!; [done..|unfold same_water in *; congruence|].
    by eapply steps_drains.
  - destruct Ho as (-> & Hr & Hp & Hs). set (d2 := setPending d1 (Some h)).
    assert (decoder_ok d2) as Hok2.
    { destruct Hok1 as (? & ? & ?). split_and!; simpl; [done|congruence|by intros ? [= <-]]. }
    assert (decoder_state d2 = Pending h) as Hs2 by (unfold decoder_state; simpl; by rewrite Hr).
    change (decoder_bytes d1) with (decoder_bytes d2) in Hs.
    rewrite bq_length_spec by apply Hok1. fold (decoder_bytes d2).
    destruct (Z.ltb_spec (Z.of_nat (length (decoder_bytes d2))) (payloadSize h)) as [Hlt|Hle].
    { eexists d2, [], _. split_and!; [done..|]. rewrite <- (app_nil_r []). eapply steps_drains; [done|].
      rewrite Hs2. apply drains_need. cbn [frame_step]. rewrite (proj2 (Z.ltb_lt _ _)); done. }
    destruct (bq_takeDetached_spec (buffer d2) (Z.to_nat (payloadSize h))) as (q & -> & Hq & Hb);
      [apply Hok2|unfold decoder_bytes in *; lia|].
    set (d3 := setPending (setBuffer d2 q) None).
    assert (frame_step (Pending h) (decoder_bytes d2) =
      Emit (decoder_state d3) [emitRecord h (take (Z.to_nat (payloadSize h)) (decoder_bytes d2))] (decoder_bytes d3)) as Hstep.
    { cbn [frame_step]. rewrite (proj2 (Z.ltb_ge _ _)) by done.
      unfold decoder_state, d3, decoder_bytes; simpl. by rewrite Hr, Hb. }
    assert (decoder_ok d3) as Hok3.
    { split_and!; simpl; [done|done|by intros ? [=]]. }
    pose proof (steps_measure _ _ _ _ _ _ Hs) as Hm. pose proof (frame_step_progress _ _ _ _ _ Hstep).
    simpl ip_measure in Hm.
    destruct (IH d3 true Hok3) as (d4 & evs4 & mp4 & -> & Hok4 & Hw4 & Hd4); [lia|].
    eexists d4, _, mp4. split_and!; [done..|by etrans; [exact Hw4|exact Hw1]|].
    eapply (steps_drains _ _ _ [] _ _ (_ :: _)); [done|]. by eapply (drains_emit _ _ _ _ [_]).
Qed.

Lemma decodeAvailable_spec d :
  decoder_ok d →
  ∃ d' evs mp', decodeAvailable d = (d', evs, Returns mp') ∧ decoder_ok d' ∧ same_water d d' ∧
    drains frame_step (decoder_state d) (decoder_bytes d) evs (Waiting (decoder_state d') (decoder_bytes d')).
Proof.
  intros Hok. apply decodeLoop_spec; [done|]. rewrite bq_length_spec by apply Hok.
  unfold frame_measure. fold (decoder_bytes d). destruct (decoder_state d); try case_bool_decide; lia.
Qed.

(** The bytes a decoder may hold. *)
Definition frame_cap : Z := Z.of_nat FRAME_HEADER_SIZE + MAX_RECORD_PAYLOAD_BYTES.

(** Between pushes the decoder waits, below its cap. *)
Definition decoder_live d : Prop :=
  decoder_ok d ∧ settled frame_step (decoder_state d) (decoder_bytes d) ∧
  Z.of_nat (highWaterMarkBytes d) ≤ frame_cap.

Lemma newDecoder_live : decoder_live newDecoder.
Proof.
  split_and!; [split_and!; [apply bq_empty_ok|done|by intros ? [=]]| |done].
  unfold decoder_bytes, decoder_state; simpl. by rewrite bq_empty_bytes.
Qed.

Lemma decoder_live_short d : decoder_live d → Z.of_nat (length (decoder_bytes d)) < frame_cap.
Proof.
  intros ((_ & _ & Hc) & Hs & _). unfold settled in Hs.
  assert (Z.of_nat FRAME_HEADER_SIZE ≤ frame_cap ∧ MAX_RECORD_PAYLOAD_BYTES < frame_cap ∧ Z.of_nat FRAME_HEADER_SIZE = 24) as (? & ? & ?)
    by (unfold frame_cap, MAX_RECORD_PAYLOAD_BYTES, MAX_AUDIO_PAYLOAD_BYTES, MAX_ENCODED_VIDEO_PAYLOAD_BYTES, FRAME_HEADER_SIZE; lia).
  revert Hs. unfold decoder_state. destruct (resynchronizing d); [|destruct (pendingHeader d) as [h|]]; cbn [frame_step].
  - destruct (scan _) as [i|i|] eqn:Hs; cbn [scanned]; [done| |].
    + intros [= Hd]. apply scan_partial_short in Hs. rewrite Hd in Hs. lia.
    + intros [= Hd]. apply (f_equal length) in Hd. rewrite length_drop in Hd. lia.
  - destruct (Z.ltb_spec (Z.of_nat (length (decoder_bytes d))) (payloadSize h)); [|done]. intros _.
    destruct (Hc h eq_refl). lia.
  - case_bool_decide; [|by case_match]. lia.
Qed.

(** The loop of [push] consumes the chunk. *)
Lemma decoder_pushLoop_spec fuel d rest :
  decoder_live d → (length rest ≤ fuel)%nat →
  ∃ d' evs, pushLoop fuel d rest = (d', evs, None) ∧ decoder_live d' ∧
    drains frame_step (decoder_state d) (decoder_bytes d ++ rest) evs (Waiting (decoder_state d') (decoder_bytes d')).
Proof.
  revert d rest. induction fuel as [|fuel IH]; intros d rest Hlive Hf; cbn [pushLoop].
  all: case_bool_decide as Hr;
    [apply nil_length_inv in Hr as ->; exists d, []; rewrite app_nil_r;
     split_and!; [done..|by apply drains_need, Hlive]|].
  { lia. }
  pose proof (decoder_live_short d Hlive) as Hshort. pose proof Hlive as ((Hq & Hp & Hc) & Hs & Hw).
  rewrite bq_length_spec by done. fold (decoder_bytes d). fold frame_cap.
  destruct (Z.eqb_spec (frame_cap - Z.of_nat (length (decoder_bytes d))) 0); [lia|].
  set (count := Z.to_nat _). assert (0 < count ≤ length rest)%nat as Hcount by lia.
  assert (Z.of_nat (length (decoder_bytes d)) + Z.of_nat count ≤ frame_cap) as Hcap by lia.
  set (d1 := mkDecoder _ _ _ _). clearbody count.
  assert (decoder_ok d1) as Hok1 by (split_and!; simpl; [by apply bq_append_ok|done..]).
  assert (decoder_bytes d1 = decoder_bytes d ++ take count rest) as Hb1 by by apply bq_append_bytes.
  destruct (decodeAvailable_spec d1 Hok1) as (d2 & evs & mp & -> & Hok2 & Hw2 & Hd2).
  assert (decoder_live d2) as Hlive2.
  { split_and!; [done|by eapply (drains_settled frame_step)|].
    rewrite Hw2. simpl. rewrite bq_length_spec by apply Hok1. change (bq_bytes _) with (decoder_bytes d1).
    rewrite Hb1, length_app, length_take. lia. }
  destruct (IH d2 (drop count rest) Hlive2) as (d3 & evs3 & -> & Hlive3 & Hd3); [rewrite length_drop; lia|].
  eexists d3, _. split_and!; [done..|].
  rewrite <- (take_drop count rest), app_assoc, <- Hb1. by eapply (drains_app frame_step).
Qed.

Lemma decoder_push_spec d chunk :
  decoder_live d →
  ∃ d' evs, push d chunk = (d', evs, None) ∧ decoder_live d' ∧
    drains frame_step (decoder_state d) (decoder_bytes d ++ chunk) evs (Waiting (decoder_state d') (decoder_bytes d')).
Proof. intros. by apply decoder_pushLoop_spec. Qed.

Lemma decoder_pushAll_spec d cs :
  decoder_live d →
  ∃ d' evs, pushAll d cs = (d', evs, None) ∧ decoder_live d' ∧
    drains frame_step (decoder_state d) (decoder_bytes d ++ concat cs) evs (Waiting (decoder_state d') (decoder_bytes d')).
Proof.
  revert d. induction cs as [|c cs IH]; intros d Hlive; cbn [pushAll concat].
  { exists d, []. rewrite app_nil_r. split_and!; [done..|by apply drains_need, Hlive]. }
  destruct (decoder_push_spec d c Hlive) as (d1 & evs1 & -> & Hlive1 & Hd1).
  destruct (IH d1 Hlive1) as (d2 & evs2 & -> & Hlive2 & Hd2).
  eexists d2, _. split_and!; [done..|]. rewrite app_assoc. by eapply (drains_app frame_step).
Qed.

(** From a new decoder. *)
Lemma pushAll_newDecoder cs :
  ∃ d' evs, pushAll newDecoder cs = (d', evs, None) ∧ decoder_live d' ∧
    drains frame_step Aligned (concat cs) evs (Waiting (decoder_state d') (decoder_bytes d')).
Proof.
  destruct (decoder_pushAll_spec newDecoder cs newDecoder_live) as (d' & evs & E & Hlive & Hd).
  exists d', evs. split_and!; [done..|]. unfold decoder_bytes at 1, decoder_state at 1 in Hd; simpl in Hd.
  by rewrite bq_empty_bytes in Hd.
Qed.
End DecoderSpec.

(** ** A corrupted header is rejected *)

Lemma app_middle_inj {A} (a x y z : list A) : a ++ x ++ z = a ++ y ++ z → x = y.
Proof. intros H. apply app_inv_head in H. by apply app_inv_tail in H. Qed.

(** A 32-bit field whose four bytes contain the changed window reads differently. *)
Lemma readUInt32LE_window buf a x y z n :
  buf = a ++ x ++ z → length x = length y → x ≠ y →
  (n ≤ length a)%nat → (length a + length x ≤ n + 4)%nat → (n + 4 ≤ length buf)%nat →
  readUInt32LE buf n ≠ readUInt32LE (a ++ y ++ z) n.
Proof.
  intros -> Hl Hxy Hna Hnx Hz. unfold readUInt32LE. intros He. rewrite !length_app in Hz.
  apply le_decode_inj in He; [|rewrite !length_subarray; rewrite ?length_app; lia].
  revert He. unfold subarray. replace (n + 4 - n)%nat with 4%nat by lia.
  rewrite !(drop_app_le a) by done. set (a' := drop n a). assert (length a' = length a - n)%nat as Ha' by by apply length_drop.
  rewrite !take_app, (take_ge a'), (take_ge x), (take_ge y) by lia. rewrite <- Hl.
  intros He. by apply app_middle_inj in He.
Qed.

Lemma headerErrorAt_magic buf : readUInt32LE buf 0 ≠ FRAME_MAGIC → headerErrorAt buf 0 = Some header_magic_mismatch.
Proof. intros H. unfold headerErrorAt. by rewrite (proj2 (Z.eqb_neq _ _) H). Qed.

Lemma headerErrorAt_checksum buf :
  readUInt32LE buf 0 = FRAME_MAGIC → readUInt32LE buf 4 ≠ crc32 (subarray buf 8 24) →
  headerErrorAt buf 0 = Some header_checksum_mismatch.
Proof.
  intros H1 H2. unfold headerErrorAt. rewrite H1, Z.eqb_refl. cbv beta iota zeta delta [negb].
  change (subarray buf (0 + _) (0 + _)) with (subarray buf 8 24). change (0 + 4)%nat with 4%nat.
  by rewrite (proj2 (Z.eqb_neq _ _) H2).
Qed.

Lemma headerErrorAt_valid buf :
  headerErrorAt buf 0 = None → readUInt32LE buf 0 = FRAME_MAGIC ∧ readUInt32LE buf 4 = crc32 (subarray buf 8 24).
Proof.
  unfold headerErrorAt. destruct (Z.eqb_spec (readUInt32LE buf 0) FRAME_MAGIC) as [->|]; [|done].
  change (subarray buf (0 + _) (0 + _)) with (subarray buf 8 24). change (0 + 4)%nat with 4%nat.
  by destruct (Z.eqb_spec (readUInt32LE buf 4) (crc32 (subarray buf 8 24))) as [->|].
Qed.

(** Corruption confined to four consecutive bytes of a header never goes
    unnoticed: if [hdr] is accepted and the bytes [x] inside its marker, inside
    its checksum or anywhere in its fields are replaced by others, the result is
    rejected, for its marker in the first case and for its checksum in the others. *)
Theorem header_corruption_detected (hdr a x y z : bytes) :
  length hdr = FRAME_HEADER_SIZE → headerErrorAt hdr 0 = None →
  hdr = a ++ x ++ z → length x = length y → x ≠ y → (length x ≤ 4)%nat →
  ((length a + length x ≤ 4)%nat → headerErrorAt (a ++ y ++ z) 0 = Some header_magic_mismatch) ∧
  ((4 ≤ length a ∧ length a + length x ≤ 8 ∨ 8 ≤ length a)%nat →
    headerErrorAt (a ++ y ++ z) 0 = Some header_checksum_mismatch).
Proof.
  unfold FRAME_HEADER_SIZE. intros Hlen Hok -> Hl Hxy H4. destruct (headerErrorAt_valid _ Hok) as [Hm Hc].
  assert (length (a ++ y ++ z) = 24)%nat as Hlen' by (rewrite !length_app in *; lia).
  assert (∀ n, (n + 4 ≤ length a)%nat → readUInt32LE (a ++ y ++ z) n = readUInt32LE (a ++ x ++ z) n) as Hsame.
  { intros n Hn. unfold readUInt32LE. by rewrite !subarray_app_l by lia. }
  split.
  - intros Ha. apply headerErrorAt_magic. rewrite <- Hm. apply not_eq_sym.
    eapply readUInt32LE_window; [done..|lia|lia|lia].
  - intros Ha. apply headerErrorAt_checksum; [rewrite Hsame by lia; done|]. destruct Ha as [Ha|Ha].
    + assert (subarray (a ++ y ++ z) 8 24 = subarray (a ++ x ++ z) 8 24) as ->.
      { rewrite !app_assoc, !subarray_app_r by (rewrite length_app; lia). by rewrite !length_app, Hl. }
      rewrite <- Hc. apply not_eq_sym. eapply readUInt32LE_window; [done..|lia|lia|lia].
    + rewrite Hsame, Hc by lia.
      assert (∀ w, length w = length x → subarray (a ++ w ++ z) 8 24 = drop 8 a ++ w ++ z) as Hf.
      { intros w Hw. unfold subarray. rewrite drop_app_le by lia.
        apply take_ge. rewrite !length_app in *. rewrite length_drop. lia. }
      rewrite !Hf by done. intros He. apply Hxy. by eapply crc32_burst.
Qed.

(** ** The encoders are read back *)

Definition field_ok (v : Z) : Prop := 0 ≤ v < 2 ^ 32.
Definition fields_ok (h : FrameHeader) : Prop :=
  field_ok (width h) ∧ field_ok (height h) ∧ field_ok (bytesPerRow h) ∧ field_ok (timestampMs h).

Lemma length_encodeFrameHeader h : length (encodeFrameHeader h) = FRAME_HEADER_SIZE.
Proof. unfold encodeFrameHeader. by rewrite !length_app, !length_le_encode. Qed.

Lemma read_le_field pre v rest n :
  length pre = n → field_ok v → readUInt32LE (pre ++ le_encode 4 v ++ rest) n = v.
Proof.
  intros Hn Hv. replace n with (n + 0)%nat by lia. rewrite (readUInt32LE_skip pre) by done. by apply read_le32.
Qed.

Lemma encodeFrameHeader_read h rest :
  fields_ok h →
  parseFields (encodeFrameHeader h ++ rest) 0 = h ∧
  headerErrorAt (encodeFrameHeader h ++ rest) 0 = fieldBoundsError h.
Proof.
  intros (Hw & Hh & Hb & Ht). destruct h as [w ht b t]. unfold encodeFrameHeader.
  cbn [width height bytesPerRow timestampMs] in *. rewrite !to_uint32_small by done.
  set (fields := le_encode 4 w ++ _). set (M := le_encode 4 FRAME_MAGIC). set (C := le_encode 4 (crc32 fields)).
  assert (length M = 4)%nat as HM by apply length_le_encode. assert (length C = 4)%nat as HC by apply length_le_encode.
  assert (length fields = 16)%nat as HF by (unfold fields; by rewrite !length_app, !length_le_encode).
  assert (parseFields ((M ++ C ++ fields) ++ rest) 0 = mkFrameHeader w ht b t) as Hp.
  { unfold parseFields. simpl Nat.add. f_equal.
    - transitivity (readUInt32LE ((M ++ C) ++ le_encode 4 w ++ le_encode 4 ht ++ le_encode 4 b ++ le_encode 4 t ++ rest) 8).
      { unfold fields. by rewrite <- !app_assoc. }
      apply read_le_field; [rewrite length_app; lia|done].
    - transitivity (readUInt32LE ((M ++ C ++ le_encode 4 w) ++ le_encode 4 ht ++ le_encode 4 b ++ le_encode 4 t ++ rest) 12).
      { unfold fields. by rewrite <- !app_assoc. }
      apply read_le_field; [rewrite !length_app, length_le_encode; lia|done].
    - transitivity (readUInt32LE ((M ++ C ++ le_encode 4 w ++ le_encode 4 ht) ++ le_encode 4 b ++ le_encode 4 t ++ rest) 16).
      { unfold fields. by rewrite <- !app_assoc. }
      apply read_le_field; [rewrite !length_app, !length_le_encode; lia|done].
    - transitivity (readUInt32LE ((M ++ C ++ le_encode 4 w ++ le_encode 4 ht ++ le_encode 4 b) ++ le_encode 4 t ++ rest) 20).
      { unfold fields. by rewrite <- !app_assoc. }
      apply read_le_field; [rewrite !length_app, !length_le_encode; lia|done]. }
  split; [done|]. unfold headerErrorAt. rewrite Hp.
  rewrite <- app_assoc, (read_le32 FRAME_MAGIC) by (unfold FRAME_MAGIC; lia). rewrite Z.eqb_refl.
  replace (readUInt32LE _ (0 + 4)) with (crc32 fields).
  2:{ symmetry. rewrite <- app_assoc. apply read_le_field; [done|apply crc32_range]. }
  replace (subarray _ (0 + HEADER_FIELDS_OFFSET) (0 + FRAME_HEADER_SIZE)) with fields; [by rewrite Z.eqb_refl|].
  rewrite app_assoc, (app_assoc M). rewrite <- (app_assoc (M ++ C)).
  rewrite subarray_app_r by (rewrite length_app; unfold HEADER_FIELDS_OFFSET; lia).
  rewrite length_app, HM, HC. change (0 + HEADER_FIELDS_OFFSET - (4 + 4))%nat with O.
  change (0 + FRAME_HEADER_SIZE - (4 + 4))%nat with 16%nat.
  rewrite subarray_app_l by lia. by rewrite subarray_all.
Qed.

(** The records of a stream: what the helper sends and what the decoder reports. *)
Inductive FrameRecord := AudioRecord (pcm16le : bytes) | VideoRecord (keyframe : bool) (ptsMs : Z) (payload : bytes).
Definition record_payload (r : FrameRecord) : bytes :=
  match r with AudioRecord p => p | VideoRecord _ _ p => p end.
Definition record_header (r : FrameRecord) : FrameHeader :=
  match r with
  | AudioRecord p => mkFrameHeader 0 8000 1 (Z.of_nat (length p))
  | VideoRecord k t p =>
      mkFrameHeader 0 (to_uint32 (js_or ENCODED_VIDEO_HEIGHT_BASE (if k then ENCODED_VIDEO_KEYFRAME_BIT else 0)))
        (Z.of_nat (length p)) t
  end.
Definition encode_record (r : FrameRecord) : bytes :=
  match r with
  | AudioRecord p => encodeFrameHeader (record_header r) ++ p
  | VideoRecord k t p => encodeEncodedVideoHeader (Z.of_nat (length p)) k t ++ p
  end.
Definition record_event (r : FrameRecord) : FrameEvent :=
  match r with AudioRecord p => onAudio p | VideoRecord k t p => onEncodedVideo k t p end.
Definition record_ok (r : FrameRecord) : Prop :=
  Z.of_nat (length (record_payload r)) ≤ MAX_RECORD_PAYLOAD_BYTES ∧
  match r with VideoRecord _ t _ => field_ok t | AudioRecord _ => True end.
Definition encode_records (rs : list FrameRecord) : bytes := rs ≫= encode_record.

Lemma record_header_facts r :
  record_ok r →
  fields_ok (record_header r) ∧ fieldBoundsError (record_header r) = None ∧
  payloadSize (record_header r) = Z.of_nat (length (record_payload r)) ∧
  emitRecord (record_header r) (record_payload r) = record_event r.
Proof.
  intros [Hl Ht].
  assert (MAX_RECORD_PAYLOAD_BYTES = 16777216 ∧ MAX_AUDIO_PAYLOAD_BYTES = 16777216 ∧
    MAX_ENCODED_VIDEO_PAYLOAD_BYTES = 16777216) as (E1 & E2 & E3) by done.
  assert (field_ok (Z.of_nat (length (record_payload r)))) as Hf by (unfold field_ok; lia).
  destruct r as [p|[] t p]; cbn [record_payload record_header record_event] in *.
  - split_and!; try done. unfold fieldBoundsError. simpl. rewrite (proj2 (Z.ltb_ge _ _)); [done|lia].
  - split_and!; try done. unfold fieldBoundsError, isEncodedVideoHeader, isAudioHeader.
    cbn [width height bytesPerRow]. rewrite (proj2 (Z.ltb_ge MAX_ENCODED_VIDEO_PAYLOAD_BYTES (Z.of_nat (length p)))); [done|lia].
  - split_and!; try done. unfold fieldBoundsError, isEncodedVideoHeader, isAudioHeader.
    cbn [width height bytesPerRow]. rewrite (proj2 (Z.ltb_ge MAX_ENCODED_VIDEO_PAYLOAD_BYTES (Z.of_nat (length p)))); [done|lia].
Qed.

Lemma encode_record_header r : encode_record r = encodeFrameHeader (record_header r) ++ record_payload r.
Proof. by destruct r. Qed.

Lemma encode_record_valid r rest :
  record_ok r → headerErrorAt (encode_record r ++ rest) 0 = None.
Proof.
  intros Hr. destruct (record_header_facts r Hr) as (Hf & He & _). rewrite encode_record_header, <- app_assoc.
  by destruct (encodeFrameHeader_read (record_header r) (record_payload r ++ rest) Hf) as [_ ->].
Qed.

Lemma encode_record_marker r rest : FRAME_MAGIC_BYTES `prefix_of` encode_record r ++ rest.
Proof. rewrite encode_record_header. unfold encodeFrameHeader. rewrite <- !app_assoc. by eexists. Qed.

Lemma encode_record_long r rest : (FRAME_HEADER_SIZE ≤ length (encode_record r ++ rest))%nat.
Proof. rewrite encode_record_header, !length_app, length_encodeFrameHeader. lia. Qed.

(** An aligned decoder reads a record off the front. *)
Lemma record_steps r rest :
  record_ok r → steps frame_step Aligned (encode_record r ++ rest) [record_event r] Aligned rest.
Proof.
  intros Hr. destruct (record_header_facts r Hr) as (Hf & _ & Hp & He).
  eapply (steps_emit _ _ _ [] (Pending (record_header r)) (record_payload r ++ rest)); [|apply steps_one].
  - cbn [frame_step]. pose proof (encode_record_long r rest). rewrite bool_decide_eq_false_2 by lia.
    rewrite encode_record_valid by done. rewrite encode_record_header, <- app_assoc.
    destruct (encodeFrameHeader_read (record_header r) (record_payload r ++ rest) Hf) as [-> _].
    rewrite drop_app_length'; [done|symmetry; apply length_encodeFrameHeader].
  - cbn [frame_step]. rewrite Hp, length_app, (proj2 (Z.ltb_ge _ _)), Nat2Z.id by lia.
    by rewrite take_app_length, drop_app_length, He.
Qed.

Lemma records_steps rs rest :
  Forall record_ok rs → steps frame_step Aligned (encode_records rs ++ rest) (record_event <$> rs) Aligned rest.
Proof.
  induction 1 as [|r rs Hr _ IH]; [constructor|]. unfold encode_records in *.
  rewrite bind_cons, fmap_cons, <- app_assoc. by eapply (steps_trans _ _ _ [_]); [apply record_steps|].
Qed.

(** Garbage at whose offsets no header validates is skipped to the byte. *)
Lemma scan_garbage g r rest :
  record_ok r → (∀ i, (i < length g)%nat → headerErrorAt (g ++ encode_record r ++ rest) i ≠ None) →
  scan (g ++ encode_record r ++ rest) = Found (length g).
Proof.
  intros Hr. pose proof (encode_record_long r rest) as Hlong.
  induction g as [|x g IH]; intros Hg.
  - rewrite app_nil_l, scan_marker by apply encode_record_marker.
    by rewrite bool_decide_eq_false_2, encode_record_valid by (done || lia).
  - change ((x :: g) ++ encode_record r ++ rest) with (x :: g ++ encode_record r ++ rest) in *.
    pose proof (Hg 0%nat ltac:(simpl; lia)) as H0.
    assert (scan (g ++ encode_record r ++ rest) = Found (length g)) as Hs.
    { apply IH. intros i Hi. rewrite headerErrorAt_drop.
      specialize (Hg (S i) ltac:(simpl; lia)). by rewrite headerErrorAt_drop in Hg. }
    cbn [scan]. rewrite Hs. case_bool_decide; [|done].
    rewrite bool_decide_eq_false_2 by (simpl; rewrite length_app; lia).
    by destruct (headerErrorAt _ 0).
Qed.

Section DecoderTheorems.
Context {Q} `{!ByteQueue Q, !ByteQueueLaws Q}.

(** From a new decoder, the run of the steps is what [push] does. *)
Lemma pushAll_steps cs evs :
  steps frame_step Aligned (concat cs) evs Aligned [] →
  ∃ d : FrameDecoder Q, pushAll newDecoder cs = (d, evs, None) ∧ bufferedBytes (getMetrics d) = 0%nat ∧
    pendingHeader d = None ∧ resynchronizing d = false.
Proof.
  intros Hs. destruct (pushAll_newDecoder (Q := Q) cs) as (d & evs' & E & Hlive & Hd).
  assert (drains frame_step Aligned (concat cs) (evs ++ []) (Waiting Aligned [])) as Hd'
    by (eapply steps_drains; [done|by apply drains_need]).
  rewrite app_nil_r in Hd'. destruct (drains_det _ _ _ _ _ _ _ Hd Hd') as [-> [= Hst Hb]].
  exists d. split_and!; [done|simpl; rewrite bq_length_spec by apply Hlive; by fold (decoder_bytes d); rewrite Hb|..];
    revert Hst; unfold decoder_state; by destruct (resynchronizing d), (pendingHeader d).
Qed.
End DecoderTheorems.

(** Round trip: the audio and video records the helper encodes, concatenated
    and delivered in any chunks to a decoder over any lawful queue, are reported
    one by one, in order and unchanged, without error, and nothing is left. *)
Theorem frame_round_trip {Q} `{ByteQueueLaws Q} (rs : list FrameRecord) (cs : list bytes) :
  Forall record_ok rs → concat cs = encode_records rs →
  ∃ d : FrameDecoder Q, pushAll newDecoder cs = (d, record_event <$> rs, None) ∧
    bufferedBytes (getMetrics d) = 0%nat ∧ pendingHeader d = None ∧ resynchronizing d = false.
Proof.
  intros Hrs Hcs. apply pushAll_steps. rewrite Hcs, <- (app_nil_r (encode_records rs)). by apply records_steps.
Qed.

(** One report per corruption, and nothing valid lost: when garbage at whose
    offsets no header validates interrupts a stream of records, the decoder, in
    whatever chunks it arrives, reports the records before it, the corruption once,
    with the reason and fields read where alignment was lost, and then every record
    after it, and ends aligned with nothing left. *)
Theorem frame_resync_exact {Q} `{ByteQueueLaws Q} (rs1 rs2 : list FrameRecord) (r : FrameRecord)
    (g : bytes) (cs : list bytes) :
  Forall record_ok (rs1 ++ r :: rs2) → g ≠ [] →
  let damaged := g ++ encode_records (r :: rs2) in
  (∀ i, (i < length g)%nat → headerErrorAt damaged i ≠ None) →
  concat cs = encode_records rs1 ++ damaged →
  ∃ (d : FrameDecoder Q) reason, headerErrorAt damaged 0 = Some reason ∧
    pushAll newDecoder cs =
      (d, (record_event <$> rs1) ++ onMalformed reason (parseFields damaged 0) :: (record_event <$> r :: rs2), None) ∧
    bufferedBytes (getMetrics d) = 0%nat ∧ pendingHeader d = None ∧ resynchronizing d = false.
Proof.
  intros Hrs Hne damaged Hg Hcs. apply Forall_app in Hrs as [Hrs1 Hrs2].
  assert (damaged = g ++ encode_record r ++ encode_records rs2) as Hd
    by (unfold damaged, encode_records; by rewrite bind_cons).
  pose proof (Forall_inv Hrs2) as Hr. pose proof (encode_record_long r (encode_records rs2)) as Hlong.
  destruct g as [|x g0]; [done|]. set (g := x :: g0) in *.
  destruct (headerErrorAt damaged 0) as [reason|] eqn:He; [|exfalso; apply (Hg 0%nat); [simpl; lia|done]].
  enough (steps frame_step Aligned (concat cs)
    ((record_event <$> rs1) ++ onMalformed reason (parseFields damaged 0) :: (record_event <$> r :: rs2)) Aligned []) as Hs.
  { destruct (pushAll_steps (Q := Q) cs _ Hs) as (d & ? & ?). by exists d, reason. }
  rewrite Hcs. eapply steps_trans; [by apply records_steps|].
  eapply (steps_emit _ _ _ [_] Scanning damaged).
  { cbn [frame_step]. rewrite bool_decide_eq_false_2 by (rewrite Hd, length_app; lia). by rewrite He. }
  eapply (steps_emit _ _ _ [] Aligned (encode_records (r :: rs2))).
  { cbn [frame_step]. rewrite Hd, scan_garbage by (done || by rewrite <- Hd). cbn [scanned].
    rewrite drop_app_length. unfold encode_records. by rewrite bind_cons. }
  rewrite <- (app_nil_r (encode_records _)). by apply records_steps.
Qed.


(** The decoder does not depend on how the stream is cut into chunks, nor on
    the queue that stores them: the callbacks made and the state reached, the
    bytes still queued included, are the same. *)
Theorem frame_decoder_chunk_independent {Q1 Q2} `{ByteQueueLaws Q1, ByteQueueLaws Q2} (cs1 cs2 : list bytes) :
  concat cs1 = concat cs2 →
  ∃ (d1 : FrameDecoder Q1) (d2 : FrameDecoder Q2) evs,
    pushAll newDecoder cs1 = (d1, evs, None) ∧ pushAll newDecoder cs2 = (d2, evs, None) ∧
    bq_bytes (buffer d1) = bq_bytes (buffer d2) ∧ decoder_state d1 = decoder_state d2.
Proof.
  intros Hcs. destruct (pushAll_newDecoder (Q := Q1) cs1) as (d1 & evs1 & E1 & _ & D1).
  destruct (pushAll_newDecoder (Q := Q2) cs2) as (d2 & evs2 & E2 & _ & D2).
  rewrite Hcs in D1. destruct (drains_det _ _ _ _ _ _ _ D1 D2) as [-> [= ? ?]].
  by exists d1, d2, evs2.
Qed.

(** ** Witnesses *)

Definition demo_records : list FrameRecord :=
  [VideoRecord true 77 (to_byte <$> [1; 2; 3]); AudioRecord (to_byte <$> [9; 9]); VideoRecord false 78 []].
Definition demo_garbage : bytes := to_byte <$> [0x41; 0x4d; 0x46; 0x31; 0x00; 0xff].

Lemma frame_round_trip_witness :
  ∃ d : FrameDecoder BufferQueue,
    pushAll newDecoder ((λ b, [b]) <$> encode_records demo_records) = (d, record_event <$> demo_records, None) ∧
    bufferedBytes (getMetrics d) = 0%nat ∧ pendingHeader d = None ∧ resynchronizing d = false.
Proof.
  apply (frame_round_trip demo_records).
  - repeat constructor; vm_compute; congruence.
  - by vm_compute.
Defined.

Lemma frame_resync_exact_witness :
  ∃ (d : FrameDecoder BufferQueue) reason,
    headerErrorAt (demo_garbage ++ encode_records demo_records) 0 = Some reason ∧
    pushAll newDecoder [encode_records demo_records ++ demo_garbage; encode_records demo_records] =
      (d, (record_event <$> demo_records) ++
          onMalformed reason (parseFields (demo_garbage ++ encode_records demo_records) 0) ::
          (record_event <$> demo_records), None) ∧
    bufferedBytes (getMetrics d) = 0%nat ∧ pendingHeader d = None ∧ resynchronizing d = false.
Proof.
  apply (frame_resync_exact demo_records (tail demo_records) (VideoRecord true 77 (to_byte <$> [1; 2; 3])) demo_garbage).
  - repeat constructor; vm_compute; congruence.
  - done.
  - intros i Hi. do 6 (destruct i as [|i]; [by vm_compute|]). simpl in Hi. lia.
  - by vm_compute.
Defined.

Lemma frame_decoder_chunk_independent_witness :
  ∃ (d1 d2 : FrameDecoder BufferQueue) evs,
    pushAll newDecoder [encode_records demo_records] = (d1, evs, None) ∧
    pushAll newDecoder ((λ b, [b]) <$> encode_records demo_records) = (d2, evs, None) ∧
    bq_bytes (buffer d1) = bq_bytes (buffer d2) ∧ decoder_state d1 = decoder_state d2.
Proof. apply frame_decoder_chunk_independent. by vm_compute. Defined.

Lemma header_corruption_detected_witness :
  let hdr := encodeEncodedVideoHeader 3 true 77 in
  headerErrorAt (take 20 hdr ++ (to_byte <$> [1; 2]) ++ drop 22 hdr) 0 = Some header_checksum_mismatch.
Proof.
  apply (header_corruption_detected (encodeEncodedVideoHeader 3 true 77) (take 20 (encodeEncodedVideoHeader 3 true 77))
    (subarray (encodeEncodedVideoHeader 3 true 77) 20 22)); [by vm_compute..| | |].
  - vm_compute. congruence.
  - vm_compute. lia.
  - right. vm_compute. lia.
Defined.
