(* ===== verification/JsMap.v ===== *)
(** * JavaScript maps and sets

    A [Map] is an association list in insertion order, with at most one entry
    per key: [set] of a present key keeps its place, [set] of a new one appends.
    A [Set] is a list without duplicates in insertion order. *)
From S2P Require Import Prelude.
From stdpp Require Import sets.

Abbreviation JsMap K V := (list (K * V)).

Section JsMap.
Context {K : Type} `{EqDecision K}.

Definition jget {V} (k : K) (m : JsMap K V) : option V := snd <$> (snd <$> list_find (λ e, e.1 = k) m).
Definition jhas {V} (k : K) (m : JsMap K V) : bool := bool_decide (k ∈ m.*1).
Definition jset {V} (k : K) (v : V) (m : JsMap K V) : JsMap K V :=
  if jhas k m then (λ e, if decide (e.1 = k) then (k, v) else e) <$> m else m ++ [(k, v)].
Definition jdel {V} (k : K) (m : JsMap K V) : JsMap K V := filter (λ e, e.1 ≠ k) m.
Definition jkeys {V} (m : JsMap K V) : list K := m.*1.

(** The invariant of a [Map]: keys are unique. *)
Definition jwf {V} (m : JsMap K V) : Prop := NoDup (jkeys m).

(** [set.add], [set.delete], [set.has] and [new Set(list)]. *)
Definition sadd (x : K) (s : list K) : list K := if bool_decide (x ∈ s) then s else s ++ [x].
Definition sdel (x : K) (s : list K) : list K := filter (λ y, y ≠ x) s.
Definition shas (x : K) (s : list K) : bool := bool_decide (x ∈ s).
Definition newSet (l : list K) : list K := foldl (λ s x, sadd x s) [] l.
End JsMap.
#[global] Arguments jget : simpl never.
#[global] Arguments jhas : simpl never.
#[global] Arguments jset : simpl never.
#[global] Arguments jdel : simpl never.
#[global] Arguments sadd : simpl never.
#[global] Arguments sdel : simpl never.
#[global] Arguments shas : simpl never.

Section JsMapLaws.
Context {K : Type} `{EqDecision K}.
Implicit Types (k x y : K) (s : list K).

Lemma jget_nil {V} k : jget k ([] : JsMap K V) = None.
Proof. done. Qed.

Lemma jget_cons {V} k k' (v : V) m : jget k ((k', v) :: m) = if decide (k' = k) then Some v else jget k m.
Proof.
  unfold jget. simpl. case_decide; [done|]. by destruct (list_find _ m) as [[]|].
Qed.

Lemma jhas_true {V} k (m : JsMap K V) : jhas k m = true ↔ k ∈ jkeys m.
Proof. unfold jhas. by rewrite bool_decide_eq_true. Qed.
Lemma jhas_false {V} k (m : JsMap K V) : jhas k m = false ↔ k ∉ jkeys m.
Proof. unfold jhas. by rewrite bool_decide_eq_false. Qed.

(** [has] is [get] being defined. *)
Lemma jhas_get {V} k (m : JsMap K V) : jhas k m = bool_decide (is_Some (jget k m)).
Proof.
  unfold jhas. apply bool_decide_ext. induction m as [|[k' v] m IH].
  - rewrite jget_nil. split; [by intros ?%elem_of_nil|by intros [??]].
  - rewrite jget_cons. simpl. rewrite elem_of_cons, IH. case_decide as Hd; [by subst; split; [eauto|left]|].
    split; [by intros [->|]|by right].
Qed.

Lemma jget_in {V} k v (m : JsMap K V) : jget k m = Some v → (k, v) ∈ m.
Proof.
  induction m as [|[k' v'] m IH]; [done|]. rewrite jget_cons, elem_of_cons. case_decide; naive_solver.
Qed.
Lemma jget_in_keys {V} k v (m : JsMap K V) : jget k m = Some v → k ∈ jkeys m.
Proof. intros H. apply jget_in in H. unfold jkeys. apply list_elem_of_fmap. by exists (k, v). Qed.
Lemma jget_wf_in {V} k v (m : JsMap K V) : jwf m → (k, v) ∈ m → jget k m = Some v.
Proof.
  unfold jwf, jkeys. induction m as [|[k' v'] m IH]; simpl; [by intros _ ?%elem_of_nil|].
  rewrite NoDup_cons, elem_of_cons, jget_cons. intros [Hk Hn] [[= -> ->]|Hin]; [by rewrite decide_True|].
  rewrite decide_False; [by apply IH|]. intros ->. apply Hk. apply list_elem_of_fmap. by exists (k, v).
Qed.

Lemma jget_app {V} k (m1 m2 : JsMap K V) :
  jget k (m1 ++ m2) = match jget k m1 with Some v => Some v | None => jget k m2 end.
Proof. induction m1 as [|[k' v] m1 IH]; [done|]. simpl. rewrite !jget_cons, IH. by case_decide. Qed.

Lemma jget_set {V} k k' (v : V) m : jget k' (jset k v m) = if decide (k = k') then Some v else jget k' m.
Proof.
  unfold jset. destruct (jhas k m) eqn:Hk.
  - apply jhas_true in Hk. unfold jkeys in Hk. clear -Hk.
    induction m as [|[k1 v1] m IH]; [by apply elem_of_nil in Hk|].
    rewrite fmap_cons, elem_of_cons in Hk. rewrite fmap_cons. cbn [fst].
    destruct (decide (k1 = k)) as [->|Hne].
    + rewrite !jget_cons. case_decide as Hd; [done|]. clear -Hd.
      induction m as [|[k2 v2] m IH]; [done|]. rewrite fmap_cons. cbn [fst].
      destruct (decide (k2 = k)) as [->|]; rewrite !jget_cons, IH; by repeat case_decide.
    + destruct Hk as [->|Hk]; [done|]. rewrite !jget_cons, (IH Hk). repeat case_decide; by subst.
  - apply jhas_false in Hk. rewrite jget_app, jget_cons.
    destruct (jget k' m) eqn:E.
    + case_decide as Hd; [|done]. subst. by apply jget_in_keys in E.
    + by case_decide.
Qed.

Lemma jget_del {V} k k' (m : JsMap K V) : jget k' (jdel k m) = if decide (k = k') then None else jget k' m.
Proof.
  unfold jdel. induction m as [|[k1 v1] m IH]; [by case_decide|].
  rewrite (jget_cons k'), filter_cons. cbn [fst]. destruct (decide (k1 ≠ k)) as [Hd|Hd].
  - rewrite jget_cons, IH. repeat case_decide; by subst.
  - apply dec_stable in Hd as ->. rewrite IH. by repeat case_decide.
Qed.

Lemma jkeys_set {V} k (v : V) m : jkeys (jset k v m) = if jhas k m then jkeys m else jkeys m ++ [k].
Proof.
  unfold jkeys, jset. destruct (jhas k m); [|by rewrite fmap_app].
  rewrite <- list_fmap_compose. apply list_fmap_ext. intros i [k1 v1] _. simpl. by case_decide.
Qed.
Lemma jset_wf {V} k (v : V) m : jwf m → jwf (jset k v m).
Proof.
  unfold jwf. rewrite jkeys_set. destruct (jhas k m) eqn:E; [done|]. apply jhas_false in E.
  intros. apply NoDup_app. split_and!; [done|by intros y Hy ->%list_elem_of_singleton|apply NoDup_singleton].
Qed.
Lemma jkeys_del {V} k (m : JsMap K V) : jkeys (jdel k m) = sdel k (jkeys m).
Proof.
  unfold jkeys, jdel, sdel. induction m as [|[k1 v1] m IH]; [done|].
  rewrite fmap_cons. cbn [fst]. destruct (decide (k1 = k)) as [->|].
  - by rewrite !filter_cons_False by (simpl; by intros []).
  - rewrite !filter_cons_True by done. rewrite fmap_cons. cbn [fst]. by f_equal.
Qed.
Lemma jdel_wf {V} k (m : JsMap K V) : jwf m → jwf (jdel k m).
Proof. unfold jwf. rewrite jkeys_del. apply NoDup_filter. Qed.

Lemma elem_of_sadd x y s : y ∈ sadd x s ↔ y = x ∨ y ∈ s.
Proof.
  unfold sadd. case_bool_decide; [split; [by right|by intros [->|]]|].
  rewrite elem_of_app, list_elem_of_singleton. tauto.
Qed.
Lemma sadd_NoDup x s : NoDup s → NoDup (sadd x s).
Proof. unfold sadd. case_bool_decide; [done|]. intros. apply NoDup_app. split_and!; [done|by intros y Hy ->%list_elem_of_singleton|apply NoDup_singleton]. Qed.
Lemma elem_of_sdel x y s : y ∈ sdel x s ↔ y ≠ x ∧ y ∈ s.
Proof. unfold sdel. by rewrite list_elem_of_filter. Qed.

(** [new Set(list)] has the elements of the list, once each. *)
Lemma elem_of_newSet x (l : list K) : x ∈ newSet l ↔ x ∈ l.
Proof.
  unfold newSet. assert (∀ s : list K, x ∈ foldl (λ s y, sadd y s) s l ↔ x ∈ s ∨ x ∈ l) as ->; [|set_solver].
  induction l as [|y l IH]; intros s; simpl; [set_solver|]. rewrite IH, elem_of_sadd. set_solver.
Qed.
Lemma newSet_NoDup (l : list K) : NoDup (newSet l).
Proof.
  unfold newSet. assert (∀ s : list K, NoDup s → NoDup (foldl (λ s y, sadd y s) s l)) as H; [|apply H, NoDup_nil_2].
  induction l as [|y l IH]; intros s Hs; simpl; [done|]. by apply IH, sadd_NoDup.
Qed.
End JsMapLaws.

(** Reads of an updated map. *)
Ltac jmap_simpl := rewrite ?jget_set, ?jget_del, ?jget_nil in *.

#[export] Hint Resolve jset_wf jdel_wf sadd_NoDup newSet_NoDup : automobile.

(** Maps with their values mapped. *)
Lemma jget_fmap {K V V'} `{EqDecision K} (f : V → V') (k : K) (m : JsMap K V) :
  jget k ((λ e, (e.1, f e.2)) <$> m) = f <$> jget k m.
Proof.
  induction m as [|[k' v] m IH]; [done|]. rewrite fmap_cons. cbn [fst snd]. rewrite !jget_cons, IH.
  by case_decide.
Qed.
Lemma jkeys_fmap {K V V'} (f : V → V') (m : JsMap K V) : jkeys ((λ e, (e.1, f e.2)) <$> m) = jkeys m.
Proof. unfold jkeys. by rewrite <- list_fmap_compose. Qed.
Lemma jhas_fmap {K V V'} `{EqDecision K} (f : V → V') (k : K) (m : JsMap K V) :
  jhas k ((λ e, (e.1, f e.2)) <$> m) = jhas k m.
Proof. rewrite !jhas_get, jget_fmap. apply bool_decide_ext. by rewrite fmap_is_Some. Qed.
Lemma jhas_set_ne {K V} `{EqDecision K} (k k' : K) (v : V) m : k' ≠ k → jhas k' (jset k v m) = jhas k' m.
Proof. intros. by rewrite !jhas_get, jget_set, decide_False. Qed.
Lemma jhas_del_ne {K V} `{EqDecision K} (k k' : K) (m : JsMap K V) : k' ≠ k → jhas k' (jdel k m) = jhas k' m.
Proof. intros. by rewrite !jhas_get, jget_del, decide_False. Qed.

(** Deleting the one entry of a key; entries kept by a filter. *)
Lemma jdel_notin {K V} `{EqDecision K} (k : K) (m : JsMap K V) : k ∉ jkeys m → jdel k m = m.
Proof.
  unfold jkeys, jdel. induction m as [|[k1 v1] m IH]; [done|]. rewrite fmap_cons, not_elem_of_cons. cbn [fst].
  intros [Hk Hm]. rewrite filter_cons_True by (simpl; congruence). f_equal. by apply IH.
Qed.
Lemma jdel_middle {K V} `{EqDecision K} (k : K) (v : V) (a b : JsMap K V) :
  jwf (a ++ (k, v) :: b) → jdel k (a ++ (k, v) :: b) = a ++ b.
Proof.
  unfold jwf. unfold jkeys. rewrite fmap_app, fmap_cons. cbn [fst]. rewrite NoDup_app, NoDup_cons. intros (_ & Hd & Hk & _).
  unfold jdel. rewrite filter_app, filter_cons_False by (simpl; tauto).
  f_equal; [|by apply jdel_notin]. apply jdel_notin. intros Hin. by apply (Hd k Hin); left.
Qed.
Lemma jwf_app_remove {K V} (a b : JsMap K V) e : jwf (a ++ e :: b) → jwf (a ++ b).
Proof.
  unfold jwf, jkeys. rewrite !fmap_app, fmap_cons, !NoDup_app, NoDup_cons. intros (? & Hd & ? & ?).
  split_and!; [done| |done]. intros x Hx Hb. by apply (Hd x Hx); right.
Qed.
Lemma jwf_fmap {K V V'} (f : V → V') (m : JsMap K V) : jwf m → jwf ((λ e, (e.1, f e.2)) <$> m).
Proof. unfold jwf. by rewrite jkeys_fmap. Qed.
Lemma jwf_filter {K V} (P : K * V → Prop) `{∀ e, Decision (P e)} (m : JsMap K V) : jwf m → jwf (filter P m).
Proof.
  unfold jwf, jkeys. induction m as [|[k v] m IH]; [done|]. rewrite fmap_cons, NoDup_cons, filter_cons. cbn [fst].
  intros [Hk Hm]. case_decide; [|by apply IH]. rewrite fmap_cons. apply NoDup_cons. split; [|by apply IH].
  intros (e & He & [_ Hin]%list_elem_of_filter)%list_elem_of_fmap. apply Hk. apply list_elem_of_fmap. by exists e.
Qed.
Lemma in_jset {K V} `{EqDecision K} (k k' : K) (v v' : V) m :
  jwf m → (k', v') ∈ jset k v m → (k' = k ∧ v' = v) ∨ (k' ≠ k ∧ (k', v') ∈ m).
Proof.
  intros Hm Hin. apply (jget_wf_in _ _ _ (jset_wf k v m Hm)) in Hin. rewrite jget_set in Hin.
  case_decide; [left; naive_solver|right]. split; [congruence|]. by apply jget_in.
Qed.
Lemma length_jset {K V} `{EqDecision K} (k : K) (v : V) m :
  length (jset k v m) = if jhas k m then length m else S (length m).
Proof. unfold jset. destruct (jhas k m); [by rewrite length_fmap|]. rewrite length_app. simpl. lia. Qed.
Lemma in_jdel {K V} `{EqDecision K} (k k' : K) (v : V) (m : JsMap K V) :
  (k', v) ∈ jdel k m ↔ k' ≠ k ∧ (k', v) ∈ m.
Proof. unfold jdel. by rewrite list_elem_of_filter. Qed.
Lemma length_jdel {K V} `{EqDecision K} (k : K) (m : JsMap K V) : length (jdel k m) ≤ length m.
Proof. unfold jdel. apply length_filter. Qed.
