(* ===== verification/ReleaseEpochLedger.v ===== *)
(** * The proxy's release-epoch ledger

    [src/src/daemon/proxy/ReleaseEpochLedger.ts]: which session UUIDs the daemon
    released, and at which release epoch, so that an in-flight call can tell
    whether the session it forwarded was released while it ran.  [Ledger] is the
    class's state, one definition per method, [ledger_step] one call of a
    method. *)
From stdpp Require Import gmap.
From S2P Require Import Prelude JsString.
Local Open Scope Z_scope.

Record Ledger := mkLedger {
  epochCounter : Z;
  releasedSessionEpochs : gmap string Z;
  releasedSessionReasons : gmap string string;
  activeReleaseEpochReferences : gmap string Z;
  activeAcquisitionReleaseEpochs : gmap Z Z;
}.

Definition emptyLedger : Ledger := mkLedger 0 ∅ ∅ ∅ ∅.

(** [for (const acquisitionEpoch of this.activeAcquisitionReleaseEpochs.keys())]. *)
Definition isReleaseNeededByActiveAcquisition (l : Ledger) (releasedAtEpoch : Z) : bool :=
  existsb (λ acquisitionEpoch, acquisitionEpoch <? releasedAtEpoch)
    (map_to_list (activeAcquisitionReleaseEpochs l)).*1.

Definition recordSessionReleased (l : Ledger) (sessionUuid : string) (reason : option string) : Ledger :=
  let normalizedSessionUuid := js_trim sessionUuid in
  if bool_decide (String.length normalizedSessionUuid = 0%nat) then l else
  let epoch := epochCounter l + 1 in
  if bool_decide (activeReleaseEpochReferences l !! normalizedSessionUuid = None) &&
     bool_decide (size (activeAcquisitionReleaseEpochs l) = 0%nat)
  then mkLedger epoch (releasedSessionEpochs l) (releasedSessionReasons l)
         (activeReleaseEpochReferences l) (activeAcquisitionReleaseEpochs l)
  else mkLedger epoch
         (<[normalizedSessionUuid := epoch]> (releasedSessionEpochs l))
         (<[normalizedSessionUuid := default "released"%string reason]> (releasedSessionReasons l))
         (activeReleaseEpochReferences l) (activeAcquisitionReleaseEpochs l).

Definition retainReleaseEpochReference (l : Ledger) (sessionUuid : option string) : Ledger :=
  match sessionUuid with
  | Some u =>
      if truthy u then
        mkLedger (epochCounter l) (releasedSessionEpochs l) (releasedSessionReasons l)
          (<[u := default 0 (activeReleaseEpochReferences l !! u) + 1]>
             (activeReleaseEpochReferences l))
          (activeAcquisitionReleaseEpochs l)
      else l
  | None => l
  end.

Definition releaseReleaseEpochReference (l : Ledger) (sessionUuid : option string) : Ledger :=
  match sessionUuid with
  | Some u =>
      if truthy u then
        let references := default 0 (activeReleaseEpochReferences l !! u) - 1 in
        if 0 <? references then
          mkLedger (epochCounter l) (releasedSessionEpochs l) (releasedSessionReasons l)
            (<[u := references]> (activeReleaseEpochReferences l))
            (activeAcquisitionReleaseEpochs l)
        else
          let drop := match releasedSessionEpochs l !! u with
                      | None => true
                      | Some releasedAtEpoch =>
                          negb (isReleaseNeededByActiveAcquisition l releasedAtEpoch)
                      end in
          mkLedger (epochCounter l)
            (if drop then delete u (releasedSessionEpochs l) else releasedSessionEpochs l)
            (if drop then delete u (releasedSessionReasons l) else releasedSessionReasons l)
            (delete u (activeReleaseEpochReferences l))
            (activeAcquisitionReleaseEpochs l)
      else l
  | None => l
  end.

Definition retainAcquisitionReleaseEpoch (l : Ledger) (isSessionAcquisition : bool) (epoch : Z) : Ledger :=
  if isSessionAcquisition then
    mkLedger (epochCounter l) (releasedSessionEpochs l) (releasedSessionReasons l)
      (activeReleaseEpochReferences l)
      (<[epoch := default 0 (activeAcquisitionReleaseEpochs l !! epoch) + 1]>
         (activeAcquisitionReleaseEpochs l))
  else l.

(** The closing loop of [releaseAcquisitionReleaseEpoch]: the entries it deletes. *)
Definition evictable (l : Ledger) (entry : string * Z) : Prop :=
  activeReleaseEpochReferences l !! entry.1 = None ∧
  isReleaseNeededByActiveAcquisition l entry.2 = false.
#[export] Instance evictable_dec l entry : Decision (evictable l entry) := ltac:(unfold evictable; apply _).

Definition evictUnreferenced (l : Ledger) : Ledger :=
  let gone := filter (evictable l) (releasedSessionEpochs l) in
  mkLedger (epochCounter l)
    (filter (λ kv, gone !! kv.1 = None) (releasedSessionEpochs l))
    (filter (λ kv, gone !! kv.1 = None) (releasedSessionReasons l))
    (activeReleaseEpochReferences l) (activeAcquisitionReleaseEpochs l).

Definition releaseAcquisitionReleaseEpoch (l : Ledger) (isSessionAcquisition : bool) (epoch : Z) : Ledger :=
  if isSessionAcquisition then
    let references := default 0 (activeAcquisitionReleaseEpochs l !! epoch) - 1 in
    evictUnreferenced
      (mkLedger (epochCounter l) (releasedSessionEpochs l) (releasedSessionReasons l)
         (activeReleaseEpochReferences l)
         (if 0 <? references
          then <[epoch := references]> (activeAcquisitionReleaseEpochs l)
          else delete epoch (activeAcquisitionReleaseEpochs l)))
  else l.

Definition sessionReleaseReasonSince (l : Ledger) (sessionUuid : string) (forwardEpoch : Z) : option string :=
  if default 0 (releasedSessionEpochs l !! sessionUuid) <=? forwardEpoch then None
  else Some (default "released"%string (releasedSessionReasons l !! sessionUuid)).

Definition clearReleaseRecords (l : Ledger) : Ledger :=
  mkLedger (epochCounter l) ∅ ∅ ∅ (activeAcquisitionReleaseEpochs l).

(** ** Calls of the class *)

Inductive LedgerOp :=
| OpRecord (sessionUuid : string) (reason : option string)
| OpRetain (sessionUuid : option string)
| OpRelease (sessionUuid : option string)
| OpRetainAcquisition (isSessionAcquisition : bool) (epoch : Z)
| OpReleaseAcquisition (isSessionAcquisition : bool) (epoch : Z)
| OpClear.

Definition apply_op (l : Ledger) (op : LedgerOp) : Ledger :=
  match op with
  | OpRecord u r => recordSessionReleased l u r
  | OpRetain u => retainReleaseEpochReference l u
  | OpRelease u => releaseReleaseEpochReference l u
  | OpRetainAcquisition b e => retainAcquisitionReleaseEpoch l b e
  | OpReleaseAcquisition b e => releaseAcquisitionReleaseEpoch l b e
  | OpClear => clearReleaseRecords l
  end.

(** A caller passes to [retainAcquisitionReleaseEpoch] an epoch it captured
    from the [epoch] getter, so never a future one. *)
Definition op_ok (l : Ledger) (op : LedgerOp) : Prop :=
  match op with OpRetainAcquisition _ e => e ≤ epochCounter l | _ => True end.

Inductive ledger_step : Ledger → Ledger → Prop :=
| ledger_call l op : op_ok l op → ledger_step l (apply_op l op).

Definition ledger_reachable (l : Ledger) : Prop := rtc ledger_step emptyLedger l.

(** ** The invariant *)

Record ledger_inv (l : Ledger) : Prop := {
  inv_same_keys : ∀ u, is_Some (releasedSessionEpochs l !! u) ↔ is_Some (releasedSessionReasons l !! u);
  inv_needed : ∀ u e, releasedSessionEpochs l !! u = Some e →
    e ≤ epochCounter l ∧
    (is_Some (activeReleaseEpochReferences l !! u) ∨ isReleaseNeededByActiveAcquisition l e = true);
  inv_acquisitions : ∀ a n, activeAcquisitionReleaseEpochs l !! a = Some n → a ≤ epochCounter l;
}.

Lemma needed_true l e :
  isReleaseNeededByActiveAcquisition l e = true ↔
  ∃ a n, activeAcquisitionReleaseEpochs l !! a = Some n ∧ a < e.
Proof.
  unfold isReleaseNeededByActiveAcquisition. rewrite existsb_exists. split.
  - intros (a & Hin & ?%Z.ltb_lt). apply list_elem_of_In, list_elem_of_fmap in Hin.
    destruct Hin as ([a' n] & -> & Hin%elem_of_map_to_list). eauto.
  - intros (a & n & Ha & ?). exists a. split; [|by apply Z.ltb_lt].
    apply list_elem_of_In, list_elem_of_fmap. exists (a, n).
    split; [done|by apply elem_of_map_to_list].
Qed.

Lemma empty_inv : ledger_inv emptyLedger.
Proof. by split; intros; simplify_map_eq. Qed.

Lemma record_inv l u r : ledger_inv l → ledger_inv (recordSessionReleased l u r).
Proof.
  intros [Hk Hn Ha]. unfold recordSessionReleased.
  case_bool_decide; [by split|]. case_bool_decide as Href; [case_bool_decide as Hacq|].
  - simpl. split; simpl; [done| |].
    + intros v e Hv. destruct (Hn v e Hv) as [? ?]. split; [lia|done].
    + intros a n Hx. specialize (Ha a n Hx). lia.
  - simpl. split; simpl.
    + intros v. rewrite !lookup_insert_is_Some, Hk. done.
    + intros v e. rewrite lookup_insert. case_decide; intros; simplify_eq.
      * split; [lia|]. right. apply needed_true. simpl.
        apply map_size_non_empty_iff in Hacq. apply map_choose in Hacq as (a & n & Hx).
        exists a, n. specialize (Ha a n Hx). split; [done|lia].
      * destruct (Hn v e) as [? ?]; [done|]. split; [lia|done].
    + intros a n Hx. specialize (Ha a n Hx). lia.
  - simpl. split; simpl.
    + intros v. rewrite !lookup_insert_is_Some, Hk. done.
    + intros v e. rewrite lookup_insert. case_decide; intros; simplify_eq.
      * split; [lia|]. left. by apply not_eq_None_Some.
      * destruct (Hn v e) as [? ?]; [done|]. split; [lia|done].
    + intros a n Hx. specialize (Ha a n Hx). lia.
Qed.

(** Changing only the reference counts, without dropping a referenced key,
    keeps the invariant. *)
Lemma refs_inv l refs :
  ledger_inv l →
  (∀ u, is_Some (activeReleaseEpochReferences l !! u) → is_Some (refs !! u)) →
  ledger_inv (mkLedger (epochCounter l) (releasedSessionEpochs l) (releasedSessionReasons l)
                refs (activeAcquisitionReleaseEpochs l)).
Proof.
  intros [Hk Hn Ha] Hrefs. split; simpl; [done| |done].
  intros u e Hu. destruct (Hn u e Hu) as [? [?|?]]; eauto.
Qed.

Lemma retain_inv l u : ledger_inv l → ledger_inv (retainReleaseEpochReference l u).
Proof.
  intros Hl. destruct u as [u|]; simpl; [|done]. case_match; [|done].
  apply refs_inv; [done|]. intros v ?. rewrite lookup_insert_is_Some'. eauto.
Qed.

Lemma release_inv l u : ledger_inv l → ledger_inv (releaseReleaseEpochReference l u).
Proof.
  intros Hl. destruct u as [u|]; simpl; [|done]. case_match; [|done].
  case_match.
  { apply refs_inv; [done|]. intros v ?. rewrite lookup_insert_is_Some'. eauto. }
  destruct Hl as [Hk Hn Ha].
  set (keep := match releasedSessionEpochs l !! u with None => _ | Some e => _ end).
  destruct keep eqn:Hkeep; split; simpl; try done.
  - intros v. rewrite !lookup_delete_is_Some, Hk. done.
  - intros v e. rewrite lookup_delete_Some. intros [? Hv].
    destruct (Hn v e Hv) as [? [?|?]]; (split; [done|]); [left|by right].
    by rewrite lookup_delete_ne.
  - intros v e Hv. destruct (Hn v e Hv) as [? Hd]. split; [done|].
    destruct (decide (u = v)) as [<-|]; [right|].
    + unfold keep in Hkeep. rewrite Hv in Hkeep. by apply negb_false_iff in Hkeep.
    + rewrite lookup_delete_ne by done. done.
Qed.

Lemma retain_acquisition_inv l b e :
  ledger_inv l → e ≤ epochCounter l → ledger_inv (retainAcquisitionReleaseEpoch l b e).
Proof.
  intros [Hk Hn Ha] He. destruct b; simpl; [|by split]. split; simpl; [done| |].
  - intros u e' Hu. destruct (Hn u e' Hu) as [? [?|Hneed]]; [by eauto|].
    split; [done|]. right. apply needed_true in Hneed as (a & n & Hx & ?).
    apply needed_true. simpl. destruct (decide (e = a)) as [->|].
    + eexists a, _. rewrite lookup_insert_eq. eauto.
    + exists a, n. by rewrite lookup_insert_ne.
  - intros a n. rewrite lookup_insert. case_decide; intros; simplify_eq; [done|by eapply Ha].
Qed.

(** The eviction loop re-establishes the invariant from the two facts that
    deleting an acquisition does not disturb. *)
Lemma evict_inv l :
  (∀ u, is_Some (releasedSessionEpochs l !! u) ↔ is_Some (releasedSessionReasons l !! u)) →
  (∀ u e, releasedSessionEpochs l !! u = Some e → e ≤ epochCounter l) →
  (∀ a n, activeAcquisitionReleaseEpochs l !! a = Some n → a ≤ epochCounter l) →
  ledger_inv (evictUnreferenced l).
Proof.
  intros Hk Hn Ha. split; simpl; [| |done].
  - intros u. unfold is_Some. setoid_rewrite map_lookup_filter_Some. simpl.
    split; intros (x & Hx & ?).
    + destruct (proj1 (Hk u)) as [y Hy]; eauto.
    + destruct (proj2 (Hk u)) as [y Hy]; eauto.
  - intros u e. rewrite map_lookup_filter_Some. simpl. intros [Hu Hkeep].
    split; [by eapply Hn|].
    apply map_lookup_filter_None in Hkeep as [?|Hkeep]; [congruence|].
    specialize (Hkeep e Hu). unfold evictable in Hkeep; simpl in Hkeep.
    destruct (activeReleaseEpochReferences l !! u); [by left; eauto|right].
    apply not_false_is_true. intros Hf. by apply Hkeep.
Qed.

Lemma release_acquisition_inv l b e :
  ledger_inv l → ledger_inv (releaseAcquisitionReleaseEpoch l b e).
Proof.
  intros [Hk Hn Ha]. unfold releaseAcquisitionReleaseEpoch. destruct b; [|by split].
  apply evict_inv; simpl; [done|intros u e' Hu; by destruct (Hn u e' Hu)|].
  intros a n. case_match.
  - rewrite lookup_insert. case_decide; intros; simplify_eq; [|by eapply Ha].
    destruct (activeAcquisitionReleaseEpochs l !! a) as [m|] eqn:Hm; [by eapply Ha|].
    simpl in *. lia.
  - rewrite lookup_delete_Some. intros [_ ?]. by eapply Ha.
Qed.

Lemma clear_inv l : ledger_inv l → ledger_inv (clearReleaseRecords l).
Proof.
  intros [Hk Hn Ha]. split; simpl; [| |done].
  - intros u. by rewrite !lookup_empty.
  - intros u e. by rewrite lookup_empty.
Qed.

#[export] Hint Resolve record_inv retain_inv release_inv retain_acquisition_inv
  release_acquisition_inv clear_inv : automobile.

Lemma step_inv l l' : ledger_step l l' → ledger_inv l → ledger_inv l'.
Proof. intros [l0 op Hok] ?. destruct op; simpl in *; auto with automobile. Qed.

Lemma reachable_inv l : ledger_reachable l → ledger_inv l.
Proof.
  unfold ledger_reachable. apply rtc_ind_r; [apply empty_inv|eauto using step_inv].
Qed.

(** ** Releases observed by a call that holds a reference *)

Definition run_ops (l : Ledger) (ops : list LedgerOp) : Ledger := foldl apply_op l ops.

(** The reference to [u] is present in [l] and after every call of [ops]. *)
Fixpoint reference_held (u : string) (l : Ledger) (ops : list LedgerOp) : Prop :=
  is_Some (activeReleaseEpochReferences l !! u) ∧
  match ops with
  | [] => True
  | op :: ops' => op_ok l op ∧ reference_held u (apply_op l op) ops'
  end.

(** The reason of the last release of [u] among [ops], starting from [acc]. *)
Definition release_of (u : string) (acc : option string) (op : LedgerOp) : option string :=
  match op with
  | OpRecord v r => if bool_decide (js_trim v = u) then Some (default "released"%string r) else acc
  | _ => acc
  end.
Definition last_release (u : string) (ops : list LedgerOp) : option string :=
  foldl (release_of u) None ops.

(** A referenced key survives every deletion. *)
Lemma since_keep l l' u e :
  releasedSessionEpochs l' !! u = releasedSessionEpochs l !! u →
  releasedSessionReasons l' !! u = releasedSessionReasons l !! u →
  sessionReleaseReasonSince l' u e = sessionReleaseReasonSince l u e.
Proof. unfold sessionReleaseReasonSince. by intros -> ->. Qed.

Lemma evict_keeps_referenced l u :
  is_Some (activeReleaseEpochReferences l !! u) →
  releasedSessionEpochs (evictUnreferenced l) !! u = releasedSessionEpochs l !! u ∧
  releasedSessionReasons (evictUnreferenced l) !! u = releasedSessionReasons l !! u.
Proof.
  intros [n Hn]. simpl.
  assert (filter (evictable l) (releasedSessionEpochs l) !! u = None) as Hg.
  { apply map_lookup_filter_None. right. intros e _ [Hu _]. simpl in Hu. congruence. }
  rewrite !map_lookup_filter. simpl.
  split; [destruct (releasedSessionEpochs l !! u)|destruct (releasedSessionReasons l !! u)];
    simpl; try done; by case_guard.
Qed.

Lemma record_since l v r u e0 :
  u ≠ EmptyString → e0 ≤ epochCounter l →
  is_Some (activeReleaseEpochReferences l !! u) →
  sessionReleaseReasonSince (recordSessionReleased l v r) u e0 =
  release_of u (sessionReleaseReasonSince l u e0) (OpRecord v r).
Proof.
  intros Hu He [n Hn]. simpl. unfold recordSessionReleased.
  case_bool_decide as Hempty.
  { rewrite bool_decide_eq_false_2; [done|]. intros <-. by destruct (js_trim v). }
  destruct (decide (js_trim v = u)) as [Htrim|Htrim].
  - rewrite (bool_decide_eq_true_2 (js_trim v = u)) by done.
    rewrite bool_decide_eq_false_2 by congruence. simpl. rewrite Htrim.
    unfold sessionReleaseReasonSince. simpl. rewrite !lookup_insert_eq. simpl.
    by rewrite (proj2 (Z.leb_gt _ _)) by lia.
  - rewrite (bool_decide_eq_false_2 (js_trim v = u)) by done.
    case_match; [done|]. apply since_keep; simpl; by rewrite lookup_insert_ne.
Qed.

Lemma apply_op_since l op u e0 :
  u ≠ EmptyString → e0 ≤ epochCounter l →
  is_Some (activeReleaseEpochReferences l !! u) →
  is_Some (activeReleaseEpochReferences (apply_op l op) !! u) →
  sessionReleaseReasonSince (apply_op l op) u e0 =
  release_of u (sessionReleaseReasonSince l u e0) op.
Proof.
  intros Hu He Href Href'. destruct op as [v r|[v|]|[v|]|b e|b e|]; try done.
  - by apply record_since.
  - simpl. by case_match.
  - simpl in *. case_match; [|done]. case_match; [done|].
    simpl in Href'. apply lookup_delete_is_Some in Href' as [? _].
    apply since_keep; simpl; case_match; by rewrite ?lookup_delete_ne.
  - by destruct b.
  - destruct b; [|done]. simpl apply_op.
    unfold releaseAcquisitionReleaseEpoch.
    match goal with |- context [evictUnreferenced ?l'] =>
      destruct (evict_keeps_referenced l' u Href) as [H1 H2] end.
    by rewrite <- (since_keep l _ u e0 H1 H2).
  - simpl in Href'. rewrite lookup_empty in Href'. by destruct Href'.
Qed.

Lemma apply_op_epoch l op : epochCounter l ≤ epochCounter (apply_op l op).
Proof.
  destruct op as [v r|[v|]|[v|]|[]|[]|]; simpl; try done; repeat case_match; simpl; try lia.
  unfold recordSessionReleased. repeat case_match; simpl; lia.
Qed.

Lemma reference_held_head u l ops :
  reference_held u l ops → is_Some (activeReleaseEpochReferences l !! u).
Proof. destruct ops; simpl; tauto. Qed.

Lemma run_ops_since u l ops e0 :
  u ≠ EmptyString → e0 ≤ epochCounter l → reference_held u l ops →
  sessionReleaseReasonSince (run_ops l ops) u e0 =
  foldl (release_of u) (sessionReleaseReasonSince l u e0) ops.
Proof.
  intros Hu. revert l. induction ops as [|op ops IH]; intros l He Hheld; simpl; [done|].
  destruct Hheld as (Href & _ & Hrest).
  rewrite IH; [|pose proof (apply_op_epoch l op); lia|done].
  by rewrite apply_op_since by eauto using reference_held_head.
Qed.

(** Nothing is recorded under the empty UUID, so no reference to it exists. *)
Lemma reference_nonempty l : ledger_reachable l →
  activeReleaseEpochReferences l !! EmptyString = None.
Proof.
  unfold ledger_reachable. apply (rtc_ind_r (λ l, activeReleaseEpochReferences l !! EmptyString = None)); [done|].
  intros y z _ [l0 op _] IH. destruct op as [v r|[v|]|[v|]|[]|[]|]; simpl; try done.
  - unfold recordSessionReleased. repeat case_match; done.
  - unfold truthy. case_bool_decide; simpl; [done|]. by rewrite lookup_insert_ne.
  - unfold truthy. case_bool_decide; simpl; [done|]. case_match; simpl.
    + by rewrite lookup_insert_ne.
    + by rewrite lookup_delete_ne.
Qed.

Lemma reachable_epoch l : ledger_reachable l → 0 ≤ epochCounter l.
Proof.
  unfold ledger_reachable. apply (rtc_ind_r (λ l, 0 ≤ epochCounter l)); [done|].
  intros y z _ [l0 op _] ?. pose proof (apply_op_epoch l0 op). lia.
Qed.

(** ** Theorems *)

(** C4. The ledger is bounded by the calls in flight: in every reachable state a
    released UUID is tracked only while some call holds a reference to it or an
    acquisition that began before the release is still running; both maps have the same
    keys; and once nothing is in flight they are empty. *)
Theorem ledger_bounded_by_in_flight (l : Ledger) :
  ledger_reachable l →
  (∀ u e, releasedSessionEpochs l !! u = Some e →
     is_Some (activeReleaseEpochReferences l !! u) ∨
     isReleaseNeededByActiveAcquisition l e = true) ∧
  dom (releasedSessionEpochs l) = dom (releasedSessionReasons l) ∧
  (activeReleaseEpochReferences l = ∅ → activeAcquisitionReleaseEpochs l = ∅ →
     releasedSessionEpochs l = ∅ ∧ releasedSessionReasons l = ∅).
Proof.
  intros Hl%reachable_inv. destruct Hl as [Hk Hn Ha]. split_and!.
  - intros u e Hu. by destruct (Hn u e Hu).
  - apply set_eq. intros u. by rewrite !elem_of_dom.
  - intros Hr Hq.
    assert (releasedSessionEpochs l = ∅) as He.
    { apply map_empty. intros u. destruct (_ !! u) as [e|] eqn:Hu; [|done].
      destruct (Hn u e Hu) as [_ [[? Hx]|Hneed]].
      - by rewrite Hr, lookup_empty in Hx.
      - apply needed_true in Hneed as (a & n & Hx & _). by rewrite Hq, lookup_empty in Hx. }
    split; [done|]. apply map_empty. intros u. apply eq_None_not_Some. rewrite <- Hk, He.
    by intros [? ?].
Qed.

(** C5. A call that forwarded a session at epoch [e] and keeps its reference until it asks is told
    exactly what happened meanwhile: [sessionReleaseReasonSince] answers the reason of the last
    release of that session recorded while the call ran, and nothing when there was none,
    whatever other calls, releases and evictions interleave. *)
Theorem release_seen_by_reference_holder (l : Ledger) (u : string) (ops : list LedgerOp) :
  ledger_reachable l → reference_held u l ops →
  sessionReleaseReasonSince (run_ops l ops) u (epochCounter l) = last_release u ops.
Proof.
  intros Hl Hheld.
  assert (u ≠ EmptyString) as Hu.
  { intros ->. apply reference_held_head in Hheld as [? Hx]. by rewrite reference_nonempty in Hx. }
  rewrite run_ops_since by (done || lia). unfold last_release. f_equal.
  unfold sessionReleaseReasonSince.
  assert (default 0 (releasedSessionEpochs l !! u) ≤ epochCounter l) as Hle.
  { destruct (releasedSessionEpochs l !! u) as [e|] eqn:He; simpl.
    - by destruct (inv_needed _ (reachable_inv _ Hl) u e He).
    - by apply reachable_epoch. }
  by rewrite (proj2 (Z.leb_le _ _)).
Qed.

(** ** Witnesses *)

Lemma reachable_run ops :
  (fix ok l ops := match ops with [] => True | op :: r => op_ok l op ∧ ok (apply_op l op) r end)
    emptyLedger ops →
  ledger_reachable (run_ops emptyLedger ops).
Proof.
  unfold ledger_reachable. generalize emptyLedger at 1 2 3. induction ops as [|op ops IH]; intros l.
  - intros _. apply rtc_refl.
  - intros [Hok Hr]. eapply rtc_l; [by apply (ledger_call l op)|]. by apply IH.
Qed.

Lemma ledger_bounded_by_in_flight_witness :
  let l := run_ops emptyLedger
             [OpRetain (Some "s1"); OpRecord " s1 " None; OpRetainAcquisition true 1;
              OpRecord "s2" (Some "idle"); OpRelease (Some "s1"); OpReleaseAcquisition true 1]%string in
  releasedSessionEpochs l = ∅ ∧ releasedSessionReasons l = ∅.
Proof.
  intros l. refine (proj2 (proj2 (ledger_bounded_by_in_flight l _)) _ _).
  - apply reachable_run. vm_compute. repeat split; intros [=].
  - by vm_compute.
  - by vm_compute.
Defined.

Lemma release_seen_by_reference_holder_witness :
  let l := run_ops emptyLedger [OpRecord "s1" None; OpRetain (Some "s1")]%string in
  sessionReleaseReasonSince
    (run_ops l [OpRecord "s2" None; OpRetain (Some "s1"); OpRecord "s1 " (Some "idle");
                OpReleaseAcquisition true 0]%string) "s1" 1 = Some "idle"%string.
Proof.
  intros l. refine (release_seen_by_reference_holder l "s1" _ _ _).
  - apply reachable_run. vm_compute. repeat split.
  - vm_compute. repeat (split; eauto).
Defined.
