(* ===== verification/SessionSlots.v ===== *)
(** * Session slots: phases, derivation and transitions

    [src/src/daemon/sessionSlots.ts] (the tables and the pure reads),
    [src/src/daemon/SlotTransitionGuard.ts] and the predicates of
    [src/src/daemon/sessionSlotShadowProbe.ts] and
    [src/src/daemon/sessionManager/queries.ts].  The phase of a session UUID is
    not stored: it is derived from the maps the session manager keeps. *)
From stdpp Require Import strings sets relations functions.
From S2P Require Import Prelude JsMap.

(** ** Tags and transitions *)

(** [SlotTag] and [SlotPhase] (a tag, or ["absent"]). *)
Inductive SlotPhase :=
| assigning | creating | live | rebinding | releasing | ended | fenced | absent.
Inductive SlotFence := none | terminal.

#[export] Instance SlotPhase_eq_dec : EqDecision SlotPhase.
Proof. solve_decision. Defined.
#[export] Instance SlotFence_eq_dec : EqDecision SlotFence.
Proof. solve_decision. Defined.

Definition SLOT_TAGS : list SlotPhase := [assigning; creating; live; rebinding; releasing; ended; fenced].

Definition LEGAL_SLOT_TRANSITIONS : JsMap SlotPhase (list SlotPhase) :=
  [(absent, [assigning; creating; fenced]);
   (assigning, [creating; absent]);
   (creating, [absent; live; releasing]);
   (live, [rebinding; releasing]);
   (rebinding, [live; releasing]);
   (releasing, [ended; fenced; live]);
   (ended, [creating; absent]);
   (fenced, [creating])].

Record SlotPosition := mkPosition { tag : SlotPhase; fence : option SlotFence }.
#[export] Instance SlotPosition_eq_dec : EqDecision SlotPosition.
Proof. solve_decision. Defined.

(** The reasons [checkSlotTransition] gives, without the direction they repeat. *)
Inductive Refusal := FenceOutsideReleasing | SameTag | NotLegal.
#[export] Instance Refusal_eq_dec : EqDecision Refusal.
Proof. solve_decision. Defined.

Definition checkSlotTransition (from to : SlotPosition) : outcome Refusal () :=
  if (bool_decide (fence from ≠ None) && bool_decide (tag from ≠ releasing)) ||
     (bool_decide (fence to ≠ None) && bool_decide (tag to ≠ releasing))
  then Throws FenceOutsideReleasing
  else if bool_decide (tag from = tag to) then
    if bool_decide (tag from = releasing) && bool_decide (fence from = Some none) &&
       bool_decide (fence to = Some terminal)
    then Returns ()
    else Throws SameTag
  else if negb (match jget (tag from) LEGAL_SLOT_TRANSITIONS with
                | Some targets => shas (tag to) targets
                | None => false end)
  then Throws NotLegal
  else Returns ().

(** [assertSlotTransition]: the error carries both positions and the reason. *)
Record SlotTransitionError := mkTransitionError {
  error_from : SlotPosition; error_to : SlotPosition; error_reason : Refusal }.

Definition assertSlotTransition (from to : SlotPosition) : outcome SlotTransitionError () :=
  match checkSlotTransition from to with
  | Returns u => Returns u
  | Throws reason => Throws (mkTransitionError from to reason)
  end.

(** The lifecycle hooks that name an observation. *)
Inductive HookEvent :=
| creation_start | creation_end | assignment_start | assignment_end | published
| rebind_start | rebind_end | release_start | release_end | unpublished
| plan_label_fence_lifted | recovered_terminal_intent_deleted | other_event.
#[export] Instance HookEvent_eq_dec : EqDecision HookEvent.
Proof. solve_decision. Defined.

Record CoarsePath := mkCoarse {
  path_event : HookEvent; path_from : SlotPhase; path_via : SlotPhase; path_to : SlotPhase }.

Definition COARSE_SLOT_PATHS : list CoarsePath :=
  [mkCoarse published absent creating live;
   mkCoarse assignment_end assigning absent fenced;
   mkCoarse creation_end creating absent fenced;
   mkCoarse unpublished releasing ended creating].

(** Keyed ["event:from:to"] in the source. *)
Definition REPORTED_SLOT_TRANSITIONS : list (HookEvent * SlotPhase * SlotPhase) :=
  [(assignment_start, ended, assigning);
   (assignment_end, assigning, ended);
   (creation_end, creating, assigning);
   (creation_end, creating, ended);
   (unpublished, releasing, assigning);
   (release_end, ended, fenced);
   (release_end, ended, live)].

(** ** The transition guard *)

Record SlotTransitionGuard := mkGuard {
  illegalTransitionCount : nat;
  positions : JsMap string SlotPosition;
  baselineAfterReset : bool;
}.
Definition newGuard : SlotTransitionGuard := mkGuard 0 [] false.

Definition reset (g : SlotTransitionGuard) : SlotTransitionGuard :=
  mkGuard (illegalTransitionCount g) [] true.
Definition forget (g : SlotTransitionGuard) (uuid : string) : SlotTransitionGuard :=
  mkGuard (illegalTransitionCount g) (jdel uuid (positions g)) (baselineAfterReset g).

Inductive GuardMode := throw_mode | log_mode.

(** What a check reports: nothing, a debug line, a warning, or a thrown error. *)
Inductive Verdict := Quiet | DebugLine | WarnLine | Thrown (e : SlotTransitionError).

Definition position_from (g : SlotTransitionGuard) (uuid : string) (to : SlotPosition) : SlotPosition :=
  match jget uuid (positions g) with
  | Some p => p
  | None => if baselineAfterReset g then to else mkPosition absent None
  end.

Definition is_known (event : HookEvent) (from to : SlotPosition) : bool :=
  bool_decide ((event, tag from, tag to) ∈ REPORTED_SLOT_TRANSITIONS) ||
  existsb (λ path,
    bool_decide (path_event path = event) && bool_decide (path_from path = tag from) &&
    bool_decide (path_to path = tag to) &&
    is_returns (checkSlotTransition from (mkPosition (path_via path) None)) &&
    is_returns (checkSlotTransition (mkPosition (path_via path) None) to)) COARSE_SLOT_PATHS.

Definition check (g : SlotTransitionGuard) (uuid : string) (event : HookEvent) (to : SlotPosition)
    (mode : GuardMode) : Verdict * SlotTransitionGuard :=
  let from := position_from g uuid to in
  let positions' :=
    if bool_decide (tag to = absent) then jdel uuid (positions g)
    else jset uuid to (positions g) in
  let g' := mkGuard (illegalTransitionCount g) positions' (baselineAfterReset g) in
  if bool_decide (tag from = tag to) && bool_decide (fence from = fence to) then (Quiet, g')
  else
    match checkSlotTransition from to with
    | Returns _ => (Quiet, g')
    | Throws reason =>
        let known := is_known event from to in
        let g' := mkGuard (S (illegalTransitionCount g)) positions' (baselineAfterReset g) in
        if known then (DebugLine, g')
        else match mode with
             | throw_mode => (Thrown (mkTransitionError from to reason), g')
             | log_mode => (WarnLine, g')
             end
    end.

(** ** Derivation from the lifecycle maps *)

(** A session is an object; equality is its identity.  [sessionId] is its field. *)
Class SessionType (S : Type) := { session_eq :: EqDecision S; sessionId : S → string }.

Record ReleaseOp (S : Type) := mkReleaseOp { op_session : S; op_forced : bool; op_commitDeclined : bool }.
Arguments mkReleaseOp {S} _ _ _.
Arguments op_session {S} _.
Arguments op_forced {S} _.
Arguments op_commitDeclined {S} _.

(** The maps the derivation reads.  The values of the maps typed
    [ReadonlyMap<string, unknown>] are never read, so only a unit is kept; an
    identity is what its [deref()] returns. *)
Record LegacyLifecycleView (S : Type) := mkView {
  sessions : JsMap string S;
  isReleasing : S → bool;
  pendingAssignments : JsMap string ();
  pendingCreations : JsMap string ();
  pendingReleases : JsMap string ();
  pendingRebinds : JsMap string ();
  releaseOps : JsMap string (ReleaseOp S);
  terminalSnapshots : JsMap string ();
  recoveredTerminalIntents : JsMap string ();
  latestFinalizedIdentities : JsMap string (option S);
}.
Arguments mkView {S} _ _ _ _ _ _ _ _ _ _.
Arguments sessions {S} _.
Arguments isReleasing {S} _ _.
Arguments pendingAssignments {S} _.
Arguments pendingCreations {S} _.
Arguments pendingReleases {S} _.
Arguments pendingRebinds {S} _.
Arguments releaseOps {S} _.
Arguments terminalSnapshots {S} _.
Arguments recoveredTerminalIntents {S} _.
Arguments latestFinalizedIdentities {S} _.

Record DerivedSlot := mkSlot {
  slot_tag : SlotPhase; slot_fence : option SlotFence; releaseRequested : bool; residue : bool }.
#[export] Instance DerivedSlot_eq_dec : EqDecision DerivedSlot.
Proof. solve_decision. Defined.

Definition slot_position (s : DerivedSlot) : SlotPosition := mkPosition (slot_tag s) (slot_fence s).

Definition isSlotTagBeingRecreated (t : SlotPhase) : bool :=
  bool_decide (t = assigning) || bool_decide (t = creating) || bool_decide (t = live) ||
  bool_decide (t = rebinding) || bool_decide (t = releasing).
Definition isSlotTagKnown (t : SlotPhase) : bool :=
  bool_decide (t ≠ absent) && bool_decide (t ≠ ended) && bool_decide (t ≠ fenced).
Definition isSlotKnown (slot : DerivedSlot) : bool := isSlotTagKnown (slot_tag slot) || residue slot.

(** The slots [deriveAllSlots] lists. *)
Definition slot_listed (slot : DerivedSlot) : bool := bool_decide (slot_tag slot ≠ absent) || residue slot.

Section Derivation.
Context {S : Type} `{!SessionType S}.
Implicit Types view : LegacyLifecycleView S.

Definition derivePublishedSlotTag view (uuid : string) (session : S) : SlotPhase :=
  let op := jget uuid (releaseOps view) in
  if jhas uuid (terminalSnapshots view) || isReleasing view session ||
     match op with
     | Some op => bool_decide (op_session op = session) && negb (op_forced op) && negb (op_commitDeclined op)
     | None => false
     end
  then releasing
  else if jhas uuid (pendingRebinds view) then rebinding else live.

Definition deriveSlotTag view (uuid : string) : SlotPhase :=
  match jget uuid (sessions view) with
  | Some session => derivePublishedSlotTag view uuid session
  | None =>
      if jhas uuid (pendingCreations view) then creating
      else if jhas uuid (pendingAssignments view) then assigning
      else if jhas uuid (terminalSnapshots view) || jhas uuid (recoveredTerminalIntents view) then fenced
      else if jhas uuid (releaseOps view) ||
              bool_decide (is_Some (mjoin (jget uuid (latestFinalizedIdentities view)))) then ended
      else absent
  end.

Definition deriveSlot view (uuid : string) : DerivedSlot :=
  let tag := deriveSlotTag view uuid in
  mkSlot tag
    (if bool_decide (tag = releasing)
     then Some (if jhas uuid (terminalSnapshots view) then terminal else none) else None)
    ((bool_decide (tag = creating) || bool_decide (tag = assigning)) && jhas uuid (pendingReleases view))
    (negb (isSlotTagBeingRecreated tag) &&
     (jhas uuid (pendingReleases view) || jhas uuid (pendingRebinds view) || jhas uuid (releaseOps view))).

Definition deriveAllSlots view : JsMap string DerivedSlot :=
  let uuids := newSet
    (jkeys (sessions view) ++ jkeys (pendingAssignments view) ++ jkeys (pendingCreations view) ++
     jkeys (pendingReleases view) ++ jkeys (pendingRebinds view) ++ jkeys (releaseOps view) ++
     jkeys (terminalSnapshots view) ++ jkeys (recoveredTerminalIntents view) ++
     jkeys (latestFinalizedIdentities view)) in
  foldl (λ slots uuid,
    let slot := deriveSlot view uuid in
    if slot_listed slot then jset uuid slot slots else slots) [] uuids.

Definition deriveLatestSessionIdentity view (uuid : string) (ignorePendingAssignment : bool) : option S :=
  match jget uuid (sessions view) with
  | Some session => Some session
  | None =>
      if jhas uuid (pendingCreations view) ||
         (negb ignorePendingAssignment && jhas uuid (pendingAssignments view)) then None
      else match op_session <$> jget uuid (releaseOps view) with
           | Some s => Some s
           | None => mjoin (jget uuid (latestFinalizedIdentities view))
           end
  end.

Definition isSlotCurrentSession view (uuid : string) (session : S) : bool :=
  if bool_decide (jget uuid (sessions view) ≠ Some session) then false
  else
    let tag := deriveSlotTag view uuid in
    bool_decide (tag = live) || bool_decide (tag = rebinding) ||
    (bool_decide (tag = releasing) && negb (jhas uuid (terminalSnapshots view))).

Definition deriveHeldSlotSession view (uuid : string) : option S :=
  match jget uuid (sessions view) with
  | Some s => Some s
  | None => op_session <$> jget uuid (releaseOps view)
  end.

Definition deriveKnownSessionIds view : list string :=
  filter (λ uuid, isSlotKnown (deriveSlot view uuid) = true)
    (newSet (jkeys (sessions view) ++ jkeys (pendingCreations view) ++ jkeys (pendingAssignments view) ++
             jkeys (pendingRebinds view) ++ jkeys (pendingReleases view) ++ jkeys (releaseOps view))).

(** The predicates of [SessionQueries] on the view. *)
Definition isCurrentSession view (session : S) : bool :=
  isSlotCurrentSession view (sessionId session) session.
Definition isAdmittedForAutomation view (session : S) : bool :=
  isCurrentSession view session && negb (isReleasing view session).
Definition isLatestSessionIdentity view (session : S) (ignorePendingAssignment : bool) : bool :=
  bool_decide (deriveLatestSessionIdentity view (sessionId session) ignorePendingAssignment = Some session).
Definition getAllKnownSessionIds view : list string := deriveKnownSessionIds view.
Definition getHeldDeviceSessions view (deviceSessionMap : JsMap string string) : list (string * string * S) :=
  omap (λ '(deviceId, sid), (λ s, (deviceId, sid, s)) <$> deriveHeldSlotSession view sid) deviceSessionMap.

(** The probe's reading of a slot (the [derived] record of [compare]). *)
Record ProbeReading := mkReading { current : bool; admitted : bool; recreated : bool; known : bool }.
Definition probeDerived view (uuid : string) : ProbeReading :=
  let slot := deriveSlot view uuid in
  let session := jget uuid (sessions view) in
  let cur := bool_decide (is_Some session) &&
    (bool_decide (slot_tag slot = live) || bool_decide (slot_tag slot = rebinding) ||
     (bool_decide (slot_tag slot = releasing) && bool_decide (slot_fence slot = Some none))) in
  mkReading cur
    (cur && match session with Some s => negb (isReleasing view s) | None => true end)
    (isSlotTagBeingRecreated (slot_tag slot)) (isSlotKnown slot).
End Derivation.

(** ** Facts about the tables *)

(** The legal relation, as the table states it. *)
Definition legal (from to : SlotPhase) : bool :=
  match jget from LEGAL_SLOT_TRANSITIONS with Some targets => shas to targets | None => false end.

(** A position is well formed when it has a fence exactly while releasing. *)
Definition position_ok (p : SlotPosition) : Prop := is_Some (fence p) ↔ tag p = releasing.

(** The four exceptional moves the fence upgrade allows besides the table. *)
Definition fence_upgrade (from to : SlotPosition) : bool :=
  bool_decide (from = mkPosition releasing (Some none)) && bool_decide (to = mkPosition releasing (Some terminal)).

Lemma position_cases p : position_ok p →
  (tag p ≠ releasing ∧ p = mkPosition (tag p) None) ∨ (∃ f, p = mkPosition releasing (Some f)).
Proof.
  destruct p as [t [f|]]; unfold position_ok; simpl; intros [H1 H2].
  - right. exists f. by rewrite H1.
  - left. split; [|done]. intros ->. by destruct H2.
Qed.

Lemma checkSlotTransition_ok from to :
  position_ok from → position_ok to →
  is_returns (checkSlotTransition from to) =
  (bool_decide (tag from ≠ tag to) && legal (tag from) (tag to)) || fence_upgrade from to.
Proof.
  destruct from as [t f], to as [t' f'].
  intros [[Hf E]|[g E]]%position_cases [[Ht E']|[g' E']]%position_cases; simplify_eq/=;
    repeat match goal with t : SlotPhase |- _ => destruct t end;
    repeat match goal with t : SlotFence |- _ => destruct t end; try done; by vm_compute.
Qed.

(** Every slot derived from the maps has a fence exactly while releasing. *)
Lemma deriveSlot_position_ok {S} `{!SessionType S} (view : LegacyLifecycleView S) uuid :
  position_ok (slot_position (deriveSlot view uuid)).
Proof.
  unfold position_ok, slot_position, deriveSlot; simpl. case_bool_decide; [|by split; [intros []|]].
  by split; [|eauto].
Qed.

Section DerivationFacts.
Context {S : Type} `{!SessionType S}.
Implicit Types view : LegacyLifecycleView S.

(** A published session is always in one of the three published phases, and
    no other UUID is. *)
Lemma deriveSlotTag_published view uuid :
  is_Some (jget uuid (sessions view)) ↔
  deriveSlotTag view uuid ∈ [live; rebinding; releasing].
Proof.
  unfold deriveSlotTag, derivePublishedSlotTag. rewrite !elem_of_cons, elem_of_nil.
  destruct (jget uuid (sessions view)); [split; [intros _|eauto]|]; case_tests; naive_solver.
Qed.

Lemma deriveSlotTag_releasing_snapshot view uuid s :
  jget uuid (sessions view) = Some s → jhas uuid (terminalSnapshots view) = true →
  deriveSlotTag view uuid = releasing.
Proof. intros Hs Ht. unfold deriveSlotTag, derivePublishedSlotTag. by rewrite Hs, Ht. Qed.

Lemma isSlotCurrentSession_spec view uuid s :
  isSlotCurrentSession view uuid s = true ↔
  jget uuid (sessions view) = Some s ∧ jhas uuid (terminalSnapshots view) = false.
Proof.
  unfold isSlotCurrentSession. case_bool_decide as Hs; [naive_solver|].
  unfold deriveSlotTag, derivePublishedSlotTag. rewrite Hs.
  destruct (jhas uuid (terminalSnapshots view)); simpl; [naive_solver|].
  split; [done|]. intros _. by repeat case_match.
Qed.

Lemma isSlotTagBeingRecreated_spec view uuid :
  isSlotTagBeingRecreated (deriveSlotTag view uuid) =
  jhas uuid (sessions view) || jhas uuid (pendingCreations view) || jhas uuid (pendingAssignments view).
Proof.
  rewrite (jhas_get uuid (sessions view)). unfold deriveSlotTag, derivePublishedSlotTag.
  destruct (jget uuid (sessions view)); simpl; [by repeat case_match|].
  destruct (jhas uuid (pendingCreations view)), (jhas uuid (pendingAssignments view)); try done.
  by repeat case_match.
Qed.

Lemma isSlotKnown_spec view uuid :
  isSlotKnown (deriveSlot view uuid) =
  jhas uuid (sessions view) || jhas uuid (pendingCreations view) || jhas uuid (pendingAssignments view) ||
  jhas uuid (pendingRebinds view) || jhas uuid (pendingReleases view) || jhas uuid (releaseOps view).
Proof.
  unfold isSlotKnown, deriveSlot; simpl. rewrite isSlotTagBeingRecreated_spec.
  assert (isSlotTagKnown (deriveSlotTag view uuid) = isSlotTagBeingRecreated (deriveSlotTag view uuid)) as ->
    by by destruct (deriveSlotTag view uuid).
  rewrite isSlotTagBeingRecreated_spec.
  by destruct (jhas uuid (sessions view)), (jhas uuid (pendingCreations view)),
    (jhas uuid (pendingAssignments view)), (jhas uuid (pendingReleases view)),
    (jhas uuid (pendingRebinds view)), (jhas uuid (releaseOps view)).
Qed.

Lemma deriveKnownSessionIds_spec view uuid :
  uuid ∈ deriveKnownSessionIds view ↔ isSlotKnown (deriveSlot view uuid) = true.
Proof.
  unfold deriveKnownSessionIds. rewrite list_elem_of_filter. split; [by intros []|].
  intros H. split; [done|]. rewrite isSlotKnown_spec in H. rewrite elem_of_newSet, !elem_of_app.
  rewrite !orb_true_iff, !jhas_true in H. tauto.
Qed.

Lemma known_ids_NoDup view : NoDup (deriveKnownSessionIds view).
Proof. unfold deriveKnownSessionIds. apply list.NoDup_filter, newSet_NoDup. Qed.

Lemma deriveAllSlots_get view uuid :
  jget uuid (deriveAllSlots view) =
  if slot_listed (deriveSlot view uuid) then Some (deriveSlot view uuid) else None.
Proof.
  unfold deriveAllSlots. set (uuids := newSet _).
  assert (∀ l acc, jget uuid (foldl (λ slots uuid,
    let slot := deriveSlot view uuid in if slot_listed slot then jset uuid slot slots else slots) acc l) =
    if bool_decide (uuid ∈ l) && slot_listed (deriveSlot view uuid)
    then Some (deriveSlot view uuid) else jget uuid acc) as Hl.
  { induction l as [|u l IH]; intros acc; [done|]. cbn [foldl]. rewrite IH. cbv zeta.
    destruct (decide (u = uuid)) as [->|Hne].
    - rewrite (bool_decide_eq_true_2 (uuid ∈ uuid :: l)) by (by left).
      destruct (slot_listed _); rewrite ?andb_true_r, ?andb_false_r; [|done].
      rewrite jget_set, decide_True by done. by case_bool_decide.
    - rewrite (bool_decide_ext (uuid ∈ u :: l) (uuid ∈ l)) by (rewrite elem_of_cons; naive_solver).
      destruct (slot_listed (deriveSlot view u)); [|done]. by rewrite jget_set, decide_False. }
  rewrite Hl. case_bool_decide as Hin; [done|]. simpl.
  destruct (slot_listed _) eqn:E; [|done]. destruct Hin. unfold uuids.
  rewrite elem_of_newSet, !elem_of_app, <- !jhas_true. revert E.
  rewrite (jhas_get uuid (sessions view)), (jhas_get uuid (latestFinalizedIdentities view)).
  unfold slot_listed, deriveSlot, deriveSlotTag. simpl.
  destruct (jget uuid (sessions view)); [by left|].
  destruct (jhas uuid (pendingCreations view)); [tauto|]. destruct (jhas uuid (pendingAssignments view)); [tauto|].
  destruct (jhas uuid (terminalSnapshots view)); [tauto|]. destruct (jhas uuid (recoveredTerminalIntents view)); [tauto|].
  destruct (jhas uuid (releaseOps view)); [tauto|]. destruct (jhas uuid (pendingReleases view)); [tauto|].
  destruct (jhas uuid (pendingRebinds view)); [tauto|].
  destruct (jget uuid (latestFinalizedIdentities view)) as [[s|]|]; [|done|done].
  intros _. do 8 right. by apply bool_decide_eq_true_2.
Qed.
End DerivationFacts.

(** ** Properties of the derivation *)

(** Derivation and listings agree: every UUID with a phase or leftover work, and no
    other, is in [deriveAllSlots], with its derived slot; the known ids are the listed
    slots that are known, each once; a derived slot carries a fence exactly while
    releasing, the fence is terminal exactly when a published session has a terminal
    snapshot, a requested release is only reported before publication, and leftover
    work is only reported for a UUID that is not being recreated. *)
Theorem slot_derivation_complete {S} `{!SessionType S} (view : LegacyLifecycleView S) (uuid : string) :
  let slot := deriveSlot view uuid in
  jget uuid (deriveAllSlots view) = (if slot_listed slot then Some slot else None) ∧
  (uuid ∈ deriveKnownSessionIds view ↔
     ∃ listed, jget uuid (deriveAllSlots view) = Some listed ∧ isSlotKnown listed = true) ∧
  NoDup (deriveKnownSessionIds view) ∧
  (is_Some (slot_fence slot) ↔ slot_tag slot = releasing) ∧
  (slot_fence slot = Some terminal ↔
     is_Some (jget uuid (sessions view)) ∧ jhas uuid (terminalSnapshots view) = true) ∧
  (releaseRequested slot = true → jget uuid (sessions view) = None ∧ jhas uuid (pendingReleases view) = true) ∧
  (residue slot = true → isSlotTagBeingRecreated (slot_tag slot) = false).
Proof.
  cbv zeta. pose proof (deriveSlot_position_ok view uuid) as Hok. unfold position_ok in Hok.
  split_and!.
  - apply deriveAllSlots_get.
  - rewrite deriveKnownSessionIds_spec, deriveAllSlots_get. split.
    + intros Hk. exists (deriveSlot view uuid). split; [|done].
      replace (slot_listed (deriveSlot view uuid)) with true; [done|]. symmetry.
      unfold slot_listed. unfold isSlotKnown in Hk. destruct (residue _); [apply orb_true_r|].
      rewrite orb_false_r in *. by destruct (slot_tag _).
    + intros (listed & Hl & Hk). by destruct (slot_listed _); simplify_eq.
  - apply known_ids_NoDup.
  - exact Hok.
  - unfold deriveSlot; simpl. split.
    + case_bool_decide as Ht; [|done]. case_match; [|done]. intros _. split; [|done].
      apply deriveSlotTag_published. rewrite Ht. set_solver.
    + intros [[s Hs] Hj]. rewrite (deriveSlotTag_releasing_snapshot _ _ s) by done. by rewrite Hj.
  - unfold deriveSlot; simpl. intros [Ht Hp]%andb_true_iff. split; [|done].
    destruct (jget uuid (sessions view)) eqn:E; [|done]. exfalso.
    pose proof (proj1 (deriveSlotTag_published view uuid) ltac:(rewrite E; eauto)) as Hin.
    rewrite !elem_of_cons, elem_of_nil in Hin. destruct Hin as [Hx|[Hx|[Hx|[]]]]; rewrite Hx in Ht; done.
  - unfold deriveSlot; simpl. by intros [?%negb_true_iff _]%andb_true_iff.
Qed.

(** The migration probe can only stay silent: what it reads off the derived slot is
    what the production predicates answer for the session published under the UUID,
    so a published session is current exactly while it has no terminal snapshot,
    admitted when it is also not releasing, a UUID is being recreated exactly when it has a session, a creation or an
    assignment, and it is known exactly when it is in the known ids. *)
Theorem probe_agrees_with_queries {S} `{!SessionType S} (view : LegacyLifecycleView S) (uuid : string) :
  (∀ s, jget uuid (sessions view) = Some s → sessionId s = uuid) →
  probeDerived view uuid = mkReading
    (match jget uuid (sessions view) with Some s => isCurrentSession view s | None => false end)
    (match jget uuid (sessions view) with Some s => isAdmittedForAutomation view s | None => false end)
    (jhas uuid (sessions view) || jhas uuid (pendingCreations view) || jhas uuid (pendingAssignments view))
    (bool_decide (uuid ∈ getAllKnownSessionIds view)) ∧
  (∀ s, jget uuid (sessions view) = Some s →
     (isCurrentSession view s = true ↔ jhas uuid (terminalSnapshots view) = false) ∧
     isLatestSessionIdentity view s false = true).
Proof.
  intros Hid. split.
  - unfold probeDerived. cbv zeta. f_equal.
    3: by rewrite <- isSlotTagBeingRecreated_spec.
    3: { unfold getAllKnownSessionIds. rewrite (bool_decide_ext _ _ (deriveKnownSessionIds_spec view uuid)).
         by destruct (isSlotKnown _). }
    all: destruct (jget uuid (sessions view)) as [s|] eqn:E; [|done]; unfold isAdmittedForAutomation, isCurrentSession;
      rewrite (Hid s eq_refl); unfold isSlotCurrentSession; rewrite E, (bool_decide_eq_false_2 (Some s ≠ Some s)) by naive_solver;
      rewrite (bool_decide_eq_true_2 (is_Some (Some s))) by eauto; unfold deriveSlot; simpl;
      destruct (deriveSlotTag view uuid) eqn:Et; try done; by destruct (jhas uuid (terminalSnapshots view)).
  - intros s Hs. pose proof (Hid s Hs) as Hu. split.
    + unfold isCurrentSession. rewrite isSlotCurrentSession_spec, Hu. naive_solver.
    + unfold isLatestSessionIdentity, deriveLatestSessionIdentity. rewrite Hu, Hs. by apply bool_decide_eq_true_2.
Qed.

(** ** The guard over a sequence of observations *)

(** One hook: [SessionSlotShadowProbe.observe]. *)
Definition observation {S} : Type := LegacyLifecycleView S * string * HookEvent * GuardMode.
Arguments observation : clear implicits.

Definition observed_position {S} `{!SessionType S} (o : observation S) : SlotPosition :=
  let '(view, uuid, _, _) := o in slot_position (deriveSlot view uuid).
Definition observed_uuid {S} (o : observation S) : string := let '(_, uuid, _, _) := o in uuid.

Definition observe {S} `{!SessionType S} (g : SlotTransitionGuard) (o : observation S) : SlotTransitionGuard :=
  let '(_, uuid, event, mode) := o in (check g uuid event (observed_position o) mode).2.
Definition observeAll {S} `{!SessionType S} (g : SlotTransitionGuard) (os : list (observation S)) : SlotTransitionGuard :=
  foldl observe g os.

(** The reference reading: the last observed position of every UUID, absent at
    first, and the moves that are neither a stutter, nor in the table, nor the
    fence upgrade. *)
Definition allowed (from to : SlotPosition) : bool :=
  bool_decide (from = to) || (bool_decide (tag from ≠ tag to) && legal (tag from) (tag to)) || fence_upgrade from to.

Definition nowhere : string → SlotPosition := λ _, mkPosition absent None.

Fixpoint illegal_moves {S} `{!SessionType S} (last : string → SlotPosition) (os : list (observation S)) : nat :=
  match os with
  | [] => 0
  | o :: os' =>
      (if allowed (last (observed_uuid o)) (observed_position o) then 0 else 1) +
      illegal_moves (<[observed_uuid o := observed_position o]> last) os'
  end.

Section GuardFacts.
Context {S : Type} `{!SessionType S}.
Implicit Types (g : SlotTransitionGuard) (last : string → SlotPosition) (o : observation S).

(** The positions stored by [g] are those of [last]. *)
Definition tracks g last : Prop :=
  baselineAfterReset g = false ∧
  ∀ u, default (mkPosition absent None) (jget u (positions g)) = last u ∧ position_ok (last u).

Lemma observed_position_ok o : position_ok (observed_position o).
Proof. destruct o as [[[view uuid] event] mode]. apply deriveSlot_position_ok. Qed.

Lemma observe_tracks g last o :
  tracks g last →
  tracks (observe g o) (<[observed_uuid o := observed_position o]> last) ∧
  illegalTransitionCount (observe g o) =
    (if allowed (last (observed_uuid o)) (observed_position o) then 0 else 1) + illegalTransitionCount g.
Proof.
  intros [Hb Ht]. pose proof (observed_position_ok o) as Hto.
  destruct o as [[[view uuid] event] mode]. unfold observe.
  set (to := observed_position _) in *. clearbody to. cbn [observed_uuid] in *.
  destruct (Ht uuid) as [Hfrom Hfok].
  assert (position_from g uuid to = last uuid) as Hf.
  { unfold position_from. rewrite Hb. by destruct (jget uuid (positions g)). }
  set (g' := (check g uuid event to mode).2).
  assert (positions g' = if bool_decide (tag to = absent) then jdel uuid (positions g) else jset uuid to (positions g)) as Hp.
  { unfold g', check. by repeat (case_match || case_bool_decide). }
  assert (baselineAfterReset g' = false) as Hb'.
  { unfold g', check. by repeat (case_match || case_bool_decide). }
  split.
  - split; [done|]. intros u. rewrite Hp. destruct (decide (u = uuid)) as [->|Hne].
    + rewrite fn_lookup_insert. split; [|done]. case_bool_decide as Ha.
      * rewrite jget_del, decide_True by done. destruct (position_cases to Hto) as [[_ E]|[f E]];
          rewrite E in Ha |- *; simpl in Ha; [by rewrite Ha|done].
      * by rewrite jget_set, decide_True.
    + rewrite fn_lookup_insert_ne by done. destruct (Ht u) as [<- ?]. split; [|done].
      by case_bool_decide; [rewrite jget_del|rewrite jget_set]; rewrite decide_False.
  - unfold g', check. cbv zeta. rewrite Hf. unfold allowed.
    pose proof (checkSlotTransition_ok (last uuid) to Hfok Hto) as Hc.
    rewrite (bool_decide_ext (last uuid = to) (tag (last uuid) = tag to ∧ fence (last uuid) = fence to))
      by (destruct (last uuid), to; naive_solver).
    rewrite bool_decide_and. destruct (_ && bool_decide (fence _ = _)); [done|]. simpl. rewrite <- Hc.
    destruct (checkSlotTransition (last uuid) to); [done|]. simpl.
    by destruct (is_known _ _ _), mode.
Qed.

Lemma observeAll_tracks os g last :
  tracks g last →
  illegalTransitionCount (observeAll g os) = illegal_moves last os + illegalTransitionCount g.
Proof.
  revert g last. induction os as [|o os IH]; intros g last Ht; [done|].
  destruct (observe_tracks g last o Ht) as [Ht' Hn]. simpl. change (foldl observe (observe g o) os) with (observeAll (observe g o) os).
  rewrite (IH _ _ Ht'), Hn. lia.
Qed.

Lemma newGuard_tracks : tracks newGuard nowhere.
Proof. split; [done|]. intros u. split; [done|]. by split; [intros []|]. Qed.

(** Where a UUID was last seen. *)
Definition last_position os : string → SlotPosition :=
  foldl (λ last o, <[observed_uuid o := observed_position o]> last) nowhere os.

Lemma illegal_moves_app last os1 os2 :
  illegal_moves last (os1 ++ os2) =
  illegal_moves last os1 +
  illegal_moves (foldl (λ last o, <[observed_uuid o := observed_position o]> last) last os1) os2.
Proof. revert last. induction os1 as [|o os1 IH]; intros last; [done|]. simpl. rewrite IH. lia. Qed.

(** From a fenced UUID only a creation is allowed. *)
Lemma fenced_only_creating to : position_ok to → allowed (mkPosition fenced None) to = true →
  tag to = fenced ∨ tag to = creating.
Proof. destruct to as [[] [[]|]]; intros Hok; vm_compute; try tauto; try done. Qed.

Lemma fenced_path last os uuid :
  tag (last uuid) = fenced → position_ok (last uuid) → illegal_moves last os = 0 →
  tag (foldl (λ last o, <[observed_uuid o := observed_position o]> last) last os uuid) ≠ fenced →
  ∃ o, o ∈ os ∧ observed_uuid o = uuid ∧ tag (observed_position o) = creating.
Proof.
  revert last. induction os as [|o os IH]; intros last Hf Hok Hn Hend; simpl in *; [done|].
  destruct (allowed _ _) eqn:Ha; [|done]. simpl in Hn.
  destruct (decide (observed_uuid o = uuid)) as [Hu|Hu].
  - assert (last (observed_uuid o) = mkPosition fenced None) as E.
    { rewrite Hu. destruct (position_cases _ Hok) as [[_ E]|[f E]]; [by rewrite E, Hf|by rewrite E in Hf]. }
    rewrite E in Ha. destruct (fenced_only_creating _ (observed_position_ok o) Ha) as [Hs|Hs].
    + destruct (IH (<[observed_uuid o:=observed_position o]> last)) as (o' & ? & ? & ?).
      * by rewrite Hu, fn_lookup_insert.
      * rewrite Hu, fn_lookup_insert. apply observed_position_ok.
      * done.
      * done.
      * exists o'. split; [by right|done].
    + exists o. split; [by left|done].
  - destruct (IH (<[observed_uuid o:=observed_position o]> last)) as (o' & ? & ? & ?).
    + by rewrite fn_lookup_insert_ne.
    + by rewrite fn_lookup_insert_ne.
    + done.
    + done.
    + exists o'. split; [by right|done].
Qed.
End GuardFacts.

(** The guard counts exactly the illegal moves: over any sequence of observed hooks, of any
    sessions in any interleaving and in either mode, the count is the number of
    observations that are neither a repetition, nor a move of the table, nor the upgrade
    of a releasing fence; known exceptions and thrown errors are counted too. *)
Theorem guard_counts_illegal_moves {S} `{!SessionType S} (os : list (observation S)) :
  illegalTransitionCount (observeAll newGuard os) = illegal_moves nowhere os.
Proof. rewrite (observeAll_tracks os newGuard nowhere newGuard_tracks). simpl. lia. Qed.

(** A terminal fence is lifted by a new creation only: when a UUID was last seen fenced
    and the guard has counted nothing since, a UUID now seen in another phase has been
    seen creating in between, however many hooks of other sessions intervened. *)
Theorem fenced_reopens_by_creation {S} `{!SessionType S} (os1 os2 : list (observation S)) (uuid : string) :
  tag (last_position os1 uuid) = fenced →
  illegalTransitionCount (observeAll newGuard (os1 ++ os2)) = illegalTransitionCount (observeAll newGuard os1) →
  tag (last_position (os1 ++ os2) uuid) ≠ fenced →
  ∃ o, o ∈ os2 ∧ observed_uuid o = uuid ∧ tag (observed_position o) = creating.
Proof.
  rewrite !(observeAll_tracks _ newGuard nowhere newGuard_tracks), illegal_moves_app.
  unfold last_position. rewrite foldl_app. intros Hf Hn Hend.
  eapply fenced_path; [exact Hf| |lia|exact Hend].
  assert (∀ os last u, position_ok (last u) →
    position_ok (foldl (λ last o, <[observed_uuid o := observed_position o]> last) last (os : list (observation S)) u)) as Hfold.
  { induction os as [|o os IH]; intros last u Hok; [done|]. apply IH. destruct (decide (u = observed_uuid o)) as [->|].
    - rewrite fn_lookup_insert. apply observed_position_ok.
    - by rewrite fn_lookup_insert_ne. }
  apply Hfold. by split; [intros []|].
Qed.

(** ** A concrete lifecycle *)

(** Sessions for the examples: an object number and the UUID it carries. *)
Definition DemoSession : Type := nat * string.
#[export] Instance DemoSession_type : SessionType DemoSession :=
  { session_eq := _; sessionId := snd }.

Definition demo_view (published : option DemoSession) (creation snapshot : bool) : LegacyLifecycleView DemoSession :=
  mkView (match published with Some s => [(s.2, s)] | None => [] end) (λ _, false) []
    (if creation then [("u"%string, ())] else []) [] [] []
    (if snapshot then [("u"%string, ())] else []) [] [].

Definition demo_run : list (observation DemoSession) :=
  [(demo_view None false true, "u"%string, release_end, log_mode);
   (demo_view (Some (1, "v"%string)) false false, "v"%string, published, log_mode)].
Definition demo_rest : list (observation DemoSession) :=
  [(demo_view None true false, "u"%string, creation_start, throw_mode);
   (demo_view (Some (2, "u"%string)) false false, "u"%string, published, throw_mode)].

(** The publication of ["v"] skips its creation hook: counted once, as a known coarse path. *)
Example demo_count : illegalTransitionCount (observeAll newGuard (demo_run ++ demo_rest)) = 1.
Proof. vm_compute. reflexivity. Qed.

Lemma probe_agrees_with_queries_witness :
  probeDerived (demo_view (Some (2, "u"%string)) false true) "u" = mkReading false false true true.
Proof.
  destruct (probe_agrees_with_queries (demo_view (Some (2, "u"%string)) false true) "u") as [-> _].
  - intros s Hs. vm_compute in Hs. by simplify_eq.
  - vm_compute. reflexivity.
Defined.

Lemma fenced_reopens_by_creation_witness :
  ∃ o, o ∈ demo_rest ∧ observed_uuid o = "u"%string ∧ tag (observed_position o) = creating.
Proof.
  apply (fenced_reopens_by_creation demo_run demo_rest "u").
  - vm_compute. reflexivity.
  - vm_compute. reflexivity.
  - vm_compute. discriminate.
Defined.
