(* ===== verification/SlotStore.v ===== *)
(** * The session slot store

    The class [SessionSlots] of [src/src/daemon/sessionSlots.ts]: the lifecycle
    maps of the session manager, the weak identities of finalized sessions, and
    the promises that resolve when the phase of a UUID changes.  The maps are
    shared: the manager's view, and the waiters, read the live maps. *)
From stdpp Require Import strings sets gmap relations.
From S2P Require Import Prelude JsMap SessionSlots.

(** ** State *)

(** The payload types of the store, as its type parameters. *)
Class SlotTypes := {
  tA : Type; tSh : Type; tC : Type; tR : Type; tRel : Type; tReb : Type; tCleanup : Type; tOp : Type;
  tSnapshot : Type; tS : Type; tTerminalSnapshot : Type; tReason : Type; tReservation : Type; tIntent : Type;
  tS_session :: SessionType tS;
  tR_eq :: EqDecision tR; tCleanup_eq :: EqDecision tCleanup; tOp_eq :: EqDecision tOp;
  op_fields : tOp → ReleaseOp tS;
}.

Section State.
Context `{SlotTypes}.

(** The maps the phase of a UUID is derived from. *)
Record LifecycleMaps := mkMaps {
  pendingSessionAssignments : JsMap string tA;
  pendingSessionCreations : JsMap string tC;
  pendingSessionReleases : JsMap string tRel;
  pendingSessionRebinds : JsMap string tReb;
  releasePromises : JsMap string tOp;
  releasingSessions : list tS;
  terminalReleaseSnapshots : JsMap string tTerminalSnapshot;
  recoveredTerminalReleaseIntents : JsMap string tIntent;
  latestFinalizedSessionIdentities : JsMap string nat;
}.

(** The other maps and sets. *)
Record SideMaps := mkSide {
  sharedSessionAssignments : JsMap string tSh;
  pendingPersistedRecoveries : JsMap string tR;
  claimedRecoverableRows : list tR;
  deferredCleanupOwners : JsMap tCleanup (string * string);
  activeReleasePromises : list tOp;
  forcedNonTerminalReleases : JsMap tS tSnapshot;
  terminalReleaseReasonStates : JsMap string tReason;
  terminalReleaseReservations : JsMap string tReservation;
  adoptedDeadDaemonJournals : list string;
  adoptedTerminalReleaseOwners : JsMap string string;
}.

Record Waiter := mkWaiter { waiter_tag : SlotPhase; waiter_promise : nat }.

(** The store, with the part of the JavaScript heap it observes: the manager's
    session map, which weak references are still alive (a reference is its
    number), the finalization registry and the callbacks queued by the
    collector, and the promises created and resolved. *)
Record Store := mkStore {
  maps : LifecycleMaps;
  side : SideMaps;
  tagWaiters : JsMap string Waiter;
  managerSessions : JsMap string tS;
  weakRefs : gmap nat tS;
  nextRef : nat;
  registry : list (tS * (string * nat));
  cleanups : list (string * nat);
  nextPromise : nat;
  resolved : list nat;
}.

Definition emptyMaps : LifecycleMaps := mkMaps [] [] [] [] [] [] [] [] [].
Definition emptySide : SideMaps := mkSide [] [] [] [] [] [] [] [] [] [].
Definition emptyStore : Store := mkStore emptyMaps emptySide [] [] ∅ 0 [] [] 0 [].

(** Field updates. *)
Definition with_maps (f : LifecycleMaps → LifecycleMaps) (w : Store) : Store :=
  mkStore (f (maps w)) (side w) (tagWaiters w) (managerSessions w) (weakRefs w) (nextRef w) (registry w)
    (cleanups w) (nextPromise w) (resolved w).
Definition with_side (f : SideMaps → SideMaps) (w : Store) : Store :=
  mkStore (maps w) (f (side w)) (tagWaiters w) (managerSessions w) (weakRefs w) (nextRef w) (registry w)
    (cleanups w) (nextPromise w) (resolved w).

Implicit Types x : LifecycleMaps.
Implicit Types y : SideMaps.

Definition on_assignments f x := mkMaps (f (pendingSessionAssignments x)) (pendingSessionCreations x)
  (pendingSessionReleases x) (pendingSessionRebinds x) (releasePromises x) (releasingSessions x)
  (terminalReleaseSnapshots x) (recoveredTerminalReleaseIntents x) (latestFinalizedSessionIdentities x).
Definition on_creations f x := mkMaps (pendingSessionAssignments x) (f (pendingSessionCreations x))
  (pendingSessionReleases x) (pendingSessionRebinds x) (releasePromises x) (releasingSessions x)
  (terminalReleaseSnapshots x) (recoveredTerminalReleaseIntents x) (latestFinalizedSessionIdentities x).
Definition on_releaseRequests f x := mkMaps (pendingSessionAssignments x) (pendingSessionCreations x)
  (f (pendingSessionReleases x)) (pendingSessionRebinds x) (releasePromises x) (releasingSessions x)
  (terminalReleaseSnapshots x) (recoveredTerminalReleaseIntents x) (latestFinalizedSessionIdentities x).
Definition on_rebinds f x := mkMaps (pendingSessionAssignments x) (pendingSessionCreations x)
  (pendingSessionReleases x) (f (pendingSessionRebinds x)) (releasePromises x) (releasingSessions x)
  (terminalReleaseSnapshots x) (recoveredTerminalReleaseIntents x) (latestFinalizedSessionIdentities x).
Definition on_releaseOps f x := mkMaps (pendingSessionAssignments x) (pendingSessionCreations x)
  (pendingSessionReleases x) (pendingSessionRebinds x) (f (releasePromises x)) (releasingSessions x)
  (terminalReleaseSnapshots x) (recoveredTerminalReleaseIntents x) (latestFinalizedSessionIdentities x).
Definition on_releasing f x := mkMaps (pendingSessionAssignments x) (pendingSessionCreations x)
  (pendingSessionReleases x) (pendingSessionRebinds x) (releasePromises x) (f (releasingSessions x))
  (terminalReleaseSnapshots x) (recoveredTerminalReleaseIntents x) (latestFinalizedSessionIdentities x).
Definition on_snapshots f x := mkMaps (pendingSessionAssignments x) (pendingSessionCreations x)
  (pendingSessionReleases x) (pendingSessionRebinds x) (releasePromises x) (releasingSessions x)
  (f (terminalReleaseSnapshots x)) (recoveredTerminalReleaseIntents x) (latestFinalizedSessionIdentities x).
Definition on_intents f x := mkMaps (pendingSessionAssignments x) (pendingSessionCreations x)
  (pendingSessionReleases x) (pendingSessionRebinds x) (releasePromises x) (releasingSessions x)
  (terminalReleaseSnapshots x) (f (recoveredTerminalReleaseIntents x)) (latestFinalizedSessionIdentities x).
Definition on_identities f x := mkMaps (pendingSessionAssignments x) (pendingSessionCreations x)
  (pendingSessionReleases x) (pendingSessionRebinds x) (releasePromises x) (releasingSessions x)
  (terminalReleaseSnapshots x) (recoveredTerminalReleaseIntents x) (f (latestFinalizedSessionIdentities x)).

Definition on_shared f y := mkSide (f (sharedSessionAssignments y)) (pendingPersistedRecoveries y)
  (claimedRecoverableRows y) (deferredCleanupOwners y) (activeReleasePromises y) (forcedNonTerminalReleases y)
  (terminalReleaseReasonStates y) (terminalReleaseReservations y) (adoptedDeadDaemonJournals y)
  (adoptedTerminalReleaseOwners y).
Definition on_recoveries f y := mkSide (sharedSessionAssignments y) (f (pendingPersistedRecoveries y))
  (claimedRecoverableRows y) (deferredCleanupOwners y) (activeReleasePromises y) (forcedNonTerminalReleases y)
  (terminalReleaseReasonStates y) (terminalReleaseReservations y) (adoptedDeadDaemonJournals y)
  (adoptedTerminalReleaseOwners y).
Definition on_claimed f y := mkSide (sharedSessionAssignments y) (pendingPersistedRecoveries y)
  (f (claimedRecoverableRows y)) (deferredCleanupOwners y) (activeReleasePromises y) (forcedNonTerminalReleases y)
  (terminalReleaseReasonStates y) (terminalReleaseReservations y) (adoptedDeadDaemonJournals y)
  (adoptedTerminalReleaseOwners y).
Definition on_deferred f y := mkSide (sharedSessionAssignments y) (pendingPersistedRecoveries y)
  (claimedRecoverableRows y) (f (deferredCleanupOwners y)) (activeReleasePromises y) (forcedNonTerminalReleases y)
  (terminalReleaseReasonStates y) (terminalReleaseReservations y) (adoptedDeadDaemonJournals y)
  (adoptedTerminalReleaseOwners y).
Definition on_active f y := mkSide (sharedSessionAssignments y) (pendingPersistedRecoveries y)
  (claimedRecoverableRows y) (deferredCleanupOwners y) (f (activeReleasePromises y)) (forcedNonTerminalReleases y)
  (terminalReleaseReasonStates y) (terminalReleaseReservations y) (adoptedDeadDaemonJournals y)
  (adoptedTerminalReleaseOwners y).
Definition on_forced f y := mkSide (sharedSessionAssignments y) (pendingPersistedRecoveries y)
  (claimedRecoverableRows y) (deferredCleanupOwners y) (activeReleasePromises y) (f (forcedNonTerminalReleases y))
  (terminalReleaseReasonStates y) (terminalReleaseReservations y) (adoptedDeadDaemonJournals y)
  (adoptedTerminalReleaseOwners y).
Definition on_reasons f y := mkSide (sharedSessionAssignments y) (pendingPersistedRecoveries y)
  (claimedRecoverableRows y) (deferredCleanupOwners y) (activeReleasePromises y) (forcedNonTerminalReleases y)
  (f (terminalReleaseReasonStates y)) (terminalReleaseReservations y) (adoptedDeadDaemonJournals y)
  (adoptedTerminalReleaseOwners y).
Definition on_reservations f y := mkSide (sharedSessionAssignments y) (pendingPersistedRecoveries y)
  (claimedRecoverableRows y) (deferredCleanupOwners y) (activeReleasePromises y) (forcedNonTerminalReleases y)
  (terminalReleaseReasonStates y) (f (terminalReleaseReservations y)) (adoptedDeadDaemonJournals y)
  (adoptedTerminalReleaseOwners y).
Definition on_journals f y := mkSide (sharedSessionAssignments y) (pendingPersistedRecoveries y)
  (claimedRecoverableRows y) (deferredCleanupOwners y) (activeReleasePromises y) (forcedNonTerminalReleases y)
  (terminalReleaseReasonStates y) (terminalReleaseReservations y) (f (adoptedDeadDaemonJournals y))
  (adoptedTerminalReleaseOwners y).
Definition on_owners f y := mkSide (sharedSessionAssignments y) (pendingPersistedRecoveries y)
  (claimedRecoverableRows y) (deferredCleanupOwners y) (activeReleasePromises y) (forcedNonTerminalReleases y)
  (terminalReleaseReasonStates y) (terminalReleaseReservations y) (adoptedDeadDaemonJournals y)
  (f (adoptedTerminalReleaseOwners y)).
End State.

(** ** Operations *)

Section Operations.
Context `{SlotTypes}.
Implicit Types (w : Store) (id : string) (session : tS).

Definition keysOnly {V} (m : JsMap string V) : JsMap string () := (λ e, (e.1, ())) <$> m.

(** [createLegacyLifecycleView] over the manager's session map and the store's
    live maps. *)
Definition viewOf w : LegacyLifecycleView tS :=
  let x := maps w in
  mkView (managerSessions w) (λ s, shas s (releasingSessions x))
    (keysOnly (pendingSessionAssignments x)) (keysOnly (pendingSessionCreations x))
    (keysOnly (pendingSessionReleases x)) (keysOnly (pendingSessionRebinds x))
    ((λ e, (e.1, op_fields e.2)) <$> releasePromises x)
    (keysOnly (terminalReleaseSnapshots x)) (keysOnly (recoveredTerminalReleaseIntents x))
    ((λ e, (e.1, weakRefs w !! e.2)) <$> latestFinalizedSessionIdentities x).

Definition tagNow w id : SlotPhase := deriveSlotTag (viewOf w) id.

Definition settled w id : nat * Store :=
  match jget id (tagWaiters w) with
  | Some existing => (waiter_promise existing, w)
  | None =>
      let promise := nextPromise w in
      (promise,
       mkStore (maps w) (side w) (jset id (mkWaiter (tagNow w id) promise) (tagWaiters w)) (managerSessions w)
         (weakRefs w) (nextRef w) (registry w) (cleanups w) (S promise) (resolved w))
  end.

Definition notifySettled w id : Store :=
  match jget id (tagWaiters w) with
  | Some waiter =>
      if bool_decide (tagNow w id ≠ waiter_tag waiter) then
        mkStore (maps w) (side w) (jdel id (tagWaiters w)) (managerSessions w) (weakRefs w) (nextRef w)
          (registry w) (cleanups w) (nextPromise w) (resolved w ++ [waiter_promise waiter])
      else w
  | None => w
  end.

(** The loop only deletes the key it visits, so it visits the keys it started with. *)
Definition notifyReleasingChanged w : Store := foldl notifySettled w (jkeys (tagWaiters w)).

(** The constructor's [cleanup] callback, for the record it was registered with. *)
Definition cleanup w (held : string * nat) : Store :=
  let '(sid, identity) := held in
  if bool_decide (jget sid (latestFinalizedSessionIdentities (maps w)) = Some identity) then
    notifySettled (with_maps (on_identities (jdel sid)) w) sid
  else w.

Definition deref w (ref : option nat) : option tS := ref ≫= (weakRefs w !!.).

Definition recordFinalizedIdentity w session : Store :=
  let sid := sessionId session in
  if bool_decide (deref w (jget sid (latestFinalizedSessionIdentities (maps w))) = Some session) then w
  else
    let identity := nextRef w in
    let w := mkStore (maps w) (side w) (tagWaiters w) (managerSessions w) (<[identity := session]> (weakRefs w))
               (S identity) (registry w) (cleanups w) (nextPromise w) (resolved w) in
    let w := notifySettled (with_maps (on_identities (jset sid identity)) w) sid in
    mkStore (maps w) (side w) (tagWaiters w) (managerSessions w) (weakRefs w) (nextRef w)
      (registry w ++ [(session, (sid, identity))]) (cleanups w) (nextPromise w) (resolved w).

(** Setters and deleters of the maps the phase depends on. *)
Definition setTerminalSnapshot w id v := notifySettled (with_maps (on_snapshots (jset id v)) w) id.
Definition deleteTerminalSnapshot w id : bool * Store :=
  (jhas id (terminalReleaseSnapshots (maps w)), notifySettled (with_maps (on_snapshots (jdel id)) w) id).
Definition deleteFinalizedIdentity w id : bool * Store :=
  (jhas id (latestFinalizedSessionIdentities (maps w)), notifySettled (with_maps (on_identities (jdel id)) w) id).
Definition setRecoveredTerminalIntent w id v := notifySettled (with_maps (on_intents (jset id v)) w) id.
Definition deleteRecoveredTerminalIntent w id : bool * Store :=
  (jhas id (recoveredTerminalReleaseIntents (maps w)), notifySettled (with_maps (on_intents (jdel id)) w) id).
Definition setReleaseOp w id v := notifySettled (with_maps (on_releaseOps (jset id v)) w) id.
Definition deleteReleaseOp w id : bool * Store :=
  (jhas id (releasePromises (maps w)), notifySettled (with_maps (on_releaseOps (jdel id)) w) id).
Definition markReleasing w session := notifyReleasingChanged (with_maps (on_releasing (sadd session)) w).
Definition unmarkReleasing w session : bool * Store :=
  (shas session (releasingSessions (maps w)), notifyReleasingChanged (with_maps (on_releasing (sdel session)) w)).
Definition setAssignment w id v := notifySettled (with_maps (on_assignments (jset id v)) w) id.
Definition deleteAssignment w id : bool * Store :=
  (jhas id (pendingSessionAssignments (maps w)), notifySettled (with_maps (on_assignments (jdel id)) w) id).
Definition setCreation w id v := notifySettled (with_maps (on_creations (jset id v)) w) id.
Definition deleteCreation w id : bool * Store :=
  (jhas id (pendingSessionCreations (maps w)), notifySettled (with_maps (on_creations (jdel id)) w) id).
Definition setReleaseRequest w id v := notifySettled (with_maps (on_releaseRequests (jset id v)) w) id.
Definition deleteReleaseRequest w id : bool * Store :=
  (jhas id (pendingSessionReleases (maps w)), notifySettled (with_maps (on_releaseRequests (jdel id)) w) id).
Definition setRebind w id v := notifySettled (with_maps (on_rebinds (jset id v)) w) id.
Definition deleteRebind w id : bool * Store :=
  (jhas id (pendingSessionRebinds (maps w)), notifySettled (with_maps (on_rebinds (jdel id)) w) id).

(** The other setters notify nobody. *)
Definition setTerminalReasonState w id v := with_side (on_reasons (jset id v)) w.
Definition deleteTerminalReasonState w id : bool * Store :=
  (jhas id (terminalReleaseReasonStates (side w)), with_side (on_reasons (jdel id)) w).
Definition setTerminalReservation w id v := with_side (on_reservations (jset id v)) w.
Definition deleteTerminalReservation w id : bool * Store :=
  (jhas id (terminalReleaseReservations (side w)), with_side (on_reservations (jdel id)) w).
Definition setAdoptedTerminalOwner w id v := with_side (on_owners (jset id v)) w.
Definition deleteAdoptedTerminalOwner w id : bool * Store :=
  (jhas id (adoptedTerminalReleaseOwners (side w)), with_side (on_owners (jdel id)) w).
Definition addAdoptedDeadJournal w (owner : string) := with_side (on_journals (sadd owner)) w.
Definition deleteAdoptedDeadJournal w (owner : string) : bool * Store :=
  (shas owner (adoptedDeadDaemonJournals (side w)), with_side (on_journals (sdel owner)) w).
Definition addActiveRelease w (op : tOp) := with_side (on_active (sadd op)) w.
Definition deleteActiveRelease w (op : tOp) : bool * Store :=
  (shas op (activeReleasePromises (side w)), with_side (on_active (sdel op)) w).
Definition setForcedNonTerminal w session (snapshot : tSnapshot) := with_side (on_forced (jset session snapshot)) w.
Definition deleteForcedNonTerminal w session : bool * Store :=
  (jhas session (forcedNonTerminalReleases (side w)), with_side (on_forced (jdel session)) w).
Definition setShared w id v := with_side (on_shared (jset id v)) w.
Definition deleteShared w id : bool * Store :=
  (jhas id (sharedSessionAssignments (side w)), with_side (on_shared (jdel id)) w).
Definition setRecovery w id v := with_side (on_recoveries (jset id v)) w.
Definition deleteRecovery w id : bool * Store :=
  (jhas id (pendingPersistedRecoveries (side w)), with_side (on_recoveries (jdel id)) w).
Definition setDeferredCleanup w (receipt : tCleanup) (owner : string * string) := with_side (on_deferred (jset receipt owner)) w.
Definition deleteDeferredCleanup w (receipt : tCleanup) : bool * Store :=
  (jhas receipt (deferredCleanupOwners (side w)), with_side (on_deferred (jdel receipt)) w).
Definition markRowClaimed w (row : tR) := with_side (on_claimed (sadd row)) w.

(** Reads. *)
Definition getTerminalSnapshot w id := jget id (terminalReleaseSnapshots (maps w)).
Definition hasTerminalSnapshot w id := jhas id (terminalReleaseSnapshots (maps w)).
Definition getTerminalReasonState w id := jget id (terminalReleaseReasonStates (side w)).
Definition hasTerminalReasonState w id := jhas id (terminalReleaseReasonStates (side w)).
Definition getTerminalReservation w id := jget id (terminalReleaseReservations (side w)).
Definition hasTerminalReservation w id := jhas id (terminalReleaseReservations (side w)).
Definition getFinalizedIdentity w id := jget id (latestFinalizedSessionIdentities (maps w)).
Definition hasFinalizedIdentity w id := jhas id (latestFinalizedSessionIdentities (maps w)).
Definition getRecoveredTerminalIntent w id := jget id (recoveredTerminalReleaseIntents (maps w)).
Definition hasRecoveredTerminalIntent w id := jhas id (recoveredTerminalReleaseIntents (maps w)).
Definition getAdoptedTerminalOwner w id := jget id (adoptedTerminalReleaseOwners (side w)).
Definition hasAdoptedTerminalOwner w id := jhas id (adoptedTerminalReleaseOwners (side w)).
Definition hasAdoptedDeadJournal w (owner : string) := shas owner (adoptedDeadDaemonJournals (side w)).
Definition getReleaseOp w id := jget id (releasePromises (maps w)).
Definition hasReleaseOp w id := jhas id (releasePromises (maps w)).
Definition hasActiveRelease w (op : tOp) := shas op (activeReleasePromises (side w)).
Definition isReleasingSession w session := shas session (releasingSessions (maps w)).
Definition getForcedNonTerminal w session := jget session (forcedNonTerminalReleases (side w)).
Definition hasForcedNonTerminal w session := jhas session (forcedNonTerminalReleases (side w)).
Definition getAssignment w id := jget id (pendingSessionAssignments (maps w)).
Definition hasAssignment w id := jhas id (pendingSessionAssignments (maps w)).
Definition getShared w id := jget id (sharedSessionAssignments (side w)).
Definition getCreation w id := jget id (pendingSessionCreations (maps w)).
Definition hasCreation w id := jhas id (pendingSessionCreations (maps w)).
Definition getRecovery w id := jget id (pendingPersistedRecoveries (side w)).
Definition hasRecovery w id := jhas id (pendingPersistedRecoveries (side w)).
Definition getReleaseRequest w id := jget id (pendingSessionReleases (maps w)).
Definition getRebind w id := jget id (pendingSessionRebinds (maps w)).
Definition hasRebind w id := jhas id (pendingSessionRebinds (maps w)).
Definition isRowClaimed w (row : tR) := shas row (claimedRecoverableRows (side w)).
End Operations.

(** ** The environment and the runs of the store *)

Section Runs.
Context `{SlotTypes}.
Implicit Types (w : Store) (id : string) (session : tS).

(** The manager publishes or removes a session in its own map and then notifies. *)
Definition publishSession w id session : Store :=
  notifySettled (mkStore (maps w) (side w) (tagWaiters w) (jset id session (managerSessions w)) (weakRefs w)
    (nextRef w) (registry w) (cleanups w) (nextPromise w) (resolved w)) id.
Definition unpublishSession w id : Store :=
  notifySettled (mkStore (maps w) (side w) (tagWaiters w) (jdel id (managerSessions w)) (weakRefs w)
    (nextRef w) (registry w) (cleanups w) (nextPromise w) (resolved w)) id.

(** The collector reclaims a session: its weak references die at once, and the
    callbacks registered for it are queued. *)
Definition collect w session : Store :=
  mkStore (maps w) (side w) (tagWaiters w) (managerSessions w)
    (filter (λ e, e.2 ≠ session) (weakRefs w)) (nextRef w)
    (filter (λ e, e.1 ≠ session) (registry w))
    (cleanups w ++ (filter (λ e, e.1 = session) (registry w)).*2) (nextPromise w) (resolved w).

(** A queued callback runs. *)
Definition runCleanup w (held : string * nat) : Store :=
  cleanup (mkStore (maps w) (side w) (tagWaiters w) (managerSessions w) (weakRefs w) (nextRef w) (registry w)
    (sdel held (cleanups w)) (nextPromise w) (resolved w)) held.

Inductive store_step : Store → Store → Prop :=
| step_settled w id : store_step w (settled w id).2
| step_setTerminalSnapshot w id v : store_step w (setTerminalSnapshot w id v)
| step_deleteTerminalSnapshot w id : store_step w (deleteTerminalSnapshot w id).2
| step_recordFinalizedIdentity w session : store_step w (recordFinalizedIdentity w session)
| step_deleteFinalizedIdentity w id : store_step w (deleteFinalizedIdentity w id).2
| step_setRecoveredTerminalIntent w id v : store_step w (setRecoveredTerminalIntent w id v)
| step_deleteRecoveredTerminalIntent w id : store_step w (deleteRecoveredTerminalIntent w id).2
| step_setReleaseOp w id v : store_step w (setReleaseOp w id v)
| step_deleteReleaseOp w id : store_step w (deleteReleaseOp w id).2
| step_markReleasing w session : store_step w (markReleasing w session)
| step_unmarkReleasing w session : store_step w (unmarkReleasing w session).2
| step_setAssignment w id v : store_step w (setAssignment w id v)
| step_deleteAssignment w id : store_step w (deleteAssignment w id).2
| step_setCreation w id v : store_step w (setCreation w id v)
| step_deleteCreation w id : store_step w (deleteCreation w id).2
| step_setReleaseRequest w id v : store_step w (setReleaseRequest w id v)
| step_deleteReleaseRequest w id : store_step w (deleteReleaseRequest w id).2
| step_setRebind w id v : store_step w (setRebind w id v)
| step_deleteRebind w id : store_step w (deleteRebind w id).2
| step_side w f : store_step w (with_side f w)
| step_publish w id session : store_step w (publishSession w id session)
| step_unpublish w id : store_step w (unpublishSession w id)
| step_collect w session : store_step w (collect w session)
| step_runCleanup w held : held ∈ cleanups w → store_step w (runCleanup w held).

Definition store_reachable w : Prop := rtc store_step emptyStore w.

(** ** The waiter invariant *)

(** The identity of [id] has been collected and its callback is still queued. *)
Definition collection_pending w id : Prop :=
  ∃ ref, jget id (latestFinalizedSessionIdentities (maps w)) = Some ref ∧
    weakRefs w !! ref = None ∧ (id, ref) ∈ cleanups w.

Definition waiter_current w id (waiter : Waiter) : Prop :=
  tagNow w id = waiter_tag waiter ∨ collection_pending w id.

(** Every stored identity is registered with its session while alive, and queued once dead. *)
Definition identity_registered w id (ref : nat) : Prop :=
  ref < nextRef w ∧
  ((∃ s, weakRefs w !! ref = Some s ∧ (s, (id, ref)) ∈ registry w) ∨
   (weakRefs w !! ref = None ∧ (id, ref) ∈ cleanups w)).

(** Every promise handed out is waiting or resolved, not both. *)
Definition promise_waiting w (p : nat) : Prop :=
  ∃ id waiter, jget id (tagWaiters w) = Some waiter ∧ waiter_promise waiter = p.

Record store_inv w : Prop := {
  inv_waiters id waiter : jget id (tagWaiters w) = Some waiter → waiter_current w id waiter;
  inv_identities id ref : jget id (latestFinalizedSessionIdentities (maps w)) = Some ref → identity_registered w id ref;
  inv_promises p : (promise_waiting w p ∨ p ∈ resolved w) ↔ p < nextPromise w;
  inv_disjoint p : promise_waiting w p → p ∉ resolved w;
  inv_unique id1 id2 wt1 wt2 : jget id1 (tagWaiters w) = Some wt1 → jget id2 (tagWaiters w) = Some wt2 →
    waiter_promise wt1 = waiter_promise wt2 → id1 = id2;
}.

Lemma viewOf_notifySettled w id : viewOf (notifySettled w id) = viewOf w.
Proof. unfold notifySettled. by repeat case_match. Qed.
Lemma tagNow_notifySettled w id id' : tagNow (notifySettled w id) id' = tagNow w id'.
Proof. unfold tagNow. by rewrite viewOf_notifySettled. Qed.
Lemma notifySettled_maps w id : maps (notifySettled w id) = maps w.
Proof. unfold notifySettled. by repeat case_match. Qed.
Lemma notifySettled_env w id :
  weakRefs (notifySettled w id) = weakRefs w ∧ nextRef (notifySettled w id) = nextRef w ∧
  registry (notifySettled w id) = registry w ∧ cleanups (notifySettled w id) = cleanups w ∧
  nextPromise (notifySettled w id) = nextPromise w.
Proof. unfold notifySettled. by repeat case_match. Qed.

(** What is left of the invariant while the waiters of [ids] may be stale. *)
Record store_inv_but (stale : string → Prop) w : Prop := {
  but_waiters id waiter : jget id (tagWaiters w) = Some waiter → stale id ∨ waiter_current w id waiter;
  but_identities id ref : jget id (latestFinalizedSessionIdentities (maps w)) = Some ref → identity_registered w id ref;
  but_promises p : (promise_waiting w p ∨ p ∈ resolved w) ↔ p < nextPromise w;
  but_disjoint p : promise_waiting w p → p ∉ resolved w;
  but_unique id1 id2 wt1 wt2 : jget id1 (tagWaiters w) = Some wt1 → jget id2 (tagWaiters w) = Some wt2 →
    waiter_promise wt1 = waiter_promise wt2 → id1 = id2;
}.

Lemma inv_but w : store_inv w ↔ store_inv_but (λ _, False) w.
Proof. split; intros []; split; eauto. intros id waiter Hw. by destruct (but_waiters0 id waiter Hw). Qed.

(** Notifying [id] discharges its staleness. *)
Lemma notifySettled_inv_but (stale stale' : string → Prop) w id :
  store_inv_but stale w → (∀ id', stale id' → stale' id' ∨ id' = id) →
  store_inv_but stale' (notifySettled w id).
Proof.
  intros [Hw Hi Hp Hd Hu] Hs. unfold notifySettled.
  destruct (jget id (tagWaiters w)) as [waiter|] eqn:E.
  2: { split; [|done..]. intros id' wt' Hj. destruct (Hw _ _ Hj) as [Hst|?]; [|by right].
       destruct (Hs _ Hst) as [?| ->]; [by left|congruence]. }
  case_bool_decide as Hne.
  - split.
    + intros id' wt'. simpl. rewrite jget_del. case_decide as Hd'; [done|]. intros Hj.
      destruct (Hw _ _ Hj) as [Hst|?]; [|by right]. destruct (Hs _ Hst) as [?| ->]; [by left|done].
    + exact Hi.
    + intros p. simpl. rewrite <- (Hp p), elem_of_app, list_elem_of_singleton. split.
      * intros [(id' & wt' & Hj & <-)|[?| ->]]; [|by right|left; by exists id, waiter].
        simpl in Hj. rewrite jget_del in Hj. case_decide; [done|]. left. by exists id', wt'.
      * intros [(id' & wt' & Hj & <-)|?]; [|by right; left].
        destruct (decide (id = id')) as [<-|]; [simplify_eq; by right; right|].
        left. exists id', wt'. simpl. by rewrite jget_del, decide_False.
    + intros p (id' & wt' & Hj & <-). simpl in *. rewrite jget_del in Hj. case_decide as Hn; [done|].
      rewrite elem_of_app, list_elem_of_singleton. intros [Hr|Hr].
      * eapply Hd; [|exact Hr]. by exists id', wt'.
      * apply Hn. symmetry. by eapply Hu.
    + intros id1 id2 wt1 wt2. simpl. rewrite !jget_del. repeat case_decide; try done. apply Hu.
  - split; [|done..]. intros id' wt' Hj.
    destruct (Hw _ _ Hj) as [Hst|?]; [|by right]. destruct (Hs _ Hst) as [?| ->]; [by left|].
    simplify_eq. right. by left.
Qed.

Lemma notifySettled_inv w id : store_inv_but (λ id', id' = id) w → store_inv (notifySettled w id).
Proof. intros Hi. apply inv_but. eapply notifySettled_inv_but; [exact Hi|]. by right. Qed.

(** A change of the lifecycle maps that keeps the identities makes stale only the UUIDs whose phase it changes. *)
Lemma with_maps_inv_but (stale : string → Prop) f w :
  store_inv w → latestFinalizedSessionIdentities (f (maps w)) = latestFinalizedSessionIdentities (maps w) →
  (∀ id, stale id ∨ tagNow (with_maps f w) id = tagNow w id) →
  store_inv_but stale (with_maps f w).
Proof.
  intros [Hw Hi Hp Hd Hu] Hid Ht. split; [| |done..].
  - intros id waiter Hj. destruct (Ht id) as [?|Htag]; [by left|]. right.
    destruct (Hw _ _ Hj) as [E|(ref & ? & ?)]; [left; congruence|]. right. exists ref. simpl. by rewrite Hid.
  - intros id ref. simpl. rewrite Hid. apply Hi.
Qed.

(** The phase of a UUID is read at that UUID only. *)
Record same_reads (x y : LifecycleMaps) id : Prop := {
  same_assignment : jhas id (pendingSessionAssignments x) = jhas id (pendingSessionAssignments y);
  same_creation : jhas id (pendingSessionCreations x) = jhas id (pendingSessionCreations y);
  same_rebind : jhas id (pendingSessionRebinds x) = jhas id (pendingSessionRebinds y);
  same_op : jget id (releasePromises x) = jget id (releasePromises y);
  same_snapshot : jhas id (terminalReleaseSnapshots x) = jhas id (terminalReleaseSnapshots y);
  same_intent : jhas id (recoveredTerminalReleaseIntents x) = jhas id (recoveredTerminalReleaseIntents y);
  same_identity : jget id (latestFinalizedSessionIdentities x) = jget id (latestFinalizedSessionIdentities y);
}.

Lemma tagNow_local w w' id :
  same_reads (maps w') (maps w) id → releasingSessions (maps w') = releasingSessions (maps w) →
  jget id (managerSessions w') = jget id (managerSessions w) →
  (∀ ref, jget id (latestFinalizedSessionIdentities (maps w)) = Some ref → weakRefs w' !! ref = weakRefs w !! ref) →
  tagNow w' id = tagNow w id.
Proof.
  intros [Ha Hc Hr Ho Hs Hi Hd] Hrel Hses Href. unfold tagNow, deriveSlotTag, derivePublishedSlotTag, viewOf, keysOnly; cbn.
  rewrite (jhas_get id ((λ e, (e.1, op_fields e.2)) <$> releasePromises (maps w'))).
  rewrite (jhas_get id ((λ e, (e.1, op_fields e.2)) <$> releasePromises (maps w))).
  rewrite !(jhas_fmap (λ _, ())), !(jget_fmap op_fields), (jget_fmap (λ ref : nat, weakRefs w' !! ref)), (jget_fmap (λ ref : nat, weakRefs w !! ref)), Ha, Hc, Hr, Ho, Hs, Hi, Hd, Hrel, Hses.
  destruct (jget id (latestFinalizedSessionIdentities (maps w))) as [ref|] eqn:E; [|done].
  simpl. by rewrite (Href ref).
Qed.

(** Setting or deleting the entry of [id] in one map changes the phase of no other UUID. *)
Lemma on_map_inv f w id :
  store_inv w → latestFinalizedSessionIdentities (f (maps w)) = latestFinalizedSessionIdentities (maps w) →
  releasingSessions (f (maps w)) = releasingSessions (maps w) →
  (∀ id', id' ≠ id → same_reads (f (maps w)) (maps w) id') →
  store_inv (notifySettled (with_maps f w) id).
Proof.
  intros Hw Hid Hrel Hs. apply notifySettled_inv, with_maps_inv_but; [done..|].
  intros id'. destruct (decide (id' = id)) as [?|Hne]; [by left|right].
  apply tagNow_local; simpl; auto.
Qed.

Ltac solve_reads := intros ? ?; split; simpl;
  rewrite ?jhas_set_ne, ?jhas_del_ne, ?jget_set, ?jget_del, ?decide_False by done; done.

Lemma notifyReleasingChanged_inv w :
  store_inv_but (λ _, True) w → store_inv (notifyReleasingChanged w).
Proof.
  intros Hw. unfold notifyReleasingChanged.
  assert (∀ ids w, store_inv_but (λ id, id ∈ ids) w → store_inv (foldl notifySettled w ids)) as Hids.
  { clear. induction ids as [|id ids IH]; intros w Hw; simpl.
    - apply inv_but. destruct Hw as [Hw ????]. split; try done. intros id wt Hj.
      destruct (Hw _ _ Hj) as [?%elem_of_nil|]; [done|by right].
    - apply IH. eapply notifySettled_inv_but; [exact Hw|]. intros id' [->|?]%elem_of_cons; [by right|by left]. }
  apply Hids. destruct Hw as [Hw ????]. split; try done. intros id wt Hj. left. by eapply jget_in_keys.
Qed.

Lemma releasing_inv f w :
  store_inv w → store_inv (notifyReleasingChanged (with_maps (on_releasing f) w)).
Proof.
  intros Hw. apply notifyReleasingChanged_inv, with_maps_inv_but; [done..|]. by left.
Qed.

Lemma settled_inv w id : store_inv w → store_inv (settled w id).2.
Proof.
  intros Hall. pose proof Hall as [Hw Hi Hp Hd Hu]. unfold settled. destruct (jget id (tagWaiters w)) eqn:E; [done|].
  assert (∀ id wt, jget id (tagWaiters w) = Some wt → waiter_promise wt < nextPromise w) as Hlt.
  { intros id' wt Hj. apply Hp. left. by exists id', wt. }
  split; cbn [tagWaiters maps nextPromise resolved snd].
  - intros id' wt. rewrite jget_set. case_decide as Hd'; [|apply Hw]. intros [= <-]. subst. by left.
  - exact Hi.
  - intros p. rewrite Nat.lt_succ_r, Nat.le_lteq, <- Hp. unfold promise_waiting; simpl. split.
    + intros [(id' & wt & Hj & <-)|?]; [|by left; right]. rewrite jget_set in Hj.
      case_decide; simplify_eq/=; [by right|]. left; left. by exists id', wt.
    + intros [[(id' & wt & Hj & <-)|?]| ->]; [|by right|].
      * left. exists id', wt. rewrite jget_set, decide_False by congruence. done.
      * left. exists id, (mkWaiter (tagNow w id) (nextPromise w)). by rewrite jget_set, decide_True.
  - intros p (id' & wt & Hj & <-). simpl in Hj. rewrite jget_set in Hj. case_decide; simplify_eq/=.
    + intros Hr. assert (nextPromise w < nextPromise w); [|lia]. apply Hp. by right.
    + apply Hd. by exists id', wt.
  - intros id1 id2 wt1 wt2. rewrite !jget_set. repeat case_decide; intros J1 J2 Heq; simplify_eq/=; try done.
    + apply Hlt in J2. lia.
    + apply Hlt in J1. lia.
    + by eapply Hu.
Qed.

Lemma delete_identity_inv w id : store_inv w → store_inv (notifySettled (with_maps (on_identities (jdel id)) w) id).
Proof.
  intros [Hw Hi Hp Hd Hu]. apply notifySettled_inv. split; [| |done..].
  - intros id' wt Hj. destruct (decide (id' = id)) as [?|Hne]; [by left|right].
    destruct (Hw _ _ Hj) as [E|(ref & Hr & ?)].
    + left. rewrite <- E. apply tagNow_local; [|done..]. split; simpl; try done. by rewrite jget_del, decide_False.
    + right. exists ref. simpl. by rewrite jget_del, decide_False.
  - intros id' ref. simpl. rewrite jget_del. case_decide; [done|]. apply Hi.
Qed.

Lemma recordFinalizedIdentity_inv w session : store_inv w → store_inv (recordFinalizedIdentity w session).
Proof.
  intros Hall. pose proof Hall as [Hw Hi Hp Hd Hu]. unfold recordFinalizedIdentity. case_bool_decide; [done|].
  set (sid := sessionId session). set (w1 := mkStore _ _ _ _ (<[_:=_]> _) _ _ _ _ _).
  set (w2 := with_maps (on_identities (jset sid (nextRef w))) w1).
  set (add := λ w, mkStore (maps w) (side w) (tagWaiters w) (managerSessions w) (weakRefs w) (nextRef w)
    (registry w ++ [(session, (sid, nextRef w1 - 1))]) (cleanups w) (nextPromise w) (resolved w)).
  assert (store_inv (notifySettled (add w2) sid)) as Hadd.
  { apply notifySettled_inv. split; simpl; [| |done..].
    - intros id wt Hj. destruct (decide (id = sid)) as [?|Hne]; [by left|right].
      assert (∀ ref, jget id (latestFinalizedSessionIdentities (maps w)) = Some ref → ref ≠ nextRef w) as Hfresh.
      { intros ref Hr. destruct (Hi _ _ Hr). lia. }
      destruct (Hw _ _ Hj) as [E|(ref & Hr & Hdead & ?)].
      + left. rewrite <- E. apply tagNow_local; simpl; try done.
        * split; simpl; try done. by rewrite jget_set, decide_False.
        * intros ref Hr. by rewrite lookup_insert_ne by (apply not_eq_sym; eauto).
      + right. exists ref. simpl. rewrite jget_set, decide_False, lookup_insert_ne by (done || apply not_eq_sym; eauto). done.
    - intros id ref. rewrite jget_set. case_decide as Hd'.
      + intros [= <-]. subst id. split; [simpl; lia|]. left. exists session. simpl. split; [apply lookup_insert_eq|].
        rewrite elem_of_app. right. apply list_elem_of_singleton. rewrite Nat.sub_0_r. done.
      + intros Hr. destruct (Hi _ _ Hr) as [Hlt Hreg]. split; [simpl; lia|]. simpl.
        rewrite lookup_insert_ne by lia. destruct Hreg as [(s & ? & ?)|[? ?]]; [|by right].
        left. exists s. split; [done|]. apply elem_of_app. by left. }
  replace (mkStore _ _ _ _ _ _ _ _ _ _) with (notifySettled (add w2) sid); [done|].
  unfold notifySettled, add. change (tagNow (mkStore _ _ _ _ _ _ _ _ _ _) sid) with (tagNow w2 sid).
  cbn [tagWaiters nextRef w1 w2 with_maps]. destruct (jget sid (tagWaiters w)); [case_bool_decide|]; simpl; rewrite ?Nat.sub_0_r; done.
Qed.

Lemma sessions_inv w w' id :
  store_inv w → maps w' = maps w → weakRefs w' = weakRefs w → nextRef w' = nextRef w → registry w' = registry w →
  cleanups w' = cleanups w → tagWaiters w' = tagWaiters w → nextPromise w' = nextPromise w → resolved w' = resolved w →
  (∀ id', id' ≠ id → jget id' (managerSessions w') = jget id' (managerSessions w)) →
  store_inv (notifySettled w' id).
Proof.
  intros [Hw Hi Hp Hd Hu] Hm Hr Hn Hreg Hc Ht Hnp Hres Hs. apply notifySettled_inv.
  split; unfold promise_waiting, identity_registered; rewrite ?Hm, ?Hr, ?Hn, ?Hreg, ?Hc, ?Ht, ?Hnp, ?Hres; try done.
  intros id' wt Hj. destruct (decide (id' = id)) as [?|Hne]; [by left|right].
  destruct (Hw _ _ Hj) as [E|(ref & ? & ? & ?)].
  - left. rewrite <- E. apply tagNow_local; rewrite ?Hm, ?Hr; auto. by split.
  - right. exists ref. by rewrite Hm, Hr, Hc.
Qed.

Lemma collect_inv w session : store_inv w → store_inv (collect w session).
Proof.
  intros [Hw Hi Hp Hd Hu].
  assert (∀ id ref, identity_registered w id ref → identity_registered (collect w session) id ref) as Hreg.
  { intros id ref [Hlt Hcase]. split; [done|]. simpl. destruct Hcase as [(s & Hs & Hin)|[Hs Hin]].
    - destruct (decide (s = session)) as [->|Hne].
      + right. split; [apply map_lookup_filter_None; right; simpl; naive_solver|]. apply elem_of_app. right.
        apply list_elem_of_fmap. exists (session, (id, ref)). split; [done|]. by apply list_elem_of_filter.
      + left. exists s. split; [by apply map_lookup_filter_Some|]. by apply list_elem_of_filter.
    - right. split; [apply map_lookup_filter_None; by left|]. apply elem_of_app. by left. }
  split; simpl; [|intros; apply Hreg; auto|done..].
  intros id wt Hj. destruct (Hw _ _ Hj) as [E|(ref & ? & ? & ?)].
  2: { right. exists ref. split; [done|]. split; [apply map_lookup_filter_None; by left|]. apply elem_of_app. by left. }
  destruct (jget id (latestFinalizedSessionIdentities (maps w))) as [ref|] eqn:Er.
  - destruct (Hreg _ _ (Hi _ _ Er)) as [_ [(s & Hs & _)|[Hdead Hin]]]; [|right; by exists ref].
    left. unfold waiter_current in *. rewrite <- E. apply tagNow_local; [by split|done..|].
    intros ref' Hr'. simplify_eq. rewrite Hs. symmetry. by apply map_lookup_filter_Some in Hs as [? _].
  - left. rewrite <- E. apply tagNow_local; [by split|done..|]. intros ref' Hr'. by rewrite Er in Hr'.
Qed.

Lemma runCleanup_inv w held : store_inv w → store_inv (runCleanup w held).
Proof.
  intros [Hw Hi Hp Hd Hu]. destruct held as [sid identity]. unfold runCleanup, cleanup; cbn [maps].
  case_bool_decide as Hcur.
  - apply notifySettled_inv. split; simpl; [| |done..].
    + intros id wt Hj. destruct (decide (id = sid)) as [?|Hne]; [by left|right].
      destruct (Hw _ _ Hj) as [E|(ref & Hr & ? & ?)].
      * left. rewrite <- E. apply tagNow_local; [|done..]. split; simpl; try done. by rewrite jget_del, decide_False.
      * right. exists ref. simpl. rewrite jget_del, decide_False by done. split_and!; [done..|].
        apply elem_of_sdel. split; [congruence|done].
    + intros id ref. rewrite jget_del. case_decide; [done|]. intros Hr. destruct (Hi _ _ Hr) as [? [Hl|[? ?]]]; split; simpl; auto.
      right. split; [done|]. apply elem_of_sdel. split; [congruence|done].
  - assert (∀ id ref, jget id (latestFinalizedSessionIdentities (maps w)) = Some ref → (id, ref) ≠ (sid, identity)) as Hne
      by (intros id ref Hr [= -> ->]; done).
    split; simpl; [| |done..].
    + intros id wt Hj. destruct (Hw _ _ Hj) as [E|(ref & Hr & ? & ?)].
      * left. rewrite <- E. by apply tagNow_local; [split|..].
      * right. exists ref. simpl. split_and!; [done..|]. apply elem_of_sdel. split; [by apply Hne|done].
    + intros id ref Hr. destruct (Hi _ _ Hr) as [? [Hl|[? ?]]]; split; simpl; auto.
      right. split; [done|]. apply elem_of_sdel. split; [by apply Hne|done].
Qed.

Lemma store_step_inv w w' : store_step w w' → store_inv w → store_inv w'.
Proof.
  intros [] Hw; simpl; try (apply on_map_inv; [done..|by solve_reads]).
  - by apply settled_inv.
  - by apply recordFinalizedIdentity_inv.
  - by apply delete_identity_inv.
  - by apply releasing_inv.
  - by apply releasing_inv.
  - destruct Hw as [Hw Hi Hp Hd Hu]. split; simpl; done.
  - eapply sessions_inv; [done..|]. intros id' ?. simpl. by rewrite jget_set, decide_False.
  - eapply sessions_inv; [done..|]. intros id' ?. simpl. by rewrite jget_del, decide_False.
  - by apply collect_inv.
  - by apply runCleanup_inv.
Qed.

Lemma emptyStore_inv : store_inv emptyStore.
Proof.
  split; try done.
  - intros p. split; [|simpl; lia]. intros [(id & wt & Hj & _)|?%elem_of_nil]; done.
  - by intros p _ ?%elem_of_nil.
Qed.

Lemma store_reachable_inv w : store_reachable w → store_inv w.
Proof.
  intros H'. unfold store_reachable in H'. remember emptyStore as w0 eqn:E.
  assert (store_inv w0) as Hi by (subst; apply emptyStore_inv). clear E.
  induction H' as [|w1 w2 w3 Hs _ IH]; [done|]. by apply IH, (store_step_inv w1).
Qed.

(** ** Genuine wake-ups *)

(** A promise resolved by an operation belongs to a waiter whose phase changed. *)
Definition woken w w' (p : nat) : Prop :=
  ∃ id waiter, jget id (tagWaiters w) = Some waiter ∧ waiter_promise waiter = p ∧ tagNow w' id ≠ waiter_tag waiter.

Lemma notifySettled_woken w id p :
  p ∉ resolved w → p ∈ resolved (notifySettled w id) →
  ∃ waiter, jget id (tagWaiters w) = Some waiter ∧ waiter_promise waiter = p ∧ tagNow w id ≠ waiter_tag waiter.
Proof.
  unfold notifySettled. repeat case_match; try done. case_bool_decide; [|done]. simpl.
  intros Hn [?| ->%list_elem_of_singleton]%elem_of_app; [done|]. eauto.
Qed.

Lemma notify_all_woken ids w p :
  p ∉ resolved w → p ∈ resolved (foldl notifySettled w ids) →
  ∃ id waiter, jget id (tagWaiters w) = Some waiter ∧ waiter_promise waiter = p ∧ tagNow w id ≠ waiter_tag waiter.
Proof.
  revert w. induction ids as [|id ids IH]; intros w Hn Hr; [done|]. simpl in Hr.
  destruct (decide (p ∈ resolved (notifySettled w id))) as [Hin|Hnin].
  - destruct (notifySettled_woken _ _ _ Hn Hin) as (wt & ? & ? & ?). by exists id, wt.
  - destruct (IH _ Hnin Hr) as (id' & wt & Hj & ? & Ht). rewrite tagNow_notifySettled in Ht.
    exists id', wt. split_and!; [|done..]. unfold notifySettled in Hj.
    destruct (jget id (tagWaiters w)) eqn:E; [|done]. case_bool_decide; [|done]. simpl in Hj.
    rewrite jget_del in Hj. by case_decide.
Qed.

Lemma tagNow_notify_all ids w id : tagNow (foldl notifySettled w ids) id = tagNow w id.
Proof. revert w. induction ids as [|i ids IH]; intros w; [done|]. simpl. by rewrite IH, tagNow_notifySettled. Qed.
End Runs.

(** ** Properties *)

(** C6. No wake-up is lost: whatever operations, publications and collections have happened,
    a waiter still pending waits for a UUID whose phase is the one it recorded, or whose
    finalized identity was just collected with its callback queued; every promise
    handed out is either pending or resolved, never both. *)
Theorem no_lost_wakeup `{SlotTypes} (w : Store) :
  store_reachable w →
  (∀ id waiter, jget id (tagWaiters w) = Some waiter →
     tagNow w id = waiter_tag waiter ∨ collection_pending w id) ∧
  (∀ p, p < nextPromise w ↔ promise_waiting w p ∨ p ∈ resolved w) ∧
  (∀ p, promise_waiting w p → p ∉ resolved w).
Proof.
  intros [Hw _ Hp Hd _]%store_reachable_inv. split_and!; [exact Hw| |exact Hd].
  intros p. symmetry. apply Hp.
Qed.

(** Wake-ups are genuine: an operation resolves the promise of a waiter only when the phase of
    that waiter's UUID is, after the operation, different from the phase recorded when the
    waiter was created. *)
Theorem wakeups_are_genuine `{SlotTypes} (w w' : Store) (p : nat) :
  store_step w w' → p ∉ resolved w → p ∈ resolved w' → woken w w' p.
Proof.
  assert (∀ w1 id, tagWaiters w1 = tagWaiters w → resolved w1 = resolved w → p ∉ resolved w →
    p ∈ resolved (notifySettled w1 id) → woken w (notifySettled w1 id) p) as Hone.
  { intros w1 id Ht Hr Hn Hin. rewrite <- Hr in Hn.
    destruct (notifySettled_woken _ _ _ Hn Hin) as (wt & Hj & ? & ?).
    exists id, wt. by rewrite <- Ht, tagNow_notifySettled. }
  assert (∀ w1, tagWaiters w1 = tagWaiters w → resolved w1 = resolved w → p ∉ resolved w →
    p ∈ resolved (notifyReleasingChanged w1) → woken w (notifyReleasingChanged w1) p) as Hall.
  { intros w1 Ht Hr Hn Hin. rewrite <- Hr in Hn. unfold notifyReleasingChanged in *.
    destruct (notify_all_woken _ _ _ Hn Hin) as (id & wt & Hj & ? & ?).
    exists id, wt. by rewrite <- Ht, tagNow_notify_all. }
  destruct 1; simpl; intros Hn Hin; try (by apply Hone); try (by apply Hall); try done.
  - unfold settled in Hin. by destruct (jget id (tagWaiters w)).
  - unfold recordFinalizedIdentity in *. case_bool_decide; [done|]. simpl in Hin.
    match type of Hin with p ∈ resolved (notifySettled ?w1 _) =>
      destruct (Hone w1 (sessionId session) eq_refl eq_refl Hn Hin) as (id & wt & ? & ? & ?) end.
    by exists id, wt.
  - destruct held as [sid identity]. unfold runCleanup, cleanup in *. case_bool_decide; [|done]. by apply Hone.
Qed.

(** ** A concrete run *)

#[local] Instance demoTypes : SlotTypes := {
  tA := (); tSh := (); tC := (); tR := nat; tRel := (); tReb := (); tCleanup := nat; tOp := nat;
  tSnapshot := (); tS := DemoSession; tTerminalSnapshot := (); tReason := (); tReservation := (); tIntent := ();
  tS_session := DemoSession_type; tR_eq := _; tCleanup_eq := _; tOp_eq := _;
  op_fields n := mkReleaseOp (n, "u"%string) false false;
}.

(** A caller waits on a UUID being created; the creation ends and a session is published. *)
Definition demoWaiting : Store := (settled (setCreation emptyStore "u" ()) "u").2.
Definition demoPublished : Store := publishSession demoWaiting "u" (1, "u"%string).

Example demo_published_resolves :
  (resolved demoPublished, tagNow demoWaiting "u", tagNow demoPublished "u") = ([0], creating, live).
Proof. vm_compute. reflexivity. Qed.

(** A second caller waits for the finalized identity, which the collector then takes. *)
Example demo_collected :
  let w := (settled (recordFinalizedIdentity emptyStore (1, "u"%string)) "u").2 in
  let w1 := collect w (1, "u"%string) in
  let w2 := runCleanup w1 ("u"%string, 0) in
  (tagNow w "u", tagNow w1 "u", resolved w1, resolved w2, cleanups w2) = (ended, absent, [], [0], []).
Proof. vm_compute. reflexivity. Qed.

Lemma no_lost_wakeup_witness :
  tagNow demoWaiting "u" = creating ∧ promise_waiting demoWaiting 0.
Proof.
  assert (store_reachable demoWaiting) as Hr.
  { eapply rtc_l; [apply (@step_setCreation demoTypes emptyStore "u" ())|].
    eapply rtc_l; [apply (@step_settled demoTypes _ "u")|]. apply rtc_refl. }
  destruct (no_lost_wakeup demoWaiting Hr) as (Hw & Hp & _). split.
  - destruct (Hw "u"%string (mkWaiter creating 0)) as [Ht|(ref & Href & _)]; [by vm_compute|exact Ht|].
    vm_compute in Href. discriminate.
  - destruct (proj1 (Hp 0)) as [?|Hin]; [vm_compute; lia|done|]. by apply elem_of_nil in Hin.
Defined.

Lemma wakeups_are_genuine_witness : woken demoWaiting demoPublished 0.
Proof.
  apply wakeups_are_genuine.
  - apply step_publish.
  - intros Hin. by apply elem_of_nil in Hin.
  - vm_compute. by left.
Defined.
