(* ===== verification/DeviceHold.v ===== *)
(** * Device holds

    [src/src/daemon/deviceHold.ts]: why a pooled device is held, as a list of
    independent reasons, and the five policies that read it. *)
From stdpp Require Import strings.
From S2P Require Import Prelude JsString.

(** ** Facts and reasons *)

Inductive PoolDeviceStatus := idle | busy | error.
#[export] Instance PoolDeviceStatus_eq_dec : EqDecision PoolDeviceStatus.
Proof. solve_decision. Defined.

(** An omitted boolean is false; [sessionId] is [None] for [null] and omitted; a
    symbol is a number. *)
Record DeviceHoldFacts := mkFacts {
  status : PoolDeviceStatus;
  sessionId : option string;
  brokerBinding : bool;
  foreignDaemon : bool;
  readinessById : bool;
  readinessByName : bool;
  recoveryHandoff : bool;
  shutdown : bool;
  rehydrationHolder : option string;
  healthMarker : bool;
  transportAliasUnassignable : bool;
  stableIdentityMissing : bool;
  identityUnresolved : bool;
  identityReconcileOwner : option nat;
  adbServerResetSessionId : option string;
  adbStartupLease : bool;
  recoveringSerial : bool;
  recoveringName : bool;
  recoveringStableId : bool;
  recoveringSessionLoss : bool;
  mcpSessionRecoveryLease : bool;
  lifecycleStableReservation : bool;
  lifecycleSelectorReservation : bool;
  deferredRelease : bool;
  cleanupInProgress : bool;
  assignmentMutexLocked : bool;
  sessionForDevice : option string;
}.

Inductive ReadinessKey := ById | ByName.
Inductive RecoverySource :=
| handoff | serial | name | stable_id | session_loss | mcp_session | lifecycle_stable | lifecycle_selector.
Inductive BoundSource := pooled | reverse_map.
Inductive IdentitySource := missing | unresolved.
Inductive CleanupSource := pending | deferred.

Inductive HoldReason :=
| Free
| BrokerBinding
| ForeignDaemon
| Readiness (key : ReadinessKey)
| Recovery (source : RecoverySource)
| Shutdown
| Rehydration (holder : string)
| ErrorStatus
| BusyStatus
| Bound (holder : string) (source : BoundSource)
| Health
| TransportAlias
| Identity (source : IdentitySource) (holder : option nat)
| AdbReset (holder : option string)
| Cleanup (source : CleanupSource)
| Assignment.

Definition when (b : bool) (r : HoldReason) : option HoldReason := if b then Some r else None.

(** [facts.x && reason(facts.x)] for an optional string or symbol. *)
Definition whenString (o : option string) (r : string → HoldReason) : option HoldReason :=
  match o with Some s => when (truthy s) (r s) | None => None end.
Definition whenDefined {A} (o : option A) (r : A → HoldReason) : option HoldReason := r <$> o.

Definition HOLD_REASONS : list (DeviceHoldFacts → option HoldReason) :=
  [λ f, when (brokerBinding f) BrokerBinding;
   λ f, when (foreignDaemon f) ForeignDaemon;
   λ f, when (readinessById f) (Readiness ById);
   λ f, when (readinessByName f) (Readiness ByName);
   λ f, when (recoveryHandoff f) (Recovery handoff);
   λ f, when (shutdown f) Shutdown;
   λ f, whenDefined (rehydrationHolder f) Rehydration;
   λ f, when (bool_decide (status f = error)) ErrorStatus;
   λ f, when (bool_decide (status f = busy)) BusyStatus;
   λ f, whenString (sessionId f) (λ s, Bound s pooled);
   λ f, whenDefined (sessionForDevice f) (λ s, Bound s reverse_map);
   λ f, when (healthMarker f) Health;
   λ f, when (transportAliasUnassignable f) TransportAlias;
   λ f, when (stableIdentityMissing f) (Identity missing None);
   λ f, when (identityUnresolved f) (Identity unresolved None);
   λ f, whenDefined (identityReconcileOwner f) (λ o, Identity unresolved (Some o));
   λ f, whenString (adbServerResetSessionId f) (λ s, AdbReset (Some s));
   λ f, when (adbStartupLease f) (AdbReset None);
   λ f, when (cleanupInProgress f) (Cleanup pending);
   λ f, when (deferredRelease f) (Cleanup deferred);
   λ f, when (assignmentMutexLocked f) Assignment;
   λ f, when (recoveringSerial f) (Recovery serial);
   λ f, when (recoveringName f) (Recovery name);
   λ f, when (recoveringStableId f) (Recovery stable_id);
   λ f, when (recoveringSessionLoss f) (Recovery session_loss);
   λ f, when (mcpSessionRecoveryLease f) (Recovery mcp_session);
   λ f, when (lifecycleStableReservation f) (Recovery lifecycle_stable);
   λ f, when (lifecycleSelectorReservation f) (Recovery lifecycle_selector)].

(** The primary reason, the status and every reason. *)
Record DeviceHold := mkHold { primary : HoldReason; hold_status : PoolDeviceStatus; reasons : list HoldReason }.

Definition activeReasons (f : DeviceHoldFacts) : list HoldReason := omap (λ read, read f) HOLD_REASONS.

Definition deviceHold (f : DeviceHoldFacts) : DeviceHold :=
  let reasons := activeReasons f in
  let primary := default Free (head reasons) in
  mkHold primary (status f) (match reasons with [] => [primary] | _ => reasons end).

(** ** Policies *)

Definition holdAllowsObservationServiceStart (hold : DeviceHold) : bool :=
  forallb (λ r, match r with
    | Free | BrokerBinding | ForeignDaemon | TransportAlias => true
    | ErrorStatus | BusyStatus | Bound _ _ => false
    | Readiness _ | Recovery _ | Shutdown | Rehydration _ | Health | Identity _ _ | AdbReset _
    | Cleanup _ | Assignment => false
    end) (reasons hold).

Inductive GenericAvailability := free | session_broker | foreign_daemon | reserved.
#[export] Instance GenericAvailability_eq_dec : EqDecision GenericAvailability.
Proof. solve_decision. Defined.

Definition availabilityOfReason (r : HoldReason) : GenericAvailability :=
  match r with
  | Free | ErrorStatus | BusyStatus | Bound _ _ | Health | TransportAlias | Identity _ _ | AdbReset _
  | Cleanup _ | Assignment => free
  | BrokerBinding => session_broker
  | ForeignDaemon => foreign_daemon
  | Readiness _ | Shutdown | Rehydration _ => reserved
  | Recovery source => match source with handoff => reserved | _ => free end
  end.

Definition genericAvailabilityOf (hold : DeviceHold) : GenericAvailability :=
  default free (snd <$> list_find (λ v, v ≠ free) (availabilityOfReason <$> reasons hold)).

Inductive PoolStatusBucket := bucket_idle | bucket_assigned | bucket_error.
#[export] Instance PoolStatusBucket_eq_dec : EqDecision PoolStatusBucket.
Proof. solve_decision. Defined.

Definition classifyPoolStatus (status : PoolDeviceStatus) (unlendable : bool) : PoolStatusBucket :=
  if bool_decide (status = error) then bucket_error
  else if bool_decide (status = busy) || unlendable then bucket_assigned else bucket_idle.

Definition poolBucketOf (hold : DeviceHold) : PoolStatusBucket :=
  let unlendable := existsb (λ r, match r with
    | BrokerBinding | ForeignDaemon | Readiness _ | Shutdown | Rehydration _ | Health | TransportAlias => true
    | Recovery source => match source with handoff => true | _ => false end
    | Free | ErrorStatus | BusyStatus | Bound _ _ | Identity _ _ | AdbReset _ | Cleanup _ | Assignment => false
    end) (reasons hold) in
  classifyPoolStatus (hold_status hold) unlendable.

Definition holdAllowsHealthRecovery (hold : DeviceHold) : bool :=
  forallb (λ r, match r with
    | ErrorStatus | BusyStatus => false
    | Bound _ source => match source with pooled => false | reverse_map => true end
    | Cleanup source => match source with pending => false | deferred => true end
    | Free => true
    | BrokerBinding | ForeignDaemon | Readiness _ | Recovery _ | Shutdown | Rehydration _ | Health
    | TransportAlias | Identity _ _ | AdbReset _ | Assignment => true
    end) (reasons hold).

Definition holdBlocksAssignment (hold : DeviceHold) : bool :=
  existsb (λ r, match r with
    | Readiness _ | Shutdown | Rehydration _ => true
    | Recovery source => match source with handoff => true | _ => false end
    | Free => false
    | BrokerBinding | ForeignDaemon | ErrorStatus | BusyStatus | Bound _ _ | Health | TransportAlias
    | Identity _ _ | AdbReset _ | Cleanup _ | Assignment => false
    end) (reasons hold).

(** ** The policies as conditions on the facts *)

Definition isSome {A} (o : option A) : bool := match o with Some _ => true | None => false end.

(** A device reserved for someone in particular. *)
Definition reservedFact (f : DeviceHoldFacts) : bool :=
  readinessById f || readinessByName f || recoveryHandoff f || shutdown f || isSome (rehydrationHolder f).

Definition observationFence (f : DeviceHoldFacts) : bool :=
  reservedFact f || bool_decide (status f = error) || bool_decide (status f = busy) ||
  truthy_opt (sessionId f) || isSome (sessionForDevice f) || healthMarker f || stableIdentityMissing f ||
  identityUnresolved f || isSome (identityReconcileOwner f) || truthy_opt (adbServerResetSessionId f) ||
  adbStartupLease f || cleanupInProgress f || deferredRelease f || assignmentMutexLocked f ||
  recoveringSerial f || recoveringName f || recoveringStableId f || recoveringSessionLoss f ||
  mcpSessionRecoveryLease f || lifecycleStableReservation f || lifecycleSelectorReservation f.

(** Reading a policy off the reasons is reading it off the facts. *)
Lemma when_exists b r (p : HoldReason → bool) : match when b r with Some x => p x | None => false end = b && p r.
Proof. by destruct b. Qed.
Lemma whenString_exists o r (p : HoldReason → bool) (c : bool) :
  (∀ s, p (r s) = c) → match whenString o r with Some x => p x | None => false end = truthy_opt o && c.
Proof. intros H. destruct o as [s|]; [|done]. simpl. rewrite when_exists, H. done. Qed.
Lemma whenDefined_exists {A} (o : option A) r (p : HoldReason → bool) (c : bool) :
  (∀ s, p (r s) = c) → match whenDefined o r with Some x => p x | None => false end = isSome o && c.
Proof. intros H. destruct o as [s|]; [|done]. simpl. by rewrite H. Qed.

Lemma existsb_omap {A B} (p : B → bool) (g : A → option B) l :
  existsb p (omap g l) = existsb (λ x, match g x with Some y => p y | None => false end) l.
Proof.
  induction l as [|x l IH]; [done|].
  change (omap g (x :: l)) with (match g x with Some y => y :: omap g l | None => omap g l end).
  cbn [existsb]. rewrite <- IH. by destruct (g x).
Qed.

Lemma reasons_existsb f p : p Free = false →
  existsb p (reasons (deviceHold f)) = existsb (λ read, match read f with Some r => p r | None => false end) HOLD_REASONS.
Proof.
  intros Hp.
  assert (∀ l, existsb p (match l with [] => [default Free (head l)] | _ => l end) = existsb p l) as Hl
    by (intros [|r l]; [by cbn; rewrite Hp|done]).
  exact (eq_trans (Hl (activeReasons f)) (existsb_omap p (λ read, read f) HOLD_REASONS)).
Qed.
Lemma reasons_forallb f p : p Free = true →
  forallb p (reasons (deviceHold f)) = negb (existsb (negb ∘ p) (reasons (deviceHold f))).
Proof. intros _. induction (reasons _) as [|r l IH]; [done|]. simpl. rewrite IH. by destruct (p r). Qed.

Ltac read_policy f :=
  cbn [existsb HOLD_REASONS compose];
  rewrite ?when_exists;
  repeat match goal with
  | |- context [match whenString ?o ?r with Some x => @?p x | None => false end] =>
      first [rewrite (whenString_exists o r p true) by done | rewrite (whenString_exists o r p false) by done]
  | |- context [match whenDefined ?o ?r with Some x => @?p x | None => false end] =>
      first [rewrite (whenDefined_exists o r p true) by done | rewrite (whenDefined_exists o r p false) by done]
  end; cbn [negb]; rewrite ?andb_true_r, ?andb_false_r, ?orb_false_r, ?orb_false_l.

Lemma blocks_facts f : holdBlocksAssignment (deviceHold f) = reservedFact f.
Proof.
  unfold holdBlocksAssignment. rewrite reasons_existsb by done. read_policy f.
  unfold reservedFact. by rewrite <- !orb_assoc.
Qed.

Lemma observation_facts f : holdAllowsObservationServiceStart (deviceHold f) = negb (observationFence f).
Proof.
  unfold holdAllowsObservationServiceStart. rewrite reasons_forallb, reasons_existsb by done. f_equal.
  read_policy f. unfold observationFence, reservedFact. rewrite <- !orb_assoc. done.
Qed.

Lemma pool_facts f :
  poolBucketOf (deviceHold f) =
  classifyPoolStatus (status f)
    (brokerBinding f || foreignDaemon f || reservedFact f || healthMarker f || transportAliasUnassignable f).
Proof.
  unfold poolBucketOf. rewrite reasons_existsb by done. f_equal. read_policy f. unfold reservedFact.
  by rewrite <- !orb_assoc.
Qed.

Lemma health_facts f :
  holdAllowsHealthRecovery (deviceHold f) =
  negb (bool_decide (status f = error) || bool_decide (status f = busy) || truthy_opt (sessionId f) || cleanupInProgress f).
Proof.
  unfold holdAllowsHealthRecovery. rewrite reasons_forallb, reasons_existsb by done. f_equal.
  read_policy f. by rewrite <- !orb_assoc.
Qed.

Lemma when_inv b r x : when b r = Some x → x = r.
Proof. by destruct b; intros [= ->]. Qed.
Lemma whenString_inv o r x : whenString o r = Some x → ∃ s, x = r s.
Proof. destruct o as [s|]; [|done]. intros ->%when_inv. by exists s. Qed.
Lemma whenDefined_inv {A} (o : option A) r x : whenDefined o r = Some x → ∃ s, x = r s.
Proof. destruct o as [s|]; [|done]. intros [= <-]. by exists s. Qed.

(** What a reader that produced a reason produced. *)
Ltac apply_inv Hr :=
  first [apply when_inv in Hr; subst; done | apply whenString_inv in Hr as [? ->]; done
        |apply whenDefined_inv in Hr as [? ->]; done
        |apply when_inv in Hr; done | apply whenString_inv in Hr as [? Hr]; done
        |apply whenDefined_inv in Hr as [? Hr]; done].

(** The first reason that is not free decides the availability. *)
Lemma availability_fold f :
  genericAvailabilityOf (deviceHold f) =
  foldr (λ read acc, match read f with
                     | Some r => if bool_decide (availabilityOfReason r = free) then acc else availabilityOfReason r
                     | None => acc end) free HOLD_REASONS.
Proof.
  assert (∀ l, default free (snd <$> list_find (λ v, v ≠ free)
    (availabilityOfReason <$> match l with [] => [default Free (head l)] | _ => l end)) =
    default free (snd <$> list_find (λ v, v ≠ free) (availabilityOfReason <$> l))) as Hl by (intros [|r l]; done).
  refine (eq_trans (Hl (activeReasons f)) _). unfold activeReasons. generalize HOLD_REASONS. clear Hl.
  induction l as [|read l IH]; [done|].
  change (omap (λ read, read f) (read :: l)) with
    (match read f with Some y => y :: omap (λ read, read f) l | None => omap (λ read, read f) l end).
  cbn [foldr]. rewrite <- IH. destruct (read f) as [r|]; [|done]. rewrite fmap_cons. cbn [list_find].
  case_bool_decide as Hr; [rewrite decide_False by auto|by rewrite decide_True]. by destruct (list_find _ _) as [[]|].
Qed.

Lemma availability_facts f :
  genericAvailabilityOf (deviceHold f) =
  if brokerBinding f then session_broker else if foreignDaemon f then foreign_daemon
  else if reservedFact f then reserved else free.
Proof.
  rewrite availability_fold, <- (take_drop 7 HOLD_REASONS), foldr_app.
  set (step := λ read acc, _). assert (foldr step free (drop 7 HOLD_REASONS) = free) as ->.
  { assert (Forall (λ read, ∀ r, read f = Some r → availabilityOfReason r = free) (drop 7 HOLD_REASONS)) as Hall.
    { cbn [drop HOLD_REASONS]. repeat (apply Forall_cons_2;
        [intros r Hr; apply_inv Hr|]). apply Forall_nil_2. }
    induction Hall as [|read l Hr _ IH]; [done|]. cbn [foldr]. rewrite IH. unfold step.
    destruct (read f) as [r|] eqn:E; [|done]. by rewrite (Hr r eq_refl). }
  unfold reservedFact, step. cbn [foldr take HOLD_REASONS].
  destruct (brokerBinding f); [done|]. destruct (foreignDaemon f); [done|]. destruct (readinessById f); [done|].
  destruct (readinessByName f); [done|]. destruct (recoveryHandoff f); [done|]. destruct (shutdown f); [done|].
  by destruct (rehydrationHolder f).
Qed.

(** ** Properties *)

(** The five policies of a hold are these conditions on the facts: assignment is refused
    exactly for a readiness, handoff, shutdown or rehydration reservation; the advertised
    availability names a broker binding before a foreign daemon before a reservation;
    the pool counts errors first and a held or busy device as assigned; health recovery is refused for an
    error, a busy device, a pooled session or a cleanup; and observation may start only
    when none of the listed fences is up. *)
Theorem hold_policies_of_facts (f : DeviceHoldFacts) :
  holdBlocksAssignment (deviceHold f) = reservedFact f ∧
  genericAvailabilityOf (deviceHold f) =
    (if brokerBinding f then session_broker else if foreignDaemon f then foreign_daemon
     else if reservedFact f then reserved else free) ∧
  poolBucketOf (deviceHold f) =
    (if bool_decide (status f = error) then bucket_error
     else if bool_decide (status f = busy) || (brokerBinding f || foreignDaemon f || reservedFact f ||
               healthMarker f || transportAliasUnassignable f)
     then bucket_assigned else bucket_idle) ∧
  holdAllowsHealthRecovery (deviceHold f) =
    negb (bool_decide (status f = error) || bool_decide (status f = busy) || truthy_opt (sessionId f) || cleanupInProgress f) ∧
  holdAllowsObservationServiceStart (deviceHold f) = negb (observationFence f).
Proof.
  split_and!; [apply blocks_facts|apply availability_facts|apply pool_facts|apply health_facts|apply observation_facts].
Qed.

Lemma activeReasons_not_free f : Free ∉ activeReasons f.
Proof.
  unfold activeReasons. rewrite list_elem_of_omap. intros (read & Hin & Hr).
  unfold HOLD_REASONS in Hin. rewrite !elem_of_cons, elem_of_nil in Hin.
  repeat (destruct Hin as [->|Hin]; [apply_inv Hr|]).
  done.
Qed.

(** The policies never contradict each other: a device whose assignment is refused is not
    advertised as free, not counted idle, and admits no observation service; a device counted idle is
    free to advertise and refuses no assignment; the reasons are never empty, the primary
    one is the first, and a free hold has no other reason. *)
Theorem hold_policies_consistent (f : DeviceHoldFacts) :
  let hold := deviceHold f in
  (holdBlocksAssignment hold = true →
     genericAvailabilityOf hold ≠ free ∧ poolBucketOf hold ≠ bucket_idle ∧ holdAllowsObservationServiceStart hold = false) ∧
  (poolBucketOf hold = bucket_idle → genericAvailabilityOf hold = free ∧ holdBlocksAssignment hold = false) ∧
  head (reasons hold) = Some (primary hold) ∧
  (primary hold = Free ↔ activeReasons f = []) ∧
  (Free ∈ reasons hold → reasons hold = [Free]).
Proof.
  cbv zeta. rewrite blocks_facts, availability_facts, pool_facts, observation_facts. unfold classifyPoolStatus, observationFence.
  split_and!.
  - intros ->. rewrite !orb_true_r. simpl. split_and!; repeat case_match; try done.
  - destruct (brokerBinding f), (foreignDaemon f), (reservedFact f); simpl; rewrite ?orb_true_r; by repeat case_match.
  - unfold deviceHold; cbn [reasons primary]. by destruct (activeReasons f).
  - unfold deviceHold; cbn [primary]. pose proof (activeReasons_not_free f) as Hn.
    destruct (activeReasons f) as [|r l]; [done|]. simpl. split; [|done]. intros ->. by destruct Hn; left.
  - unfold deviceHold; cbn [reasons]. pose proof (activeReasons_not_free f) as Hn.
    destruct (activeReasons f) as [|r l]; [done|]. intros. by destruct Hn.
Qed.

(** A shut-down device with a pooled session, and one with only an alias. *)
Definition demoFacts (down : bool) (session : option string) (alias : bool) : DeviceHoldFacts :=
  mkFacts idle session false false false false false down None false alias false false None None false
    false false false false false false false false false false None.

Example demo_holds :
  (reasons (deviceHold (demoFacts true (Some "s"%string) false)),
   poolBucketOf (deviceHold (demoFacts false None true)),
   primary (deviceHold (demoFacts false None false))) =
  ([Shutdown; Bound "s" pooled], bucket_assigned, Free).
Proof. vm_compute. reflexivity. Qed.
