(* ===== verification/Liveness.v ===== *)
(** * Session liveness

    The steady session clock ([src/src/utils/SteadyWallClock.ts]), the owner
    lease ([src/src/daemon/livenessOwnerLease.ts], with
    [stallForgiveness.ts] and [wire/sessionLivenessWindows.ts]), the claim
    decision ([livenessClaimDecision.ts]) and the execution veto
    ([unsettledExecutionVeto.ts]).  Times are integers, in milliseconds; the
    monotonic clock's fractional reading is a rational number. *)
From Stdlib Require Import QArith Qround Lqa Sorted.
From stdpp Require Import strings gmap.
From S2P Require Import Prelude.
Local Open Scope Z_scope.

(** ** The steady clock *)

Module SteadyClock.
Definition STEADY_WALL_CLOCK_STEP_TOLERANCE_MS : Q := 1000.
Definition WALL_REPORT_ANCHOR_TOLERANCE_MS : Z := 50.

(** [offsetMs] and [leadHighWaterMs] are set together by the first reading. *)
Record SteadyWallClock := mkClock {
  offsetMs : option Q;
  leadHighWaterMs : Q;
  wallReportOffsetMs : option Z;
}.
Definition newClock : SteadyWallClock := mkClock None 0 None.

(** [Math.round] of a rational. *)
Definition math_round (x : Q) : Z := Qfloor (x + (1 # 2)).

(** What the timer reports at a call: the wall clock, and the monotonic clock
    when it has one. *)
Record Reading := mkReading { wall : Z; monotonic : option Q }.

Definition now (monotonicIncludesHostSleep : bool) (c : SteadyWallClock) (r : Reading) : Z * SteadyWallClock :=
  match monotonic r with
  | None => (wall r, c)
  | Some mono =>
      let lead := (inject_Z (wall r) - mono)%Q in
      let '(offset, mark) :=
        match offsetMs c with
        | None => (lead, lead)
        | Some offset =>
            if negb (Qle_bool lead (leadHighWaterMs c)) then
              (if monotonicIncludesHostSleep then offset else (offset + (lead - leadHighWaterMs c))%Q, lead)
            else if negb (Qle_bool (leadHighWaterMs c - STEADY_WALL_CLOCK_STEP_TOLERANCE_MS) lead) then (offset, lead)
            else (offset, leadHighWaterMs c)
        end in
      (math_round (mono + offset), mkClock (Some offset) mark (wallReportOffsetMs c))
  end.

(** [toWall]: the wall clock and [now()] are read again. *)
Definition toWall (monotonicIncludesHostSleep : bool) (c : SteadyWallClock) (r : Reading) (sessionMs : Z) :
    Z * SteadyWallClock :=
  let '(steady, c) := now monotonicIncludesHostSleep c r in
  let offset := wall r - steady in
  let reported :=
    match wallReportOffsetMs c with
    | None => offset
    | Some anchored => if WALL_REPORT_ANCHOR_TOLERANCE_MS <? Z.abs (offset - anchored) then offset else anchored
    end in
  (sessionMs + reported, mkClock (offsetMs c) (leadHighWaterMs c) (Some reported)).

(** The values read by a sequence of calls. *)
Fixpoint nows (sleep : bool) (c : SteadyWallClock) (rs : list Reading) : list Z :=
  match rs with
  | [] => []
  | r :: rs' => let '(t, c') := now sleep c r in t :: nows sleep c' rs'
  end.

(** Readings of one timer whose monotonic clock never decreases. *)
Definition monotone_from (m : Q) (rs : list Reading) : Prop :=
  ∃ ms, monotonic <$> rs = Some <$> ms ∧ Sorted Qle (m :: ms).

Lemma math_round_mono x y : (x <= y)%Q → math_round x ≤ math_round y.
Proof. intros H. unfold math_round. apply Qfloor_resp_le. lra. Qed.

Lemma now_spec sleep c r m :
  monotonic r = Some m →
  ∃ o, (now sleep c r).1 = math_round (m + o) ∧ offsetMs (now sleep c r).2 = Some o ∧
    (∀ o0, offsetMs c = Some o0 → (o0 <= o)%Q ∧ (sleep = true → o = o0)) ∧
    (offsetMs c = None → o = (inject_Z (wall r) - m)%Q).
Proof.
  intros Hm. unfold now. rewrite Hm. destruct (offsetMs c) as [o|] eqn:Ho.
  - destruct (negb (Qle_bool _ (leadHighWaterMs c))) eqn:E1; [|destruct (negb (Qle_bool _ (inject_Z _ - m)%Q))].
    + apply negb_true_iff in E1. rewrite <- not_true_iff_false, Qle_bool_iff in E1. apply Qnot_le_lt in E1.
      destruct sleep; simpl; eexists; split_and!; try done; intros ? [= <-]; split; try done; lra.
    + simpl. eexists. split_and!; [done..| |done]. intros ? [= <-]. split; [lra|done].
    + simpl. eexists. split_and!; [done..| |done]. intros ? [= <-]. split; [lra|done].
  - simpl. eexists. by split_and!.
Qed.

Lemma nows_above sleep rs : ∀ c m o,
  offsetMs c = Some o → monotone_from m rs →
  Sorted Z.le (math_round (m + o) :: nows sleep c rs) ∧
  (sleep = true → Forall2 (λ t r, ∀ m', monotonic r = Some m' → t = math_round (m' + o)) (nows sleep c rs) rs).
Proof.
  induction rs as [|r rs IH]; intros c m o Ho (ms & Hms & Hs); [split; [repeat constructor|constructor]|].
  destruct ms as [|m1 ms]; [done|]. simpl in Hms. injection Hms as Hr Hms.
  destruct (now_spec sleep c r m1 Hr) as (o1 & Ht & Ho1 & Hle & _). destruct (Hle o Ho) as [Hoo Hsl].
  inversion Hs as [|? ? Hs1 Hhd]; subst. inversion Hhd; subst.
  destruct (IH (now sleep c r).2 m1 o1 Ho1) as [Hsorted Hfix]; [by exists ms|].
  simpl. destruct (now sleep c r) as [t c1] eqn:E. simpl in *. subst t. split.
  - constructor; [exact Hsorted|]. constructor. apply math_round_mono. lra.
  - intros ->. constructor; [|by rewrite <- Hsl by done; apply Hfix].
    intros m' Hm'. rewrite Hr in Hm'. simplify_eq. by rewrite Hsl.
Qed.

(** The session clock never goes backwards and ignores wall steps: as long as the monotonic clock
    does not decrease, its readings do not, whatever the wall clock does in between; and on a
    platform whose monotonic clock includes host sleep the readings depend on the
    monotonic clock and the first wall reading only. *)
Theorem steady_clock_monotone (sleep : bool) (m : Q) (rs rs' : list Reading) :
  monotone_from m rs → monotone_from m rs' →
  Sorted Z.le (nows sleep newClock rs) ∧
  (sleep = true → monotonic <$> rs = monotonic <$> rs' → wall <$> head rs = wall <$> head rs' →
   nows sleep newClock rs = nows sleep newClock rs').
Proof.
  assert (∀ rs, monotone_from m rs → rs = [] ∨ ∃ r rs1 m1, rs = r :: rs1 ∧ monotonic r = Some m1 ∧ monotone_from m1 rs1 ∧
    let o := (inject_Z (wall r) - m1)%Q in
    nows sleep newClock rs = math_round (m1 + o) :: nows sleep (now sleep newClock r).2 rs1 ∧
    offsetMs (now sleep newClock r).2 = Some o) as Hfirst.
  { clear. intros [|r rs] ([|m1 ms] & Hms & Hs); [by left|done..|]. right. simpl in Hms. injection Hms as Hr Hms.
    inversion Hs; subst. exists r, rs, m1. destruct (now_spec sleep newClock r m1 Hr) as (o & Ht & Ho & _ & Hn).
    rewrite (Hn eq_refl) in Ht, Ho. split; [done|]. split; [done|]. split; [by exists ms|]. split; [|done].
    simpl. destruct (now sleep newClock r). simpl in *. by subst. }
  intros H1 H2. destruct (Hfirst _ H1) as [->|(r & rs1 & m1 & -> & Hr & Hm & Hn & Ho)]; [split; [constructor|by destruct rs']|].
  destruct (nows_above sleep rs1 _ m1 _ Ho Hm) as [Hsorted Hfix]. split; [by rewrite Hn|].
  intros Hsleep Hmono Hwall. destruct (Hfirst _ H2) as [->|(r' & rs1' & m1' & -> & Hr' & Hm' & Hn' & Ho')]; [done|].
  destruct (nows_above sleep rs1' _ m1' _ Ho' Hm') as [_ Hfix'].
  rewrite !fmap_cons in Hmono. simpl in Hwall. injection Hwall as Hwall. injection Hmono as Hh Ht.
  assert (m1' = m1) as -> by congruence. rewrite Hn, Hn', Hwall. f_equal.
  rewrite Hwall in Hfix. specialize (Hfix Hsleep). specialize (Hfix' Hsleep).
  destruct Hm as (ms & Hms & _). clear -Hfix Hfix' Ht Hms. revert rs1' ms Ht Hms Hfix'.
  generalize (nows sleep (now sleep newClock r').2) as l'. induction Hfix as [|t q l rs Htq _ IH].
  - intros l' [|]; [|done]. intros _ _ _ H'. by inversion H'.
  - intros l' [|q' rs'] [|mq ms]; try done. rewrite !fmap_cons. intros Ht Hms Hf. injection Ht as Hq Ht. injection Hms as Hmq Hms.
    inversion Hf as [|t' ? l1 ? Ht' Hf' E]; subst. rewrite (Htq mq Hmq), (Ht' mq) by congruence. f_equal.
    by apply (IH (λ _, l1) rs' ms).
Qed.
End SteadyClock.

(** ** Stall forgiveness and the owner lease *)

Definition leaseRunningAt (lastHeartbeat leaseMs at_ : Z) : bool := at_ - lastHeartbeat <=? leaseMs.

Definition forgivenLeaseStart (leaseStart resumedAt leaseLostMs : Z) : Z :=
  Z.max leaseStart (Z.min resumedAt (leaseStart + leaseLostMs)).

Record StallGap := mkGap { lostMs : Z; sleptMs : Z; gapAgeMs : option Z }.

Definition DEFAULT_SESSION_HEARTBEAT_TIMEOUT_MS : Z := 4000.
Definition SUSPECT_GRACE_MS : Z := 4000.
Definition DEFAULT_SESSION_HEARTBEAT_CHECK_INTERVAL_MS : Z := 2000.
Definition NO_HEARTBEAT_RELEASE_BUDGET_MS : Z :=
  DEFAULT_SESSION_HEARTBEAT_TIMEOUT_MS + SUSPECT_GRACE_MS + DEFAULT_SESSION_HEARTBEAT_CHECK_INTERVAL_MS.

Inductive SessionLivenessPolicy := heartbeat | cli_idle | managed_execution.
#[export] Instance SessionLivenessPolicy_eq_dec : EqDecision SessionLivenessPolicy.
Proof. solve_decision. Defined.
Inductive SessionOwnership := owned | awaiting_owner.
#[export] Instance SessionOwnership_eq_dec : EqDecision SessionOwnership.
Proof. solve_decision. Defined.

Definition holdsOwnerHeartbeatLease (policy : SessionLivenessPolicy) : bool :=
  bool_decide (policy = heartbeat) || bool_decide (policy = managed_execution).

Inductive LivenessLeasePhase := live | suspect | lapsed.
#[export] Instance LivenessLeasePhase_eq_dec : EqDecision LivenessLeasePhase.
Proof. solve_decision. Defined.

Definition ignoresManagedExecutionIdleDeadline (policy : option SessionLivenessPolicy)
    (leasePhase : option LivenessLeasePhase) : bool :=
  bool_decide (policy = Some managed_execution) && bool_decide (leasePhase ≠ Some lapsed).

Record LivenessOwnerLeaseSnapshot := mkSnapshot {
  snapshot_now : Z; snapshot_lastHeartbeat : Z; snapshot_heartbeatTimeoutMs : Z;
  snapshot_livenessPolicy : SessionLivenessPolicy; snapshot_graceMs : option Z }.

Record LivenessLeaseState := mkLeaseState { phase : LivenessLeasePhase; remainingMs : Z }.
Record LivenessOwnerHold := mkOwnerHold { hold_state : LivenessLeasePhase; hold_phaseMs : Z; holdRemainingMs : Z }.

Definition heartbeatLeasePastGrace (now judgedHeartbeat timeoutMs suspectGraceMs : Z) : bool :=
  timeoutMs + suspectGraceMs <? now - judgedHeartbeat.

Definition livenessLeaseState (s : LivenessOwnerLeaseSnapshot) : LivenessLeaseState :=
  let age := snapshot_now s - snapshot_lastHeartbeat s in
  if age <=? snapshot_heartbeatTimeoutMs s then mkLeaseState live (snapshot_heartbeatTimeoutMs s - age)
  else
    let graceEnd := snapshot_heartbeatTimeoutMs s + default 0 (snapshot_graceMs s) in
    if age <=? graceEnd then mkLeaseState suspect (graceEnd - age) else mkLeaseState lapsed 0.

Definition livenessOwnerHold (s : LivenessOwnerLeaseSnapshot) : LivenessOwnerHold :=
  let st := livenessLeaseState s in
  let holdEnd := snapshot_heartbeatTimeoutMs s + default 0 (snapshot_graceMs s) in
  mkOwnerHold (phase st) (remainingMs st) (Z.max 0 (holdEnd - (snapshot_now s - snapshot_lastHeartbeat s))).

Definition isLivenessOwnerLeaseLive (s : LivenessOwnerLeaseSnapshot) : bool :=
  if bool_decide (snapshot_livenessPolicy s = cli_idle) then false
  else bool_decide (phase (livenessLeaseState s) ≠ lapsed).

(** The slice of a session the lease reads. *)
Record LeaseSession := mkLeaseSession {
  lastHeartbeat : Z;
  lastOwnerHeartbeat : option Z;
  livenessOwnerBoundAt : option Z;
  stallForgivenAt : option Z;
  hasReceivedHeartbeat : bool;
  heartbeatTimeoutMs : Z;
  livenessPolicy : SessionLivenessPolicy;
  ownership : SessionOwnership;
  livenessOwnerToken : option string;
}.

(** [Math.max(x, y ?? -Infinity)]. *)
Definition max_opt (x : Z) (y : option Z) : Z := match y with Some y => Z.max x y | None => x end.

Definition effectiveLastHeartbeat (s : LeaseSession) : Z := max_opt (lastHeartbeat s) (stallForgivenAt s).
Definition ownerLeaseHeartbeat (s : LeaseSession) : Z :=
  max_opt (default (lastHeartbeat s) (lastOwnerHeartbeat s)) (stallForgivenAt s).

Definition hasMintBoundClaimLease (s : LeaseSession) : option Z :=
  match livenessOwnerToken s, lastOwnerHeartbeat s with
  | Some _, None => livenessOwnerBoundAt s
  | _, _ => None
  end.

Definition judgesOwnerHeartbeats (s : LeaseSession) : bool :=
  bool_decide (is_Some (livenessOwnerToken s)) && hasReceivedHeartbeat s.
Definition judgedLeaseHeartbeat (s : LeaseSession) : Z :=
  if judgesOwnerHeartbeats s then ownerLeaseHeartbeat s else effectiveLastHeartbeat s.

Definition ownerLeaseLiveAt (s : LeaseSession) (at_ : option Z) : bool :=
  match at_ with
  | None => true
  | Some t =>
      if bool_decide (ownership s ≠ owned) then true
      else
        let last := if judgesOwnerHeartbeats s then default (lastHeartbeat s) (lastOwnerHeartbeat s)
                    else lastHeartbeat s in
        leaseRunningAt last (heartbeatTimeoutMs s) t
  end.

Definition suspectGraceMsFor (s : LeaseSession) : Z :=
  if holdsOwnerHeartbeatLease (livenessPolicy s) && hasReceivedHeartbeat s && bool_decide (ownership s = owned)
  then SUSPECT_GRACE_MS else 0.

Definition sessionLeaseSnapshot (s : LeaseSession) (now : Z) : LivenessOwnerLeaseSnapshot :=
  mkSnapshot now (effectiveLastHeartbeat s) (heartbeatTimeoutMs s) (livenessPolicy s) (Some (suspectGraceMsFor s)).

Definition sessionOwnerLeaseSnapshot (s : LeaseSession) (now : Z) (ownerCallInFlight : bool) : LivenessOwnerLeaseSnapshot :=
  let mint := hasMintBoundClaimLease s in
  mkSnapshot now
    (match mint with Some boundAt => if ownerCallInFlight then now else boundAt | None => ownerLeaseHeartbeat s end)
    (heartbeatTimeoutMs s) (livenessPolicy s)
    (Some (if bool_decide (is_Some mint) && holdsOwnerHeartbeatLease (livenessPolicy s) && bool_decide (ownership s = owned)
           then SUSPECT_GRACE_MS else suspectGraceMsFor s)).

Definition sessionJudgedLeaseSnapshot (s : LeaseSession) (now : Z) : LivenessOwnerLeaseSnapshot :=
  mkSnapshot now (judgedLeaseHeartbeat s) (heartbeatTimeoutMs s) (livenessPolicy s) (Some (suspectGraceMsFor s)).

(** [SessionLeaseExpiry.forgiveMintBoundClaimLease]. *)
Definition forgiveMintBoundClaimLease (s : LeaseSession) (resumedAt leaseLostMs : Z) (gapBeganAt : option Z) : LeaseSession :=
  match hasMintBoundClaimLease s with
  | Some boundAt =>
      if match gapBeganAt with None => true | Some g => leaseRunningAt boundAt (heartbeatTimeoutMs s) g end then
        mkLeaseSession (lastHeartbeat s) (lastOwnerHeartbeat s) (Some (forgivenLeaseStart boundAt resumedAt leaseLostMs))
          (stallForgivenAt s) (hasReceivedHeartbeat s) (heartbeatTimeoutMs s) (livenessPolicy s) (ownership s) (livenessOwnerToken s)
      else s
  | None => s
  end.

(** A tool call from any connection stamps the activity-refreshed heartbeat. *)
Definition touched (s : LeaseSession) (t : Z) : LeaseSession :=
  mkLeaseSession t (lastOwnerHeartbeat s) (livenessOwnerBoundAt s) (stallForgivenAt s) (hasReceivedHeartbeat s)
    (heartbeatTimeoutMs s) (livenessPolicy s) (ownership s) (livenessOwnerToken s).

(** A snapshot judged [d] milliseconds later. *)
Definition later (s : LivenessOwnerLeaseSnapshot) (d : Z) : LivenessOwnerLeaseSnapshot :=
  mkSnapshot (snapshot_now s + d) (snapshot_lastHeartbeat s) (snapshot_heartbeatTimeoutMs s)
    (snapshot_livenessPolicy s) (snapshot_graceMs s).

Definition phase_rank (p : LivenessLeasePhase) : nat := match p with live => 0 | suspect => 1 | lapsed => 2 end.

Ltac lease_cases :=
  repeat match goal with
  | |- context [Z.leb ?a ?b] => destruct (Z.leb_spec a b)
  | |- context [Z.ltb ?a ?b] => destruct (Z.ltb_spec a b)
  | H : context [Z.leb ?a ?b] |- _ => destruct (Z.leb_spec a b)
  | H : context [Z.ltb ?a ?b] |- _ => destruct (Z.ltb_spec a b)
  end; simpl in *.

(** C11. The lease runs down once and as announced: with a non-negative grace, the phase only moves from live to suspect to lapsed as
    time passes; the announced remaining time is exactly when the phase ends (the phase still
    holds at that instant and no longer one millisecond after); the hold's remaining time
    counts down to the end of lease plus grace; the lease is lapsed exactly when the reaper's
    rule releases the session, so an owner is never live for a claim after it. *)
Theorem lease_timeline (s : LivenessOwnerLeaseSnapshot) (d : Z) :
  0 ≤ default 0 (snapshot_graceMs s) → 0 ≤ d →
  let st := livenessLeaseState s in
  (phase_rank (phase st) ≤ phase_rank (phase (livenessLeaseState (later s d))))%nat ∧
  (phase st ≠ lapsed → (phase (livenessLeaseState (later s d)) = phase st ↔ d ≤ remainingMs st)) ∧
  (phase st = lapsed → remainingMs st = 0) ∧
  holdRemainingMs (livenessOwnerHold (later s d)) = Z.max 0 (holdRemainingMs (livenessOwnerHold s) - d) ∧
  (phase st = lapsed ↔
     heartbeatLeasePastGrace (snapshot_now s) (snapshot_lastHeartbeat s) (snapshot_heartbeatTimeoutMs s)
       (default 0 (snapshot_graceMs s)) = true) ∧
  (isLivenessOwnerLeaseLive s = true ↔
     snapshot_livenessPolicy s ≠ cli_idle ∧
     heartbeatLeasePastGrace (snapshot_now s) (snapshot_lastHeartbeat s) (snapshot_heartbeatTimeoutMs s)
       (default 0 (snapshot_graceMs s)) = false).
Proof.
  destruct s as [now last timeout policy grace]; cbn [snapshot_graceMs]. set (g := default 0 grace). intros Hg Hd.
  unfold livenessOwnerHold, isLivenessOwnerLeaseLive, heartbeatLeasePastGrace, livenessLeaseState, later; simpl. fold g.
  split_and!.
  - lease_cases; lia.
  - lease_cases; intros; split; intros; try done; try lia.
  - lease_cases; done.
  - lia.
  - lease_cases; split; intros; try done; lia.
  - case_bool_decide; [naive_solver|]. rewrite bool_decide_eq_true. lease_cases; split; intros; try done; try naive_solver; lia.
Qed.

(** Nobody but the owner keeps the owner's lease alive: once the owner of a session has
    heartbeated, tool calls from any connection, which refresh the session's activity stamp,
    change neither the lease the reaper judges, nor the lease a claim is judged on, nor
    whether the lease was live when a stall began; and the claim path and the reaper judge the same
    lease. *)
Theorem owner_lease_ignores_activity (s : LeaseSession) (h t now : Z) (inFlight : bool) (at_ : option Z) :
  livenessOwnerToken s ≠ None → hasReceivedHeartbeat s = true → lastOwnerHeartbeat s = Some h →
  sessionJudgedLeaseSnapshot (touched s t) now = sessionJudgedLeaseSnapshot s now ∧
  sessionOwnerLeaseSnapshot (touched s t) now inFlight = sessionOwnerLeaseSnapshot s now inFlight ∧
  ownerLeaseLiveAt (touched s t) at_ = ownerLeaseLiveAt s at_ ∧
  sessionOwnerLeaseSnapshot s now inFlight = sessionJudgedLeaseSnapshot s now.
Proof.
  destruct s as [lh loh bound stall recv timeout policy own token]; simpl. intros Ht -> ->.
  destruct token as [token|]; [|done].
  unfold sessionJudgedLeaseSnapshot, sessionOwnerLeaseSnapshot, ownerLeaseLiveAt, judgedLeaseHeartbeat, judgesOwnerHeartbeats,
    ownerLeaseHeartbeat, hasMintBoundClaimLease; simpl. by split_and!.
Qed.

(** Forgiving a gap moves a lease forward by the gap and no further: never backwards, never past
    the resume, and the time left on it at the resume is what was left when a gap of that length began. A
    lease not running when the gap began is not moved, and forgiving changes only the mint-bound stamp of an
    owner that has not heartbeated yet. *)
Theorem forgiveness_is_exact (s : LeaseSession) (resumedAt lost : Z) (gapBeganAt : option Z) :
  0 ≤ lost →
  let s' := forgiveMintBoundClaimLease s resumedAt lost gapBeganAt in
  (∀ start lease, start ≤ resumedAt - lost →
     start ≤ forgivenLeaseStart start resumedAt lost ≤ resumedAt ∧
     lease - (resumedAt - forgivenLeaseStart start resumedAt lost) = lease - (resumedAt - lost - start)) ∧
  (∀ start, resumedAt ≤ start → forgivenLeaseStart start resumedAt lost = start) ∧
  (lastOwnerHeartbeat s ≠ None → s' = s) ∧
  (∀ boundAt g, livenessOwnerBoundAt s = Some boundAt → gapBeganAt = Some g → heartbeatTimeoutMs s < g - boundAt → s' = s) ∧
  judgedLeaseHeartbeat s' = judgedLeaseHeartbeat s.
Proof.
  intros Hl. cbv zeta. unfold forgivenLeaseStart. split_and!.
  - intros. lia.
  - intros. lia.
  - unfold forgiveMintBoundClaimLease, hasMintBoundClaimLease. by destruct (livenessOwnerToken s), (lastOwnerHeartbeat s).
  - intros boundAt g Hb -> Hlt. unfold forgiveMintBoundClaimLease, hasMintBoundClaimLease. rewrite Hb.
    destruct (livenessOwnerToken s), (lastOwnerHeartbeat s); try done. unfold leaseRunningAt.
    by rewrite (proj2 (Z.leb_gt _ _)) by lia.
  - unfold forgiveMintBoundClaimLease. by repeat case_match.
Qed.

(** ** Claims *)

(** An owner's hold for conflict purposes; [Hold_none] for no owner or the [cli-idle] policy. *)
Inductive LivenessHoldState := Hold (p : LivenessLeasePhase) | Hold_none.
#[export] Instance LivenessHoldState_eq_dec : EqDecision LivenessHoldState.
Proof. solve_decision. Defined.
Record LivenessOwnerView := mkOwnerView { ownerToken : option string; hold : LivenessHoldState }.

Record LivenessClaimInput := mkClaim {
  claimantToken : string; claim_session : LivenessOwnerView; claimAlreadyProcessed : bool;
  claim_base : option LivenessOwnerView }.

Inductive HoldOf := HoldOfSession | HoldOfBase.
Inductive LivenessClaimDecision := Claimed | Superseded | Conflict (holdOf : HoldOf).

Definition holds (view : option LivenessOwnerView) : bool :=
  match view with
  | Some v => bool_decide (ownerToken v ≠ None) &&
              (bool_decide (hold v = Hold live) || bool_decide (hold v = Hold suspect))
  | None => false
  end.

Definition decideLivenessClaim (input : LivenessClaimInput) : LivenessClaimDecision :=
  let session := claim_session input in let base := claim_base input in
  if bool_decide (ownerToken session = Some (claimantToken input)) then Claimed
  else if holds base && bool_decide (base ≫= ownerToken = Some (claimantToken input)) then Claimed
  else if bool_decide (ownerToken session ≠ None) && claimAlreadyProcessed input then Superseded
  else if holds (Some session) then Conflict HoldOfSession
  else if holds base then Conflict HoldOfBase
  else Claimed.

Definition refusedClaimHoldSource (session : LivenessOwnerView) (base : option LivenessOwnerView) : HoldOf :=
  if negb (holds (Some session)) && holds base then HoldOfBase else HoldOfSession.

Definition mayAdoptUnownedLiveness (claimant : string) (session : LivenessOwnerView)
    (sessionHasClaimHistory : bool) (base : option LivenessOwnerView) : bool :=
  if bool_decide (ownerToken session ≠ None) || sessionHasClaimHistory then false
  else negb (holds base && bool_decide (base ≫= ownerToken ≠ Some claimant)).

(** A view held by somebody other than [token]. *)
Definition held_by_other (token : string) (view : option LivenessOwnerView) : Prop :=
  ∃ v other, view = Some v ∧ ownerToken v = Some other ∧ other ≠ token ∧ holds (Some v) = true.

Lemma holds_owner v : holds (Some v) = true → ∃ t, ownerToken v = Some t.
Proof. simpl. intros [H _]%andb_true_iff. apply bool_decide_eq_true in H. destruct (ownerToken v); [eauto|done]. Qed.

(** A claim never takes a held session: the owner is never refused; a token other than the owner gains the
    session only when it holds the base, or when nobody else holds the session or its base; a
    refusal always names a hold of somebody else, the one the refusal report looks up;
    and adoption never takes an owned session nor one whose base another token holds. *)
Theorem claim_never_steals (input : LivenessClaimInput) :
  let token := claimantToken input in
  let session := claim_session input in
  let base := claim_base input in
  (ownerToken session = Some token → decideLivenessClaim input = Claimed) ∧
  (decideLivenessClaim input = Claimed →
     ownerToken session = Some token ∨ (base ≫= ownerToken = Some token ∧ holds base = true) ∨
     (¬ held_by_other token (Some session) ∧ ¬ held_by_other token base)) ∧
  (∀ ho, decideLivenessClaim input = Conflict ho →
     refusedClaimHoldSource session base = ho ∧
     held_by_other token (match ho with HoldOfSession => Some session | HoldOfBase => base end)) ∧
  (∀ history, mayAdoptUnownedLiveness token session history base = true →
     ownerToken session = None ∧ history = false ∧ ¬ held_by_other token base).
Proof.
  destruct input as [token session processed base]; cbn [claimantToken claim_session claim_base claimAlreadyProcessed].
  unfold decideLivenessClaim, refusedClaimHoldSource, mayAdoptUnownedLiveness, held_by_other; cbn [claimantToken claim_session claim_base claimAlreadyProcessed].
  split_and!.
  - intros ->. by rewrite bool_decide_eq_true_2.
  - case_bool_decide; [by left|]. destruct (holds base) eqn:Hb; cbn [andb].
    + case_bool_decide; [by right; left|]. destruct (bool_decide _ && _); [done|]. by destruct (holds (Some session)).
    + destruct (bool_decide _ && _); [done|]. destruct (holds (Some session)) eqn:Hs; [done|]. intros _. right; right.
      split; [intros (v & o & [= <-] & _ & _ & Hh); congruence|]. intros (v & o & -> & _ & _ & Hh). congruence.
  - intros ho. case_bool_decide as Ho; [done|]. destruct (holds base) eqn:Hb; cbn [andb].
    + case_bool_decide as Hbo; [done|]. destruct (bool_decide _ && _); [done|].
      destruct (holds (Some session)) eqn:Hs; intros [= <-]; (split; [done|]).
      * destruct (holds_owner _ Hs) as [t Ht]. exists session, t. split_and!; [done..|congruence|done].
      * destruct base as [b|]; [|done]. destruct (holds_owner _ Hb) as [t Ht]. exists b, t.
        split_and!; [done..| |done]. simpl in Hbo. congruence.
    + destruct (bool_decide _ && _); [done|]. destruct (holds (Some session)) eqn:Hs; [|done]. intros [= <-].
      split; [done|]. destruct (holds_owner _ Hs) as [t Ht]. exists session, t. split_and!; [done..|congruence|done].
  - intros history. destruct (bool_decide _ || history) eqn:E; [done|]. apply orb_false_iff in E as [E ->].
    apply bool_decide_eq_false, dec_stable in E. intros Hn. split_and!; [done..|].
    intros (v & o & -> & Ho & Hne & Hh). rewrite Hh, (bool_decide_eq_true_2 (Some v ≫= ownerToken ≠ Some token)) in Hn by (simpl; congruence). done.
Qed.

(** ** The execution veto *)

Definition UNSETTLED_EXECUTION_DEADLINE_GRACE_MS : Z := 10000.

(** A request deadline: absent, infinite, or an instant. *)
Inductive Deadline := NoDeadline | InfiniteDeadline | At (ms : Z).
Definition hasDeadline (d : Deadline) : option Z := match d with At ms => Some ms | _ => None end.

Definition unsettledExecutionVetoExpiresAt (vetoedSince : Z) (latestDeadlineMs : Deadline) (ceilingMs deadlineGraceMs : Z) : Z :=
  match hasDeadline latestDeadlineMs with
  | Some deadline => deadline + deadlineGraceMs
  | None => vetoedSince + ceilingMs
  end.

Definition isReleaseVetoedByExecutions (hasActiveExecutions : bool) (now vetoedSince : Z) (latestDeadlineMs : Deadline)
    (ceilingMs deadlineGraceMs : Z) : bool :=
  hasActiveExecutions && (now <? unsettledExecutionVetoExpiresAt vetoedSince latestDeadlineMs ceilingMs deadlineGraceMs).

Inductive VetoBound := RequestDeadline | Ceiling.
Inductive VetoVerdict := Clear | Kept (until : Z) (firstKept : bool) | Expired (vetoedMs : Z) (bound : VetoBound).

(** [UnsettledExecutionVeto] keys its map by the session object: a number here. *)
Abbreviation VetoState := (gmap nat Z).

(** What the probe answers at a judgement. *)
Record Probe := mkProbe { hasActiveExecutions : bool; latestExecutionDeadlineMs : Deadline }.

Definition judge (ceilingMs : Z) (st : VetoState) (session : nat) (probe : Probe) (now : Z) : VetoVerdict * VetoState :=
  if negb (hasActiveExecutions probe) then (Clear, delete session st)
  else
    let recorded := st !! session in
    let vetoedSince := default now recorded in
    let st := if bool_decide (recorded = None) then <[session := vetoedSince]> st else st in
    let until := unsettledExecutionVetoExpiresAt vetoedSince (latestExecutionDeadlineMs probe) ceilingMs
                   UNSETTLED_EXECUTION_DEADLINE_GRACE_MS in
    if now <? until then (Kept until (bool_decide (recorded = None)), st)
    else (Expired (now - vetoedSince) (match hasDeadline (latestExecutionDeadlineMs probe) with Some _ => RequestDeadline | None => Ceiling end), st).

Definition forget (st : VetoState) (session : nat) : VetoState := delete session st.

(** Judgements of sessions one after the other. *)
Definition judgeAll (ceilingMs : Z) (st : VetoState) (js : list (nat * Probe * Z)) : VetoState :=
  foldl (λ st '(s, p, t), (judge ceilingMs st s p t).2) st js.

(** C12. A veto cannot hold a session for ever: from the first judgement that keeps a session, and
    whatever other sessions are judged in between, a session judged busy every time is kept only before the later of the ceiling after
    that first judgement and the deadline grace after its latest request deadline; the bound is the
    deadline's exactly when there is a finite one, and a session found idle starts afresh. *)
Theorem veto_is_bounded (ceilingMs : Z) (st : VetoState) (session : nat) (t0 : Z) (p0 : Probe)
    (js : list (nat * Probe * Z)) (p : Probe) (t : Z) :
  st !! session = None →
  hasActiveExecutions p0 = true →
  (∀ q u, (session, q, u) ∈ js → hasActiveExecutions q = true) →
  let st1 := judgeAll ceilingMs (judge ceilingMs st session p0 t0).2 js in
  st1 !! session = Some t0 ∧
  (hasActiveExecutions p = true →
     match hasDeadline (latestExecutionDeadlineMs p) with
     | Some deadline =>
         (judge ceilingMs st1 session p t).1 =
         if t <? deadline + UNSETTLED_EXECUTION_DEADLINE_GRACE_MS
         then Kept (deadline + UNSETTLED_EXECUTION_DEADLINE_GRACE_MS) false else Expired (t - t0) RequestDeadline
     | None =>
         (judge ceilingMs st1 session p t).1 =
         if t <? t0 + ceilingMs then Kept (t0 + ceilingMs) false else Expired (t - t0) Ceiling
     end) ∧
  (hasActiveExecutions p = false →
     judge ceilingMs st1 session p t = (Clear, forget st1 session) ∧ forget st1 session !! session = None).
Proof.
  intros Hst Hp0 Hjs st1.
  assert (∀ st s q u v, st !! session = Some v → (s = session → hasActiveExecutions q = true) →
    (judge ceilingMs st s q u).2 !! session = Some v) as Hkeep.
  { clear. intros st s q u v Hv Hq. unfold judge. destruct (decide (s = session)) as [->|Hne].
    - rewrite (Hq eq_refl), Hv. simpl. by destruct (_ <? _).
    - destruct (negb _); cbn [snd]; [by rewrite lookup_delete_ne|].
      assert ((if bool_decide (st !! s = None) then <[s := default u (st !! s)]> st else st) !! session = Some v) as Hl
        by (case_bool_decide; [by rewrite lookup_insert_ne|done]).
      by destruct (_ <? _). }
  assert (st1 !! session = Some t0) as H1.
  { unfold st1. assert ((judge ceilingMs st session p0 t0).2 !! session = Some t0) as Hbase.
    { unfold judge. rewrite Hp0, Hst. simpl. destruct (_ <? _); simpl; apply lookup_insert_eq. }
    revert Hbase. generalize (judge ceilingMs st session p0 t0).2. clear -Hkeep Hjs.
    induction js as [|[[s q] u] js IH]; intros st Hst; [done|]. simpl. apply IH.
    - intros q' u' Hin. apply (Hjs q' u'). by right.
    - apply Hkeep; [done|]. intros ->. apply (Hjs q u). by left. }
  split; [done|]. split.
  - intros Hp. unfold judge, unsettledExecutionVetoExpiresAt. rewrite Hp, H1. simpl.
    destruct (hasDeadline _); by destruct (_ <? _).
  - intros Hp. unfold judge, forget. rewrite Hp. split; [done|]. apply lookup_delete_eq.
Qed.

(** ** Concrete instances *)

Lemma steady_clock_monotone_witness :
  Sorted Z.le (SteadyClock.nows false SteadyClock.newClock
    [SteadyClock.mkReading 5000 (Some (1 # 2)%Q); SteadyClock.mkReading 100 (Some (3 # 2)%Q); SteadyClock.mkReading 9000 (Some (5 # 2)%Q)]).
Proof.
  refine (proj1 (SteadyClock.steady_clock_monotone false 0
    [SteadyClock.mkReading 5000 (Some (1 # 2)%Q); SteadyClock.mkReading 100 (Some (3 # 2)%Q); SteadyClock.mkReading 9000 (Some (5 # 2)%Q)]
    [SteadyClock.mkReading 5000 (Some (1 # 2)%Q)] _ _)).
  - exists [1 # 2; 3 # 2; 5 # 2]%Q. split; [done|]. repeat constructor; unfold Qle; simpl; lia.
  - exists [1 # 2]%Q. split; [done|]. repeat constructor; unfold Qle; simpl; lia.
Defined.

(** The default windows, five seconds after the owner's last heartbeat. *)
Definition demoLease : LivenessOwnerLeaseSnapshot :=
  mkSnapshot 5000 0 DEFAULT_SESSION_HEARTBEAT_TIMEOUT_MS heartbeat (Some SUSPECT_GRACE_MS).

Lemma lease_timeline_witness :
  livenessLeaseState demoLease = mkLeaseState suspect 3000 ∧
  (phase (livenessLeaseState (later demoLease 3000)) = suspect ↔ 3000 ≤ 3000).
Proof.
  split; [vm_compute; reflexivity|].
  destruct (lease_timeline demoLease 3000) as (_ & H & _); [vm_compute; discriminate|lia|].
  apply H. vm_compute. discriminate.
Defined.

Definition demoSession : LeaseSession :=
  mkLeaseSession 1000 (Some 1000) None None true 4000 heartbeat owned (Some "owner"%string).

Lemma owner_lease_ignores_activity_witness :
  phase (livenessLeaseState (sessionJudgedLeaseSnapshot (touched demoSession 8999) 9001)) = lapsed.
Proof.
  destruct (owner_lease_ignores_activity demoSession 1000 8999 9001 false None) as (-> & _); [done..|].
  vm_compute. reflexivity.
Defined.

Lemma forgiveness_is_exact_witness :
  3000 - (9000 - forgivenLeaseStart 1000 9000 6000) = 3000 - (9000 - 6000 - 1000) ∧
  forgiveMintBoundClaimLease demoSession 9000 6000 None = demoSession.
Proof.
  destruct (forgiveness_is_exact demoSession 9000 6000 None) as (H1 & _ & H2 & _); [lia|].
  split; [by apply H1|by apply H2].
Defined.

Lemma veto_is_bounded_witness :
  (judge 60000 (judgeAll 60000 (judge 60000 ∅ 1 (mkProbe true NoDeadline) 100).2
     [(2%nat, mkProbe false NoDeadline, 150); (1%nat, mkProbe true (At 200), 160)]) 1 (mkProbe true NoDeadline) 60100).1
  = Expired 60000 Ceiling.
Proof.
  destruct (veto_is_bounded 60000 ∅ 1 100 (mkProbe true NoDeadline)
    [(2%nat, mkProbe false NoDeadline, 150); (1%nat, mkProbe true (At 200), 160)] (mkProbe true NoDeadline) 60100)
    as (_ & H & _); [done|done| |].
  - intros q u. rewrite !elem_of_cons, elem_of_nil. intros [[=]|[[= -> ->]|[]]]. done.
  - exact (H eq_refl).
Defined.
