(* ===== verification/ObserverSessions.v ===== *)
(** * Observer sessions

    [src/src/daemon/observerSessionRegistry.ts]: observers that hold no device,
    kept by heartbeats, expired by one sweep timer aimed at the earliest expiry.
    Instants are readings of the registry's steady session clock
    ([Liveness.SteadyClock]); the wall-clock conversion of reported instants is
    left out. *)
From stdpp Require Import strings.
From S2P Require Import Prelude JsMap Liveness.
Local Open Scope Z_scope.

Definition MAX_OBSERVER_SESSIONS : nat := 32.

Record ObserverSession := mkObserver {
  observer_sessionId : string; clientName : string; observer_lastHeartbeat : Z; expiresAtMs : Z }.

Inductive ObserverReleaseReason := explicit_release | heartbeat_timeout | promotion.
#[export] Instance ObserverReleaseReason_eq_dec : EqDecision ObserverReleaseReason.
Proof. solve_decision. Defined.

Inductive RegistrationResult :=
| Accepted (heartbeatTimeoutMs expiresAt : Z)
| RegistryClosed
| LimitReached.

Inductive ObserverScope := denied | unowned_devices_only.
#[export] Instance ObserverScope_eq_dec : EqDecision ObserverScope.
Proof. solve_decision. Defined.

(** [sweepAtMs] is [None] for positive infinity, which it is exactly while no
    sweep is armed.  [gone] records the calls of [onObserverGone]. *)
Record Registry := mkRegistry {
  observers : JsMap string ObserverSession;
  disposed : bool;
  sweepAtMs : option Z;
  gone : list string;
}.
Definition newRegistry : Registry := mkRegistry [] false None [].

Definition with_observers (f : JsMap string ObserverSession → JsMap string ObserverSession) (r : Registry) : Registry :=
  mkRegistry (f (observers r)) (disposed r) (sweepAtMs r) (gone r).

Definition observerMaySeeDeviceOwner (ownerSessionId : option string) : bool := bool_decide (ownerSessionId = None).

Section Registry.
Context (heartbeatTimeoutMs : Z).

Definition remove (r : Registry) (sid : string) (reason : ObserverReleaseReason) : bool * Registry :=
  if jhas sid (observers r) then
    (true, mkRegistry (jdel sid (observers r)) (disposed r) (sweepAtMs r)
             (if bool_decide (reason = promotion) then gone r else gone r ++ [sid]))
  else (false, r).

(** Mutating a session in place keeps its place in the map. *)
Definition forgiveSession (resumedAt : Z) (gap : StallGap) (s : ObserverSession) : ObserverSession * bool :=
  if match gapAgeMs gap with
     | Some age => negb (leaseRunningAt (observer_lastHeartbeat s) heartbeatTimeoutMs (resumedAt - age))
     | None => false end
  then (s, false)
  else
    let leaseStart := expiresAtMs s - heartbeatTimeoutMs in
    (mkObserver (observer_sessionId s) (clientName s) (observer_lastHeartbeat s)
       (forgivenLeaseStart leaseStart resumedAt (lostMs gap + sleptMs gap) + heartbeatTimeoutMs), true).

Definition forgiveStall (now : Z) (gap : StallGap) (r : Registry) : nat * Registry :=
  (length (filter (λ e, (forgiveSession now gap e.2).2 = true) (observers r)),
   with_observers (fmap (λ e, (e.1, (forgiveSession now gap e.2).1))) r).

(** [purgeExpired]: the stall probe, when one is set and notices a gap, forgives
    it first; the loop removes the entries it visits. *)
Definition purgeExpired (now : Z) (noticed : option StallGap) (r : Registry) : Registry :=
  let r := match noticed with Some gap => (forgiveStall now gap r).2 | None => r end in
  foldl (λ r s, if expiresAtMs s <=? now then (remove r (observer_sessionId s) heartbeat_timeout).2 else r)
    r (observers r).*2.

(** [Math.min] of the expiries; [None] for the infinity of no session. *)
Definition nextExpiry (r : Registry) : option Z :=
  foldr (λ s acc, Some (match acc with Some m => Z.min (expiresAtMs s) m | None => expiresAtMs s end)) None (observers r).*2.

Definition scheduleSweep (r : Registry) : Registry :=
  if disposed r then r
  else match nextExpiry r with
       | None => r
       | Some next =>
           if match sweepAtMs r with Some sweepAt => sweepAt <=? next | None => false end then r
           else mkRegistry (observers r) (disposed r) (Some next) (gone r)
       end.

(** The armed timeout fires. *)
Definition sweepFired (now : Z) (noticed : option StallGap) (r : Registry) : Registry :=
  scheduleSweep (purgeExpired now noticed (mkRegistry (observers r) (disposed r) None (gone r))).

Definition register (now : Z) (noticed : option StallGap) (sid client : string) (r : Registry) : RegistrationResult * Registry :=
  let r := purgeExpired now noticed r in
  if disposed r then (RegistryClosed, r)
  else if negb (jhas sid (observers r)) && bool_decide (MAX_OBSERVER_SESSIONS ≤ length (observers r))%nat then (LimitReached, r)
  else
    let expiresAt := now + heartbeatTimeoutMs in
    (Accepted heartbeatTimeoutMs expiresAt,
     scheduleSweep (with_observers (jset sid (mkObserver sid client now expiresAt)) r)).

Definition heartbeatObserver (now : Z) (noticed : option StallGap) (sid : string) (r : Registry) : bool * Registry :=
  let r := purgeExpired now noticed r in
  match jget sid (observers r) with
  | None => (false, r)
  | Some s => (true, with_observers (jset sid (mkObserver (observer_sessionId s) (clientName s) now (now + heartbeatTimeoutMs))) r)
  end.

Definition release (now : Z) (noticed : option StallGap) (sid : string) (reason : ObserverReleaseReason) (r : Registry) : bool * Registry :=
  remove (purgeExpired now noticed r) sid reason.

Definition list_observers (now : Z) (noticed : option StallGap) (r : Registry) : list ObserverSession * Registry :=
  let r := purgeExpired now noticed r in ((observers r).*2, r).

Definition resolveObserverScope (now : Z) (noticed : option StallGap) (sid : string) (r : Registry) : ObserverScope * Registry :=
  let r := purgeExpired now noticed r in
  ((if jhas sid (observers r) then unowned_devices_only else denied), r).

Definition canObserveDevice (now : Z) (noticed : option StallGap) (sid deviceId : string)
    (getSessionForDevice : string → option string) (r : Registry) : bool * Registry :=
  let '(scope, r) := resolveObserverScope now noticed sid r in
  (bool_decide (scope ≠ denied) && observerMaySeeDeviceOwner (getSessionForDevice deviceId), r).

Definition dispose (r : Registry) : Registry := mkRegistry [] true None (gone r).

(** ** Runs *)

Inductive RegistryOp :=
| OpRegister (sid client : string)
| OpHeartbeat (sid : string)
| OpRelease (sid : string) (reason : ObserverReleaseReason)
| OpRead (sid : string)
| OpForgive (gap : StallGap)
| OpSweep
| OpDispose.

Definition apply_op (now : Z) (noticed : option StallGap) (op : RegistryOp) (r : Registry) : Registry :=
  match op with
  | OpRegister sid client => (register now noticed sid client r).2
  | OpHeartbeat sid => (heartbeatObserver now noticed sid r).2
  | OpRelease sid reason => (release now noticed sid reason r).2
  | OpRead sid => (resolveObserverScope now noticed sid r).2
  | OpForgive gap => (forgiveStall now gap r).2
  | OpSweep => sweepFired now noticed r
  | OpDispose => dispose r
  end.

(** Operations at non-decreasing instants of the clock. *)
Inductive registry_reachable : Z → Registry → Prop :=
| reach_new t : registry_reachable t newRegistry
| reach_op t t' noticed op r :
    registry_reachable t r → t ≤ t' →
    (∀ gap, noticed = Some gap → 0 ≤ lostMs gap + sleptMs gap) →
    (∀ gap, op = OpForgive gap → 0 ≤ lostMs gap + sleptMs gap) →
    registry_reachable t' (apply_op t' noticed op r).

(** ** The invariant *)

Record observer_ok (t : Z) (sid : string) (s : ObserverSession) : Prop := {
  ok_id : observer_sessionId s = sid;
  ok_heartbeat : observer_lastHeartbeat s ≤ t;
  ok_expiry : observer_lastHeartbeat s + heartbeatTimeoutMs ≤ expiresAtMs s ≤ t + heartbeatTimeoutMs;
}.

Record registry_inv (t : Z) (r : Registry) : Prop := {
  inv_wf : jwf (observers r);
  inv_bound : (length (observers r) ≤ MAX_OBSERVER_SESSIONS)%nat;
  inv_observers sid s : (sid, s) ∈ observers r → observer_ok t sid s;
  inv_sweep sid s : (sid, s) ∈ observers r → ∃ sweepAt, sweepAtMs r = Some sweepAt ∧ sweepAt ≤ expiresAtMs s;
  inv_disposed : disposed r = true → observers r = [] ∧ sweepAtMs r = None;
}.
End Registry.

Section RegistryFacts.
Context (heartbeatTimeoutMs : Z).
Abbreviation inv := (registry_inv heartbeatTimeoutMs).

Lemma inv_later t t' r : inv t r → t ≤ t' → inv t' r.
Proof. intros [] Ht. split; auto. intros sid s Hin. destruct (inv_observers0 sid s Hin). split; [done|lia..]. Qed.

Lemma nextExpiry_le r sid s : (sid, s) ∈ observers r → ∃ m, nextExpiry r = Some m ∧ m ≤ expiresAtMs s.
Proof.
  unfold nextExpiry. induction (observers r) as [|[k v] m IH]; [by intros ?%elem_of_nil|].
  intros [[= -> ->]|Hin]%elem_of_cons; rewrite fmap_cons; cbn [foldr snd].
  - destruct (foldr _ None m.*2) as [x|]; [|by eexists]. eexists. split; [done|]. lia.
  - destruct (IH Hin) as (x & -> & Hx). eexists. split; [done|]. lia.
Qed.

(** After scheduling, the sweep is armed no later than any expiry. *)
Lemma scheduleSweep_spec r :
  observers (scheduleSweep r) = observers r ∧ disposed (scheduleSweep r) = disposed r ∧
  (disposed r = true → scheduleSweep r = r) ∧
  (disposed r = false → ∀ sid s, (sid, s) ∈ observers r →
     ∃ sweepAt, sweepAtMs (scheduleSweep r) = Some sweepAt ∧ sweepAt ≤ expiresAtMs s).
Proof.
  unfold scheduleSweep. destruct (disposed r) eqn:Ed; [split_and!; done|].
  destruct (nextExpiry r) as [next|] eqn:En.
  - destruct (sweepAtMs r) as [sweepAt|] eqn:Es.
    + destruct (Z.leb_spec sweepAt next); split_and!; try done; intros _ sid s Hin;
        destruct (nextExpiry_le r sid s Hin) as (m & Hm & ?); simplify_eq; eexists; (split; [done|lia]).
    + split_and!; try done. intros _ sid s Hin. destruct (nextExpiry_le r sid s Hin) as (m & Hm & ?); simplify_eq.
      eexists. split; [done|lia].
  - split_and!; try done. intros _ sid s Hin. destruct (nextExpiry_le r sid s Hin) as (m & Hm & ?); congruence.
Qed.

Lemma forgiveSession_ok t gap sid s :
  observer_ok heartbeatTimeoutMs t sid s → 0 ≤ lostMs gap + sleptMs gap →
  observer_ok heartbeatTimeoutMs t sid (forgiveSession heartbeatTimeoutMs t gap s).1 ∧
  expiresAtMs s ≤ expiresAtMs (forgiveSession heartbeatTimeoutMs t gap s).1.
Proof.
  intros [Hid Hh He] Hg. unfold forgiveSession, forgivenLeaseStart.
  destruct (match gapAgeMs gap with Some _ => _ | None => _ end); simpl; [split; [by split|lia]|].
  split; [split; simpl; [done|done|]; lia|lia].
Qed.

Lemma forgiveStall_inv t gap r : inv t r → 0 ≤ lostMs gap + sleptMs gap → inv t (forgiveStall heartbeatTimeoutMs t gap r).2.
Proof.
  intros [Hwf Hb Ho Hs Hd] Hg. unfold forgiveStall, with_observers; simpl.
  assert (∀ sid s, (sid, s) ∈ (λ e, (e.1, (forgiveSession heartbeatTimeoutMs t gap e.2).1)) <$> observers r →
    ∃ s0, (sid, s0) ∈ observers r ∧ s = (forgiveSession heartbeatTimeoutMs t gap s0).1) as Hmap.
  { intros sid s ([k s0] & Heq & Hin)%list_elem_of_fmap. simplify_eq/=. by exists s0. }
  split; simpl.
  - by apply (jwf_fmap (λ s, (forgiveSession heartbeatTimeoutMs t gap s).1)).
  - by rewrite length_fmap.
  - intros sid s (s0 & Hin & ->)%Hmap. by apply forgiveSession_ok; [apply Ho|].
  - intros sid s (s0 & Hin & ->)%Hmap. destruct (Hs _ _ Hin) as (sw & ? & ?). exists sw. split; [done|].
    destruct (forgiveSession_ok t gap sid s0); [by apply Ho|done|]. lia.
  - intros Hdis. destruct (Hd Hdis) as [-> ?]. done.
Qed.

(** Purging keeps the observers not yet expired, in order, and reports the others. *)
Lemma purge_loop now m1 m2 r :
  observers r = m1 ++ m2 → jwf (m1 ++ m2) → (∀ sid s, (sid, s) ∈ m2 → observer_sessionId s = sid) →
  foldl (λ r s, if expiresAtMs s <=? now then (remove r (observer_sessionId s) heartbeat_timeout).2 else r) r m2.*2 =
  mkRegistry (m1 ++ filter (λ e, now < expiresAtMs e.2) m2) (disposed r) (sweepAtMs r)
    (gone r ++ (filter (λ e, expiresAtMs e.2 ≤ now) m2).*1).
Proof.
  revert m1 r. induction m2 as [|[k s] m2 IH]; intros m1 r Hr Hwf Hid.
  { simpl. rewrite !app_nil_r in *. destruct r; simpl in *; by subst. }
  rewrite fmap_cons. cbn [foldl snd]. rewrite (filter_cons _ (k, s)), (filter_cons _ (k, s)). cbn [snd].
  assert (observer_sessionId s = k) as Hk by (apply Hid; by left).
  destruct (Z.leb_spec (expiresAtMs s) now) as [Hle|Hlt].
  - rewrite decide_False, decide_True by lia. unfold remove. rewrite Hk, Hr.
    assert (jhas k (m1 ++ (k, s) :: m2) = true) as ->.
    { apply jhas_true. unfold jkeys. rewrite fmap_app, fmap_cons. apply elem_of_app. right. by left. }
    cbn [snd]. rewrite jdel_middle by done.
    rewrite (IH m1 (mkRegistry (m1 ++ m2) (disposed r) (sweepAtMs r) _)); [|done|by eapply jwf_app_remove|by intros; apply Hid; right].
    simpl. by rewrite <- app_assoc.
  - rewrite decide_True, decide_False by lia. rewrite (IH (m1 ++ [(k, s)]) r); rewrite <- ?app_assoc; [done|done|done|].
    intros; apply Hid; by right.
Qed.

Lemma purgeExpired_spec t now noticed r :
  inv t r → t ≤ now → (∀ gap, noticed = Some gap → 0 ≤ lostMs gap + sleptMs gap) →
  let r1 := match noticed with Some gap => (forgiveStall heartbeatTimeoutMs now gap r).2 | None => r end in
  purgeExpired heartbeatTimeoutMs now noticed r =
    mkRegistry (filter (λ e, now < expiresAtMs e.2) (observers r1)) (disposed r) (sweepAtMs r)
      (gone r ++ (filter (λ e, expiresAtMs e.2 ≤ now) (observers r1)).*1) ∧
  inv now r1.
Proof.
  intros Hi Ht Hg r1. assert (inv now r1) as Hi1.
  { unfold r1. destruct noticed as [gap|]; [|by eapply inv_later]. apply forgiveStall_inv; [by eapply inv_later|by apply Hg]. }
  split; [|done]. unfold purgeExpired. change (match noticed with Some gap => _ | None => r end) with r1.
  rewrite (purge_loop now [] (observers r1) r1); [|done|apply Hi1|intros sid s Hin; apply (inv_observers _ _ _ Hi1 _ _ Hin)].
  unfold r1. by destruct noticed.
Qed.

Lemma purgeExpired_inv t now noticed r :
  inv t r → t ≤ now → (∀ gap, noticed = Some gap → 0 ≤ lostMs gap + sleptMs gap) →
  inv now (purgeExpired heartbeatTimeoutMs now noticed r).
Proof.
  intros Hi Ht Hg. destruct (purgeExpired_spec t now noticed r Hi Ht Hg) as [-> [Hwf Hb Ho Hs Hd]].
  set (r1 := match noticed with Some gap => _ | None => r end) in *.
  assert (disposed r1 = disposed r ∧ sweepAtMs r1 = sweepAtMs r) as [Hdis Hsw] by (unfold r1; by destruct noticed).
  split; simpl.
  - by apply jwf_filter.
  - etrans; [|exact Hb]. apply length_filter.
  - intros sid s [_ Hin]%list_elem_of_filter. by apply Ho.
  - intros sid s [_ Hin]%list_elem_of_filter. rewrite <- Hsw. by apply (Hs sid).
  - rewrite <- Hdis. intros Hdis'. destruct (Hd Hdis') as [-> ?]. by rewrite <- Hsw.
Qed.

Lemma set_observer_inv t r sid s :
  inv t r → disposed r = false → observer_ok heartbeatTimeoutMs t sid s →
  (length (jset sid s (observers r)) ≤ MAX_OBSERVER_SESSIONS)%nat →
  (∃ sweepAt, sweepAtMs r = Some sweepAt ∧ sweepAt ≤ expiresAtMs s) →
  inv t (with_observers (jset sid s) r).
Proof.
  intros [Hwf Hb Ho Hs Hd] Hdis Hok Hlen Hsw. split; simpl.
  - by apply jset_wf.
  - done.
  - intros k v [[-> ->]|[_ ?]]%in_jset; [done|by apply Ho|done].
  - intros k v [[-> ->]|[_ ?]]%in_jset; [done|by apply (Hs k)|done].
  - by rewrite Hdis.
Qed.

Lemma scheduleSweep_inv t r :
  jwf (observers r) → (length (observers r) ≤ MAX_OBSERVER_SESSIONS)%nat →
  (∀ sid s, (sid, s) ∈ observers r → observer_ok heartbeatTimeoutMs t sid s) →
  (disposed r = true → observers r = [] ∧ sweepAtMs r = None) →
  inv t (scheduleSweep r).
Proof.
  intros Hwf Hb Ho Hd. destruct (scheduleSweep_spec r) as (Eo & Ed & Hdis & Hs).
  destruct (disposed r) eqn:E.
  - rewrite Hdis by done. destruct (Hd eq_refl) as [Hnil Hnone]. split; auto.
    intros sid s Hin. rewrite Hnil in Hin. by apply elem_of_nil in Hin.
  - split; rewrite ?Eo, ?Ed; try done. by apply Hs.
Qed.

Lemma apply_op_inv t now noticed op r :
  inv t r → t ≤ now → (∀ gap, noticed = Some gap → 0 ≤ lostMs gap + sleptMs gap) →
  (∀ gap, op = OpForgive gap → 0 ≤ lostMs gap + sleptMs gap) →
  inv now (apply_op heartbeatTimeoutMs now noticed op r).
Proof.
  intros Hi Ht Hg Hop. pose proof (purgeExpired_inv t now noticed r Hi Ht Hg) as Hp.
  destruct op as [sid client|sid|sid reason|sid|gap| |]; simpl.
  - unfold register. set (r1 := purgeExpired _ _ _ _) in *. pose proof Hp as [Hwf Hb Ho Hs Hd].
    destruct (disposed r1) eqn:Ed; [done|].
    destruct (negb (jhas sid (observers r1)) && _) eqn:Ec; [done|]. cbn [snd].
    assert (observer_ok heartbeatTimeoutMs now sid (mkObserver sid client now (now + heartbeatTimeoutMs))) as Hok
      by (split; simpl; [done|lia..]).
    apply scheduleSweep_inv; simpl.
    + by apply jset_wf.
    + rewrite length_jset. destruct (jhas sid (observers r1)); [done|]. simpl in Ec. apply bool_decide_eq_false in Ec. lia.
    + intros k v [[-> ->]|[_ ?]]%in_jset; [done|by apply Ho|done].
    + by rewrite Ed.
  - unfold heartbeatObserver. set (r1 := purgeExpired _ _ _ _) in *.
    destruct (jget sid (observers r1)) as [s|] eqn:Es; [|done]. cbn [snd]. pose proof Hp as [Hwf Hb Ho Hs Hd].
    apply jget_in in Es as Hin. pose proof (Ho _ _ Hin) as [Hid Hh He].
    apply set_observer_inv; [done| | | |].
    + destruct (disposed r1) eqn:Ed; [|done]. destruct (Hd eq_refl) as [Hnil _]. by rewrite Hnil in Es.
    + split; simpl; [done|lia..].
    + rewrite length_jset. replace (jhas sid (observers r1)) with true; [done|]. symmetry. apply jhas_true. by eapply jget_in_keys.
    + destruct (Hs _ _ Hin) as (sw & ? & ?). exists sw. split; [done|]. simpl. lia.
  - unfold release, remove. set (r1 := purgeExpired _ _ _ _) in *. pose proof Hp as [Hwf Hb Ho Hs Hd].
    destruct (jhas sid (observers r1)); [|done]. cbn [snd].
    assert (∀ k v, (k, v) ∈ jdel sid (observers r1) → (k, v) ∈ observers r1) as Hsub by (intros k v [_ ?]%in_jdel; done).
    split; simpl; eauto using jdel_wf.
    + etrans; [|exact Hb]. apply length_jdel.
    + intros Hdis. destruct (Hd Hdis) as [-> ?]. done.
  - done.
  - apply forgiveStall_inv; [by eapply inv_later|by apply Hop].
  - unfold sweepFired. set (r0 := mkRegistry _ _ None _).
    destruct Hi as [Hwf Hb Ho Hs Hd].
    assert (∀ noticed, (∀ gap, noticed = Some gap → 0 ≤ lostMs gap + sleptMs gap) →
      let q := purgeExpired heartbeatTimeoutMs now noticed r in
      purgeExpired heartbeatTimeoutMs now noticed r0 = mkRegistry (observers q) (disposed q) None (gone q)) as Hsame.
    { intros n Hn. cbv zeta. destruct (purgeExpired_spec t now n r) as [-> _]; [by split|done|done|]. simpl.
      unfold purgeExpired.
      set (r1 := match n with Some gap => (forgiveStall heartbeatTimeoutMs now gap r0).2 | None => r0 end).
      rewrite (purge_loop now [] (observers r1) r1); unfold r1; destruct n as [gap|]; simpl; try done.
      - by apply (jwf_fmap (λ s, (forgiveSession heartbeatTimeoutMs now gap s).1)).
      - intros k v ([k0 s0] & Heq & Hin)%list_elem_of_fmap. simplify_eq/=.
        destruct (forgiveSession_ok now gap k0 s0) as [[? _ _] _]; [|by apply Hn|done].
        destruct (Ho _ _ Hin). split; [done|lia..].
      - intros k v Hin. by destruct (Ho _ _ Hin). }
    rewrite (Hsame noticed Hg). destruct Hp as [Hwf' Hb' Ho' Hs' Hd']. apply scheduleSweep_inv; simpl; try done.
    intros Hdis. by destruct (Hd' Hdis) as [-> _].
  - split; simpl; try done; [constructor|lia|by intros ? ? ?%elem_of_nil..].
Qed.

Lemma registry_reachable_inv t r : registry_reachable heartbeatTimeoutMs t r → inv t r.
Proof.
  induction 1 as [t|t t' noticed op r _ IH Ht Hg Hop].
  - split; simpl; try done; [constructor|lia|by intros ? ? ?%elem_of_nil..].
  - by eapply apply_op_inv.
Qed.
End RegistryFacts.

(** ** Properties *)

(** The registry is bounded and swept in time: in every reachable state there are at most 32
    observers, each under its own id; an observer expires at least one budget after its last
    heartbeat and, however many stalls were forgiven, at most one budget from now; and while
    any observer is registered a sweep is armed no later than its expiry. *)
Theorem observers_bounded_and_swept (heartbeatTimeoutMs t : Z) (r : Registry) :
  registry_reachable heartbeatTimeoutMs t r →
  NoDup (jkeys (observers r)) ∧ (length (observers r) ≤ MAX_OBSERVER_SESSIONS)%nat ∧
  (∀ sid s, jget sid (observers r) = Some s →
     observer_sessionId s = sid ∧ observer_lastHeartbeat s + heartbeatTimeoutMs ≤ expiresAtMs s ≤ t + heartbeatTimeoutMs ∧
     ∃ sweepAt, sweepAtMs r = Some sweepAt ∧ sweepAt ≤ expiresAtMs s) ∧
  (disposed r = true → observers r = [] ∧ sweepAtMs r = None).
Proof.
  intros [Hwf Hb Ho Hs Hd]%registry_reachable_inv. split_and!; [done..| |done].
  intros sid s Hin%jget_in. destruct (Ho _ _ Hin). split_and!; [done|lia..|by apply (Hs sid)].
Qed.

(** Expiry is exact: at any later instant with no gap to forgive, a heartbeat of a registered
    observer succeeds exactly when its expiry is still ahead and then renews it for a full budget; an expired one is
    gone for every read and reported once; an observer may look at a device exactly while
    registered, unexpired and the device is unowned. *)
Theorem observer_expiry_exact (heartbeatTimeoutMs t now : Z) (r : Registry) (sid : string) (s : ObserverSession)
    (deviceId : string) (owner : string → option string) :
  registry_reachable heartbeatTimeoutMs t r → t ≤ now → jget sid (observers r) = Some s →
  (heartbeatObserver heartbeatTimeoutMs now None sid r).1 = bool_decide (now < expiresAtMs s) ∧
  (now < expiresAtMs s →
     jget sid (observers (heartbeatObserver heartbeatTimeoutMs now None sid r).2) =
       Some (mkObserver sid (clientName s) now (now + heartbeatTimeoutMs))) ∧
  (canObserveDevice heartbeatTimeoutMs now None sid deviceId owner r).1 =
    bool_decide (now < expiresAtMs s) && bool_decide (owner deviceId = None) ∧
  (list_observers heartbeatTimeoutMs now None r).1 = (filter (λ e, now < expiresAtMs e.2) (observers r)).*2 ∧
  gone (list_observers heartbeatTimeoutMs now None r).2 = gone r ++ (filter (λ e, expiresAtMs e.2 ≤ now) (observers r)).*1.
Proof.
  intros Hi%registry_reachable_inv Ht Hj.
  destruct (purgeExpired_spec heartbeatTimeoutMs t now None r Hi Ht) as [Hp _]; [done|]. simpl in Hp.
  pose proof Hi as [Hwf _ Ho _ _]. pose proof (jget_in _ _ _ Hj) as Hin. destruct (Ho _ _ Hin) as [Hid _ _].
  assert (jget sid (filter (λ e, now < expiresAtMs e.2) (observers r)) = if bool_decide (now < expiresAtMs s) then Some s else None) as Hf.
  { case_bool_decide as Hlt.
    - apply jget_wf_in; [by apply jwf_filter|]. by apply list_elem_of_filter.
    - destruct (jget sid (filter _ _)) as [s'|] eqn:E; [|done]. apply jget_in, list_elem_of_filter in E as [Hlt' Hin'].
      apply (jget_wf_in _ _ _ Hwf) in Hin'. simplify_eq. done. }
  unfold heartbeatObserver, canObserveDevice, resolveObserverScope, list_observers. rewrite Hp; simpl.
  rewrite jhas_get, Hf. split_and!; try done.
  - by case_bool_decide.
  - intros Hlt. rewrite bool_decide_eq_true_2 by done. simpl. rewrite jget_set, decide_True by done. by rewrite Hid.
  - case_bool_decide as Hlt; [rewrite (bool_decide_eq_true_2 (is_Some (Some s))) by eauto|]; done.
Qed.

(** An observer registered at 0 with a ten second budget, heartbeating at 4 s. *)
Definition demoRegistry : Registry :=
  apply_op 10000 4000 None (OpHeartbeat "o") (apply_op 10000 0 None (OpRegister "o" "ide") newRegistry).

Lemma demoRegistry_reachable : registry_reachable 10000 4000 demoRegistry.
Proof.
  apply (reach_op 10000 0); [|lia|done|done]. apply (reach_op 10000 0); [|lia|done|done]. apply reach_new.
Defined.

Lemma observers_bounded_and_swept_witness :
  ∃ s, jget "o"%string (observers demoRegistry) = Some s ∧ expiresAtMs s = 14000 ∧
    ∃ sweepAt, sweepAtMs demoRegistry = Some sweepAt ∧ sweepAt ≤ 14000.
Proof.
  destruct (observers_bounded_and_swept 10000 4000 demoRegistry demoRegistry_reachable) as (_ & _ & H & _).
  eexists. split; [vm_compute; reflexivity|]. split; [reflexivity|].
  destruct (H "o"%string (mkObserver "o" "ide" 4000 14000)) as (_ & _ & Hs); [vm_compute; reflexivity|]. exact Hs.
Defined.

Lemma observer_expiry_exact_witness :
  (heartbeatObserver 10000 14000 None "o" demoRegistry).1 = false ∧
  (canObserveDevice 10000 13999 None "o" "emulator-5554" (λ _, None) demoRegistry).1 = true.
Proof.
  split.
  - destruct (observer_expiry_exact 10000 4000 14000 demoRegistry "o" (mkObserver "o" "ide" 4000 14000) "d" (λ _, None)
      demoRegistry_reachable) as (-> & _); [lia|vm_compute; reflexivity|vm_compute; reflexivity].
  - destruct (observer_expiry_exact 10000 4000 13999 demoRegistry "o" (mkObserver "o" "ide" 4000 14000) "emulator-5554" (λ _, None)
      demoRegistry_reachable) as (_ & _ & -> & _); [lia|vm_compute; reflexivity|vm_compute; reflexivity].
Defined.
