(* ===== verification/Coordination.v ===== *)
(** * Feasibility of multi-device coordination plans

    [src/src/utils/plan/CoordinationScheduleFeasibility.ts]: the search for an
    arrival order that lets every device track of a barrier plan finish.  This
    file holds the execution model and the search of one component; the split
    into components is in [CoordinationSplit]. *)
From Stdlib Require Import Strings.Ascii.
From stdpp Require Import strings pretty sorting relations.
From S2P Require Import Prelude JsMap.

(** ** Data *)

Record CoordinationEvent := mkEvent {
  tool : string; lock : string; deviceCount : Z; stepIndex : Z; unmodeled : bool }.
Record CoordinationTrack := mkTrack { device : string; events : list CoordinationEvent }.

#[export] Instance CoordinationEvent_eq_dec : EqDecision CoordinationEvent.
Proof. solve_decision. Defined.
#[export] Instance CoordinationTrack_eq_dec : EqDecision CoordinationTrack.
Proof. solve_decision. Defined.

Record StalledDevice := mkStalled { stalled_device : string; stalled_event : CoordinationEvent; waitingWith : list string }.
Record CoordinationDeadlock := mkDeadlock {
  stalled : list StalledDevice; finished : list string; releasedGenerations : list string }.

Definition MAX_SCHEDULE_STATES : Z := 10000.

Record ScheduleState := mkState { positions : list nat; arrived : list bool }.
#[export] Instance ScheduleState_eq_dec : EqDecision ScheduleState.
Proof. solve_decision. Defined.

Record Successor := mkSuccessor { succ_state : ScheduleState; succ_release : option string }.
Record Visit := mkVisit { parent : option string; visit_release : option string }.
Record DeadlockCandidate := mkCandidate { cand_key : string; cand_state : ScheduleState; cand_progress : nat }.

(** [list.join(separator)]. *)
Fixpoint js_join (sep : string) (l : list string) : string :=
  match l with
  | [] => EmptyString
  | [s] => s
  | s :: l' => s +:+ sep +:+ js_join sep l'
  end.

(** ["positions|arrived"], the positions in decimal. *)
Definition stateKey (st : ScheduleState) : string :=
  js_join "," (pretty <$> positions st) +:+ "|" +:+
  js_join EmptyString ((λ a : bool, if a then "1" else "0")%string <$> arrived st).

Section Component.
Context (tracks : list CoordinationTrack).

Definition currentEvent (st : ScheduleState) (index : nat) : option CoordinationEvent :=
  track ← tracks !! index; p ← positions st !! index; events track !! p.

Definition isComplete (st : ScheduleState) : bool :=
  forallb (λ i, match tracks !! i, positions st !! i with
                | Some track, Some p => bool_decide (length (events track) ≤ p)
                | _, _ => false end) (seq 0 (length tracks)).

Definition is_arrived (st : ScheduleState) (i : nat) : bool := default false (arrived st !! i).

Definition waitersAt (st : ScheduleState) (l : string) : list nat :=
  filter (λ j, is_arrived st j = true ∧ lock <$> currentEvent st j = Some l) (seq 0 (length tracks)).

(** [.sort()] of device names, by code unit. *)
Fixpoint insertSorted (s : string) (l : list string) : list string :=
  match l with
  | [] => [s]
  | x :: l' => if String.leb s x then s :: l else x :: insertSorted s l'
  end.
Definition sortStrings (l : list string) : list string := foldr insertSorted [] l.

Definition QUOTE : string := String (Ascii.ascii_of_nat 34) EmptyString.

Definition releaseLabel (l : string) (generation : list nat) : string :=
  let members := sortStrings (omap (λ m, device <$> tracks !! m) generation) in
  QUOTE +:+ l +:+ QUOTE +:+ " {" +:+ js_join ", " members +:+ "}".

Definition arrive (st : ScheduleState) (index : nat) (event : CoordinationEvent) : Successor :=
  let generation := waitersAt st (lock event) ++ [index] in
  if bool_decide (Z.of_nat (length generation) < deviceCount event)%Z then
    mkSuccessor (mkState (positions st) (<[index := true]> (arrived st))) None
  else
    mkSuccessor
      (mkState (foldl (λ ps m, alter S m ps) (positions st) generation)
               (foldl (λ ar m, <[m := false]> ar) (arrived st) generation))
      (Some (releaseLabel (lock event) generation)).

Definition successorsOf (st : ScheduleState) : list Successor :=
  omap (λ i, if is_arrived st i then None else arrive st i <$> currentEvent st i) (seq 0 (length tracks)).

Definition progressOf (st : ScheduleState) : nat := sum_list (positions st).

(** The walk to the initial state; [fuel] bounds it by the states visited. *)
Fixpoint releasesFrom (fuel : nat) (visited : JsMap string Visit) (cursor : option string) : list string :=
  match fuel, cursor with
  | S fuel', Some key =>
      match jget key visited with
      | Some visit => option_list (visit_release visit) ++ releasesFrom fuel' visited (parent visit)
      | None => []
      end
  | _, _ => []
  end.
Definition releasedGenerationsTo (visited : JsMap string Visit) (key : string) : list string :=
  reverse (releasesFrom (length visited) visited (Some key)).

Definition deviceAt (j : nat) : option string := device <$> tracks !! j.

Definition stalledAt (st : ScheduleState) : list StalledDevice :=
  omap (λ i, track ← tracks !! i; event ← currentEvent st i;
             Some (mkStalled (device track) event (omap deviceAt (waitersAt st (lock event))))) (seq 0 (length tracks)).
Definition finishedAt (st : ScheduleState) : list string :=
  omap (λ i, track ← tracks !! i;
             match currentEvent st i with None => Some (device track) | Some _ => None end) (seq 0 (length tracks)).

Definition describeStall (visited : JsMap string Visit) (candidate : DeadlockCandidate) : CoordinationDeadlock :=
  mkDeadlock (stalledAt (cand_state candidate)) (finishedAt (cand_state candidate))
    (releasedGenerationsTo visited (cand_key candidate)).

Definition initialState : ScheduleState :=
  mkState ((λ _, 0) <$> tracks) ((λ _, false) <$> tracks).

(** The loop over the successors; [None] when the search bound is reached.  The
    head of [stack] is its top. *)
Fixpoint pushSuccessors (maxStates : Z) (key : string) (succs : list Successor)
    (visited : JsMap string Visit) (stack : list ScheduleState) :
    option (JsMap string Visit * list ScheduleState) :=
  match succs with
  | [] => Some (visited, stack)
  | s :: succs' =>
      let nextKey := stateKey (succ_state s) in
      if jhas nextKey visited then pushSuccessors maxStates key succs' visited stack
      else if bool_decide (maxStates ≤ Z.of_nat (length visited))%Z then None
      else pushSuccessors maxStates key succs'
             (jset nextKey (mkVisit (Some key) (succ_release s)) visited) (succ_state s :: stack)
  end.

(** The search loop; the result is [None] when the fuel runs out, [Some None]
    for [null]. *)
Fixpoint searchLoop (fuel : nat) (maxStates : Z) (visited : JsMap string Visit) (stack : list ScheduleState)
    (deepest : option DeadlockCandidate) : option (option CoordinationDeadlock) :=
  match fuel with
  | O => None
  | S fuel' =>
      match stack with
      | [] => Some (describeStall visited <$> deepest)
      | st :: stack' =>
          if isComplete st then Some None
          else
            let key := stateKey st in
            match successorsOf st with
            | [] =>
                let progress := progressOf st in
                let deepest' :=
                  if match deepest with None => true | Some d => bool_decide (cand_progress d < progress) end
                  then Some (mkCandidate key st progress) else deepest in
                searchLoop fuel' maxStates visited stack' deepest'
            | succs =>
                match pushSuccessors maxStates key succs visited stack' with
                | None => Some None
                | Some (visited', stack'') => searchLoop fuel' maxStates visited' stack'' deepest
                end
            end
      end
  end.

Definition searchFuel (maxStates : Z) : nat := S (S (Z.to_nat maxStates)).

Definition searchComponent (maxStates : Z) : option (option CoordinationDeadlock) :=
  searchLoop (searchFuel maxStates) maxStates [(stateKey initialState, mkVisit None None)] [initialState] None.

(** ** The execution model *)

(** One device arrives; the label is the generation it releases, if any. *)
Definition arrives (st : ScheduleState) (release : option string) (st' : ScheduleState) : Prop :=
  mkSuccessor st' release ∈ successorsOf st.

(** An arrival order: the generations it releases, in order. *)
Inductive schedule : ScheduleState → list string → ScheduleState → Prop :=
| schedule_nil st : schedule st [] st
| schedule_snoc st rs st1 r st2 :
    schedule st rs st1 → arrives st1 r st2 → schedule st (rs ++ option_list r) st2.

Definition reachable (st : ScheduleState) : Prop := ∃ rs, schedule initialState rs st.

(** Some arrival order lets every track finish. *)
Definition can_complete : Prop := ∃ st, reachable st ∧ isComplete st = true.

(** A state nobody can leave though some track is not finished. *)
Definition deadlocked (st : ScheduleState) : Prop := successorsOf st = [] ∧ isComplete st = false.
End Component.

(** ** Keys identify states *)

(** No character of [s] is [c]. *)
Fixpoint avoids (c : Ascii.ascii) (s : string) : Prop :=
  match s with EmptyString => True | String d s' => d ≠ c ∧ avoids c s' end.

Lemma avoids_app c s t : avoids c (s +:+ t) ↔ avoids c s ∧ avoids c t.
Proof. induction s as [|d s IH]; simpl; [tauto|]. rewrite IH. tauto. Qed.

Lemma avoids_split c s1 s2 t1 t2 :
  avoids c s1 → avoids c s2 → s1 +:+ String c t1 = s2 +:+ String c t2 → s1 = s2 ∧ t1 = t2.
Proof.
  revert s2; induction s1 as [|d s1 IH]; intros [|e s2]; simpl; intros H1 H2 E; simplify_eq; try tauto.
  destruct (IH s2) as [-> ->]; tauto.
Qed.

(** Digits are neither of the separators. *)
Lemma pretty_N_go_avoids c x s :
  (∀ d, pretty_N_char d ≠ c) → avoids c s → avoids c (pretty_N_go x s).
Proof.
  intros Hc; revert s; induction (N.lt_wf_0 x) as [x _ IH]; intros s Hs.
  destruct (decide (x = 0)%N) as [->|Hx]; [by rewrite pretty_N_go_0|].
  rewrite pretty_N_go_step by lia. apply IH; [apply N.div_lt; lia|].
  simpl; split; [apply Hc|done].
Qed.

Lemma pretty_avoids c (n : nat) : (∀ d, pretty_N_char d ≠ c) → avoids c (pretty n).
Proof.
  intros Hc. unfold pretty, pretty_nat, pretty, pretty_N.
  case_decide; [|by apply pretty_N_go_avoids].
  simpl; split; [exact (Hc 0%N)|done].
Qed.

Lemma digit_not_comma d : pretty_N_char d ≠ ","%char.
Proof. unfold pretty_N_char. repeat case_match; done. Qed.
Lemma digit_not_bar d : pretty_N_char d ≠ "|"%char.
Proof. unfold pretty_N_char. repeat case_match; done. Qed.

Lemma js_join_avoids c sep l : avoids c sep → Forall (avoids c) l → avoids c (js_join sep l).
Proof.
  intros Hs. induction 1 as [|s l Hc Hl IH]; [done|].
  destruct l as [|t l]; [done|]. change (avoids c (s +:+ sep +:+ js_join sep (t :: l))).
  rewrite !avoids_app. auto.
Qed.

Lemma js_join_comma_inj l1 l2 :
  Forall (avoids ",") l1 → Forall (avoids ",") l2 → length l1 = length l2 →
  js_join "," l1 = js_join "," l2 → l1 = l2.
Proof.
  intros H1; revert l2; induction H1 as [|s1 l1 Hs1 H1 IH]; intros [|s2 l2] H2 Hlen E; try done.
  inversion H2; subst.
  destruct l1 as [|t1 l1], l2 as [|t2 l2]; try done; [by simpl in E; subst|].
  change (s1 +:+ String "," (js_join "," (t1 :: l1)) = s2 +:+ String "," (js_join "," (t2 :: l2))) in E.
  apply avoids_split in E as [-> E]; [|done..]. f_equal. apply IH; [done|simpl in *; lia|done].
Qed.

Lemma bits_inj (l1 l2 : list bool) :
  length l1 = length l2 →
  js_join EmptyString ((λ a : bool, if a then "1" else "0")%string <$> l1) =
  js_join EmptyString ((λ a : bool, if a then "1" else "0")%string <$> l2) → l1 = l2.
Proof.
  assert (Hcons : ∀ (a : bool) l, js_join EmptyString ((λ a : bool, if a then "1" else "0")%string <$> a :: l) =
    String (if a then "1" else "0")%char (js_join EmptyString ((λ a : bool, if a then "1" else "0")%string <$> l)))
    by (intros [] [|[] l]; done).
  revert l2; induction l1 as [|a l1 IH]; intros [|b l2] Hlen E; try done.
  rewrite !Hcons in E. injection E as Eab E. f_equal; [by destruct a, b|]. apply IH; [by injection Hlen|done].
Qed.

Lemma stateKey_inj st1 st2 :
  length (positions st1) = length (positions st2) → length (arrived st1) = length (arrived st2) →
  stateKey st1 = stateKey st2 → st1 = st2.
Proof.
  destruct st1 as [p1 a1], st2 as [p2 a2]; unfold stateKey; cbn [positions arrived]; intros Hp Ha E.
  assert (Hc : ∀ p : list nat, Forall (avoids ",") (pretty <$> p))
    by (intros; apply Forall_fmap, Forall_true; intros; apply pretty_avoids, digit_not_comma).
  assert (Hb : ∀ p : list nat, avoids "|" (js_join "," (pretty <$> p))).
  { intros; apply js_join_avoids; [done|]. apply Forall_fmap, Forall_true. intros; apply pretty_avoids, digit_not_bar. }
  apply (avoids_split "|") in E as [E1 E2]; [|done..].
  apply js_join_comma_inj in E1; [|done..|by rewrite !length_fmap].
  apply bits_inj in E2; [|done]. apply (inj (fmap pretty)) in E1. congruence.
Qed.

(** ** What an arrival does *)

Section Arrivals.
Context (tracks : list CoordinationTrack).

Definition pos (st : ScheduleState) (i : nat) : nat := default 0 (positions st !! i).
Definition eventCount (i : nat) : nat := default 0 (length ∘ events <$> tracks !! i).

(** Positions stay inside the tracks, and only a device with an event left waits. *)
Record state_wf (st : ScheduleState) : Prop := {
  wf_positions : length (positions st) = length tracks;
  wf_arrived : length (arrived st) = length tracks;
  wf_pos i : pos st i ≤ eventCount i;
  wf_waiting i : is_arrived st i = true → pos st i < eventCount i }.

(** Twice the position, plus one while waiting: it grows with every arrival. *)
Definition deviceProgress (st : ScheduleState) (i : nat) : nat := 2 * pos st i + Nat.b2n (is_arrived st i).
Definition measure (st : ScheduleState) : nat := sum_list (deviceProgress st <$> seq 0 (length tracks)).

Lemma currentEvent_spec st i :
  state_wf st → currentEvent tracks st i = (track ← tracks !! i; events track !! pos st i).
Proof.
  intros Hwf. unfold currentEvent, pos. destruct (tracks !! i) eqn:Ht; simpl; [|done].
  destruct (lookup_lt_is_Some_2 (positions st) i) as [p ->]; [|done].
  rewrite (wf_positions _ Hwf). by eapply lookup_lt_Some.
Qed.

Lemma currentEvent_Some st i :
  state_wf st → is_Some (currentEvent tracks st i) ↔ pos st i < eventCount i.
Proof.
  intros Hwf. rewrite (currentEvent_spec _ _ Hwf). unfold eventCount.
  destruct (tracks !! i); simpl; [apply lookup_lt_is_Some|].
  split; [by intros [? ?]|lia].
Qed.

Lemma currentEvent_lt st i e : currentEvent tracks st i = Some e → i < length tracks.
Proof.
  unfold currentEvent. destruct (tracks !! i) eqn:Ht; [|done]. intros _. by eapply lookup_lt_Some.
Qed.

Lemma isComplete_spec st :
  state_wf st → isComplete tracks st = true ↔ ∀ i, i < length tracks → pos st i = eventCount i.
Proof.
  intros Hwf. unfold isComplete. rewrite forallb_forall.
  assert (Hi : ∀ i, i < length tracks →
    match tracks !! i, positions st !! i with
    | Some track, Some p => bool_decide (length (events track) ≤ p) | _, _ => false end
    = bool_decide (eventCount i ≤ pos st i)).
  { intros i Hi. unfold eventCount, pos. destruct (lookup_lt_is_Some_2 tracks i) as [t ->]; [done|].
    destruct (lookup_lt_is_Some_2 (positions st) i) as [p ->]; [by rewrite (wf_positions _ Hwf)|]. done. }
  split.
  - intros H i Hlt. specialize (H i). rewrite Hi in H by done.
    pose proof (wf_pos _ Hwf i). assert (eventCount i ≤ pos st i); [|lia].
    eapply bool_decide_eq_true_1, H, in_seq. lia.
  - intros H i Hin%in_seq. rewrite Hi by lia. apply bool_decide_eq_true_2. rewrite H; lia.
Qed.

Lemma elem_of_waitersAt st l j :
  j ∈ waitersAt tracks st l ↔ is_arrived st j = true ∧ lock <$> currentEvent tracks st j = Some l.
Proof.
  unfold waitersAt. rewrite list_elem_of_filter, elem_of_seq. split; [tauto|].
  intros [H1 H2]. split; [done|]. destruct (currentEvent tracks st j) eqn:E; [|done].
  apply currentEvent_lt in E. lia.
Qed.

Lemma waitersAt_NoDup st l : NoDup (waitersAt tracks st l).
Proof. apply list.NoDup_filter, NoDup_seq. Qed.

(** The generation an arrival may release. *)
Definition generationOf (st : ScheduleState) (i : nat) (e : CoordinationEvent) : list nat :=
  waitersAt tracks st (lock e) ++ [i].

Lemma generationOf_NoDup st i e : is_arrived st i = false → NoDup (generationOf st i e).
Proof.
  intros Hi. apply list.NoDup_app. split; [apply waitersAt_NoDup|]. split; [|apply NoDup_singleton].
  intros x [Hx _]%elem_of_waitersAt ->%list_elem_of_singleton. congruence.
Qed.

Lemma generationOf_event st i e j :
  currentEvent tracks st i = Some e → j ∈ generationOf st i e →
  ∃ e', currentEvent tracks st j = Some e' ∧ lock e' = lock e.
Proof.
  intros He [[_ H]%elem_of_waitersAt| ->%list_elem_of_singleton]%elem_of_app; [|eauto].
  destruct (currentEvent tracks st j); naive_solver.
Qed.

Lemma lookup_alter_all (gen l : list nat) i :
  NoDup gen → foldl (λ ps m, alter S m ps) l gen !! i = (if decide (i ∈ gen) then S else id) <$> l !! i.
Proof.
  intros H; revert l; induction H as [|m gen Hm _ IH]; intros l; simpl; [by destruct (l !! i)|].
  rewrite IH. destruct (decide (i = m)) as [->|Hne].
  - rewrite decide_False, decide_True, list_lookup_alter_eq by set_solver. by destruct (l !! m).
  - rewrite list_lookup_alter_ne by done. by destruct (decide (i ∈ gen)), (decide (i ∈ m :: gen)); try set_solver.
Qed.

Lemma lookup_clear_all (gen : list nat) (l : list bool) i :
  foldl (λ ar m, <[m := false]> ar) l gen !! i = (λ a, if decide (i ∈ gen) then false else a) <$> l !! i.
Proof.
  revert l; induction gen as [|m gen IH]; intros l; simpl; [by destruct (l !! i)|].
  rewrite IH. destruct (decide (i = m)) as [->|Hne].
  - destruct (decide (m ∈ m :: gen)) as [_|[]]; [|set_solver].
    destruct (decide (m < length l)) as [Hlt|Hge].
    + rewrite list_lookup_insert_eq by done. destruct (lookup_lt_is_Some_2 l m Hlt) as [x ->]. simpl. by case_decide.
    + rewrite list_insert_ge by lia. rewrite (lookup_ge_None_2 l m) by lia. done.
  - rewrite list_lookup_insert_ne by done. destruct (l !! i); simpl; [|done].
    by destruct (decide (i ∈ gen)), (decide (i ∈ m :: gen)); try set_solver.
Qed.

Lemma length_alter_all (gen l : list nat) : length (foldl (λ ps m, alter S m ps) l gen) = length l.
Proof. revert l; induction gen; intros l; simpl; [done|]. rewrite IHgen. apply length_alter. Qed.
Lemma length_clear_all (gen : list nat) (l : list bool) : length (foldl (λ ar m, <[m := false]> ar) l gen) = length l.
Proof. revert l; induction gen; intros l; simpl; [done|]. rewrite IHgen. apply length_insert. Qed.

(** The effect of one arrival on every device. *)
Lemma arrive_effect st i e j :
  state_wf st → is_arrived st i = false → currentEvent tracks st i = Some e →
  let s := arrive tracks st i e in
  let full := bool_decide (deviceCount e ≤ Z.of_nat (length (generationOf st i e)))%Z in
  let member := bool_decide (j ∈ generationOf st i e) in
  pos (succ_state s) j = pos st j + Nat.b2n (full && member) ∧
  is_arrived (succ_state s) j = (if full then is_arrived st j && negb member else is_arrived st j || bool_decide (j = i)) ∧
  succ_release s = (if full then Some (releaseLabel tracks (lock e) (generationOf st i e)) else None).
Proof.
  intros Hwf Hi He. cbn zeta. unfold arrive. fold (generationOf st i e).
  pose proof (generationOf_NoDup st i e Hi) as Hnd.
  destruct (decide (deviceCount e ≤ Z.of_nat (length (generationOf st i e)))%Z) as [Hf|Hf].
  - rewrite (bool_decide_eq_false_2 (Z.of_nat _ < _)%Z), (bool_decide_eq_true_2 (deviceCount e ≤ _)%Z) by lia.
    cbn [succ_state succ_release andb]. split_and!; [| |done].
    + unfold pos; cbn [positions]. rewrite lookup_alter_all by done.
      assert (Hlt : j ∈ generationOf st i e → j < length (positions st)).
      { intros Hj. rewrite (wf_positions _ Hwf). destruct (generationOf_event st i e j He Hj) as (? & E & _).
        by eapply currentEvent_lt. }
      case_decide; case_bool_decide; try done; [|destruct (positions st !! j); simpl; lia].
      destruct (lookup_lt_is_Some_2 (positions st) j) as [p ->]; [auto|]. simpl; lia.
    + unfold is_arrived; cbn [arrived]. rewrite lookup_clear_all.
      case_decide; case_bool_decide; try done; destruct (arrived st !! j) as [[]|]; done.
  - rewrite (bool_decide_eq_true_2 (Z.of_nat _ < _)%Z), (bool_decide_eq_false_2 (deviceCount e ≤ _)%Z) by lia.
    cbn [succ_state succ_release andb]. split_and!; [unfold pos; simpl; lia| |done].
    unfold is_arrived; cbn [arrived]. case_bool_decide as Hj.
    + subst j. rewrite list_lookup_insert_eq; [by rewrite orb_true_r|].
      rewrite (wf_arrived _ Hwf). by eapply currentEvent_lt.
    + by rewrite list_lookup_insert_ne, orb_false_r by done.
Qed.

Lemma sum_list_le {A} (f g : A → nat) (l : list A) :
  (∀ y, y ∈ l → f y ≤ g y) → sum_list (f <$> l) ≤ sum_list (g <$> l).
Proof.
  induction l as [|y l IH]; intros H; [done|]. change (f y + sum_list (f <$> l) ≤ g y + sum_list (g <$> l)).
  pose proof (H y (list_elem_of_here y l)). assert (sum_list (f <$> l) ≤ sum_list (g <$> l)); [|lia].
  apply IH. intros z Hz. apply H. by right.
Qed.

Lemma sum_list_lt {A} (f g : A → nat) (l : list A) x :
  (∀ y, y ∈ l → f y ≤ g y) → x ∈ l → f x < g x → sum_list (f <$> l) < sum_list (g <$> l).
Proof.
  induction l as [|y l IH]; intros H Hx Hlt; [by apply elem_of_nil in Hx|]. change (f y + sum_list (f <$> l) < g y + sum_list (g <$> l)).
  pose proof (H y (list_elem_of_here y l)).
  assert (Hl : ∀ z, z ∈ l → f z ≤ g z) by (intros; apply H; by right).
  apply elem_of_cons in Hx as [<-|Hx]; [pose proof (sum_list_le f g l Hl); lia|].
  specialize (IH Hl Hx Hlt). lia.
Qed.

Lemma initial_wf : state_wf (initialState tracks).
Proof.
  assert (Hp : ∀ i, pos (initialState tracks) i = 0)
    by (intros i; unfold pos, initialState; simpl; rewrite list_lookup_fmap; by destruct (tracks !! i)).
  split; [by simpl; rewrite length_fmap..| |].
  - intros i. rewrite Hp. lia.
  - intros i. unfold is_arrived, initialState; simpl. rewrite list_lookup_fmap. by destruct (tracks !! i).
Qed.

Lemma arrives_inv st r st' :
  arrives tracks st r st' ↔ ∃ i e, is_arrived st i = false ∧ currentEvent tracks st i = Some e ∧
    arrive tracks st i e = mkSuccessor st' r.
Proof.
  unfold arrives, successorsOf. rewrite list_elem_of_omap. split.
  - intros (i & _ & H). destruct (is_arrived st i) eqn:Ha; [done|].
    destruct (currentEvent tracks st i) as [e|] eqn:He; simplify_eq/=. eauto.
  - intros (i & e & Ha & He & E). exists i. rewrite Ha, He; simpl. rewrite E. split; [|done].
    apply elem_of_seq. apply currentEvent_lt in He. lia.
Qed.

Lemma arrive_wf st i e :
  state_wf st → is_arrived st i = false → currentEvent tracks st i = Some e →
  state_wf (succ_state (arrive tracks st i e)).
Proof.
  intros Hwf Hi He.
  assert (Hmem : ∀ j, j ∈ generationOf st i e → pos st j < eventCount j).
  { intros j Hj. apply currentEvent_Some; [done|]. destruct (generationOf_event st i e j He Hj) as (? & -> & _). eauto. }
  split.
  - unfold arrive. case_bool_decide; simpl; [apply Hwf|]. rewrite length_alter_all. apply Hwf.
  - unfold arrive. case_bool_decide; simpl; [rewrite length_insert; apply Hwf|]. rewrite length_clear_all. apply Hwf.
  - intros j. destruct (arrive_effect st i e j Hwf Hi He) as (-> & _ & _). pose proof (wf_pos _ Hwf j).
    repeat case_bool_decide; simpl; try lia. specialize (Hmem j ltac:(assumption)). lia.
  - intros j. destruct (arrive_effect st i e j Hwf Hi He) as (-> & -> & _). pose proof (wf_waiting _ Hwf j) as Hw.
    repeat case_bool_decide; simpl; rewrite ?andb_false_r, ?orb_true_r, ?orb_false_r; intros; simplify_eq;
      try rewrite andb_true_r in *; rewrite Nat.add_0_r; auto.
    apply (currentEvent_Some st i Hwf). eauto.
Qed.

Lemma arrives_wf st r st' : state_wf st → arrives tracks st r st' → state_wf st'.
Proof.
  intros Hwf (i & e & Hi & He & E)%arrives_inv. change st' with (succ_state (mkSuccessor st' r)).
  rewrite <- E. by apply arrive_wf.
Qed.

Lemma arrives_measure st r st' : state_wf st → arrives tracks st r st' → measure st < measure st'.
Proof.
  intros Hwf (i & e & Hi & He & E)%arrives_inv. change st' with (succ_state (mkSuccessor st' r)). rewrite <- E.
  unfold measure, deviceProgress. apply (sum_list_lt _ _ _ i).
  - intros j _. destruct (arrive_effect st i e j Hwf Hi He) as (-> & -> & _).
    repeat case_bool_decide; destruct (is_arrived st j); simpl; lia.
  - apply elem_of_seq. apply currentEvent_lt in He. lia.
  - destruct (arrive_effect st i e i Hwf Hi He) as (-> & -> & _). rewrite Hi.
    rewrite (bool_decide_eq_true_2 (i ∈ _)), (bool_decide_eq_true_2 (i = i)) by (unfold generationOf; set_solver).
    case_bool_decide; simpl; lia.
Qed.

Definition measureBound : nat := sum_list ((λ i, 2 * eventCount i) <$> seq 0 (length tracks)).

Lemma measure_bound st : state_wf st → measure st ≤ measureBound.
Proof.
  intros Hwf. apply sum_list_le. intros i _. unfold deviceProgress.
  pose proof (wf_pos _ Hwf i). pose proof (wf_waiting _ Hwf i).
  destruct (is_arrived st i); simpl; [|lia]. specialize (H0 eq_refl). lia.
Qed.

(** *** Schedules *)

Lemma schedule_app st rs st1 rs' st2 :
  schedule tracks st rs st1 → schedule tracks st1 rs' st2 → schedule tracks st (rs ++ rs') st2.
Proof.
  intros H1; induction 1 as [|st1 rs' st2 r st3 H2 IH Ha]; [by rewrite app_nil_r|].
  rewrite app_assoc. econstructor; eauto.
Qed.

Lemma schedule_one st r st' : arrives tracks st r st' → schedule tracks st (option_list r) st'.
Proof. intros. apply (schedule_snoc _ st [] st r st'); [constructor|done]. Qed.

Lemma schedule_wf st rs st' : schedule tracks st rs st' → state_wf st → state_wf st'.
Proof. induction 1; eauto using arrives_wf. Qed.

Lemma reachable_wf st : reachable tracks st → state_wf st.
Proof. intros [rs H]. eapply schedule_wf, initial_wf. done. Qed.

Lemma reachable_step st r st' : reachable tracks st → arrives tracks st r st' → reachable tracks st'.
Proof. intros [rs H] Ha. eexists. econstructor; eauto. Qed.

Lemma reachable_schedule st rs st' : reachable tracks st → schedule tracks st rs st' → reachable tracks st'.
Proof. intros [rs0 H] Hs. exists (rs0 ++ rs). by eapply schedule_app. Qed.

(** Every arrival order can be continued until nobody can move. *)
Lemma runs_to_the_end st :
  state_wf st → ∃ rs st', schedule tracks st rs st' ∧ successorsOf tracks st' = [].
Proof.
  intros Hwf. remember (measureBound - measure st) as k eqn:Hk.
  revert st Hwf Hk; induction (lt_wf k) as [k _ IH]; intros st Hwf ->.
  destruct (successorsOf tracks st) as [|[st1 r] l] eqn:Hs; [exists [], st; split; [constructor|done]|].
  assert (Ha : arrives tracks st r st1) by (unfold arrives; rewrite Hs; left).
  pose proof (arrives_measure _ _ _ Hwf Ha). pose proof (arrives_wf _ _ _ Hwf Ha) as Hwf1.
  pose proof (measure_bound _ Hwf1).
  destruct (IH (measureBound - measure st1)) with (st := st1) as (rs & st' & Hrun & Hend); [lia|done..|].
  exists (option_list r ++ rs), st'. split; [|done]. eapply schedule_app; [by apply schedule_one|done].
Qed.
End Arrivals.
