(* ===== verification/CoordinationSearch.v ===== *)
(** * The search of one component decides feasibility

    Theorems on [Coordination.searchComponent]: it always answers, a reported
    deadlock is unavoidable and reachable as described, and [null] means that
    some arrival order completes or that the search bound was passed. *)
From stdpp Require Import strings sorting relations.
From S2P Require Import Prelude JsMap Coordination.

Section Search.
Context (tracks : list CoordinationTrack) (maxStates : Z).

Lemma stateKey_wf_inj st1 st2 :
  state_wf tracks st1 → state_wf tracks st2 → stateKey st1 = stateKey st2 → st1 = st2.
Proof.
  intros H1 H2. apply stateKey_inj; [rewrite (wf_positions _ _ H1); symmetry; apply H2|].
  rewrite (wf_arrived _ _ H1); symmetry; apply H2.
Qed.

(** ** The [visited] map *)

Definition seen (visited : JsMap string Visit) (st : ScheduleState) : Prop := stateKey st ∈ jkeys visited.

(** The parent links lead from a key to the initial state, releasing [rs]. *)
Inductive chain (visited : JsMap string Visit) : nat → option string → list string → Prop :=
| chain_root : chain visited 0 None []
| chain_step k key v rs :
    jget key visited = Some v → chain visited k (parent v) rs →
    chain visited (S k) (Some key) (rs ++ option_list (visit_release v)).

Definition extends (visited visited' : JsMap string Visit) : Prop :=
  ∀ key v, jget key visited = Some v → jget key visited' = Some v.

Lemma extends_seen visited visited' st : extends visited visited' → seen visited st → seen visited' st.
Proof.
  unfold seen. intros He Hs%jhas_true. rewrite jhas_get in Hs. apply bool_decide_eq_true_1 in Hs as [v Hv].
  by eapply jget_in_keys, He.
Qed.

Lemma chain_mono visited visited' k c rs : extends visited visited' → chain visited k c rs → chain visited' k c rs.
Proof. intros He. induction 1; econstructor; eauto. Qed.

Lemma chain_releases visited k c rs fuel :
  chain visited k c rs → k ≤ fuel → reverse (releasesFrom fuel visited c) = rs.
Proof.
  intros H; revert fuel; induction H as [|k key v rs Hv _ IH]; intros [|fuel] Hle; try done; try lia.
  simpl. rewrite Hv, reverse_app, IH by lia. by destruct (visit_release v).
Qed.

(** [st] was reached as its chain of parents tells. *)
Definition tracked (visited : JsMap string Visit) (st : ScheduleState) : Prop :=
  ∃ rs k, schedule tracks (initialState tracks) rs st ∧
    chain visited k (Some (stateKey st)) rs ∧ k ≤ length visited.

Record visited_ok (visited : JsMap string Visit) : Prop := {
  vo_wf : jwf visited;
  vo_tracked key : key ∈ jkeys visited → ∃ st, stateKey st = key ∧ tracked visited st }.

Lemma tracked_reachable visited st : tracked visited st → reachable tracks st.
Proof. intros (rs & _ & H & _). by exists rs. Qed.

Lemma seen_tracked visited st : visited_ok visited → state_wf tracks st → seen visited st → tracked visited st.
Proof.
  intros Hv Hwf Hs. destruct (vo_tracked _ Hv _ Hs) as (st' & Hk & Ht).
  apply stateKey_wf_inj in Hk as ->; [done| |done]. by eapply reachable_wf, tracked_reachable.
Qed.

Lemma tracked_extends visited visited' st :
  extends visited visited' → length visited ≤ length visited' → tracked visited st → tracked visited' st.
Proof. intros He Hl (rs & k & Hs & Hc & Hk). exists rs, k. split_and!; [done|by eapply chain_mono|lia]. Qed.

(** Entering a new state keeps the map sound. *)
Lemma visited_add visited st r st' :
  visited_ok visited → tracked visited st → arrives tracks st r st' → jhas (stateKey st') visited = false →
  let visited' := jset (stateKey st') (mkVisit (Some (stateKey st)) r) visited in
  visited_ok visited' ∧ extends visited visited' ∧ tracked visited' st' ∧ length visited' = S (length visited).
Proof.
  intros Hv Ht Ha Hnew visited'.
  assert (Hext : extends visited visited').
  { intros key v Hg. unfold visited'. rewrite jget_set. case_decide; [|done]. subst key.
    rewrite jhas_get, Hg in Hnew. done. }
  assert (Hlen : length visited' = S (length visited)) by (unfold visited'; rewrite length_jset, Hnew; lia).
  assert (Ht' : tracked visited' st').
  { destruct Ht as (rs & k & Hs & Hc & Hk). exists (rs ++ option_list r), (S k). split_and!; [by econstructor| |lia].
    refine (chain_step _ k _ (mkVisit (Some (stateKey st)) r) rs _ _).
    - unfold visited'. by rewrite jget_set, decide_True.
    - by eapply chain_mono. }
  split_and!; try done. split; [apply jset_wf, Hv|].
  intros key. unfold visited'. rewrite jkeys_set, Hnew, elem_of_app, list_elem_of_singleton.
  intros [Hk| ->]; [|eauto]. destruct (vo_tracked _ Hv _ Hk) as (st1 & <- & Ht1).
  exists st1. split; [done|]. eapply tracked_extends; [done| |done]. fold visited'. lia.
Qed.

(** ** Many distinct reachable states *)

Definition exceeds_bound : Prop :=
  ∃ l : list ScheduleState, NoDup l ∧ Forall (reachable tracks) l ∧ (maxStates < Z.of_nat (length l))%Z.

Lemma states_of_keys visited (keys : list string) :
  Forall (λ key, ∃ st, stateKey st = key ∧ tracked visited st) keys →
  ∃ l : list ScheduleState, stateKey <$> l = keys ∧ Forall (reachable tracks) l.
Proof.
  induction 1 as [|key keys (st & <- & Ht) _ (l & <- & Hl)]; [by exists []|].
  exists (st :: l). split; [done|]. constructor; [by eapply tracked_reachable|done].
Qed.

Lemma bound_exceeded visited st :
  visited_ok visited → reachable tracks st → jhas (stateKey st) visited = false →
  (maxStates ≤ Z.of_nat (length visited))%Z → exceeds_bound.
Proof.
  intros Hv Hr Hnew Hmax.
  destruct (states_of_keys visited (jkeys visited)) as (l & Hl & Hreach).
  { apply list.Forall_forall, (vo_tracked _ Hv). }
  assert (Hlen : length l = length visited).
  { rewrite <- (length_fmap stateKey), Hl. apply length_fmap. }
  exists (st :: l). split_and!; [|by constructor|simpl; lia].
  apply (NoDup_fmap_1 stateKey). rewrite fmap_cons, Hl. constructor; [by apply jhas_false|apply Hv].
Qed.

(** ** The inner loop *)

Lemma pushSuccessors_spec st succs visited stack :
  visited_ok visited → tracked visited st →
  (∀ s, s ∈ succs → arrives tracks st (succ_release s) (succ_state s)) →
  match pushSuccessors maxStates (stateKey st) succs visited stack with
  | None => exceeds_bound
  | Some (visited', stack') =>
      visited_ok visited' ∧ extends visited visited' ∧ (∀ s, s ∈ succs → seen visited' (succ_state s)) ∧
      ∃ new, stack' = new ++ stack ∧ length visited' = length visited + length new ∧
        (∀ st', st' ∈ new → state_wf tracks st' ∧ seen visited' st') ∧
        (∀ st', state_wf tracks st' → seen visited' st' → seen visited st' ∨ st' ∈ new) ∧
        length visited' ≤ Z.to_nat maxStates `max` length visited
  end.
Proof.
  revert visited stack; induction succs as [|s succs IH]; intros visited stack Hv Ht Hs; simpl.
  { split_and!; try done; [by intros ?|intros s []%elem_of_nil|].
    exists []. split_and!; [done|simpl; lia|by intros ? ?%elem_of_nil|auto|lia]. }
  assert (Has : arrives tracks st (succ_release s) (succ_state s)) by (apply Hs; left).
  assert (Hs' : ∀ s', s' ∈ succs → arrives tracks st (succ_release s') (succ_state s')) by (intros; apply Hs; by right).
  assert (Hr : reachable tracks (succ_state s)) by (eapply reachable_step; [by eapply tracked_reachable|done]).
  destruct (jhas (stateKey (succ_state s)) visited) eqn:Hnew.
  - specialize (IH visited stack Hv Ht Hs'). destruct pushSuccessors as [[visited' stack']|]; [|done].
    destruct IH as (Hv' & He & Hsu & new & IH). split_and!; [done|done| |by exists new].
    intros s' [->|Hin]%elem_of_cons; [|auto]. eapply extends_seen; [done|]. by apply jhas_true.
  - case_bool_decide as Hmax; [by eapply bound_exceeded|].
    destruct (visited_add visited st _ _ Hv Ht Has Hnew) as (Hv1 & He1 & Ht1 & Hl1).
    set (visited1 := jset _ _ visited) in *.
    assert (Hst1 : tracked visited1 st) by (eapply tracked_extends; [done| |done]; lia).
    specialize (IH visited1 (succ_state s :: stack) Hv1 Hst1 Hs').
    destruct pushSuccessors as [[visited' stack']|]; [|done].
    destruct IH as (Hv' & He & Hsu & new & -> & Hlen & Hnw & Hcov & Hle).
    assert (Hsee : seen visited' (succ_state s)).
    { eapply extends_seen; [done|]. 
      destruct Ht1 as (rs & k & _ & Hc & _). inversion Hc; subst. by eapply jget_in_keys. }
    split_and!; [done|by intros ? ? ?%He1%He| |].
    { intros s' [->|Hin]%elem_of_cons; auto. }
    exists (new ++ [succ_state s]). rewrite <- app_assoc. split_and!; [done|rewrite length_app; simpl; lia| | |lia].
    + intros st' [?| ->%list_elem_of_singleton]%elem_of_app; [auto|]. split; [by apply reachable_wf|done].
    + intros st' Hwf [Hs1|?]%Hcov; [|rewrite elem_of_app; auto|done].
      unfold seen, visited1 in Hs1. rewrite jkeys_set, Hnew, elem_of_app, list_elem_of_singleton in Hs1.
      destruct Hs1 as [?|Hk]; [auto|]. apply stateKey_wf_inj in Hk as ->; [|done|by apply reachable_wf].
      right. apply elem_of_app. right. left.
Qed.

(** ** The outer loop *)

(** A visited state that was popped is not complete, leads only to visited
    states, and if nobody can move there the deepest candidate is at least as
    deep. *)
Definition processed (visited : JsMap string Visit) (deepest : option DeadlockCandidate) (st : ScheduleState) : Prop :=
  isComplete tracks st = false ∧ (∀ r st', arrives tracks st r st' → seen visited st') ∧
  (successorsOf tracks st = [] → ∃ d, deepest = Some d ∧ progressOf st ≤ cand_progress d).

Definition candidate_ok (visited : JsMap string Visit) (d : DeadlockCandidate) : Prop :=
  cand_key d = stateKey (cand_state d) ∧ cand_progress d = progressOf (cand_state d) ∧
  tracked visited (cand_state d) ∧ deadlocked tracks (cand_state d).

Record search_inv (visited : JsMap string Visit) (stack : list ScheduleState) (deepest : option DeadlockCandidate) : Prop := {
  si_visited : visited_ok visited;
  si_initial : seen visited (initialState tracks);
  si_stack st : st ∈ stack → state_wf tracks st ∧ seen visited st;
  si_sizes : length stack ≤ length visited ≤ Z.to_nat maxStates `max` 1;
  si_processed st : state_wf tracks st → seen visited st → st ∉ stack → processed visited deepest st;
  si_deepest d : deepest = Some d → candidate_ok visited d }.

(** What the search answers. *)
Definition verdict (result : option CoordinationDeadlock) : Prop :=
  match result with
  | None => can_complete tracks ∨ exceeds_bound
  | Some deadlock =>
      ¬ can_complete tracks ∧
      ∃ st rs, schedule tracks (initialState tracks) rs st ∧ deadlocked tracks st ∧
        deadlock = mkDeadlock (stalledAt tracks st) (finishedAt tracks st) rs ∧
        ∀ st', reachable tracks st' → deadlocked tracks st' → progressOf st' ≤ progressOf st
  end.

(** With an empty stack every reachable state was processed. *)
Lemma all_processed visited deepest st :
  search_inv visited [] deepest → reachable tracks st → processed visited deepest st.
Proof.
  intros Hi [rs Hs].
  assert (Hsee : seen visited st).
  { remember (initialState tracks) as st0 eqn:E. induction Hs as [st|st rs st1 r st2 Hs IH Ha]; subst; [apply Hi|].
    specialize (IH eq_refl). eapply (si_processed _ _ _ Hi st1); [|done|by intros ?%elem_of_nil|done].
    apply reachable_wf. by exists rs. }
  apply (si_processed _ _ _ Hi); [|done|by intros ?%elem_of_nil]. apply reachable_wf. by exists rs.
Qed.

Lemma verdict_at_end visited deepest :
  search_inv visited [] deepest → verdict (describeStall tracks visited <$> deepest).
Proof.
  intros Hi.
  assert (Hno : ¬ can_complete tracks).
  { intros (st & Hr & Hc). destruct (all_processed _ _ st Hi Hr) as [Hf _]. congruence. }
  destruct deepest as [d|]; simpl.
  - split; [done|]. destruct (si_deepest _ _ _ Hi d eq_refl) as (Hk & Hp & (rs & k & Hs & Hc & Hle) & Hd).
    exists (cand_state d), rs. split_and!; [done|done| |].
    + unfold describeStall. f_equal. unfold releasedGenerationsTo. rewrite Hk. by eapply chain_releases.
    + intros st' Hr [Hend _]. destruct (all_processed _ _ st' Hi Hr) as (_ & _ & H).
      destruct (H Hend) as (d' & [= <-] & ?). lia.
  - exfalso. destruct (runs_to_the_end tracks (initialState tracks) (initial_wf tracks)) as (rs & st & Hs & Hend).
    destruct (all_processed _ _ st Hi) as (_ & _ & H); [by exists rs|]. by destruct (H Hend) as (? & ? & _).
Qed.

(** Popping a state where nobody can move. *)
Lemma inv_terminal visited st stack deepest :
  search_inv visited (st :: stack) deepest → isComplete tracks st = false → successorsOf tracks st = [] →
  let progress := progressOf st in
  search_inv visited stack
    (if match deepest with None => true | Some d => bool_decide (cand_progress d < progress) end
     then Some (mkCandidate (stateKey st) st progress) else deepest).
Proof.
  intros Hi Hc Hend progress.
  destruct (si_stack _ _ _ Hi st) as [Hwf Hsee]; [left|].
  match goal with |- search_inv _ _ ?d => set (deepest' := d) end.
  assert (Hnew : ∃ d, deepest' = Some d ∧ progress ≤ cand_progress d ∧
    (∀ d0, deepest = Some d0 → cand_progress d0 ≤ cand_progress d) ∧
    (d = mkCandidate (stateKey st) st progress ∨ deepest = Some d)).
  { unfold deepest'. destruct deepest as [d0|]; [case_bool_decide|]; eexists; (split; [done|]); simpl;
      split_and!; auto; intros; simplify_eq; lia. }
  destruct Hnew as (d & Hd & Hpd & Hmono & Hor). rewrite Hd. split.
  - apply Hi.
  - apply Hi.
  - intros st' Hin. apply (si_stack _ _ _ Hi). by right.
  - pose proof (si_sizes _ _ _ Hi) as Hsz. simpl in Hsz. lia.
  - intros st' Hwf' Hs' Hnin. destruct (decide (st' = st)) as [->|Hne].
    + split_and!; [done| |eauto]. intros r s Ha. unfold arrives in Ha. rewrite Hend in Ha. by apply elem_of_nil in Ha.
    + destruct (si_processed _ _ _ Hi st') as (H1 & H2 & H3); [done|done|by intros [?|?]%elem_of_cons|].
      split_and!; [done|done|]. intros Hend'. destruct (H3 Hend') as (d0 & E & ?). exists d. split; [done|].
      specialize (Hmono _ E). lia.
  - intros d1 [= <-]. destruct Hor as [->|E]; [|by apply Hi]. split_and!; [done..|apply seen_tracked; [apply Hi|done..]|done].
Qed.

(** Popping a state and pushing its new successors. *)
Lemma inv_push visited st stack deepest visited' stack' :
  search_inv visited (st :: stack) deepest → isComplete tracks st = false → successorsOf tracks st ≠ [] →
  pushSuccessors maxStates (stateKey st) (successorsOf tracks st) visited stack = Some (visited', stack') →
  search_inv visited' stack' deepest ∧ length visited' - length stack' = S (length visited - length (st :: stack)).
Proof.
  intros Hi Hc Hsucc Hpush.
  destruct (si_stack _ _ _ Hi st) as [Hwf Hsee]; [left|].
  pose proof (si_visited _ _ _ Hi) as Hv.
  pose proof (pushSuccessors_spec st (successorsOf tracks st) visited stack Hv (seen_tracked _ _ Hv Hwf Hsee)) as Hspec.
  rewrite Hpush in Hspec. destruct Hspec as (Hv' & He & Hall & new & -> & Hlen & Hnew & Hcov & Hmax).
  { intros [s r] Hin. exact Hin. }
  pose proof (si_sizes _ _ _ Hi) as Hsz. simpl in Hsz. split; [|rewrite length_app; simpl; lia]. split.
  - done.
  - eapply extends_seen, Hi. done.
  - intros st' [Hin|Hin]%elem_of_app; [auto|].
    destruct (si_stack _ _ _ Hi st') as [? ?]; [by right|]. split; [done|]. by eapply extends_seen.
  - rewrite length_app. lia.
  - intros st' Hwf' Hs' Hnin. rewrite elem_of_app in Hnin.
    destruct (Hcov st' Hwf' Hs') as [Hs|?]; [|tauto].
    destruct (decide (st' = st)) as [->|Hne].
    + split_and!; [done| |done]. intros r s Ha. apply (Hall (mkSuccessor s r)). exact Ha.
    + destruct (si_processed _ _ _ Hi st') as (H1 & H2 & H3); [done|done|by intros [?|?]%elem_of_cons; auto|].
      split_and!; [done| |done]. intros r s Ha. eapply extends_seen; [done|]. by eapply H2.
  - intros d E. destruct (si_deepest _ _ _ Hi d E) as (? & ? & Ht & ?). split_and!; try done.
    eapply tracked_extends; [done| |done]. lia.
Qed.

Lemma searchLoop_verdict fuel visited stack deepest :
  search_inv visited stack deepest →
  Z.to_nat maxStates `max` 1 < fuel + (length visited - length stack) →
  ∃ result, searchLoop tracks fuel maxStates visited stack deepest = Some result ∧ verdict result.
Proof.
  revert visited stack deepest; induction fuel as [|fuel IH]; intros visited stack deepest Hi Hfuel.
  { pose proof (si_sizes _ _ _ Hi). lia. }
  destruct stack as [|st stack]; cbn [searchLoop]; [eexists; split; [done|by apply verdict_at_end]|].
  destruct (si_stack _ _ _ Hi st) as [Hwf Hsee]; [left|].
  pose proof (seen_tracked _ _ (si_visited _ _ _ Hi) Hwf Hsee) as Ht.
  pose proof (si_sizes _ _ _ Hi) as Hsz. simpl in Hsz, Hfuel.
  destruct (isComplete tracks st) eqn:Hc.
  { eexists; split; [done|]. left. exists st. split; [by eapply tracked_reachable|done]. }
  destruct (successorsOf tracks st) as [|s0 succs] eqn:Hs.
  - apply IH; [by apply inv_terminal|]. lia.
  - rewrite <- Hs. destruct pushSuccessors as [[visited' stack']|] eqn:Hpush.
    + destruct (inv_push visited st stack deepest visited' stack' Hi Hc) as [Hi' Hd]; [by rewrite Hs|done|].
      apply IH; [done|]. rewrite Hd. simpl. lia.
    + eexists; split; [done|]. right.
      pose proof (pushSuccessors_spec st (successorsOf tracks st) visited stack (si_visited _ _ _ Hi) Ht) as Hspec.
      rewrite Hpush in Hspec. apply Hspec. intros [s r] Hin. exact Hin.
Qed.

Lemma initial_search_inv :
  search_inv [(stateKey (initialState tracks), mkVisit None None)] [initialState tracks] None.
Proof.
  assert (Hsee : seen [(stateKey (initialState tracks), mkVisit None None)] (initialState tracks)) by left.
  split; try done.
  - split; [apply NoDup_singleton|]. intros key ->%list_elem_of_singleton. eexists; split; [done|].
    exists [], 1. split_and!; [constructor| |done].
    refine (chain_step _ 0 _ (mkVisit None None) [] _ _); [|constructor]. rewrite jget_cons. by rewrite decide_True.
  - intros st ->%list_elem_of_singleton. split; [apply initial_wf|done].
  - simpl. lia.
  - intros st Hwf Hs Hn. exfalso. apply Hn. apply list_elem_of_singleton in Hs.
    apply stateKey_wf_inj in Hs as ->; [left|done|apply initial_wf].
Qed.

(** The search always answers, within the states its bound allows, and the
    answer is right. *)
Lemma searchComponent_verdict :
  ∃ result, searchComponent tracks maxStates = Some result ∧ verdict result.
Proof.
  apply searchLoop_verdict; [apply initial_search_inv|]. unfold searchFuel. simpl. lia.
Qed.

End Search.
