(* ===== verification/CoordinationSplit.v ===== *)
(** * Independent components of a coordination plan

    [splitIndependentComponents] and [findUnavoidableCoordinationDeadlock] of
    [src/src/utils/plan/CoordinationScheduleFeasibility.ts]: the union-find over
    device and lock nodes, and the theorem that the components neither block nor
    help each other. *)
From stdpp Require Import strings sorting relations.
From S2P Require Import Prelude JsMap Coordination CoordinationSearch.

(** ** Definitions *)

(** The climb to the root.  [None]: the fuel ran out, or the node was never
    entered (in the code [root] becomes [undefined]). *)
Fixpoint findRoot (fuel : nat) (parents : JsMap string string) (root : string) : option string :=
  match fuel with
  | O => None
  | S fuel' =>
      p ← jget root parents;
      if bool_decide (p = root) then Some root else findRoot fuel' parents p
  end.

Definition rootFuel (parents : JsMap string string) : nat := S (length parents).

Inductive node_kind := NodeDevice | NodeLock.
Definition nodeName (kind : node_kind) (name : string) : string :=
  (match kind with NodeDevice => "device" | NodeLock => "lock" end)%string +:+ ":" +:+ name.

(** [nodeOf]: the node, entered as its own parent when new. *)
Definition nodeOf (parents : JsMap string string) (kind : node_kind) (name : string) : JsMap string string * string :=
  let node := nodeName kind name in
  (if jhas node parents then parents else jset node node parents, node).

Definition linkEvent (deviceNode : string) (parents : JsMap string string) (event : CoordinationEvent) :
    option (JsMap string string) :=
  let '(parents, lockNode) := nodeOf parents NodeLock (lock event) in
  r1 ← findRoot (rootFuel parents) parents lockNode;
  r2 ← findRoot (rootFuel parents) parents deviceNode;
  Some (jset r1 r2 parents).

(** [for (const x of list) …] with a body that may fail. *)
Fixpoint forOf {A S} (body : S → A → option S) (l : list A) (s : S) : option S :=
  match l with [] => Some s | x :: l' => s' ← body s x; forOf body l' s' end.

Definition linkTrack (parents : JsMap string string) (track : CoordinationTrack) : option (JsMap string string) :=
  let '(parents, deviceNode) := nodeOf parents NodeDevice (device track) in
  forOf (linkEvent deviceNode) (events track) parents.

Definition addToComponent (parents : JsMap string string)
    (components : JsMap string (list CoordinationTrack)) (track : CoordinationTrack) :
    option (JsMap string (list CoordinationTrack)) :=
  root ← findRoot (rootFuel parents) parents (nodeName NodeDevice (device track));
  Some (jset root (default [] (jget root components) ++ [track]) components).

Definition splitIndependentComponents (tracks : list CoordinationTrack) : option (list (list CoordinationTrack)) :=
  parents ← forOf linkTrack tracks [];
  components ← forOf (addToComponent parents) tracks [];
  Some (map snd components).

Definition hasUnmodeled (component : list CoordinationTrack) : bool :=
  existsb (λ track, existsb unmodeled (events track)) component.

Fixpoint firstDeadlock (maxStates : Z) (components : list (list CoordinationTrack)) :
    option (option CoordinationDeadlock) :=
  match components with
  | [] => Some None
  | component :: rest =>
      deadlock ← (if hasUnmodeled component then Some None else searchComponent component maxStates);
      match deadlock with Some d => Some (Some d) | None => firstDeadlock maxStates rest end
  end.

Definition findUnavoidableCoordinationDeadlock (tracks : list CoordinationTrack) (maxStates : Z) :
    option (option CoordinationDeadlock) :=
  components ← splitIndependentComponents tracks;
  firstDeadlock maxStates components.

(** ** The union-find forest *)

(** [k] parent links lead from [x] to the root [r]. *)
Inductive leads (parents : JsMap string string) : nat → string → string → Prop :=
| leads_root r : jget r parents = Some r → leads parents 0 r r
| leads_step k x p r : jget x parents = Some p → p ≠ x → leads parents k p r → leads parents (S k) x r.

Definition rooted (parents : JsMap string string) (x r : string) : Prop := ∃ k, leads parents k x r.

Lemma leads_is_root parents k x r : leads parents k x r → jget r parents = Some r.
Proof. by induction 1. Qed.

Lemma leads_fun parents k x r k' r' : leads parents k x r → leads parents k' x r' → k = k' ∧ r = r'.
Proof.
  intros H; revert k' r'; induction H as [r Hr|k x p r Hx Hne H IH]; intros k' r' H';
    inversion H' as [r0 Hr0|k0 x0 p0 r0 Hx0 Hne0 H0]; subst; simplify_eq; try done.
  destruct (IH _ _ H0) as [-> ->]. done.
Qed.

Lemma leads_findRoot parents k x r fuel : leads parents k x r → k < fuel → findRoot fuel parents x = Some r.
Proof.
  intros H; revert fuel; induction H as [r Hr|k x p r Hx Hne H IH]; intros [|fuel] Hlt; try lia; simpl.
  - rewrite Hr. simpl. by rewrite bool_decide_eq_true_2.
  - rewrite Hx. simpl. rewrite bool_decide_eq_false_2 by done. apply IH. lia.
Qed.

Definition is_root (parents : JsMap string string) (x : string) : Prop := jget x parents = Some x.
#[export] Instance is_root_dec parents x : Decision (is_root parents x).
Proof. unfold is_root. apply _. Defined.
Definition roots (parents : JsMap string string) : list string := filter (is_root parents) (jkeys parents).

(** Every entered node leads to a root, and the two nodes of every edge in
    [edges], and no others, to the same one. *)
Record forest (edges : list (string * string)) (parents : JsMap string string) : Prop := {
  fo_wf : jwf parents;
  fo_leads x : x ∈ jkeys parents → ∃ k r, leads parents k x r ∧ k + length (roots parents) ≤ length parents;
  fo_edges a b : (a, b) ∈ edges → a ∈ jkeys parents ∧ b ∈ jkeys parents;
  fo_same x y r : rooted parents x r → rooted parents y r → rtsc (λ a b, (a, b) ∈ edges) x y;
  fo_joined a b : (a, b) ∈ edges → ∃ r, rooted parents a r ∧ rooted parents b r }.

Lemma forest_findRoot edges parents x :
  forest edges parents → x ∈ jkeys parents →
  ∃ r, findRoot (rootFuel parents) parents x = Some r ∧ rooted parents x r.
Proof.
  intros Hf Hx. destruct (fo_leads _ _ Hf x Hx) as (k & r & Hl & Hk). exists r.
  split; [eapply leads_findRoot; [done|unfold rootFuel; lia]|by exists k].
Qed.

Lemma rooted_fun parents x r r' : rooted parents x r → rooted parents x r' → r = r'.
Proof. intros [k H] [k' H']. by destruct (leads_fun _ _ _ _ _ _ H H'). Qed.

Lemma rooted_key parents x r : rooted parents x r → x ∈ jkeys parents ∧ r ∈ jkeys parents.
Proof.
  intros [k H]. split; [|by eapply jget_in_keys, leads_is_root].
  inversion H; subst; by eapply jget_in_keys.
Qed.

Lemma forest_connected edges parents x y r :
  forest edges parents → rtsc (λ a b, (a, b) ∈ edges) x y → rooted parents x r → rooted parents y r.
Proof.
  intros Hf. induction 1 as [|x y z Hxy _ IH]; [done|]. intros Hx. apply IH.
  assert (∃ r', rooted parents x r' ∧ rooted parents y r') as (r' & Hx' & Hy').
  { destruct Hxy as [He|He]; destruct (fo_joined _ _ Hf _ _ He) as (r' & ? & ?); eauto. }
  by rewrite (rooted_fun _ _ _ _ Hx Hx').
Qed.

(** Entering a node. *)
Lemma leads_enter parents k x r node :
  node ∉ jkeys parents → leads parents k x r → leads (jset node node parents) k x r.
Proof.
  intros Hn H.
  assert (Hg : ∀ y z, jget y parents = Some z → jget y (jset node node parents) = Some z).
  { intros y z Hy. rewrite jget_set. case_decide; [|done]. subst. by apply jget_in_keys in Hy. }
  induction H; [constructor; auto|econstructor; eauto].
Qed.

Lemma forest_enter edges parents node :
  forest edges parents → node ∉ jkeys parents → forest edges (jset node node parents).
Proof.
  intros Hf Hn. set (parents' := jset node node parents).
  assert (Hkeys : jkeys parents' = jkeys parents ++ [node]).
  { unfold parents'. rewrite jkeys_set. apply jhas_false in Hn. by rewrite Hn. }
  assert (Hlen : length parents' = S (length parents)).
  { unfold parents'. rewrite length_jset. apply jhas_false in Hn. by rewrite Hn. }
  assert (Hroot : jget node parents' = Some node) by (unfold parents'; by rewrite jget_set, decide_True).
  assert (Hroots : roots parents' = roots parents ++ [node]).
  { unfold roots. rewrite Hkeys, list.filter_app. f_equal; [|by rewrite filter_cons_True by exact Hroot].
    apply filter_agree. intros y Hy. unfold is_root, parents'. rewrite jget_set, decide_False; [done|].
    by intros ->. }
  assert (Hold : ∀ x r, rooted parents' x r → x ≠ node → rooted parents x r).
  { intros x r Hr Hx. destruct (rooted_key _ _ _ Hr) as [Hk _].
    rewrite Hkeys, elem_of_app, list_elem_of_singleton in Hk. destruct Hk as [Hk|?]; [|done].
    destruct (fo_leads _ _ Hf x Hk) as (k & r' & Hl & _). assert (rooted parents' x r') by (exists k; by apply leads_enter).
    rewrite (rooted_fun _ _ _ _ Hr H). by exists k. }
  assert (Hnode : ∀ r, rooted parents' node r → r = node).
  { intros r Hr. eapply rooted_fun; [done|]. exists 0. by constructor. }
  split.
  - apply jset_wf, Hf.
  - intros x. rewrite Hkeys, elem_of_app, list_elem_of_singleton, Hroots, length_app, Hlen. intros [Hx| ->].
    + destruct (fo_leads _ _ Hf x Hx) as (k & r & Hl & Hk). exists k, r. split; [by apply leads_enter|simpl; lia].
    + exists 0, node. split; [by constructor|]. simpl.
      pose proof (length_filter (is_root parents) (jkeys parents)) as Hle.
      unfold jkeys in Hle at 2. rewrite length_fmap in Hle. fold (roots parents) in Hle. lia.
  - intros a b Hab. destruct (fo_edges _ _ Hf a b Hab). rewrite Hkeys, !elem_of_app. auto.
  - intros x y r Hx Hy. destruct (decide (x = node)) as [->|Hxn], (decide (y = node)) as [->|Hyn].
    + reflexivity.
    + exfalso. apply Hnode in Hx as ->. apply Hold, rooted_key in Hy as [_ ?]; done.
    + exfalso. apply Hnode in Hy as ->. apply Hold, rooted_key in Hx as [_ ?]; done.
    + eapply (fo_same _ _ Hf); eauto.
  - intros a b Hab. destruct (fo_joined _ _ Hf a b Hab) as (r & [k Ha] & [k' Hb]).
    exists r. split; eexists; by apply leads_enter.
Qed.

(** Joining two trees. *)
Lemma leads_join_other parents k x r r1 r2 :
  leads parents k x r → r ≠ r1 → is_root parents r1 → leads (jset r1 r2 parents) k x r.
Proof.
  intros H Hne Hr1. induction H as [r Hr|k x p r Hx Hxp H IH].
  - constructor. by rewrite jget_set, decide_False.
  - apply leads_step with p; [|done|auto]. rewrite jget_set, decide_False; [done|].
    intros ->. unfold is_root in Hr1. simplify_eq.
Qed.

Lemma leads_join_same parents k x r1 r2 :
  leads parents k x r1 → is_root parents r2 → r1 ≠ r2 → leads (jset r1 r2 parents) (S k) x r2.
Proof.
  intros H Hr2 Hne. pose proof (leads_is_root _ _ _ _ H) as Hr1. remember r1 as r eqn:E in H.
  induction H as [r Hr|k x p r Hx Hxp H IH]; subst.
  - apply leads_step with r2; [by rewrite jget_set, decide_True|done|].
    constructor. by rewrite jget_set, decide_False by done.
  - apply leads_step with p; [|done|auto]. rewrite jget_set, decide_False; [done|]. intros ->. simplify_eq.
Qed.

Lemma rooted_join edges parents x r r1 r2 :
  forest edges parents → is_root parents r1 → is_root parents r2 → r1 ≠ r2 →
  rooted parents x r → rooted (jset r1 r2 parents) x (if decide (r = r1) then r2 else r).
Proof.
  intros Hf H1 H2 Hne [k Hl]. case_decide; [subst|].
  - eexists. by apply leads_join_same.
  - eexists. by apply leads_join_other.
Qed.

Lemma length_roots_join (l : list string) parents r1 r2 :
  NoDup l → r1 ∈ l → is_root parents r1 → r1 ≠ r2 →
  S (length (filter (is_root (jset r1 r2 parents)) l)) = length (filter (is_root parents) l).
Proof.
  intros Hnd Hin H1 Hne.
  assert (Hoth : ∀ y, y ≠ r1 → is_root (jset r1 r2 parents) y ↔ is_root parents y).
  { intros y Hy. unfold is_root. by rewrite jget_set, decide_False by done. }
  assert (Hr1 : ¬ is_root (jset r1 r2 parents) r1) by (unfold is_root; rewrite jget_set, decide_True by done; congruence).
  induction Hnd as [|y l Hy Hnd IH]; [by apply elem_of_nil in Hin|].
  apply elem_of_cons in Hin as [<-|Hin].
  - rewrite filter_cons_False, filter_cons_True by done. simpl. do 2 f_equal.
    apply filter_agree. intros y Hy'. apply Hoth. by intros ->.
  - assert (y ≠ r1) by (intros ->; done). pose proof (Hoth y ltac:(done)). rewrite !filter_cons.
    specialize (IH Hin). destruct (decide (is_root _ y)), (decide (is_root parents y)); simpl; try tauto; lia.
Qed.

Lemma jset_same (parents : JsMap string string) k v : jwf parents → jget k parents = Some v → jset k v parents = parents.
Proof.
  intros Hwf Hg. unfold jset. assert (jhas k parents = true) as -> by (by apply jhas_true; eapply jget_in_keys).
  rewrite <- (list_fmap_id parents) at 2. apply list_fmap_ext. intros i [k' v'] Hi. simpl. case_decide; [|done].
  subst. apply list_elem_of_lookup_2, (jget_wf_in _ _ _ Hwf) in Hi. congruence.
Qed.

Lemma edges_grow (edges : list (string * string)) e x y :
  rtsc (λ a b, (a, b) ∈ edges) x y → rtsc (λ a b, (a, b) ∈ e :: edges) x y.
Proof. induction 1 as [|x y z [H|H] _ IH]; [reflexivity| |]; (eapply rtc_l; [|done]); [left|right]; by right. Qed.

Lemma forest_join edges parents a b r1 r2 :
  forest edges parents → rooted parents a r1 → rooted parents b r2 →
  forest ((a, b) :: edges) (jset r1 r2 parents).
Proof.
  intros Hf Ha Hb.
  destruct (rooted_key _ _ _ Ha) as [Hka Hk1], (rooted_key _ _ _ Hb) as [Hkb Hk2].
  assert (H1 : is_root parents r1) by (destruct Ha; by eapply leads_is_root).
  assert (H2 : is_root parents r2) by (destruct Hb; by eapply leads_is_root).
  destruct (decide (r1 = r2)) as [<-|Hne].
  { rewrite jset_same; [|apply Hf|done]. split; [apply Hf|apply Hf| | |].
    - intros x y [[= -> ->]|?]%elem_of_cons; [done|by apply (fo_edges _ _ Hf)].
    - intros x y r Hx Hy. apply edges_grow. by eapply (fo_same _ _ Hf).
    - intros x y [[= -> ->]|?]%elem_of_cons; [eauto|by apply (fo_joined _ _ Hf)]. }
  set (parents' := jset r1 r2 parents).
  assert (Hhas : jhas r1 parents = true) by (by apply jhas_true).
  assert (Hkeys : jkeys parents' = jkeys parents) by (unfold parents'; by rewrite jkeys_set, Hhas).
  assert (Hlen : length parents' = length parents) by (unfold parents'; by rewrite length_jset, Hhas).
  assert (Hroots : S (length (roots parents')) = length (roots parents)).
  { unfold roots. rewrite Hkeys. by apply length_roots_join; [apply Hf|..]. }
  assert (Hold : ∀ x r, rooted parents' x r → ∃ r0, rooted parents x r0 ∧ r = if decide (r0 = r1) then r2 else r0).
  { intros x r Hr. destruct (rooted_key _ _ _ Hr) as [Hk _]. rewrite Hkeys in Hk.
    destruct (fo_leads _ _ Hf x Hk) as (k & r0 & Hl & _). exists r0. split; [by exists k|].
    eapply rooted_fun; [done|]. eapply rooted_join; eauto. by exists k. }
  split.
  - apply jset_wf, Hf.
  - intros x. rewrite Hkeys, Hlen. intros Hx. destruct (fo_leads _ _ Hf x Hx) as (k & r & Hl & Hk).
    destruct (decide (r = r1)) as [->|Hr].
    + exists (S k), r2. split; [by apply leads_join_same|lia].
    + exists k, r. split; [by apply leads_join_other|lia].
  - intros x y. rewrite Hkeys. intros [[= -> ->]|?]%elem_of_cons; [done|by apply (fo_edges _ _ Hf)].
  - intros x y r (rx & Hx & ->)%Hold (ry & Hy & E)%Hold.
    assert (Hab : rtsc (λ x y, (x, y) ∈ (a, b) :: edges) a b) by (apply rtc_once; left; left).
    assert (Hba : rtsc (λ x y, (x, y) ∈ (a, b) :: edges) b a) by (apply rtc_once; right; left).
    assert (Hcon : ∀ u v r, rooted parents u r → rooted parents v r → rtsc (λ x y, (x, y) ∈ (a, b) :: edges) u v)
      by (intros; eapply edges_grow, (fo_same _ _ Hf); eauto).
    case_decide as D1; case_decide as D2; subst; [by eapply Hcon| | |by eapply Hcon].
    + transitivity a; [by eapply Hcon|]. transitivity b; [done|by eapply Hcon].
    + transitivity b; [by eapply Hcon|]. transitivity a; [done|by eapply Hcon].
  - intros x y [[= -> ->]|Hin]%elem_of_cons.
    + exists r2. split.
      * pose proof (rooted_join _ _ _ _ _ _ Hf H1 H2 Hne Ha) as H. by rewrite decide_True in H.
      * pose proof (rooted_join _ _ _ _ _ _ Hf H1 H2 Hne Hb) as H. by rewrite decide_False in H.
    + destruct (fo_joined _ _ Hf x y Hin) as (r & Hx & Hy).
      eexists; split; (eapply rooted_join; [done..|]); eauto.
Qed.

(** ** Linking the tracks *)

Definition deviceNode (t : CoordinationTrack) : string := nodeName NodeDevice (device t).
Definition lockNode (e : CoordinationEvent) : string := nodeName NodeLock (lock e).

Lemma deviceNode_inj s t : deviceNode s = deviceNode t → device s = device t.
Proof. unfold deviceNode, nodeName. simpl. by intros [= ?]. Qed.
Lemma lockNode_inj e f : lockNode e = lockNode f → lock e = lock f.
Proof. unfold lockNode, nodeName. simpl. by intros [= ?]. Qed.
Lemma deviceNode_lockNode t e : deviceNode t ≠ lockNode e.
Proof. done. Qed.

Lemma nodeOf_forest edges parents kind name :
  forest edges parents →
  let '(parents', node) := nodeOf parents kind name in
  node = nodeName kind name ∧ forest edges parents' ∧ node ∈ jkeys parents' ∧ jkeys parents ⊆ jkeys parents'.
Proof.
  intros Hf. unfold nodeOf. destruct (jhas (nodeName kind name) parents) eqn:Hh.
  - apply jhas_true in Hh. done.
  - apply jhas_false in Hh as Hn. rewrite jkeys_set, Hh. split_and!; [done|by apply forest_enter| |]; set_solver.
Qed.

Lemma linkEvent_forest edges parents d e :
  forest edges parents → d ∈ jkeys parents →
  ∃ parents', linkEvent d parents e = Some parents' ∧ forest ((lockNode e, d) :: edges) parents' ∧
    jkeys parents ⊆ jkeys parents'.
Proof.
  intros Hf Hd. unfold linkEvent. pose proof (nodeOf_forest edges parents NodeLock (lock e) Hf) as H.
  destruct (nodeOf parents NodeLock (lock e)) as [parents1 node]. destruct H as (-> & Hf1 & Hn & Hsub).
  destruct (forest_findRoot _ _ _ Hf1 Hn) as (r1 & -> & H1).
  destruct (forest_findRoot _ _ d Hf1) as (r2 & -> & H2); [auto|]. cbn.
  eexists; split_and!; [done|by apply forest_join|].
  rewrite jkeys_set. apply rooted_key in H1 as [_ H1%jhas_true]. by rewrite H1.
Qed.

Lemma linkEvents_forest edges parents d (es : list CoordinationEvent) :
  forest edges parents → d ∈ jkeys parents →
  ∃ parents' edges', forOf (linkEvent d) es parents = Some parents' ∧ forest edges' parents' ∧
    jkeys parents ⊆ jkeys parents' ∧
    ∀ x, x ∈ edges' ↔ x ∈ edges ∨ ∃ e, e ∈ es ∧ x = (lockNode e, d).
Proof.
  revert edges parents; induction es as [|e es IH]; intros edges parents Hf Hd; simpl.
  - exists parents, edges. split_and!; [done..|]. intros x. split; [auto|].
    intros [?|(? & ?%elem_of_nil & _)]; done.
  - destruct (linkEvent_forest edges parents d e Hf Hd) as (p1 & -> & Hf1 & Hs1). simpl.
    destruct (IH _ p1 Hf1) as (p2 & es2 & -> & Hf2 & Hs2 & Hin); [auto|].
    exists p2, es2. split_and!; [done|done|set_solver|]. intros x. rewrite Hin. set_solver.
Qed.

Lemma linkTrack_forest edges parents t :
  forest edges parents →
  ∃ parents' edges', linkTrack parents t = Some parents' ∧ forest edges' parents' ∧
    jkeys parents ⊆ jkeys parents' ∧ deviceNode t ∈ jkeys parents' ∧
    ∀ x, x ∈ edges' ↔ x ∈ edges ∨ ∃ e, e ∈ events t ∧ x = (lockNode e, deviceNode t).
Proof.
  intros Hf. unfold linkTrack. pose proof (nodeOf_forest edges parents NodeDevice (device t) Hf) as H.
  destruct (nodeOf parents NodeDevice (device t)) as [parents1 node]. destruct H as (-> & Hf1 & Hn & Hsub).
  destruct (linkEvents_forest _ _ _ (events t) Hf1 Hn) as (p2 & es2 & E & Hf2 & Hs2 & Hin).
  exists p2, es2. split_and!; [done|done|set_solver|set_solver|done].
Qed.

Lemma linkTracks_forest edges parents (ts : list CoordinationTrack) :
  forest edges parents →
  ∃ parents' edges', forOf linkTrack ts parents = Some parents' ∧ forest edges' parents' ∧
    jkeys parents ⊆ jkeys parents' ∧ (∀ t, t ∈ ts → deviceNode t ∈ jkeys parents') ∧
    ∀ x, x ∈ edges' ↔ x ∈ edges ∨ ∃ t e, t ∈ ts ∧ e ∈ events t ∧ x = (lockNode e, deviceNode t).
Proof.
  revert edges parents; induction ts as [|t ts IH]; intros edges parents Hf; simpl.
  - exists parents, edges. split_and!; [done..|by intros ? ?%elem_of_nil|]. intros x. split; [auto|].
    intros [?|(? & ? & ?%elem_of_nil & _)]; done.
  - destruct (linkTrack_forest edges parents t Hf) as (p1 & es1 & -> & Hf1 & Hs1 & Hd1 & Hin1). simpl.
    destruct (IH _ p1 Hf1) as (p2 & es2 & -> & Hf2 & Hs2 & Hd2 & Hin2).
    exists p2, es2. split_and!; [done|done|set_solver|set_solver|].
    intros x. rewrite Hin2, Hin1. set_solver.
Qed.

Lemma forest_nil : forest [] [].
Proof.
  split; [constructor|by intros ? ?%elem_of_nil|by intros ? ? ?%elem_of_nil| |by intros ? ? ?%elem_of_nil].
  intros x y r [? _]%rooted_key. by apply elem_of_nil in H.
Qed.

(** *** Sharing a lock *)

(** Two tracks act on the same device or arrive at the same lock. *)
Definition touch (s t : CoordinationTrack) : Prop :=
  device s = device t ∨ ∃ e f, e ∈ events s ∧ f ∈ events t ∧ lock e = lock f.

(** Linked through tracks of the plan that touch pairwise. *)
Definition linked (tracks : list CoordinationTrack) : CoordinationTrack → CoordinationTrack → Prop :=
  rtc (λ s t, s ∈ tracks ∧ t ∈ tracks ∧ touch s t).

(** The tracks of a node. *)
Definition at_node (t : CoordinationTrack) (node : string) : Prop :=
  node = deviceNode t ∨ ∃ e, e ∈ events t ∧ node = lockNode e.

Lemma at_node_touch s t node : at_node s node → at_node t node → touch s t.
Proof.
  intros [->|(e & He & ->)] [E|(f & Hf & E)].
  - left. by apply deviceNode_inj.
  - by apply deviceNode_lockNode in E.
  - symmetry in E. by apply deviceNode_lockNode in E.
  - right. exists e, f. split_and!; [done..|]. by apply lockNode_inj.
Qed.

Lemma connected_linked tracks (edges : list (string * string)) x y :
  (∀ a b, (a, b) ∈ edges → ∃ t, t ∈ tracks ∧ at_node t a ∧ at_node t b) →
  rtsc (λ a b, (a, b) ∈ edges) x y →
  ∀ s t, s ∈ tracks → t ∈ tracks → at_node s x → at_node t y → linked tracks s t.
Proof.
  intros He. induction 1 as [x|x y z Hxy _ IH]; intros s t Hs Ht Hsx Htz.
  - apply rtc_once. split_and!; [done..|]. by eapply at_node_touch.
  - assert (∃ u, u ∈ tracks ∧ at_node u x ∧ at_node u y) as (u & Hu & Hux & Huy).
    { destruct Hxy as [H|H]; destruct (He _ _ H) as (u & ? & ? & ?); eauto. }
    eapply rtc_l; [split_and!; [exact Hs|exact Hu|by eapply at_node_touch]|]. by apply IH.
Qed.

Lemma linked_connected tracks (edges : list (string * string)) s t :
  (∀ u e, u ∈ tracks → e ∈ events u → (lockNode e, deviceNode u) ∈ edges) →
  linked tracks s t → rtsc (λ a b, (a, b) ∈ edges) (deviceNode s) (deviceNode t).
Proof.
  intros He. induction 1 as [|s t u (Hs & Ht & Htouch) _ IH]; [reflexivity|].
  transitivity (deviceNode t); [|done]. destruct Htouch as [E|(e & f & Hse & Htf & E)].
  - unfold deviceNode. rewrite E. reflexivity.
  - eapply rtc_l; [right; apply (He _ _ Hs Hse)|]. apply rtc_once. left.
    unfold lockNode. rewrite E. by apply He.
Qed.

(** *** Grouping by root *)

Definition grouped (root : CoordinationTrack → string) (ts : list CoordinationTrack)
    (components : JsMap string (list CoordinationTrack)) : Prop :=
  jwf components ∧
  ∀ r, jget r components =
    match filter (λ t, root t = r) ts with [] => None | l => Some l end.

Lemma grouped_step root ts components t :
  grouped root ts components →
  grouped root (ts ++ [t]) (jset (root t) (default [] (jget (root t) components) ++ [t]) components).
Proof.
  intros [Hwf Hg]. split; [by apply jset_wf|]. intros r. rewrite jget_set, list.filter_app.
  case_decide as Hr.
  - subst r. rewrite Hg, (filter_cons_True _ t []) by done. by destruct (filter _ ts).
  - rewrite (filter_cons_False _ t []) by done. rewrite filter_nil, app_nil_r. apply Hg.
Qed.

Lemma addToComponents_grouped parents root ts done components :
  (∀ t, t ∈ ts → findRoot (rootFuel parents) parents (deviceNode t) = Some (root t)) →
  grouped root done components →
  ∃ components', forOf (addToComponent parents) ts components = Some components' ∧
    grouped root (done ++ ts) components'.
Proof.
  revert done components; induction ts as [|t ts IH]; intros done components Hroot Hg; simpl.
  { rewrite app_nil_r. eauto. }
  assert (addToComponent parents components t =
    Some (jset (root t) (default [] (jget (root t) components) ++ [t]) components)) as ->.
  { unfold addToComponent. fold (deviceNode t). rewrite Hroot by left. done. }
  simpl. rewrite (cons_middle t done ts), app_assoc.
  apply IH; [intros; apply Hroot; by right|by apply grouped_step].
Qed.

(** The components are the classes of [linked], and nothing else. *)
Definition is_split (tracks : list CoordinationTrack) (components : list (list CoordinationTrack)) : Prop :=
  ∃ root : CoordinationTrack → string,
    (∀ s t, s ∈ tracks → t ∈ tracks → root s = root t ↔ linked tracks s t) ∧
    (∀ c, c ∈ components ↔ c ≠ [] ∧ ∃ r, c = filter (λ t, root t = r) tracks) ∧ NoDup components.

Lemma grouped_values root ts components :
  grouped root ts components →
  (∀ c, c ∈ map snd components ↔ c ≠ [] ∧ ∃ r, c = filter (λ t, root t = r) ts) ∧ NoDup (map snd components).
Proof.
  intros [Hwf Hg].
  assert (Hin : ∀ r c, (r, c) ∈ components → c ≠ [] ∧ c = filter (λ t, root t = r) ts).
  { intros r c Hrc. pose proof (jget_wf_in _ _ _ Hwf Hrc) as E. rewrite Hg in E.
    destruct (filter _ ts) eqn:Ef; simplify_eq. done. }
  split.
  - intros c. rewrite list_elem_of_fmap. split.
    + intros ([r c'] & -> & Hrc). destruct (Hin _ _ Hrc). simpl. eauto.
    + intros (Hne & r & ->). exists (r, filter (λ t, root t = r) ts). split; [done|].
      apply jget_in. rewrite Hg. by destruct (filter _ ts).
  - clear Hg. unfold jwf, jkeys in Hwf. induction components as [|[r c] m IH]; [constructor|].
    rewrite fmap_cons, list.NoDup_cons in Hwf. destruct Hwf as [Hr Hm]. simpl. constructor.
    + intros ([r' c'] & -> & Hrc')%list_elem_of_fmap.
      destruct (Hin r' c') as [Hne E']; [by right|]. destruct (Hin r c') as [_ E]; [left|].
      destruct c' as [|t l]; [done|]. assert (t ∈ t :: l) as Ht by left.
      assert (r' = r) as ->; [|by apply Hr, list_elem_of_fmap; exists (r, t :: l)].
      rewrite E' in Ht at 1. apply list_elem_of_filter in Ht as [<- _].
      assert (t ∈ t :: l) as Ht by left. rewrite E in Ht at 1. by apply list_elem_of_filter in Ht as [? _].
    + apply IH; [done|]. intros; apply Hin; by right.
Qed.

Lemma splitIndependentComponents_is_split tracks :
  ∃ components, splitIndependentComponents tracks = Some components ∧ is_split tracks components.
Proof.
  unfold splitIndependentComponents.
  destruct (linkTracks_forest [] [] tracks forest_nil) as (parents & edges & -> & Hf & _ & Hd & Hin). simpl.
  set (root := λ t : CoordinationTrack, default EmptyString (findRoot (rootFuel parents) parents (deviceNode t))).
  assert (Hroot : ∀ t, t ∈ tracks →
    findRoot (rootFuel parents) parents (deviceNode t) = Some (root t) ∧ rooted parents (deviceNode t) (root t)).
  { intros t Ht. destruct (forest_findRoot _ _ _ Hf (Hd t Ht)) as (r & E & Hr). unfold root. by rewrite E. }
  destruct (addToComponents_grouped parents root tracks [] []) as (components & -> & Hg).
  { intros t Ht. by apply Hroot. }
  { split; [constructor|]. intros r. by rewrite jget_nil. }
  simpl. eexists; split; [done|]. exists root. split; [|by apply grouped_values].
  assert (Hedge : ∀ a b, (a, b) ∈ edges → ∃ t, t ∈ tracks ∧ at_node t a ∧ at_node t b).
  { intros a b [?%elem_of_nil|(t & e & Ht & He & [= -> ->])]%Hin; [done|].
    exists t. split_and!; [done|right; eauto|by left]. }
  intros s t Hs Ht. destruct (Hroot s Hs) as [_ Rs], (Hroot t Ht) as [_ Rt]. split.
  - intros E. rewrite E in Rs. pose proof (fo_same _ _ Hf _ _ _ Rs Rt) as Hc.
    eapply connected_linked; eauto; by left.
  - intros Hl. eapply rooted_fun; [|exact Rt].
    eapply forest_connected; [done| |done]. eapply linked_connected; [|done].
    intros u e Hu He. apply Hin. right. eauto.
Qed.
