(* ===== verification/CoordinationPlan.v ===== *)
(** * Independent components neither block nor help each other

    The plan-level correctness of [findUnavoidableCoordinationDeadlock]
    ([src/src/utils/plan/CoordinationScheduleFeasibility.ts]): a run of the
    whole plan projects to a run of each component and a run of a component lifts
    to the plan, so the plan completes exactly when every component does. *)
From stdpp Require Import strings sorting relations.
From S2P Require Import Prelude JsMap Coordination CoordinationSearch CoordinationSplit.

(** ** Simulation between the plan and one of its parts *)

Section Part.
Context (tracks : list CoordinationTrack) (idx : list nat) (part : list CoordinationTrack).
(** [part] lists the tracks at the indices [idx], and no track outside shares a
    lock with one inside. *)
Context (Hnd : NoDup idx) (Hpart : ∀ k, part !! k = (i ← idx !! k; tracks !! i)).
Context (Hin : ∀ i, i ∈ idx → i < length tracks).
Context (Hclosed : ∀ i j s t e f, i ∈ idx → tracks !! i = Some s → tracks !! j = Some t →
  e ∈ events s → f ∈ events t → lock e = lock f → j ∈ idx).

(** The part state [s] is what the plan state [st] is at [idx]. *)
Record sim (st s : ScheduleState) : Prop := {
  sim_plan : state_wf tracks st;
  sim_part : state_wf part s;
  sim_at k i : idx !! k = Some i → pos s k = pos st i ∧ is_arrived s k = is_arrived st i }.

Lemma part_track k i : idx !! k = Some i → part !! k = tracks !! i.
Proof. intros Hk. by rewrite Hpart, Hk. Qed.

Lemma part_length : length part = length idx.
Proof.
  apply Nat.le_antisymm; apply Nat.nlt_ge; intros Hlt.
  - destruct (lookup_lt_is_Some_2 part _ Hlt) as [t Ht]. rewrite Hpart, lookup_ge_None_2 in Ht by lia. done.
  - destruct (lookup_lt_is_Some_2 idx _ Hlt) as [i Hi].
    destruct (lookup_lt_is_Some_2 tracks i) as [t Ht]; [eapply Hin, list_elem_of_lookup_2; done|].
    assert (part !! length part = Some t) as E by (by rewrite (part_track _ _ Hi)).
    rewrite lookup_ge_None_2 in E by lia. done.
Qed.

Lemma part_eventCount k i : idx !! k = Some i → eventCount part k = eventCount tracks i.
Proof. intros Hk. unfold eventCount. by rewrite (part_track _ _ Hk). Qed.

Lemma sim_event st s k i : sim st s → idx !! k = Some i → currentEvent part s k = currentEvent tracks st i.
Proof.
  intros Hs Hk. rewrite (currentEvent_spec _ _ _ (sim_part _ _ Hs)), (currentEvent_spec _ _ _ (sim_plan _ _ Hs)).
  destruct (sim_at _ _ Hs k i Hk) as [-> _]. by rewrite (part_track _ _ Hk).
Qed.

Lemma event_in_track st i e :
  state_wf tracks st → currentEvent tracks st i = Some e → ∃ t, tracks !! i = Some t ∧ e ∈ events t.
Proof.
  intros Hwf. rewrite currentEvent_spec by done. destruct (tracks !! i) as [t|]; simpl; [|done].
  intros He. exists t. split; [done|]. by eapply list_elem_of_lookup_2.
Qed.

(** A generation lies inside the part, or outside it. *)
Lemma generation_side st i e j :
  state_wf tracks st → currentEvent tracks st i = Some e → j ∈ generationOf tracks st i e → i ∈ idx ↔ j ∈ idx.
Proof.
  intros Hwf He Hj. destruct (generationOf_event _ _ _ _ _ He Hj) as (f & Hf & El).
  destruct (event_in_track _ _ _ Hwf He) as (s & Hs & Hes), (event_in_track _ _ _ Hwf Hf) as (t & Ht & Hft).
  split; intros H; eapply Hclosed; eauto.
Qed.

Lemma generation_member st s k i e k' i' :
  sim st s → idx !! k = Some i → idx !! k' = Some i' →
  k' ∈ generationOf part s k e ↔ i' ∈ generationOf tracks st i e.
Proof.
  intros Hs Hk Hk'. unfold generationOf.
  rewrite !elem_of_app, !elem_of_waitersAt, !list_elem_of_singleton, (sim_event _ _ _ _ Hs Hk').
  destruct (sim_at _ _ Hs k' i' Hk') as [_ ->].
  assert (k' = k ↔ i' = i); [|tauto]. split; [intros ->; congruence|intros ->].
  by eapply NoDup_lookup.
Qed.

Lemma generation_length st s k i e :
  sim st s → idx !! k = Some i → is_arrived st i = false → currentEvent tracks st i = Some e →
  length (generationOf part s k e) = length (generationOf tracks st i e).
Proof.
  intros Hs Hk Ha He.
  assert (Ha' : is_arrived s k = false) by (by rewrite (proj2 (sim_at _ _ Hs k i Hk))).
  assert (Hrange : ∀ j, j ∈ generationOf part s k e → ∃ i', idx !! j = Some i').
  { intros j Hj. destruct (generationOf_event part s k e j) as (f & Hf & _); [by rewrite (sim_event _ _ _ _ Hs Hk)|done|].
    apply currentEvent_lt in Hf. rewrite part_length in Hf. by apply lookup_lt_is_Some_2. }
  rewrite <- (length_fmap (λ j, default 0 (idx !! j))). apply Permutation_length, NoDup_Permutation.
  - apply NoDup_fmap_2_strong; [|by apply generationOf_NoDup].
    intros x y Hx Hy. destruct (Hrange x Hx) as [ix Ex], (Hrange y Hy) as [iy Ey]. rewrite Ex, Ey. simpl. intros ->.
    by eapply NoDup_lookup.
  - by apply generationOf_NoDup.
  - intros j. rewrite list_elem_of_fmap. split.
    + intros (x & -> & Hx). destruct (Hrange x Hx) as [ix Ex]. rewrite Ex. simpl.
      by apply (generation_member st s k i e x ix).
    + intros Hj. assert (j ∈ idx) as [x Ex]%list_elem_of_lookup.
      { apply (generation_side st i e j); [apply Hs|done|done|]. by eapply list_elem_of_lookup_2. }
      exists x. rewrite Ex. split; [done|]. by apply (generation_member st s k i e x j).
Qed.

(** The two sides make the same arrival. *)
Lemma sim_step st s k i e :
  sim st s → idx !! k = Some i → is_arrived st i = false → currentEvent tracks st i = Some e →
  sim (succ_state (arrive tracks st i e)) (succ_state (arrive part s k e)).
Proof.
  intros Hs Hk Ha He.
  assert (Ha' : is_arrived s k = false) by (by rewrite (proj2 (sim_at _ _ Hs k i Hk))).
  assert (He' : currentEvent part s k = Some e) by (by rewrite (sim_event _ _ _ _ Hs Hk)).
  split; [apply arrive_wf; [apply Hs|done..]|apply arrive_wf; [apply Hs|done..]|].
  intros k' i' Hk'.
  destruct (arrive_effect tracks st i e i' (sim_plan _ _ Hs) Ha He) as (-> & -> & _).
  destruct (arrive_effect part s k e k' (sim_part _ _ Hs) Ha' He') as (-> & -> & _).
  destruct (sim_at _ _ Hs k' i' Hk') as [-> ->].
  rewrite (generation_length st s k i e Hs Hk Ha He).
  rewrite (bool_decide_ext _ _ (generation_member st s k i e k' i' Hs Hk Hk')).
  rewrite (bool_decide_ext (k' = k) (i' = i)); [done|].
  split; [intros ->; congruence|intros ->; by eapply NoDup_lookup].
Qed.

(** An arrival outside the part leaves it alone. *)
Lemma sim_outside st s i e :
  sim st s → i ∉ idx → is_arrived st i = false → currentEvent tracks st i = Some e →
  sim (succ_state (arrive tracks st i e)) s.
Proof.
  intros Hs Hi Ha He. split; [apply arrive_wf; [apply Hs|done..]|apply Hs|].
  intros k' i' Hk'. assert (Hi' : i' ∈ idx) by (by eapply list_elem_of_lookup_2).
  destruct (arrive_effect tracks st i e i' (sim_plan _ _ Hs) Ha He) as (-> & -> & _).
  destruct (sim_at _ _ Hs k' i' Hk') as [-> ->].
  rewrite (bool_decide_eq_false_2 (i' ∈ _)).
  - rewrite (bool_decide_eq_false_2 (i' = i)) by (by intros ->).
    case_bool_decide; simpl; rewrite ?andb_true_r, ?orb_false_r; split; solve [lia|done].
  - intros Hg. apply Hi. by apply (generation_side st i e i'); [apply Hs|..].
Qed.

(** An arrival inside the part leaves the rest alone. *)
Lemma inside_frame st i e j :
  state_wf tracks st → i ∈ idx → is_arrived st i = false → currentEvent tracks st i = Some e → j ∉ idx →
  pos (succ_state (arrive tracks st i e)) j = pos st j ∧
  is_arrived (succ_state (arrive tracks st i e)) j = is_arrived st j.
Proof.
  intros Hwf Hi Ha He Hj. destruct (arrive_effect tracks st i e j Hwf Ha He) as (-> & -> & _).
  rewrite (bool_decide_eq_false_2 (j ∈ _)).
  - rewrite (bool_decide_eq_false_2 (j = i)) by (by intros ->).
    case_bool_decide; simpl; rewrite ?andb_true_r, ?orb_false_r; split; solve [lia|done].
  - intros Hg. apply Hj. by apply (generation_side st i e j).
Qed.

(** *** Runs *)

Lemma run_projects st rs st' s :
  schedule tracks st rs st' → sim st s → ∃ rs' s', schedule part s rs' s' ∧ sim st' s'.
Proof.
  intros H Hs. induction H as [st|st rs st1 r st2 H IH Harr]; [exists [], s; split; [constructor|done]|].
  destruct (IH Hs) as (rs' & s1 & Hrun & Hs1). apply arrives_inv in Harr as (i & e & Ha & He & E).
  replace st2 with (succ_state (arrive tracks st1 i e)) by (by rewrite E).
  destruct (decide (i ∈ idx)) as [[k Hk]%list_elem_of_lookup|Hi].
  - exists (rs' ++ option_list (succ_release (arrive part s1 k e))), (succ_state (arrive part s1 k e)).
    split; [|by apply sim_step]. econstructor; [done|]. apply arrives_inv. exists k, e.
    rewrite (sim_event _ _ _ _ Hs1 Hk), (proj2 (sim_at _ _ Hs1 k i Hk)). split_and!; [done..|]. by destruct (arrive part s1 k e).
  - exists rs', s1. split; [done|by apply sim_outside].
Qed.

Lemma run_lifts st rs s s' :
  schedule part s rs s' → sim st s →
  ∃ rs' st', schedule tracks st rs' st' ∧ sim st' s' ∧
    ∀ j, j ∉ idx → pos st' j = pos st j ∧ is_arrived st' j = is_arrived st j.
Proof.
  intros H Hs. induction H as [s|s rs s1 r s2 H IH Harr]; [exists [], st; split; [constructor|done]|].
  destruct (IH Hs) as (rs' & st1 & Hrun & Hs1 & Hframe). apply arrives_inv in Harr as (k & e & Ha & He & E).
  replace s2 with (succ_state (arrive part s1 k e)) by (by rewrite E).
  destruct (lookup_lt_is_Some_2 idx k) as [i Hk]; [rewrite <- part_length; by eapply currentEvent_lt|].
  rewrite (sim_event _ _ _ _ Hs1 Hk) in He. rewrite (proj2 (sim_at _ _ Hs1 k i Hk)) in Ha.
  exists (rs' ++ option_list (succ_release (arrive tracks st1 i e))), (succ_state (arrive tracks st1 i e)).
  split_and!; [|by apply sim_step|].
  - econstructor; [done|]. apply arrives_inv. exists i, e. split_and!; [done..|]. by destruct (arrive tracks st1 i e).
  - intros j Hj. destruct (Hframe j Hj) as [<- <-]. apply inside_frame; [apply Hs1| |done..].
    by eapply list_elem_of_lookup_2.
Qed.

Lemma sim_complete st s :
  sim st s → isComplete part s = true ↔ ∀ i, i ∈ idx → pos st i = eventCount tracks i.
Proof.
  intros Hs. rewrite isComplete_spec by apply Hs. rewrite part_length. split.
  - intros H i [k Hk]%list_elem_of_lookup. rewrite <- (part_eventCount _ _ Hk).
    rewrite <- (proj1 (sim_at _ _ Hs k i Hk)). apply H. by eapply lookup_lt_Some.
  - intros H k [i Hk]%lookup_lt_is_Some_2. rewrite (part_eventCount _ _ Hk), (proj1 (sim_at _ _ Hs k i Hk)).
    apply H. by eapply list_elem_of_lookup_2.
Qed.
End Part.

(** ** The classes of a split *)

Section Classes.
Context (tracks : list CoordinationTrack) (root : CoordinationTrack → string).
Context (Hroot : ∀ s t, s ∈ tracks → t ∈ tracks → root s = root t ↔ linked tracks s t).

Definition class (r : string) : list CoordinationTrack := filter (λ t, root t = r) tracks.
Definition classIndices (r : string) : list nat :=
  filter (λ i, root <$> tracks !! i = Some r) (seq 0 (length tracks)).

Lemma elem_of_classIndices r i : i ∈ classIndices r ↔ root <$> tracks !! i = Some r.
Proof.
  unfold classIndices. rewrite list_elem_of_filter, elem_of_seq. split; [tauto|]. intros H. split; [done|].
  destruct (tracks !! i) eqn:E; [|done]. apply lookup_lt_Some in E. lia.
Qed.

Lemma classIndices_NoDup r : NoDup (classIndices r).
Proof. apply list.NoDup_filter, NoDup_seq. Qed.

Lemma filter_lookup (ts : list CoordinationTrack) r k :
  filter (λ t, root t = r) ts !! k =
    (i ← filter (λ i, root <$> ts !! i = Some r) (seq 0 (length ts)) !! k; ts !! i).
Proof.
  revert k; induction ts as [|t ts IH] using rev_ind; intros k; [done|].
  rewrite length_app, seq_app, !list.filter_app. simpl (seq _ (length [t])).
  rewrite (filter_agree (λ i, root <$> (ts ++ [t]) !! i = Some r) (λ i, root <$> ts !! i = Some r) (seq 0 (length ts))).
  2:{ intros i [_ Hi]%elem_of_seq. rewrite lookup_app_l by lia. done. }
  set (a := filter _ (seq 0 (length ts))) in *.
  assert (Ha : ∀ j i, a !! j = Some i → i < length ts).
  { intros j i Hj. apply list_elem_of_lookup_2, list_elem_of_filter in Hj as [_ Hj%elem_of_seq]. lia. }
  assert (Hlen : length (filter (λ t, root t = r) ts) = length a).
  { apply Nat.le_antisymm; apply Nat.nlt_ge; intros [y Hy]%lookup_lt_is_Some_2.
    - rewrite IH, lookup_ge_None_2 in Hy by lia. done.
    - destruct (lookup_lt_is_Some_2 ts y (Ha _ _ Hy)) as [t' Ht'].
      specialize (IH (length (filter (λ t, root t = r) ts))). rewrite Hy, lookup_ge_None_2 in IH by lia.
      simpl in IH. congruence. }
  assert (Hlast : filter (λ i, root <$> (ts ++ [t]) !! i = Some r) [length ts] = if decide (root t = r) then [length ts] else []).
  { rewrite filter_cons, filter_nil. rewrite lookup_app_r, Nat.sub_diag by lia. simpl. by do 2 case_decide; simplify_eq. }
  rewrite Hlast, filter_cons, filter_nil.
  destruct (decide (k < length a)) as [Hk|Hk].
  - rewrite !lookup_app_l, IH by lia. destruct (lookup_lt_is_Some_2 a k Hk) as [i Hi]. rewrite Hi. simpl.
    rewrite lookup_app_l by (by eapply Ha). done.
  - rewrite (lookup_app_r a), (lookup_app_r (filter _ ts)), Hlen by lia.
    case_decide; [|by rewrite !lookup_nil]. destruct (k - length a) as [|m] eqn:Em; [|by rewrite !lookup_cons, !lookup_nil].
    simpl. by rewrite lookup_app_r, Nat.sub_diag by lia.
Qed.

Lemma class_lookup r k : class r !! k = (i ← classIndices r !! k; tracks !! i).
Proof. apply filter_lookup. Qed.

Lemma classIndices_lt r i : i ∈ classIndices r → i < length tracks.
Proof. rewrite elem_of_classIndices. destruct (tracks !! i) eqn:E; [|done]. intros _. by eapply lookup_lt_Some. Qed.

Lemma class_closed r i j s t e f :
  i ∈ classIndices r → tracks !! i = Some s → tracks !! j = Some t →
  e ∈ events s → f ∈ events t → lock e = lock f → j ∈ classIndices r.
Proof.
  rewrite !elem_of_classIndices. intros Hi Hs Ht He Hf El. rewrite Hs in Hi. rewrite Ht. simpl in *.
  apply list_elem_of_lookup_2 in Hs, Ht. injection Hi as <-. f_equal. symmetry. apply Hroot; [done..|].
  apply rtc_once. split_and!; [done..|]. right. eauto.
Qed.

Lemma initial_pos i : pos (initialState tracks) i = 0 ∧ is_arrived (initialState tracks) i = false.
Proof.
  unfold pos, is_arrived, initialState; simpl. rewrite !list_lookup_fmap. by destruct (tracks !! i).
Qed.

(** A plan state whose devices of class [r] have not moved. *)
Lemma class_sim_initial r st :
  state_wf tracks st → (∀ i, i ∈ classIndices r → pos st i = 0 ∧ is_arrived st i = false) →
  sim tracks (classIndices r) (class r) st (initialState (class r)).
Proof.
  intros Hwf Hz. split; [done|apply initial_wf|]. intros k i Hk.
  destruct (Hz i) as [-> ->]; [by eapply list_elem_of_lookup_2|].
  unfold pos, is_arrived, initialState; simpl. rewrite !list_lookup_fmap. by destruct (class r !! k).
Qed.

(** If the plan can complete, so can every class. *)
Lemma plan_completes_class r : can_complete tracks → can_complete (class r).
Proof.
  intros (st & [rs Hrun] & Hc).
  assert (Hs0 : sim tracks (classIndices r) (class r) (initialState tracks) (initialState (class r)))
    by (apply class_sim_initial; [apply initial_wf|intros; apply initial_pos]).
  destruct (run_projects _ _ _ (classIndices_NoDup r) (class_lookup r) (classIndices_lt r)
    (class_closed r) _ _ _ _ Hrun Hs0) as (rs' & s & Hrun' & Hs).
  exists s. split; [by exists rs'|].
  rewrite (sim_complete _ _ _ (class_lookup r) (classIndices_lt r) _ _ Hs). intros i Hi.
  rewrite isComplete_spec in Hc by apply (sim_plan _ _ _ _ _ Hs). apply Hc. by eapply classIndices_lt.
Qed.

(** If every class can complete, run them one after the other. *)
Lemma classes_complete_some (rs : list string) :
  NoDup rs → (∀ r, r ∈ rs → can_complete (class r)) →
  ∃ st, reachable tracks st ∧ ∀ i,
    (default false ((λ t, bool_decide (root t ∈ rs)) <$> tracks !! i) = true → pos st i = eventCount tracks i) ∧
    (default false ((λ t, bool_decide (root t ∈ rs)) <$> tracks !! i) = false → pos st i = 0 ∧ is_arrived st i = false).
Proof.
  induction 1 as [|r rs Hr Hnd IH]; intros Hall.
  { exists (initialState tracks). split; [exists []; constructor|]. intros i. split; [|intros; apply initial_pos].
    by destruct (tracks !! i). }
  destruct IH as (st & Hreach & Hst); [intros; apply Hall; by right|].
  assert (Hs0 : sim tracks (classIndices r) (class r) st (initialState (class r))).
  { apply class_sim_initial; [by apply reachable_wf|]. intros i Hi%elem_of_classIndices. apply Hst.
    destruct (tracks !! i); simplify_eq/=. by apply bool_decide_eq_false_2. }
  destruct (Hall r) as (s & [rs' Hrun] & Hc); [left|].
  destruct (run_lifts _ _ _ (classIndices_NoDup r) (class_lookup r) (classIndices_lt r)
    (class_closed r) _ _ _ _ Hrun Hs0) as (rs'' & st' & Hrun' & Hs & Hframe).
  exists st'. split; [by eapply reachable_schedule|]. intros i.
  rewrite (sim_complete _ _ _ (class_lookup r) (classIndices_lt r) _ _ Hs) in Hc.
  destruct (decide (i ∈ classIndices r)) as [Hi|Hi].
  - split; [auto|]. apply elem_of_classIndices in Hi. destruct (tracks !! i); simplify_eq/=.
    rewrite bool_decide_eq_true_2; [done|left].
  - destruct (Hframe i Hi) as [-> ->]. destruct (Hst i) as [H1 H2].
    rewrite elem_of_classIndices in Hi. destruct (tracks !! i) as [t|]; simpl in *; [|auto].
    rewrite (bool_decide_ext (root t ∈ r :: rs) (root t ∈ rs)); [auto|].
    rewrite elem_of_cons. naive_solver.
Qed.

Lemma classes_complete_plan :
  (∀ r, class r ≠ [] → can_complete (class r)) → can_complete tracks.
Proof.
  intros Hall. destruct (classes_complete_some (remove_dups (root <$> tracks))) as (st & Hr & Hst).
  - apply NoDup_remove_dups.
  - intros r (t & -> & Ht)%elem_of_remove_dups%list_elem_of_fmap. apply Hall. intros Hnil.
    assert (t ∈ class (root t)) as H by (by apply list_elem_of_filter). rewrite Hnil in H. by apply elem_of_nil in H.
  - exists st. split; [done|]. apply isComplete_spec; [by apply reachable_wf|]. intros i Hi.
    apply Hst. destruct (lookup_lt_is_Some_2 tracks i Hi) as [t Ht]. rewrite Ht. simpl.
    apply bool_decide_eq_true_2, elem_of_remove_dups, list_elem_of_fmap. exists t. split; [done|].
    by eapply list_elem_of_lookup_2.
Qed.
End Classes.

(** ** The whole plan *)

Lemma split_classes tracks components :
  is_split tracks components →
  ∃ root, (∀ s t, s ∈ tracks → t ∈ tracks → root s = root t ↔ linked tracks s t) ∧
    ∀ c, c ∈ components ↔ c ≠ [] ∧ ∃ r, c = class tracks root r.
Proof. intros (root & Hroot & Hc & _). by exists root. Qed.

Lemma can_complete_components tracks components :
  is_split tracks components → can_complete tracks ↔ ∀ c, c ∈ components → can_complete c.
Proof.
  intros (root & Hroot & Hc)%split_classes. split.
  - intros H c (_ & r & ->)%Hc. by apply plan_completes_class.
  - intros H. apply (classes_complete_plan tracks root Hroot). intros r Hne. apply H, Hc. eauto.
Qed.

Lemma firstDeadlock_verdict maxStates components :
  ∃ result, firstDeadlock maxStates components = Some result ∧
    match result with
    | Some d => ∃ c, c ∈ components ∧ verdict c maxStates (Some d)
    | None => ∀ c, c ∈ components → hasUnmodeled c = true ∨ verdict c maxStates None
    end.
Proof.
  induction components as [|c cs (result & E & IH)]; simpl; [exists None; split; [done|by intros ? ?%elem_of_nil]|].
  destruct (hasUnmodeled c) eqn:Hu; simpl.
  - exists result. split; [done|]. destruct result as [d|].
    + destruct IH as (c' & ? & ?). exists c'. split; [by right|done].
    + intros c' [->|?]%elem_of_cons; auto.
  - destruct (searchComponent_verdict c maxStates) as ([d|] & -> & Hv); simpl.
    + exists (Some d). split; [done|]. exists c. split; [left|done].
    + exists result. split; [done|]. destruct result as [d|].
      * destruct IH as (c' & ? & ?). exists c'. split; [by right|done].
      * intros c' [->|?]%elem_of_cons; auto.
Qed.

(** In a deadlock every device with an event left is waiting for it. *)
Lemma deadlocked_waiting c st i e :
  deadlocked c st → currentEvent c st i = Some e → i ∈ waitersAt c st (lock e).
Proof.
  intros [Hend _] He. apply elem_of_waitersAt. split; [|by rewrite He].
  destruct (is_arrived st i) eqn:Ha; [done|]. exfalso.
  assert (arrive c st i e ∈ successorsOf c st) as Hin; [|rewrite Hend in Hin; by apply elem_of_nil in Hin].
  unfold successorsOf. apply list_elem_of_omap. exists i. rewrite Ha, He. split; [|done].
  apply elem_of_seq. apply currentEvent_lt in He. lia.
Qed.

Lemma stalled_waits c st x :
  deadlocked c st → x ∈ stalledAt c st → stalled_device x ∈ waitingWith x.
Proof.
  intros Hd (i & _ & Hx)%list_elem_of_omap. apply bind_Some in Hx as (t & Ht & (e & He & [= <-])%bind_Some).
  simpl. apply list_elem_of_omap. exists i. split; [by apply deadlocked_waiting|]. unfold deviceAt. by rewrite Ht.
Qed.

Lemma stalled_some c st : state_wf c st → deadlocked c st → stalledAt c st ≠ [].
Proof.
  intros Hwf [_ Hc] Hnil. apply not_true_iff_false in Hc. apply Hc, isComplete_spec; [done|]. intros i Hi.
  pose proof (wf_pos _ _ Hwf i). destruct (decide (pos st i < eventCount c i)) as [Hlt|]; [exfalso|lia].
  apply (currentEvent_Some c st i Hwf) in Hlt as [e He]. destruct (lookup_lt_is_Some_2 c i Hi) as [t Ht].
  assert (mkStalled (device t) e (omap (deviceAt c) (waitersAt c st (lock e))) ∈ stalledAt c st) as Hin.
  { apply list_elem_of_omap. exists i. rewrite Ht; simpl. rewrite He. split; [apply elem_of_seq; lia|done]. }
  rewrite Hnil in Hin. by apply elem_of_nil in Hin.
Qed.

Definition is_component (tracks c : list CoordinationTrack) : Prop :=
  ∃ components, splitIndependentComponents tracks = Some components ∧ c ∈ components.

(** C1. Feasibility is decided: [findUnavoidableCoordinationDeadlock] always
    answers.  A deadlock it reports is unavoidable for the whole plan (no arrival
    order lets every track finish), and it describes a stall of one independent
    component that releasing exactly the listed generations reaches, where every
    stalled device is among those it says are waiting, and no reachable stall is
    deeper.  [null] means that some
    arrival order completes the plan, unless a component is unmodeled or has more
    than [maxStates] reachable states. *)
Theorem coordination_feasibility_decided (tracks : list CoordinationTrack) (maxStates : Z) :
  ∃ result, findUnavoidableCoordinationDeadlock tracks maxStates = Some result ∧
    match result with
    | Some d =>
        ¬ can_complete tracks ∧
        ∃ c st, is_component tracks c ∧
          schedule c (initialState c) (releasedGenerations d) st ∧ deadlocked c st ∧
          stalled d = stalledAt c st ∧ finished d = finishedAt c st ∧
          stalled d ≠ [] ∧ (∀ x, x ∈ stalled d → stalled_device x ∈ waitingWith x) ∧
          ∀ st', reachable c st' → deadlocked c st' → progressOf st' ≤ progressOf st
    | None =>
        can_complete tracks ∨
        ∃ c, is_component tracks c ∧ (hasUnmodeled c = true ∨ exceeds_bound c maxStates)
    end.
Proof.
  unfold findUnavoidableCoordinationDeadlock.
  destruct (splitIndependentComponents_is_split tracks) as (cs & E & Hs). rewrite E. cbn [mbind option_bind].
  destruct (firstDeadlock_verdict maxStates cs) as (result & -> & H). exists result. split; [done|].
  pose proof (can_complete_components tracks cs Hs) as Hcc. destruct result as [d|].
  - destruct H as (c & Hc & Hno & st & rs & Hrun & Hd & -> & Hdeep). split; [rewrite Hcc; intros Hall; by apply Hno, Hall|].
    exists c, st. split_and!; [by exists cs|done|done|done|done| | |done]; simpl.
    + apply stalled_some; [|done]. apply reachable_wf. by exists rs.
    + intros x. by apply stalled_waits.
  - destruct (decide (Forall (λ c, hasUnmodeled c = false) cs)) as [Hm|Hm].
    + assert (Hex : Forall (λ c, can_complete c ∨ exceeds_bound c maxStates) cs).
      { apply list.Forall_forall. intros c Hc. rewrite list.Forall_forall in Hm.
        destruct (H c Hc) as [Hu|Hv]; [rewrite Hm in Hu by done; done|exact Hv]. }
      assert (Hdec : (∀ c, c ∈ cs → can_complete c) ∨ ∃ c, c ∈ cs ∧ exceeds_bound c maxStates).
      { clear -Hex. induction Hex as [|c cs Hc _ IH]; [left; by intros ? ?%elem_of_nil|].
        destruct Hc as [Hc|Hc]; [|right; exists c; split; [left|done]].
        destruct IH as [IH|(c' & ? & ?)]; [left; intros c' [->|?]%elem_of_cons; auto|].
        right; exists c'; split; [by right|done]. }
      destruct Hdec as [?|(c & Hc & ?)]; [left; by apply Hcc|]. right. exists c. split; [by exists cs|by right].
    + right. apply not_Forall_Exists, list.Exists_exists in Hm as (c & Hc & Hu); [|apply _].
      exists c. split; [by exists cs|]. left. by apply not_false_iff_true in Hu.
Qed.

(** The plan completes iff every independent component can complete: what
    the doc comment of [splitIndependentComponents] promises. *)
Theorem plan_completes_iff_components (tracks : list CoordinationTrack) :
  ∃ components, splitIndependentComponents tracks = Some components ∧
    (can_complete tracks ↔ ∀ c, c ∈ components → can_complete c).
Proof.
  destruct (splitIndependentComponents_is_split tracks) as (cs & E & Hs). exists cs. split; [done|].
  by apply can_complete_components.
Qed.

(** The union-find groups exactly the tracks that transitively share a lock
    (or a device): the split always succeeds, every track is in a component, no
    component is empty, each keeps the plan's order, and two tracks are in the
    same component iff they are linked. *)
Theorem components_are_lock_classes (tracks : list CoordinationTrack) :
  ∃ components, splitIndependentComponents tracks = Some components ∧
    (∀ t, t ∈ tracks → ∃ c, c ∈ components ∧ t ∈ c) ∧
    ∀ c, c ∈ components → c ≠ [] ∧ c `sublist_of` tracks ∧
      ∀ s t, s ∈ c → t ∈ tracks → t ∈ c ↔ linked tracks s t.
Proof.
  destruct (splitIndependentComponents_is_split tracks) as (cs & E & Hs). exists cs. split; [done|].
  destruct (split_classes _ _ Hs) as (root & Hroot & Hc). split.
  - intros t Ht. assert (t ∈ class tracks root (root t)) as H by (by apply list_elem_of_filter).
    exists (class tracks root (root t)). split; [|done]. apply Hc. split; [|eauto].
    intros Hn. rewrite Hn in H. by apply elem_of_nil in H.
  - intros c (Hne & r & ->)%Hc. split_and!; [done|apply sublist_filter|].
    intros s t [<- Hs']%list_elem_of_filter Ht. rewrite <- Hroot by done.
    unfold class. rewrite list_elem_of_filter. naive_solver.
Qed.

(** Two devices that take two locks in opposite orders. *)
Definition crossing : list CoordinationTrack :=
  let ev l i := mkEvent "barrier" l 2 i false in
  [mkTrack "A" [ev "X"%string 0%Z; ev "Y"%string 1%Z]; mkTrack "B" [ev "Y"%string 0%Z; ev "X"%string 1%Z];
   mkTrack "C" [mkEvent "barrier" "Z" 1 0 false]].

Example crossing_deadlocks :
  (λ r, stalled_device <$> (default [] (stalled <$> r))) <$>
    findUnavoidableCoordinationDeadlock crossing MAX_SCHEDULE_STATES = Some ["A"; "B"]%string.
Proof. vm_compute. reflexivity. Qed.

Example aligned_completes :
  findUnavoidableCoordinationDeadlock [mkTrack "A" [mkEvent "barrier" "X" 2 0 false]; mkTrack "B" [mkEvent "barrier" "X" 2 0 false]]
    MAX_SCHEDULE_STATES = Some None.
Proof. vm_compute. reflexivity. Qed.
