(* ===== verification/BarrierResume.v ===== *)
(** * Resuming a barrier plan without splitting a generation

    [src/src/utils/plan/BarrierResumeGuard.ts] (with [effectiveStepField.ts] and
    [coordinationTools.ts]): the reconstruction of barrier generations from the
    device tracks, the rewind to a safe resume step, the cross-lock check and the
    arrivals a failed track blocks. *)
From stdpp Require Import strings sets.
From S2P Require Import Prelude JsMap.

(** ** Data *)

(** A field of a plan step: the coordination fields are strings and integers,
    every other value is [VOther]. *)
Inductive FieldValue := VString (s : string) | VInteger (z : Z) | VOther.
Record PlanStep := mkStep { tool : string; params : option (JsMap string FieldValue); inline : JsMap string FieldValue }.
Abbreviation Plan := (list PlanStep).

Record Arrival := mkArrival { planIndex : nat; deviceCount : option Z; device : option string; arrival_tool : string }.
Record GenerationSpan := mkSpan { span_lock : string; firstIndex : nat; lastIndex : nat; arrivals : list Arrival }.
Record BlockedArrival := mkBlocked { blocked_index : nat; blocked_device : string; blocked_lock : string; blocked_tool : string }.

#[export] Instance Arrival_eq_dec : EqDecision Arrival.
Proof. solve_decision. Defined.

(** [invalidBarrierRecoveryShape]: the lock and the reason. *)
Inductive ShapeReason := MissingDeviceLabel | IncompleteGroups (n : nat) (count : option Z) | TooFewTracks (n : nat) (count : Z).
Record ShapeError := invalidBarrierRecoveryShape { error_lock : string; reason : ShapeReason }.

(** ** Reading a step *)

Definition isCoordinationTool (t : string) : bool := bool_decide (t ∈ ["barrier"; "criticalSection"]%string).

(** [params] wins when it has the field, whatever the value; [None] is [undefined]. *)
Definition effectiveStepField (step : PlanStep) (field : string) : option FieldValue :=
  match params step with
  | Some ps => if jhas field ps then jget field ps else jget field (inline step)
  | None => jget field (inline step)
  end.

Definition readDeviceCount (step : PlanStep) : option Z :=
  match effectiveStepField step "deviceCount" with
  | Some (VInteger z) => if bool_decide (1 ≤ z)%Z then Some z else None
  | _ => None
  end.

(** [typeof v === "string" && v.length > 0]. *)
Definition nonEmptyString (v : option FieldValue) : option string :=
  match v with
  | Some (VString s) => if bool_decide (s = EmptyString) then None else Some s
  | _ => None
  end.

Definition readDevice (step : PlanStep) : option string := nonEmptyString (effectiveStepField step "device").

(** The lock of a coordination step, if it names one. *)
Definition stepLock (step : PlanStep) : option string :=
  if isCoordinationTool (tool step) then nonEmptyString (effectiveStepField step "lock") else None.

Definition arrivalOf (index : nat) (step : PlanStep) : Arrival :=
  mkArrival index (readDeviceCount step) (readDevice step) (tool step).

(** ** Generations of one lock *)

Definition consistentDeviceCount (l : list Arrival) : option Z :=
  match newSet (omap (λ a, c ← deviceCount a; if bool_decide (1 ≤ c)%Z then Some c else None) l) with
  | [c] => Some c
  | _ => None
  end.

Definition addToTrack (tracks : option (JsMap string (list Arrival))) (a : Arrival) : option (JsMap string (list Arrival)) :=
  perDevice ← tracks; d ← device a;
  Some (jset d (default [] (jget d perDevice) ++ [a]) perDevice).
Definition deviceTracks (l : list Arrival) : option (JsMap string (list Arrival)) := foldl addToTrack (Some []) l.

Definition singletonSpan (lock : string) (a : Arrival) : GenerationSpan := mkSpan lock (planIndex a) (planIndex a) [a].

(** The smallest and largest plan index; a generation is never empty, so the
    initial infinities do not survive. *)
Definition spanForArrivals (lock : string) (l : list Arrival) : GenerationSpan :=
  let start := default 0 (planIndex <$> list.head l) in
  mkSpan lock
    (foldl (λ m a, if bool_decide (planIndex a < m) then planIndex a else m) start l)
    (foldl (λ m a, if bool_decide (m < planIndex a) then planIndex a else m) start l) l.

Record Candidate := mkCand { cand_device : string; cand_arrival : Arrival; remainingAfter : nat }.

(** The comparison of the sort: most outstanding arrivals first, then plan order. *)
Definition candidateLe (a b : Candidate) : bool :=
  if bool_decide (remainingAfter a = remainingAfter b)
  then bool_decide (planIndex (cand_arrival a) ≤ planIndex (cand_arrival b))
  else bool_decide (remainingAfter b < remainingAfter a).

Fixpoint insertCandidate (x : Candidate) (l : list Candidate) : list Candidate :=
  match l with
  | [] => [x]
  | y :: l' => if candidateLe x y then x :: l else y :: insertCandidate x l'
  end.
(** [sort] is stable. *)
Definition sortCandidates (l : list Candidate) : list Candidate := foldr insertCandidate [] l.

Definition consumedOf (consumed : JsMap string nat) (d : string) : nat := default 0 (jget d consumed).

Definition nextArrivals (tracks : JsMap string (list Arrival)) (consumed : JsMap string nat) : list Candidate :=
  sortCandidates (omap (λ e : string * list Arrival,
    a ← e.2 !! consumedOf consumed e.1;
    Some (mkCand e.1 a (length e.2 - consumedOf consumed e.1 - 1))) tracks).

Definition consume (consumed : JsMap string nat) (c : Candidate) : JsMap string nat :=
  jset (cand_device c) (consumedOf consumed (cand_device c) + 1) consumed.

(** The loop over [remaining], which [rounds] groups of [count] bring to zero. *)
Fixpoint groupLoop (lock : string) (count : Z) (tracks : JsMap string (list Arrival)) (rounds : nat)
    (consumed : JsMap string nat) (spans : list GenerationSpan) : outcome ShapeError (list GenerationSpan) :=
  match rounds with
  | O => Returns spans
  | S rounds' =>
      let next := nextArrivals tracks consumed in
      if bool_decide (Z.of_nat (length next) < count)%Z
      then Throws (invalidBarrierRecoveryShape lock (TooFewTracks (length next) count))
      else
        let generation := take (Z.to_nat count) next in
        groupLoop lock count tracks rounds' (foldl consume consumed generation)
          (spans ++ [spanForArrivals lock (cand_arrival <$> generation)])
  end.

Definition spansForLock (lock : string) (l : list Arrival) : outcome ShapeError (list GenerationSpan) :=
  match l with
  | [] => Returns []
  | _ =>
      let count := consistentDeviceCount l in
      if bool_decide (count = Some 1%Z) then Returns (singletonSpan lock <$> l)
      else
        match deviceTracks l with
        | None => Throws (invalidBarrierRecoveryShape lock MissingDeviceLabel)
        | Some tracks =>
            match count with
            | None => Throws (invalidBarrierRecoveryShape lock (IncompleteGroups (length l) None))
            | Some c =>
                if bool_decide (Z.of_nat (length l) mod c ≠ 0)%Z
                then Throws (invalidBarrierRecoveryShape lock (IncompleteGroups (length l) (Some c)))
                else groupLoop lock c tracks (length l / Z.to_nat c) [] []
            end
        end
  end.

(** ** Generations of a plan *)

(** With [tolerant] an unrecoverable lock has no spans. *)
Definition spansForLockOrSkip (tolerant : bool) (lock : string) (l : list Arrival) : outcome ShapeError (list GenerationSpan) :=
  match spansForLock lock l with
  | Throws e => if tolerant then Returns [] else Throws e
  | r => r
  end.

Definition pushArrival (bucket : JsMap string (list Arrival)) (lock : string) (a : Arrival) : JsMap string (list Arrival) :=
  jset lock (default [] (jget lock bucket) ++ [a]) bucket.

(** The arrivals per lock of the steps whose tool satisfies [sel], in plan order. *)
Definition collectArrivals (sel : string → bool) (plan : Plan) : JsMap string (list Arrival) :=
  foldl (λ bucket e, match stepLock e.2 with
                     | Some lock => if sel (tool e.2) then pushArrival bucket lock (arrivalOf e.1 e.2) else bucket
                     | None => bucket end) [] (imap (λ i s, (i, s)) plan).

Definition isBarrier (t : string) : bool := bool_decide (t = "barrier"%string).

Definition criticalSectionSpan (lock : string) (l : list Arrival) : option GenerationSpan :=
  match list.head l, list.last l with
  | Some a, Some b => Some (mkSpan lock (planIndex a) (planIndex b) l)
  | _, _ => None
  end.

Definition collectGenerationSpans (tolerant : bool) (plan : Plan) : outcome ShapeError (list GenerationSpan) :=
  let barrierArrivals := collectArrivals isBarrier plan in
  let criticalSectionArrivals := collectArrivals (λ t, negb (isBarrier t)) plan in
  barrierSpans ← foldl (λ acc e, spans ← acc; more ← spansForLockOrSkip tolerant e.1 e.2; Returns (spans ++ more))
                   (Returns []) barrierArrivals;
  Returns (barrierSpans ++ omap (λ e : string * list Arrival, criticalSectionSpan e.1 e.2) criticalSectionArrivals).

(** ** Cross-lock check *)

Definition isTrackedLock (plan : Plan) (lock : string) : bool :=
  negb (bool_decide (consistentDeviceCount (default [] (jget lock (collectArrivals (λ _, true) plan))) = Some 1%Z)).

(** The locks each device still visits, consecutive repeats collapsed. *)
Definition collectDeviceLockOrder (plan : Plan) (safe : nat) : JsMap string (list string) :=
  foldl (λ orders step,
    match stepLock step, readDevice step with
    | Some lock, Some d =>
        if isTrackedLock plan lock then
          let order := default [] (jget d orders) in
          jset d (if bool_decide (list.last order = Some lock) then order else order ++ [lock]) orders
        else orders
    | _, _ => orders
    end) [] (drop safe plan).

Record Direction := mkDirection { forward : bool; dir_device : string }.
Abbreviation Directions := (JsMap string (JsMap string Direction)).

Definition opposesEarlierDevice (dirs : Directions) (from to d : string) : Directions * bool :=
  if bool_decide (from = to) then (dirs, false)
  else
    let less := String.ltb from to in
    let lesser := if less then from else to in
    let greater := if less then to else from in
    let fwd := bool_decide (from = lesser) in
    let byGreater := default [] (jget lesser dirs) in
    match jget greater byGreater with
    | None => (jset lesser (jset greater (mkDirection fwd d) byGreater) dirs, false)
    | Some existing =>
        (jset lesser byGreater dirs,
         bool_decide (forward existing ≠ fwd) && bool_decide (dir_device existing ≠ d))
    end.

(** The transitions, device by device, until one opposes. *)
Fixpoint anyOpposes (dirs : Directions) (transitions : list (string * (string * string))) : bool :=
  match transitions with
  | [] => false
  | (d, (from, to)) :: rest =>
      let '(dirs', opposes) := opposesEarlierDevice dirs from to d in
      if opposes then true else anyOpposes dirs' rest
  end.

Definition transitionsOf (orders : JsMap string (list string)) : list (string * (string * string)) :=
  orders ≫= λ e, (λ p, (e.1, p)) <$> zip e.2 (tail e.2).

Definition hasOpposingLockPair (orders : JsMap string (list string)) : bool := anyOpposes [] (transitionsOf orders).

Definition hasCrossLockCycle (plan : Plan) (safe : nat) : bool := hasOpposingLockPair (collectDeviceLockOrder plan safe).

(** ** The safe resume step *)

Definition splits (safe : Z) (span : GenerationSpan) : bool :=
  bool_decide (Z.of_nat (firstIndex span) < safe)%Z && bool_decide (safe ≤ Z.of_nat (lastIndex span))%Z.

(** One pass: the earliest start among the spans split at [safe]. *)
Definition rewindOnce (spans : list GenerationSpan) (safe : Z) : Z :=
  foldl (λ earliest span,
    if splits safe span && bool_decide (Z.of_nat (firstIndex span) < earliest)%Z
    then Z.of_nat (firstIndex span) else earliest) safe spans.

(** The passes until nothing changes; [None] when the fuel runs out. *)
Fixpoint rewind (fuel : nat) (spans : list GenerationSpan) (safe : Z) : option Z :=
  match fuel with
  | O => None
  | S fuel' =>
      let earliest := rewindOnce spans safe in
      if bool_decide (earliest = safe) then Some safe else rewind fuel' spans earliest
  end.

(** [None] only if the rewind ran out of fuel. *)
Definition computeSafeBarrierResumeStep (plan : Plan) (startStep : Z) : option (outcome ShapeError Z) :=
  if bool_decide (startStep ≤ 0)%Z then Some (Returns startStep)
  else
    match collectGenerationSpans false plan with
    | Throws e => Some (Throws e)
    | Returns [] => Some (Returns startStep)
    | Returns spans =>
        safe ← rewind (S (Z.to_nat startStep)) spans startStep;
        Some (Returns (if bool_decide (0 < safe)%Z && hasCrossLockCycle plan (Z.to_nat safe) then 0%Z else safe))
    end.

(** ** Arrivals blocked by a failed track *)

Definition blockedIn (failedDevice : string) (span : GenerationSpan) : list BlockedArrival :=
  omap (λ a, match device a with
             | Some d => if bool_decide (d = failedDevice) then None
                         else Some (mkBlocked (planIndex a) d (span_lock span) (arrival_tool a))
             | None => None end) (arrivals span).

Definition waitsForFailed (failedDevice : string) (failedStepIndex : Z) (span : GenerationSpan) : bool :=
  existsb (λ a, bool_decide (device a = Some failedDevice) && bool_decide (failedStepIndex < Z.of_nat (planIndex a))%Z)
    (arrivals span).

Definition findArrivalsBlockedByFailedTrack (plan : Plan) (failedDevice : string) (failedStepIndex : Z) :
    outcome ShapeError (list BlockedArrival) :=
  if bool_decide (failedStepIndex < 0)%Z then Returns []
  else
    spans ← collectGenerationSpans true plan;
    Returns (filter (λ s, waitsForFailed failedDevice failedStepIndex s = true) spans ≫= blockedIn failedDevice).

(** ** The sort *)

Lemma insertCandidate_perm x l : insertCandidate x l ≡ₚ x :: l.
Proof.
  induction l as [|y l IH]; simpl; [done|]. destruct (candidateLe x y); [done|]. rewrite IH. apply Permutation_swap.
Qed.

Lemma sortCandidates_perm l : sortCandidates l ≡ₚ l.
Proof. induction l as [|x l IH]; simpl; [done|]. by rewrite insertCandidate_perm, IH. Qed.

(** The head has the most arrivals left, and so on down the list. *)
Fixpoint most_first (l : list Candidate) : Prop :=
  match l with
  | [] => True
  | x :: l' => (∀ y, y ∈ l' → remainingAfter y ≤ remainingAfter x) ∧ most_first l'
  end.

Lemma candidateLe_remaining x y : candidateLe x y = true → remainingAfter y ≤ remainingAfter x.
Proof. unfold candidateLe. repeat case_bool_decide; simpl; intros; try done; lia. Qed.
Lemma candidateLe_total x y : candidateLe x y = false → remainingAfter x ≤ remainingAfter y.
Proof. unfold candidateLe. repeat case_bool_decide; simpl; intros; try done; lia. Qed.

Lemma insertCandidate_most_first x l : most_first l → most_first (insertCandidate x l).
Proof.
  induction l as [|y l IH]; [intros _; split; [by intros ? ?%elem_of_nil|done]|]. intros [Hy Hl]. simpl. destruct (candidateLe x y) eqn:E.
  - apply candidateLe_remaining in E. split; [|done]. intros z [->|Hz]%elem_of_cons; [done|]. specialize (Hy z Hz). lia.
  - apply candidateLe_total in E. split; [|by apply IH]. intros z Hz.
    rewrite insertCandidate_perm in Hz. apply elem_of_cons in Hz as [->|Hz]; auto.
Qed.

Lemma sortCandidates_most_first l : most_first (sortCandidates l).
Proof. induction l as [|x l IH]; simpl; [done|]. by apply insertCandidate_most_first. Qed.

Lemma most_first_take n l x y :
  most_first l → x ∈ take n l → y ∈ drop n l → remainingAfter y ≤ remainingAfter x.
Proof.
  revert n; induction l as [|z l IH]; intros [|n] Hl Hx Hy; try by apply elem_of_nil in Hx.
  simpl in *. destruct Hl as [Hz Hl]. apply elem_of_cons in Hx as [->|Hx]; [|by eapply IH].
  apply Hz. rewrite <- (take_drop n l), elem_of_app. by right.
Qed.

(** ** What is left on the tracks *)

(** The tracks without the arrivals already consumed. *)
Definition left_over (tracks : JsMap string (list Arrival)) (consumed : JsMap string nat) : JsMap string (list Arrival) :=
  (λ e, (e.1, drop (consumedOf consumed e.1) e.2)) <$> tracks.

Definition candidateOf (e : string * list Arrival) : option Candidate :=
  match e.2 with [] => None | a :: rest => Some (mkCand e.1 a (length rest)) end.

Lemma omap_map {A B C} (f : A → B) (g : B → option C) (l : list A) : omap g (f <$> l) = omap (λ x, g (f x)) l.
Proof. induction l as [|x l IH]; [done|]. cbn. rewrite <- IH. done. Qed.

Lemma nextArrivals_spec tracks consumed :
  nextArrivals tracks consumed = sortCandidates (omap candidateOf (left_over tracks consumed)).
Proof.
  unfold nextArrivals, left_over. rewrite omap_map. f_equal. apply list_omap_ext, Forall_Forall2_diag, Forall_true.
  intros [d l]. unfold candidateOf. simpl. set (k := consumedOf consumed d).
  destruct (l !! k) as [a|] eqn:E; simpl.
  - rewrite (drop_S _ _ _ E). f_equal. f_equal. rewrite length_drop. lia.
  - apply lookup_ge_None_1 in E. by rewrite drop_ge.
Qed.

(** One generation takes the head of the chosen tracks. *)
Definition take_heads (chosen : list string) (R : JsMap string (list Arrival)) : JsMap string (list Arrival) :=
  (λ e, (e.1, if bool_decide (e.1 ∈ chosen) then tail e.2 else e.2)) <$> R.

Lemma consumedOf_foldl gen consumed d :
  NoDup (cand_device <$> gen) →
  consumedOf (foldl consume consumed gen) d = consumedOf consumed d + Nat.b2n (bool_decide (d ∈ cand_device <$> gen)).
Proof.
  revert consumed; induction gen as [|c gen IH]; intros consumed Hnd; [simpl; lia|].
  rewrite fmap_cons, list.NoDup_cons in Hnd. destruct Hnd as [Hc Hnd]. simpl (foldl _ _ _). rewrite IH by done.
  assert (Hcons : consumedOf (consume consumed c) d = consumedOf consumed d + Nat.b2n (bool_decide (d = cand_device c))).
  { unfold consume, consumedOf at 1. rewrite jget_set. destruct (decide (cand_device c = d)) as [<-|Hne].
    - rewrite bool_decide_eq_true_2 by done. done.
    - rewrite bool_decide_eq_false_2 by congruence. simpl. rewrite Nat.add_0_r. done. }
  rewrite Hcons, fmap_cons. destruct (decide (d = cand_device c)) as [->|Hne].
  - rewrite (bool_decide_eq_true_2 (cand_device c = _)), (bool_decide_eq_true_2 (cand_device c ∈ _ :: _)) by (done || left).
    rewrite bool_decide_eq_false_2 by done. simpl. lia.
  - rewrite (bool_decide_eq_false_2 (d = _)) by done.
    rewrite (bool_decide_ext (d ∈ cand_device c :: _) (d ∈ cand_device <$> gen)) by (rewrite elem_of_cons; tauto). simpl. lia.
Qed.

Lemma left_over_consume tracks gen consumed :
  NoDup (cand_device <$> gen) →
  left_over tracks (foldl consume consumed gen) = take_heads (cand_device <$> gen) (left_over tracks consumed).
Proof.
  intros Hnd. unfold left_over, take_heads. rewrite <- list_fmap_compose. apply list_fmap_ext. intros i [d l] _. simpl.
  f_equal. rewrite consumedOf_foldl by done. case_bool_decide; simpl; [|by rewrite Nat.add_0_r].
  rewrite <- drop_drop. by destruct (drop _ l).
Qed.

(** *** Counting *)

Definition weight (c : Candidate) : nat := S (remainingAfter c).
Definition total (R : JsMap string (list Arrival)) : nat := sum_list_with (λ e, length e.2) R.
Definition at_most (k : nat) (R : JsMap string (list Arrival)) : Prop := ∀ e, e ∈ R → length e.2 ≤ k.

Lemma total_cons e R : total (e :: R) = length e.2 + total R.
Proof. done. Qed.

Lemma omap_candidate_cons e R :
  omap candidateOf (e :: R) = match candidateOf e with Some c => c :: omap candidateOf R | None => omap candidateOf R end.
Proof. done. Qed.

Lemma total_candidates R : total R = sum_list_with weight (omap candidateOf R).
Proof.
  induction R as [|[d l] R IH]; [done|]. rewrite total_cons, omap_candidate_cons, IH.
  destruct l; simpl; lia.
Qed.

Lemma elem_of_candidates c (R : JsMap string (list Arrival)) :
  c ∈ omap candidateOf R ↔ ∃ a l, (cand_device c, a :: l) ∈ R ∧ c = mkCand (cand_device c) a (length l).
Proof.
  rewrite list_elem_of_omap. split.
  - intros ([d [|a l]] & Hin & Hc); [done|]. injection Hc as <-. by exists a, l.
  - intros (a & l & Hin & ->). by exists (cand_device c, a :: l).
Qed.

Lemma candidate_devices_sub R d : d ∈ cand_device <$> omap candidateOf R → d ∈ jkeys R.
Proof.
  intros (c & -> & (a & l & Hin & _)%elem_of_candidates)%list_elem_of_fmap.
  apply list_elem_of_fmap. by exists (cand_device c, a :: l).
Qed.

Lemma candidate_devices_NoDup R : jwf R → NoDup (cand_device <$> omap candidateOf R).
Proof.
  unfold jwf, jkeys. induction R as [|[d l] R IH]; [constructor|]. rewrite fmap_cons, list.NoDup_cons. intros [Hd HR].
  rewrite omap_candidate_cons. destruct l as [|a l]; simpl; [auto|]. constructor; [|auto].
  intros Hin. by apply Hd, candidate_devices_sub.
Qed.

Lemma candidates_bound k l : (∀ c, c ∈ l → weight c ≤ k) → sum_list_with weight l ≤ k * length l.
Proof.
  induction l as [|c l IH]; intros H; [simpl; lia|].
  change (sum_list_with weight (c :: l)) with (weight c + sum_list_with weight l).
  specialize (H c (list_elem_of_here c l)) as Hc. specialize (IH ltac:(intros; apply H; by right)). cbn [length]. lia.
Qed.

Lemma candidates_bound_below k l : (∀ c, c ∈ l → k ≤ weight c) → k * length l ≤ sum_list_with weight l.
Proof.
  induction l as [|c l IH]; intros H; [simpl; lia|].
  change (sum_list_with weight (c :: l)) with (weight c + sum_list_with weight l).
  specialize (H c (list_elem_of_here c l)) as Hc. specialize (IH ltac:(intros; apply H; by right)). cbn [length]. lia.
Qed.

Lemma candidate_weight R c k : at_most k R → c ∈ omap candidateOf R → weight c ≤ k.
Proof.
  intros Hk (a & l & Hin & ->)%elem_of_candidates. exact (Hk _ Hin).
Qed.

(** Balanced tracks have enough candidates for a generation. *)
Lemma enough_candidates R c k :
  total R = c * S k → at_most (S k) R → c ≤ length (omap candidateOf R).
Proof.
  intros Ht Hk. pose proof (candidates_bound (S k) (omap candidateOf R)) as Hb.
  rewrite <- total_candidates, Ht in Hb. specialize (Hb ltac:(intros; by eapply candidate_weight)). nia.
Qed.

Lemma total_take_heads R chosen :
  total (take_heads chosen R) + length (filter (λ c, cand_device c ∈ chosen) (omap candidateOf R)) = total R.
Proof.
  induction R as [|[d l] R IH]; [done|].
  change (take_heads chosen ((d, l) :: R)) with
    ((d, if bool_decide (d ∈ chosen) then tail l else l) :: take_heads chosen R).
  rewrite !total_cons, omap_candidate_cons. destruct l as [|a l]; simpl; [case_bool_decide; simpl; lia|].
  rewrite filter_cons. simpl. case_bool_decide; case_decide; simpl; try done; lia.
Qed.

Lemma take_heads_wf chosen R : jwf R → jwf (take_heads chosen R).
Proof. unfold take_heads, jwf, jkeys. rewrite <- list_fmap_compose. done. Qed.

Lemma chosen_filter next n :
  NoDup (cand_device <$> next) →
  length (filter (λ c, cand_device c ∈ cand_device <$> take n next) next) = length (take n next).
Proof.
  intros Hnd.
  assert (Hall : ∀ l : list Candidate, (∀ c, c ∈ l → c ∈ take n next) → filter (λ c, cand_device c ∈ cand_device <$> take n next) l = l).
  { induction l as [|c l IH]; intros Hl; [done|]. rewrite filter_cons_True, IH; [done| |].
    - intros; apply Hl; by right.
    - apply list_elem_of_fmap_2, Hl. left. }
  assert (Hnone : ∀ l : list Candidate, (∀ c, c ∈ l → c ∈ drop n next) → filter (λ c, cand_device c ∈ cand_device <$> take n next) l = []).
  { induction l as [|c l IH]; intros Hl; [done|]. rewrite filter_cons_False, IH; [done| |].
    - intros; apply Hl; by right.
    - intros Hc. rewrite <- (take_drop n next), fmap_app in Hnd. apply list.NoDup_app in Hnd as (_ & Hd & _).
      apply (Hd _ Hc), list_elem_of_fmap_2, Hl. left. }
  transitivity (length (filter (λ c, cand_device c ∈ cand_device <$> take n next) (take n next ++ drop n next)));
    [by rewrite take_drop|]. by rewrite list.filter_app, Hall, Hnone, app_nil_r by done.
Qed.

(** *** One round *)

Lemma weights_app l1 l2 : sum_list_with weight (l1 ++ l2) = sum_list_with weight l1 + sum_list_with weight l2.
Proof. apply sum_list_with_app. Qed.

(** The devices with the most arrivals left are the ones chosen, so the tracks
    stay balanced. *)
Lemma round_balanced R c k :
  let next := sortCandidates (omap candidateOf R) in
  let chosen := cand_device <$> take c next in
  jwf R → total R = c * S k → c ≤ length next →
  NoDup chosen ∧ total (take_heads chosen R) = c * k ∧ (at_most (S k) R → at_most k (take_heads chosen R)).
Proof.
  intros next chosen Hwf Ht Hc. pose proof (sortCandidates_perm (omap candidateOf R)) as Hperm. fold next in Hperm.
  assert (Hnd : NoDup (cand_device <$> next)) by (rewrite Hperm; by apply candidate_devices_NoDup).
  assert (Hlen : length (take c next) = c) by (rewrite length_take; lia).
  assert (Hch : NoDup chosen).
  { rewrite <- (take_drop c next), fmap_app in Hnd. by apply list.NoDup_app in Hnd as [? _]. }
  split; [done|]. split.
  - pose proof (total_take_heads R chosen) as H. rewrite <- Hperm in H.
    unfold chosen in H at 2. rewrite chosen_filter, Hlen, Ht in H by done. lia.
  - intros Hk e (e0 & -> & He)%list_elem_of_fmap. destruct e0 as [d l]. simpl.
    pose proof (Hk _ He) as Hl. simpl in Hl. case_bool_decide as Hd; [destruct l; simpl in *; lia|].
    destruct (decide (length l = S k)) as [Hlk|]; [exfalso|lia]. destruct l as [|a l]; [done|]. simpl in Hlk.
    set (x := mkCand d a (length l)).
    assert (Hx : x ∈ drop c next).
    { assert (x ∈ next) as Hx by (rewrite Hperm; apply elem_of_candidates; by exists a, l).
      rewrite <- (take_drop c next), elem_of_app in Hx. destruct Hx as [Hx|?]; [|done].
      exfalso. apply Hd. apply list_elem_of_fmap. by exists x. }
    assert (Hall : ∀ y, y ∈ take c next → S k ≤ weight y).
    { intros y Hy. pose proof (most_first_take c next y x (sortCandidates_most_first _) Hy Hx) as H.
      unfold weight. unfold x in H. simpl in H. lia. }
    apply candidates_bound_below in Hall. rewrite Hlen in Hall.
    pose proof (sum_list_with_in x weight _ Hx) as Hxw. unfold weight in Hxw at 1; unfold x in Hxw at 1; simpl in Hxw.
    rewrite total_candidates, <- Hperm, <- (take_drop c next), weights_app in Ht. lia.
Qed.

Lemma at_most_take_heads chosen k R : at_most k (take_heads chosen R) → at_most (S k) R.
Proof.
  intros H [d l] He. pose proof (H (d, if bool_decide (d ∈ chosen) then tail l else l)) as Hl.
  assert (length (if bool_decide (d ∈ chosen) then tail l else l) ≤ k) as Hle.
  { apply Hl. apply list_elem_of_fmap. by exists (d, l). }
  simpl. case_bool_decide; [destruct l; simpl in *; lia|lia].
Qed.

(** *** Which arrivals a generation takes *)

Definition labelled (R : JsMap string (list Arrival)) : Prop :=
  ∀ d l a, (d, l) ∈ R → a ∈ l → device a = Some d.

Lemma take_heads_labelled chosen R : labelled R → labelled (take_heads chosen R).
Proof.
  intros HR d l a ([d' l'] & [= -> ->] & Hin)%list_elem_of_fmap Ha. eapply HR; [done|].
  simpl in Ha. case_bool_decide; [|done]. destruct l'; [done|by right].
Qed.

Lemma jget_take_heads chosen R d :
  jget d (take_heads chosen R) = (λ l, if bool_decide (d ∈ chosen) then tail l else l) <$> jget d R.
Proof.
  induction R as [|[d' l] R IH]; [done|].
  change (take_heads chosen ((d', l) :: R)) with
    ((d', if bool_decide (d' ∈ chosen) then tail l else l) :: take_heads chosen R).
  rewrite !jget_cons, IH. by destruct (decide (d' = d)) as [->|].
Qed.

Definition ofDevice (d : string) (l : list Arrival) : list Arrival := filter (λ a, device a = Some d) l.

Lemma ofDevice_app d l1 l2 : ofDevice d (l1 ++ l2) = ofDevice d l1 ++ ofDevice d l2.
Proof. apply list.filter_app. Qed.

Lemma ofDevice_none d (gen : list Candidate) :
  (∀ c, c ∈ gen → device (cand_arrival c) = Some (cand_device c)) → d ∉ cand_device <$> gen →
  ofDevice d (cand_arrival <$> gen) = [].
Proof.
  unfold ofDevice. induction gen as [|c gen IH]; intros Hl Hd; [done|]. rewrite fmap_cons, not_elem_of_cons in Hd.
  destruct Hd as [Hne Hd]. rewrite fmap_cons, filter_cons_False, IH; [done|intros; apply Hl; by right|done|].
  rewrite (Hl c) by left. congruence.
Qed.

Lemma ofDevice_chosen (gen : list Candidate) c :
  (∀ c, c ∈ gen → device (cand_arrival c) = Some (cand_device c)) → NoDup (cand_device <$> gen) → c ∈ gen →
  ofDevice (cand_device c) (cand_arrival <$> gen) = [cand_arrival c].
Proof.
  induction gen as [|x gen IH]; intros Hl Hnd Hc; [by apply elem_of_nil in Hc|].
  rewrite fmap_cons, list.NoDup_cons in Hnd. destruct Hnd as [Hx Hnd]. rewrite fmap_cons. unfold ofDevice.
  apply elem_of_cons in Hc as [->|Hc].
  - rewrite filter_cons_True by (apply Hl; left). f_equal. apply ofDevice_none; [|done]. intros; apply Hl; by right.
  - rewrite filter_cons_False; [apply IH; [intros; apply Hl; by right|done..]|].
    rewrite (Hl x) by left. intros [= E]. apply Hx. rewrite E. by apply list_elem_of_fmap_2.
Qed.

(** A generation and what it leaves make up each track. *)
Lemma generation_of_tracks R (gen : list Candidate) d :
  jwf R → labelled R → NoDup (cand_device <$> gen) → (∀ c, c ∈ gen → c ∈ omap candidateOf R) →
  ofDevice d (cand_arrival <$> gen) ++ default [] (jget d (take_heads (cand_device <$> gen) R)) = default [] (jget d R).
Proof.
  intros Hwf Hlab Hnd Hgen.
  assert (Hl : ∀ c, c ∈ gen → device (cand_arrival c) = Some (cand_device c)).
  { intros c (a & l & Hin & E)%Hgen%elem_of_candidates. eapply Hlab; [done|]. rewrite E. left. }
  rewrite jget_take_heads. destruct (decide (d ∈ cand_device <$> gen)) as [Hd|Hd].
  - rewrite bool_decide_eq_true_2 by done. apply list_elem_of_fmap in Hd as (c & -> & Hc).
    rewrite (ofDevice_chosen gen c) by done.
    destruct (proj1 (elem_of_candidates _ _) (Hgen c Hc)) as (a & l & Hin & E).
    rewrite (jget_wf_in _ _ _ Hwf Hin), E. done.
  - rewrite bool_decide_eq_false_2, ofDevice_none by done. by destruct (jget d R).
Qed.

(** *** The loop *)

Lemma left_over_wf tracks consumed : jwf tracks → jwf (left_over tracks consumed).
Proof. unfold left_over, jwf, jkeys. rewrite <- list_fmap_compose. done. Qed.

Lemma total_zero R : total R = 0 → ∀ e, e ∈ R → e.2 = [].
Proof.
  intros H e He. pose proof (sum_list_with_in e (λ e, length e.2) R He) as Hle. fold (total R) in Hle.
  rewrite H in Hle. destruct e as [d [|]]; [done|]. simpl in Hle. lia.
Qed.

Definition complete_generation (c : nat) (g : list Arrival) : Prop := length g = c ∧ NoDup (device <$> g).

Lemma chosen_devices R (gen : list Candidate) :
  labelled R → (∀ c, c ∈ gen → c ∈ omap candidateOf R) →
  device <$> (cand_arrival <$> gen) = Some <$> (cand_device <$> gen).
Proof.
  intros Hlab Hgen. rewrite <- !list_fmap_compose. apply list_fmap_ext. intros i c Hc%list_elem_of_lookup_2. simpl.
  destruct (proj1 (elem_of_candidates _ _) (Hgen c Hc)) as (a & l & Hin & E).
  eapply Hlab; [done|]. rewrite E. left.
Qed.

Lemma groupLoop_spec lock c tracks k consumed spans :
  0 < c → jwf tracks → labelled (left_over tracks consumed) → total (left_over tracks consumed) = c * k →
  match groupLoop lock (Z.of_nat c) tracks k consumed spans with
  | Throws _ => ¬ at_most k (left_over tracks consumed)
  | Returns spans' =>
      at_most k (left_over tracks consumed) ∧
      ∃ gens, spans' = spans ++ (spanForArrivals lock <$> gens) ∧ Forall (complete_generation c) gens ∧
        (∀ g a, g ∈ gens → a ∈ g → is_Some (device a)) ∧
        ∀ d, ofDevice d (concat gens) = default [] (jget d (left_over tracks consumed))
  end.
Proof.
  intros Hc Hwf. revert consumed spans; induction k as [|k IH]; intros consumed spans Hlab Ht; cbn [groupLoop].
  - rewrite Nat.mul_0_r in Ht. split; [intros e He; by rewrite (total_zero _ Ht)|].
    exists []. split_and!; [by rewrite app_nil_r|constructor|by intros ? ? ?%elem_of_nil|]. intros d. simpl.
    destruct (jget d _) as [l|] eqn:E; [|done]. apply jget_in, (total_zero _ Ht) in E. simpl in *. by subst.
  - set (R := left_over tracks consumed) in *. rewrite nextArrivals_spec. fold R.
    assert (HR : jwf R) by (by apply left_over_wf).
    set (next := sortCandidates (omap candidateOf R)).
    assert (Hlen : length next = length (omap candidateOf R)) by (apply Permutation_length, sortCandidates_perm).
    case_bool_decide as Hlt.
    { intros Hk. pose proof (enough_candidates R c k Ht Hk). lia. }
    rewrite Nat2Z.id. destruct (round_balanced R c k HR Ht) as (Hnd & Ht' & Hbal); [fold next; lia|].
    fold next in Hnd, Ht', Hbal. set (gen := take c next) in *.
    assert (Hgen : ∀ x, x ∈ gen → x ∈ omap candidateOf R).
    { intros x Hx. rewrite <- (sortCandidates_perm (omap candidateOf R)). fold next.
      rewrite <- (take_drop c next). apply elem_of_app. by left. }
    assert (Hleft : left_over tracks (foldl consume consumed gen) = take_heads (cand_device <$> gen) R)
      by (by apply left_over_consume).
    specialize (IH (foldl consume consumed gen) (spans ++ [spanForArrivals lock (cand_arrival <$> gen)])).
    rewrite Hleft in IH. specialize (IH (take_heads_labelled _ _ Hlab) Ht').
    destruct groupLoop as [spans'|e]; [|by intros Hk%Hbal].
    destruct IH as (Hk & gens & -> & Hgens & Hlbl & Hd). split; [by eapply at_most_take_heads|].
    exists ((cand_arrival <$> gen) :: gens). split_and!.
    + by rewrite <- app_assoc.
    + constructor; [|done]. split; [rewrite length_fmap; unfold gen; rewrite length_take; lia|].
      rewrite (chosen_devices R) by done. apply NoDup_fmap; [apply _|done].
    + intros g a [->|Hg]%elem_of_cons Ha; [|by eapply Hlbl].
      assert (device a ∈ device <$> (cand_arrival <$> gen)) as H by (by apply list_elem_of_fmap_2).
      rewrite (chosen_devices R) in H by done. by apply list_elem_of_fmap in H as (d & -> & _).
    + intros d. simpl (concat _). rewrite ofDevice_app, Hd. by apply generation_of_tracks.
Qed.

(** *** Building the tracks *)

Lemma total_app R1 R2 : total (R1 ++ R2) = total R1 + total R2.
Proof. apply sum_list_with_app. Qed.

Lemma jset_split (R : JsMap string (list Arrival)) d v :
  jwf R → jhas d R = true →
  ∃ R1 R2 l, R = R1 ++ (d, l) :: R2 ∧ jget d R = Some l ∧ jset d v R = R1 ++ (d, v) :: R2.
Proof.
  intros Hwf Hh. pose proof Hh as [e [-> He]]%jhas_true%list_elem_of_fmap. destruct e as [d l]. simpl in *.
  pose proof (jget_wf_in _ _ _ Hwf He) as Hg.
  apply list_elem_of_split in He as (R1 & R2 & ->). exists R1, R2, l. split_and!; [done|done|].
  unfold jwf, jkeys in Hwf. rewrite fmap_app, fmap_cons in Hwf. apply list.NoDup_app in Hwf as (_ & H1 & H2).
  apply list.NoDup_cons in H2 as [H2 _].
  assert (Hid : ∀ S : JsMap string (list Arrival), d ∉ S.*1 → (λ e, if decide (e.1 = d) then (d, v) else e) <$> S = S).
  { induction S as [|e S IH]; [done|]. rewrite !fmap_cons, not_elem_of_cons. intros [Hne Hn].
    rewrite decide_False, IH by congruence. done. }
  unfold jset. rewrite Hh, fmap_app, fmap_cons, decide_True by done. rewrite !Hid; [done|done|].
  intros H. apply (H1 _ H). left.
Qed.

Lemma total_add R d a :
  jwf R → total (jset d (default [] (jget d R) ++ [a]) R) = S (total R).
Proof.
  intros Hwf. destruct (jhas d R) eqn:Hh.
  - destruct (jset_split R d (default [] (jget d R) ++ [a]) Hwf Hh) as (R1 & R2 & l & E & Hg & ->).
    rewrite Hg, E, !total_app, !total_cons. simpl. rewrite length_app. simpl. lia.
  - rewrite jhas_get in Hh. apply bool_decide_eq_false_1, eq_None_not_Some in Hh as Hg. rewrite Hg. simpl.
    unfold jset. rewrite jhas_get, Hg. simpl. rewrite total_app. unfold total at 2. simpl. lia.
Qed.

Record tracks_of (l : list Arrival) (tracks : JsMap string (list Arrival)) : Prop := {
  to_wf : jwf tracks;
  to_track d : default [] (jget d tracks) = ofDevice d l;
  to_total : total tracks = length l;
  to_labels a : a ∈ l → is_Some (device a) }.

Lemma deviceTracks_spec l :
  match deviceTracks l with Some tracks => tracks_of l tracks | None => ∃ a, a ∈ l ∧ device a = None end.
Proof.
  unfold deviceTracks. induction l as [|a l IH] using rev_ind; [split; try done; [constructor|by intros ? ?%elem_of_nil]|].
  rewrite foldl_app. simpl. destruct (foldl addToTrack (Some []) l) as [tracks|]; simpl.
  2:{ destruct IH as (x & Hx & E). exists x. split; [set_solver|done]. }
  destruct (device a) as [d|] eqn:Ed; simpl; [|exists a; split; [set_solver|done]].
  destruct IH as [Hwf Ht Htot Hlab]. split.
  - by apply jset_wf.
  - intros d'. rewrite jget_set, ofDevice_app. unfold ofDevice at 2. case_decide as E.
    + subst. rewrite filter_cons_True by done. rewrite Ht. done.
    + rewrite filter_cons_False by congruence. rewrite filter_nil, app_nil_r. apply Ht.
  - rewrite total_add, Htot, length_app by done. simpl. lia.
  - intros x [?| ->%list_elem_of_singleton]%elem_of_app; [auto|by exists d].
Qed.

Lemma tracks_of_labelled l tracks : tracks_of l tracks → labelled tracks.
Proof.
  intros [Hwf Ht _ _] d t a Hin Ha. pose proof (jget_wf_in _ _ _ Hwf Hin) as E. specialize (Ht d). rewrite E in Ht.
  simpl in Ht. subst t. by apply list_elem_of_filter in Ha as [? _].
Qed.

Lemma left_over_nil tracks : left_over tracks [] = tracks.
Proof.
  unfold left_over. rewrite <- (list_fmap_id tracks) at 2. apply list_fmap_ext. intros i [d l] _. reflexivity.
Qed.

Lemma consistentDeviceCount_pos l c : consistentDeviceCount l = Some c → (1 ≤ c)%Z.
Proof.
  unfold consistentDeviceCount. destruct (newSet _) as [|x [|]] eqn:E; [done| |done]. intros [= <-].
  assert (x ∈ newSet (omap (λ a, c ← deviceCount a; if bool_decide (1 ≤ c)%Z then Some c else None) l)) as Hx
    by (rewrite E; left).
  apply (proj1 (elem_of_newSet _ _)), list_elem_of_omap in Hx as (a & _ & Hx).
  destruct (deviceCount a); simpl in Hx; [|done]. case_bool_decide; simplify_eq. done.
Qed.

(** Equal device tracks: a rearrangement. *)
Lemma same_tracks_permutation l1 l2 :
  (∀ a, a ∈ l1 → is_Some (device a)) → (∀ a, a ∈ l2 → is_Some (device a)) →
  (∀ d, ofDevice d l1 = ofDevice d l2) → l1 ≡ₚ l2.
Proof.
  revert l2; induction l1 as [|a l1 IH]; intros l2 H1 H2 Hd.
  - destruct l2 as [|b l2]; [done|]. destruct (H2 b) as [d E]; [left|]. specialize (Hd d).
    unfold ofDevice in Hd. by rewrite filter_cons_True in Hd.
  - destruct (H1 a) as [d E]; [left|].
    assert (Ha : a ∈ l2).
    { assert (a ∈ ofDevice d l2) as H; [|by apply list_elem_of_filter in H as [_ ?]].
      rewrite <- Hd. apply list_elem_of_filter. split; [done|left]. }
    (* the first arrival of the device of [a] in [l2] is [a] *)
    assert (∃ u v, l2 = u ++ a :: v ∧ ∀ x, x ∈ u → device x ≠ Some d) as (u & v & -> & Hu).
    { specialize (Hd d). unfold ofDevice in Hd at 1. rewrite filter_cons_True in Hd by done.
      clear -Hd. unfold ofDevice in Hd. revert Hd. generalize (filter (λ x, device x = Some d) l1). intros rest Hd.
      induction l2 as [|b l2 IH]; [done|]. destruct (decide (device b = Some d)) as [Hb|Hb].
      - rewrite filter_cons_True in Hd by done. exists [], l2. split; [injection Hd as -> _; done|by intros ? ?%elem_of_nil].
      - rewrite filter_cons_False in Hd by done. destruct (IH Hd) as (u & v & -> & Hu).
        exists (b :: u), v. split; [done|]. intros x [->|?]%elem_of_cons; auto. }
    rewrite <- Permutation_middle. constructor. apply IH.
    + intros; apply H1; by right.
    + intros x Hx. apply H2. set_solver.
    + intros d'. specialize (Hd d'). rewrite ofDevice_app in *. unfold ofDevice in *.
      destruct (decide (d' = d)) as [->|Hne].
      * assert (filter (λ x, device x = Some d) u = []) as Hnil.
        { clear -Hu. induction u as [|x u IHu]; [done|]. rewrite filter_cons_False by (apply Hu; left).
          apply IHu. intros; apply Hu; by right. }
        rewrite Hnil in *. rewrite !filter_cons_True in Hd by done. by injection Hd as ->.
      * rewrite !(filter_cons_False _ a) in Hd by congruence. done.
Qed.
