(* ===== verification/BarrierRecovery.v ===== *)
(** * Recovering a barrier plan: the theorems

    Correctness of [BarrierResume]: the generations of a lock are complete
    rendezvous made of the device tracks, the greedy grouping succeeds whenever
    some grouping exists, and the resume step splits no generation. *)
From stdpp Require Import strings sets.
From S2P Require Import Prelude JsMap BarrierResume.

(** ** Generations of one lock *)

Lemma at_most_iff l tracks k :
  tracks_of l tracks → at_most k tracks ↔ ∀ d, length (ofDevice d l) ≤ k.
Proof.
  intros [Hwf Ht _ _]. split.
  - intros H d. rewrite <- Ht. destruct (jget d tracks) as [t|] eqn:E; simpl; [|lia]. by apply (H (d, t)), jget_in.
  - intros H [d t] Hin. specialize (H d). rewrite <- Ht, (jget_wf_in _ _ _ Hwf Hin) in H. done.
Qed.

Lemma ofDevice_length_le d (g : list Arrival) : NoDup (device <$> g) → length (ofDevice d g) ≤ 1.
Proof.
  unfold ofDevice. induction g as [|a g IH]; [simpl; lia|]. rewrite fmap_cons, list.NoDup_cons. intros [Ha Hg].
  rewrite filter_cons. case_decide as Hd; [|auto]. simpl.
  assert (filter (λ a, device a = Some d) g = []) as ->; [|simpl; lia].
  destruct (filter _ g) as [|x r] eqn:E; [done|]. exfalso. apply Ha.
  assert (x ∈ filter (λ a, device a = Some d) g) as [Hx Hin]%list_elem_of_filter by (rewrite E; left).
  apply list_elem_of_fmap. exists x. split; [congruence|done].
Qed.

Lemma ofDevice_concat_le d (gens : list (list Arrival)) :
  Forall (λ g, NoDup (device <$> g)) gens → length (ofDevice d (concat gens)) ≤ length gens.
Proof.
  induction 1 as [|g gens Hg _ IH]; simpl; [unfold ofDevice; simpl; lia|].
  rewrite ofDevice_app, length_app. pose proof (ofDevice_length_le d g Hg). lia.
Qed.

Lemma length_concat_complete c (gens : list (list Arrival)) :
  Forall (λ g, length g = c) gens → length (concat gens) = c * length gens.
Proof. induction 1 as [|g gens Hg _ IH]; simpl; [lia|]. rewrite length_app. lia. Qed.

Lemma singletonSpan_spec lock a : singletonSpan lock a = spanForArrivals lock [a].
Proof. unfold spanForArrivals; simpl. by rewrite !bool_decide_eq_false_2 by lia. Qed.

Lemma elem_of_list_concat {A} (x : A) (ls : list (list A)) : x ∈ concat ls ↔ ∃ l, x ∈ l ∧ l ∈ ls.
Proof.
  induction ls as [|l ls IH]; simpl; [split; [by intros ?%elem_of_nil|by intros (? & _ & ?%elem_of_nil)]|].
  rewrite elem_of_app, IH. set_solver.
Qed.

(** A generation of [c] arrivals of distinct devices, every one labelled unless
    one arrival is enough. *)
Definition rendezvous (c : Z) (g : list Arrival) : Prop :=
  Z.of_nat (length g) = c ∧ NoDup (device <$> g) ∧ (c = 1%Z ∨ ∀ a, a ∈ g → is_Some (device a)).

(** What the tracks, the divisibility and the loop decide together. *)
Lemma spansForLock_grouped lock l c tracks :
  consistentDeviceCount l = Some c → c ≠ 1%Z → deviceTracks l = Some tracks →
  match spansForLock lock l with
  | Returns spans => ∃ gens, spans = spanForArrivals lock <$> gens ∧ Forall (rendezvous c) gens ∧
      concat gens ≡ₚ l ∧ ∀ d, ofDevice d (concat gens) = ofDevice d l
  | Throws _ => ¬ ∃ k, length l = Z.to_nat c * k ∧ ∀ d, length (ofDevice d l) ≤ k
  end.
Proof.
  intros Hc Hc1 Ht. pose proof (consistentDeviceCount_pos _ _ Hc) as Hpos.
  pose proof (deviceTracks_spec l) as Hsp. rewrite Ht in Hsp.
  unfold spansForLock. destruct l as [|a0 l0]; [done|]. set (l := a0 :: l0) in *. rewrite Hc, Ht.
  rewrite bool_decide_eq_false_2 by congruence. set (n := Z.to_nat c). assert (Hn : c = Z.of_nat n) by (unfold n; lia).
  case_bool_decide as Hmod.
  { intros (k & Hk & _). apply Hmod. rewrite Hk, Hn, Nat2Z.inj_mul, Z.mul_comm. apply Z.mod_mul. lia. }
  assert (Hdiv : length l = n * (length l / n)).
  { rewrite Hn, <- Nat2Z.inj_mod in Hmod. apply Nat.Div0.div_exact; lia. }
  assert (Htot : total (left_over tracks []) = n * (length l / n)) by (rewrite left_over_nil, (to_total _ _ Hsp); done).
  pose proof (groupLoop_spec lock n tracks (length l / n) [] []) as Hloop. rewrite <- Hn, left_over_nil in Hloop.
  rewrite left_over_nil in Htot. specialize (Hloop ltac:(lia) (to_wf _ _ Hsp) (tracks_of_labelled _ _ Hsp) Htot).
  destruct groupLoop as [spans|e].
  - destruct Hloop as (_ & gens & -> & Hg & Hlbl & Hd). exists gens.
    assert (Htr : ∀ d, ofDevice d (concat gens) = ofDevice d l) by (intros d; by rewrite Hd, (to_track _ _ Hsp)).
    assert (Hlabs : ∀ a, a ∈ concat gens → is_Some (device a)).
    { intros a (g & Ha & Hin)%elem_of_list_concat. by eapply Hlbl. }
    split_and!; [done| |by apply same_tracks_permutation; [|apply (to_labels _ _ Hsp)|]|done].
    apply list.Forall_forall. intros g Hin. destruct (proj1 (list.Forall_forall _ _) Hg g Hin) as [Hl Hnd].
    split_and!; [lia|done|right]. intros a Ha. by eapply Hlbl.
  - intros (k & Hk & Hle). apply Hloop, (at_most_iff l tracks); [done|]. intros d.
    assert (length l / n = k) as ->; [|done]. fold n in Hk. rewrite Hk, Nat.mul_comm. apply Nat.div_mul. lia.
Qed.

Lemma spansForLock_singletons lock l :
  l ≠ [] → consistentDeviceCount l = Some 1%Z → spansForLock lock l = Returns (singletonSpan lock <$> l).
Proof. intros Hl Hc. unfold spansForLock. destruct l; [done|]. by rewrite Hc, bool_decide_eq_true_2. Qed.

Lemma singletons l :
  concat ((λ a : Arrival, [a]) <$> l) = l ∧ Forall (rendezvous 1) ((λ a, [a]) <$> l).
Proof.
  split; [induction l as [|a l IH]; [done|]; simpl; by f_equal|].
  apply Forall_fmap, Forall_true. intros a. split_and!; [done|apply NoDup_singleton|by left].
Qed.

Lemma no_labels_throws lock l c :
  consistentDeviceCount l = Some c → c ≠ 1%Z → deviceTracks l = None →
  spansForLock lock l = Throws (invalidBarrierRecoveryShape lock MissingDeviceLabel).
Proof.
  intros Hc Hc1 Ht. unfold spansForLock. destruct l as [|a l]; [done|].
  rewrite Hc, Ht, bool_decide_eq_false_2 by congruence. done.
Qed.

Lemma spansForLock_returns lock l spans :
  spansForLock lock l = Returns spans →
  ∃ gens, spans = spanForArrivals lock <$> gens ∧ concat gens ≡ₚ l ∧
    (∀ d, ofDevice d (concat gens) = ofDevice d l) ∧
    (l = [] ∨ ∃ c, consistentDeviceCount l = Some c ∧ Forall (rendezvous c) gens).
Proof.
  intros H. destruct (decide (l = [])) as [->|Hl].
  { injection H as <-. exists []. by auto. }
  destruct (consistentDeviceCount l) as [c|] eqn:Hc.
  - destruct (decide (c = 1%Z)) as [->|Hc1].
    + rewrite spansForLock_singletons in H by done. injection H as <-. destruct (singletons l) as [E Hr].
      exists ((λ a, [a]) <$> l). rewrite E. split_and!; [|done|done|eauto].
      rewrite <- list_fmap_compose. apply list_fmap_ext. intros i a _. apply singletonSpan_spec.
    + destruct (deviceTracks l) as [tracks|] eqn:Ht; [|by rewrite (no_labels_throws _ _ _ Hc) in H].
      pose proof (spansForLock_grouped lock l c tracks Hc Hc1 Ht) as Hs. rewrite H in Hs.
      destruct Hs as (gens & -> & Hr & Hp & Hd). exists gens. split_and!; [done..|right; by exists c].
  - unfold spansForLock in H. destruct l; [done|]. rewrite Hc in H. simpl in H. by destruct (deviceTracks _).
Qed.

(** C3. The generations of a lock are real rendezvous: when [spansForLock]
    answers, its spans are those of groups that together hold every arrival
    exactly once, each group has exactly [deviceCount] arrivals of distinct
    devices, and every device's arrivals appear in its own track order. *)
Theorem generations_are_rendezvous (lock : string) (l : list Arrival) (spans : list GenerationSpan) :
  spansForLock lock l = Returns spans →
  ∃ gens, spans = spanForArrivals lock <$> gens ∧ concat gens ≡ₚ l ∧
    (∀ d, ofDevice d (concat gens) = ofDevice d l) ∧
    (l = [] ∨ ∃ c, consistentDeviceCount l = Some c ∧ Forall (rendezvous c) gens).
Proof. apply spansForLock_returns. Qed.

(** The greedy grouping is complete: with a consistent device count it
    succeeds exactly when the arrivals can be grouped into complete generations
    at all, so no plan that can be recovered is refused. *)
Theorem greedy_grouping_exact (lock : string) (l : list Arrival) (c : Z) :
  consistentDeviceCount l = Some c →
  (∃ spans, spansForLock lock l = Returns spans) ↔ (∃ gens, concat gens ≡ₚ l ∧ Forall (rendezvous c) gens).
Proof.
  intros Hc. pose proof (consistentDeviceCount_pos _ _ Hc) as Hpos. split.
  - intros (spans & H). destruct (spansForLock_returns _ _ _ H) as (gens & _ & Hp & _ & [->|(c' & E & Hr)]); [done|].
    exists gens. by simplify_eq.
  - intros (gens & Hp & Hr). destruct (decide (c = 1%Z)) as [->|Hc1].
    { eexists. apply spansForLock_singletons; [by intros ->|done]. }
    rewrite list.Forall_forall in Hr.
    destruct (deviceTracks l) as [tracks|] eqn:Ht.
    + pose proof (spansForLock_grouped lock l c tracks Hc Hc1 Ht) as Hs.
      destruct (spansForLock lock l) as [spans|e]; [by exists spans|]. exfalso. apply Hs. exists (length gens). split.
      * rewrite <- Hp. apply length_concat_complete, list.Forall_forall. intros g Hg. destruct (Hr g Hg). lia.
      * intros d. transitivity (length (ofDevice d (concat gens))).
        { apply Nat.eq_le_incl, Permutation_length. unfold ofDevice. by rewrite Hp. }
        apply ofDevice_concat_le, list.Forall_forall. intros g Hg. by destruct (Hr g Hg) as (_ & ? & _).
    + pose proof (deviceTracks_spec l) as Hn. rewrite Ht in Hn. destruct Hn as (a & Ha & En). exfalso.
      rewrite <- Hp in Ha. apply elem_of_list_concat in Ha as (g & Ha & Hg).
      destruct (Hr g Hg) as (_ & _ & [?|Hl]); [done|]. destruct (Hl a Ha). congruence.
Qed.

(** ** Spans of a plan *)

Lemma foldl_min (l : list Arrival) m :
  let r := foldl (λ m a, if bool_decide (planIndex a < m) then planIndex a else m) m l in
  r ≤ m ∧ (∀ a, a ∈ l → r ≤ planIndex a) ∧ (r = m ∨ ∃ a, a ∈ l ∧ r = planIndex a).
Proof.
  revert m; induction l as [|a l IH]; intros m; simpl; [split_and!; [done|by intros ? ?%elem_of_nil|by left]|].
  specialize (IH (if bool_decide (planIndex a < m) then planIndex a else m)) as (H1 & H2 & H3).
  set (r := foldl _ _ l) in *. split_and!.
  - revert H1. case_bool_decide; lia.
  - intros x [->|Hx]%elem_of_cons; [revert H1; case_bool_decide; lia|auto].
  - destruct H3 as [H3|(x & Hx & E)]; [|right; exists x; split; [by right|done]].
    revert H3. case_bool_decide; [intros; right; exists a; split; [left|done]|by left].
Qed.

Lemma foldl_max (l : list Arrival) m :
  let r := foldl (λ m a, if bool_decide (m < planIndex a) then planIndex a else m) m l in
  m ≤ r ∧ (∀ a, a ∈ l → planIndex a ≤ r) ∧ (r = m ∨ ∃ a, a ∈ l ∧ r = planIndex a).
Proof.
  revert m; induction l as [|a l IH]; intros m; simpl; [split_and!; [done|by intros ? ?%elem_of_nil|by left]|].
  specialize (IH (if bool_decide (m < planIndex a) then planIndex a else m)) as (H1 & H2 & H3).
  set (r := foldl _ _ l) in *. split_and!.
  - revert H1. case_bool_decide; lia.
  - intros x [->|Hx]%elem_of_cons; [revert H1; case_bool_decide; lia|auto].
  - destruct H3 as [H3|(x & Hx & E)]; [|right; exists x; split; [by right|done]].
    revert H3. case_bool_decide; [intros; right; exists a; split; [left|done]|by left].
Qed.

(** The span reaches exactly from its first arrival to its last. *)
Definition span_exact (s : GenerationSpan) : Prop :=
  (∀ a, a ∈ arrivals s → firstIndex s ≤ planIndex a ≤ lastIndex s) ∧
  (∃ a, a ∈ arrivals s ∧ planIndex a = firstIndex s) ∧ (∃ b, b ∈ arrivals s ∧ planIndex b = lastIndex s).

Lemma spanForArrivals_exact lock l : l ≠ [] → span_exact (spanForArrivals lock l).
Proof.
  destruct l as [|x l]; [done|]. intros _. unfold spanForArrivals, span_exact. cbn [arrivals firstIndex lastIndex].
  simpl (default 0 _).
  destruct (foldl_min (x :: l) (planIndex x)) as (_ & H1 & H2), (foldl_max (x :: l) (planIndex x)) as (_ & H3 & H4).
  split_and!; [auto| |].
  - destruct H2 as [->|(a & Ha & ->)]; [exists x; split; [left|done]|by exists a].
  - destruct H4 as [->|(a & Ha & ->)]; [exists x; split; [left|done]|by exists a].
Qed.

Lemma splits_iff (s : GenerationSpan) r :
  span_exact s →
  splits r s = true ↔
  ∃ a b, a ∈ arrivals s ∧ b ∈ arrivals s ∧ (Z.of_nat (planIndex a) < r ≤ Z.of_nat (planIndex b))%Z.
Proof.
  intros (Hall & (x & Hx & Ex) & (y & Hy & Ey)). unfold splits. rewrite andb_true_iff, !bool_decide_eq_true. split.
  - intros [H1 H2]. exists x, y. split_and!; [done|done|lia|lia].
  - intros (a & b & Ha & Hb & H). pose proof (Hall a Ha). pose proof (Hall b Hb). lia.
Qed.

(** Collected arrivals are in plan order. *)
Definition in_plan_order (n : nat) (l : list Arrival) : Prop :=
  ∃ a b, list.head l = Some a ∧ list.last l = Some b ∧
    ∀ x, x ∈ l → planIndex a ≤ planIndex x ≤ planIndex b ∧ planIndex x < n.

Lemma in_plan_order_snoc n l a :
  (l = [] ∨ in_plan_order n l) → planIndex a = n → in_plan_order (S n) (l ++ [a]).
Proof.
  intros [->|(x & y & Hx & Hy & Hall)] Ha.
  - exists a, a. split_and!; [done|done|]. intros z ->%list_elem_of_singleton. lia.
  - exists x, a. split_and!; [by destruct l|by rewrite last_snoc|].
    assert (x ∈ l) by (destruct l; simplify_eq/=; left).
    intros z [Hz| ->%list_elem_of_singleton]%elem_of_app; [pose proof (Hall z Hz); lia|].
    pose proof (Hall x ltac:(done)). lia.
Qed.

Lemma in_plan_order_mono n l : in_plan_order n l → in_plan_order (S n) l.
Proof. intros (a & b & Ha & Hb & H). exists a, b. split_and!; [done|done|]. intros x Hx. pose proof (H x Hx). lia. Qed.

Lemma collectArrivals_ordered sel (plan : Plan) :
  jwf (collectArrivals sel plan) ∧
  ∀ lock l, (lock, l) ∈ collectArrivals sel plan → in_plan_order (length plan) l.
Proof.
  unfold collectArrivals. induction plan as [|step plan [IHw IH]] using rev_ind.
  { split; [constructor|by intros ? ? ?%elem_of_nil]. }
  rewrite imap_app, foldl_app, length_app, Nat.add_1_r. set (m := foldl _ [] _) in *. simpl.
  destruct (stepLock step) as [lk|]; [|split; [done|intros; eapply in_plan_order_mono, IH; done]].
  destruct (sel (tool step)); [|split; [done|intros; eapply in_plan_order_mono, IH; done]].
  unfold pushArrival. split; [by apply jset_wf|].
  intros lock l [[-> ->]|[_ Hin]]%in_jset; [|by eapply in_plan_order_mono, IH|done].
  apply in_plan_order_snoc; [|done]. destruct (jget lk m) as [l0|] eqn:E; [right|by left].
  eapply IH, jget_in. done.
Qed.

Lemma spansForLockOrSkip_returns tolerant lock l spans :
  spansForLockOrSkip tolerant lock l = Returns spans →
  spansForLock lock l = Returns spans ∨ (tolerant = true ∧ spans = []).
Proof.
  unfold spansForLockOrSkip. destruct (spansForLock lock l) eqn:E; [by left|].
  destruct tolerant; [|done]. intros [= <-]. by right.
Qed.

Lemma barrier_spans tolerant (m : JsMap string (list Arrival)) spans acc :
  foldl (λ acc e, spans ← acc; more ← spansForLockOrSkip tolerant e.1 e.2; Returns (spans ++ more)) (Returns acc) m
    = Returns spans →
  ∀ s, s ∈ spans → s ∈ acc ∨ ∃ lock l ss, (lock, l) ∈ m ∧ spansForLock lock l = Returns ss ∧ s ∈ ss.
Proof.
  revert acc; induction m as [|[lock l] m IH]; intros acc; simpl; [intros [= <-] s; by left|].
  destruct (spansForLockOrSkip tolerant lock l) as [more|e] eqn:E; simpl.
  - intros H s Hs. destruct (IH _ H s Hs) as [[?|Hm]%elem_of_app|(lk & l' & ss & ? & ? & ?)]; [by left| |].
    + apply spansForLockOrSkip_returns in E as [E|[_ ->]]; [|by apply elem_of_nil in Hm].
      right. exists lock, l, more. split_and!; [left|done|done].
    + right. exists lk, l', ss. split_and!; [by right|done|done].
  - intros H. exfalso. clear -H. induction m as [|e' m IH]; simpl in H; [done|auto].
Qed.

Lemma last_elem {A} (l : list A) x : list.last l = Some x → x ∈ l.
Proof. intros (l' & ->)%last_Some. set_solver. Qed.
Lemma head_elem {A} (l : list A) x : list.head l = Some x → x ∈ l.
Proof. destruct l; [done|]. intros [= ->]. left. Qed.

Lemma collected_exact tolerant plan spans :
  collectGenerationSpans tolerant plan = Returns spans → ∀ s, s ∈ spans → span_exact s.
Proof.
  unfold collectGenerationSpans. intros H s Hs. apply outcome_bind_Returns in H as (bs & Hb & [= <-]).
  apply elem_of_app in Hs as [Hs|Hs].
  - destruct (barrier_spans _ _ _ _ Hb s Hs) as [?%elem_of_nil|(lock & l & ss & Hin & E & Hss)]; [done|].
    apply spansForLock_returns in E as (gens & -> & Hp & _ & Hr). apply list_elem_of_fmap in Hss as (g & -> & Hg).
    apply spanForArrivals_exact. intros ->. destruct Hr as [->|(c & Hc & Hr)].
    + by eapply (proj2 (collectArrivals_ordered isBarrier plan)) in Hin as (? & ? & ? & _).
    + rewrite list.Forall_forall in Hr. destruct (Hr _ Hg) as [Hl _]. apply consistentDeviceCount_pos in Hc. simpl in Hl. lia.
  - apply list_elem_of_omap in Hs as ([lock l] & Hin & Hs). unfold criticalSectionSpan in Hs. simpl in Hs.
    apply (proj2 (collectArrivals_ordered _ plan)) in Hin as (a & b & Ha & Hb' & Hall). rewrite Ha, Hb' in Hs.
    injection Hs as <-. unfold span_exact; simpl. split_and!.
    + intros x Hx. by apply Hall.
    + exists a. split; [by apply head_elem|done].
    + exists b. split; [by apply last_elem|done].
Qed.

(** ** The rewind *)

Lemma splits_lt s r : splits r s = true → (Z.of_nat (firstIndex s) < r ≤ Z.of_nat (lastIndex s))%Z.
Proof. unfold splits. rewrite andb_true_iff, !bool_decide_eq_true. tauto. Qed.

Lemma rewindOnce_spec (spans : list GenerationSpan) safe :
  (rewindOnce spans safe ≤ safe)%Z ∧
  (∀ s, s ∈ spans → splits safe s = true → (rewindOnce spans safe ≤ Z.of_nat (firstIndex s))%Z) ∧
  (rewindOnce spans safe = safe ∨
   ∃ s, s ∈ spans ∧ splits safe s = true ∧ rewindOnce spans safe = Z.of_nat (firstIndex s)).
Proof.
  unfold rewindOnce. induction spans as [|s spans (H1 & H2 & H3)] using rev_ind.
  { split_and!; [done|by intros ? ?%elem_of_nil|by left]. }
  rewrite foldl_app. set (r := foldl _ safe spans) in *. cbn [foldl].
  destruct (splits safe s && bool_decide (Z.of_nat (firstIndex s) < r)%Z) eqn:E.
  - apply andb_true_iff in E as [Es Er%bool_decide_eq_true_1]. split_and!; [lia| |right; exists s; set_solver].
    intros s' [Hs| ->%list_elem_of_singleton]%elem_of_app Hsp; [|lia]. specialize (H2 s' Hs Hsp). lia.
  - split_and!; [done| |destruct H3 as [?|(s' & ? & ? & ?)]; [by left|right; exists s'; set_solver]].
    intros s' [Hs| ->%list_elem_of_singleton]%elem_of_app Hsp; [auto|]. rewrite Hsp in E. simpl in E.
    apply bool_decide_eq_false_1 in E. lia.
Qed.

(** The rewind ends, on the last point at or before the requested one that
    splits no span. *)
Lemma rewind_spec fuel (spans : list GenerationSpan) safe :
  (0 ≤ safe)%Z → Z.to_nat safe < fuel →
  ∃ r, rewind fuel spans safe = Some r ∧ (0 ≤ r ≤ safe)%Z ∧
    (∀ s, s ∈ spans → splits r s = false) ∧
    ∀ r', (r < r' ≤ safe)%Z → ∃ s, s ∈ spans ∧ splits r' s = true.
Proof.
  revert safe; induction fuel as [|fuel IH]; intros safe H0 Hf; [lia|]. cbn [rewind].
  destruct (rewindOnce_spec spans safe) as (H1 & H2 & H3). case_bool_decide as E.
  - exists safe. split_and!; [done|lia|done| |lia]. intros s Hs. destruct (splits safe s) eqn:Es; [|done].
    specialize (H2 s Hs Es). apply splits_lt in Es. lia.
  - destruct H3 as [?|(s & Hs & Hsp & Er)]; [done|]. pose proof (splits_lt _ _ Hsp) as Hlt.
    destruct (IH (rewindOnce spans safe)) as (r & -> & Hr & Hno & Hmax); [lia|lia|].
    exists r. split_and!; [done|lia|lia|done|]. intros r' Hr'.
    destruct (decide (r' ≤ rewindOnce spans safe)%Z); [apply Hmax; lia|].
    exists s. split; [done|]. unfold splits. apply andb_true_iff. rewrite !bool_decide_eq_true. lia.
Qed.

(** Resuming at [r] splits the generation of [s]: some of its arrivals would be
    skipped and others run again. *)
Definition splits_generation (s : GenerationSpan) (r : Z) : Prop :=
  ∃ a b, a ∈ arrivals s ∧ b ∈ arrivals s ∧ (Z.of_nat (planIndex a) < r ≤ Z.of_nat (planIndex b))%Z.

(** C2. The safe resume step: [computeSafeBarrierResumeStep] always answers; it
    throws only when a barrier lock cannot be recovered; otherwise the step is
    never after the requested one, it splits no generation of the plan, and it
    is the last such step, unless the cross-lock check sends the plan back to its
    start. *)
Theorem resume_splits_no_generation (plan : Plan) (startStep : Z) :
  match computeSafeBarrierResumeStep plan startStep with
  | None => False
  | Some (Throws e) => collectGenerationSpans false plan = Throws e
  | Some (Returns r) =>
      ((startStep ≤ 0)%Z ∧ r = startStep) ∨
      ∃ spans, collectGenerationSpans false plan = Returns spans ∧ (0 ≤ r ≤ startStep)%Z ∧
        (∀ s, s ∈ spans → ¬ splits_generation s r) ∧
        ((∀ r', (r < r' ≤ startStep)%Z → ∃ s, s ∈ spans ∧ splits_generation s r') ∨
         (r = 0%Z ∧ ∃ safe, hasCrossLockCycle plan safe = true))
  end.
Proof.
  unfold computeSafeBarrierResumeStep. case_bool_decide as H0; [by left|].
  destruct (collectGenerationSpans false plan) as [spans|e] eqn:Ec; [|done].
  pose proof (collected_exact _ _ _ Ec) as Hex. destruct spans as [|s0 spans].
  { right. exists []. split_and!; [done|lia|lia|by intros ? ?%elem_of_nil|left; lia]. }
  set (spans' := s0 :: spans) in *.
  destruct (rewind_spec (S (Z.to_nat startStep)) spans' startStep) as (r & -> & Hr & Hno & Hmax); [lia|lia|].
  simpl. right. exists spans'.
  assert (Hsp : ∀ s r, s ∈ spans' → splits_generation s r ↔ splits r s = true)
    by (intros s x Hs; symmetry; by apply splits_iff, Hex).
  destruct (bool_decide (0 < r)%Z && hasCrossLockCycle plan (Z.to_nat r)) eqn:Ecycle.
  - apply andb_true_iff in Ecycle as [_ Hcy]. split_and!; [done|lia|lia| |right; eauto].
    intros s Hs (a & b & _ & _ & ?). lia.
  - split_and!; [done|lia|lia| |left].
    + intros s Hs. rewrite Hsp by done. by rewrite Hno.
    + intros r' Hr'. destruct (Hmax r' Hr') as (s & Hs & E). exists s. split; [done|]. by apply Hsp.
Qed.

(** ** Opposing lock orders *)

Definition dirs_ok (done : list (string * (string * string))) (dirs : Directions) : Prop :=
  ∀ lesser greater byGreater dir,
    jget lesser dirs = Some byGreater → jget greater byGreater = Some dir →
    (dir_device dir, if forward dir then (lesser, greater) else (greater, lesser)) ∈ done.

Lemma dirs_ok_weaken done x dirs : dirs_ok done dirs → dirs_ok (x :: done) dirs.
Proof. intros H l g m dir Hl Hg. right. by eapply H. Qed.

Lemma opposes_step done dirs from to d :
  dirs_ok done dirs →
  let '(dirs', opposes) := opposesEarlierDevice dirs from to d in
  dirs_ok ((d, (from, to)) :: done) dirs' ∧
  (opposes = true → ∃ d', d' ≠ d ∧ (d', (to, from)) ∈ done).
Proof.
  intros Hok. unfold opposesEarlierDevice. case_bool_decide as Hne; [by split; [apply dirs_ok_weaken|]|].
  set (lesser := if String.ltb from to then from else to). set (greater := if String.ltb from to then to else from).
  set (fwd := bool_decide (from = lesser)).
  assert (Hpair : (if fwd then (lesser, greater) else (greater, lesser)) = (from, to)).
  { unfold fwd, lesser, greater. destruct (String.ltb from to);
      [by rewrite bool_decide_eq_true_2|by rewrite bool_decide_eq_false_2]. }
  set (byGreater := default [] (jget lesser dirs)).
  assert (Hby : ∀ g dir, jget g byGreater = Some dir →
    (dir_device dir, if forward dir then (lesser, g) else (g, lesser)) ∈ done).
  { intros g dir Hg. unfold byGreater in Hg. destruct (jget lesser dirs) as [m|] eqn:E; [|done]. by eapply Hok. }
  destruct (jget greater byGreater) as [existing|] eqn:Eg.
  - split.
    + intros l g m dir. rewrite jget_set. case_decide as El; [subst l; intros [= <-] Hg; right; by apply Hby|].
      intros Hl Hg. right. by eapply Hok.
    + intros [Hf Hd]%andb_true_iff. apply bool_decide_eq_true_1 in Hf, Hd. exists (dir_device existing). split; [done|].
      specialize (Hby _ _ Eg).
      assert ((if forward existing then (lesser, greater) else (greater, lesser)) = (to, from)) as E; [|by rewrite <- E].
      destruct (forward existing), fwd; try done; by injection Hpair as -> ->.
  - split; [|done]. intros l g m dir. rewrite jget_set. case_decide as El; [subst l; intros [= <-]|intros Hl Hg; right; by eapply Hok].
    rewrite jget_set. case_decide as Egr; [|intros Hg; right; by apply Hby].
    subst g. intros [= <-]. simpl. rewrite Hpair. left.
Qed.

Lemma anyOpposes_sound done dirs ts :
  dirs_ok done dirs → anyOpposes dirs ts = true →
  ∃ d d' from to, d ≠ d' ∧ (d, (from, to)) ∈ done ++ ts ∧ (d', (to, from)) ∈ done ++ ts.
Proof.
  revert done dirs; induction ts as [|[d [from to]] ts IH]; intros done dirs Hok; [done|]. cbn [anyOpposes].
  pose proof (opposes_step done dirs from to d Hok) as H. destruct opposesEarlierDevice as [dirs' []].
  - intros _. destruct H as [_ (d' & Hd' & Hin)]; [done|]. exists d, d', from, to. set_solver.
  - intros Ht. destruct H as [Hok' _]. destruct (IH _ _ Hok' Ht) as (x & y & f & t & Hne & H1 & H2).
    exists x, y, f, t. set_solver.
Qed.

(** The cross-lock check never sends a plan back without reason: it answers
    true only when two different devices take the same two locks, one right after
    the other, in opposite orders. *)
Theorem opposing_pair_sound (orders : JsMap string (list string)) :
  hasOpposingLockPair orders = true →
  ∃ d d' from to, d ≠ d' ∧ (d, (from, to)) ∈ transitionsOf orders ∧ (d', (to, from)) ∈ transitionsOf orders.
Proof.
  intros H. destruct (anyOpposes_sound [] [] (transitionsOf orders)) as (d & d' & f & t & ?); [|done|by exists d, d', f, t].
  intros l g m dir Hl. by rewrite jget_nil in Hl.
Qed.

Lemma opposing_pair_sound_witness :
  let orders := [("A", ["X"; "Y"]); ("B", ["Y"; "X"])]%string in
  hasOpposingLockPair orders = true ∧
  ∃ d d' from to, d ≠ d' ∧ (d, (from, to)) ∈ transitionsOf orders ∧ (d', (to, from)) ∈ transitionsOf orders.
Proof. split; [vm_compute; reflexivity|]. apply opposing_pair_sound. vm_compute. reflexivity. Defined.

(** The converse fails: only the first direction of a pair is remembered, so a
    device that takes a pair both ways hides its second direction from the
    devices after it. *)
Example opposing_pair_missed :
  let orders := [("A", ["X"; "Y"; "X"]); ("B", ["X"; "Y"])]%string in
  hasOpposingLockPair orders = false ∧
  ("A", ("Y", "X"))%string ∈ transitionsOf orders ∧ ("B", ("X", "Y"))%string ∈ transitionsOf orders.
Proof. split_and!; [vm_compute; reflexivity|right; left|right; right; left]. Qed.

(** ** Arrivals blocked by a failed track *)

Lemma tolerant_returns plan : ∃ spans, collectGenerationSpans true plan = Returns spans.
Proof.
  unfold collectGenerationSpans.
  assert (H : ∀ (m : JsMap string (list Arrival)) acc, ∃ spans,
    foldl (λ acc e, spans ← acc; more ← spansForLockOrSkip true e.1 e.2; Returns (spans ++ more)) (Returns acc) m
      = Returns (E := ShapeError) spans).
  { induction m as [|e m IH]; intros acc; [by exists acc|]. simpl.
    unfold spansForLockOrSkip. destruct (spansForLock e.1 e.2); simpl; apply IH. }
  destruct (H (collectArrivals isBarrier plan) []) as (spans & ->). simpl. eauto.
Qed.

(** The arrivals blocked by a failed track: the computation never throws,
    whatever the shape of the plan; an arrival is listed exactly when it belongs to
    another device and its generation also needs an arrival the failed track had
    still to make.  So a generation the failed track already passed, or does not
    take part in, loses nothing. *)
Theorem blocked_arrivals_exact (plan : Plan) (failedDevice : string) (failedStepIndex : Z) :
  ∃ spans blocked, collectGenerationSpans true plan = Returns spans ∧
    findArrivalsBlockedByFailedTrack plan failedDevice failedStepIndex = Returns blocked ∧
    ∀ x, x ∈ blocked ↔ (0 ≤ failedStepIndex)%Z ∧ ∃ span a f,
      span ∈ spans ∧ a ∈ arrivals span ∧ f ∈ arrivals span ∧
      device f = Some failedDevice ∧ (failedStepIndex < Z.of_nat (planIndex f))%Z ∧
      device a = Some (blocked_device x) ∧ blocked_device x ≠ failedDevice ∧
      blocked_index x = planIndex a ∧ blocked_lock x = span_lock span ∧ blocked_tool x = arrival_tool a.
Proof.
  destruct (tolerant_returns plan) as (spans & Hs). exists spans. unfold findArrivalsBlockedByFailedTrack.
  case_bool_decide as Hneg.
  { exists []. split_and!; [done|done|]. intros x. split; [by intros ?%elem_of_nil|lia]. }
  rewrite Hs. simpl. eexists; split_and!; [done|done|]. intros x. rewrite list_elem_of_bind. split.
  - intros (span & Hb & [Hw Hin]%list_elem_of_filter). split; [lia|].
    apply existsb_exists in Hw as (f & Hf%list_elem_of_In & Hw). apply andb_true_iff in Hw as [H1 H2].
    apply bool_decide_eq_true_1 in H1, H2.
    apply list_elem_of_omap in Hb as (a & Ha & Hb). destruct (device a) as [d|] eqn:Ed; [|done].
    case_bool_decide; [done|]. injection Hb as <-. exists span, a, f. done.
  - intros (_ & span & a & f & Hin & Ha & Hf & Hfd & Hfi & Had & Hne & E1 & E2 & E3).
    exists span. split.
    + apply list_elem_of_omap. exists a. split; [done|]. rewrite Had, bool_decide_eq_false_2 by done.
      destruct x; simpl in *; congruence.
    + apply list_elem_of_filter. split; [|done]. apply existsb_exists. exists f. split; [by apply list_elem_of_In|].
      rewrite !bool_decide_eq_true_2 by done. done.
Qed.

(** *** Concrete plans *)

Definition arr (i : nat) (d : string) : Arrival := mkArrival i (Some 2%Z) (Some d) "barrier".

(** The shape the greedy order is for: B, C, A, A, A, D. *)
Definition uneven : list Arrival := [arr 0 "B"; arr 1 "C"; arr 2 "A"; arr 3 "A"; arr 4 "A"; arr 5 "D"].

Definition uneven_spans : list GenerationSpan :=
  [mkSpan "L" 0 2 [arr 2 "A"; arr 0 "B"]; mkSpan "L" 1 3 [arr 3 "A"; arr 1 "C"]; mkSpan "L" 4 5 [arr 4 "A"; arr 5 "D"]].

Lemma generations_are_rendezvous_witness :
  spansForLock "L" uneven = Returns uneven_spans ∧
  ∃ gens, uneven_spans = spanForArrivals "L" <$> gens ∧ concat gens ≡ₚ uneven ∧
    (∀ d, ofDevice d (concat gens) = ofDevice d uneven) ∧
    (uneven = [] ∨ ∃ c, consistentDeviceCount uneven = Some c ∧ Forall (rendezvous c) gens).
Proof. split; [vm_compute; reflexivity|]. apply generations_are_rendezvous. vm_compute. reflexivity. Defined.

Lemma greedy_grouping_exact_witness :
  consistentDeviceCount uneven = Some 2%Z ∧
  ((∃ spans, spansForLock "L" uneven = Returns spans) ↔ (∃ gens, concat gens ≡ₚ uneven ∧ Forall (rendezvous 2) gens)).
Proof. split; [vm_compute; reflexivity|]. apply greedy_grouping_exact. vm_compute. reflexivity. Defined.

Definition step (t lock d : string) : PlanStep :=
  mkStep t (Some [("lock", VString lock); ("device", VString d); ("deviceCount", VInteger 2)]%string) [].

(** Resuming between the two arrivals of the second generation rewinds to its
    first. *)
Example resume_rewinds :
  computeSafeBarrierResumeStep
    [step "barrier" "L" "A"; step "barrier" "L" "B"; step "barrier" "L" "A"; step "tapOn" "" "A"; step "barrier" "L" "B"] 3
  = Some (Returns 2%Z).
Proof. vm_compute. reflexivity. Qed.
