(* ===== verification/OwnerDisconnect.v ===== *)
(** * Releasing a session whose owner disconnected

    [src/src/daemon/ownerDisconnectRelease.ts]: the pending releases, their
    timers, the attempts in flight and their deferrals.  The pool behind the port
    and the clocks are the environment [Env] of a step; an attempt is in flight
    from the call of [release] until a settle event. *)
From stdpp Require Import strings sets.
From S2P Require Import Prelude JsMap Liveness.
Local Open Scope Z_scope.

(** ** Data *)

(** A session object: its lease fields and the number of ownership claims. *)
Record OwnerSession := mkOwnerSession { lease : LeaseSession; livenessOwnershipClaims : option nat }.

Definition OWNER_DISCONNECT_GRACE_MS : Z := DEFAULT_SESSION_HEARTBEAT_TIMEOUT_MS + SUSPECT_GRACE_MS.
Definition DEVICE_PREPARED_FOR_OTHER_REQUEST_RETRY_AFTER_MS : Z := 2000.

(** The world a step runs in: the port's [getSession] (a reference to a session
    object) and [hasConnectedOwner], the objects, the session clock [now] and the
    timer's clock. *)
Record Env := mkEnv {
  getSession : string → option nat;
  sessionAt : nat → OwnerSession;
  hasConnectedOwner : string → bool;
  clock : Z;
  timerClock : Z }.

(** [p_id] is the object's identity, [handle] the armed timer. *)
Record PendingRelease := mkPending {
  p_id : nat; p_session : nat; mcpSessionId : string; closedAt : Z; dueAt : Z;
  handle : option nat; deferred : bool; rearmRequested : bool }.

(** [timers]: the armed timers, with the session their callback fires and the
    time on the timer's clock; [attempts]: the releases in flight, with the
    session id and the identity of the pending object. *)
Record Tracker := mkTracker {
  pending : JsMap string PendingRelease;
  timers : JsMap nat (string * Z);
  attempts : list (string * nat);
  nextId : nat }.

Definition empty_tracker : Tracker := mkTracker [] [] [] 0.

(** ** Why a session is kept *)

Inductive Blocker := CliIdlePolicy | AwaitingOwner | OwnershipHandoff | OwnerHeartbeated.

(** [None] is [-Infinity]. *)
Definition ownerHeartbeatSince (s : OwnerSession) : option Z :=
  match lastOwnerHeartbeat (lease s) with
  | None => stallForgivenAt (lease s)
  | Some _ => Some (ownerLeaseHeartbeat (lease s))
  end.

Definition ownerDisconnectReleaseBlocker (s : OwnerSession) (closedAt : Z) : option Blocker :=
  if negb (holdsOwnerHeartbeatLease (livenessPolicy (lease s))) then Some CliIdlePolicy
  else if bool_decide (ownership (lease s) = awaiting_owner) then Some AwaitingOwner
  else if bool_decide (livenessOwnerToken (lease s) = None) && bool_decide (default 0%nat (livenessOwnershipClaims s) ≠ 0%nat)
  then Some OwnershipHandoff
  else if match ownerHeartbeatSince s with Some h => bool_decide (closedAt < h) | None => false end
  then Some OwnerHeartbeated
  else None.

(** ** Operations *)

Section Release.
(** [this.graceMs]. *)
Context (defaultGraceMs : Z).

Definition setTimeout (env : Env) (st : Tracker) (sid : string) (delayMs : Z) : Tracker * nat :=
  let h := nextId st in
  (mkTracker (pending st) (jset h (sid, timerClock env + delayMs) (timers st)) (attempts st) (S h), h).
Definition clearTimeout (st : Tracker) (h : nat) : Tracker :=
  mkTracker (pending st) (jdel h (timers st)) (attempts st) (nextId st).
Definition setPending (st : Tracker) (sid : string) (p : PendingRelease) : Tracker :=
  mkTracker (jset sid p (pending st)) (timers st) (attempts st) (nextId st).
Definition deletePending (st : Tracker) (sid : string) : Tracker :=
  mkTracker (jdel sid (pending st)) (timers st) (attempts st) (nextId st).

Definition cancel (st : Tracker) (sid : string) : Tracker :=
  match jget sid (pending st) with
  | None => st
  | Some p =>
      let st := match handle p with Some h => clearTimeout st h | None => st end in
      deletePending st sid
  end.

Definition ownerDisconnected (env : Env) (st : Tracker) (sid mcp : string) (graceMs : option Z) : Tracker :=
  let graceMs := default defaultGraceMs graceMs in
  match getSession env sid with
  | None => st
  | Some session =>
      let closed := clock env in
      match ownerDisconnectReleaseBlocker (sessionAt env session) closed with
      | Some _ => st
      | None =>
          let '(st, h) := setTimeout env (cancel st sid) sid graceMs in
          let p := mkPending (nextId st) session mcp closed (closed + graceMs) (Some h) false false in
          setPending (mkTracker (pending st) (timers st) (attempts st) (S (nextId st))) sid p
      end
  end.

Definition remainingMs (env : Env) (st : Tracker) (sid : string) : option Z :=
  p ← jget sid (pending st);
  if hasConnectedOwner env sid
     || bool_decide (ownerDisconnectReleaseBlocker (sessionAt env (p_session p)) (closedAt p) ≠ None)
  then None
  else
    match handle p with
    | None => Some DEVICE_PREPARED_FOR_OTHER_REQUEST_RETRY_AFTER_MS
    | Some _ =>
        let remaining := dueAt p - clock env in
        if bool_decide (defaultGraceMs < remaining) then None else Some (Z.max 0 remaining)
    end.

Definition isPending (st : Tracker) (sid : string) : bool := jhas sid (pending st).

Definition withSchedule (p : PendingRelease) (due : Z) (h : option nat) (d r : bool) : PendingRelease :=
  mkPending (p_id p) (p_session p) (mcpSessionId p) (closedAt p) due h d r.

(** One session id of [executionsEnded]. *)
Definition executionEnded (env : Env) (st : Tracker) (sid : string) : Tracker :=
  match jget sid (pending st) with
  | None => st
  | Some p =>
      if negb (deferred p) then st
      else
        match handle p with
        | None => setPending st sid (withSchedule p (dueAt p) None (deferred p) true)
        | Some h =>
            let '(st, h') := setTimeout env (clearTimeout st h) sid 0 in
            setPending st sid (withSchedule p (clock env) (Some h') (deferred p) (rearmRequested p))
        end
  end.
Definition executionsEnded (env : Env) (st : Tracker) (sids : list string) : Tracker := foldl (executionEnded env) st sids.

(** The callback; the second component is the session handed to [release]. *)
Definition fire (env : Env) (st : Tracker) (sid : string) : Tracker * option nat :=
  match jget sid (pending st) with
  | None => (st, None)
  | Some p0 =>
      let p := withSchedule p0 (dueAt p0) None (deferred p0) false in
      let st := setPending st sid p in
      if bool_decide (getSession env sid ≠ Some (p_session p)) || hasConnectedOwner env sid
      then (deletePending st sid, None)
      else
        match ownerDisconnectReleaseBlocker (sessionAt env (p_session p)) (closedAt p) with
        | Some _ => (deletePending st sid, None)
        | None =>
            (mkTracker (pending st) (timers st) (attempts st ++ [(sid, p_id p)]) (nextId st), Some (p_session p))
        end
  end.

Definition pendingIs (st : Tracker) (sid : string) (id : nat) : bool :=
  match jget sid (pending st) with Some p => bool_decide (p_id p = id) | None => false end.

Definition afterAttempt (env : Env) (st : Tracker) (sid : string) (id : nat) (deferral : option Z) : Tracker :=
  match jget sid (pending st) with
  | Some p =>
      if negb (bool_decide (p_id p = id)) then st
      else if bool_decide (getSession env sid ≠ Some (p_session p)) then deletePending st sid
      else
        match deferral with
        | None => deletePending st sid
        | Some deferredUntil =>
            let now := clock env in
            let due := if rearmRequested p then now else Z.max now deferredUntil in
            let '(st, h) := setTimeout env st sid (due - now) in
            setPending st sid (withSchedule p due (Some h) true false)
        end
  | None => st
  end.

(** The rejection handler. *)
Definition attemptFailed (st : Tracker) (sid : string) (id : nat) : Tracker :=
  if pendingIs st sid id then deletePending st sid else st.

(** ** Runs *)

Inductive Settled := Resolved (deferral : option Z) | Rejected.
Inductive Event :=
| Disconnected (sid mcp : string) (graceMs : option Z)
| Cancelled (sid : string)
| ExecutionsEnded (sids : list string)
| TimerFires (h : nat)
| Settles (sid : string) (id : nat) (result : Settled).

Definition removeOne (x : string * nat) (l : list (string * nat)) : list (string * nat) := filter (λ y, y ≠ x) l.

(** One event; [None] when it cannot happen: a timer that is not armed or not
    due, an attempt that is not in flight. *)
Definition step (env : Env) (st : Tracker) (ev : Event) : option (Tracker * option (string * nat)) :=
  match ev with
  | Disconnected sid mcp g => Some (ownerDisconnected env st sid mcp g, None)
  | Cancelled sid => Some (cancel st sid, None)
  | ExecutionsEnded sids => Some (executionsEnded env st sids, None)
  | TimerFires h =>
      match jget h (timers st) with
      | Some (sid, due) =>
          if bool_decide (due ≤ timerClock env) then
            let '(st', released) := fire env (clearTimeout st h) sid in
            Some (st', (λ s, (sid, s)) <$> released)
          else None
      | None => None
      end
  | Settles sid id result =>
      if bool_decide ((sid, id) ∈ attempts st) then
        let st := mkTracker (pending st) (timers st) (removeOne (sid, id) (attempts st)) (nextId st) in
        Some (match result with Resolved d => afterAttempt env st sid id d | Rejected => attemptFailed st sid id end, None)
      else None
  end.

(** A run and the releases it makes, oldest first. *)
Inductive run (st : Tracker) : list (Env * Event) → Tracker → list (string * nat) → Prop :=
| run_nil : run st [] st []
| run_snoc evs st' out env ev st'' o :
    run st evs st' out → step env st' ev = Some (st'', o) →
    run st (evs ++ [(env, ev)]) st'' (out ++ option_list o).
End Release.

(** ** The invariant

    Away from the session id [x] (none for [inv]): a pending release has either
    an armed timer of its own or exactly one attempt in flight, and every armed
    timer belongs to a pending release. *)
Record inv_but (x : option string) (st : Tracker) : Prop := {
  i_armed sid p h : Some sid ≠ x → jget sid (pending st) = Some p → handle p = Some h →
    ∃ due, jget h (timers st) = Some (sid, due);
  i_timer h sid due : jget h (timers st) = Some (sid, due) →
    Some sid ≠ x ∧ ∃ p, jget sid (pending st) = Some p ∧ handle p = Some h;
  i_flight sid p : Some sid ≠ x → jget sid (pending st) = Some p →
    handle p = None ↔ (sid, p_id p) ∈ attempts st;
  i_fresh_timer h sid due : jget h (timers st) = Some (sid, due) → (h < nextId st)%nat;
  i_fresh_pending sid p : jget sid (pending st) = Some p → (p_id p < nextId st)%nat;
  i_fresh_attempt sid id : (sid, id) ∈ attempts st → (id < nextId st)%nat;
  i_attempts : NoDup (attempts st) }.
Definition inv : Tracker → Prop := inv_but None.

Lemma inv_empty : inv empty_tracker.
Proof. split; try done; simpl; try (intros; by rewrite jget_nil in * ); [|constructor]. by intros ? ? ?%elem_of_nil. Qed.

(** Take the session id [sid] out of the invariant, disarming its timer. *)
Lemma inv_open st sid p :
  inv st → jget sid (pending st) = Some p →
  inv_but (Some sid) (match handle p with Some h => clearTimeout st h | None => st end).
Proof.
  intros Hi Hp.
  assert (Hown : ∀ h due, jget h (timers st) = Some (sid, due) → handle p = Some h).
  { intros h due Hh. destruct (i_timer _ _ Hi _ _ _ Hh) as (_ & p' & Hp' & E). congruence. }
  destruct (handle p) as [h0|] eqn:Eh.
  - split; unfold clearTimeout; simpl.
    + intros sid' p' h Hne Hp' Eh'. destruct (i_armed _ _ Hi _ _ _ ltac:(done) Hp' Eh') as [due Hd].
      exists due. rewrite jget_del, decide_False; [done|]. intros ->.
      destruct (i_timer _ _ Hi _ _ _ Hd) as (_ & p'' & Hp'' & E). simplify_eq.
      destruct (i_armed _ _ Hi _ _ _ ltac:(done) Hp Eh) as [due' Hd']. simplify_eq.
    + intros h sid' due. rewrite jget_del. case_decide; [done|]. intros Hh.
      destruct (i_timer _ _ Hi _ _ _ Hh) as (_ & p' & Hp' & E'). split; [|by exists p'].
      intros [= ->]. specialize (Hown _ _ Hh). congruence.
    + intros; by apply (i_flight _ _ Hi).
    + intros h sid' due. rewrite jget_del. case_decide; [done|]. apply Hi.
    + apply Hi.
    + apply Hi.
    + apply Hi.
  - split.
    + intros; by eapply (i_armed _ _ Hi).
    + intros h sid' due Hh. destruct (i_timer _ _ Hi _ _ _ Hh) as (_ & p' & Hp' & E). split; [|by exists p'].
      intros [= ->]. specialize (Hown _ _ Hh). congruence.
    + intros; by apply (i_flight _ _ Hi).
    + apply Hi.
    + apply Hi.
    + apply Hi.
    + apply Hi.
Qed.

Lemma inv_absent st sid : inv st → jget sid (pending st) = None → inv_but (Some sid) st.
Proof.
  intros Hi Hn. split; [intros; by eapply (i_armed _ _ Hi)| |intros; by apply (i_flight _ _ Hi)|apply Hi..].
  intros h sid' due Hh. destruct (i_timer _ _ Hi _ _ _ Hh) as (_ & p' & Hp' & E). split; [|by exists p'].
  intros [= ->]. congruence.
Qed.

(** Put it back: absent, armed, or in flight. *)
Lemma inv_close_absent st sid : inv_but (Some sid) st → inv (deletePending st sid).
Proof.
  intros Hi. split; unfold deletePending; simpl; try apply Hi.
  - intros sid' p h _. rewrite jget_del. case_decide; [done|]. intros. eapply (i_armed _ _ Hi); eauto. congruence.
  - intros h sid' due Hh. destruct (i_timer _ _ Hi _ _ _ Hh) as (Hne & p & Hp & E). split; [done|]. exists p.
    rewrite jget_del, decide_False by congruence. done.
  - intros sid' p _. rewrite jget_del. case_decide; [done|]. intros. apply (i_flight _ _ Hi); [congruence|done].
  - intros sid' p. rewrite jget_del. case_decide; [done|]. apply Hi.
Qed.

Lemma inv_close_armed env st sid p delayMs :
  inv_but (Some sid) st → handle p = Some (nextId st) → (p_id p < S (nextId st))%nat → (sid, p_id p) ∉ attempts st →
  inv (setPending (setTimeout env st sid delayMs).1 sid p).
Proof.
  intros Hi Hh Hid Hna. split; unfold setPending, setTimeout; simpl.
  - intros sid' p' h _. rewrite jget_set. case_decide as E.
    + intros [= <-] Hh'. subst sid'. simplify_eq. eexists. by rewrite jget_set, decide_True.
    + intros Hp' Hh'. destruct (i_armed _ _ Hi sid' p' h) as [due Hd]; [congruence|done|done|].
      exists due. rewrite jget_set, decide_False; [done|]. apply (i_fresh_timer _ _ Hi) in Hd. lia.
  - intros h sid' due. rewrite jget_set. case_decide as E.
    + intros [= <- <-]. split; [done|]. exists p. rewrite jget_set, decide_True by done. by rewrite <- E.
    + intros Hd. destruct (i_timer _ _ Hi _ _ _ Hd) as (Hne & p' & Hp' & E'). split; [done|]. exists p'.
      rewrite jget_set, decide_False by congruence. done.
  - intros sid' p' _. rewrite jget_set. case_decide as E.
    + intros [= <-]. subst sid'. split; [congruence|done].
    + intros Hp'. apply (i_flight _ _ Hi); [congruence|done].
  - intros h sid' due. rewrite jget_set. case_decide as E; [lia|]. intros Hd%(i_fresh_timer _ _ Hi). lia.
  - intros sid' p'. rewrite jget_set. case_decide as E; [intros [= <-]; done|]. intros Hp'%(i_fresh_pending _ _ Hi). lia.
  - intros sid' id Ha%(i_fresh_attempt _ _ Hi). lia.
  - apply Hi.
Qed.

Lemma inv_set st sid p :
  inv_but (Some sid) st → (p_id p < nextId st)%nat → inv_but (Some sid) (setPending st sid p).
Proof.
  intros Hi Hid. split; unfold setPending; simpl; try apply Hi.
  - intros sid' p' h Hne. rewrite jget_set, decide_False by congruence. by apply Hi.
  - intros h sid' due Hd. destruct (i_timer _ _ Hi _ _ _ Hd) as (Hne & p' & Hp' & E'). split; [done|]. exists p'.
    rewrite jget_set, decide_False by congruence. done.
  - intros sid' p' Hne. rewrite jget_set, decide_False by congruence. by apply Hi.
  - intros sid' p'. rewrite jget_set. case_decide; [intros [= <-]; done|apply Hi].
Qed.

Lemma inv_close_flight st sid p attempts' :
  inv_but (Some sid) st → jget sid (pending st) = Some p → handle p = None →
  (∀ x, x ∈ attempts' ↔ x ∈ attempts st ∨ x = (sid, p_id p)) → NoDup attempts' →
  inv (mkTracker (pending st) (timers st) attempts' (nextId st)).
Proof.
  intros Hi Hp Hh Hin Hnd. split; simpl; try apply Hi; try done.
  - intros sid' p' h _ Hp' Hh'. destruct (decide (sid' = sid)) as [->|]; [congruence|].
    eapply (i_armed _ _ Hi); eauto. congruence.
  - intros h sid' due Hd. destruct (i_timer _ _ Hi _ _ _ Hd) as (_ & ?). done.
  - intros sid' p' _ Hp'. rewrite Hin. destruct (decide (sid' = sid)) as [->|Hne].
    + simplify_eq. split; [by right|done].
    + rewrite (i_flight _ _ Hi sid' p') by (done || congruence). split; [by left|]. intros [?|[= ? ?]]; done.
  - intros sid' id [Ha|[= -> ->]]%Hin; [by apply (i_fresh_attempt _ _ Hi) in Ha|by apply (i_fresh_pending _ _ Hi) in Hp].
Qed.

(** An attempt settled. *)
Lemma inv_settled x st sid id :
  inv_but x st → (∀ p, Some sid ≠ x → jget sid (pending st) = Some p → p_id p ≠ id) →
  inv_but x (mkTracker (pending st) (timers st) (removeOne (sid, id) (attempts st)) (nextId st)).
Proof.
  intros Hi Hne. split; simpl; try apply Hi.
  - intros sid' p Hx Hp. rewrite (i_flight _ _ Hi sid' p Hx Hp). unfold removeOne. rewrite list_elem_of_filter.
    split; [|tauto]. intros H. split; [|done]. intros [= -> E]. by apply (Hne p).
  - intros sid' id' [_ Ha]%list_elem_of_filter. by apply (i_fresh_attempt _ _ Hi) in Ha.
  - apply list.NoDup_filter, Hi.
Qed.

(** ** Every operation keeps it *)

Lemma cancel_inv st sid : inv st → inv (cancel st sid).
Proof.
  intros Hi. unfold cancel. destruct (jget sid (pending st)) as [p|] eqn:Hp; [|done].
  apply inv_close_absent. by apply inv_open.
Qed.

Lemma cancel_absent st sid : jget sid (pending (cancel st sid)) = None.
Proof.
  unfold cancel. destruct (jget sid (pending st)) as [p|] eqn:Hp; [|done].
  unfold deletePending; simpl. by rewrite jget_del, decide_True.
Qed.

Lemma cancel_other st sid sid' : sid' ≠ sid → jget sid' (pending (cancel st sid)) = jget sid' (pending st).
Proof.
  intros Hne. unfold cancel. destruct (jget sid (pending st)) as [p|] eqn:Hp; [|done].
  unfold deletePending; simpl. rewrite jget_del, decide_False by congruence. by destruct (handle p).
Qed.

Lemma ownerDisconnected_inv g env st sid mcp grace : inv st → inv (ownerDisconnected g env st sid mcp grace).
Proof.
  intros Hi. unfold ownerDisconnected. destruct (getSession env sid) as [session|]; [|done].
  destruct (ownerDisconnectReleaseBlocker _ _); [done|].
  pose proof (inv_absent _ _ (cancel_inv st sid Hi) (cancel_absent st sid)) as Hc. set (st0 := cancel st sid) in *.
  set (p := mkPending (S (nextId st0)) session mcp (clock env) (clock env + default g grace) (Some (nextId st0)) false false).
  simpl. fold p. split; simpl; try apply Hc.
  - intros sid' p' h _. rewrite jget_set. case_decide as E.
    + intros [= <-] [= <-]. subst sid'. eexists. by rewrite jget_set, decide_True.
    + intros Hp' Hh'. destruct (i_armed _ _ Hc sid' p' h) as [due Hd]; [congruence|done|done|].
      exists due. rewrite jget_set, decide_False; [done|]. apply (i_fresh_timer _ _ Hc) in Hd. lia.
  - intros h sid' due. rewrite jget_set. case_decide as E.
    + intros [= <- <-]. split; [done|]. exists p. rewrite jget_set, decide_True by done. by rewrite <- E.
    + intros Hd. destruct (i_timer _ _ Hc _ _ _ Hd) as (Hne & p' & Hp' & E'). split; [done|]. exists p'.
      rewrite jget_set, decide_False by congruence. done.
  - intros sid' p' _. rewrite jget_set. case_decide as E.
    + intros [= <-]. subst sid'. split; [done|]. intros Ha%(i_fresh_attempt _ _ Hc). simpl in Ha. lia.
    + intros Hp'. apply (i_flight _ _ Hc); [congruence|done].
  - intros h sid' due. rewrite jget_set. case_decide as E; [lia|]. intros Hd%(i_fresh_timer _ _ Hc). lia.
  - intros sid' p'. rewrite jget_set. case_decide as E; [intros [= <-]; simpl; lia|]. intros Hp'%(i_fresh_pending _ _ Hc). lia.
  - intros sid' id Ha%(i_fresh_attempt _ _ Hc). lia.
Qed.

Lemma executionEnded_inv env st sid : inv st → inv (executionEnded env st sid).
Proof.
  intros Hi. unfold executionEnded. destruct (jget sid (pending st)) as [p|] eqn:Hp; [|done].
  destruct (deferred p); [|done]. simpl. pose proof (inv_open st sid p Hi Hp) as Ho.
  pose proof (i_fresh_pending _ _ Hi _ _ Hp) as Hid.
  pose proof (i_flight _ _ Hi sid p ltac:(done) Hp) as Hfl. destruct (handle p) as [h|].
  - apply (inv_close_armed env (clearTimeout st h) sid (withSchedule p (clock env) _ _ _) 0); [done|done|simpl; lia|].
    simpl. intros Ha. by apply Hfl in Ha.
  - set (p' := withSchedule p (dueAt p) None true true).
    assert (H := inv_close_flight (setPending st sid p') sid p' (attempts st) ltac:(by apply inv_set)).
    apply H; simpl; [by rewrite jget_set, decide_True|done| |apply Hi].
    intros x. split; [by left|]. intros [?| ->]; [done|]. by apply Hfl.
Qed.

Lemma executionsEnded_inv env st sids : inv st → inv (executionsEnded env st sids).
Proof.
  unfold executionsEnded. revert st; induction sids as [|sid sids IH]; intros st Hi; [done|].
  simpl. apply IH. by apply executionEnded_inv.
Qed.

Lemma fire_inv env st h sid due :
  inv st → jget h (timers st) = Some (sid, due) → inv (fire env (clearTimeout st h) sid).1.
Proof.
  intros Hi Hh. destruct (i_timer _ _ Hi _ _ _ Hh) as (_ & p & Hp & Ehp).
  pose proof (inv_open st sid p Hi Hp) as Ho. rewrite Ehp in Ho.
  pose proof (i_fresh_pending _ _ Hi _ _ Hp) as Hid.
  assert (Hna : (sid, p_id p) ∉ attempts st) by (intros Ha%(i_flight _ _ Hi sid p ltac:(done) Hp); congruence).
  unfold fire. simpl. rewrite Hp. set (p' := withSchedule p (dueAt p) None (deferred p) false).
  pose proof (inv_set _ _ p' Ho Hid) as Hset.
  case_match; simpl; [by apply inv_close_absent|].
  destruct (ownerDisconnectReleaseBlocker _ _); simpl; [by apply inv_close_absent|].
  refine (inv_close_flight _ sid p' _ Hset _ eq_refl _ _); simpl.
  - by rewrite jget_set, decide_True.
  - intros x. by rewrite elem_of_app, list_elem_of_singleton.
  - apply list.NoDup_app. split; [apply Hi|]. split; [|apply NoDup_singleton].
    by intros x Hx ->%list_elem_of_singleton.
Qed.

Lemma pending_cases st sid id :
  (∃ p, jget sid (pending st) = Some p ∧ p_id p = id) ∨ ¬ (∃ p, jget sid (pending st) = Some p ∧ p_id p = id).
Proof.
  destruct (jget sid (pending st)) as [p|]; [|right; by intros (? & ? & _)].
  destruct (decide (p_id p = id)); [left; eauto|right]. intros (? & ? & ?). congruence.
Qed.

Lemma settles_inv env st sid id result :
  inv st → (sid, id) ∈ attempts st →
  let st' := mkTracker (pending st) (timers st) (removeOne (sid, id) (attempts st)) (nextId st) in
  inv (match result with Resolved d => afterAttempt env st' sid id d | Rejected => attemptFailed st' sid id end).
Proof.
  intros Hi Ha st'.
  destruct (pending_cases st sid id) as [(p & Hp & Hid)|Hno].
  - (* the attempt of the current pending release *)
    assert (Hnone : handle p = None) by (apply (i_flight _ _ Hi sid p); [done|done|by rewrite Hid]).
    pose proof (inv_open st sid p Hi Hp) as Ho. rewrite Hnone in Ho.
    assert (Hs : inv_but (Some sid) st') by (apply inv_settled; [done|]; by intros ? []).
    unfold afterAttempt, attemptFailed, pendingIs. simpl. rewrite Hp. rewrite (bool_decide_eq_true_2 (p_id p = id)) by done. simpl.
    destruct result as [[d|]|]; [| |by apply inv_close_absent].
    + case_bool_decide; [by apply inv_close_absent|].
      refine (inv_close_armed env st' sid (withSchedule p _ _ _ _) _ Hs eq_refl _ _).
      * simpl. pose proof (i_fresh_pending _ _ Hi _ _ Hp). lia.
      * simpl. unfold removeOne. rewrite list_elem_of_filter, Hid. tauto.
    + case_bool_decide; by apply inv_close_absent.
  - assert (Hs : inv st') by (apply inv_settled; [done|]; intros p _ Hp Hid; apply Hno; eauto).
    destruct result as [d|].
    + unfold afterAttempt. simpl. destruct (jget sid (pending st)) as [p|] eqn:Hp; [|done].
      rewrite bool_decide_eq_false_2; [done|]. intros Hid. apply Hno. by exists p.
    + unfold attemptFailed, pendingIs. simpl. destruct (jget sid (pending st)) as [p|] eqn:Hp; [|done].
      rewrite bool_decide_eq_false_2; [done|]. intros Hid. apply Hno. by exists p.
Qed.

Lemma disconnect_step_inv g env st ev st' o : inv st → step g env st ev = Some (st', o) → inv st'.
Proof.
  intros Hi. destruct ev as [sid mcp gr|sid|sids|h|sid id r]; simpl.
  - intros [= <- _]. by apply ownerDisconnected_inv.
  - intros [= <- _]. by apply cancel_inv.
  - intros [= <- _]. by apply executionsEnded_inv.
  - destruct (jget h (timers st)) as [[sid due]|] eqn:Hh; [|done]. case_bool_decide; [|done].
    pose proof (fire_inv env st h sid due Hi Hh) as Hf. destruct (fire _ _ _). by intros [= <- _].
  - case_bool_decide; [|done]. intros [= <- _]. by apply settles_inv.
Qed.

Lemma run_inv g st evs st' out : run g st evs st' out → inv st → inv st'.
Proof. induction 1; eauto using disconnect_step_inv. Qed.

(** ** What a step leaves alone *)

(** Timers are only ever added under fresh handles. *)
Definition timers_old (st st' : Tracker) : Prop :=
  (nextId st ≤ nextId st')%nat ∧
  ∀ h x, jget h (timers st') = Some x → (h < nextId st)%nat → jget h (timers st) = Some x.

Lemma timers_old_refl st : timers_old st st.
Proof. split; [lia|auto]. Qed.
Lemma timers_old_trans st1 st2 st3 : timers_old st1 st2 → timers_old st2 st3 → timers_old st1 st3.
Proof. intros [H1 H2] [H3 H4]. split; [lia|]. intros h x Hh Hl. apply H2; [|done]. apply H4; [done|lia]. Qed.
Lemma timers_old_clear st h : timers_old st (clearTimeout st h).
Proof. split; simpl; [lia|]. intros h' x. rewrite jget_del. by case_decide. Qed.
Lemma timers_old_set st env sid d : timers_old st (setTimeout env st sid d).1.
Proof. split; simpl; [lia|]. intros h' x. rewrite jget_set. case_decide; [lia|done]. Qed.

Lemma timers_old_cancel st sid : timers_old st (cancel st sid).
Proof.
  unfold cancel. destruct (jget sid (pending st)) as [p|]; [|apply timers_old_refl].
  destruct (handle p) as [h|]; [exact (timers_old_clear st h)|exact (timers_old_refl st)].
Qed.

Lemma timers_old_executionEnded env st sid : timers_old st (executionEnded env st sid).
Proof.
  unfold executionEnded. destruct (jget sid (pending st)) as [p|]; [|apply timers_old_refl].
  destruct (deferred p); [|apply timers_old_refl]. simpl. destruct (handle p) as [h|]; [|exact (timers_old_refl st)].
  exact (timers_old_trans _ _ _ (timers_old_clear st h) (timers_old_set (clearTimeout st h) env sid 0)).
Qed.

Lemma timers_old_fire env st sid : timers_old st (fire env st sid).1.
Proof.
  unfold fire. destruct (jget sid (pending st)) as [p|]; [|apply timers_old_refl].
  case_match; [exact (timers_old_refl st)|]. case_match; exact (timers_old_refl st).
Qed.

Lemma timers_old_step g env st ev st' o : step g env st ev = Some (st', o) → timers_old st st'.
Proof.
  destruct ev as [sid mcp gr|sid|sids|h|sid id r]; simpl.
  - intros [= <- _]. unfold ownerDisconnected. destruct (getSession env sid); [|apply timers_old_refl].
    case_match; [apply timers_old_refl|]. eapply timers_old_trans; [apply (timers_old_cancel st sid)|].
    split; simpl; [lia|]. intros h x. rewrite jget_set. case_decide; [lia|done].
  - intros [= <- _]. apply timers_old_cancel.
  - intros [= <- _]. revert st. unfold executionsEnded. induction sids as [|sid sids IH]; intros st; [apply timers_old_refl|].
    simpl. eapply timers_old_trans; [apply timers_old_executionEnded|apply IH].
  - destruct (jget h (timers st)) as [[sid due]|]; [|done]. case_bool_decide; [|done].
    pose proof (timers_old_trans _ _ _ (timers_old_clear st h) (timers_old_fire env (clearTimeout st h) sid)) as H'.
    destruct (fire _ _ _). by intros [= <- _].
  - case_bool_decide; [|done]. intros [= <- _]. destruct r as [d|].
    + unfold afterAttempt. simpl. destruct (jget sid (pending st)) as [p|]; [|exact (timers_old_refl st)].
      case_match; [exact (timers_old_refl st)|]. case_match; [exact (timers_old_refl st)|].
      destruct d as [d|]; [|exact (timers_old_refl st)]. exact (timers_old_set st env sid _).
    + unfold attemptFailed. case_match; exact (timers_old_refl st).
Qed.

(** [sid] is not pending, or still in its first grace with its timer due at [D]. *)
Definition quiet (sid : string) (D : option Z) (st : Tracker) : Prop :=
  match jget sid (pending st) with
  | None => True
  | Some p => deferred p = false ∧ ∃ h, handle p = Some h ∧ ∃ due, D = Some due ∧ jget h (timers st) = Some (sid, due)
  end.

(** An event that neither disconnects [sid] again nor comes at or after [D]. *)
Definition before (sid : string) (D : option Z) (e : Env * Event) : Prop :=
  (∀ mcp g, e.2 ≠ Disconnected sid mcp g) ∧ match D with Some due => timerClock e.1 < due | None => True end.

Lemma executionEnded_quiet env st sid sid' :
  (∀ p, jget sid (pending st) = Some p → deferred p = false) →
  jget sid (pending (executionEnded env st sid')) = jget sid (pending st).
Proof.
  intros Hd. unfold executionEnded. destruct (jget sid' (pending st)) as [p'|] eqn:Hp'; [|done].
  destruct (decide (sid' = sid)) as [->|Hne]; [by rewrite (Hd _ Hp')|].
  destruct (deferred p'); [|done]. simpl. destruct (handle p'); simpl; by rewrite jget_set, decide_False.
Qed.

Lemma quiet_step g env st ev st' o sid D :
  inv st → quiet sid D st → before sid D (env, ev) → step g env st ev = Some (st', o) →
  quiet sid D st' ∧ ∀ s, o ≠ Some (sid, s).
Proof.
  intros Hi Hq [Hnd Hbefore] Hstep. simpl in Hnd, Hbefore.
  assert (Hsuff : (jget sid (pending st') = None ∨ jget sid (pending st') = jget sid (pending st)) → quiet sid D st').
  { intros [E|E]; unfold quiet in *; rewrite E; [done|]. destruct (jget sid (pending st)) as [p|] eqn:Hp; [|done].
    destruct Hq as (Hdef & h & Hh & due & -> & Hd). split; [done|]. exists h. split; [done|]. exists due. split; [done|].
    pose proof (disconnect_step_inv _ _ _ _ _ _ Hi Hstep) as Hi'. destruct (i_armed _ _ Hi' sid p h) as [due' Hd']; [done|done|done|].
    apply (timers_old_step _ _ _ _ _ _ Hstep) in Hd' as Hd''; [|by eapply i_fresh_timer]. congruence. }
  destruct ev as [sid' mcp gr|sid'|sids|h|sid' id r]; simpl in Hstep.
  - injection Hstep as <- <-. split; [|done]. apply Hsuff. right.
    assert (Hne : sid' ≠ sid) by (intros ->; by eapply Hnd). unfold ownerDisconnected.
    destruct (getSession env sid'); [|done]. destruct (ownerDisconnectReleaseBlocker _ _); [done|]. simpl. rewrite jget_set, decide_False by done.
    by apply cancel_other.
  - injection Hstep as <- <-. split; [|done]. apply Hsuff. destruct (decide (sid = sid')) as [->|Hne].
    + left. apply cancel_absent.
    + right. by apply cancel_other.
  - injection Hstep as <- <-. split; [|done]. apply Hsuff. right. clear Hsuff Hnd Hbefore Hi.
    assert (Hdef : ∀ p, jget sid (pending st) = Some p → deferred p = false).
    { intros p Hp. unfold quiet in Hq. rewrite Hp in Hq. by destruct Hq. }
    clear Hq. revert st Hdef. unfold executionsEnded. induction sids as [|s sids IH]; intros st Hdef; [done|]. simpl.
    pose proof (executionEnded_quiet env st sid s Hdef) as E. rewrite IH; [done|]. intros p. rewrite E. apply Hdef.
  - destruct (jget h (timers st)) as [[sid' due]|] eqn:Hh; [|done]. case_bool_decide as Hdue; [|done].
    destruct (i_timer _ _ Hi _ _ _ Hh) as (_ & p & Hp & Ehp).
    assert (Hne : sid' ≠ sid).
    { intros ->. unfold quiet in Hq. rewrite Hp in Hq. destruct Hq as (_ & h' & Hh' & due' & -> & Hd'). simplify_eq. lia. }
    assert (Hf : jget sid (pending (fire env (clearTimeout st h) sid').1) = jget sid (pending st)).
    { unfold fire. simpl. rewrite Hp. destruct (_ || _); [|destruct (ownerDisconnectReleaseBlocker _ _)]; simpl;
        rewrite ?jget_del, ?jget_set; by rewrite !decide_False by done. }
    destruct (fire _ _ _) as [st1 rel]. simplify_eq/=. split; [apply Hsuff; by right|]. intros s. destruct rel; simpl; congruence.
  - case_bool_decide as Ha; [|done]. injection Hstep as <- <-. split; [|done]. apply Hsuff.
    destruct (decide (sid' = sid)) as [->|Hne].
    + destruct (jget sid (pending st)) as [p|] eqn:Hp.
      * unfold quiet in Hq. rewrite Hp in Hq. destruct Hq as (_ & h & Hh & _).
        assert (Hid : p_id p ≠ id). { intros <-. apply (i_flight _ _ Hi sid p) in Ha; [congruence|done|done]. }
        right. destruct r; unfold afterAttempt, attemptFailed, pendingIs; simpl; rewrite Hp, bool_decide_eq_false_2 by done; simpl; exact Hp.
      * right. destruct r; unfold afterAttempt, attemptFailed, pendingIs; simpl; rewrite Hp; exact Hp.
    + right. destruct r as [d|].
      * unfold afterAttempt. simpl. destruct (jget sid' (pending st)) as [p|]; [|done].
        destruct (negb _); [done|]. destruct (bool_decide _); [|destruct d]; simpl;
          by rewrite ?jget_del, ?jget_set, decide_False by done.
      * unfold attemptFailed. destruct (pendingIs _ _ _); simpl; [by rewrite jget_del, decide_False|done].
Qed.

Lemma quiet_run g st evs st' out sid D :
  run g st evs st' out → inv st → quiet sid D st → Forall (before sid D) evs →
  quiet sid D st' ∧ ∀ s, (sid, s) ∉ out.
Proof.
  intros Hr Hi Hq. induction Hr as [|evs st' out env ev st'' o Hr IH Hs]; intros Hall; [split; [done|by intros ? ?%elem_of_nil]|].
  apply Forall_app in Hall as [Hall Hlast]. inversion Hlast as [|? ? Hb _]; subst. destruct (IH Hall) as [Hq' Hno].
  destruct (quiet_step _ _ _ _ _ _ _ _ (run_inv _ _ _ _ _ Hr Hi) Hq' Hb Hs) as [Hq'' Ho]. split; [done|].
  intros s [?|Hin]%elem_of_app; [by eapply Hno|]. destruct o as [x|]; simpl in Hin; [|by apply elem_of_nil in Hin].
  apply list_elem_of_singleton in Hin as <-. by eapply Ho.
Qed.

(** ** Theorems *)

(** In every state the tracker reaches, a pending release has an armed timer
    of its own or else exactly one attempt in flight, never both, and every armed
    timer belongs to exactly one pending release: no timer leaks, and no session is
    released twice at the same time. *)
Theorem one_timer_or_attempt (g : Z) (evs : list (Env * Event)) (st : Tracker) (out : list (string * nat)) :
  run g empty_tracker evs st out →
  NoDup (attempts st) ∧
  (∀ sid p, jget sid (pending st) = Some p →
    match handle p with
    | Some h => (∃ due, jget h (timers st) = Some (sid, due)) ∧ (sid, p_id p) ∉ attempts st
    | None => (sid, p_id p) ∈ attempts st ∧ ∀ h due, jget h (timers st) ≠ Some (sid, due)
    end) ∧
  (∀ h sid due, jget h (timers st) = Some (sid, due) → ∃ p, jget sid (pending st) = Some p ∧ handle p = Some h).
Proof.
  intros Hr. pose proof (run_inv _ _ _ _ _ Hr inv_empty) as Hi. split_and!; [apply Hi| |].
  - intros sid p Hp. pose proof (i_flight _ _ Hi sid p ltac:(done) Hp) as Hf. destruct (handle p) as [h|] eqn:Eh.
    + split; [by eapply (i_armed _ _ Hi)|]. intros Ha%Hf. done.
    + split; [by apply Hf|]. intros h due Hd. destruct (i_timer _ _ Hi _ _ _ Hd) as (_ & p' & ? & ?). congruence.
  - intros h sid due Hd. by destruct (i_timer _ _ Hi _ _ _ Hd) as (_ & ?).
Qed.

(** C7. A session is handed to [release] only while that is justified: its timer is
    due, the id still names the session object whose owner disconnected, no
    client owns it, its policy holds an owner lease, it is not awaiting a
    rehydrated owner nor in a handoff, and its owner has not heartbeated since the
    connection closed. *)
Theorem release_is_justified (g : Z) (env : Env) (st st' : Tracker) (ev : Event) (sid : string) (s : nat) :
  step g env st ev = Some (st', Some (sid, s)) →
  ∃ h due p, ev = TimerFires h ∧ jget h (timers st) = Some (sid, due) ∧ due ≤ timerClock env ∧
    jget sid (pending st) = Some p ∧ p_session p = s ∧ getSession env sid = Some s ∧ hasConnectedOwner env sid = false ∧
    let session := sessionAt env s in
    holdsOwnerHeartbeatLease (livenessPolicy (lease session)) = true ∧
    ownership (lease session) = owned ∧
    (livenessOwnerToken (lease session) = None → default 0%nat (livenessOwnershipClaims session) = 0%nat) ∧
    (∀ t, ownerHeartbeatSince session = Some t → t ≤ closedAt p).
Proof.
  destruct ev as [sid' mcp gr|sid'|sids|h|sid' id r]; simpl; try done; [|by case_bool_decide].
  destruct (jget h (timers st)) as [[sid' due]|] eqn:Hh; [|done]. case_bool_decide as Hdue; [|done].
  unfold fire. simpl. destruct (jget sid' (pending st)) as [p|] eqn:Hp; [|done].
  destruct (bool_decide _ || _) eqn:Eo; [done|]. apply orb_false_iff in Eo as [Es Eo].
  apply bool_decide_eq_false_1, dec_stable in Es.
  destruct (ownerDisconnectReleaseBlocker _ _) eqn:Eb; [done|]. simpl. intros [= _ -> <-].
  exists h, due, p. do 7 (split; [done|]). cbn zeta. revert Eb. unfold ownerDisconnectReleaseBlocker.
  destruct (holdsOwnerHeartbeatLease _) eqn:Ehold; [simpl|done].
  case_bool_decide as Hown; [done|].
  destruct (bool_decide _ && _) eqn:Eh; [done|]. intros Eb. split_and!; [done| | |].
  - by destruct (ownership _).
  - intros Htok. rewrite Htok in Eh. simpl in Eh. by apply bool_decide_eq_false_1, dec_stable in Eh.
  - intros t Ht. rewrite Ht in Eb. case_bool_decide; [done|]. lia.
Qed.

(** The disconnect grace is real and a cancel is final: after a disconnect of a
    session with no release pending, none happens before the timer's clock has advanced by the grace, whatever other events come first; after a cancel (a reconnect, or the
    session's end) none happens at all, and the session is not pending, until the
    owner disconnects again. *)
Theorem grace_and_cancel_respected (g : Z) (env : Env) (before_ evs : list (Env * Event)) (st st' : Tracker)
    (out0 out : list (string * nat)) (sid mcp : string) (graceMs : option Z) :
  run g empty_tracker before_ st out0 →
  (run g (ownerDisconnected g env (cancel st sid) sid mcp graceMs) evs st' out →
    Forall (before sid (Some (timerClock env + default g graceMs))) evs → ∀ s, (sid, s) ∉ out) ∧
  (run g (cancel st sid) evs st' out → Forall (before sid None) evs →
    jget sid (pending st') = None ∧ ∀ s, (sid, s) ∉ out).
Proof.
  intros Hr0. pose proof (cancel_inv _ sid (run_inv _ _ _ _ _ Hr0 inv_empty)) as Hi. split; intros Hr Hall.
  - eapply (quiet_run _ _ _ _ _ sid); [done|by apply ownerDisconnected_inv| |done].
    unfold quiet. destruct (jget sid _) as [p|] eqn:Hp; [|done]. revert Hp. unfold ownerDisconnected.
    destruct (getSession env sid); [|by rewrite cancel_absent].
    destruct (ownerDisconnectReleaseBlocker _ _); [by rewrite cancel_absent|]. simpl.
    rewrite jget_set, decide_True by done. intros [= <-]. simpl. split; [done|]. eexists; split; [done|].
    eexists; split; [done|]. by rewrite jget_set, decide_True.
  - assert (Hq : quiet sid None (cancel st sid)) by (unfold quiet; by rewrite cancel_absent).
    destruct (quiet_run _ _ _ _ _ sid None Hr Hi Hq Hall) as [Hq' Hno]. split; [|done].
    unfold quiet in Hq'. destruct (jget sid (pending st')) as [p|]; [|done].
    by destruct Hq' as (_ & ? & _ & ? & ? & _).
Qed.

(** C8. A pending release never gets stuck.  In every reachable state, when its
    timer is due it can fire, and firing hands the session to [release] exactly
    when the id still names the object, no client owns it and nothing blocks the
    release, and forgets it otherwise; while its attempt is in flight every way the
    attempt settles is accepted, and either ends the release or, deferred, arms a
    timer due at the deferral, or at once when an execution ended meanwhile. *)
Theorem release_progresses (g : Z) (evs : list (Env * Event)) (st : Tracker) (out : list (string * nat))
    (sid : string) (p : PendingRelease) :
  run g empty_tracker evs st out → jget sid (pending st) = Some p →
  match handle p with
  | Some h => ∃ due, jget h (timers st) = Some (sid, due) ∧
      ∀ env, due ≤ timerClock env → ∃ st' o, step g env st (TimerFires h) = Some (st', o) ∧
        if bool_decide (getSession env sid = Some (p_session p)) && negb (hasConnectedOwner env sid)
           && bool_decide (ownerDisconnectReleaseBlocker (sessionAt env (p_session p)) (closedAt p) = None)
        then o = Some (sid, p_session p) ∧ (sid, p_id p) ∈ attempts st'
        else o = None ∧ jget sid (pending st') = None
  | None => ∀ env result, ∃ st', step g env st (Settles sid (p_id p) result) = Some (st', None) ∧
      match result with
      | Resolved (Some deferredUntil) =>
          if bool_decide (getSession env sid = Some (p_session p))
          then ∃ p' h, jget sid (pending st') = Some p' ∧ p_id p' = p_id p ∧ handle p' = Some h ∧
                 jget h (timers st') = Some (sid, timerClock env +
                   if rearmRequested p then 0 else Z.max 0 (deferredUntil - clock env))
          else jget sid (pending st') = None
      | _ => jget sid (pending st') = None
      end
  end.
Proof.
  intros Hr Hp. pose proof (run_inv _ _ _ _ _ Hr inv_empty) as Hi. destruct (handle p) as [h|] eqn:Eh.
  - destruct (i_armed _ _ Hi sid p h ltac:(done) Hp Eh) as [due Hd]. exists due. split; [done|]. intros env Hdue.
    simpl. rewrite Hd, bool_decide_eq_true_2 by done. unfold fire. simpl. rewrite Hp. simpl.
    destruct (decide (getSession env sid = Some (p_session p))) as [Es|Es];
      [rewrite (bool_decide_eq_false_2 (getSession env sid ≠ _)), (bool_decide_eq_true_2 (getSession env sid = _)) by naive_solver
      |rewrite (bool_decide_eq_true_2 (getSession env sid ≠ _)), (bool_decide_eq_false_2 (getSession env sid = _)) by naive_solver].
    + destruct (hasConnectedOwner env sid); simpl; [do 2 eexists; split; [done|]; simpl; by rewrite jget_del, decide_True|].
      destruct (ownerDisconnectReleaseBlocker _ _) eqn:Eb; do 2 eexists; (split; [done|]); simpl.
      * by rewrite jget_del, decide_True.
      * split; [done|]. apply elem_of_app. right. by left.
    + do 2 eexists. split; [done|]. simpl. by rewrite jget_del, decide_True.
  - pose proof (proj1 (i_flight _ _ Hi sid p ltac:(done) Hp) Eh) as Ha. intros env result. simpl.
    rewrite bool_decide_eq_true_2 by done. eexists. split; [done|].
    destruct result as [d|].
    + unfold afterAttempt. simpl. rewrite Hp, (bool_decide_eq_true_2 (p_id p = p_id p)) by done. simpl.
      destruct (decide (getSession env sid = Some (p_session p))) as [Es|Es];
        [rewrite (bool_decide_eq_false_2 (getSession env sid ≠ _)) by naive_solver
        |rewrite (bool_decide_eq_true_2 (getSession env sid ≠ _)) by naive_solver].
      * destruct d as [d|]; simpl; [|by rewrite jget_del, decide_True].
        rewrite bool_decide_eq_true_2 by done. do 2 eexists. rewrite jget_set, decide_True by done.
        split; [done|]. split; [done|]. split; [done|]. rewrite jget_set, decide_True by done.
        do 3 f_equal. destruct (rearmRequested p); lia.
      * destruct d as [d|]; [rewrite bool_decide_eq_false_2 by done|]; simpl; by rewrite jget_del, decide_True.
    + unfold attemptFailed, pendingIs. simpl. rewrite Hp, bool_decide_eq_true_2 by done. simpl.
      by rewrite jget_del, decide_True.
Qed.

(** *** Concrete runs *)

Definition leased : OwnerSession :=
  mkOwnerSession (mkLeaseSession 0 None None None true 4000 heartbeat owned (Some "token"%string)) None.
Definition world (t : Z) : Env := mkEnv (λ _, Some 7%nat) (λ _, leased) (λ _, false) t t.
Definition disconnected : Tracker := ownerDisconnected 8000 (world 0) empty_tracker "s" "m" None.
Definition released : Tracker :=
  default empty_tracker (fst <$> step 8000 (world 8000) disconnected (TimerFires 0)).

Lemma disconnected_run : run 8000 empty_tracker [(world 0, Disconnected "s" "m" None)] disconnected [].
Proof.
  exact (run_snoc 8000 empty_tracker [] empty_tracker [] (world 0) (Disconnected "s" "m" None) disconnected None
    (run_nil _ _) eq_refl).
Defined.

Lemma one_timer_or_attempt_witness :
  run 8000 empty_tracker [(world 0, Disconnected "s" "m" None)] disconnected [] ∧ NoDup (attempts disconnected).
Proof. split; [exact disconnected_run|]. exact (proj1 (one_timer_or_attempt _ _ _ _ disconnected_run)). Defined.

Lemma release_is_justified_witness :
  step 8000 (world 8000) disconnected (TimerFires 0) = Some (released, Some ("s"%string, 7%nat)) ∧
  ∃ h due p, TimerFires 0 = TimerFires h ∧ jget h (timers disconnected) = Some ("s"%string, due) ∧ due ≤ 8000 ∧
    jget "s"%string (pending disconnected) = Some p.
Proof.
  split; [vm_compute; reflexivity|].
  destruct (release_is_justified 8000 (world 8000) disconnected released (TimerFires 0) "s" 7%nat)
    as (h & due & p & H1 & H2 & H3 & H4 & _); [vm_compute; reflexivity|].
  exists h, due, p. exact (conj H1 (conj H2 (conj H3 H4))).
Defined.

Lemma grace_and_cancel_respected_witness :
  run 8000 empty_tracker [(world 0, Disconnected "s" "m" None)] disconnected [] ∧
  (run 8000 (cancel disconnected "s") [] (cancel disconnected "s") [] →
   Forall (before "s" None) [] → jget "s"%string (pending (cancel disconnected "s")) = None ∧ ∀ s : nat, ("s"%string, s) ∉ []).
Proof.
  split; [exact disconnected_run|].
  exact (proj2 (grace_and_cancel_respected 8000 (world 0) _ [] disconnected (cancel disconnected "s") _ [] "s" "m" None disconnected_run)).
Defined.

Lemma release_progresses_witness :
  ∃ due, jget 0%nat (timers disconnected) = Some ("s"%string, due) ∧
    (due ≤ 8000 → ∃ st' o, step 8000 (world 8000) disconnected (TimerFires 0) = Some (st', o) ∧
      o = Some ("s"%string, 7%nat)).
Proof.
  destruct (release_progresses 8000 _ disconnected _ "s" (mkPending 1 7 "m" 0 8000 (Some 0%nat) false false)
    disconnected_run eq_refl) as (due & Hd & H).
  exists due. split; [exact Hd|]. intros Hdue. destruct (H (world 8000) Hdue) as (st' & o & Hs & Ho).
  exists st', o. split; [exact Hs|]. vm_compute in Ho. exact (proj1 Ho).
Defined.
