(* ===== verification/TtlCache.v ===== *)
(** * The TTL cache with LRU eviction

    [src/src/utils/cache/Cache.ts]: [TTLCache], its two orderings, its byte and
    entry budgets and the bounded expiry sweep.  [now] is the reading of the
    injected timer; it may move backwards. *)
From Stdlib Require Import Sorting.Sorted.
From stdpp Require Import strings sets.
From S2P Require Import Prelude JsMap.
Local Open Scope Z_scope.

(** ** Data *)

Record CacheOptions := mkOptions {
  ttlMs : Z;
  maxEntries : option Z;    (** [None]: [Infinity] *)
  maxSizeBytes : option Z }.

Definition DEFAULT_TTL_MS : Z := 60000.

(** The constructor's defaults. *)
Definition optionsOf (ttl maxE maxS : option Z) : CacheOptions := mkOptions (default DEFAULT_TTL_MS ttl) maxE maxS.

Record CacheStats := mkStats { hits : Z; misses : Z; stat_size : Z; ttlEvictions : Z; sizeEvictions : Z }.

Section Cache.
Context {K V : Type} `{!EqDecision K}.
Context (options : CacheOptions).

Record CacheEntry := mkEntry { value : V; createdAt : Z; sizeBytes : option Z }.

Record TTLCache := mkCache {
  entries : JsMap K CacheEntry;
  expiryOrder : list K;
  newestCreatedAt : option Z;    (** [None]: [-Infinity] *)
  expiryOrderMayBeOutOfOrder : bool;
  currentSizeBytes : Z;
  stats : CacheStats;
  evictionScanWork : Z }.

Definition new_cache : TTLCache := mkCache [] [] None false 0 (mkStats 0 0 0 0 0) 0.

(** ** Field updates *)

Definition withStats (c : TTLCache) (s : CacheStats) : TTLCache :=
  mkCache (entries c) (expiryOrder c) (newestCreatedAt c) (expiryOrderMayBeOutOfOrder c) (currentSizeBytes c) s (evictionScanWork c).
Definition withWork (c : TTLCache) : TTLCache :=
  mkCache (entries c) (expiryOrder c) (newestCreatedAt c) (expiryOrderMayBeOutOfOrder c) (currentSizeBytes c) (stats c)
    (evictionScanWork c + 1).
Definition withOrdering (c : TTLCache) (newest : option Z) (disorder : bool) : TTLCache :=
  mkCache (entries c) (expiryOrder c) newest disorder (currentSizeBytes c) (stats c) (evictionScanWork c).
Definition countHit (c : TTLCache) : TTLCache :=
  let s := stats c in withStats c (mkStats (hits s + 1) (misses s) (stat_size s) (ttlEvictions s) (sizeEvictions s)).
Definition countMiss (c : TTLCache) : TTLCache :=
  let s := stats c in withStats c (mkStats (hits s) (misses s + 1) (stat_size s) (ttlEvictions s) (sizeEvictions s)).
Definition countTtlEviction (c : TTLCache) : TTLCache :=
  let s := stats c in withStats c (mkStats (hits s) (misses s) (stat_size s) (ttlEvictions s + 1) (sizeEvictions s)).
Definition countSizeEviction (c : TTLCache) : TTLCache :=
  let s := stats c in withStats c (mkStats (hits s) (misses s) (stat_size s) (ttlEvictions s) (sizeEvictions s + 1)).

Definition size (c : TTLCache) : Z := Z.of_nat (length (entries c)).
Definition updateSizeStats (c : TTLCache) : TTLCache :=
  let s := stats c in withStats c (mkStats (hits s) (misses s) (size c) (ttlEvictions s) (sizeEvictions s)).

(** ** Operations *)

Definition removeEntry (c : TTLCache) (key : K) : TTLCache :=
  let '(es, bytes) :=
    match jget key (entries c) with
    | Some e => (jdel key (entries c), currentSizeBytes c - default 0 (sizeBytes e))
    | None => (entries c, currentSizeBytes c)
    end in
  let empty := bool_decide (es = []) in
  mkCache es (sdel key (expiryOrder c))
    (if empty then None else newestCreatedAt c)
    (if empty then false else expiryOrderMayBeOutOfOrder c) bytes (stats c) (evictionScanWork c).

Definition expired (now : Z) (e : CacheEntry) : bool := bool_decide (ttlMs options ≤ now - createdAt e).

Definition get (c : TTLCache) (now : Z) (key : K) : TTLCache * option V :=
  match jget key (entries c) with
  | None => (countMiss c, None)
  | Some e =>
      if expired now e
      then (updateSizeStats (countMiss (countTtlEviction (removeEntry c key))), None)
      else
        (countHit (mkCache (jset key e (jdel key (entries c))) (expiryOrder c) (newestCreatedAt c)
           (expiryOrderMayBeOutOfOrder c) (currentSizeBytes c) (stats c) (evictionScanWork c)), Some (value e))
  end.

Definition has (c : TTLCache) (now : Z) (key : K) : TTLCache * bool :=
  match jget key (entries c) with
  | None => (c, false)
  | Some e =>
      if expired now e then (updateSizeStats (countTtlEviction (removeEntry c key)), false) else (c, true)
  end.

Definition delete (c : TTLCache) (key : K) : TTLCache * bool :=
  if jhas key (entries c) then (updateSizeStats (removeEntry c key), true) else (c, false).

Definition clear (c : TTLCache) : TTLCache :=
  updateSizeStats (mkCache [] [] None false 0 (stats c) (evictionScanWork c)).

(** [Math.max(x, y)] where [x] may be [-Infinity]. *)
Definition maxOpt (x : option Z) (y : Z) : Z := match x with Some z => Z.max z y | None => y end.
Definition ltOpt (y : Z) (x : option Z) : bool := match x with Some z => bool_decide (y < z) | None => false end.

(** The loop over the expiry order, taken key by key; removing the current key
    does not disturb the rest.  [previous] and [disorder] are the loop's two
    variables. *)
Fixpoint sweepLoop (now : Z) (fullScan : bool) (keys : list K) (c : TTLCache) (previous : option Z) (disorder : bool)
    (evicted : Z) : TTLCache * option Z * bool * Z :=
  match keys with
  | [] => (c, previous, disorder, evicted)
  | key :: keys' =>
      let c := withWork c in
      match jget key (entries c) with
      | None => sweepLoop now fullScan keys' c previous disorder evicted
      | Some e =>
          if negb (expired now e) then
            if negb fullScan then (c, previous, disorder, evicted)
            else sweepLoop now fullScan keys' c (Some (maxOpt previous (createdAt e)))
                   (if ltOpt (createdAt e) previous then true else disorder) evicted
          else sweepLoop now fullScan keys' (countTtlEviction (removeEntry c key)) previous disorder (evicted + 1)
      end
  end.

Definition sweepExpiredPrefix (c : TTLCache) (now : Z) : TTLCache * Z :=
  let fullScan := expiryOrderMayBeOutOfOrder c in
  let '(c, previous, disorder, evicted) := sweepLoop now fullScan (expiryOrder c) c None false 0 in
  let c := if fullScan then withOrdering c previous disorder else c in
  (if bool_decide (0 < evicted) then updateSizeStats c else c, evicted).

Definition cleanup (c : TTLCache) (now : Z) : TTLCache * Z := sweepExpiredPrefix c now.

Definition isOversizedValue (bytes : option Z) : bool :=
  match bytes, maxSizeBytes options with
  | Some b, Some m => bool_decide (m < b)
  | _, _ => false
  end.

Definition evictOldest (c : TTLCache) : TTLCache :=
  match entries c with
  | [] => c
  | (oldestKey, _) :: _ => removeEntry (withWork c) oldestKey
  end.

(** [while (test) { evictOldest(); sizeEvictions++ }]; each turn removes an
    entry, so [fuel] is their number. *)
Fixpoint evictWhile (test : TTLCache → bool) (fuel : nat) (c : TTLCache) : TTLCache :=
  match fuel with
  | O => c
  | S fuel' => if test c then evictWhile test fuel' (countSizeEviction (evictOldest c)) else c
  end.

Definition overBytes (bytes m : Z) (c : TTLCache) : bool :=
  bool_decide (m < currentSizeBytes c + bytes) && bool_decide (0 < size c).
Definition overEntries (c : TTLCache) : bool :=
  match maxEntries options with
  | Some n => bool_decide (0 < n) && bool_decide (n ≤ size c) && bool_decide (0 < size c)
  | None => false
  end.

Definition evictForCapacity (c : TTLCache) (bytes : option Z) : TTLCache :=
  let c := match bytes, maxSizeBytes options with
           | Some b, Some m => evictWhile (overBytes b m) (length (entries c)) c
           | _, _ => c
           end in
  evictWhile overEntries (length (entries c)) c.

Definition cachingDisabled : bool := match maxEntries options with Some n => bool_decide (n ≤ 0) | None => false end.

Definition set (c : TTLCache) (now : Z) (key : K) (v : V) (bytes : option Z) : TTLCache :=
  if isOversizedValue bytes then c
  else
    let c := if jhas key (entries c) then removeEntry c key else c in
    let c := (sweepExpiredPrefix c now).1 in
    let c := evictForCapacity c bytes in
    if cachingDisabled then c
    else
      updateSizeStats
        (mkCache (jset key (mkEntry v now bytes) (entries c)) (sadd key (expiryOrder c))
           (Some (maxOpt (newestCreatedAt c) now))
           (if ltOpt now (newestCreatedAt c) then true else expiryOrderMayBeOutOfOrder c)
           (currentSizeBytes c + default 0 bytes) (stats c) (evictionScanWork c)).

Definition keys (c : TTLCache) : list K := jkeys (entries c).
Definition getStats (c : TTLCache) : CacheStats := stats c.
Definition getCurrentSizeBytes (c : TTLCache) : Z := currentSizeBytes c.
Definition evictionScanWorkUnits (c : TTLCache) : Z := evictionScanWork c.

(** ** The invariant *)

Definition entryBytes (e : CacheEntry) : Z := default 0 (sizeBytes e).
Definition totalBytes (es : JsMap K CacheEntry) : Z := foldr (λ e acc, entryBytes e.2 + acc) 0 es.

(** The creation times in expiry order. *)
Definition times (es : JsMap K CacheEntry) (order : list K) : list Z := omap (λ k, createdAt <$> jget k es) order.

(** The two orderings hold the same keys, the byte total is that of the entries,
    no entry is newer than [newestCreatedAt], and unless flagged the expiry order
    is that of creation. *)
Record ordered (c : TTLCache) : Prop := {
  o_wf : jwf (entries c);
  o_order : NoDup (expiryOrder c);
  o_same k : k ∈ expiryOrder c ↔ k ∈ jkeys (entries c);
  o_bytes : currentSizeBytes c = totalBytes (entries c);
  o_newest t : t ∈ times (entries c) (expiryOrder c) → ∃ m, newestCreatedAt c = Some m ∧ t ≤ m;
  o_sorted : expiryOrderMayBeOutOfOrder c = false → StronglySorted Z.le (times (entries c) (expiryOrder c)) }.

(** The budgets, and the size statistic. *)
Record within_budget (c : TTLCache) : Prop := {
  b_sizes k e : (k, e) ∈ entries c → 0 ≤ entryBytes e;
  b_entries n : maxEntries options = Some n → size c ≤ Z.max 0 n;
  b_bytes m : maxSizeBytes options = Some m → currentSizeBytes c ≤ Z.max 0 m }.

Definition cache_inv (c : TTLCache) : Prop := ordered c ∧ within_budget c ∧ stat_size (stats c) = size c.

(** ** Removing an entry *)

Abbreviation cache := (TTLCache).
Implicit Types (c : cache) (es : JsMap K CacheEntry).

Lemma removeEntry_entries c k : entries (removeEntry c k) = jdel k (entries c).
Proof.
  unfold removeEntry. destruct (jget k (entries c)) eqn:E; simpl; [done|].
  symmetry. apply jdel_notin. rewrite <- jhas_false, jhas_get, E. done.
Qed.

Lemma removeEntry_order c k : expiryOrder (removeEntry c k) = sdel k (expiryOrder c).
Proof. unfold removeEntry. by destruct (jget k (entries c)). Qed.

Lemma totalBytes_del es k e :
  jwf es → jget k es = Some e → totalBytes (jdel k es) = totalBytes es - entryBytes e.
Proof.
  unfold jdel, totalBytes. induction es as [|[k' e'] es IH]; [by rewrite jget_nil|]. intros Hwf.
  unfold jwf, jkeys in Hwf. rewrite fmap_cons, list.NoDup_cons in Hwf. destruct Hwf as [Hn Hwf]. rewrite jget_cons, filter_cons.
  cbn [fst]. destruct (decide (k' = k)) as [->|Hne].
  - intros [= ->]. rewrite decide_False by tauto. simpl.
    change (filter (λ e0, e0.1 ≠ k) es) with (jdel k es). rewrite (jdel_notin k es) by done. lia.
  - intros Hg. rewrite decide_True by done. cbn [foldr snd]. rewrite (IH Hwf Hg). lia.
Qed.

Lemma totalBytes_nonneg es : (∀ k e, (k, e) ∈ es → 0 ≤ entryBytes e) → 0 ≤ totalBytes es.
Proof.
  induction es as [|[k e] es IH]; intros H; cbn; [lia|]. pose proof (H k e (list_elem_of_here _ _)).
  assert (0 ≤ totalBytes es) by (apply IH; intros; eapply H; by right). unfold totalBytes in *. lia.
Qed.

Lemma StronglySorted_sublist {A} (R : A → A → Prop) (l1 l2 : list A) :
  l1 `sublist_of` l2 → StronglySorted R l2 → StronglySorted R l1.
Proof.
  induction 1 as [|x l1 l2 Hsub IH|x l1 l2 Hsub IH]; intros Hs; [done| |].
  - apply StronglySorted_inv in Hs as [Hs Hall]. constructor; [auto|].
    rewrite List.Forall_forall in *. intros y Hy. apply Hall. apply list_elem_of_In. eapply elem_of_sublist; [|done].
    by apply list_elem_of_In.
  - apply StronglySorted_inv in Hs as [Hs _]. auto.
Qed.

Lemma times_cons es k order :
  times es (k :: order) = match jget k es with Some e => createdAt e :: times es order | None => times es order end.
Proof. unfold times. cbn. by destruct (jget k es). Qed.

Lemma times_ext es es' (order : list K) :
  (∀ k, k ∈ order → jget k es = jget k es') → times es order = times es' order.
Proof.
  induction order as [|k order IH]; intros H; [done|]. rewrite !times_cons, (H k), IH; [done| |left].
  intros; apply H; by right.
Qed.

Lemma times_del es k order : times (jdel k es) (sdel k order) `sublist_of` times es order.
Proof.
  unfold sdel. induction order as [|k' order IH]; [done|]. rewrite filter_cons, times_cons.
  destruct (decide (k' ≠ k)) as [Hne|He].
  - rewrite times_cons, jget_del, decide_False by congruence. by destruct (jget k' es); [apply sublist_skip|].
  - destruct (jget k' es); [by apply sublist_cons|done].
Qed.

Lemma times_nil (order : list K) : times [] order = [].
Proof. induction order as [|k order IH]; [done|]. by rewrite times_cons, jget_nil. Qed.

Lemma removeEntry_marks c k :
  (entries (removeEntry c k) = [] ∧ newestCreatedAt (removeEntry c k) = None ∧
    expiryOrderMayBeOutOfOrder (removeEntry c k) = false) ∨
  (entries (removeEntry c k) ≠ [] ∧ newestCreatedAt (removeEntry c k) = newestCreatedAt c ∧
    expiryOrderMayBeOutOfOrder (removeEntry c k) = expiryOrderMayBeOutOfOrder c).
Proof.
  unfold removeEntry. destruct (jget k (entries c)) as [e|]; simpl; case_bool_decide as H; auto.
Qed.

Lemma removeEntry_ordered c k : ordered c → ordered (removeEntry c k).
Proof.
  intros Ho. pose proof (times_del (entries c) k (expiryOrder c)) as Hsub.
  rewrite <- (removeEntry_entries c k), <- (removeEntry_order c k) in Hsub. split.
  - rewrite removeEntry_entries. apply jdel_wf, Ho.
  - rewrite removeEntry_order. apply list.NoDup_filter, Ho.
  - intros k'. rewrite removeEntry_order, removeEntry_entries, jkeys_del, !elem_of_sdel, (o_same _ Ho). done.
  - rewrite removeEntry_entries. unfold removeEntry. destruct (jget k (entries c)) as [e|] eqn:E; simpl.
    + rewrite (totalBytes_del _ _ _ (o_wf _ Ho) E), <- (o_bytes _ Ho). done.
    + rewrite jdel_notin; [apply Ho|]. rewrite <- jhas_false, jhas_get, E. done.
  - intros t Ht. destruct (o_newest _ Ho t) as (m & Hm & Hle); [by eapply elem_of_sublist|].
    destruct (removeEntry_marks c k) as [(E & _ & _)|(_ & -> & _)]; [|eauto].
    rewrite E, times_nil in Ht. by apply elem_of_nil in Ht.
  - destruct (removeEntry_marks c k) as [(E & _ & _)|(_ & _ & ->)].
    + intros _. rewrite E, times_nil. constructor.
    + intros Hf. eapply StronglySorted_sublist; [done|]. by apply (o_sorted _ Ho).
Qed.

Lemma removeEntry_bytes c k :
  ordered c → currentSizeBytes (removeEntry c k) = currentSizeBytes c - default 0 (entryBytes <$> jget k (entries c)).
Proof. intros Ho. unfold removeEntry. destruct (jget k (entries c)); simpl; [done|lia]. Qed.

Lemma removeEntry_budget c k : ordered c → within_budget c → within_budget (removeEntry c k).
Proof.
  intros Ho Hb. split.
  - intros k' e. rewrite removeEntry_entries. intros [_ H]%in_jdel. by eapply (b_sizes _ Hb).
  - intros n Hn. pose proof (b_entries _ Hb n Hn) as H. unfold size in *. rewrite removeEntry_entries.
    pose proof (length_jdel k (entries c)). lia.
  - intros m Hm. pose proof (b_bytes _ Hb m Hm) as H. rewrite removeEntry_bytes by done.
    destruct (jget k (entries c)) as [e|] eqn:E; simpl; [|lia].
    apply jget_in in E. pose proof (b_sizes _ Hb _ _ E). lia.
Qed.

(** The invariants do not read the statistics. *)
Lemma ordered_stats c s w :
  ordered c → ordered (mkCache (entries c) (expiryOrder c) (newestCreatedAt c) (expiryOrderMayBeOutOfOrder c)
    (currentSizeBytes c) s w).
Proof. intros [? ? ? ? ? ?]. by split. Qed.
Lemma budget_stats c s w :
  within_budget c → within_budget (mkCache (entries c) (expiryOrder c) (newestCreatedAt c) (expiryOrderMayBeOutOfOrder c)
    (currentSizeBytes c) s w).
Proof. intros [? ? ?]. by split. Qed.

Lemma length_removeEntry c k :
  ordered c → k ∈ jkeys (entries c) → size (removeEntry c k) = size c - 1.
Proof.
  intros Ho Hk. unfold size. rewrite removeEntry_entries. pose proof (o_wf _ Ho) as Hwf. revert Hk Hwf.
  unfold jdel, jwf, jkeys. induction (entries c) as [|[k' e] es IH]; [by intros ?%elem_of_nil|].
  rewrite fmap_cons, list.NoDup_cons, elem_of_cons, filter_cons. cbn [fst]. intros Hk [Hn Hwf].
  destruct (decide (k' = k)) as [->|Hne].
  - rewrite decide_False by tauto. change (filter (λ e0, e0.1 ≠ k) es) with (jdel k es). rewrite jdel_notin by done. simpl. lia.
  - rewrite decide_True by done. destruct Hk as [?|Hk]; [congruence|]. specialize (IH Hk Hwf). simpl. lia.
Qed.

(** ** The sweep *)

(** What the loop leaves of the keys it visits. *)
Definition survives (now : Z) (ks : list K) (e : K * CacheEntry) : Prop := e.1 ∉ ks ∨ expired now e.2 = false.
#[export] Instance survives_dec now ks e : Decision (survives now ks e).
Proof. unfold survives. apply _. Defined.

Lemma expired_mono now (e e' : CacheEntry) : expired now e = false → createdAt e ≤ createdAt e' → expired now e' = false.
Proof. unfold expired. rewrite !bool_decide_eq_false. lia. Qed.

Lemma survives_skip now k ks es :
  (∀ e, (k, e) ∈ es → expired now e = false) →
  filter (survives now ks) es = filter (survives now (k :: ks)) es.
Proof.
  intros H. apply filter_agree. intros [k' e] Hin. unfold survives. simpl. rewrite not_elem_of_cons.
  destruct (decide (k' = k)) as [->|Hne]; [|tauto]. pose proof (H _ Hin). tauto.
Qed.

Lemma survives_remove now k e ks es :
  jwf es → jget k es = Some e → expired now e = true →
  filter (survives now ks) (jdel k es) = filter (survives now (k :: ks)) es.
Proof.
  intros Hwf Hg He. unfold jdel. rewrite list_filter_filter. apply filter_agree. intros [k' e'] Hin.
  unfold survives. simpl. rewrite not_elem_of_cons. destruct (decide (k' = k)) as [->|Hne]; [|tauto].
  apply (jget_wf_in _ _ _ Hwf) in Hin. assert (e' = e) as -> by congruence. rewrite He. split; [tauto|].
  intros [[]|?]; done.
Qed.

Lemma sweepLoop_entries now full ks c prev dis ev :
  ordered c → within_budget c → NoDup ks → (full = false → StronglySorted Z.le (times (entries c) ks)) →
  let '(c', _, _, ev') := sweepLoop now full ks c prev dis ev in
  ordered c' ∧ within_budget c' ∧ entries c' = filter (survives now ks) (entries c) ∧
  expiryOrder c' `sublist_of` expiryOrder c ∧ ev' = ev + (size c - size c').
Proof.
  intros Ho Hb Hnd. revert c prev dis ev Ho Hb Hnd; induction ks as [|k ks IH]; intros c prev dis ev Ho Hb Hnd Hsort; cbn [sweepLoop].
  { split_and!; [done|done| |done|lia]. clear.
    induction (entries c) as [|e es IHes]; [done|]. rewrite filter_cons_True; [by f_equal|]. left. by intros ?%elem_of_nil. }
  apply list.NoDup_cons in Hnd as [Hk Hnd]. rewrite times_cons in Hsort.
  assert (Hwo : ordered (withWork c)) by (by apply ordered_stats).
  assert (Hwb : within_budget (withWork c)) by (by apply budget_stats).
  change (entries (withWork c)) with (entries c). destruct (jget k (entries c)) as [e|] eqn:Eg.
  - destruct (expired now e) eqn:Ee; simpl (negb _).
    + (* expired *)
      set (c1 := countTtlEviction (removeEntry (withWork c) k)).
      assert (He1 : entries c1 = jdel k (entries c)) by exact (removeEntry_entries (withWork c) k).
      assert (Ho1 : ordered c1) by (apply ordered_stats; by apply removeEntry_ordered).
      assert (Hb1 : within_budget c1) by (apply budget_stats; by apply removeEntry_budget).
      assert (Hs1 : size c1 = size c - 1).
      { apply (length_removeEntry (withWork c) k Hwo). change (entries (withWork c)) with (entries c). by eapply jget_in_keys. }
      specialize (IH c1 prev dis (ev + 1) Ho1 Hb1 Hnd).
      destruct (sweepLoop now full ks c1 prev dis (ev + 1)) as [[[c' p'] d'] ev'].
      destruct IH as (H1 & H2 & H3 & H4 & H5).
      { intros Hf. specialize (Hsort Hf). apply StronglySorted_inv in Hsort as [Hsort _].
        rewrite (times_ext _ (entries c)); [done|]. intros k' Hk'. rewrite He1, jget_del, decide_False; [done|]. by intros ->. }
      split_and!; [done|done| | |lia].
      * rewrite H3, He1. eapply survives_remove; [apply Ho|done|done].
      * transitivity (expiryOrder c1); [done|]. unfold c1. change (expiryOrder (countTtlEviction ?x)) with (expiryOrder x).
        rewrite removeEntry_order. apply sublist_filter.
    + destruct full; simpl (negb _).
      * (* live, full scan *)
        match goal with |- context [sweepLoop now true ks ?c ?p ?d ?v] => specialize (IH c p d v Hwo Hwb Hnd ltac:(done)) end.
        destruct (sweepLoop _ _ _ _ _ _ _) as [[[c' p'] d'] ev']. destruct IH as (H1 & H2 & H3 & H4 & H5).
        split_and!; [done|done| |done|done]. rewrite H3. apply survives_skip. intros e' Hin.
        apply (jget_wf_in _ _ _ (o_wf _ Ho)) in Hin. congruence.
      * (* the first live entry: everything after it is live *)
        split_and!; [done|done| |done|unfold size; simpl; lia]. simpl.
        specialize (Hsort eq_refl). apply StronglySorted_inv in Hsort as [_ Hall]. rewrite List.Forall_forall in Hall.
        assert (Hlive : ∀ x, x ∈ entries c → survives now (k :: ks) x).
        { intros [k' e'] Hin. unfold survives. simpl. destruct (decide (k' ∈ k :: ks)) as [Hin'|]; [right|by left].
          pose proof (jget_wf_in _ _ _ (o_wf _ Ho) Hin) as Eg'. apply elem_of_cons in Hin' as [->|Hin']; [congruence|].
          eapply expired_mono; [done|]. apply Hall. apply list_elem_of_In. unfold times. apply list_elem_of_omap.
          exists k'. by rewrite Eg'. }
        clear -Hlive. induction (entries c) as [|x es IHes]; [done|]. rewrite filter_cons_True by (apply Hlive; left).
        f_equal. apply IHes. intros; apply Hlive; by right.
  - specialize (IH (withWork c) prev dis ev Hwo Hwb Hnd Hsort). destruct (sweepLoop _ _ _ _ _ _ _) as [[[c' p'] d'] ev'].
    destruct IH as (H1 & H2 & H3 & H4 & H5). split_and!; [done|done| |done|done].
    rewrite H3. apply survives_skip. intros e' Hin. apply (jget_wf_in _ _ _ (o_wf _ Ho)) in Hin. congruence.
Qed.

(** *** The ordering marks after a full scan *)

Definition liveTime (now : Z) es (k : K) : option Z :=
  e ← jget k es; if expired now e then None else Some (createdAt e).

Lemma sweepLoop_marks now ks c prev dis ev :
  NoDup ks →
  let '(_, prev', dis', _) := sweepLoop now true ks c prev dis ev in
  let live := omap (liveTime now (entries c)) ks in
  (∀ t, t ∈ live → ∃ m, prev' = Some m ∧ t ≤ m) ∧ (∀ p, prev = Some p → ∃ m, prev' = Some m ∧ p ≤ m) ∧
  (dis' = false → dis = false ∧ StronglySorted Z.le live ∧ ∀ p t, prev = Some p → t ∈ live → p ≤ t).
Proof.
  intros Hnd. revert c prev dis ev; induction Hnd as [|k ks Hk Hnd IH]; intros c prev dis ev; cbn [sweepLoop].
  { split_and!; [by intros ? ?%elem_of_nil|intros p ->; by exists p|].
    intros ->. split_and!; [done|constructor|by intros ? ? _ ?%elem_of_nil]. }
  change (entries (withWork c)) with (entries c).
  assert (Hcons : omap (liveTime now (entries c)) (k :: ks) =
    match liveTime now (entries c) k with
    | Some t => t :: omap (liveTime now (entries c)) ks | None => omap (liveTime now (entries c)) ks end) by done.
  cbn zeta. rewrite Hcons. clear Hcons.
  destruct (jget k (entries c)) as [e|] eqn:Eg.
  2:{ replace (liveTime now (entries c) k) with (@None Z) by (unfold liveTime; by rewrite Eg). apply (IH (withWork c)). }
  assert (Hlk : liveTime now (entries c) k = if expired now e then None else Some (createdAt e)) by (unfold liveTime; by rewrite Eg).
  rewrite Hlk. clear Hlk. destruct (expired now e) eqn:Ee; cbn [negb].
  - assert (Hsame : omap (liveTime now (jdel k (entries c))) ks = omap (liveTime now (entries c)) ks).
    { apply list_omap_ext. apply Forall_Forall2_diag, list.Forall_forall. intros k' Hk'.
      unfold liveTime. rewrite jget_del, decide_False; [done|]. by intros ->. }
    specialize (IH (countTtlEviction (removeEntry (withWork c) k)) prev dis (ev + 1)).
    change (entries (countTtlEviction ?x)) with (entries x) in IH.
    rewrite (removeEntry_entries (withWork c) k) in IH. change (entries (withWork c)) with (entries c) in IH.
    by rewrite Hsame in IH.
  - match goal with |- context [sweepLoop now true ks ?c ?p ?d ?v] => specialize (IH c p d v) end.
    change (entries (withWork c)) with (entries c) in IH.
    destruct (sweepLoop _ _ _ _ _ _ _) as [[[c' p'] d'] ev']. cbn zeta in IH |- *. set (live := omap _ ks) in *.
    destruct IH as (H1 & H2 & H3). destruct (H2 _ eq_refl) as (m & -> & Hm).
    assert (Ht : createdAt e ≤ m) by (destruct prev; simpl in Hm; lia). split_and!.
    + intros t [->|Ht']%elem_of_cons; [by exists m|by apply H1].
    + intros p ->. simpl in Hm. exists m. split; [done|lia].
    + intros Hd. destruct (H3 Hd) as (Hdis & Hsort & Hall).
      assert (Hprev : ∀ p, prev = Some p → p ≤ createdAt e).
      { intros p ->. simpl in Hdis. case_bool_decide; [done|lia]. }
      assert (Hmax : maxOpt prev (createdAt e) = createdAt e) by (destruct prev as [p|]; simpl; [specialize (Hprev p eq_refl); lia|done]).
      split_and!.
      * destruct (ltOpt _ _); done.
      * constructor; [done|]. apply List.Forall_forall. intros t Ht'%list_elem_of_In. rewrite <- Hmax. by apply Hall.
      * intros p t Ep [->|Ht']%elem_of_cons; [by apply Hprev|]. specialize (Hprev p Ep).
        pose proof (Hall _ t eq_refl Ht') as Hle. rewrite Hmax in Hle. lia.
Qed.

Lemma sweepLoop_stat now full ks c prev dis ev :
  let '(c', _, _, _) := sweepLoop now full ks c prev dis ev in stat_size (stats c') = stat_size (stats c).
Proof.
  revert c prev dis ev; induction ks as [|k ks IH]; intros c prev dis ev; cbn [sweepLoop]; [done|].
  assert (Hr : ∀ c, stat_size (stats (countTtlEviction (removeEntry c k))) = stat_size (stats c)).
  { intros c0. unfold removeEntry. by destruct (jget k (entries c0)). }
  destruct (jget k (entries (withWork c))) as [e|]; [|apply (IH (withWork c))].
  destruct (expired now e); cbn [negb].
  - match goal with |- context [sweepLoop now full ks ?c ?p ?d ?v] => specialize (IH c p d v) end.
    destruct (sweepLoop _ _ _ _ _ _ _) as [[[? ?] ?] ?]. rewrite IH. apply (Hr (withWork c)).
  - destruct full; cbn [negb]; [|done]. apply (IH (withWork c)).
Qed.

Lemma omap_sublist {A B} (f : A → option B) (l1 l2 : list A) :
  l1 `sublist_of` l2 → omap f l1 `sublist_of` omap f l2.
Proof. induction 1 as [|x l1 l2 H IH|x l1 l2 H IH]; cbn; [done|destruct (f x); [by apply sublist_skip|done]|]. destruct (f x); [by apply sublist_cons|done]. Qed.

Lemma survivors_get now (order : list K) es k :
  jwf es → k ∈ order →
  jget k (filter (survives now order) es) = (e ← jget k es; if expired now e then None else Some e).
Proof.
  intros Hwf Hk. destruct (jget k es) as [e|] eqn:Eg; simpl.
  - apply jget_in in Eg as Hin. destruct (expired now e) eqn:Ee.
    + destruct (jget k (filter _ es)) as [e'|] eqn:Eg'; [|done]. apply jget_in, list_elem_of_filter in Eg' as [[?|He'] Hin']; [done|].
      apply (jget_wf_in _ _ _ Hwf) in Hin'. simpl in He'. congruence.
    + apply jget_wf_in; [by apply jwf_filter|]. apply list_elem_of_filter. split; [by right|done].
  - destruct (jget k (filter _ es)) as [e'|] eqn:Eg'; [|done]. apply jget_in, list_elem_of_filter in Eg' as [_ Hin'].
    apply (jget_wf_in _ _ _ Hwf) in Hin'. congruence.
Qed.

Lemma times_survivors now (order order' : list K) es :
  jwf es → order' `sublist_of` order →
  times (filter (survives now order) es) order' `sublist_of` omap (liveTime now es) order.
Proof.
  intros Hwf Hsub.
  assert (times (filter (survives now order) es) order' = omap (liveTime now es) order') as ->; [|by apply omap_sublist].
  unfold times. apply list_omap_ext, Forall_Forall2_diag, list.Forall_forall. intros k Hk.
  rewrite survivors_get; [|done|by eapply elem_of_sublist]. unfold liveTime. destruct (jget k es) as [e|]; simpl; [|done].
  by destruct (expired now e).
Qed.

Definition is_live (now : Z) (e : K * CacheEntry) : Prop := expired now e.2 = false.
#[export] Instance is_live_dec now e : Decision (is_live now e).
Proof. unfold is_live. apply _. Defined.

(** The sweep keeps the orderings and leaves exactly the live entries. *)
Lemma sweep_spec_core c now :
  ordered c → within_budget c →
  let '(c', n) := sweepExpiredPrefix c now in
  ordered c' ∧ within_budget c' ∧ entries c' = filter (is_live now) (entries c) ∧ n = size c - size c' ∧
  stat_size (stats c') = (if bool_decide (0 < n) then size c' else stat_size (stats c)).
Proof.
  intros Ho Hb. unfold sweepExpiredPrefix.
  pose proof (sweepLoop_entries now (expiryOrderMayBeOutOfOrder c) (expiryOrder c) c None false 0 Ho Hb (o_order _ Ho) (o_sorted _ Ho)) as H1.
  pose proof (sweepLoop_stat now (expiryOrderMayBeOutOfOrder c) (expiryOrder c) c None false 0) as Hstat.
  assert (Hlive : filter (survives now (expiryOrder c)) (entries c) = filter (is_live now) (entries c)).
  { apply filter_agree. intros [k e] Hin. unfold survives, is_live. simpl. split; [intros [Hn|?]; [exfalso|done]|by right].
    apply Hn, (o_same _ Ho), list_elem_of_fmap. by exists (k, e). }
  assert (Hfin : ∀ c' n, ordered c' → within_budget c' → entries c' = filter (is_live now) (entries c) →
    n = 0 + (size c - size c') → stat_size (stats c') = stat_size (stats c) →
    let c'' := if bool_decide (0 < n) then updateSizeStats c' else c' in
    ordered c'' ∧ within_budget c'' ∧ entries c'' = filter (is_live now) (entries c) ∧ n = size c - size c'' ∧
    stat_size (stats c'') = (if bool_decide (0 < n) then size c'' else stat_size (stats c))).
  { intros c' n Ho' Hb' He Hn Hs. cbn zeta. case_bool_decide.
    - split_and!; [by apply ordered_stats|by apply budget_stats|done|exact Hn|done].
    - split_and!; [done|done|done|lia|done]. }
  destruct (expiryOrderMayBeOutOfOrder c) eqn:Hfull.
  - pose proof (sweepLoop_marks now (expiryOrder c) c None false 0 (o_order _ Ho)) as Hm.
    destruct (sweepLoop _ _ _ _ _ _ _) as [[[c' prev] dis] ev]. destruct H1 as (Ho' & Hb' & He & Hsub & Hev).
    cbn zeta in Hm. destruct Hm as (Hm1 & _ & Hm2).
    pose proof (times_survivors now (expiryOrder c) (expiryOrder c') (entries c) (o_wf _ Ho) Hsub) as Ht. rewrite <- He in Ht.
    apply (Hfin (withOrdering c' prev dis) ev); [|by destruct Hb'|by rewrite <- Hlive|done|done].
    split; try apply Ho'; simpl.
    + intros t Hin. apply Hm1. by eapply elem_of_sublist.
    + intros Hd. eapply StronglySorted_sublist; [done|]. by apply Hm2.
  - destruct (sweepLoop _ _ _ _ _ _ _) as [[[c' prev] dis] ev]. destruct H1 as (Ho' & Hb' & He & Hsub & Hev).
    apply (Hfin c' ev); [done|done|by rewrite <- Hlive|done|done].
Qed.

Lemma sweep_spec c now :
  cache_inv c →
  let '(c', n) := sweepExpiredPrefix c now in
  cache_inv c' ∧ entries c' = filter (is_live now) (entries c) ∧ n = size c - size c'.
Proof.
  intros (Ho & Hb & Hst). pose proof (sweep_spec_core c now Ho Hb) as H. destruct (sweepExpiredPrefix c now) as [c' n].
  destruct H as (Ho' & Hb' & He & Hn & Hs). split; [|done]. split; [done|]. split; [done|]. rewrite Hs, Hst.
  assert (size c' ≤ size c); [|case_bool_decide; lia]. unfold size. rewrite He.
  pose proof (length_filter (is_live now) (entries c)). lia.
Qed.

(** ** Eviction *)

Lemma evictOldest_spec c :
  ordered c → within_budget c → entries c ≠ [] →
  ordered (evictOldest c) ∧ within_budget (evictOldest c) ∧ entries (evictOldest c) = drop 1 (entries c).
Proof.
  intros Ho Hb Hne. unfold evictOldest. destruct (entries c) as [|[k e] es] eqn:Ee; [done|].
  split; [apply removeEntry_ordered; by apply ordered_stats|].
  split; [apply removeEntry_budget; [by apply ordered_stats|by apply budget_stats]|].
  rewrite removeEntry_entries. simpl. rewrite Ee. pose proof (o_wf _ Ho) as Hwf. rewrite Ee in Hwf.
  unfold jwf, jkeys in Hwf. rewrite fmap_cons, list.NoDup_cons in Hwf. destruct Hwf as [Hn _].
  unfold jdel. rewrite filter_cons_False by (simpl; tauto). simpl. by apply (jdel_notin k es).
Qed.

(** The loop drops the least recently used entries, as few as end it. *)
Lemma evictWhile_spec test fuel c :
  (∀ c, test c = true → entries c ≠ []) → (length (entries c) ≤ fuel)%nat → ordered c → within_budget c →
  let c' := evictWhile test fuel c in
  ordered c' ∧ within_budget c' ∧ test c' = false ∧ ∃ n, entries c' = drop n (entries c).
Proof.
  intros Htest. revert c; induction fuel as [|fuel IH]; intros c Hf Ho Hb; cbn [evictWhile].
  - split_and!; [done|done| |by exists 0%nat]. destruct (test c) eqn:E; [|done]. exfalso. apply (Htest c E), nil_length_inv. lia.
  - destruct (test c) eqn:E; [|split_and!; [done|done|done|by exists 0%nat]].
    destruct (evictOldest_spec c Ho Hb (Htest c E)) as (Ho1 & Hb1 & He1).
    destruct (IH (countSizeEviction (evictOldest c))) as (H1 & H2 & H3 & n & H4).
    + change (entries (countSizeEviction ?x)) with (entries x). rewrite He1, length_drop. lia.
    + by apply ordered_stats.
    + by apply budget_stats.
    + split_and!; [done|done|done|]. exists (1 + n)%nat. rewrite H4. change (entries (countSizeEviction ?x)) with (entries x).
      by rewrite He1, drop_drop.
Qed.

Lemma size_pos c : 0 < size c ↔ entries c ≠ [].
Proof. unfold size. destruct (entries c); simpl; split; try done; lia. Qed.

Lemma evictForCapacity_spec c bytes :
  ordered c → within_budget c → isOversizedValue bytes = false → (∀ b, bytes = Some b → 0 ≤ b) →
  let c' := evictForCapacity c bytes in
  ordered c' ∧ within_budget c' ∧ (∃ n, entries c' = drop n (entries c)) ∧
  (∀ n, maxEntries options = Some n → 0 < n → size c' < n) ∧
  (∀ m, maxSizeBytes options = Some m → currentSizeBytes c' + default 0 bytes ≤ Z.max 0 m).
Proof.
  intros Ho Hb Hov Hpos. unfold evictForCapacity.
  set (c1 := match bytes, maxSizeBytes options with Some b, Some m => _ | _, _ => c end).
  assert (H1 : ordered c1 ∧ within_budget c1 ∧ (∃ n, entries c1 = drop n (entries c)) ∧
    (∀ m, maxSizeBytes options = Some m → currentSizeBytes c1 + default 0 bytes ≤ Z.max 0 m)).
  { unfold c1. destruct bytes as [b|]; [|split_and!; [done|done|by exists 0%nat|]].
    2:{ intros m Hm. simpl. pose proof (b_bytes _ Hb m Hm). lia. }
    destruct (maxSizeBytes options) as [m|] eqn:Hm; [|split_and!; [done|done|by exists 0%nat|done]].
    destruct (evictWhile_spec (overBytes b m) (length (entries c)) c) as (H1 & H2 & H3 & H4); [|lia|done|done|].
    { intros c0 [_ H0%bool_decide_eq_true_1]%andb_true_iff. by apply size_pos. }
    split_and!; [done|done|done|]. intros m' [= <-].
    set (c' := evictWhile (overBytes b m) _ c) in *. unfold overBytes in H3. simpl (default 0 _).
    unfold isOversizedValue in Hov. rewrite Hm in Hov. apply bool_decide_eq_false_1 in Hov.
    apply andb_false_iff in H3 as [H3|H3]; apply bool_decide_eq_false_1 in H3; [lia|].
    rewrite size_pos in H3. apply dec_stable in H3.
    rewrite (o_bytes _ H1), H3. cbn. lia. }
  destruct H1 as (Ho1 & Hb1 & (n1 & He1) & Hm1).
  destruct (evictWhile_spec overEntries (length (entries c1)) c1) as (H1 & H2 & H3 & n2 & H4); [|lia|done|done|].
  { intros c0. unfold overEntries. destruct (maxEntries options); [|done]. intros [_ H0%bool_decide_eq_true_1]%andb_true_iff.
    by apply size_pos. }
  split_and!; [done|done| | |].
  - exists (n1 + n2)%nat. by rewrite H4, He1, drop_drop.
  - intros n Hn Hn0. set (c' := evictWhile _ _ _) in *. unfold overEntries in H3. rewrite Hn in H3.
    apply andb_false_iff in H3 as [[H3|H3]%andb_false_iff|H3]; apply bool_decide_eq_false_1 in H3; lia.
  - intros m Hm. specialize (Hm1 m Hm). set (c' := evictWhile _ _ _) in *.
    assert (currentSizeBytes c' ≤ currentSizeBytes c1); [|lia].
    rewrite (o_bytes _ H1), (o_bytes _ Ho1), H4. assert (Hs := b_sizes _ Hb1). revert Hs.
    clear. generalize (entries c1). induction n2 as [|n IH]; intros es Hs; [done|]. destruct es as [|[k e] es]; [done|].
    pose proof (Hs k e (list_elem_of_here _ _)). specialize (IH es ltac:(intros; eapply Hs; by right)).
    change (totalBytes (drop n es) ≤ entryBytes e + totalBytes es). lia.
Qed.

(** ** Operations keep the invariant *)

Lemma updateSizeStats_inv c : ordered c → within_budget c → cache_inv (updateSizeStats c).
Proof. intros Ho Hb. split; [by apply ordered_stats|]. split; [by apply budget_stats|done]. Qed.

Lemma times_app es (l1 l2 : list K) : times es (l1 ++ l2) = times es l1 ++ times es l2.
Proof. apply omap_app. Qed.

Lemma StronglySorted_snoc (l : list Z) x :
  StronglySorted Z.le l → (∀ y, y ∈ l → y ≤ x) → StronglySorted Z.le (l ++ [x]).
Proof.
  induction 1 as [|y l Hs IH Hall]; intros Hx; simpl; [by repeat constructor|].
  constructor; [apply IH; intros; apply Hx; by right|]. rewrite List.Forall_forall in *.
  intros z Hz%list_elem_of_In. apply elem_of_app in Hz as [Hz| ->%list_elem_of_singleton]; [|apply Hx; left].
  apply Hall. by apply list_elem_of_In.
Qed.

(** Storing a new key at the tail. *)
Lemma store_inv c now k v bytes :
  ordered c → within_budget c → k ∉ jkeys (entries c) → (∀ b, bytes = Some b → 0 ≤ b) →
  (∀ n, maxEntries options = Some n → 0 < n ∧ size c < n) →
  (∀ m, maxSizeBytes options = Some m → currentSizeBytes c + default 0 bytes ≤ Z.max 0 m) →
  let e := mkEntry v now bytes in
  let c' := mkCache (jset k e (entries c)) (sadd k (expiryOrder c)) (Some (maxOpt (newestCreatedAt c) now))
    (if ltOpt now (newestCreatedAt c) then true else expiryOrderMayBeOutOfOrder c)
    (currentSizeBytes c + default 0 bytes) (stats c) (evictionScanWork c) in
  ordered c' ∧ within_budget c' ∧ entries c' = entries c ++ [(k, e)].
Proof.
  intros Ho Hb Hk Hpos Hn Hm e c'.
  assert (He : jset k e (entries c) = entries c ++ [(k, e)]).
  { unfold jset. apply jhas_false in Hk. by rewrite Hk. }
  assert (Hord : sadd k (expiryOrder c) = expiryOrder c ++ [k]).
  { unfold sadd. rewrite bool_decide_eq_false_2; [done|]. by rewrite (o_same _ Ho). }
  assert (Htimes : times (entries c') (expiryOrder c') = times (entries c) (expiryOrder c) ++ [now]).
  { unfold c'. cbn [entries expiryOrder]. rewrite Hord, times_app. f_equal.
    - apply times_ext. intros k' Hk'. rewrite jget_set, decide_False; [done|]. intros <-. by rewrite (o_same _ Ho) in Hk'.
    - rewrite times_cons, jget_set, decide_True by done. done. }
  assert (Hmax : ∀ t, t ∈ times (entries c) (expiryOrder c) → t ≤ maxOpt (newestCreatedAt c) now).
  { intros t Ht. destruct (o_newest _ Ho t Ht) as (m & -> & ?). simpl. lia. }
  split; [|split; [|done]]; split.
  - apply jset_wf, Ho.
  - apply sadd_NoDup, Ho.
  - intros k'. unfold c'; cbn [entries expiryOrder]. rewrite elem_of_sadd, (o_same _ Ho), jkeys_set.
    apply jhas_false in Hk. rewrite Hk, elem_of_app, list_elem_of_singleton. tauto.
  - unfold c'; cbn [entries currentSizeBytes]. rewrite He, (o_bytes _ Ho). unfold totalBytes. rewrite foldr_app. cbn.
    rewrite Z.add_0_r. fold (totalBytes (entries c)).
    assert (Hf : ∀ l : JsMap K CacheEntry, ∀ z, foldr (λ e0 acc, entryBytes e0.2 + acc) z l = foldr (λ e0 acc, entryBytes e0.2 + acc) 0 l + z).
    { induction l as [|x l IH]; intros z; cbn; [lia|]. rewrite IH. lia. }
    rewrite (Hf _ (entryBytes e)). done.
  - intros t. rewrite Htimes, elem_of_app, list_elem_of_singleton. intros Ht. exists (maxOpt (newestCreatedAt c) now). split; [done|].
    destruct Ht as [Ht| ->]; [by apply Hmax|]. destruct (newestCreatedAt c); simpl; lia.
  - rewrite Htimes. unfold c'; cbn [expiryOrderMayBeOutOfOrder]. destruct (ltOpt now (newestCreatedAt c)) eqn:El; [done|].
    intros Hf. apply StronglySorted_snoc; [by apply (o_sorted _ Ho)|]. intros t Ht.
    destruct (o_newest _ Ho t Ht) as (m & Em & ?). rewrite Em in El. simpl in El. apply bool_decide_eq_false_1 in El. lia.
  - intros k' e'. unfold c'; cbn [entries]. rewrite He, elem_of_app, list_elem_of_singleton.
    intros [Hin|[= -> ->]]; [by eapply (b_sizes _ Hb)|]. unfold entryBytes, e; simpl. destruct bytes as [b|]; simpl; [by apply Hpos|lia].
  - intros n E. destruct (Hn n E). unfold size in *. unfold c'; cbn [entries]. rewrite He, length_app. simpl. lia.
  - intros m E. apply Hm, E.
Qed.

Lemma drop_keys (n : nat) es k : k ∉ jkeys es → k ∉ jkeys (drop n es).
Proof.
  intros Hk Hin. apply Hk. unfold jkeys in *. rewrite <- (take_drop n es), fmap_app, elem_of_app. by right.
Qed.

(** What [set] leaves: the live entries of the other keys, less the [n] least
    recently used, then the new entry. *)
Lemma set_spec c now k v bytes :
  cache_inv c → (∀ b, bytes = Some b → 0 ≤ b) → isOversizedValue bytes = false →
  cache_inv (set c now k v bytes) ∧
  ∃ n, entries (set c now k v bytes) =
    drop n (filter (is_live now) (jdel k (entries c))) ++ (if cachingDisabled then [] else [(k, mkEntry v now bytes)]).
Proof.
  intros Hi Hpos Hov. unfold set. rewrite Hov.
  set (c1 := if jhas k (entries c) then removeEntry c k else c).
  assert (H1 : ordered c1 ∧ within_budget c1 ∧ entries c1 = jdel k (entries c)).
  { destruct Hi as (Ho & Hb & _). unfold c1. destruct (jhas k (entries c)) eqn:Eh.
    - split_and!; [by apply removeEntry_ordered|by apply removeEntry_budget|apply removeEntry_entries].
    - split_and!; [done|done|]. symmetry. by apply jdel_notin, jhas_false. }
  destruct H1 as (Ho1 & Hb1 & He1).
  pose proof (sweep_spec_core c1 now Ho1 Hb1) as H2. destruct (sweepExpiredPrefix c1 now) as [c2 ev]. simpl fst.
  destruct H2 as (Ho2 & Hb2 & He2 & Hn2 & Hs2). rewrite He1 in He2.
  destruct (evictForCapacity_spec c2 bytes Ho2 Hb2 Hov Hpos) as (Ho3 & Hb3 & (n & He3) & Hn & Hm).
  set (c3 := evictForCapacity c2 bytes) in *. rewrite He2 in He3.
  assert (Hk : k ∉ jkeys (entries c3)).
  { rewrite He3. apply drop_keys. unfold jkeys, jdel. intros (e & -> & [_ [Hne _]%list_elem_of_filter]%list_elem_of_filter)%list_elem_of_fmap. done. }
  destruct cachingDisabled eqn:Hdis.
  - split; [|exists n; by rewrite app_nil_r]. split; [done|]. split; [done|].
    unfold cachingDisabled in Hdis. destruct (maxEntries options) as [mx|] eqn:Emx; [|done]. apply bool_decide_eq_true_1 in Hdis.
    destruct Hi as (Ho & Hb & Hst).
    assert (Hnil : entries c = []).
    { pose proof (b_entries _ Hb mx Emx) as Hle. apply dec_stable. rewrite <- size_pos. lia. }
    assert (Ec1 : c1 = c) by (unfold c1; by rewrite Hnil).
    assert (Hnil2 : entries c2 = []) by (rewrite He2, Hnil; done).
    assert (c3 = c2) as -> by (unfold c3, evictForCapacity; rewrite Hnil2; destruct bytes, (maxSizeBytes options); simpl; by rewrite ?Hnil2).
    rewrite Hs2, Ec1, Hst. case_bool_decide; [done|]. unfold size. by rewrite Hnil, Hnil2.
  - assert (Hn' : ∀ mx, maxEntries options = Some mx → 0 < mx ∧ size c3 < mx).
    { intros mx E. unfold cachingDisabled in Hdis. rewrite E in Hdis. apply bool_decide_eq_false_1 in Hdis. split; [lia|]. apply Hn; [done|lia]. }
    destruct (store_inv c3 now k v bytes Ho3 Hb3 Hk Hpos Hn' Hm) as (Ho4 & Hb4 & He4).
    split; [by apply updateSizeStats_inv|]. exists n. cbn. cbn in He4. by rewrite He4, He3.
Qed.

Lemma removeEntry_inv c k : ordered c → within_budget c → cache_inv (updateSizeStats (removeEntry c k)).
Proof. intros Ho Hb. apply updateSizeStats_inv; [by apply removeEntry_ordered|by apply removeEntry_budget]. Qed.

Lemma get_inv c now k : cache_inv c → cache_inv (get c now k).1.
Proof.
  intros (Ho & Hb & Hst). unfold get. destruct (jget k (entries c)) as [e|] eqn:Eg.
  2:{ split; [by apply ordered_stats|]. split; [by apply budget_stats|done]. }
  destruct (expired now e); simpl fst.
  { apply updateSizeStats_inv; [by apply ordered_stats, ordered_stats, removeEntry_ordered|].
    by apply budget_stats, budget_stats, removeEntry_budget. }
  assert (Hk : k ∉ jkeys (jdel k (entries c))) by (rewrite jkeys_del, elem_of_sdel; tauto).
  assert (Hset : jset k e (jdel k (entries c)) = jdel k (entries c) ++ [(k, e)]).
  { unfold jset. apply jhas_false in Hk. by rewrite Hk. }
  assert (Hget : ∀ k', jget k' (jset k e (jdel k (entries c))) = jget k' (entries c)).
  { intros k'. rewrite jget_set, jget_del. by case_decide; subst. }
  assert (Hperm : jset k e (jdel k (entries c)) ≡ₚ entries c).
  { rewrite Hset. apply jget_in in Eg as Hin. apply list_elem_of_split in Hin as (a & b & E).
    pose proof (o_wf _ Ho) as Hwf. rewrite E in Hwf |- *. rewrite jdel_middle by done. rewrite <- app_assoc.
    rewrite (Permutation_app_comm b [(k, e)]). done. }
  split; [|split]; [split| split |].
  - simpl. apply jset_wf, jdel_wf, Ho.
  - apply Ho.
  - intros k'. simpl. rewrite (o_same _ Ho). unfold jkeys. by rewrite Hperm.
  - simpl. rewrite (o_bytes _ Ho). unfold totalBytes. symmetry.
    apply (foldr_permutation_proper (=) (λ (e0 : K * CacheEntry) acc, entryBytes e0.2 + acc) 0); [intros; lia|done].
  - simpl. intros t. rewrite (times_ext _ (entries c)) by (intros; apply Hget). apply (o_newest _ Ho).
  - simpl. rewrite (times_ext _ (entries c)) by (intros; apply Hget). apply (o_sorted _ Ho).
  - intros k' e'. simpl. rewrite Hperm. apply (b_sizes _ Hb).
  - intros n Hn. unfold size. simpl. rewrite Hperm. by apply (b_entries _ Hb).
  - apply (b_bytes _ Hb).
  - simpl. rewrite Hst. unfold size. simpl. by rewrite Hperm.
Qed.

Inductive Op := OpGet (k : K) | OpHas (k : K) | OpSet (k : K) (v : V) (bytes : option Z) | OpDelete (k : K) | OpClear | OpCleanup.

(** One operation at the timer reading [now]. *)
Definition applyOp (c : cache) (now : Z) (op : Op) : cache :=
  match op with
  | OpGet k => (get c now k).1
  | OpHas k => (has c now k).1
  | OpSet k v bytes => set c now k v bytes
  | OpDelete k => (delete c k).1
  | OpClear => clear c
  | OpCleanup => (cleanup c now).1
  end.
Definition runOps (ops : list (Z * Op)) : cache := foldl (λ c o, applyOp c o.1 o.2) new_cache ops.

(** Sizes are never negative. *)
Definition sizes_ok (ops : list (Z * Op)) : Prop :=
  Forall (λ o, match o.2 with OpSet _ _ (Some b) => 0 ≤ b | _ => True end) ops.

Lemma new_cache_inv : cache_inv new_cache.
Proof.
  split; [split|split; [split|done]].
  - constructor.
  - constructor.
  - done.
  - done.
  - intros t Ht. by apply elem_of_nil in Ht.
  - intros _. constructor.
  - intros k e He. by apply elem_of_nil in He.
  - intros n _. unfold size. simpl. lia.
  - intros m _. simpl. lia.
Qed.

Lemma applyOp_inv c now op :
  cache_inv c → match op with OpSet _ _ (Some b) => 0 ≤ b | _ => True end → cache_inv (applyOp c now op).
Proof.
  intros Hi Hop. destruct op as [k|k|k v bytes|k| |]; simpl.
  - by apply get_inv.
  - unfold has. destruct (jget k (entries c)) as [e|]; [|done]. destruct (expired now e); [|done]. simpl.
    destruct Hi as (Ho & Hb & _). apply updateSizeStats_inv; [by apply ordered_stats, removeEntry_ordered|].
    by apply budget_stats, removeEntry_budget.
  - destruct (isOversizedValue bytes) eqn:Hov; [unfold set; by rewrite Hov|].
    apply set_spec; [done| |done]. intros b ->. done.
  - unfold delete. destruct (jhas k (entries c)); [|done]. destruct Hi as (Ho & Hb & _). by apply removeEntry_inv.
  - destruct new_cache_inv as (Ho & Hb & _). apply updateSizeStats_inv; [by apply (ordered_stats new_cache)|by apply (budget_stats new_cache)].
  - unfold cleanup. pose proof (sweep_spec c now Hi) as H. destruct (sweepExpiredPrefix c now). by destruct H.
Qed.

Lemma runOps_snoc ops o : runOps (ops ++ [o]) = applyOp (runOps ops) o.1 o.2.
Proof. unfold runOps. by rewrite foldl_app. Qed.

Lemma runOps_inv ops : sizes_ok ops → cache_inv (runOps ops).
Proof.
  induction ops as [|o ops IH] using rev_ind; intros Hs; [apply new_cache_inv|].
  apply Forall_app in Hs as [Hs Ho]. inversion Ho; subst. rewrite runOps_snoc. by apply applyOp_inv; [apply IH|].
Qed.

(** ** The specification: the last value stored per key *)

Definition Written : Type := K → option (V * Z).
Definition writtenBy (w : Written) (now : Z) (op : Op) : Written :=
  match op with
  | OpSet k v bytes =>
      if isOversizedValue bytes then w
      else λ k', if decide (k' = k) then (if cachingDisabled then None else Some (v, now)) else w k'
  | OpDelete k => λ k', if decide (k' = k) then None else w k'
  | OpClear => λ _, None
  | _ => w
  end.
Definition written (ops : list (Z * Op)) : Written := foldl (λ w o, writtenBy w o.1 o.2) (λ _, None) ops.

Lemma removed_in c k k' e : jget k' (entries (removeEntry c k)) = Some e → jget k' (entries c) = Some e ∧ k' ≠ k.
Proof. rewrite removeEntry_entries, jget_del. case_decide; [done|]. intros; split; [done|congruence]. Qed.

Lemma drop_in {A} n (l : list A) x : x ∈ drop n l → x ∈ l.
Proof. intros H. rewrite <- (take_drop n l), elem_of_app. by right. Qed.

(** Every entry is the last value stored for its key. *)
Lemma runOps_written ops k e :
  sizes_ok ops → jget k (entries (runOps ops)) = Some e → written ops k = Some (value e, createdAt e).
Proof.
  revert k e; induction ops as [|[now op] ops IH] using rev_ind; intros k e Hs; [unfold runOps; simpl; by rewrite jget_nil|].
  apply Forall_app in Hs as [Hs Hop]. pose proof (runOps_inv ops Hs) as Hi. specialize (IH k e Hs).
  rewrite runOps_snoc. unfold written. rewrite foldl_app. simpl. fold (written ops).
  set (c := runOps ops) in *. inversion Hop as [|? ? Hb _]; subst. simpl in Hb.
  destruct op as [k'|k'|k' v bytes|k'| |]; simpl.
  - unfold get. destruct (jget k' (entries c)) as [e'|] eqn:Eg; [|done]. destruct (expired now e').
    + by intros [? _]%removed_in; auto.
    + simpl. rewrite jget_set, jget_del. case_decide; [|done]. subst. rewrite <- Eg. done.
  - unfold has. destruct (jget k' (entries c)) as [e'|] eqn:Eg; [|done]. destruct (expired now e'); [|done].
    intros [? _]%removed_in. auto.
  - destruct (isOversizedValue bytes) eqn:Hov; [unfold set; by rewrite Hov|].
    destruct (set_spec c now k' v bytes Hi) as (Hi' & n & E); [by intros b ->|done|].
    intros Hg%jget_in. rewrite E, elem_of_app in Hg. destruct Hg as [[_ [Hne Hin]%in_jdel]%drop_in%list_elem_of_filter|Hin].
    + rewrite decide_False by congruence. apply IH. by apply jget_wf_in; [apply Hi|].
    + destruct cachingDisabled; [by apply elem_of_nil in Hin|]. apply list_elem_of_singleton in Hin as [= -> ->].
      by rewrite decide_True.
  - unfold delete. destruct (jhas k' (entries c)) eqn:Eh.
    + intros [? ?]%removed_in. rewrite decide_False by done. auto.
    + intros Hg. destruct (decide (k = k')) as [->|]; [|auto]. rewrite jhas_get in Eh. simpl in Hg. by rewrite Hg in Eh.
  - by rewrite jget_nil.
  - pose proof (sweep_spec c now Hi) as H. unfold cleanup. destruct (sweepExpiredPrefix c now) as [c' n]. simpl.
    destruct H as (Hi' & E & _). rewrite E. intros [_ Hin]%jget_in%list_elem_of_filter. apply IH. by apply jget_wf_in; [apply Hi|].
Qed.

(** The cache keeps its budgets and its bookkeeping under every sequence of
    operations, whatever the clock does: never more than [maxEntries] entries nor
    [maxSizeBytes] bytes, the byte total and the size statistic are those of the
    entries, and the recency and expiry orderings hold the same keys. *)
Theorem cache_within_budget (ops : list (Z * Op)) :
  sizes_ok ops →
  let c := runOps ops in
  (∀ n, maxEntries options = Some n → size c ≤ Z.max 0 n) ∧
  (∀ m, maxSizeBytes options = Some m → getCurrentSizeBytes c ≤ Z.max 0 m) ∧
  getCurrentSizeBytes c = totalBytes (entries c) ∧ stat_size (getStats c) = size c ∧
  NoDup (keys c) ∧ (∀ k, k ∈ expiryOrder c ↔ k ∈ keys c).
Proof.
  intros Hs c. destruct (runOps_inv ops Hs) as (Ho & Hb & Hst).
  split_and!; [apply (b_entries _ Hb)|apply (b_bytes _ Hb)|apply (o_bytes _ Ho)|done|apply (o_wf _ Ho)|apply (o_same _ Ho)].
Qed.

(** No stale value: what [get] returns is the last value stored for that key
    (not deleted, cleared or replaced since), and is younger than the time to
    live at the reading of the clock. *)
Theorem get_never_stale (ops : list (Z * Op)) (now : Z) (k : K) (v : V) :
  sizes_ok ops → (get (runOps ops) now k).2 = Some v →
  ∃ t, written ops k = Some (v, t) ∧ now - t < ttlMs options.
Proof.
  intros Hs. unfold get. destruct (jget k (entries (runOps ops))) as [e|] eqn:Eg; [|done].
  destruct (expired now e) eqn:Ee; [done|]. intros [= <-]. exists (createdAt e). split; [by apply runOps_written|].
  unfold expired in Ee. apply bool_decide_eq_false_1 in Ee. lia.
Qed.

(** C39. The bounded expiry sweep is exact: though it stops at the first live entry
    while the clock never went back, it removes all the expired entries and
    nothing else, keeps the others in recency order, and returns their number. *)
Theorem sweep_removes_exactly_expired (ops : list (Z * Op)) (now : Z) :
  sizes_ok ops →
  let c' := (cleanup (runOps ops) now).1 in
  entries c' = filter (is_live now) (entries (runOps ops)) ∧
  (cleanup (runOps ops) now).2 = size (runOps ops) - size c'.
Proof.
  intros Hs. pose proof (sweep_spec (runOps ops) now (runOps_inv ops Hs)) as H. unfold cleanup.
  destruct (sweepExpiredPrefix (runOps ops) now) as [c' n]. by destruct H as (_ & H).
Qed.

(** Storing a value: unless the value alone exceeds the byte budget or caching
    is disabled, [set] drops the expired entries and then only a prefix of the
    recency order (the least recently used), the new value is last, and [get]
    returns it until its time to live is over. *)
Theorem set_evicts_least_recent (ops : list (Z * Op)) (now now' : Z) (k : K) (v : V) (bytes : option Z) :
  sizes_ok ops → (∀ b, bytes = Some b → 0 ≤ b) → isOversizedValue bytes = false → cachingDisabled = false →
  now' - now < ttlMs options →
  let c' := set (runOps ops) now k v bytes in
  (∃ n, entries c' = drop n (filter (is_live now) (jdel k (entries (runOps ops)))) ++ [(k, mkEntry v now bytes)]) ∧
  (get c' now' k).2 = Some v.
Proof.
  intros Hs Hpos Hov Hdis Hlt c'. destruct (set_spec (runOps ops) now k v bytes (runOps_inv ops Hs) Hpos Hov) as (Hi & n & E).
  rewrite Hdis in E. split; [by exists n|]. unfold get.
  assert (jget k (entries c') = Some (mkEntry v now bytes)) as ->.
  { apply jget_wf_in; [apply Hi|]. unfold c'. rewrite E, elem_of_app. right. left. }
  unfold expired. simpl. by rewrite bool_decide_eq_false_2 by lia.
Qed.
End Cache.
Arguments CacheEntry : clear implicits.
Arguments TTLCache : clear implicits.

(** *** Concrete runs *)

Definition tiny : CacheOptions := mkOptions 10 (Some 2) (Some 100).
(** A third key evicts [b], which was used least recently; the clock goes back
    before the last store. *)
Definition session_ops : list (Z * Op (K := string) (V := nat)) :=
  [(5, OpSet "a"%string 1%nat (Some 40)); (6, OpSet "b"%string 2%nat (Some 30)); (7, OpGet "a"%string);
   (4, OpSet "c"%string 3%nat (Some 20))].

Example session_keys : keys (runOps tiny session_ops) = ["a"; "c"]%string.
Proof. vm_compute. reflexivity. Qed.

Lemma session_sizes : sizes_ok session_ops.
Proof. repeat constructor; simpl; lia. Defined.

Lemma cache_within_budget_witness :
  sizes_ok session_ops ∧ getCurrentSizeBytes (runOps tiny session_ops) = totalBytes (entries (runOps tiny session_ops)).
Proof. split; [exact session_sizes|]. exact (proj1 (proj2 (proj2 (cache_within_budget tiny session_ops session_sizes)))). Defined.

Lemma get_never_stale_witness :
  (get tiny (runOps tiny session_ops) 8 "a"%string).2 = Some 1%nat ∧
  ∃ t, written tiny session_ops "a"%string = Some (1%nat, t) ∧ 8 - t < 10.
Proof. split; [vm_compute; reflexivity|]. apply (get_never_stale tiny session_ops 8 "a"%string 1%nat session_sizes). vm_compute. reflexivity. Defined.

Lemma sweep_removes_exactly_expired_witness :
  keys (cleanup tiny (runOps tiny session_ops) 14).1 = ["a"]%string ∧
  (cleanup tiny (runOps tiny session_ops) 14).2 =
    size (runOps tiny session_ops) - size (cleanup tiny (runOps tiny session_ops) 14).1.
Proof.
  split; [vm_compute; reflexivity|]. exact (proj2 (sweep_removes_exactly_expired tiny session_ops 14 session_sizes)).
Defined.

Lemma set_evicts_least_recent_witness :
  (get tiny (set tiny (runOps tiny session_ops) 8 "d"%string 4%nat (Some 10)) 9 "d"%string).2 = Some 4%nat.
Proof.
  refine (proj2 (set_evicts_least_recent tiny session_ops 8 9 "d"%string 4%nat (Some 10) session_sizes _ _ _ _)).
  - intros b [= <-]. lia.
  - vm_compute. reflexivity.
  - vm_compute. reflexivity.
  - vm_compute. reflexivity.
Defined.
