(* ===== verification/HierarchyDiff.v ===== *)
(** * The per-frame hierarchy diff of the observation stream

    [src/src/daemon/hierarchyStreamDiff.ts]: the comparison of two view
    hierarchies by tree position, the marks it stamps and the counts it reports.
    A hierarchy is a tree of values (it is a deep clone of parsed JSON, so no
    node is shared), and [walk] returns the marked tree. *)
From S2P Require Import Prelude JsString JsMap.
Local Open Scope nat_scope.

(** ** Data *)

(** The attribute values; a number is carried as the text [String] gives it. *)
Inductive JsValue :=
| JsUndefined | JsNull | JsBool (b : bool) | JsNumber (text : string) | JsStr (s : string)
| JsArray (l : list JsValue) | JsObject (fields : list (string * JsValue)).
Abbreviation Attributes := (JsMap string JsValue).

(** [String(value)]; an array joins its elements, the missing ones empty. *)
Fixpoint js_String (v : JsValue) : string :=
  match v with
  | JsUndefined => "undefined" | JsNull => "null"
  | JsBool b => if b then "true" else "false"
  | JsNumber t => t | JsStr s => s
  | JsArray l => String.concat "," ((λ v, match v with JsUndefined | JsNull => "" | _ => js_String v end) <$> l)
  | JsObject _ => "[object Object]"
  end.

Definition js_truthy (v : JsValue) : bool :=
  match v with
  | JsUndefined | JsNull => false
  | JsBool b => b
  | JsNumber t => negb (bool_decide (t = "0") || bool_decide (t = "NaN"))
  | JsStr s => truthy s
  | JsArray _ | JsObject _ => true
  end.

(** [v ?? ""], then the conversion of a template literal. *)
Definition js_or_empty (v : option JsValue) : string :=
  match v with None | Some JsUndefined | Some JsNull => "" | Some v => js_String v end.

(** A node's [$] and [node] fields may be absent or [null]; [node] is an array, or
    an object standing for a single child. *)
Inductive Dollar := DollarAbsent | DollarNull | DollarObject (attrs : Attributes).
Inductive Kids (A : Type) := NoKids | NullKids | KidArray (l : list A) | KidObject (a : A).
Arguments NoKids {A}.
Arguments NullKids {A}.
Arguments KidArray {A} l.
Arguments KidObject {A} a.

(** [others] are the fields the diff does not read. *)
Inductive Node := mkNode {
  dollar : Dollar; bounds : option JsValue; others : list (string * JsValue); node : Kids Node }.

Record HierarchyDiffSummary := mkSummary { hasBaseline : bool; added : nat; changed : nat; removed : nat }.

Definition HIERARCHY_DIFF_STATE_KEY : string := "diffState".

(** The marks, as attribute values. *)
Inductive HierarchyNodeDiffState := Added | Changed.
Definition state_value (s : HierarchyNodeDiffState) : JsValue :=
  match s with Added => JsStr "added" | Changed => JsStr "changed" end.

(** ** Signatures *)

Definition boundsSignature (value : option JsValue) : string :=
  match value with
  | None | Some JsUndefined | Some JsNull => ""
  | Some (JsObject fields) =>
      js_or_empty (jget "left" fields) +:+ "," +:+ js_or_empty (jget "top" fields) +:+ "," +:+
      js_or_empty (jget "right" fields) +:+ "," +:+ js_or_empty (jget "bottom" fields)
  | Some v => js_String v
  end.

Definition node_attrs (n : Node) : Attributes :=
  match dollar n with DollarObject attrs => attrs | _ => [] end.

(** [get]: the first of the keys that has a value. *)
Fixpoint get (attrs : Attributes) (keys : list string) : string :=
  match keys with
  | [] => ""
  | key :: keys' =>
      match jget key attrs with
      | None | Some JsUndefined | Some JsNull => get attrs keys'
      | Some v => js_String v
      end
  end.

(** The character U+0000 that joins the compared values. *)
Definition NUL : string := String (Ascii.ascii_of_nat 0) EmptyString.

Definition nodeSignature (n : Node) : string :=
  let attrs := node_attrs n in
  let boundsSig :=
    match bounds n with
    | Some b => if js_truthy b then boundsSignature (Some b) else boundsSignature (jget "bounds" attrs)
    | None => boundsSignature (jget "bounds" attrs)
    end in
  String.concat NUL
    [get attrs ["class"; "className"]; get attrs ["text"]; get attrs ["resource-id"; "resourceId"];
     get attrs ["content-desc"; "contentDesc"]; boundsSig; get attrs ["clickable"]; get attrs ["enabled"];
     get attrs ["focused"]; get attrs ["selected"]; get attrs ["checked"]; get attrs ["scrollable"]].

(** ** Children and marks *)

(** [Object.keys(kids).length > 0] fails. *)
Definition isEmptyObject (n : Node) : bool :=
  match n with mkNode DollarAbsent None [] NoKids => true | _ => false end.

Definition children (n : Node) : list Node :=
  match node n with
  | NoKids | NullKids => []
  | KidArray l => l
  | KidObject k => if isEmptyObject k then [] else [k]
  end.

Definition markState (n : Node) (state : HierarchyNodeDiffState) : Node :=
  mkNode (DollarObject (jset HIERARCHY_DIFF_STATE_KEY (state_value state) (node_attrs n)))
    (bounds n) (others n) (node n).

(** The children of [n] put back where they came from. *)
Definition withChildren (n : Node) (l : list Node) : Node :=
  mkNode (dollar n) (bounds n) (others n)
    match node n, l with
    | KidArray _, _ => KidArray l
    | KidObject _, k :: _ => KidObject k
    | kids, _ => kids
    end.

(** The loop of [markSubtreeAdded] over the children. *)
Definition markAll (mark : Node → Node * nat) : list Node → list Node * nat :=
  fix go cs :=
    match cs with
    | [] => ([], 0)
    | c :: cs' => let '(c', n) := mark c in let '(cs'', m) := go cs' in (c' :: cs'', n + m)
    end.

Fixpoint markSubtreeAdded (n : Node) : Node * nat :=
  let marked := markState n Added in
  let '(l, count) :=
    match n with
    | mkNode _ _ _ (KidArray l) => markAll markSubtreeAdded l
    | mkNode _ _ _ (KidObject k) =>
        if isEmptyObject k then ([], 0) else let '(k', m) := markSubtreeAdded k in ([k'], m)
    | _ => ([], 0)
    end in
  (withChildren marked l, 1 + count).

Fixpoint countSubtree (n : Node) : nat :=
  1 + match n with
      | mkNode _ _ _ (KidArray l) => sum_list_with countSubtree l
      | mkNode _ _ _ (KidObject k) => if isEmptyObject k then 0 else countSubtree k
      | _ => 0
      end.

(** ** The walk *)

Definition addAdded (s : HierarchyDiffSummary) (k : nat) : HierarchyDiffSummary :=
  mkSummary (hasBaseline s) (added s + k) (changed s) (removed s).
Definition addChanged (s : HierarchyDiffSummary) : HierarchyDiffSummary :=
  mkSummary (hasBaseline s) (added s) (changed s + 1) (removed s).
Definition addRemoved (s : HierarchyDiffSummary) (k : nat) : HierarchyDiffSummary :=
  mkSummary (hasBaseline s) (added s) (changed s) (removed s + k).

(** The loop over the current children, then the previous children left over. *)
Definition walkAll (walk : Node → Node → HierarchyDiffSummary → Node * HierarchyDiffSummary) :
    list Node → list Node → HierarchyDiffSummary → list Node * HierarchyDiffSummary :=
  fix go ps cs s {struct cs} :=
    match cs with
    | [] => ([], foldl (λ s p, addRemoved s (countSubtree p)) s ps)
    | c :: cs' =>
        match ps with
        | p :: ps' =>
            let '(c', s) := walk p c s in let '(cs'', s) := go ps' cs' s in (c' :: cs'', s)
        | [] =>
            let '(c', k) := markSubtreeAdded c in
            let '(cs'', s) := go [] cs' (addAdded s k) in (c' :: cs'', s)
        end
    end.

Fixpoint walk (previous current : Node) (s : HierarchyDiffSummary) {struct current} :
    Node * HierarchyDiffSummary :=
  let differs := negb (bool_decide (nodeSignature previous = nodeSignature current)) in
  let marked := if differs then markState current Changed else current in
  let s := if differs then addChanged s else s in
  let '(l, s) :=
    match current with
    | mkNode _ _ _ (KidArray l) => walkAll walk (children previous) l s
    | mkNode _ _ _ (KidObject k) =>
        if isEmptyObject k then walkAll (λ _ c s, (c, s)) (children previous) [] s
        else match children previous with
             | [] => let '(k', m) := markSubtreeAdded k in ([k'], addAdded s m)
             | p :: ps =>
                 let '(k', s) := walk p k s in
                 ([k'], foldl (λ s p, addRemoved s (countSubtree p)) s ps)
             end
    | _ => walkAll (λ _ c s, (c, s)) (children previous) [] s
    end in
  (withChildren marked l, s).

(** A hierarchy result: its root node, when there is one (the rest of the result is
    cloned unchanged). *)
Definition annotateHierarchyDiff (previous : option (option Node)) (current : option Node) :
    option Node * HierarchyDiffSummary :=
  match mjoin previous, current with
  | Some previousRoot, Some currentRoot =>
      let '(root, s) := walk previousRoot currentRoot (mkSummary true 0 0 0) in (Some root, s)
  | _, _ => (current, mkSummary false 0 0 0)
  end.

Definition leaf (cls : string) : Node := mkNode (DollarObject [("class", JsStr cls)]) None [] NoKids.
Definition demo_previous : Node :=
  mkNode (DollarObject [("class", JsStr "Root")]) None [] (KidArray [leaf "A"; leaf "B"; leaf "C"]).
Definition demo_current : Node :=
  mkNode (DollarObject [("class", JsStr "Root")]) None []
    (KidArray [leaf "A"; mkNode (DollarObject [("class", JsStr "X")]) None [] (KidObject (leaf "Y"))]).
Example demo_diff :
  (annotateHierarchyDiff (Some (Some demo_previous)) (Some demo_current)).2 = mkSummary true 1 1 1.
Proof. vm_compute. reflexivity. Qed.

(** ** The recursions go over [children] *)

Lemma markSubtreeAdded_children n :
  markSubtreeAdded n =
    let '(l, count) := markAll markSubtreeAdded (children n) in (withChildren (markState n Added) l, 1 + count).
Proof.
  destruct n as [d b o [| |l|k]]; try done. unfold children. simpl. destruct (isEmptyObject k); [done|]. simpl.
  destruct (markSubtreeAdded k) as [k' m]. by rewrite Nat.add_0_r.
Qed.

Lemma countSubtree_children n : countSubtree n = 1 + sum_list_with countSubtree (children n).
Proof.
  destruct n as [d b o [| |l|k]]; try done. unfold children. simpl.
  destruct (isEmptyObject k); simpl; by rewrite ?Nat.add_0_r.
Qed.

Lemma walk_children p c s :
  walk p c s =
    let differs := negb (bool_decide (nodeSignature p = nodeSignature c)) in
    let '(l, s) := walkAll walk (children p) (children c) (if differs then addChanged s else s) in
    (withChildren (if differs then markState c Changed else c) l, s).
Proof.
  destruct c as [d b o [| |l|k]]; try done. unfold children at 2. simpl.
  destruct (isEmptyObject k); [done|]. simpl.
  destruct (children p) as [|p' ps]; simpl; [by destruct (markSubtreeAdded k)|].
  by destruct (walk p' k _).
Qed.

(** Induction on a tree through [children]. *)
Lemma node_children_ind (P : Node → Prop) : (∀ n, Forall P (children n) → P n) → ∀ n, P n.
Proof.
  intros H. fix IH 1. intros [d b o kids]. apply H. unfold children. simpl. destruct kids as [| |l|k].
  - constructor.
  - constructor.
  - induction l as [|c l IHl]; constructor; [apply IH|exact IHl].
  - destruct (isEmptyObject k); repeat constructor. apply IH.
Qed.

(** Marking and walking keep the shape of a node. *)
Lemma isEmptyObject_withChildren n l : isEmptyObject (withChildren n l) = isEmptyObject n.
Proof. destruct n as [[] [] [] []], l; done. Qed.

Lemma isEmptyObject_markState n st : isEmptyObject (markState n st) = false.
Proof. done. Qed.

Lemma isEmptyObject_mark n : isEmptyObject (markSubtreeAdded n).1 = false.
Proof.
  rewrite markSubtreeAdded_children. destruct (markAll _ _). simpl fst.
  by rewrite isEmptyObject_withChildren.
Qed.

Lemma isEmptyObject_walk p c s : isEmptyObject c = false → isEmptyObject (walk p c s).1 = false.
Proof.
  intros Hc. rewrite walk_children. cbv zeta. destruct (walkAll _ _ _ _). simpl fst.
  rewrite isEmptyObject_withChildren. by destruct (negb _).
Qed.

(** The children put back are the children read. *)
Lemma children_withChildren n l :
  length l = length (children n) →
  (∀ k k', node n = KidObject k → isEmptyObject k = false → l = [k'] → isEmptyObject k' = false) →
  children (withChildren n l) = l.
Proof.
  intros Hl Hk. destruct n as [d b o [| |l0|k]]; unfold children in *; simpl in *.
  - by apply nil_length_inv in Hl.
  - by apply nil_length_inv in Hl.
  - by destruct l.
  - destruct (isEmptyObject k) eqn:Ek.
    + apply nil_length_inv in Hl as ->. simpl. by rewrite Ek.
    + destruct l as [|k' [|? ?]]; try done. simpl. by rewrite (Hk k k').
Qed.

(** ** Positions *)

(** The node at a path of child indices. *)
Fixpoint node_at (n : Node) (path : list nat) : option Node :=
  match path with
  | [] => Some n
  | i :: path' => match children n !! i with Some c => node_at c path' | None => None end
  end.
Definition forest_at (l : list Node) (path : list nat) : option Node :=
  match path with
  | [] => None
  | i :: path' => match l !! i with Some c => node_at c path' | None => None end
  end.

(** All the paths of a tree. *)
Definition next_sibling (path : list nat) : list nat :=
  match path with [] => [] | i :: path' => S i :: path' end.
Definition forest_paths_of (paths : Node → list (list nat)) : list Node → list (list nat) :=
  fix go l := match l with [] => [] | c :: l' => (cons 0 <$> paths c) ++ (next_sibling <$> go l') end.
Fixpoint paths (n : Node) : list (list nat) :=
  [] :: match n with
        | mkNode _ _ _ (KidArray l) => forest_paths_of paths l
        | mkNode _ _ _ (KidObject k) => if isEmptyObject k then [] else forest_paths_of (λ _, paths k) [k]
        | _ => []
        end.
Definition forest_paths : list Node → list (list nat) := forest_paths_of paths.

Lemma paths_children n : paths n = [] :: forest_paths (children n).
Proof.
  destruct n as [d b o [| |l|k]]; try done. unfold children, forest_paths. simpl.
  by destruct (isEmptyObject k).
Qed.

(** The list of paths is faithful: every position once. *)
Lemma elem_of_forest_paths l path :
  Forall (λ n, ∀ path, path ∈ paths n ↔ is_Some (node_at n path)) l →
  path ∈ forest_paths l ↔ is_Some (forest_at l path).
Proof.
  intros Hl. revert path. induction Hl as [|c l Hc Hl IH]; intros path.
  - simpl. split; [by intros ?%elem_of_nil|]. destruct path; simpl; by intros [? ?].
  - change (forest_paths (c :: l)) with ((cons 0 <$> paths c) ++ (next_sibling <$> forest_paths l)).
    rewrite elem_of_app, !list_elem_of_fmap. split.
    + intros [(q & -> & Hq)|(q & -> & Hq)]; [by apply Hc in Hq|]. apply IH in Hq.
      destruct q as [|i q]; [by destruct Hq|done].
    + destruct path as [|[|i] path]; simpl.
      * by intros [? ?].
      * intros Hs%Hc. left. eauto.
      * intros Hs. right. exists (i :: path). split; [done|by apply IH].
Qed.

Lemma elem_of_paths n path : path ∈ paths n ↔ is_Some (node_at n path).
Proof.
  revert path. induction n as [n Hn] using node_children_ind. intros path.
  rewrite paths_children, elem_of_cons, elem_of_forest_paths by done. destruct path as [|i path]; simpl.
  - split; [eauto|by left].
  - split; [by intros [?|?]|by right].
Qed.

Lemma paths_NoDup n : NoDup (paths n).
Proof.
  induction n as [n Hn] using node_children_ind. rewrite paths_children. constructor.
  - rewrite elem_of_forest_paths; [by intros [? ?]|]. apply List.Forall_forall. intros; apply elem_of_paths.
  - induction Hn as [|c l Hc _ IH]; [constructor|].
    change (forest_paths (c :: l)) with ((cons 0 <$> paths c) ++ (next_sibling <$> forest_paths l)).
    assert (∀ q, q ∈ forest_paths l → ∃ i q', q = i :: q') as Hne.
    { intros q Hq. apply elem_of_forest_paths in Hq; [|apply List.Forall_forall; intros; apply elem_of_paths].
      destruct q as [|i q]; [by destruct Hq|eauto]. }
    apply list.NoDup_app. split_and!.
    + apply NoDup_fmap_2; [|done]. by intros ? ? [= ?].
    + intros q (q1 & -> & _)%list_elem_of_fmap (q2 & E & Hq2)%list_elem_of_fmap.
      destruct (Hne _ Hq2) as (i & q' & ->). done.
    + apply NoDup_fmap_2_strong; [|done]. intros q1 q2 H1 H2 E.
      destruct (Hne _ H1) as (i1 & q1' & ->), (Hne _ H2) as (i2 & q2' & ->). by injection E as -> ->.
Qed.

(** ** Added and removed subtrees *)

Lemma markAll_spec mark cs :
  markAll mark cs = ((λ c, (mark c).1) <$> cs, sum_list_with (λ c, (mark c).2) cs).
Proof.
  induction cs as [|c cs IH]; [done|]. simpl. destruct (mark c) as [c' k]. by rewrite IH.
Qed.

Lemma length_forest_paths l : length (forest_paths l) = sum_list_with (λ c, length (paths c)) l.
Proof.
  induction l as [|c l IH]; [done|].
  change (forest_paths (c :: l)) with ((cons 0 <$> paths c) ++ (next_sibling <$> forest_paths l)).
  by rewrite length_app, !length_fmap, IH.
Qed.

Lemma sum_list_with_Forall {A} (f g : A → nat) l :
  Forall (λ x, f x = g x) l → sum_list_with f l = sum_list_with g l.
Proof. induction 1 as [|x l Hx _ IH]; simpl; [done|]. by rewrite Hx, IH. Qed.

Lemma countSubtree_paths n : countSubtree n = length (paths n).
Proof.
  induction n as [n Hn] using node_children_ind. rewrite countSubtree_children, paths_children. simpl.
  rewrite length_forest_paths. f_equal. by apply sum_list_with_Forall.
Qed.

Lemma markSubtreeAdded_count n : (markSubtreeAdded n).2 = length (paths n).
Proof.
  induction n as [n Hn] using node_children_ind. rewrite markSubtreeAdded_children, paths_children, markAll_spec. simpl.
  rewrite length_forest_paths. f_equal. by apply sum_list_with_Forall.
Qed.

(** [o] is [c] with other attributes. *)
Definition restamped (c : Node) (d : Dollar) (o : Node) : Prop :=
  dollar o = d ∧ bounds o = bounds c ∧ others o = others c ∧ length (children o) = length (children c).

Lemma children_mark n : children (markSubtreeAdded n).1 = (λ c, (markSubtreeAdded c).1) <$> children n.
Proof.
  rewrite markSubtreeAdded_children, markAll_spec. simpl. rewrite children_withChildren; [done|..].
  - by rewrite length_fmap.
  - intros k k' Hk He. change (node n = KidObject k) in Hk. unfold children. rewrite Hk, He. intros [= <-]. apply isEmptyObject_mark.
Qed.

Lemma dollar_withChildren n l : dollar (withChildren n l) = dollar n.
Proof. done. Qed.

(** Every node of an added subtree is marked added, and nothing else changes. *)
Lemma mark_at n path :
  match node_at n path with
  | None => node_at (markSubtreeAdded n).1 path = None
  | Some c => ∃ o, node_at (markSubtreeAdded n).1 path = Some o ∧ restamped c (dollar (markState c Added)) o
  end.
Proof.
  revert n. induction path as [|i path IH]; intros n; simpl.
  - eexists. split; [done|]. pose proof (f_equal length (children_mark n)) as Hl. rewrite length_fmap in Hl.
    revert Hl. rewrite markSubtreeAdded_children. by destruct (markAll _ _).
  - rewrite children_mark, list_lookup_fmap. destruct (children n !! i) as [c|]; simpl; [|done]. apply IH.
Qed.

(** ** The walk, position by position *)

(** The children of the walked node, one by one. *)
Lemma walkAll_spec w ps cs s :
  length (walkAll w ps cs s).1 = length cs ∧
  ∀ i c, cs !! i = Some c →
    match ps !! i with
    | Some p => ∃ s', (walkAll w ps cs s).1 !! i = Some (w p c s').1
    | None => (walkAll w ps cs s).1 !! i = Some (markSubtreeAdded c).1
    end.
Proof.
  revert ps s. induction cs as [|c cs IH]; intros ps s; [done|]. simpl.
  destruct ps as [|p ps].
  - destruct (markSubtreeAdded c) as [c' k] eqn:Ec. specialize (IH [] (addAdded s k)).
    destruct (walkAll w [] cs _) as [l s'] eqn:El. simpl in *. destruct IH as [Hl Hi].
    split; [by rewrite Hl|]. intros [|i] c0; simpl; [intros [= <-]; by rewrite Ec|]. intros Hc. by apply Hi in Hc.
  - destruct (w p c s) as [c' s1] eqn:Ec. specialize (IH ps s1).
    destruct (walkAll w ps cs s1) as [l s'] eqn:El. simpl in *. destruct IH as [Hl Hi].
    split; [by rewrite Hl|]. intros [|i] c0; simpl; [intros [= <-]; exists s; by rewrite Ec|]. intros Hc. by apply Hi in Hc.
Qed.

Lemma walk_empty_kid p c s i k :
  node c = KidObject k → isEmptyObject k = false →
  (walkAll walk (children p) (children c) s).1 !! i = None ∨
  ∃ k', (walkAll walk (children p) (children c) s).1 !! i = Some k' ∧ isEmptyObject k' = false.
Proof.
  intros Hk He. destruct (walkAll_spec walk (children p) (children c) s) as [Hl Hi].
  destruct (children c !! i) as [c0|] eqn:Ec.
  - right. assert (isEmptyObject c0 = false).
    { revert Ec. unfold children. rewrite Hk, He. destruct i; [by intros [= <-]|done]. }
    specialize (Hi i c0 Ec). destruct (children p !! i) as [p0|].
    + destruct Hi as [s' Hi]. eexists. split; [done|]. by apply isEmptyObject_walk.
    + eexists. split; [done|]. apply isEmptyObject_mark.
  - left. apply lookup_ge_None. rewrite Hl. by apply lookup_ge_None.
Qed.

Lemma children_walk p c s :
  ∃ s', children (walk p c s).1 = (walkAll walk (children p) (children c) s').1.
Proof.
  rewrite walk_children. cbv zeta. set (s' := if negb _ then _ else s). exists s'.
  pose proof (walk_empty_kid p c s' 0) as Hk. destruct (walkAll_spec walk (children p) (children c) s') as [Hl _].
  set (base := if negb _ then markState c Changed else c).
  assert (children base = children c ∧ node base = node c) as [Hb Hn] by (unfold base; by destruct (negb _)).
  destruct (walkAll _ _ _ _) as [l s1]. simpl in *. apply children_withChildren; [by rewrite Hb|].
  rewrite Hn. intros k k' E1 E2 ->. destruct (Hk k E1 E2) as [?|(k0 & [= <-] & ?)]; done.
Qed.

(** What becomes of the attributes of a node, given its counterpart. *)
Definition stamped_dollar (q : option Node) (c : Node) : Dollar :=
  match q with
  | None => dollar (markState c Added)
  | Some q => if decide (nodeSignature q = nodeSignature c) then dollar c else dollar (markState c Changed)
  end.

Lemma walk_at p c s path :
  match node_at c path with
  | None => node_at (walk p c s).1 path = None
  | Some n => ∃ o, node_at (walk p c s).1 path = Some o ∧ restamped n (stamped_dollar (node_at p path) n) o
  end.
Proof.
  revert p c s. induction path as [|i path IH]; intros p c s; simpl.
  - eexists. split; [done|]. destruct (children_walk p c s) as [s' Hc].
    apply (f_equal length) in Hc. rewrite (proj1 (walkAll_spec _ _ _ _)) in Hc. revert Hc.
    rewrite walk_children. cbv zeta. destruct (walkAll _ _ _ _) as [l s1].
    unfold restamped, stamped_dollar. case_bool_decide as E; simpl; intros Hc; [rewrite decide_True by done|rewrite decide_False by done]; done.
  - destruct (children_walk p c s) as [s' ->]. destruct (walkAll_spec walk (children p) (children c) s') as [Hl Hi].
    destruct (children c !! i) as [c0|] eqn:Ec.
    + specialize (Hi i c0 Ec). destruct (children p !! i) as [p0|].
      * destruct Hi as [s0 ->]. apply IH.
      * rewrite Hi. pose proof (mark_at c0 path) as Hm. by destruct (node_at c0 path).
    + replace ((walkAll walk (children p) (children c) s').1 !! i) with (@None Node); [done|].
      symmetry. apply lookup_ge_None. rewrite Hl. by apply lookup_ge_None.
Qed.

(** ** The counts *)

Definition count {A} (f : A → bool) (l : list A) : nat := length (filter (λ x, f x = true) l).

Lemma count_app {A} (f : A → bool) l1 l2 : count f (l1 ++ l2) = count f l1 + count f l2.
Proof. unfold count. by rewrite list.filter_app, length_app. Qed.
Lemma count_cons {A} (f : A → bool) x l : count f (x :: l) = (if f x then 1 else 0) + count f l.
Proof. unfold count. rewrite filter_cons. by destruct (f x). Qed.
Lemma count_fmap {A B} (f : B → bool) (g : A → B) l : count f (g <$> l) = count (λ x, f (g x)) l.
Proof. induction l as [|x l IH]; [done|]. by rewrite fmap_cons, !count_cons, IH. Qed.
Lemma count_ext {A} (f g : A → bool) l : (∀ x, x ∈ l → f x = g x) → count f l = count g l.
Proof.
  intros H. unfold count. f_equal. apply filter_agree. intros x Hx. by rewrite (H x Hx).
Qed.
Lemma count_all {A} (f : A → bool) l : (∀ x, f x = true) → count f l = length l.
Proof. intros H. induction l as [|x l IH]; [done|]. by rewrite count_cons, H, IH. Qed.
Lemma count_none {A} (f : A → bool) l : (∀ x, f x = false) → count f l = 0.
Proof. intros H. induction l as [|x l IH]; [done|]. by rewrite count_cons, H, IH. Qed.

(** A position missing from a tree, and one in both trees with another signature. *)
Definition missing (o : option Node) : bool := match o with None => true | Some _ => false end.
Definition differs (o1 o2 : option Node) : bool :=
  match o1, o2 with
  | Some q, Some c => negb (bool_decide (nodeSignature q = nodeSignature c))
  | _, _ => false
  end.

Definition new_positions (previous current : Node) : nat :=
  count (λ path, missing (node_at previous path)) (paths current).
Definition changed_positions (previous current : Node) : nat :=
  count (λ path, differs (node_at previous path) (node_at current path)) (paths current).

Lemma forest_at_next c l path : forest_at (c :: l) (next_sibling path) = forest_at l path.
Proof. by destruct path. Qed.

Lemma forest_paths_cons c l :
  forest_paths (c :: l) = (cons 0 <$> paths c) ++ (next_sibling <$> forest_paths l).
Proof. done. Qed.

(** The summary of a walk over two lists of children. *)
Definition counted (ps cs : list Node) (s s' : HierarchyDiffSummary) : Prop :=
  s' = mkSummary (hasBaseline s)
    (added s + count (λ path, missing (forest_at ps path)) (forest_paths cs))
    (changed s + count (λ path, differs (forest_at ps path) (forest_at cs path)) (forest_paths cs))
    (removed s + count (λ path, missing (forest_at cs path)) (forest_paths ps)).
Definition walk_counted (c : Node) : Prop :=
  ∀ p s, (walk p c s).2 = mkSummary (hasBaseline s) (added s + new_positions p c)
    (changed s + changed_positions p c) (removed s + new_positions c p).

Lemma forest_at_nil path : forest_at [] path = None.
Proof. by destruct path. Qed.

Lemma foldl_addRemoved ps s :
  foldl (λ s p, addRemoved s (countSubtree p)) s ps =
  mkSummary (hasBaseline s) (added s) (changed s) (removed s + length (forest_paths ps)).
Proof.
  revert s. induction ps as [|p ps IH]; intros s; cbn [foldl].
  - destruct s; simpl. by rewrite Nat.add_0_r.
  - rewrite IH, forest_paths_cons, length_app, !length_fmap, countSubtree_paths. simpl. f_equal. lia.
Qed.

Lemma walkAll_counted ps cs s : Forall walk_counted cs → counted ps cs s (walkAll walk ps cs s).2.
Proof.
  intros Hcs. revert ps s. unfold counted. induction Hcs as [|c cs Hc _ IH]; intros ps s.
  - simpl. rewrite foldl_addRemoved. f_equal; simpl; rewrite ?Nat.add_0_r; [done..|].
    f_equal. symmetry. apply count_all. intros path. by rewrite forest_at_nil.
  - simpl walkAll. rewrite forest_paths_cons, !count_app, !count_fmap. destruct ps as [|p ps].
    + pose proof (markSubtreeAdded_count c) as Hm. destruct (markSubtreeAdded c) as [c' k]. simpl in Hm. subst k.
      pose proof (IH [] (addAdded s (length (paths c)))) as IHs.
      destruct (walkAll walk [] cs _) as [l s']. simpl in *. rewrite IHs.
      unfold forest_paths at 3. simpl. rewrite !Nat.add_0_r.
      rewrite (count_all _ (paths c)), (count_none _ (paths c)) by done.
      f_equal.
      * rewrite <- Nat.add_assoc. do 2 f_equal. apply count_ext. intros path _. by rewrite !forest_at_nil.
      * f_equal. apply count_ext. intros path _. by rewrite !forest_at_nil.
    + pose proof (Hc p s) as Hw. destruct (walk p c s) as [c' s1]. simpl in Hw.
      pose proof (IH ps s1) as IHs. destruct (walkAll walk ps cs s1) as [l s']. cbn [snd] in *. rewrite IHs, Hw.
      rewrite forest_paths_cons, count_app, !count_fmap. cbn [hasBaseline added changed removed].
      f_equal.
      * rewrite <- Nat.add_assoc. do 2 f_equal. apply count_ext. intros path _. by rewrite forest_at_next.
      * rewrite <- Nat.add_assoc. do 2 f_equal. apply count_ext. intros path _. by rewrite !forest_at_next.
      * rewrite <- Nat.add_assoc. do 2 f_equal. apply count_ext. intros path _. by rewrite forest_at_next.
Qed.

Lemma forest_paths_nonempty l path : path ∈ forest_paths l → path ≠ [].
Proof.
  intros Hp ->. apply elem_of_forest_paths in Hp; [by destruct Hp|].
  apply List.Forall_forall. intros; apply elem_of_paths.
Qed.

Lemma node_at_forest n path : path ≠ [] → node_at n path = forest_at (children n) path.
Proof. by destruct path. Qed.

Lemma walk_summary c : walk_counted c.
Proof.
  induction c as [c Hc] using node_children_ind. intros p s. rewrite walk_children. cbv zeta.
  set (s1 := if negb _ then _ else s). pose proof (walkAll_counted (children p) (children c) s1 Hc) as Hw.
  destruct (walkAll _ _ _ _) as [l s2]. simpl in *. rewrite Hw.
  unfold new_positions, changed_positions. rewrite !paths_children, !count_cons. simpl.
  rewrite (count_ext (λ path, missing (node_at p path)) (λ path, missing (forest_at (children p) path)))
    by (intros path Hp%forest_paths_nonempty; by rewrite node_at_forest).
  rewrite (count_ext (λ path, missing (node_at c path)) (λ path, missing (forest_at (children c) path)))
    by (intros path Hp%forest_paths_nonempty; by rewrite node_at_forest).
  rewrite (count_ext (λ path, differs (node_at p path) (node_at c path))
    (λ path, differs (forest_at (children p) path) (forest_at (children c) path)))
    by (intros path Hp%forest_paths_nonempty; by rewrite !node_at_forest).
  unfold s1. destruct (negb _); simpl; f_equal; lia.
Qed.

(** ** Theorems *)

(** C40. The marks are exactly the differences.  With no previous frame, or a frame
    without a root, the hierarchy is returned as it is; otherwise the result has
    the positions of the current hierarchy, and the node at each position keeps its
    bounds, its other fields and its number of children, and has its attributes
    stamped [added] when the previous frame has no node there, stamped [changed]
    when it has one with another signature, and left alone when the signatures
    agree. *)
Theorem hierarchy_marks_exact (previous : option (option Node)) (current : option Node) :
  match mjoin previous, current with
  | Some prev, Some cur =>
      ∃ out, (annotateHierarchyDiff previous current).1 = Some out ∧
        ∀ path, match node_at cur path with
                | None => node_at out path = None
                | Some c => ∃ o, node_at out path = Some o ∧ bounds o = bounds c ∧ others o = others c ∧
                    length (children o) = length (children c) ∧
                    dollar o = match node_at prev path with
                               | None => dollar (markState c Added)
                               | Some q => if decide (nodeSignature q = nodeSignature c) then dollar c
                                           else dollar (markState c Changed)
                               end
                end
  | _, _ => (annotateHierarchyDiff previous current).1 = current
  end.
Proof.
  unfold annotateHierarchyDiff. destruct (mjoin previous) as [prev|], current as [cur|]; [|done..].
  destruct (walk prev cur _) as [out s] eqn:E. exists out. split; [done|]. intros path.
  pose proof (walk_at prev cur (mkSummary true 0 0 0) path) as Hw. rewrite E in Hw. simpl in Hw.
  destruct (node_at cur path) as [c|]; [|done]. destruct Hw as (o & ? & ? & ? & ? & ?). by exists o.
Qed.

(** The summary counts positions, each once: added are those of the current tree
    missing from the previous one, removed the converse, changed those in both
    with different signatures; a frame compared with itself counts nothing. *)
Theorem hierarchy_summary_counts (prev cur : Node) :
  (annotateHierarchyDiff (Some (Some prev)) (Some cur)).2 =
    mkSummary true (new_positions prev cur) (changed_positions prev cur) (new_positions cur prev) ∧
  (∀ path, path ∈ paths cur ↔ is_Some (node_at cur path)) ∧ NoDup (paths cur) ∧
  (annotateHierarchyDiff (Some (Some cur)) (Some cur)).2 = mkSummary true 0 0 0.
Proof.
  assert (∀ p c, (annotateHierarchyDiff (Some (Some p)) (Some c)).2 =
    mkSummary true (new_positions p c) (changed_positions p c) (new_positions c p)) as H.
  { intros p c. unfold annotateHierarchyDiff. simpl. pose proof (walk_summary c p (mkSummary true 0 0 0)) as Hw.
    destruct (walk p c _) as [out s]. exact Hw. }
  split_and!; [apply H|apply elem_of_paths|apply paths_NoDup|]. rewrite H. f_equal.
  - unfold new_positions. rewrite (count_ext _ (λ _, false)); [by apply count_none|].
    intros path [n Hn]%elem_of_paths. by rewrite Hn.
  - unfold changed_positions. apply count_none. intros path.
    destruct (node_at cur path); simpl; [|done]. by rewrite bool_decide_eq_true_2.
  - unfold new_positions. rewrite (count_ext _ (λ _, false)); [by apply count_none|].
    intros path [n Hn]%elem_of_paths. by rewrite Hn.
Qed.
