(* ===== verification/ReedSolomon.v ===== *)
(** * Reed-Solomon codewords over GF(256)

    [src/src/utils/qr/ReedSolomon.ts]: the exponent and logarithm tables, the
    multiplication that uses them, the generator polynomial and the remainder
    loop, with the field the tables implement and what the remainder makes of a
    block: a polynomial that vanishes at every root of the generator. *)
From S2P Require Import Prelude.
Local Open Scope Z_scope.

(** ** The code *)

Definition FIELD_POLYNOMIAL : Z := 0x11d.

(** The loop body of [buildExpTable]: the next power of 2 in the field. *)
Definition nextPower (value : Z) : Z :=
  let value := Z.shiftl value 1 in
  if Z.testbit value 8 then Z.lxor value FIELD_POLYNOMIAL else value.

Definition buildExpTable : list Z :=
  let table := (foldl (λ '(table, value) i, (<[i := value]> table, nextPower value))
                  (replicate 512 0, 1) (seq 0 255)).1 in
  foldl (λ table i, <[i := table !!! (i - 255)%nat]> table) table (seq 255 257).
Definition EXP_TABLE : list Z := Eval vm_compute in buildExpTable.

Definition buildLogTable (exp : list Z) : list nat :=
  foldl (λ table i, <[Z.to_nat (exp !!! i) := i]> table) (replicate 256 0%nat) (seq 0 255).
Definition LOG_TABLE : list nat := Eval vm_compute in buildLogTable EXP_TABLE.

Definition exp_at (i : nat) : Z := EXP_TABLE !!! i.
Definition log_at (a : Z) : nat := LOG_TABLE !!! Z.to_nat a.

Definition gfMultiply (a b : Z) : Z :=
  if (a =? 0) || (b =? 0) then 0 else exp_at (log_at a + log_at b).

(** One factor [x - root] more: [next[j] ^= c[j]], [next[j + 1] ^= c[j] * root]. *)
Definition multiplyByRoot (coefficients : list Z) (root : Z) : list Z :=
  zip_with Z.lxor (coefficients ++ [0]) (0 :: ((λ c, gfMultiply c root) <$> coefficients)).

Definition generatorCoefficients (degree : nat) : list Z :=
  foldl (λ coefficients i, multiplyByRoot coefficients (exp_at i)) [1] (seq 0 degree).
Definition rsGeneratorPolynomial (degree : nat) : list Z := tail (generatorCoefficients degree).

(** One codeword of the remainder loop: [shift], [push(0)], and the update. *)
Definition remainderStep (generator remainder : list Z) (codeword : Z) : list Z :=
  let factor := Z.lxor codeword (default 0 (head remainder)) in
  zip_with (λ r g, Z.lxor r (gfMultiply g factor)) (tail remainder ++ [0]) generator.

Definition rsComputeRemainder (data : list Z) (ecCount : nat) : list Z :=
  foldl (remainderStep (rsGeneratorPolynomial ecCount)) (replicate ecCount 0) data.

(** ** The field, from its definition

    A byte is a polynomial over GF(2); the product is the carry-less product
    reduced by the field polynomial, one shift at a time. *)
Definition gf (a : Z) : Prop := 0 ≤ a < 256.
Definition gf_product (a b : Z) : Z :=
  foldr Z.lxor 0 ((λ i, if Z.testbit a (Z.of_nat i) then Nat.iter i nextPower b else 0) <$> seq 0 8).

Lemma forallb_bytes (f : Z → bool) : forallb f (seqZ 0 256) = true → ∀ a, gf a → f a = true.
Proof.
  intros Hf a Ha. apply (proj1 (forallb_forall f _) Hf). apply list_elem_of_In, elem_of_seqZ. unfold gf in Ha. lia.
Qed.
Lemma forallb_below (f : nat → bool) n : forallb f (seq 0 n) = true → ∀ i, (i < n)%nat → f i = true.
Proof. intros Hf i Hi. apply (proj1 (forallb_forall f _) Hf), in_seq. lia. Qed.

Lemma gfMultiply_product a b : gf a → gf b → gfMultiply a b = gf_product a b.
Proof.
  intros Ha Hb. apply Z.eqb_eq. revert b Hb. apply forallb_bytes. revert a Ha. apply forallb_bytes.
  vm_compute. reflexivity.
Qed.

(** The tables, entry by entry. *)
Lemma exp_period i : (i < 512)%nat → exp_at i = exp_at (i mod 255).
Proof. intros Hi. apply Z.eqb_eq. revert i Hi. apply forallb_below. vm_compute. reflexivity. Qed.
Lemma log_exp i : (i < 255)%nat → log_at (exp_at i) = i.
Proof. intros Hi. apply Nat.eqb_eq. revert i Hi. apply forallb_below. vm_compute. reflexivity. Qed.
Lemma exp_nonzero i : (i < 512)%nat → exp_at i ≠ 0 ∧ gf (exp_at i).
Proof.
  intros Hi. assert (negb (exp_at i =? 0) && (0 <=? exp_at i) && (exp_at i <? 256) = true) as E
    by (revert i Hi; apply forallb_below; vm_compute; reflexivity).
  reflect_bools. unfold gf. lia.
Qed.
Lemma exp_log a : gf a → a ≠ 0 → exp_at (log_at a) = a ∧ (log_at a < 255)%nat.
Proof.
  intros Ha Hn. assert ((a =? 0) || (exp_at (log_at a) =? a) && (log_at a <? 255)%nat = true) as E
    by (clear Hn; revert a Ha; apply forallb_bytes; vm_compute; reflexivity).
  apply orb_true_iff in E as [E|E]; [lia|]. apply andb_true_iff in E as [E1 E2].
  split; [lia|by apply Nat.ltb_lt].
Qed.

(** ** The field axioms *)

Lemma gf_lxor a b : gf a → gf b → gf (Z.lxor a b).
Proof.
  unfold gf. intros Ha Hb. assert (0 ≤ Z.lxor a b) by (apply Z.lxor_nonneg; lia). split; [done|].
  assert (Z.lxor a b = Z.lxor a b mod 2 ^ 8) as ->; [|by apply Z.mod_pos_bound].
  apply Z.bits_inj'. intros n Hn. destruct (decide (n < 8)); [by rewrite Z.mod_pow2_bits_low by lia|].
  rewrite Z.mod_pow2_bits_high, Z.lxor_spec by lia.
  rewrite <- (Z.mod_small a (2 ^ 8)), <- (Z.mod_small b (2 ^ 8)) by done. by rewrite !Z.mod_pow2_bits_high by lia.
Qed.

Lemma gf_mult a b : gf a → gf b → gf (gfMultiply a b).
Proof.
  intros Ha Hb. unfold gfMultiply. destruct (Z.eqb_spec a 0); [done|]. destruct (Z.eqb_spec b 0); [done|]. simpl.
  destruct (exp_log a), (exp_log b); try done. apply exp_nonzero. lia.
Qed.

Lemma mult_0_l b : gfMultiply 0 b = 0.
Proof. done. Qed.
Lemma mult_0_r a : gfMultiply a 0 = 0.
Proof. unfold gfMultiply. by rewrite orb_true_r. Qed.
Lemma mult_comm a b : gfMultiply a b = gfMultiply b a.
Proof. unfold gfMultiply. by rewrite orb_comm, Nat.add_comm. Qed.

(** Products of nonzero elements add logarithms. *)
Lemma mult_exp i j : (i < 255)%nat → (j < 255)%nat → gfMultiply (exp_at i) (exp_at j) = exp_at ((i + j) mod 255).
Proof.
  intros Hi Hj. unfold gfMultiply. destruct (exp_nonzero i) as [Hi0 _]; [lia|]. destruct (exp_nonzero j) as [Hj0 _]; [lia|].
  rewrite (proj2 (Z.eqb_neq _ _) Hi0), (proj2 (Z.eqb_neq _ _) Hj0). simpl. rewrite !log_exp by done.
  apply exp_period. lia.
Qed.

Lemma mult_assoc a b c : gf a → gf b → gf c → gfMultiply a (gfMultiply b c) = gfMultiply (gfMultiply a b) c.
Proof.
  intros Ha Hb Hc.
  destruct (decide (a = 0)) as [->|Ha0]; [done|]. destruct (decide (b = 0)) as [->|Hb0]; [by rewrite mult_0_l, mult_0_r|].
  destruct (decide (c = 0)) as [->|Hc0]; [by rewrite !mult_0_r|].
  assert (∀ x, gf x → x ≠ 0 → ∃ i, (i < 255)%nat ∧ x = exp_at i) as Hlog
    by (intros x Hx Hx0; destruct (exp_log x Hx Hx0); by exists (log_at x)).
  destruct (Hlog a) as (i & ? & ->), (Hlog b) as (j & ? & ->), (Hlog c) as (k & ? & ->); [done..|].
  rewrite (mult_exp j k), (mult_exp i j), !mult_exp by (done || (apply Nat.mod_upper_bound; lia)).
  f_equal. rewrite Nat.Div0.add_mod_idemp_l, Nat.Div0.add_mod_idemp_r. f_equal. lia.
Qed.

Lemma product_lxor_l a b c : gf_product (Z.lxor a b) c = Z.lxor (gf_product a c) (gf_product b c).
Proof.
  unfold gf_product. induction (seq 0 8) as [|i l IH]; [done|].
  rewrite !fmap_cons. cbn [foldr]. rewrite IH, Z.lxor_spec.
  generalize (foldr Z.lxor 0 ((λ i, if Z.testbit a (Z.of_nat i) then Nat.iter i nextPower c else 0) <$> l)).
  generalize (foldr Z.lxor 0 ((λ i, if Z.testbit b (Z.of_nat i) then Nat.iter i nextPower c else 0) <$> l)).
  intros x y. apply Z.bits_inj'. intros n Hn. rewrite !Z.lxor_spec.
  destruct (Z.testbit a _), (Z.testbit b _); simpl; rewrite ?Z.bits_0;
    by destruct (Z.testbit (Nat.iter i nextPower c) n), (Z.testbit x n), (Z.testbit y n).
Qed.

Lemma mult_lxor_l a b c : gf a → gf b → gf c →
  gfMultiply (Z.lxor a b) c = Z.lxor (gfMultiply a c) (gfMultiply b c).
Proof. intros. rewrite !gfMultiply_product by (done || by apply gf_lxor). apply product_lxor_l. Qed.
Lemma mult_lxor_r a b c : gf a → gf b → gf c →
  gfMultiply a (Z.lxor b c) = Z.lxor (gfMultiply a b) (gfMultiply a c).
Proof. intros. rewrite !(mult_comm a). by apply mult_lxor_l. Qed.
Lemma mult_1_l a : gf a → gfMultiply 1 a = a.
Proof. intros Ha. apply Z.eqb_eq. revert a Ha. apply forallb_bytes. vm_compute. reflexivity. Qed.

(** ** Polynomials, highest coefficient first *)

Definition horner (x : Z) (acc c : Z) : Z := Z.lxor (gfMultiply acc x) c.
Definition poly_eval (p : list Z) (x : Z) : Z := foldl (horner x) 0 p.
Definition gf_power (x : Z) (n : nat) : Z := Nat.iter n (λ y, gfMultiply y x) 1.

Lemma gf_0 : gf 0.
Proof. unfold gf. lia. Qed.
Lemma gf_1 : gf 1.
Proof. unfold gf. lia. Qed.
#[local] Hint Resolve gf_0 gf_1 gf_lxor gf_mult : core.

Lemma gf_power_ok x n : gf x → gf (gf_power x n).
Proof. intros. induction n; simpl; auto. Qed.

Lemma eval_acc p x acc :
  gf x → gf acc → Forall gf p →
  foldl (horner x) acc p = Z.lxor (gfMultiply acc (gf_power x (length p))) (poly_eval p x) ∧
  gf (foldl (horner x) acc p).
Proof.
  intros Hx Ha Hp. unfold poly_eval. revert acc Ha. induction Hp as [|c p Hc Hp IH]; intros acc Ha; simpl.
  - rewrite mult_comm, mult_1_l, Z.lxor_0_r by done. done.
  - destruct (IH (horner x acc c)) as [E1 G1]; [unfold horner; auto|].
    destruct (IH (horner x 0 c)) as [E2 _]; [unfold horner; rewrite mult_0_l; auto|].
    split; [|done]. rewrite E1, E2. unfold horner at 1 3. rewrite mult_0_l, Z.lxor_0_l.
    pose proof (gf_power_ok x (length p) Hx).
    rewrite mult_lxor_l, <- Z.lxor_assoc by auto. f_equal. f_equal.
    rewrite <- mult_assoc by auto. by rewrite (mult_comm x).
Qed.

Lemma eval_ok p x : gf x → Forall gf p → gf (poly_eval p x).
Proof. intros. by apply eval_acc. Qed.

Lemma eval_snoc p c x : poly_eval (p ++ [c]) x = Z.lxor (gfMultiply (poly_eval p x) x) c.
Proof. unfold poly_eval. by rewrite foldl_app. Qed.

Lemma eval_app p q x :
  gf x → Forall gf p → Forall gf q →
  poly_eval (p ++ q) x = Z.lxor (gfMultiply (poly_eval p x) (gf_power x (length q))) (poly_eval q x).
Proof. intros. unfold poly_eval at 1. rewrite foldl_app. apply eval_acc; [done|by apply eval_ok|done]. Qed.

Lemma eval_cons c p x :
  gf x → gf c → Forall gf p → poly_eval (c :: p) x = Z.lxor (gfMultiply c (gf_power x (length p))) (poly_eval p x).
Proof.
  intros. change (c :: p) with ([c] ++ p). by rewrite eval_app by auto.
Qed.

Lemma gf_zip f p q :
  (∀ a b, gf a → gf b → gf (f a b)) → Forall gf p → Forall gf q → Forall gf (zip_with f p q).
Proof. intros Hf Hp Hq. apply (Forall_zip_with_fst _ gf); [done|]. eapply list.Forall_impl; [exact Hq|]. auto. Qed.
Lemma gf_map f p : (∀ a, gf a → gf (f a)) → Forall gf p → Forall gf (f <$> p).
Proof. intros Hf. induction 1; rewrite ?fmap_nil, ?fmap_cons; constructor; auto. Qed.

Lemma gf_app0 p : Forall gf p → Forall gf (p ++ [0]).
Proof. intros. apply Forall_app. split; [done|]. constructor; auto. Qed.
#[local] Hint Resolve gf_app0 : core.

(** Evaluation is linear in the coefficients. *)
Lemma lxor_swap a b c d : Z.lxor (Z.lxor a b) (Z.lxor c d) = Z.lxor (Z.lxor a c) (Z.lxor b d).
Proof. rewrite !Z.lxor_assoc. f_equal. rewrite <- !Z.lxor_assoc. f_equal. apply Z.lxor_comm. Qed.

Lemma eval_zip p q x :
  gf x → Forall gf p → Forall gf q → length p = length q →
  poly_eval (zip_with Z.lxor p q) x = Z.lxor (poly_eval p x) (poly_eval q x).
Proof.
  intros Hx Hp. revert q. induction Hp as [|a p Ha Hp IH]; intros [|b q] Hq Hl; try done.
  apply Forall_cons_1 in Hq as [Hb Hq]. injection Hl as Hl. simpl zip_with.
  assert (Forall gf (zip_with Z.lxor p q)) as Hz by (apply gf_zip; auto).
  rewrite !eval_cons, IH, length_zip_with, Hl, Nat.min_id by auto.
  pose proof (gf_power_ok x (length q) Hx).
  rewrite mult_lxor_l by auto. apply lxor_swap.
Qed.

Lemma eval_scale p c x :
  gf x → gf c → Forall gf p → poly_eval ((λ a, gfMultiply a c) <$> p) x = gfMultiply (poly_eval p x) c.
Proof.
  intros Hx Hc Hp. induction Hp as [|a p Ha Hp IH]; [done|]. rewrite fmap_cons.
  assert (Forall gf ((λ a, gfMultiply a c) <$> p)) by (apply gf_map; auto).
  pose proof (gf_power_ok x (length p) Hx). pose proof (eval_ok p x Hx Hp).
  rewrite !eval_cons, IH, length_fmap, mult_lxor_l by auto. f_equal.
  rewrite <- !mult_assoc by auto. f_equal. apply mult_comm.
Qed.

(** ** The generator vanishes at its roots *)

Lemma multiplyByRoot_ok p r : gf r → Forall gf p → Forall gf (multiplyByRoot p r).
Proof.
  intros Hr Hp. apply gf_zip; [auto..|].
  apply list.Forall_cons; split; [auto|]. apply gf_map; auto.
Qed.
Lemma length_multiplyByRoot p r : length (multiplyByRoot p r) = S (length p).
Proof. unfold multiplyByRoot. rewrite length_zip_with, length_app. simpl. rewrite length_fmap. lia. Qed.

(** The factor [x - root]. *)
Lemma eval_multiplyByRoot p r x :
  gf x → gf r → Forall gf p →
  poly_eval (multiplyByRoot p r) x = gfMultiply (poly_eval p x) (Z.lxor x r).
Proof.
  intros Hx Hr Hp. pose proof (eval_ok p x Hx Hp). assert (Forall gf ((λ c, gfMultiply c r) <$> p)) by (apply gf_map; auto).
  unfold multiplyByRoot.
  rewrite eval_zip by (auto || (rewrite length_app; simpl; rewrite length_fmap; lia)).
  rewrite eval_snoc, Z.lxor_0_r, mult_lxor_r by auto. f_equal.
  change (poly_eval (0 :: ?l) x) with (poly_eval l x). by rewrite eval_scale.
Qed.

Lemma exp_gf i : (i < 512)%nat → gf (exp_at i).
Proof. intros. by apply exp_nonzero. Qed.

Lemma generator_facts n :
  (n < 512)%nat →
  Forall gf (generatorCoefficients n) ∧ length (generatorCoefficients n) = S n ∧
  head (generatorCoefficients n) = Some 1 ∧
  ∀ i, (i < n)%nat → poly_eval (generatorCoefficients n) (exp_at i) = 0.
Proof.
  induction n as [|n IH]; intros Hn.
  { split_and!; [constructor; [auto|constructor]|done|done|lia]. }
  destruct IH as (Hf & Hl & Hh & Hz); [lia|]. unfold generatorCoefficients in *.
  rewrite seq_S, foldl_app. cbn [foldl]. rewrite Nat.add_0_l. set (g := foldl _ [1] (seq 0 n)) in *.
  pose proof (exp_gf n ltac:(lia)). split_and!.
  - by apply multiplyByRoot_ok.
  - by rewrite length_multiplyByRoot, Hl.
  - destruct g as [|c g]; [done|]. injection Hh as ->. done.
  - intros i Hi. pose proof (exp_gf i ltac:(lia)). rewrite eval_multiplyByRoot by auto.
    destruct (decide (i = n)) as [->|]; [by rewrite Z.lxor_nilpotent, mult_0_r|].
    by rewrite Hz by lia.
Qed.
Lemma generator_monic n : (n < 512)%nat → generatorCoefficients n = 1 :: rsGeneratorPolynomial n.
Proof.
  intros Hn. destruct (generator_facts n Hn) as (_ & _ & Hh & _). unfold rsGeneratorPolynomial.
  destruct (generatorCoefficients n); [done|]. by injection Hh as ->.
Qed.

(** ** The remainder *)

Section Remainder.
Context (n : nat) (Hn : (0 < n < 512)%nat).

Lemma remainderStep_ok g r c :
  gf c → Forall gf g → Forall gf r → length g = n → length r = n →
  Forall gf (remainderStep g r c) ∧ length (remainderStep g r c) = n.
Proof.
  intros Hc Hg Hr Hlg Hlr. destruct r as [|r0 r]; [simpl in *; lia|]. apply Forall_cons_1 in Hr as [? ?].
  unfold remainderStep. simpl head. simpl tail. split.
  - apply gf_zip; [auto|auto|done].
  - rewrite length_zip_with, length_app. simpl in *. lia.
Qed.

(** At a root of the generator a step multiplies by [x] and adds the codeword. *)
Lemma eval_remainderStep g r c x :
  gf x → gf c → Forall gf g → Forall gf r → length g = n → length r = n →
  poly_eval (1 :: g) x = 0 →
  poly_eval (remainderStep g r c) x = Z.lxor (gfMultiply (poly_eval r x) x) (gfMultiply c (gf_power x n)).
Proof.
  intros Hx Hc Hg Hr Hlg Hlr Hroot. destruct r as [|r0 r]; [simpl in *; lia|]. apply Forall_cons_1 in Hr as [Hr0 Hr].
  pose proof (gf_power_ok x n Hx) as Hpow. pose proof (eval_ok r x Hx Hr) as Her. pose proof (gf_power_ok x (length r) Hx) as Hpr.
  rewrite eval_cons, Hlg, mult_1_l in Hroot by auto. apply Z.lxor_eq in Hroot.
  unfold remainderStep. simpl head. simpl tail. simpl default.
  set (f := Z.lxor c r0). assert (gf f) by (unfold f; auto).
  assert (zip_with (λ r g, Z.lxor r (gfMultiply g f)) (r ++ [0]) g = zip_with Z.lxor (r ++ [0]) ((λ g, gfMultiply g f) <$> g)) as ->
    by by rewrite zip_with_fmap_r.
  rewrite eval_zip by (auto || (apply gf_map; auto) || (rewrite length_app, length_fmap; simpl in *; lia)).
  rewrite eval_snoc, Z.lxor_0_r, eval_scale, <- Hroot by auto. unfold f.
  rewrite (eval_cons r0), mult_lxor_l, (mult_lxor_r (gf_power x n)), <- mult_assoc by auto.
  rewrite (mult_comm (gf_power x n) c), (mult_comm (gf_power x n) r0).
  assert (gfMultiply (gf_power x (length r)) x = gf_power x n) as ->
    by (rewrite <- Hlr; done).
  generalize (gfMultiply (poly_eval r x) x), (gfMultiply c (gf_power x n)), (gfMultiply r0 (gf_power x n)).
  intros u v w. rewrite (Z.lxor_comm w u), Z.lxor_assoc. f_equal. apply Z.lxor_comm.
Qed.

Lemma rsComputeRemainder_ok data :
  Forall gf data →
  Forall gf (rsComputeRemainder data n) ∧ length (rsComputeRemainder data n) = n ∧
  ∀ i, (i < n)%nat →
    gfMultiply (poly_eval data (exp_at i)) (gf_power (exp_at i) n) = poly_eval (rsComputeRemainder data n) (exp_at i).
Proof.
  destruct (generator_facts n) as (Hg & Hl & _ & Hz); [lia|]. rewrite generator_monic in * by lia.
  apply Forall_cons_1 in Hg as [_ Hg]. injection Hl as Hl. unfold rsComputeRemainder.
  induction data as [|c data IH] using rev_ind; intros Hd.
  - simpl. split_and!; [apply Forall_replicate; auto|by rewrite length_replicate|].
    intros i Hi. rewrite mult_0_l. clear. unfold poly_eval. induction n as [|k IH]; [done|exact IH].
  - apply Forall_app in Hd as [Hd Hc]. apply Forall_cons_1 in Hc as [Hc _].
    rewrite foldl_app. cbn [foldl]. destruct (IH Hd) as (Hr & Hlr & He).
    destruct (remainderStep_ok (rsGeneratorPolynomial n) (foldl (remainderStep (rsGeneratorPolynomial n)) (replicate n 0) data) c)
      as [Hok Hlen]; [done..|]. split_and!; [done..|]. intros i Hi. pose proof (exp_gf i ltac:(lia)) as Hx.
    rewrite eval_remainderStep by (auto; by apply Hz). rewrite <- He by done. rewrite eval_snoc.
    pose proof (gf_power_ok (exp_at i) n Hx). pose proof (eval_ok data (exp_at i) Hx Hd).
    rewrite mult_lxor_l by auto. f_equal. rewrite <- !mult_assoc by auto. f_equal. apply mult_comm.
Qed.
End Remainder.

(** The table arithmetic is the field of the standard: on bytes, [gfMultiply] is
    the carry-less product reduced by x^8 + x^4 + x^3 + x^2 + 1, it is associative,
    commutative and distributes over xor with unit 1, and every nonzero byte has an
    inverse. *)
Theorem gf256_is_a_field (a b c : Z) :
  gf a → gf b → gf c →
  gf (gfMultiply a b) ∧ gfMultiply a b = gf_product a b ∧ gfMultiply a b = gfMultiply b a ∧
  gfMultiply a (gfMultiply b c) = gfMultiply (gfMultiply a b) c ∧
  gfMultiply a (Z.lxor b c) = Z.lxor (gfMultiply a b) (gfMultiply a c) ∧ gfMultiply 1 a = a ∧
  (a ≠ 0 → ∃ a', gf a' ∧ gfMultiply a a' = 1).
Proof.
  intros Ha Hb Hc. split_and!; [by apply gf_mult|by apply gfMultiply_product|apply mult_comm|by apply mult_assoc|
    by apply mult_lxor_r|by apply mult_1_l|].
  intros Hn. destruct (exp_log a Ha Hn) as [E Hl]. exists (exp_at ((255 - log_at a) mod 255)).
  split; [apply exp_gf; pose proof (Nat.mod_upper_bound (255 - log_at a) 255); lia|].
  rewrite <- E at 1. rewrite mult_exp by (done || (apply Nat.mod_upper_bound; lia)).
  rewrite Nat.Div0.add_mod_idemp_r. by replace (log_at a + (255 - log_at a))%nat with 255%nat by lia.
Qed.

(** Every block the encoder completes is a Reed-Solomon codeword: the data
    followed by [rsComputeRemainder] is a list of bytes, with [n] error-correction
    codewords, whose polynomial vanishes at each of the [n] consecutive powers of 2
    that are the roots of the generator, so that a decoder's syndromes are zero. *)
Theorem rs_block_is_codeword (data : list Z) (n : nat) :
  Forall gf data → (0 < n < 512)%nat →
  let block := data ++ rsComputeRemainder data n in
  Forall gf block ∧ length block = (length data + n)%nat ∧
  ∀ i, (i < n)%nat → poly_eval block (exp_at i) = 0.
Proof.
  intros Hd Hn. destruct (rsComputeRemainder_ok n Hn data Hd) as (Hr & Hl & He). cbv zeta. split_and!.
  - by apply Forall_app.
  - by rewrite length_app, Hl.
  - intros i Hi. pose proof (exp_gf i ltac:(lia)). rewrite eval_app by done.
    by rewrite Hl, He, Z.lxor_nilpotent.
Qed.

Lemma gf256_is_a_field_witness : gfMultiply 0x53 0xca = gf_product 0x53 0xca ∧ (∃ a', gf a' ∧ gfMultiply 0x53 a' = 1).
Proof.
  split.
  - apply (gf256_is_a_field 0x53 0xca 1); split; vm_compute; congruence.
  - apply (gf256_is_a_field 0x53 0xca 1); try (split; vm_compute; congruence). done.
Defined.

Lemma rs_block_is_codeword_witness :
  poly_eval ([0x40; 0xd2; 0x75] ++ rsComputeRemainder [0x40; 0xd2; 0x75] 10) (exp_at 9) = 0.
Proof.
  apply (rs_block_is_codeword [0x40; 0xd2; 0x75] 10); [|lia|lia]. repeat constructor; vm_compute; congruence.
Defined.
