(* ===== verification/QrTables.v ===== *)
(** * QR code tables, masks and penalties

    [src/src/utils/qr/QrTables.ts] and [src/src/utils/qr/QrMask.ts]: the block
    layouts and capacities of versions 1 to 10, the eight mask conditions and
    the four penalty rules. *)
From S2P Require Import Prelude.

(** ** Tables *)

Inductive QrErrorCorrectionLevel := L | M | Q | H.
#[export] Instance QrErrorCorrectionLevel_eq_dec : EqDecision QrErrorCorrectionLevel.
Proof. solve_decision. Defined.

Definition QR_MIN_VERSION : nat := 1.
Definition QR_MAX_VERSION : nat := 10.

Record QrBlockGroup := mkGroup { group_count : nat; dataCodewords : nat }.
Record QrBlockLayout := mkLayout { ecCodewordsPerBlock : nat; groups : list QrBlockGroup }.

(** A table row: codewords per block, then one or two groups. *)
Definition LayoutRow : Type := nat * nat * nat * option (nat * nat).
Definition row1 (ec g1Count g1Data : nat) : LayoutRow := (ec, g1Count, g1Data, None).
Definition row2 (ec g1Count g1Data g2Count g2Data : nat) : LayoutRow := (ec, g1Count, g1Data, Some (g2Count, g2Data)).

Definition BLOCK_TABLE (version : nat) (level : QrErrorCorrectionLevel) : option LayoutRow :=
  match version with
  | 1 => Some match level with L => row1 7 1 19 | M => row1 10 1 16 | Q => row1 13 1 13 | H => row1 17 1 9 end
  | 2 => Some match level with L => row1 10 1 34 | M => row1 16 1 28 | Q => row1 22 1 22 | H => row1 28 1 16 end
  | 3 => Some match level with L => row1 15 1 55 | M => row1 26 1 44 | Q => row1 18 2 17 | H => row1 22 2 13 end
  | 4 => Some match level with L => row1 20 1 80 | M => row1 18 2 32 | Q => row1 26 2 24 | H => row1 16 4 9 end
  | 5 => Some match level with
              L => row1 26 1 108 | M => row1 24 2 43 | Q => row2 18 2 15 2 16 | H => row2 22 2 11 2 12 end
  | 6 => Some match level with L => row1 18 2 68 | M => row1 16 4 27 | Q => row1 24 4 19 | H => row1 28 4 15 end
  | 7 => Some match level with
              L => row1 20 2 78 | M => row1 18 4 31 | Q => row2 18 2 14 4 15 | H => row2 26 4 13 1 14 end
  | 8 => Some match level with
              L => row1 24 2 97 | M => row2 22 2 38 2 39 | Q => row2 22 4 18 2 19 | H => row2 26 4 14 2 15 end
  | 9 => Some match level with
              L => row1 30 2 116 | M => row2 22 3 36 2 37 | Q => row2 20 4 16 4 17 | H => row2 24 4 12 4 13 end
  | 10 => Some match level with
              L => row2 18 2 68 2 69 | M => row2 26 4 43 1 44 | Q => row2 24 6 19 2 20 | H => row2 28 6 15 2 16 end
  | _ => None
  end.

Definition ALIGNMENT_CENTRES (version : nat) : list nat :=
  match version with
  | 2 => [6; 18] | 3 => [6; 22] | 4 => [6; 26] | 5 => [6; 30] | 6 => [6; 34]
  | 7 => [6; 22; 38] | 8 => [6; 24; 42] | 9 => [6; 26; 46] | 10 => [6; 28; 50]
  | _ => []
  end.

Definition EC_LEVEL_BITS (level : QrErrorCorrectionLevel) : Z :=
  match level with L => 1 | M => 0 | Q => 3 | H => 2 end.

(** A version outside the table has no layout; the encoder asks for none. *)
Definition qrBlockLayout (version : nat) (level : QrErrorCorrectionLevel) : QrBlockLayout :=
  match BLOCK_TABLE version level with
  | Some (ec, g1Count, g1Data, g2) =>
      mkLayout ec (mkGroup g1Count g1Data ::
                   match g2 with Some (g2Count, g2Data) => [mkGroup g2Count g2Data] | None => [] end)
  | None => mkLayout 0 []
  end.

Definition qrDataCodewordCount (version : nat) (level : QrErrorCorrectionLevel) : nat :=
  foldl (λ sum group, sum + group_count group * dataCodewords group) 0 (groups (qrBlockLayout version level)).

Definition qrTotalCodewordCount (version : nat) (level : QrErrorCorrectionLevel) : nat :=
  let layout := qrBlockLayout version level in
  let blocks := foldl (λ sum group, sum + group_count group) 0 (groups layout) in
  qrDataCodewordCount version level + blocks * ecCodewordsPerBlock layout.

Definition qrAlignmentCentres (version : nat) : list nat := ALIGNMENT_CENTRES version.
Definition qrSymbolSize (version : nat) : nat := 17 + 4 * version.
Definition qrByteModeCountBits (version : nat) : nat := if bool_decide (version < 10) then 8 else 16.
Definition qrByteCapacity (version : nat) (level : QrErrorCorrectionLevel) : nat :=
  (qrDataCodewordCount version level * 8 - 4 - qrByteModeCountBits version) / 8.

(** ** Masks *)

Abbreviation QrMatrix := (list (list bool)).
(** [matrix[row][column]] inside the matrix. *)
Definition module_at (matrix : QrMatrix) (row column : nat) : bool :=
  default false (matrix !! row ≫= (.!! column)).

Definition QR_MASK_COUNT : nat := 8.
Definition qrMaskApplies (mask i j : nat) : bool :=
  match mask with
  | 0 => bool_decide ((i + j) mod 2 = 0)
  | 1 => bool_decide (i mod 2 = 0)
  | 2 => bool_decide (j mod 3 = 0)
  | 3 => bool_decide ((i + j) mod 3 = 0)
  | 4 => bool_decide ((i / 2 + j / 3) mod 2 = 0)
  | 5 => bool_decide ((i * j) mod 2 + (i * j) mod 3 = 0)
  | 6 => bool_decide (((i * j) mod 2 + (i * j) mod 3) mod 2 = 0)
  | _ => bool_decide (((i + j) mod 2 + (i * j) mod 3) mod 2 = 0)
  end.

(** ** Penalties *)

Definition N1 : nat := 3.
Definition N2 : nat := 3.
Definition N3 : nat := 40.
Definition N4 : nat := 10.

Definition columnsOf (matrix : QrMatrix) : list (list bool) :=
  (λ column, (λ row, default false (row !! column)) <$> matrix) <$> seq 0 (length (default [] (head matrix))).

(** Rule 1: the loop over [i], with the module before and the run so far. *)
Definition runScore (runLength : nat) : nat := if bool_decide (5 ≤ runLength) then N1 + (runLength - 5) else 0.
Fixpoint lineRunLoop (previous : bool) (runLength : nat) (rest : list bool) : nat :=
  match rest with
  | [] => runScore runLength
  | b :: rest' =>
      if bool_decide (b = previous) then lineRunLoop previous (runLength + 1) rest'
      else runScore runLength + lineRunLoop b 1 rest'
  end.
Definition lineRunPenalty (line : list bool) : nat :=
  match line with [] => 0 | b :: rest => lineRunLoop b 1 rest end.

(** Rule 2. *)
Definition sameBlock (matrix : QrMatrix) (row column : nat) : bool :=
  let colour := module_at matrix row column in
  bool_decide (module_at matrix row (column + 1) = colour) &&
  bool_decide (module_at matrix (row + 1) column = colour) &&
  bool_decide (module_at matrix (row + 1) (column + 1) = colour).
Definition blockPenalty (matrix : QrMatrix) : nat :=
  let span := seq 0 (length matrix - 1) in
  sum_list_with (λ row, sum_list_with (λ column, if sameBlock matrix row column then 1 else 0) span) span * N2.

(** Rule 3: the successive [indexOf] visit every position of the core. *)
Definition FINDER_CORE : list bool := [true; false; true; true; true; false; true].
Definition QUIET_RUN : list bool := [false; false; false; false].
Definition startsWith (pattern bits : list bool) (index : nat) : bool :=
  bool_decide (take (length pattern) (drop index bits) = pattern).
Definition finderScore (bits : list bool) (index : nat) : nat :=
  if startsWith FINDER_CORE bits index then
    let lightBefore := bool_decide (4 ≤ index) && startsWith QUIET_RUN bits (index - 4) in
    let lightAfter := startsWith QUIET_RUN bits (index + length FINDER_CORE) in
    if lightBefore || lightAfter then 1 else 0
  else 0.
Definition lineFinderPenalty (line : list bool) : nat :=
  sum_list_with (finderScore line) (seq 0 (length line)) * N3.

(** Rule 4. *)
Definition balancePenalty (matrix : QrMatrix) : nat :=
  let total := length matrix * length matrix in
  let dark := sum_list_with (λ row, length (filter (λ b, b = true) row)) matrix in
  let steps := Z.to_nat (Z.abs (20 * Z.of_nat dark - 10 * Z.of_nat total) / Z.of_nat total) in
  steps * N4.

Record QrPenalty := mkPenalty { adjacent : nat; blocks : nat; finderLike : nat; balance : nat; total : nat }.
Definition qrMaskPenalty (matrix : QrMatrix) : QrPenalty :=
  let lines := matrix ++ columnsOf matrix in
  let adjacent := sum_list_with lineRunPenalty lines in
  let finderLike := sum_list_with lineFinderPenalty lines in
  let blocks := blockPenalty matrix in
  let balance := balancePenalty matrix in
  mkPenalty adjacent blocks finderLike balance (adjacent + blocks + finderLike + balance).
