(* ===== verification/QrEncoder.v ===== *)
(** * The QR code encoder

    [src/src/utils/qr/QrEncoder.ts]: byte-mode data codewords, blocks and
    interleaving, format and version information, the matrix with its function
    patterns and zigzag placement, masking and the choice of mask.  The payload
    is a list of bytes (the UTF-8 encoding of a string payload is the runtime's). *)
From S2P Require Import Prelude ReedSolomon QrTables.

(** ** Data codewords *)

Inductive QrError := InvalidMask (mask : nat) | PayloadTooLong (byteLength limit : nat).

Definition BYTE_MODE_INDICATOR : Z := 4.
Definition PAD_CODEWORDS (index : nat) : Z := if bool_decide (index mod 2 = 0) then 0xec%Z else 0x11%Z.
Definition FORMAT_GENERATOR : Z := 0x537.
Definition FORMAT_XOR_MASK : Z := 0x5412.
Definition VERSION_GENERATOR : Z := 0x1f25.

(** The loop over the versions from [version] on, [left] of them. *)
Fixpoint selectFrom (version left byteLength : nat) (ecLevel : QrErrorCorrectionLevel) : option nat :=
  match left with
  | O => None
  | S left' =>
      if bool_decide (byteLength ≤ qrByteCapacity version ecLevel) then Some version
      else selectFrom (version + 1) left' byteLength ecLevel
  end.
Definition selectQrVersion (byteLength : nat) (ecLevel : QrErrorCorrectionLevel) : outcome QrError nat :=
  match selectFrom QR_MIN_VERSION (QR_MAX_VERSION + 1 - QR_MIN_VERSION) byteLength ecLevel with
  | Some version => Returns version
  | None => Throws (PayloadTooLong byteLength (qrByteCapacity QR_MAX_VERSION ecLevel))
  end.

(** The bits [appendBits] pushes: the low [length] bits of [value], high bit first. *)
Definition appendBits (value : Z) (length : nat) : list bool :=
  (λ i, Z.testbit value (Z.of_nat i)) <$> reverse (seq 0 length).

(** [bits.reduce((byte, bit) => (byte << 1) | bit, 0)]. *)
Definition bitsValue (bits : list bool) : Z := foldl (λ byte bit, Z.lor (Z.shiftl byte 1) (Z.b2z bit)) 0%Z bits.
Definition codewordAt (bits : list bool) (index : nat) : Z := bitsValue (take 8 (drop (index * 8) bits)).

Definition encodeQrDataCodewords (bytes : list Z) (version : nat) (ecLevel : QrErrorCorrectionLevel) : list Z :=
  let capacityBits := qrDataCodewordCount version ecLevel * 8 in
  let bits := appendBits BYTE_MODE_INDICATOR 4 ++
              appendBits (Z.of_nat (length bytes)) (qrByteModeCountBits version) ++
              (bytes ≫= λ byte, appendBits byte 8) in
  let bits := bits ++ appendBits 0 (4 `min` (capacityBits - length bits)) in
  let bits := bits ++ appendBits 0 ((8 - length bits mod 8) mod 8) in
  let codewords := codewordAt bits <$> seq 0 (length bits / 8) in
  let padCount := capacityBits / 8 - length codewords in
  codewords ++ (PAD_CODEWORDS <$> seq 0 padCount).

(** ** Blocks *)

Definition interleave {A} (blocks : list (list A)) : list A :=
  let longest := foldr Nat.max 0 (length <$> blocks) in
  seq 0 longest ≫= λ index, omap (.!! index) blocks.

Definition blockSizes (version : nat) (ecLevel : QrErrorCorrectionLevel) : list nat :=
  groups (qrBlockLayout version ecLevel) ≫= λ group, replicate (group_count group) (dataCodewords group).

Definition dataBlocks (data : list Z) (sizes : list nat) : list (list Z) :=
  imap (λ index size, take size (drop (sum_list (take index sizes)) data)) sizes.

Definition buildQrCodewords (data : list Z) (version : nat) (ecLevel : QrErrorCorrectionLevel) : list Z :=
  let blocks := dataBlocks data (blockSizes version ecLevel) in
  let ecBlocks := (λ block, rsComputeRemainder block (ecCodewordsPerBlock (qrBlockLayout version ecLevel))) <$> blocks in
  interleave blocks ++ interleave ecBlocks.

(** ** Format and version information *)

Local Open Scope Z_scope.

Definition bitLength (value : Z) : Z := if value =? 0 then 0 else Z.log2 value + 1.

(** The loop of [bchRemainder]; each pass shortens a remainder of at most 32 bits. *)
Fixpoint bchLoop (fuel : nat) (remainder generator degree : Z) : Z :=
  match fuel with
  | O => remainder
  | S fuel' =>
      if degree <? bitLength remainder
      then bchLoop fuel' (Z.lxor remainder (Z.shiftl generator (bitLength remainder - 1 - degree))) generator degree
      else remainder
  end.
Definition bchRemainder (value generator : Z) : Z := bchLoop 32 value generator (bitLength generator - 1).

Definition qrFormatBits (ecLevel : QrErrorCorrectionLevel) (mask : nat) : Z :=
  let data := Z.lor (Z.shiftl (EC_LEVEL_BITS ecLevel) 3) (Z.of_nat mask) in
  Z.lxor (Z.lor (Z.shiftl data 10) (bchRemainder (Z.shiftl data 10) FORMAT_GENERATOR)) FORMAT_XOR_MASK.

Definition qrVersionBits (version : nat) : Z :=
  Z.lor (Z.shiftl (Z.of_nat version) 12) (bchRemainder (Z.shiftl (Z.of_nat version) 12) VERSION_GENERATOR).

(** ** The matrix *)

Record QrMatrixBuilder := mkBuilder { size : nat; modules : QrMatrix; reserved : QrMatrix }.
Definition emptyGrid (size : nat) : QrMatrix := replicate size (replicate size false).
Definition newBuilder (size : nat) : QrMatrixBuilder := mkBuilder size (emptyGrid size) (emptyGrid size).

Definition setModule (grid : QrMatrix) (row column : nat) (dark : bool) : QrMatrix :=
  alter (λ r, <[column := dark]> r) row grid.

Definition setFunction (b : QrMatrixBuilder) (row column : Z) (dark : bool) : QrMatrixBuilder :=
  mkBuilder (size b) (setModule (modules b) (Z.to_nat row) (Z.to_nat column) dark)
    (setModule (reserved b) (Z.to_nat row) (Z.to_nat column) true).

Definition inBounds (b : QrMatrixBuilder) (row column : Z) : bool :=
  (0 <=? row) && (row <? Z.of_nat (size b)) && (0 <=? column) && (column <? Z.of_nat (size b)).

(** [for (v = first; v <= last; v++)]. *)
Definition loop {A} (first last : Z) (a : A) (body : A → Z → A) : A := foldl body a (seqZ first (last - first + 1)).

Definition drawFinder (b : QrMatrixBuilder) (top left : Z) : QrMatrixBuilder :=
  loop (-1) 7 b (λ b dy, loop (-1) 7 b (λ b dx,
    let distance := Z.max (Z.abs (dy - 3)) (Z.abs (dx - 3)) in
    if inBounds b (top + dy) (left + dx)
    then setFunction b (top + dy) (left + dx) (negb (distance =? 2) && negb (distance =? 4))
    else b)).

Definition drawAlignment (b : QrMatrixBuilder) (centreRow centreColumn : Z) : QrMatrixBuilder :=
  loop (-2) 2 b (λ b dy, loop (-2) 2 b (λ b dx,
    setFunction b (centreRow + dy) (centreColumn + dx) (negb (Z.max (Z.abs dy) (Z.abs dx) =? 1)))).

Definition drawAlignments (b : QrMatrixBuilder) (version : nat) : QrMatrixBuilder :=
  let centres := imap (λ i c, (i, c)) (qrAlignmentCentres version) in
  let last := (length centres - 1)%nat in
  foldl (λ b '(rowIndex, row), foldl (λ b '(columnIndex, column),
    let overlapsFinder :=
      bool_decide (rowIndex = 0%nat) && bool_decide (columnIndex = 0%nat) ||
      bool_decide (rowIndex = 0%nat) && bool_decide (columnIndex = last) ||
      bool_decide (rowIndex = last) && bool_decide (columnIndex = 0%nat) in
    if overlapsFinder then b else drawAlignment b (Z.of_nat row) (Z.of_nat column)) b centres) b centres.

Definition drawTiming (b : QrMatrixBuilder) : QrMatrixBuilder :=
  loop 8 (Z.of_nat (size b) - 9) b (λ b i, setFunction (setFunction b 6 i (Z.even i)) i 6 (Z.even i)).

Definition drawFormat (b : QrMatrixBuilder) (format : Z) : QrMatrixBuilder :=
  let size := Z.of_nat (size b) in
  let bit := Z.testbit format in
  let b := loop 0 5 b (λ b i, setFunction b i 8 (bit i)) in
  let b := setFunction b 7 8 (bit 6) in
  let b := setFunction b 8 8 (bit 7) in
  let b := setFunction b 8 7 (bit 8) in
  let b := loop 9 14 b (λ b i, setFunction b 8 (14 - i) (bit i)) in
  let b := loop 0 7 b (λ b i, setFunction b 8 (size - 1 - i) (bit i)) in
  let b := loop 8 14 b (λ b i, setFunction b (size - 15 + i) 8 (bit i)) in
  setFunction b (size - 8) 8 true.

Definition drawVersion (b : QrMatrixBuilder) (version : nat) : QrMatrixBuilder :=
  if bool_decide (version < 7)%nat then b
  else
    let bits := qrVersionBits version in
    loop 0 17 b (λ b i,
      let dark := Z.testbit bits i in
      let near := i / 3 in
      let far := Z.of_nat (size b) - 11 + i mod 3 in
      setFunction (setFunction b near far dark) far near dark).

Definition drawFunctionPatterns (b : QrMatrixBuilder) (version : nat) : QrMatrixBuilder :=
  let size := Z.of_nat (size b) in
  let b := drawFinder b 0 0 in
  let b := drawFinder b 0 (size - 7) in
  let b := drawFinder b (size - 7) 0 in
  let b := drawTiming b in
  let b := drawAlignments b version in
  let b := drawFormat b 0 in
  drawVersion b version.

(** The positions the placement visits, in order: the loops over [right], [step]
    and the two columns of the pair. *)
Fixpoint rightColumns (fuel : nat) (right : Z) : list Z :=
  match fuel with
  | O => []
  | S fuel' => if 1 <=? right then (if right <=? 6 then right - 1 else right) :: rightColumns fuel' (right - 2) else []
  end.
Definition columnPair (size : nat) (upward : bool) (right : Z) : list (nat * nat) :=
  seq 0 size ≫= λ step,
    let row := if upward then (size - 1 - step)%nat else step in
    [(row, Z.to_nat right); (row, Z.to_nat (right - 1))].
Definition zigzag (size : nat) : list (nat * nat) :=
  concat (imap (λ k right, columnPair size (Nat.even k) right) (rightColumns size (Z.of_nat size - 1))).

(** [next]: the bit of the codewords at [index]. *)
Definition codewordBit (codewords : list Z) (index : nat) : bool :=
  bool_decide (index < length codewords * 8)%nat &&
  Z.testbit (codewords !!! (index / 8)%nat) (7 - Z.of_nat (index mod 8)).

Definition placeModule (codewords : list Z) (reserved : QrMatrix) (st : QrMatrix * nat) (position : nat * nat) : QrMatrix * nat :=
  let '(row, column) := position in
  if module_at reserved row column then st
  else (setModule st.1 row column (codewordBit codewords st.2), S st.2).

Definition placeCodewords (b : QrMatrixBuilder) (codewords : list Z) : QrMatrixBuilder :=
  mkBuilder (size b) (foldl (placeModule codewords (reserved b)) (modules b, 0%nat) (zigzag (size b))).1 (reserved b).

Definition buildUnmaskedMatrix (codewords : list Z) (version : nat) : QrMatrixBuilder :=
  placeCodewords (drawFunctionPatterns (newBuilder (qrSymbolSize version)) version) codewords.

Definition maskModules (b : QrMatrixBuilder) (mask : nat) : QrMatrix :=
  imap (λ rowIndex row, imap (λ column dark,
    xorb dark (negb (module_at (reserved b) rowIndex column) && qrMaskApplies mask rowIndex column)) row) (modules b).

Definition finishSymbol (base : QrMatrixBuilder) (ecLevel : QrErrorCorrectionLevel) (mask : nat) : QrMatrix :=
  modules (drawFormat (mkBuilder (size base) (maskModules base mask) (reserved base)) (qrFormatBits ecLevel mask)).

(** [scores.indexOf(Math.min(...scores))]. *)
Definition chooseMask (base : QrMatrixBuilder) (ecLevel : QrErrorCorrectionLevel) : nat :=
  let scores := (λ mask, total (qrMaskPenalty (finishSymbol base ecLevel mask))) <$> seq 0 QR_MASK_COUNT in
  let least := foldr Nat.min (default 0%nat (head scores)) scores in
  default 0%nat (fst <$> list_find (λ s, s = least) scores).

Record QrSymbol := mkSymbol { sym_version : nat; sym_level : QrErrorCorrectionLevel; sym_mask : nat; sym_modules : QrMatrix }.

(** The level is one of the four by its type; a mask that is no natural number is
    rejected like one above 7. *)
Record QrEncodeOptions := mkOptions { opt_ecLevel : option QrErrorCorrectionLevel; opt_mask : option nat }.
Definition isValidMask (mask : nat) : bool := bool_decide (mask < QR_MASK_COUNT)%nat.

Definition encodeQrSymbol (payload : list Z) (options : QrEncodeOptions) : outcome QrError QrSymbol :=
  let ecLevel := default M (opt_ecLevel options) in
  match opt_mask options with
  | Some m => if isValidMask m then Returns tt else Throws (InvalidMask m)
  | None => Returns tt
  end ≫= λ _,
  version ← selectQrVersion (length payload) ecLevel;
  let data := encodeQrDataCodewords payload version ecLevel in
  let codewords := buildQrCodewords data version ecLevel in
  let base := buildUnmaskedMatrix codewords version in
  let mask := match opt_mask options with Some m => m | None => chooseMask base ecLevel end in
  Returns (mkSymbol version ecLevel mask (finishSymbol base ecLevel mask)).

Definition encodeQr (payload : list Z) (options : QrEncodeOptions) : outcome QrError QrMatrix :=
  sym_modules <$> encodeQrSymbol payload options.
