(* ===== verification/QrData.v ===== *)
(** * Reading the data codewords back

    Bits and codewords as inverse views of each other, and a reader for the
    byte-mode segment that [encodeQrDataCodewords] writes, with the proof that
    it returns the payload whatever padding follows it. *)
From S2P Require Import Prelude ReedSolomon QrTables QrEncoder.

(** ** Bits and codewords *)

Lemma length_appendBits v n : length (appendBits v n) = n.
Proof. unfold appendBits. by rewrite length_fmap, length_reverse, length_seq. Qed.

Lemma appendBits_S v n : appendBits v (S n) = Z.testbit v (Z.of_nat n) :: appendBits v n.
Proof. unfold appendBits. by rewrite seq_S, reverse_snoc. Qed.

Lemma bitsValue_acc l acc :
  foldl (λ byte bit, Z.lor (Z.shiftl byte 1) (Z.b2z bit)) acc l = (acc * 2 ^ Z.of_nat (length l) + bitsValue l)%Z.
Proof.
  unfold bitsValue. revert acc. induction l as [|b l IH]; intros acc; [simpl; lia|]. cbn [foldl length].
  rewrite IH, (IH (Z.lor (Z.shiftl 0 1) _)). rewrite Nat2Z.inj_succ, Z.pow_succ_r by lia.
  assert (∀ a, Z.lor (Z.shiftl a 1) (Z.b2z b) = (2 * a + Z.b2z b)%Z) as Hl.
  { intros a. pose proof (Z.add_lor_land (Z.shiftl a 1) (Z.b2z b)) as E.
    rewrite Z.shiftl_mul_pow2 in * by lia. assert (Z.land (a * 2 ^ 1) (Z.b2z b) = 0)%Z as Hz; [|lia].
    destruct b; [|apply Z.land_0_r]. change (Z.b2z true) with (Z.ones 1).
    rewrite Z.land_ones by lia. by apply Z.mod_mul. }
  rewrite !Hl. lia.
Qed.

Lemma bitsValue_cons b l : bitsValue (b :: l) = (Z.b2z b * 2 ^ Z.of_nat (length l) + bitsValue l)%Z.
Proof. unfold bitsValue at 1. cbn [foldl]. rewrite bitsValue_acc. done. Qed.

Lemma bitsValue_bound l : (0 ≤ bitsValue l < 2 ^ Z.of_nat (length l))%Z.
Proof.
  induction l as [|b l IH]; [done|]. rewrite bitsValue_cons. cbn [length].
  rewrite Nat2Z.inj_succ, Z.pow_succ_r by lia. destruct b; simpl Z.b2z; lia.
Qed.

Lemma bitsValue_appendBits v n : bitsValue (appendBits v n) = (v mod 2 ^ Z.of_nat n)%Z.
Proof.
  induction n as [|n IH]; [by rewrite Z.mod_1_r|].
  rewrite appendBits_S, bitsValue_cons, length_appendBits, IH.
  rewrite Nat2Z.inj_succ, Z.pow_succ_r, (Z.mul_comm 2) by lia.
  rewrite Z.rem_mul_r by lia. rewrite Z.testbit_spec' by lia. lia.
Qed.

Lemma appendBits_mod v n : appendBits (v mod 2 ^ Z.of_nat n)%Z n = appendBits v n.
Proof.
  unfold appendBits. apply list_fmap_ext. intros i x Hx. apply list_elem_of_lookup_2 in Hx.
  rewrite elem_of_reverse, elem_of_seq in Hx. by rewrite Z.mod_pow2_bits_low by lia.
Qed.

Lemma appendBits_bitsValue l n : length l = n → appendBits (bitsValue l) n = l.
Proof.
  revert n. induction l as [|b l IH]; intros n <-; [done|]. cbn [length]. rewrite appendBits_S.
  pose proof (bitsValue_bound l). f_equal.
  - apply Z.b2z_inj. rewrite Z.testbit_spec' by lia. rewrite bitsValue_cons.
    rewrite Z.div_add_l, Z.div_small by lia. destruct b; done.
  - rewrite <- (IH _ eq_refl) at 3. rewrite <- (appendBits_mod (bitsValue (b :: l))), bitsValue_cons.
    by rewrite Z.add_comm, Z.mod_add, Z.mod_small by lia.
Qed.

(** A list of bits cut into codewords and spelled out again. *)
Definition spell (codewords : list Z) : list bool := codewords ≫= λ c, appendBits c 8.

Lemma length_spell l : length (spell l) = 8 * length l.
Proof.
  induction l as [|c l IH]; [done|]. unfold spell in *. rewrite bind_cons, length_app, length_appendBits, IH. simpl; lia.
Qed.

Lemma codewordAt_S bits i : codewordAt bits (S i) = codewordAt (drop 8 bits) i.
Proof. unfold codewordAt. rewrite drop_drop. do 3 f_equal. Qed.

Lemma codewords_S bits n : codewordAt bits <$> seq 0 (S n) = codewordAt bits 0 :: (codewordAt (drop 8 bits) <$> seq 0 n).
Proof.
  cbn [seq]. rewrite fmap_cons. f_equal. rewrite <- fmap_S_seq, <- list_fmap_compose.
  apply list_fmap_ext. intros i x _. apply codewordAt_S.
Qed.

Lemma spell_codewords n bits : length bits = 8 * n → spell (codewordAt bits <$> seq 0 n) = bits.
Proof.
  revert bits. induction n as [|n IH]; intros bits Hl; [by destruct bits|].
  rewrite codewords_S. unfold spell in *. rewrite bind_cons, IH by (rewrite length_drop; lia).
  unfold codewordAt. rewrite drop_0, appendBits_bitsValue by (rewrite length_take; lia). apply take_drop.
Qed.

Lemma codewords_spell l rest :
  Forall gf l → codewordAt (spell l ++ rest) <$> seq 0 (length l) = l.
Proof.
  intros Hl. induction Hl as [|c l Hc Hl IH]; [done|]. cbn [length]. rewrite codewords_S.
  assert (spell (c :: l) ++ rest = appendBits c 8 ++ (spell l ++ rest)) as ->
    by (unfold spell; by rewrite bind_cons, app_assoc).
  rewrite drop_app_length' by by rewrite length_appendBits. rewrite IH. f_equal.
  unfold codewordAt. rewrite drop_0, take_app_length' by by rewrite length_appendBits.
  rewrite bitsValue_appendBits. by apply Z.mod_small.
Qed.

(** ** Data codewords *)

(** The payload of a byte-mode segment: after the mode, the count of [countBits]
    bits, then that many bytes. *)
Definition read_segment (version : nat) (data : list Z) : option (list Z) :=
  let bits := spell data in
  if bool_decide (bitsValue (take 4 bits) = BYTE_MODE_INDICATOR) then
    let k := qrByteModeCountBits version in
    let count := Z.to_nat (bitsValue (take k (drop 4 bits))) in
    Some (codewordAt (drop (4 + k) bits) <$> seq 0 count)
  else None.

(** The bits of a segment without its padding. *)
Definition segment_bits (payload : list Z) (version : nat) : list bool :=
  appendBits BYTE_MODE_INDICATOR 4 ++ appendBits (Z.of_nat (length payload)) (qrByteModeCountBits version) ++ spell payload.

Lemma length_segment_bits payload version :
  length (segment_bits payload version) = 4 + qrByteModeCountBits version + 8 * length payload.
Proof. unfold segment_bits. rewrite !length_app, !length_appendBits, length_spell. lia. Qed.

(** The data codewords are the segment's bits followed by padding, and fill the
    symbol's data capacity. *)
Lemma dataCodewords_spec payload version level :
  length payload ≤ qrByteCapacity version level →
  4 + qrByteModeCountBits version ≤ 8 * qrDataCodewordCount version level →
  length (encodeQrDataCodewords payload version level) = qrDataCodewordCount version level ∧
  Forall gf (encodeQrDataCodewords payload version level) ∧
  ∃ padding, spell (encodeQrDataCodewords payload version level) = segment_bits payload version ++ padding.
Proof.
  intros Hp Hc. unfold encodeQrDataCodewords. fold (spell payload).
  change (appendBits BYTE_MODE_INDICATOR 4 ++ appendBits (Z.of_nat (length payload)) (qrByteModeCountBits version) ++ spell payload)
    with (segment_bits payload version).
  set (N := qrDataCodewordCount version level) in *.
  assert (length (segment_bits payload version) ≤ 8 * N) as Hfit.
  { rewrite length_segment_bits. unfold qrByteCapacity in Hp. fold N in Hp.
    pose proof (Nat.Div0.mul_div_le (N * 8 - 4 - qrByteModeCountBits version) 8). lia. }
  set (bits1 := segment_bits payload version ++ appendBits 0 (4 `min` (N * 8 - length (segment_bits payload version)))).
  assert (length (segment_bits payload version) ≤ length bits1 ≤ 8 * N) as Hl1
    by (unfold bits1; rewrite length_app, length_appendBits; lia).
  set (bits2 := bits1 ++ appendBits 0 ((8 - length bits1 mod 8) mod 8)).
  assert (∃ n, length bits2 = 8 * n ∧ n ≤ N) as (n & Hl2 & Hn).
  { unfold bits2. rewrite length_app, length_appendBits.
    pose proof (Nat.div_mod_eq (length bits1) 8). pose proof (Nat.mod_upper_bound (length bits1) 8).
    destruct (decide (length bits1 mod 8 = 0)) as [E|E].
    - rewrite E. change ((8 - 0) mod 8) with 0. exists (length bits1 / 8). lia.
    - rewrite Nat.mod_small by lia. exists (S (length bits1 / 8)). lia. }
  assert (length bits2 / 8 = n) as -> by (rewrite Hl2, Nat.mul_comm; by apply Nat.div_mul).
  assert (N * 8 / 8 = N) as -> by by apply Nat.div_mul.
  rewrite length_app, !length_fmap, !length_seq. split_and!; [lia| |].
  - apply Forall_app. split; apply List.Forall_forall; intros c Hc'%list_elem_of_In%list_elem_of_fmap.
    + destruct Hc' as (i & -> & _). unfold codewordAt, gf. pose proof (bitsValue_bound (take 8 (drop (i * 8) bits2))) as Hb.
      split; [lia|]. eapply Z.lt_le_trans; [apply Hb|]. change 256%Z with (2 ^ 8)%Z.
      apply Z.pow_le_mono_r; [lia|]. rewrite length_take. lia.
    + destruct Hc' as (i & -> & _). unfold PAD_CODEWORDS, gf. case_bool_decide; lia.
  - eexists. unfold spell at 1. rewrite bind_app. fold (spell (codewordAt bits2 <$> seq 0 n)).
    rewrite spell_codewords by lia. unfold bits2, bits1. by rewrite <- !app_assoc.
Qed.

Lemma read_segment_encoded payload version level :
  Forall gf payload → length payload ≤ qrByteCapacity version level →
  4 + qrByteModeCountBits version ≤ 8 * qrDataCodewordCount version level →
  (Z.of_nat (length payload) < 2 ^ Z.of_nat (qrByteModeCountBits version))%Z →
  read_segment version (encodeQrDataCodewords payload version level) = Some payload.
Proof.
  intros Hg Hp Hc Hcount. destruct (dataCodewords_spec payload version level Hp Hc) as (_ & _ & padding & E).
  unfold read_segment. rewrite E. unfold segment_bits. rewrite <- !app_assoc.
  rewrite take_app_length' by by rewrite length_appendBits.
  rewrite bool_decide_eq_true_2 by done.
  rewrite <- drop_drop, !(drop_app_length' (appendBits BYTE_MODE_INDICATOR 4)) by by rewrite length_appendBits.
  rewrite take_app_length' by by rewrite length_appendBits. rewrite bitsValue_appendBits, Z.mod_small, Nat2Z.id by lia.
  rewrite drop_app_length' by by rewrite length_appendBits. f_equal. by apply codewords_spell.
Qed.
