(* ===== verification/QrBlocks.v ===== *)
(** * Blocks and interleaving

    Where each codeword of each block lands in the interleaved sequence, in
    closed form, and the deinterleaving that inverts [interleave] for blocks of
    any sizes; then the blocks of a symbol and their error-correction check. *)
From S2P Require Import Prelude ReedSolomon QrTables QrEncoder QrData.

(** ** Deinterleaving *)

(** The index of codeword [i] of block [b]: the codewords of all blocks below
    index [i], then those of index [i] in the blocks before [b]. *)
Definition interleaved_position (sizes : list nat) (b i : nat) : nat :=
  sum_list_with (Nat.min i) sizes + length (filter (λ size, i < size) (take b sizes)).

Definition deinterleave {A} `{Inhabited A} (sizes : list nat) (codewords : list A) : list (list A) :=
  imap (λ b size, (λ i, codewords !!! interleaved_position sizes b i) <$> seq 0 size) sizes.

Section Interleave.
Context {A : Type} `{!Inhabited A}.
Implicit Types (blocks : list (list A)) (block : list A).

Definition row_of blocks (i : nat) : list A := omap (.!! i) blocks.

Lemma row_of_cons block blocks i :
  row_of (block :: blocks) i = match block !! i with Some x => x :: row_of blocks i | None => row_of blocks i end.
Proof. done. Qed.

Lemma length_row blocks i : length (row_of blocks i) = length (filter (λ size, i < size) (length <$> blocks)).
Proof.
  induction blocks as [|block blocks IH]; [done|]. rewrite fmap_cons, filter_cons, row_of_cons.
  destruct (block !! i) eqn:E.
  - apply lookup_lt_Some in E. rewrite decide_True by done. simpl. by rewrite IH.
  - apply lookup_ge_None in E. by rewrite decide_False by lia.
Qed.

Lemma lookup_row blocks b block i x :
  blocks !! b = Some block → block !! i = Some x →
  row_of blocks i !! length (row_of (take b blocks) i) = Some x.
Proof.
  intros Hb Hx. assert (row_of blocks i = row_of (take b blocks) i ++ x :: row_of (drop (S b) blocks) i) as ->;
    [|by apply list_lookup_middle].
  rewrite <- (take_drop_middle _ _ _ Hb) at 1. unfold row_of at 1. rewrite omap_app.
  fold (row_of (block :: drop (S b) blocks) i). by rewrite row_of_cons, Hx.
Qed.

(** Rows laid end to end. *)
Lemma lookup_rows (f : nat → list A) m i k x :
  i < m → f i !! k = Some x → (seq 0 m ≫= f) !! (length (seq 0 i ≫= f) + k) = Some x.
Proof.
  intros Hi Hk. replace m with (i + S (m - S i)) by lia. rewrite seq_app, bind_app. cbn [seq Nat.add].
  rewrite bind_cons, lookup_app_r, Nat.add_comm, Nat.add_sub by lia. by apply lookup_app_l_Some.
Qed.

Lemma length_rows blocks i : length (seq 0 i ≫= row_of blocks) = sum_list_with (Nat.min i) (length <$> blocks).
Proof.
  induction i as [|i IH].
  - induction blocks; [done|]. done.
  - rewrite seq_S, bind_app, length_app, IH. cbn [Nat.add]. rewrite bind_singleton, length_row. clear IH.
    induction (length <$> blocks) as [|n l IHl]; [done|]. rewrite filter_cons. cbn [sum_list_with].
    destruct (decide (i < n)); cbn [length]; lia.
Qed.

Lemma longest_ge blocks block : block ∈ blocks → length block ≤ foldr Nat.max 0 (length <$> blocks).
Proof. induction 1; rewrite fmap_cons; cbn [foldr]; lia. Qed.

Lemma lookup_interleave blocks b block i x :
  blocks !! b = Some block → block !! i = Some x →
  interleave blocks !! interleaved_position (length <$> blocks) b i = Some x.
Proof.
  intros Hb Hx. unfold interleave. fold (row_of blocks). unfold interleaved_position.
  rewrite <- fmap_take, <- length_row, <- length_rows. apply lookup_rows.
  - pose proof (longest_ge blocks block (list_elem_of_lookup_2 _ _ _ Hb)). apply lookup_lt_Some in Hx. lia.
  - by eapply lookup_row.
Qed.

Lemma map_lookup_total (f : nat → nat) block (l : list A) :
  (∀ i x, block !! i = Some x → l !! f i = Some x) → (λ i, l !!! f i) <$> seq 0 (length block) = block.
Proof.
  intros Hf. apply list_eq. intros i. rewrite list_lookup_fmap. destruct (block !! i) as [x|] eqn:E.
  - pose proof (lookup_lt_Some _ _ _ E). rewrite lookup_seq_lt by done. simpl. f_equal.
    apply list_lookup_total_correct. by apply Hf.
  - apply lookup_ge_None in E. by rewrite lookup_seq_ge.
Qed.

(** Deinterleaving inverts interleaving, whatever follows. *)
Lemma deinterleave_interleave_app blocks rest :
  deinterleave (length <$> blocks) (interleave blocks ++ rest) = blocks.
Proof.
  unfold deinterleave. apply list_eq. intros b. rewrite list_lookup_imap, list_lookup_fmap.
  destruct (blocks !! b) as [block|] eqn:Hb; [|done]. simpl. f_equal. apply map_lookup_total.
  intros i x Hx. apply lookup_app_l_Some. by eapply lookup_interleave.
Qed.

Lemma length_interleave blocks : length (interleave blocks) = sum_list_with id (length <$> blocks).
Proof.
  unfold interleave. fold (row_of blocks). rewrite length_rows. set (m := foldr _ _ _).
  assert (∀ n, n ∈ length <$> blocks → n ≤ m) as Hm.
  { intros n (block & -> & Hb)%list_elem_of_fmap. by apply longest_ge. }
  clearbody m. induction (length <$> blocks) as [|n l IH]; [done|]. cbn [sum_list_with]. rewrite IH.
  - rewrite Nat.min_r by (apply Hm; by left). done.
  - intros k Hk. apply Hm. by right.
Qed.
End Interleave.

(** ** The data blocks *)

Lemma concat_dataBlocks (data : list Z) sizes :
  length data = sum_list sizes →
  concat (dataBlocks data sizes) = data ∧ length <$> dataBlocks data sizes = sizes.
Proof.
  revert data. induction sizes as [|n sizes IH]; intros data Hl; [by destruct data|].
  simpl in Hl. unfold dataBlocks in *. rewrite imap_cons. cbn [take sum_list_with sum_list]. rewrite drop_0.
  destruct (IH (drop n data)) as [E1 E2]; [rewrite length_drop; lia|].
  assert (imap ((λ index size, take size (drop (sum_list (take index (n :: sizes))) data)) ∘ S) sizes =
          imap (λ index size, take size (drop (sum_list (take index sizes)) (drop n data))) sizes) as ->.
  { apply imap_ext. intros i x _. simpl. by rewrite drop_drop. }
  rewrite fmap_cons, E2. cbn [concat]. rewrite E1, take_drop, length_take. split; [done|]. f_equal. lia.
Qed.

(** ** The blocks of a symbol *)

(** What every row of the table has. *)
Definition layout_ok (version : nat) (level : QrErrorCorrectionLevel) : bool :=
  let layout := qrBlockLayout version level in
  bool_decide (sum_list (blockSizes version level) = qrDataCodewordCount version level) &&
  bool_decide (length (blockSizes version level) * ecCodewordsPerBlock layout + qrDataCodewordCount version level
               = qrTotalCodewordCount version level) &&
  bool_decide (0 < ecCodewordsPerBlock layout < 512).

(** A check of all forty combinations. *)
Lemma qr_versions (P : nat → QrErrorCorrectionLevel → bool) :
  forallb (λ version, forallb (P version) [L; M; Q; H]) (seq 1 10) = true →
  ∀ version level, QR_MIN_VERSION ≤ version ≤ QR_MAX_VERSION → P version level = true.
Proof.
  unfold QR_MIN_VERSION, QR_MAX_VERSION. intros HP version level Hv.
  assert (In version (seq 1 10)) as Hin by (apply in_seq; lia).
  pose proof (proj1 (forallb_forall _ _) HP version Hin) as Hlevels.
  apply (proj1 (forallb_forall _ _) Hlevels). destruct level; simpl; tauto.
Qed.

(** All syndromes of a block with [n] error-correction codewords are zero. *)
Definition block_ok (n : nat) (block : list Z) : bool :=
  forallb (λ i, Z.eqb (poly_eval block (exp_at i)) 0) (seq 0 n).

(** The data of a symbol whose blocks all pass the check. *)
Definition read_blocks (version : nat) (level : QrErrorCorrectionLevel) (codewords : list Z) : option (list Z) :=
  let sizes := blockSizes version level in
  let n := ecCodewordsPerBlock (qrBlockLayout version level) in
  let data_blocks := deinterleave sizes codewords in
  let ec_blocks := deinterleave (replicate (length sizes) n) (drop (sum_list sizes) codewords) in
  if forallb (block_ok n) (zip_with app data_blocks ec_blocks) then Some (concat data_blocks) else None.

Lemma block_ok_completed n data : Forall gf data → 0 < n < 512 → block_ok n (data ++ rsComputeRemainder data n) = true.
Proof.
  intros Hd Hn. apply forallb_forall. intros i Hi%in_seq. apply Z.eqb_eq.
  destruct (rsComputeRemainder_ok n Hn data Hd) as (Hr & Hl & He). pose proof (exp_gf i ltac:(lia)).
  rewrite eval_app by done. by rewrite Hl, He, Z.lxor_nilpotent by lia.
Qed.

Lemma Forall_blocks (P : Z → Prop) blocks : Forall P (concat blocks) → Forall (Forall P) blocks.
Proof. induction blocks; cbn [concat]; [by constructor|]. intros [? ?]%Forall_app. constructor; auto. Qed.

Lemma length_ec_blocks n blocks :
  0 < n < 512 → Forall (Forall gf) blocks →
  length <$> ((λ block, rsComputeRemainder block n) <$> blocks) = replicate (length blocks) n.
Proof.
  intros Hn. induction 1 as [|b l Hb Hg IH]; [done|].
  rewrite !fmap_cons, IH. cbn [length replicate]. f_equal. by apply rsComputeRemainder_ok.
Qed.

Lemma length_buildQrCodewords version level data :
  let n := ecCodewordsPerBlock (qrBlockLayout version level) in
  Forall gf data → length data = sum_list (blockSizes version level) → 0 < n < 512 →
  length (buildQrCodewords data version level) = sum_list (blockSizes version level) + length (blockSizes version level) * n.
Proof.
  intros n Hd Hl Hn. unfold buildQrCodewords. fold n. destruct (concat_dataBlocks data _ Hl) as [Ec Es].
  set (blocks := dataBlocks _ _) in *. rewrite length_app, !length_interleave, length_ec_blocks, Es; [|done|].
  - rewrite <- (length_fmap length blocks), Es. f_equal.
    generalize (length (blockSizes version level)). clear. intros k. induction k; simpl; lia.
  - apply Forall_blocks. by rewrite Ec.
Qed.

Lemma Forall_interleave blocks : Forall (Forall gf) blocks → Forall gf (interleave blocks).
Proof.
  intros Hb. apply list.Forall_forall. intros x (i & Hx & _)%list_elem_of_bind.
  apply list_elem_of_omap in Hx as (block & Hblock & Hx).
  apply (proj1 (list.Forall_forall _ _) (proj1 (list.Forall_forall _ _) Hb block Hblock)). by eapply list_elem_of_lookup_2.
Qed.

Lemma buildQrCodewords_gf version level data :
  let n := ecCodewordsPerBlock (qrBlockLayout version level) in
  Forall gf data → length data = sum_list (blockSizes version level) → 0 < n < 512 →
  Forall gf (buildQrCodewords data version level).
Proof.
  intros n Hd Hl Hn. unfold buildQrCodewords. fold n. destruct (concat_dataBlocks data _ Hl) as [Ec _].
  assert (Forall (Forall gf) (dataBlocks data (blockSizes version level))) as Hg by (apply Forall_blocks; by rewrite Ec).
  apply Forall_app. split; apply Forall_interleave; [done|].
  apply list.Forall_fmap. eapply list.Forall_impl; [exact Hg|]. intros block Hb. by apply rsComputeRemainder_ok.
Qed.

Lemma read_blocks_encoded version level data :
  let n := ecCodewordsPerBlock (qrBlockLayout version level) in
  Forall gf data → length data = sum_list (blockSizes version level) → 0 < n < 512 →
  read_blocks version level (buildQrCodewords data version level) = Some data.
Proof.
  intros n Hd Hl Hn. unfold read_blocks, buildQrCodewords. fold n. set (sizes := blockSizes version level) in *.
  destruct (concat_dataBlocks data sizes Hl) as [Ec Es]. set (blocks := dataBlocks data sizes) in *.
  set (ec := (λ block, rsComputeRemainder block n) <$> blocks).
  assert (Forall (Forall gf) blocks) as Hg by (apply Forall_blocks; by rewrite Ec).
  assert (length <$> ec = replicate (length sizes) n) as Ee.
  { unfold ec. by rewrite length_ec_blocks, <- Es, length_fmap. }
  assert (∀ rest, deinterleave sizes (interleave blocks ++ rest) = blocks) as Hde
    by (intros; rewrite <- Es at 1; apply deinterleave_interleave_app).
  rewrite !Hde, drop_app_length' by (rewrite length_interleave, Es; clear; induction sizes; simpl; lia).
  rewrite <- Ee, <- (app_nil_r (interleave ec)), deinterleave_interleave_app.
  rewrite (proj2 (forallb_forall _ _)); [by rewrite Ec|].
  intros b Hb%list_elem_of_In. clear -Hg Hb Hn. unfold ec in Hb. induction Hg as [|b' l Hb' Hg IH].
  - by apply not_elem_of_nil in Hb.
  - rewrite fmap_cons in Hb. cbn [zip_with] in Hb. apply elem_of_cons in Hb as [->|Hb]; [|by apply IH].
    by apply block_ok_completed.
Qed.

Lemma qr_codewords_facts (version : nat) (level : QrErrorCorrectionLevel) (data : list Z) :
  QR_MIN_VERSION ≤ version ≤ QR_MAX_VERSION →
  Forall gf data → length data = qrDataCodewordCount version level →
  read_blocks version level (buildQrCodewords data version level) = Some data ∧
  length (buildQrCodewords data version level) = qrTotalCodewordCount version level ∧
  Forall gf (buildQrCodewords data version level).
Proof.
  intros Hv Hd Hl. assert (layout_ok version level = true) as Hok
    by (apply qr_versions; [vm_compute; reflexivity|done]).
  unfold layout_ok in Hok. reflect_bools.
  split_and!; [apply read_blocks_encoded; [done|congruence|lia]| |apply buildQrCodewords_gf; [done|congruence|lia]].
  rewrite length_buildQrCodewords by (done || congruence || lia). lia.
Qed.

(** Interleaving loses nothing: for any blocks of any lengths, codeword [i] of
    block [b] sits at [interleaved_position], and picking the codewords there
    gives back every block whatever follows them. *)
Theorem interleave_inverts {A : Type} `{!Inhabited A} (blocks : list (list A)) (rest : list A) :
  deinterleave (length <$> blocks) (interleave blocks ++ rest) = blocks ∧
  length (interleave blocks) = sum_list_with id (length <$> blocks).
Proof. split; [apply deinterleave_interleave_app|apply length_interleave]. Qed.

(** The codewords of every version and level read back: the data codewords of
    a symbol, cut into blocks, completed and interleaved, give the same data when
    the blocks are deinterleaved, and every block passes the syndrome check. *)
Theorem qr_codewords_read_back (version : nat) (level : QrErrorCorrectionLevel) (data : list Z) :
  QR_MIN_VERSION ≤ version ≤ QR_MAX_VERSION →
  Forall gf data → length data = qrDataCodewordCount version level →
  read_blocks version level (buildQrCodewords data version level) = Some data ∧
  length (buildQrCodewords data version level) = qrTotalCodewordCount version level ∧
  Forall gf (buildQrCodewords data version level).
Proof. apply qr_codewords_facts. Qed.

Lemma qr_codewords_read_back_witness :
  read_blocks 1 H (buildQrCodewords [0x40; 0xd2; 0x75; 0x47; 0x76; 0x17; 0x32; 0x06; 0x27]%Z 1 H)
    = Some [0x40; 0xd2; 0x75; 0x47; 0x76; 0x17; 0x32; 0x06; 0x27]%Z.
Proof.
  apply (qr_codewords_read_back 1 H); [unfold QR_MIN_VERSION, QR_MAX_VERSION; lia| |reflexivity].
  repeat constructor; vm_compute; congruence.
Defined.
