(* ===== verification/QrReader.v ===== *)
(** * Reading a QR symbol back

    A reader for finished symbols: the version from the size, the level and mask
    from the format bits, the codewords along the data path with the mask taken
    off, the blocks with their syndrome check, and the byte segment.  The data
    path is the standard's zigzag over the modules that are in no function
    pattern, given in closed form.  The main theorem: whatever [encodeQrSymbol]
    returns reads back to the payload. *)
From S2P Require Import Prelude ReedSolomon QrTables QrEncoder QrData QrBlocks.

(** ** The reader *)

(** The function patterns: finders with separators and format areas, timing lines,
    alignment patterns away from the finders, version areas. *)
Definition within (low high x : nat) : bool := Nat.leb low x && Nat.ltb x high.
Definition is_function (version row column : nat) : bool :=
  let s := qrSymbolSize version in
  let centres := qrAlignmentCentres version in
  let last := centres !!! (length centres - 1) in
  within 0 9 row && (within 0 9 column || within (s - 8) s column) || within (s - 8) s row && within 0 9 column ||
  Nat.eqb row 6 || Nat.eqb column 6 ||
  existsb (λ cr, within (cr - 2) (cr + 3) row && existsb (λ cc, within (cc - 2) (cc + 3) column &&
    negb (Nat.eqb cr 6 && (Nat.eqb cc 6 || Nat.eqb cc last) || Nat.eqb cr last && Nat.eqb cc 6)) centres) centres ||
  Nat.leb 7 version && (within 0 6 row && within (s - 11) (s - 8) column || within 0 6 column && within (s - 11) (s - 8) row).

(** Column pairs from the right, without column 6, alternately upwards and downwards. *)
Definition column_path (s k : nat) : list (nat * nat) :=
  let right := s - 1 - 2 * k in
  let right := if bool_decide (right ≤ 6) then right - 1 else right in
  let rows := if Nat.even k then reverse (seq 0 s) else seq 0 s in
  rows ≫= λ row, [(row, right); (row, right - 1)].
Definition data_path (version : nat) : list (nat * nat) :=
  let s := qrSymbolSize version in
  filter (λ p, is_function version p.1 p.2 = false) (seq 0 ((s - 1) / 2) ≫= column_path s).

(** The format bits beside the upper left finder, bit 0 first. *)
Definition format_position (i : nat) : nat * nat :=
  if bool_decide (i ≤ 5) then (i, 8) else if bool_decide (i = 6) then (7, 8)
  else if bool_decide (i = 7) then (8, 8) else if bool_decide (i = 8) then (8, 7) else (8, 14 - i).
Definition decode_format (bits : list bool) : option (QrErrorCorrectionLevel * nat) :=
  let data := Z.shiftr (Z.lxor (bitsValue (reverse bits)) FORMAT_XOR_MASK) 10 in
  let mask := Z.to_nat (Z.land data 7) in
  match Z.shiftr data 3 with
  | 1%Z => Some (L, mask) | 0%Z => Some (M, mask) | 3%Z => Some (Q, mask) | 2%Z => Some (H, mask)
  | _ => None
  end.

Definition read_bits (version mask : nat) (symbol : QrMatrix) : list bool :=
  (λ p : nat * nat, xorb (module_at symbol p.1 p.2) (qrMaskApplies mask p.1 p.2)) <$> data_path version.

Definition read_symbol (symbol : QrMatrix) : option (list Z) :=
  let version := (length symbol - 17) / 4 in
  '(level, mask) ← decode_format ((λ i, module_at symbol (format_position i).1 (format_position i).2) <$> seq 0 15);
  let bits := read_bits version mask symbol in
  data ← read_blocks version level (codewordAt bits <$> seq 0 (qrTotalCodewordCount version level));
  read_segment version data.

(** ** Grids *)

Definition square (n : nat) (g : QrMatrix) : Prop := length g = n ∧ Forall (λ row, length row = n) g.

Lemma square_row n g r : square n g → r < n → ∃ row, g !! r = Some row ∧ length row = n.
Proof.
  intros [Hl Hf] Hr. destruct (lookup_lt_is_Some_2 g r) as [row Hrow]; [lia|]. exists row. split; [done|].
  by apply (proj1 (list.Forall_lookup _ _) Hf r).
Qed.

Lemma square_setModule n g r c d : square n g → square n (setModule g r c d).
Proof.
  intros [Hl Hf]. unfold setModule. split; [by rewrite length_alter|].
  apply list.Forall_alter; [done|]. intros row _ <-. apply length_insert.
Qed.

Lemma module_at_setModule n g r c d r' c' :
  square n g → r < n → c < n →
  module_at (setModule g r c d) r' c' = if decide ((r, c) = (r', c')) then d else module_at g r' c'.
Proof.
  intros Hg Hr Hc. destruct (square_row n g r Hg Hr) as (row & Hrow & Hlen).
  unfold module_at, setModule. destruct (decide (r = r')) as [<-|Hne].
  - rewrite list_lookup_alter_eq, Hrow. cbn. destruct (decide (c = c')) as [<-|Hne].
    + rewrite decide_True by done. by rewrite list_lookup_insert_eq by lia.
    + rewrite decide_False by congruence. by rewrite list_lookup_insert_ne.
  - rewrite decide_False by congruence. by rewrite list_lookup_alter_ne.
Qed.

Lemma square_emptyGrid n : square n (emptyGrid n).
Proof. unfold emptyGrid. split; [apply length_replicate|]. apply Forall_replicate, length_replicate. Qed.

(** ** Writes of function modules *)

(** [drawFormat] as a list of writes; a later write to a module wins. *)
Definition write (b : QrMatrixBuilder) (w : Z * Z * bool) : QrMatrixBuilder := setFunction b w.1.1 w.1.2 w.2.
Definition position_of (w : Z * Z * bool) : nat * nat := (Z.to_nat w.1.1, Z.to_nat w.1.2).
Definition format_writes (s format : Z) : list (Z * Z * bool) :=
  let bit := Z.testbit format in
  ((λ i, (i, 8, bit i)%Z) <$> seqZ 0 6) ++ [(7, 8, bit 6); (8, 8, bit 7); (8, 7, bit 8)]%Z ++
  ((λ i, (8, 14 - i, bit i)%Z) <$> seqZ 9 6) ++ ((λ i, (8, s - 1 - i, bit i)%Z) <$> seqZ 0 8) ++
  ((λ i, (s - 15 + i, 8, bit i)%Z) <$> seqZ 8 7) ++ [(s - 8, 8, true)]%Z.

Lemma drawFormat_writes b format : drawFormat b format = foldl write b (format_writes (Z.of_nat (size b)) format).
Proof.
  unfold drawFormat, format_writes, loop. rewrite !foldl_app, !foldl_fmap. cbn [foldl]. reflexivity.
Qed.
Lemma format_positions s format : position_of <$> format_writes s format = position_of <$> format_writes s 0.
Proof. reflexivity. Qed.

Definition write_at (ws : list (Z * Z * bool)) (p : nat * nat) : option bool :=
  foldl (λ found w, if decide (position_of w = p) then Some w.2 else found) None ws.

Lemma write_at_None ws p : p ∉ position_of <$> ws → write_at ws p = None.
Proof.
  unfold write_at. induction ws as [|w ws IH] using rev_ind; intros Hp; [done|]. rewrite foldl_app. cbn [foldl].
  rewrite fmap_app in Hp. apply not_elem_of_app in Hp as [Hp [Hw _]%not_elem_of_cons].
  rewrite decide_False by congruence. by apply IH.
Qed.

Lemma modules_writes n b ws p :
  square n (modules b) → Forall (λ p, p.1 < n ∧ p.2 < n) (position_of <$> ws) →
  square n (modules (foldl write b ws)) ∧
  module_at (modules (foldl write b ws)) p.1 p.2 = default (module_at (modules b) p.1 p.2) (write_at ws p).
Proof.
  intros Hb. induction ws as [|w ws IH] using rev_ind; intros Hw; [done|].
  rewrite fmap_app in Hw. apply Forall_app in Hw as [Hw [[Hr Hc] _]%Forall_cons_1]. destruct (IH Hw) as [Hs Hat].
  unfold write_at in *. rewrite !foldl_app. cbn [foldl write setFunction modules]. unfold write. cbn [setFunction modules].
  split; [by apply square_setModule|]. rewrite (module_at_setModule n) by done.
  destruct p as [r c]. change (Z.to_nat w.1.1, Z.to_nat w.1.2) with (position_of w).
  cbn [fst snd] in *. destruct (decide (position_of w = (r, c))); [done|]. apply Hat.
Qed.

(** Bit [i] of the format is read at its position beside the upper left finder. *)
Lemma format_read version format i :
  QR_MIN_VERSION ≤ version ≤ QR_MAX_VERSION → i < 15 →
  write_at (format_writes (Z.of_nat (qrSymbolSize version)) format) (format_position i) = Some (Z.testbit format (Z.of_nat i)).
Proof.
  unfold QR_MIN_VERSION, QR_MAX_VERSION. intros Hv Hi.
  do 11 (destruct version as [|version]; [try lia; do 15 (destruct i as [|i]; [reflexivity|]); lia|]). lia.
Qed.

(** The second copy, along the edges, and the dark module. *)
Definition far_format_position (s i : nat) : nat * nat := if Nat.ltb i 8 then (8, s - 1 - i) else (s - 15 + i, 8).
Lemma far_format_read version format :
  QR_MIN_VERSION ≤ version ≤ QR_MAX_VERSION →
  let s := qrSymbolSize version in let ws := format_writes (Z.of_nat s) format in
  (∀ i, i < 15 → write_at ws (far_format_position s i) = Some (Z.testbit format (Z.of_nat i))) ∧ write_at ws (s - 8, 8) = Some true.
Proof.
  unfold QR_MIN_VERSION, QR_MAX_VERSION. intros Hv. cbv zeta.
  do 11 (destruct version as [|version];
         [first [lia|split; [intros i Hi; do 15 (destruct i as [|i]; [reflexivity|]); lia|reflexivity]]|]). lia.
Qed.

(** ** Placement *)

Section Placement.
Context (n : nat) (codewords : list Z) (reserved : QrMatrix).
Let free (p : nat * nat) : Prop := module_at reserved p.1 p.2 = false.

Lemma placeModule_cases (g : QrMatrix) k p :
  placeModule codewords reserved (g, k) p =
  if decide (free p) then (setModule g p.1 p.2 (codewordBit codewords k), S k) else (g, k).
Proof. destruct p as [r c]. unfold placeModule, free. simpl. by destruct (module_at reserved r c). Qed.

Lemma placed ps g k :
  square n g → Forall (λ p, p.1 < n ∧ p.2 < n) ps → NoDup ps →
  let g' := (foldl (placeModule codewords reserved) (g, k) ps).1 in
  square n g' ∧ (∀ p, p ∉ ps ∨ ¬ free p → module_at g' p.1 p.2 = module_at g p.1 p.2) ∧
  (λ p, module_at g' p.1 p.2) <$> filter free ps = codewordBit codewords <$> seq k (length (filter free ps)).
Proof.
  revert g k. induction ps as [|p ps IH]; intros g k Hg Hps Hnd; [done|].
  apply Forall_cons_1 in Hps as [[Hr Hc] Hps]. apply list.NoDup_cons in Hnd as [Hp Hnd]. cbn [foldl].
  rewrite placeModule_cases, filter_cons. destruct (decide (free p)) as [Hf|Hf].
  - set (g1 := setModule g p.1 p.2 (codewordBit codewords k)).
    destruct (IH g1 (S k)) as (Hs & Hout & Hin); [by apply square_setModule|done|done|]. cbv zeta. split_and!; [done| |].
    + intros q Hq. rewrite not_elem_of_cons in Hq. rewrite Hout by tauto.
      unfold g1. rewrite (module_at_setModule n) by done. apply decide_False. intros Eq.
      assert (p = q) as -> by (destruct p, q; simpl in *; congruence). tauto.
    + rewrite fmap_cons. cbn [length seq]. rewrite fmap_cons, Hin. f_equal. rewrite Hout by auto.
      unfold g1. rewrite (module_at_setModule n) by done. by rewrite decide_True by by destruct p.
  - destruct (IH g k) as (Hs & Hout & Hin); [done..|]. cbv zeta. split_and!; [done| |done].
    intros q Hq. rewrite not_elem_of_cons in Hq. apply Hout. tauto.
Qed.
End Placement.

(** ** Masking *)

Lemma module_at_masked b mask n r c :
  square n (modules b) → r < n → c < n →
  module_at (maskModules b mask) r c =
  xorb (module_at (modules b) r c) (negb (module_at (reserved b) r c) && qrMaskApplies mask r c).
Proof.
  intros Hb Hr Hc. destruct (square_row _ _ r Hb Hr) as (row & Hrow & Hl).
  destruct (lookup_lt_is_Some_2 row c) as [d Hd]; [lia|].
  unfold module_at at 1 2, maskModules. rewrite list_lookup_imap, Hrow. simpl. by rewrite list_lookup_imap, Hd.
Qed.

Lemma square_masked b mask n : square n (modules b) → square n (maskModules b mask).
Proof.
  intros [Hl Hf]. unfold maskModules. split; [by rewrite length_imap|].
  apply list.Forall_lookup. intros i row Hi. rewrite list_lookup_imap in Hi.
  destruct (modules b !! i) as [row'|] eqn:E; [|done]. injection Hi as <-. rewrite length_imap.
  by apply (proj1 (list.Forall_lookup _ _) Hf i).
Qed.

(** ** The geometry of the ten versions *)

Definition pattern_builder (version : nat) : QrMatrixBuilder :=
  drawFunctionPatterns (newBuilder (qrSymbolSize version)) version.
Definition all_path (s : nat) : list (nat * nat) := seq 0 ((s - 1) / 2) ≫= column_path s.
Definition geometry_ok (version : nat) : bool :=
  let s := qrSymbolSize version in
  let b := pattern_builder version in
  let path := zigzag s in
  let free := length (data_path version) in
  bool_decide (size b = s) && bool_decide (length (modules b) = s) && forallb (λ row, Nat.eqb (length row) s) (modules b) &&
  bool_decide (reserved b = (λ r, (λ c, is_function version r c) <$> seq 0 s) <$> seq 0 s) &&
  bool_decide (path = all_path s) &&
  forallb (λ p, Nat.ltb p.1 s && Nat.ltb p.2 s) path &&
  forallb (λ p, is_function version p.1 p.2 && Nat.ltb p.1 s && Nat.ltb p.2 s) (position_of <$> format_writes (Z.of_nat s) 0) &&
  forallb (λ level, Nat.leb (8 * qrTotalCodewordCount version level) free &&
                    Nat.ltb free (8 * S (qrTotalCodewordCount version level))) [L; M; Q; H].

Lemma geometry version : QR_MIN_VERSION ≤ version ≤ QR_MAX_VERSION → geometry_ok version = true.
Proof.
  unfold QR_MIN_VERSION, QR_MAX_VERSION. intros Hv. assert (forallb geometry_ok (seq 1 10) = true) as Hall by (vm_compute; reflexivity).
  apply (proj1 (forallb_forall _ _) Hall), in_seq. lia.
Qed.

Lemma module_at_grid s (f : nat → nat → bool) r c :
  r < s → c < s → module_at ((λ r, (λ c, f r c) <$> seq 0 s) <$> seq 0 s) r c = f r c.
Proof.
  intros Hr Hc. unfold module_at. rewrite list_lookup_fmap, lookup_seq_lt by done. simpl.
  by rewrite list_lookup_fmap, lookup_seq_lt by done.
Qed.

(** No module is visited twice. *)
Lemma column_path_columns s k r c :
  (r, c) ∈ column_path s k →
  let right := s - 1 - 2 * k in let right := if bool_decide (right ≤ 6) then right - 1 else right in
  r < s ∧ (c = right ∨ c = right - 1).
Proof.
  unfold column_path. set (right := if bool_decide _ then _ else _). cbv zeta.
  intros (row & Hp & Hrow)%list_elem_of_bind. assert (row < s) as Hs.
  { destruct (Nat.even k); [rewrite elem_of_reverse in Hrow|]; apply elem_of_seq in Hrow; lia. }
  apply elem_of_cons in Hp as [E|E%list_elem_of_singleton]; injection E as -> ->; auto.
Qed.

Lemma all_path_nodup version : NoDup (all_path (qrSymbolSize version)).
Proof.
  unfold qrSymbolSize. replace (17 + 4 * version) with (2 * (8 + 2 * version) + 1) by lia. set (h := 8 + 2 * version).
  assert (all_path (2 * h + 1) = seq 0 h ≫= column_path (2 * h + 1)) as ->.
  { unfold all_path. do 2 f_equal. rewrite Nat.add_sub, Nat.mul_comm. by apply Nat.div_mul. }
  apply NoDup_bind; [| |apply NoDup_seq].
  - intros k k' [r c] Hk%elem_of_seq Hk'%elem_of_seq [_ H1]%column_path_columns [_ H2]%column_path_columns.
    repeat case_bool_decide; lia.
  - intros k Hk%elem_of_seq. unfold column_path. set (right := if bool_decide _ then _ else _).
    assert (1 ≤ right) as Hr by (unfold right; case_bool_decide; lia).
    apply NoDup_bind.
    + intros r r' p _ _ Hp Hp'. apply elem_of_cons in Hp as [Hp|Hp%list_elem_of_singleton];
        apply elem_of_cons in Hp' as [Hp'|Hp'%list_elem_of_singleton]; congruence.
    + intros r _. apply list.NoDup_cons. split; [|apply NoDup_singleton]. intros E%list_elem_of_singleton. injection E. lia.
    + destruct (Nat.even k); [rewrite reverse_Permutation|]; apply NoDup_seq.
Qed.

(** What the check establishes. *)
Record Geometry (version : nat) : Prop := {
  geo_size : size (pattern_builder version) = qrSymbolSize version;
  geo_square : square (qrSymbolSize version) (modules (pattern_builder version));
  geo_reserved r c : r < qrSymbolSize version → c < qrSymbolSize version →
    module_at (reserved (pattern_builder version)) r c = is_function version r c;
  geo_path : zigzag (qrSymbolSize version) = all_path (qrSymbolSize version);
  geo_nodup : NoDup (zigzag (qrSymbolSize version));
  geo_range : Forall (λ p, p.1 < qrSymbolSize version ∧ p.2 < qrSymbolSize version) (zigzag (qrSymbolSize version));
  geo_format : Forall (λ p, is_function version p.1 p.2 = true ∧ p.1 < qrSymbolSize version ∧ p.2 < qrSymbolSize version)
                 (position_of <$> format_writes (Z.of_nat (qrSymbolSize version)) 0);
  geo_capacity level : 8 * qrTotalCodewordCount version level ≤ length (data_path version) < 8 * S (qrTotalCodewordCount version level)
}.

Lemma forallb_Forall_iff {A} (f : A → bool) (P : A → Prop) l :
  (∀ x, f x = true → P x) → forallb f l = true → Forall P l.
Proof. intros Hf Hl. apply List.Forall_forall. intros x Hx. apply Hf. by apply (proj1 (forallb_forall _ _) Hl). Qed.

Lemma geometry_facts version : QR_MIN_VERSION ≤ version ≤ QR_MAX_VERSION → Geometry version.
Proof.
  intros Hv. pose proof (geometry version Hv) as Hg. unfold geometry_ok in Hg.
  apply andb_true_iff in Hg as [Hg Hcap]. reflect_bools. split; try done.
  - split; [done|]. eapply forallb_Forall_iff; [|done]. intros row E. cbv beta in E. by apply Nat.eqb_eq.
  - intros r c Hr Hc. match goal with E : reserved _ = _ |- _ => rewrite E end. by apply module_at_grid.
  - assert (zigzag (qrSymbolSize version) = all_path (qrSymbolSize version)) as -> by done. apply all_path_nodup.
  - eapply forallb_Forall_iff; [|done]. intros p E. cbv beta in E. reflect_bools. split; apply Nat.ltb_lt; done.
  - eapply forallb_Forall_iff; [|done]. intros p E. cbv beta in E. reflect_bools. split_and!; [done|apply Nat.ltb_lt; done..].
  - intros level. assert (In level [L; M; Q; QrTables.H]) as Hin by (destruct level; simpl; tauto).
    pose proof (proj1 (forallb_forall _ _) Hcap level Hin) as E. cbv beta in E. reflect_bools.
    split; [by apply Nat.leb_le|by apply Nat.ltb_lt].
Qed.

(** ** What a finished symbol holds *)

Section Symbol.
Context (version : nat) (Hv : QR_MIN_VERSION ≤ version ≤ QR_MAX_VERSION) (codewords : list Z).
Let n := qrSymbolSize version.
Let base := buildUnmaskedMatrix codewords version.

Lemma base_facts :
  size base = n ∧ square n (modules base) ∧ reserved base = reserved (pattern_builder version) ∧
  (∀ p, p.1 < n → p.2 < n → is_function version p.1 p.2 = true →
    module_at (modules base) p.1 p.2 = module_at (modules (pattern_builder version)) p.1 p.2) ∧
  (λ p, module_at (modules base) p.1 p.2) <$> data_path version = codewordBit codewords <$> seq 0 (length (data_path version)).
Proof.
  destruct (geometry_facts version Hv) as [Hsize Hsquare Hres Hpath Hnd Hrange _ _]. fold n in Hsize, Hsquare, Hres, Hpath, Hnd, Hrange.
  unfold base. change (buildUnmaskedMatrix codewords version) with (placeCodewords (pattern_builder version) codewords).
  unfold placeCodewords. cbn [size modules reserved].
  rewrite Hsize. destruct (placed n codewords (reserved (pattern_builder version)) (zigzag n) (modules (pattern_builder version)) 0)
    as (Hs & Hout & Hin); [done..|]. split_and!; [done|done|done| |].
  { intros p Hr Hc Hf. apply Hout. right. rewrite Hres by done. congruence. }
  assert (filter (λ p, module_at (reserved (pattern_builder version)) p.1 p.2 = false) (zigzag n) = data_path version) as <-; [|done].
  unfold data_path. fold n; fold (all_path n). rewrite <- Hpath. clear -Hrange Hres.
  induction Hrange as [|p l [Hr Hc] _ IH]; [done|]. by rewrite !filter_cons, IH, Hres.
Qed.

Section Finished.
Context (level : QrErrorCorrectionLevel) (mask : nat).
Let symbol := finishSymbol base level mask.
Let ws := format_writes (Z.of_nat n) (qrFormatBits level mask).

(** A module of the finished symbol: the last format write, or the masked module. *)
Lemma finished_at p :
  square n symbol ∧ module_at symbol p.1 p.2 = default (module_at (maskModules base mask) p.1 p.2) (write_at ws p).
Proof.
  destruct base_facts as (Hsize & Hsquare & _). destruct (geometry_facts version Hv) as [_ _ _ _ _ _ Hformat _].
  set (b := mkBuilder (size base) (maskModules base mask) (reserved base)).
  assert (symbol = modules (foldl write b ws)) as ->.
  { unfold symbol, finishSymbol. rewrite drawFormat_writes. cbn [size]. by rewrite Hsize. }
  apply (modules_writes n b ws); [by apply square_masked|]. unfold ws. rewrite format_positions.
  eapply list.Forall_impl; [exact Hformat|]. by intros q (_ & ? & ?).
Qed.

Lemma finished_facts :
  length symbol = n ∧ read_bits version mask symbol = codewordBit codewords <$> seq 0 (length (data_path version)) ∧
  (λ i, module_at symbol (format_position i).1 (format_position i).2) <$> seq 0 15 =
  (λ i, Z.testbit (qrFormatBits level mask) (Z.of_nat i)) <$> seq 0 15.
Proof.
  destruct base_facts as (_ & Hsquare & Hres & _ & Hbits).
  destruct (geometry_facts version Hv) as [_ _ Hfun Hpath Hnd Hrange Hformat _]. fold n in Hfun, Hpath, Hrange, Hformat.
  split; [apply (finished_at (0, 0))|]. split.
  - rewrite <- Hbits. unfold read_bits. apply list_fmap_ext. intros i p Hp%list_elem_of_lookup_2.
    unfold data_path in Hp. fold n in Hp; fold (all_path n) in Hp. rewrite <- Hpath in Hp.
    apply list_elem_of_filter in Hp as [Hf Hz]. pose proof (proj1 (list.Forall_forall _ _) Hrange _ Hz) as [Hr Hc].
    rewrite (proj2 (finished_at p)), write_at_None.
    + simpl default. rewrite (module_at_masked _ _ n) by done.
      rewrite Hres, Hfun, Hf by done. by destruct (module_at _ _ _), (qrMaskApplies _ _ _).
    + unfold ws. rewrite format_positions. intros Hin. pose proof (proj1 (list.Forall_forall _ _) Hformat _ Hin) as [? _]. congruence.
  - apply list_fmap_ext. intros i x Hx%list_elem_of_lookup_2%elem_of_seq.
    rewrite (proj2 (finished_at _)). unfold ws, n. by rewrite format_read by (done || lia).
Qed.

(** Function modules outside the format areas are those of the version alone. *)
Lemma finished_functions p :
  p.1 < n → p.2 < n → is_function version p.1 p.2 = true → p ∉ position_of <$> format_writes (Z.of_nat n) 0 →
  module_at symbol p.1 p.2 = module_at (modules (pattern_builder version)) p.1 p.2.
Proof.
  intros Hr Hc Hf Hw. destruct base_facts as (_ & Hsquare & Hres & Hsame & _).
  destruct (geometry_facts version Hv) as [_ _ Hfun _ _ _ _ _].
  rewrite (proj2 (finished_at p)), write_at_None by (unfold ws; by rewrite format_positions).
  simpl default. rewrite (module_at_masked _ _ n), Hres, Hfun, Hf by done. simpl. rewrite xorb_false_r. by apply Hsame.
Qed.

Lemma finished_format :
  (∀ i, i < 15 →
    module_at symbol (format_position i).1 (format_position i).2 = Z.testbit (qrFormatBits level mask) (Z.of_nat i) ∧
    module_at symbol (far_format_position n i).1 (far_format_position n i).2 = Z.testbit (qrFormatBits level mask) (Z.of_nat i)) ∧
  module_at symbol (n - 8) 8 = true.
Proof.
  destruct (far_format_read version (qrFormatBits level mask) Hv) as [Hfar Hdark]. split.
  - intros i Hi. rewrite !(proj2 (finished_at _)). unfold ws, n.
    rewrite format_read by done. by rewrite Hfar by done.
  - pose proof (proj2 (finished_at (n - 8, 8))) as E. cbn [fst snd] in E. rewrite E. unfold ws, n. by rewrite Hdark.
Qed.
End Finished.
End Symbol.

(** ** Bits of the codewords *)

Lemma codewordBit_cons c l k :
  codewordBit (c :: l) (8 + k) = codewordBit l k.
Proof.
  unfold codewordBit. replace ((8 + k) / 8) with (S (k / 8)) by (pose proof (Nat.div_add k 1 8) as E; change (1 * 8) with 8 in E; rewrite Nat.add_comm; lia).
  replace ((8 + k) mod 8) with (k mod 8) by (pose proof (Nat.Div0.mod_add k 1 8) as E; change (1 * 8) with 8 in E; rewrite Nat.add_comm; lia).
  f_equal. apply bool_decide_ext. cbn [length]. lia.
Qed.

Lemma codewordBit_spell l : codewordBit l <$> seq 0 (8 * length l) = spell l.
Proof.
  induction l as [|c l IH]; [done|].
  replace (8 * length (c :: l)) with (8 + 8 * length l) by (cbn [length]; lia). rewrite seq_app, fmap_app.
  unfold spell. rewrite bind_cons. assert (codewordBit (c :: l) <$> seq 0 8 = appendBits c 8) as -> by done. f_equal. fold (spell l). rewrite <- IH. change (0 + 8) with (8 + 0).
  rewrite <- fmap_add_seq, <- list_fmap_compose. apply list_fmap_ext. intros i k _. apply codewordBit_cons.
Qed.

Lemma read_codewords l m :
  Forall gf l → 8 * length l ≤ m → codewordAt (codewordBit l <$> seq 0 m) <$> seq 0 (length l) = l.
Proof.
  intros Hl Hm. replace m with (8 * length l + (m - 8 * length l)) by lia. rewrite seq_app, fmap_app, codewordBit_spell.
  by apply codewords_spell.
Qed.

(** ** Versions and formats *)

Lemma selectFrom_spec version left byteLength level :
  match selectFrom version left byteLength level with
  | Some v => version ≤ v < version + left ∧ byteLength ≤ qrByteCapacity v level ∧
              ∀ u, version ≤ u < v → qrByteCapacity u level < byteLength
  | None => ∀ u, version ≤ u < version + left → qrByteCapacity u level < byteLength
  end.
Proof.
  revert version. induction left as [|left IH]; intros version; cbn [selectFrom]; [lia|]. case_bool_decide as Hfit.
  - split_and!; [lia..|done|lia].
  - specialize (IH (version + 1)). destruct (selectFrom (version + 1) left byteLength level) as [v|].
    + destruct IH as (? & ? & Hlt). split_and!; [lia..|done|]. intros u Hu.
      destruct (decide (u = version)) as [->|]; [lia|apply Hlt; lia].
    + intros u Hu. destruct (decide (u = version)) as [->|]; [lia|apply IH; lia].
Qed.

(** The segment header fits and the count field holds every length that fits. *)
Definition segment_ok (version : nat) (level : QrErrorCorrectionLevel) : bool :=
  Nat.leb (4 + qrByteModeCountBits version) (8 * qrDataCodewordCount version level) &&
  Z.ltb (Z.of_nat (qrByteCapacity version level)) (2 ^ Z.of_nat (qrByteModeCountBits version)) &&
  Nat.leb (qrByteCapacity version level) (qrByteCapacity QR_MAX_VERSION level).

Lemma segment_facts version level :
  QR_MIN_VERSION ≤ version ≤ QR_MAX_VERSION →
  4 + qrByteModeCountBits version ≤ 8 * qrDataCodewordCount version level ∧
  (Z.of_nat (qrByteCapacity version level) < 2 ^ Z.of_nat (qrByteModeCountBits version))%Z ∧
  qrByteCapacity version level ≤ qrByteCapacity QR_MAX_VERSION level.
Proof.
  intros Hv. assert (segment_ok version level = true) as E by (apply qr_versions; [vm_compute; reflexivity|done]).
  unfold segment_ok in E. reflect_bools. split_and!; [by apply Nat.leb_le|by apply Z.ltb_lt|by apply Nat.leb_le].
Qed.

Definition format_bits (level : QrErrorCorrectionLevel) (mask : nat) : list bool :=
  (λ i, Z.testbit (qrFormatBits level mask) (Z.of_nat i)) <$> seq 0 15.

Lemma decode_format_bits level mask : mask < QR_MASK_COUNT → decode_format (format_bits level mask) = Some (level, mask).
Proof.
  unfold QR_MASK_COUNT. intros Hm. do 8 (destruct mask as [|mask]; [destruct level; vm_compute; reflexivity|]). lia.
Qed.

(** ** Every symbol reads back *)

Lemma read_finished version level mask payload :
  QR_MIN_VERSION ≤ version ≤ QR_MAX_VERSION → mask < QR_MASK_COUNT →
  Forall gf payload → length payload ≤ qrByteCapacity version level →
  read_symbol (finishSymbol (buildUnmaskedMatrix
    (buildQrCodewords (encodeQrDataCodewords payload version level) version level) version) level mask) = Some payload.
Proof.
  intros Hv Hm Hp Hl. destruct (segment_facts version level Hv) as (Hseg & Hcount & _).
  destruct (dataCodewords_spec payload version level Hl Hseg) as (Hlen & Hgf & _).
  set (data := encodeQrDataCodewords payload version level) in *.
  destruct (qr_codewords_facts version level data Hv Hgf Hlen) as (Hblocks & Htotal & Hcw).
  set (codewords := buildQrCodewords data version level) in *.
  destruct (finished_facts version Hv codewords level mask) as (Hsize & Hbits & Hformat).
  destruct (geometry_facts version Hv) as [_ _ _ _ _ _ _ Hcap]. specialize (Hcap level).
  unfold read_symbol. rewrite Hformat, Hsize. fold (format_bits level mask). rewrite decode_format_bits by done. cbn [mbind option_bind].
  replace ((qrSymbolSize version - 17) / 4) with version
    by (unfold qrSymbolSize; rewrite Nat.add_comm, Nat.add_sub, Nat.mul_comm; by rewrite Nat.div_mul).
  rewrite Hbits, <- Htotal, read_codewords by (done || lia). rewrite Hblocks. cbn [mbind option_bind].
  apply read_segment_encoded; [done..|]. lia.
Qed.

Lemma selectQrVersion_spec byteLength level :
  match selectQrVersion byteLength level with
  | Returns version => QR_MIN_VERSION ≤ version ≤ QR_MAX_VERSION ∧ byteLength ≤ qrByteCapacity version level ∧
                       ∀ u, QR_MIN_VERSION ≤ u < version → qrByteCapacity u level < byteLength
  | Throws e => e = PayloadTooLong byteLength (qrByteCapacity QR_MAX_VERSION level) ∧ qrByteCapacity QR_MAX_VERSION level < byteLength
  end.
Proof.
  unfold selectQrVersion. pose proof (selectFrom_spec QR_MIN_VERSION (QR_MAX_VERSION + 1 - QR_MIN_VERSION) byteLength level) as Hs.
  destruct (selectFrom _ _ _ _) as [v|].
  - destruct Hs as (? & ? & ?). unfold QR_MIN_VERSION, QR_MAX_VERSION in *. split_and!; [lia..|done].
  - split; [done|]. apply Hs. unfold QR_MIN_VERSION, QR_MAX_VERSION. lia.
Qed.

(** The least element of a nonempty list and its first position. *)
Lemma foldr_min_least d l : (∀ x, x ∈ l → foldr Nat.min d l ≤ x) ∧ (foldr Nat.min d l = d ∨ foldr Nat.min d l ∈ l).
Proof.
  induction l as [|y l [IH1 IH2]]; [split; [by intros x ?%not_elem_of_nil|by left]|]. cbn [foldr]. split.
  - intros x [->|Hx]%elem_of_cons; [lia|]. specialize (IH1 x Hx). lia.
  - destruct (Nat.min_dec y (foldr Nat.min d l)) as [->| ->]; [right; by left|]. destruct IH2; [by left|right; by right].
Qed.

Definition penalty_of (base : QrMatrixBuilder) (level : QrErrorCorrectionLevel) (mask : nat) : nat :=
  total (qrMaskPenalty (finishSymbol base level mask)).

Lemma chooseMask_spec base level :
  chooseMask base level < QR_MASK_COUNT ∧
  (∀ m, m < QR_MASK_COUNT → penalty_of base level (chooseMask base level) ≤ penalty_of base level m) ∧
  (∀ m, m < chooseMask base level → penalty_of base level (chooseMask base level) < penalty_of base level m).
Proof.
  unfold chooseMask. fold (penalty_of base level). set (p := penalty_of base level).
  change (λ mask : nat, total (qrMaskPenalty (finishSymbol base level mask))) with p.
  set (scores := p <$> seq 0 QR_MASK_COUNT). set (least := foldr Nat.min _ scores).
  destruct (foldr_min_least (default 0 (head scores)) scores) as [Hle Hin]. fold least in Hle, Hin.
  assert (least ∈ scores) as Hleast by (destruct Hin as [->|]; [left|done]).
  assert (∀ m, m < QR_MASK_COUNT → least ≤ p m) as Hmin.
  { intros m Hm. apply Hle. unfold scores. apply list_elem_of_fmap_2, elem_of_seq. lia. }
  assert (∀ i x, scores !! i = Some x → i < QR_MASK_COUNT ∧ x = p i) as Hat.
  { intros i x (k & -> & [-> ?]%lookup_seq)%list_lookup_fmap_Some. done. }
  destruct (list_find (λ s, s = least) scores) as [[i x]|] eqn:E.
  - apply list_find_Some in E as (Hi & -> & Hfirst). simpl. destruct (Hat _ _ Hi) as [Hlt Ep]. fold p. rewrite <- Ep.
    split_and!; [done|done|]. intros m Hm. specialize (Hmin m ltac:(lia)).
    assert (scores !! m = Some (p m)) as Hs by (unfold scores; rewrite list_lookup_fmap, lookup_seq_lt by lia; done).
    specialize (Hfirst _ _ Hs Hm). lia.
  - apply list_find_None in E. destruct (proj1 (list.Forall_forall _ _) E least Hleast); done.
Qed.

(** C30. Every symbol reads back: whatever the bytes of the payload, the level and
    the mask, forced or chosen, the modules [encodeQrSymbol] returns are read back
    to exactly the payload, through the format bits, the data path, the mask, the
    interleaving, the error-correction check and the byte segment; the symbol has
    the level and mask asked for and the smallest version that holds the payload. *)
Theorem qr_symbol_reads_back (payload : list Z) (options : QrEncodeOptions) (symbol : QrSymbol) :
  Forall gf payload → encodeQrSymbol payload options = Returns symbol →
  read_symbol (sym_modules symbol) = Some payload ∧
  sym_level symbol = default M (opt_ecLevel options) ∧ sym_mask symbol = default (sym_mask symbol) (opt_mask options) ∧
  QR_MIN_VERSION ≤ sym_version symbol ≤ QR_MAX_VERSION ∧
  length payload ≤ qrByteCapacity (sym_version symbol) (sym_level symbol) ∧
  (∀ u, QR_MIN_VERSION ≤ u < sym_version symbol → qrByteCapacity u (sym_level symbol) < length payload).
Proof.
  intros Hp He. unfold encodeQrSymbol in He. set (level := default M _) in *.
  pose proof (selectQrVersion_spec (length payload) level) as Hs.
  set (check := match opt_mask options with Some _ => _ | None => _ end) in He.
  assert (check = Returns tt ∧ ∀ m, opt_mask options = Some m → m < QR_MASK_COUNT) as [-> Hmask].
  { unfold check, isValidMask in *. destruct (opt_mask options) as [m|]; [|done].
    case_bool_decide; [|done]. split; [done|by intros ? [= <-]]. }
  cbn [mbind outcome_bind] in He. destruct (selectQrVersion (length payload) level) as [version|]; [|done].
  destruct Hs as (Hv & Hfit & Hleast). cbn [mbind outcome_bind] in He. injection He as <-. cbn [sym_modules sym_level sym_mask sym_version].
  split_and!; [|done|by destruct (opt_mask options)|lia..|done|done].
  apply read_finished; [done| |done|done]. destruct (opt_mask options) as [m|]; [by apply Hmask|apply chooseMask_spec].
Qed.

(** What is rejected, and nothing else: an unknown mask by its number, and a
    payload longer than version 10 holds at the level, by its length and the
    limit; every other request returns a symbol.  A mask not forced is the first of
    the eight with the least penalty. *)
Theorem qr_rejections_and_mask_choice (payload : list Z) (options : QrEncodeOptions) :
  let level := default M (opt_ecLevel options) in
  match encodeQrSymbol payload options with
  | Throws (InvalidMask m) => opt_mask options = Some m ∧ QR_MASK_COUNT ≤ m
  | Throws (PayloadTooLong byteLength limit) =>
      byteLength = length payload ∧ limit = qrByteCapacity QR_MAX_VERSION level ∧ limit < byteLength
  | Returns symbol =>
      length payload ≤ qrByteCapacity QR_MAX_VERSION level ∧ sym_mask symbol < QR_MASK_COUNT ∧
      (opt_mask options = None → ∃ base, sym_modules symbol = finishSymbol base level (sym_mask symbol) ∧
        (∀ m, m < QR_MASK_COUNT → penalty_of base level (sym_mask symbol) ≤ penalty_of base level m) ∧
        (∀ m, m < sym_mask symbol → penalty_of base level (sym_mask symbol) < penalty_of base level m))
  end.
Proof.
  intros level. unfold encodeQrSymbol, isValidMask. fold level. pose proof (selectQrVersion_spec (length payload) level) as Hs.
  destruct (opt_mask options) as [m|]; [case_bool_decide as Hm; [|by split; [|lia]]|]; cbn [mbind outcome_bind];
    (destruct (selectQrVersion (length payload) level) as [version|e]; [destruct Hs as (Hv & Hfit & _)|by destruct Hs as [-> ?]]);
    cbn [mbind outcome_bind sym_mask sym_modules]; pose proof (segment_facts version level Hv) as (_ & _ & Hcap).
  - split_and!; [lia|done|done].
  - destruct (chooseMask_spec (buildUnmaskedMatrix (buildQrCodewords (encodeQrDataCodewords payload version level) version level) version) level)
      as (Hlt & Hle & Hfirst).
    split_and!; [lia|done|]. intros _. eexists. split_and!; [reflexivity|done|done].
Qed.

(** C31. Every symbol is well formed: a square of the version's size whose function
    patterns are those of the version, whatever the payload and the mask, whose two
    copies of the format word agree with the level and mask, and whose dark module
    is dark. *)
Theorem qr_symbol_well_formed (payload : list Z) (options : QrEncodeOptions) (symbol : QrSymbol) :
  encodeQrSymbol payload options = Returns symbol →
  let version := sym_version symbol in let s := qrSymbolSize version in
  let at_position p := module_at (sym_modules symbol) p.1 p.2 in
  let format := qrFormatBits (sym_level symbol) (sym_mask symbol) in
  square s (sym_modules symbol) ∧
  (∀ p, p.1 < s → p.2 < s → is_function version p.1 p.2 = true → p ∉ position_of <$> format_writes (Z.of_nat s) 0 →
     at_position p = module_at (modules (drawFunctionPatterns (newBuilder s) version)) p.1 p.2) ∧
  (∀ i, i < 15 → at_position (format_position i) = Z.testbit format (Z.of_nat i) ∧
                 at_position (far_format_position s i) = Z.testbit format (Z.of_nat i)) ∧
  at_position (s - 8, 8) = true.
Proof.
  intros He. unfold encodeQrSymbol in He.
  pose proof (selectQrVersion_spec (length payload) (default M (opt_ecLevel options))) as Hs.
  destruct (match opt_mask options with Some _ => _ | None => _ end); [|done]. cbn [mbind outcome_bind] in He.
  destruct (selectQrVersion _ _) as [version|]; [|done]. destruct Hs as (Hv & _ & _). cbn [mbind outcome_bind] in He.
  injection He as <-. cbn [sym_modules sym_level sym_mask sym_version].
  set (codewords := buildQrCodewords _ version _). set (level := default M _). set (mask := match opt_mask options with Some m => m | None => _ end).
  destruct (finished_format version Hv codewords level mask) as [Hformat Hdark].
  split_and!; [by apply (finished_at version Hv _ _ _ (0, 0))|by apply finished_functions|exact Hformat|exact Hdark].
Qed.

(** ** Distances of the format and version words *)

(** The number of positions below [n] in which two words differ. *)
Definition hamming (n : nat) (a b : Z) : nat :=
  length (filter (λ i, Z.testbit a (Z.of_nat i) ≠ Z.testbit b (Z.of_nat i)) (seq 0 n)).

Definition format_requests : list (QrErrorCorrectionLevel * nat) :=
  [L; M; Q; QrTables.H] ≫= λ level, pair level <$> seq 0 8.
Definition words_apart (a b : QrErrorCorrectionLevel * nat) : bool :=
  bool_decide (a = b) || Nat.leb 7 (hamming 15 (qrFormatBits a.1 a.2) (qrFormatBits b.1 b.2)).
Definition format_word (request : QrErrorCorrectionLevel * nat) : Z := qrFormatBits request.1 request.2.

(** A check of all pairs of a list, and what it gives. *)
Lemma forallb_pairs {A} (f : A → A → bool) l :
  forallb (λ a, forallb (f a) l) l = true → ∀ a b, a ∈ l → b ∈ l → f a b = true.
Proof.
  intros Hf a b Ha%list_elem_of_In Hb%list_elem_of_In.
  pose proof (proj1 (forallb_forall _ _) Hf a Ha) as Hb'. by apply (proj1 (forallb_forall _ _) Hb' b).
Qed.

Lemma format_request_in level mask : mask < QR_MASK_COUNT → (level, mask) ∈ format_requests.
Proof.
  intros Hm. unfold format_requests. apply list_elem_of_bind. exists level.
  split; [by apply list_elem_of_fmap_2, elem_of_seq; unfold QR_MASK_COUNT in Hm; lia|]. destruct level; repeat constructor.
Qed.

(** Format and version information survive damage: the words of two different
    requests of level and mask differ in at least seven of their fifteen bits, so
    that three wrong modules still leave the right word nearest, and the words of
    two different versions from 7 to 10 in at least eight of their eighteen. *)
Theorem qr_information_distance :
  (∀ level mask level' mask', mask < QR_MASK_COUNT → mask' < QR_MASK_COUNT → (level, mask) ≠ (level', mask') →
     7 ≤ hamming 15 (qrFormatBits level mask) (qrFormatBits level' mask')) ∧
  (∀ version version', 7 ≤ version ≤ QR_MAX_VERSION → 7 ≤ version' ≤ QR_MAX_VERSION → version ≠ version' →
     8 ≤ hamming 18 (qrVersionBits version) (qrVersionBits version')) ∧
  (∀ level mask, mask < QR_MASK_COUNT → (0 ≤ qrFormatBits level mask < 2 ^ 15)%Z) ∧
  (∀ version, 7 ≤ version ≤ QR_MAX_VERSION → (0 ≤ qrVersionBits version < 2 ^ 18)%Z).
Proof.
  unfold QR_MAX_VERSION. split_and!.
  - intros level mask level' mask' Hm Hm' Hne. apply Nat.leb_le.
    pose proof (forallb_pairs words_apart format_requests
      ltac:(vm_compute; reflexivity) _ _ (format_request_in level mask Hm) (format_request_in level' mask' Hm')) as E.
    unfold words_apart in E. apply orb_true_iff in E as [E|E]; [by apply bool_decide_eq_true in E|done].
  - intros v v' Hv Hv' Hne. apply Nat.leb_le.
    pose proof (forallb_pairs (λ a b, Nat.eqb a b || Nat.leb 8 (hamming 18 (qrVersionBits a) (qrVersionBits b))) (seq 7 4)
      ltac:(vm_compute; reflexivity) v v' ltac:(apply elem_of_seq; lia) ltac:(apply elem_of_seq; lia)) as E.
    cbv beta in E. apply orb_true_iff in E as [E|E]; [by apply Nat.eqb_eq in E|done].
  - intros level mask Hm. pose proof (forallb_pairs (λ a _, Z.leb 0 (format_word a) && Z.ltb (format_word a) (2 ^ 15)) format_requests
      ltac:(vm_compute; reflexivity) _ _ (format_request_in level mask Hm) (format_request_in level mask Hm)) as E.
    cbv beta in E. reflect_bools. split; [by apply Z.leb_le|by apply Z.ltb_lt].
  - intros v Hv. pose proof (forallb_pairs (λ a _, Z.leb 0 (qrVersionBits a) && Z.ltb (qrVersionBits a) (2 ^ 18)) (seq 7 4)
      ltac:(vm_compute; reflexivity) v v ltac:(apply elem_of_seq; lia) ltac:(apply elem_of_seq; lia)) as E.
    cbv beta in E. reflect_bools. split; [by apply Z.leb_le|by apply Z.ltb_lt].
Qed.

Lemma qr_symbol_reads_back_witness :
  ∃ symbol, encodeQrSymbol [72; 69; 76; 76; 79]%Z (mkOptions None (Some 3)) = Returns symbol ∧
            read_symbol (sym_modules symbol) = Some [72; 69; 76; 76; 79]%Z.
Proof.
  eexists. split; [reflexivity|].
  eapply (proj1 (qr_symbol_reads_back [72; 69; 76; 76; 79]%Z (mkOptions None (Some 3)) _ _ _)).
  Unshelve.
  - repeat constructor; vm_compute; congruence.
  - reflexivity.
Defined.

Lemma qr_symbol_well_formed_witness :
  ∃ symbol, encodeQrSymbol [72; 69; 76; 76; 79]%Z (mkOptions (Some QrTables.H) (Some 5)) = Returns symbol ∧
            square (qrSymbolSize (sym_version symbol)) (sym_modules symbol).
Proof.
  eexists. split; [reflexivity|].
  apply (proj1 (qr_symbol_well_formed [72; 69; 76; 76; 79]%Z (mkOptions (Some QrTables.H) (Some 5)) _ eq_refl)).
Defined.
