(* ===== verification/RestartHolds.v ===== *)
(** * Device holds of sessions that wait for a restart

    [src/src/daemon/deviceReservations.ts] (the rehydration reservations),
    [src/src/daemon/devicePoolParts/restartStops.ts] (the stop of a held device)
    and the handoff of [src/src/daemon/devicePoolParts/sessionRecovery.ts].  A hold
    is an object shared by its map entry, its timer, a row check in flight and a
    release write in flight; the references are modelled, so that a callback sees
    whether its object is still the one in the map. *)
From stdpp Require Import strings sets functions.
From S2P Require Import Prelude JsMap OwnerDisconnect.
Local Open Scope Z_scope.

(** ** Data *)

Inductive Platform := android | ios.
#[export] Instance Platform_eq_dec : EqDecision Platform.
Proof. solve_decision. Defined.

(** [RehydrationDeviceReservation["target"]]. *)
Record Target := mkTarget { platform : Platform; stableDeviceId : string; deviceId : string; androidEmulator : option bool }.
Definition target_key (t : Target) : Platform * string := (platform t, stableDeviceId t).

Record Hold := mkHold {
  target : Target; daemonRehydration : bool; restartHandoff : bool;
  expiryTimer : option nat; scheduledDeadlineMs : option Z; idleDeadlineMs : option Z;
  releasePersistence : option nat; sessionTimeoutMs : option Z; recoveryWindowEndMs : option Z;
  ownerMcpSessionIds : option (list string); ownerLivenessToken : option string }.
Definition fresh_hold (t : Target) : Hold := mkHold t false false None None None None None None None None.

(** [holds]: the map from sessions to objects; [heap]: the objects; [timers]: the
    armed timers with session, object and time on the timer's clock; [checks]: the
    row checks in flight; [writes]: the release writes awaited, by promise, with
    session, object and [releasedAtMs]; [setups]: the sessions whose handoff has
    been reserved and awaits its continuation; [stopping]: the terminal writes of
    stops in flight; [changes]: the targets whose observers were told, latest first. *)
Record Pool := mkPool {
  holds : JsMap string nat; heap : nat → Hold; timers : JsMap nat (string * nat * Z);
  checks : list (string * nat); writes : list (nat * string * nat * Z); setups : list string;
  stopping : list (string * nat); rehydrationReservationsStopped : bool;
  nextHold : nat; nextTimer : nat; changes : list (Platform * string) }.

Definition empty_pool : Pool := mkPool [] (λ _, fresh_hold (mkTarget android "" "" None)) [] [] [] [] [] false 0 0 [].

(** What a step reads from the port: the clocks, the broker's binding for a
    platform and identities, and whether two session UUIDs have one base. *)
Record Port := mkPort {
  sessionNow : Z; timerNow : Z;
  bindingHolderOf : Platform → list string → bool;
  sameHolder : string → string → bool }.

Definition DEVICE_RESTART_RECOVERY_WINDOW_MS : Z := 180000.

(** ** Assignments to fields *)

Definition setHolds (f : JsMap string nat → JsMap string nat) (st : Pool) : Pool :=
  mkPool (f (holds st)) (heap st) (timers st) (checks st) (writes st) (setups st) (stopping st)
    (rehydrationReservationsStopped st) (nextHold st) (nextTimer st) (changes st).
Definition modify (r : nat) (f : Hold → Hold) (st : Pool) : Pool :=
  mkPool (holds st) (<[r := f (heap st r)]> (heap st)) (timers st) (checks st) (writes st) (setups st) (stopping st)
    (rehydrationReservationsStopped st) (nextHold st) (nextTimer st) (changes st).
Definition setTimers (f : JsMap nat (string * nat * Z) → JsMap nat (string * nat * Z)) (st : Pool) : Pool :=
  mkPool (holds st) (heap st) (f (timers st)) (checks st) (writes st) (setups st) (stopping st)
    (rehydrationReservationsStopped st) (nextHold st) (nextTimer st) (changes st).
Definition setPending (c : list (string * nat)) (w : list (nat * string * nat * Z)) (s : list string) (k : list (string * nat)) (st : Pool) : Pool :=
  mkPool (holds st) (heap st) (timers st) c w s k (rehydrationReservationsStopped st) (nextHold st) (nextTimer st) (changes st).
Definition notify (t : Target) (st : Pool) : Pool :=
  mkPool (holds st) (heap st) (timers st) (checks st) (writes st) (setups st) (stopping st)
    (rehydrationReservationsStopped st) (nextHold st) (nextTimer st) (target_key t :: changes st).

Definition withTimer (h : option nat) (d : option Z) (t : Hold) : Hold :=
  mkHold (target t) (daemonRehydration t) (restartHandoff t) h d (idleDeadlineMs t) (releasePersistence t)
    (sessionTimeoutMs t) (recoveryWindowEndMs t) (ownerMcpSessionIds t) (ownerLivenessToken t).
Definition withSources (daemon handoff : bool) (t : Hold) : Hold :=
  mkHold (target t) daemon handoff (expiryTimer t) (scheduledDeadlineMs t) (idleDeadlineMs t) (releasePersistence t)
    (sessionTimeoutMs t) (recoveryWindowEndMs t) (ownerMcpSessionIds t) (ownerLivenessToken t).
Definition withDeadlines (idle : option Z) (persistence : option nat) (timeout window : option Z) (t : Hold) : Hold :=
  mkHold (target t) (daemonRehydration t) (restartHandoff t) (expiryTimer t) (scheduledDeadlineMs t) idle persistence
    timeout window (ownerMcpSessionIds t) (ownerLivenessToken t).
Definition withOwners (owners : option (list string)) (token : option string) (t : Hold) : Hold :=
  mkHold (target t) (daemonRehydration t) (restartHandoff t) (expiryTimer t) (scheduledDeadlineMs t) (idleDeadlineMs t)
    (releasePersistence t) (sessionTimeoutMs t) (recoveryWindowEndMs t) owners token.

(** ** Operations *)

Definition clearTimeout (h : option nat) (st : Pool) : Pool :=
  match h with Some h => setTimers (jdel h) st | None => st end.

(** [emitRehydrationReservationChanged] tells the observers of every pooled device
    with the target's identity; the targets told are [changes]. *)
Definition releaseRehydrationReservation (sid : string) (terminal : bool) (st : Pool) : Pool :=
  match jget sid (holds st) with
  | None => st
  | Some r =>
      let st := modify r (λ t, withSources false (restartHandoff t) t) st in
      if restartHandoff (heap st r) && negb terminal then st
      else notify (target (heap st r)) (clearTimeout (expiryTimer (heap st r)) (setHolds (jdel sid) st))
  end.

Definition releaseDeviceRestartReservation (sid : string) (st : Pool) : Pool :=
  match jget sid (holds st) with
  | None => st
  | Some r =>
      let t := heap st r in
      if negb (restartHandoff t) then st
      else
        let st := clearTimeout (expiryTimer t) st in
        let st := modify r (λ t, withTimer None None (withOwners None None (withSources (daemonRehydration t) false t))) st in
        if daemonRehydration t then st else releaseRehydrationReservation sid false st
  end.

(** [setTimeout(..., Math.max(0, deadline - sessionNow()))]. *)
Definition scheduleDeviceRestartReservationExpiry (port : Port) (sid : string) (deadline : Z) (st : Pool) : Pool :=
  match jget sid (holds st) with
  | None => st
  | Some r =>
      let t := heap st r in
      if negb (restartHandoff t) || bool_decide (scheduledDeadlineMs t = Some deadline) then st
      else
        let st := clearTimeout (expiryTimer t) st in
        let h := nextTimer st in
        let st := modify r (withTimer (Some h) (Some deadline)) st in
        mkPool (holds st) (heap st) (jset h (sid, r, timerNow port + Z.max 0 (deadline - sessionNow port)) (timers st))
          (checks st) (writes st) (setups st) (stopping st) (rehydrationReservationsStopped st) (nextHold st) (S h) (changes st)
  end.

Definition armDeviceRestartReservationExpiry (port : Port) (sid : string) (releasedAtMs : Z) (st : Pool) : Pool :=
  match jget sid (holds st) with
  | None => st
  | Some r =>
      let t := heap st r in
      let windowEnd := releasedAtMs + DEVICE_RESTART_RECOVERY_WINDOW_MS in
      let st := modify r (withDeadlines (idleDeadlineMs t) (releasePersistence t) (sessionTimeoutMs t) (Some windowEnd)) st in
      let deadline := match idleDeadlineMs t with Some idle => Z.min idle windowEnd | None => windowEnd end in
      scheduleDeviceRestartReservationExpiry port sid deadline st
  end.

(** [Object.assign(entry, target, { ... })]: an absent [androidEmulator] keeps the old one. *)
Definition assignTarget (t : Target) (old : Target) : Target :=
  mkTarget (platform t) (stableDeviceId t) (deviceId t)
    (match androidEmulator t with Some b => Some b | None => androidEmulator old end).
Definition withTarget (t : Target) (h : Hold) : Hold :=
  mkHold (assignTarget t (target h)) (daemonRehydration h) (restartHandoff h) (expiryTimer h) (scheduledDeadlineMs h)
    (idleDeadlineMs h) (releasePersistence h) (sessionTimeoutMs h) (recoveryWindowEndMs h) (ownerMcpSessionIds h) (ownerLivenessToken h).

(** [{ ...target }]: a new object. *)
Definition allocHold (t : Target) (st : Pool) : Pool * nat :=
  let r := nextHold st in
  (mkPool (holds st) (<[r := fresh_hold t]> (heap st)) (timers st) (checks st) (writes st) (setups st) (stopping st)
     (rehydrationReservationsStopped st) (S r) (nextTimer st) (changes st), r).

Definition replaceRehydrationReservation (sid : string) (t : Target) (handoff : bool) (st : Pool) : Pool :=
  let previous := heap st <$> jget sid (holds st) in
  let targetChanged := match previous with Some p => bool_decide (target_key (target p) ≠ target_key t) | None => true end in
  let '(st, r) := match jget sid (holds st) with
                  | Some r => if targetChanged then allocHold t st else (st, r)
                  | None => allocHold t st
                  end in
  let wasHandoff := default false (restartHandoff <$> previous) in
  let wasDaemon := default false (daemonRehydration <$> previous) in
  let st := modify r (λ h, withSources (negb handoff || wasDaemon) (handoff || wasHandoff) (withTarget t h)) st in
  let st := setHolds (jset sid r) st in
  let st := match previous with Some p => if targetChanged then notify (target p) st else st | None => st end in
  if targetChanged then notify t st else st.

(** One row of [reserveRehydrationDevices]: not one a binding holds, nor one whose
    device another session has reserved. *)
Definition reserveRow (port : Port) (handoff : bool) (st : Pool) (row : string * Target) : Pool :=
  let '(sid, t) := row in
  let managed := bindingHolderOf port (platform t) [stableDeviceId t; deviceId t] in
  let alreadyReserved :=
    existsb (λ e : string * nat, bool_decide (e.1 ≠ sid) && bool_decide (target_key (target (heap st e.2)) = target_key t)) (holds st) in
  if managed || alreadyReserved then st else replaceRehydrationReservation sid t handoff st.

(** The part after the refresh of the binding exclusion; [refreshed] is false when
    it failed, [stillCurrent] the caller's check. *)
Definition reserveRehydrationDevices (port : Port) (rows : list (string * Target)) (refreshed stillCurrent handoff : bool) (st : Pool) : Pool :=
  if negb refreshed || rehydrationReservationsStopped st || negb stillCurrent then st
  else foldl (reserveRow port handoff) st rows.

(** [releaseDisconnectedRecoverySessionWithRetry]: reserve the one row, and the
    continuation after the await. *)
Definition reserveHandoff (port : Port) (sid : string) (t : Target) (refreshed stillCurrent : bool) (st : Pool) : Pool :=
  let st := reserveRehydrationDevices port [(sid, t)] refreshed stillCurrent true st in
  setPending (checks st) (writes st) (sid :: setups st) (stopping st) st.
Definition beginHandoff (port : Port) (sid : string) (owners : list string) (token : option string) (timeoutMs expiresAt : Z) (st : Pool) : Pool :=
  let st := setPending (checks st) (writes st) (sdel sid (setups st)) (stopping st) st in
  match jget sid (holds st) with
  | None => st
  | Some r =>
      let t := heap st r in
      if restartHandoff t then
        let windowEnd := sessionNow port + DEVICE_RESTART_RECOVERY_WINDOW_MS in
        let st := modify r (λ t, withDeadlines (Some expiresAt) (releasePersistence t) (Some timeoutMs) (Some windowEnd)
                                   (withOwners (Some owners) token t)) st in
        scheduleDeviceRestartReservationExpiry port sid windowEnd st
      else st
  end.

(** The timer's callback.  A window that is not set is [undefined], which no time
    reaches; an armed timer's object has one ([armed_has_window]). *)
Definition fireTimer (port : Port) (h : nat) (st : Pool) : Pool :=
  match jget h (timers st) with
  | None => st
  | Some (sid, r, _) =>
      let st := setTimers (jdel h) st in
      if bool_decide (jget sid (holds st) ≠ Some r) then st
      else
        let st := modify r (λ t, withTimer (expiryTimer t) None t) st in
        let st := match recoveryWindowEndMs (heap st r) with
                  | Some windowEnd =>
                      if windowEnd <=? sessionNow port then releaseDeviceRestartReservation sid st
                      else scheduleDeviceRestartReservationExpiry port sid windowEnd st
                  | None => st
                  end in
        setPending (checks st ++ [(sid, r)]) (writes st) (setups st) (stopping st) st
  end.

(** [checkDeviceRestartReservationExpiry] after its await, and the callback's
    [catch]: the deadline read from the row, no deadline, or a failed read. *)
Inductive CheckResult := Deadline (ms : Z) | NoDeadline | CheckFailed.
Definition checkSettled (port : Port) (sid : string) (r : nat) (result : CheckResult) (st : Pool) : Pool :=
  if bool_decide (jget sid (holds st) ≠ Some r) then st
  else
    let within (d : Z) := match recoveryWindowEndMs (heap st r) with Some w => Z.min d w | None => d end in
    match result with
    | NoDeadline => releaseDeviceRestartReservation sid st
    | Deadline d => scheduleDeviceRestartReservationExpiry port sid (within d) st
    | CheckFailed => scheduleDeviceRestartReservationExpiry port sid (within (sessionNow port + 1000)) st
    end.

Definition releaseForShutdown (st : Pool) : Pool :=
  let st := mkPool (holds st) (heap st) (timers st) (checks st) (writes st) (setups st) (stopping st) true
              (nextHold st) (nextTimer st) (changes st) in
  foldl (λ st sid, releaseRehydrationReservation sid true st) st (jkeys (holds st)).

(** A handoff with a session timeout has a window ([timeout_has_window]). *)
Definition handleRestartRecoveryActivity (port : Port) (sid : string) (atMs : Z) (st : Pool) : Pool :=
  match jget sid (holds st) with
  | None => st
  | Some r =>
      let t := heap st r in
      match sessionTimeoutMs t, recoveryWindowEndMs t with
      | Some timeoutMs, Some windowEnd =>
          if restartHandoff t then
            let idle := Z.max (default 0 (idleDeadlineMs t)) (atMs + timeoutMs) in
            let st := modify r (withDeadlines (Some idle) (releasePersistence t) (Some timeoutMs) (Some windowEnd)) st in
            match releasePersistence t with
            | None => scheduleDeviceRestartReservationExpiry port sid (Z.min idle windowEnd) st
            | Some _ => st
            end
          else st
      | _, _ => st
      end
  end.

Definition handleSessionCreated (sid : string) (st : Pool) : Pool :=
  match jget sid (holds st) with
  | Some r => if restartHandoff (heap st r) then releaseDeviceRestartReservation sid st else st
  | None => st
  end.

(** [deviceRestart]: [isDeviceRestartReleaseReason(reason)]; [releasePersisted]: the
    promise of the release write, if any. *)
Definition handleSessionRelease (sid : string) (terminal deviceRestart : bool) (releasedAtMs : Z) (releasePersisted : option nat) (st : Pool) : Pool :=
  if terminal then releaseRehydrationReservation sid true st
  else if negb deviceRestart then st
  else
    match jget sid (holds st), releasePersisted with
    | Some r, Some p =>
        let t := heap st r in
        if restartHandoff t then
          let st := modify r (withDeadlines (idleDeadlineMs t) (Some p) (sessionTimeoutMs t) (recoveryWindowEndMs t)) st in
          setPending (checks st) (writes st ++ [(p, sid, r, releasedAtMs)]) (setups st) (stopping st) st
        else st
    | _, _ => st
    end.

(** The awaited release write is stored; one that fails runs nothing. *)
Definition releasePersisted (port : Port) (p : nat) (sid : string) (r : nat) (releasedAtMs : Z) (st : Pool) : Pool :=
  let t := heap st r in
  if bool_decide (jget sid (holds st) = Some r) && restartHandoff t && bool_decide (releasePersistence t = Some p) then
    let st := modify r (withDeadlines (idleDeadlineMs t) None (sessionTimeoutMs t) (recoveryWindowEndMs t)) st in
    armDeviceRestartReservationExpiry port sid releasedAtMs st
  else st.

(** ** Connections and stops *)

(** [restoreRestartReservationConnectionOwner]: [sameOwner] is
    [ownershipSessionUuid(reservation) === session], [closed] the bind in flight. *)
Definition restoreConnectionOwner (sameOwner : string → bool) (sid connection : string) (token : option string) (closed : bool) (st : Pool) : Pool :=
  if bool_decide (token = None) || closed then st
  else
    foldl (λ st (e : string * nat),
      let t := heap st e.2 in
      if negb (restartHandoff t) || bool_decide (ownerLivenessToken t ≠ token) || (bool_decide (e.1 ≠ sid) && negb (sameOwner e.1))
      then st
      else modify e.2 (withOwners (Some (sadd connection (default [] (ownerMcpSessionIds t)))) (ownerLivenessToken t)) st)
      st (holds st).

Record Requester := mkRequester { req_sessionUuid : option string; req_mcpSessionId : option string }.

Definition restartReservationHasConnectionOwner (t : Hold) (connection : option string) : bool :=
  match connection with Some c => shas c (default [] (ownerMcpSessionIds t)) | None => false end.

(** [isSameHolderSession]: an empty or absent requester holds nothing. *)
Definition isSameHolderSession (port : Port) (owner : string) (requester : option string) : bool :=
  match requester with Some uuid => negb (bool_decide (uuid = ""%string)) && sameHolder port uuid owner | None => false end.

Definition ownsRestartReservation (port : Port) (st : Pool) (sid : string) (req : Requester) (oneShotCli : bool) : bool :=
  isSameHolderSession port sid (req_sessionUuid req)
  || negb oneShotCli && match jget sid (holds st) with
                        | Some r => restartReservationHasConnectionOwner (heap st r) (req_mcpSessionId req)
                        | None => false
                        end.

Definition ownsRestartReservationForStop (port : Port) (sid : string) (t : Hold) (req : Requester) : bool :=
  match req_sessionUuid req with
  | Some _ => isSameHolderSession port sid (req_sessionUuid req)
  | None => restartReservationHasConnectionOwner t (req_mcpSessionId req)
  end.

Definition restartStopNamesForeignConnection (port : Port) (sid : string) (t : Hold) (req : Requester) : bool :=
  bool_decide (req_mcpSessionId req ≠ None) && isSameHolderSession port sid (req_sessionUuid req)
  && bool_decide (default [] (ownerMcpSessionIds t) ≠ []) && negb (restartReservationHasConnectionOwner t (req_mcpSessionId req)).

(** [restartReservationsForStop] for the stop identity of [restartStopStableIdentity]. *)
Definition stopMatches (port : Port) (device : string) (stopPlatform : option Platform) (stableIds : list string)
    (owner : option Requester) (sid : string) (t : Hold) : bool :=
  let stableMatch := (bool_decide (stopPlatform = None) || bool_decide (stopPlatform = Some (platform (target t))))
                     && shas (stableDeviceId (target t)) stableIds in
  let ownSerialMatch := bool_decide (stableIds = []) && bool_decide (deviceId (target t) = device)
                        && match owner with Some req => ownsRestartReservationForStop port sid t req | None => false end in
  restartHandoff t && (stableMatch || ownSerialMatch)
  && negb (bindingHolderOf port (platform (target t)) [stableDeviceId (target t); deviceId (target t)]).
Definition restartReservationsForStop (port : Port) (st : Pool) (device : string) (stopPlatform : option Platform) (stableIds : list string)
    (owner : option Requester) : list (string * nat) :=
  filter (λ e : string * nat, stopMatches port device stopPlatform stableIds owner e.1 (heap st e.2) = true) (holds st).

(** [dropStoppedDeviceRestartReservations]: the captured objects, and the owners'. *)
Definition dropStopped (owners : list nat) (st : Pool) (e : string * nat) : Pool :=
  let '(sid, r) := e in
  if bool_decide (jget sid (holds st) ≠ Some r) || negb (restartHandoff (heap st r)) then st
  else if bool_decide (r ∈ owners) then releaseDeviceRestartReservation sid st
  else setPending (checks st) (writes st) (setups st) (stopping st ++ [(sid, r)]) st.
Definition dropStoppedDeviceRestartReservations (reservations : list (string * nat)) (owners : list nat) (st : Pool) : Pool :=
  foldl (dropStopped owners) st reservations.

(** The [finally] of [terminalizeStoppedRestartReservation]. *)
Definition terminalizeSettled (sid : string) (r : nat) (st : Pool) : Pool :=
  if bool_decide (jget sid (holds st) = Some r) && restartHandoff (heap st r) then releaseRehydrationReservation sid true st else st.

(** ** Reads *)

(** A pooled device, with what the port says of it. *)
Record PooledDevice := mkDevice {
  dev_id : string; dev_platform : Platform; dev_stableId : option string; dev_emulator : bool; dev_binding : bool }.

Definition holds_device (d : PooledDevice) (t : Target) : bool :=
  bool_decide (platform t = dev_platform d) && bool_decide (Some (stableDeviceId t) = dev_stableId d)
  && match androidEmulator t with Some b => bool_decide (dev_emulator d = b) | None => true end.

Definition rehydrationReservationHolder (st : Pool) (d : PooledDevice) : option string :=
  if bool_decide (holds st = []) || dev_binding d then None
  else fst <$> (snd <$> list_find (λ e : string * nat, holds_device d (target (heap st e.2)) = true) (holds st)).

Definition isReservedForOtherRehydration (st : Pool) (d : PooledDevice) (forSessionId : option string) : bool :=
  let holder := rehydrationReservationHolder st d in
  bool_decide (holder ≠ None) && bool_decide (holder ≠ forSessionId).

Section Reads.
Context (devices : list PooledDevice).
Definition device_at (id : string) : option PooledDevice := snd <$> list_find (λ d, dev_id d = id) devices.

Definition startMatchesRestartReservation (st : Pool) (p : Platform) (identities : list string) (sid : string) (t : Target) : bool :=
  existsb (λ id, match device_at id with
                 | Some d => bool_decide (dev_platform d = p) && bool_decide (rehydrationReservationHolder st d = Some sid)
                 | None => bool_decide (id = stableDeviceId t) || bool_decide (id = deviceId t)
                 end) identities.

Record StartReservation := mkStart {
  start_session : string; start_owned : bool; start_handoff : bool; start_target : Target; start_retryAfterMs : Z }.
Definition restartReservationForStart (port : Port) (st : Pool) (p : Platform) (identities : list string) (req : Requester) (oneShotCli : bool) : option StartReservation :=
  (λ e : string * nat,
    let t := heap st e.2 in
    mkStart e.1 (ownsRestartReservation port st e.1 req oneShotCli) (restartHandoff t) (target t)
      (match scheduledDeadlineMs t with
       | None => DEVICE_PREPARED_FOR_OTHER_REQUEST_RETRY_AFTER_MS
       | Some d => Z.max 1 (d - sessionNow port)
       end)) <$>
  (snd <$> list_find (λ e : string * nat,
    let t := target (heap st e.2) in
    platform t = p ∧ startMatchesRestartReservation st p identities e.1 t = true ∧
    bindingHolderOf port p [stableDeviceId t; deviceId t] = false) (holds st)).

Record Exclusions := mkExclusions { ex_names : list string; ex_ids : list string; ex_resumeTargets : list (string * Target) }.
(** One hold of [restartReservationExclusions]. *)
Definition excludeHold (port : Port) (st : Pool) (p : Platform) (req : Requester) (oneShotCli : bool) (x : Exclusions) (e : string * nat) : Exclusions :=
  let t := heap st e.2 in
  if bool_decide (platform (target t) ≠ p) then x
  else if ownsRestartReservation port st e.1 req oneShotCli then
    if restartHandoff t then mkExclusions (ex_names x) (ex_ids x) (ex_resumeTargets x ++ [(e.1, target t)]) else x
  else
    let ids := sadd (stableDeviceId (target t)) (ex_ids x) in
    let ids := if match device_at (deviceId (target t)) with
                  | None => true
                  | Some d => bool_decide (rehydrationReservationHolder st d = Some e.1)
                  end then sadd (deviceId (target t)) ids else ids in
    let ids := foldl (λ ids d, if bool_decide (dev_platform d = p) && bool_decide (rehydrationReservationHolder st d = Some e.1)
                               then sadd (dev_id d) ids else ids) ids devices in
    mkExclusions (sadd (stableDeviceId (target t)) (ex_names x)) ids (ex_resumeTargets x).
Definition restartReservationExclusions (port : Port) (st : Pool) (p : Platform) (req : Requester) (oneShotCli : bool) : Exclusions :=
  foldl (excludeHold port st p req oneShotCli) (mkExclusions [] [] []) (holds st).
End Reads.

(** ** Events *)

Inductive Event :=
| ReserveRows (rows : list (string * Target)) (refreshed stillCurrent : bool)
| ReserveHandoff (sid : string) (t : Target) (refreshed stillCurrent : bool)
| BeginHandoff (sid : string) (owners : list string) (token : option string) (timeoutMs expiresAt : Z)
| TimerFires (h : nat)
| CheckSettles (sid : string) (r : nat) (result : CheckResult)
| Activity (sid : string) (atMs : Z)
| SessionCreated (sid : string)
| SessionReleased (sid : string) (terminal deviceRestart : bool) (releasedAtMs : Z) (persisted : option nat)
| WriteStored (p : nat) (sid : string) (r : nat) (releasedAtMs : Z)
| OwnerRestored (sameOwner : string → bool) (sid connection : string) (token : option string) (closed : bool)
| RehydrationEnds (sid : string) (terminal : bool)
| HandoffEnds (sid : string)
| StopCommitted (reservations : list (string * nat)) (owners : list nat)
| TerminalWriteSettles (sid : string) (r : nat)
| PoolShutdown.

(** A list less one occurrence of an element. *)
Fixpoint without {A} `{EqDecision A} (x : A) (l : list A) : list A :=
  match l with [] => [] | y :: l => if decide (y = x) then l else y :: without x l end.

Definition step (port : Port) (e : Event) (st : Pool) : Pool :=
  match e with
  | ReserveRows rows refreshed stillCurrent => reserveRehydrationDevices port rows refreshed stillCurrent false st
  | ReserveHandoff sid t refreshed stillCurrent => reserveHandoff port sid t refreshed stillCurrent st
  | BeginHandoff sid owners token timeoutMs expiresAt => beginHandoff port sid owners token timeoutMs expiresAt st
  | TimerFires h => fireTimer port h st
  | CheckSettles sid r result =>
      checkSettled port sid r result (setPending (without (sid, r) (checks st)) (writes st) (setups st) (stopping st) st)
  | Activity sid atMs => handleRestartRecoveryActivity port sid atMs st
  | SessionCreated sid => handleSessionCreated sid st
  | SessionReleased sid terminal deviceRestart releasedAtMs persisted =>
      handleSessionRelease sid terminal deviceRestart releasedAtMs persisted st
  | WriteStored p sid r releasedAtMs =>
      releasePersisted port p sid r releasedAtMs
        (setPending (checks st) (without (p, sid, r, releasedAtMs) (writes st)) (setups st) (stopping st) st)
  | OwnerRestored sameOwner sid connection token closed => restoreConnectionOwner sameOwner sid connection token closed st
  | RehydrationEnds sid terminal => releaseRehydrationReservation sid terminal st
  | HandoffEnds sid => releaseDeviceRestartReservation sid st
  | StopCommitted reservations owners => dropStoppedDeviceRestartReservations reservations owners st
  | TerminalWriteSettles sid r =>
      terminalizeSettled sid r (setPending (checks st) (writes st) (setups st) (without (sid, r) (stopping st)) st)
  | PoolShutdown => releaseForShutdown st
  end.

(** A timer fires once its time has come; what settles was in flight. *)
Definition enabled (port : Port) (e : Event) (st : Pool) : Prop :=
  match e with
  | TimerFires h => ∃ sid r due, jget h (timers st) = Some (sid, r, due) ∧ due ≤ timerNow port
  | CheckSettles sid r _ => (sid, r) ∈ checks st
  | WriteStored p sid r releasedAtMs => (p, sid, r, releasedAtMs) ∈ writes st
  | TerminalWriteSettles sid r => (sid, r) ∈ stopping st
  | _ => True
  end.

Inductive reachable : Pool → Prop :=
| reachable_empty : reachable empty_pool
| reachable_step port e st : reachable st → enabled port e st → reachable (step port e st).
