(* ===== verification/RestartHoldBounds.v ===== *)
(** * What the holds of waiting sessions keep

    The invariant of [RestartHolds] over every order of its events: one device per
    session and one session per device, every hold has a source, at most one timer
    per object, every handoff with a window has a timer that fires within it. *)
From stdpp Require Import strings sets functions.
From S2P Require Import Prelude JsMap OwnerDisconnect RestartHolds.
Local Open Scope Z_scope.

Lemma heap_eq (f : nat → Hold) r t : <[r := t]> f r = t.
Proof. apply fn_lookup_insert. Qed.
Lemma heap_ne (f : nat → Hold) r r' t : r ≠ r' → <[r := t]> f r' = f r'.
Proof. intros. by apply fn_lookup_insert_ne. Qed.

(** [E]: the sessions whose deadline is being set. *)
Record Inv (E : list string) (st : Pool) : Prop := {
  inv_wf : jwf (holds st);
  inv_alloc s r : jget s (holds st) = Some r → (r < nextHold st)%nat;
  inv_timer_alloc h e : jget h (timers st) = Some e → (h < nextTimer st)%nat;
  inv_timers h s r due : jget h (timers st) = Some (s, r, due) →
    (r < nextHold st)%nat ∧ expiryTimer (heap st r) = Some h ∧ recoveryWindowEndMs (heap st r) ≠ None;
  inv_handle_alloc r h : expiryTimer (heap st r) = Some h → (h < nextTimer st)%nat;
  inv_handles r r' h : expiryTimer (heap st r) = Some h → expiryTimer (heap st r') = Some h → r = r';
  inv_checks s r : (s, r) ∈ checks st → (r < nextHold st)%nat ∧ recoveryWindowEndMs (heap st r) ≠ None;
  inv_timeout r : sessionTimeoutMs (heap st r) ≠ None → recoveryWindowEndMs (heap st r) ≠ None;
  inv_source s r : jget s (holds st) = Some r → daemonRehydration (heap st r) = true ∨ restartHandoff (heap st r) = true;
  inv_unique s s' r r' : jget s (holds st) = Some r → jget s' (holds st) = Some r' →
    target_key (target (heap st r)) = target_key (target (heap st r')) → s = s';
  inv_scheduled s r d : jget s (holds st) = Some r → scheduledDeadlineMs (heap st r) = Some d →
    restartHandoff (heap st r) = true ∧
    (∃ h due w, expiryTimer (heap st r) = Some h ∧ jget h (timers st) = Some (s, r, due) ∧
                recoveryWindowEndMs (heap st r) = Some w ∧ (s ∉ E → d ≤ w));
  inv_bounded s r : jget s (holds st) = Some r → restartHandoff (heap st r) = true →
    recoveryWindowEndMs (heap st r) ≠ None → s ∉ E → scheduledDeadlineMs (heap st r) ≠ None;
  inv_stopped : rehydrationReservationsStopped st = true → holds st = [] }.

Lemma inv_refs E st s s' r : Inv E st → jget s (holds st) = Some r → jget s' (holds st) = Some r → s = s'.
Proof. intros Hi Hs Hs'. by eapply (inv_unique _ _ Hi). Qed.

Lemma inv_weaken E E' st : (∀ s, s ∈ E → s ∈ E') → Inv E st → Inv E' st.
Proof.
  intros HE [? ? ? ? ? ? ? ? ? ? Hsch Hb ?]. split; try done.
  - intros s r d Hs Hd. destruct (Hsch s r d Hs Hd) as (Hh & h & due & w & ? & ? & ? & Hdw). split; [done|].
    exists h, due, w. split_and!; [done..|]. intros Hn. apply Hdw. by intros ?%HE.
  - intros s r Hs Hh Hw Hn. eapply Hb; [done..|]. by intros ?%HE.
Qed.

(** ** Changes to one hold *)

Section Modify.
Context (E : list string) (st : Pool) (s : string) (r : nat) (f : Hold → Hold).
Let t := heap st r.
Let t' := f t.

(** A change that keeps the target, the timer and a source. *)
Lemma modify_inv :
  Inv E st → jget s (holds st) = Some r →
  target_key (target t') = target_key (target t) → expiryTimer t' = expiryTimer t →
  daemonRehydration t' = true ∨ restartHandoff t' = true →
  (recoveryWindowEndMs t ≠ None → recoveryWindowEndMs t' ≠ None) →
  (sessionTimeoutMs t' ≠ None → recoveryWindowEndMs t' ≠ None) →
  (∀ d, scheduledDeadlineMs t' = Some d → scheduledDeadlineMs t = Some d ∧ restartHandoff t' = true ∧
     (s ∈ E ∨ recoveryWindowEndMs t' = recoveryWindowEndMs t)) →
  (restartHandoff t' = true → recoveryWindowEndMs t' ≠ None → s ∉ E → scheduledDeadlineMs t' ≠ None) →
  Inv E (modify r f st).
Proof.
  intros Hi Hs Hkey Htimer Hsource Hwindow Htimeout Hsched Hbound. pose proof Hi as [Hwf Ha Hta Ht Hha Hhu Hc Hto Hso Hu Hsc Hb Hstop].
  split; cbn [modify holds heap timers checks nextHold nextTimer rehydrationReservationsStopped]; fold t t'.
  - done.
  - done.
  - done.
  - intros h s1 r1 due H1. destruct (Ht h s1 r1 due H1) as (? & ? & ?).
    destruct (decide (r = r1)) as [<-|]; [rewrite heap_eq, Htimer; auto|by rewrite heap_ne].
  - intros r1 h. destruct (decide (r = r1)) as [<-|]; [rewrite heap_eq, Htimer|rewrite heap_ne by done]; apply Hha.
  - intros r1 r2 h. destruct (decide (r = r1)) as [<-|], (decide (r = r2)) as [<-|];
      rewrite ?heap_eq, ?heap_ne, ?Htimer by done; apply Hhu.
  - intros s1 r1 H1. destruct (Hc s1 r1 H1) as (? & ?). destruct (decide (r = r1)) as [<-|]; [rewrite heap_eq; auto|by rewrite heap_ne].
  - intros r1. destruct (decide (r = r1)) as [<-|]; [by rewrite heap_eq|rewrite heap_ne by done; apply Hto].
  - intros s1 r1 H1. destruct (decide (r = r1)) as [<-|]; [by rewrite heap_eq|rewrite heap_ne by done; by apply (Hso s1)].
  - intros s1 s2 r1 r2 H1 H2 Hk. apply (Hu s1 s2 r1 r2 H1 H2).
    destruct (decide (r = r1)) as [<-|], (decide (r = r2)) as [<-|]; rewrite ?heap_eq, ?heap_ne in Hk by done; fold t; congruence.
  - intros s1 r1 d H1. destruct (decide (r = r1)) as [<-|].
    + rewrite heap_eq. intros Hd. destruct (Hsched d Hd) as (Hd' & Hh & Hw).
      assert (s1 = s) as -> by by eapply inv_refs.
      destruct (Hsc s r d H1 Hd') as (_ & h & due & w & E1 & E2 & E3 & Hdw). split; [done|]. rewrite Htimer.
      destruct Hw as [Hin|Hw].
      * destruct (recoveryWindowEndMs t') as [w'|] eqn:Ew; [|destruct (Hwindow ltac:(unfold t; rewrite E3; done)); done].
        by exists h, due, w'.
      * exists h, due, w. rewrite Hw. auto.
    + rewrite heap_ne by done. by apply Hsc.
  - intros s1 r1 H1. destruct (decide (r = r1)) as [<-|]; [rewrite heap_eq|rewrite heap_ne by done; by apply Hb].
    by assert (s1 = s) as -> by by eapply inv_refs.
  - done.
Qed.
End Modify.

(** No timer is left for an object once its own is cleared. *)
Lemma clear_timers E st r h e :
  Inv E st → jget h (timers (clearTimeout (expiryTimer (heap st r)) st)) = Some e →
  jget h (timers st) = Some e ∧ e.1.2 ≠ r.
Proof.
  intros Hi Hh. destruct e as [[s1 r1] due]. cbn [fst snd].
  assert (jget h (timers st) = Some (s1, r1, due) ∧ expiryTimer (heap st r) ≠ Some h) as [Hh' Hne].
  { destruct (expiryTimer (heap st r)) as [k|]; [|by split]. cbn [clearTimeout setTimers timers] in Hh.
    rewrite jget_del in Hh. case_decide; [done|]. split; [done|congruence]. }
  split; [done|]. intros ->. destruct (inv_timers _ _ Hi h s1 r due Hh') as (_ & E1 & _). congruence.
Qed.

Lemma clear_fields h st :
  holds (clearTimeout h st) = holds st ∧ heap (clearTimeout h st) = heap st ∧ checks (clearTimeout h st) = checks st ∧
  nextHold (clearTimeout h st) = nextHold st ∧ nextTimer (clearTimeout h st) = nextTimer st ∧
  rehydrationReservationsStopped (clearTimeout h st) = rehydrationReservationsStopped st ∧ changes (clearTimeout h st) = changes st ∧
  setups (clearTimeout h st) = setups st.
Proof. by destruct h. Qed.

(** ** Scheduling *)

Lemma inv_tighten E st s :
  Inv (s :: E) st → (∀ r, jget s (holds st) = Some r → ∀ w, restartHandoff (heap st r) = true → recoveryWindowEndMs (heap st r) = Some w →
    ∃ d, scheduledDeadlineMs (heap st r) = Some d ∧ d ≤ w) → Inv E st.
Proof.
  intros [? ? ? ? ? ? ? ? ? ? Hsc Hb ?] Hs. split; try done.
  - intros s1 r1 d H1 Hd. destruct (Hsc s1 r1 d H1 Hd) as (Hh & h & due & w & E1 & E2 & E3 & Hdw). split; [done|].
    exists h, due, w. split_and!; [done..|]. intros Hn. destruct (decide (s1 = s)) as [->|].
    + destruct (Hs r1 H1 w Hh E3) as (d' & E4 & ?). congruence.
    + apply Hdw. by rewrite not_elem_of_cons.
  - intros s1 r1 H1 Hh Hw Hn. destruct (decide (s1 = s)) as [->|]; [|apply (Hb s1); try done; by rewrite not_elem_of_cons].
    destruct (recoveryWindowEndMs (heap st r1)) as [w|] eqn:Ew; [|done]. destruct (Hs r1 H1 w Hh Ew) as (d & -> & _). done.
Qed.

Lemma schedule_inv E st port s r w deadline :
  Inv (s :: E) st → jget s (holds st) = Some r → recoveryWindowEndMs (heap st r) = Some w → deadline ≤ w →
  Inv E (scheduleDeviceRestartReservationExpiry port s deadline st).
Proof.
  intros Hi Hs Hw Hd. unfold scheduleDeviceRestartReservationExpiry. rewrite Hs.
  destruct (restartHandoff (heap st r)) eqn:Hh; cbn [negb orb];
    [|apply (inv_tighten E st s Hi); intros r' Hs' w' Hh' _; rewrite Hs in Hs'; injection Hs' as <-; congruence].
  case_bool_decide as Hsame.
  { apply (inv_tighten E st s Hi). intros r' Hs' w' _ Hw'. rewrite Hs in Hs'. injection Hs' as <-.
    exists deadline. split; [done|]. by simplify_eq. }
  pose proof (λ h e, clear_timers (s :: E) st r h e Hi) as Hclear.
  destruct (clear_fields (expiryTimer (heap st r)) st) as (E1 & E2 & E3 & E4 & E5 & E6 & _ & _).
  set (st1 := clearTimeout _ st) in *. pose proof Hi as [Hwf Ha Hta Ht Hha Hhu Hc Hto Hso Hu Hsc Hb Hstop].
  split; cbn [modify holds heap timers checks nextHold nextTimer rehydrationReservationsStopped];
    rewrite ?E1, ?E2, ?E3, ?E4, ?E5, ?E6.
  - done.
  - done.
  - intros h e. rewrite jget_set. case_decide as Hh'; [intros _; lia|]. intros [Hj _]%Hclear. apply Hta in Hj. lia.
  - intros h s1 r1 due. rewrite jget_set. case_decide as Hh'.
    + intros [= <- <- _]. rewrite heap_eq. cbn. split_and!; [by apply (Ha s)|congruence|congruence].
    + intros [Hj Hne]%Hclear. cbn in Hne. rewrite heap_ne by done. by apply (Ht h s1 r1 due).
  - intros r1 h. destruct (decide (r = r1)) as [<-|]; [rewrite heap_eq; cbn; intros [= <-]; lia|rewrite heap_ne by done].
    intros Hh'%Hha. lia.
  - intros r1 r2 h. destruct (decide (r = r1)) as [<-|], (decide (r = r2)) as [<-|]; rewrite ?heap_eq, ?heap_ne by done; cbn; [done|..];
      [intros [= <-] Hh'%Hha; lia|intros Hh'%Hha [= <-]; lia|apply Hhu].
  - intros s1 r1 H1. destruct (Hc s1 r1 H1) as (? & ?). destruct (decide (r = r1)) as [<-|]; [by rewrite heap_eq|by rewrite heap_ne].
  - intros r1. destruct (decide (r = r1)) as [<-|]; [rewrite heap_eq; cbn; congruence|rewrite heap_ne by done; apply Hto].
  - intros s1 r1 H1. destruct (decide (r = r1)) as [<-|]; [rewrite heap_eq; by right|rewrite heap_ne by done; by apply (Hso s1)].
  - intros s1 s2 r1 r2 H1 H2 Hk. apply (Hu s1 s2 r1 r2 H1 H2).
    destruct (decide (r = r1)) as [<-|], (decide (r = r2)) as [<-|]; rewrite ?heap_eq, ?heap_ne in Hk by done; cbn in Hk; congruence.
  - intros s1 r1 d H1. destruct (decide (r = r1)) as [<-|].
    + assert (s1 = s) as -> by by eapply inv_refs. rewrite heap_eq. cbn. intros [= <-]. split; [done|].
      exists (nextTimer st). eexists. exists w. split_and!; [done|by rewrite jget_set, decide_True|done|done].
    + rewrite heap_ne by done. intros Hd1. destruct (Hsc s1 r1 d H1 Hd1) as (Hh1 & h & due & w1 & F1 & F2 & F3 & F4). split; [done|].
      exists h, due, w1. split_and!; [done| |done|intros Hn; apply F4; rewrite not_elem_of_cons; split; [congruence|done]].
      rewrite jget_set, decide_False by (apply Hta in F2; lia).
      unfold st1. destruct (expiryTimer (heap st r)) as [k|] eqn:Ek; [|done]. cbn [clearTimeout setTimers timers].
      rewrite jget_del, decide_False; [done|]. intros ->. by destruct (Hhu r r1 h).
  - intros s1 r1 H1. destruct (decide (r = r1)) as [<-|]; [rewrite heap_eq; done|rewrite heap_ne by done].
    intros Hh1 Hw1 Hn. apply (Hb s1); try done. rewrite not_elem_of_cons. split; [congruence|done].
  - done.
Qed.

(** ** Releasing *)

Lemma clear_timers_other E st r h e :
  Inv E st → jget h (timers st) = Some e → e.1.2 ≠ r → jget h (timers (clearTimeout (expiryTimer (heap st r)) st)) = Some e.
Proof.
  intros Hi Hh Hne. destruct (expiryTimer (heap st r)) as [k|] eqn:Ek; [|done]. cbn [clearTimeout setTimers timers].
  rewrite jget_del, decide_False; [done|]. intros ->. destruct e as [[s1 r1] due]. cbn in Hne.
  destruct (inv_timers _ _ Hi h s1 r1 due Hh) as (_ & E1 & _). by destruct (inv_handles _ _ Hi r r1 h).
Qed.

(** What a step that ends or disarms the hold of [r] leaves alone. *)
Record released (st st' : Pool) (r : nat) (t' : Hold) : Prop := {
  rel_heap r1 : heap st' r1 = <[r := t']> (heap st) r1;
  rel_timers h e : jget h (timers st') = Some e ↔ jget h (timers st) = Some e ∧ e.1.2 ≠ r;
  rel_checks : checks st' = checks st;
  rel_nextHold : nextHold st' = nextHold st;
  rel_nextTimer : nextTimer st' = nextTimer st;
  rel_stopped : rehydrationReservationsStopped st' = rehydrationReservationsStopped st;
  rel_target : target t' = target (heap st r);
  rel_expiry : expiryTimer t' = None ∨ expiryTimer t' = expiryTimer (heap st r);
  rel_window : recoveryWindowEndMs t' = recoveryWindowEndMs (heap st r);
  rel_timeout : sessionTimeoutMs t' = sessionTimeoutMs (heap st r) }.

Lemma released_clear E st st' r t' h0 :
  Inv E st → h0 = expiryTimer (heap st r) → (∀ r1, heap st' r1 = <[r := t']> (heap st) r1) → timers st' = timers (clearTimeout h0 st) →
  checks st' = checks st → nextHold st' = nextHold st → nextTimer st' = nextTimer st →
  rehydrationReservationsStopped st' = rehydrationReservationsStopped st → target t' = target (heap st r) →
  (expiryTimer t' = None ∨ expiryTimer t' = expiryTimer (heap st r)) →
  recoveryWindowEndMs t' = recoveryWindowEndMs (heap st r) → sessionTimeoutMs t' = sessionTimeoutMs (heap st r) →
  released st st' r t'.
Proof.
  intros Hi -> ? Ht. split; try done. intros h e. rewrite Ht. split; [by apply (clear_timers E)|].
  intros [??]. by apply (clear_timers_other E).
Qed.

(** The parts of the invariant about objects and callbacks. *)
Lemma released_objects E st st' r t' :
  Inv E st → released st st' r t' →
  (∀ h e, jget h (timers st') = Some e → (h < nextTimer st')%nat) ∧
  (∀ h s r due, jget h (timers st') = Some (s, r, due) →
    (r < nextHold st')%nat ∧ expiryTimer (heap st' r) = Some h ∧ recoveryWindowEndMs (heap st' r) ≠ None) ∧
  (∀ r h, expiryTimer (heap st' r) = Some h → (h < nextTimer st')%nat) ∧
  (∀ r r' h, expiryTimer (heap st' r) = Some h → expiryTimer (heap st' r') = Some h → r = r') ∧
  (∀ s r, (s, r) ∈ checks st' → (r < nextHold st')%nat ∧ recoveryWindowEndMs (heap st' r) ≠ None) ∧
  (∀ r, sessionTimeoutMs (heap st' r) ≠ None → recoveryWindowEndMs (heap st' r) ≠ None).
Proof.
  intros [Hwf Ha Hta Ht Hha Hhu Hc Hto Hso Hu Hsc Hb Hstop] [Eh Et Ec En1 En2 _ _ Hx Hw Hm].
  assert (∀ r1 h, expiryTimer (heap st' r1) = Some h → expiryTimer (heap st r1) = Some h) as Hex.
  { intros r1 h. rewrite Eh. destruct (decide (r = r1)) as [<-|]; [rewrite heap_eq; destruct Hx; congruence|by rewrite heap_ne]. }
  assert (∀ r1, recoveryWindowEndMs (heap st' r1) = recoveryWindowEndMs (heap st r1)) as Hwin.
  { intros r1. rewrite Eh. destruct (decide (r = r1)) as [<-|]; [by rewrite heap_eq|by rewrite heap_ne]. }
  split_and!.
  - intros h e [Hj _]%Et. rewrite En2. by eapply Hta.
  - intros h s1 r1 due [Hj Hne]%Et. cbn in Hne. rewrite Eh, heap_ne, En1 by done. by apply (Ht h s1 r1 due).
  - intros r1 h Hh%Hex. rewrite En2. by eapply Hha.
  - intros r1 r2 h Hh1%Hex Hh2%Hex. by eapply Hhu.
  - intros s1 r1. rewrite Ec, En1, Hwin. by apply Hc.
  - intros r1. rewrite Hwin. intros Ht1. apply Hto. intros E0. apply Ht1. rewrite Eh.
    destruct (decide (r = r1)) as [<-|]; [rewrite heap_eq; congruence|by rewrite heap_ne].
Qed.

Lemma released_key st st' r t' r1 : released st st' r t' → target_key (target (heap st' r1)) = target_key (target (heap st r1)).
Proof.
  intros Hr. rewrite !(rel_heap _ _ _ _ Hr). destruct (decide (r = r1)) as [<-|]; [|by rewrite heap_ne].
  by rewrite heap_eq, (rel_target _ _ _ _ Hr).
Qed.

(** The other holds keep their deadlines. *)
Lemma released_others E st st' r t' s s1 r1 d :
  Inv (s :: E) st → released st st' r t' → s1 ≠ s → r1 ≠ r → jget s1 (holds st) = Some r1 →
  (scheduledDeadlineMs (heap st' r1) = Some d →
     restartHandoff (heap st' r1) = true ∧
     (∃ h due w, expiryTimer (heap st' r1) = Some h ∧ jget h (timers st') = Some (s1, r1, due) ∧
                 recoveryWindowEndMs (heap st' r1) = Some w ∧ (s1 ∉ E → d ≤ w))) ∧
  (restartHandoff (heap st' r1) = true → recoveryWindowEndMs (heap st' r1) ≠ None → s1 ∉ E → scheduledDeadlineMs (heap st' r1) ≠ None).
Proof.
  intros Hi Hr Hs1 Hr1 H1. rewrite !(rel_heap _ _ _ _ Hr), heap_ne by done. split.
  - intros Hd. destruct (inv_scheduled _ _ Hi s1 r1 d H1 Hd) as (Hh & h & due & w & E1 & E2 & E3 & Hdw). split; [done|].
    exists h, due, w. split_and!; [done|by apply (rel_timers _ _ _ _ Hr)|done|].
    intros Hn. apply Hdw. by rewrite not_elem_of_cons.
  - intros Hh Hw Hn. apply (inv_bounded _ _ Hi s1); try done. by rewrite not_elem_of_cons.
Qed.

Lemma drop_inv E st st' s r t' :
  Inv (s :: E) st → jget s (holds st) = Some r → released st st' r t' → holds st' = jdel s (holds st) → Inv E st'.
Proof.
  intros Hi Hs Hr Eh. destruct (released_objects _ _ _ _ _ Hi Hr) as (H1 & H2 & H3 & H4 & H5 & H6).
  assert (∀ s1 r1, jget s1 (holds st') = Some r1 → s1 ≠ s ∧ r1 ≠ r ∧ jget s1 (holds st) = Some r1) as Hget.
  { intros s1 r1. rewrite Eh, jget_del. case_decide as Hd; [done|]. intros Hj. split_and!; [done| |done].
    intros ->. apply Hd. by eapply inv_refs. }
  split; try done.
  - rewrite Eh. apply jdel_wf, (inv_wf _ _ Hi).
  - intros s1 r1 (_ & _ & Hj)%Hget. rewrite (rel_nextHold _ _ _ _ Hr). by eapply inv_alloc.
  - intros s1 r1 (_ & Hne & Hj)%Hget. rewrite !(rel_heap _ _ _ _ Hr), heap_ne by done. by eapply inv_source.
  - intros s1 s2 r1 r2 (_ & _ & Hj1)%Hget (_ & _ & Hj2)%Hget. rewrite !(released_key _ _ _ _ _ Hr). by apply (inv_unique _ _ Hi).
  - intros s1 r1 d (Hs1 & Hr1 & Hj)%Hget. by apply (released_others E st st' r t' s s1 r1 d Hi Hr).
  - intros s1 r1 (Hs1 & Hr1 & Hj)%Hget. by apply (released_others E st st' r t' s s1 r1 0 Hi Hr).
  - rewrite (rel_stopped _ _ _ _ Hr), Eh. intros Hst. by rewrite (inv_stopped _ _ Hi Hst).
Qed.

(** The handoff ends and the daemon's source keeps the hold. *)
Lemma disarm_inv E st st' s r t' :
  Inv (s :: E) st → jget s (holds st) = Some r → released st st' r t' → holds st' = holds st →
  daemonRehydration t' = true → restartHandoff t' = false → scheduledDeadlineMs t' = None → Inv E st'.
Proof.
  intros Hi Hs Hr Eh Hdaemon Hhand Hsched. destruct (released_objects _ _ _ _ _ Hi Hr) as (H1 & H2 & H3 & H4 & H5 & H6).
  assert (∀ s1 r1, jget s1 (holds st) = Some r1 → (s1 = s ∧ r1 = r) ∨ (s1 ≠ s ∧ r1 ≠ r)) as Hget.
  { intros s1 r1 Hj. destruct (decide (s1 = s)) as [->|Hne]; [left; split; [done|congruence]|].
    right. split; [done|]. intros ->. apply Hne. by eapply inv_refs. }
  split; try done; rewrite ?Eh.
  - apply (inv_wf _ _ Hi).
  - intros s1 r1 Hj. rewrite (rel_nextHold _ _ _ _ Hr). by eapply inv_alloc.
  - intros s1 r1 Hj. destruct (Hget s1 r1 Hj) as [[-> ->]|[? Hne]]; rewrite !(rel_heap _ _ _ _ Hr);
      [rewrite heap_eq; by left|rewrite heap_ne by done; by eapply inv_source].
  - intros s1 s2 r1 r2 Hj1 Hj2. rewrite !(released_key _ _ _ _ _ Hr). by apply (inv_unique _ _ Hi).
  - intros s1 r1 d Hj. destruct (Hget s1 r1 Hj) as [[-> ->]|[? Hne]];
      [rewrite !(rel_heap _ _ _ _ Hr), heap_eq; congruence|by apply (released_others E st st' r t' s s1 r1 d Hi Hr)].
  - intros s1 r1 Hj. destruct (Hget s1 r1 Hj) as [[-> ->]|[? Hne]];
      [rewrite !(rel_heap _ _ _ _ Hr), heap_eq; congruence|by apply (released_others E st st' r t' s s1 r1 0 Hi Hr)].
  - rewrite (rel_stopped _ _ _ _ Hr). apply (inv_stopped _ _ Hi).
Qed.

Lemma inv_cons E st s : Inv E st → Inv (s :: E) st.
Proof. apply inv_weaken. intros s' Hs'. by right. Qed.

Lemma clear_modify h r f st : clearTimeout h (modify r f st) = modify r f (clearTimeout h st).
Proof. by destruct h. Qed.
Lemma clear_setHolds h f st : clearTimeout h (setHolds f st) = setHolds f (clearTimeout h st).
Proof. by destruct h. Qed.

Lemma releaseRehydration_inv E s terminal st : Inv E st → Inv E (releaseRehydrationReservation s terminal st).
Proof.
  intros Hi. unfold releaseRehydrationReservation. destruct (jget s (holds st)) as [r|] eqn:Hs; [|done].
  cbn [heap modify]. rewrite heap_eq. cbn [restartHandoff withSources expiryTimer].
  destruct (restartHandoff (heap st r) && negb terminal) eqn:Hkeep.
  - apply andb_true_iff in Hkeep as [Hh _]. eapply modify_inv; [done..|by right|done|apply (inv_timeout _ _ Hi)|cbn; by auto|].
    intros _ Hw Hn. by apply (inv_bounded _ _ Hi s).
  - rewrite clear_setHolds, clear_modify. destruct (clear_fields (expiryTimer (heap st r)) st) as (E1 & E2 & E3 & E4 & E5 & E6 & _ & _).
    eapply (drop_inv E st _ s r (withSources false (restartHandoff (heap st r)) (heap st r))); [by apply inv_cons|done| |cbn [modify setHolds notify holds]; by rewrite E1].
    eapply released_clear; [done|done|intros r1; cbn [modify setHolds notify heap]; by rewrite E2|done|done..|by right|done|done].
Qed.

Lemma releaseDeviceRestart_inv E s st : Inv (s :: E) st → Inv E (releaseDeviceRestartReservation s st).
Proof.
  intros Hi. unfold releaseDeviceRestartReservation. destruct (jget s (holds st)) as [r|] eqn:Hs.
  2: { apply (inv_tighten E st s Hi). intros r' Hs'. congruence. }
  destruct (restartHandoff (heap st r)) eqn:Hh; cbn [negb].
  2: { apply (inv_tighten E st s Hi). intros r' Hs' w Hh'. rewrite Hs in Hs'. injection Hs' as <-. congruence. }
  destruct (clear_fields (expiryTimer (heap st r)) st) as (E1 & E2 & E3 & E4 & E5 & E6 & _ & _).
  set (t' := withTimer None None (withOwners None None (withSources (daemonRehydration (heap st r)) false (heap st r)))).
  destruct (daemonRehydration (heap st r)) eqn:Hd.
  - eapply (disarm_inv E st _ s r t'); [done|done| |exact E1|done..].
    eapply released_clear; [done|done|intros r1; cbn [modify heap]; rewrite E2; by rewrite Hd|done|done..|by left|done|done].
  - set (st1 := modify r _ (clearTimeout _ st)).
    assert (holds st1 = holds st) as H1 by exact E1.
    assert (∀ r1, heap st1 r1 = <[r := t']> (heap st) r1) as H2.
    { intros r1. unfold st1, t'. cbn [modify heap]. by rewrite E2, Hd. }
    unfold releaseRehydrationReservation. rewrite H1, Hs. cbn [modify heap]. rewrite heap_eq, H2, heap_eq.
    change (restartHandoff t') with false. change (expiryTimer t') with (@None nat). cbn [andb clearTimeout].
    eapply (drop_inv E st _ s r (withSources false false t')); [done|done| |exact (f_equal (jdel s) H1)].
    eapply released_clear; [done|done| |done|done..|by left|done|done]. intros r1.
    change (<[r := withSources false (restartHandoff (heap st1 r)) (heap st1 r)]> (heap st1) r1 = <[r := withSources false false t']> (heap st) r1).
    destruct (decide (r = r1)) as [<-|]; [rewrite !heap_eq|rewrite !heap_ne by done; rewrite H2; by rewrite heap_ne].
    by rewrite H2, heap_eq.
Qed.

(** ** Reserving *)

(** No other session has the device reserved. *)
Definition unreserved (st : Pool) (s : string) (key : Platform * string) : Prop :=
  ∀ s' r', jget s' (holds st) = Some r' → s' ≠ s → target_key (target (heap st r')) ≠ key.

Lemma insert_inv E st st' s t' :
  Inv E st → rehydrationReservationsStopped st = false → unreserved st s (target_key (target t')) →
  holds st' = jset s (nextHold st) (holds st) → (∀ r1, heap st' r1 = <[nextHold st := t']> (heap st) r1) →
  timers st' = timers st → checks st' = checks st → nextHold st' = S (nextHold st) → nextTimer st' = nextTimer st →
  rehydrationReservationsStopped st' = false →
  expiryTimer t' = None → scheduledDeadlineMs t' = None → recoveryWindowEndMs t' = None → sessionTimeoutMs t' = None →
  daemonRehydration t' = true ∨ restartHandoff t' = true → Inv E st'.
Proof.
  intros [Hwf Ha Hta Ht Hha Hhu Hc Hto Hso Hu Hsc Hb Hstop] Hns Hun Eh Ehe Et Ec En Ent Est Hx Hs Hw Hm Hsrc.
  set (r := nextHold st) in *.
  assert (∀ s1 r1, jget s1 (holds st') = Some r1 → (s1 = s ∧ r1 = r) ∨ (s1 ≠ s ∧ r1 ≠ r ∧ jget s1 (holds st) = Some r1)) as Hget.
  { intros s1 r1. rewrite Eh, jget_set. case_decide as Hd; [intros [= <-]; by left|]. intros Hj. right.
    split_and!; [done| |done]. apply Ha in Hj. unfold r. lia. }
  split; rewrite ?Et, ?Ec, ?En, ?Ent.
  - rewrite Eh. by apply jset_wf.
  - intros s1 r1 [[-> ->]|(_ & _ & Hj%Ha)]%Hget; unfold r; lia.
  - done.
  - intros h s1 r1 due Hj. destruct (Ht h s1 r1 due Hj) as (? & ? & ?). rewrite Ehe, heap_ne by (unfold r; lia). split_and!; [lia|done..].
  - intros r1 h. rewrite Ehe. destruct (decide (r = r1)) as [<-|]; [rewrite heap_eq; congruence|rewrite heap_ne by done; apply Hha].
  - intros r1 r2 h. rewrite !Ehe. destruct (decide (r = r1)) as [<-|], (decide (r = r2)) as [<-|];
      rewrite ?heap_eq, ?heap_ne by done; [congruence..|apply Hhu].
  - intros s1 r1 H1. destruct (Hc s1 r1 H1) as (? & ?). rewrite Ehe, heap_ne by (unfold r; lia). split; [lia|done].
  - intros r1. rewrite Ehe. destruct (decide (r = r1)) as [<-|]; [rewrite heap_eq; congruence|rewrite heap_ne by done; apply Hto].
  - intros s1 r1 [[-> ->]|(_ & Hne & Hj)]%Hget; rewrite Ehe; [by rewrite heap_eq|rewrite heap_ne by done; by apply (Hso s1)].
  - intros s1 s2 r1 r2 H1 H2. rewrite !Ehe.
    destruct (Hget _ _ H1) as [[-> ->]|(Hs1 & Hne1 & Hj1)], (Hget _ _ H2) as [[-> ->]|(Hs2 & Hne2 & Hj2)];
      rewrite ?heap_eq, ?heap_ne by done; intros Hk; [done| | |by eapply Hu].
    + by destruct (Hun s2 r2 Hj2 Hs2).
    + by destruct (Hun s1 r1 Hj1 Hs1).
  - intros s1 r1 d [[-> ->]|(_ & Hne & Hj)]%Hget; rewrite Ehe; [rewrite heap_eq; congruence|rewrite heap_ne by done; by apply Hsc].
  - intros s1 r1 [[-> ->]|(_ & Hne & Hj)]%Hget; rewrite Ehe; [rewrite heap_eq; congruence|rewrite heap_ne by done; by apply Hb].
  - congruence.
Qed.

(** Setting an entry to the object it has. *)
Lemma same_holds_inv E st st' :
  Inv E st → (∀ s, jget s (holds st') = jget s (holds st)) → jwf (holds st') → (holds st = [] → holds st' = []) →
  heap st' = heap st → timers st' = timers st → checks st' = checks st → nextHold st' = nextHold st → nextTimer st' = nextTimer st →
  rehydrationReservationsStopped st' = rehydrationReservationsStopped st → Inv E st'.
Proof.
  intros [Hwf Ha Hta Ht Hha Hhu Hc Hto Hso Hu Hsc Hb Hstop] Hg Hwf' Hnil Eh Et Ec En Ent Est.
  split; rewrite ?Eh, ?Et, ?Ec, ?En, ?Ent, ?Est; try done.
  - intros s r. rewrite Hg. apply Ha.
  - intros s r. rewrite Hg. apply Hso.
  - intros s s' r r'. rewrite !Hg. apply Hu.
  - intros s r d. rewrite Hg. apply Hsc.
  - intros s r. rewrite Hg. apply Hb.
  - auto.
Qed.

Lemma notify_inv E t st : Inv E st → Inv E (notify t st).
Proof. intros Hi. eapply same_holds_inv; [exact Hi|done|apply (inv_wf _ _ Hi)|done..]. Qed.

Lemma replace_inv E s t (handoff : bool) st :
  Inv E st → rehydrationReservationsStopped st = false → unreserved st s (target_key t) →
  Inv (if handoff then s :: E else E) (replaceRehydrationReservation s t handoff st).
Proof.
  intros Hi Hns Hun. unfold replaceRehydrationReservation.
  assert (∀ st' src hand, Inv E st → holds st' = jset s (nextHold st) (holds st) →
    (∀ r1, heap st' r1 = <[nextHold st := withSources src hand (withTarget t (fresh_hold t))]> (heap st) r1) →
    timers st' = timers st → checks st' = checks st → nextHold st' = S (nextHold st) → nextTimer st' = nextTimer st →
    rehydrationReservationsStopped st' = false → src = true ∨ hand = true → Inv (if handoff then s :: E else E) st') as Hnew.
  { intros st' src hand _ H1 H2 H3 H4 H5 H6 H7 H8. assert (Inv E st') as H9 by (eapply insert_inv; try done; exact Hun).
    destruct handoff; [by apply inv_cons|done]. }
  destruct (jget s (holds st)) as [r|] eqn:Hs; cbn [fmap option_fmap option_map].
  - case_bool_decide as Hc.
    + cbn [allocHold]. apply notify_inv, notify_inv. eapply Hnew; [done|done| |done..|].
      * intros r1. cbn [modify setHolds heap]. destruct (decide (nextHold st = r1)) as [<-|];
          [by rewrite !heap_eq|by rewrite !heap_ne].
      * cbn. destruct handoff; [by right|by left].
    + assert (target_key t = target_key (target (heap st r))) as Hk
        by (destruct (decide (target_key (target (heap st r)) = target_key t)); [done|by destruct Hc]).
      set (f := λ h : Hold, _). assert (Inv (if handoff then s :: E else E) (modify r f st)) as Hm.
      { assert (Inv (if handoff then s :: E else E) st) as Hi' by (destruct handoff; [by apply inv_cons|done]).
        eapply modify_inv; [done|done|exact Hk|done| |done|apply (inv_timeout _ _ Hi)| |]; unfold f; cbn.
        - destruct handoff; [by right|by left].
        - intros d Hd. destruct (inv_scheduled _ _ Hi s r d Hs Hd) as (Hh & _). rewrite Hh, orb_true_r. auto.
        - destruct handoff; cbn; [intros _ _ Hn; destruct Hn; by left|]. by apply (inv_bounded _ _ Hi s). }
      eapply same_holds_inv; [exact Hm|..]; try done; cbn [modify setHolds holds].
      * intros s1. rewrite jget_set. case_decide as Hd; [by subst|done].
      * apply jset_wf, (inv_wf _ _ Hi).
      * intros Hnil. by rewrite Hnil in Hs.
  - apply notify_inv. eapply Hnew; [done|done| |done..|].
    + intros r1. cbn [allocHold modify setHolds heap fst snd]. destruct (decide (nextHold st = r1)) as [<-|];
        [by rewrite !heap_eq|by rewrite !heap_ne].
    + cbn. destruct handoff; [by right|by left].
Qed.

(** ** What the operations leave alone *)

(** The suspended handoffs and the shutdown flag. *)
Definition frame (st : Pool) : list string * bool := (setups st, rehydrationReservationsStopped st).

Lemma frame_clear h st : frame (clearTimeout h st) = frame st.
Proof. by destruct h. Qed.
Lemma frame_releaseRehydration s b st : frame (releaseRehydrationReservation s b st) = frame st.
Proof.
  unfold releaseRehydrationReservation. destruct (jget s (holds st)) as [r|]; [|done].
  destruct (_ && negb b); [done|]. rewrite clear_setHolds, clear_modify. by destruct (expiryTimer _).
Qed.
Lemma frame_releaseDeviceRestart s st : frame (releaseDeviceRestartReservation s st) = frame st.
Proof.
  unfold releaseDeviceRestartReservation. destruct (jget s (holds st)) as [r|]; [|done].
  destruct (negb _); [done|]. destruct (daemonRehydration _); [|rewrite frame_releaseRehydration]; by destruct (expiryTimer _).
Qed.
Lemma frame_schedule port s d st : frame (scheduleDeviceRestartReservationExpiry port s d st) = frame st.
Proof.
  unfold scheduleDeviceRestartReservationExpiry. destruct (jget s (holds st)) as [r|]; [|done].
  destruct (_ || _); [done|]. by destruct (expiryTimer _).
Qed.
Lemma frame_replace s t b st : frame (replaceRehydrationReservation s t b st) = frame st.
Proof.
  unfold replaceRehydrationReservation. destruct (jget s (holds st)) as [r|]; cbn [fmap option_fmap option_map]; [|done].
  by case_bool_decide.
Qed.
Lemma frame_reserve port rows refreshed current b st : frame (reserveRehydrationDevices port rows refreshed current b st) = frame st.
Proof.
  unfold reserveRehydrationDevices. destruct (_ || _ || _); [done|]. revert st. induction rows as [|[s t] rows IH]; intros st; [done|].
  cbn [foldl]. rewrite IH. unfold reserveRow. destruct (_ || _); [done|apply frame_replace].
Qed.

Lemma reserveRow_inv E port (handoff : bool) st s t :
  Inv E st → rehydrationReservationsStopped st = false →
  Inv (if handoff then s :: E else E) (reserveRow port handoff st (s, t)).
Proof.
  intros Hi Hns. unfold reserveRow. destruct (bindingHolderOf port (platform t) _); cbn [orb]; [by destruct handoff; [apply inv_cons|]|].
  destruct (existsb _ (holds st)) eqn:He; [by destruct handoff; [apply inv_cons|]|]. apply replace_inv; [done..|].
  intros s' r' Hj Hne Hk. apply jget_in, list_elem_of_In in Hj.
  assert (existsb (λ e : string * nat, bool_decide (e.1 ≠ s) && bool_decide (target_key (target (heap st e.2)) = target_key t)) (holds st) = true)
    as Ht; [|congruence].
  apply existsb_exists. exists (s', r'). split; [done|]. cbn. by rewrite !bool_decide_eq_true_2.
Qed.

Lemma reserveRehydration_inv E port rows refreshed current (handoff : bool) st :
  Inv E st → Inv ((if handoff then reverse rows.*1 else []) ++ E) (reserveRehydrationDevices port rows refreshed current handoff st).
Proof.
  intros Hi. unfold reserveRehydrationDevices.
  destruct (negb refreshed || rehydrationReservationsStopped st || negb current) eqn:Hg.
  { eapply inv_weaken; [|exact Hi]. intros s Hs. apply elem_of_app. by right. }
  apply orb_false_iff in Hg as [Hg _]. apply orb_false_iff in Hg as [_ Hns].
  revert st E Hi Hns. induction rows as [|[s t] rows IH]; intros st E Hi Hns; [by destruct handoff|]. cbn [foldl].
  pose proof (reserveRow_inv E port handoff st s t Hi Hns) as Hrow.
  assert (rehydrationReservationsStopped (reserveRow port handoff st (s, t)) = false) as Hns'.
  { pose proof (f_equal snd (frame_reserve port [(s, t)] true true handoff st)) as Hf. unfold reserveRehydrationDevices in Hf.
    rewrite Hns in Hf. cbn [negb orb foldl frame snd] in Hf. congruence. }
  specialize (IH _ _ Hrow Hns'). destruct handoff; [|done]. rewrite fmap_cons, reverse_cons, <- app_assoc. exact IH.
Qed.

Lemma arm_inv E port s releasedAt st : Inv (s :: E) st → Inv E (armDeviceRestartReservationExpiry port s releasedAt st).
Proof.
  intros Hi. unfold armDeviceRestartReservationExpiry. destruct (jget s (holds st)) as [r|] eqn:Hs.
  2: { apply (inv_tighten E st s Hi). intros r' Hs'. congruence. }
  set (w := releasedAt + _). eapply (schedule_inv E _ port s r w); [|done|by cbn [modify heap]; rewrite heap_eq|].
  - eapply modify_inv; [done|done|done|done|by apply (inv_source _ _ Hi s)|done|done| |intros _ _ Hn; destruct Hn; by left].
    intros d Hd. destruct (inv_scheduled _ _ Hi s r d Hs Hd) as (Hh & _). split_and!; [done|done|left; by left].
  - destruct (idleDeadlineMs (heap st r)); lia.
Qed.

(** ** Every step keeps the invariant *)

Lemma elem_of_without {A} `{EqDecision A} (x y : A) l : y ∈ without x l → y ∈ l.
Proof.
  induction l as [|z l IH]; [done|]. cbn [without]. case_decide; [by right|].
  intros [->|Hy]%elem_of_cons; [by left|right; by apply IH].
Qed.

Lemma pending_inv E c w s k st : (∀ e, e ∈ c → e ∈ checks st) → Inv E st → Inv E (setPending c w s k st).
Proof. intros Hc [? ? ? ? ? ? Hch ? ? ? ? ? ?]. split; try done. intros s1 r1 ?%Hc. by apply (Hch s1). Qed.

(** A change of deadlines, persistence or owners that does not move the window. *)
Lemma field_inv E st s r f :
  Inv E st → jget s (holds st) = Some r →
  target (f (heap st r)) = target (heap st r) → expiryTimer (f (heap st r)) = expiryTimer (heap st r) →
  daemonRehydration (f (heap st r)) = daemonRehydration (heap st r) → restartHandoff (f (heap st r)) = restartHandoff (heap st r) →
  scheduledDeadlineMs (f (heap st r)) = scheduledDeadlineMs (heap st r) →
  recoveryWindowEndMs (f (heap st r)) = recoveryWindowEndMs (heap st r) → sessionTimeoutMs (f (heap st r)) = sessionTimeoutMs (heap st r) →
  Inv E (modify r f st).
Proof.
  intros Hi Hs E1 E2 E3 E4 E5 E6 E7. eapply modify_inv; rewrite ?E1, ?E2, ?E3, ?E4, ?E5, ?E6, ?E7; try done.
  - by apply (inv_source _ _ Hi s).
  - apply (inv_timeout _ _ Hi).
  - intros d Hd. destruct (inv_scheduled _ _ Hi s r d Hs Hd) as (Hh & _). auto.
  - by apply (inv_bounded _ _ Hi s).
Qed.

Lemma begin_inv E port s owners token timeoutMs expiresAt st :
  Inv E st → Inv (sdel s E) (beginHandoff port s owners token timeoutMs expiresAt st).
Proof.
  intros Hi. unfold beginHandoff. cbn [holds heap setPending].
  assert (Inv (s :: sdel s E) (setPending (checks st) (writes st) (sdel s (setups st)) (stopping st) st)) as Hi'.
  { apply pending_inv; [done|]. eapply inv_weaken; [|exact Hi]. intros s' Hs'. destruct (decide (s' = s)) as [->|]; [by left|].
    right. by apply elem_of_sdel. }
  set (st1 := setPending _ _ _ _ st) in *.
  destruct (jget s (holds st)) as [r|] eqn:Hs; [|apply (inv_tighten _ _ s Hi'); intros r' Hs'; cbn in Hs'; congruence].
  destruct (restartHandoff (heap st r)) eqn:Hh.
  2: { apply (inv_tighten _ _ s Hi'). intros r' Hs' w Hh'. cbn in Hs', Hh'. congruence. }
  eapply (schedule_inv _ _ port s r (sessionNow port + DEVICE_RESTART_RECOVERY_WINDOW_MS)); [|done|by cbn [modify heap]; rewrite heap_eq|done].
  eapply modify_inv; [exact Hi'|done|done|done|by right|done|done| |intros _ _ Hn; destruct Hn; by left].
  intros d Hd. split_and!; [done|done|left; by left].
Qed.

(** What a callback of an object and the checks in flight rely on. *)
Record callbacks (st st' : Pool) : Prop := {
  cb_window r : recoveryWindowEndMs (heap st' r) = recoveryWindowEndMs (heap st r);
  cb_nextHold : nextHold st' = nextHold st;
  cb_checks : checks st' = checks st }.

Lemma callbacks_refl st : callbacks st st.
Proof. done. Qed.
Lemma callbacks_trans st1 st2 st3 : callbacks st1 st2 → callbacks st2 st3 → callbacks st1 st3.
Proof. intros [] []. split; congruence. Qed.
Lemma callbacks_clear h st : callbacks st (clearTimeout h st).
Proof. by destruct h. Qed.
Lemma callbacks_modify r f st :
  recoveryWindowEndMs (f (heap st r)) = recoveryWindowEndMs (heap st r) → callbacks st (modify r f st).
Proof.
  intros Hw. split; [|done..]. intros r1. cbn [modify heap].
  destruct (decide (r = r1)) as [<-|]; [by rewrite heap_eq|by rewrite heap_ne].
Qed.
Lemma callbacks_schedule port s d st : callbacks st (scheduleDeviceRestartReservationExpiry port s d st).
Proof.
  unfold scheduleDeviceRestartReservationExpiry. destruct (jget s (holds st)) as [r|]; [|done]. destruct (_ || _); [done|].
  eapply callbacks_trans; [apply (callbacks_clear (expiryTimer (heap st r)))|].
  set (st1 := clearTimeout _ st). by destruct (callbacks_modify r (withTimer (Some (nextTimer st1)) (Some d)) st1 eq_refl).
Qed.
Lemma callbacks_releaseRehydration s b st : callbacks st (releaseRehydrationReservation s b st).
Proof.
  unfold releaseRehydrationReservation. destruct (jget s (holds st)) as [r|]; [|done].
  set (st1 := modify r _ st). assert (callbacks st st1) as Hc by by apply callbacks_modify.
  destruct (_ && negb b); [done|]. eapply callbacks_trans; [exact Hc|]. by destruct (expiryTimer _).
Qed.
Lemma callbacks_releaseDeviceRestart s st : callbacks st (releaseDeviceRestartReservation s st).
Proof.
  unfold releaseDeviceRestartReservation. destruct (jget s (holds st)) as [r|]; [|done]. destruct (negb _); [done|].
  set (st1 := modify r _ (clearTimeout _ st)). assert (callbacks st st1) as Hc.
  { eapply callbacks_trans; [apply callbacks_clear|]. by apply callbacks_modify. }
  destruct (daemonRehydration _); [done|]. eapply callbacks_trans; [exact Hc|]. apply callbacks_releaseRehydration.
Qed.

(** A timer that fires for the object in the map: until its deadline is set anew. *)
Lemma unarm_inv E st h s r due :
  Inv E st → jget h (timers st) = Some (s, r, due) → jget s (holds st) = Some r →
  Inv (s :: E) (modify r (λ t, withTimer (expiryTimer t) None t) (setTimers (jdel h) st)).
Proof.
  intros Hi Hh Hs. destruct (inv_timers _ _ Hi h s r due Hh) as (Hr & Hx & Hw).
  destruct Hi as [Hwf Ha Hta Ht Hha Hhu Hc Hto Hso Hu Hsc Hb Hstop].
  split; cbn [modify setTimers holds heap timers checks nextHold nextTimer rehydrationReservationsStopped]; try done.
  - intros h1 e. rewrite jget_del. case_decide; [done|apply Hta].
  - intros h1 s1 r1 due1. rewrite jget_del. case_decide; [done|]. intros Hj. destruct (Ht h1 s1 r1 due1 Hj) as (? & ? & ?).
    destruct (decide (r = r1)) as [<-|]; [by rewrite heap_eq|by rewrite heap_ne].
  - intros r1 h1. destruct (decide (r = r1)) as [<-|]; [rewrite heap_eq; apply Hha|rewrite heap_ne by done; apply Hha].
  - intros r1 r2 h1. destruct (decide (r = r1)) as [<-|], (decide (r = r2)) as [<-|]; rewrite ?heap_eq, ?heap_ne by done; apply Hhu.
  - intros s1 r1 H1. destruct (Hc s1 r1 H1). destruct (decide (r = r1)) as [<-|]; [by rewrite heap_eq|by rewrite heap_ne].
  - intros r1. destruct (decide (r = r1)) as [<-|]; [rewrite heap_eq; apply Hto|rewrite heap_ne by done; apply Hto].
  - intros s1 r1 H1. destruct (decide (r = r1)) as [<-|]; [rewrite heap_eq; by apply (Hso s1)|rewrite heap_ne by done; by apply (Hso s1)].
  - intros s1 s2 r1 r2 H1 H2 Hk. apply (Hu s1 s2 r1 r2 H1 H2).
    destruct (decide (r = r1)) as [<-|], (decide (r = r2)) as [<-|]; by rewrite ?heap_eq, ?heap_ne in Hk by done.
  - intros s1 r1 d H1. destruct (decide (r = r1)) as [<-|]; [by rewrite heap_eq|rewrite heap_ne by done].
    intros Hd. destruct (Hsc s1 r1 d H1 Hd) as (Hh1 & h1 & due1 & w1 & E1 & E2 & E3 & E4). split; [done|].
    exists h1, due1, w1. split_and!; [done| |done|intros Hn; apply E4; by apply not_elem_of_cons in Hn as [_ ?]].
    rewrite jget_del, decide_False; [done|]. intros <-. congruence.
  - intros s1 r1 H1 Hh1 Hw1 Hn. apply not_elem_of_cons in Hn as [Hn1 Hn2]. destruct (decide (r = r1)) as [<-|].
    + destruct Hn1. apply (Hu s1 s r r); done.
    + rewrite heap_ne in * by done. by apply (Hb s1).
Qed.

Lemma hold_fire_inv E port h st : Inv E st → Inv E (fireTimer port h st).
Proof.
  intros Hi. unfold fireTimer. destruct (jget h (timers st)) as [[[s r] due]|] eqn:Hh; [|done].
  destruct (inv_timers _ _ Hi h s r due Hh) as (Hr & Hx & Hw).
  cbn [holds setTimers]. case_bool_decide as Hcur.
  - (* the object has been replaced: only the timer goes *)
    destruct Hi as [Hwf Ha Hta Ht Hha Hhu Hc Hto Hso Hu Hsc Hb Hstop].
    split; cbn [setTimers holds heap timers checks nextHold nextTimer rehydrationReservationsStopped]; try done.
    + intros h1 e. rewrite jget_del. case_decide; [done|apply Hta].
    + intros h1 s1 r1 due1. rewrite jget_del. case_decide; [done|apply Ht].
    + intros s1 r1 d H1 Hd. destruct (Hsc s1 r1 d H1 Hd) as (Hh1 & h1 & due1 & w & E1 & E2 & E3 & E4). split; [done|].
      exists h1, due1, w. split_and!; [done| |done|done]. rewrite jget_del, decide_False; [done|]. intros <-. congruence.
  - assert (jget s (holds st) = Some r) as Hs by (destruct (decide (jget s (holds st) = Some r)); [done|by destruct Hcur]).
    cbn [heap setTimers modify]. rewrite heap_eq. cbn [recoveryWindowEndMs withTimer].
    destruct (recoveryWindowEndMs (heap st r)) as [w|] eqn:Ew; [|done].
    assert (Inv (s :: E) (modify r (λ t, withTimer (expiryTimer t) None t) (setTimers (jdel h) st))) as Hi1 by by eapply unarm_inv.
    set (st1 := modify _ _ _) in *.
    set (st2 := if w <=? sessionNow port then _ else _).
    assert (Inv E st2 ∧ checks st2 = checks st ∧ recoveryWindowEndMs (heap st2 r) = Some w ∧ nextHold st2 = nextHold st) as (Hi2 & Hck & Hw2 & Hn2).
    { assert (callbacks st st1) as Hc1.
      { eapply callbacks_trans; [|by apply callbacks_modify]. done. }
      assert (Inv E st2 ∧ callbacks st1 st2) as [? Hc2].
      { unfold st2. destruct (w <=? sessionNow port).
        - split; [by apply releaseDeviceRestart_inv|apply callbacks_releaseDeviceRestart].
        - split; [|apply callbacks_schedule]. eapply (schedule_inv E st1 port s r w); [done|done|by rewrite (cb_window _ _ Hc1)|done]. }
      pose proof (callbacks_trans _ _ _ Hc1 Hc2) as Hc. split_and!; [done|by apply (cb_checks _ _ Hc)|by rewrite (cb_window _ _ Hc)|by apply (cb_nextHold _ _ Hc)]. }
    destruct Hi2 as [? ? ? ? ? ? Hch ? ? ? ? ? ?]. split; cbn [setPending holds heap timers checks nextHold nextTimer rehydrationReservationsStopped]; try done.
    intros s1 r1 [Hin|[= -> ->]%list_elem_of_singleton]%elem_of_app; [by apply (Hch s1)|]. rewrite Hw2, Hn2. done.
Qed.

Lemma check_inv E port s r result st :
  Inv E st → recoveryWindowEndMs (heap st r) ≠ None → Inv E (checkSettled port s r result st).
Proof.
  intros Hi Hw. unfold checkSettled. case_bool_decide as Hcur; [done|].
  assert (jget s (holds st) = Some r) as Hs by (destruct (decide (jget s (holds st) = Some r)); [done|by destruct Hcur]).
  destruct (recoveryWindowEndMs (heap st r)) as [w|] eqn:Ew; [|done]. destruct result.
  - eapply (schedule_inv E st port s r w); [by apply inv_cons|done|done|lia].
  - by apply releaseDeviceRestart_inv, inv_cons.
  - eapply (schedule_inv E st port s r w); [by apply inv_cons|done|done|lia].
Qed.

Lemma activity_inv E port s at_ms st : Inv E st → Inv E (handleRestartRecoveryActivity port s at_ms st).
Proof.
  intros Hi. unfold handleRestartRecoveryActivity. destruct (jget s (holds st)) as [r|] eqn:Hs; [|done].
  destruct (sessionTimeoutMs (heap st r)) as [timeoutMs|] eqn:Et; [|done].
  destruct (recoveryWindowEndMs (heap st r)) as [w|] eqn:Ew; [|done]. destruct (restartHandoff (heap st r)) eqn:Hh; [|done].
  set (idle := Z.max _ _). assert (Inv E (modify r (withDeadlines (Some idle) (releasePersistence (heap st r)) (Some timeoutMs) (Some w)) st)) as Hi'.
  { by eapply field_inv. }
  destruct (releasePersistence (heap st r)); [done|].
  eapply (schedule_inv E _ port s r w); [by apply inv_cons|done|by cbn [modify heap]; rewrite heap_eq|lia].
Qed.

Lemma sessionRelease_inv E s terminal deviceRestart releasedAtMs persisted st :
  Inv E st → Inv E (handleSessionRelease s terminal deviceRestart releasedAtMs persisted st).
Proof.
  intros Hi. unfold handleSessionRelease. destruct terminal; [by apply releaseRehydration_inv|]. destruct deviceRestart; [|done]. cbn [negb].
  destruct (jget s (holds st)) as [r|] eqn:Hs; [|done]. destruct persisted as [p|]; [|done]. destruct (restartHandoff (heap st r)) eqn:Hh; [|done].
  apply pending_inv; [done|]. by eapply field_inv.
Qed.

Lemma persisted_inv E port p s r releasedAtMs st : Inv E st → Inv E (releasePersisted port p s r releasedAtMs st).
Proof.
  intros Hi. unfold releasePersisted. destruct (_ && _ && _) eqn:Hg; [|done]. reflect_bools.
  apply arm_inv, inv_cons. by eapply field_inv.
Qed.

Lemma restoreOwner_inv E sameOwner s connection token closed st :
  Inv E st → Inv E (restoreConnectionOwner sameOwner s connection token closed st) ∧
  frame (restoreConnectionOwner sameOwner s connection token closed st) = frame st.
Proof.
  intros Hi. unfold restoreConnectionOwner. destruct (_ || closed); [done|].
  set (body := λ (st : Pool) (e : string * nat), _).
  assert (∀ l st, Inv E st → (∀ e, e ∈ l → jget e.1 (holds st) = Some e.2) →
            Inv E (foldl body st l) ∧ frame (foldl body st l) = frame st) as Hloop.
  { intros l. induction l as [|[k v] l IH]; intros st1 Hi1 Hl; [done|]. cbn [foldl].
    pose proof (Hl (k, v) ltac:(by left)) as Hk. cbn [fst snd] in Hk.
    assert (Inv E (body st1 (k, v)) ∧ frame (body st1 (k, v)) = frame st1 ∧ holds (body st1 (k, v)) = holds st1) as (Hi2 & Hf & Hh).
    { unfold body. cbn [fst snd]. destruct (_ || _); [done|]. split_and!; [by eapply field_inv|done|done]. }
    destruct (IH _ Hi2) as [? ->]; [|done]. intros e He. rewrite Hh. apply Hl. by right. }
  apply Hloop; [done|]. intros [k v] Hin. by apply jget_wf_in; [apply (inv_wf _ _ Hi)|].
Qed.

Lemma stop_inv E reservations owners st :
  Inv E st → Inv E (dropStoppedDeviceRestartReservations reservations owners st) ∧
  frame (dropStoppedDeviceRestartReservations reservations owners st) = frame st.
Proof.
  unfold dropStoppedDeviceRestartReservations. revert st. induction reservations as [|[s r] l IH]; intros st Hi; [done|]. cbn [foldl].
  assert (Inv E (dropStopped owners st (s, r)) ∧ frame (dropStopped owners st (s, r)) = frame st) as [Hi' Hf].
  { unfold dropStopped. destruct (_ || _); [done|]. case_bool_decide.
    - split; [by apply releaseDeviceRestart_inv, inv_cons|apply frame_releaseDeviceRestart].
    - split; [by apply pending_inv|done]. }
  destruct (IH _ Hi') as [? ->]. done.
Qed.

(** Terminal releases of every session leave no hold. *)
Lemma holds_releaseTerminal s st : holds (releaseRehydrationReservation s true st) = jdel s (holds st).
Proof.
  unfold releaseRehydrationReservation. destruct (jget s (holds st)) as [r|] eqn:Hs.
  - rewrite andb_false_r, clear_setHolds, clear_modify. by destruct (expiryTimer _).
  - symmetry. apply jdel_notin. intros Hin%jhas_true. rewrite jhas_get, Hs in Hin. by apply bool_decide_eq_true in Hin as [? ?].
Qed.

Lemma shutdown_drops l st :
  let st' := foldl (λ st s, releaseRehydrationReservation s true st) st l in
  holds st' = foldl (λ m s, jdel s m) (holds st) l.
Proof.
  cbv zeta. revert st. induction l as [|s l IH]; intros st; [done|]. cbn [foldl]. by rewrite IH, holds_releaseTerminal.
Qed.

Lemma del_all {V} (m : JsMap string V) l : (∀ k, k ∈ jkeys m → k ∈ l) → foldl (λ m s, jdel s m) m l = [].
Proof.
  revert m. induction l as [|s l IH]; intros m Hm.
  - destruct m as [|[k v] m]; [done|]. by assert (k ∈ []) as ?%elem_of_nil by (apply Hm; left).
  - cbn [foldl]. apply IH. intros k. rewrite jkeys_del, elem_of_sdel. intros [Hne Hin].
    apply Hm in Hin as [->|?]%elem_of_cons; [done|done].
Qed.

Definition stop (st : Pool) : Pool :=
  mkPool (holds st) (heap st) (timers st) (checks st) (writes st) (setups st) (stopping st) true (nextHold st) (nextTimer st) (changes st).

Lemma release_stop s st : releaseRehydrationReservation s true (stop st) = stop (releaseRehydrationReservation s true st).
Proof.
  unfold releaseRehydrationReservation. cbn [holds stop]. destruct (jget s (holds st)) as [r|]; [|done].
  rewrite !andb_false_r. cbn [modify stop heap]. by destruct (expiryTimer _).
Qed.

Lemma shutdown_stop st :
  releaseForShutdown st = stop (foldl (λ st s, releaseRehydrationReservation s true st) st (jkeys (holds st))).
Proof.
  unfold releaseForShutdown. fold (stop st). change (holds (stop st)) with (holds st). generalize (jkeys (holds st)). intros l.
  revert st. induction l as [|s l IH]; intros st; [done|]. cbn [foldl]. by rewrite release_stop, IH.
Qed.

Lemma shutdown_holds st : holds (releaseForShutdown st) = [].
Proof. rewrite shutdown_stop. cbn [stop holds]. rewrite shutdown_drops. by apply del_all. Qed.

Lemma shutdown_inv E st : Inv E st → Inv E (releaseForShutdown st) ∧ setups (releaseForShutdown st) = setups st.
Proof.
  intros Hi. pose proof (shutdown_holds st) as Hnil. rewrite shutdown_stop in *. cbn [stop holds setups] in *.
  set (release := λ (st : Pool) (s : string), releaseRehydrationReservation s true st) in *.
  assert (∀ l st0, Inv E st0 → Inv E (foldl release st0 l) ∧ frame (foldl release st0 l) = frame st0) as Hloop.
  { intros l. induction l as [|s l IH]; intros st0 Hi0; [done|]. cbn [foldl].
    pose proof (frame_releaseRehydration s true st0) as Hf. fold (release st0 s) in Hf.
    destruct (IH (release st0 s)) as [? ->]; [by apply releaseRehydration_inv|]. done. }
  destruct (Hloop (jkeys (holds st)) st Hi) as [[? ? ? ? ? ? ? ? ? ? ? ? ?] Hf]. split; [by split|]. by injection Hf.
Qed.

(** ** Reachable pools *)

Lemma frame_beginHandoff port s owners token timeoutMs expiresAt st :
  setups (beginHandoff port s owners token timeoutMs expiresAt st) = sdel s (setups st).
Proof.
  unfold beginHandoff. set (st1 := setPending _ _ _ _ st). change (sdel s (setups st)) with (setups st1).
  destruct (jget s (holds st1)) as [r|]; [|done]. destruct (restartHandoff _); [|done].
  set (st2 := modify r _ st1). change (setups st1) with (setups st2).
  pose proof (frame_schedule port s (sessionNow port + DEVICE_RESTART_RECOVERY_WINDOW_MS) st2) as Hf. by injection Hf.
Qed.

Lemma frame_fire port h st : frame (fireTimer port h st) = frame st.
Proof.
  unfold fireTimer. destruct (jget h (timers st)) as [[[s r] due]|]; [|done]. case_bool_decide; [done|].
  set (st1 := modify r _ _). assert (frame st1 = frame st) as <- by done.
  destruct (recoveryWindowEndMs _); [|done].
  destruct (_ <=? _); [by rewrite <- (frame_releaseDeviceRestart s st1)|by rewrite <- (frame_schedule port s z st1)].
Qed.
Lemma frame_check port s r result st : frame (checkSettled port s r result st) = frame st.
Proof.
  unfold checkSettled. case_bool_decide; [done|]. destruct result; rewrite ?frame_schedule, ?frame_releaseDeviceRestart; done.
Qed.
Lemma frame_activity port s at_ms st : frame (handleRestartRecoveryActivity port s at_ms st) = frame st.
Proof.
  unfold handleRestartRecoveryActivity. destruct (jget s (holds st)) as [r|]; [|done]. destruct (sessionTimeoutMs _); [|done].
  destruct (recoveryWindowEndMs _); [|done]. destruct (restartHandoff _); [|done]. destruct (releasePersistence _); [done|].
  by rewrite frame_schedule.
Qed.
Lemma frame_created s st : frame (handleSessionCreated s st) = frame st.
Proof.
  unfold handleSessionCreated. destruct (jget s (holds st)); [|done]. destruct (restartHandoff _); [apply frame_releaseDeviceRestart|done].
Qed.
Lemma frame_sessionRelease s b b' at_ms p st : frame (handleSessionRelease s b b' at_ms p st) = frame st.
Proof.
  unfold handleSessionRelease. destruct b; [apply frame_releaseRehydration|]. destruct (negb b'); [done|].
  destruct (jget s (holds st)) as [r|]; [|done]. destruct p; [|done]. by destruct (restartHandoff _).
Qed.
Lemma frame_persisted port p s r at_ms st : frame (releasePersisted port p s r at_ms st) = frame st.
Proof.
  unfold releasePersisted. destruct (_ && _ && _); [|done]. unfold armDeviceRestartReservationExpiry.
  destruct (jget s (holds _)); [|done]. by rewrite frame_schedule.
Qed.
Lemma frame_terminalize s r st : frame (terminalizeSettled s r st) = frame st.
Proof. unfold terminalizeSettled. destruct (_ && _); [apply frame_releaseRehydration|done]. Qed.
Lemma frame_setups st st' : frame st' = frame st → setups st' = setups st.
Proof. by intros [= ?]. Qed.

Lemma hold_step_inv port e st :
  enabled port e st → Inv (setups st) st → Inv (setups (step port e st)) (step port e st).
Proof.
  intros He Hi. destruct e as [rows refreshed current|s t refreshed current|s owners token timeoutMs expiresAt|h|s r result|s at_ms|s|
    s terminal deviceRestart releasedAtMs persisted|p s r releasedAtMs|sameOwner s connection token closed|s terminal|s|reservations owners|s r|]; cbn [step].
  - pose proof (frame_reserve port rows refreshed current false st) as Hf. injection Hf as -> _.
    apply (reserveRehydration_inv _ _ _ _ _ false _ Hi).
  - unfold reserveHandoff. cbn [setups setPending]. pose proof (frame_reserve port [(s, t)] refreshed current true st) as Hf. injection Hf as -> _.
    apply pending_inv; [done|]. apply (reserveRehydration_inv (setups st) port [(s, t)] refreshed current true _ Hi).
  - rewrite frame_beginHandoff. by apply begin_inv.
  - rewrite (frame_setups _ _ (frame_fire _ _ _)). by apply hold_fire_inv.
  - rewrite (frame_setups _ _ (frame_check _ _ _ _ _)). apply check_inv; [|by apply (inv_checks _ _ Hi s)].
    apply pending_inv; [|done]. intros x. apply elem_of_without.
  - rewrite (frame_setups _ _ (frame_activity _ _ _ _)). by apply activity_inv.
  - rewrite (frame_setups _ _ (frame_created s st)). unfold handleSessionCreated.
    destruct (jget s (holds st)); [|done]. destruct (restartHandoff _); [|done].
    by apply releaseDeviceRestart_inv, inv_cons.
  - rewrite (frame_setups _ _ (frame_sessionRelease _ _ _ _ _ _)). by apply sessionRelease_inv.
  - rewrite (frame_setups _ _ (frame_persisted _ _ _ _ _ _)). by apply persisted_inv, pending_inv.
  - destruct (restoreOwner_inv _ sameOwner s connection token closed _ Hi) as [Hi' Hf]. by injection Hf as -> _.
  - rewrite (frame_setups _ _ (frame_releaseRehydration _ _ _)). by apply releaseRehydration_inv.
  - rewrite (frame_setups _ _ (frame_releaseDeviceRestart _ _)). by apply releaseDeviceRestart_inv, inv_cons.
  - destruct (stop_inv _ reservations owners _ Hi) as [Hi' Hf]. by injection Hf as -> _.
  - rewrite (frame_setups _ _ (frame_terminalize s r _)). unfold terminalizeSettled. destruct (_ && _); [by apply releaseRehydration_inv, pending_inv|by apply pending_inv].
  - destruct (shutdown_inv _ _ Hi) as [Hi' ->]. done.
Qed.

Lemma holds_reachable_inv st : reachable st → Inv (setups st) st.
Proof.
  induction 1 as [|port e st Hr IH He]; [|by apply hold_step_inv].
  split; cbn; try done; [apply NoDup_nil_2|by intros ? ? ?%elem_of_nil].
Qed.
