(* ===== verification/RestartHoldProperties.v ===== *)
(** * The holds of waiting sessions: what is promised

    The properties of [RestartHolds]: a handoff ends within its window, a device
    has one holder, a callback of a superseded hold does nothing, and observers
    hear of every change. *)
From stdpp Require Import strings sets functions.
From S2P Require Import Prelude JsMap OwnerDisconnect RestartHolds RestartHoldBounds.
Local Open Scope Z_scope.

(** ** Deadlines *)

(** After the handoff ends the session has no hold, or the daemon's alone. *)
Definition handoff_over (st : Pool) (s : string) : Prop :=
  ∀ r, jget s (holds st) = Some r → restartHandoff (heap st r) = false ∧ daemonRehydration (heap st r) = true.

Lemma releaseDeviceRestart_over s st r :
  jget s (holds st) = Some r → restartHandoff (heap st r) = true → handoff_over (releaseDeviceRestartReservation s st) s.
Proof.
  intros Hs Hh. unfold releaseDeviceRestartReservation. rewrite Hs, Hh. cbn [negb].
  destruct (clear_fields (expiryTimer (heap st r)) st) as (E1 & E2 & _).
  set (st1 := modify r _ (clearTimeout _ st)). assert (holds st1 = holds st) as H1 by exact E1.
  assert (restartHandoff (heap st1 r) = false ∧ daemonRehydration (heap st1 r) = daemonRehydration (heap st r)) as [H2 H3].
  { unfold st1. cbn [modify heap]. by rewrite heap_eq, E2. }
  destruct (daemonRehydration (heap st r)) eqn:Hd; intros r'.
  - rewrite H1, Hs. intros [= <-]. by rewrite H2, H3.
  - unfold releaseRehydrationReservation. rewrite H1, Hs. cbn [modify heap]. rewrite heap_eq. cbn [restartHandoff withSources].
    rewrite H2. cbn [andb expiryTimer withSources]. rewrite clear_setHolds, clear_modify.
    assert (∀ h st', holds (notify (target (withSources false false (heap st1 r)))
              (setHolds (jdel s) (modify r (λ t, withSources false (restartHandoff t) t) (clearTimeout h st')))) = jdel s (holds st')) as Hj
      by by intros [].
    intros Hj'. exfalso. revert Hj'.
    destruct (expiryTimer (heap st1 r)); cbn [clearTimeout setTimers modify setHolds notify holds]; rewrite H1, jget_del; by case_decide.
Qed.

(** C9. A restart handoff ends within its window.  Once its deadline has been set, a
    session's handoff always has an armed timer, scheduled no later than the end of
    the window; when that timer fires at or after the end of the window the handoff
    is over at once, whatever the row check it starts will say; fired earlier, it is
    armed again, exactly for the end of the window. *)
Theorem restart_handoff_is_bounded (st : Pool) (s : string) (r : nat) (w : Z) :
  reachable st → jget s (holds st) = Some r → restartHandoff (heap st r) = true → recoveryWindowEndMs (heap st r) = Some w →
  s ∉ setups st →
  ∃ h d due, scheduledDeadlineMs (heap st r) = Some d ∧ d ≤ w ∧ jget h (timers st) = Some (s, r, due) ∧
    (∀ port, w ≤ sessionNow port → handoff_over (step port (TimerFires h) st) s) ∧
    (∀ port, sessionNow port < w →
      let st' := step port (TimerFires h) st in
      jget s (holds st') = Some r ∧ scheduledDeadlineMs (heap st' r) = Some w ∧
      ∃ h', jget h' (timers st') = Some (s, r, timerNow port + (w - sessionNow port))).
Proof.
  intros Hr Hs Hh Hw Hn. pose proof (holds_reachable_inv st Hr) as Hi.
  destruct (scheduledDeadlineMs (heap st r)) as [d|] eqn:Hd.
  2: { destruct (inv_bounded _ _ Hi s r Hs Hh ltac:(congruence) Hn Hd). }
  destruct (inv_scheduled _ _ Hi s r d Hs Hd) as (_ & h & due & w' & Hx & Ht & Hw' & Hle).
  rewrite Hw in Hw'. injection Hw' as <-. exists h, d, due. split_and!; [done|by apply Hle|done| |].
  - intros port Hnow. cbn [step]. unfold fireTimer. rewrite Ht. cbn [holds setTimers].
    rewrite bool_decide_eq_false_2 by (intros Hc; by apply Hc). cbn [modify heap setTimers]. rewrite heap_eq. cbn [recoveryWindowEndMs withTimer].
    rewrite Hw, (proj2 (Z.leb_le w (sessionNow port))) by done. set (st1 := modify _ _ _).
    intros r' Hr'. cbn [holds heap setPending] in *. eapply (releaseDeviceRestart_over s st1 r); [exact Hs| |exact Hr'].
    unfold st1. cbn [modify heap setTimers]. by rewrite heap_eq.
  - intros port Hnow. cbn [step]. unfold fireTimer. rewrite Ht. cbn [holds setTimers].
    rewrite bool_decide_eq_false_2 by (intros Hc; by apply Hc). cbn [modify heap setTimers]. rewrite heap_eq. cbn [recoveryWindowEndMs withTimer].
    rewrite Hw. destruct (Z.leb_spec w (sessionNow port)) as [|_]; [lia|]. set (st1 := modify _ _ _).
    assert (jget s (holds st1) = Some r) as H1 by exact Hs.
    assert (restartHandoff (heap st1 r) = true ∧ scheduledDeadlineMs (heap st1 r) = None) as [H2 H3].
    { unfold st1. cbn [modify heap setTimers]. by rewrite heap_eq. }
    unfold scheduleDeviceRestartReservationExpiry. rewrite H1, H2, H3. cbn [negb orb].
    rewrite bool_decide_eq_false_2 by done. cbn [setPending holds heap timers modify].
    destruct (clear_fields (expiryTimer (heap st1 r)) st1) as (E1 & E2 & _ & _ & E5 & _).
    split_and!; [by rewrite E1|by rewrite heap_eq|]. eexists. rewrite jget_set, decide_True by done.
    do 3 f_equal. lia.
Qed.

(** ** Holders *)

(** C10. A device waits for one session: among all holds, those of one platform and
    stable identity belong to one session, every hold has a source that will end it,
    no object has two armed timers, and the holder reported for a pooled device is
    the session of every hold that names the device, so that no other session is
    admitted to it. *)
Theorem restart_holds_are_exclusive (st : Pool) :
  reachable st →
  (∀ s s' r r', jget s (holds st) = Some r → jget s' (holds st) = Some r' →
     target_key (target (heap st r)) = target_key (target (heap st r')) → s = s' ∧ r = r') ∧
  (∀ s r, jget s (holds st) = Some r → daemonRehydration (heap st r) = true ∨ restartHandoff (heap st r) = true) ∧
  (∀ h h' s s' r due due', jget h (timers st) = Some (s, r, due) → jget h' (timers st) = Some (s', r, due') → h = h') ∧
  (∀ d s, rehydrationReservationHolder st d = Some s →
     (∀ s' r', jget s' (holds st) = Some r' → holds_device d (target (heap st r')) = true → s' = s) ∧
     (∀ s', isReservedForOtherRehydration st d (Some s') = negb (bool_decide (s' = s)))).
Proof.
  intros Hr. pose proof (holds_reachable_inv st Hr) as Hi. split_and!.
  - intros s s' r r' Hs Hs' Hk. assert (s = s') as -> by by eapply (inv_unique _ _ Hi). split; [done|congruence].
  - apply (inv_source _ _ Hi).
  - intros h h' s s' r due due' H1 H2. destruct (inv_timers _ _ Hi _ _ _ _ H1) as (_ & E1 & _), (inv_timers _ _ Hi _ _ _ _ H2) as (_ & E2 & _). congruence.
  - intros d s Hd. split.
    + unfold rehydrationReservationHolder in Hd. destruct (_ || _); [done|].
      destruct (list_find _ (holds st)) as [[i [s1 r1]]|] eqn:E; [|done]. injection Hd as <-. cbn.
      apply list_find_Some in E as (Hin%list_elem_of_lookup_2 & Hm & _). cbn in Hm. intros s' r' Hs' Hm'.
      apply (jget_wf_in _ _ _ (inv_wf _ _ Hi)) in Hin. apply (inv_unique _ _ Hi s' s1 r' r1); [done..|].
      unfold holds_device in *. reflect_bools. unfold target_key. congruence.
    + intros s'. unfold isReservedForOtherRehydration. rewrite Hd. rewrite bool_decide_eq_true_2 by done. cbn [andb].
      destruct (decide (s' = s)) as [->|]; [|].
      { rewrite (bool_decide_eq_false_2 (Some s ≠ Some s)) by (intros Hx; by apply Hx). by rewrite bool_decide_eq_true_2. }
      rewrite (bool_decide_eq_true_2 (Some s ≠ Some s')) by congruence. by rewrite bool_decide_eq_false_2.
Qed.

(** ** Superseded objects *)

(** A callback acts only on the hold it was made for: when the object of a timer,
    of a row check, of an awaited release write or of a stop's terminal write is no
    longer the one in the map, its step changes no hold and arms nothing. *)
Theorem superseded_callbacks_do_nothing (port : Port) (st : Pool) (s : string) (r : nat) (e : Event) :
  jget s (holds st) ≠ Some r →
  (∃ h due, e = TimerFires h ∧ jget h (timers st) = Some (s, r, due)) ∨ (∃ result, e = CheckSettles s r result) ∨
  (∃ p releasedAtMs, e = WriteStored p s r releasedAtMs) ∨ e = TerminalWriteSettles s r ∨
  (∃ owners, e = StopCommitted [(s, r)] owners) →
  holds (step port e st) = holds st ∧ heap (step port e st) = heap st ∧ changes (step port e st) = changes st ∧
  (∀ h t, jget h (timers (step port e st)) = Some t → jget h (timers st) = Some t).
Proof.
  intros Hs [(h & due & -> & Ht)|[(result & ->)|[(p & releasedAtMs & ->)|[->|(owners & ->)]]]]; cbn [step].
  - unfold fireTimer. rewrite Ht. cbn [setTimers holds]. rewrite bool_decide_eq_true_2 by done. split_and!; [done..|].
    intros h' t. cbn [setTimers timers]. rewrite jget_del. by case_decide.
  - unfold checkSettled. cbn [setPending holds]. by rewrite bool_decide_eq_true_2 by done.
  - unfold releasePersisted. cbn [setPending holds]. by rewrite bool_decide_eq_false_2 by done.
  - unfold terminalizeSettled. cbn [setPending holds]. by rewrite bool_decide_eq_false_2 by done.
  - unfold dropStoppedDeviceRestartReservations. cbn [foldl dropStopped]. by rewrite bool_decide_eq_true_2 by done.
Qed.

(** ** What observers hear *)

Definition reserved (st : Pool) (s : string) (k : Platform * string) : Prop :=
  ∃ r, jget s (holds st) = Some r ∧ target_key (target (heap st r)) = k.
(** The changes told between two states cover every reservation that differs. *)
Definition heard (st st' : Pool) : Prop :=
  ∃ new, changes st' = new ++ changes st ∧ ∀ s k, k ∉ new → (reserved st' s k ↔ reserved st s k).
(** Steps that change no reservation and tell nothing. *)
Record silent (st st' : Pool) : Prop := {
  silent_holds : holds st' = holds st;
  silent_changes : changes st' = changes st;
  silent_target r : target_key (target (heap st' r)) = target_key (target (heap st r)) }.

Lemma silent_heard st st' : silent st st' → heard st st'.
Proof.
  intros [Eh Ec Et]. exists []. split; [done|]. intros s k _. unfold reserved. rewrite Eh.
  by split; intros (r & Hr & Hk); exists r; rewrite Et in *.
Qed.
Lemma heard_trans st1 st2 st3 : heard st1 st2 → heard st2 st3 → heard st1 st3.
Proof.
  intros (n1 & E1 & H1) (n2 & E2 & H2). exists (n2 ++ n1). split; [by rewrite E2, E1, app_assoc|].
  intros s k Hk. apply not_elem_of_app in Hk as [Hk2 Hk1]. by rewrite H2, H1.
Qed.
Lemma silent_trans st1 st2 st3 : silent st1 st2 → silent st2 st3 → silent st1 st3.
Proof. intros [? ? ?] [? ? ?]. split; congruence. Qed.

Lemma silent_modify r f st : target (f (heap st r)) = target (heap st r) → silent st (modify r f st).
Proof.
  intros Ht. split; [done..|]. intros r1. cbn [modify heap].
  destruct (decide (r = r1)) as [<-|]; [by rewrite heap_eq, Ht|by rewrite heap_ne].
Qed.
Lemma silent_clear h st : silent st (clearTimeout h st).
Proof. by destruct h. Qed.
Lemma silent_schedule port s d st : silent st (scheduleDeviceRestartReservationExpiry port s d st).
Proof.
  unfold scheduleDeviceRestartReservationExpiry. destruct (jget s (holds st)) as [r|]; [|done]. destruct (_ || _); [done|].
  eapply silent_trans; [apply (silent_clear (expiryTimer (heap st r)))|]. set (st1 := clearTimeout _ st).
  by destruct (silent_modify r (withTimer (Some (nextTimer st1)) (Some d)) st1 eq_refl).
Qed.

Lemma heard_releaseRehydration s b st : heard st (releaseRehydrationReservation s b st).
Proof.
  unfold releaseRehydrationReservation. destruct (jget s (holds st)) as [r|] eqn:Hs; [|by apply silent_heard].
  set (st1 := modify r _ st). assert (silent st st1) as Hm by by apply silent_modify.
  destruct (_ && negb b); [by apply silent_heard|]. eapply heard_trans; [by apply silent_heard|].
  assert (jget s (holds st1) = Some r) as H1 by exact Hs. clearbody st1.
  exists [target_key (target (heap st1 r))]. rewrite clear_setHolds. destruct (clear_fields (expiryTimer (heap st1 r)) st1) as (E1 & E2 & _ & _ & _ & _ & E7 & _).
  split; [cbn [notify setHolds changes]; by rewrite E7|]. intros s' k Hk. unfold reserved. cbn [notify setHolds holds heap]. rewrite E1, E2.
  split; intros (r' & Hr' & Hk'); exists r'; (split; [|done]); rewrite jget_del in *; case_decide as Hd; try done.
  subst. rewrite H1 in Hr'. injection Hr' as <-. destruct Hk. by apply list_elem_of_singleton.
Qed.

Lemma heard_releaseDeviceRestart s st : heard st (releaseDeviceRestartReservation s st).
Proof.
  unfold releaseDeviceRestartReservation. destruct (jget s (holds st)) as [r|]; [|by apply silent_heard].
  destruct (negb _); [by apply silent_heard|]. set (st1 := modify r _ (clearTimeout _ st)).
  assert (silent st st1) as Hm by (eapply silent_trans; [apply silent_clear|by apply silent_modify]).
  destruct (daemonRehydration _); [by apply silent_heard|]. eapply heard_trans; [by apply silent_heard|apply heard_releaseRehydration].
Qed.

Lemma heard_replace E s t b st : Inv E st → heard st (replaceRehydrationReservation s t b st).
Proof.
  intros Hi. unfold replaceRehydrationReservation. destruct (jget s (holds st)) as [r|] eqn:Hs; cbn [fmap option_fmap option_map].
  - case_bool_decide as Hc.
    + exists [target_key t; target_key (target (heap st r))]. split; [done|]. intros s' k Hk. unfold reserved.
      apply not_elem_of_cons in Hk as [Hk1 [Hk2 _]%not_elem_of_cons]. cbn [allocHold notify setHolds modify holds heap].
      split; intros (r' & Hr' & Hk'); rewrite jget_set in *; case_decide as Hd.
      * injection Hr' as <-. rewrite !heap_eq in Hk'. by destruct Hk1.
      * pose proof (inv_alloc _ _ Hi s' r' Hr'). rewrite !heap_ne in Hk' by lia. by exists r'.
      * subst. rewrite Hs in Hr'. injection Hr' as <-. done.
      * pose proof (inv_alloc _ _ Hi s' r' Hr'). exists r'. by rewrite !heap_ne by lia.
    + assert (target_key (target (heap st r)) = target_key t) as Hk
        by (destruct (decide (target_key (target (heap st r)) = target_key t)); [done|by destruct Hc]).
      exists []. split; [done|]. intros s' k _. unfold reserved. cbn [setHolds modify holds heap].
      assert (∀ r1, target_key (target (<[r := withSources (negb b || default false (Some (daemonRehydration (heap st r))))
                (b || default false (Some (restartHandoff (heap st r)))) (withTarget t (heap st r))]> (heap st) r1))
              = target_key (target (heap st r1))) as Hkey.
      { intros r1. destruct (decide (r = r1)) as [<-|]; [by rewrite heap_eq|by rewrite heap_ne]. }
      split; intros (r' & Hr' & Hk'); exists r'; rewrite Hkey in *; (split; [|done]); rewrite jget_set in *; case_decide; congruence.
  - exists [target_key t]. split; [done|]. intros s' k Hk. unfold reserved. rewrite list_elem_of_singleton in Hk.
    cbn [allocHold notify setHolds modify holds heap].
    split; intros (r' & Hr' & Hk'); rewrite jget_set in *; case_decide as Hd.
    + injection Hr' as <-. rewrite !heap_eq in Hk'. by destruct Hk.
    + pose proof (inv_alloc _ _ Hi s' r' Hr'). rewrite !heap_ne in Hk' by lia. by exists r'.
    + subst. congruence.
    + pose proof (inv_alloc _ _ Hi s' r' Hr'). exists r'. by rewrite !heap_ne by lia.
Qed.

Lemma heard_refl st : heard st st.
Proof. by apply silent_heard. Qed.

(** Repeated steps. *)
Lemma heard_foldl {A} (f : Pool → A → Pool) (P : Pool → Prop) l st :
  P st → (∀ st x, P st → P (f st x) ∧ heard st (f st x)) → heard st (foldl f st l).
Proof.
  intros HP Hf. revert st HP. induction l as [|x l IH]; intros st HP; [apply heard_refl|]. cbn [foldl].
  destruct (Hf st x HP) as [HP' Hh]. eapply heard_trans; [exact Hh|by apply IH].
Qed.

(** A pool under the invariant, whatever the sessions being set up. *)
Definition sound (st : Pool) : Prop := ∃ E, Inv E st.

Lemma heard_reserve port rows refreshed current b st :
  sound st → heard st (reserveRehydrationDevices port rows refreshed current b st).
Proof.
  intros Hst. unfold reserveRehydrationDevices. destruct (_ || _ || _) eqn:Hg; [apply heard_refl|].
  apply orb_false_iff in Hg as [Hg _]. apply orb_false_iff in Hg as [_ Hns].
  apply (heard_foldl _ (λ st, sound st ∧ rehydrationReservationsStopped st = false)); [done|].
  clear. intros st [s t] [[E Hi] Hns]. split.
  - split; [eexists; by apply (reserveRow_inv E port b st s t)|].
    pose proof (f_equal snd (frame_reserve port [(s, t)] true true b st)) as Hf. unfold reserveRehydrationDevices in Hf.
    rewrite Hns in Hf. cbn [negb orb foldl frame snd] in Hf. congruence.
  - unfold reserveRow. destruct (_ || _); [apply heard_refl|by eapply heard_replace].
Qed.

Lemma heard_arm port s releasedAt st : heard st (armDeviceRestartReservationExpiry port s releasedAt st).
Proof.
  unfold armDeviceRestartReservationExpiry. destruct (jget s (holds st)) as [r|]; [|apply heard_refl].
  apply silent_heard. eapply silent_trans; [|apply silent_schedule]. by apply silent_modify.
Qed.

Lemma heard_fire port h st : heard st (fireTimer port h st).
Proof.
  unfold fireTimer. destruct (jget h (timers st)) as [[[s r] due]|]; [|apply heard_refl]. case_bool_decide; [by apply silent_heard|].
  set (st1 := modify r _ _). assert (heard st st1) as H1.
  { apply silent_heard. apply (silent_trans _ (setTimers (jdel h) st)); [done|by apply silent_modify]. }
  assert (∀ st2 c, heard st1 st2 → heard st (setPending c (writes st2) (setups st2) (stopping st2) st2)) as Hlast.
  { intros st2 c H2. eapply heard_trans; [exact H1|]. eapply heard_trans; [exact H2|by apply silent_heard]. }
  apply Hlast. destruct (recoveryWindowEndMs _); [|apply heard_refl].
  destruct (_ <=? _); [apply heard_releaseDeviceRestart|apply silent_heard, silent_schedule].
Qed.

Lemma heard_activity port s at_ms st : heard st (handleRestartRecoveryActivity port s at_ms st).
Proof.
  unfold handleRestartRecoveryActivity. destruct (jget s (holds st)) as [r|]; [|apply heard_refl].
  destruct (sessionTimeoutMs _); [|apply heard_refl]. destruct (recoveryWindowEndMs _); [|apply heard_refl].
  destruct (restartHandoff _); [|apply heard_refl]. apply silent_heard.
  destruct (releasePersistence _); [by apply silent_modify|]. eapply silent_trans; [|apply silent_schedule]. by apply silent_modify.
Qed.

Lemma heard_pending c w s k st : heard st (setPending c w s k st).
Proof. by apply silent_heard. Qed.

Lemma step_heard port e st : sound st → heard st (step port e st).
Proof.
  intros Hst. destruct e as [rows refreshed current|s t refreshed current|s owners token timeoutMs expiresAt|h|s r result|s at_ms|s|
    s terminal deviceRestart releasedAtMs persisted|p s r releasedAtMs|sameOwner s connection token closed|s terminal|s|reservations owners|s r|]; cbn [step].
  - by apply heard_reserve.
  - eapply heard_trans; [by apply heard_reserve|apply heard_pending].
  - unfold beginHandoff. eapply heard_trans; [apply (heard_pending (checks st) (writes st) (sdel s (setups st)) (stopping st))|].
    set (st1 := setPending _ _ _ _ st). destruct (jget s (holds st1)) as [r|]; [|apply heard_refl]. destruct (restartHandoff _); [|apply heard_refl].
    apply silent_heard. eapply silent_trans; [|apply silent_schedule]. by apply silent_modify.
  - apply heard_fire.
  - eapply heard_trans; [apply heard_pending|]. unfold checkSettled. case_bool_decide; [apply heard_refl|].
    destruct result; [apply silent_heard, silent_schedule|apply heard_releaseDeviceRestart|apply silent_heard, silent_schedule].
  - apply heard_activity.
  - unfold handleSessionCreated. destruct (jget s (holds st)); [|apply heard_refl]. destruct (restartHandoff _); [apply heard_releaseDeviceRestart|apply heard_refl].
  - unfold handleSessionRelease. destruct terminal; [apply heard_releaseRehydration|]. destruct (negb _); [apply heard_refl|].
    destruct (jget s (holds st)) as [r|]; [|apply heard_refl]. destruct persisted; [|apply heard_refl]. destruct (restartHandoff _); [|apply heard_refl].
    eapply heard_trans; [|apply heard_pending]. by apply silent_heard, silent_modify.
  - eapply heard_trans; [apply heard_pending|]. unfold releasePersisted. destruct (_ && _ && _); [|apply heard_refl].
    eapply heard_trans; [|apply heard_arm]. by apply silent_heard, silent_modify.
  - unfold restoreConnectionOwner. destruct (_ || closed); [apply heard_refl|]. apply (heard_foldl _ (λ _, True)); [done|].
    intros st1 [k v] _. split; [done|]. cbn [fst snd]. destruct (_ || _); [apply heard_refl|by apply silent_heard, silent_modify].
  - apply heard_releaseRehydration.
  - apply heard_releaseDeviceRestart.
  - apply (heard_foldl _ (λ _, True)); [done|]. intros st1 [k v] _. split; [done|]. unfold dropStopped. destruct (_ || _); [apply heard_refl|].
    case_bool_decide; [apply heard_releaseDeviceRestart|apply heard_pending].
  - eapply heard_trans; [apply heard_pending|]. unfold terminalizeSettled. destruct (_ && _); [apply heard_releaseRehydration|apply heard_refl].
  - unfold releaseForShutdown. fold (stop st). apply (heard_trans _ (stop st)); [by apply silent_heard|].
    apply (heard_foldl _ (λ _, True)); [done|]. intros st1 s _. split; [done|apply heard_releaseRehydration].
Qed.

(** ** Shutdown *)

Lemma stopped_step port e st :
  sound st → rehydrationReservationsStopped st = true → rehydrationReservationsStopped (step port e st) = true.
Proof.
  intros [E Hi] Hstop.
  assert (∀ st', frame st' = frame st → rehydrationReservationsStopped st' = true) as Hf by (intros st' [= _ ->]; done).
  destruct e as [rows refreshed current|s t refreshed current|s owners token timeoutMs expiresAt|h|s r result|s at_ms|s|
    s terminal deviceRestart releasedAtMs persisted|p s r releasedAtMs|sameOwner s connection token closed|s terminal|s|reservations owners|s r|]; cbn [step].
  - apply Hf, frame_reserve.
  - unfold reserveHandoff. cbn [setPending rehydrationReservationsStopped]. apply Hf, frame_reserve.
  - unfold beginHandoff. cbn [setPending holds heap]. destruct (jget s (holds st)) as [r|]; [|done]. destruct (restartHandoff _); [|done].
    set (st1 := modify r _ _). pose proof (frame_schedule port s (sessionNow port + DEVICE_RESTART_RECOVERY_WINDOW_MS) st1) as Hs.
    injection Hs as _ ->. done.
  - apply Hf, frame_fire.
  - apply Hf. by rewrite frame_check.
  - apply Hf, frame_activity.
  - apply Hf, frame_created.
  - apply Hf, frame_sessionRelease.
  - apply Hf. by rewrite frame_persisted.
  - by apply Hf, (restoreOwner_inv E).
  - apply Hf, frame_releaseRehydration.
  - apply Hf, frame_releaseDeviceRestart.
  - by apply Hf, (stop_inv E).
  - apply Hf. by rewrite frame_terminalize.
  - by rewrite shutdown_stop.
Qed.

(** The events after a state, in any order. *)
Inductive later (st : Pool) : Pool → Prop :=
| later_refl : later st st
| later_step port e st' : later st st' → enabled port e st' → later st (step port e st').

(** Observers hear of every change, and shutdown is final: at every step the
    targets told cover each session and device identity whose reservation the step
    made or ended, and after the pool's shutdown no hold exists, however many rows,
    handoffs and callbacks still arrive. *)
Theorem restart_hold_changes_are_told (st : Pool) :
  reachable st →
  (∀ port e, heard st (step port e st)) ∧ (∀ port st', later (step port PoolShutdown st) st' → holds st' = []).
Proof.
  intros Hr. split.
  - intros port e. apply step_heard. exists (setups st). by apply holds_reachable_inv.
  - intros port st' Hl.
    assert (reachable st' ∧ rehydrationReservationsStopped st' = true) as [Hr' Hstop].
    { induction Hl as [|port' e st' Hl [Hr' Hs] He].
      - split; [by apply reachable_step|]. cbn [step]. by rewrite shutdown_stop.
      - split; [by apply reachable_step|]. apply stopped_step; [exists (setups st'); by apply holds_reachable_inv|done]. }
    by apply (inv_stopped _ _ (holds_reachable_inv st' Hr')).
Qed.

(** ** A concrete pool *)

Definition example_port : Port := mkPort 1000 50 (λ _ _, false) String.eqb.
Definition example_pixel : Target := mkTarget android "Pixel_8" "emulator-5554" (Some true).
Definition example_other : Target := mkTarget android "Pixel_9" "emulator-5556" (Some true).

Definition handed_off : Pool :=
  step example_port (BeginHandoff "a" ["mcp-1"%string] (Some "token"%string) 60000 30000) (step example_port (ReserveHandoff "a" example_pixel true true) empty_pool).

Lemma handed_off_reachable : reachable handed_off.
Proof. apply reachable_step; [apply reachable_step; [apply reachable_empty|done]|done]. Qed.

(** The handoff is held to the end of its window. *)
Lemma restart_handoff_is_bounded_witness :
  ∃ h d due, scheduledDeadlineMs (heap handed_off 0%nat) = Some d ∧ d ≤ 181000 ∧ jget h (timers handed_off) = Some ("a"%string, 0%nat, due).
Proof.
  destruct (restart_handoff_is_bounded handed_off "a" 0 181000) as (h & d & due & H1 & H2 & H3 & _).
  - exact handed_off_reachable.
  - reflexivity.
  - reflexivity.
  - reflexivity.
  - by intros ?%elem_of_nil.
  - exists h, d, due. auto.
Defined.

Lemma restart_holds_are_exclusive_witness :
  isReservedForOtherRehydration handed_off (mkDevice "emulator-5554" android (Some "Pixel_8"%string) true false) (Some "b"%string) = true.
Proof.
  destruct (restart_holds_are_exclusive handed_off handed_off_reachable) as (_ & _ & _ & H).
  by rewrite (proj2 (H (mkDevice "emulator-5554" android (Some "Pixel_8"%string) true false) "a"%string eq_refl)).
Defined.

Lemma superseded_callbacks_do_nothing_witness : holds (step example_port (CheckSettles "b" 0 NoDeadline) handed_off) = holds handed_off.
Proof.
  apply (superseded_callbacks_do_nothing example_port handed_off "b" 0 (CheckSettles "b" 0 NoDeadline)); [done|]. right. left. by exists NoDeadline.
Defined.

Lemma restart_hold_changes_are_told_witness : heard handed_off (step example_port (HandoffEnds "a") handed_off).
Proof. apply (restart_hold_changes_are_told handed_off handed_off_reachable). Defined.

(** A row of another device for the session takes over the handoff without its
    deadline: the new hold is still a handoff, and no timer is armed for it. *)
Lemma changed_target_drops_deadline :
  let st := step example_port (ReserveRows [("a"%string, example_other)] true true) handed_off in
  reachable st ∧ jget "a"%string (holds st) = Some 1%nat ∧ restartHandoff (heap st 1%nat) = true ∧
  scheduledDeadlineMs (heap st 1%nat) = None ∧ (λ e, e.2.1.2) <$> timers st = [0%nat].
Proof. split; [apply reachable_step; [apply handed_off_reachable|done]|]. by vm_compute. Qed.
