(* ===== verification/JsArray.v ===== *)
(** * JavaScript arrays and numbers

    [Array.prototype.filter] and [reduce] with the index argument, and the
    [number]s of a recording: an integer, or [NaN]. *)
From S2P Require Import Prelude.

(** ** Numbers *)

(** A [number] that [parseInt] may have made: [None] is [NaN]. *)
Abbreviation num := (option Z).

(** [a === b] on numbers (a [Map] key compares by [=] instead, [NaN] being one
    key), and the orders. *)
Definition num_eqb (a b : num) : bool :=
  match a, b with Some x, Some y => (x =? y)%Z | _, _ => false end.
Definition num_ltb (a b : num) : bool :=
  match a, b with Some x, Some y => (x <? y)%Z | _, _ => false end.
Definition num_ge0 (a : num) : bool := match a with Some x => (0 <=? x)%Z | None => false end.
Definition is_finite (a : num) : bool := bool_decide (is_Some a).

(** ** Arrays *)

Section Array.
Context {A : Type}.
Implicit Types (l : list A).

(** [l.filter((_, index) => keep(index))], the first index being [i]. *)
Fixpoint filteri_from (i : nat) (keep : nat → bool) (l : list A) : list A :=
  match l with
  | [] => []
  | x :: l' => (if keep i then [x] else []) ++ filteri_from (S i) keep l'
  end.
Definition filteri := filteri_from 0.

(** [l.reduce((best, point, index) => better(point, l[best]) ? index : best, 0)]. *)
Fixpoint best_from (better : A → A → bool) (l : list A) (best i : nat) (rest : list A) : nat :=
  match rest with
  | [] => best
  | x :: rest' =>
      let best := match l !! best with Some b => if better x b then i else best | None => best end in
      best_from better l best (S i) rest'
  end.
Definition best_index (better : A → A → bool) (l : list A) : nat := best_from better l 0 0 l.

Lemma filteri_from_sublist i keep l : filteri_from i keep l `sublist_of` l.
Proof.
  revert i. induction l as [|x l IH]; intros i; simpl; [constructor|].
  destruct (keep i); simpl; by constructor.
Qed.

Lemma filteri_from_lookup i keep l j x : l !! j = Some x → keep (i + j) = true → x ∈ filteri_from i keep l.
Proof.
  revert i j. induction l as [|y l IH]; intros i [|j] Hj Hk; simplify_eq/=.
  - rewrite Nat.add_0_r in Hk. rewrite Hk. by left.
  - apply elem_of_app. right. apply (IH _ j Hj). by rewrite Nat.add_succ_comm.
Qed.

Lemma filteri_from_or i (p q : nat → bool) l :
  length (filteri_from i (λ j, p j || q j) l) ≤ length (filteri_from i p l) + length (filteri_from i q l).
Proof.
  revert i. induction l as [|x l IH]; intros i; simpl; [done|].
  specialize (IH (S i)). rewrite !length_app. destruct (p i), (q i); simpl; lia.
Qed.

Lemma filteri_from_none i p l : (∀ j, i ≤ j → p j = false) → filteri_from i p l = [].
Proof.
  revert i. induction l as [|x l IH]; intros i Hp; simpl; [done|]. rewrite Hp by lia. simpl.
  apply IH. intros. apply Hp. lia.
Qed.
Lemma filteri_from_single i c l : length (filteri_from i (λ j, j =? c)%nat l) ≤ 1.
Proof.
  revert i. induction l as [|x l IH]; intros i; simpl; [lia|]. rewrite length_app.
  destruct (Nat.eqb_spec i c) as [->|]; [|apply IH].
  rewrite filteri_from_none; [done|]. intros j ?. apply Nat.eqb_neq. lia.
Qed.
Lemma filteri_from_odd i l :
  length (filteri_from i Nat.odd l) = (length l + (if Nat.odd i then 1 else 0)) / 2.
Proof.
  revert i. induction l as [|x l IH]; intros i; cbn [filteri_from length]; [by destruct (Nat.odd i)|].
  rewrite length_app, IH, Nat.odd_succ, <- Nat.negb_odd.
  pose proof (Nat.div_add (length l) 1 2). rewrite Nat.mul_1_l in *.
  destruct (Nat.odd i); cbn [length negb]; rewrite ?Nat.add_0_r.
  - replace (S (length l) + 1) with (length l + 2) by lia. lia.
  - by rewrite Nat.add_1_r.
Qed.

(** Halving an array while keeping its first element and two chosen ones. *)
Lemma length_keep_odd l :
  length (filteri (λ i, (i =? 0) || Nat.odd i)%nat l) ≤ 1 + length l / 2.
Proof.
  unfold filteri. etrans; [apply (filteri_from_or 0 (λ i, i =? 0)%nat Nat.odd)|].
  rewrite filteri_from_odd. pose proof (filteri_from_single 0 0 l). cbn [Nat.odd]. rewrite Nat.add_0_r. lia.
Qed.
Lemma length_keep_odd_extrema a b l :
  length (filteri (λ i, (i =? 0) || (i =? a) || (i =? b) || Nat.odd i)%nat l) ≤ 3 + length l / 2.
Proof.
  unfold filteri.
  etrans; [apply (filteri_from_or 0 (λ i, (i =? 0) || (i =? a) || (i =? b))%nat Nat.odd)|].
  pose proof (filteri_from_or 0 (λ i, (i =? 0) || (i =? a))%nat (λ i, i =? b)%nat l).
  pose proof (filteri_from_or 0 (λ i, i =? 0)%nat (λ i, i =? a)%nat l).
  pose proof (λ c, filteri_from_single 0 c l) as Hc. pose proof (Hc 0). pose proof (Hc a). pose proof (Hc b).
  rewrite filteri_from_odd. cbn [Nat.odd]. rewrite Nat.add_0_r. lia.
Qed.
Lemma filteri_head keep l : keep 0 = true → head (filteri keep l) = head l.
Proof. unfold filteri. destruct l; simpl; [done|]. by intros ->. Qed.

(** The chosen index is that of an element no other one is better than, when
    being better is being smaller in some measure. *)
Lemma best_from_spec (f : A → Z) (better : A → A → bool) l best i rest :
  (∀ x y, x ∈ l → y ∈ l → better x y = (f x <? f y)%Z) → rest = drop i l →
  (∃ b, l !! best = Some b ∧ ∀ j x, j < i → l !! j = Some x → (f b ≤ f x)%Z) →
  ∃ b, l !! best_from better l best i rest = Some b ∧ ∀ x, x ∈ l → (f b ≤ f x)%Z.
Proof.
  intros Hb. revert best i. induction rest as [|y rest IH]; intros best i Hr (b & Hbest & Hmin); simpl.
  - exists b. split; [done|]. intros x [j Hj]%list_elem_of_lookup. apply (Hmin j); [|done].
    apply lookup_lt_Some in Hj. apply (f_equal length) in Hr. rewrite length_drop in Hr. simpl in Hr. lia.
  - rewrite Hbest. assert (l !! i = Some y) as Hy.
    { rewrite <- (Nat.add_0_r i), <- lookup_drop, <- Hr. done. }
    rewrite (Hb y b) by (by eapply list_elem_of_lookup_2).
    apply IH; [by rewrite <- Nat.add_1_r, <- drop_drop, <- Hr|].
    destruct (Z.ltb_spec (f y) (f b)) as [Hlt|Hle].
    + exists y. split; [done|]. intros j x Hj Hx. destruct (decide (j = i)) as [->|]; [simplify_eq; lia|].
      specialize (Hmin j x ltac:(lia) Hx). lia.
    + exists b. split; [done|]. intros j x Hj Hx. destruct (decide (j = i)) as [->|]; [simplify_eq; lia|].
      apply (Hmin j x); [lia|done].
Qed.
Lemma best_index_spec (f : A → Z) (better : A → A → bool) l :
  l ≠ [] → (∀ x y, x ∈ l → y ∈ l → better x y = (f x <? f y)%Z) →
  ∃ b, l !! best_index better l = Some b ∧ ∀ x, x ∈ l → (f b ≤ f x)%Z.
Proof.
  intros Hl Hb. apply best_from_spec; [done|done|]. destruct l as [|x l]; [done|].
  exists x. split; [done|]. lia.
Qed.
End Array.
