(* ===== verification/GetEventLine.v ===== *)
(** * Lines of [getevent -lt]

    How [feedLine] of
    [src/src/features/record/android/TouchFrameReconstructor.ts] reads one line:
    the regular expression, [parseInt(value, 16)] and [Number(seconds) * 1000].
    The expression is run as a matcher without backtracking and also written as
    the set of strings it denotes; the two are proved equal.  The time is the
    exact decimal, its rounding to a double is not modelled: it is carried to the
    samples and never compared. *)
From Stdlib Require Import QArith Ascii.
From S2P Require Import Prelude JsString Bytes JsArray.
Local Open Scope string_scope.

(** ** Characters *)

Definition is_digit (c : Ascii.ascii) : bool :=
  bool_decide (48 ≤ Ascii.nat_of_ascii c ≤ 57)%nat.
Definition hex_value (c : Ascii.ascii) : option Z :=
  let n := Ascii.nat_of_ascii c in
  if bool_decide (48 ≤ n ≤ 57)%nat then Some (Z.of_nat n - 48)%Z
  else if bool_decide (97 ≤ n ≤ 102)%nat then Some (Z.of_nat n - 87)%Z
  else if bool_decide (65 ≤ n ≤ 70)%nat then Some (Z.of_nat n - 55)%Z
  else None.
Definition is_nonspace (c : Ascii.ascii) : bool := negb (is_js_space c).

Fixpoint all_chars (p : Ascii.ascii → bool) (s : string) : bool :=
  match s with EmptyString => true | String c s' => p c && all_chars p s' end.

(** The longest prefix of characters satisfying [p], and the rest. *)
Fixpoint span (p : Ascii.ascii → bool) (s : string) : string * string :=
  match s with
  | EmptyString => (EmptyString, EmptyString)
  | String c s' => if p c then let '(a, b) := span p s' in (String c a, b) else (EmptyString, s)
  end.

(** ** The regular expression *)

Definition some_of (p : Ascii.ascii → bool) (s : string) : option (string * string) :=
  let '(a, b) := span p s in if bool_decide (a = EmptyString) then None else Some (a, b).
Definition skip_spaces (s : string) : string := (span is_js_space s).2.

(** [\s+(\S+)]. *)
Definition match_field (s : string) : option (string * string) :=
  '(_, s) ← some_of is_js_space s; some_of is_nonspace s.

(** [\d+(?:\.\d+)?]. *)
Definition match_decimal (s : string) : option (string * string) :=
  '(whole, s) ← some_of is_digit s;
  match s with
  | String "."%char s' =>
      match some_of is_digit s' with
      | Some (part, s'') => Some (whole ++ "." ++ part, s'')
      | None => Some (whole, s)
      end
  | _ => Some (whole, s)
  end.

Record LineMatch := mkMatch { seconds : string; evType : string; evCode : string; evValue : string }.

Definition matchLine (line : string) : option LineMatch :=
  match line with
  | String "["%char s =>
      '(t, s) ← match_decimal (skip_spaces s);
      match s with
      | String "]"%char s =>
          '(a, s) ← match_field s;
          '(b, s) ← match_field s;
          '(c, s) ← match_field s;
          if bool_decide (skip_spaces s = EmptyString) then Some (mkMatch t a b c) else None
      | _ => None
      end
  | _ => None
  end.

(** The strings the expression matches, with their groups. *)
Definition plus_of (p : Ascii.ascii → bool) (s : string) : Prop := s ≠ EmptyString ∧ all_chars p s = true.
Definition star_of (p : Ascii.ascii → bool) (s : string) : Prop := all_chars p s = true.
Definition is_decimal (s : string) : Prop :=
  plus_of is_digit s ∨ ∃ a b, s = a ++ "." ++ b ∧ plus_of is_digit a ∧ plus_of is_digit b.
Definition line_denotes (line : string) (m : LineMatch) : Prop :=
  ∃ s0 s1 s2 s3 s4,
    line = "[" ++ s0 ++ seconds m ++ "]" ++ s1 ++ evType m ++ s2 ++ evCode m ++ s3 ++ evValue m ++ s4 ∧
    star_of is_js_space s0 ∧ is_decimal (seconds m) ∧
    plus_of is_js_space s1 ∧ plus_of is_nonspace (evType m) ∧
    plus_of is_js_space s2 ∧ plus_of is_nonspace (evCode m) ∧
    plus_of is_js_space s3 ∧ plus_of is_nonspace (evValue m) ∧ star_of is_js_space s4.

(** ** Numbers *)

Fixpoint hex_prefix (acc : Z) (s : string) : Z :=
  match s with
  | String c s' => match hex_value c with Some d => hex_prefix (16 * acc + d) s' | None => acc end
  | EmptyString => acc
  end.

(** [parseInt(s, 16)]: white space, a sign and [0x] are skipped, the hexadecimal
    digits up to the first other character are the value, [NaN] without one. *)
Definition parseInt16 (s : string) : num :=
  let s := trim_start s in
  let '(sign, s) :=
    match s with
    | String "-"%char s' => (-1, s')%Z
    | String "+"%char s' => (1, s')%Z
    | _ => (1, s)%Z
    end in
  let s := match s with String "0"%char (String "x"%char s') | String "0"%char (String "X"%char s') => s' | _ => s end in
  match s with
  | String c _ => if bool_decide (is_Some (hex_value c)) then Some (sign * js_number (hex_prefix 0 s))%Z else None
  | EmptyString => None
  end.

Definition decimal_digit (acc : Z) (c : Ascii.ascii) : Z :=
  (10 * acc + (Z.of_nat (Ascii.nat_of_ascii c) - 48))%Z.
Fixpoint decimal_value (acc : Z) (s : string) : Z :=
  match s with EmptyString => acc | String c s' => decimal_value (decimal_digit acc c) s' end.

(** [Number(seconds) * 1000] for a decimal. *)
Definition milliseconds (seconds : string) : Q :=
  let '(whole, rest) := span is_digit seconds in
  match rest with
  | String _ part => ((inject_Z (decimal_value 0 whole) +
                        (decimal_value 0 part # Z.to_pos (10 ^ Z.of_nat (String.length part)))) * 1000)%Q
  | EmptyString => (inject_Z (decimal_value 0 whole) * 1000)%Q
  end.

Example line_read :
  matchLine "[ 78826.389007] EV_ABS    ABS_MT_POSITION_X    000001a4" =
  Some (mkMatch "78826.389007" "EV_ABS" "ABS_MT_POSITION_X" "000001a4").
Proof. reflexivity. Qed.
Example parseInt16_values :
  parseInt16 <$> ["000001a4"; "ffffffff"; "0x1G"; "DOWN"; "-1"; "zz"] =
  [Some 420; Some 4294967295; Some 1; Some 13; Some (-1); None]%Z.
Proof. vm_compute. reflexivity. Qed.

(** ** The matcher reads exactly the denoted lines *)

Definition starts_not (p : Ascii.ascii → bool) (s : string) : Prop :=
  match s with String c _ => p c = false | EmptyString => True end.

#[local] Arguments String.append : simpl nomatch.

Lemma string_app_assoc (a b c : string) : (a ++ b) ++ c = a ++ b ++ c.
Proof. induction a as [|x a IH]; [done|]. cbn. by rewrite IH. Qed.
Lemma string_app_nil (a : string) : a ++ EmptyString = a.
Proof. induction a as [|x a IH]; [done|]. cbn. by rewrite IH. Qed.

Lemma span_spec p s a b : span p s = (a, b) ↔ s = a ++ b ∧ star_of p a ∧ starts_not p b.
Proof.
  unfold star_of. revert a b. induction s as [|c s IH]; intros a b; cbn.
  - split; [by intros [= <- <-]|]. intros (Hs & _). by destruct a, b.
  - destruct (p c) eqn:Hc.
    + destruct (span p s) as [a' b'] eqn:E. specialize (IH a' b'). split.
      * intros [= <- <-]. destruct (proj1 IH eq_refl) as (-> & Ha & Hb). cbn. by rewrite Hc.
      * intros (Hs & Ha & Hb). destruct a as [|x a]; cbn in Hs; [subst b; cbn in Hb; congruence|].
        injection Hs as <- ->. cbn in Ha. apply andb_true_iff in Ha as [_ Ha].
        clear IH. revert E Ha Hb. revert a' b'. induction a as [|y a IHa]; intros a' b' E Ha Hb; cbn in *.
        -- destruct b as [|z b]; cbn in *; [by simplify_eq|]. rewrite Hb in E. by simplify_eq.
        -- apply andb_true_iff in Ha as [Hy Ha]. rewrite Hy in E. destruct (span p (a ++ b)) as [a2 b2].
           injection E as <- <-. specialize (IHa _ _ eq_refl Ha Hb). by simplify_eq.
    + split; [by intros [= <- <-]|]. intros (Hs & Ha & Hb). destruct a as [|x a]; cbn in Hs; [by subst b|].
      injection Hs as <- ->. cbn in Ha. by rewrite Hc in Ha.
Qed.

Lemma some_of_spec p s a b : some_of p s = Some (a, b) ↔ s = a ++ b ∧ plus_of p a ∧ starts_not p b.
Proof.
  unfold some_of, plus_of. destruct (span p s) as [a' b'] eqn:E. apply span_spec in E as (-> & Ha & Hb).
  assert (∀ a b, a' ++ b' = a ++ b → star_of p a → starts_not p b → a = a' ∧ b = b') as Huniq.
  { intros a0 b0 H0 Ha0 Hb0. assert (span p (a' ++ b') = (a0, b0)) as H1 by (by apply span_spec).
    assert (span p (a' ++ b') = (a', b')) as H2 by (by apply span_spec). rewrite H1 in H2. by simplify_eq. }
  case_bool_decide as Hn.
  - split; [done|]. intros (H & [Hne Hs] & Hb0). destruct (Huniq _ _ H Hs Hb0). congruence.
  - split; [by intros [= <- <-]|]. intros (H & [Hne Hs] & Hb0). by destruct (Huniq _ _ H Hs Hb0) as [-> ->].
Qed.

Lemma plus_starts_not p q (a b : string) : plus_of p a → (∀ c, p c = true → q c = false) → starts_not q (a ++ b).
Proof.
  intros [Ha Hp] Hpq. destruct a as [|c a]; [done|]. cbn in *. apply andb_true_iff in Hp as [? _]. by apply Hpq.
Qed.

Lemma match_field_spec s a r :
  match_field s = Some (a, r) ↔
  ∃ sp, s = sp ++ a ++ r ∧ plus_of is_js_space sp ∧ plus_of is_nonspace a ∧ starts_not is_nonspace r.
Proof.
  unfold match_field. split.
  - intros H. destruct (some_of is_js_space s) as [[sp s1]|] eqn:E; [cbn in H|done].
    apply some_of_spec in E as (-> & Hsp & _). apply some_of_spec in H as (-> & Ha & Hr). by exists sp.
  - intros (sp & -> & Hsp & Ha & Hr).
    assert (some_of is_js_space (sp ++ a ++ r) = Some (sp, a ++ r)) as ->.
    { apply some_of_spec. split_and!; [done|done|]. eapply plus_starts_not; [done|].
      intros c Hc. unfold is_nonspace in Hc. by apply negb_true_iff in Hc. }
    cbn. by apply some_of_spec.
Qed.

Lemma match_decimal_sound s t r : match_decimal s = Some (t, r) → s = t ++ r ∧ is_decimal t.
Proof.
  unfold match_decimal. intros H. destruct (some_of is_digit s) as [[w s1]|] eqn:E; [cbn in H|done].
  apply some_of_spec in E as (-> & Hw & Hs1).
  assert (∀ s1, Some (w, s1) = Some (t, r) → w ++ s1 = t ++ r ∧ is_decimal t) as Hplain
    by (intros ? [= <- <-]; split; [done|by left]).
  destruct s1 as [|c s1]; [by apply Hplain|].
  destruct (decide (c = "."%char)) as [->|Hc].
  - destruct (some_of is_digit s1) as [[part s2]|] eqn:E2; [|by apply Hplain].
    apply some_of_spec in E2 as (-> & Hp & _). injection H as <- <-.
    split; [by rewrite string_app_assoc|]. right. by exists w, part.
  - apply Hplain. destruct c as [[][][][][][][][]]; done.
Qed.
Lemma match_decimal_complete t r : is_decimal t → match_decimal (t ++ String "]"%char r) = Some (t, String "]"%char r).
Proof.
  unfold match_decimal. intros [Ht|(a & b & -> & Ha & Hb)].
  - assert (some_of is_digit (t ++ String "]"%char r) = Some (t, String "]"%char r)) as ->
      by (by apply some_of_spec).
    done.
  - rewrite string_app_assoc. cbn [String.append].
    assert (some_of is_digit (a ++ String "."%char (b ++ String "]"%char r)) =
            Some (a, String "."%char (b ++ String "]"%char r))) as -> by (by apply some_of_spec).
    cbn. assert (some_of is_digit (b ++ String "]"%char r) = Some (b, String "]"%char r)) as -> by (by apply some_of_spec).
    done.
Qed.

Lemma skip_spaces_spec s0 s : star_of is_js_space s0 → starts_not is_js_space s → skip_spaces (s0 ++ s) = s.
Proof.
  intros. unfold skip_spaces. by assert (span is_js_space (s0 ++ s) = (s0, s)) as -> by (by apply span_spec).
Qed.
Lemma skip_spaces_split s : ∃ s0, s = s0 ++ skip_spaces s ∧ star_of is_js_space s0.
Proof.
  unfold skip_spaces. destruct (span is_js_space s) as [a b] eqn:E. apply span_spec in E as (-> & ? & _). by exists a.
Qed.

Lemma digit_not_space c : is_digit c = true → is_js_space c = false.
Proof. destruct c as [[][][][][][][][]]; by vm_compute. Qed.

Lemma matchLine_sound line m : matchLine line = Some m → line_denotes line m.
Proof.
  unfold matchLine. intros H. destruct line as [|c s]; [done|].
  destruct (decide (c = "["%char)) as [->|Hc]; [|by destruct c as [[][][][][][][][]]].
  destruct (skip_spaces_split s) as (s0 & Hs & Hs0).
  destruct (match_decimal (skip_spaces s)) as [[t s1]|] eqn:E; [cbn in H|done].
  apply match_decimal_sound in E as [Hskip Ht]. destruct s1 as [|c s1]; [done|].
  destruct (decide (c = "]"%char)) as [->|Hc]; [|by destruct c as [[][][][][][][][]]].
  destruct (match_field s1) as [[a s2]|] eqn:E1; [cbn in H|done].
  destruct (match_field s2) as [[b s3]|] eqn:E2; [cbn in H|done].
  destruct (match_field s3) as [[d s4]|] eqn:E3; [cbn in H|done].
  case_bool_decide as He; [|done]. injection H as <-.
  apply match_field_spec in E1 as (p1 & -> & Hp1 & Ha & _).
  apply match_field_spec in E2 as (p2 & -> & Hp2 & Hb & _).
  apply match_field_spec in E3 as (p3 & -> & Hp3 & Hd & _).
  destruct (skip_spaces_split s4) as (p4 & H4 & Hp4). rewrite He, string_app_nil in H4. subst p4.
  exists s0, p1, p2, p3, s4. cbn. split_and!; try done. by rewrite Hs, Hskip.
Qed.

Lemma matchLine_complete line m : line_denotes line m → matchLine line = Some m.
Proof.
  destruct m as [t a b d]. intros (s0 & s1 & s2 & s3 & s4 & -> & Hs0 & Ht & Hs1 & Ha & Hs2 & Hb & Hs3 & Hd & Hs4).
  cbn in *. unfold matchLine.
  assert (skip_spaces (s0 ++ t ++ String "]"%char (s1 ++ a ++ s2 ++ b ++ s3 ++ d ++ s4)) =
          t ++ String "]"%char (s1 ++ a ++ s2 ++ b ++ s3 ++ d ++ s4)) as ->.
  { apply skip_spaces_spec; [done|]. destruct Ht as [Ht|(x & y & -> & Hx & _)].
    - apply (plus_starts_not is_digit); [done|apply digit_not_space].
    - rewrite string_app_assoc. apply (plus_starts_not is_digit); [done|apply digit_not_space]. }
  rewrite match_decimal_complete by done. cbn.
  assert (∀ sp r, plus_of is_js_space sp → starts_not is_nonspace (sp ++ r)) as Hns.
  { intros sp r Hsp. eapply plus_starts_not; [done|]. unfold is_nonspace. by intros c ->. }
  rewrite (proj2 (match_field_spec _ a (s2 ++ b ++ s3 ++ d ++ s4))) by (exists s1; split_and!; auto). cbn.
  rewrite (proj2 (match_field_spec _ b (s3 ++ d ++ s4))) by (exists s2; split_and!; auto). cbn.
  rewrite (proj2 (match_field_spec _ d s4)).
  2:{ exists s3. split_and!; auto. destruct s4; cbn in *; [done|]. unfold star_of in Hs4. cbn in Hs4.
      apply andb_true_iff in Hs4 as [Hc _]. unfold is_nonspace. by rewrite Hc. }
  cbn. rewrite bool_decide_eq_true_2; [done|].
  rewrite <- (string_app_nil s4). by rewrite skip_spaces_spec.
Qed.

(** The matcher accepts a line, and reads its groups, exactly as the regular
    expression denotes. *)
Lemma match_line_exact line m : matchLine line = Some m ↔ line_denotes line m.
Proof. split; [apply matchLine_sound|apply matchLine_complete]. Qed.
