(* ===== verification/PenHover.v ===== *)
(** * Pen samples and hover episodes

    The touch types of [src/src/features/record/android/types.ts] and
    [PenHoverTracker.ts]: a pen that comes into range and leaves without touching
    is reported once, with a bounded path of its positions.  Slot records are
    copied where the source spreads them; the arrays of an episode are never
    shared, so plain values model both. *)
From Stdlib Require Import QArith.
From S2P Require Import Prelude JsString JsMap JsArray.
Local Open Scope nat_scope.

(** ** Types *)

Inductive PointerToolType := finger | stylus | eraser.
#[export] Instance PointerToolType_eq_dec : EqDecision PointerToolType.
Proof. solve_decision. Defined.
Inductive StylusButton := stylusPrimary | stylusSecondary.
#[export] Instance StylusButton_eq_dec : EqDecision StylusButton.
Proof. solve_decision. Defined.
Inductive Axis := axis_x | axis_y.
#[export] Instance Axis_eq_dec : EqDecision Axis.
Proof. solve_decision. Defined.

Record PenSample := mkPenSample {
  pen_x : num; pen_y : num; pen_pressure : num; pen_arrivedAt : Z; pen_kernelAtMs : Q }.
Record HoverSample := mkHoverSample {
  hover_x : num; hover_y : num; hover_distance : num; hover_arrivedAt : Z; hover_kernelAtMs : option Q }.

Record TouchSlot := mkSlot {
  slotId : num;
  trackingId : num;
  slot_x : num;
  slot_y : num;
  pressure : num;
  path : option (list PenSample);
  toolType : option PointerToolType;
  buttons : option (list StylusButton);
  tiltX : option Z;
  tiltY : option Z;
  distance : option num;
  unknownAxes : option (list Axis);
}.

Inductive RecordedButton := back | home | menu | power | volume_up | volume_down | recent.

(** The two kinds of gesture event the reconstructor makes. *)
Inductive GestureEvent :=
| PressButton (arrivedAt : Z) (button : RecordedButton)
| HoverEvent (arrivedAt : Z) (tool : PointerToolType) (hover : option (list HoverSample)).

Definition PEN_MAX_SAMPLES : nat := 100.

(** ** The tracker *)

Record Episode := mkEpisode { touched : bool; samples : list HoverSample }.
Record PenHoverTracker := mkTracker { nodeEpisode : option Episode; slotEpisodes : JsMap num Episode }.
Definition newTracker : PenHoverTracker := mkTracker None [].
Definition newEpisode : Episode := mkEpisode false [].

Definition hoverEvent (tool : PointerToolType) (arrivedAt : Z) (episode : Episode) : GestureEvent :=
  HoverEvent arrivedAt tool (match samples episode with [] => None | l => Some l end).

Definition penEntered (t : PenHoverTracker) : PenHoverTracker :=
  mkTracker (Some (default newEpisode (nodeEpisode t))) (slotEpisodes t).
Definition penTouched (t : PenHoverTracker) : PenHoverTracker :=
  mkTracker (Some (mkEpisode true (samples (default newEpisode (nodeEpisode t))))) (slotEpisodes t).
Definition penLeft (tool : PointerToolType) (arrivedAt : Z) (t : PenHoverTracker) :
    option GestureEvent * PenHoverTracker :=
  (match nodeEpisode t with
   | Some episode => if touched episode then None else Some (hoverEvent tool arrivedAt episode)
   | None => None end,
   mkTracker None (slotEpisodes t)).

(** The array a full path is compacted to before the next sample is pushed. *)
Definition pushHover (l : list HoverSample) (s : HoverSample) : list HoverSample :=
  (if bool_decide (PEN_MAX_SAMPLES ≤ length l) then filteri (λ i, (i =? 0) || Nat.odd i) l else l) ++ [s].

Definition sample (slot : TouchSlot) (arrivedAt : Z) (kernelAtMs : option Q) (episode : Episode) : Episode :=
  if touched episode || negb (is_finite (slot_x slot)) || negb (is_finite (slot_y slot)) then episode
  else
    match distance slot with
    | Some d =>
        if is_finite d then
          mkEpisode (touched episode)
            (pushHover (samples episode) (mkHoverSample (slot_x slot) (slot_y slot) d arrivedAt kernelAtMs))
        else episode
    | None => episode
    end.

Definition slotHovering (id : num) (slot : TouchSlot) (arrivedAt : Z) (kernelAtMs : option Q)
    (t : PenHoverTracker) : PenHoverTracker :=
  let eps := if jhas id (slotEpisodes t) then slotEpisodes t else jset id newEpisode (slotEpisodes t) in
  mkTracker (nodeEpisode t)
    (match jget id eps with Some e => jset id (sample slot arrivedAt kernelAtMs e) eps | None => eps end).
Definition penHovering (slot : TouchSlot) (arrivedAt : Z) (kernelAtMs : option Q) (t : PenHoverTracker) :
    PenHoverTracker :=
  mkTracker (sample slot arrivedAt kernelAtMs <$> nodeEpisode t) (slotEpisodes t).
Definition slotTouching (id : num) (t : PenHoverTracker) : PenHoverTracker :=
  mkTracker (nodeEpisode t) (jset id (mkEpisode true []) (slotEpisodes t)).
Definition slotReleased (id : num) (tool : option PointerToolType) (arrivedAt : Z) (t : PenHoverTracker) :
    option GestureEvent * PenHoverTracker :=
  (match jget id (slotEpisodes t), tool with
   | Some episode, Some tool => if touched episode then None else Some (hoverEvent tool arrivedAt episode)
   | _, _ => None end,
   mkTracker (nodeEpisode t) (jdel id (slotEpisodes t))).

(** ** Episodes as sequences of calls *)

(** A call on the tracker. *)
Inductive Call :=
| Entered
| Touched
| Left (tool : PointerToolType) (arrivedAt : Z)
| Hovering (slot : TouchSlot) (arrivedAt : Z) (kernelAtMs : option Q)
| SlotHovering (id : num) (slot : TouchSlot) (arrivedAt : Z) (kernelAtMs : option Q)
| SlotTouching (id : num)
| SlotReleased (id : num) (tool : option PointerToolType) (arrivedAt : Z).

Definition call (t : PenHoverTracker) (c : Call) : option GestureEvent * PenHoverTracker :=
  match c with
  | Entered => (None, penEntered t)
  | Touched => (None, penTouched t)
  | Left tool at_ => penLeft tool at_ t
  | Hovering slot at_ k => (None, penHovering slot at_ k t)
  | SlotHovering id slot at_ k => (None, slotHovering id slot at_ k t)
  | SlotTouching id => (None, slotTouching id t)
  | SlotReleased id tool at_ => slotReleased id tool at_ t
  end.
Definition calls (cs : list Call) : PenHoverTracker := foldl (λ t c, (call t c).2) newTracker cs.

(** What an episode should be, read off the calls since its opening: the calls
    that concern the owner ([None] the node, [Some id] a slot) and come after
    the last one that ended its episode. *)
Inductive Mark := Hovers (s : option HoverSample) | Touches | Opens | Ends.

Definition hover_sample (slot : TouchSlot) (arrivedAt : Z) (kernelAtMs : option Q) : option HoverSample :=
  if is_finite (slot_x slot) && is_finite (slot_y slot) then
    match distance slot with
    | Some (Some d) => Some (mkHoverSample (slot_x slot) (slot_y slot) (Some d) arrivedAt kernelAtMs)
    | _ => None
    end
  else None.

Definition mark_of (owner : option num) (c : Call) : option Mark :=
  match owner, c with
  | None, Entered => Some Opens
  | None, Touched => Some Touches
  | None, Left _ _ => Some Ends
  | None, Hovering slot at_ k => Some (Hovers (hover_sample slot at_ k))
  | Some i, SlotHovering id slot at_ k => if decide (id = i) then Some (Hovers (hover_sample slot at_ k)) else None
  | Some i, SlotTouching id => if decide (id = i) then Some Touches else None
  | Some i, SlotReleased id _ _ => if decide (id = i) then Some Ends else None
  | _, _ => None
  end.

(** The marks of the episode that is open after the calls: those after the last
    [Ends], and for the node from the one that opened the episode on. *)
Definition add_mark (owner : option num) (ms : list Mark) (m : Mark) : list Mark :=
  match m, owner, ms with
  | Ends, _, _ => []
  | Hovers _, None, [] => []
  | _, _, _ => ms ++ [m]
  end.
Definition episode_marks (owner : option num) (cs : list Call) : list Mark :=
  foldl (add_mark owner) [] (omap (mark_of owner) cs).

Definition is_touch (m : Mark) : bool := match m with Touches => true | _ => false end.
Definition hovers (ms : list Mark) : list HoverSample :=
  omap (λ m, match m with Hovers s => s | _ => None end) ms.
Definition recorded (l : list HoverSample) : list HoverSample := foldl pushHover [] l.

(** What the end of the episode reports. *)
Definition expected (owner : option num) (cs : list Call) (tool : PointerToolType) (arrivedAt : Z) :
    option GestureEvent :=
  let ms := episode_marks owner cs in
  if bool_decide (ms = []) || existsb is_touch ms then None
  else Some (HoverEvent arrivedAt tool (match recorded (hovers ms) with [] => None | l => Some l end)).

(** ** The tracker keeps the episodes *)

Definition episode_of (owner : option num) (t : PenHoverTracker) : option Episode :=
  match owner with None => nodeEpisode t | Some i => jget i (slotEpisodes t) end.

Definition agrees (e : option Episode) (ms : list Mark) : Prop :=
  match e with
  | None => ms = []
  | Some e => ms ≠ [] ∧ touched e = existsb is_touch ms ∧ (touched e = false → samples e = recorded (hovers ms))
  end.

Lemma call_other owner t c : mark_of owner c = None → episode_of owner (call t c).2 = episode_of owner t.
Proof.
  destruct owner as [i|], c; cbn; try done; try (case_decide as Hd; [done|]; intros _).
  - unfold slotHovering. cbn. destruct (jget id _) eqn:E; jmap_simpl; rewrite ?decide_False by done;
      destruct (jhas id _); jmap_simpl; by rewrite ?decide_False by done.
  - by rewrite jget_set, decide_False.
  - by rewrite jget_del, decide_False.
Qed.

(** A sample is recorded in an untouched episode when its position and distance
    are known. *)
Lemma sample_spec slot at_ k e :
  sample slot at_ k e =
  if touched e then e
  else match hover_sample slot at_ k with
       | Some s => mkEpisode false (pushHover (samples e) s)
       | None => e end.
Proof.
  unfold sample, hover_sample. destruct (touched e) eqn:E; [done|]. simpl.
  destruct (is_finite (slot_x slot)), (is_finite (slot_y slot)); simpl; try done.
  by destruct (distance slot) as [[d|]|].
Qed.

Lemma agrees_hover e ms s :
  agrees (Some e) ms →
  agrees (Some (if touched e then e
                else match s with Some s => mkEpisode false (pushHover (samples e) s) | None => e end))
    (ms ++ [Hovers s]).
Proof.
  intros (Hne & Ht & Hs). unfold agrees. rewrite existsb_app, orb_false_r.
  split; [by destruct ms|]. destruct (touched e) eqn:E.
  - by rewrite E.
  - specialize (Hs eq_refl). unfold hovers, recorded in *. rewrite omap_app, foldl_app, <- Hs.
    by destruct s; cbn; rewrite ?E.
Qed.

Lemma call_marked owner t c m ms :
  mark_of owner c = Some m → agrees (episode_of owner t) ms →
  agrees (episode_of owner (call t c).2) (add_mark owner ms m).
Proof.
  destruct owner as [i|], c; cbn [mark_of]; try done;
    try (case_decide; [subst id|done]); intros [= <-]; cbn [call snd episode_of] in *; intros Hag.
  - unfold slotHovering. cbn. rewrite jhas_get.
    assert (agrees (Some (default newEpisode (jget i (slotEpisodes t)))) ms ∨ ms = [] ∧ jget i (slotEpisodes t) = None)
      as Hcase by (destruct (jget i _); [by left|by right]).
    destruct (jget i (slotEpisodes t)) as [e|] eqn:E.
    + rewrite bool_decide_eq_true_2 by eauto. rewrite E. jmap_simpl. rewrite decide_True by done.
      rewrite sample_spec. by destruct ms; apply agrees_hover.
    + rewrite bool_decide_eq_false_2 by (by intros [??]). jmap_simpl. rewrite decide_True by done.
      jmap_simpl. rewrite decide_True by done. rewrite sample_spec. cbn in Hag. subst ms. cbn.
      destruct (hover_sample slot arrivedAt kernelAtMs); done.
  - cbn. rewrite jget_set, decide_True by done. unfold agrees. rewrite existsb_app. cbn.
    rewrite orb_true_r. by destruct ms.
  - cbn. by rewrite jget_del, decide_True.
  - cbn. destruct (nodeEpisode t) as [e|]; cbn in Hag; [|by subst ms].
    destruct Hag as (Hne & Ht & Hs). unfold agrees. cbn. rewrite existsb_app, orb_false_r.
    split; [by destruct ms|]. split; [done|]. intros H0. rewrite (Hs H0). unfold hovers. rewrite omap_app.
    by rewrite app_nil_r.
  - unfold agrees. cbn. rewrite existsb_app. cbn. rewrite orb_true_r. by destruct ms.
  - done.
  - unfold penHovering. cbn [nodeEpisode]. destruct (nodeEpisode t) as [e|]; cbn [agrees] in Hag; [|by subst ms].
    simpl fmap. rewrite sample_spec. destruct ms; [by destruct Hag|]. by apply (agrees_hover e).
Qed.

Lemma calls_agree owner cs : agrees (episode_of owner (calls cs)) (episode_marks owner cs).
Proof.
  unfold calls, episode_marks. induction cs as [|c cs IH] using rev_ind; [by destruct owner|].
  rewrite foldl_app, omap_app, foldl_app. cbn. destruct (mark_of owner c) as [m|] eqn:E; cbn.
  - by apply call_marked.
  - by rewrite call_other.
Qed.

(** The end of an episode reports what its marks say. *)
Lemma end_expected owner cs tool at_ :
  (call (calls cs) (match owner with None => Left tool at_ | Some i => SlotReleased i (Some tool) at_ end)).1 =
  expected owner cs tool at_.
Proof.
  pose proof (calls_agree owner cs) as H. unfold expected.
  assert ((call (calls cs) (match owner with None => Left tool at_ | Some i => SlotReleased i (Some tool) at_ end)).1 =
    match episode_of owner (calls cs) with
    | Some e => if touched e then None else Some (hoverEvent tool at_ e) | None => None end) as ->
    by (destruct owner as [i|]; cbn; [by destruct (jget i _)|done]).
  destruct (episode_of owner (calls cs)) as [e|]; cbn in H; [|by rewrite H].
  destruct H as (Hne & -> & Hs). rewrite bool_decide_eq_false_2 by done. cbn.
  destruct (existsb is_touch _); [done|]. unfold hoverEvent. by rewrite Hs.
Qed.

(** ** The recorded path *)

Lemma pushHover_length l s : length l ≤ PEN_MAX_SAMPLES → length (pushHover l s) ≤ PEN_MAX_SAMPLES.
Proof.
  unfold pushHover, PEN_MAX_SAMPLES. intros Hl. rewrite length_app. cbn [length]. case_bool_decide; [|lia].
  pose proof (length_keep_odd l). assert (length l = 100) as E by lia. rewrite E in *.
  change (100 / 2) with 50 in *. lia.
Qed.
Lemma pushHover_head l s : head (pushHover l s) = head (l ++ [s]).
Proof.
  unfold pushHover. case_bool_decide; [|done]. destruct l; done.
Qed.
Lemma pushHover_sublist l h s : l `sublist_of` h → pushHover l s `sublist_of` h ++ [s].
Proof.
  intros Hl. unfold pushHover. apply sublist_app; [|done]. case_bool_decide; [|done].
  etrans; [apply filteri_from_sublist|done].
Qed.

Lemma recorded_spec l :
  length (recorded l) ≤ PEN_MAX_SAMPLES ∧ head (recorded l) = head l ∧ last (recorded l) = last l ∧
  recorded l `sublist_of` l.
Proof.
  unfold recorded. induction l as [|s l IH] using rev_ind; [split_and!; [unfold PEN_MAX_SAMPLES; cbn; lia|done..]|].
  rewrite foldl_app. cbn. destruct IH as (Hlen & Hh & _ & Hsub). split_and!.
  - by apply pushHover_length.
  - rewrite pushHover_head. destruct l as [|y l]; [done|]. destruct (foldl pushHover [] (y :: l)); [done|].
    cbn in *. by simplify_eq.
  - unfold pushHover. by rewrite !last_snoc.
  - by apply pushHover_sublist.
Qed.
