(* ===== verification/TouchFrames.v ===== *)
(** * Touch frame reconstruction

    [src/src/features/record/android/TouchFrameReconstructor.ts]: the slots of
    Linux's multi-touch protocol B, fed one [getevent -lt] line at a time.  Slot
    objects never leave the reconstructor, which emits copies, so a slot is a
    plain value of the [slots] map.  [heard] lists the calls of [onHover].  The
    event code indexes [KEY_TO_BUTTON] for its own keys only; an event code is no
    member of [Object.prototype]. *)
From Stdlib Require Import QArith.
From S2P Require Import Prelude JsString JsMap Bytes JsArray GetEventLine PenHover.
Local Open Scope nat_scope.

(** ** Frames and state *)

Record RawTouchFrame := mkFrame {
  frame_arrivedAt : Z;
  activeSlots : list TouchSlot;
  frame_releasedSlots : list num;
  releasedFinalSamples : option (list TouchSlot);
}.
Inductive Output := Frame (f : RawTouchFrame) | Gesture (g : GestureEvent).

(** The constructor's options: [hears] is whether [onHover] is given. *)
Record Options := mkOptions { singleTouch : bool; hears : bool }.

Record Reconstructor := mkRec {
  slots : JsMap num TouchSlot;
  currentSlot : num;
  penPaths : JsMap num (list PenSample);
  releasedSlots : list num;
  touchingSlots : list num;
  lastEmitted : JsMap num (num * num);
  nodeTool : option PointerToolType;
  heldButtons : list StylusButton;
  hover : PenHoverTracker;
  kernelAtMs : Q;
  heard : list GestureEvent;
}.
Definition newReconstructor : Reconstructor :=
  mkRec [] (Some 0%Z) [] [] [] [] None [] newTracker 0%Q [].

Definition with_slots f (r : Reconstructor) : Reconstructor :=
  mkRec (f (slots r)) (currentSlot r) (penPaths r) (releasedSlots r) (touchingSlots r) (lastEmitted r)
    (nodeTool r) (heldButtons r) (hover r) (kernelAtMs r) (heard r).
Definition with_currentSlot v (r : Reconstructor) : Reconstructor :=
  mkRec (slots r) v (penPaths r) (releasedSlots r) (touchingSlots r) (lastEmitted r)
    (nodeTool r) (heldButtons r) (hover r) (kernelAtMs r) (heard r).
Definition with_penPaths f (r : Reconstructor) : Reconstructor :=
  mkRec (slots r) (currentSlot r) (f (penPaths r)) (releasedSlots r) (touchingSlots r) (lastEmitted r)
    (nodeTool r) (heldButtons r) (hover r) (kernelAtMs r) (heard r).
Definition with_releasedSlots f (r : Reconstructor) : Reconstructor :=
  mkRec (slots r) (currentSlot r) (penPaths r) (f (releasedSlots r)) (touchingSlots r) (lastEmitted r)
    (nodeTool r) (heldButtons r) (hover r) (kernelAtMs r) (heard r).
Definition with_touchingSlots f (r : Reconstructor) : Reconstructor :=
  mkRec (slots r) (currentSlot r) (penPaths r) (releasedSlots r) (f (touchingSlots r)) (lastEmitted r)
    (nodeTool r) (heldButtons r) (hover r) (kernelAtMs r) (heard r).
Definition with_lastEmitted f (r : Reconstructor) : Reconstructor :=
  mkRec (slots r) (currentSlot r) (penPaths r) (releasedSlots r) (touchingSlots r) (f (lastEmitted r))
    (nodeTool r) (heldButtons r) (hover r) (kernelAtMs r) (heard r).
Definition with_nodeTool v (r : Reconstructor) : Reconstructor :=
  mkRec (slots r) (currentSlot r) (penPaths r) (releasedSlots r) (touchingSlots r) (lastEmitted r)
    v (heldButtons r) (hover r) (kernelAtMs r) (heard r).
Definition with_heldButtons f (r : Reconstructor) : Reconstructor :=
  mkRec (slots r) (currentSlot r) (penPaths r) (releasedSlots r) (touchingSlots r) (lastEmitted r)
    (nodeTool r) (f (heldButtons r)) (hover r) (kernelAtMs r) (heard r).
Definition with_hover f (r : Reconstructor) : Reconstructor :=
  mkRec (slots r) (currentSlot r) (penPaths r) (releasedSlots r) (touchingSlots r) (lastEmitted r)
    (nodeTool r) (heldButtons r) (f (hover r)) (kernelAtMs r) (heard r).
Definition with_kernelAtMs v (r : Reconstructor) : Reconstructor :=
  mkRec (slots r) (currentSlot r) (penPaths r) (releasedSlots r) (touchingSlots r) (lastEmitted r)
    (nodeTool r) (heldButtons r) (hover r) v (heard r).
Definition with_heard f (r : Reconstructor) : Reconstructor :=
  mkRec (slots r) (currentSlot r) (penPaths r) (releasedSlots r) (touchingSlots r) (lastEmitted r)
    (nodeTool r) (heldButtons r) (hover r) (kernelAtMs r) (f (heard r)).

Definition set_trackingId v (s : TouchSlot) : TouchSlot :=
  mkSlot (slotId s) v (slot_x s) (slot_y s) (pressure s) (path s) (toolType s) (buttons s) (tiltX s) (tiltY s)
    (distance s) (unknownAxes s).
Definition set_pressure v (s : TouchSlot) : TouchSlot :=
  mkSlot (slotId s) (trackingId s) (slot_x s) (slot_y s) v (path s) (toolType s) (buttons s) (tiltX s) (tiltY s)
    (distance s) (unknownAxes s).
Definition set_path v (s : TouchSlot) : TouchSlot :=
  mkSlot (slotId s) (trackingId s) (slot_x s) (slot_y s) (pressure s) v (toolType s) (buttons s) (tiltX s) (tiltY s)
    (distance s) (unknownAxes s).
Definition set_toolType v (s : TouchSlot) : TouchSlot :=
  mkSlot (slotId s) (trackingId s) (slot_x s) (slot_y s) (pressure s) (path s) v (buttons s) (tiltX s) (tiltY s)
    (distance s) (unknownAxes s).
Definition set_buttons v (s : TouchSlot) : TouchSlot :=
  mkSlot (slotId s) (trackingId s) (slot_x s) (slot_y s) (pressure s) (path s) (toolType s) v (tiltX s) (tiltY s)
    (distance s) (unknownAxes s).
Definition set_tilt vx vy (s : TouchSlot) : TouchSlot :=
  mkSlot (slotId s) (trackingId s) (slot_x s) (slot_y s) (pressure s) (path s) (toolType s) (buttons s) vx vy
    (distance s) (unknownAxes s).
Definition set_distance v (s : TouchSlot) : TouchSlot :=
  mkSlot (slotId s) (trackingId s) (slot_x s) (slot_y s) (pressure s) (path s) (toolType s) (buttons s) (tiltX s)
    (tiltY s) v (unknownAxes s).
Definition set_axis (axis : Axis) (v : num) (s : TouchSlot) : TouchSlot :=
  mkSlot (slotId s) (trackingId s)
    (if bool_decide (axis = axis_x) then v else slot_x s) (if bool_decide (axis = axis_y) then v else slot_y s)
    (pressure s) (path s) (toolType s) (buttons s) (tiltX s) (tiltY s) (distance s) (unknownAxes s).
Definition set_unknownAxes v (s : TouchSlot) : TouchSlot :=
  mkSlot (slotId s) (trackingId s) (slot_x s) (slot_y s) (pressure s) (path s) (toolType s) (buttons s) (tiltX s)
    (tiltY s) (distance s) v.

Definition newSlot (id : num) : TouchSlot :=
  mkSlot id (Some (-1)%Z) None None (Some 0%Z) None None None None None None (Some [axis_x; axis_y]).

Definition KEY_TO_BUTTON (evCode : string) : option RecordedButton :=
  if decide (evCode = "KEY_BACK")%stdpp then Some back
  else if decide (evCode = "KEY_HOME")%stdpp then Some home
  else if decide (evCode = "KEY_MENU")%stdpp then Some menu
  else if decide (evCode = "KEY_POWER")%stdpp then Some power
  else if decide (evCode = "KEY_VOLUMEUP")%stdpp then Some volume_up
  else if decide (evCode = "KEY_VOLUMEDOWN")%stdpp then Some volume_down
  else if decide (evCode = "KEY_APPSELECT")%stdpp then Some recent
  else None.

(** The path with one more sample: a full path first loses every second old
    sample but the first and the pressure extrema. *)
Definition minimum (l : list PenSample) : nat := best_index (λ p b, num_ltb (pen_pressure p) (pen_pressure b)) l.
Definition maximum (l : list PenSample) : nat := best_index (λ p b, num_ltb (pen_pressure b) (pen_pressure p)) l.
Definition pushPen (l : list PenSample) (s : PenSample) : list PenSample :=
  (if bool_decide (PEN_MAX_SAMPLES ≤ length l) then
     filteri (λ i, (i =? 0) || (i =? minimum l) || (i =? maximum l) || Nat.odd i) l
   else l) ++ [s].

(** ** The reconstructor *)

Section Reconstructor.
Context (opt : Options).
Local Open Scope string_scope.

Definition emitHover (event : option GestureEvent) (r : Reconstructor) : Reconstructor :=
  match event with
  | Some e => if hears opt then with_heard (λ l, (l ++ [e])%list) r else r
  | None => r
  end.

Definition getOrCreateSlot (r : Reconstructor) : Reconstructor :=
  if jhas (currentSlot r) (slots r) then r
  else with_slots (jset (currentSlot r) (newSlot (currentSlot r))) r.

(** A property of [getOrCreateSlot()] assigned. *)
Definition update_slot (f : TouchSlot → TouchSlot) (r : Reconstructor) : Reconstructor :=
  let r := getOrCreateSlot r in
  match jget (currentSlot r) (slots r) with
  | Some s => with_slots (jset (currentSlot r) (f s)) r
  | None => r
  end.

Definition observeAxis (axis : Axis) (value : num) : Reconstructor → Reconstructor :=
  update_slot (λ s,
    let s := set_axis axis value s in
    let unknown := filter (λ u, u ≠ axis) <$> unknownAxes s in
    set_unknownAxes (match unknown with Some (_ :: _) => unknown | _ => None end) s).

Definition isMtPenHovering (slot : TouchSlot) : bool :=
  negb (singleTouch opt) && bool_decide (toolType slot ≠ None) &&
  num_ltb (Some 0%Z) (default (Some 0%Z) (distance slot)).

Definition withPenState (r : Reconstructor) (slot : TouchSlot) : TouchSlot :=
  if singleTouch opt || bool_decide (toolType slot ≠ None) then
    let slot :=
      if singleTouch opt then set_toolType (Some (default stylus (nodeTool r))) slot
      else if bool_decide (nodeTool r = Some eraser) then set_toolType (nodeTool r) slot
      else slot in
    if bool_decide (0 < length (heldButtons r))%nat then set_buttons (Some (heldButtons r)) slot else slot
  else set_tilt None None slot.

Definition samplePen (slot : TouchSlot) (arrivedAt : Z) (r : Reconstructor) : list PenSample * Reconstructor :=
  let path := default [] (jget (slotId slot) (penPaths r)) in
  let path := pushPen path (mkPenSample (slot_x slot) (slot_y slot) (pressure slot) arrivedAt (kernelAtMs r)) in
  (path, with_penPaths (jset (slotId slot) path) r).

(** The copy of an active slot a frame reports. *)
Definition reportActive (slot : TouchSlot) (arrivedAt : Z) (r : Reconstructor) : TouchSlot * Reconstructor :=
  let sample := withPenState r slot in
  match toolType sample with
  | Some _ => let '(p, r) := samplePen sample arrivedAt r in (set_path (Some p) sample, r)
  | None => (sample, r)
  end.

Definition observePenSlot (slot : TouchSlot) (arrivedAt : Z) (r : Reconstructor) : Reconstructor :=
  if singleTouch opt || bool_decide (toolType slot = None) || num_ltb (trackingId slot) (Some 0%Z) then r
  else if isMtPenHovering slot then
    with_hover (slotHovering (slotId slot) slot arrivedAt (Some (kernelAtMs r))) r
  else with_hover (slotTouching (slotId slot)) r.

Definition observePenSample (slot : TouchSlot) (arrivedAt : Z) (r : Reconstructor) : Reconstructor :=
  let r := observePenSlot slot arrivedAt r in
  if singleTouch opt && bool_decide (nodeTool r ≠ None) && num_ltb (trackingId slot) (Some 0%Z) then
    with_hover (penHovering slot arrivedAt (Some (kernelAtMs r))) r
  else r.

(** The event a hover call returns, reported. *)
Definition hover_reports (f : PenHoverTracker → option GestureEvent * PenHoverTracker) (r : Reconstructor) :
    Reconstructor :=
  let '(event, tracker) := f (hover r) in emitHover event (with_hover (λ _, tracker) r).

Definition releaseCurrentSlot (arrivedAt : Z) (r : Reconstructor) : Reconstructor :=
  match jget (currentSlot r) (slots r) with
  | None => r
  | Some slot =>
      let '(slot, r) :=
        if num_ge0 (trackingId slot) then
          let slot' := set_trackingId (Some (-1)%Z) slot in
          (slot', with_slots (jset (currentSlot r) slot') (with_releasedSlots (sadd (slotId slot)) r))
        else (slot, r) in
      hover_reports (slotReleased (slotId slot) (toolType (withPenState r slot)) arrivedAt) r
  end.

(** The loop of [endedByReplacement] over the slots. *)
Definition endedStep (replaced : TouchSlot) (arrivedAt : Z) (acc : list TouchSlot * Reconstructor)
    (e : num * TouchSlot) : list TouchSlot * Reconstructor :=
  let '(active, r) := acc in
  let slot := e.2 in
  if negb (num_eqb (slotId slot) (slotId replaced)) && num_ge0 (trackingId slot) && negb (isMtPenHovering slot) then
    let '(sample, r) := reportActive slot arrivedAt r in ((active ++ [sample])%list, r)
  else (active, r).
Definition endedByReplacement (replaced : TouchSlot) (arrivedAt : Z) (r : Reconstructor) :
    RawTouchFrame * Reconstructor :=
  let '(active, r) := foldl (endedStep replaced arrivedAt) ([], r) (slots r) in
  let id := slotId replaced in
  (mkFrame arrivedAt active [id] None,
   with_penPaths (jdel id) (with_lastEmitted (jdel id)
     (with_touchingSlots (sdel id) (with_releasedSlots (sdel id) r)))).

Definition handleTrackingId (evValue : string) (value : num) (arrivedAt : Z) (r : Reconstructor) :
    option RawTouchFrame * Reconstructor :=
  if decide (evValue = "ffffffff") then (None, releaseCurrentSlot arrivedAt r)
  else
    let r := getOrCreateSlot r in
    match jget (currentSlot r) (slots r) with
    | None => (None, r)
    | Some slot =>
        if num_ge0 (trackingId slot) && negb (num_eqb (trackingId slot) value) then
          let '(ended, r) := endedByReplacement slot arrivedAt r in
          let r := hover_reports (slotReleased (slotId slot) (toolType (withPenState r slot)) arrivedAt) r in
          (Some ended, update_slot (set_trackingId value) r)
        else (None, update_slot (set_trackingId value) r)
    end.

Definition handleSingleTouchAxis (evCode : string) (value : num) (r : Reconstructor) : Reconstructor :=
  let r := with_currentSlot (Some 0%Z) r in
  if decide (evCode = "ABS_X") then observeAxis axis_x value r
  else if decide (evCode = "ABS_Y") then observeAxis axis_y value r
  else update_slot (set_pressure value) r.

(** [value | 0]. *)
Definition to_int (value : num) : Z := match value with Some v => to_int32 v | None => 0%Z end.

Definition handlePenAbsEvent (evCode : string) (value : num) (r : Reconstructor) : Reconstructor :=
  if decide (evCode = "ABS_MT_TOOL_TYPE") then
    update_slot (set_toolType (if bool_decide (value = Some 1%Z) then Some stylus else None)) r
  else if decide (evCode = "ABS_X" ∨ evCode = "ABS_Y" ∨ evCode = "ABS_PRESSURE") then
    if singleTouch opt then handleSingleTouchAxis evCode value r else r
  else if decide (evCode = "ABS_TILT_X") then update_slot (λ s, set_tilt (Some (to_int value)) (tiltY s) s) r
  else if decide (evCode = "ABS_TILT_Y") then update_slot (λ s, set_tilt (tiltX s) (Some (to_int value)) s) r
  else if decide (evCode = "ABS_DISTANCE" ∨ evCode = "ABS_MT_DISTANCE") then update_slot (set_distance (Some value)) r
  else r.

Definition handleAbsEvent (evCode evValue : string) (arrivedAt : Z) (r : Reconstructor) :
    option RawTouchFrame * Reconstructor :=
  let value := parseInt16 evValue in
  if decide (evCode = "ABS_MT_SLOT") then (None, with_currentSlot value r)
  else if decide (evCode = "ABS_MT_TRACKING_ID") then handleTrackingId evValue value arrivedAt r
  else if decide (evCode = "ABS_MT_POSITION_X") then (None, observeAxis axis_x value r)
  else if decide (evCode = "ABS_MT_POSITION_Y") then (None, observeAxis axis_y value r)
  else if decide (evCode = "ABS_MT_PRESSURE") then (None, update_slot (set_pressure value) r)
  else (None, handlePenAbsEvent evCode value r).

Definition handleSingleTouchContact (pressed : bool) (r : Reconstructor) : Reconstructor :=
  let r := with_currentSlot (Some 0%Z) r in
  if pressed then update_slot (set_trackingId (Some 0%Z)) r
  else
    match jget (Some 0%Z) (slots r) with
    | Some slot =>
        if num_ge0 (trackingId slot) then
          with_slots (jset (Some 0%Z) (set_trackingId (Some (-1)%Z) slot))
            (with_releasedSlots (sadd (Some 0%Z)) r)
        else r
    | None => r
    end.

Definition setNodeTool (tool : PointerToolType) (pressed : bool) (arrivedAt : Z) (r : Reconstructor) : Reconstructor :=
  if pressed then
    let r := with_nodeTool (Some tool) r in
    if singleTouch opt then with_hover penEntered r else r
  else if bool_decide (nodeTool r ≠ Some tool) && bool_decide (nodeTool r ≠ None) then r
  else
    let r := with_nodeTool None r in
    if singleTouch opt then
      hover_reports (penLeft tool arrivedAt) (handleSingleTouchContact false r)
    else r.

Definition setButton (button : StylusButton) (pressed : bool) : Reconstructor → Reconstructor :=
  with_heldButtons (if pressed then sadd button else sdel button).

Definition handleKeyEvent (evCode : string) (pressed : bool) (arrivedAt : Z) (r : Reconstructor) : Reconstructor :=
  if decide (evCode = "BTN_DIGI" ∨ evCode = "BTN_TOOL_PEN") then setNodeTool stylus pressed arrivedAt r
  else if decide (evCode = "BTN_TOOL_RUBBER") then setNodeTool eraser pressed arrivedAt r
  else if decide (evCode = "BTN_STYLUS") then setButton stylusPrimary pressed r
  else if decide (evCode = "BTN_STYLUS2") then setButton stylusSecondary pressed r
  else if decide (evCode = "BTN_TOUCH") then
    if singleTouch opt then
      let r := handleSingleTouchContact pressed r in
      if pressed then with_hover penTouched r else r
    else r
  else r.

Definition takeFinalMove (slot : TouchSlot) (arrivedAt : Z) (r : Reconstructor) : list TouchSlot * Reconstructor :=
  let last_ := jget (slotId slot) (lastEmitted r) in
  let r := with_lastEmitted (jdel (slotId slot)) r in
  match last_ with
  | None => ([], r)
  | Some (x, y) =>
      if num_eqb x (slot_x slot) && num_eqb y (slot_y slot) then ([], r)
      else
        let final := withPenState r slot in
        match toolType final, jget (slotId slot) (penPaths r) ≫= last with
        | Some _, Some p =>
            let '(path, r) := samplePen (set_pressure (pen_pressure p) final) arrivedAt r in
            ([set_path (Some path) final], r)
        | _, _ => ([final], r)
        end
  end.

Record Report := mkReport {
  touching : list num; active : list TouchSlot; released : list num; finals : list TouchSlot }.

(** The loop of [handleSynEvent] over the slots. *)
Definition synStep (arrivedAt : Z) (acc : Report * Reconstructor) (e : num * TouchSlot) : Report * Reconstructor :=
  let '(rep, r) := acc in
  let slot := e.2 in
  let r := observePenSample slot arrivedAt r in
  if num_ge0 (trackingId slot) && negb (isMtPenHovering slot) then
    let '(sample, r) := reportActive slot arrivedAt r in
    (mkReport (sadd (slotId slot) (touching rep)) (active rep ++ [sample])%list (released rep) (finals rep),
     with_lastEmitted (jset (slotId slot) (slot_x slot, slot_y slot)) r)
  else if shas (slotId slot) (releasedSlots r) ||
          (num_ge0 (trackingId slot) && shas (slotId slot) (touchingSlots r)) then
    let '(final, r) := takeFinalMove slot arrivedAt r in
    (mkReport (touching rep) (active rep) (released rep ++ [slotId slot])%list (finals rep ++ final)%list, r)
  else (rep, r).

Definition reportFrame (arrivedAt : Z) (r : Reconstructor) : RawTouchFrame * Reconstructor :=
  let '(rep, r) := foldl (synStep arrivedAt) (mkReport [] [] [] [], r) (slots r) in
  let r := with_penPaths (λ paths, foldl (λ m id, jdel id m) paths (released rep)) r in
  let r := with_touchingSlots (λ _, touching rep) (with_releasedSlots (λ _, []) r) in
  (mkFrame arrivedAt (active rep) (released rep)
     (match finals rep with [] => None | l => Some l end), r).

Definition handleSynEvent (evCode evValue : string) (arrivedAt : Z) (r : Reconstructor) :
    option RawTouchFrame * Reconstructor :=
  if decide (evCode = "SYN_REPORT") then
    if decide (parseInt16 evValue = Some 0%Z) then
      let '(f, r) := reportFrame arrivedAt r in (Some f, r)
    else (None, r)
  else (None, r).

(** A matched line. *)
Definition feedMatch (m : LineMatch) (arrivedAt : Z) (r : Reconstructor) : option Output * Reconstructor :=
  let r := with_kernelAtMs (milliseconds (seconds m)) r in
  if decide (evType m = "EV_ABS") then
    let '(f, r) := handleAbsEvent (evCode m) (evValue m) arrivedAt r in (Frame <$> f, r)
  else if decide (evType m = "EV_SYN") then
    let '(f, r) := handleSynEvent (evCode m) (evValue m) arrivedAt r in (Frame <$> f, r)
  else if decide (evType m = "EV_KEY") then
    match (if decide (evValue m = "DOWN") then KEY_TO_BUTTON (evCode m) else None) with
    | Some button => (Some (Gesture (PressButton arrivedAt button)), r)
    | None =>
        (None, handleKeyEvent (evCode m) (bool_decide (evValue m = "DOWN" ∨ evValue m = "REPEAT")) arrivedAt r)
    end
  else (None, r).

Definition feedLine (line : string) (arrivedAt : Z) (r : Reconstructor) : option Output * Reconstructor :=
  match matchLine line with
  | Some m => feedMatch m arrivedAt r
  | None => (None, r)
  end.

(** The outputs of a sequence of lines, each with the host time it is read at. *)
Fixpoint feedLines (ls : list (string * Z)) (r : Reconstructor) : list Output * Reconstructor :=
  match ls with
  | [] => ([], r)
  | (line, at_) :: ls =>
      let '(o, r) := feedLine line at_ r in
      let '(os, r) := feedLines ls r in
      (match o with Some o => o :: os | None => os end, r)
  end.
End Reconstructor.
