(* ===== verification/TouchPaths.v ===== *)
(** * Pen paths

    The path a frame reports for a pen contact summarises every sample the frames
    showed of it: it is [pushPen] folded over them, at most [PEN_MAX_SAMPLES] long,
    with the first and the latest sample and the pressure extrema among them. *)
From Stdlib Require Import QArith.
From S2P Require Import Prelude JsString JsMap JsArray GetEventLine PenHover TouchFrames.
Local Open Scope nat_scope.

(** ** What compaction keeps *)

Definition summary (h : list PenSample) : list PenSample := foldl pushPen [] h.

Lemma length_pushPen l s : length l ≤ PEN_MAX_SAMPLES → length (pushPen l s) ≤ PEN_MAX_SAMPLES.
Proof.
  unfold pushPen, PEN_MAX_SAMPLES. intros Hl. rewrite length_app. cbn [length]. case_bool_decide; [|lia].
  pose proof (length_keep_odd_extrema (minimum l) (maximum l) l). assert (length l = 100) as E by lia.
  rewrite E in *. change (100 / 2) with 50 in *. lia.
Qed.
Lemma pushPen_head l s : head (pushPen l s) = head (l ++ [s]).
Proof. unfold pushPen. case_bool_decide; [|done]. by destruct l. Qed.
Lemma pushPen_last l s : last (pushPen l s) = Some s.
Proof. unfold pushPen. by rewrite last_snoc. Qed.
Lemma pushPen_sublist l h s : l `sublist_of` h → pushPen l s `sublist_of` h ++ [s].
Proof.
  intros Hl. unfold pushPen. apply sublist_app; [|done]. case_bool_decide; [|done].
  etrans; [apply filteri_from_sublist|done].
Qed.

Definition known_pressures (h : list PenSample) : Prop := Forall (λ s, is_Some (pen_pressure s)) h.
(** The pressures of [h] are within those of [l]. *)
Definition spans (l h : list PenSample) : Prop :=
  ∀ s p, s ∈ h → pen_pressure s = Some p →
    (∃ a q, a ∈ l ∧ pen_pressure a = Some q ∧ (q ≤ p)%Z) ∧ (∃ b q, b ∈ l ∧ pen_pressure b = Some q ∧ (p ≤ q)%Z).

Lemma extremum_kept (better : PenSample → PenSample → bool) (f : PenSample → Z) (keep : nat → bool) l s :
  known_pressures l → (∀ x y, x ∈ l → y ∈ l → better x y = (f x <? f y)%Z) →
  keep (best_index better l) = true → s ∈ l → ∃ a, a ∈ filteri keep l ∧ a ∈ l ∧ (f a ≤ f s)%Z.
Proof.
  intros Hl Hb Hk Hs. destruct (best_index_spec f better l) as (a & Ha & Hmin); [by intros ->; apply elem_of_nil in Hs|done|].
  exists a. split_and!; [|by eapply list_elem_of_lookup_2|by apply Hmin]. by apply (filteri_from_lookup 0 keep l _ a Ha).
Qed.

Lemma filteri_spans l :
  known_pressures l →
  spans (filteri (λ i, (i =? 0) || (i =? minimum l) || (i =? maximum l) || Nat.odd i) l) l.
Proof.
  intros Hl s p Hs Hp.
  set (keep := λ i, (i =? 0) || (i =? minimum l) || (i =? maximum l) || Nat.odd i).
  assert (∀ x, x ∈ l → pen_pressure x = Some (default 0%Z (pen_pressure x))) as Hdef.
  { intros x Hx. unfold known_pressures in Hl. rewrite Forall_forall in Hl. by destruct (Hl x Hx) as [? ->]. }
  split.
  - destruct (extremum_kept (λ x b, num_ltb (pen_pressure x) (pen_pressure b)) (λ x, default 0%Z (pen_pressure x)) keep l s)
      as (a & Ha & Hal & Hle); [done| | |done|].
    + intros x y Hx Hy. by rewrite (Hdef x Hx), (Hdef y Hy).
    + unfold keep, minimum. by rewrite Nat.eqb_refl, orb_true_r.
    + exists a, (default 0%Z (pen_pressure a)). rewrite Hp in Hle. auto.
  - destruct (extremum_kept (λ x b, num_ltb (pen_pressure b) (pen_pressure x)) (λ x, - default 0 (pen_pressure x))%Z keep l s)
      as (a & Ha & Hal & Hle); [done| | |done|].
    + intros x y Hx Hy. rewrite (Hdef x Hx), (Hdef y Hy). cbn.
      destruct (Z.ltb_spec (default 0%Z (pen_pressure y)) (default 0%Z (pen_pressure x))),
        (Z.ltb_spec (- default 0 (pen_pressure x)) (- default 0 (pen_pressure y)))%Z; lia.
    + unfold keep, maximum. by rewrite Nat.eqb_refl, orb_true_r.
    + exists a, (default 0%Z (pen_pressure a)). rewrite Hp in Hle. cbn in Hle. split_and!; [done|auto|lia].
Qed.

Lemma pushPen_spans l h s :
  known_pressures (h ++ [s]) → l `sublist_of` h → spans l h → spans (pushPen l s) (h ++ [s]).
Proof.
  intros Hk Hsub Hsp. apply Forall_app in Hk as [Hkh _].
  assert (known_pressures l) as Hkl.
  { unfold known_pressures in *. rewrite Forall_forall in *. intros x Hx. by apply Hkh, (elem_of_sublist l). }
  assert (spans (pushPen l s) (l ++ [s])) as Hpush.
  { intros x p Hx Hp. unfold pushPen. apply elem_of_app in Hx as [Hx|Hx%list_elem_of_singleton].
    - case_bool_decide; [|split; exists x, p; rewrite elem_of_app; split_and!; auto; lia].
      destruct (filteri_spans l Hkl x p Hx Hp) as [(a & q & Ha & ?) (b & q' & Hb & ?)].
      split; [exists a, q|exists b, q']; rewrite elem_of_app; auto.
    - subst x. split; exists s, p; rewrite elem_of_app, list_elem_of_singleton; split_and!; auto; lia. }
  intros x p Hx Hp. apply elem_of_app in Hx as [Hx|Hx]; [|apply (Hpush x p); [apply elem_of_app; by right|done]].
  destruct (Hsp x p Hx Hp) as [(a & q & Ha & Hq & Hle) (b & q' & Hb & Hq' & Hle')].
  destruct (Hpush a q ltac:(apply elem_of_app; by left) Hq) as [(a2 & q2 & ? & ? & ?) _].
  destruct (Hpush b q' ltac:(apply elem_of_app; by left) Hq') as [_ (b2 & q3 & ? & ? & ?)].
  split; [exists a2, q2|exists b2, q3]; split_and!; auto; lia.
Qed.

Lemma summary_spec h :
  length (summary h) ≤ PEN_MAX_SAMPLES ∧ head (summary h) = head h ∧ last (summary h) = last h ∧
  summary h `sublist_of` h ∧ (known_pressures h → spans (summary h) h).
Proof.
  unfold summary. induction h as [|s h IH] using rev_ind.
  { split_and!; [unfold PEN_MAX_SAMPLES; cbn; lia|done..|]. intros _ s p Hs. by apply elem_of_nil in Hs. }
  rewrite foldl_app. cbn. destruct IH as (Hlen & Hh & _ & Hsub & Hsp). split_and!.
  - by apply length_pushPen.
  - rewrite pushPen_head. destruct h as [|y h]; [done|]. destruct (foldl pushPen [] (y :: h)); [done|].
    cbn in *. by simplify_eq.
  - by rewrite pushPen_last, last_snoc.
  - by apply pushPen_sublist.
  - intros Hk. apply pushPen_spans; [done|done|]. apply Hsp. by apply Forall_app in Hk as [? _].
Qed.

(** ** The samples the frames show *)

(** The active copies of slot [k] that carry a path. *)
Definition shows (k : num) (l : list TouchSlot) : list TouchSlot :=
  filter (λ a, slotId a = k ∧ is_Some (path a)) l.

(** The samples a sequence of outputs shows of the contact in slot [k]: the last
    one of each reported path, from its last release on. *)
Definition add_output (k : num) (h : list PenSample) (o : Output) : list PenSample :=
  match o with
  | Frame f =>
      if bool_decide (k ∈ frame_releasedSlots f) then []
      else match shows k (activeSlots f) with
           | a :: _ => match path a ≫= last with Some s => h ++ [s] | None => h end
           | [] => h
           end
  | Gesture _ => h
  end.
Definition history (k : num) (os : list Output) : list PenSample := foldl (add_output k) [] os.

(** The path that stands for a history. *)
Definition stored (h : list PenSample) : option (list PenSample) :=
  match h with [] => None | _ => Some (summary h) end.
(** A path of a frame is the stored one and ends in the copy's own sample. *)
Definition shows_stored (f : RawTouchFrame) (r' : Reconstructor) : Prop :=
  ∀ a p, a ∈ activeSlots f → path a = Some p → slotId a ∉ frame_releasedSlots f →
    jget (slotId a) (penPaths r') = Some p ∧
    ∃ t, last p = Some (mkPenSample (slot_x a) (slot_y a) (pressure a) (frame_arrivedAt f) t).
Definition paths_step (r : Reconstructor) (o : option Output) (r' : Reconstructor) : Prop :=
  (∀ k h, jget k (penPaths r) = stored h →
    jget k (penPaths r') = stored (match o with Some o => add_output k h o | None => h end)) ∧
  match o with Some (Frame f) => shows_stored f r' | _ => True end.

Lemma stored_default h : default [] (stored h) = summary h.
Proof. by destruct h. Qed.
Lemma stored_snoc h s : stored (h ++ [s]) = Some (pushPen (summary h) s).
Proof. unfold stored. destruct (h ++ [s]) eqn:E; [by destruct h|]. rewrite <- E. unfold summary. by rewrite foldl_app. Qed.

(** ** A loop that meets each key once *)

Section Once.
Context {S E : Type} (f : S → E → S) (key : E → num) (k : num) (ok : E → Prop) (U V : S → S → Prop).
Context `{!PreOrder U} (UV : ∀ s1 s2 s3, U s1 s2 → V s2 s3 → V s1 s3) (VU : ∀ s1 s2 s3, V s1 s2 → U s2 s3 → V s1 s3).
Context (U_V : ∀ s1 s2, U s1 s2 → V s1 s2).
Context (other : ∀ s e, ok e → key e ≠ k → U s (f s e)) (this : ∀ s e, ok e → key e = k → V s (f s e)).

Lemma loop_other es s : Forall ok es → k ∉ key <$> es → U s (foldl f s es).
Proof.
  intros Hok. revert s. induction Hok as [|e es He Hes IH]; intros s Hk; [done|].
  rewrite fmap_cons, not_elem_of_cons in Hk. destruct Hk as [Hk Hks]. cbn.
  etrans; [by apply other, not_eq_sym|by apply IH].
Qed.
Lemma loop_once es s : Forall ok es → NoDup (key <$> es) → V s (foldl f s es).
Proof.
  intros Hok. revert s. induction Hok as [|e es He Hes IH]; intros s Hk; [by apply U_V|].
  rewrite fmap_cons, NoDup_cons in Hk. destruct Hk as [Hk Hks]. cbn.
  destruct (decide (key e = k)) as [Heq|Hne].
  - eapply VU; [by apply this|]. apply loop_other; [done|]. by rewrite <- Heq.
  - eapply UV; [by apply other|by apply IH].
Qed.
End Once.

(** ** The loops over the slots *)

Section Loops.
Context (opt : Options) (arrivedAt : Z) (k : num).

(** What a step does to the path of [k]: nothing, or the copy it adds shows the
    old path with the copy's own sample. *)
Definition unchanged (a : list TouchSlot) (r : Reconstructor) (a' : list TouchSlot) (r' : Reconstructor) : Prop :=
  shows k a' = shows k a ∧ jget k (penPaths r') = jget k (penPaths r).
Definition extended (a : list TouchSlot) (r : Reconstructor) (a' : list TouchSlot) (r' : Reconstructor) : Prop :=
  ∃ x p t, shows k a' = shows k a ++ [x] ∧ path x = Some p ∧ jget k (penPaths r') = Some p ∧
    p = pushPen (default [] (jget k (penPaths r))) (mkPenSample (slot_x x) (slot_y x) (pressure x) arrivedAt t).

Definition entry_ok (e : num * TouchSlot) : Prop := slotId e.2 = e.1 ∧ path e.2 = None.

Lemma unchanged_trans a1 r1 a2 r2 a3 r3 :
  unchanged a1 r1 a2 r2 → unchanged a2 r2 a3 r3 → unchanged a1 r1 a3 r3.
Proof. unfold unchanged. intros [-> ->] [-> ->]. done. Qed.
Lemma unchanged_extended a1 r1 a2 r2 a3 r3 :
  unchanged a1 r1 a2 r2 → extended a2 r2 a3 r3 → extended a1 r1 a3 r3.
Proof. unfold unchanged, extended. by intros [-> ->]. Qed.
Lemma extended_unchanged a1 r1 a2 r2 a3 r3 :
  extended a1 r1 a2 r2 → unchanged a2 r2 a3 r3 → extended a1 r1 a3 r3.
Proof. unfold unchanged, extended. by intros ? [-> ->]. Qed.

Lemma withPenState_id r s : slotId (withPenState opt r s) = slotId s ∧ path (withPenState opt r s) = path s.
Proof. unfold withPenState. by repeat case_match. Qed.

Lemma reportActive_paths s acc r :
  path s = None →
  let '(x, r') := reportActive opt s arrivedAt r in
  (slotId s ≠ k → unchanged acc r (acc ++ [x]) r') ∧
  (slotId s = k → unchanged acc r (acc ++ [x]) r' ∨ extended acc r (acc ++ [x]) r').
Proof.
  intros Hp. destruct (withPenState_id r s) as [Hid Hpath]. rewrite Hp in Hpath.
  unfold reportActive. destruct (toolType (withPenState opt r s)) as [tool|].
  - unfold samplePen, unchanged, extended. cbn. rewrite Hid. split; intros Hk.
    + rewrite jget_set, decide_False by done. unfold shows. rewrite filter_app, filter_cons_False by (cbn; naive_solver).
      by rewrite filter_nil, app_nil_r.
    + right. rewrite jget_set, decide_True by done. subst k. set (p := pushPen _ _).
      exists (set_path (Some p) (withPenState opt r s)), p, (kernelAtMs r). split_and!; [|done..].
      unfold shows. rewrite filter_app, filter_cons_True by (cbn; naive_solver). by rewrite filter_nil.
  - assert (unchanged acc r (acc ++ [withPenState opt r s]) r) as Hu.
    { split; [|done]. unfold shows. rewrite filter_app, filter_cons_False; [by rewrite filter_nil, app_nil_r|].
      rewrite Hpath. by intros [_ [??]]. }
    split; [done|by left].
Qed.

Lemma ended_loop_paths replaced es r :
  Forall entry_ok es → NoDup es.*1 →
  let '(a, r') := foldl (endedStep opt replaced arrivedAt) ([], r) es in unchanged [] r a r' ∨ extended [] r a r'.
Proof.
  intros Hok Hnd.
  pose (U := λ s s' : list TouchSlot * Reconstructor, unchanged s.1 s.2 s'.1 s'.2).
  pose (V := λ s s' : list TouchSlot * Reconstructor, U s s' ∨ extended s.1 s.2 s'.1 s'.2).
  assert (V ([], r) (foldl (endedStep opt replaced arrivedAt) ([], r) es)) as H.
  { apply (loop_once _ fst k entry_ok U); unfold V, U; try done.
    - split; [done|]. intros ???. apply unchanged_trans.
    - intros s1 s2 s3 H1 [H2|H2]; [left; by eapply unchanged_trans|right; by eapply unchanged_extended].
    - intros s1 s2 s3 [H1|H1] H2; [left; by eapply unchanged_trans|right; by eapply extended_unchanged].
    - by left.
    - intros [a r0] [k' s] [Hid Hp] Hk. unfold endedStep. cbn in *. destruct (_ && _ && _); [|done].
      pose proof (reportActive_paths s a r0 Hp) as H. destruct (reportActive opt s arrivedAt r0). apply H. congruence.
    - intros [a r0] [k' s] [Hid Hp] Hk. unfold endedStep. cbn in *. destruct (_ && _ && _); [|by left].
      pose proof (reportActive_paths s a r0 Hp) as H. destruct (reportActive opt s arrivedAt r0). apply H. congruence. }
  destruct (foldl _ _ _) as [a r']. exact H.
Qed.

Lemma observePenSample_paths s r : penPaths (observePenSample opt s arrivedAt r) = penPaths r.
Proof.
  unfold observePenSample, observePenSlot.
  destruct (_ || _ || _); [by destruct (_ && _ && _)|].
  destruct (isMtPenHovering _ _); by destruct (_ && _ && _).
Qed.
Lemma takeFinalMove_paths s r :
  slotId s ≠ k → jget k (penPaths (takeFinalMove opt s arrivedAt r).2) = jget k (penPaths r).
Proof.
  intros Hk. unfold takeFinalMove. destruct (jget (slotId s) (lastEmitted r)) as [[x y]|]; [|done].
  destruct (_ && _); [done|]. set (r0 := with_lastEmitted _ r). pose proof (proj1 (withPenState_id r0 s)) as Hid.
  cbv zeta. destruct (toolType (withPenState opt r0 s)); [|done].
  destruct (jget (slotId s) (penPaths r0) ≫= last); [|done]. cbn. rewrite jget_set, decide_False; [done|]. by rewrite Hid.
Qed.

Lemma syn_loop_paths es r :
  Forall entry_ok es → NoDup es.*1 →
  let '(rep, r') := foldl (synStep opt arrivedAt) (mkReport [] [] [] [], r) es in
  k ∈ released rep ∨ unchanged [] r (active rep) r' ∨ extended [] r (active rep) r'.
Proof.
  intros Hok Hnd.
  pose (U := λ s s' : Report * Reconstructor,
    unchanged (active s.1) s.2 (active s'.1) s'.2 ∧ (k ∈ released s.1 → k ∈ released s'.1)).
  pose (V := λ s s' : Report * Reconstructor,
    k ∈ released s'.1 ∨ unchanged (active s.1) s.2 (active s'.1) s'.2 ∨ extended (active s.1) s.2 (active s'.1) s'.2).
  assert (V (mkReport [] [] [] [], r) (foldl (synStep opt arrivedAt) (mkReport [] [] [] [], r) es)) as H.
  { apply (loop_once _ fst k entry_ok U); unfold V, U; try done.
    - split; [done|]. intros ??? [??] [??]. split; [by eapply unchanged_trans|auto].
    - intros s1 s2 s3 [H1 _] [?|[H2|H2]]; [by left|right; left; by eapply unchanged_trans|].
      right; right. by eapply unchanged_extended.
    - intros s1 s2 s3 [H1|[H1|H1]] [H2 Hrel]; [left; auto|right; left; by eapply unchanged_trans|].
      right; right. by eapply extended_unchanged.
    - intros s1 s2 [H1 _]. by right; left.
    - intros [rep r0] [k' s] [Hid Hp] Hk. cbn in *. pose proof (observePenSample_paths s r0) as Hobs.
      unfold unchanged. rewrite <- Hobs.
      remember (observePenSample opt s arrivedAt r0) as r1 eqn:E1. clear E1 Hobs.
      destruct (_ && _).
      { pose proof (reportActive_paths s (active rep) r1 Hp) as H. destruct (reportActive opt s arrivedAt r1) as [x r2].
        split; [|done]. apply H. congruence. }
      destruct (_ || _); [|done]. pose proof (takeFinalMove_paths s r1 ltac:(congruence)) as H.
      destruct (takeFinalMove opt s arrivedAt r1). cbn in *. split; [done|]. rewrite elem_of_app. by left.
    - intros [rep r0] [k' s] [Hid Hp] Hk. cbn in *. pose proof (observePenSample_paths s r0) as Hobs.
      unfold unchanged, extended. rewrite <- Hobs.
      remember (observePenSample opt s arrivedAt r0) as r1 eqn:E1. clear E1 Hobs.
      destruct (_ && _).
      { pose proof (reportActive_paths s (active rep) r1 Hp) as H. destruct (reportActive opt s arrivedAt r1) as [x r2].
        right. apply H. congruence. }
      destruct (_ || _); [|by right; left]. left.
      destruct (takeFinalMove opt s arrivedAt r1). cbn. rewrite elem_of_app, list_elem_of_singleton. right. congruence. }
  destruct (foldl _ _ _) as [rep r']. exact H.
Qed.
End Loops.

(** ** Frames *)

Section Frames.
Context (opt : Options).
Definition entries_ok (r : Reconstructor) : Prop := Forall entry_ok (slots r) ∧ NoDup (slots r).*1.

(** A frame that does not end the contact of [k] shows what the loop did. *)
Lemma frame_path k h a f r r' :
  jget k (penPaths r) = stored h → k ∉ frame_releasedSlots f → activeSlots f = a →
  unchanged k [] r a r' ∨ extended (frame_arrivedAt f) k [] r a r' →
  jget k (penPaths r') = stored (add_output k h (Frame f)).
Proof.
  intros Hh Hk Ha Hor. cbn. rewrite bool_decide_eq_false_2 by done. rewrite Ha. destruct Hor as [[-> ->]|H]; [done|].
  destruct H as (x & p & t & Hs & Hp & -> & Hpush). rewrite Hs. cbn. rewrite Hp. cbn.
  rewrite Hpush, pushPen_last, stored_snoc. by rewrite Hh, stored_default.
Qed.
Lemma frame_shows a f r r' :
  activeSlots f = a →
  (∀ k, k ∉ frame_releasedSlots f → unchanged k [] r a r' ∨ extended (frame_arrivedAt f) k [] r a r') →
  shows_stored f r'.
Proof.
  intros Ha Hor x p Hx Hp Hk. rewrite Ha in Hx.
  assert (x ∈ shows (slotId x) a) as Hin by (apply list_elem_of_filter; by rewrite Hp).
  destruct (Hor _ Hk) as [[Hs _]|(y & q & t & Hs & Hq & Hg & Hpush)]; rewrite Hs in Hin; [by apply elem_of_nil in Hin|].
  apply list_elem_of_singleton in Hin as ->. simplify_eq. split; [done|]. exists t. by rewrite pushPen_last.
Qed.
Lemma frame_ended k h f :
  k ∈ frame_releasedSlots f → stored (add_output k h (Frame f)) = None.
Proof. intros. cbn. by rewrite bool_decide_eq_true_2. Qed.

Lemma jget_foldl_jdel {V} k l (m : JsMap num V) :
  jget k (foldl (λ m id, jdel id m) m l) = if bool_decide (k ∈ l) then None else jget k m.
Proof.
  revert m. induction l as [|x l IH]; intros m; [done|]. cbn. rewrite IH, jget_del.
  destruct (decide (x = k)) as [->|Hne].
  - rewrite (bool_decide_eq_true_2 (k ∈ k :: l)) by by left. by case_bool_decide.
  - rewrite (bool_decide_ext (k ∈ x :: l) (k ∈ l)); [done|]. rewrite elem_of_cons. naive_solver.
Qed.

Lemma reportFrame_paths at_ r f r' :
  entries_ok r → reportFrame opt at_ r = (f, r') → paths_step r (Some (Frame f)) r'.
Proof.
  intros [Hok Hnd] E. unfold reportFrame in E.
  pose proof (λ k, syn_loop_paths opt at_ k (slots r) r Hok Hnd) as Hloop.
  destruct (foldl (synStep _ _) _ _) as [rep r1]. injection E as <- <-.
  assert (∀ k, k ∉ released rep → unchanged k [] r (active rep) r1 ∨ extended at_ k [] r (active rep) r1) as Hout
    by (intros k Hk; by destruct (Hloop k)).
  set (r2 := with_touchingSlots _ _).
  assert (∀ k, jget k (penPaths r2) = if bool_decide (k ∈ released rep) then None else jget k (penPaths r1)) as Hget
    by (intros; apply jget_foldl_jdel).
  assert (∀ k, k ∉ released rep → unchanged k [] r (active rep) r2 ∨ extended at_ k [] r (active rep) r2) as Hout2.
  { intros k Hk. unfold unchanged, extended. rewrite Hget, bool_decide_eq_false_2 by done. by apply Hout. }
  split; [|by apply (frame_shows (active rep) _ r)]. intros k h Hh. destruct (decide (k ∈ released rep)) as [Hk|Hk].
  - by rewrite Hget, bool_decide_eq_true_2, frame_ended.
  - apply (frame_path k h (active rep) _ r); auto.
Qed.

Lemma endedByReplacement_paths s at_ r f r' :
  entries_ok r → endedByReplacement opt s at_ r = (f, r') → paths_step r (Some (Frame f)) r'.
Proof.
  intros [Hok Hnd] E. unfold endedByReplacement in E.
  pose proof (λ k, ended_loop_paths opt at_ k s (slots r) r Hok Hnd) as Hloop.
  destruct (foldl (endedStep _ _ _) _ _) as [a r1]. injection E as <- <-.
  set (r2 := with_penPaths _ _).
  assert (∀ k, jget k (penPaths r2) = if decide (slotId s = k) then None else jget k (penPaths r1)) as Hget
    by (intros; apply jget_del).
  assert (∀ k, k ∉ [slotId s] → unchanged k [] r a r2 ∨ extended at_ k [] r a r2) as Hout.
  { intros k Hk. rewrite list_elem_of_singleton in Hk. unfold unchanged, extended.
    rewrite Hget, decide_False by congruence. apply Hloop. }
  split; [|by apply (frame_shows a _ r)]. intros k h Hh. destruct (decide (slotId s = k)) as [Hk|Hk].
  - rewrite Hget, decide_True by done. rewrite frame_ended; [done|]. subst k. by left.
  - assert (k ∉ [slotId s]) by (rewrite list_elem_of_singleton; congruence).
    apply (frame_path k h a _ r); auto.
Qed.

End Frames.
