(* ===== verification/TouchContacts.v ===== *)
(** * Touch contacts: every begun contact ends

    What the frames of [TouchFrames] say about contacts: a slot reported active
    stays active or is reported released, never both at once, and a slot that was
    released is not mentioned again before a line begins it. *)
From S2P Require Import Prelude JsString JsMap JsArray GetEventLine PenHover TouchFrames TouchPaths.
Local Open Scope string_scope.

(** ** Contacts of a state *)

Definition tracked (r : Reconstructor) (k : num) : bool :=
  match jget k (slots r) with Some s => num_ge0 (trackingId s) | None => false end.

(** Slots are stored under their own id and without a path. *)
Record slots_ok (r : Reconstructor) : Prop := {
  slots_wf : jwf (slots r);
  slots_id : ∀ k s, jget k (slots r) = Some s → slotId s = k;
  slots_path : ∀ k s, jget k (slots r) = Some s → path s = None;
}.

(** A slot reported in contact is in the map, and still tracked or about to be
    reported released. *)
Definition accounted (r : Reconstructor) : Prop :=
  ∀ k, k ∈ touchingSlots r → k ∈ jkeys (slots r) ∧ (tracked r k = true ∨ k ∈ releasedSlots r).

(** A slot without a contact: not tracked and no release to report. *)
Definition idle (k : num) (r : Reconstructor) : Prop := tracked r k = false ∧ k ∉ releasedSlots r.

(** ** Steps that keep contacts

    [keeps E r r']: from [r] to [r'] no contact is lost outside [E], and none
    begins outside [B]. *)
Record keeps (B : num → Prop) (r r' : Reconstructor) : Prop := {
  keeps_ok : slots_ok r → slots_ok r';
  keeps_keys : ∀ k, k ∈ jkeys (slots r) → k ∈ jkeys (slots r');
  keeps_touching : touchingSlots r' = touchingSlots r;
  keeps_released : ∀ k, k ∈ releasedSlots r → k ∈ releasedSlots r';
  keeps_tracked : ∀ k, tracked r k = true → tracked r' k = true ∨ k ∈ releasedSlots r';
  keeps_idle : slots_ok r → ∀ k, ¬ B k → idle k r → idle k r';
  keeps_paths : penPaths r' = penPaths r;
}.
Abbreviation keeps0 := (keeps (λ _, False)).

Lemma keeps_refl B r : keeps B r r.
Proof. split; eauto. Qed.
Lemma keeps_trans B r1 r2 r3 : keeps B r1 r2 → keeps B r2 r3 → keeps B r1 r3.
Proof.
  intros H1 H2. split.
  - intros. by apply (keeps_ok _ _ _ H2), (keeps_ok _ _ _ H1).
  - intros. by apply (keeps_keys _ _ _ H2), (keeps_keys _ _ _ H1).
  - by rewrite (keeps_touching _ _ _ H2), (keeps_touching _ _ _ H1).
  - intros. by apply (keeps_released _ _ _ H2), (keeps_released _ _ _ H1).
  - intros k Hk. destruct (keeps_tracked _ _ _ H1 k Hk) as [Hk'|Hk'].
    + by apply (keeps_tracked _ _ _ H2).
    + right. by apply (keeps_released _ _ _ H2).
  - intros Hok k HB Hk. apply (keeps_idle _ _ _ H2); [by apply (keeps_ok _ _ _ H1)|done|].
    by apply (keeps_idle _ _ _ H1).
  - by rewrite (keeps_paths _ _ _ H2), (keeps_paths _ _ _ H1).
Qed.
#[export] Instance keeps_preorder B : PreOrder (keeps B).
Proof. split; [intros ?; apply keeps_refl|intros ???; apply keeps_trans]. Qed.
Lemma keeps_weaken B r r' : keeps0 r r' → keeps B r r'.
Proof. intros []. split; auto. Qed.

Lemma keeps_accounted B r r' : keeps B r r' → accounted r → accounted r'.
Proof.
  intros H Ha k. rewrite (keeps_touching _ _ _ H). intros Hk. destruct (Ha k Hk) as [Hin [Ht|Hr]].
  - split; [by apply (keeps_keys _ _ _ H)|]. by apply (keeps_tracked _ _ _ H).
  - split; [by apply (keeps_keys _ _ _ H)|]. right. by apply (keeps_released _ _ _ H).
Qed.

(** Steps that change neither the slots nor the two sets. *)
Definition same_contacts (r r' : Reconstructor) : Prop :=
  slots r' = slots r ∧ touchingSlots r' = touchingSlots r ∧ releasedSlots r' = releasedSlots r.
#[export] Instance same_contacts_preorder : PreOrder same_contacts.
Proof. split; [done|]. intros ??? (? & ? & ?) (? & ? & ?). unfold same_contacts. split_and!; congruence. Qed.

Lemma same_contacts_tracked r r' k : same_contacts r r' → tracked r' k = tracked r k.
Proof. intros (Hs & _). unfold tracked. by rewrite Hs. Qed.
Lemma same_contacts_ok r r' : same_contacts r r' → slots_ok r → slots_ok r'.
Proof. intros (Hs & _) []. split; by rewrite Hs. Qed.
Lemma same_contacts_keeps B r r' : same_contacts r r' → penPaths r' = penPaths r → keeps B r r'.
Proof.
  intros H Hp. destruct (H) as (Hs & Ht & Hr). split.
  - by apply same_contacts_ok.
  - by rewrite Hs.
  - done.
  - by rewrite Hr.
  - intros k Hk. left. by rewrite (same_contacts_tracked r r').
  - intros _ k _ []. split; [by rewrite (same_contacts_tracked r r')|by rewrite Hr].
  - done.
Qed.
#[export] Hint Extern 1 (same_contacts _ _) => (split_and!; reflexivity) : automobile.

(** ** Slot updates *)

Lemma tracked_set r k s k' :
  tracked (with_slots (jset k s) r) k' = if decide (k = k') then num_ge0 (trackingId s) else tracked r k'.
Proof. unfold tracked. cbn. rewrite jget_set. by case_decide. Qed.

(** Storing a slot under its id keeps the contacts when it is tracked if the old
    one was or is to be released; it begins one only if it is tracked. *)
Lemma keeps_set (B : num → Prop) r k s :
  slotId s = k → path s = None → (tracked r k = true → num_ge0 (trackingId s) = true ∨ k ∈ releasedSlots r) →
  (num_ge0 (trackingId s) = true → B k ∨ tracked r k = true) →
  keeps B r (with_slots (jset k s) r).
Proof.
  intros Hid Hpath Hkeep Hbegin. split; try done.
  - intros [Hwf Hids Hps]. split; [by apply jset_wf|..]; cbn; intros k' s'; rewrite jget_set;
      (case_decide; [naive_solver|]); [apply Hids|apply Hps].
  - intros k'. cbn [with_slots slots]. rewrite jkeys_set. destruct (jhas k (slots r)); [done|].
    rewrite elem_of_app. by left.
  - intros k' Hk'. rewrite tracked_set. case_decide; [subst|by left]. by apply Hkeep.
  - intros _ k' HB [Ht Hr]. split; [|done]. rewrite tracked_set. case_decide; [subst k'|done].
    destruct (num_ge0 (trackingId s)); [|done]. destruct (Hbegin eq_refl); [done|congruence].
Qed.

Lemma getOrCreateSlot_spec r :
  slots_ok r →
  ∃ s, jget (currentSlot r) (slots (getOrCreateSlot r)) = Some s ∧ slotId s = currentSlot r ∧ path s = None ∧
       num_ge0 (trackingId s) = tracked r (currentSlot r).
Proof.
  intros [Hwf Hids Hps]. unfold getOrCreateSlot, tracked. rewrite jhas_get. case_bool_decide as Hb.
  - destruct Hb as [s Hs]. exists s. split_and!; [done|by apply Hids|by apply (Hps _ _ Hs)|by rewrite Hs].
  - cbn. rewrite jget_set, decide_True by done. eexists. split_and!; [done..|].
    destruct (jget _ _); [by destruct Hb|done].
Qed.
Lemma getOrCreateSlot_keeps B r : keeps B r (getOrCreateSlot r).
Proof.
  unfold getOrCreateSlot. destruct (jhas _ _) eqn:E; [apply keeps_refl|].
  assert (tracked r (currentSlot r) = false) as Ht.
  { unfold tracked. rewrite jhas_get in E. apply bool_decide_eq_false in E.
    destruct (jget _ _); [by destruct E|done]. }
  apply keeps_set; [done|done|by rewrite Ht|done].
Qed.
Lemma getOrCreateSlot_current r : currentSlot (getOrCreateSlot r) = currentSlot r.
Proof. unfold getOrCreateSlot. by destruct (jhas _ _). Qed.

(** A property other than the tracking id assigned to the current slot. *)
Lemma update_slot_keeps B f r :
  slots_ok r → (∀ s, slotId (f s) = slotId s ∧ path (f s) = path s) →
  (∀ s, num_ge0 (trackingId s) = true → num_ge0 (trackingId (f s)) = true) →
  (∀ s, num_ge0 (trackingId (f s)) = true → num_ge0 (trackingId s) = true ∨ B (currentSlot r)) →
  keeps B r (update_slot f r).
Proof.
  intros Hok Hid Ht Hb. unfold update_slot. destruct (getOrCreateSlot_spec r Hok) as (s & Hs & Hsid & Hpath & Htr).
  rewrite getOrCreateSlot_current, Hs. etrans; [apply (getOrCreateSlot_keeps B r)|].
  assert (tracked (getOrCreateSlot r) (currentSlot r) = num_ge0 (trackingId s)) as Htr'
    by (unfold tracked; by rewrite Hs).
  destruct (Hid s) as [Hfid Hfpath].
  apply keeps_set; [by rewrite Hfid|by rewrite Hfpath|rewrite Htr'; auto|]. intros Hf. destruct (Hb s Hf); [right|by left].
  by rewrite Htr'.
Qed.

Lemma release_keeps B r k s :
  slots_ok r → jget k (slots r) = Some s → num_ge0 (trackingId s) = true →
  keeps B r (with_slots (jset k (set_trackingId (Some (-1)%Z) s)) (with_releasedSlots (sadd (slotId s)) r)).
Proof.
  intros Hok Hs Ht. pose proof (slots_id _ Hok _ _ Hs) as Hid.
  assert (∀ k', tracked (with_slots (jset k (set_trackingId (Some (-1)%Z) s)) (with_releasedSlots (sadd (slotId s)) r)) k' =
                if decide (k = k') then false else tracked r k') as Htr by (intros; by rewrite tracked_set).
  split.
  - intros [Hwf Hids Hps]. split; [by apply jset_wf|..]; cbn; intros k' s'; rewrite jget_set;
      (case_decide; [naive_solver|]); [apply Hids|apply Hps].
  - intros k' Hk'. cbn [with_slots slots with_releasedSlots]. rewrite jkeys_set.
    destruct (jhas k (slots r)); [done|]. rewrite elem_of_app. by left.
  - done.
  - intros k' Hk'. cbn. rewrite elem_of_sadd. by right.
  - intros k' Hk'. rewrite Htr. cbn. rewrite elem_of_sadd. case_decide; [subst; by right; left|by left].
  - intros _ k' _ [Hf Hr]. unfold idle. rewrite Htr. cbn. rewrite elem_of_sadd.
    assert (k ≠ k') as Hne by (intros <-; unfold tracked in Hf; rewrite Hs in Hf; congruence).
    rewrite decide_False by done. split; [done|]. intros [Heq|?]; [|done]. apply Hne. by rewrite Heq.
  - done.
Qed.

(** ** The operations *)

Section Operations.
Context (opt : Options).

Lemma emitHover_same e r : same_contacts r (emitHover opt e r).
Proof. destruct e as [e|]; cbn; [|done]. by destruct (hears opt). Qed.
Lemma hover_reports_same f r : same_contacts r (hover_reports opt f r).
Proof. unfold hover_reports. destruct (f (hover r)) as [e t]. etrans; [|apply emitHover_same]. done. Qed.
Lemma hover_reports_paths f r : penPaths (hover_reports opt f r) = penPaths r.
Proof. unfold hover_reports. destruct (f (hover r)) as [[e|] t]; cbn; [|done]. by destruct (hears opt). Qed.
Lemma hover_reports_keeps B f r : keeps B r (hover_reports opt f r).
Proof. apply same_contacts_keeps; [apply hover_reports_same|apply hover_reports_paths]. Qed.
Lemma observePenSample_same s at_ r : same_contacts r (observePenSample opt s at_ r).
Proof.
  unfold observePenSample, observePenSlot.
  destruct (_ || _ || _); [by destruct (_ && _ && _)|].
  destruct (isMtPenHovering _ _); by destruct (_ && _ && _).
Qed.
Lemma reportActive_same s at_ r :
  same_contacts r (reportActive opt s at_ r).2 ∧ slotId (reportActive opt s at_ r).1 = slotId s.
Proof.
  assert (slotId (withPenState opt r s) = slotId s) as Hid
    by (unfold withPenState; repeat case_match; done).
  unfold reportActive. by destruct (toolType (withPenState opt r s)).
Qed.
Lemma takeFinalMove_same s at_ r : same_contacts r (takeFinalMove opt s at_ r).2.
Proof.
  unfold takeFinalMove. destruct (jget _ _) as [[x y]|]; [|done]. destruct (_ && _); [done|].
  cbn. destruct (toolType _); [|done]. by destruct (_ ≫= last).
Qed.

(** Whether a report lists a slot as active, and the ids it lists. *)
Definition reports (s : TouchSlot) : bool := num_ge0 (trackingId s) && negb (isMtPenHovering opt s).
Definition ids (l : list TouchSlot) : list num := slotId <$> l.

Lemma releaseCurrentSlot_keeps B at_ r : slots_ok r → keeps B r (releaseCurrentSlot opt at_ r).
Proof.
  intros Hok. unfold releaseCurrentSlot. destruct (jget _ _) as [s|] eqn:Hs; [|done].
  destruct (num_ge0 (trackingId s)) eqn:Ht.
  - etrans; [by apply (release_keeps B r (currentSlot r) s)|]. apply hover_reports_keeps.
  - apply hover_reports_keeps.
Qed.

Lemma handleSingleTouchContact_keeps (B : num → Prop) pressed r :
  slots_ok r → (pressed = true → B (Some 0%Z)) → keeps B r (handleSingleTouchContact pressed r).
Proof.
  intros Hok HB. unfold handleSingleTouchContact.
  assert (keeps B r (with_currentSlot (Some 0%Z) r)) as Hc by (by apply same_contacts_keeps).
  assert (slots_ok (with_currentSlot (Some 0%Z) r)) as Hok' by (by apply (keeps_ok _ _ _ Hc)).
  etrans; [exact Hc|]. destruct pressed.
  - apply update_slot_keeps; [done|done|done|]. intros. right. by apply HB.
  - destruct (jget _ _) as [s|] eqn:Hs; [|done]. destruct (num_ge0 (trackingId s)) eqn:Ht; [|done].
    pose proof (release_keeps B _ _ _ Hok' Hs Ht) as H. by rewrite (slots_id _ Hok' _ _ Hs) in H.
Qed.

(** Assigning anything but the tracking id. *)
Lemma update_slot_keeps0 B f r :
  slots_ok r → (∀ s, slotId (f s) = slotId s ∧ path (f s) = path s ∧ trackingId (f s) = trackingId s) →
  keeps B r (update_slot f r).
Proof.
  intros Hok Hf. apply update_slot_keeps; [done|..]; intros s; destruct (Hf s) as (Hid & Hp & Ht); rewrite ?Hid, ?Ht; auto.
Qed.
Lemma observeAxis_keeps B axis v r : slots_ok r → keeps B r (observeAxis axis v r).
Proof. intros. by apply update_slot_keeps0. Qed.

Lemma handlePenAbsEvent_keeps B code v r : slots_ok r → keeps B r (handlePenAbsEvent opt code v r).
Proof.
  intros Hok. unfold handlePenAbsEvent, handleSingleTouchAxis.
  assert (slots_ok (with_currentSlot (Some 0%Z) r)) as Hok' by (destruct Hok; by split).
  assert (keeps B r (with_currentSlot (Some 0%Z) r)) as Hc by (by apply same_contacts_keeps).
  repeat case_decide; try destruct (singleTouch opt); repeat case_decide;
    first [done | by apply update_slot_keeps0 | etrans; [exact Hc|]; first [by apply observeAxis_keeps | by apply update_slot_keeps0]].
Qed.

Lemma handleKeyEvent_keeps (B : num → Prop) code pressed at_ r :
  slots_ok r → (singleTouch opt = true → code = "BTN_TOUCH" → pressed = true → B (Some 0%Z)) →
  keeps B r (handleKeyEvent opt code pressed at_ r).
Proof.
  intros Hok HB. assert (∀ tool, keeps B r (setNodeTool opt tool pressed at_ r)) as Htool.
  { intros tool. unfold setNodeTool. destruct pressed.
    - by destruct (singleTouch opt); apply same_contacts_keeps.
    - destruct (_ && _); [done|]. destruct (singleTouch opt); [|by apply same_contacts_keeps].
      assert (keeps B r (with_nodeTool None r)) as Hc by (by apply same_contacts_keeps).
      etrans; [exact Hc|]. etrans; [|apply hover_reports_keeps].
      apply handleSingleTouchContact_keeps; [by apply (keeps_ok _ _ _ Hc)|done]. }
  unfold handleKeyEvent. repeat case_decide; try done; try (by apply same_contacts_keeps).
  destruct (singleTouch opt); [|done].
  etrans; [apply (handleSingleTouchContact_keeps B pressed); auto|].
  by destruct pressed; apply same_contacts_keeps.
Qed.

(** ** Frames *)

(** The ids of the slots of a map that satisfy a test, in order. *)
Definition listed (p : TouchSlot → bool) (m : JsMap num TouchSlot) : list num := ids (filter p m.*2).

Lemma listed_cons p k s m : (listed p ((k, s) :: m) = (if p s then [slotId s] else []) ++ listed p m)%list.
Proof.
  unfold listed. rewrite fmap_cons, filter_cons. cbn [snd].
  destruct (p s); [by rewrite decide_True|by rewrite decide_False by (by intros [])].
Qed.
Lemma elem_of_listed p r k :
  slots_ok r → k ∈ listed p (slots r) ↔ ∃ s, jget k (slots r) = Some s ∧ p s = true.
Proof.
  intros [Hwf Hids _]. unfold listed, ids. rewrite list_elem_of_fmap. split.
  - intros (s & -> & [Hp Hin]%list_elem_of_filter). apply list_elem_of_fmap in Hin as ([k s'] & -> & Hin).
    apply (jget_wf_in _ _ _ Hwf) in Hin. cbn in *. exists s'. rewrite (Hids _ _ Hin). split; [done|].
    by apply Is_true_true.
  - intros (s & Hs & Hp). exists s. split; [by rewrite (Hids _ _ Hs)|]. apply list_elem_of_filter.
    split; [by apply Is_true_true|]. apply list_elem_of_fmap. exists (k, s). split; [done|by apply jget_in].
Qed.

Definition stays (replaced : TouchSlot) (s : TouchSlot) : bool :=
  negb (num_eqb (slotId s) (slotId replaced)) && reports s.
Definition ends (r : Reconstructor) (s : TouchSlot) : bool :=
  negb (reports s) &&
  (shas (slotId s) (releasedSlots r) || num_ge0 (trackingId s) && shas (slotId s) (touchingSlots r)).

Lemma ended_loop replaced at_ es acc r :
  ∃ l r', foldl (endedStep opt replaced at_) (acc, r) es = ((acc ++ l)%list, r') ∧ same_contacts r r' ∧
    ids l = listed (stays replaced) es.
Proof.
  revert acc r. induction es as [|[k s] es IH]; intros acc r; cbn [foldl].
  { exists [], r. by rewrite app_nil_r. }
  unfold endedStep at 2. rewrite listed_cons. cbn [snd].
  rewrite <- andb_assoc. fold (reports s). fold (stays replaced s).
  destruct (stays replaced s); [|apply IH].
  destruct (reportActive_same s at_ r) as [Hsame Hid]. destruct (reportActive opt s at_ r) as [smp r1].
  destruct (IH (acc ++ [smp])%list r1) as (l & r' & -> & H & Hl). cbn in Hsame, Hid.
  exists (smp :: l), r'. split_and!; [by rewrite <- app_assoc|by etrans|].
  unfold ids in *. rewrite fmap_cons, Hid. cbn. by f_equal.
Qed.

Lemma syn_loop at_ es rep r :
  ∃ rep' r', foldl (synStep opt at_) (rep, r) es = (rep', r') ∧ same_contacts r r' ∧
    ids (active rep') = (ids (active rep) ++ listed reports es)%list ∧
    released rep' = (released rep ++ listed (ends r) es)%list ∧
    ∀ k, k ∈ touching rep' ↔ k ∈ touching rep ∨ k ∈ listed reports es.
Proof.
  revert rep r. induction es as [|[k s] es IH]; intros rep r; cbn [foldl].
  { exists rep, r. unfold listed, ids. cbn. rewrite !app_nil_r. split_and!; try done. intros k. rewrite elem_of_nil. tauto. }
  assert (∀ r1, same_contacts r r1 → listed (ends r1) es = listed (ends r) es) as Hends.
  { intros r1 (_ & Ht & Hr). unfold listed. f_equal. apply filter_agree. intros x _. unfold ends. by rewrite Ht, Hr. }
  unfold synStep at 2. rewrite !listed_cons. cbn [snd]. fold (reports s).
  pose proof (observePenSample_same s at_ r) as Hobs. remember (observePenSample opt s at_ r) as r0 eqn:E0. clear E0.
  unfold ends at 1. destruct (reports s); cbn [negb andb].
  - destruct (reportActive_same s at_ r0) as [Hsame Hid]. destruct (reportActive opt s at_ r0) as [smp r1].
    cbn in Hsame, Hid.
    assert (same_contacts r (with_lastEmitted (jset (slotId s) (slot_x s, slot_y s)) r1)) as H1
      by (etrans; [exact Hobs|etrans; [exact Hsame|done]]).
    destruct (IH (mkReport (sadd (slotId s) (touching rep)) (active rep ++ [smp]) (released rep) (finals rep))
      (with_lastEmitted (jset (slotId s) (slot_x s, slot_y s)) r1)) as (rep' & r' & -> & H & Ha & Hr & Ht).
    exists rep', r'. split_and!; [done|by etrans| | |].
    + rewrite Ha. cbn. unfold ids. rewrite fmap_app, <- app_assoc. cbn. by rewrite Hid.
    + rewrite Hr, (Hends _ H1). done.
    + intros k'. rewrite Ht. cbn. rewrite elem_of_sadd, elem_of_cons. tauto.
  - destruct Hobs as (Hs0 & Ht0 & Hr0). rewrite Ht0, Hr0.
    assert (same_contacts r r0) as Hobs by done.
    destruct (shas _ _ || _ && _).
    + pose proof (takeFinalMove_same s at_ r0) as Hsame. destruct (takeFinalMove opt s at_ r0) as [fin r1].
      cbn in Hsame. assert (same_contacts r r1) as H1 by (by etrans).
      destruct (IH (mkReport (touching rep) (active rep) (released rep ++ [slotId s]) (finals rep ++ fin)) r1)
        as (rep' & r' & -> & H & Ha & Hr & Ht).
      exists rep', r'. split_and!; [done|by etrans|done| |done].
      rewrite Hr, (Hends _ H1). cbn. by rewrite <- app_assoc.
    + destruct (IH rep r0) as (rep' & r' & -> & H & Ha & Hr & Ht).
      exists rep', r'. split_and!; [done|by etrans|done| |done]. by rewrite Hr, (Hends _ Hobs).
Qed.

(** A report lists the tracked slots that touch and the contacts that end. *)
Lemma reportFrame_spec at_ r f r' :
  reportFrame opt at_ r = (f, r') →
  slots r' = slots r ∧ releasedSlots r' = [] ∧
  ids (activeSlots f) = listed reports (slots r) ∧ frame_releasedSlots f = listed (ends r) (slots r) ∧
  ∀ k, k ∈ touchingSlots r' ↔ k ∈ ids (activeSlots f).
Proof.
  unfold reportFrame. destruct (syn_loop at_ (slots r) (mkReport [] [] [] []) r) as (rep & r1 & -> & H & Ha & Hr & Ht).
  intros [= <- <-]. destruct H as (Hs & _ & _). unfold ids in *. cbn in *. split_and!; try done.
  intros k. rewrite Ht, Ha, elem_of_nil. tauto.
Qed.

(** A replaced tracking id: the frame ends the contact and lists the others. *)
Lemma endedByReplacement_spec s at_ r f r' :
  endedByReplacement opt s at_ r = (f, r') →
  slots r' = slots r ∧ releasedSlots r' = sdel (slotId s) (releasedSlots r) ∧
  touchingSlots r' = sdel (slotId s) (touchingSlots r) ∧
  ids (activeSlots f) = listed (stays s) (slots r) ∧ frame_releasedSlots f = [slotId s].
Proof.
  unfold endedByReplacement. destruct (ended_loop s at_ (slots r) [] r) as (l & r1 & -> & H & Hl).
  intros [= <- <-]. destruct H as (Hs & Ht & Hr). cbn. split_and!; try done; congruence.
Qed.

(** ** Lines *)

Definition is_report (m : LineMatch) : bool :=
  bool_decide (evType m = "EV_SYN") && bool_decide (evCode m = "SYN_REPORT") &&
  bool_decide (parseInt16 (evValue m) = Some 0%Z).

(** [getevent] prints a tracking id as eight hexadecimal digits. *)
Definition line_ok (m : LineMatch) : Prop :=
  evCode m = "ABS_MT_TRACKING_ID" → num_ge0 (parseInt16 (evValue m)) = true.

(** The line begins a contact in slot [k]. *)
Definition begins (m : LineMatch) (r : Reconstructor) (k : num) : Prop :=
  (evType m = "EV_ABS" ∧ evCode m = "ABS_MT_TRACKING_ID" ∧ evValue m ≠ "ffffffff" ∧ k = currentSlot r) ∨
  (evType m = "EV_KEY" ∧ evCode m = "BTN_TOUCH" ∧ singleTouch opt = true ∧
   (evValue m = "DOWN" ∨ evValue m = "REPEAT") ∧ k = Some 0%Z).

Definition ended (o : option Output) : list num :=
  match o with Some (Frame f) => frame_releasedSlots f | _ => [] end.
Definition shown (o : option Output) : list num :=
  match o with Some (Frame f) => ids (activeSlots f) | _ => [] end.

(** A line that is no report: contacts in touch stay, or the output ends them;
    idle slots that the line does not begin stay idle and are not mentioned. *)
Record contact_step (B : num → Prop) (r : Reconstructor) (o : option Output) (r' : Reconstructor) : Prop := {
  step_ok : slots_ok r';
  step_touching : ∀ k, k ∈ touchingSlots r → k ∈ touchingSlots r' ∨ k ∈ ended o;
  step_accounted : accounted r → accounted r';
  step_paths : paths_step r o r';
  step_idle : ∀ k, ¬ B k → idle k r → idle k r' ∧ (k ∉ shown o) ∧ (k ∉ ended o);
}.

Definition no_frame (o : option Output) : Prop := match o with Some (Frame _) => False | _ => True end.

Lemma keeps_step B r o r' :
  slots_ok r → keeps B r r' → no_frame o → contact_step B r o r'.
Proof.
  intros Hok H Ho. split.
  - by apply (keeps_ok _ _ _ H).
  - intros k Hk. left. by rewrite (keeps_touching _ _ _ H).
  - by apply (keeps_accounted B).
  - split; [|by destruct o as [[]|]]. intros k h Hh. rewrite (keeps_paths _ _ _ H). by destruct o as [[]|].
  - intros k HB Hk. split; [by apply (keeps_idle _ _ _ H)|].
    destruct o as [[]|]; [done|..]; split; by apply not_elem_of_nil.
Qed.

Lemma keeps_then_step B r1 r2 o r3 :
  slots_ok r1 → keeps B r1 r2 → contact_step B r2 o r3 → contact_step B r1 o r3.
Proof.
  intros Hok H1 []. split; [done|..].
  - intros k. rewrite <- (keeps_touching _ _ _ H1). auto.
  - intros. by apply step_accounted0, (keeps_accounted _ _ _ H1).
  - unfold paths_step. by rewrite <- (keeps_paths _ _ _ H1).
  - intros k HB Hk. apply step_idle0; [done|]. by apply (keeps_idle _ _ _ H1).
Qed.
Lemma step_then_keeps B r1 o r2 r3 :
  contact_step B r1 o r2 → keeps B r2 r3 → contact_step B r1 o r3.
Proof.
  intros [] H2. split.
  - by apply (keeps_ok _ _ _ H2).
  - intros k. rewrite (keeps_touching _ _ _ H2). auto.
  - intros. apply (keeps_accounted _ _ _ H2). auto.
  - unfold paths_step, shows_stored. by rewrite (keeps_paths _ _ _ H2).
  - intros k HB Hk. destruct (step_idle0 k HB Hk) as (? & ? & ?). split_and!; [|done..].
    by apply (keeps_idle _ _ _ H2).
Qed.

(** The entries of the map, for the lemmas on paths. *)
Lemma slots_ok_entries r : slots_ok r → entries_ok r.
Proof.
  intros [Hwf Hids Hps]. split; [|exact Hwf]. apply Forall_forall. intros [k s] Hin.
  apply (jget_wf_in _ _ _ Hwf) in Hin. split; cbn; [by apply Hids|by apply (Hps k)].
Qed.

Lemma replaced_step r k s at_ f r' :
  slots_ok r → jget k (slots r) = Some s → num_ge0 (trackingId s) = true →
  endedByReplacement opt s at_ r = (f, r') → contact_step (λ k', k' = k) r (Some (Frame f)) r'.
Proof.
  intros Hok Hs Ht H. pose proof (slots_id _ Hok _ _ Hs) as Hid.
  destruct (endedByReplacement_spec _ _ _ _ _ H) as (Hslots & Hrel & Htouch & Hact & Hended).
  rewrite Hid in *. assert (∀ k', tracked r' k' = tracked r k') as Htr by (intros; unfold tracked; by rewrite Hslots).
  split.
  - destruct Hok. split; by rewrite Hslots.
  - intros k' Hk'. rewrite Htouch. cbn. rewrite Hended, elem_of_sdel, list_elem_of_singleton.
    destruct (decide (k' = k)); [by right|by left].
  - intros Hacc k'. rewrite Htouch, Hrel, Hslots, Htr, !elem_of_sdel. intros [Hne Hk'].
    destruct (Hacc k' Hk') as [? [?|?]]; auto.
  - by apply (endedByReplacement_paths opt s at_); [apply slots_ok_entries|].
  - intros k' Hne [Hf Hr]. unfold idle. rewrite Htr, Hrel, elem_of_sdel. cbn.
    rewrite Hended, Hact, list_elem_of_singleton. split_and!; [done|tauto| |done].
    rewrite elem_of_listed by done. intros (s' & Hs' & Hst). unfold tracked in Hf. rewrite Hs' in Hf.
    unfold stays, reports in Hst. reflect_bools. congruence.
Qed.

Lemma hover_reports_current f r : currentSlot (hover_reports opt f r) = currentSlot r.
Proof. unfold hover_reports. destruct (f (hover r)) as [[e|] t]; cbn; [|done]. by destruct (hears opt). Qed.
Lemma endedByReplacement_current s at_ r f r' :
  endedByReplacement opt s at_ r = (f, r') → currentSlot r' = currentSlot r.
Proof.
  intros E. unfold endedByReplacement in E.
  assert (∀ es acc r, currentSlot (foldl (endedStep opt s at_) (acc, r) es).2 = currentSlot r) as Hl.
  { induction es as [|[k x] es IH]; intros acc r2; [done|]. cbn [foldl]. unfold endedStep at 2. cbn [snd].
    destruct (_ && _ && _); [|apply IH].
    assert (currentSlot (reportActive opt x at_ r2).2 = currentSlot r2) as Hra
      by (unfold reportActive; by destruct (toolType _)).
    destruct (reportActive opt x at_ r2). by rewrite IH. }
  specialize (Hl (slots r) [] r). destruct (foldl _ _ _) as [a r2]. by injection E as <- <-.
Qed.

Lemma handleTrackingId_step v at_ r f r' :
  slots_ok r → num_ge0 (parseInt16 v) = true →
  handleTrackingId opt v (parseInt16 v) at_ r = (f, r') →
  contact_step (λ k : num, (v ≠ "ffffffff") ∧ k = currentSlot r) r (Frame <$> f) r'.
Proof.
  intros Hok Hv. unfold handleTrackingId. case_decide as Hf.
  { intros [= <- <-]. apply keeps_step; [done|by apply releaseCurrentSlot_keeps|done..]. }
  set (B := λ k : num, (v ≠ "ffffffff") ∧ k = currentSlot r).
  destruct (getOrCreateSlot_spec r Hok) as (s & Hs & Hid & _ & Htr).
  pose proof (getOrCreateSlot_keeps B r) as H0. pose proof (keeps_ok _ _ _ H0 Hok) as Hok0.
  pose proof (getOrCreateSlot_current r) as Hcur. rewrite Hcur, Hs.
  remember (getOrCreateSlot r) as r0 eqn:E0. clear E0.
  assert (∀ r1, slots_ok r1 → currentSlot r1 = currentSlot r →
          keeps B r1 (update_slot (set_trackingId (parseInt16 v)) r1)) as Hupd.
  { intros r1 Hok1 Hc1. apply update_slot_keeps; [done..|]. intros. right. unfold B. by rewrite Hc1. }
  destruct (num_ge0 (trackingId s)) eqn:Hge; cbn [andb].
  2:{ intros [= <- <-]. apply keeps_step; [done| |done..]. etrans; [done|]. by apply Hupd. }
  destruct (negb _) eqn:Hne.
  2:{ intros [= <- <-]. apply keeps_step; [done| |done..]. etrans; [done|]. by apply Hupd. }
  destruct (endedByReplacement opt s at_ r0) as [f1 r1] eqn:E. intros [= <- <-].
  apply (keeps_then_step B _ r0); [done|done|].
  pose proof (replaced_step _ _ _ _ _ _ Hok0 Hs Hge E) as Hstep.
  assert (contact_step B r0 (Some (Frame f1)) r1) as Hstep'.
  { destruct Hstep. split; try done. intros k HB. apply step_idle0. intros ->. by apply HB. }
  apply (step_then_keeps B _ _ r1); [exact Hstep'|].
  etrans; [apply hover_reports_keeps|]. apply Hupd.
  - apply (same_contacts_ok r1); [apply hover_reports_same|]. apply (step_ok _ _ _ _ Hstep').
  - by rewrite hover_reports_current, (endedByReplacement_current _ _ _ _ _ E).
Qed.

Lemma handleAbsEvent_step (B : num → Prop) c v at_ r f r' :
  slots_ok r → (c = "ABS_MT_TRACKING_ID" → num_ge0 (parseInt16 v) = true) →
  (c = "ABS_MT_TRACKING_ID" → v ≠ "ffffffff" → B (currentSlot r)) →
  handleAbsEvent opt c v at_ r = (f, r') → contact_step B r (Frame <$> f) r'.
Proof.
  intros Hok Hv HB. unfold handleAbsEvent.
  destruct (decide (c = "ABS_MT_SLOT")); [intros [= <- <-]; apply keeps_step; [done|by apply same_contacts_keeps|done..]|].
  destruct (decide (c = "ABS_MT_TRACKING_ID")) as [Hc|].
  { intros H. destruct (handleTrackingId_step _ _ _ _ _ Hok (Hv Hc) H) as []. split; [done..|].
    intros k Hk. apply step_idle0. intros [Hne ->]. by apply Hk, HB. }
  repeat case_decide; intros [= <- <-]; (apply keeps_step; [done| |done..]);
    first [by apply observeAxis_keeps | by apply update_slot_keeps0 | by apply handlePenAbsEvent_keeps].
Qed.

Lemma feedMatch_step m at_ r o r' :
  slots_ok r → line_ok m → is_report m = false → feedMatch opt m at_ r = (o, r') →
  contact_step (begins m r) r o r'.
Proof.
  intros Hok Hm Hrep. unfold feedMatch.
  assert (keeps (begins m r) r (with_kernelAtMs (milliseconds (seconds m)) r)) as Hk by (by apply same_contacts_keeps).
  pose proof (keeps_ok _ _ _ Hk Hok) as Hok0.
  remember (with_kernelAtMs (milliseconds (seconds m)) r) as r0 eqn:E0.
  assert (currentSlot r0 = currentSlot r) as Hcur by (by subst r0).
  intros H. apply (keeps_then_step _ _ r0); [done|done|]. clear E0 Hk.
  destruct (decide (evType m = "EV_ABS")) as [Ht|].
  { destruct (handleAbsEvent opt _ _ _ r0) as [f r1] eqn:E. injection H as <- <-.
    eapply (handleAbsEvent_step _ _ _ at_); [exact Hok0|exact Hm| |exact E].
    intros Hc Hv. rewrite Hcur. by left. }
  destruct (decide (evType m = "EV_SYN")) as [Ht|].
  { unfold handleSynEvent, is_report in *.
    repeat case_decide; simplify_eq/=; by apply keeps_step. }
  destruct (decide (evType m = "EV_KEY")) as [Ht|]; [|injection H as <- <-; by apply keeps_step].
  destruct (if decide _ then _ else _); injection H as <- <-; [by apply keeps_step|].
  apply keeps_step; [done| |done..]. apply handleKeyEvent_keeps; [done|]. intros Hs Hc Hp.
  apply bool_decide_eq_true in Hp. right. by split_and!.
Qed.

(** A report: it lists the contacts in touch as active or as released. *)
Lemma feedMatch_report m at_ r o r' :
  slots_ok r → is_report m = true → feedMatch opt m at_ r = (o, r') →
  ∃ f, o = Some (Frame f) ∧ slots_ok r' ∧ accounted r' ∧ paths_step r o r' ∧
    (accounted r → ∀ k, k ∈ touchingSlots r → k ∈ ids (activeSlots f) ∨ k ∈ frame_releasedSlots f) ∧
    (∀ k, k ∈ touchingSlots r' ↔ k ∈ ids (activeSlots f)) ∧
    (∀ k, k ∈ ids (activeSlots f) → (k ∉ frame_releasedSlots f)) ∧
    ∀ k, tracked r' k = tracked r k ∧
         (idle k r → idle k r' ∧ (k ∉ ids (activeSlots f)) ∧ (k ∉ frame_releasedSlots f)) ∧
         (k ∈ frame_releasedSlots f → tracked r k = false → idle k r').
Proof.
  intros Hok Hrep. unfold is_report in Hrep. reflect_bools. unfold feedMatch, handleSynEvent.
  rewrite decide_False by congruence. rewrite !decide_True by done.
  set (r0 := with_kernelAtMs (milliseconds (seconds m)) r).
  destruct (reportFrame opt at_ r0) as [f r1] eqn:E. intros [= <- <-].
  destruct (reportFrame_spec _ _ _ _ E) as (Hs & Hrel & Ha & Hr & Ht).
  assert (slots_ok r0) as Hok0 by (destruct Hok; by split).
  change (slots r0) with (slots r) in *.
  assert (∀ k, tracked r1 k = tracked r k) as Htr by (intros; unfold tracked; by rewrite Hs).
  pose proof (λ p k, elem_of_listed p r0 k Hok0) as Hel. change (slots r0) with (slots r) in Hel.
  exists f. split_and!; try done.
  - destruct Hok. split; by rewrite Hs.
  - intros k. rewrite Ht, Hs, Htr, Ha, Hel. intros (s & Hg & Hp). split; [by apply (jget_in_keys k s)|].
    left. unfold tracked. rewrite Hg. unfold reports in Hp. by reflect_bools.
  - apply (reportFrame_paths opt at_ r0); [by apply slots_ok_entries|done].
  - intros Hacc k Hk. rewrite Ha, Hr, !Hel. destruct (Hacc k Hk) as [Hin Hor].
    apply jhas_true in Hin. rewrite jhas_get in Hin. apply bool_decide_eq_true in Hin as [s Hg].
    destruct (reports s) eqn:Hp; [left; eauto|]. right. exists s. split; [done|]. unfold ends. rewrite Hp.
    rewrite (slots_id _ Hok _ _ Hg). cbn. apply orb_true_iff. unfold tracked in Hor. rewrite Hg in Hor.
    destruct Hor as [->|Hor]; [right|left]; by apply bool_decide_eq_true_2.
  - intros k. rewrite Ha, Hr, !Hel. intros (s & Hg & Hp) (s' & Hg' & Hp'). simplify_eq.
    unfold ends in Hp'. by rewrite Hp in Hp'.
  - intros k. split_and!; [apply Htr| |].
    + intros [Hf Hnr]. unfold idle. rewrite Htr, Hrel, Ha, Hr, !Hel. unfold tracked in Hf.
      split_and!; [done|by apply not_elem_of_nil|..]; intros (s & Hg & Hp); rewrite Hg in Hf.
      * unfold reports in Hp. reflect_bools. congruence.
      * unfold ends in Hp. rewrite Hf in Hp. reflect_bools. rewrite (slots_id _ Hok _ _ Hg), orb_false_r in *.
        by apply Hnr, (bool_decide_eq_true_1 _).
    + intros _ Hf. unfold idle. rewrite Htr, Hrel. split; [done|by apply not_elem_of_nil].
Qed.
End Operations.

(** ** Runs *)

Definition report_line (line : string) : bool :=
  match matchLine line with Some m => is_report m | None => false end.
Definition lines_ok (ls : list (string * Z)) : Prop :=
  Forall (λ l, ∀ m, matchLine l.1 = Some m → line_ok m) ls.

(** No line of the run begins a contact in slot [k]. *)
Fixpoint never_begins (opt : Options) (ls : list (string * Z)) (r : Reconstructor) (k : num) : Prop :=
  match ls with
  | [] => True
  | (line, at_) :: ls =>
      (∀ m, matchLine line = Some m → ¬ begins opt m r k) ∧
      never_begins opt ls (feedLine opt line at_ r).2 k
  end.

(** Both conditions are decidable by running the lines. *)
#[export] Instance line_ok_dec m : Decision (line_ok m).
Proof. unfold line_ok. apply _. Defined.
#[export] Instance begins_dec opt m r k : Decision (begins opt m r k).
Proof. unfold begins. apply _. Defined.
Definition lines_okb (ls : list (string * Z)) : bool :=
  forallb (λ l, match matchLine l.1 with Some m => bool_decide (line_ok m) | None => true end) ls.
Fixpoint never_beginsb (opt : Options) (ls : list (string * Z)) (r : Reconstructor) (k : num) : bool :=
  match ls with
  | [] => true
  | (line, at_) :: ls =>
      match matchLine line with Some m => negb (bool_decide (begins opt m r k)) | None => true end &&
      never_beginsb opt ls (feedLine opt line at_ r).2 k
  end.
Lemma lines_okb_spec ls : lines_okb ls = true → lines_ok ls.
Proof.
  unfold lines_okb, lines_ok. intros H. apply Forall_forall. intros l Hl m Hm.
  apply Is_true_true, forallb_True in H. rewrite Forall_forall in H. specialize (H l Hl).
  rewrite Hm in H. by apply bool_decide_spec in H.
Qed.
Lemma no_reports_spec ls :
  forallb (λ l, negb (report_line l.1)) ls = true → Forall (λ l : string * Z, report_line l.1 = false) ls.
Proof.
  intros H. apply Is_true_true, forallb_True in H. eapply Forall_impl; [exact H|].
  intros l Hl. by apply Is_true_true, negb_true_iff in Hl.
Qed.
Lemma never_beginsb_spec opt ls r k : never_beginsb opt ls r k = true → never_begins opt ls r k.
Proof.
  revert r. induction ls as [|[line at_] ls IH]; intros r H; [done|]. cbn in *.
  apply andb_true_iff in H as [Hb H]. split; [|by apply IH]. intros m Hm. rewrite Hm in Hb.
  apply negb_true_iff in Hb. by apply bool_decide_eq_false in Hb.
Qed.

Section Runs.
Context (opt : Options).

Lemma feedLines_snoc ls line at_ r :
  (feedLines opt (ls ++ [(line, at_)]) r).2 = (feedLine opt line at_ (feedLines opt ls r).2).2.
Proof.
  revert r. induction ls as [|[l t] ls IH]; intros r; cbn.
  - by destruct (feedLine opt line at_ r).
  - destruct (feedLine opt l t r) as [o r1]. specialize (IH r1).
    destruct (feedLines opt ls r1), (feedLines opt (ls ++ [(line, at_)]) r1). done.
Qed.

Lemma lines_ok_cons line at_ ls :
  lines_ok ((line, at_) :: ls) ↔ (∀ m, matchLine line = Some m → line_ok m) ∧ lines_ok ls.
Proof. unfold lines_ok. by rewrite Forall_cons. Qed.

(** Any line keeps the invariants, and an idle slot it does not begin. *)
Lemma feedLine_inv line at_ r :
  slots_ok r → (∀ m, matchLine line = Some m → line_ok m) →
  slots_ok (feedLine opt line at_ r).2 ∧
  (accounted r → accounted (feedLine opt line at_ r).2) ∧
  paths_step r (feedLine opt line at_ r).1 (feedLine opt line at_ r).2 ∧
  ∀ k, (∀ m, matchLine line = Some m → ¬ begins opt m r k) → idle k r →
    idle k (feedLine opt line at_ r).2 ∧
    (k ∉ shown (feedLine opt line at_ r).1) ∧ (k ∉ ended (feedLine opt line at_ r).1).
Proof.
  intros Hok Hl. unfold feedLine. destruct (matchLine line) as [m|].
  2:{ split_and!; [done|done|done|]. intros k _ Hi. split_and!; [done|by apply not_elem_of_nil..]. }
  destruct (feedMatch opt m at_ r) as [o r'] eqn:E. destruct (is_report m) eqn:Hr.
  - destruct (feedMatch_report _ _ _ _ _ _ Hok Hr E) as (f & -> & Hok' & Hacc' & Hp & _ & _ & _ & Hidle).
    split_and!; [done|done|done|]. intros k _ Hi. by apply (Hidle k).
  - destruct (feedMatch_step _ _ _ _ _ _ Hok (Hl m eq_refl) Hr E) as [? _ ? ? Hidle].
    split_and!; [done|done|done|]. intros k Hk Hi. apply Hidle; [by apply Hk|done].
Qed.

Lemma feedLines_inv ls r :
  slots_ok r → accounted r → lines_ok ls →
  slots_ok (feedLines opt ls r).2 ∧ accounted (feedLines opt ls r).2.
Proof.
  revert r. induction ls as [|[line at_] ls IH]; intros r Hok Hacc Hl; [done|].
  apply lines_ok_cons in Hl as [Hm Hl]. destruct (feedLine_inv line at_ r Hok Hm) as (Hok' & Hacc' & _ & _).
  cbn. destruct (feedLine opt line at_ r) as [o r1]. specialize (IH r1 Hok' (Hacc' Hacc) Hl).
  by destruct (feedLines opt ls r1).
Qed.

Lemma newReconstructor_ok : slots_ok newReconstructor ∧ accounted newReconstructor.
Proof. split; [by split; [apply NoDup_nil_2|..]|]. intros k Hk. by apply elem_of_nil in Hk. Qed.

(** Between two reports a contact in touch stays so or is ended by a frame. *)
Lemma feedLines_touching ls r k :
  slots_ok r → lines_ok ls → Forall (λ l, report_line l.1 = false) ls → k ∈ touchingSlots r →
  k ∈ touchingSlots (feedLines opt ls r).2 ∨
  ∃ h, Frame h ∈ (feedLines opt ls r).1 ∧ k ∈ frame_releasedSlots h.
Proof.
  revert r. induction ls as [|[line at_] ls IH]; intros r Hok Hl Hn Hk; [by left|].
  apply lines_ok_cons in Hl as [Hm Hl]. apply Forall_cons in Hn as [Hr Hn].
  destruct (feedLine_inv line at_ r Hok Hm) as (Hok' & _ & _ & _).
  assert (k ∈ touchingSlots (feedLine opt line at_ r).2 ∨ k ∈ ended (feedLine opt line at_ r).1) as Hstep.
  { unfold feedLine, report_line in *. cbn in Hr. destruct (matchLine line) as [m|]; [|by left].
    destruct (feedMatch opt m at_ r) as [o r'] eqn:E.
    by apply (step_touching _ _ _ _ (feedMatch_step _ _ _ _ _ _ Hok (Hm m eq_refl) Hr E)). }
  cbn. destruct (feedLine opt line at_ r) as [o r1]. cbn in *.
  destruct Hstep as [Hstep|Hstep].
  - specialize (IH r1 Hok' Hl Hn Hstep). destruct (feedLines opt ls r1) as [os r2]. cbn in *.
    destruct IH as [?|(h & Hh & ?)]; [by left|]. right. exists h. split; [|done].
    destruct o; [by right|done].
  - destruct (feedLines opt ls r1) as [os r2]. right.
    destruct o as [[h|g]|]; cbn in Hstep; try (by apply elem_of_nil in Hstep).
    exists h. split; [by left|done].
Qed.

(** The stored paths are those of the samples shown, and so is every path shown. *)
Lemma feedLines_paths ls r (h : num → list PenSample) :
  slots_ok r → lines_ok ls → (∀ k, jget k (penPaths r) = stored (h k)) →
  ∀ os1 f os2, (feedLines opt ls r).1 = (os1 ++ Frame f :: os2)%list →
  ∀ a p, a ∈ activeSlots f → path a = Some p → slotId a ∉ frame_releasedSlots f →
    stored (foldl (add_output (slotId a)) (h (slotId a)) (os1 ++ [Frame f])) = Some p ∧
    ∃ t, last p = Some (mkPenSample (slot_x a) (slot_y a) (pressure a) (frame_arrivedAt f) t).
Proof.
  revert r h. induction ls as [|[line at_] ls IH]; intros r h Hok Hl Hh os1 f os2 Hos; [by destruct os1|].
  apply lines_ok_cons in Hl as [Hm Hl]. destruct (feedLine_inv line at_ r Hok Hm) as (Hok' & _ & [Hp Hshow] & _).
  cbn in Hos. destruct (feedLine opt line at_ r) as [o r1]. cbn [fst snd] in *.
  specialize (IH r1 (λ k, match o with Some o => add_output k (h k) o | None => h k end) Hok' Hl
    (λ k, Hp k (h k) (Hh k))).
  destruct (feedLines opt ls r1) as [os r2]. cbn [fst] in *.
  destruct o as [o|]; [|by apply (IH os1 f os2)].
  destruct os1 as [|o1 os1]; injection Hos as -> Hos; [|by apply (IH os1 f os2)].
  intros a p Ha Hpa Hk. destruct (Hshow a p Ha Hpa Hk) as [Hg Ht]. split; [|done].
  rewrite <- Hg. symmetry. apply (Hp (slotId a)), Hh.
Qed.

(** A report as a line of the run. *)
Lemma report_line_step line at_ r :
  slots_ok r → report_line line = true →
  let r' := (feedLine opt line at_ r).2 in
  ∃ f, (feedLine opt line at_ r).1 = Some (Frame f) ∧
    (accounted r → ∀ k, k ∈ touchingSlots r → k ∈ ids (activeSlots f) ∨ k ∈ frame_releasedSlots f) ∧
    (∀ k, k ∈ touchingSlots r' ↔ k ∈ ids (activeSlots f)) ∧
    (∀ k, k ∈ ids (activeSlots f) → (k ∉ frame_releasedSlots f)) ∧
    ∀ k, k ∈ frame_releasedSlots f → tracked r' k = false → idle k r'.
Proof.
  unfold report_line, feedLine. destruct (matchLine line) as [m|]; [|done]. intros Hok Hm.
  destruct (feedMatch opt m at_ r) as [o r'] eqn:E.
  destruct (feedMatch_report _ _ _ _ _ _ Hok Hm E) as (f & -> & _ & _ & _ & ? & ? & ? & Hk).
  cbn. exists f. split_and!; [done..|]. intros k Hr. destruct (Hk k) as (-> & _ & Hi). auto.
Qed.

Lemma silent_while_idle ls r k :
  slots_ok r → lines_ok ls → idle k r → never_begins opt ls r k →
  ∀ f, Frame f ∈ (feedLines opt ls r).1 → (k ∉ ids (activeSlots f)) ∧ (k ∉ frame_releasedSlots f).
Proof.
  revert r. induction ls as [|[line at_] ls IH]; intros r Hok Hl Hi Hn f Hf; [by apply elem_of_nil in Hf|].
  apply lines_ok_cons in Hl as [Hm Hl]. destruct Hn as [Hb Hn].
  destruct (feedLine_inv line at_ r Hok Hm) as (Hok' & _ & _ & Hidle). destruct (Hidle k Hb Hi) as (Hi' & Hs & He).
  cbn in Hf. destruct (feedLine opt line at_ r) as [o r1]. cbn in *.
  specialize (IH r1 Hok' Hl Hi' Hn f). destruct (feedLines opt ls r1) as [os r2]. cbn in *.
  destruct o as [o|]; [|by apply IH]. apply elem_of_cons in Hf as [Hf|Hf]; [|by apply IH]. by subst o.
Qed.
End Runs.
