(* ===== verification/TouchProperties.v ===== *)
(** * What touch reconstruction guarantees

    The theorems about [TouchFrames] and [PenHover], with a recording of a pen
    and a finger as their concrete input. *)
From S2P Require Import Prelude JsString JsMap JsArray GetEventLine PenHover TouchFrames TouchPaths TouchContacts.
Local Open Scope string_scope.

(** ** A recording *)

Definition pen_opt : Options := mkOptions false true.
Definition line (code value : string) : string * Z := ("[ 12.500000] EV_ABS " ++ code ++ " " ++ value, 1%Z).
Definition syn (at_ : Z) : string * Z := ("[ 12.500000] EV_SYN SYN_REPORT 00000000", at_).

(** A pen in slot 0 presses, moves and is replaced by a new contact, which a
    finger in slot 1 accompanies until both are lifted. *)
Definition pen_down : list (string * Z) :=
  [line "ABS_MT_SLOT" "00000000"; line "ABS_MT_TRACKING_ID" "00000007"; line "ABS_MT_TOOL_TYPE" "00000001";
   line "ABS_MT_POSITION_X" "00000064"; line "ABS_MT_POSITION_Y" "000000c8"; line "ABS_MT_PRESSURE" "00000010";
   syn 1; line "ABS_MT_POSITION_X" "00000065"; line "ABS_MT_PRESSURE" "00000020";
   line "ABS_MT_SLOT" "00000001"; line "ABS_MT_TRACKING_ID" "00000008"].
Definition pen_replaced : list (string * Z) := [line "ABS_MT_SLOT" "00000000"; line "ABS_MT_TRACKING_ID" "00000009"].
Definition both_up : list (string * Z) :=
  [line "ABS_MT_TRACKING_ID" "ffffffff"; line "ABS_MT_SLOT" "00000001"; line "ABS_MT_TRACKING_ID" "ffffffff"].

(** ** Contacts *)

(** No contact is lost: every slot a [SYN_REPORT] frame lists as active is,
    by the next [SYN_REPORT] frame, listed as active again or listed as released in
    that frame or in one emitted between the two, and a report never lists a slot
    both ways.  The tracking ids are numbers, as [getevent] prints them. *)
Theorem contact_ends_are_reported opt before first t1 between second t2 :
  lines_ok (before ++ (first, t1) :: between ++ [(second, t2)]) →
  report_line first = true → report_line second = true →
  Forall (λ l, report_line l.1 = false) between →
  let r0 := (feedLines opt before newReconstructor).2 in
  let r1 := (feedLine opt first t1 r0).2 in
  let '(os, r2) := feedLines opt between r1 in
  ∃ f g, (feedLine opt first t1 r0).1 = Some (Frame f) ∧ (feedLine opt second t2 r2).1 = Some (Frame g) ∧
    (∀ k, k ∈ ids (activeSlots f) →
       k ∈ ids (activeSlots g) ∨ k ∈ frame_releasedSlots g ∨ ∃ h, Frame h ∈ os ∧ k ∈ frame_releasedSlots h) ∧
    ∀ k, k ∈ ids (activeSlots g) → k ∉ frame_releasedSlots g.
Proof.
  intros Hl Hf Hs Hb. apply Forall_app in Hl as [Hl0 Hl]. apply Forall_cons in Hl as [Hl1 Hl].
  apply Forall_app in Hl as [Hl Hl2]. destruct newReconstructor_ok as [Hnok Hnacc].
  destruct (feedLines_inv opt before _ Hnok Hnacc Hl0) as [Hok0 Hacc0]. intros r0 r1. fold r0 in Hok0, Hacc0.
  destruct (feedLine_inv opt first t1 r0 Hok0 Hl1) as (Hok1 & Hacc1 & _). fold r1 in Hok1, Hacc1.
  destruct (report_line_step opt first t1 r0 Hok0 Hf) as (f & Ef & _ & Htouch & _). fold r1 in Htouch.
  pose proof (λ k, feedLines_touching opt between r1 k Hok1 Hl Hb) as Hstay.
  destruct (feedLines_inv opt between r1 Hok1 (Hacc1 Hacc0) Hl) as [Hok2 Hacc2].
  destruct (feedLines opt between r1) as [os r2]. cbn [fst snd] in *.
  destruct (report_line_step opt second t2 r2 Hok2 Hs) as (g & Eg & Hacc & _ & Hexcl & _).
  exists f, g. split_and!; [done|done| |done]. intros k Hk. apply Htouch in Hk.
  destruct (Hstay k Hk) as [Hk2|Hended]; [|by right; right]. destruct (Hacc Hacc2 k Hk2); auto.
Qed.
Lemma contact_ends_are_reported_witness :
  let r0 := (feedLines pen_opt (take 6 pen_down) newReconstructor).2 in
  let r1 := (feedLine pen_opt (syn 1).1 1 r0).2 in
  let '(os, r2) := feedLines pen_opt (drop 7 pen_down ++ pen_replaced ++ both_up)%list r1 in
  ∃ f g, (feedLine pen_opt (syn 1).1 1 r0).1 = Some (Frame f) ∧
    (feedLine pen_opt (syn 2).1 2 r2).1 = Some (Frame g) ∧
    (∀ k, k ∈ ids (activeSlots f) →
       k ∈ ids (activeSlots g) ∨ k ∈ frame_releasedSlots g ∨ ∃ h, Frame h ∈ os ∧ k ∈ frame_releasedSlots h) ∧
    ∀ k, k ∈ ids (activeSlots g) → k ∉ frame_releasedSlots g.
Proof.
  apply (contact_ends_are_reported pen_opt (take 6 pen_down) (syn 1).1 1
           (drop 7 pen_down ++ pen_replaced ++ both_up)%list (syn 2).1 2).
  - apply lines_okb_spec. vm_compute. reflexivity.
  - vm_compute. reflexivity.
  - vm_compute. reflexivity.
  - apply no_reports_spec. vm_compute. reflexivity.
Defined.

(** No contact is reported after its end: from the start, or from a report
    that released a slot whose tracking id is gone, no frame lists the slot as active
    or released for as long as no line begins a contact in it. *)
Theorem released_contacts_are_silent opt before after k :
  lines_ok (before ++ after) →
  let r := (feedLines opt before newReconstructor).2 in
  never_begins opt after r k →
  (before = [] ∨ ∃ before' report_ at_ f,
     before = (before' ++ [(report_, at_)])%list ∧ report_line report_ = true ∧
     (feedLine opt report_ at_ (feedLines opt before' newReconstructor).2).1 = Some (Frame f) ∧
     k ∈ frame_releasedSlots f ∧ tracked r k = false) →
  ∀ g, Frame g ∈ (feedLines opt after r).1 → (k ∉ ids (activeSlots g)) ∧ (k ∉ frame_releasedSlots g).
Proof.
  intros Hl r Hn Hk. apply Forall_app in Hl as [Hl0 Hl]. destruct newReconstructor_ok as [Hnok Hnacc].
  destruct (feedLines_inv opt before _ Hnok Hnacc Hl0) as [Hok _].
  apply (silent_while_idle opt after r k Hok Hl); [|done]. destruct Hk as [->|(b & rl & at_ & f & -> & Hr & Ef & Hin & Ht)].
  - split; [done|by apply not_elem_of_nil].
  - apply Forall_app in Hl0 as [Hl0 _]. destruct (feedLines_inv opt b _ Hnok Hnacc Hl0) as [Hokb _].
    destruct (report_line_step opt rl at_ _ Hokb Hr) as (f' & Ef' & _ & _ & _ & Hidle). simplify_eq.
    unfold r in *. rewrite feedLines_snoc in *. by apply Hidle.
Qed.
Lemma released_contacts_are_silent_witness :
  Forall (λ o, (Some 1%Z ∉ shown (Some o)) ∧ (Some 1%Z ∉ ended (Some o)))
    (feedLines pen_opt [line "ABS_MT_SLOT" "00000000"; line "ABS_MT_POSITION_X" "00000064"; syn 3]
       (feedLines pen_opt (pen_down ++ both_up ++ [syn 2])%list newReconstructor).2).1.
Proof.
  apply Forall_forall. intros [g|e] Hg; [|split; apply not_elem_of_nil]. revert g Hg.
  apply (released_contacts_are_silent pen_opt (pen_down ++ both_up ++ [syn 2])%list
           [line "ABS_MT_SLOT" "00000000"; line "ABS_MT_POSITION_X" "00000064"; syn 3] (Some 1%Z)).
  - apply lines_okb_spec. vm_compute. reflexivity.
  - apply never_beginsb_spec. vm_compute. reflexivity.
  - right. exists (pen_down ++ both_up)%list, (syn 2).1, 2%Z. eexists. split_and!.
    + by rewrite <- app_assoc.
    + vm_compute. reflexivity.
    + vm_compute. reflexivity.
    + vm_compute. by left.
    + vm_compute. reflexivity.
Defined.

(** ** Pen paths *)

(** C34. The path reported for a pen contact summarises all the samples the frames
    showed of it since the slot's last release: it is the fold of [pushPen] over them,
    so it has between one and [PEN_MAX_SAMPLES] of them in order, the first and the
    latest among them, and the latest is the copy's own position and pressure; where
    pressures are numbers, samples of no greater and of no smaller pressure are kept. *)
Theorem pen_paths_summarise_contacts opt ls os1 f os2 a p :
  lines_ok ls → (feedLines opt ls newReconstructor).1 = (os1 ++ Frame f :: os2)%list →
  a ∈ activeSlots f → path a = Some p → slotId a ∉ frame_releasedSlots f →
  let h := history (slotId a) (os1 ++ [Frame f]) in
  (1 ≤ length p ≤ PEN_MAX_SAMPLES)%nat ∧ p `sublist_of` h ∧ head p = head h ∧ last p = last h ∧
  (∃ t, last p = Some (mkPenSample (slot_x a) (slot_y a) (pressure a) (frame_arrivedAt f) t)) ∧
  (known_pressures h → spans p h) ∧ p = summary h.
Proof.
  intros Hl Hos Ha Hp Hk. destruct newReconstructor_ok as [Hnok _].
  destruct (feedLines_paths opt ls newReconstructor (λ _, []) Hnok Hl (λ _, eq_refl) os1 f os2 Hos a p Ha Hp Hk)
    as [Hs Ht]. intros h. change (stored h = Some p) in Hs.
  assert (p = summary h) as -> by (destruct h; by simplify_eq/=).
  destruct (summary_spec h) as (Hlen & Hh & Hlast & Hsub & Hspan). split_and!; try done.
  destruct (summary h); [by destruct Ht|cbn; lia].
Qed.
Lemma pen_paths_summarise_contacts_witness :
  ∃ os1 f os2 a p,
    (feedLines pen_opt (pen_down ++ [syn 2])%list newReconstructor).1 = (os1 ++ Frame f :: os2)%list ∧
    a ∈ activeSlots f ∧ path a = Some p ∧ length p = 2%nat ∧ p = summary (history (slotId a) (os1 ++ [Frame f])).
Proof.
  destruct (feedLines pen_opt (pen_down ++ [syn 2])%list newReconstructor).1 as [|o1 [|[f2|] [|]]] eqn:E;
    vm_compute in E; try discriminate.
  injection E as E1 E2. assert (∃ a p, activeSlots f2 !! 0%nat = Some a ∧ path a = Some p ∧ length p = 2%nat ∧
    slotId a ∉ frame_releasedSlots f2) as (a & p & Ha & Hp & Hlen & Hk).
  { rewrite <- E2. vm_compute. do 2 eexists. split_and!; [reflexivity..|]. apply not_elem_of_nil. }
  exists [o1], f2, [], a, p. apply list_elem_of_lookup_2 in Ha.
  assert ((feedLines pen_opt (pen_down ++ [syn 2])%list newReconstructor).1 = ([o1] ++ Frame f2 :: [])%list) as Hos
    by (rewrite <- E1, <- E2; vm_compute; reflexivity).
  assert (lines_ok (pen_down ++ [syn 2])%list) as Hl by (apply lines_okb_spec; vm_compute; reflexivity).
  split_and!; [done..|]. apply (pen_paths_summarise_contacts pen_opt _ _ _ _ _ _ Hl Hos Ha Hp Hk).
Defined.

(** ** Hover *)

(** The end of a pen episode reports it exactly when the pen hovered or came
    into range and never touched since the previous end, whatever else happened in
    between and to other slots, and the reported path is the bounded record of the
    positions known, from the first to the latest. *)
Theorem hover_episodes_are_reported cs tool arrivedAt :
  (call (calls cs) (Left tool arrivedAt)).1 = expected None cs tool arrivedAt ∧
  (∀ i, (call (calls cs) (SlotReleased i (Some tool) arrivedAt)).1 = expected (Some i) cs tool arrivedAt ∧
        (call (calls cs) (SlotReleased i None arrivedAt)).1 = None) ∧
  ∀ owner, let l := hovers (episode_marks owner cs) in
    (length (recorded l) ≤ PEN_MAX_SAMPLES)%nat ∧ head (recorded l) = head l ∧ last (recorded l) = last l ∧
    recorded l `sublist_of` l.
Proof.
  split_and!; [apply (end_expected None)| |intros; apply recorded_spec].
  intros i. split; [apply (end_expected (Some i))|]. cbn. by destruct (jget i _).
Qed.

(** ** Lines *)

(** A line is read, and its groups are, exactly as the regular expression
    denotes; every other line leaves the reconstructor alone. *)
Theorem getevent_lines_are_read line :
  (∀ m, matchLine line = Some m ↔ line_denotes line m) ∧
  ∀ opt at_ r,
    (∀ m, line_denotes line m → feedLine opt line at_ r = feedMatch opt m at_ r) ∧
    ((∀ m, ¬ line_denotes line m) → feedLine opt line at_ r = (None, r)).
Proof.
  split; [intros; apply match_line_exact|]. intros opt at_ r. unfold feedLine. split.
  - intros m Hm. apply match_line_exact in Hm. by rewrite Hm.
  - intros Hn. destruct (matchLine line) as [m|] eqn:E; [|done]. apply match_line_exact in E. by destruct (Hn m).
Qed.

(** ** Two corners of the code *)

(** A slot that is released and begun again within one packet is reported as one
    continuing contact: the pending release is dropped by the report. *)
Lemma release_and_begin_in_one_packet :
  let ls := ([line "ABS_MT_TRACKING_ID" "00000001"; syn 1;
              line "ABS_MT_TRACKING_ID" "ffffffff"; line "ABS_MT_TRACKING_ID" "00000002"; syn 2])%list in
  (λ o, (shown (Some o), ended (Some o))) <$> (feedLines pen_opt ls newReconstructor).1 =
  [([Some 0%Z], []); ([Some 0%Z], [])].
Proof. vm_compute. reflexivity. Qed.

(** A contact whose position was never observed gets a final sample although it
    has not moved: [NaN] differs from itself. *)
Lemma unknown_position_counts_as_moved :
  let ls := ([line "ABS_MT_TRACKING_ID" "00000001"; syn 1; line "ABS_MT_TRACKING_ID" "ffffffff"; syn 2])%list in
  (λ o, match o with Frame f => bool_decide (is_Some (releasedFinalSamples f)) | Gesture _ => false end) <$>
    (feedLines pen_opt ls newReconstructor).1 = [false; true].
Proof. vm_compute. reflexivity. Qed.
