(* ===== verification/KernelMerge.v ===== *)
(** * Kernel-time merge of input lines

    [src/src/features/record/android/KernelTimeReorderBuffer.ts] and
    [KernelTimeLineMerge.ts]: the lines of several device nodes, each read by its
    own process, are put into the order of their kernel time stamps within a
    window.  Times are rational numbers of milliseconds ([None] is minus
    infinity).  A handler reads the clock where the code does: [now] when it
    starts and [then_] when it arms the timer.  [onLine] is called synchronously;
    the lines it is called with are the output of the step. *)
From Stdlib Require Import QArith Ascii.
From S2P Require Import Prelude JsString JsMap GetEventLine.
Local Open Scope Q_scope.

(** ** Lines *)

Record KernelTimedLine := mkTimed {
  nodeKey : string; kernelMs : option Q; text : string; line_arrivedAt : Z }.
Record PendingLine := mkPending {
  p_node : string; p_ms : Q; p_text : string; p_arrivedAt : Z; releaseAt : Q }.

(** [/^\[\s*(\d+(?:\.\d+)?)\s*\]/.exec(line)], the stamp in milliseconds. *)
Definition stamp_of (line : string) : option Q :=
  match line with
  | String "["%char s =>
      '(t, s) ← match_decimal (skip_spaces s);
      match skip_spaces s with
      | String "]"%char _ => Some (milliseconds t)
      | _ => None
      end
  | _ => None
  end.

(** ** Bounds that may be minus infinity *)

Definition Qmax (a b : Q) : Q := if Qle_bool a b then b else a.
Definition Qmin (a b : Q) : Q := if Qle_bool a b then a else b.
Definition ext_max (a b : option Q) : option Q :=
  match a, b with Some x, Some y => Some (Qmax x y) | None, y => y | x, None => x end.
Definition through (bound : option Q) (x : Q) : bool :=
  match bound with Some p => Qle_bool x p | None => false end.

(** ** The reorder buffer *)

(** [flushTimer] and [flushAt] are set and cleared together: [flush] holds
    [flushAt] and the instant the timer is due. *)
Record ReorderBuffer := mkBuffer {
  pending : list PendingLine;
  maxSeenKernelMs : option Q;
  releasePoint : option Q;
  flush : option (Q * Q);
}.
Definition emptyBuffer : ReorderBuffer := mkBuffer [] None None None.

(** [RangeError], thrown by the constructor. *)
Inductive WindowError := WindowNegative.
Definition newReorderBuffer (windowMs : Q) : outcome WindowError ReorderBuffer :=
  if Qle_bool 0 windowMs then Returns emptyBuffer else Throws WindowNegative.

(** [pending.push(entry)] and the stable sort by stamp. *)
Fixpoint insertLine (x : PendingLine) (l : list PendingLine) : list PendingLine :=
  match l with
  | [] => [x]
  | y :: l' => if Qle_bool (p_ms y) (p_ms x) then y :: insertLine x l' else x :: y :: l'
  end.
Definition stableSort (l : list PendingLine) : list PendingLine := foldl (λ acc x, insertLine x acc) [] l.

Definition timed (p : PendingLine) : KernelTimedLine := mkTimed (p_node p) (Some (p_ms p)) (p_text p) (p_arrivedAt p).

(** The loop of [releaseThrough] over [pending]. *)
Fixpoint releaseLoop (bound : option Q) (l : list PendingLine) : list KernelTimedLine * list PendingLine :=
  match l with
  | x :: l' =>
      if through bound (p_ms x) then
        let '(out, rest) := releaseLoop bound l' in (timed x :: out, rest)
      else ([], l)
  | [] => ([], [])
  end.
Definition releaseThrough (bound : option Q) (b : ReorderBuffer) : list KernelTimedLine * ReorderBuffer :=
  let '(out, rest) := releaseLoop bound (pending b) in
  (out, mkBuffer rest (maxSeenKernelMs b) bound (flush b)).

(** [earliest], the least [releaseAt] ([None] is infinity). *)
Definition earliest (l : list PendingLine) : option Q :=
  foldl (λ e p, match e with Some m => Some (Qmin m (releaseAt p)) | None => Some (releaseAt p) end) None l.

Definition scheduleFlush (now : Q) (b : ReorderBuffer) : ReorderBuffer :=
  match earliest (pending b) with
  | None => mkBuffer (pending b) (maxSeenKernelMs b) (releasePoint b) None
  | Some e =>
      if match flush b with Some (at_, _) => Qeq_bool at_ e | None => false end then b
      else mkBuffer (pending b) (maxSeenKernelMs b) (releasePoint b) (Some (e, now + Qmax 0 (e - now)))
  end.

Section Buffer.
Context (windowMs : Q).

Definition push (node : string) (line : string) (arrivedAt : Z) (now then_ : Q) (b : ReorderBuffer) :
    list KernelTimedLine * ReorderBuffer :=
  match stamp_of line with
  | None => ([mkTimed node None line arrivedAt], b)
  | Some ms =>
      let maxSeen := ext_max (maxSeenKernelMs b) (Some ms) in
      let entry := mkPending node ms line arrivedAt (now + windowMs) in
      let b := mkBuffer (stableSort (pending b ++ [entry])) maxSeen (releasePoint b) (flush b) in
      let '(out, b) :=
        releaseThrough (ext_max (releasePoint b) ((λ m, m - windowMs) <$> maxSeenKernelMs b)) b in
      (out, scheduleFlush then_ b)
  end.

Definition drain (b : ReorderBuffer) : list KernelTimedLine * ReorderBuffer :=
  let b := mkBuffer (pending b) (maxSeenKernelMs b) (releasePoint b) None in
  releaseThrough (maxSeenKernelMs b) b.

Definition dropNode (node : string) (then_ : Q) (b : ReorderBuffer) : ReorderBuffer :=
  scheduleFlush then_
    (mkBuffer (filter (λ p, p_node p ≠ node) (pending b)) (maxSeenKernelMs b) (releasePoint b) (flush b)).

Definition clear (b : ReorderBuffer) : ReorderBuffer := emptyBuffer.

(** The timer's callback. *)
Definition fireFlush (now then_ : Q) (b : ReorderBuffer) : list KernelTimedLine * ReorderBuffer :=
  let b := mkBuffer (pending b) (maxSeenKernelMs b) (releasePoint b) None in
  let bound := foldl (λ t p, if Qle_bool (releaseAt p) now then ext_max t (Some (p_ms p)) else t)
                 (releasePoint b) (pending b) in
  let '(out, b) := releaseThrough bound b in
  (out, scheduleFlush then_ b).
End Buffer.

(** ** The merge of registered nodes *)

(** A registration is a unique wrapper of its handler: a number. *)
Record LineMerge := mkMerge { handlers : JsMap string nat; nextRegistration : nat; buffer : ReorderBuffer }.
Definition newMerge : LineMerge := mkMerge [] 0%nat emptyBuffer.

Record Delivery := mkDelivery { registration : nat; delivered_line : string; delivered_at : Z }.

(** [onLine]: the handler registered for the line's node, if any. *)
Definition deliver (m : JsMap string nat) (out : list KernelTimedLine) : list Delivery :=
  omap (λ l, (λ h, mkDelivery h (text l) (line_arrivedAt l)) <$> jget (nodeKey l) m) out.

Section Merge.
Context (windowMs : Q).

Definition register (node : string) (then_ : Q) (m : LineMerge) : nat * LineMerge :=
  let b := dropNode node then_ (buffer m) in
  let h := nextRegistration m in
  (h, mkMerge (jset node h (handlers m)) (S h) b).
Definition unregister (node : string) (registered : nat) (then_ : Q) (m : LineMerge) : LineMerge :=
  if bool_decide (jget node (handlers m) = Some registered) then
    let hs := jdel node (handlers m) in
    let b := dropNode node then_ (buffer m) in
    mkMerge hs (nextRegistration m) (match hs with [] => clear b | _ => b end)
  else m.
Definition pushLine (node line : string) (arrivedAt : Z) (now then_ : Q) (m : LineMerge) : list Delivery * LineMerge :=
  if jhas node (handlers m) then
    let '(out, b) := push windowMs node line arrivedAt now then_ (buffer m) in
    (deliver (handlers m) out, mkMerge (handlers m) (nextRegistration m) b)
  else ([], m).
Definition fireMerge (now then_ : Q) (m : LineMerge) : list Delivery * LineMerge :=
  let '(out, b) := fireFlush now then_ (buffer m) in
  (deliver (handlers m) out, mkMerge (handlers m) (nextRegistration m) b).
End Merge.
