(* ===== verification/KernelOrder.v ===== *)
(** * The reorder buffer restores kernel order

    The invariant of the reorder buffer of [KernelMerge] and what follows from it:
    no line is lost or duplicated, a queued line is released by its deadline, and
    while the delivery delay varies by no more than the window the lines come out
    in kernel order. *)
From Stdlib Require Import QArith Lqa Sorted Permutation.
From S2P Require Import Prelude JsString JsMap GetEventLine KernelMerge.
Local Open Scope Q_scope.

(** ** Rationals *)

Lemma Qle_bool_false a b : Qle_bool a b = false → b < a.
Proof. intros H. apply Qnot_le_lt. intros Hle. apply Qle_bool_iff in Hle. congruence. Qed.
Lemma Qmax_l a b : a <= Qmax a b.
Proof. unfold Qmax. destruct (Qle_bool a b) eqn:E; [by apply Qle_bool_iff|lra]. Qed.
Lemma Qmax_r a b : b <= Qmax a b.
Proof. unfold Qmax. destruct (Qle_bool a b) eqn:E; [lra|]. apply Qle_bool_false in E. lra. Qed.
Lemma Qmax_case a b : Qmax a b = a ∨ Qmax a b = b.
Proof. unfold Qmax. destruct (Qle_bool a b); auto. Qed.
Lemma Qmin_l a b : Qmin a b <= a.
Proof. unfold Qmin. destruct (Qle_bool a b) eqn:E; [lra|]. apply Qle_bool_false in E. lra. Qed.
Lemma Qmin_r a b : Qmin a b <= b.
Proof. unfold Qmin. destruct (Qle_bool a b) eqn:E; [by apply Qle_bool_iff|lra]. Qed.
Lemma Qmin_case a b : Qmin a b = a ∨ Qmin a b = b.
Proof. unfold Qmin. destruct (Qle_bool a b); auto. Qed.

Lemma through_Some p x : through (Some p) x = true ↔ x <= p.
Proof. apply Qle_bool_iff. Qed.
Lemma through_ext_max a b x : through (ext_max a b) x = through a x || through b x.
Proof.
  destruct a as [a|], b as [b|]; cbn; [|by rewrite orb_false_r|done|done].
  unfold Qmax. destruct (Qle_bool a b) eqn:E.
  - apply Qle_bool_iff in E. destruct (Qle_bool x b) eqn:Eb; [by rewrite orb_true_r|].
    apply Qle_bool_false in Eb. rewrite orb_false_r. symmetry. apply not_true_is_false.
    intros Ha%Qle_bool_iff. lra.
  - apply Qle_bool_false in E. destruct (Qle_bool x a) eqn:Ea; [done|]. apply Qle_bool_false in Ea.
    symmetry. apply not_true_is_false. intros Hb%Qle_bool_iff. lra.
Qed.
Lemma through_mono a x y : x <= y → through a y = true → through a x = true.
Proof. destruct a as [a|]; [|done]. rewrite !through_Some. lra. Qed.

(** ** Sorted queues *)

Definition ms_le (x y : PendingLine) : Prop := p_ms x <= p_ms y.
#[export] Instance ms_le_trans : Transitive ms_le.
Proof. unfold ms_le. intros ???. apply Qle_trans. Qed.
Abbreviation sorted_ms := (StronglySorted ms_le).

Lemma insertLine_perm x l : Permutation (insertLine x l) (x :: l).
Proof.
  induction l as [|y l IH]; cbn; [done|]. destruct (Qle_bool _ _); [|done].
  rewrite IH. apply perm_swap.
Qed.
Lemma insertLine_sorted x l : sorted_ms l → sorted_ms (insertLine x l).
Proof.
  induction 1 as [|y l Hl IH Hy]; cbn; [by repeat constructor|].
  destruct (Qle_bool (p_ms y) (p_ms x)) eqn:E.
  - apply Qle_bool_iff in E. constructor; [done|]. apply Forall_forall. intros z Hz.
    rewrite (elem_of_Permutation_proper z _ _ (insertLine_perm x l)) in Hz.
    apply elem_of_cons in Hz as [->|Hz]; [done|]. rewrite Forall_forall in Hy. by apply Hy.
  - apply Qle_bool_false in E. constructor; [by constructor|]. constructor; [unfold ms_le; lra|].
    eapply Forall_impl; [exact Hy|]. unfold ms_le. intros z Hz. lra.
Qed.
Lemma stableSort_snoc l x : stableSort (l ++ [x]) = insertLine x (stableSort l).
Proof. unfold stableSort. by rewrite foldl_app. Qed.
Lemma insertLine_last x l : Forall (λ y, ms_le y x) l → insertLine x l = l ++ [x].
Proof.
  induction 1 as [|y l Hy Hl IH]; cbn; [done|]. rewrite (proj2 (Qle_bool_iff _ _) Hy). by rewrite IH.
Qed.
Lemma sorted_snoc l x : sorted_ms (l ++ [x]) → sorted_ms l ∧ Forall (λ y, ms_le y x) l.
Proof.
  induction l as [|y l IH]; cbn; [by repeat constructor|]. intros H. inversion H as [|?? Hl Hy]; subst.
  destruct (IH Hl) as [??]. apply Forall_app in Hy as [Hyl Hyx]. inversion Hyx; subst. by repeat constructor.
Qed.

(** The sort of a sorted array with one element pushed inserts that element. *)
Lemma stableSort_sorted l : sorted_ms l → stableSort l = l.
Proof.
  induction l as [|x l IH] using rev_ind; [done|]. intros [Hl Hx]%sorted_snoc.
  by rewrite stableSort_snoc, IH, insertLine_last.
Qed.
Lemma stableSort_push l x : sorted_ms l → stableSort (l ++ [x]) = insertLine x l.
Proof. intros. by rewrite stableSort_snoc, stableSort_sorted. Qed.

(** ** Releases *)

Definition released_from (bound : option Q) (l a rest : list PendingLine) : Prop :=
  l = a ++ rest ∧ Forall (λ p, through bound (p_ms p) = true) a ∧ Forall (λ p, through bound (p_ms p) = false) rest.

Lemma releaseLoop_spec bound l :
  sorted_ms l → ∃ a rest, releaseLoop bound l = (timed <$> a, rest) ∧ released_from bound l a rest.
Proof.
  induction 1 as [|x l Hl IH Hx]; cbn; [by exists [], []|]. destruct (through bound (p_ms x)) eqn:E.
  - destruct IH as (a & rest & -> & -> & Ha & Hr). exists (x :: a), rest. split; [done|]. by repeat constructor.
  - exists [], (x :: l). split; [done|]. split; [done|]. split; [constructor|]. constructor; [done|].
    eapply Forall_impl; [exact Hx|]. intros y Hy. apply not_true_is_false. intros Hty.
    rewrite (through_mono _ _ _ Hy Hty) in E. done.
Qed.
Lemma sorted_app_inv l1 l2 : sorted_ms (l1 ++ l2) → sorted_ms l1 ∧ sorted_ms l2 ∧ Forall (λ x, Forall (ms_le x) l2) l1.
Proof.
  induction l1 as [|x l1 IH]; cbn; [by repeat constructor|]. intros H. inversion H as [|?? Hl Hx]; subst.
  destruct (IH Hl) as (? & ? & ?). apply Forall_app in Hx as [Hx1 Hx2]. by repeat constructor.
Qed.

Lemma earliest_spec l :
  match earliest l with
  | None => l = []
  | Some e => (∃ p, p ∈ l ∧ releaseAt p = e) ∧ ∀ p, p ∈ l → e <= releaseAt p
  end.
Proof.
  unfold earliest. induction l as [|x l IH] using rev_ind; [done|]. rewrite foldl_app. cbn.
  destruct (foldl _ None l) as [m|].
  - destruct IH as [(p & Hp & Hpm) Hmin]. split.
    + destruct (Qmin_case m (releaseAt x)) as [-> | ->].
      * exists p. rewrite elem_of_app. auto.
      * exists x. by rewrite elem_of_app, list_elem_of_singleton; auto.
    + intros q [Hq|Hq%list_elem_of_singleton]%elem_of_app; [|subst q; apply Qmin_r].
      specialize (Hmin q Hq). pose proof (Qmin_l m (releaseAt x)). lra.
  - subst l. split; [by exists x; split; [left|]|]. intros q Hq%list_elem_of_singleton. subst q. lra.
Qed.

(** ** The invariant *)

Record buffer_ok (b : ReorderBuffer) : Prop := {
  pending_sorted : sorted_ms (pending b);
  pending_seen : Forall (λ p, through (maxSeenKernelMs b) (p_ms p) = true) (pending b);
  pending_above : Forall (λ p, through (releasePoint b) (p_ms p) = false) (pending b);
  (** The flush is armed for the earliest deadline, and for nothing else. *)
  flush_armed : match flush b, earliest (pending b) with
                | Some (at_, _), Some e => at_ == e
                | None, None => True
                | _, _ => False
                end;
}.

Lemma scheduleFlush_spec now b :
  (pending (scheduleFlush now b) = pending b) ∧ (maxSeenKernelMs (scheduleFlush now b) = maxSeenKernelMs b) ∧
  (releasePoint (scheduleFlush now b) = releasePoint b) ∧
  match flush (scheduleFlush now b), earliest (pending b) with
  | Some (at_, due), Some e => at_ == e ∧ (flush b = Some (at_, due) ∨ due == Qmax at_ now)
  | None, None => True
  | _, _ => False
  end.
Proof.
  unfold scheduleFlush. destruct (earliest (pending b)) as [e|] eqn:E; [|done].
  assert (now + Qmax 0 (e - now) == Qmax e now) as Hdue.
  { unfold Qmax. destruct (Qle_bool 0 (e - now)) eqn:E1, (Qle_bool e now) eqn:E2;
      (apply Qle_bool_iff in E1 || apply Qle_bool_false in E1); (apply Qle_bool_iff in E2 || apply Qle_bool_false in E2); lra. }
  destruct (flush b) as [[at_ due]|] eqn:F; cbn.
  - destruct (Qeq_bool at_ e) eqn:G; cbn; [|split_and!; try done; by right].
    apply Qeq_bool_iff in G. rewrite F. split_and!; try done. by left.
  - split_and!; try done; by right.
Qed.

Lemma scheduleFlush_ok now b :
  sorted_ms (pending b) → Forall (λ p, through (maxSeenKernelMs b) (p_ms p) = true) (pending b) →
  Forall (λ p, through (releasePoint b) (p_ms p) = false) (pending b) → buffer_ok (scheduleFlush now b).
Proof.
  destruct (scheduleFlush_spec now b) as (Hp & Hm & Hr & Hf). intros. split; rewrite ?Hp, ?Hm, ?Hr; try done.
  destruct (flush _) as [[??]|], (earliest (pending b)); try done. by destruct Hf.
Qed.

(** ** Events *)

Inductive BufferEvent :=
| Push (node line : string) (arrivedAt : Z) (now then_ : Q)
| Fire (now then_ : Q)
| DropNode (node : string) (then_ : Q)
| Drain
| Clear.

Section Run.
Context (windowMs : Q).

Definition step (e : BufferEvent) (b : ReorderBuffer) : list KernelTimedLine * ReorderBuffer :=
  match e with
  | Push node line at_ now then_ => push windowMs node line at_ now then_ b
  | Fire now then_ => fireFlush now then_ b
  | DropNode node then_ => ([], dropNode node then_ b)
  | Drain => drain b
  | Clear => ([], clear b)
  end.
Fixpoint run (es : list BufferEvent) (b : ReorderBuffer) : list KernelTimedLine * ReorderBuffer :=
  match es with
  | [] => ([], b)
  | e :: es =>
      let '(out, b) := step e b in
      let '(outs, b) := run es b in
      (out ++ outs, b)
  end.

Lemma run_app es1 es2 b :
  run (es1 ++ es2) b = ((run es1 b).1 ++ (run es2 (run es1 b).2).1, (run es2 (run es1 b).2).2).
Proof.
  revert b. induction es1 as [|e es1 IH]; intros b; cbn; [by destruct (run es2 b)|].
  destruct (step e b) as [out b1]. rewrite IH. destruct (run es1 b1) as [o1 b2]. cbn.
  by rewrite app_assoc.
Qed.

(** The release of a bounded prefix, and the state it leaves. *)
Lemma releaseThrough_spec bound b :
  sorted_ms (pending b) →
  ∃ a rest, releaseThrough bound b = (timed <$> a, mkBuffer rest (maxSeenKernelMs b) bound (flush b)) ∧
    released_from bound (pending b) a rest ∧ sorted_ms a ∧ sorted_ms rest.
Proof.
  intros Hs. unfold releaseThrough. destruct (releaseLoop_spec bound _ Hs) as (a & rest & -> & Hr).
  exists a, rest. split; [done|]. split; [done|]. destruct Hr as (Heq & _). rewrite Heq in Hs.
  by apply sorted_app_inv in Hs as (? & ? & _).
Qed.

(** A push releases a prefix of the queue with the new line put in its place. *)
Lemma pushLine_spec node line at_ now then_ b ms :
  buffer_ok b → stamp_of line = Some ms →
  let entry := mkPending node ms line at_ (now + windowMs) in
  let bound := ext_max (releasePoint b) ((λ m, m - windowMs) <$> ext_max (maxSeenKernelMs b) (Some ms)) in
  ∃ a rest b', push windowMs node line at_ now then_ b = (timed <$> a, b') ∧
    released_from bound (insertLine entry (pending b)) a rest ∧ sorted_ms a ∧ sorted_ms rest ∧
    pending b' = rest ∧ releasePoint b' = bound ∧ maxSeenKernelMs b' = ext_max (maxSeenKernelMs b) (Some ms) ∧
    buffer_ok b' ∧
    (∀ at_ due, flush b' = Some (at_, due) → flush b = Some (at_, due) ∨ due == Qmax at_ then_).
Proof.
  intros Hok Hms entry bound. unfold push. rewrite Hms. cbn -[releaseThrough].
  rewrite stableSort_push by apply Hok. fold entry. fold bound.
  set (b1 := mkBuffer _ _ _ _).
  destruct (releaseThrough_spec bound b1) as (a & rest & -> & Hr & Ha & Hrest); [by apply insertLine_sorted, Hok|].
  set (b2 := mkBuffer rest _ _ _). destruct (scheduleFlush_spec then_ b2) as (Hp & Hm & Hb & Hf).
  exists a, rest, (scheduleFlush then_ b2). split_and!; try done.
  - destruct Hr as (Heq & _ & ?). apply scheduleFlush_ok; [done| |done].
    assert (Forall (λ p, through (maxSeenKernelMs b2) (p_ms p) = true) (insertLine entry (pending b))) as Hall.
    { rewrite Forall_forall. intros p Hp'. cbn. rewrite through_ext_max.
      rewrite (elem_of_Permutation_proper p _ _ (insertLine_perm _ _)) in Hp'.
      apply elem_of_cons in Hp' as [->|Hp'].
      - apply orb_true_iff. right. apply through_Some. cbn. lra.
      - pose proof (pending_seen _ Hok) as Hseen. rewrite Forall_forall in Hseen. by rewrite (Hseen p Hp'). }
    change (pending b1) with (insertLine entry (pending b)) in Heq. rewrite Heq in Hall.
    by apply Forall_app in Hall as [_ ?].
  - intros f due Hfl. rewrite Hfl in Hf. destruct (earliest (pending b2)); [|done]. by destruct Hf.
Qed.

(** The bound of a flush: the release point and the stamps of the expired lines. *)
Definition flush_bound (now : Q) (b : ReorderBuffer) : option Q :=
  foldl (λ t p, if Qle_bool (releaseAt p) now then ext_max t (Some (p_ms p)) else t) (releasePoint b) (pending b).

Lemma flush_bound_through now b x :
  through (flush_bound now b) x = true ↔
  through (releasePoint b) x = true ∨ ∃ p, p ∈ pending b ∧ releaseAt p <= now ∧ x <= p_ms p.
Proof.
  unfold flush_bound. generalize (releasePoint b) as t. induction (pending b) as [|p l IH]; intros t; cbn.
  - split; [by left|]. intros [?|(? & []%elem_of_nil & _)]; done.
  - rewrite IH. destruct (Qle_bool (releaseAt p) now) eqn:E.
    + apply Qle_bool_iff in E. rewrite through_ext_max, orb_true_iff, through_Some. setoid_rewrite elem_of_cons.
      naive_solver.
    + apply Qle_bool_false in E. setoid_rewrite elem_of_cons. split.
      * naive_solver.
      * intros [?|(q & [->|?] & ? & ?)]; [by left|lra|]. right. by exists q.
Qed.

Lemma fireFlush_spec now then_ b :
  buffer_ok b →
  ∃ a rest b', fireFlush now then_ b = (timed <$> a, b') ∧
    released_from (flush_bound now b) (pending b) a rest ∧ sorted_ms a ∧ sorted_ms rest ∧
    pending b' = rest ∧ releasePoint b' = flush_bound now b ∧ maxSeenKernelMs b' = maxSeenKernelMs b ∧
    buffer_ok b' ∧ (∀ at_ due, flush b' = Some (at_, due) → due == Qmax at_ then_).
Proof.
  intros Hok. unfold fireFlush. cbn -[releaseThrough]. fold (flush_bound now b).
  set (b1 := mkBuffer _ _ _ _).
  destruct (releaseThrough_spec (flush_bound now b) b1) as (a & rest & -> & Hr & Ha & Hrest); [apply Hok|].
  set (b2 := mkBuffer rest _ _ _). destruct (scheduleFlush_spec then_ b2) as (Hp & Hm & Hb & Hf).
  exists a, rest, (scheduleFlush then_ b2). split_and!; try done.
  - destruct Hr as (Heq & _ & ?). apply scheduleFlush_ok; [done| |done].
    pose proof (pending_seen _ Hok) as Hall. assert (pending b = a ++ rest) as Heq' by exact Heq. rewrite Heq' in Hall.
    by apply Forall_app in Hall as [_ ?].
  - intros f due Hfl. rewrite Hfl in Hf. destruct (earliest (pending b2)); [|done]. by destruct Hf as [_ [?|?]].
Qed.

Lemma Forall_filter_pending (P : PendingLine → Prop) (Q : PendingLine → Prop) `{∀ p, Decision (Q p)} l :
  Forall P l → Forall P (filter Q l).
Proof. rewrite !Forall_forall. intros HP p [_ Hp]%list_elem_of_filter. auto. Qed.
Lemma sorted_filter (Q : PendingLine → Prop) `{∀ p, Decision (Q p)} l : sorted_ms l → sorted_ms (filter Q l).
Proof.
  induction 1 as [|x l Hl IH Hx]; [constructor|]. rewrite filter_cons. case_decide; [|done].
  constructor; [done|]. by apply Forall_filter_pending.
Qed.

Lemma dropNode_ok node then_ b : buffer_ok b → buffer_ok (dropNode node then_ b).
Proof. intros [Hs Hm Ha _]. apply scheduleFlush_ok; cbn; [by apply sorted_filter|by apply Forall_filter_pending..]. Qed.

Lemma emptyBuffer_ok : buffer_ok emptyBuffer.
Proof. by repeat constructor. Qed.

(** Draining releases every queued line. *)
Lemma drain_spec b :
  buffer_ok b → drain b = (timed <$> pending b, mkBuffer [] (maxSeenKernelMs b) (maxSeenKernelMs b) None).
Proof.
  intros Hok. unfold drain. set (b1 := mkBuffer _ _ _ _).
  destruct (releaseThrough_spec (maxSeenKernelMs b1) b1) as (a & rest & -> & (Heq & _ & Hr) & _ & Hs); [apply Hok|].
  cbn in *. pose proof (pending_seen _ Hok) as Hall. destruct rest as [|x rest].
  - by rewrite app_nil_r in Heq; subst a.
  - rewrite Heq in Hall. apply Forall_app in Hall as [_ Hall]. inversion Hall; inversion Hr; congruence.
Qed.

Lemma step_ok e b : buffer_ok b → buffer_ok (step e b).2.
Proof.
  intros Hok. destruct e as [node line at_ now then_|now then_|node then_| |]; cbn.
  - destruct (stamp_of line) as [ms|] eqn:E.
    + destruct (pushLine_spec node line at_ now then_ b ms Hok E) as (a & rest & b' & -> & H). by destruct_and! H.
    + unfold push. by rewrite E.
  - destruct (fireFlush_spec now then_ b Hok) as (a & rest & b' & -> & H). by destruct_and! H.
  - by apply dropNode_ok.
  - rewrite drain_spec by done. by repeat constructor.
  - apply emptyBuffer_ok.
Qed.
Lemma run_ok es b : buffer_ok b → buffer_ok (run es b).2.
Proof.
  revert b. induction es as [|e es IH]; intros b Hok; [done|]. cbn.
  pose proof (step_ok e b Hok). destruct (step e b) as [out b1]. specialize (IH b1).
  destruct (run es b1). auto.
Qed.

(** ** Nothing is lost *)

(** The lines pushed, as [onLine] will be given them. *)
Definition pushed (e : BufferEvent) : list KernelTimedLine :=
  match e with Push node line at_ _ _ => [mkTimed node (stamp_of line) line at_] | _ => [] end.
(** The queued lines an event discards. *)
Definition discarded (e : BufferEvent) (b : ReorderBuffer) : list PendingLine :=
  match e with
  | DropNode node _ => filter (λ p, p_node p = node) (pending b)
  | Clear => pending b
  | _ => []
  end.
Fixpoint discarded_in (es : list BufferEvent) (b : ReorderBuffer) : list PendingLine :=
  match es with [] => [] | e :: es => discarded e b ++ discarded_in es (step e b).2 end.

Lemma filter_split_perm {A} (P : A → Prop) `{∀ x, Decision (P x)} (l : list A) :
  Permutation l (filter P l ++ filter (λ x, ¬ P x) l).
Proof.
  induction l as [|x l IH]; [done|]. rewrite !filter_cons. destruct (decide (P x)), (decide (¬ P x)); try done.
  - cbn. by rewrite <- IH.
  - by rewrite <- Permutation_middle, <- IH.
Qed.

Lemma step_conserves e b :
  buffer_ok b →
  Permutation ((timed <$> pending b) ++ pushed e)
    ((step e b).1 ++ (timed <$> pending (step e b).2) ++ (timed <$> discarded e b)).
Proof.
  intros Hok. destruct e as [node line at_ now then_|now then_|node then_| |]; cbn.
  - rewrite app_nil_r. destruct (stamp_of line) as [ms|] eqn:E.
    + destruct (pushLine_spec node line at_ now then_ b ms Hok E) as (a & rest & b' & -> & (Heq & _) & _ & _ & Hp & _).
      cbn. rewrite Hp, <- fmap_app, <- Heq, insertLine_perm. cbn. by rewrite Permutation_app_comm.
    + unfold push. rewrite E. cbn. by rewrite Permutation_app_comm.
  - rewrite !app_nil_r. destruct (fireFlush_spec now then_ b Hok) as (a & rest & b' & -> & (Heq & _) & _ & _ & Hp & _).
    cbn. by rewrite Hp, <- fmap_app, <- Heq.
  - rewrite app_nil_r, <- fmap_app. apply fmap_Permutation.
    destruct (scheduleFlush_spec then_ (mkBuffer (filter (λ p, p_node p ≠ node) (pending b)) (maxSeenKernelMs b)
      (releasePoint b) (flush b))) as (Hp & _). unfold dropNode. rewrite Hp. cbn.
    rewrite Permutation_app_comm. apply filter_split_perm.
  - rewrite drain_spec by done. cbn. by rewrite !app_nil_r.
  - by rewrite app_nil_r.
Qed.

Lemma run_conserves es b :
  buffer_ok b →
  Permutation ((timed <$> pending b) ++ (es ≫= pushed))
    ((run es b).1 ++ (timed <$> pending (run es b).2) ++ (timed <$> discarded_in es b)).
Proof.
  revert b. induction es as [|e es IH]; intros b Hok; [done|].
  change ((e :: es) ≫= pushed) with (pushed e ++ (es ≫= pushed)). cbn [run discarded_in].
  rewrite app_assoc, (step_conserves e b Hok). pose proof (step_ok e b Hok) as Hok1.
  destruct (step e b) as [out b1]. cbn [fst snd] in *. specialize (IH b1 Hok1).
  destruct (run es b1) as [outs b2]. cbn [fst snd] in *. rewrite fmap_app, <- !app_assoc. apply Permutation_app_head.
  rewrite (Permutation_app_comm (timed <$> discarded e b)), app_assoc, IH, <- !app_assoc.
  do 2 apply Permutation_app_head. apply Permutation_app_comm.
Qed.

(** ** Deadlines *)

(** Readings of one clock, the last of which was [clock]: each event reads at or
    after the previous one. *)
Definition reads (clock : Q) (e : BufferEvent) : Prop :=
  match e with
  | Push _ _ _ now then_ | Fire now then_ => clock <= now ∧ now <= then_
  | DropNode _ then_ => clock <= then_
  | Drain | Clear => True
  end.
Definition clock_after (clock : Q) (e : BufferEvent) : Q :=
  match e with
  | Push _ _ _ _ then_ | Fire _ then_ | DropNode _ then_ => then_
  | Drain | Clear => clock
  end.
Fixpoint clocked (clock : Q) (es : list BufferEvent) : Prop :=
  match es with [] => True | e :: es => reads clock e ∧ clocked (clock_after clock e) es end.
Definition clock_end (clock : Q) (es : list BufferEvent) : Q := foldl clock_after clock es.

(** The armed timer is due at the earliest deadline, or has been due since then. *)
Definition timely (clock : Q) (b : ReorderBuffer) : Prop :=
  ∀ at_ due, flush b = Some (at_, due) → at_ <= due ∧ (due <= at_ ∨ due <= clock).

Lemma Qmax_timely at_ now : at_ <= Qmax at_ now ∧ (Qmax at_ now <= at_ ∨ Qmax at_ now <= now).
Proof. split; [apply Qmax_l|]. destruct (Qmax_case at_ now) as [-> | ->]; [left|right]; lra. Qed.

Lemma step_timely e b clock :
  buffer_ok b → reads clock e → timely clock b → timely (clock_after clock e) (step e b).2.
Proof.
  intros Hok Hr Ht at_ due Hf.
  assert (∀ now, clock <= now → flush b = Some (at_, due) ∨ due == Qmax at_ now →
    at_ <= due ∧ (due <= at_ ∨ due <= now)) as Hcase.
  { intros now Hn [Hfl|Heq].
    - destruct (Ht _ _ Hfl) as [? [?|?]]; (split; [lra|]); [left|right]; lra.
    - destruct (Qmax_timely at_ now) as [? [?|?]]; (split; [lra|]); [left|right]; lra. }
  destruct e as [node line arr now then_|now then_|node then_| |]; cbn in *.
  - destruct (stamp_of line) as [ms|] eqn:E.
    + destruct (pushLine_spec node line arr now then_ b ms Hok E) as (a & rest & b' & Heq & H). rewrite Heq in Hf.
      destruct_and! H. apply Hcase; [lra|auto].
    + unfold push in Hf. rewrite E in Hf. cbn in Hf. apply Hcase; [lra|auto].
  - destruct (fireFlush_spec now then_ b Hok) as (a & rest & b' & Heq & H). rewrite Heq in Hf.
    destruct_and! H. apply Hcase; [lra|auto].
  - unfold dropNode in Hf. set (b1 := mkBuffer _ _ _ _) in Hf.
    destruct (scheduleFlush_spec then_ b1) as (_ & _ & _ & Hs). rewrite Hf in Hs.
    destruct (earliest (pending b1)); [|done]. destruct Hs as [_ Hs]. by apply Hcase.
  - rewrite drain_spec in Hf by done. done.
  - done.
Qed.
Lemma run_timely es b clock :
  buffer_ok b → clocked clock es → timely clock b → timely (clock_end clock es) (run es b).2.
Proof.
  unfold clock_end. revert b clock. induction es as [|e es IH]; intros b clock Hok Hc Ht; [done|]. cbn in *.
  destruct Hc as [Hr Hc]. pose proof (step_ok e b Hok) as Hok1. pose proof (step_timely e b clock Hok Hr Ht) as Ht1.
  destruct (step e b) as [out b1]. specialize (IH b1 _ Hok1 Hc Ht1). by destruct (run es b1).
Qed.

(** ** Kernel order *)

(** The stamps of an output, in order. *)
Definition stamps (out : list KernelTimedLine) : list Q := omap kernelMs out.

(** Deliveries: a line stamped [s] is pushed between [D] and [D + windowMs] later. *)
Definition delivered_within (D : Q) (e : BufferEvent) : Prop :=
  match e with
  | Push _ line _ now _ => ∀ s, stamp_of line = Some s → s + D <= now ∧ now <= s + D + windowMs
  | Fire _ _ | DropNode _ _ => True
  | Drain | Clear => False
  end.

Record ordered (D clock : Q) (b : ReorderBuffer) (out : list Q) : Prop := {
  ord_ok : buffer_ok b;
  ord_out : StronglySorted Qle out;
  ord_through : Forall (λ s, through (releasePoint b) s = true) out;
  ord_release : ∀ p, releasePoint b = Some p → p + D + windowMs <= clock;
  ord_seen : ∀ m, maxSeenKernelMs b = Some m → m + D <= clock;
  ord_deadline : Forall (λ p, p_ms p + D + windowMs <= releaseAt p) (pending b);
}.

(** Appending a released prefix to an output below the old release point. *)
Lemma stamps_timed a : stamps (timed <$> a) = p_ms <$> a.
Proof. unfold stamps. induction a as [|x a IH]; [done|]. cbn. by f_equal. Qed.
Lemma sorted_ms_stamps a : sorted_ms a → StronglySorted Qle (p_ms <$> a).
Proof.
  induction 1 as [|x a Ha IH Hx]; [constructor|]. rewrite fmap_cons. constructor; [done|].
  apply Forall_fmap. eapply Forall_impl; [exact Hx|]. done.
Qed.
Lemma StronglySorted_app_Qle l1 l2 :
  StronglySorted Qle l1 → StronglySorted Qle l2 → (∀ x y, x ∈ l1 → y ∈ l2 → x <= y) → StronglySorted Qle (l1 ++ l2).
Proof.
  induction 1 as [|x l1 Hl IH Hx]; cbn; [done|]. intros H2 Hc. constructor.
  - apply IH; [done|]. intros y z Hy Hz. apply Hc; [by right|done].
  - apply Forall_app. split; [done|]. apply Forall_forall. intros y Hy. apply Hc; [by left|done].
Qed.

Lemma ordered_release D clock clock' b b' out bound a :
  ordered D clock b out → buffer_ok b' →
  (∀ x, x ∈ a → ∀ s, s ∈ out → s <= p_ms x) →
  sorted_ms a → Forall (λ p, through bound (p_ms p) = true) a →
  (∀ s, through (releasePoint b) s = true → through bound s = true) →
  releasePoint b' = bound → (∀ p, bound = Some p → p + D + windowMs <= clock') →
  (∀ m, maxSeenKernelMs b' = Some m → m + D <= clock') →
  Forall (λ p, p_ms p + D + windowMs <= releaseAt p) (pending b') →
  ordered D clock' b' (out ++ (p_ms <$> a)).
Proof.
  intros [] Hok Hge Ha Hbound Hmono Hr Hrel Hseen Hdead. split; rewrite ?Hr; try done.
  - apply StronglySorted_app_Qle; [done|by apply sorted_ms_stamps|].
    intros s y Hs Hy. apply list_elem_of_fmap in Hy as (x & -> & Hx). by apply Hge.
  - apply Forall_app. split; [|by apply Forall_fmap]. eapply Forall_impl; [exact ord_through0|]. auto.
Qed.

Lemma step_ordered D clock e b out :
  0 <= windowMs → ordered D clock b out → reads clock e → delivered_within D e →
  ordered D (clock_after clock e) (step e b).2 (out ++ stamps (step e b).1).
Proof.
  intros Hw Hord Hr Hd. destruct (Hord) as [Hok Hout Hthr Hrel Hseen Hdead].
  destruct e as [node line arr now then_|now then_|node then_| |]; cbn in *; [| | |done|done].
  - destruct (stamp_of line) as [ms|] eqn:E.
    2:{ unfold push. rewrite E. cbn. rewrite app_nil_r. split; try done; [intros p Hp|intros m Hm].
        - specialize (Hrel p Hp). lra.
        - specialize (Hseen m Hm). lra. }
    destruct (Hd ms eq_refl) as [Hd1 Hd2].
    destruct (pushLine_spec node line arr now then_ b ms Hok E) as
      (a & rest & b' & Heq & (Hsplit & Hthru & _) & Ha & _ & Hp & Hrp & Hmx & Hok' & _).
    rewrite Heq. cbn [fst snd]. rewrite stamps_timed.
    set (entry := mkPending node ms line arr (now + windowMs)) in *.
    assert (∀ m, ext_max (maxSeenKernelMs b) (Some ms) = Some m → m + D <= then_) as Hmx'.
    { intros m. destruct (maxSeenKernelMs b) as [m0|] eqn:Em; cbn; intros [= <-]; [|lra].
      specialize (Hseen m0 eq_refl). destruct (Qmax_case m0 ms) as [-> | ->]; lra. }
    assert (Forall (λ p, p_ms p + D + windowMs <= releaseAt p) (insertLine entry (pending b))) as Hdead'.
    { rewrite Forall_forall in *. intros p Hin. rewrite (elem_of_Permutation_proper p _ _ (insertLine_perm _ _)) in Hin.
      apply elem_of_cons in Hin as [->|Hin]; [cbn; lra|by apply Hdead]. }
    eapply (ordered_release D clock); try done.
    + intros x Hx s Hs. rewrite Forall_forall in Hthr. specialize (Hthr s Hs).
      assert (x ∈ insertLine entry (pending b)) as Hin by (rewrite Hsplit; apply elem_of_app; by left).
      rewrite (elem_of_Permutation_proper x _ _ (insertLine_perm _ _)) in Hin.
      destruct (releasePoint b) as [p|] eqn:Ep; [|done]. apply through_Some in Hthr.
      specialize (Hrel p eq_refl). apply elem_of_cons in Hin as [->|Hin]; [cbn; lra|].
      pose proof (pending_above _ Hok) as Habove. rewrite Forall_forall, Ep in Habove. specialize (Habove x Hin).
      apply Qle_bool_false in Habove. lra.
    + intros s Hs. by rewrite through_ext_max, Hs.
    + intros p. destruct (ext_max (maxSeenKernelMs b) (Some ms)) as [m|] eqn:Em; cbn.
      2:{ by destruct (maxSeenKernelMs b). }
      specialize (Hmx' m eq_refl). destruct (releasePoint b) as [p0|] eqn:Ep; cbn; intros [= <-]; [|lra].
      specialize (Hrel p0 eq_refl). destruct (Qmax_case p0 (m - windowMs)) as [-> | ->]; lra.
    + by rewrite Hmx.
    + rewrite Hp. rewrite Hsplit in Hdead'. by apply Forall_app in Hdead' as [_ ?].
  - destruct (fireFlush_spec now then_ b Hok) as
      (a & rest & b' & Heq & (Hsplit & Hthru & _) & Ha & _ & Hp & Hrp & Hmx & Hok' & _).
    rewrite Heq. cbn [fst snd]. rewrite stamps_timed.
    eapply (ordered_release D clock); try done.
    + intros x Hx s Hs. rewrite Forall_forall in Hthr. specialize (Hthr s Hs).
      assert (x ∈ pending b) as Hin by (rewrite Hsplit; apply elem_of_app; by left).
      pose proof (pending_above _ Hok) as Habove. rewrite Forall_forall in Habove. specialize (Habove x Hin).
      destruct (releasePoint b) as [p|]; [|done]. apply through_Some in Hthr. apply Qle_bool_false in Habove. lra.
    + intros s Hs. apply flush_bound_through. by left.
    + intros p Hb. assert (through (flush_bound now b) p = true) as Hpt by (rewrite Hb; apply through_Some; lra).
      apply flush_bound_through in Hpt as [Hpt|(q & Hq & Hnow & Hpq)].
      * destruct (releasePoint b) as [p0|]; [|done]. apply through_Some in Hpt. specialize (Hrel p0 eq_refl). lra.
      * rewrite Forall_forall in Hdead. specialize (Hdead q Hq). lra.
    + rewrite Hmx. intros m Hm. specialize (Hseen m Hm). lra.
    + rewrite Hp. rewrite Hsplit in Hdead. by apply Forall_app in Hdead as [_ ?].
  - rewrite app_nil_r. destruct (scheduleFlush_spec then_ (mkBuffer (filter (λ p, p_node p ≠ node) (pending b))
      (maxSeenKernelMs b) (releasePoint b) (flush b))) as (Hp & Hm & Hb & _). fold (dropNode node then_ b) in *.
    cbn in Hp, Hm, Hb. split; rewrite ?Hp, ?Hm, ?Hb; try done.
    + by apply dropNode_ok.
    + intros p Hp'. specialize (Hrel p Hp'). lra.
    + intros m Hm'. specialize (Hseen m Hm'). lra.
    + by apply Forall_filter_pending.
Qed.

Lemma run_ordered D clock es b out :
  0 <= windowMs → ordered D clock b out → clocked clock es → Forall (delivered_within D) es →
  ordered D (clock_end clock es) (run es b).2 (out ++ stamps (run es b).1).
Proof.
  intros Hw. unfold clock_end. revert clock b out. induction es as [|e es IH]; intros clock b out Ho Hc Hd.
  { cbn. by rewrite app_nil_r. }
  destruct Hc as [Hr Hc]. apply Forall_cons in Hd as [Hd Hds].
  pose proof (step_ordered D clock e b out Hw Ho Hr Hd) as H1. cbn [run foldl].
  destruct (step e b) as [o b1]. cbn [fst snd] in H1. specialize (IH _ _ _ H1 Hc Hds).
  destruct (run es b1) as [os b2]. cbn [fst snd] in *. unfold stamps in *. by rewrite omap_app, app_assoc.
Qed.
End Run.
