(* ===== verification/KernelProperties.v ===== *)
(** * What the kernel-time merge guarantees

    The theorems about [KernelMerge]: order, conservation and deadlines of the
    reorder buffer, and its composition with the reconstructors of [TouchFrames]:
    merging changes nothing of what a node's reconstructor recognises. *)
From Stdlib Require Import QArith Lqa Sorted Permutation Ascii.
From S2P Require Import Prelude JsString JsMap GetEventLine PenHover TouchFrames KernelMerge KernelOrder.
Local Open Scope Q_scope.

(** ** The stream of one node *)

Inductive MergeEvent :=
| Register (node : string) (then_ : Q)
| Unregister (node : string) (registered : nat) (then_ : Q)
| PushLine (node line : string) (arrivedAt : Z) (now then_ : Q)
| FireMerge (now then_ : Q).

Section Node.
Context (windowMs : Q).

Definition merge_step (e : MergeEvent) (m : LineMerge) : list Delivery * LineMerge :=
  match e with
  | Register node then_ => ([], (register node then_ m).2)
  | Unregister node registered then_ => ([], unregister node registered then_ m)
  | PushLine node line at_ now then_ => pushLine windowMs node line at_ now then_ m
  | FireMerge now then_ => fireMerge now then_ m
  end.
Fixpoint merge_run (es : list MergeEvent) (m : LineMerge) : list Delivery * LineMerge :=
  match es with
  | [] => ([], m)
  | e :: es =>
      let '(ds, m) := merge_step e m in
      let '(ds', m) := merge_run es m in
      (ds ++ ds', m)
  end.

(** What handler [h] is called with, and what is pushed for node [k]. *)
Definition received (h : nat) (ds : list Delivery) : list (string * Z) :=
  (λ d, (delivered_line d, delivered_at d)) <$> filter (λ d, registration d = h) ds.
Definition pushed_to (k : string) (e : MergeEvent) : list (string * Z) :=
  match e with
  | PushLine node line at_ _ _ => if decide (node = k) then [(line, at_)] else []
  | _ => []
  end.
(** The event leaves the registration of [k] alone. *)
Definition spares (k : string) (e : MergeEvent) : Prop :=
  match e with Register node _ | Unregister node _ _ => node ≠ k | _ => True end.

Definition stamped (l : string * Z) : Prop := is_Some (stamp_of l.1).
#[export] Instance stamped_dec l : Decision (stamped l).
Proof. unfold stamped. apply _. Defined.
Definition stamps_of (ls : list (string * Z)) : list Q := omap (λ l, stamp_of l.1) ls.
(** The queued lines of node [k]. *)
Definition queued (k : string) (b : ReorderBuffer) : list (string * Z) :=
  (λ p, (p_text p, p_arrivedAt p)) <$> filter (λ p, p_node p = k) (pending b).

(** Handler [h] is registered for [k] and for no other node. *)
Record holds_node (k : string) (h : nat) (m : LineMerge) : Prop := {
  node_handler : jget k (handlers m) = Some h;
  node_unique : ∀ k', jget k' (handlers m) = Some h → k' = k;
  node_old : ∀ k' h', jget k' (handlers m) = Some h' → (h' < nextRegistration m)%nat;
}.

Record node_inv (k : string) (h : nat) (m : LineMerge) (P R : list (string * Z)) : Prop := {
  ni_ok : buffer_ok (buffer m);
  ni_node : holds_node k h m;
  ni_stamp : Forall (λ p, stamp_of (p_text p) = Some (p_ms p)) (pending (buffer m));
  ni_split : filter stamped P = filter stamped R ++ queued k (buffer m);
}.

Lemma received_deliver k h m out :
  holds_node k h m →
  received h (deliver (handlers m) out) =
  (λ l, (text l, line_arrivedAt l)) <$> filter (λ l, nodeKey l = k) out.
Proof.
  intros [Hk Hu _]. unfold received, deliver.
  set (f := λ l : KernelTimedLine, (λ h, mkDelivery h (text l) (line_arrivedAt l)) <$> jget (nodeKey l) (handlers m)).
  induction out as [|l out IH]; [done|].
  change (omap f (l :: out)) with (match f l with Some d => d :: omap f out | None => omap f out end).
  rewrite (filter_cons (λ l, nodeKey l = k)). unfold f at 1. destruct (decide (nodeKey l = k)) as [Hl|Hl].
  - rewrite Hl, Hk. simpl. rewrite filter_cons_True by done. rewrite !fmap_cons. by f_equal.
  - destruct (jget (nodeKey l) (handlers m)) as [h'|] eqn:E; simpl; [|done].
    rewrite filter_cons_False; [done|]. simpl. intros ->. by apply Hl, Hu.
Qed.

Lemma filter_insertLine_other k x l :
  p_node x ≠ k → filter (λ p, p_node p = k) (insertLine x l) = filter (λ p, p_node p = k) l.
Proof.
  intros Hx. induction l as [|y l IH]; cbn [insertLine]; [by rewrite filter_cons_False|].
  destruct (Qle_bool _ _); [by rewrite !filter_cons, IH|]. by rewrite filter_cons_False.
Qed.
Lemma filter_insertLine_same k x l :
  p_node x = k → sorted_ms l → (∀ p, p ∈ l → p_node p = k → p_ms p <= p_ms x) →
  filter (λ p, p_node p = k) (insertLine x l) = filter (λ p, p_node p = k) l ++ [x].
Proof.
  intros Hx. induction 1 as [|y l Hl IH Hy]; intros Hle; cbn [insertLine]; [by rewrite filter_cons_True|].
  destruct (Qle_bool (p_ms y) (p_ms x)) eqn:E.
  - rewrite !filter_cons, IH; [by case_decide|]. intros p Hp. apply Hle. by right.
  - apply Qle_bool_false in E. assert (filter (λ p, p_node p = k) (y :: l) = []) as Hnil.
    { apply elem_of_nil_inv. intros p [Hp Hin]%list_elem_of_filter. specialize (Hle p Hin Hp).
      apply elem_of_cons in Hin as [->|Hin]; [lra|]. rewrite Forall_forall in Hy. specialize (Hy p Hin).
      unfold ms_le in Hy. lra. }
    rewrite filter_cons_True by done. by rewrite Hnil.
Qed.

(** The buffer after a release of a prefix of [l]. *)
Lemma queued_released k bound l a rest :
  released_from bound l a rest →
  (λ p, (p_text p, p_arrivedAt p)) <$> filter (λ p, p_node p = k) l =
  ((λ l, (text l, line_arrivedAt l)) <$> filter (λ l, nodeKey l = k) (timed <$> a)) ++
  ((λ p, (p_text p, p_arrivedAt p)) <$> filter (λ p, p_node p = k) rest).
Proof.
  intros (-> & _). rewrite filter_app, fmap_app. f_equal. induction a as [|x a IH]; [done|].
  rewrite fmap_cons, !filter_cons. cbn [timed nodeKey]. case_decide; [|done]. rewrite !fmap_cons. cbn [app]. by f_equal.
Qed.

Lemma dropNode_pending node then_ b :
  pending (dropNode node then_ b) = filter (λ p, p_node p ≠ node) (pending b).
Proof.
  unfold dropNode. by destruct (scheduleFlush_spec then_ (mkBuffer (filter (λ p, p_node p ≠ node) (pending b))
    (maxSeenKernelMs b) (releasePoint b) (flush b))) as (-> & _).
Qed.
Lemma queued_dropNode k node then_ b : node ≠ k → queued k (dropNode node then_ b) = queued k b.
Proof.
  intros Hne. unfold queued. rewrite dropNode_pending. f_equal. rewrite list_filter_filter.
  apply filter_agree. intros p _. naive_solver.
Qed.
Lemma dropNode_stamps node then_ b :
  Forall (λ p, stamp_of (p_text p) = Some (p_ms p)) (pending b) →
  Forall (λ p, stamp_of (p_text p) = Some (p_ms p)) (pending (dropNode node then_ b)).
Proof. rewrite dropNode_pending. by apply Forall_filter_pending. Qed.

(** A release of [a] out of [l], as node [k] sees it. *)
Lemma node_release k h m m' P P' R l a rest bound :
  node_inv k h m P R → holds_node k h m' → buffer_ok (buffer m') → handlers m' = handlers m →
  Forall (λ p, stamp_of (p_text p) = Some (p_ms p)) l →
  released_from bound l a rest → pending (buffer m') = rest →
  filter stamped P' = filter stamped R ++ ((λ p, (p_text p, p_arrivedAt p)) <$> filter (λ p, p_node p = k) l) →
  node_inv k h m' P' (R ++ received h (deliver (handlers m) (timed <$> a))).
Proof.
  intros Hinv Hnode Hok Hh Hst Hrel Hp HP. pose proof (queued_released k _ _ _ _ Hrel) as Hq.
  destruct Hrel as (-> & _). apply Forall_app in Hst as [Hsa Hsr]. split; [done|done|by rewrite Hp|].
  rewrite HP, Hq, filter_app, <- app_assoc. f_equal. rewrite (received_deliver k) by apply Hinv.
  unfold queued. rewrite Hp. f_equal. clear -Hsa. induction Hsa as [|x a Hx Ha IH]; [done|].
  rewrite fmap_cons, filter_cons. cbn [timed nodeKey]. case_decide; [|done]. rewrite fmap_cons, filter_cons_True.
  - by f_equal.
  - unfold stamped. cbn. rewrite Hx. eauto.
Qed.

Lemma stamps_of_filter ls : stamps_of (filter stamped ls) = stamps_of ls.
Proof.
  unfold stamps_of. induction ls as [|l ls IH]; [done|]. rewrite filter_cons.
  destruct (decide (stamped l)) as [[q Hq]|Hn]; simpl; [by rewrite Hq; f_equal|].
  destruct (stamp_of l.1) as [q|] eqn:E; [|done]. exfalso. apply Hn. by exists q.
Qed.
Lemma sorted_last_Qle l x : StronglySorted Qle (l ++ [x]) → ∀ y, y ∈ l → y <= x.
Proof.
  induction l as [|z l IH]; cbn; intros H y Hy; [by apply elem_of_nil in Hy|].
  inversion H as [|?? Hl Hz]; subst. apply elem_of_cons in Hy as [->|Hy]; [|by apply IH].
  apply Forall_app in Hz as [_ Hz]. by inversion Hz.
Qed.

(** The queued stamps of node [k] are below that of its next line. *)
Lemma queued_below k h m P R line at_ ms :
  node_inv k h m P R → stamp_of line = Some ms → StronglySorted Qle (stamps_of (P ++ [(line, at_)])) →
  ∀ p, p ∈ pending (buffer m) → p_node p = k → p_ms p <= ms.
Proof.
  intros [_ _ Hst Hsplit] Hms Hs p Hp Hk. unfold stamps_of in Hs. rewrite omap_app in Hs. simpl in Hs. rewrite Hms in Hs.
  apply (sorted_last_Qle _ _ Hs). fold (stamps_of P). rewrite <- stamps_of_filter, Hsplit.
  apply list_elem_of_omap. exists (p_text p, p_arrivedAt p). rewrite Forall_forall in Hst. split; [|by apply Hst].
  apply elem_of_app. right. apply list_elem_of_fmap. exists p. split; [done|]. by apply list_elem_of_filter.
Qed.

Lemma register_inv k h m P R node then_ :
  node_inv k h m P R → node ≠ k → node_inv k h (register node then_ m).2 P R.
Proof.
  intros [Hok [Hk Hu Ho] Hst Hsplit] Hne. unfold register. split; cbn.
  - by apply dropNode_ok.
  - split; cbn.
    + by rewrite jget_set, decide_False.
    + intros k'. rewrite jget_set. case_decide; [|apply Hu]. intros [= <-]. specialize (Ho _ _ Hk). lia.
    + intros k' h'. rewrite jget_set. case_decide; [intros [= <-]; lia|]. intros Hg. specialize (Ho _ _ Hg). lia.
  - by apply dropNode_stamps.
  - by rewrite queued_dropNode.
Qed.
Lemma unregister_inv k h m P R node reg then_ :
  node_inv k h m P R → node ≠ k → node_inv k h (unregister node reg then_ m) P R.
Proof.
  intros Hinv Hne. unfold unregister. case_bool_decide; [|done]. destruct Hinv as [Hok [Hk Hu Ho] Hst Hsplit].
  assert (∃ e l, jdel node (handlers m) = e :: l) as (e & l & Hl).
  { destruct (jdel node (handlers m)) eqn:E; [|eauto]. pose proof (jget_del node k (handlers m)) as Hd.
    rewrite E, decide_False, Hk in Hd by done. done. }
  rewrite Hl. rewrite <- Hl. split; cbn.
  - by apply dropNode_ok.
  - split; cbn.
    + by rewrite jget_del, decide_False.
    + intros k'. rewrite jget_del. by case_decide; [|apply Hu].
    + intros k' h'. rewrite jget_del. case_decide; [done|]. apply Ho.
  - by apply dropNode_stamps.
  - by rewrite queued_dropNode.
Qed.

Lemma pushLine_inv k h m P R node line at_ now then_ :
  node_inv k h m P R →
  StronglySorted Qle (stamps_of (P ++ pushed_to k (PushLine node line at_ now then_))) →
  node_inv k h (pushLine windowMs node line at_ now then_ m).2 (P ++ pushed_to k (PushLine node line at_ now then_))
    (R ++ received h (pushLine windowMs node line at_ now then_ m).1).
Proof.
  intros Hinv Hs. pose proof (ni_node _ _ _ _ _ Hinv) as Hnode. cbn [pushed_to] in *. unfold pushLine.
  destruct (jhas node (handlers m)) eqn:Eh.
  2:{ cbn. rewrite app_nil_r. rewrite decide_False, app_nil_r; [done|]. intros ->.
      rewrite jhas_get, (node_handler _ _ _ Hnode) in Eh. done. }
  destruct (stamp_of line) as [ms|] eqn:E.
  - destruct (pushLine_spec windowMs node line at_ now then_ (buffer m) ms (ni_ok _ _ _ _ _ Hinv) E) as
      (a & rest & b' & -> & Hrel & _ & _ & Hp & _ & _ & Hok' & _). cbn [fst snd].
    assert (holds_node k h (mkMerge (handlers m) (nextRegistration m) b')) as Hnode' by (by destruct Hnode).
    eapply (node_release k h m); [exact Hinv|exact Hnode'|done|done| |exact Hrel|done|].
    { rewrite Forall_forall. intros p Hin. rewrite (elem_of_Permutation_proper p _ _ (insertLine_perm _ _)) in Hin.
      apply elem_of_cons in Hin as [->|Hin]; [done|]. pose proof (ni_stamp _ _ _ _ _ Hinv) as Hst.
      rewrite Forall_forall in Hst. by apply Hst. }
    case_decide as Hk.
    + rewrite filter_insertLine_same; [|done|apply (ni_ok _ _ _ _ _ Hinv)|].
      2:{ cbn. by apply (queued_below k h m P R line at_). }
      rewrite filter_app, (ni_split _ _ _ _ _ Hinv), fmap_app. unfold queued. rewrite <- app_assoc. do 2 f_equal.
      rewrite filter_cons_True; [by rewrite filter_nil|]. unfold stamped. cbn. rewrite E. eauto.
    + rewrite filter_insertLine_other by done. by rewrite app_nil_r, (ni_split _ _ _ _ _ Hinv).
  - unfold push. rewrite E. cbn [fst snd]. destruct Hinv as [Hok _ Hst Hsplit].
    rewrite (received_deliver k) by done. split; [done|by destruct Hnode|done|].
    rewrite !filter_app, Hsplit. cbn [nodeKey]. destruct (decide (node = k)) as [Hk|Hk].
    + assert (¬ stamped (line, at_)) as Hn by (unfold stamped; cbn; rewrite E; by intros [??]).
      rewrite (filter_cons_True (λ l, nodeKey l = k)) by done. rewrite filter_nil, fmap_cons.
      rewrite !filter_cons_False by done. by rewrite !filter_nil, !app_nil_r.
    + rewrite (filter_cons_False (λ l, nodeKey l = k)) by done. rewrite filter_nil. cbn. by rewrite !app_nil_r.
Qed.

Lemma fireMerge_inv k h m P R now then_ :
  node_inv k h m P R → node_inv k h (fireMerge now then_ m).2 P (R ++ received h (fireMerge now then_ m).1).
Proof.
  intros Hinv. pose proof (ni_node _ _ _ _ _ Hinv) as Hnode. unfold fireMerge.
  destruct (fireFlush_spec now then_ (buffer m) (ni_ok _ _ _ _ _ Hinv)) as
    (a & rest & b' & -> & Hrel & _ & _ & Hp & _ & _ & Hok' & _). cbn [fst snd].
  assert (holds_node k h (mkMerge (handlers m) (nextRegistration m) b')) as Hnode' by (by destruct Hnode).
  eapply (node_release k h m); [exact Hinv|exact Hnode'|done|done|apply Hinv|exact Hrel|done|apply Hinv].
Qed.

Lemma merge_run_inv k h es m P R :
  node_inv k h m P R → Forall (spares k) es → StronglySorted Qle (stamps_of (P ++ (es ≫= pushed_to k))) →
  node_inv k h (merge_run es m).2 (P ++ (es ≫= pushed_to k)) (R ++ received h (merge_run es m).1).
Proof.
  revert m P R. induction es as [|e es IH]; intros m P R Hinv Hsp Hs.
  { cbn in *. by rewrite !app_nil_r. }
  apply Forall_cons in Hsp as [He Hsp].
  change ((e :: es) ≫= pushed_to k) with (pushed_to k e ++ (es ≫= pushed_to k)) in *. rewrite app_assoc in *.
  assert (StronglySorted Qle (stamps_of (P ++ pushed_to k e))) as Hs1.
  { unfold stamps_of in *. rewrite omap_app in Hs. revert Hs. generalize (omap (λ l : string * Z, stamp_of l.1) (P ++ pushed_to k e)).
    intros l. induction l as [|x l IHl]; cbn; [constructor|]. intros H. inversion H as [|?? Hl Hx]; subst.
    apply Forall_app in Hx as [? _]. constructor; auto. }
  assert (node_inv k h (merge_step e m).2 (P ++ pushed_to k e) (R ++ received h (merge_step e m).1)) as H1.
  { destruct e as [node t|node reg t|node line at_ n t|n t]; cbn [merge_step pushed_to fst snd] in *.
    - rewrite !app_nil_r. by apply register_inv.
    - rewrite !app_nil_r. by apply unregister_inv.
    - by apply pushLine_inv.
    - rewrite app_nil_r. by apply fireMerge_inv. }
  cbn [merge_run]. destruct (merge_step e m) as [ds m1]. cbn [fst snd] in *.
  specialize (IH m1 _ _ H1 Hsp Hs). destruct (merge_run es m1) as [ds' m2]. cbn [fst snd] in *.
  unfold received in *. rewrite filter_app, fmap_app, app_assoc. exact IH.
Qed.
End Node.

(** ** The reorder buffer *)

(** Two nodes whose second line overtakes the first on the way. *)
Definition overtaken : list BufferEvent :=
  [Push "pen" "[ 1.030] EV_SYN SYN_REPORT 00000000" 1 1040 1040;
   Push "touch" "[ 1.010] EV_SYN SYN_REPORT 00000000" 2 1045 1045;
   Push "touch" "not an event" 3 1046 1046;
   Fire 1090 1090;
   Push "pen" "[ 1.100] EV_SYN SYN_REPORT 00000000" 4 1110 1110].

(** When the clock does not go back and every line is delivered between [D] and
    [D + windowMs] after its stamp, for whatever the offset [D] between the two
    clocks, the stamped lines leave the buffer in the order of their stamps. *)
Theorem kernel_order_restored windowMs D clock es :
  0 <= windowMs → clocked clock es → Forall (delivered_within windowMs D) es →
  StronglySorted Qle (stamps (run windowMs es emptyBuffer).1).
Proof.
  intros Hw Hc Hd.
  assert (ordered windowMs D clock emptyBuffer []) as Ho by (split; try done; [apply emptyBuffer_ok|constructor]).
  apply (ord_out _ _ _ _ _ (run_ordered windowMs D clock es emptyBuffer [] Hw Ho Hc Hd)).
Qed.
Lemma kernel_order_restored_witness :
  StronglySorted Qle (stamps (run 50 overtaken emptyBuffer).1) ∧
  stamps (run 50 overtaken emptyBuffer).1 = [milliseconds "1.010"; milliseconds "1.030"].
Proof.
  split; [|vm_compute; reflexivity]. apply (kernel_order_restored 50 0 0).
  - lra.
  - cbn. repeat split; lra.
  - repeat (apply Forall_cons; split); try done; intros s [= <-]; vm_compute; split; discriminate.
Defined.

(** Every line pushed is emitted once, is still queued, or was discarded by a drop
    or a clear. *)
Theorem merged_lines_conserved windowMs es :
  Permutation (es ≫= pushed)
    ((run windowMs es emptyBuffer).1 ++
     (timed <$> pending (run windowMs es emptyBuffer).2) ++
     (timed <$> discarded_in windowMs es emptyBuffer)).
Proof. apply (run_conserves windowMs es emptyBuffer emptyBuffer_ok). Qed.

(** A buffer holds lines exactly while a timer is armed.  The timer is armed for
    no later than any queued line's deadline, and is due then or already due; when
    it fires, every line past its deadline is emitted whatever its stamp, at least
    one line is, and nothing is lost. *)
Theorem queued_lines_meet_deadlines windowMs clock es :
  clocked clock es →
  let b := (run windowMs es emptyBuffer).2 in
  match flush b with
  | None => pending b = []
  | Some (at_, due) =>
      (∀ p, p ∈ pending b → at_ <= releaseAt p) ∧ (due <= at_ ∨ due <= clock_end clock es) ∧
      ∀ now then_, let '(out, b') := fireFlush now then_ b in
        (∀ p, p ∈ pending b → releaseAt p <= now → timed p ∈ out) ∧
        (due <= now → out ≠ []) ∧
        (out = [] → pending b' = pending b)
  end.
Proof.
  intros Hc b. pose proof (run_ok windowMs es emptyBuffer emptyBuffer_ok) as Hok. fold b in Hok.
  assert (timely (clock_end clock es) b) as Ht by (by apply run_timely; [apply emptyBuffer_ok| |]).
  pose proof (flush_armed _ Hok) as Hf. pose proof (earliest_spec (pending b)) as He.
  destruct (flush b) as [[at_ due]|] eqn:Ef, (earliest (pending b)) as [e|]; try done.
  destruct He as [(p0 & Hp0 & He) Hmin]. destruct (Ht _ _ Ef) as [Had Hdue]. split_and!; [|done|].
  { intros p Hp. specialize (Hmin p Hp). lra. }
  intros now then_. destruct (fireFlush_spec now then_ b Hok) as
    (a & rest & b' & -> & (Hsplit & _ & Hrest) & _ & _ & Hp & _ & _ & _).
  assert (∀ p, p ∈ pending b → releaseAt p <= now → timed p ∈ timed <$> a) as Hall.
  { intros p Hin Hnow. apply list_elem_of_fmap_2. rewrite Hsplit in Hin. apply elem_of_app in Hin as [?|Hin]; [done|].
    rewrite Forall_forall in Hrest. specialize (Hrest p Hin).
    assert (through (flush_bound now b) (p_ms p) = true); [|congruence].
    apply flush_bound_through. right. exists p. split_and!; [|done|lra].
    rewrite Hsplit. apply elem_of_app. by right. }
  split_and!; [done| |].
  - intros Hnow Ha. assert (timed p0 ∈ timed <$> a) as H0 by (apply Hall; [done|rewrite He; lra]).
    rewrite Ha in H0. by apply elem_of_nil in H0.
  - intros Ha. apply fmap_nil_inv in Ha. subst a. by rewrite Hp, Hsplit.
Qed.
Lemma queued_lines_meet_deadlines_witness :
  let b := (run 50 (take 2 overtaken) emptyBuffer).2 in
  match flush b with
  | None => pending b = []
  | Some (at_, due) =>
      (∀ p, p ∈ pending b → at_ <= releaseAt p) ∧ (due <= at_ ∨ due <= clock_end 0 (take 2 overtaken)) ∧
      ∀ now then_, let '(out, b') := fireFlush now then_ b in
        (∀ p, p ∈ pending b → releaseAt p <= now → timed p ∈ out) ∧
        (due <= now → out ≠ []) ∧
        (out = [] → pending b' = pending b)
  end.
Proof. apply (queued_lines_meet_deadlines 50 0 (take 2 overtaken)). cbn. repeat split; lra. Defined.

(** ** Composition with the reconstructors *)

(** Lines without a stamp mean nothing to a reconstructor. *)
Lemma matched_line_stamped line m : matchLine line = Some m → is_Some (stamp_of line).
Proof.
  unfold matchLine, stamp_of. destruct line as [|c s]; [done|].
  destruct (decide (c = "["%char)) as [->|Hc]; [|by destruct c as [[][][][][][][][]]].
  destruct (match_decimal (skip_spaces s)) as [[t s1]|]; [cbn|done]. destruct s1 as [|c s1]; [done|].
  destruct (decide (c = "]"%char)) as [->|Hc]; [|by destruct c as [[][][][][][][][]]]. intros _.
  change (skip_spaces (String "]"%char s1)) with (String "]"%char s1). eauto.
Qed.
Lemma feedLine_unstamped opt line at_ r : stamp_of line = None → feedLine opt line at_ r = (None, r).
Proof.
  intros Hn. unfold feedLine. destruct (matchLine line) as [m|] eqn:E; [|done].
  destruct (matched_line_stamped _ _ E) as [q Hq]. congruence.
Qed.
Lemma feedLines_stamped opt ls r : feedLines opt (filter stamped ls) r = feedLines opt ls r.
Proof.
  revert r. induction ls as [|[line at_] ls IH]; intros r; [done|]. rewrite filter_cons.
  destruct (decide (stamped (line, at_))) as [Hs|Hn]; cbn [feedLines].
  - destruct (feedLine opt line at_ r) as [o r1]. by rewrite IH.
  - rewrite feedLine_unstamped, IH; [by destruct (feedLines opt ls r)|].
    destruct (stamp_of line) as [q|] eqn:E; [|done]. exfalso. apply Hn. by exists q.
Qed.
Lemma feedLines_app opt l1 l2 r :
  (feedLines opt (l1 ++ l2) r).1 = ((feedLines opt l1 r).1 ++ (feedLines opt l2 (feedLines opt l1 r).2).1)%list.
Proof.
  revert r. induction l1 as [|[line at_] l1 IH]; intros r; [done|]. cbn [app feedLines].
  destruct (feedLine opt line at_ r) as [o r1]. specialize (IH r1).
  destruct (feedLines opt l1 r1) as [os r2], (feedLines opt (l1 ++ l2) r1) as [os' r3]. cbn in *.
  destruct o; cbn; by rewrite IH.
Qed.

(** The invariant of every merge: registrations are old numbers, queued stamps
    are those of their lines. *)
Record merge_ok (m : LineMerge) : Prop := {
  mk_buffer : buffer_ok (buffer m);
  mk_old : ∀ k' h', jget k' (handlers m) = Some h' → (h' < nextRegistration m)%nat;
  mk_stamp : Forall (λ p, stamp_of (p_text p) = Some (p_ms p)) (pending (buffer m));
}.

Lemma merge_step_ok w e m : merge_ok m → merge_ok (merge_step w e m).2.
Proof.
  intros [Hok Ho Hst]. destruct e as [node t|node reg t|node line at_ n t|n t]; cbn.
  - unfold register. split; cbn; [by apply dropNode_ok| |by apply dropNode_stamps].
    intros k' h'. rewrite jget_set. case_decide; [intros [= <-]; lia|]. intros Hg. specialize (Ho _ _ Hg). lia.
  - unfold unregister. case_bool_decide; [|done].
    assert (∀ k' h', jget k' (jdel node (handlers m)) = Some h' → (h' < nextRegistration m)%nat) as Hold
      by (intros k' h'; rewrite jget_del; case_decide; [done|apply Ho]).
    destruct (jdel node (handlers m)); (split; cbn; [|exact Hold|]); try apply emptyBuffer_ok; try (by constructor);
      [by apply dropNode_ok|by apply dropNode_stamps].
  - unfold pushLine. destruct (jhas node (handlers m)); [|done]. destruct (stamp_of line) as [ms|] eqn:E.
    + destruct (pushLine_spec w node line at_ n t (buffer m) ms Hok E) as
        (a & rest & b' & -> & (Hsplit & _) & _ & _ & Hp & _ & _ & Hok' & _). split; [done|done|]. cbn. rewrite Hp.
      assert (Forall (λ p, stamp_of (p_text p) = Some (p_ms p)) (a ++ rest)) as Hall.
      { rewrite <- Hsplit, Forall_forall in *. intros p Hin.
        rewrite (elem_of_Permutation_proper p _ _ (insertLine_perm _ _)) in Hin.
        apply elem_of_cons in Hin as [->|Hin]; [done|auto]. }
      by apply Forall_app in Hall as [_ ?].
    + unfold push. by rewrite E.
  - unfold fireMerge. destruct (fireFlush_spec n t (buffer m) Hok) as
      (a & rest & b' & -> & (Hsplit & _) & _ & _ & Hp & _ & _ & Hok' & _). split; [done|done|]. cbn. rewrite Hp.
    rewrite Hsplit in Hst. by apply Forall_app in Hst as [_ ?].
Qed.
Lemma merge_run_ok w es m : merge_ok m → merge_ok (merge_run w es m).2.
Proof.
  revert m. induction es as [|e es IH]; intros m Hm; [done|]. cbn. pose proof (merge_step_ok w e m Hm).
  destruct (merge_step w e m) as [ds m1]. specialize (IH m1). destruct (merge_run w es m1). auto.
Qed.

Lemma register_starts k then_ m :
  merge_ok m → node_inv k (register k then_ m).1 (register k then_ m).2 [] [].
Proof.
  intros [Hok Ho Hst]. unfold register. split; cbn.
  - by apply dropNode_ok.
  - split; cbn.
    + by rewrite jget_set, decide_True.
    + intros k'. rewrite jget_set. case_decide; [done|]. intros Hg. specialize (Ho _ _ Hg). lia.
    + intros k' h'. rewrite jget_set. case_decide; [intros [= <-]; lia|]. intros Hg. specialize (Ho _ _ Hg). lia.
  - by apply dropNode_stamps.
  - unfold queued. rewrite dropNode_pending. assert (∀ l, filter (λ p, p_node p = k) (filter (λ p, p_node p ≠ k) l) = []) as ->; [|done].
    intros l. apply elem_of_nil_inv. intros p [Hp [Hq _]%list_elem_of_filter]%list_elem_of_filter. by apply Hq.
Qed.

(** C35. A node registered at any moment of a recording, whose lines carry
    non-decreasing stamps: whatever the other nodes do, its handler receives its
    stamped lines in the order they were pushed, up to those still queued, and the
    reconstructor fed with them reports the gestures it would report if it read the
    node alone. *)
Theorem merge_preserves_recognition windowMs before k then_ es opt r :
  let '(h, m0) := register k then_ (merge_run windowMs before newMerge).2 in
  Forall (spares k) es → StronglySorted Qle (stamps_of (es ≫= pushed_to k)) →
  let '(ds, m) := merge_run windowMs es m0 in
  filter stamped (es ≫= pushed_to k) = (filter stamped (received h ds) ++ queued k (buffer m))%list ∧
  (feedLines opt (es ≫= pushed_to k) r).1 =
  ((feedLines opt (received h ds) r).1 ++
   (feedLines opt (queued k (buffer m)) (feedLines opt (received h ds) r).2).1)%list.
Proof.
  assert (merge_ok (merge_run windowMs before newMerge).2) as Hok.
  { apply merge_run_ok. split; [apply emptyBuffer_ok|done|constructor]. }
  pose proof (register_starts k then_ _ Hok) as Hstart.
  destruct (register k then_ (merge_run windowMs before newMerge).2) as [h m0]. cbn [fst snd] in Hstart.
  intros Hsp Hs. pose proof (merge_run_inv windowMs k h es m0 [] [] Hstart Hsp Hs) as [_ _ _ Hsplit].
  destruct (merge_run windowMs es m0) as [ds m]. cbn [fst snd app] in Hsplit. split; [done|].
  rewrite <- (feedLines_stamped opt (es ≫= pushed_to k)), Hsplit, feedLines_app, !feedLines_stamped. done.
Qed.
Lemma merge_preserves_recognition_witness :
  let es := [PushLine "pen" "[ 1.030] EV_SYN SYN_REPORT 00000000" 1 1040 1040; Register "touch" 1042;
             PushLine "touch" "[ 1.010] EV_SYN SYN_REPORT 00000000" 2 1045 1045;
             PushLine "pen" "noise" 3 1046 1046; FireMerge 1095 1095;
             PushLine "pen" "[ 1.100] EV_SYN SYN_REPORT 00000000" 4 1110 1110] in
  let '(h, m0) := register "pen" 1000 newMerge in
  let '(ds, m) := merge_run 50 es m0 in
  filter stamped (es ≫= pushed_to "pen") = (filter stamped (received h ds) ++ queued "pen" (buffer m))%list ∧
  length (received h ds) = 2%nat ∧ length (queued "pen" (buffer m)) = 1%nat.
Proof.
  pose proof (merge_preserves_recognition 50 [] "pen" 1000
    [PushLine "pen" "[ 1.030] EV_SYN SYN_REPORT 00000000" 1 1040 1040; Register "touch" 1042;
     PushLine "touch" "[ 1.010] EV_SYN SYN_REPORT 00000000" 2 1045 1045;
     PushLine "pen" "noise" 3 1046 1046; FireMerge 1095 1095;
     PushLine "pen" "[ 1.100] EV_SYN SYN_REPORT 00000000" 4 1110 1110] (mkOptions true false) newReconstructor) as H.
  vm_compute in H. vm_compute. destruct H as [H _].
  - repeat (apply Forall_cons; split); done.
  - repeat constructor; discriminate.
  - done.
Defined.
