(* ===== verification/H264.v ===== *)
(** * H.264 elementary streams and RTP payloads

    [src/src/features/webrtc/h264.ts] and [H264AccessUnitAssembler.ts]: the
    incremental Annex-B splitter, the grouping of NAL units into access units and
    the RTP payload format of RFC 6184.  A loop over a buffer's indices reads the
    list at those indices; the fragmentation loop advances an offset, its fuel is
    the length of the payload. *)
From S2P Require Import Prelude Bytes.
Local Open Scope Z_scope.

(** ** NAL units *)

Definition NAL_TYPE_AUD : Z := 9.
Definition NAL_TYPE_SPS : Z := 7.
Definition NAL_TYPE_PPS : Z := 8.
Definition NAL_TYPE_SEI : Z := 6.
Definition NAL_TYPE_IDR : Z := 5.
Definition FU_A_TYPE : Z := 28.
Definition FU_A_HEADER_BYTES : Z := 2.
Definition DEFAULT_RTP_MTU : Z := 1200.
Definition MAX_ANNEX_B_BUFFER_BYTES : Z := 4 * 1024 * 1024.

Definition nalUnitType (nal : bytes) : Z :=
  match nal with b :: _ => Z.land (ubyte b) 0x1f | [] => 0 end.
Definition isVclNal (nal : bytes) : bool :=
  let type := nalUnitType nal in (1 <=? type) && (type <=? 5).
Definition isFirstSliceOfPicture (nal : bytes) : bool :=
  match nal !! 1%nat with Some b => negb (Z.land (ubyte b) 0x80 =? 0) | None => false end.
Definition isKeyFrameNal (nal : bytes) : bool := nalUnitType nal =? NAL_TYPE_IDR.

Inductive H264Error :=
| BufferLimitInvalid
| BufferExceeded (maxBufferedBytes : Z)
| MtuTooSmall (mtu : Z) (nalLength : nat)
| MtuInvalid.

(** ** The Annex-B splitter *)

Record H264AnnexBParser := mkAnnexB { buffered : bytes; maxBufferedBytes : Z }.
Definition with_buffered (b : bytes) (p : H264AnnexBParser) : H264AnnexBParser :=
  mkAnnexB b (maxBufferedBytes p).

Definition MAX_SAFE_INTEGER : Z := 2 ^ 53 - 1.
Definition newAnnexBParser (maxBufferedBytes : Z) : outcome H264Error H264AnnexBParser :=
  if (MAX_SAFE_INTEGER <? maxBufferedBytes) || (maxBufferedBytes <? 1) then Throws BufferLimitInvalid
  else Returns (mkAnnexB [] maxBufferedBytes).

(** [data[i] === v]. *)
Definition byte_is (data : bytes) (i : nat) (v : Z) : bool :=
  bool_decide (data !! i = Some (to_byte v)).

(** The offsets and lengths of the start codes. *)
Definition startCodeAt (data : bytes) (i : nat) : option (nat * nat) :=
  if byte_is data i 0 && byte_is data (i + 1) 0 && byte_is data (i + 2) 1 then
    let fourByte := (0 <? i)%nat && byte_is data (i - 1) 0 in
    Some (if fourByte then (i - 1)%nat else i, if fourByte then 4%nat else 3%nat)
  else None.
Definition findStartCodes (data : bytes) : list (nat * nat) :=
  omap (startCodeAt data) (seq 0 (length data - 2)).

(** [if (nal.length > 0) nals.push(nal)]. *)
Definition nonEmpty (nal : bytes) : list bytes := match nal with [] => [] | _ => [nal] end.
(** The NAL unit between each start code and the next one. *)
Fixpoint nalsBetween (data : bytes) (startCodes : list (nat * nat)) : list bytes :=
  match startCodes with
  | c :: ((d :: _) as rest) => nonEmpty (subarray data (c.1 + c.2) d.1) ++ nalsBetween data rest
  | _ => []
  end.

Definition drain (final : bool) (p : H264AnnexBParser) : list bytes * H264AnnexBParser :=
  let startCodes := findStartCodes (buffered p) in
  match list.last startCodes with
  | None => ([], if final then with_buffered [] p else p)
  | Some c =>
      let nals := nalsBetween (buffered p) startCodes in
      if final then (nals ++ nonEmpty (drop (c.1 + c.2) (buffered p)), with_buffered [] p)
      else (nals, with_buffered (drop c.1 (buffered p)) p)
  end.

Definition pushChunk (chunk : bytes) (p : H264AnnexBParser) : outcome H264Error (list bytes) * H264AnnexBParser :=
  let b := match buffered p with [] => chunk | _ => buffered p ++ chunk end in
  if maxBufferedBytes p <? Z.of_nat (length b) then
    (Throws (BufferExceeded (maxBufferedBytes p)), with_buffered [] p)
  else let '(nals, p) := drain false (with_buffered b p) in (Returns nals, p).
Definition flushParser (p : H264AnnexBParser) : list bytes * H264AnnexBParser := drain true p.

Definition hasBufferedNalType (type : Z) (p : H264AnnexBParser) : bool :=
  match list.last (findStartCodes (buffered p)) with
  | None => false
  | Some c =>
      let headerOffset := (c.1 + c.2)%nat in
      (headerOffset <? length (buffered p))%nat && (nalUnitType (drop headerOffset (buffered p)) =? type)
  end.

(** ** RTP payloads *)

Fixpoint fragmentLoop (fuel : nat) (fuIndicator nalType : Z) (maxFragmentSize : nat) (payload : bytes)
    (offset : nat) : list bytes :=
  match fuel with
  | O => []
  | S fuel =>
      if (offset <? length payload)%nat then
        let fragmentSize := Nat.min maxFragmentSize (length payload - offset) in
        let isFirst := (offset =? 0)%nat in
        let isLast := (length payload <=? offset + fragmentSize)%nat in
        let fuHeader := if isFirst then Z.lor nalType 0x80 else nalType in
        let fuHeader := if isLast then Z.lor fuHeader 0x40 else fuHeader in
        ([to_byte fuIndicator; to_byte fuHeader] ++ subarray payload offset (offset + fragmentSize)) ::
        fragmentLoop fuel fuIndicator nalType maxFragmentSize payload (offset + fragmentSize)
      else []
  end.

Definition packetizeNalUnit (nal : bytes) (mtu : Z) : outcome H264Error (list bytes) :=
  match nal with
  | [] => Returns []
  | header :: payload =>
      if Z.of_nat (length nal) <=? mtu then Returns [nal]
      else if mtu <=? FU_A_HEADER_BYTES then Throws (MtuTooSmall mtu (length nal))
      else
        let nalHeader := ubyte header in
        let forbiddenAndNri := Z.land nalHeader 0xe0 in
        let nalType := Z.land nalHeader 0x1f in
        let fuIndicator := Z.lor forbiddenAndNri FU_A_TYPE in
        let maxFragmentSize := Z.to_nat (mtu - 2) in
        Returns (fragmentLoop (length payload) fuIndicator nalType maxFragmentSize payload 0)
  end.

Record RtpPayloadUnit := mkUnit { payload : bytes; marker : bool }.

Fixpoint packetizeAll (accessUnit : list bytes) (mtu : Z) : outcome H264Error (list bytes) :=
  match accessUnit with
  | [] => Returns []
  | nal :: rest =>
      packets ← packetizeNalUnit nal mtu;
      payloads ← packetizeAll rest mtu;
      Returns (packets ++ payloads)
  end.
Definition markLast (payloads : list bytes) : list RtpPayloadUnit :=
  imap (λ index p, mkUnit p (index =? length payloads - 1)%nat) payloads.
Definition packetizeAccessUnit (accessUnit : list bytes) (mtu : Z) : outcome H264Error (list RtpPayloadUnit) :=
  markLast <$> packetizeAll accessUnit mtu.

(** ** Access units *)

Record H264AccessUnitAssembler := mkAssembler { current : list bytes; hasVcl : bool }.
Definition newAssembler : H264AccessUnitAssembler := mkAssembler [] false.

Definition beginsNextAuAfterVcl (type : Z) : bool :=
  (type =? NAL_TYPE_SPS) || (type =? NAL_TYPE_PPS) || (type =? NAL_TYPE_SEI).
Definition startsNewAccessUnit (nal : bytes) (a : H264AccessUnitAssembler) : bool :=
  (isVclNal nal && hasVcl a && isFirstSliceOfPicture nal) ||
  ((nalUnitType nal =? NAL_TYPE_AUD) && (0 <? length (current a))%nat) ||
  (beginsNextAuAfterVcl (nalUnitType nal) && hasVcl a).

Definition pushNal (nal : bytes) (a : H264AccessUnitAssembler) : list (list bytes) * H264AccessUnitAssembler :=
  let '(completed, a) :=
    if startsNewAccessUnit nal a then ([current a], newAssembler) else ([], a) in
  (completed, mkAssembler (current a ++ [nal]) (if isVclNal nal then true else hasVcl a)).
Definition flushAssembler (a : H264AccessUnitAssembler) : list (list bytes) * H264AccessUnitAssembler :=
  match current a with [] => ([], a) | au => ([au], newAssembler) end.
Definition flushPicture (a : H264AccessUnitAssembler) : list (list bytes) * H264AccessUnitAssembler :=
  if hasVcl a then flushAssembler a else ([], a).
