(* ===== verification/AnnexB.v ===== *)
(** * Annex-B streams

    What the splitter of [H264] computes: a reference that reads one byte at a
    time, the invariant of the parser against it, and streams that were built from
    NAL units and start codes. *)
From S2P Require Import Prelude Bytes H264.
Local Open Scope Z_scope.

(** ** The reference *)

(** Before the first start code, or inside a NAL unit of which [cur] was read. *)
Inductive Scan := Preamble (pre : bytes) | InNal (cur : bytes).
Definition held (s : Scan) : bytes := match s with Preamble l | InNal l => l end.
Definition more (s : Scan) (b : byte) : Scan :=
  match s with Preamble l => Preamble (l ++ [b]) | InNal l => InNal (l ++ [b]) end.

Definition zero : byte := to_byte 0.
Definition one : byte := to_byte 1.

(** [l] without the zero a four-byte start code takes from its end. *)
Definition trimZero (l : bytes) : bytes :=
  if decide (list.last l = Some zero) then take (length l - 1) l else l.

(** A byte completes a start code when it is the one after two zeros. *)
Definition scanByte (s : Scan) (b : byte) : list bytes * Scan :=
  if decide (b = one ∧ drop (length (held s) - 2) (held s) = [zero; zero]) then
    let nal := trimZero (take (length (held s) - 2) (held s)) in
    (match s with Preamble _ => [] | InNal _ => nonEmpty nal end, InNal [])
  else ([], more s b).
Fixpoint scan (s : Scan) (data : bytes) : list bytes * Scan :=
  match data with
  | [] => ([], s)
  | b :: data =>
      let '(nals, s) := scanByte s b in
      let '(nals', s) := scan s data in
      (nals ++ nals', s)
  end.
Definition final (s : Scan) : list bytes :=
  match s with Preamble _ => [] | InNal l => nonEmpty l end.

Lemma scan_app s a b :
  scan s (a ++ b) = ((scan s a).1 ++ (scan (scan s a).2 b).1, (scan (scan s a).2 b).2).
Proof.
  revert s. induction a as [|x a IH]; intros s; [by cbn; destruct (scan s b)|]. cbn [app scan].
  destruct (scanByte s x) as [n s1]. rewrite IH. destruct (scan s1 a) as [n1 s2]. cbn [fst snd].
  destruct (scan s2 b) as [n2 s3]. cbn. by rewrite app_assoc.
Qed.
Lemma scan_snoc s a b :
  scan s (a ++ [b]) = ((scan s a).1 ++ (scanByte (scan s a).2 b).1, (scanByte (scan s a).2 b).2).
Proof.
  rewrite scan_app. cbn [scan]. destruct (scanByte (scan s a).2 b). cbn. by rewrite app_nil_r.
Qed.

(** ** Start codes of a growing buffer *)

Lemma byte_is_app_l a b i v : (i < length a)%nat → byte_is (a ++ b) i v = byte_is a i v.
Proof. intros H. unfold byte_is. by rewrite lookup_app_l. Qed.
Lemma startCodeAt_app_l a b i : (i + 2 < length a)%nat → startCodeAt (a ++ b) i = startCodeAt a i.
Proof. intros H. unfold startCodeAt. rewrite !byte_is_app_l by lia. done. Qed.

Lemma omap_agree {A B} (f g : A → option B) (l : list A) : (∀ x, x ∈ l → f x = g x) → omap f l = omap g l.
Proof.
  induction l as [|x l IH]; intros H; [done|].
  change (omap ?h (x :: l)) with (match h x with Some y => y :: omap h l | None => omap h l end).
  rewrite (H x), IH; [done| |by left]. intros y Hy. apply H. by right.
Qed.

Lemma findStartCodes_snoc d b :
  findStartCodes (d ++ [b]) =
  findStartCodes d ++ (if (2 <=? length d)%nat then option_list (startCodeAt (d ++ [b]) (length d - 2)) else []).
Proof.
  unfold findStartCodes. rewrite length_app. cbn [length]. destruct (Nat.leb_spec 2 (length d)).
  - replace (length d + 1 - 2)%nat with (S (length d - 2)) by lia. rewrite seq_S, omap_app.
    rewrite (omap_agree (startCodeAt (d ++ [b])) (startCodeAt d)); [by apply (f_equal (app _)); cbn; destruct (startCodeAt _ _)|].
    intros i [_ Hi]%elem_of_seq. apply startCodeAt_app_l. lia.
  - by replace (length d + 1 - 2)%nat with 0%nat by lia; replace (length d - 2)%nat with 0%nat by lia.
Qed.

Lemma zero_one : zero ≠ one.
Proof. done. Qed.

(** The last two bytes are zeros. *)
Definition endsInZeros (l : bytes) : Prop := drop (length l - 2) l = [zero; zero].
#[export] Instance endsInZeros_dec l : Decision (endsInZeros l).
Proof. unfold endsInZeros. apply _. Defined.

Lemma endsInZeros_iff l : endsInZeros l ↔ ∃ l', l = (l' ++ [zero]) ++ [zero].
Proof.
  unfold endsInZeros. split.
  - intros H. exists (take (length l - 2) l). rewrite <- app_assoc. change ([zero] ++ [zero]) with [zero; zero].
    by rewrite <- H, take_drop.
  - intros [l' ->]. rewrite <- app_assoc, length_app. cbn [length app].
    replace (length l' + 2 - 2)%nat with (length l') by lia. by rewrite drop_app_length.
Qed.
Lemma endsInZeros_app before cur :
  list.last before = Some one ∨ before = [] → endsInZeros (before ++ cur) ↔ endsInZeros cur.
Proof.
  rewrite !endsInZeros_iff. intros Hb. split; intros [l' H].
  2:{ exists (before ++ l'). by rewrite H, !app_assoc. }
  destruct Hb as [Hb| ->]; [|by exists l']. apply last_Some in Hb as [b' ->].
  induction cur as [|y cur1 _] using rev_ind; [|induction cur1 as [|x cur2 _] using rev_ind].
  - rewrite app_nil_r in H. by apply app_inj_tail in H as [_ H].
  - apply app_inj_tail in H as [H _]. by apply app_inj_tail in H as [_ H].
  - rewrite app_assoc in H. apply app_inj_tail in H as [H ->]. rewrite app_assoc in H.
    apply app_inj_tail in H as [_ ->]. by exists cur2.
Qed.

(** The start code a byte completes. *)
Lemma startCodeAt_snoc d b :
  (2 ≤ length d)%nat →
  startCodeAt (d ++ [b]) (length d - 2) =
  if decide (b = one ∧ endsInZeros d) then
    Some (if decide (list.last (take (length d - 2) d) = Some zero) then (length d - 3, 4)%nat
          else (length d - 2, 3)%nat)
  else None.
Proof.
  intros Hl. assert (∃ d' x y, d = d' ++ [x; y]) as (d' & x & y & ->).
  { exists (take (length d - 2) d). destruct (drop (length d - 2) d) as [|x [|y [|? l]]] eqn:E;
      pose proof (f_equal length E) as El; rewrite length_drop in El; cbn in El; try lia.
    exists x, y. by rewrite <- E, take_drop. }
  rewrite length_app in *. cbn [length] in *. replace (length d' + 2 - 2)%nat with (length d') by lia.
  rewrite take_app_length. unfold startCodeAt, byte_is. rewrite <- app_assoc.
  rewrite (lookup_app_r d' _ (length d')), (lookup_app_r d' _ (length d' + 1)), (lookup_app_r d' _ (length d' + 2)) by lia.
  replace (length d' - length d')%nat with 0%nat by lia.
  replace (length d' + 1 - length d')%nat with 1%nat by lia. replace (length d' + 2 - length d')%nat with 2%nat by lia.
  cbn [app lookup list_lookup].
  assert (endsInZeros (d' ++ [x; y]) ↔ x = zero ∧ y = zero) as He.
  { unfold endsInZeros. rewrite length_app. cbn [length]. replace (length d' + 2 - 2)%nat with (length d') by lia.
    rewrite drop_app_length. split; [by intros [= -> ->]|by intros [-> ->]]. }
  assert (bool_decide (Some x = Some (to_byte 0)) && bool_decide (Some y = Some (to_byte 0)) &&
          bool_decide (Some b = Some (to_byte 1)) = bool_decide (b = one ∧ endsInZeros (d' ++ [x; y]))) as ->.
  { apply eq_bool_prop_intro. rewrite !andb_True, !bool_decide_spec, He. naive_solver. }
  case_bool_decide as Hd; [rewrite decide_True by done|by rewrite decide_False by done].
  f_equal. destruct (Nat.ltb_spec 0 (length d')) as [Hpos|Hpos].
  - rewrite lookup_app_l by lia. rewrite last_lookup. replace (length d' - 1)%nat with (pred (length d')) by lia.
    cbn [andb]. case_bool_decide as Hz.
    + rewrite decide_True by done. f_equal. lia.
    + by rewrite decide_False by done.
  - destruct d'; [|cbn in Hpos; lia]. done.
Qed.

(** ** The splitter computes the reference *)

Lemma subarray_prefix d b first last_ : (last_ ≤ length d)%nat → subarray (d ++ b) first last_ = subarray d first last_.
Proof.
  intros H. unfold subarray. destruct (decide (first ≤ length d)%nat).
  - rewrite drop_app_le by lia. rewrite take_app_le; [done|]. rewrite length_drop. lia.
  - by replace (last_ - first)%nat with 0%nat by lia.
Qed.
Lemma nalsBetween_app_l d b codes :
  (∀ c, c ∈ codes → (c.1 ≤ length d)%nat) → nalsBetween (d ++ b) codes = nalsBetween d codes.
Proof.
  induction codes as [|c [|c' codes] IH]; intros H; [done|done|]. cbn [nalsBetween] in *.
  rewrite subarray_prefix, IH; [done| |].
  - intros c0 Hc. apply H. by right.
  - apply H. right. by left.
Qed.
Lemma nalsBetween_snoc d codes c c' :
  list.last codes = Some c →
  nalsBetween d (codes ++ [c']) = nalsBetween d codes ++ nonEmpty (subarray d (c.1 + c.2) c'.1).
Proof.
  induction codes as [|c0 [|c1 codes] IH]; intros H; [done| |].
  - injection H as ->. cbn. by rewrite app_nil_r.
  - cbn [app nalsBetween] in *. by rewrite IH, app_assoc.
Qed.

(** [d] was read: [codes] are its start codes, [r] what the reference makes of it. *)
Record tracks (d : bytes) (codes : list (nat * nat)) (r : list bytes * Scan) : Prop := {
  tr_offsets : ∀ c, c ∈ codes → (c.1 ≤ length d)%nat;
  tr_nals : r.1 = nalsBetween d codes;
  tr_state : match list.last codes with
    | None => r.2 = Preamble d
    | Some c => ∃ before cur,
        d = before ++ cur ∧ length before = (c.1 + c.2)%nat ∧ list.last before = Some one ∧ r.2 = InNal cur
    end;
}.

Lemma scanByte_eq s b :
  scanByte s b =
  if decide (b = one ∧ endsInZeros (held s)) then
    (match s with
     | Preamble _ => []
     | InNal l => nonEmpty (trimZero (take (length l - 2) l))
     end, InNal [])
  else ([], more s b).
Proof. by destruct s. Qed.

Lemma tracks_held d codes r : tracks d codes r → endsInZeros d ↔ endsInZeros (held r.2).
Proof.
  intros [_ _ Hs]. destruct (list.last codes); [|by rewrite Hs].
  destruct Hs as (before & cur & -> & _ & Hb & ->). cbn. apply endsInZeros_app. by left.
Qed.

(** The NAL unit before a start code that [d ++ [one]] completes. *)
Lemma closing_nal before cur :
  list.last before = Some one → endsInZeros cur →
  subarray ((before ++ cur) ++ [one]) (length before)
    (if decide (list.last (take (length (before ++ cur) - 2) (before ++ cur)) = Some zero)
     then length (before ++ cur) - 3 else length (before ++ cur) - 2)%nat =
  trimZero (take (length cur - 2) cur).
Proof.
  intros Hb [l Hl]%endsInZeros_iff. subst cur. rewrite !length_app. cbn [length].
  replace (length l + 1 + 1 - 2)%nat with (length l) by lia.
  replace (length before + (length l + 1 + 1) - 2)%nat with (length before + length l)%nat by lia.
  rewrite take_app_add. rewrite <- (app_assoc l), take_app_length. unfold subarray. rewrite <- (app_assoc before), drop_app_length.
  unfold trimZero. destruct (decide (l = [])) as [->|Hne].
  - rewrite app_nil_r, Hb, !decide_False by done. by rewrite Nat.add_0_r, Nat.sub_diag.
  - rewrite last_app. destruct (list.last l) as [z|] eqn:El; [|by apply last_None in El].
    assert (0 < length l)%nat by (destruct l; [done|cbn; lia]).
    destruct (decide (Some z = Some zero)).
    + replace (length before + (length l + 1 + 1) - 3 - length before)%nat with (length l - 1)%nat by lia.
      rewrite <- app_assoc, take_app_le by lia. done.
    + replace (length before + length l - length before)%nat with (length l) by lia.
      by rewrite <- app_assoc, take_app_length.
Qed.

Lemma tracks_snoc d b codes r :
  codes = findStartCodes d → tracks d codes r →
  tracks (d ++ [b]) (findStartCodes (d ++ [b])) (r.1 ++ (scanByte r.2 b).1, (scanByte r.2 b).2).
Proof.
  intros Hc Ht. pose proof (tracks_held _ _ _ Ht) as Hh. rewrite findStartCodes_snoc, <- Hc, scanByte_eq.
  assert (endsInZeros d → (2 ≤ length d)%nat) as Hlen.
  { intros [l ->]%endsInZeros_iff. rewrite !length_app. cbn. lia. }
  destruct (decide (b = one ∧ endsInZeros (held r.2))) as [[-> Hz]|Hd].
  - assert (endsInZeros d) as Hzd by tauto. specialize (Hlen Hzd). rewrite (proj2 (Nat.leb_le _ _)) by done.
    rewrite startCodeAt_snoc, decide_True by done. unfold option_list, option_rect. destruct Ht as [Ho Hn Hs]. split; cbn [fst snd].
    + intros c [Hin| ->%list_elem_of_singleton]%elem_of_app; rewrite length_app; [specialize (Ho c Hin); lia|].
      case_decide; cbn; lia.
    + destruct (list.last codes) as [c|] eqn:El.
      * destruct Hs as (before & cur & -> & Hlb & Hb & Hr). rewrite (nalsBetween_snoc _ _ c) by done.
        rewrite nalsBetween_app_l, Hr, Hn by done. f_equal. cbn [held] in Hz. f_equal. rewrite <- Hlb.
        rewrite Hr in Hz. cbn [held] in Hz. rewrite <- (closing_nal before cur Hb Hz). f_equal. by case_decide.
      * apply last_None in El. rewrite Hs, Hn, El. done.
    + rewrite last_snoc. exists (d ++ [one]), []. rewrite app_nil_r, last_snoc, length_app. split; [done|].
      split; [|done]. case_decide as Hl; cbn; [|lia].
      assert (3 ≤ length d)%nat; [|lia]. destruct (decide (length d = 2)%nat) as [E|]; [|lia].
      by rewrite E in Hl.
  - assert ((if (2 <=? length d)%nat then option_list (startCodeAt (d ++ [b]) (length d - 2)) else []) = []) as ->.
    { destruct (Nat.leb_spec 2 (length d)); [|done]. rewrite startCodeAt_snoc, decide_False by (done || tauto). done. }
    rewrite !app_nil_r. destruct Ht as [Ho Hn Hs]. split; cbn [fst snd].
    + intros c Hin. rewrite length_app. specialize (Ho c Hin). lia.
    + by rewrite nalsBetween_app_l.
    + destruct (list.last codes) as [c|] eqn:El; [|by rewrite Hs].
      destruct Hs as (before & cur & -> & Hlb & Hb & ->). exists before, (cur ++ [b]). by rewrite app_assoc.
Qed.

Lemma tracks_all d : tracks d (findStartCodes d) (scan (Preamble []) d).
Proof.
  induction d as [|b d IH] using rev_ind; [split; [by intros c ?%elem_of_nil|done|done]|]. rewrite scan_snoc. by eapply tracks_snoc.
Qed.

(** Draining the buffer [d]: the NAL units completed in it, and the rest. *)
Lemma drain_scan d max :
  let r := scan (Preamble []) d in
  (drain false (mkAnnexB d max)).1 = r.1 ∧ (drain true (mkAnnexB d max)) = (r.1 ++ final r.2, mkAnnexB [] max) ∧
  (drain false (mkAnnexB d max)).2 = mkAnnexB (match list.last (findStartCodes d) with Some c => drop c.1 d | None => d end) max.
Proof.
  intros r. destruct (tracks_all d) as [_ Hn Hs]. unfold drain, with_buffered. cbn [buffered maxBufferedBytes].
  destruct (list.last (findStartCodes d)) as [c|] eqn:El; cbn [fst snd].
  - split; [by unfold r; rewrite Hn|]. split; [|done]. destruct Hs as (before & cur & E & Hlb & _ & Hr).
    unfold r. rewrite Hn, Hr. cbn [final]. do 3 f_equal. rewrite E at 1. by rewrite <- Hlb, drop_app_length.
  - apply last_None in El. unfold r. rewrite Hs, Hn, El. done.
Qed.

(** ** The bytes a parser keeps *)

Definition START3 : bytes := [zero; zero; one].
Definition START4 : bytes := [zero; zero; zero; one].
Definition startCode (fourByte : bool) : bytes := if fourByte then START4 else START3.

Lemma startCodeAt_bytes d i c :
  startCodeAt d i = Some c → ∃ fourByte, drop c.1 d = startCode fourByte ++ drop (c.1 + c.2) d.
Proof.
  unfold startCodeAt, byte_is. destruct (bool_decide (d !! i = _) && _ && _) eqn:E; [|done].
  rewrite !andb_true_iff, !bool_decide_eq_true in E. destruct E as [[E0 E1] E2].
  assert (drop i d = START3 ++ drop (i + 3) d) as H3.
  { rewrite (drop_S _ _ _ E0). replace (S i) with (i + 1)%nat by lia. rewrite (drop_S _ _ _ E1).
    replace (S (i + 1)) with (i + 2)%nat by lia. rewrite (drop_S _ _ _ E2). by replace (S (i + 2)) with (i + 3)%nat by lia. }
  destruct ((0 <? i)%nat && _) eqn:Ef; intros [= <-]; [|by exists false].
  exists true. cbn [fst snd]. rewrite andb_true_iff, bool_decide_eq_true, Nat.ltb_lt in Ef. destruct Ef as [Hi Ef].
  rewrite (drop_S _ _ _ Ef). replace (S (i - 1)) with i by lia. rewrite H3.
  by replace (i - 1 + 4)%nat with (i + 3)%nat by lia.
Qed.
Lemma findStartCodes_bytes d c :
  c ∈ findStartCodes d → ∃ fourByte, drop c.1 d = startCode fourByte ++ drop (c.1 + c.2) d.
Proof. intros (i & _ & H)%list_elem_of_omap. by eapply startCodeAt_bytes. Qed.

(** Reading a NAL unit again, from its start, completes nothing. *)
Lemma scan_quiet s d nals cur :
  scan s d = (nals, InNal cur) → (match s with InNal l => scan (InNal []) l = ([], InNal l) | _ => True end) →
  scan (InNal []) cur = ([], InNal cur).
Proof.
  intros E Hs. assert (match (scan s d).2 with InNal l => scan (InNal []) l = ([], InNal l) | _ => True end) as H.
  { clear E nals cur. induction d as [|b d IH] using rev_ind; [done|]. rewrite scan_snoc. cbn [snd].
    rewrite scanByte_eq. case_decide as Hd; [done|]. destruct (scan s d).2 as [l|l]; [done|].
    cbn [more snd]. rewrite scan_snoc, IH. cbn [fst snd]. by rewrite scanByte_eq, decide_False. }
  by rewrite E in H.
Qed.
Lemma scan_startCode fourByte l : scan (Preamble []) (startCode fourByte ++ l) = scan (InNal []) l.
Proof.
  rewrite scan_app. assert (scan (Preamble []) (startCode fourByte) = ([], InNal [])) as ->.
  { by destruct fourByte; vm_compute. }
  cbn [fst snd app]. by destruct (scan (InNal []) l).
Qed.

(** The buffer is what the reference holds, after its start code; no NAL unit is
    complete in it. *)
Definition keeps (p : H264AnnexBParser) (s : Scan) : Prop :=
  scan (Preamble []) (buffered p) = ([], s) ∧
  match s with Preamble l => buffered p = l | InNal l => ∃ f, buffered p = startCode f ++ l end.

Lemma drained_keeps d max :
  keeps (drain false (mkAnnexB d max)).2 (scan (Preamble []) d).2.
Proof.
  destruct (drain_scan d max) as (_ & _ & ->). unfold keeps. cbn [buffered].
  destruct (tracks_all d) as [_ Hn Hs]. destruct (list.last (findStartCodes d)) as [c|] eqn:El.
  - destruct Hs as (before & cur & E & Hlb & _ & Hr). rewrite Hr.
    destruct (findStartCodes_bytes d c) as [f ->]; [by apply last_Some_elem_of|].
    rewrite scan_startCode. rewrite E, <- Hlb, drop_app_length. split; [|by exists f].
    apply (scan_quiet (Preamble []) d (scan (Preamble []) d).1); [|done]. by rewrite <- Hr; destruct (scan (Preamble []) d).
  - apply last_None in El. rewrite El in Hn. split; [|by rewrite Hs].
    destruct (scan (Preamble []) d); cbn in *. by subst.
Qed.
Lemma keeps_new max : keeps (mkAnnexB [] max) (Preamble []).
Proof. by split. Qed.

(** ** Runs of the parser *)

(** The chunks of a stream in turn, up to the first that throws. *)
Fixpoint pushChunks (chunks : list bytes) (p : H264AnnexBParser) :
    outcome H264Error (list bytes) * H264AnnexBParser :=
  match chunks with
  | [] => (Returns [], p)
  | c :: chunks =>
      match pushChunk c p with
      | (Throws e, p) => (Throws e, p)
      | (Returns nals, p) => let '(r, p) := pushChunks chunks p in ((app nals) <$> r, p)
      end
  end.

Definition kept_size (p : H264AnnexBParser) : Z := Z.of_nat (length (buffered p)).

Lemma drained_shorter d max : (length (buffered (drain false (mkAnnexB d max)).2) ≤ length d)%nat.
Proof.
  destruct (drain_scan d max) as (_ & _ & ->). cbn. destruct (list.last _); [|done]. rewrite length_drop. lia.
Qed.

Lemma pushChunk_spec c p s :
  keeps p s →
  if maxBufferedBytes p <? kept_size p + Z.of_nat (length c)
  then pushChunk c p = (Throws (BufferExceeded (maxBufferedBytes p)), mkAnnexB [] (maxBufferedBytes p))
  else ∃ p', pushChunk c p = (Returns (scan s c).1, p') ∧ keeps p' (scan s c).2 ∧
         maxBufferedBytes p' = maxBufferedBytes p ∧ kept_size p' ≤ maxBufferedBytes p.
Proof.
  intros Hk. unfold pushChunk, kept_size, with_buffered.
  assert (match buffered p with [] => c | _ => buffered p ++ c end = buffered p ++ c) as -> by by destruct (buffered p).
  rewrite length_app, Nat2Z.inj_add. destruct (_ <? _) eqn:E; [done|].
  pose proof (drain_scan (buffered p ++ c) (maxBufferedBytes p)) as (H1 & _ & H2).
  pose proof (drained_keeps (buffered p ++ c) (maxBufferedBytes p)) as Hd.
  pose proof (drained_shorter (buffered p ++ c) (maxBufferedBytes p)) as Hl.
  destruct (drain false _) as [nals p']. cbn [fst snd] in *. exists p'. destruct Hk as [Hk _].
  rewrite scan_app, Hk in H1, Hd. cbn [fst snd app] in H1, Hd. subst nals. split; [done|]. split; [done|].
  rewrite length_app in Hl. split; [by rewrite H2|]. apply Z.ltb_ge in E. lia.
Qed.

Lemma flushParser_spec p s : keeps p s → flushParser p = (final s, mkAnnexB [] (maxBufferedBytes p)).
Proof.
  intros Hk. unfold flushParser. destruct p as [d max], Hk as [Hk _]. cbn in *.
  destruct (drain_scan d max) as (_ & -> & _). by rewrite Hk.
Qed.

Lemma kept_size_held p s : keeps p s → kept_size p ≤ Z.of_nat (length (held s)) + 4.
Proof.
  unfold kept_size. intros [_ Hk]. destruct s as [l|l]; [rewrite Hk; cbn; lia|].
  destruct Hk as [f ->]. rewrite length_app. destruct f; cbn; lia.
Qed.

(** ** Streams of NAL units *)

(** A NAL unit as the standard has it: not empty, its last byte is not zero, and
    emulation prevention keeps start codes out of it. *)
Definition nal_ok (nal : bytes) : Prop :=
  nal ≠ [] ∧ list.last nal ≠ Some zero ∧ ∀ a b, nal ≠ a ++ START3 ++ b.
Definition annexB (units : list (bool * bytes)) : bytes := concat ((λ u, startCode u.1 ++ u.2) <$> units).

Lemma scanByte_zero s : scanByte s zero = ([], more s zero).
Proof. rewrite scanByte_eq, decide_False; [done|]. by intros [? _]. Qed.

Lemma scan_inside nal : (∀ a b, nal ≠ a ++ START3 ++ b) → scan (InNal []) nal = ([], InNal nal).
Proof.
  induction nal as [|b nal IH] using rev_ind; intros H; [done|]. rewrite scan_snoc, IH.
  2:{ intros a c E. apply (H a (c ++ [b])). by rewrite E, <- !app_assoc. }
  cbn [fst snd app]. rewrite scanByte_eq, decide_False; [done|]. intros [-> [l E]%endsInZeros_iff].
  cbn [held] in E. apply (H l []). by rewrite E, <- !app_assoc.
Qed.
Lemma take_inside k nal : (∀ a b, nal ≠ a ++ START3 ++ b) → ∀ a b, take k nal ≠ a ++ START3 ++ b.
Proof. intros H a b E. apply (H a (b ++ drop k nal)). by rewrite !app_assoc, <- (app_assoc a), <- E, take_drop. Qed.

(** The start code after a NAL unit completes it. *)
Lemma scan_closing nal f :
  nal ≠ [] → list.last nal ≠ Some zero →
  (∀ k, (k < length (startCode f))%nat → scan (InNal nal) (take k (startCode f)) = ([], InNal (nal ++ take k (startCode f)))) ∧
  scan (InNal nal) (startCode f) = ([nal], InNal []).
Proof.
  intros Hne Hl. assert (∀ l, scanByte (InNal ((l ++ [zero]) ++ [zero])) one = (nonEmpty (trimZero l), InNal [])) as Hone.
  { intros l. rewrite scanByte_eq, decide_True by (split; [done|apply endsInZeros_iff; by exists l]).
    rewrite !length_app. cbn [length]. replace (length l + 1 + 1 - 2)%nat with (length l) by lia.
    by rewrite <- app_assoc, take_app_length. }
  assert (trimZero nal = nal) as Ht by (unfold trimZero; by rewrite decide_False).
  assert (trimZero (nal ++ [zero]) = nal) as Ht4.
  { unfold trimZero. rewrite last_snoc, decide_True, length_app by done. cbn [length].
    replace (length nal + 1 - 1)%nat with (length nal) by lia. by rewrite take_app_length. }
  split.
  - intros k Hk. assert (k = 0 ∨ k = 1 ∨ k = 2 ∨ (k = 3 ∧ f = true))%nat as Hc by (destruct f; cbn in Hk; lia || (right; lia)).
    destruct f, Hc as [->|[->|[->|[-> [=]]]]]; cbn [startCode START3 START4 take scan];
      repeat (rewrite scanByte_zero; cbn [more app]); by rewrite ?app_nil_r, <- ?app_assoc.
  - destruct f; cbn [startCode START3 START4 scan]; repeat (rewrite scanByte_zero; cbn [more]); rewrite Hone, ?Ht, ?Ht4;
      by destruct nal.
Qed.

Lemma scan_units nal units :
  nal_ok nal → Forall (λ u, nal_ok u.2) units →
  let r := scan (InNal nal) (annexB units) in r.1 ++ final r.2 = nal :: units.*2.
Proof.
  intros Hn Hu. revert nal Hn. induction Hu as [|[f n] units Hok _ IH]; intros nal (Hne & Hl & _).
  - by destruct nal.
  - change (annexB ((f, n) :: units)) with ((startCode f ++ n) ++ annexB units). cbn in *. specialize (IH n Hok).
    destruct Hok as (_ & _ & Hin). rewrite <- app_assoc, scan_app, (proj2 (scan_closing nal f Hne Hl)). cbn [fst snd].
    rewrite scan_app, scan_inside by done. cbn [fst snd app]. by rewrite IH.
Qed.
Lemma scan_stream units :
  Forall (λ u, nal_ok u.2) units →
  let r := scan (Preamble []) (annexB units) in r.1 ++ final r.2 = units.*2.
Proof.
  intros [|[f n] us Hok Hu]; [done|]. change (annexB ((f, n) :: us)) with ((startCode f ++ n) ++ annexB us).
  rewrite <- app_assoc, scan_startCode, scan_app. destruct (Hok) as (_ & _ & Hin). rewrite scan_inside by done. cbn [fst snd app].
  apply (scan_units n us Hok Hu).
Qed.

(** At any moment the reference holds at most a NAL unit and part of a start code. *)
Lemma held_units N nal units k :
  nal_ok nal → (length nal ≤ N)%nat → Forall (λ u, nal_ok u.2 ∧ (length u.2 ≤ N)%nat) units →
  (length (held (scan (InNal nal) (take k (annexB units))).2) ≤ N + 3)%nat.
Proof.
  intros Hn HN Hu. revert nal k Hn HN. induction Hu as [|[f n] us [Hok Hlen] _ IH]; intros nal k Hn HN.
  - change (annexB []) with (@nil byte). rewrite take_nil. cbn. lia.
  - change (annexB ((f, n) :: us)) with ((startCode f ++ n) ++ annexB us). cbn [snd] in *. destruct (Hn) as (Hne & Hl & _).
    destruct (scan_closing nal f Hne Hl) as [Hpart Hall]. rewrite <- app_assoc.
    destruct (decide (k < length (startCode f))%nat) as [Hk|Hk].
    { rewrite take_app_le by lia. rewrite Hpart by done. cbn [snd held]. rewrite length_app, length_take.
      destruct f; cbn in *; lia. }
    rewrite take_app_ge, scan_app, Hall by lia. cbn [snd].
    destruct (decide (k - length (startCode f) ≤ length n)%nat) as [Hk2|Hk2].
    + rewrite take_app_le by lia. destruct (Hok) as (_ & _ & Hin). rewrite scan_inside by (by apply take_inside).
      cbn [snd held]. rewrite length_take. lia.
    + rewrite take_app_ge, scan_app by lia. destruct (Hok) as (_ & _ & Hin). rewrite scan_inside by done. cbn [snd].
      by apply IH.
Qed.
Lemma held_stream N units k :
  Forall (λ u, nal_ok u.2 ∧ (length u.2 ≤ N)%nat) units →
  (length (held (scan (Preamble []) (take k (annexB units))).2) ≤ N + 3)%nat.
Proof.
  intros [|[f n] us [Hok Hlen] Hu]; [change (annexB []) with (@nil byte); rewrite take_nil; cbn; lia|].
  change (annexB ((f, n) :: us)) with ((startCode f ++ n) ++ annexB us). rewrite <- app_assoc. cbn [snd] in *.
  destruct (Hok) as (_ & _ & Hin). destruct (decide (k < length (startCode f))%nat) as [Hk|Hk].
  - rewrite take_app_le by lia. etrans; [|apply Nat.le_add_l].
    destruct f; cbn in Hk; do 4 try (destruct k as [|k]; [vm_compute; repeat constructor|]); lia.
  - rewrite take_app_ge, scan_startCode by lia.
    destruct (decide (k - length (startCode f) ≤ length n)%nat) as [Hk2|Hk2].
    + rewrite take_app_le by lia. rewrite scan_inside by (by apply take_inside). cbn [snd held]. rewrite length_take. lia.
    + rewrite take_app_ge, scan_app by lia. rewrite scan_inside by done. cbn [snd]. by apply held_units.
Qed.

Lemma pushChunks_spec H M chunks p s :
  keeps p s → (∀ k, (length (held (scan s (take k (concat chunks))).2) ≤ H)%nat) →
  Forall (λ c, (length c ≤ M)%nat) chunks → Z.of_nat (H + 4 + M) ≤ maxBufferedBytes p →
  ∃ p', pushChunks chunks p = (Returns (scan s (concat chunks)).1, p') ∧ keeps p' (scan s (concat chunks)).2.
Proof.
  intros Hk Hh Hc Hmax. revert p s Hk Hh Hmax. induction Hc as [|c chunks Hlen _ IH]; intros p s Hk Hh Hmax.
  { by exists p. }
  pose proof (pushChunk_spec c p s Hk) as Hp. pose proof (kept_size_held p s Hk) as Hsz.
  pose proof (Hh 0%nat) as H0. rewrite take_0 in H0. cbn [scan snd] in H0.
  rewrite (proj2 (Z.ltb_ge _ _)) in Hp by lia.
  destruct Hp as (p1 & E1 & Hk1 & Hm1 & _). cbn [pushChunks concat]. rewrite E1, scan_app. cbn [fst snd].
  destruct (IH p1 (scan s c).2 Hk1) as (p' & E2 & Hk2); [|lia|].
  - intros k. specialize (Hh (length c + k)%nat). cbn [concat] in Hh. rewrite take_app_add, scan_app in Hh. done.
  - rewrite E2. by exists p'.
Qed.

Lemma annexb_parses N M maxBufferedBytes units chunks :
  Forall (λ u, nal_ok u.2 ∧ (length u.2 ≤ N)%nat) units → concat chunks = annexB units →
  Forall (λ c, (length c ≤ M)%nat) chunks → Z.of_nat (N + 7 + M) ≤ maxBufferedBytes →
  ∃ nals p, pushChunks chunks (mkAnnexB [] maxBufferedBytes) = (Returns nals, p) ∧
            nals ++ (flushParser p).1 = units.*2.
Proof.
  intros Hu Hcat Hc Hmax.
  destruct (pushChunks_spec (N + 3) M chunks _ _ (keeps_new maxBufferedBytes)) as (p & E & Hk); [|done|cbn; lia|].
  { rewrite Hcat. intros k. by apply held_stream. }
  exists (scan (Preamble []) (concat chunks)).1, p. split; [done|]. rewrite (flushParser_spec _ _ Hk), Hcat. cbn [fst].
  apply scan_stream. eapply Forall_impl, Hu. by intros ? [? _].
Qed.

(** NAL units of at most [N] bytes, each after a start code of either length, in
    chunks of at most [M] bytes: the parser throws nothing, and its NAL units, with
    the one the flush gives, are these, in order. *)
Theorem annexb_round_trip N M maxBufferedBytes units chunks :
  Forall (λ u, nal_ok u.2 ∧ (length u.2 ≤ N)%nat) units → concat chunks = annexB units →
  Forall (λ c, (length c ≤ M)%nat) chunks → Z.of_nat (N + 7 + M) ≤ maxBufferedBytes →
  ∃ nals p, pushChunks chunks (mkAnnexB [] maxBufferedBytes) = (Returns nals, p) ∧
            nals ++ (flushParser p).1 = units.*2.
Proof. apply annexb_parses. Qed.
Lemma annexb_round_trip_witness :
  let sps : bytes := to_byte <$> [0x67; 0; 0; 3; 1] in
  let idr : bytes := to_byte <$> [0x65; 0x88; 0; 1] in
  let stream := annexB [(true, sps); (false, idr)] in
  ∃ nals p, pushChunks [take 2 stream; take 9 (drop 2 stream); drop 11 stream] (mkAnnexB [] 24) = (Returns nals, p) ∧
            nals ++ (flushParser p).1 = [sps; idr].
Proof.
  intros sps idr stream.
  refine (annexb_round_trip 5 12 24 [(true, sps); (false, idr)]
            [take 2 stream; take 9 (drop 2 stream); drop 11 stream] _ _ _ _).
  - repeat (apply List.Forall_cons || apply List.Forall_nil); (split; [|vm_compute; lia]);
      (split; [done|]; split; [done|]); intros a b E; apply (f_equal length) in E as El; rewrite !length_app in El; cbn in El;
      destruct a as [|? [|? [|? [|? a]]]]; vm_compute in E; (discriminate || cbn in El; lia).
  - vm_compute. reflexivity.
  - repeat constructor.
  - done.
Defined.

(** The bound, by whatever chunks the buffer was filled. *)
Definition bounded (max : Z) (p : H264AnnexBParser) : Prop :=
  (∃ s, keeps p s) ∧ maxBufferedBytes p = max ∧ kept_size p ≤ max.
Lemma pushChunk_bounded max c p :
  0 ≤ max → bounded max p →
  bounded max (pushChunk c p).2 ∧
  match (pushChunk c p).1 with
  | Throws e => e = BufferExceeded max ∧ max < kept_size p + Z.of_nat (length c) ∧ (pushChunk c p).2 = mkAnnexB [] max
  | Returns _ => kept_size p + Z.of_nat (length c) ≤ max
  end.
Proof.
  intros Hmax ((s & Hk) & Hm & Hsz). pose proof (pushChunk_spec c p s Hk) as H. rewrite Hm in H.
  destruct (max <? _) eqn:E; [apply Z.ltb_lt in E|apply Z.ltb_ge in E].
  - rewrite H. cbn. split; [|done]. split; [eexists; apply keeps_new|]. by split.
  - destruct H as (p' & -> & Hk' & Hm' & Hsz'). cbn. split; [|done]. split; [by eexists|]. by split; [congruence|].
Qed.
Lemma pushChunks_bounded max chunks p : 0 ≤ max → bounded max p → bounded max (pushChunks chunks p).2.
Proof.
  intros Hmax. revert p. induction chunks as [|c chunks IH]; intros p Hb; [done|]. cbn [pushChunks].
  destruct (pushChunk_bounded max c p Hmax Hb) as [Hb1 _]. destruct (pushChunk c p) as [[nals|e] p1]; [|done].
  specialize (IH p1 Hb1). by destruct (pushChunks chunks p1).
Qed.

(** A parser never keeps more than its limit.  It throws exactly when the bytes
    kept and the chunk exceed the limit, and is then as it was created. *)
Theorem annexb_buffer_bounded maxBufferedBytes chunks c p0 :
  newAnnexBParser maxBufferedBytes = Returns p0 →
  let p := (pushChunks chunks p0).2 in
  kept_size p ≤ maxBufferedBytes ∧
  match pushChunk c p with
  | (Throws e, p') =>
      e = BufferExceeded maxBufferedBytes ∧ maxBufferedBytes < kept_size p + Z.of_nat (length c) ∧ p' = p0
  | (Returns _, p') => kept_size p + Z.of_nat (length c) ≤ maxBufferedBytes ∧ kept_size p' ≤ maxBufferedBytes
  end.
Proof.
  unfold newAnnexBParser. destruct (_ || _) eqn:E; [done|]. reflect_bools. intros [= <-].
  set (p := (pushChunks chunks _).2).
  assert (0 ≤ maxBufferedBytes) as Hmax by (apply Z.ltb_ge in H0; lia).
  assert (bounded maxBufferedBytes p) as Hb.
  { apply pushChunks_bounded; [done|]. split; [eexists; apply keeps_new|]. by split. }
  destruct (pushChunk_bounded _ c p Hmax Hb) as [(_ & _ & Hb') H']. split; [apply Hb|].
  by destruct (pushChunk c p) as [[nals|e] p'].
Qed.
Lemma annexb_buffer_bounded_witness :
  let p := (pushChunks [[zero; zero; one; zero]; [one; one]] (mkAnnexB [] 6)).2 in
  kept_size p = 6 ∧ pushChunk [zero] p = (Throws (BufferExceeded 6), mkAnnexB [] 6).
Proof.
  pose proof (annexb_buffer_bounded 6 [[zero; zero; one; zero]; [one; one]] [zero] (mkAnnexB [] 6) eq_refl) as H.
  vm_compute in H. destruct H as [_ (He & _ & Hp)]. vm_compute. done.
Defined.
