(* ===== verification/RtpPackets.v ===== *)
(** * RTP payloads and access units

    The receiver's side of [packetizeAccessUnit] of [H264] (RFC 6184, sections 5.6
    and 5.8) and the grouping of NAL units into access units, stated without the
    assembler. *)
From S2P Require Import Prelude Bytes H264.
Local Open Scope Z_scope.

(** ** Reassembly *)

Definition fu_start (hdr : byte) : bool := Z.testbit (ubyte hdr) 7.
Definition fu_end (hdr : byte) : bool := Z.testbit (ubyte hdr) 6.
Definition fu_nal_header (ind hdr : byte) : byte :=
  to_byte (Z.lor (Z.land (ubyte ind) 0xe0) (Z.land (ubyte hdr) 0x1f)).

(** What a receiver makes of the payloads of consecutive packets: [partial] is a
    NAL unit of which fragments were received. *)
Fixpoint reassemble (partial : option bytes) (ps : list bytes) : option (list bytes) :=
  match ps with
  | [] => match partial with None => Some [] | Some _ => None end
  | p :: ps =>
      if nalUnitType p =? FU_A_TYPE then
        match p with
        | ind :: hdr :: frag =>
            nal ← match partial, fu_start hdr with
                  | None, true => Some (fu_nal_header ind hdr :: frag)
                  | Some n, false => Some (n ++ frag)
                  | _, _ => None
                  end;
            if fu_end hdr then cons nal <$> reassemble None ps else reassemble (Some nal) ps
        | _ => None
        end
      else
        match partial with
        | None => if (1 <=? nalUnitType p) && (nalUnitType p <=? 23) then cons p <$> reassemble None ps else None
        | Some _ => None
        end
  end.

(** A type a NAL unit of a stream may have. *)
Definition single_nal (nal : bytes) : Prop := 1 ≤ nalUnitType nal ≤ 23.

Lemma fu_headers (h : byte) (s e : bool) :
  let t := Z.land (ubyte h) 0x1f in
  let ind := to_byte (Z.lor (Z.land (ubyte h) 0xe0) FU_A_TYPE) in
  let t := if s then Z.lor t 0x80 else t in
  let hdr := to_byte (if e then Z.lor t 0x40 else t) in
  Z.land (ubyte ind) 0x1f = FU_A_TYPE ∧ fu_start hdr = s ∧ fu_end hdr = e ∧ fu_nal_header ind hdr = h.
Proof. destruct s, e; destruct h; vm_compute; done. Qed.

Section Fragments.
Context (h : byte) (payload : bytes) (size : nat).
Let ind := Z.lor (Z.land (ubyte h) 0xe0) FU_A_TYPE.
Let type := Z.land (ubyte h) 0x1f.
Hypothesis Hsize : (0 < size)%nat.

Lemma reassemble_step (partial : option bytes) (s e : bool) (frag : bytes) (ps : list bytes) :
  let t := if s then Z.lor type 0x80 else type in
  let hdr := to_byte (if e then Z.lor t 0x40 else t) in
  reassemble partial ((to_byte ind :: hdr :: frag) :: ps) =
  (nal ← match partial, s with
         | None, true => Some (h :: frag)
         | Some n, false => Some (n ++ frag)
         | _, _ => None
         end;
   if e then cons nal <$> reassemble None ps else reassemble (Some nal) ps).
Proof.
  pose proof (fu_headers h s e) as (H1 & H2 & H3 & H4). cbn zeta in *. fold ind type in H1, H2, H3, H4.
  cbn [app reassemble nalUnitType]. by rewrite H1, H2, H3, H4.
Qed.

Lemma fragments_tail fuel n offset ps :
  (0 < offset < length payload)%nat → (length payload - offset ≤ fuel)%nat →
  reassemble (Some n) (fragmentLoop fuel ind type size payload offset ++ ps) =
  cons (n ++ drop offset payload) <$> reassemble None ps.
Proof.
  revert n offset. induction fuel as [|fuel IH]; intros n offset Ho Hf; [lia|]. cbn [fragmentLoop].
  rewrite (proj2 (Nat.ltb_lt _ _)) by lia. rewrite (proj2 (Nat.eqb_neq _ _)) by lia.
  set (k := Nat.min size (length payload - offset)). rewrite <- app_comm_cons.
  pose proof (reassemble_step (Some n) false) as Hs. cbn zeta in Hs. cbn [app] in *. rewrite Hs.
  change (Some ?x ≫= ?f) with (f x). cbn beta.
  destruct (Nat.leb_spec (length payload) (offset + k)) as [Hlast|Hmore].
  - assert (k = length payload - offset)%nat as Hk by (unfold k; lia).
    assert (fragmentLoop fuel ind type size payload (offset + k) = []) as ->.
    { destruct fuel; [done|]. cbn [fragmentLoop]. by rewrite (proj2 (Nat.ltb_ge _ _)) by lia. }
    cbn [app]. unfold subarray. rewrite take_ge; [done|]. rewrite length_drop. lia.
  - rewrite IH by (unfold k in *; lia). unfold subarray. replace (offset + k - offset)%nat with k by lia.
    rewrite <- app_assoc, <- drop_drop, take_drop. done.
Qed.

Lemma fragments_reassemble ps :
  payload ≠ [] →
  reassemble None (fragmentLoop (length payload) ind type size payload 0 ++ ps) =
  cons (h :: payload) <$> reassemble None ps.
Proof.
  intros Hne. assert (0 < length payload)%nat by (destruct payload; [done|cbn; lia]).
  destruct (length payload) as [|fuel] eqn:El; [lia|]. cbn [fragmentLoop]. rewrite El. change (0 <? S fuel)%nat with true. change (0 =? 0)%nat with true. cbn match.
  set (k := Nat.min size (S fuel - 0)). rewrite <- app_comm_cons.
  pose proof (reassemble_step None true) as Hs. cbn zeta in Hs. cbn [app] in *. rewrite Hs.
  change (Some ?x ≫= ?f) with (f x). cbn beta. unfold subarray. rewrite drop_0, Nat.add_0_l, (Nat.sub_0_r k).
  destruct (Nat.leb_spec (S fuel) k) as [Hlast|Hmore].
  - assert (fragmentLoop fuel ind type size payload k = []) as ->.
    { destruct fuel; [done|]. cbn [fragmentLoop]. by rewrite El, (proj2 (Nat.ltb_ge _ _)) by lia. }
    cbn [app]. rewrite take_ge; [done|]. lia.
  - rewrite fragments_tail by (unfold k in *; lia). rewrite <- app_comm_cons, take_drop. done.
Qed.

Lemma fragments_size fuel offset :
  Forall (λ p, 2 < length p ≤ size + 2)%nat (fragmentLoop fuel ind type size payload offset).
Proof.
  revert offset. induction fuel as [|fuel IH]; intros offset; [constructor|]. cbn [fragmentLoop].
  destruct (Nat.ltb_spec offset (length payload)); [|constructor]. constructor; [|done].
  rewrite length_app. unfold subarray. rewrite length_take, length_drop. cbn [length]. lia.
Qed.
End Fragments.

(** ** One access unit *)

Lemma packetizeNalUnit_throws nal mtu e :
  packetizeNalUnit nal mtu = Throws e ↔
  nal ≠ [] ∧ mtu < Z.of_nat (length nal) ∧ mtu ≤ FU_A_HEADER_BYTES ∧ e = MtuTooSmall mtu (length nal).
Proof.
  unfold packetizeNalUnit. destruct nal as [|h payload]; [split; [done|by intros []]|].
  destruct (Z.leb_spec (Z.of_nat (length (h :: payload))) mtu); [split; [done|lia]|].
  destruct (Z.leb_spec mtu FU_A_HEADER_BYTES); [|split; [done|lia]]. split; [by intros [= <-]|]. by intros (_ & _ & _ & ->).
Qed.

(** A payload that is not empty and within the MTU. *)
Definition fits (mtu : Z) (p : bytes) : Prop := (0 < length p)%nat ∧ Z.of_nat (length p) ≤ mtu.

Lemma packetizeNalUnit_spec nal mtu (ps : list bytes) :
  3 ≤ mtu → single_nal nal →
  ∃ packets, packetizeNalUnit nal mtu = Returns packets ∧ packets ≠ [] ∧
    Forall (fits mtu) packets ∧
    reassemble None (packets ++ ps) = cons nal <$> reassemble None ps.
Proof.
  intros Hmtu Hs. destruct nal as [|h payload]; [unfold single_nal in Hs; cbn in Hs; lia|]. unfold packetizeNalUnit.
  destruct (Z.leb_spec (Z.of_nat (length (h :: payload))) mtu) as [Hfit|Hbig].
  - eexists. split; [done|]. split; [done|]. split; [constructor; [split; [cbn; lia|done]|constructor]|]. cbn [app reassemble].
    unfold single_nal in Hs. rewrite (proj2 (Z.eqb_neq _ _)) by (unfold FU_A_TYPE; lia).
    by rewrite !(proj2 (Z.leb_le _ _)) by lia.
  - rewrite (proj2 (Z.leb_gt _ _)) by (unfold FU_A_HEADER_BYTES; lia). eexists. split; [done|].
    cbn [length] in Hbig. assert (payload ≠ []) as Hne by (intros ->; cbn in Hbig; lia).
    assert (0 < Z.to_nat (mtu - 2))%nat as Hsz by lia. split; [|split].
    + intros E. pose proof (fragments_reassemble h payload _ Hsz [] Hne) as H. by rewrite E in H.
    + eapply Forall_impl, fragments_size; [unfold fits; intros p; lia|done].
    + by apply fragments_reassemble.
Qed.

Lemma packetizeAll_spec au mtu :
  3 ≤ mtu → Forall single_nal au →
  ∃ packets, packetizeAll au mtu = Returns packets ∧ (packets = [] → au = []) ∧
    Forall (fits mtu) packets ∧
    ∀ ps, reassemble None (packets ++ ps) = app au <$> reassemble None ps.
Proof.
  intros Hmtu Hau. induction Hau as [|nal au Hn _ (packets & E & _ & Hf & Hr)].
  - exists []. split; [done|]. split; [done|]. split; [constructor|]. intros ps. cbn. by destruct (reassemble None ps).
  - destruct (packetizeNalUnit_spec nal mtu [] Hmtu Hn) as (p1 & E1 & Hne & Hf1 & _). exists (p1 ++ packets).
    cbn [packetizeAll]. rewrite E1, E. split; [done|]. split; [by destruct p1|]. split; [by apply Forall_app|].
    intros ps. destruct (packetizeNalUnit_spec nal mtu (packets ++ ps) Hmtu Hn) as (p2 & E2 & _ & _ & Hr1).
    rewrite E1 in E2. injection E2 as <-. rewrite <- app_assoc, Hr1, Hr. by destruct (reassemble None ps).
Qed.

Lemma markLast_payloads ps : payload <$> markLast ps = ps.
Proof.
  unfold markLast. rewrite fmap_imap. apply list_eq. intros i. rewrite list_lookup_imap. by destruct (ps !! i).
Qed.
Lemma markLast_markers ps : ps ≠ [] → marker <$> markLast ps = replicate (length ps - 1) false ++ [true].
Proof.
  intros Hne. unfold markLast. rewrite fmap_imap. induction ps as [|p ps _] using rev_ind; [done|].
  rewrite imap_app, length_app. cbn [length imap]. replace (length ps + 1 - 1)%nat with (length ps) by lia.
  f_equal; [|cbn; by rewrite Nat.add_0_r, Nat.eqb_refl]. apply list_eq. intros i. rewrite list_lookup_imap.
  destruct (decide (i < length ps)%nat) as [Hi|Hi].
  - rewrite lookup_replicate_2 by done. apply lookup_lt_is_Some in Hi as Hx. destruct Hx as [x ->]. cbn.
    by rewrite (proj2 (Nat.eqb_neq _ _)) by lia.
  - rewrite lookup_ge_None_2 by lia. symmetry. apply lookup_replicate_None. lia.
Qed.

Lemma access_unit_units au mtu :
  3 ≤ mtu → Forall single_nal au →
  ∃ units, packetizeAccessUnit au mtu = Returns units ∧ (au ≠ [] → units ≠ []) ∧
    ∀ ps, reassemble None ((payload <$> units) ++ ps) = app au <$> reassemble None ps.
Proof.
  intros Hmtu Hau. destruct (packetizeAll_spec au mtu Hmtu Hau) as (ps & E & Hnil & _ & Hr).
  exists (markLast ps). unfold packetizeAccessUnit. rewrite E. split; [done|]. rewrite markLast_payloads.
  split; [|done]. intros Hne Hm. apply Hne, Hnil. by rewrite <- (markLast_payloads ps), Hm.
Qed.

(** An access unit of NAL units of types 1 to 23, with an MTU of three bytes or
    more, is packetized without an error: no payload is empty or over the MTU, the
    receiver reassembles exactly these NAL units, and the marker is on the last
    payload only. *)
Theorem access_unit_reassembles au mtu :
  3 ≤ mtu → Forall single_nal au → au ≠ [] →
  ∃ units, packetizeAccessUnit au mtu = Returns units ∧
    reassemble None (payload <$> units) = Some au ∧
    Forall (fits mtu) (payload <$> units) ∧
    marker <$> units = replicate (length units - 1) false ++ [true].
Proof.
  intros Hmtu Hau Hne. destruct (packetizeAll_spec au mtu Hmtu Hau) as (ps & E & Hnil & Hf & Hr).
  exists (markLast ps). unfold packetizeAccessUnit. rewrite E. split; [done|]. rewrite markLast_payloads.
  split; [|split].
  - specialize (Hr []). rewrite app_nil_r in Hr. rewrite Hr. cbn. by rewrite app_nil_r.
  - done.
  - rewrite <- (length_fmap payload), markLast_payloads. apply markLast_markers. naive_solver.
Qed.
Lemma access_unit_reassembles_witness :
  let sps : bytes := to_byte <$> [0x67; 1; 2] in
  let idr : bytes := to_byte <$> [0x65; 0x88; 3; 4; 5; 6; 7; 8] in
  ∃ units, packetizeAccessUnit [sps; idr] 5 = Returns units ∧ reassemble None (payload <$> units) = Some [sps; idr] ∧
           length units = 4%nat.
Proof.
  intros sps idr. destruct (access_unit_reassembles [sps; idr] 5) as (units & E & H & _ & Hm).
  - lia.
  - by repeat constructor.
  - done.
  - exists units. split; [done|]. split; [done|]. vm_compute in E. injection E as <-. done.
Defined.

(** Packetizing fails exactly on a NAL unit over an MTU without room for a fragment. *)
Theorem packetize_mtu_error au mtu e :
  packetizeAccessUnit au mtu = Throws e ↔
  mtu ≤ FU_A_HEADER_BYTES ∧
  ∃ a nal b, au = a ++ nal :: b ∧ e = MtuTooSmall mtu (length nal) ∧ nal ≠ [] ∧ mtu < Z.of_nat (length nal) ∧
             Forall (λ n, n = [] ∨ Z.of_nat (length n) ≤ mtu) a.
Proof.
  unfold packetizeAccessUnit. transitivity (packetizeAll au mtu = Throws e).
  { destruct (packetizeAll au mtu); cbn; split; congruence. }
  induction au as [|n au IH]; cbn [packetizeAll].
  { split; [done|]. intros (_ & a & nal & b & E & _). by destruct a. }
  destruct (packetizeNalUnit n mtu) as [ps|e1] eqn:E1; cbn.
  - assert (mtu ≤ FU_A_HEADER_BYTES → n = [] ∨ Z.of_nat (length n) ≤ mtu) as Hn.
    { intros Hm. destruct (decide (n = [])) as [|Hne]; [by left|right]. destruct (Z.le_gt_cases (Z.of_nat (length n)) mtu); [done|].
      assert (packetizeNalUnit n mtu = Throws (MtuTooSmall mtu (length n))) by (apply packetizeNalUnit_throws; split; done).
      congruence. }
    transitivity (packetizeAll au mtu = Throws e).
    { destruct (packetizeAll au mtu); cbn; split; congruence. }
    rewrite IH. split; intros [Hm (a & nal & b & E & He & Hne & Hl & Ha)]; (split; [done|]).
    + exists (n :: a), nal, b. split; [by rewrite E|]. do 3 (split; [done|]). constructor; auto.
    + destruct a as [|n' a]; [injection E as -> ->; destruct (Hn Hm); [done|lia]|].
      injection E as -> ->. exists a, nal, b. do 4 (split; [done|]). by inversion Ha.
  - apply packetizeNalUnit_throws in E1 as (Hne & Hl & Hm & ->). split.
    + intros [= <-]. split; [done|]. exists [], n, au. do 4 (split; [done|]). constructor.
    + intros [_ (a & nal & b & E & -> & Hne' & Hl' & Ha)]. destruct a as [|n' a]; [by injection E as -> ->|].
      injection E as -> ->. inversion Ha as [|? ? [|] _]; [done|lia].
Qed.

(** ** Access units without the assembler *)

(** A new access unit begins at [n] after the NAL units [au] of the current one. *)
Definition boundary (au : list bytes) (n : bytes) : Prop :=
  (au ≠ [] ∧ nalUnitType n = NAL_TYPE_AUD) ∨
  (Exists (λ v, isVclNal v = true) au ∧
   ((isVclNal n = true ∧ isFirstSliceOfPicture n = true) ∨
    nalUnitType n = NAL_TYPE_SPS ∨ nalUnitType n = NAL_TYPE_PPS ∨ nalUnitType n = NAL_TYPE_SEI)).
Definition whole (au : list bytes) : Prop := ∀ a n b, au = a ++ n :: b → ¬ boundary a n.
(** The access units are not empty, none has a boundary inside, and there is one
    between each and the next. *)
Fixpoint grouping (aus : list (list bytes)) : Prop :=
  match aus with
  | [] => True
  | au :: rest =>
      au ≠ [] ∧ whole au ∧ match concat rest with n :: _ => boundary au n | [] => True end ∧ grouping rest
  end.

Lemma grouping_unique aus aus' : grouping aus → grouping aus' → concat aus = concat aus' → aus = aus'.
Proof.
  assert (∀ (au au' X X' : list bytes), au ++ X = au' ++ X' → (length au < length au')%nat → whole au' →
            match X with n :: _ => boundary au n | [] => True end → False) as Hcut.
  { intros au au' X X' E Hl Hw Hb. destruct X as [|n X].
    - apply (f_equal length) in E. rewrite !length_app in E. cbn in E. lia.
    - assert (au' !! length au = Some n) as Hn.
      { rewrite <- (lookup_app_l _ X' _ Hl), <- E, lookup_app_r, Nat.sub_diag by lia. done. }
      apply (Hw au n (drop (S (length au)) au')); [|done]. rewrite <- (drop_S _ _ _ Hn).
      rewrite <- (take_drop (length au) au') at 1. f_equal. rewrite <- (take_app_le au' X') by lia.
      by rewrite <- E, take_app_length. }
  revert aus'. induction aus as [|au aus IH]; intros [|au' aus'] H H' E; cbn in *.
  - done.
  - destruct H' as [Hne _]. by destruct au'.
  - destruct H as [Hne _]. by destruct au.
  - destruct H as (_ & Hw & Hb & Hg), H' as (_ & Hw' & Hb' & Hg').
    destruct (lt_eq_lt_dec (length au) (length au')) as [[Hl|Hl]|Hl].
    + exfalso. by apply (Hcut _ _ _ _ E).
    + apply app_inj_1 in E as [-> E]; [|done]. f_equal. by apply IH.
    + exfalso. by apply (Hcut _ _ _ _ (eq_sym E)).
Qed.

(** The NAL units of a stream in turn. *)
Fixpoint pushNals (nals : list bytes) (a : H264AccessUnitAssembler) : list (list bytes) * H264AccessUnitAssembler :=
  match nals with
  | [] => ([], a)
  | n :: nals =>
      let '(done, a) := pushNal n a in
      let '(done', a) := pushNals nals a in
      (done ++ done', a)
  end.

Record assembling (a : H264AccessUnitAssembler) : Prop := {
  asm_vcl : hasVcl a = true ↔ Exists (λ v, isVclNal v = true) (current a);
  asm_whole : whole (current a);
}.
Lemma startsNewAccessUnit_iff n a : assembling a → startsNewAccessUnit n a = true ↔ boundary (current a) n.
Proof.
  intros [Hv _]. unfold startsNewAccessUnit, boundary, beginsNextAuAfterVcl.
  rewrite !orb_true_iff, !andb_true_iff, !orb_true_iff, Hv, !Z.eqb_eq, Nat.ltb_lt.
  assert (0 < length (current a) ↔ current a ≠ [])%nat as -> by (destruct (current a); cbn; split; (done || lia)).
  tauto.
Qed.
Lemma whole_one n : whole [n].
Proof.
  intros a m b E [[Ha _]|[Ha _]].
  - destruct a as [|? [|]]; done.
  - destruct a as [|? [|]]; [inversion Ha|done|done].
Qed.
Lemma whole_snoc au n : whole au → ¬ boundary au n → whole (au ++ [n]).
Proof.
  intros Hw Hb a m b E. destruct b as [|x b _] using rev_ind.
  - by apply app_inj_tail in E as [-> ->].
  - rewrite app_comm_cons, app_assoc in E. apply app_inj_tail in E as [-> _]. by apply (Hw a m b).
Qed.
Lemma pushNal_spec n a :
  assembling a →
  let '(done, a') := pushNal n a in
  assembling a' ∧
  ((done = [] ∧ current a' = current a ++ [n]) ∨ (boundary (current a) n ∧ done = [current a] ∧ current a' = [n])).
Proof.
  intros Ha. pose proof (startsNewAccessUnit_iff n a Ha) as Hs. destruct Ha as [Hv Hw]. unfold pushNal.
  destruct (startsNewAccessUnit n a); cbn.
  - split; [|right; by rewrite <- Hs]. split; cbn; [|apply whole_one].
    rewrite Exists_cons, Exists_nil. destruct (isVclNal n); naive_solver.
  - split; [|by left]. split; cbn; [|apply whole_snoc; [done|]; rewrite <- Hs; done].
    rewrite Exists_app, Exists_cons, Exists_nil, <- Hv. destruct (isVclNal n), (hasVcl a); naive_solver.
Qed.

Lemma pushNals_grouping nals a :
  assembling a →
  let '(out, a') := pushNals nals a in
  assembling a' ∧ grouping (out ++ (flushAssembler a').1) ∧ concat (out ++ (flushAssembler a').1) = current a ++ nals.
Proof.
  revert a. induction nals as [|n nals IH]; intros a Ha; cbn [pushNals].
  - split; [done|]. destruct Ha as [_ Hw]. unfold flushAssembler. destruct (current a) as [|x l]; cbn; [done|].
    rewrite !app_nil_r. done.
  - pose proof (pushNal_spec n a Ha) as Hp. destruct (pushNal n a) as [done1 a1]. destruct Hp as [Ha1 Hp].
    specialize (IH a1 Ha1). destruct (pushNals nals a1) as [out a2]. destruct IH as (Ha2 & Hg & Hcat). split; [done|].
    destruct Hp as [[-> Hc]|(Hb & -> & Hc)]; rewrite Hc in Hcat; cbn [app].
    + split; [done|]. by rewrite Hcat, <- app_assoc.
    + cbn [concat grouping]. rewrite Hcat. cbn [app]. split; [|done]. split; [|split; [apply Ha|done]].
      destruct Hb as [[? _]|[He _]]; [done|]. intros E. rewrite E in He. inversion He.
Qed.
Lemma newAssembler_assembling : assembling newAssembler.
Proof. split; cbn; [by rewrite Exists_nil|]. intros a n b E. by destruct a. Qed.

(** The access units the assembler completes, with the one the flush gives, are
    the only grouping of the NAL units that has a boundary of the standard between
    any two access units and none inside one. *)
Theorem access_units_exact nals aus :
  (let '(out, a) := pushNals nals newAssembler in out ++ (flushAssembler a).1) = aus ↔ concat aus = nals ∧ grouping aus.
Proof.
  pose proof (pushNals_grouping nals _ newAssembler_assembling) as H.
  destruct (pushNals nals newAssembler) as [out a]. destruct H as (_ & Hg & Hc). cbn [current newAssembler app] in Hc.
  split; [by intros <-|]. intros [E Hg']. apply grouping_unique; [done|done|congruence].
Qed.
