(* ===== verification/RtpWriter.v ===== *)
(** * The RTP writer of an H.264 track

    [src/src/features/webrtc/RtpH264TrackWriter.ts]: chunks of an elementary stream
    in, RTP packets out.  The code runs in a monad of its own: the state of the
    writer, the calls it made to its sink and its observers, in order, and what it
    throws.  The clock is a function from the number of earlier readings to
    milliseconds; [Math.round] of a whole number is that number. *)
From S2P Require Import Prelude Bytes H264.
Local Open Scope Z_scope.

Definition H264_CLOCK_RATE : Z := 90000.

Record RtpHeader := mkHeader {
  version : Z; payloadType : Z; hdr_marker : bool; sequenceNumber : Z; timestamp : Z; ssrc : Z }.
Inductive Effect :=
| OnSps (nal : bytes)
| WriteRtp (header : RtpHeader) (packet : bytes)
| OnAccessUnit (timestampMs : Z) (isIdr : bool) (rtpPacketCount : nat).

(** ** The state *)

Record RtpH264TrackWriter := mkWriter {
  w_ssrc : Z;
  w_payloadType : Z;
  w_mtu : Z;
  parser : H264AnnexBParser;
  assembler : H264AccessUnitAssembler;
  w_sequenceNumber : Z;
  baseTimeMs : option Z;
  accessUnitStartMs : option Z;
  framesWritten : Z;
  packetsWritten : Z;
  sawKeyFrame : bool;
  cachedSps : option bytes;
  cachedPps : option bytes;
}.
Definition with_parser p w := mkWriter (w_ssrc w) (w_payloadType w) (w_mtu w) p (assembler w) (w_sequenceNumber w)
  (baseTimeMs w) (accessUnitStartMs w) (framesWritten w) (packetsWritten w) (sawKeyFrame w) (cachedSps w) (cachedPps w).
Definition with_assembler a w := mkWriter (w_ssrc w) (w_payloadType w) (w_mtu w) (parser w) a (w_sequenceNumber w)
  (baseTimeMs w) (accessUnitStartMs w) (framesWritten w) (packetsWritten w) (sawKeyFrame w) (cachedSps w) (cachedPps w).
Definition with_base b w := mkWriter (w_ssrc w) (w_payloadType w) (w_mtu w) (parser w) (assembler w) (w_sequenceNumber w)
  b (accessUnitStartMs w) (framesWritten w) (packetsWritten w) (sawKeyFrame w) (cachedSps w) (cachedPps w).
Definition with_start s w := mkWriter (w_ssrc w) (w_payloadType w) (w_mtu w) (parser w) (assembler w) (w_sequenceNumber w)
  (baseTimeMs w) s (framesWritten w) (packetsWritten w) (sawKeyFrame w) (cachedSps w) (cachedPps w).
Definition with_sets sps pps w := mkWriter (w_ssrc w) (w_payloadType w) (w_mtu w) (parser w) (assembler w)
  (w_sequenceNumber w) (baseTimeMs w) (accessUnitStartMs w) (framesWritten w) (packetsWritten w) (sawKeyFrame w) sps pps.
Definition with_keyFrame w := mkWriter (w_ssrc w) (w_payloadType w) (w_mtu w) (parser w) (assembler w) (w_sequenceNumber w)
  (baseTimeMs w) (accessUnitStartMs w) (framesWritten w) (packetsWritten w) true (cachedSps w) (cachedPps w).
(** [this.sequenceNumber = (this.sequenceNumber + 1) & 0xffff; this.packetsWritten++]. *)
Definition countPacket w := mkWriter (w_ssrc w) (w_payloadType w) (w_mtu w) (parser w) (assembler w)
  (Z.land (w_sequenceNumber w + 1) 0xffff) (baseTimeMs w) (accessUnitStartMs w) (framesWritten w) (packetsWritten w + 1)
  (sawKeyFrame w) (cachedSps w) (cachedPps w).
Definition countFrame w := mkWriter (w_ssrc w) (w_payloadType w) (w_mtu w) (parser w) (assembler w) (w_sequenceNumber w)
  (baseTimeMs w) (accessUnitStartMs w) (framesWritten w + 1) (packetsWritten w) (sawKeyFrame w) (cachedSps w) (cachedPps w).

Record RtpH264TrackWriterOptions := mkOptions {
  opt_ssrc : Z; opt_payloadType : option Z; opt_mtu : option Z; opt_initialSequenceNumber : option Z }.
Definition newWriter (options : RtpH264TrackWriterOptions) : outcome H264Error RtpH264TrackWriter :=
  let mtu := default DEFAULT_RTP_MTU (opt_mtu options) in
  if (MAX_SAFE_INTEGER <? mtu) || (mtu <? 3) then Throws MtuInvalid
  else Returns (mkWriter (to_uint32 (opt_ssrc options)) (default 102 (opt_payloadType options)) mtu
    (mkAnnexB [] MAX_ANNEX_B_BUFFER_BYTES) newAssembler
    (Z.land (default 0 (opt_initialSequenceNumber options)) 0xffff) None None 0 0 false None None).

(** ** The monad *)

Record World := mkWorld { writer : RtpH264TrackWriter; readings : nat; effects : list Effect }.
Definition M (A : Type) : Type := World → outcome H264Error A * World.
#[export] Instance M_ret : MRet M := λ A a s, (Returns a, s).
#[export] Instance M_bind : MBind M := λ A B f m s,
  match m s with (Returns a, s) => f a s | (Throws e, s) => (Throws e, s) end.

Definition getWriter : M RtpH264TrackWriter := λ s, (Returns (writer s), s).
Definition modify (f : RtpH264TrackWriter → RtpH264TrackWriter) : M () := λ s,
  (Returns (), mkWorld (f (writer s)) (readings s) (effects s)).
Definition call (e : Effect) : M () := λ s, (Returns (), mkWorld (writer s) (readings s) (effects s ++ [e])).
Definition lift {A} (o : outcome H264Error A) : M A := λ s, (o, s).
Fixpoint forEach {A} (f : A → M ()) (l : list A) : M () :=
  match l with [] => mret () | x :: l => f x;; forEach f l end.

(** ** The operations *)

Section Writer.
Context (timer : nat → Z).

Definition now : M Z := λ s, (Returns (timer (readings s)), mkWorld (writer s) (S (readings s)) (effects s)).

Record Presence := mkPresence { hasIdr : bool; hasSps : bool; hasPps : bool }.
Definition presenceStep (p : Presence) (nal : bytes) : Presence :=
  let type := nalUnitType nal in
  if type =? NAL_TYPE_IDR then mkPresence true (hasSps p) (hasPps p)
  else if type =? NAL_TYPE_SPS then mkPresence (hasIdr p) true (hasPps p)
  else if type =? NAL_TYPE_PPS then mkPresence (hasIdr p) (hasSps p) true
  else p.
Definition accessUnitNalPresence (accessUnit : list bytes) : Presence :=
  foldl presenceStep (mkPresence false false false) accessUnit.
Definition withParameterSets (sps pps : option bytes) (accessUnit : list bytes) : list bytes :=
  let present := accessUnitNalPresence accessUnit in
  if negb (hasIdr present) || (hasSps present && hasPps present) then accessUnit
  else
    let prefix := (if negb (hasSps present) then option_list sps else []) ++
                  (if negb (hasPps present) then option_list pps else []) in
    match prefix with [] => accessUnit | _ => prefix ++ accessUnit end.

Definition rtpTimestamp (startMs : Z) : M Z :=
  w ← getWriter;
  (match baseTimeMs w with None => modify (with_base (Some startMs)) | Some _ => mret () end);;
  w ← getWriter;
  let elapsedMs := Z.max 0 (startMs - default startMs (baseTimeMs w)) in
  mret (to_uint32 (elapsedMs * (H264_CLOCK_RATE / 1000))).

Definition writePacket (timestamp : Z) (unit : RtpPayloadUnit) : M () :=
  w ← getWriter;
  call (WriteRtp (mkHeader 2 (w_payloadType w) (marker unit) (w_sequenceNumber w) timestamp (w_ssrc w)) (payload unit));;
  modify countPacket.

Definition writeAccessUnit (accessUnit : list bytes) (startMs : Z) : M () :=
  timestamp ← rtpTimestamp startMs;
  let isIdr := existsb isKeyFrameNal accessUnit in
  w ← getWriter;
  units ← lift (packetizeAccessUnit (withParameterSets (cachedSps w) (cachedPps w) accessUnit) (w_mtu w));
  match units with
  | [] => mret ()
  | _ =>
      forEach (writePacket timestamp) units;;
      modify countFrame;;
      call (OnAccessUnit startMs isIdr (length units))
  end.

(** The loops over completed access units. *)
Definition writeCompleted (accessUnit : list bytes) : M () :=
  w ← getWriter;
  start ← (match accessUnitStartMs w with Some start => mret start | None => now end);
  writeAccessUnit accessUnit start;;
  modify (with_start None).

Definition consumeNal (nal : bytes) : M () :=
  let type := nalUnitType nal in
  (if type =? NAL_TYPE_SPS then
     modify (λ w, with_sets (Some nal) (cachedPps w) w);; call (OnSps nal)
   else if type =? NAL_TYPE_PPS then modify (λ w, with_sets (cachedSps w) (Some nal) w)
   else mret ());;
  (if isKeyFrameNal nal then modify with_keyFrame else mret ());;
  w ← getWriter;
  let '(completed, a) := pushNal nal (assembler w) in
  modify (with_assembler a);;
  forEach writeCompleted completed;;
  w ← getWriter;
  match accessUnitStartMs w with
  | None => t ← now; modify (with_start (Some t))
  | Some _ => mret ()
  end.

Definition writeChunk (chunk : bytes) : M () :=
  w ← getWriter;
  let '(r, p) := pushChunk chunk (parser w) in
  modify (with_parser p);;
  nals ← lift r;
  forEach consumeNal nals.

Definition primeParameterSets (sps pps : option bytes) : M () :=
  (match sps with
   | Some nal => modify (λ w, with_sets (Some nal) (cachedPps w) w);; call (OnSps nal)
   | None => mret ()
   end);;
  match pps with
  | Some nal => modify (λ w, with_sets (cachedSps w) (Some nal) w)
  | None => mret ()
  end.

(** The trailing NAL unit, then the access unit [release] gives. *)
Definition finish (release : H264AccessUnitAssembler → list (list bytes) * H264AccessUnitAssembler) : M () :=
  w ← getWriter;
  let '(nals, p) := flushParser (parser w) in
  modify (with_parser p);;
  forEach consumeNal nals;;
  w ← getWriter;
  let '(completed, a) := release (assembler w) in
  modify (with_assembler a);;
  forEach writeCompleted completed.
Definition endOfPacket : M () := finish flushPicture.
Definition flush : M () := finish flushAssembler.
Definition stats (w : RtpH264TrackWriter) : Z * Z * bool := (framesWritten w, packetsWritten w, sawKeyFrame w).
End Writer.
