(* ===== verification/RtpProperties.v ===== *)
(** * What the RTP writer sends

    The theorems about [RtpWriter]: the packets of a stream, whatever its chunks,
    reassemble to its access units, each made self-decodable by the parameter sets
    seen; sequence numbers, markers and time stamps; packet boundaries. *)
From S2P Require Import Prelude Bytes H264 AnnexB RtpPackets RtpWriter.
From stdpp Require Import list.
Local Open Scope Z_scope.

(** ** The specification *)

(** An access unit as it is sent, with the instant its first NAL unit arrived. *)
Record Send := mkSend { send_start : Z; send_nals : list bytes }.

(** What does not change of a writer. *)
Record Track := mkTrack { t_ssrc : Z; t_payloadType : Z; t_mtu : Z }.
Definition trackOf (w : RtpH264TrackWriter) : Track := mkTrack (w_ssrc w) (w_payloadType w) (w_mtu w).

Fixpoint packetsFrom (t : Track) (seq ts : Z) (units : list RtpPayloadUnit) : list Effect :=
  match units with
  | [] => []
  | u :: units =>
      WriteRtp (mkHeader 2 (t_payloadType t) (marker u) seq ts (t_ssrc t)) (payload u) ::
      packetsFrom t ((seq + 1) mod 2 ^ 16) ts units
  end.
(** The time stamp of a start in milliseconds since the first, at 90 kHz. *)
Definition timestampOf (base startMs : Z) : Z := to_uint32 (Z.max 0 (startMs - base) * 90).

Definition unitsOf (mtu : Z) (nals : list bytes) : list RtpPayloadUnit :=
  match packetizeAccessUnit nals mtu with Returns units => units | Throws _ => [] end.

(** The calls that send these access units, from a sequence number and the start
    of the first access unit. *)
Fixpoint render (t : Track) (seq : Z) (base : option Z) (sends : list Send) : list Effect :=
  match sends with
  | [] => []
  | x :: sends =>
      let units := unitsOf (t_mtu t) (send_nals x) in
      let base := default (send_start x) base in
      packetsFrom t seq (timestampOf base (send_start x)) units ++
      OnAccessUnit (send_start x) (existsb isKeyFrameNal (send_nals x)) (length units) ::
      render t ((seq + Z.of_nat (length units)) mod 2 ^ 16) (Some base) sends
  end.
Definition seqAfter (t : Track) (seq : Z) (sends : list Send) : Z :=
  foldl (λ s x, (s + Z.of_nat (length (unitsOf (t_mtu t) (send_nals x)))) mod 2 ^ 16) seq sends.
Definition baseAfter (base : option Z) (sends : list Send) : option Z :=
  foldl (λ b x, Some (default (send_start x) b)) base sends.

Lemma render_app t seq base a b :
  render t seq base (a ++ b) = render t seq base a ++ render t (seqAfter t seq a) (baseAfter base a) b.
Proof.
  revert seq base. induction a as [|x a IH]; intros seq base; [done|]. cbn [app render]. rewrite IH, <- app_assoc. done.
Qed.

(** The latest NAL unit of a type. *)
Definition latest (type : Z) (old : option bytes) (nals : list bytes) : option bytes :=
  foldl (λ o n, if nalUnitType n =? type then Some n else o) old nals.

(** ** Runs of the monad *)

Lemma M_bind_Returns {A B} (m : M A) (f : A → M B) s a s' : m s = (Returns a, s') → (m ≫= f) s = f a s'.
Proof. intros E. unfold mbind, M_bind. by rewrite E. Qed.

Lemma forEach_app {A} (f : A → M ()) l l' s : forEach f (l ++ l') s = (forEach f l;; forEach f l') s.
Proof.
  revert s. induction l as [|x l IH]; intros s; [done|]. cbn [app forEach].
  unfold mbind, M_bind in *. destruct (f x s) as [[a|e] s']; [apply IH|done].
Qed.

Section Sends.
Context (timer : nat → Z).

Lemma land_seq x : Z.land x 0xffff = x mod 2 ^ 16.
Proof. change 0xffff with (Z.ones 16). by apply Z.land_ones. Qed.

Lemma forEach_writePacket ts units w k es :
  forEach (writePacket ts) units (mkWorld w k es) =
  (Returns (), mkWorld (Nat.iter (length units) countPacket w) k
                 (es ++ packetsFrom (trackOf w) (w_sequenceNumber w) ts units)).
Proof.
  revert w es. induction units as [|u units IH]; intros w es; [cbn; by rewrite app_nil_r|]. cbn [forEach].
  change ((writePacket ts u;; forEach (writePacket ts) units) (mkWorld w k es)) with
    (forEach (writePacket ts) units (mkWorld (countPacket w) k
       (es ++ [WriteRtp (mkHeader 2 (w_payloadType w) (marker u) (w_sequenceNumber w) ts (w_ssrc w)) (payload u)]))).
  rewrite IH. cbn [length packetsFrom]. rewrite Nat.iter_succ_r, <- app_assoc.
  change (trackOf (countPacket w)) with (trackOf w).
  change (w_sequenceNumber (countPacket w)) with (Z.land (w_sequenceNumber w + 1) 0xffff). by rewrite land_seq.
Qed.

Lemma iter_countPacket n w :
  0 ≤ w_sequenceNumber w < 2 ^ 16 →
  Nat.iter n countPacket w =
  mkWriter (w_ssrc w) (w_payloadType w) (w_mtu w) (parser w) (assembler w)
    ((w_sequenceNumber w + Z.of_nat n) mod 2 ^ 16) (baseTimeMs w) (accessUnitStartMs w) (framesWritten w)
    (packetsWritten w + Z.of_nat n) (sawKeyFrame w) (cachedSps w) (cachedPps w).
Proof.
  intros Hs. induction n as [|n IH].
  - cbn [Nat.iter]. rewrite !Z.add_0_r, Z.mod_small by done. by destruct w.
  - rewrite Nat.iter_succ, IH. unfold countPacket. cbn [w_ssrc w_payloadType w_mtu parser assembler w_sequenceNumber
      baseTimeMs accessUnitStartMs framesWritten packetsWritten sawKeyFrame cachedSps cachedPps].
    rewrite land_seq, Zplus_mod_idemp_l. f_equal; [f_equal|]; lia.
Qed.

(** The writer after an access unit of [n] packets that began at [start]. *)
Definition afterSend (start : Z) (n : nat) (w : RtpH264TrackWriter) : RtpH264TrackWriter :=
  mkWriter (w_ssrc w) (w_payloadType w) (w_mtu w) (parser w) (assembler w)
    ((w_sequenceNumber w + Z.of_nat n) mod 2 ^ 16) (Some (default start (baseTimeMs w))) (accessUnitStartMs w)
    (framesWritten w + 1) (packetsWritten w + Z.of_nat n) (sawKeyFrame w) (cachedSps w) (cachedPps w).

Lemma packets_nonempty nals mtu units :
  nals ≠ [] → Forall single_nal nals → 3 ≤ mtu → packetizeAccessUnit nals mtu = Returns units → units ≠ [].
Proof.
  intros Hne Hs Hmtu E. destruct (access_unit_units nals mtu Hmtu Hs) as (units' & E' & Hu). rewrite E in E'.
  injection E' as <-. by apply Hu.
Qed.

Lemma rtpTimestamp_spec start w k es :
  rtpTimestamp start (mkWorld w k es) =
  (Returns (timestampOf (default start (baseTimeMs w)) start),
   mkWorld (with_base (Some (default start (baseTimeMs w))) w) k es).
Proof. unfold rtpTimestamp, timestampOf. destruct w as [? ? ? ? ? ? [b|] ? ? ? ? ? ?]; done. Qed.

Lemma writeAccessUnit_spec au start w k es units :
  0 ≤ w_sequenceNumber w < 2 ^ 16 → units ≠ [] →
  packetizeAccessUnit (withParameterSets (cachedSps w) (cachedPps w) au) (w_mtu w) = Returns units →
  writeAccessUnit au start (mkWorld w k es) =
  (Returns (), mkWorld (afterSend start (length units) w) k
     (es ++ packetsFrom (trackOf w) (w_sequenceNumber w) (timestampOf (default start (baseTimeMs w)) start) units ++
      [OnAccessUnit start (existsb isKeyFrameNal au) (length units)])).
Proof.
  intros Hs Hne E. unfold writeAccessUnit. erewrite M_bind_Returns by apply rtpTimestamp_spec.
  erewrite M_bind_Returns by done. cbn [writer]. erewrite M_bind_Returns; [|unfold lift; rewrite <- E; done].
  destruct units as [|u units]; [done|]. erewrite M_bind_Returns by apply forEach_writePacket.
  set (us := u :: units). rewrite iter_countPacket by done. erewrite M_bind_Returns by done.
  unfold call. cbn [writer readings effects]. by rewrite <- app_assoc.
Qed.

(** ** A writer without packets *)

(** The state that decides what is sent. *)
Record Plan := mkPlan {
  plan_asm : H264AccessUnitAssembler; plan_start : option Z; plan_sps : option bytes; plan_pps : option bytes;
  plan_readings : nat }.

Definition planNal (nal : bytes) (p : Plan) : list Send * Plan :=
  let sps := latest NAL_TYPE_SPS (plan_sps p) [nal] in
  let pps := latest NAL_TYPE_PPS (plan_pps p) [nal] in
  match pushNal nal (plan_asm p), plan_start p with
  | ([], a), Some start => ([], mkPlan a (Some start) sps pps (plan_readings p))
  | (completed, a), start =>
      ((λ au, mkSend (default 0 start) (withParameterSets sps pps au)) <$> completed,
       mkPlan a (Some (timer (plan_readings p))) sps pps (S (plan_readings p)))
  end.
Fixpoint planNals (nals : list bytes) (p : Plan) : list Send * Plan :=
  match nals with
  | [] => ([], p)
  | nal :: nals =>
      let '(out, p) := planNal nal p in
      let '(outs, p) := planNals nals p in
      (out ++ outs, p)
  end.
Definition planRelease (release : H264AccessUnitAssembler → list (list bytes) * H264AccessUnitAssembler) (p : Plan) :
    list Send * Plan :=
  let '(completed, a) := release (plan_asm p) in
  ((λ au, mkSend (default 0 (plan_start p)) (withParameterSets (plan_sps p) (plan_pps p) au)) <$> completed,
   mkPlan a (match completed with [] => plan_start p | _ => None end) (plan_sps p) (plan_pps p) (plan_readings p)).

Definition planOf (w : RtpH264TrackWriter) (k : nat) : Plan :=
  mkPlan (assembler w) (accessUnitStartMs w) (cachedSps w) (cachedPps w) k.

Record plan_ok (p : Plan) : Prop := {
  plan_assembling : assembling (plan_asm p);
  plan_single : Forall single_nal (current (plan_asm p));
  plan_started : plan_start p = None ↔ current (plan_asm p) = [];
  plan_sps_type : ∀ n, plan_sps p = Some n → nalUnitType n = NAL_TYPE_SPS;
  plan_pps_type : ∀ n, plan_pps p = Some n → nalUnitType n = NAL_TYPE_PPS;
}.

(** Some NAL unit of the type. *)
Definition hasType (type : Z) (au : list bytes) : bool := existsb (λ n, nalUnitType n =? type) au.

Lemma presence_spec au p :
  foldl presenceStep p au =
  mkPresence (hasIdr p || hasType NAL_TYPE_IDR au) (hasSps p || hasType NAL_TYPE_SPS au)
             (hasPps p || hasType NAL_TYPE_PPS au).
Proof.
  revert p. induction au as [|n au IH]; intros p; cbn [foldl hasType existsb]; [rewrite !orb_false_r; by destruct p|].
  rewrite IH. unfold presenceStep, hasType, NAL_TYPE_IDR, NAL_TYPE_SPS, NAL_TYPE_PPS. cbn [existsb].
  generalize (nalUnitType n) as x. intros x.
  destruct (Z.eqb_spec x 5) as [E|]; [|destruct (Z.eqb_spec x 7) as [E|]; [|destruct (Z.eqb_spec x 8) as [E|]]];
    rewrite ?E; cbn; rewrite ?orb_false_l, ?orb_true_r; done.
Qed.

Lemma withParameterSets_spec sps pps au :
  withParameterSets sps pps au =
  (if hasType NAL_TYPE_IDR au then
     (if hasType NAL_TYPE_SPS au then [] else option_list sps) ++
     (if hasType NAL_TYPE_PPS au then [] else option_list pps)
   else []) ++ au.
Proof.
  unfold withParameterSets, accessUnitNalPresence. rewrite presence_spec. cbn.
  destruct (hasType NAL_TYPE_IDR au), (hasType NAL_TYPE_SPS au), (hasType NAL_TYPE_PPS au), sps, pps; done.
Qed.
Lemma withParameterSets_idr sps pps au :
  (∀ n, sps = Some n → nalUnitType n = NAL_TYPE_SPS) → (∀ n, pps = Some n → nalUnitType n = NAL_TYPE_PPS) →
  existsb isKeyFrameNal (withParameterSets sps pps au) = existsb isKeyFrameNal au.
Proof.
  intros Hs Hp. rewrite withParameterSets_spec, existsb_app.
  assert (∀ o, (∀ n, o = Some n → isKeyFrameNal n = false) → existsb isKeyFrameNal (option_list o) = false) as Ho.
  { intros [n|] H; cbn; [by rewrite H|done]. }
  destruct (hasType NAL_TYPE_IDR au); [|done]. rewrite existsb_app.
  destruct (hasType NAL_TYPE_SPS au), (hasType NAL_TYPE_PPS au); cbn [existsb orb]; rewrite ?Ho; try done;
    intros n Hn; unfold isKeyFrameNal; rewrite ?(Hs n Hn), ?(Hp n Hn); done.
Qed.
Lemma withParameterSets_single sps pps au :
  (∀ n, sps = Some n → nalUnitType n = NAL_TYPE_SPS) → (∀ n, pps = Some n → nalUnitType n = NAL_TYPE_PPS) →
  Forall single_nal au → Forall single_nal (withParameterSets sps pps au).
Proof.
  intros Hs Hp Ha. rewrite withParameterSets_spec. apply Forall_app. split; [|done].
  assert (∀ o t, 1 ≤ t ≤ 23 → (∀ n, o = Some n → nalUnitType n = t) → Forall single_nal (option_list o)) as Ho.
  { intros [n|] t Ht H; cbn; [|done]. constructor; [|done]. unfold single_nal. by rewrite (H n). }
  destruct (hasType NAL_TYPE_IDR au); [|done]. apply Forall_app. split.
  - destruct (hasType NAL_TYPE_SPS au); [done|]. by apply (Ho _ NAL_TYPE_SPS).
  - destruct (hasType NAL_TYPE_PPS au); [done|]. by apply (Ho _ NAL_TYPE_PPS).
Qed.
Lemma withParameterSets_nonempty sps pps au : au ≠ [] → withParameterSets sps pps au ≠ [].
Proof. intros Hne. rewrite withParameterSets_spec. intros [_ ?]%app_nil. done. Qed.

(** ** The writer follows the plan *)

(** From [w] to a writer [w'] whose plan is [p], by sending [sends]. *)
Record moved (w w' : RtpH264TrackWriter) (p : Plan) (sends : list Send) : Prop := {
  mv_track : trackOf w' = trackOf w;
  mv_plan : planOf w' (plan_readings p) = p;
  mv_seq : w_sequenceNumber w' = seqAfter (trackOf w) (w_sequenceNumber w) sends;
  mv_base : baseTimeMs w' = baseAfter (baseTimeMs w) sends;
  mv_parser : parser w' = parser w;
  mv_ready : 3 ≤ w_mtu w' ∧ 0 ≤ w_sequenceNumber w' < 2 ^ 16;
  mv_ok : plan_ok p;
}.

Definition spsCalls (nals : list bytes) : list Effect :=
  OnSps <$> filter (λ n, nalUnitType n = NAL_TYPE_SPS) nals.

(** Sending one access unit. *)
Lemma writeCompleted_spec au st w k es :
  3 ≤ w_mtu w → 0 ≤ w_sequenceNumber w < 2 ^ 16 → accessUnitStartMs w = Some st →
  (∀ n, cachedSps w = Some n → nalUnitType n = NAL_TYPE_SPS) →
  (∀ n, cachedPps w = Some n → nalUnitType n = NAL_TYPE_PPS) →
  Forall single_nal au → au ≠ [] →
  let x := mkSend st (withParameterSets (cachedSps w) (cachedPps w) au) in
  writeCompleted timer au (mkWorld w k es) =
  (Returns (), mkWorld (with_start None (afterSend st (length (unitsOf (w_mtu w) (send_nals x))) w)) k
     (es ++ render (trackOf w) (w_sequenceNumber w) (baseTimeMs w) [x])).
Proof.
  intros Hmtu Hseq Hst Hs Hp Ha Hne x.
  destruct (access_unit_units (send_nals x) (w_mtu w) Hmtu) as (units & E & Hu & _).
  { by apply withParameterSets_single. }
  unfold writeCompleted. erewrite M_bind_Returns by done. cbn [writer]. rewrite Hst.
  erewrite M_bind_Returns by done. erewrite M_bind_Returns.
  2:{ apply writeAccessUnit_spec; [done|by apply Hu, withParameterSets_nonempty|exact E]. }
  unfold modify. cbn [writer readings effects]. f_equal.
  unfold render, unitsOf. change (t_mtu (trackOf w)) with (w_mtu w). rewrite E. cbn [send_start send_nals x].
  by rewrite withParameterSets_idr.
Qed.

(** The parameter sets a NAL unit updates. *)
Definition withNal (nal : bytes) (w : RtpH264TrackWriter) : RtpH264TrackWriter :=
  let w := with_sets (latest NAL_TYPE_SPS (cachedSps w) [nal]) (latest NAL_TYPE_PPS (cachedPps w) [nal]) w in
  if isKeyFrameNal nal then with_keyFrame w else w.

Lemma consumeNal_starts nal w k es :
  consumeNal timer nal (mkWorld w k es) =
  (let '(completed, a) := pushNal nal (assembler w) in
   forEach (writeCompleted timer) completed;;
   w ← getWriter;
   match accessUnitStartMs w with
   | None => t ← now timer; modify (with_start (Some t))
   | Some _ => mret ()
   end) (mkWorld (with_assembler (pushNal nal (assembler w)).2 (withNal nal w)) k (es ++ spsCalls [nal])).
Proof.
  unfold consumeNal, spsCalls. rewrite filter_cons. unfold withNal, latest. cbn [foldl].
  unfold isKeyFrameNal, NAL_TYPE_IDR, NAL_TYPE_SPS, NAL_TYPE_PPS.
  destruct w as [f1 f2 f3 f4 a f6 f7 f8 f9 f10 f11 f12 f13]. cbn [assembler cachedSps cachedPps].
  destruct (pushNal nal a) as [completed a'] eqn:E.
  destruct (Z.eqb_spec (nalUnitType nal) 7) as [E7|N7].
  - rewrite E7. unfold mbind, M_bind, mret, M_ret, modify, call, getWriter. cbn. by rewrite E.
  - rewrite decide_False by done. cbn [fmap list_fmap]. rewrite app_nil_r.
    unfold mbind, M_bind, mret, M_ret, modify, call, getWriter.
    destruct (Z.eqb_spec (nalUnitType nal) 8) as [E8|N8]; [rewrite E8; cbn; by rewrite E|].
    destruct (Z.eqb_spec (nalUnitType nal) 5) as [E5|N5]; cbn; by rewrite E.
Qed.

Lemma latest_type type old nals n :
  (∀ n, old = Some n → nalUnitType n = type) → latest type old nals = Some n → nalUnitType n = type.
Proof.
  unfold latest. revert old. induction nals as [|m nals IH]; intros old Ho; cbn [foldl]; [by apply Ho|].
  apply IH. intros n'. destruct (Z.eqb_spec (nalUnitType m) type); [by intros [= <-]|apply Ho].
Qed.

Lemma planNal_ok nal p : plan_ok p → single_nal nal → plan_ok (planNal nal p).2.
Proof.
  intros [Ha Hs Hst Hsps Hpps] Hn. unfold planNal. pose proof (pushNal_spec nal (plan_asm p) Ha) as Hp.
  destruct (pushNal nal (plan_asm p)) as [completed a]. destruct Hp as [Ha' Hp].
  assert (Forall single_nal (current a) ∧ current a ≠ []) as [Hs' Hne].
  { destruct Hp as [[_ ->]|(_ & _ & ->)]; [|by rewrite Forall_singleton].
    rewrite Forall_app, Forall_singleton. split; [done|by destruct (current (plan_asm p))]. }
  destruct completed as [|au l], (plan_start p) as [st|]; split; cbn [snd plan_asm plan_start plan_sps plan_pps]; try done;
    intros n; by apply latest_type.
Qed.

Lemma consumeNal_spec nal w k es :
  3 ≤ w_mtu w → 0 ≤ w_sequenceNumber w < 2 ^ 16 → plan_ok (planOf w k) → single_nal nal →
  let '(sends, p) := planNal nal (planOf w k) in
  ∃ w', consumeNal timer nal (mkWorld w k es) =
    (Returns (), mkWorld w' (plan_readings p)
       (es ++ spsCalls [nal] ++ render (trackOf w) (w_sequenceNumber w) (baseTimeMs w) sends)) ∧
  moved w w' p sends.
Proof.
  intros Hmtu Hseq Hok Hn. pose proof (planNal_ok nal _ Hok Hn) as Hok'. rewrite consumeNal_starts.
  destruct Hok as [Ha Hs Hst Hsps Hpps]. cbn [planOf plan_asm plan_start plan_sps plan_pps] in *.
  pose proof (pushNal_spec nal (assembler w) Ha) as Hp. unfold planNal in *. cbn [planOf plan_asm plan_start plan_sps plan_pps plan_readings] in *.
  destruct (pushNal nal (assembler w)) as [completed a]. cbn [snd] in *. destruct Hp as [_ Hp].
  set (w1 := with_assembler a (withNal nal w)) in *.
  assert (w_mtu w1 = w_mtu w ∧ w_sequenceNumber w1 = w_sequenceNumber w ∧ accessUnitStartMs w1 = accessUnitStartMs w ∧
          trackOf w1 = trackOf w ∧ baseTimeMs w1 = baseTimeMs w ∧ parser w1 = parser w ∧ assembler w1 = a ∧
          cachedSps w1 = latest NAL_TYPE_SPS (cachedSps w) [nal] ∧ cachedPps w1 = latest NAL_TYPE_PPS (cachedPps w) [nal])
    as (E1 & E2 & E3 & E4 & E5 & E6 & E7 & E8 & E9).
  { unfold w1, withNal. destruct w, (isKeyFrameNal nal); done. }
  destruct Hp as [[-> Hc]|(Hb & -> & Hc)].
  - destruct (accessUnitStartMs w) as [st|] eqn:Est; cbn [forEach fst snd fmap list_fmap] in *.
    + exists w1. split; [|split; [done| |done|done|done|by rewrite E1, E2|done]; unfold planOf; cbn [plan_readings]; by rewrite E3, E7, E8, E9].
      cbn. unfold mbind, M_bind, mret, M_ret, getWriter. cbn [writer]. rewrite E3. cbn. by rewrite app_nil_r.
    + exists (with_start (Some (timer k)) w1). split; [|split; [done| |done|done|done| |done]].
      2:{ unfold planOf, with_start. cbn [plan_readings assembler cachedSps cachedPps accessUnitStartMs]. by rewrite E7, E8, E9. }
      2:{ cbn [with_start w_mtu w_sequenceNumber]. by rewrite E1, E2. }
      cbn. unfold mbind, M_bind, mret, M_ret, getWriter. cbn [writer]. rewrite E3. cbn. by rewrite app_nil_r.
  - assert (current (assembler w) ≠ []) as Hne.
    { destruct Hb as [[? _]|[He _]]; [done|]. intros E. rewrite E in He. inversion He. }
    destruct (accessUnitStartMs w) as [st|] eqn:Est; [|by destruct Hne; apply Hst]. cbn [fst snd fmap list_fmap default] in *.
    set (x := mkSend st (withParameterSets (latest NAL_TYPE_SPS (cachedSps w) [nal]) (latest NAL_TYPE_PPS (cachedPps w) [nal])
                (current (assembler w)))).
    set (w2 := with_start None (afterSend st (length (unitsOf (w_mtu w1) (send_nals x))) w1)).
    exists (with_start (Some (timer k)) w2). split.
    + cbn [forEach].
      assert (writeCompleted timer (current (assembler w)) (mkWorld w1 k (es ++ spsCalls [nal])) =
        (Returns (), mkWorld w2 k ((es ++ spsCalls [nal]) ++ render (trackOf w1) (w_sequenceNumber w1) (baseTimeMs w1) [x]))) as Hw.
      { unfold w2, x. rewrite <- E8, <- E9. apply writeCompleted_spec; rewrite ?E1, ?E2, ?E3, ?E8, ?E9; try done.
        - intros n. by apply latest_type.
        - intros n. by apply latest_type. }
      unfold mbind, M_bind, mret, M_ret, getWriter. rewrite Hw. cbn [writer accessUnitStartMs w2 with_start].
      unfold now, modify. cbn [readings effects writer]. by rewrite <- app_assoc, E2, E4, E5.
    + split; cbn [with_start w_mtu w_sequenceNumber baseTimeMs parser]; [..|done].
      * done.
      * unfold planOf, w2, with_start, afterSend. cbn [plan_readings assembler cachedSps cachedPps accessUnitStartMs].
        by rewrite E7, E8, E9.
      * unfold w2, with_start, afterSend. cbn [w_sequenceNumber]. by rewrite E1, E2.
      * unfold w2, with_start, afterSend. cbn [baseTimeMs]. by rewrite E5.
      * done.
      * unfold w2, with_start, afterSend. cbn [w_mtu w_sequenceNumber]. rewrite E1. split; [done|].
        apply Z.mod_pos_bound. lia.
Qed.

(** ** Streams *)

Definition is_sps (e : Effect) : Prop := match e with OnSps _ => True | _ => False end.
#[export] Instance is_sps_dec e : Decision (is_sps e).
Proof. destruct e; cbn; apply _. Defined.
(** The calls that send, and the calls that report parameter sets. *)
Definition outputs (es : list Effect) : list Effect := filter (λ e, ¬ is_sps e) es.
Definition spsSeen (es : list Effect) : list Effect := filter is_sps es.

Lemma packetsFrom_outputs t seq ts units :
  outputs (packetsFrom t seq ts units) = packetsFrom t seq ts units ∧ spsSeen (packetsFrom t seq ts units) = [].
Proof.
  unfold outputs, spsSeen. revert seq. induction units as [|u units IH]; intros seq; [done|]. cbn [packetsFrom].
  rewrite filter_cons_True, filter_cons_False by (cbn; tauto). destruct (IH ((seq + 1) mod 2 ^ 16)) as [-> ->]. done.
Qed.
Lemma render_outputs t seq base sends :
  outputs (render t seq base sends) = render t seq base sends ∧ spsSeen (render t seq base sends) = [].
Proof.
  revert seq base. induction sends as [|x sends IH]; intros seq base; [done|]. cbn [render]. unfold outputs, spsSeen in *.
  rewrite !filter_app, filter_cons_True, (filter_cons_False is_sps) by (cbn; tauto).
  pose proof (packetsFrom_outputs t seq (timestampOf (default (send_start x) base) (send_start x))
    (unitsOf (t_mtu t) (send_nals x))) as [H1 H2]. unfold outputs, spsSeen in *. rewrite H1, H2.
  edestruct IH as [-> ->]. done.
Qed.
Lemma spsCalls_outputs nals : outputs (spsCalls nals) = [] ∧ spsSeen (spsCalls nals) = spsCalls nals.
Proof.
  unfold outputs, spsSeen, spsCalls. induction nals as [|n nals IH]; [done|]. rewrite filter_cons. case_decide; [|done].
  rewrite !fmap_cons, filter_cons_False, filter_cons_True by (cbn; tauto). destruct IH as [-> ->]. done.
Qed.

Lemma moved_refl w k :
  3 ≤ w_mtu w → 0 ≤ w_sequenceNumber w < 2 ^ 16 → plan_ok (planOf w k) → moved w w (planOf w k) [].
Proof. by split. Qed.
Lemma moved_trans w w1 w2 p1 p2 s1 s2 : moved w w1 p1 s1 → moved w1 w2 p2 s2 → moved w w2 p2 (s1 ++ s2).
Proof.
  intros [T1 P1 S1 B1 A1 _ _] [T2 P2 S2 B2 A2 R2 O2]. split; try done; try congruence.
  - unfold seqAfter in *. rewrite foldl_app, <- S1, S2, T1. done.
  - unfold baseAfter in *. by rewrite foldl_app, <- B1.
Qed.

(** A run from [w] that sends [sends] and reports the parameter sets among [nals]. *)
Definition runs {A} (m : M A) (a : A) (w : RtpH264TrackWriter) (k : nat) (nals : list bytes) (sends : list Send) (p : Plan)
    (after : RtpH264TrackWriter → Prop) : Prop :=
  ∀ es, ∃ w' es',
    m (mkWorld w k es) = (Returns a, mkWorld w' (plan_readings p) (es ++ es')) ∧
    outputs es' = render (trackOf w) (w_sequenceNumber w) (baseTimeMs w) sends ∧ spsSeen es' = spsCalls nals ∧ after w'.

Lemma runs_bind {A B} (m : M A) (f : A → M B) a b w k n1 n2 s1 s2 p1 p2 (P : RtpH264TrackWriter → Prop) :
  runs m a w k n1 s1 p1 (λ w1, trackOf w1 = trackOf w ∧
    w_sequenceNumber w1 = seqAfter (trackOf w) (w_sequenceNumber w) s1 ∧ baseTimeMs w1 = baseAfter (baseTimeMs w) s1 ∧
    runs (f a) b w1 (plan_readings p1) n2 s2 p2 P) →
  runs (m ≫= f) b w k (n1 ++ n2) (s1 ++ s2) p2 P.
Proof.
  intros H es. destruct (H es) as (w1 & e1 & E1 & O1 & Q1 & T1 & S1 & B1 & H2).
  destruct (H2 (es ++ e1)) as (w2 & e2 & E2 & O2 & Q2 & HP). exists w2, (e1 ++ e2).
  erewrite M_bind_Returns by exact E1. rewrite E2, <- app_assoc. split; [done|]. unfold outputs, spsSeen in *.
  rewrite !filter_app, O1, O2, Q1, Q2, render_app, T1, S1, B1. split; [done|]. split; [|done].
  unfold spsCalls. by rewrite filter_app, fmap_app.
Qed.

Lemma consumeNals_runs nals w k :
  3 ≤ w_mtu w → 0 ≤ w_sequenceNumber w < 2 ^ 16 → plan_ok (planOf w k) → Forall single_nal nals →
  let '(sends, p) := planNals nals (planOf w k) in
  runs (forEach (consumeNal timer) nals) () w k nals sends p (λ w', moved w w' p sends).
Proof.
  intros Hmtu Hseq Hok Hn. revert w k Hmtu Hseq Hok. induction Hn as [|nal nals Hnal _ IH]; intros w k Hmtu Hseq Hok.
  - intros es. exists w, []. cbn. rewrite app_nil_r. split; [done|]. split; [done|]. split; [done|]. by apply moved_refl.
  - cbn [planNals]. pose proof (consumeNal_spec nal w k) as Hc. destruct (planNal nal (planOf w k)) as [s1 p1].
    destruct (planNals nals p1) as [s2 p2] eqn:E2. cbn [forEach]. apply (runs_bind _ _ () _ _ _ [nal] nals s1 s2 p1).
    intros es. destruct (Hc es Hmtu Hseq Hok Hnal) as (w1 & E1 & Hm). exists w1. eexists. split; [exact E1|].
    destruct (render_outputs (trackOf w) (w_sequenceNumber w) (baseTimeMs w) s1) as [HO HS].
    destruct (spsCalls_outputs [nal]) as [HO' HS']. unfold outputs, spsSeen in *.
    rewrite !filter_app, HO, HS, HO', HS', app_nil_r. split; [done|]. split; [done|].
    destruct (Hm) as [T1 P1 S1 B1 _ [R1 R1'] O1]. do 3 (split; [done|]). specialize (IH w1 (plan_readings p1) R1 R1').
    rewrite P1, E2 in IH. specialize (IH O1). intros es2. destruct (IH es2) as (w2 & e2 & ? & ? & ? & Hm2).
    exists w2, e2. do 3 (split; [done|]). by apply (moved_trans _ _ _ _ _ _ _ Hm).
Qed.
End Sends.
