(* ===== verification/RtpStreams.v ===== *)
(** * Streams through the RTP writer

    The access units a stream is sent as, the receiver's view of the packets, and
    what the packet boundaries of a producer change. *)
From S2P Require Import Prelude Bytes H264 AnnexB RtpPackets RtpWriter RtpProperties.
From stdpp Require Import list.
Local Open Scope Z_scope.

(** The access units as they are sent.  One is sent when the NAL unit after it is
    consumed, whose parameter set counts already. *)
Fixpoint sentUnits (sps pps : option bytes) (aus : list (list bytes)) : list (list bytes) :=
  match aus with
  | [] => []
  | au :: rest =>
      let known := au ++ take 1 (concat rest) in
      withParameterSets (latest NAL_TYPE_SPS sps known) (latest NAL_TYPE_PPS pps known) au ::
      sentUnits (latest NAL_TYPE_SPS sps au) (latest NAL_TYPE_PPS pps au) rest
  end.

Lemma latest_app type old a b : latest type old (a ++ b) = latest type (latest type old a) b.
Proof. apply foldl_app. Qed.

Section Streams.
Context (timer : nat → Z).

Lemma planNals_app a b p :
  planNals timer (a ++ b) p =
  ((planNals timer a p).1 ++ (planNals timer b (planNals timer a p).2).1, (planNals timer b (planNals timer a p).2).2).
Proof.
  revert p. induction a as [|x a IH]; intros p; cbn [app planNals]; [cbn; by destruct (planNals timer b p)|].
  destruct (planNal timer x p) as [s1 p1]. rewrite IH. destruct (planNals timer a p1) as [s2 p2]. cbn [fst snd].
  by rewrite app_assoc.
Qed.

(** The sends of a stream that ends with a flush. *)
Lemma planNals_sent nals p s0 p0 :
  plan_ok p → Forall single_nal nals →
  plan_sps p = latest NAL_TYPE_SPS s0 (current (plan_asm p)) → plan_pps p = latest NAL_TYPE_PPS p0 (current (plan_asm p)) →
  let '(sends, p1) := planNals timer nals p in
  let '(out, a) := pushNals nals (plan_asm p) in
  plan_ok p1 ∧ plan_asm p1 = a ∧
  send_nals <$> (sends ++ (planRelease flushAssembler p1).1) = sentUnits s0 p0 (out ++ (flushAssembler a).1) ∧
  send_start <$> (sends ++ (planRelease flushAssembler p1).1) =
    option_list (plan_start p) ++
    (timer <$> seq (plan_readings p) (plan_readings p1 - plan_readings p)) ∧ (plan_readings p ≤ plan_readings p1)%nat.
Proof.
  intros Hok Hn. revert p s0 p0 Hok. induction Hn as [|nal nals Hnal _ IH]; intros p s0 p0 Hok Hs Hp; cbn [planNals pushNals].
  - split; [done|]. split; [done|]. rewrite Nat.sub_diag, app_nil_r. destruct Hok as [Ha _ Hst _ _].
    unfold planRelease, flushAssembler. rewrite Hs, Hp. destruct (current (plan_asm p)) as [|n l] eqn:E; cbn.
    + by rewrite (proj2 Hst).
    + rewrite !app_nil_r. split; [done|]. destruct (plan_start p); [done|]. by discriminate (proj1 Hst).
  - pose proof (planNal_ok timer nal p Hok Hnal) as Hok1. pose proof (pushNal_spec nal (plan_asm p) (plan_assembling p Hok)) as Hpush.
    unfold planNal in *. destruct (pushNal nal (plan_asm p)) as [completed a]. destruct Hpush as [_ Hpush].
    destruct Hpush as [[-> Hc]|(Hb & -> & Hc)].
    + destruct (plan_start p) as [st|] eqn:Est; cbn [fst snd fmap list_fmap] in *.
      * specialize (IH _ s0 p0 Hok1). cbn [plan_asm plan_sps plan_pps plan_start plan_readings] in IH.
        rewrite Hc, !latest_app, <- Hs, <- Hp in IH. specialize (IH eq_refl eq_refl).
        destruct (planNals timer nals _) as [sends p1], (pushNals nals a) as [out a']. done.
      * specialize (IH _ s0 p0 Hok1). cbn [plan_asm plan_sps plan_pps plan_start plan_readings] in IH.
        rewrite Hc, !latest_app, <- Hs, <- Hp in IH. specialize (IH eq_refl eq_refl).
        destruct (planNals timer nals _) as [sends p1], (pushNals nals a) as [out a']. cbn [app].
        destruct IH as (H1 & H2 & H3 & H4 & H5). do 3 (split; [done|]). rewrite H4. split; [|lia].
        replace (plan_readings p1 - plan_readings p)%nat with (S (plan_readings p1 - S (plan_readings p))) by lia. done.
    + assert (∃ st, plan_start p = Some st) as [st Est].
      { destruct (plan_start p) eqn:Est; [by eexists|]. exfalso. apply (plan_started p Hok) in Est.
        destruct Hb as [[? _]|[He _]]; [done|]. rewrite Est in He. inversion He. }
      rewrite Est in *. cbn [fst snd fmap list_fmap] in *.
      specialize (IH _ (latest NAL_TYPE_SPS s0 (current (plan_asm p))) (latest NAL_TYPE_PPS p0 (current (plan_asm p))) Hok1).
      cbn [plan_asm plan_sps plan_pps plan_start plan_readings] in IH.
      rewrite Hc, <- Hs, <- Hp in IH. specialize (IH eq_refl eq_refl).
      pose proof (pushNals_grouping nals a) as Hg. destruct (planNals timer nals _) as [sends p1], (pushNals nals a) as [out a'].
      destruct IH as (H1 & H2 & H3 & H4 & H5). split; [done|]. split; [done|].
      destruct Hg as (_ & _ & Hg). { apply (plan_assembling _ Hok1). }
      rewrite Hc in Hg. cbn [app fmap list_fmap sentUnits]. rewrite Hg. cbn [app take]. rewrite !latest_app, <- Hs, <- Hp.
      split; [by f_equal|]. split; [|lia]. cbn. f_equal. rewrite H4.
      replace (plan_readings p1 - plan_readings p)%nat with (S (plan_readings p1 - S (plan_readings p))) by lia. done.
Qed.

(** ** Chunks and releases *)

Lemma writeChunk_runs c nals pr w k :
  pushChunk c (parser w) = (Returns nals, pr) →
  3 ≤ w_mtu w → 0 ≤ w_sequenceNumber w < 2 ^ 16 → plan_ok (planOf w k) → Forall single_nal nals →
  let '(sends, p) := planNals timer nals (planOf w k) in
  runs (writeChunk timer c) () w k nals sends p (λ w', moved (with_parser pr w) w' p sends).
Proof.
  intros E Hmtu Hseq Hok Hn. pose proof (consumeNals_runs timer nals (with_parser pr w) k Hmtu Hseq Hok Hn) as H.
  change (planOf (with_parser pr w) k) with (planOf w k) in H. destruct (planNals timer nals (planOf w k)) as [sends p].
  intros es. destruct (H es) as (w' & es' & E' & Hrest). exists w', es'. split; [|exact Hrest].
  unfold writeChunk. erewrite M_bind_Returns by done. cbn [writer]. rewrite E. exact E'.
Qed.

Lemma moved_runs w w1 p1 s1 :
  moved w w1 p1 s1 →
  trackOf w1 = trackOf w ∧ w_sequenceNumber w1 = seqAfter (trackOf w) (w_sequenceNumber w) s1 ∧
  baseTimeMs w1 = baseAfter (baseTimeMs w) s1.
Proof. by intros []. Qed.
Lemma runs_weaken {A} (m : M A) a w k nals sends p (P Q : RtpH264TrackWriter → Prop) :
  runs m a w k nals sends p P → (∀ w', P w' → Q w') → runs m a w k nals sends p Q.
Proof. intros H HPQ es. destruct (H es) as (w' & es' & ? & ? & ? & HP). exists w', es'. auto. Qed.

Lemma writeChunks_runs chunks nals pr w k :
  pushChunks chunks (parser w) = (Returns nals, pr) →
  3 ≤ w_mtu w → 0 ≤ w_sequenceNumber w < 2 ^ 16 → plan_ok (planOf w k) → Forall single_nal nals →
  let '(sends, p) := planNals timer nals (planOf w k) in
  runs (forEach (writeChunk timer) chunks) () w k nals sends p (λ w', moved (with_parser pr w) w' p sends).
Proof.
  revert nals w k. induction chunks as [|c chunks IH]; intros nals w k E Hmtu Hseq Hok Hn.
  - injection E as <- <-. intros es. exists w, []. cbn. rewrite app_nil_r. do 3 (split; [done|]).
    replace (with_parser (parser w) w) with w by by destruct w. by apply moved_refl.
  - cbn [pushChunks] in E. destruct (pushChunk c (parser w)) as [[n1|e] p1] eqn:E1; [|done].
    destruct (pushChunks chunks p1) as [[n2|e] p2] eqn:E2; [|done]. injection E as <- <-.
    apply Forall_app in Hn as [Hn1 Hn2]. pose proof (writeChunk_runs c n1 p1 w k E1 Hmtu Hseq Hok Hn1) as H1.
    rewrite planNals_app. destruct (planNals timer n1 (planOf w k)) as [s1 q1]. cbn [fst snd].
    destruct (planNals timer n2 q1) as [s2 q2] eqn:Eq. cbn [fst snd forEach].
    apply (runs_bind _ _ () _ _ _ n1 n2 s1 s2 q1). eapply runs_weaken; [exact H1|]. intros w1 Hm. cbn beta.
    destruct (moved_runs _ _ _ _ Hm) as (T1 & S1 & B1). do 3 (split; [done|]).
    destruct (Hm) as [_ P1 _ _ Hp1 [R1 R1'] O1]. cbn [with_parser parser] in Hp1.
    specialize (IH n2 w1 (plan_readings q1)). rewrite Hp1, P1, Eq in IH. eapply runs_weaken; [by apply IH|].
    intros w2 Hm2. cbn beta. apply (moved_trans _ (with_parser p2 w1) _ q1); [|done].
    destruct Hm as [T P S B A R O]. by split.
Qed.

(** How a release of the assembler may act. *)
Definition releases (release : H264AccessUnitAssembler → list (list bytes) * H264AccessUnitAssembler) : Prop :=
  ∀ a, assembling a →
    release a = ([], a) ∨ (release a = ([current a], newAssembler) ∧ current a ≠ []).
Lemma flushAssembler_releases : releases flushAssembler.
Proof. intros a _. unfold flushAssembler. destruct (current a); [by left|by right]. Qed.
Lemma flushPicture_releases : releases flushPicture.
Proof. intros a Ha. unfold flushPicture. destruct (hasVcl a); [by apply flushAssembler_releases|by left]. Qed.

Lemma release_runs release w k :
  releases release → 3 ≤ w_mtu w → 0 ≤ w_sequenceNumber w < 2 ^ 16 → plan_ok (planOf w k) →
  let '(sends, p) := planRelease release (planOf w k) in
  runs (w ← getWriter;
        let '(completed, a) := release (assembler w) in
        modify (with_assembler a);; forEach (writeCompleted timer) completed) () w k [] sends p
    (λ w', moved w w' p sends).
Proof.
  intros Hr Hmtu Hseq Hok. unfold planRelease. destruct Hok as [Ha Hs Hst Hsps Hpps].
  cbn [planOf plan_asm plan_start plan_sps plan_pps plan_readings] in *.
  destruct (Hr _ Ha) as [E|[E Hne]]; rewrite E; cbn [fmap list_fmap]; intros es.
  - exists w, []. unfold mbind, M_bind, getWriter. cbn [writer]. rewrite E. cbn. rewrite app_nil_r.
    replace (with_assembler (assembler w) w) with w by by destruct w. do 3 (split; [done|]). by apply moved_refl.
  - destruct (accessUnitStartMs w) as [st|] eqn:Est; [|by destruct Hne; apply Hst].
    pose proof (writeCompleted_spec timer (current (assembler w)) st (with_assembler newAssembler w) k es
      Hmtu Hseq Est Hsps Hpps Hs Hne) as Hw. cbn zeta in Hw.
    eexists. eexists. split; [|split; [|split]].
    + unfold mbind, M_bind, getWriter. cbn [writer]. rewrite E. cbn [forEach].
      unfold modify. cbn [writer readings effects]. unfold mbind, M_bind. rewrite Hw. done.
    + apply render_outputs.
    + apply render_outputs.
    + split; try done.
      * cbn [with_start w_mtu w_sequenceNumber afterSend with_assembler]. split; [done|]. apply Z.mod_pos_bound. lia.
      * split; cbn; try done. apply newAssembler_assembling.
Qed.

Lemma finish_runs release nals pr w k :
  flushParser (parser w) = (nals, pr) → releases release →
  3 ≤ w_mtu w → 0 ≤ w_sequenceNumber w < 2 ^ 16 → plan_ok (planOf w k) → Forall single_nal nals →
  let '(s1, p1) := planNals timer nals (planOf w k) in
  let '(s2, p2) := planRelease release p1 in
  runs (finish timer release) () w k nals (s1 ++ s2) p2 (λ w', moved (with_parser pr w) w' p2 (s1 ++ s2)).
Proof.
  intros E Hr Hmtu Hseq Hok Hn. pose proof (consumeNals_runs timer nals (with_parser pr w) k Hmtu Hseq Hok Hn) as H.
  change (planOf (with_parser pr w) k) with (planOf w k) in H. destruct (planNals timer nals (planOf w k)) as [s1 p1].
  destruct (planRelease release p1) as [s2 p2] eqn:Ep. rewrite <- (app_nil_r nals).
  assert (runs (forEach (consumeNal timer) nals;;
    (w ← getWriter;
     let '(completed, a) := release (assembler w) in
     modify (with_assembler a);; forEach (writeCompleted timer) completed)) () (with_parser pr w) k (nals ++ []) (s1 ++ s2) p2
    (λ w', moved (with_parser pr w) w' p2 (s1 ++ s2))) as Hall.
  { apply (runs_bind _ _ () _ _ _ nals [] s1 s2 p1). eapply runs_weaken; [exact H|]. intros w1 Hm. cbn beta.
    destruct (moved_runs _ _ _ _ Hm) as (T1 & S1 & B1). do 3 (split; [done|]). destruct (Hm) as [_ P1 _ _ _ [R1 R1'] O1].
    rewrite <- P1 in O1. pose proof (release_runs release w1 (plan_readings p1) Hr R1 R1' O1) as H2. rewrite P1, Ep in H2.
    eapply runs_weaken; [exact H2|]. intros w2 Hm2. exact (moved_trans _ _ _ _ _ _ _ Hm Hm2). }
  intros es. destruct (Hall es) as (w' & es' & E' & Hrest). exists w', es'. split; [|exact Hrest].
  unfold finish. erewrite M_bind_Returns by done. cbn [writer]. rewrite E. exact E'.
Qed.

(** A run that ends with a flush. *)
Lemma runs_flush m w k nals s1 p1 pr last pr' :
  runs m () w k nals s1 p1 (λ w1, moved (with_parser pr w) w1 p1 s1) →
  flushParser pr = (last, pr') → Forall single_nal last →
  let '(s2, p2) := planNals timer last p1 in
  let '(s3, p3) := planRelease flushAssembler p2 in
  runs (m;; flush timer) () w k (nals ++ last) (s1 ++ (s2 ++ s3)) p3 (λ _, True).
Proof.
  intros H1 Ef Hl. destruct (planNals timer last p1) as [s2 p2] eqn:E2.
  destruct (planRelease flushAssembler p2) as [s3 p3] eqn:E3.
  apply (runs_bind _ _ () _ _ _ nals last s1 (s2 ++ s3) p1). eapply runs_weaken; [exact H1|]. intros w1 Hm. cbn beta in *.
  destruct (moved_runs _ _ _ _ Hm) as (T1 & S1 & B1). do 3 (split; [done|]). destruct (Hm) as [_ P1 _ _ Hp1 [R1 R1'] O1].
  rewrite <- P1 in O1. cbn [with_parser parser] in Hp1. rewrite <- Hp1 in Ef.
  pose proof (finish_runs flushAssembler last pr' w1 (plan_readings p1) Ef flushAssembler_releases R1 R1' O1 Hl) as H3.
  rewrite P1, E2, E3 in H3. by eapply runs_weaken.
Qed.
End Streams.
