(* ===== verification/RtpDelivery.v ===== *)
(** * What the receiver of an RTP track gets

    The packets of a stream reassemble to its access units, key frames carry the
    parameter sets, and a producer that signals its packet boundaries gets the
    same packets, earlier. *)
From S2P Require Import Prelude Bytes H264 AnnexB RtpPackets RtpWriter RtpProperties RtpStreams.
From stdpp Require Import list.
Local Open Scope Z_scope.

(** ** Packets *)

Definition packet_of (e : Effect) : option (RtpHeader * bytes) :=
  match e with WriteRtp h p => Some (h, p) | _ => None end.
Definition packets (es : list Effect) : list (RtpHeader * bytes) := omap packet_of es.

Lemma packets_app a b : packets (a ++ b) = packets a ++ packets b.
Proof. apply omap_app. Qed.
Lemma packets_outputs es : packets (outputs es) = packets es.
Proof.
  unfold outputs. induction es as [|e es IH]; [done|]. rewrite filter_cons.
  change (packets (e :: es)) with (match packet_of e with Some y => y :: packets es | None => packets es end).
  destruct e; cbn [is_sps packet_of]; [rewrite decide_False by tauto|rewrite decide_True by tauto|rewrite decide_True by tauto].
  - exact IH.
  - change (packets (WriteRtp header packet :: ?l)) with ((header, packet) :: packets l). by rewrite IH.
  - exact IH.
Qed.

Lemma packets_from t seq ts units :
  (packets (packetsFrom t seq ts units)).*2 = payload <$> units ∧
  length (packets (packetsFrom t seq ts units)) = length units ∧
  ∀ i h p, packets (packetsFrom t seq ts units) !! i = Some (h, p) → 0 ≤ seq < 2 ^ 16 →
    sequenceNumber h = (seq + Z.of_nat i) mod 2 ^ 16.
Proof.
  revert seq. induction units as [|u units IH]; intros seq; [done|]. cbn [packetsFrom].
  change (packets (WriteRtp ?h ?p :: ?l)) with ((h, p) :: packets l). rewrite !fmap_cons. cbn [length snd].
  destruct (IH ((seq + 1) mod 2 ^ 16)) as (-> & -> & H). split; [done|]. split; [done|].
  intros [|i] h p E Hs; cbn [lookup list_lookup] in E.
  - injection E as <- <-. cbn. rewrite Z.add_0_r, Z.mod_small; done.
  - rewrite (H i h p E) by (apply Z.mod_pos_bound; lia). rewrite Zplus_mod_idemp_l. f_equal. lia.
Qed.

Lemma packets_render t seq base sends :
  3 ≤ t_mtu t → 0 ≤ seq < 2 ^ 16 → Forall (λ x, Forall single_nal (send_nals x)) sends →
  reassemble None (packets (render t seq base sends)).*2 = Some (concat (send_nals <$> sends)) ∧
  ∀ i h p, packets (render t seq base sends) !! i = Some (h, p) → sequenceNumber h = (seq + Z.of_nat i) mod 2 ^ 16.
Proof.
  intros Hmtu Hseq Hs. revert seq base Hseq. induction Hs as [|x sends Hx _ IH]; intros seq base Hseq; [done|].
  cbn [render]. destruct (access_unit_units _ _ Hmtu Hx) as (units & E & _ & Hr).
  assert (unitsOf (t_mtu t) (send_nals x) = units) as -> by (unfold unitsOf; by rewrite E).
  set (base' := default (send_start x) base). set (seq' := (seq + Z.of_nat (length units)) mod 2 ^ 16).
  destruct (packets_from t seq (timestampOf base' (send_start x)) units) as (Hp & Hl & Hn).
  destruct (IH seq' (Some base')) as [Hr' Hn']; [apply Z.mod_pos_bound; lia|]. rewrite packets_app.
  change (packets (OnAccessUnit ?a ?b ?c :: ?l)) with (packets l). split.
  - rewrite fmap_app, Hp, Hr, Hr'. done.
  - intros i h p Hi. apply lookup_app_Some in Hi as [Hi|[Hge Hi]]; [by eapply Hn|].
    rewrite Hl in Hge, Hi. rewrite (Hn' _ _ _ Hi). unfold seq'. rewrite Zplus_mod_idemp_l. f_equal. lia.
Qed.

(** ** Key frames *)

Lemma hasType_app type a b : hasType type (a ++ b) = hasType type a || hasType type b.
Proof. apply existsb_app. Qed.
Lemma latest_known type old nals : is_Some (latest type old nals) ↔ is_Some old ∨ hasType type nals = true.
Proof.
  unfold latest, hasType. revert old. induction nals as [|n nals IH]; intros old; cbn [foldl existsb].
  - split; [by left|by intros [|]].
  - rewrite IH, orb_true_iff. destruct (nalUnitType n =? type); split.
    + intros _. right. by left.
    + intros _. by left.
    + intros [|]; [by left|by right; right].
    + intros [|[[=]|]]; [by left|by right].
Qed.
Lemma withParameterSets_complete sps pps au :
  (∀ n, sps = Some n → nalUnitType n = NAL_TYPE_SPS) → (∀ n, pps = Some n → nalUnitType n = NAL_TYPE_PPS) →
  hasType NAL_TYPE_IDR au = true →
  (is_Some sps → hasType NAL_TYPE_SPS (withParameterSets sps pps au) = true) ∧
  (is_Some pps → hasType NAL_TYPE_PPS (withParameterSets sps pps au) = true).
Proof.
  intros Hs Hp Hi. rewrite withParameterSets_spec, Hi. split; intros [n ->]; rewrite !hasType_app.
  - destruct (hasType NAL_TYPE_SPS au); [by rewrite orb_true_r|]. cbn. by rewrite (Hs n).
  - destruct (hasType NAL_TYPE_PPS au); [by rewrite orb_true_r|]. cbn. rewrite (Hp n) by done. cbn.
    by rewrite !orb_true_r.
Qed.

Lemma sentUnits_lookup sps pps before au after :
  sentUnits sps pps (before ++ au :: after) !! length before =
  Some (withParameterSets (latest NAL_TYPE_SPS sps (concat before ++ au ++ take 1 (concat after)))
                          (latest NAL_TYPE_PPS pps (concat before ++ au ++ take 1 (concat after))) au).
Proof.
  revert sps pps. induction before as [|b before IH]; intros sps pps; [done|]. cbn [app sentUnits length lookup list_lookup].
  rewrite IH. cbn [concat]. by rewrite <- (app_assoc b), !(latest_app _ _ b).
Qed.
Lemma sentUnits_length sps pps aus : length (sentUnits sps pps aus) = length aus.
Proof. revert sps pps. induction aus as [|au aus IH]; intros sps pps; [done|]. cbn. by rewrite IH. Qed.

Lemma latest_elem type old nals n :
  latest type old nals = Some n → old = Some n ∨ (n ∈ nals ∧ nalUnitType n = type).
Proof.
  unfold latest. revert old. induction nals as [|m nals IH]; intros old E; cbn [foldl] in E; [by left|].
  destruct (IH _ E) as [Hm|[Hin Ht]]; [|right; split; [by right|done]].
  destruct (Z.eqb_spec (nalUnitType m) type); [|by left]. injection Hm as ->. right. split; [left|done].
Qed.

(** A key frame is sent with an SPS and a PPS when one was in the stream up to it;
    the access unit itself is sent unchanged, behind parameter sets of the stream up
    to the NAL unit after it; an access unit without a key frame gets none. *)
Theorem key_frames_self_contained before au after :
  let nals := concat before ++ au in
  ∃ prefix, sentUnits None None (before ++ au :: after) !! length before = Some (prefix ++ au) ∧
    (hasType NAL_TYPE_IDR au = false → prefix = []) ∧
    Forall (λ n, n ∈ nals ++ take 1 (concat after) ∧ (nalUnitType n = NAL_TYPE_SPS ∨ nalUnitType n = NAL_TYPE_PPS)) prefix ∧
    (hasType NAL_TYPE_IDR au = true →
     (hasType NAL_TYPE_SPS nals = true → hasType NAL_TYPE_SPS (prefix ++ au) = true) ∧
     (hasType NAL_TYPE_PPS nals = true → hasType NAL_TYPE_PPS (prefix ++ au) = true)).
Proof.
  intros nals. rewrite sentUnits_lookup, app_assoc. fold nals. set (known := nals ++ take 1 (concat after)).
  assert (∀ t n, latest t None known = Some n → n ∈ known ∧ nalUnitType n = t) as Hin.
  { intros t n [?|?]%latest_elem; done. }
  pose proof (withParameterSets_complete (latest NAL_TYPE_SPS None known) (latest NAL_TYPE_PPS None known) au
    (λ n E, proj2 (Hin _ _ E)) (λ n E, proj2 (Hin _ _ E))) as Hfull.
  rewrite withParameterSets_spec in *. eexists. split; [done|]. split; [by intros ->|]. split.
  - destruct (hasType NAL_TYPE_IDR au); [|done].
    assert (∀ (b : bool) t, t = NAL_TYPE_SPS ∨ t = NAL_TYPE_PPS → Forall (λ n, n ∈ known ∧
      (nalUnitType n = NAL_TYPE_SPS ∨ nalUnitType n = NAL_TYPE_PPS)) (if b then [] else option_list (latest t None known))) as H.
    { intros b t Ht. destruct b; [done|]. destruct (latest t None known) as [n|] eqn:E; [|done].
      destruct (Hin _ _ E) as [Hn Htn]. apply Forall_singleton. split; [done|]. rewrite Htn. done. }
    apply Forall_app. split; apply H; [by left|by right].
  - intros Hi. destruct (Hfull Hi) as [H1 H2]. split; intros Ht; [apply H1|apply H2]; apply latest_known; right;
      unfold known; by rewrite hasType_app, Ht.
Qed.

(** ** The stream *)

Lemma sends_zip (sends : list Send) : sends = zip_with mkSend (send_start <$> sends) (send_nals <$> sends).
Proof. induction sends as [|[] sends IH]; [done|]. rewrite !fmap_cons. cbn [zip_with]. by rewrite <- IH. Qed.

Lemma newWriter_ready options w0 k :
  newWriter options = Returns w0 →
  3 ≤ w_mtu w0 ∧ 0 ≤ w_sequenceNumber w0 < 2 ^ 16 ∧ plan_ok (planOf w0 k) ∧
  parser w0 = mkAnnexB [] MAX_ANNEX_B_BUFFER_BYTES ∧ planOf w0 k = mkPlan newAssembler None None None k ∧
  baseTimeMs w0 = None.
Proof.
  unfold newWriter. destruct (_ || _) eqn:E; [done|]. intros [= <-]. apply orb_false_iff in E as [_ E%Z.ltb_ge].
  cbn [w_mtu w_sequenceNumber parser baseTimeMs]. split; [done|]. rewrite land_seq. split; [apply Z.mod_pos_bound; lia|].
  split; [|done]. split; cbn; try done. apply newAssembler_assembling.
Qed.

Lemma sentUnits_single sps pps aus :
  (∀ n, sps = Some n → nalUnitType n = NAL_TYPE_SPS) → (∀ n, pps = Some n → nalUnitType n = NAL_TYPE_PPS) →
  Forall single_nal (concat aus) → Forall (Forall single_nal) (sentUnits sps pps aus).
Proof.
  revert sps pps. induction aus as [|au aus IH]; intros sps pps Hs Hp Ha; [constructor|]. cbn [sentUnits concat] in *.
  apply Forall_app in Ha as [Ha Hrest]. constructor.
  - apply withParameterSets_single; [| |done]; intros n; by apply latest_type.
  - apply IH; [| |done]; intros n; by apply latest_type.
Qed.

Section Delivery.
Context (timer : nat → Z).

(** From a fresh writer, all the chunks and the flush, by the NAL units parsed. *)
Lemma stream_runs options w0 k chunks nals pr :
  newWriter options = Returns w0 → pushChunks chunks (mkAnnexB [] MAX_ANNEX_B_BUFFER_BYTES) = (Returns nals, pr) →
  Forall single_nal (nals ++ (flushParser pr).1) →
  ∃ aus w' k' es,
    grouping aus ∧ concat aus = nals ++ (flushParser pr).1 ∧
    (forEach (writeChunk timer) chunks;; flush timer) (mkWorld w0 k []) = (Returns (), mkWorld w' k' es) ∧
    spsSeen es = spsCalls (nals ++ (flushParser pr).1) ∧
    outputs es = render (trackOf w0) (w_sequenceNumber w0) None
      (zip_with mkSend (timer <$> seq k (length aus)) (sentUnits None None aus)).
Proof.
  intros Hw E Hs. destruct (newWriter_ready _ _ k Hw) as (Hmtu & Hseq & Hok & Hpr & Hplan & Hbase).
  destruct (flushParser pr) as [last pr'] eqn:Ef. cbn [fst] in *. pose proof Hs as [Hn Hl]%Forall_app.
  rewrite <- Hpr in E. pose proof (writeChunks_runs timer chunks nals pr w0 k E Hmtu Hseq Hok Hn) as H1.
  pose proof (planNals_sent timer (nals ++ last) (planOf w0 k) None None Hok Hs) as H2. rewrite planNals_app in H2.
  destruct (planNals timer nals (planOf w0 k)) as [s1 p1]. cbn [fst snd] in H2.
  destruct (planNals timer last p1) as [s2 p2] eqn:E2. cbn [fst snd] in H2.
  rewrite Hplan in H2. cbn [plan_asm plan_sps plan_pps plan_start plan_readings] in H2. specialize (H2 eq_refl eq_refl).
  pose proof (pushNals_grouping (nals ++ last) _ newAssembler_assembling) as Hg.
  destruct (pushNals (nals ++ last) newAssembler) as [out a]. destruct Hg as (_ & Hg & Hcat).
  destruct H2 as (_ & _ & Hsent & Hstart & _). set (aus := out ++ (flushAssembler a).1) in *.
  destruct (planRelease flushAssembler p2) as [s3 p3] eqn:E3. cbn [fst] in *.
  pose proof (runs_flush timer _ _ _ _ _ _ _ _ _ H1 Ef Hl) as Hrun. rewrite E2, E3 in Hrun.
  destruct (Hrun []) as (w' & es & E' & Ho & Hsp & _). exists aus, w', (plan_readings p3), es.
  do 2 (split; [done|]). split; [done|]. split; [done|]. rewrite Ho, Hbase, app_assoc. f_equal.
  rewrite (sends_zip ((s1 ++ s2) ++ s3)), Hsent, Hstart. cbn [option_list app]. unfold option_list, option_rect. cbn [app].
  do 2 f_equal. apply (f_equal length) in Hsent, Hstart. rewrite length_fmap, sentUnits_length in Hsent.
  unfold option_list, option_rect in Hstart. cbn [app] in Hstart. rewrite !length_fmap, length_seq in Hstart.
  congruence.
Qed.

(** C32. A fresh writer gets a stream of NAL units in any chunks and the flush.  It
    throws nothing; it sends the access units of the stream, in order, each with the
    time stamp of the clock reading at its first NAL unit; it reports every SPS; the
    receiver reassembles exactly what [sentUnits] says; the sequence numbers are
    consecutive modulo 2^16. *)
Theorem writer_delivers_stream options w0 k N M units chunks :
  newWriter options = Returns w0 →
  Forall (λ u, (nal_ok u.2 ∧ (length u.2 ≤ N)%nat) ∧ single_nal u.2) units → concat chunks = annexB units →
  Forall (λ c, (length c ≤ M)%nat) chunks → Z.of_nat (N + 7 + M) ≤ MAX_ANNEX_B_BUFFER_BYTES →
  ∃ aus w' k' es,
    grouping aus ∧ concat aus = units.*2 ∧
    (forEach (writeChunk timer) chunks;; flush timer) (mkWorld w0 k []) = (Returns (), mkWorld w' k' es) ∧
    spsSeen es = spsCalls units.*2 ∧
    outputs es = render (trackOf w0) (w_sequenceNumber w0) None
      (zip_with mkSend (timer <$> seq k (length aus)) (sentUnits None None aus)) ∧
    reassemble None (packets es).*2 = Some (concat (sentUnits None None aus)) ∧
    ∀ i h p, packets es !! i = Some (h, p) → sequenceNumber h = (w_sequenceNumber w0 + Z.of_nat i) mod 2 ^ 16.
Proof.
  intros Hw Hu Hcat Hc Hmax. apply Forall_and in Hu as [Hu Hs].
  destruct (annexb_parses N M _ units chunks Hu Hcat Hc Hmax) as (nals & pr & E & Ef).
  destruct (stream_runs options w0 k chunks nals pr Hw E) as (aus & w' & k' & es & Hg & Hca & Hrun & Hsps & Ho).
  { rewrite Ef. by apply Forall_fmap. }
  rewrite Ef in *. destruct (newWriter_ready _ _ k Hw) as (Hmtu & Hseq & _). exists aus, w', k', es.
  do 5 (split; [done|]). rewrite <- packets_outputs, Ho.
  set (sends := zip_with mkSend (timer <$> seq k (length aus)) (sentUnits None None aus)).
  assert (send_nals <$> sends = sentUnits None None aus) as Hsn.
  { unfold sends. apply fmap_zip_with_r; [done|]. by rewrite sentUnits_length, length_fmap, length_seq. }
  destruct (packets_render (trackOf w0) (w_sequenceNumber w0) None sends Hmtu Hseq) as [Hr Hn].
  { apply Forall_fmap. rewrite Hsn. apply sentUnits_single; [done|done|]. rewrite Hca. by apply Forall_fmap. }
  by rewrite Hr, Hsn.
Qed.
End Delivery.

(** NAL units of a small stream, for the witnesses. *)
Definition a_sps (n : Z) : bytes := to_byte <$> [0x67; 1; n].
Definition a_pps (n : Z) : bytes := to_byte <$> [0x68; n].
Definition an_idr : bytes := to_byte <$> [0x65; 0x88; 3; 4; 5; 6].
Definition a_slice : bytes := to_byte <$> [0x41; 0x9a; 7].

Ltac solve_nal_ok :=
  split; [done|]; split; [done|]; intros a b E; pose proof (f_equal (@length byte) E) as El; rewrite !length_app in El; cbn in El;
  do 4 (destruct a as [|? a]; [vm_compute in E; discriminate|]); cbn in El; lia.

Lemma small_stream_ok n :
  In n [1; 2] →
  Forall (λ u, (nal_ok u.2 ∧ (length u.2 ≤ 6)%nat) ∧ single_nal u.2)
    [(true, a_sps n); (false, a_pps n); (true, an_idr); (true, a_slice)].
Proof.
  intros Hn. assert (∀ m, In m [1; 2] → nal_ok (a_sps m) ∧ nal_ok (a_pps m)) as Hm.
  { intros m [<-|[<-|[]]]; split; solve_nal_ok. }
  destruct (Hm n Hn) as [Hs Hp]. assert (nal_ok an_idr ∧ nal_ok a_slice) as [Hi Hl] by (split; solve_nal_ok).
  repeat (apply Forall_cons; split); try apply Forall_nil; try done; (split; [split; [done|cbn; lia]|]);
    destruct Hn as [<-|[<-|[]]]; vm_compute; split; discriminate.
Qed.

Lemma writer_delivers_stream_witness :
  let stream := annexB [(true, a_sps 1); (false, a_pps 1); (true, an_idr); (true, a_slice)] in
  let options := mkOptions 7 None (Some 5) (Some 65535) in
  let timer n := 1000 + 40 * Z.of_nat n in
  let run := forEach (writeChunk timer) [take 5 stream; drop 5 stream];; flush timer in
  match newWriter options with
  | Returns w0 =>
      ∃ aus s, grouping aus ∧ concat aus = [a_sps 1; a_pps 1; an_idr; a_slice] ∧ run (mkWorld w0 0 []) = (Returns (), s) ∧
        reassemble None (packets (effects s)).*2 = Some (concat (sentUnits None None aus)) ∧
        (sequenceNumber <$> (packets (effects s)).*1) = [65535; 0; 1; 2; 3]
  | Throws _ => False
  end.
Proof.
  set (options := mkOptions 7 None (Some 5) (Some 65535)). cbn zeta.
  set (timer := λ n, 1000 + 40 * Z.of_nat n).
  set (stream := annexB [(true, a_sps 1); (false, a_pps 1); (true, an_idr); (true, a_slice)]).
  destruct (newWriter options) as [w0|e] eqn:E0; [|discriminate E0].
  destruct (writer_delivers_stream timer options w0 0 6 40 _ [take 5 stream; drop 5 stream] E0
    (small_stream_ok 1 (or_introl eq_refl))) as (aus & w' & k' & es & Hg & Hc & Hr & _ & _ & Hre & _).
  - vm_compute. reflexivity.
  - repeat (apply Forall_cons; split); [vm_compute; lia..|apply Forall_nil; done].
  - vm_compute. discriminate.
  - exists aus, (mkWorld w' k' es). do 4 (split; [done|]). injection E0 as <-. vm_compute in Hr. injection Hr as <- <- <-. done.
Defined.

(** The parameter sets of the next segment reach the last key frame of this one:
    its SPS is cached before the access unit in progress is sent. *)
Lemma next_sps_sent_with_previous_key_frame :
  sentUnits None None [[a_sps 1; a_pps 1; an_idr]; [an_idr]; [a_sps 2; a_pps 2; an_idr]] =
  [[a_sps 1; a_pps 1; an_idr]; [a_sps 2; a_pps 1; an_idr]; [a_sps 2; a_pps 2; an_idr]].
Proof. vm_compute. reflexivity. Qed.
