(* ===== verification/RtpPacketBoundaries.v ===== *)
(** * Packet boundaries of a producer

    [endOfPacket] of [RtpWriter]: a producer that cuts its stream at access units
    and says so gets the packets it would get without the boundaries. *)
From S2P Require Import Prelude Bytes H264 AnnexB RtpPackets RtpWriter RtpProperties RtpStreams RtpDelivery.
From stdpp Require Import list.
Local Open Scope Z_scope.

(** A NAL unit that begins an access unit when a picture is in progress. *)
Definition opens (n : bytes) : Prop :=
  nalUnitType n = NAL_TYPE_AUD ∨ (isVclNal n = true ∧ isFirstSliceOfPicture n = true) ∨
  nalUnitType n = NAL_TYPE_SPS ∨ nalUnitType n = NAL_TYPE_PPS ∨ nalUnitType n = NAL_TYPE_SEI.
Definition opens_packet (nals : list bytes) : Prop := match nals with n :: _ => opens n | [] => False end.

(** After a picture, a parameter set repeats the latest of its type. *)
Definition steady (sps pps : option bytes) (nals : list bytes) : Prop :=
  ∀ a n b, nals = a ++ n :: b → Exists (λ v, isVclNal v = true) a →
    (nalUnitType n = NAL_TYPE_SPS → latest NAL_TYPE_SPS sps a = Some n) ∧
    (nalUnitType n = NAL_TYPE_PPS → latest NAL_TYPE_PPS pps a = Some n).

Section Boundaries.
Context (timer : nat → Z).

(** ** Plans that differ in their clocks only *)

Record same (p q : Plan) : Prop := {
  same_asm : plan_asm p = plan_asm q;
  same_sps : plan_sps p = plan_sps q;
  same_pps : plan_pps p = plan_pps q;
  same_ok_l : plan_ok p;
  same_ok_r : plan_ok q;
}.

Lemma planNal_eq nal p :
  planNal timer nal p =
  ((λ au, mkSend (default 0 (plan_start p))
            (withParameterSets (latest NAL_TYPE_SPS (plan_sps p) [nal]) (latest NAL_TYPE_PPS (plan_pps p) [nal]) au)) <$>
     (pushNal nal (plan_asm p)).1,
   (planNal timer nal p).2) ∧
  plan_asm (planNal timer nal p).2 = (pushNal nal (plan_asm p)).2 ∧
  plan_sps (planNal timer nal p).2 = latest NAL_TYPE_SPS (plan_sps p) [nal] ∧
  plan_pps (planNal timer nal p).2 = latest NAL_TYPE_PPS (plan_pps p) [nal].
Proof.
  unfold planNal. destruct (pushNal nal (plan_asm p)) as [[|au l] a], (plan_start p); done.
Qed.

Lemma same_nal nal p q :
  same p q → single_nal nal →
  send_nals <$> (planNal timer nal p).1 = send_nals <$> (planNal timer nal q).1 ∧
  same (planNal timer nal p).2 (planNal timer nal q).2.
Proof.
  intros [Ha Hs Hp Hl Hr] Hn. destruct (planNal_eq nal p) as (E1 & A1 & S1 & P1), (planNal_eq nal q) as (E2 & A2 & S2 & P2).
  split.
  - rewrite E1, E2, Ha, Hs, Hp. cbn [fst]. rewrite <- !list_fmap_compose. done.
  - split; [congruence..| |]; by apply planNal_ok.
Qed.
Lemma same_nals nals p q :
  same p q → Forall single_nal nals →
  send_nals <$> (planNals timer nals p).1 = send_nals <$> (planNals timer nals q).1 ∧
  same (planNals timer nals p).2 (planNals timer nals q).2.
Proof.
  intros Hs Hn. revert p q Hs. induction Hn as [|nal nals Hnal _ IH]; intros p q Hs; [done|]. cbn [planNals].
  destruct (same_nal nal p q Hs Hnal) as [E1 H1]. destruct (planNal timer nal p) as [s1 p1], (planNal timer nal q) as [t1 q1].
  destruct (IH _ _ H1) as [E2 H2]. cbn [fst snd] in *.
  destruct (planNals timer nals p1) as [s2 p2], (planNals timer nals q1) as [t2 q2]. cbn [fst snd] in *.
  rewrite !fmap_app, E1, E2. done.
Qed.
Lemma planNals_caches nals p :
  plan_sps (planNals timer nals p).2 = latest NAL_TYPE_SPS (plan_sps p) nals ∧
  plan_pps (planNals timer nals p).2 = latest NAL_TYPE_PPS (plan_pps p) nals.
Proof.
  revert p. induction nals as [|nal nals IH]; intros p; [done|]. cbn [planNals].
  destruct (planNal_eq nal p) as (_ & _ & S1 & P1). destruct (planNal timer nal p) as [s1 p1]. cbn [fst snd] in *.
  destruct (IH p1) as [H1 H2]. destruct (planNals timer nals p1) as [s2 p2]. cbn [fst snd] in *.
  rewrite H1, H2, S1, P1. split; done.
Qed.

(** The picture in progress consists of NAL units consumed. *)
Lemma current_consumed nals p :
  plan_ok p → Forall single_nal nals →
  plan_ok (planNals timer nals p).2 ∧
  ∃ a, current (plan_asm p) ++ nals = a ++ current (plan_asm (planNals timer nals p).2).
Proof.
  intros Hok Hn. revert p Hok. induction Hn as [|nal nals Hnal _ IH]; intros p Hok.
  - split; [done|]. exists []. by rewrite app_nil_r.
  - cbn [planNals]. destruct (planNal_eq nal p) as (_ & A1 & _). pose proof (planNal_ok timer nal p Hok Hnal) as Hok1.
    destruct (planNal timer nal p) as [s1 p1]. cbn [fst snd] in *. destruct (IH p1 Hok1) as [Hok2 [a Ha]].
    destruct (planNals timer nals p1) as [s2 p2]. cbn [fst snd] in *. split; [done|].
    pose proof (pushNal_spec nal (plan_asm p) (plan_assembling p Hok)) as Hp.
    destruct (pushNal nal (plan_asm p)) as [out a1]. cbn [snd] in A1. subst a1.
    destruct Hp as [_ [[_ Hc]|(_ & _ & Hc)]]; rewrite Hc in Ha.
    + exists a. by rewrite <- Ha, <- app_assoc.
    + exists (current (plan_asm p) ++ a). by rewrite <- app_assoc, <- Ha.
Qed.

(** ** The producer with boundaries, and the one without *)

Fixpoint planPackets (pkts : list (list bytes)) (p : Plan) : list Send * Plan :=
  match pkts with
  | [] => ([], p)
  | nals :: pkts =>
      let '(s1, p) := planNals timer nals p in
      let '(s2, p) := planRelease flushPicture p in
      let '(s3, p) := planPackets pkts p in
      (s1 ++ (s2 ++ s3), p)
  end.

(** [p] has released what [q] holds: [early] was sent ahead. *)
Record ahead (sps pps : option bytes) (consumed : list bytes) (p q : Plan) (early : list (list bytes)) : Prop := {
  ah_sps : plan_sps q = latest NAL_TYPE_SPS sps consumed;
  ah_pps : plan_pps q = latest NAL_TYPE_PPS pps consumed;
  ah_consumed : ∃ a, consumed = a ++ current (plan_asm q);
  ah_plans :
    (same p q ∧ early = []) ∨
    (plan_asm p = newAssembler ∧ plan_sps p = plan_sps q ∧ plan_pps p = plan_pps q ∧ plan_ok p ∧ plan_ok q ∧
     hasVcl (plan_asm q) = true ∧
     early = [withParameterSets (plan_sps q) (plan_pps q) (current (plan_asm q))]);
}.

(** The first NAL unit of a packet brings the two together. *)
Lemma ahead_first sps pps consumed p q early nal :
  ahead sps pps consumed p q early → opens nal → single_nal nal → steady sps pps (consumed ++ [nal]) →
  early ++ (send_nals <$> (planNal timer nal p).1) = (send_nals <$> (planNal timer nal q).1) ∧
  same (planNal timer nal p).2 (planNal timer nal q).2.
Proof.
  intros [Hs Hp [a Hc] [[Hsame ->]|(Ea & Es & Ep & Hokp & Hokq & Hv & ->)]] Ho Hn Hst; [by apply same_nal|].
  destruct (planNal_eq nal p) as (E1 & A1 & S1 & P1), (planNal_eq nal q) as (E2 & A2 & S2 & P2).
  pose proof (plan_assembling q Hokq) as Haq. pose proof (proj1 (asm_vcl _ Haq) Hv) as Hex.
  assert (boundary (current (plan_asm q)) nal) as Hb.
  { destruct Ho as [Ht|Ho]; [left|right; by split]. split; [|done]. intros E. rewrite E in Hex. inversion Hex. }
  assert (pushNal nal (plan_asm q) = ([current (plan_asm q)], mkAssembler [nal] (if isVclNal nal then true else false))) as Epush.
  { unfold pushNal. apply (startsNewAccessUnit_iff _ _ Haq) in Hb. by rewrite Hb. }
  assert (pushNal nal (plan_asm p) = ([], mkAssembler [nal] (if isVclNal nal then true else false))) as Epush0.
  { rewrite Ea. unfold pushNal, startsNewAccessUnit. cbn. by rewrite !andb_false_r. }
  destruct (Hst consumed nal [] eq_refl) as [Hsps Hpps].
  { rewrite Hc. apply Exists_app. by right. }
  assert (latest NAL_TYPE_SPS (plan_sps q) [nal] = plan_sps q) as Ls.
  { unfold latest at 1. cbn [foldl]. destruct (Z.eqb_spec (nalUnitType nal) NAL_TYPE_SPS); [|done]. by rewrite Hs, Hsps. }
  assert (latest NAL_TYPE_PPS (plan_pps q) [nal] = plan_pps q) as Lp.
  { unfold latest at 1. cbn [foldl]. destruct (Z.eqb_spec (nalUnitType nal) NAL_TYPE_PPS); [|done]. by rewrite Hp, Hpps. }
  split.
  - rewrite E1, E2, Epush, Epush0, Ls, Lp. done.
  - split; [by rewrite A1, A2, Epush, Epush0|congruence|congruence| |]; by apply planNal_ok.
Qed.

Lemma steady_prefix sps pps a b : steady sps pps (a ++ b) → steady sps pps a.
Proof. intros H x n y E. apply (H x n (y ++ b)). by rewrite E, <- app_assoc. Qed.

Lemma ahead_packet sps pps consumed p q early nals :
  ahead sps pps consumed p q early → opens_packet nals → Forall single_nal nals → steady sps pps (consumed ++ nals) →
  early ++ (send_nals <$> (planNals timer nals p).1) = (send_nals <$> (planNals timer nals q).1) ∧
  same (planNals timer nals p).2 (planNals timer nals q).2 ∧
  ∃ a, consumed ++ nals = a ++ current (plan_asm (planNals timer nals q).2).
Proof.
  intros Ha Ho Hn Hst. assert (plan_ok q) as Hq by (destruct Ha as [_ _ _ [[[] _]|(_ & _ & _ & _ & ? & _)]]; done).
  destruct (current_consumed nals q Hq Hn) as [_ [b Hb]]. destruct (ah_consumed _ _ _ _ _ _ Ha) as [a Hc].
  assert (∃ a, consumed ++ nals = a ++ current (plan_asm (planNals timer nals q).2)) as Hcur.
  { exists (a ++ b). by rewrite Hc, <- !app_assoc, Hb. }
  destruct nals as [|n nals]; [done|]. apply Forall_cons in Hn as [Hn1 Hn2]. cbn [planNals] in *.
  destruct (ahead_first sps pps consumed p q early n Ha Ho Hn1) as [E1 H1].
  { apply (steady_prefix _ _ _ nals). by rewrite <- app_assoc. }
  destruct (planNal timer n p) as [s1 p1], (planNal timer n q) as [t1 q1]. cbn [fst snd] in *.
  destruct (same_nals nals p1 q1 H1 Hn2) as [E2 H2].
  destruct (planNals timer nals p1) as [s2 p2], (planNals timer nals q1) as [t2 q2]. cbn [fst snd] in *.
  rewrite !fmap_app, app_assoc, E1, E2. done.
Qed.

(** The end of a packet releases a picture. *)
Lemma ahead_release sps pps consumed p q :
  same p q → plan_sps q = latest NAL_TYPE_SPS sps consumed → plan_pps q = latest NAL_TYPE_PPS pps consumed →
  (∃ a, consumed = a ++ current (plan_asm q)) →
  ahead sps pps consumed (planRelease flushPicture p).2 q (send_nals <$> (planRelease flushPicture p).1).
Proof.
  intros Hsame Hs Hp Hc. pose proof Hsame as [Ha Es Ep Hl Hr]. split; [done..|]. unfold planRelease, flushPicture.
  destruct (hasVcl (plan_asm p)) eqn:Hv; cbn [fmap list_fmap fst snd].
  - right. pose proof (proj1 (asm_vcl _ (plan_assembling p Hl)) Hv) as Hex. unfold flushAssembler.
    destruct (current (plan_asm p)) as [|n l] eqn:E; [inversion Hex|]. cbn [fmap list_fmap fst snd plan_asm plan_sps plan_pps].
    rewrite <- Es, <- Ep, <- Ha, E, Hv. split; [done|]. split; [done|]. split; [done|]. split; [|by split].
    destruct Hl as [_ _ _ Hls Hlp]. split; cbn; try done. apply newAssembler_assembling.
  - left. split; [|done]. cbn. destruct p. done.
Qed.

Lemma ahead_packets sps pps pkts consumed p q early :
  ahead sps pps consumed p q early → Forall opens_packet pkts → Forall single_nal (concat pkts) →
  steady sps pps (consumed ++ concat pkts) →
  ∃ early',
    early ++ (send_nals <$> (planPackets pkts p).1) = (send_nals <$> (planNals timer (concat pkts) q).1) ++ early' ∧
    ahead sps pps (consumed ++ concat pkts) (planPackets pkts p).2 (planNals timer (concat pkts) q).2 early'.
Proof.
  intros Ha Ho. revert consumed p q early Ha. induction Ho as [|nals pkts Hop _ IH]; intros consumed p q early Ha Hn Hst.
  - exists early. cbn. by rewrite !app_nil_r.
  - cbn [concat planPackets] in *. apply Forall_app in Hn as [Hn1 Hn2].
    destruct (ahead_packet _ _ _ _ _ _ nals Ha Hop Hn1) as (E1 & H1 & Hc).
    { apply (steady_prefix _ _ _ (concat pkts)). by rewrite <- app_assoc. }
    rewrite planNals_app. destruct (planNals_caches nals q) as [Cs Cp].
    destruct (planNals timer nals p) as [s1 p1], (planNals timer nals q) as [t1 q1]. cbn [fst snd] in *.
    destruct Ha as [As Ap _ _]. rewrite As, <- latest_app in Cs. rewrite Ap, <- latest_app in Cp.
    pose proof (ahead_release sps pps (consumed ++ nals) p1 q1 H1 Cs Cp Hc) as H2.
    destruct (planRelease flushPicture p1) as [s2 p2]. cbn [fst snd] in H2.
    destruct (IH _ _ _ _ H2 Hn2) as (early' & E3 & H3); [by rewrite <- app_assoc|]. exists early'.
    destruct (planPackets pkts p2) as [s3 p3]. cbn [fst snd] in *. rewrite (app_assoc consumed). split; [|done].
    by rewrite !fmap_app, app_assoc, E1, E3, app_assoc.
Qed.

(** With the flush at the end, the same access units are sent. *)
Lemma boundaries_same_sends sps pps pkts p :
  plan_ok p → plan_asm p = newAssembler → plan_sps p = sps → plan_pps p = pps →
  Forall opens_packet pkts → Forall single_nal (concat pkts) → steady sps pps (concat pkts) →
  send_nals <$> ((planPackets pkts p).1 ++ (planRelease flushAssembler (planPackets pkts p).2).1) =
  send_nals <$> ((planNals timer (concat pkts) p).1 ++ (planRelease flushAssembler (planNals timer (concat pkts) p).2).1).
Proof.
  intros Hok Ha Hs Hp Ho Hn Hst.
  assert (ahead sps pps [] p p []) as H0.
  { split; [done|done|by exists []; rewrite Ha|]. left. by split. }
  destruct (ahead_packets sps pps pkts [] p p [] H0 Ho Hn Hst) as (early & E & [_ _ _ H]). cbn [app] in *.
  rewrite !fmap_app, E. rewrite <- app_assoc. f_equal. destruct (planPackets pkts p) as [s1 p1], (planNals timer (concat pkts) p) as [s2 p2].
  cbn [fst snd] in *. destruct H as [[[Ea Es Ep _ _] ->]|(Ea & Es & Ep & _ & Hq & Hv & ->)].
  - unfold planRelease. rewrite Ea, Es, Ep. destruct (flushAssembler (plan_asm p2)) as [c a]. cbn [fst app].
    rewrite <- !list_fmap_compose. done.
  - unfold planRelease. rewrite Ea. cbn. unfold flushAssembler. destruct (current (plan_asm p2)) as [|n l] eqn:Ec; [|done].
    pose proof (proj1 (asm_vcl _ (plan_assembling p2 Hq)) Hv) as Hex. rewrite Ec in Hex. inversion Hex.
Qed.

(** ** The writer *)

(** A producer that cuts its stream into packets and signals their ends. *)
Definition writePackets (pkts : list (list (bool * bytes))) : M () :=
  forEach (λ pkt, writeChunk timer (annexB pkt);; endOfPacket timer) pkts.
Definition nals_of (pkts : list (list (bool * bytes))) : list (list bytes) := (λ pkt : list (bool * bytes), pkt.*2) <$> pkts.

Record ready (w : RtpH264TrackWriter) (k : nat) (max : Z) : Prop := {
  ready_mtu : 3 ≤ w_mtu w;
  ready_seq : 0 ≤ w_sequenceNumber w < 2 ^ 16;
  ready_plan : plan_ok (planOf w k);
  ready_parser : parser w = mkAnnexB [] max;
}.
Definition packet_ok (max : Z) (pkt : list (bool * bytes)) : Prop :=
  Forall (λ u, nal_ok u.2 ∧ single_nal u.2) pkt ∧ Z.of_nat (length (annexB pkt)) ≤ max.

Lemma moved_ready w w' p sends max : moved w w' p sends → parser w = mkAnnexB [] max → ready w' (plan_readings p) max.
Proof. intros [_ P _ _ A [R1 R2] O] Hp. split; [done|done|by rewrite P|congruence]. Qed.

Lemma packet_runs pkt w k max :
  ready w k max → packet_ok max pkt →
  let '(s1, p1) := planNals timer pkt.*2 (planOf w k) in
  let '(s2, p2) := planRelease flushPicture p1 in
  runs (writeChunk timer (annexB pkt);; endOfPacket timer) () w k pkt.*2 (s1 ++ s2) p2
    (λ w', moved w w' p2 (s1 ++ s2)).
Proof.
  intros [Hmtu Hseq Hok Hpar] [[Hu Hs]%Forall_and Hlen].
  pose proof (pushChunk_spec (annexB pkt) (parser w) (Preamble [])) as Hp. rewrite Hpar in Hp.
  specialize (Hp (keeps_new max)). unfold kept_size in Hp. cbn [buffered maxBufferedBytes length] in Hp.
  rewrite (proj2 (Z.ltb_ge _ _)) in Hp by lia. destruct Hp as (pr & E & Hk & Hm & _).
  pose proof (flushParser_spec _ _ Hk) as Ef. pose proof (scan_stream pkt Hu) as Hsc. cbn zeta in Hsc.
  set (nals := (scan (Preamble []) (annexB pkt)).1) in *. set (last := final (scan (Preamble []) (annexB pkt)).2) in *.
  assert (Forall single_nal (nals ++ last)) as [Hn Hl]%Forall_app by (rewrite Hsc; by apply Forall_fmap).
  rewrite <- Hpar in E. pose proof (writeChunk_runs timer _ _ _ w k E Hmtu Hseq Hok Hn) as H1.
  rewrite <- Hsc, planNals_app. destruct (planNals timer nals (planOf w k)) as [s1 p1]. cbn [fst snd].
  destruct (planNals timer last p1) as [s2 p2] eqn:E2. cbn [fst snd].
  destruct (planRelease flushPicture p2) as [s3 p3] eqn:E3. rewrite <- (app_assoc s1).
  apply (runs_bind _ _ () _ _ _ nals last s1 (s2 ++ s3) p1). eapply runs_weaken; [exact H1|]. intros w1 Hmv. cbn beta.
  destruct (moved_runs _ _ _ _ Hmv) as (T1 & S1 & B1). do 3 (split; [done|]). destruct (Hmv) as [_ P1 _ _ Hp1 [R1 R1'] O1].
  rewrite <- P1 in O1. cbn [with_parser parser] in Hp1. rewrite <- Hp1 in Ef.
  pose proof (finish_runs timer flushPicture last _ w1 (plan_readings p1) Ef flushPicture_releases R1 R1' O1 Hl) as H3.
  rewrite P1, E2, E3 in H3. eapply runs_weaken; [exact H3|]. intros w2 Hm2. cbn beta.
  assert (with_parser (parser w) (with_parser pr w) = w) as Hback by by destruct w.
  rewrite <- Hback. apply (moved_trans _ (with_parser (parser w) w1) _ p1).
  - destruct Hmv as [T P S B A R O]. by split.
  - rewrite Hp1, Hm, Hpar in *. cbn [maxBufferedBytes] in *. exact Hm2.
Qed.

Lemma writePackets_runs pkts w k max :
  ready w k max → Forall (packet_ok max) pkts →
  let '(sends, p) := planPackets (nals_of pkts) (planOf w k) in
  runs (writePackets pkts) () w k (concat (nals_of pkts)) sends p (λ w', moved w w' p sends).
Proof.
  intros Hr Hpkts. revert w k Hr. induction Hpkts as [|pkt pkts Hpkt _ IH]; intros w k Hr.
  - intros es. exists w, []. cbn. rewrite app_nil_r. do 3 (split; [done|]). destruct Hr. by apply moved_refl.
  - unfold nals_of, writePackets in *. rewrite fmap_cons. cbn [concat planPackets forEach].
    pose proof (packet_runs pkt w k max Hr Hpkt) as H1. destruct (planNals timer pkt.*2 (planOf w k)) as [s1 p1].
    destruct (planRelease flushPicture p1) as [s2 p2]. destruct (planPackets _ p2) as [s3 p3] eqn:E3.
    rewrite app_assoc. apply (runs_bind _ _ () _ _ _ pkt.*2 _ (s1 ++ s2) s3 p2). eapply runs_weaken; [exact H1|].
    intros w1 Hm. cbn beta. destruct (moved_runs _ _ _ _ Hm) as (T1 & S1 & B1). do 3 (split; [done|]).
    pose proof (mv_plan _ _ _ _ Hm) as P1. specialize (IH w1 (plan_readings p2)). rewrite P1, E3 in IH.
    eapply runs_weaken; [apply IH; eapply moved_ready; [exact Hm|apply Hr]|].
    intros w2 Hm2. exact (moved_trans _ _ _ _ _ _ _ Hm Hm2).
Qed.

(** Packets up to their time stamps. *)
Definition untimed (es : list Effect) : list (RtpHeader * bytes) :=
  (λ hp : RtpHeader * bytes,
     (mkHeader (version hp.1) (payloadType hp.1) (hdr_marker hp.1) (sequenceNumber hp.1) 0 (ssrc hp.1), hp.2)) <$>
  packets es.

Lemma untimed_from t seq ts ts' units : untimed (packetsFrom t seq ts units) = untimed (packetsFrom t seq ts' units).
Proof.
  unfold untimed. revert seq. induction units as [|u units IH]; intros seq; [done|]. cbn [packetsFrom].
  change (packets (WriteRtp ?h ?p :: ?l)) with ((h, p) :: packets l). rewrite !fmap_cons. by rewrite IH.
Qed.
Lemma untimed_render t seq base base' a b :
  send_nals <$> a = send_nals <$> b → untimed (render t seq base a) = untimed (render t seq base' b).
Proof.
  revert seq base base' b. induction a as [|x a IH]; intros seq base base' [|y b] E; try done.
  rewrite !fmap_cons in E. injection E as Ex E. cbn [render]. rewrite Ex.
  unfold untimed in *. rewrite !packets_app, !fmap_app. f_equal; [apply untimed_from|].
  change (packets (OnAccessUnit ?a ?b ?c :: ?l)) with (packets l). by apply IH.
Qed.

Lemma primeParameterSets_spec sps pps w k es :
  primeParameterSets sps pps (mkWorld w k es) =
  (Returns (), mkWorld (with_sets (match sps with Some _ => sps | None => cachedSps w end)
                          (match pps with Some _ => pps | None => cachedPps w end) w) k
                 (es ++ (OnSps <$> option_list sps))).
Proof. destruct sps, pps, w; cbn; by rewrite ?app_nil_r. Qed.

(** Two runs from a primed writer that send the same access units. *)
Lemma runs_untimed (m : M ()) w w1 k nals sends p P es :
  runs m () w k nals sends p P → w1 = w →
  ∃ s, m (mkWorld w1 k es) = (Returns (), s) ∧
    untimed (effects s) = untimed es ++ untimed (render (trackOf w) (w_sequenceNumber w) (baseTimeMs w) sends).
Proof.
  intros H ->. destruct (H es) as (w' & es' & E & Ho & _). eexists. split; [exact E|]. cbn [effects].
  unfold untimed in *. rewrite packets_app, fmap_app, <- (packets_outputs es'), Ho. done.
Qed.

Lemma primed_ready options w0 sps pps k :
  newWriter options = Returns w0 →
  (∀ n, sps = Some n → nalUnitType n = NAL_TYPE_SPS) → (∀ n, pps = Some n → nalUnitType n = NAL_TYPE_PPS) →
  ready (with_sets sps pps w0) k MAX_ANNEX_B_BUFFER_BYTES.
Proof.
  intros Hw Hs Hp. destruct (newWriter_ready _ _ k Hw) as (Hmtu & Hseq & Hok & Hpar & Hplan & _).
  split; [done|done| |done]. unfold planOf in *. cbn. injection Hplan as -> -> _ _. split; cbn; try done.
  apply newAssembler_assembling.
Qed.

Lemma same_release release p q :
  same p q → send_nals <$> (planRelease release p).1 = send_nals <$> (planRelease release q).1.
Proof.
  intros [Ea Es Ep _ _]. unfold planRelease. rewrite Ea, Es, Ep. destruct (release (plan_asm q)) as [c a]. cbn [fst].
  by rewrite <- !list_fmap_compose.
Qed.

(** The access units of a whole stream, by the plan. *)
Definition stream_sends (nals : list bytes) (p : Plan) : list Send :=
  (planNals timer nals p).1 ++ (planRelease flushAssembler (planNals timer nals p).2).1.
Lemma stream_sends_same nals p q :
  same p q → Forall single_nal nals → send_nals <$> stream_sends nals p = send_nals <$> stream_sends nals q.
Proof.
  intros Hs Hn. unfold stream_sends. destruct (same_nals nals p q Hs Hn) as [E H]. by rewrite !fmap_app, E, (same_release _ _ _ H).
Qed.

Lemma chunks_flush_runs chunks nals pr w k :
  pushChunks chunks (parser w) = (Returns nals, pr) → 3 ≤ w_mtu w → 0 ≤ w_sequenceNumber w < 2 ^ 16 →
  plan_ok (planOf w k) → Forall single_nal (nals ++ (flushParser pr).1) →
  ∃ p, runs (forEach (writeChunk timer) chunks;; flush timer) () w k (nals ++ (flushParser pr).1)
         (stream_sends (nals ++ (flushParser pr).1) (planOf w k)) p (λ _, True).
Proof.
  intros E Hmtu Hseq Hok [Hn Hl]%Forall_app. destruct (flushParser pr) as [last pr'] eqn:Ef. cbn [fst] in *.
  pose proof (writeChunks_runs timer chunks nals pr w k E Hmtu Hseq Hok Hn) as H. unfold stream_sends. rewrite planNals_app.
  destruct (planNals timer nals (planOf w k)) as [s1 p1]. cbn [fst snd].
  pose proof (runs_flush timer _ _ _ _ _ _ _ _ _ H Ef Hl) as Hrun.
  destruct (planNals timer last p1) as [s2 p2]. cbn [fst snd]. destruct (planRelease flushAssembler p2) as [s3 p3].
  exists p3. cbn [fst]. by rewrite <- app_assoc.
Qed.
Lemma packets_flush_runs pkts w k max :
  ready w k max → Forall (packet_ok max) pkts →
  ∃ p, runs (writePackets pkts;; flush timer) () w k (concat (nals_of pkts))
         ((planPackets (nals_of pkts) (planOf w k)).1 ++
          (planRelease flushAssembler (planPackets (nals_of pkts) (planOf w k)).2).1) p (λ _, True).
Proof.
  intros Hr Hp. pose proof (writePackets_runs pkts w k max Hr Hp) as H. destruct Hr as [_ _ _ Hpar].
  destruct (planPackets (nals_of pkts) (planOf w k)) as [s1 p1].
  assert (with_parser (mkAnnexB [] max) w = w) as Hself by (rewrite <- Hpar; by destruct w).
  assert (flushParser (mkAnnexB [] max) = ([], mkAnnexB [] max)) as Ef by done.
  assert (runs (writePackets pkts) () w k (concat (nals_of pkts)) s1 p1
            (λ w', moved (with_parser (mkAnnexB [] max) w) w' p1 s1)) as H' by by rewrite Hself.
  pose proof (runs_flush timer _ _ _ _ _ _ _ _ _ H' Ef) as Hrun. cbn [planNals] in Hrun. cbn [fst snd].
  destruct (planRelease flushAssembler p1) as [s3 p3]. exists p3. cbn [fst app] in *. rewrite <- (app_nil_r (concat _)).
  by apply Hrun.
Qed.

(** C33. A stream whose packets begin with NAL units that open access units, and whose
    parameter sets after a picture repeat the latest: written packet by packet with
    [endOfPacket] it gives the packets it gives in any chunks without, up to their
    time stamps. *)
Theorem packet_boundaries_change_nothing options w0 sps pps k k' N M pkts chunks :
  newWriter options = Returns w0 →
  (∀ n, sps = Some n → nalUnitType n = NAL_TYPE_SPS) → (∀ n, pps = Some n → nalUnitType n = NAL_TYPE_PPS) →
  Forall (packet_ok MAX_ANNEX_B_BUFFER_BYTES) pkts → Forall opens_packet (nals_of pkts) →
  steady sps pps (concat (nals_of pkts)) →
  concat chunks = annexB (concat pkts) → Forall (λ u, (length u.2 ≤ N)%nat) (concat pkts) →
  Forall (λ c, (length c ≤ M)%nat) chunks → Z.of_nat (N + 7 + M) ≤ MAX_ANNEX_B_BUFFER_BYTES →
  ∃ s s',
    (primeParameterSets sps pps;; writePackets pkts;; flush timer) (mkWorld w0 k []) = (Returns (), s) ∧
    (primeParameterSets sps pps;; forEach (writeChunk timer) chunks;; flush timer) (mkWorld w0 k' []) = (Returns (), s') ∧
    untimed (effects s) = untimed (effects s').
Proof.
  intros Hw Hsps Hpps Hpkts Hopen Hst Hcat HN HM Hmax.
  assert (Forall (λ u, nal_ok u.2 ∧ single_nal u.2) (concat pkts)) as Hu.
  { apply Forall_concat. eapply Forall_impl; [exact Hpkts|]. by intros pkt [? _]. }
  assert (concat (nals_of pkts) = (concat pkts).*2) as Hnals.
  { unfold nals_of. clear. induction pkts as [|pkt pkts IH]; [done|]. cbn [concat]. by rewrite fmap_app, <- IH. }
  assert (Forall single_nal (concat (nals_of pkts))) as Hs.
  { rewrite Hnals. apply Forall_fmap. eapply Forall_impl; [exact Hu|]. by intros u [_ ?]. }
  destruct (annexb_parses N M MAX_ANNEX_B_BUFFER_BYTES (concat pkts) chunks) as (nals & pr & E & Ef); try done.
  { apply Forall_and. split; [|done]. eapply Forall_impl; [exact Hu|]. by intros u [? _]. }
  rewrite <- Hnals in Ef. set (w1 := with_sets sps pps w0).
  pose proof (primed_ready options w0 sps pps k Hw Hsps Hpps) as Hr. fold w1 in Hr.
  destruct (primed_ready options w0 sps pps k' Hw Hsps Hpps) as [Hmtu Hseq Hok' Hpar]. fold w1 in Hmtu, Hseq, Hok', Hpar.
  destruct (packets_flush_runs pkts w1 k _ Hr Hpkts) as [p HA]. rewrite <- Hpar in E.
  destruct (chunks_flush_runs chunks nals pr w1 k' E Hmtu Hseq Hok') as [p' HB]; [by rewrite Ef|].
  destruct (newWriter_ready _ _ k Hw) as (_ & _ & _ & _ & Hplan & _). injection Hplan as Hasm _ Es Ep.
  destruct (runs_untimed _ _ w1 _ _ _ _ _ (OnSps <$> option_list sps) HA eq_refl) as (s & Es1 & U1).
  destruct (runs_untimed _ _ w1 _ _ _ _ _ (OnSps <$> option_list sps) HB eq_refl) as (s' & Es2 & U2).
  exists s, s'. assert (∀ k, primeParameterSets sps pps (mkWorld w0 k []) =
    (Returns (), mkWorld w1 k (OnSps <$> option_list sps))) as Hprime.
  { intros k0. rewrite primeParameterSets_spec, Es, Ep. unfold w1. by destruct sps, pps. }
  rewrite (M_bind_Returns _ _ _ _ _ (Hprime k)), (M_bind_Returns _ _ _ _ _ (Hprime k')). split; [done|]. split; [done|]. rewrite U1, U2. f_equal.
  apply untimed_render. rewrite Ef.
  transitivity (send_nals <$> stream_sends (concat (nals_of pkts)) (planOf w1 k)).
  - apply (boundaries_same_sends sps pps); try done. apply Hr.
  - apply stream_sends_same; [|done]. split; try done. apply Hr.
Qed.
End Boundaries.

Lemma small_stream_steady sps pps n : In n [1; 2] → steady sps pps [a_sps n; a_pps n; an_idr; a_slice].
Proof.
  intros Hn a m b E Hex. assert (isVclNal (a_sps n) = false ∧ isVclNal (a_pps n) = false) as [Hs Hp].
  { destruct Hn as [<-|[<-|[]]]; done. }
  destruct a as [|x [|y [|z [|t a]]]]; injection E as; subst.
  - inversion Hex.
  - apply Exists_cons in Hex as [Hx|Hx]; [congruence|inversion Hx].
  - apply Exists_cons in Hex as [Hx|[Hx|Hx]%Exists_cons]; [congruence|congruence|inversion Hx].
  - split; intros Ht; vm_compute in Ht; discriminate.
  - by destruct a.
Qed.

Lemma packet_boundaries_change_nothing_witness :
  let pkts := [[(true, a_sps 1); (false, a_pps 1)]; [(true, an_idr)]; [(true, a_slice)]] in
  let timer n := 1000 + 40 * Z.of_nat n in
  match newWriter (mkOptions 7 None (Some 5) None) with
  | Returns w0 =>
      ∃ s s', (primeParameterSets (Some (a_sps 2)) None;; writePackets timer pkts;; flush timer) (mkWorld w0 0 []) = (Returns (), s) ∧
        (primeParameterSets (Some (a_sps 2)) None;; forEach (writeChunk timer) [annexB (concat pkts)];; flush timer)
          (mkWorld w0 0 []) = (Returns (), s') ∧
        untimed (effects s) = untimed (effects s') ∧ length (packets (effects s)) = 5%nat
  | Throws _ => False
  end.
Proof.
  cbn zeta. set (pkts := [[(true, a_sps 1); (false, a_pps 1)]; [(true, an_idr)]; [(true, a_slice)]]).
  set (timer := λ n, 1000 + 40 * Z.of_nat n).
  destruct (newWriter (mkOptions 7 None (Some 5) None)) as [w0|e] eqn:E0; [|discriminate E0].
  pose proof (small_stream_ok 1 (or_introl eq_refl)) as Hall.
  assert (Forall (λ u, nal_ok u.2 ∧ single_nal u.2) (concat pkts)) as Hu.
  { eapply Forall_impl; [exact Hall|]. by intros u [[? _] ?]. }
  destruct (packet_boundaries_change_nothing timer _ w0 (Some (a_sps 2)) None 0 0 6 40 pkts [annexB (concat pkts)] E0)
    as (s & s' & H1 & H2 & H3).
  - by intros n [= <-].
  - done.
  - change (concat pkts) with (take 2 (concat pkts) ++ take 1 (drop 2 (concat pkts)) ++ drop 3 (concat pkts)) in Hu.
    apply Forall_app in Hu as [Ha [Hb Hc]%Forall_app].
    repeat (apply Forall_cons; split); [..|by apply Forall_nil]; (split; [done|]); vm_compute; discriminate.
  - repeat (apply Forall_cons; split); [..|by apply Forall_nil].
    + right. right. by left.
    + right. by left.
    + right. by left.
  - apply small_stream_steady. by left.
  - cbn [concat]; by rewrite app_nil_r.
  - eapply Forall_impl; [exact Hall|]. by intros u [[_ ?] _].
  - apply Forall_singleton. vm_compute. lia.
  - vm_compute. discriminate.
  - exists s, s'. split; [exact H1|]. split; [exact H2|]. split; [exact H3|]. injection E0 as <-.
    vm_compute in H1. injection H1 as <-. done.
Defined.
