(* ===== verification/ExecutionTracker.v ===== *)
(** * The execution tracker

    [src/src/daemon/executionTracker.ts] and [executionTrackerQueries.ts]: the
    running tool calls, the indexes by session and device, the fences of a restart
    and of maintenance, cancellation and the waits for calls to end.  A call mutates
    the tracker in one turn; what it reads from outside (the clock, the offset of the
    session clock, the identifiers, the deadline of a request, abort controllers of
    readiness) is an argument.  Listeners are told through [events]. *)
From Stdlib Require Import Strings.String.
From S2P Require Import Prelude JsString JsMap.
Local Open Scope Z_scope.


(** ** Errors and reasons *)

Definition DEVICE_LOSS_REASON_PREFIX : string := "device-disconnected:"%string.

Inductive AbortError :=
| PlainError (message : string)
| ActionableError (message : string)
| DeviceLostError (deviceId reason : string) (incidentId : option string)
| InputDeviceOwnedError (toolName deviceId : string)
| OtherError (message : string) (instance : nat).
Inductive ExecutionCancellationReason := ReasonText (s : string) | ReasonError (e : AbortError).

Definition isDeviceLossCancellationReason (reason : ExecutionCancellationReason) : bool :=
  match reason with ReasonText s => String.prefix DEVICE_LOSS_REASON_PREFIX s | ReasonError _ => false end.
Definition isDeviceLostError (e : AbortError) : bool := match e with DeviceLostError _ _ _ => true | _ => false end.

(** [s.slice(from)]. *)
Definition js_slice (from : nat) (s : string) : string := String.substring from (String.length s - from) s.
Definition deviceLostErrorFromCancellationReason (reason : string) : option AbortError :=
  if negb (isDeviceLossCancellationReason (ReasonText reason)) then None
  else
    let details := js_slice (String.length DEVICE_LOSS_REASON_PREFIX) reason in
    let incidentDelimiter := ";incident="%string in
    let incidentIndex := String.index 0 incidentDelimiter details in
    let deviceId := match incidentIndex with None => details | Some i => String.substring 0 i details end in
    let incidentId := match incidentIndex with
      | None => None
      | Some i =>
          let rest := js_slice (i + String.length incidentDelimiter) details in
          if truthy rest then Some rest else None
      end in
    if truthy deviceId then Some (DeviceLostError deviceId reason incidentId) else None.

(** ** Executions *)

(** What is set when the call starts. *)
Record ExecutionCall := mkCall {
  id : string; toolName : string; sessionId : option string; transportSessionId : option string;
  sessionUuid : option string; startTime : Z; sessionClockStartTime : Z }.
Record ExecutionFlags := mkFlags {
  requestCancelled : bool; readOnlySessionAccess : bool; sessionAdmitted : bool; deviceReadCall : bool;
  deviceControlCall : bool }.
(** A reader of a deadline and a subscription are functions: numbers. *)
Record ExecutionDeadline := mkDeadline {
  readDeadlineMs : option nat; sessionClockOffsetMs : option Z; unsubscribeDeadlineExtensions : option nat }.
Record ExecutionDevices := mkDevices {
  deviceIds : list string; revokedDeviceBindings : JsMap string AbortError; sessionlessDeviceUse : list string;
  sessionlessControlUse : list string; sessionlessReadReadiness : JsMap string (list nat) }.
(** The abort controller: [None] while not aborted, the reason given to [abort]
    after; the loss remembered for its signal. *)
Record ExecutionAbort := mkAbort {
  signal : option (option AbortError); cancelReason : option AbortError; rememberedLoss : option AbortError }.
Record ActiveExecution := mkExecution {
  call : ExecutionCall;
  resolvedAutolockSessionUuid : option string;
  provisionalAutolockSessionUuid : option string;
  devices : ExecutionDevices;
  deadline : ExecutionDeadline;
  flags : ExecutionFlags;
  abort : ExecutionAbort;
}.
Definition with_autolock r p e := mkExecution (call e) r p (devices e) (deadline e) (flags e) (abort e).
Definition with_devices f e := mkExecution (call e) (resolvedAutolockSessionUuid e) (provisionalAutolockSessionUuid e)
  (f (devices e)) (deadline e) (flags e) (abort e).
Definition with_deadline d e := mkExecution (call e) (resolvedAutolockSessionUuid e) (provisionalAutolockSessionUuid e)
  (devices e) d (flags e) (abort e).
Definition with_flags f e := mkExecution (call e) (resolvedAutolockSessionUuid e) (provisionalAutolockSessionUuid e)
  (devices e) (deadline e) (f (flags e)) (abort e).
Definition with_abort f e := mkExecution (call e) (resolvedAutolockSessionUuid e) (provisionalAutolockSessionUuid e)
  (devices e) (deadline e) (flags e) (f (abort e)).

Definition toolOf (e : ActiveExecution) : string := toolName (call e).
Definition aborted (e : ActiveExecution) : bool := match signal (abort e) with Some _ => true | None => false end.

(** ** Queries *)

Record ActiveExecutionQuery := mkQuery {
  q_onlyToolName : option string;
  q_startedAtOrBefore : option Z;
  q_sessionClockStartedAtOrBefore : option Z;
  q_liveOnSessionClock : option (Z * Z);
  q_excludeExecutionId : option string;
  q_onlySessionUuid : option string;
  q_excludeReads : bool;
}.

Definition isReadExecution (e : ActiveExecution) : bool :=
  negb (deviceControlCall (flags e)) && (readOnlySessionAccess (flags e) || deviceReadCall (flags e)).

(** [None] is infinity. *)
Definition executionDeadlineMs (readers : nat → option Z) (e : ActiveExecution) (onSessionClock : bool) : option Z :=
  wallDeadline ← (r ← readDeadlineMs (deadline e); readers r);
  Some (if onSessionClock then wallDeadline + default 0 (sessionClockOffsetMs (deadline e)) else wallDeadline).

Definition isLiveOnSessionClock (readers : nat → option Z) (execution : option ActiveExecution) (live : Z * Z) : bool :=
  match execution with
  | None => false
  | Some e =>
      if requestCancelled (flags e) || aborted e then false
      else
        let liveUntil := match executionDeadlineMs readers e true with
          | Some d => d
          | None => sessionClockStartTime (call e) + live.2
          end in
        live.1 <=? liveUntil
  end.

Definition isExcludedByQuery (readers : nat → option Z) (executionId : string) (execution : option ActiveExecution)
    (query : option ActiveExecutionQuery) : bool :=
  match query with
  | None => false
  | Some q =>
      bool_decide (q_excludeExecutionId q = Some executionId) ||
      match q_sessionClockStartedAtOrBefore q with
      | Some bound => match execution with Some e => bound <? sessionClockStartTime (call e) | None => true end
      | None => false
      end ||
      match q_liveOnSessionClock q with Some live => negb (isLiveOnSessionClock readers execution live) | None => false end ||
      (q_excludeReads q && match execution with Some e => isReadExecution e | None => false end)
  end.

Definition isUnfilteredQuery (query : option ActiveExecutionQuery) : bool :=
  match query with
  | None | Some (mkQuery None None None None None None false) => true
  | Some _ => false
  end.

Record ExecutionCancellationOptions := mkCancellation {
  onlyToolName : option string; excludeExecutionId : option string; onlySessionUuid : option string;
  includeExecutionIds : list string }.
Definition noOptions : ExecutionCancellationOptions := mkCancellation None None None [].

(** ** The tracker *)

Inductive WaitTarget :=
| OnTool (toolName : string)
| OnSession (sessionId : string)
| OnDevice (deviceId : string) (query : option ActiveExecutionQuery)
| OnDeviceSession (sessionUuid : string) (query : option ActiveExecutionQuery).
(** A promise that waits: its timer is armed while it is listed. *)
Record Wait := mkWait { wait_id : nat; wait_on : WaitTarget }.

Inductive Event :=
| SessionExecutionEnded (sessionUuids : list string) (admitted : bool) (toolName : string)
| Unsubscribed (subscription : nat)
| WaitSettled (wait : nat) (drained : bool)
| ControllerAborted (controller : nat) (reason : AbortError).

Record ExecutionTracker := mkTracker {
  executions : JsMap string ActiveExecution;
  sessionExecutions : JsMap string (list string);
  deviceExecutions : JsMap string (list string);
  deviceLastActivityAt : JsMap string Z;
  sessionUuidExecutions : JsMap string (list string);
  autolockSessionExecutions : JsMap string (list string);
  executionEndListeners : list Wait;
  daemonRestartPrepared : bool;
  daemonMaintenancePrepared : bool;
  events : list Event;
}.
Definition newTracker : ExecutionTracker := mkTracker [] [] [] [] [] [] [] false false [].
Definition with_executions f t := mkTracker (f (executions t)) (sessionExecutions t) (deviceExecutions t)
  (deviceLastActivityAt t) (sessionUuidExecutions t) (autolockSessionExecutions t) (executionEndListeners t)
  (daemonRestartPrepared t) (daemonMaintenancePrepared t) (events t).
Definition with_sessions f t := mkTracker (executions t) (f (sessionExecutions t)) (deviceExecutions t)
  (deviceLastActivityAt t) (sessionUuidExecutions t) (autolockSessionExecutions t) (executionEndListeners t)
  (daemonRestartPrepared t) (daemonMaintenancePrepared t) (events t).
Definition with_deviceIndex f t := mkTracker (executions t) (sessionExecutions t) (f (deviceExecutions t))
  (deviceLastActivityAt t) (sessionUuidExecutions t) (autolockSessionExecutions t) (executionEndListeners t)
  (daemonRestartPrepared t) (daemonMaintenancePrepared t) (events t).
Definition with_activity f t := mkTracker (executions t) (sessionExecutions t) (deviceExecutions t)
  (f (deviceLastActivityAt t)) (sessionUuidExecutions t) (autolockSessionExecutions t) (executionEndListeners t)
  (daemonRestartPrepared t) (daemonMaintenancePrepared t) (events t).
Definition with_uuids f t := mkTracker (executions t) (sessionExecutions t) (deviceExecutions t)
  (deviceLastActivityAt t) (f (sessionUuidExecutions t)) (autolockSessionExecutions t) (executionEndListeners t)
  (daemonRestartPrepared t) (daemonMaintenancePrepared t) (events t).
Definition with_autolocks f t := mkTracker (executions t) (sessionExecutions t) (deviceExecutions t)
  (deviceLastActivityAt t) (sessionUuidExecutions t) (f (autolockSessionExecutions t)) (executionEndListeners t)
  (daemonRestartPrepared t) (daemonMaintenancePrepared t) (events t).
Definition with_waits ws t := mkTracker (executions t) (sessionExecutions t) (deviceExecutions t)
  (deviceLastActivityAt t) (sessionUuidExecutions t) (autolockSessionExecutions t) ws
  (daemonRestartPrepared t) (daemonMaintenancePrepared t) (events t).
Definition with_fences restart maintenance t := mkTracker (executions t) (sessionExecutions t) (deviceExecutions t)
  (deviceLastActivityAt t) (sessionUuidExecutions t) (autolockSessionExecutions t) (executionEndListeners t)
  restart maintenance (events t).
Definition tell es t := mkTracker (executions t) (sessionExecutions t) (deviceExecutions t)
  (deviceLastActivityAt t) (sessionUuidExecutions t) (autolockSessionExecutions t) (executionEndListeners t)
  (daemonRestartPrepared t) (daemonMaintenancePrepared t) (events t ++ es).

(** [const execution = this.executions.get(id); if (execution) { ... }]. *)
Definition onExecution (executionId : string) (f : ActiveExecution → ActiveExecution) (t : ExecutionTracker) :
    ExecutionTracker :=
  match jget executionId (executions t) with
  | Some e => with_executions (jset executionId (f e)) t
  | None => t
  end.

(** An index maps a key to the set of the executions registered under it. *)
Definition indexAdd (key executionId : string) (m : JsMap string (list string)) : JsMap string (list string) :=
  jset key (sadd executionId (default [] (jget key m))) m.
Definition indexDel (key executionId : string) (m : JsMap string (list string)) : JsMap string (list string) :=
  match jget key m with
  | None => m
  | Some s => match sdel executionId s with [] => jdel key m | s => jset key s m end
  end.
(** [if (key) ...]: the empty string is no key. *)
Definition keyOf (key : option string) : option string :=
  match key with Some k => if truthy k then Some k else None | None => None end.
Definition onKey {A} (key : option string) (f : string → A → A) (a : A) : A :=
  match keyOf key with Some k => f k a | None => a end.

(** ** Queries of the tracker *)

Section Queries.
Context (readers : nat → option Z).

Definition belongsToSessionFilter (e : ActiveExecution) (sessionUuid_ : option string) : bool :=
  match sessionUuid_ with
  | None => true
  | Some s => bool_decide (sessionUuid (call e) = Some s) || bool_decide (resolvedAutolockSessionUuid e = Some s) ||
              bool_decide (provisionalAutolockSessionUuid e = Some s)
  end.

Definition query_onlyToolName (query : option ActiveExecutionQuery) : option string := q ← query; q_onlyToolName q.
Definition query_startedAtOrBefore (query : option ActiveExecutionQuery) : option Z := q ← query; q_startedAtOrBefore q.
Definition query_onlySessionUuid (query : option ActiveExecutionQuery) : option string := q ← query; q_onlySessionUuid q.

Definition toolAllowed (tool : option string) (e : ActiveExecution) : bool :=
  match tool with None => true | Some n => bool_decide (toolOf e = n) end.
Definition startedBy (bound : option Z) (e : ActiveExecution) : bool :=
  match bound with None => true | Some b => startTime (call e) <=? b end.

Definition hasActiveExecutionsForKey (executionMap : JsMap string (list string)) (key : string)
    (query : option ActiveExecutionQuery) (t : ExecutionTracker) : bool :=
  match jget key executionMap with
  | None | Some [] => false
  | Some ids =>
      if isUnfilteredQuery query then true
      else existsb (λ executionId,
        match jget executionId (executions t) with
        | None => false
        | Some e =>
            negb (isExcludedByQuery readers executionId (Some e) query) && toolAllowed (query_onlyToolName query) e &&
            belongsToSessionFilter e (query_onlySessionUuid query) && startedBy (query_startedAtOrBefore query) e
        end) ids
  end.

Definition unresolvedAutolockExecutionIds (sessionUuid : string) (t : ExecutionTracker) : list string :=
  omap (λ e, if bool_decide (provisionalAutolockSessionUuid e.2 = Some sessionUuid) then Some (id (call e.2)) else None)
    (executions t).

Definition hasActiveDeviceExecutions (deviceId : string) (query : option ActiveExecutionQuery) (t : ExecutionTracker) :=
  hasActiveExecutionsForKey (deviceExecutions t) deviceId query t.
Definition hasActiveSessionUuidExecutions (sessionUuid : string) (query : option ActiveExecutionQuery) (t : ExecutionTracker) :=
  hasActiveExecutionsForKey (sessionUuidExecutions t) sessionUuid query t.
Definition hasActiveSessionExecutions (sessionId : string) (query : option ActiveExecutionQuery) (t : ExecutionTracker) :=
  hasActiveExecutionsForKey (sessionExecutions t) sessionId query t.
Definition hasActiveAutolockSessionExecutions (sessionUuid : string) (query : option ActiveExecutionQuery)
    (t : ExecutionTracker) : bool :=
  hasActiveExecutionsForKey (autolockSessionExecutions t) sessionUuid query t ||
  existsb (λ executionId,
    let execution := jget executionId (executions t) in
    negb (isExcludedByQuery readers executionId execution query) &&
    match query_onlyToolName query with
    | None => true
    | Some n => match execution with Some e => bool_decide (toolOf e = n) | None => false end
    end &&
    match query_startedAtOrBefore query with
    | None => true
    | Some b => match execution with Some e => startTime (call e) <=? b | None => false end
    end) (unresolvedAutolockExecutionIds sessionUuid t).
Definition hasActiveDeviceSessionExecutions (sessionUuid : string) (query : option ActiveExecutionQuery)
    (t : ExecutionTracker) : bool :=
  hasActiveSessionUuidExecutions sessionUuid query t || hasActiveAutolockSessionExecutions sessionUuid query t.

Definition hasActiveToolExecutionGlobal (tool : string) (t : ExecutionTracker) : bool :=
  existsb (λ e, bool_decide (toolOf e.2 = tool)) (executions t).
Definition hasActiveToolExecutionForKey (tool : string) (executionMap : JsMap string (list string)) (key : string)
    (t : ExecutionTracker) : bool :=
  match jget key executionMap with
  | None | Some [] => false
  | Some ids =>
      existsb (λ executionId,
        match jget executionId (executions t) with Some e => bool_decide (toolOf e = tool) | None => false end) ids
  end.
Record ExecutionScopeOptions := mkScope { globalScope : bool; scope_sessionId : option string; scope_sessionUuid : option string }.
Definition hasActiveToolExecution (tool : string) (options : ExecutionScopeOptions) (t : ExecutionTracker) : bool :=
  if globalScope options then hasActiveToolExecutionGlobal tool t
  else match keyOf (scope_sessionUuid options), keyOf (scope_sessionId options) with
  | Some uuid, _ => hasActiveToolExecutionForKey tool (sessionUuidExecutions t) uuid t
  | None, Some s => hasActiveToolExecutionForKey tool (sessionExecutions t) s t
  | None, None => hasActiveToolExecutionGlobal tool t
  end.

Definition getActiveExecutionCount (t : ExecutionTracker) : nat := length (executions t).
Definition getActiveDeviceSessionExecutionCount (sessionUuid : string) (t : ExecutionTracker) : nat :=
  length (newSet (default [] (jget sessionUuid (sessionUuidExecutions t)) ++
                  default [] (jget sessionUuid (autolockSessionExecutions t)) ++
                  unresolvedAutolockExecutionIds sessionUuid t)).
Definition getActiveDeviceExecutionCount (deviceId : string) (t : ExecutionTracker) : nat :=
  length (default [] (jget deviceId (deviceExecutions t))).
Definition getDeviceIdleForMs (deviceId : string) (now : Z) (t : ExecutionTracker) : option Z :=
  (λ lastActivityAt, Z.max 0 (now - lastActivityAt)) <$> jget deviceId (deviceLastActivityAt t).
Definition getSessionClockStartTime (executionId : string) (t : ExecutionTracker) : option Z :=
  (λ e, sessionClockStartTime (call e)) <$> jget executionId (executions t).
Definition getAdmittedSessionUse (executionId : string) (t : ExecutionTracker) : option string :=
  match jget executionId (executions t) with
  | None => None
  | Some e =>
      if negb (sessionAdmitted (flags e)) || deviceReadCall (flags e) || readOnlySessionAccess (flags e) then None
      else match sessionUuid (call e) with Some s => Some s | None => resolvedAutolockSessionUuid e end
  end.

(** [Math.max]; a deadline of [None] is infinite. *)
Definition laterDeadline (a b : option Z) : option Z :=
  match a, b with Some x, Some y => Some (Z.max x y) | _, _ => None end.
Definition getLatestSessionExecutionDeadlineMs (sessionUuid : string) (onSessionClock excludeReads : bool)
    (t : ExecutionTracker) : option (option Z) :=
  let explicit := default [] (jget sessionUuid (sessionUuidExecutions t)) in
  let autolock := default [] (jget sessionUuid (autolockSessionExecutions t)) in
  foldl (λ latest entry,
    let e := entry.2 in
    let runsUnderSession :=
      bool_decide (provisionalAutolockSessionUuid e = Some sessionUuid) || shas (id (call e)) explicit ||
      shas (id (call e)) autolock in
    if runsUnderSession && negb (excludeReads && isReadExecution e) then
      let deadline := executionDeadlineMs readers e onSessionClock in
      Some (match latest with None => deadline | Some l => laterDeadline l deadline end)
    else latest) None (executions t).

(** ** Waits *)

Definition isActive (target : WaitTarget) (t : ExecutionTracker) : bool :=
  match target with
  | OnTool n => hasActiveToolExecutionGlobal n t
  | OnSession s => hasActiveSessionExecutions s None t
  | OnDevice d q => hasActiveDeviceExecutions d q t
  | OnDeviceSession u q => hasActiveDeviceSessionExecutions u q t
  end.

(** [for (const listener of this.executionEndListeners) listener()]: a check that
    finds nothing active settles its wait, which leaves the listeners. *)
Definition notifyExecutionEnd (t : ExecutionTracker) : ExecutionTracker :=
  let drained := filter (λ w, isActive (wait_on w) t = false) (executionEndListeners t) in
  tell ((λ w, WaitSettled (wait_id w) true) <$> drained)
    (with_waits (filter (λ w, isActive (wait_on w) t = true) (executionEndListeners t)) t).

(** [waitUntilNoneActive] and [waitForExecutionsToEnd]; then the timer. *)
Definition startWait (wait : nat) (target : WaitTarget) (t : ExecutionTracker) : ExecutionTracker :=
  if isActive target t then with_waits (executionEndListeners t ++ [mkWait wait target]) t
  else tell [WaitSettled wait true] t.
Definition waitTimeout (wait : nat) (t : ExecutionTracker) : ExecutionTracker :=
  if bool_decide (wait ∈ wait_id <$> executionEndListeners t) then
    tell [WaitSettled wait false] (with_waits (filter (λ w, wait_id w ≠ wait) (executionEndListeners t)) t)
  else t.

(** ** The end of a call *)

Definition notifySessionExecutionEnded (e : ActiveExecution) (t : ExecutionTracker) : ExecutionTracker :=
  let sessionUuids := newSet (omap keyOf
    [sessionUuid (call e); resolvedAutolockSessionUuid e; provisionalAutolockSessionUuid e]) in
  match sessionUuids with
  | [] => t
  | _ => tell [SessionExecutionEnded sessionUuids (sessionAdmitted (flags e) && negb (readOnlySessionAccess (flags e))) (toolOf e)] t
  end.

Definition unregisterDeviceExecutions (now : Z) (executionId : string) (ids : list string) (t : ExecutionTracker) :
    ExecutionTracker :=
  foldl (λ t deviceId, with_deviceIndex (indexDel deviceId executionId) (with_activity (jset deviceId now) t)) t ids.

Definition unsubscribe (e : ActiveExecution) (t : ExecutionTracker) : ExecutionTracker :=
  match unsubscribeDeadlineExtensions (deadline e) with Some s => tell [Unsubscribed s] t | None => t end.

Definition endExecution (now : Z) (executionId : string) (t : ExecutionTracker) : ExecutionTracker :=
  match jget executionId (executions t) with
  | None => t
  | Some e =>
      let t := with_executions (jdel executionId) t in
      let t := unsubscribe e t in
      let t := unregisterDeviceExecutions now executionId (deviceIds (devices e)) t in
      let t := with_sessions (onKey (sessionId (call e)) (λ k, indexDel k executionId)) t in
      let t := if bool_decide (transportSessionId (call e) = sessionId (call e)) then t
               else with_sessions (onKey (transportSessionId (call e)) (λ k, indexDel k executionId)) t in
      let t := with_uuids (onKey (sessionUuid (call e)) (λ k, indexDel k executionId)) t in
      let t := with_autolocks (onKey (resolvedAutolockSessionUuid e) (λ k, indexDel k executionId)) t in
      notifyExecutionEnd (notifySessionExecutionEnded e t)
  end.

Definition setResolvedAutolockSessionUuid (executionId : string) (uuid : option string) (t : ExecutionTracker) :
    ExecutionTracker :=
  match jget executionId (executions t) with
  | None => t
  | Some e =>
      let provisional := provisionalAutolockSessionUuid e in
      if bool_decide (resolvedAutolockSessionUuid e = uuid) then
        let t := with_executions (jset executionId (with_autolock uuid None e)) t in
        if truthy_opt provisional && bool_decide (provisional ≠ uuid) then notifyExecutionEnd t else t
      else
        let t := with_autolocks (onKey (resolvedAutolockSessionUuid e) (λ k, indexDel k executionId)) t in
        let t := with_executions (jset executionId (with_autolock uuid None e)) t in
        let t := with_autolocks (onKey uuid (λ k, indexAdd k executionId)) t in
        notifyExecutionEnd t
  end.
End Queries.

(** ** The start of a call and the fences *)

Inductive StartError := DaemonRestartPendingError.

(** [now], the offset of the session clock and the identifier are read from
    outside; [resolver] is the autolock resolver. *)
Definition startExecution (executionId : string) (now offset : Z) (resolver : string → option string)
    (tool : string) (sessionId_ sessionUuid_ transportSessionId_ unresolvedAutolockMcpSessionId : option string)
    (t : ExecutionTracker) : outcome StartError ActiveExecution * ExecutionTracker :=
  if daemonRestartPrepared t || daemonMaintenancePrepared t then (Throws DaemonRestartPendingError, t)
  else
    let execution := mkExecution
      (mkCall executionId tool sessionId_ transportSessionId_ sessionUuid_ now (now + offset))
      None (match keyOf unresolvedAutolockMcpSessionId with Some m => resolver m | None => None end)
      (mkDevices [] [] [] [] []) (mkDeadline None None None) (mkFlags false false false false false)
      (mkAbort None None None) in
    let t := with_executions (jset executionId execution) t in
    let t := with_sessions (onKey sessionId_ (λ k, indexAdd k executionId)) t in
    let t := if bool_decide (transportSessionId_ = sessionId_) then t
             else with_sessions (onKey transportSessionId_ (λ k, indexAdd k executionId)) t in
    let t := with_uuids (onKey sessionUuid_ (λ k, indexAdd k executionId)) t in
    (Returns execution, t).

Inductive DaemonRestartAdmission := RestartAccepted | RestartActiveOperations | RestartPending.
Inductive DaemonMaintenanceAdmission :=
| MaintenanceAccepted | MaintenanceActiveOperations | MaintenanceActiveSessions | MaintenancePending.

Definition prepareForDaemonRestartAdmission (maintenanceAdmitted provisioning : bool) (t : ExecutionTracker) :
    DaemonRestartAdmission * ExecutionTracker :=
  if daemonRestartPrepared t then (RestartPending, t)
  else if daemonMaintenancePrepared t && negb maintenanceAdmitted then (RestartPending, t)
  else if (0 <? length (executions t))%nat || provisioning then (RestartActiveOperations, t)
  else (RestartAccepted, with_fences true (daemonMaintenancePrepared t) t).
Definition prepareForDaemonRestart := prepareForDaemonRestartAdmission false.
Definition prepareForAdmittedDaemonRestart (provisioning : bool) (t : ExecutionTracker) :
    DaemonRestartAdmission * ExecutionTracker :=
  if negb (daemonMaintenancePrepared t) then (RestartPending, t)
  else prepareForDaemonRestartAdmission true provisioning t.
Definition clearDaemonRestartPreparation (t : ExecutionTracker) : ExecutionTracker :=
  with_fences false (daemonMaintenancePrepared t) t.
Definition prepareForDaemonMaintenance (activeSessions : Z) (t : ExecutionTracker) :
    DaemonMaintenanceAdmission * ExecutionTracker :=
  if daemonMaintenancePrepared t then (MaintenancePending, t)
  else if 0 <? activeSessions then (MaintenanceActiveSessions, t)
  else if (0 <? length (executions t))%nat || daemonRestartPrepared t then (MaintenanceActiveOperations, t)
  else (MaintenanceAccepted, with_fences (daemonRestartPrepared t) true t).
Definition clearDaemonMaintenancePreparation (t : ExecutionTracker) : ExecutionTracker :=
  with_fences (daemonRestartPrepared t) false t.

(** ** Marks *)

Definition setExecutionDeadline (executionId : string) (reader : nat) (offset : Z) (subscription : option nat)
    (t : ExecutionTracker) : ExecutionTracker :=
  match jget executionId (executions t) with
  | None => t
  | Some e =>
      with_executions (jset executionId (with_deadline (mkDeadline (Some reader) (Some offset) subscription) e))
        (unsubscribe e t)
  end.
(** The callback of a subscription: the deadline was extended. *)
Definition deadlineExtended (executionId : string) (subscription : nat) (offset : Z) : ExecutionTracker → ExecutionTracker :=
  onExecution executionId (λ e,
    if bool_decide (unsubscribeDeadlineExtensions (deadline e) = Some subscription) then
      with_deadline (mkDeadline (readDeadlineMs (deadline e)) (Some offset) (Some subscription)) e
    else e).

Definition setAdmitted (b : bool) (f : ExecutionFlags) : ExecutionFlags :=
  mkFlags (requestCancelled f) (readOnlySessionAccess f) b (deviceReadCall f) (deviceControlCall f).
Definition markSessionAdmitted (executionId : string) := onExecution executionId (with_flags (setAdmitted true)).
Definition unmarkSessionAdmitted (executionId : string) := onExecution executionId (with_flags (setAdmitted false)).
Definition markDeviceReadCall (executionId tool : string) := onExecution executionId (λ e,
  if bool_decide (toolOf e = tool) && negb (deviceControlCall (flags e)) then
    with_flags (λ f, mkFlags (requestCancelled f) (readOnlySessionAccess f) (sessionAdmitted f) true (deviceControlCall f)) e
  else e).
Definition markDeviceControlCall (executionId : string) := onExecution executionId (with_flags (λ f,
  mkFlags (requestCancelled f) (readOnlySessionAccess f) (sessionAdmitted f) false true)).
Definition markReadOnlySessionAccess (executionId : string) := onExecution executionId (with_flags (λ f,
  mkFlags (requestCancelled f) true (sessionAdmitted f) (deviceReadCall f) (deviceControlCall f))).
Definition markRequestCancelled (executionId : string) := onExecution executionId (with_flags (λ f,
  mkFlags true (readOnlySessionAccess f) (sessionAdmitted f) (deviceReadCall f) (deviceControlCall f))).

(** ** Sessionless use of a device *)

Definition markSessionlessDeviceUse (executionId deviceId : string) := onExecution executionId (with_devices (λ d,
  mkDevices (deviceIds d) (revokedDeviceBindings d) (sadd deviceId (sessionlessDeviceUse d))
    (sadd deviceId (sessionlessControlUse d)) (sessionlessReadReadiness d))).
Definition unmarkSessionlessDeviceUse (executionId deviceId : string) := onExecution executionId (with_devices (λ d,
  mkDevices (deviceIds d) (revokedDeviceBindings d)
    (if jhas deviceId (sessionlessReadReadiness d) then sessionlessDeviceUse d else sdel deviceId (sessionlessDeviceUse d))
    (sdel deviceId (sessionlessControlUse d)) (sessionlessReadReadiness d))).
Definition markSessionlessReadReadiness (executionId deviceId : string) (controller : nat) :=
  onExecution executionId (with_devices (λ d,
    let controllers := sadd controller (default [] (jget deviceId (sessionlessReadReadiness d))) in
    mkDevices (deviceIds d) (revokedDeviceBindings d) (sadd deviceId (sessionlessDeviceUse d)) (sessionlessControlUse d)
      (jset deviceId controllers (sessionlessReadReadiness d)))).
Definition unmarkSessionlessReadReadiness (executionId deviceId : string) (controller : nat) :=
  onExecution executionId (with_devices (λ d,
    let remaining := sdel controller (default [] (jget deviceId (sessionlessReadReadiness d))) in
    match remaining with
    | [] =>
        mkDevices (deviceIds d) (revokedDeviceBindings d)
          (if shas deviceId (sessionlessControlUse d) then sessionlessDeviceUse d else sdel deviceId (sessionlessDeviceUse d))
          (sessionlessControlUse d) (jdel deviceId (sessionlessReadReadiness d))
    | _ =>
        mkDevices (deviceIds d) (revokedDeviceBindings d) (sessionlessDeviceUse d) (sessionlessControlUse d)
          (jset deviceId remaining (sessionlessReadReadiness d))
    end)).

(** ** Cancellation *)

(** [controller.abort(reason)]: the first reason stays. *)
Definition abortSignal (reason : option AbortError) (a : ExecutionAbort) : option (option AbortError) :=
  match signal a with Some r => Some r | None => Some reason end.
Definition abortExecution (reason : ExecutionCancellationReason) (a : ExecutionAbort) : ExecutionAbort :=
  if isDeviceLossCancellationReason reason then
    match reason with
    | ReasonText s =>
        let reasonError := default (PlainError s) (deviceLostErrorFromCancellationReason s) in
        mkAbort (abortSignal (Some reasonError) a) (Some reasonError)
          (if isDeviceLostError reasonError then Some reasonError else rememberedLoss a)
    | ReasonError _ => a
    end
  else match reason with
  | ReasonError e => mkAbort (abortSignal (Some e) a) (Some e) (rememberedLoss a)
  | ReasonText _ => mkAbort (abortSignal None a) (cancelReason a) (rememberedLoss a)
  end.

Definition isInCancellationScope (e : ActiveExecution) (options : ExecutionCancellationOptions) : bool :=
  belongsToSessionFilter e (onlySessionUuid options) || bool_decide (id (call e) ∈ includeExecutionIds options).
Definition isCancelled (options : ExecutionCancellationOptions) (e : ActiveExecution) : bool :=
  negb (bool_decide (excludeExecutionId options = Some (id (call e)))) && toolAllowed (onlyToolName options) e &&
  isInCancellationScope e options.

Definition cancelStep (reason : ExecutionCancellationReason) (options : ExecutionCancellationOptions)
    (acc : nat * ExecutionTracker) (executionId : string) : nat * ExecutionTracker :=
  let '(cancelled, t) := acc in
  match jget executionId (executions t) with
  | None => (cancelled, t)
  | Some e =>
      if isCancelled options e then
        (S cancelled, with_executions (jset executionId (with_abort (abortExecution reason) e)) t)
      else (cancelled, t)
  end.
Definition cancelExecutionIds (executionIds : list string) (reason : ExecutionCancellationReason)
    (options : ExecutionCancellationOptions) (t : ExecutionTracker) : nat * ExecutionTracker :=
  foldl (cancelStep reason options) (0%nat, t) executionIds.
Definition cancelExecutionsForKey (key : string) (executionMap : JsMap string (list string))
    (reason : ExecutionCancellationReason) (options : ExecutionCancellationOptions) (t : ExecutionTracker) :=
  cancelExecutionIds (default [] (jget key executionMap)) reason options t.
Definition cancelSessionExecutions (sessionId : string) (reason : ExecutionCancellationReason) (t : ExecutionTracker) :=
  cancelExecutionsForKey sessionId (sessionExecutions t) reason noOptions t.
Definition cancelSessionUuidExecutions (sessionUuid : string) (reason : ExecutionCancellationReason)
    (options : ExecutionCancellationOptions) (t : ExecutionTracker) :=
  cancelExecutionsForKey sessionUuid (sessionUuidExecutions t) reason options t.
Definition cancelToolExecutions (tool : string) (reason : ExecutionCancellationReason) (t : ExecutionTracker) :=
  cancelExecutionIds ((λ e, id (call e.2)) <$> filter (λ e, toolOf e.2 = tool) (executions t)) reason noOptions t.
Definition cancelDeviceSessionExecutions (sessionUuid : string) (reason : ExecutionCancellationReason)
    (options : ExecutionCancellationOptions) (t : ExecutionTracker) :=
  cancelExecutionIds
    (newSet (default [] (jget sessionUuid (sessionUuidExecutions t)) ++
             default [] (jget sessionUuid (autolockSessionExecutions t)) ++
             unresolvedAutolockExecutionIds sessionUuid t)) reason options t.

(** [reason instanceof Error ? reason : new ActionableError(reason)]. *)
Definition revocationOf (reason : ExecutionCancellationReason) : AbortError :=
  match reason with ReasonError e => e | ReasonText s => ActionableError s end.
Definition isRevoked (deviceId : string) (options : ExecutionCancellationOptions) (e : ActiveExecution) : bool :=
  negb (bool_decide (excludeExecutionId options = Some (id (call e)))) && toolAllowed (onlyToolName options) e &&
  (bool_decide (onlyToolName options = None) || shas deviceId (deviceIds (devices e))) &&
  isInCancellationScope e options.
Definition revokeBinding (deviceId : string) (revocation : AbortError) (d : ExecutionDevices) : ExecutionDevices :=
  mkDevices (deviceIds d) (jset deviceId revocation (revokedDeviceBindings d)) (sessionlessDeviceUse d)
    (sessionlessControlUse d) (sessionlessReadReadiness d).
Definition revokeSessionDeviceBindings (deviceId : string) (reason : ExecutionCancellationReason)
    (options : ExecutionCancellationOptions) (t : ExecutionTracker) : ExecutionTracker :=
  with_executions (fmap (λ entry,
    (entry.1, if isRevoked deviceId options entry.2
              then with_devices (revokeBinding deviceId (revocationOf reason)) entry.2 else entry.2))) t.
Definition cancelDeviceExecutions (deviceId : string) (reason : ExecutionCancellationReason)
    (options : ExecutionCancellationOptions) (t : ExecutionTracker) : nat * ExecutionTracker :=
  let t := match onlySessionUuid options with
    | Some _ => revokeSessionDeviceBindings deviceId reason options t
    | None => t
    end in
  cancelExecutionIds (default [] (jget deviceId (deviceExecutions t))) reason options t.

(** The [ActionableError] thrown has the revocation's message, and it as its cause. *)
Definition bindDeviceExecution (executionId deviceId : string) (skipRevoked : bool) (now : Z) (t : ExecutionTracker) :
    outcome AbortError () * ExecutionTracker :=
  match jget executionId (executions t) with
  | None => (Returns (), t)
  | Some e =>
      match jget deviceId (revokedDeviceBindings (devices e)) with
      | Some revocation => if skipRevoked then (Returns (), t) else (Throws revocation, t)
      | None =>
          let e := with_devices (λ d, mkDevices (sadd deviceId (deviceIds d)) (revokedDeviceBindings d)
            (sessionlessDeviceUse d) (sessionlessControlUse d) (sessionlessReadReadiness d)) e in
          (Returns (), with_activity (jset deviceId now)
            (with_deviceIndex (indexAdd deviceId executionId) (with_executions (jset executionId e) t)))
      end
  end.

(** The controllers of a read's readiness that are not aborted are aborted. *)
Definition cancelReadReadiness (isAborted : nat → bool) (e : ActiveExecution) (deviceId : string) (reason : AbortError) :
    list Event :=
  (λ c, ControllerAborted c reason) <$>
    filter (λ c, isAborted c = false) (default [] (jget deviceId (sessionlessReadReadiness (devices e)))).

(** Aborted by its owner, or by the tracker before. *)
Definition controllerAborted (isAborted : nat → bool) (t : ExecutionTracker) (c : nat) : bool :=
  isAborted c || existsb (λ ev, match ev with ControllerAborted c' _ => bool_decide (c' = c) | _ => false end) (events t).
Definition sessionlessStep (isAborted : nat → bool) (deviceId : string) (excluded : option string)
    (acc : nat * ExecutionTracker) (executionId : string) : nat * ExecutionTracker :=
  let '(cancelled, t) := acc in
  match jget executionId (executions t) with
  | None => (cancelled, t)
  | Some e =>
      if bool_decide (excluded = Some (id (call e))) || negb (shas deviceId (sessionlessDeviceUse (devices e))) || aborted e
      then (cancelled, t)
      else
        let reason := InputDeviceOwnedError (toolOf e) deviceId in
        if shas deviceId (sessionlessControlUse (devices e)) then
          (S cancelled, with_executions (jset executionId (with_abort (abortExecution (ReasonError reason)) e)) t)
        else
          match cancelReadReadiness (controllerAborted isAborted t) e deviceId reason with
          | [] => (cancelled, t)
          | es => (S cancelled, tell es t)
          end
  end.
Definition cancelSessionlessDeviceUse (isAborted : nat → bool) (deviceId : string) (excluded : option string)
    (t : ExecutionTracker) : nat * ExecutionTracker :=
  foldl (sessionlessStep isAborted deviceId excluded) (0%nat, t) (jkeys (executions t)).
