(* ===== verification/ExecutionIndexes.v ===== *)
(** * The indexes of the execution tracker

    Every index of [ExecutionTracker] is exactly what its executions say, after any
    sequence of operations; while a fence is up no call runs. *)
From S2P Require Import Prelude JsString JsMap ExecutionTracker.
From stdpp Require Import list sets.
Local Open Scope Z_scope.

(** ** Index updates *)

Definition members (k : string) (m : JsMap string (list string)) : list string := default [] (jget k m).
Definition index_wf (m : JsMap string (list string)) : Prop :=
  ∀ k, NoDup (members k m) ∧ jget k m ≠ Some [].

Lemma members_add k x m k' x' :
  x' ∈ members k' (indexAdd k x m) ↔ (k' = k ∧ x' = x) ∨ x' ∈ members k' m.
Proof.
  unfold members, indexAdd. rewrite jget_set. case_decide as Hk; simpl; [|naive_solver].
  subst k'. rewrite elem_of_sadd. naive_solver.
Qed.
Lemma indexAdd_wf k x m : index_wf m → index_wf (indexAdd k x m).
Proof.
  intros H k'. destruct (H k') as [Hn He]. unfold members, indexAdd in *. rewrite jget_set. case_decide as Hk; [|done].
  subst k'. simpl. split; [by apply sadd_NoDup|]. intros [= E].
  assert (x ∈ sadd x (default [] (jget k m))) as Hx by (apply elem_of_sadd; by left). rewrite E in Hx. by apply elem_of_nil in Hx.
Qed.
Lemma members_del k x m k' x' :
  x' ∈ members k' (indexDel k x m) ↔ ¬ (k' = k ∧ x' = x) ∧ x' ∈ members k' m.
Proof.
  unfold members, indexDel. destruct (jget k m) as [s|] eqn:E.
  - assert (∀ y, y ∈ sdel x s ↔ y ≠ x ∧ y ∈ s) as Hs by (intros; apply elem_of_sdel).
    destruct (sdel x s) as [|y s'] eqn:Es.
    + rewrite jget_del. case_decide as Hk; [subst k'; rewrite E|naive_solver]. simpl.
      specialize (Hs x'). naive_solver.
    + rewrite jget_set. case_decide as Hk; [subst k'; rewrite E|naive_solver]. simpl. rewrite Hs. naive_solver.
  - split; [|naive_solver]. intros Hx. split; [|done]. intros [-> ->]. rewrite E in Hx. by apply elem_of_nil in Hx.
Qed.
Lemma indexDel_wf k x m : index_wf m → index_wf (indexDel k x m).
Proof.
  intros H k'. destruct (H k') as [Hn He]. unfold members, indexDel in *. destruct (jget k m) as [s|] eqn:E; [|done].
  destruct (sdel x s) as [|y s'] eqn:Es.
  - rewrite jget_del. case_decide; [|done]. split; [constructor|done].
  - rewrite jget_set. case_decide as Hk; [|done]. subst k'. rewrite E in Hn. simpl in *. split; [|done].
    rewrite <- Es. unfold sdel. by apply NoDup_filter.
Qed.

(** ** The invariant *)

Definition sessionKeys (e : ActiveExecution) : list string := omap keyOf [sessionId (call e); transportSessionId (call e)].
Definition uuidKeys (e : ActiveExecution) : list string := option_list (keyOf (sessionUuid (call e))).
Definition autolockKeys (e : ActiveExecution) : list string := option_list (keyOf (resolvedAutolockSessionUuid e)).
Definition deviceKeys (e : ActiveExecution) : list string := deviceIds (devices e).

(** [m] lists under every key the executions that have it. *)
Definition indexes (keys : ActiveExecution → list string) (execs : JsMap string ActiveExecution)
    (m : JsMap string (list string)) : Prop :=
  index_wf m ∧ ∀ k x, x ∈ members k m ↔ ∃ e, jget x execs = Some e ∧ k ∈ keys e.

Record tracker_ok (t : ExecutionTracker) : Prop := {
  ok_wf : jwf (executions t);
  ok_ids : ∀ x e, jget x (executions t) = Some e → id (call e) = x;
  ok_sessions : indexes sessionKeys (executions t) (sessionExecutions t);
  ok_uuids : indexes uuidKeys (executions t) (sessionUuidExecutions t);
  ok_autolocks : indexes autolockKeys (executions t) (autolockSessionExecutions t);
  ok_devices : indexes deviceKeys (executions t) (deviceExecutions t);
  ok_fences : daemonRestartPrepared t || daemonMaintenancePrepared t = true → executions t = [];
}.

Lemma newTracker_ok : tracker_ok newTracker.
Proof.
  assert (∀ keys, indexes keys [] []) as H.
  { intros keys. split; [by intros k; split; [constructor|]|]. intros k x. unfold members. rewrite jget_nil.
    split; [by intros ?%elem_of_nil|by intros (? & ? & _)]. }
  split; try done. constructor.
Qed.

(** Executions that keep what the indexes are about. *)
Definition same_keys (e e' : ActiveExecution) : Prop :=
  call e' = call e ∧ resolvedAutolockSessionUuid e' = resolvedAutolockSessionUuid e ∧
  deviceIds (devices e') = deviceIds (devices e).

Lemma indexes_ext keys execs execs' m :
  (∀ x k, (∃ e, jget x execs' = Some e ∧ k ∈ keys e) ↔ (∃ e, jget x execs = Some e ∧ k ∈ keys e)) →
  indexes keys execs m → indexes keys execs' m.
Proof. intros H [Hw Hi]. split; [done|]. intros k x. by rewrite H, Hi. Qed.

Lemma same_keys_all e e' :
  same_keys e e' →
  sessionKeys e' = sessionKeys e ∧ uuidKeys e' = uuidKeys e ∧ autolockKeys e' = autolockKeys e ∧ deviceKeys e' = deviceKeys e.
Proof. intros (Hc & Hr & Hd). unfold sessionKeys, uuidKeys, autolockKeys, deviceKeys. by rewrite Hc, Hr, Hd. Qed.

(** Updates of the executions that keep their keys. *)
Lemma update_ok f t :
  jkeys (f (executions t)) = jkeys (executions t) →
  (∀ x, match jget x (executions t), jget x (f (executions t)) with
        | Some e, Some e' => same_keys e e' | None, None => True | _, _ => False end) →
  tracker_ok t → tracker_ok (with_executions f t).
Proof.
  intros Hk Hs [Hw Hi Hse Hu Ha Hd Hf].
  assert (∀ keys, (∀ e e', same_keys e e' → keys e' = keys e) → ∀ x k,
    (∃ e, jget x (f (executions t)) = Some e ∧ k ∈ keys e) ↔ (∃ e, jget x (executions t) = Some e ∧ k ∈ (keys e : list string))) as H.
  { intros keys Hkeys x k. specialize (Hs x). destruct (jget x (executions t)) as [e|], (jget x (f _)) as [e'|]; try done.
    pose proof (Hkeys e e' Hs) as Hke. split; intros (e0 & [= <-] & Hin); eexists; (split; [done|congruence]). }
  split; cbn [with_executions executions sessionExecutions sessionUuidExecutions autolockSessionExecutions deviceExecutions
      daemonRestartPrepared daemonMaintenancePrepared].
  - unfold jwf in *. by rewrite Hk.
  - intros x e' E. specialize (Hs x). rewrite E in Hs. destruct (jget x (executions t)) as [e|] eqn:Ee; [|done].
    destruct Hs as [-> _]. by apply Hi.
  - eapply indexes_ext; [apply H|done]. intros. by apply same_keys_all.
  - eapply indexes_ext; [apply H|done]. intros. by apply same_keys_all.
  - eapply indexes_ext; [apply H|done]. intros. by apply same_keys_all.
  - eapply indexes_ext; [apply H|done]. intros. by apply same_keys_all.
  - intros Hp. specialize (Hf Hp). rewrite Hf in *. by destruct (f []).
Qed.

Lemma set_execution_ok x e e' t :
  jget x (executions t) = Some e → same_keys e e' → tracker_ok t → tracker_ok (with_executions (jset x e') t).
Proof.
  intros E Hs. apply update_ok.
  - rewrite jkeys_set. unfold jhas. case_bool_decide as Hx; [done|]. by apply jget_in_keys in E.
  - intros y. rewrite jget_set. case_decide as Hy; [subst y; by rewrite E|].
    destruct (jget y (executions t)); [|done]. by split.
Qed.
Lemma onExecution_ok x f t : (∀ e, same_keys e (f e)) → tracker_ok t → tracker_ok (onExecution x f t).
Proof. intros Hf Ht. unfold onExecution. destruct (jget x (executions t)) eqn:E; [|done]. by eapply set_execution_ok. Qed.

(** ** Registration *)

Lemma members_onAdd o x m k y :
  y ∈ members k (onKey o (λ k, indexAdd k x) m) ↔ (keyOf o = Some k ∧ y = x) ∨ y ∈ members k m.
Proof.
  unfold onKey. destruct (keyOf o) as [k0|]; [rewrite members_add|]; naive_solver.
Qed.
Lemma onAdd_wf o x m : index_wf m → index_wf (onKey o (λ k, indexAdd k x) m).
Proof. unfold onKey. destruct (keyOf o); [apply indexAdd_wf|done]. Qed.
Lemma members_onDel o x m k y :
  y ∈ members k (onKey o (λ k, indexDel k x) m) ↔ ¬ (keyOf o = Some k ∧ y = x) ∧ y ∈ members k m.
Proof.
  unfold onKey. destruct (keyOf o) as [k0|]; [rewrite members_del|]; naive_solver.
Qed.
Lemma onDel_wf o x m : index_wf m → index_wf (onKey o (λ k, indexDel k x) m).
Proof. unfold onKey. destruct (keyOf o); [apply indexDel_wf|done]. Qed.
#[local] Hint Resolve onAdd_wf onDel_wf indexAdd_wf indexDel_wf : automobile.

Lemma elem_of_option_key k o : k ∈ option_list (keyOf o) ↔ keyOf o = Some k.
Proof. destruct (keyOf o); cbn; [rewrite list_elem_of_singleton; naive_solver|]. split; [by intros ?%elem_of_nil|done]. Qed.
Lemma elem_of_sessionKeys k e :
  k ∈ sessionKeys e ↔ keyOf (sessionId (call e)) = Some k ∨ keyOf (transportSessionId (call e)) = Some k.
Proof. unfold sessionKeys. rewrite list_elem_of_omap. set_solver. Qed.

Lemma indexes_insert keys execs m m' x e :
  indexes keys execs m → jget x execs = None → index_wf m' →
  (∀ k y, y ∈ members k m' ↔ (y = x ∧ k ∈ keys e) ∨ y ∈ members k m) → indexes keys (jset x e execs) m'.
Proof.
  intros [_ Hi] Hx Hw Hm. split; [done|]. intros k y. rewrite Hm, Hi, jget_set. case_decide; naive_solver.
Qed.
Lemma indexes_remove keys execs m m' x e :
  indexes keys execs m → jget x execs = Some e → index_wf m' →
  (∀ k y, y ∈ members k m' ↔ ¬ (y = x ∧ k ∈ keys e) ∧ y ∈ members k m) → indexes keys (jdel x execs) m'.
Proof.
  intros [_ Hi] Hx Hw Hm. split; [done|]. intros k y. rewrite Hm, Hi, jget_del. case_decide; naive_solver.
Qed.
Lemma indexes_change keys execs m m' x e' :
  indexes keys execs m → index_wf m' →
  (∀ k y, y ∈ members k m' ↔ (y = x ∧ k ∈ keys e') ∨ (y ≠ x ∧ y ∈ members k m)) → indexes keys (jset x e' execs) m'.
Proof.
  intros [_ Hi] Hw Hm. split; [done|]. intros k y. rewrite Hm, Hi, jget_set. case_decide; naive_solver.
Qed.

(** ** The operations that register *)

Lemma start_ok x now offset resolver tool s u tr un t :
  jget x (executions t) = None → tracker_ok t → tracker_ok (startExecution x now offset resolver tool s u tr un t).2.
Proof.
  intros Hx Ht. unfold startExecution. destruct (_ || _) eqn:Hfence; [done|].
  destruct Ht as [Hw Hi Hse Hu Ha Hd Hf]. cbn [snd]. set (e := mkExecution _ _ _ _ _ _ _).
  assert (∀ t', (if bool_decide (tr = s) then t' else with_sessions (onKey tr (λ k, indexAdd k x)) t') =
    with_sessions (if bool_decide (tr = s) then λ m, m else onKey tr (λ k, indexAdd k x)) t') as ->.
  { intros []. by case_bool_decide. }
  split; cbn.
  - by apply jset_wf.
  - intros y e'. rewrite jget_set. case_decide; [intros [= <-]; by subst|apply Hi].
  - eapply indexes_insert; [done|done| |].
    + destruct Hse. case_bool_decide; auto with automobile.
    + intros k y. rewrite elem_of_sessionKeys. cbn. case_bool_decide; rewrite ?members_onAdd; [subst; naive_solver|naive_solver].
  - eapply indexes_insert; [done|done|apply onAdd_wf, Hu|]. intros k y. rewrite members_onAdd. unfold uuidKeys.
    rewrite elem_of_option_key. cbn. naive_solver.
  - eapply indexes_insert; [done|done|apply Ha|]. intros k y. unfold autolockKeys. cbn. set_solver.
  - eapply indexes_insert; [done|done|apply Hd|]. intros k y. unfold deviceKeys. cbn. set_solver.
  - congruence.
Qed.

(** What the indexes are about is unchanged. *)
Lemma frame_ok t t' :
  executions t' = executions t → sessionExecutions t' = sessionExecutions t →
  sessionUuidExecutions t' = sessionUuidExecutions t → autolockSessionExecutions t' = autolockSessionExecutions t →
  deviceExecutions t' = deviceExecutions t →
  (daemonRestartPrepared t' || daemonMaintenancePrepared t' = true → executions t = []) →
  tracker_ok t → tracker_ok t'.
Proof. intros E1 E2 E3 E4 E5 Hf []. split; rewrite ?E1, ?E2, ?E3, ?E4, ?E5; done. Qed.
Lemma notify_ok readers t : tracker_ok t → tracker_ok (notifyExecutionEnd readers t).
Proof. intros Ht. by apply (frame_ok t); try done; apply Ht. Qed.
Lemma tell_ok es t : tracker_ok t → tracker_ok (tell es t).
Proof. intros Ht. by apply (frame_ok t); try done; apply Ht. Qed.
#[local] Hint Resolve notify_ok tell_ok : automobile.

Lemma unregister_eq now x ids t :
  unregisterDeviceExecutions now x ids t =
  with_deviceIndex (λ m, foldl (λ m d, indexDel d x m) m ids)
    (with_activity (λ m, foldl (λ m d, jset d now m) m ids) t).
Proof.
  unfold unregisterDeviceExecutions. revert t. induction ids as [|d ids IH]; intros t; [by destruct t|]. cbn [foldl].
  by rewrite IH.
Qed.
Lemma members_delAll ids x m k y :
  y ∈ members k (foldl (λ m d, indexDel d x m) m ids) ↔ ¬ (y = x ∧ k ∈ ids) ∧ y ∈ members k m.
Proof.
  revert m. induction ids as [|d ids IH]; intros m; cbn [foldl]; [set_solver|]. rewrite IH, members_del. set_solver.
Qed.
Lemma delAll_wf ids x m : index_wf m → index_wf (foldl (λ m d, indexDel d x m) m ids).
Proof. revert m. induction ids as [|d ids IH]; intros m Hm; [done|]. apply IH. by apply indexDel_wf. Qed.

Lemma end_ok readers now x t : tracker_ok t → tracker_ok (endExecution readers now x t).
Proof.
  intros Ht. unfold endExecution. destruct (jget x (executions t)) as [e|] eqn:E; [|done]. apply notify_ok.
  unfold notifySessionExecutionEnded. set (t1 := with_autolocks _ _).
  assert (tracker_ok t1) as H1; [|destruct (newSet _); [done|by apply tell_ok]]. subst t1.
  assert (∀ t', (if bool_decide (transportSessionId (call e) = sessionId (call e)) then t'
      else with_sessions (onKey (transportSessionId (call e)) (λ k, indexDel k x)) t') =
    with_sessions (if bool_decide (transportSessionId (call e) = sessionId (call e)) then λ m, m
      else onKey (transportSessionId (call e)) (λ k, indexDel k x)) t') as ->.
  { intros []. by case_bool_decide. }
  rewrite unregister_eq. assert (∀ t', unsubscribe e t' = tell (Unsubscribed <$> option_list (unsubscribeDeadlineExtensions (deadline e))) t') as ->.
  { intros []. unfold unsubscribe, tell. destruct (unsubscribeDeadlineExtensions (deadline e)); cbn; by rewrite ?app_nil_r. }
  destruct Ht as [Hw Hi Hse Hu Ha Hd Hf]. split; cbn.
  - by apply jdel_wf.
  - intros y e'. rewrite jget_del. case_decide; [done|apply Hi].
  - eapply indexes_remove; [exact Hse|exact E| |].
    + destruct Hse. case_bool_decide; auto with automobile.
    + intros k y. rewrite elem_of_sessionKeys. case_bool_decide as Hs; rewrite ?members_onDel; [rewrite Hs|]; naive_solver.
  - eapply indexes_remove; [exact Hu|exact E|apply onDel_wf, Hu|]. intros k y. rewrite members_onDel. unfold uuidKeys.
    rewrite elem_of_option_key. naive_solver.
  - eapply indexes_remove; [exact Ha|exact E|apply onDel_wf, Ha|]. intros k y. rewrite members_onDel. unfold autolockKeys.
    rewrite elem_of_option_key. naive_solver.
  - eapply indexes_remove; [exact Hd|exact E|apply delAll_wf, Hd|]. intros k y. rewrite members_delAll. done.
  - intros Hp. by rewrite (Hf Hp).
Qed.

Lemma resolved_ok readers x uuid t : tracker_ok t → tracker_ok (setResolvedAutolockSessionUuid readers x uuid t).
Proof.
  intros Ht. unfold setResolvedAutolockSessionUuid. destruct (jget x (executions t)) as [e|] eqn:E; [|done].
  case_bool_decide as Hr.
  - assert (tracker_ok (with_executions (jset x (with_autolock uuid None e)) t)) as H1.
    { by apply (set_execution_ok x e); [|split_and!; cbn|]. }
    destruct (_ && _); [by apply notify_ok|done].
  - apply notify_ok. destruct Ht as [Hw Hi Hse Hu Ha Hd Hf].
    assert (jhas x (executions t) = true) as Hx by (apply jhas_true; by eapply jget_in_keys).
    assert (∀ keys m, (∀ k, k ∈ keys (with_autolock uuid None e) ↔ k ∈ (keys e : list string)) → indexes keys (executions t) m →
              indexes keys (jset x (with_autolock uuid None e) (executions t)) m) as Hsame.
    { intros keys m Hk. apply indexes_ext. intros y k. rewrite jget_set. case_decide as Hy; [subst y; rewrite E|done].
      specialize (Hk k). naive_solver. }
    split; cbn.
    + by apply jset_wf.
    + intros y e'. rewrite jget_set. case_decide; [intros [= <-]; subst y; cbn; by apply Hi|apply Hi].
    + by apply Hsame.
    + by apply Hsame.
    + eapply indexes_change; [exact Ha|destruct Ha; auto with automobile|]. intros k y.
      rewrite members_onAdd, members_onDel. unfold autolockKeys at 1. rewrite elem_of_option_key. cbn.
      destruct Ha as [_ Ha]. specialize (Ha k y). unfold autolockKeys in Ha. setoid_rewrite elem_of_option_key in Ha.
      destruct (decide (y = x)) as [->|]; [|naive_solver]. rewrite E in Ha. naive_solver.
    + by apply Hsame.
    + intros Hp. specialize (Hf Hp). rewrite Hf in E. by rewrite jget_nil in E.
Qed.

Lemma bind_ok x d skip now t : tracker_ok t → tracker_ok (bindDeviceExecution x d skip now t).2.
Proof.
  intros Ht. unfold bindDeviceExecution. destruct (jget x (executions t)) as [e|] eqn:E; [|done].
  destruct (jget d (revokedDeviceBindings (devices e))); [by destruct skip|]. cbn [snd].
  destruct Ht as [Hw Hi Hse Hu Ha Hd Hf]. set (e' := with_devices _ e).
  assert (∀ keys m, keys e' = (keys e : list string) → indexes keys (executions t) m →
            indexes keys (jset x e' (executions t)) m) as Hsame.
  { intros keys m Hk. apply indexes_ext. intros y k. rewrite jget_set. case_decide as Hy; [subst y; rewrite E|done].
    naive_solver congruence. }
  split; cbn.
  - by apply jset_wf.
  - intros y e0. rewrite jget_set. case_decide; [intros [= <-]; subst y; cbn; by apply Hi|apply Hi].
  - by apply Hsame.
  - by apply Hsame.
  - by apply Hsame.
  - eapply indexes_change; [exact Hd|apply indexAdd_wf, Hd|]. intros k y. rewrite members_add. unfold deviceKeys at 1. cbn.
    rewrite elem_of_sadd. destruct Hd as [_ Hd]. specialize (Hd k y). unfold deviceKeys in Hd.
    destruct (decide (y = x)) as [->|]; [|naive_solver]. rewrite E in Hd. naive_solver.
  - intros Hp. specialize (Hf Hp). rewrite Hf in E. by rewrite jget_nil in E.
Qed.

(** ** The operations that mark and cancel *)

Lemma same_keys_refl e : same_keys e e.
Proof. done. Qed.
#[local] Hint Resolve same_keys_refl : automobile.

Lemma cancelStep_ok reason options n t x : tracker_ok t → tracker_ok (cancelStep reason options (n, t) x).2.
Proof.
  intros Ht. unfold cancelStep. destruct (jget x (executions t)) as [e|] eqn:E; [|done].
  destruct (isCancelled options e); [|done]. cbn [snd]. by apply (set_execution_ok x e).
Qed.
Lemma cancel_ok ids reason options t : tracker_ok t → tracker_ok (cancelExecutionIds ids reason options t).2.
Proof.
  unfold cancelExecutionIds. generalize 0%nat. revert t. induction ids as [|x ids IH]; intros t n Ht; [done|]. cbn [foldl].
  pose proof (cancelStep_ok reason options n t x Ht) as H. destruct (cancelStep reason options (n, t) x) as [n1 t1].
  by apply IH.
Qed.
Lemma sessionlessStep_ok isAborted d excluded n t x :
  tracker_ok t → tracker_ok (sessionlessStep isAborted d excluded (n, t) x).2.
Proof.
  intros Ht. unfold sessionlessStep. destruct (jget x (executions t)) as [e|] eqn:E; [|done].
  destruct (_ || _); [done|]. destruct (shas d _); cbn [snd]; [by apply (set_execution_ok x e)|].
  destruct (cancelReadReadiness _ _ _ _); [done|by apply tell_ok].
Qed.
Lemma sessionless_ok isAborted d excluded t : tracker_ok t → tracker_ok (cancelSessionlessDeviceUse isAborted d excluded t).2.
Proof.
  unfold cancelSessionlessDeviceUse. generalize 0%nat. generalize (jkeys (executions t)) as ids. intros ids. revert t.
  induction ids as [|x ids IH]; intros t n Ht; [done|]. cbn [foldl].
  pose proof (sessionlessStep_ok isAborted d excluded n t x Ht) as H.
  destruct (sessionlessStep isAborted d excluded (n, t) x) as [n1 t1]. by apply IH.
Qed.
Lemma revoke_ok d reason options t : tracker_ok t → tracker_ok (revokeSessionDeviceBindings d reason options t).
Proof.
  set (f := λ e, if isRevoked d options e then with_devices (revokeBinding d (revocationOf reason)) e else e).
  apply update_ok; [apply (jkeys_fmap f)|]. intros x.
  match goal with |- context [jget x (?g <$> executions t)] =>
    replace (jget x (g <$> executions t)) with (f <$> jget x (executions t)) by (symmetry; apply (jget_fmap f)) end.
  destruct (jget x (executions t)) as [e|]; [|done]. cbn. unfold f. destruct (isRevoked d options e); [by split_and!|done].
Qed.

(** ** All operations *)

Inductive TrackerOp :=
| Start (executionId : string) (now offset : Z) (resolver : string → option string) (tool : string)
    (sessionId_ sessionUuid_ transportSessionId_ unresolvedAutolockMcpSessionId : option string)
| End_ (now : Z) (executionId : string)
| Resolve (executionId : string) (uuid : option string)
| Bind (executionId deviceId : string) (skipRevoked : bool) (now : Z)
| PrepareRestart (provisioning : bool)
| PrepareAdmittedRestart (provisioning : bool)
| ClearRestart
| PrepareMaintenance (activeSessions : Z)
| ClearMaintenance
| SetDeadline (executionId : string) (reader : nat) (offset : Z) (subscription : option nat)
| DeadlineExtended (executionId : string) (subscription : nat) (offset : Z)
| MarkAdmitted (executionId : string)
| UnmarkAdmitted (executionId : string)
| MarkRead (executionId tool : string)
| MarkControl (executionId : string)
| MarkReadOnly (executionId : string)
| MarkRequestCancelled (executionId : string)
| MarkSessionless (executionId deviceId : string)
| UnmarkSessionless (executionId deviceId : string)
| MarkReadiness (executionId deviceId : string) (controller : nat)
| UnmarkReadiness (executionId deviceId : string) (controller : nat)
| CancelSession (sessionId : string) (reason : ExecutionCancellationReason)
| CancelSessionUuid (sessionUuid : string) (reason : ExecutionCancellationReason) (options : ExecutionCancellationOptions)
| CancelTool (tool : string) (reason : ExecutionCancellationReason)
| CancelDeviceSession (sessionUuid : string) (reason : ExecutionCancellationReason) (options : ExecutionCancellationOptions)
| CancelDevice (deviceId : string) (reason : ExecutionCancellationReason) (options : ExecutionCancellationOptions)
| CancelSessionless (isAborted : nat → bool) (deviceId : string) (excluded : option string)
| AwaitEnd (wait : nat) (target : WaitTarget)
| WaitTimeout (wait : nat).

(** [readers]: the deadlines of the requests at that moment. *)
Definition apply_op (readers : nat → option Z) (op : TrackerOp) (t : ExecutionTracker) : ExecutionTracker :=
  match op with
  | Start x now offset resolver tool s u tr un => (startExecution x now offset resolver tool s u tr un t).2
  | End_ now x => endExecution readers now x t
  | Resolve x uuid => setResolvedAutolockSessionUuid readers x uuid t
  | Bind x d skip now => (bindDeviceExecution x d skip now t).2
  | PrepareRestart provisioning => (prepareForDaemonRestart provisioning t).2
  | PrepareAdmittedRestart provisioning => (prepareForAdmittedDaemonRestart provisioning t).2
  | ClearRestart => clearDaemonRestartPreparation t
  | PrepareMaintenance n => (prepareForDaemonMaintenance n t).2
  | ClearMaintenance => clearDaemonMaintenancePreparation t
  | SetDeadline x reader offset sub => setExecutionDeadline x reader offset sub t
  | DeadlineExtended x sub offset => deadlineExtended x sub offset t
  | MarkAdmitted x => markSessionAdmitted x t
  | UnmarkAdmitted x => unmarkSessionAdmitted x t
  | MarkRead x tool => markDeviceReadCall x tool t
  | MarkControl x => markDeviceControlCall x t
  | MarkReadOnly x => markReadOnlySessionAccess x t
  | MarkRequestCancelled x => markRequestCancelled x t
  | MarkSessionless x d => markSessionlessDeviceUse x d t
  | UnmarkSessionless x d => unmarkSessionlessDeviceUse x d t
  | MarkReadiness x d c => markSessionlessReadReadiness x d c t
  | UnmarkReadiness x d c => unmarkSessionlessReadReadiness x d c t
  | CancelSession s r => (cancelSessionExecutions s r t).2
  | CancelSessionUuid u r o => (cancelSessionUuidExecutions u r o t).2
  | CancelTool n r => (cancelToolExecutions n r t).2
  | CancelDeviceSession u r o => (cancelDeviceSessionExecutions u r o t).2
  | CancelDevice d r o => (cancelDeviceExecutions d r o t).2
  | CancelSessionless a d ex => (cancelSessionlessDeviceUse a d ex t).2
  | AwaitEnd n target => startWait readers n target t
  | WaitTimeout n => waitTimeout n t
  end.

(** The generator gives identifiers no running call has. *)
Definition fresh_op (op : TrackerOp) (t : ExecutionTracker) : Prop :=
  match op with Start x _ _ _ _ _ _ _ _ => jget x (executions t) = None | _ => True end.

Lemma fences_ok t restart maintenance :
  (restart || maintenance = true → executions t = []) → tracker_ok t → tracker_ok (with_fences restart maintenance t).
Proof. intros H. by apply frame_ok. Qed.
Lemma idle_executions t : (0 <? length (executions t))%nat = false → executions t = [].
Proof. intros H%Nat.ltb_ge. destruct (executions t); [done|cbn in H; lia]. Qed.

Lemma prepareRestart_ok admitted provisioning t :
  tracker_ok t → tracker_ok (prepareForDaemonRestartAdmission admitted provisioning t).2.
Proof.
  intros Ht. unfold prepareForDaemonRestartAdmission. destruct (daemonRestartPrepared t); [done|]. destruct (_ && _); [done|].
  destruct (_ || _) eqn:E; [done|]. apply orb_false_iff in E as [E _]. apply fences_ok; [|done]. intros _. by apply idle_executions.
Qed.

Lemma apply_op_ok readers op t : fresh_op op t → tracker_ok t → tracker_ok (apply_op readers op t).
Proof.
  intros Hfresh Ht. destruct op; cbn [apply_op fresh_op] in *;
    try (apply onExecution_ok; [|done]; intros e; by split_and!).
  - by apply start_ok.
  - by apply end_ok.
  - by apply resolved_ok.
  - by apply bind_ok.
  - by apply prepareRestart_ok.
  - unfold prepareForAdmittedDaemonRestart. destruct (negb _); [done|]. by apply prepareRestart_ok.
  - apply fences_ok; [|done]. intros H. apply (ok_fences t Ht). cbn in H. by rewrite H, orb_true_r.
  - unfold prepareForDaemonMaintenance. destruct (daemonMaintenancePrepared t); [done|]. destruct (0 <? _); [done|].
    destruct (_ || _) eqn:E; [done|]. apply orb_false_iff in E as [E _]. apply fences_ok; [|done]. intros _. by apply idle_executions.
  - apply fences_ok; [|done]. intros H. apply (ok_fences t Ht). rewrite orb_false_r in H. by rewrite H.
  - unfold setExecutionDeadline. destruct (jget _ (executions t)) as [e|] eqn:E; [|done].
    assert (tracker_ok (unsubscribe e t)) as H1 by (unfold unsubscribe; destruct (unsubscribeDeadlineExtensions _); [by apply tell_ok|done]).
    apply (set_execution_ok _ e); [unfold unsubscribe; by destruct (unsubscribeDeadlineExtensions _)|by split_and!|done].
  - apply onExecution_ok; [|done]. intros e. case_bool_decide; by split_and!.
  - apply onExecution_ok; [|done]. intros e. destruct (_ && _); by split_and!.
  - apply onExecution_ok; [|done]. intros e. unfold with_devices. split_and!; try done. cbn. by destruct (sdel _ _).
  - by apply cancel_ok.
  - by apply cancel_ok.
  - by apply cancel_ok.
  - by apply cancel_ok.
  - apply cancel_ok. destruct (onlySessionUuid options); [by apply revoke_ok|done].
  - by apply sessionless_ok.
  - unfold startWait. destruct (isActive _ _ _); [|by apply tell_ok]. apply (frame_ok t); try done; apply Ht.
  - unfold waitTimeout. case_bool_decide; [|done]. apply tell_ok, (frame_ok t); try done; apply Ht.
Qed.

(** A tracker's life: operations with the deadlines they read. *)
Inductive lives : ExecutionTracker → Prop :=
| lives_new : lives newTracker
| lives_op readers op t : lives t → fresh_op op t → lives (apply_op readers op t).
Lemma lives_ok t : lives t → tracker_ok t.
Proof. induction 1; [apply newTracker_ok|by apply apply_op_ok]. Qed.
