(* ===== verification/ExecutionQueries.v ===== *)
(** * The queries of the execution tracker

    What the queries of [ExecutionTracker] answer, in terms of the running
    executions alone. *)
From S2P Require Import Prelude JsString JsMap ExecutionTracker ExecutionIndexes.
From stdpp Require Import list sets.
Local Open Scope Z_scope.

(** The executions that run. *)
Definition running (t : ExecutionTracker) : list ActiveExecution := (executions t).*2.

(** A call of a device session: explicit, resolved or still unresolved. *)
Definition ofSession (s : string) (e : ActiveExecution) : bool :=
  shas s (uuidKeys e) || shas s (autolockKeys e) || bool_decide (provisionalAutolockSessionUuid e = Some s).
(** What a query asks of a call, its session filter apart. *)
Definition asked (readers : nat → option Z) (query : option ActiveExecutionQuery) (e : ActiveExecution) : bool :=
  negb (isExcludedByQuery readers (id (call e)) (Some e) query) && toolAllowed (query_onlyToolName query) e &&
  startedBy (query_startedAtOrBefore query) e.

Lemma asked_unfiltered readers query e :
  isUnfilteredQuery query = true →
  asked readers query e = true ∧ belongsToSessionFilter e (query_onlySessionUuid query) = true.
Proof. destruct query as [[[] [] [] [] [] [] []]|]; done. Qed.

Section Queries.
Context (readers : nat → option Z) (t : ExecutionTracker).
Hypothesis Hok : tracker_ok t.

Lemma running_lookup e : e ∈ running t ↔ jget (id (call e)) (executions t) = Some e.
Proof.
  unfold running. rewrite list_elem_of_fmap. split.
  - intros ([x e'] & -> & Hin). cbn. pose proof (jget_wf_in x e' _ (ok_wf t Hok) Hin) as E. by rewrite (ok_ids t Hok x e' E).
  - intros E. exists (id (call e), e). split; [done|]. by apply jget_in.
Qed.
Lemma lookup_running x e : jget x (executions t) = Some e ↔ e ∈ running t ∧ id (call e) = x.
Proof.
  rewrite running_lookup. split; [|by intros [? <-]]. intros E. pose proof (ok_ids t Hok x e E) as <-. done.
Qed.

Lemma existsb_running f : existsb f (running t) = true ↔ ∃ e, e ∈ running t ∧ f e = true.
Proof. rewrite existsb_exists. by setoid_rewrite list_elem_of_In. Qed.

(** An index query, by its keys. *)
Lemma hasActiveExecutionsForKey_spec keys m k query :
  indexes keys (executions t) m →
  hasActiveExecutionsForKey readers m k query t =
  existsb (λ e, shas k (keys e) && asked readers query e && belongsToSessionFilter e (query_onlySessionUuid query)) (running t).
Proof.
  intros [Hw Hi]. apply eq_true_iff_eq. rewrite existsb_running. unfold hasActiveExecutionsForKey.
  specialize (Hi k). unfold members in Hi. destruct (Hw k) as [_ Hne].
  assert (∀ e, shas k (keys e) && asked readers query e && belongsToSessionFilter e (query_onlySessionUuid query) = true ↔
    k ∈ keys e ∧ asked readers query e = true ∧ belongsToSessionFilter e (query_onlySessionUuid query) = true) as Hsplit.
  { intros e. unfold shas. rewrite !andb_true_iff, bool_decide_eq_true. tauto. }
  setoid_rewrite Hsplit. destruct (jget k m) as [[|x ids]|] eqn:E; cbn [default from_option] in Hi.
  - done.
  - destruct (isUnfilteredQuery query) eqn:Eu.
    + split; [intros _|done]. destruct (proj1 (Hi x)) as (e & He & Hk); [cbn; by left|].
      exists e. split; [by apply lookup_running in He as [? _]|]. split; [done|]. by apply asked_unfiltered.
    + rewrite existsb_exists. split.
      * intros (y & Hy%list_elem_of_In & Hf). destruct (proj1 (Hi y) Hy) as (e & He & Hk). rewrite He in Hf.
        apply lookup_running in He as [Hin Hid]. exists e. split; [done|]. split; [done|].
        unfold asked. rewrite Hid. rewrite !andb_true_iff in *. tauto.
      * intros (e & Hin & Hk & Ha & Hb). exists (id (call e)). apply running_lookup in Hin. rewrite Hin.
        split; [apply list_elem_of_In, Hi; by eexists|]. unfold asked in Ha. rewrite !andb_true_iff in *. tauto.
  - split; [done|]. intros (e & Hin & Hk & _). apply running_lookup in Hin.
    assert (id (call e) ∈ ([] : list string)) as Hx by (apply Hi; by eexists). by apply elem_of_nil in Hx.
Qed.

Lemma unresolved_spec s x :
  x ∈ unresolvedAutolockExecutionIds s t ↔
  ∃ e, jget x (executions t) = Some e ∧ provisionalAutolockSessionUuid e = Some s.
Proof.
  unfold unresolvedAutolockExecutionIds. rewrite list_elem_of_omap. split.
  - intros ([y e] & Hin & Hx). cbn in Hx. case_bool_decide as Hp; [|done]. injection Hx as <-.
    pose proof (jget_wf_in y e _ (ok_wf t Hok) Hin) as E. exists e. by rewrite (ok_ids t Hok y e E).
  - intros (e & E & Hp). exists (x, e). split; [by apply jget_in|]. cbn. rewrite bool_decide_eq_true_2 by done.
    by rewrite (ok_ids t Hok x e E).
Qed.

Lemma hasActiveDeviceSession_spec s query :
  query_onlySessionUuid query = None ∨ (query_onlySessionUuid query = Some s ∧ truthy s = true) →
  hasActiveDeviceSessionExecutions readers s query t = existsb (λ e, ofSession s e && asked readers query e) (running t).
Proof.
  intros Hq. unfold hasActiveDeviceSessionExecutions, hasActiveSessionUuidExecutions, hasActiveAutolockSessionExecutions.
  rewrite (hasActiveExecutionsForKey_spec uuidKeys), (hasActiveExecutionsForKey_spec autolockKeys) by apply Hok.
  assert (∀ e, s ∈ uuidKeys e ∨ s ∈ autolockKeys e → belongsToSessionFilter e (query_onlySessionUuid query) = true) as Hb.
  { intros e Hk. destruct Hq as [-> |[-> _]]; [done|]. cbn. unfold uuidKeys, autolockKeys in Hk.
    rewrite !elem_of_option_key in Hk. rewrite !orb_true_iff, !bool_decide_eq_true. unfold keyOf in Hk.
    destruct Hk as [Hk|Hk]; [left; left; destruct (sessionUuid (call e)) as [u|]|
      left; right; destruct (resolvedAutolockSessionUuid e) as [u|]]; try done; by destruct (truthy u). }
  apply eq_true_iff_eq. rewrite !orb_true_iff, !existsb_running, existsb_exists.
  assert (∀ e, ofSession s e && asked readers query e = true ↔
    ((s ∈ uuidKeys e ∨ s ∈ autolockKeys e) ∨ provisionalAutolockSessionUuid e = Some s) ∧ asked readers query e = true) as H1.
  { intros e. unfold ofSession, shas. by rewrite andb_true_iff, !orb_true_iff, !bool_decide_eq_true. }
  assert (∀ keys e, shas s (keys e) && asked readers query e && belongsToSessionFilter e (query_onlySessionUuid query) = true ↔
    s ∈ keys e ∧ asked readers query e = true ∧ belongsToSessionFilter e (query_onlySessionUuid query) = true) as H2.
  { intros keys e. unfold shas. rewrite !andb_true_iff, bool_decide_eq_true. tauto. }
  setoid_rewrite H1. setoid_rewrite H2. split.
  - intros [(e & Hin & Hk & Ha & _)|[(e & Hin & Hk & Ha & _)|(x & Hx%list_elem_of_In & Hf)]].
    + exists e. tauto.
    + exists e. tauto.
    + apply unresolved_spec in Hx as (e & He & Hp). exists e. pose proof He as [Hin Hid]%lookup_running.
      split; [done|]. split; [by right|]. rewrite He in Hf. unfold asked. rewrite Hid.
      destruct (query_onlyToolName query), (query_startedAtOrBefore query); exact Hf.
  - intros (e & Hin & [[Hk|Hk]|Hp] & Ha).
    + left. exists e. do 3 (split; [done|]). apply Hb. by left.
    + right. left. exists e. do 3 (split; [done|]). apply Hb. by right.
    + right. right. exists (id (call e)). pose proof Hin as E%running_lookup. rewrite E. split.
      * apply list_elem_of_In, unresolved_spec. by eexists.
      * unfold asked in Ha. destruct (query_onlyToolName query), (query_startedAtOrBefore query); exact Ha.
Qed.

(** The identifiers of the calls a test accepts. *)
Definition idsOf (f : ActiveExecution → bool) : list string := (λ e, id (call e)) <$> filter (λ e, f e = true) (running t).
Lemma running_ids : (λ e, id (call e)) <$> running t = jkeys (executions t).
Proof.
  unfold running, jkeys. rewrite <- list_fmap_compose. apply list_fmap_ext. intros i [x e] Hi. cbn.
  apply (ok_ids t Hok). apply jget_wf_in; [apply Hok|]. by eapply list_elem_of_lookup_2.
Qed.
Lemma idsOf_NoDup f : NoDup (idsOf f).
Proof.
  pose proof (ok_wf t Hok) as Hw. unfold jwf in Hw. rewrite <- running_ids in Hw. unfold idsOf. revert Hw.
  induction (running t) as [|e l IH]; [constructor|]. rewrite fmap_cons, NoDup_cons. intros [Hn Hd]. rewrite filter_cons.
  case_decide; [|by apply IH]. rewrite fmap_cons, NoDup_cons. split; [|by apply IH]. intros Hin. apply Hn.
  apply list_elem_of_fmap in Hin as (e' & -> & [_ Hin]%list_elem_of_filter). apply list_elem_of_fmap. by exists e'.
Qed.
Lemma elem_of_idsOf f x : x ∈ idsOf f ↔ ∃ e, jget x (executions t) = Some e ∧ f e = true.
Proof.
  unfold idsOf. rewrite list_elem_of_fmap. setoid_rewrite list_elem_of_filter. split.
  - intros (e & -> & Hf & Hin). exists e. split; [by apply running_lookup|done].
  - intros (e & [Hin Hid]%lookup_running & Hf). exists e. done.
Qed.

(** The calls of a session, as the tracker collects them. *)
Definition sessionIds (s : string) : list string :=
  newSet (default [] (jget s (sessionUuidExecutions t)) ++ default [] (jget s (autolockSessionExecutions t)) ++
          unresolvedAutolockExecutionIds s t).
Lemma sessionIds_perm s : Permutation (sessionIds s) (idsOf (ofSession s)).
Proof.
  apply NoDup_Permutation; [apply newSet_NoDup|apply idsOf_NoDup|]. intros x. unfold sessionIds.
  rewrite elem_of_newSet, !elem_of_app, unresolved_spec, elem_of_idsOf.
  destruct (ok_uuids t Hok) as [_ Hu], (ok_autolocks t Hok) as [_ Ha]. specialize (Hu s x). specialize (Ha s x).
  unfold members in *. rewrite Hu, Ha. unfold ofSession, shas.
  setoid_rewrite orb_true_iff. setoid_rewrite orb_true_iff. setoid_rewrite bool_decide_eq_true. naive_solver.
Qed.
Lemma session_count s : getActiveDeviceSessionExecutionCount s t = length (filter (λ e, ofSession s e = true) (running t)).
Proof.
  change (getActiveDeviceSessionExecutionCount s t) with (length (sessionIds s)). rewrite (sessionIds_perm s).
  unfold idsOf. by rewrite length_fmap.
Qed.

(** The queries by tool. *)
Lemma tool_global n : hasActiveToolExecutionGlobal n t = existsb (λ e, bool_decide (toolOf e = n)) (running t).
Proof. unfold hasActiveToolExecutionGlobal, running. induction (executions t) as [|[x e] l IH]; [done|]. cbn. by rewrite IH. Qed.
Lemma tool_for_key keys m k n :
  indexes keys (executions t) m →
  hasActiveToolExecutionForKey n m k t = existsb (λ e, shas k (keys e) && bool_decide (toolOf e = n)) (running t).
Proof.
  intros [Hw Hi]. apply eq_true_iff_eq. rewrite existsb_running. unfold hasActiveToolExecutionForKey.
  specialize (Hi k). unfold members in Hi. unfold shas. setoid_rewrite andb_true_iff. setoid_rewrite bool_decide_eq_true.
  assert ((∃ x, x ∈ default [] (jget k m) ∧ (∃ e, jget x (executions t) = Some e ∧ toolOf e = n)) ↔
          ∃ e, e ∈ running t ∧ k ∈ keys e ∧ toolOf e = n) as <-.
  { split.
    - intros (x & Hx & e & E & Hn). apply Hi in Hx as (e' & E' & Hk). rewrite E in E'. injection E' as <-.
      exists e. by apply lookup_running in E as [? _].
    - intros (e & Hin%running_lookup & Hk & Hn). exists (id (call e)). split; [apply Hi|]; by exists e. }
  destruct (jget k m) as [[|x ids]|]; cbn [default from_option].
  - split; [done|]. by intros (? & ?%elem_of_nil & _).
  - rewrite existsb_exists. setoid_rewrite <- list_elem_of_In. split; intros (y & Hy & Hf); exists y; (split; [done|]).
    + destruct (jget y (executions t)) as [e|]; [|done]. exists e. by apply bool_decide_eq_true in Hf.
    + destruct Hf as (e & -> & Hn). by apply bool_decide_eq_true.
  - split; [done|]. by intros (? & ?%elem_of_nil & _).
Qed.
Lemma device_count d : getActiveDeviceExecutionCount d t = length (filter (λ e, d ∈ deviceIds (devices e)) (running t)).
Proof.
  unfold getActiveDeviceExecutionCount. destruct (ok_devices t Hok) as [Hw Hi]. specialize (Hi d). unfold members in Hi.
  destruct (Hw d) as [Hn _]. unfold members in Hn.
  assert (Permutation (default [] (jget d (deviceExecutions t))) (idsOf (λ e, bool_decide (d ∈ deviceIds (devices e))))) as ->.
  { apply NoDup_Permutation; [done|apply idsOf_NoDup|]. intros x. rewrite Hi, elem_of_idsOf. unfold deviceKeys.
    by setoid_rewrite bool_decide_eq_true. }
  unfold idsOf. rewrite length_fmap. f_equal. apply list_filter_iff. intros e. by rewrite bool_decide_eq_true.
Qed.

(** The latest deadline of a session. *)
Lemma member_ofSession s e :
  e ∈ running t →
  bool_decide (provisionalAutolockSessionUuid e = Some s) || shas (id (call e)) (default [] (jget s (sessionUuidExecutions t))) ||
  shas (id (call e)) (default [] (jget s (autolockSessionExecutions t))) = ofSession s e.
Proof.
  intros Hin%running_lookup. destruct (ok_uuids t Hok) as [_ Hu], (ok_autolocks t Hok) as [_ Ha].
  specialize (Hu s (id (call e))). specialize (Ha s (id (call e))). unfold members in *.
  apply eq_true_iff_eq. unfold ofSession, shas. rewrite !orb_true_iff, !bool_decide_eq_true, Hu, Ha, Hin. naive_solver.
Qed.
End Queries.

(** [Math.max] over a list of deadlines; [None] for the empty list. *)
Definition latestOf (deadlines : list (option Z)) : option (option Z) :=
  foldl (λ latest d, Some (match latest with None => d | Some l => laterDeadline l d end)) None deadlines.
Lemma latest_spec readers t s onSessionClock excludeReads :
  tracker_ok t →
  getLatestSessionExecutionDeadlineMs readers s onSessionClock excludeReads t =
  latestOf ((λ e, executionDeadlineMs readers e onSessionClock) <$>
    filter (λ e, ofSession s e && negb (excludeReads && isReadExecution e) = true) (running t)).
Proof.
  intros Hok. unfold getLatestSessionExecutionDeadlineMs, latestOf, running.
  pose proof (member_ofSession t Hok s) as Hm. unfold running in Hm. revert Hm. generalize (@None (option Z)).
  induction (executions t) as [|[x e] l IH]; intros acc Hm; [done|]. cbn [foldl fst snd]. rewrite fmap_cons, filter_cons.
  cbn [snd]. rewrite Hm by (rewrite fmap_cons; by left).
  assert (∀ e, e ∈ l.*2 → bool_decide (provisionalAutolockSessionUuid e = Some s) ||
    shas (id (call e)) (default [] (jget s (sessionUuidExecutions t))) ||
    shas (id (call e)) (default [] (jget s (autolockSessionExecutions t))) = ofSession s e) as Hl.
  { intros e' Hin. apply Hm. rewrite fmap_cons. by right. }
  destruct (ofSession s e && negb (excludeReads && isReadExecution e)) eqn:Hc.
  - rewrite decide_True by done. rewrite fmap_cons. cbn [foldl]. by apply IH.
  - rewrite decide_False by done. by apply IH.
Qed.
Lemma latestOf_snoc l d : latestOf (l ++ [d]) = Some (match latestOf l with None => d | Some m => laterDeadline m d end).
Proof. unfold latestOf. by rewrite foldl_app. Qed.
Lemma latestOf_none l : latestOf l = None ↔ l = [].
Proof. destruct l as [|d l] using rev_ind; [done|]. rewrite latestOf_snoc. split; [done|by intros [_ ?]%app_nil]. Qed.
Lemma latestOf_infinite l : latestOf l = Some None ↔ None ∈ l.
Proof.
  induction l as [|d l IH] using rev_ind; [split; [done|by intros ?%elem_of_nil]|].
  rewrite latestOf_snoc, elem_of_app, list_elem_of_singleton. destruct (latestOf l) as [[m|]|] eqn:E, d as [d|]; cbn;
    pose proof (proj1 IH) as I1; pose proof (proj2 IH) as I2; intuition congruence.
Qed.
Lemma latestOf_finite l m :
  latestOf l = Some (Some m) ↔ Some m ∈ l ∧ ∀ d, d ∈ l → ∃ x, d = Some x ∧ x ≤ m.
Proof.
  revert m. induction l as [|d l IH] using rev_ind; intros m; [split; [done|by intros [?%elem_of_nil _]]|].
  rewrite latestOf_snoc. setoid_rewrite elem_of_app. setoid_rewrite list_elem_of_singleton.
  destruct (latestOf l) as [[k|]|] eqn:E.
  - destruct (proj1 (IH k) eq_refl) as [Hk Hmax]. destruct d as [d|]; cbn [laterDeadline].
    + split.
      * intros [= <-]. split; [destruct (Z.max_spec k d) as [[_ ->]|[_ ->]]; auto|].
        intros x [Hx| ->]; [apply Hmax in Hx as (y & -> & Hy)|]; eexists; (split; [done|lia]).
      * intros [Hin Hm]. destruct (Hm (Some k) (or_introl Hk)) as (? & [= <-] & ?), (Hm (Some d) (or_intror eq_refl)) as (? & [= <-] & ?).
        f_equal. f_equal. destruct Hin as [Hin|[= ->]]; [apply Hmax in Hin as (? & [= <-] & ?)|]; lia.
    + split; [done|]. intros [_ Hm]. by destruct (Hm None (or_intror eq_refl)) as (? & ? & _).
  - split; [done|]. intros [_ Hm]. apply latestOf_infinite in E. by destruct (Hm None (or_introl E)) as (? & ? & _).
  - apply latestOf_none in E as ->. split.
    + intros [= ->]. split; [by right|]. intros x [?%elem_of_nil| ->]; [done|]. eexists. by split.
    + intros [[?%elem_of_nil| ->] _]; done.
Qed.
