(* ===== verification/ExecutionWaits.v ===== *)
(** * The waits of the execution tracker

    A wait that still listens still has a call to wait for: every change that could
    end what a wait waits for tells the listeners.  This holds for the waits whose
    query reads nothing that changes silently, as a clock or the marks of a read. *)
From S2P Require Import Prelude JsString JsMap ExecutionTracker ExecutionIndexes ExecutionQueries.
From stdpp Require Import list sets.
Local Open Scope Z_scope.

(** ** Stable waits *)

Definition stableQuery (query : option ActiveExecutionQuery) : bool :=
  match query with
  | None => true
  | Some q => negb (q_excludeReads q) && bool_decide (q_liveOnSessionClock q = None)
  end.
Definition stableTarget (target : WaitTarget) : bool :=
  match target with
  | OnTool _ | OnSession _ => true
  | OnDevice _ query =>
      stableQuery query && match query_onlySessionUuid query with Some s => truthy s | None => true end
  | OnDeviceSession s query =>
      truthy s && stableQuery query && match query_onlySessionUuid query with Some s' => bool_decide (s' = s) | None => true end
  end.

(** What a call must be for a wait to wait for it. *)
Definition counts (readers : nat → option Z) (target : WaitTarget) (e : ActiveExecution) : bool :=
  match target with
  | OnTool n => bool_decide (toolOf e = n)
  | OnSession s => shas s (sessionKeys e)
  | OnDevice d query =>
      shas d (deviceKeys e) && asked readers query e && belongsToSessionFilter e (query_onlySessionUuid query)
  | OnDeviceSession s query => ofSession s e && asked readers query e
  end.

Lemma isActive_spec readers target t :
  tracker_ok t → stableTarget target = true →
  isActive readers target t = true ↔ ∃ x e, jget x (executions t) = Some e ∧ counts readers target e = true.
Proof.
  intros Ht Hs. transitivity (existsb (counts readers target) (running t) = true).
  - destruct target as [n|s|d q|s q]; cbn [isActive counts].
    + unfold hasActiveToolExecutionGlobal, running. rewrite existsb_exists, existsb_exists. setoid_rewrite <- list_elem_of_In.
      setoid_rewrite list_elem_of_fmap. naive_solver.
    + unfold hasActiveSessionExecutions. rewrite (hasActiveExecutionsForKey_spec readers t Ht sessionKeys) by apply Ht.
      cbn. rewrite !existsb_exists. setoid_rewrite andb_true_r. setoid_rewrite andb_true_r. done.
    + unfold hasActiveDeviceExecutions. by rewrite (hasActiveExecutionsForKey_spec readers t Ht deviceKeys) by apply Ht.
    + cbn in Hs. apply andb_true_iff in Hs as [[Hs _]%andb_true_iff Hq]. rewrite (hasActiveDeviceSession_spec readers t Ht); [done|].
      destruct (query_onlySessionUuid q); [|by left]. apply bool_decide_eq_true in Hq as ->. by right.
  - rewrite existsb_running. split.
    + intros (e & Hin & Hc). exists (id (call e)), e. by rewrite <- running_lookup.
    + intros (x & e & E & Hc). exists e. by apply lookup_running in E as [? _].
Qed.

(** ** Calls that keep counting *)

Definition still (e e' : ActiveExecution) : Prop :=
  ∀ readers readers' target, stableTarget target = true → counts readers target e = true → counts readers' target e' = true.
Definition grown (e e' : ActiveExecution) : Prop :=
  call e' = call e ∧ resolvedAutolockSessionUuid e' = resolvedAutolockSessionUuid e ∧
  provisionalAutolockSessionUuid e' = provisionalAutolockSessionUuid e ∧ deviceIds (devices e) ⊆ deviceIds (devices e').

Lemma asked_stable readers readers' query e e' :
  stableQuery query = true → call e' = call e → asked readers query e = asked readers' query e'.
Proof.
  intros Hs Hc. unfold asked, toolAllowed, startedBy, toolOf. rewrite Hc. f_equal. f_equal. f_equal.
  destruct query as [q|]; [|done]. cbn in Hs |- *. apply andb_true_iff in Hs as [Hr%negb_true_iff Hl%bool_decide_eq_true].
  by rewrite Hr, Hl, Hc.
Qed.
Lemma grown_still e e' : grown e e' → still e e'.
Proof.
  intros (Hc & Hr & Hp & Hd) readers readers' target Hs. destruct target as [n|s|d q|s q]; cbn in *.
  - unfold toolOf. by rewrite Hc.
  - unfold sessionKeys. by rewrite Hc.
  - apply andb_true_iff in Hs as [Hs _]. rewrite (asked_stable readers readers' q e e') by done.
    unfold belongsToSessionFilter. rewrite Hc, Hr, Hp. rewrite !andb_true_iff. unfold shas. rewrite !bool_decide_eq_true.
    intros [[Hin ?] ?]. split_and!; try done. by apply Hd.
  - apply andb_true_iff in Hs as [[_ Hs]%andb_true_iff _]. rewrite (asked_stable readers readers' q e e') by done.
    unfold ofSession, uuidKeys, autolockKeys. by rewrite Hc, Hr, Hp.
Qed.
Lemma still_refl e : still e e.
Proof. by apply grown_still. Qed.

(** Routing settles on the session the call had already resolved. *)
Lemma resolve_still e uuid :
  resolvedAutolockSessionUuid e = uuid →
  truthy_opt (provisionalAutolockSessionUuid e) && bool_decide (provisionalAutolockSessionUuid e ≠ uuid) = false →
  still e (with_autolock uuid None e).
Proof.
  intros Hr Hn readers readers' target Hs. destruct target as [n|s|d q|s q]; cbn [counts]; try done.
  - cbn in Hs. apply andb_true_iff in Hs as [Hs Hq].
    rewrite (asked_stable readers readers' q e (with_autolock uuid None e)) by done. rewrite !andb_true_iff.
    intros [[Hd Ha] Hb]. split_and!; try done. destruct (query_onlySessionUuid q) as [u|]; [|done]. cbn in *.
    rewrite !orb_true_iff, !bool_decide_eq_true in *. rewrite <- Hr in *. destruct Hb as [[Hb|Hb]|Hb]; [by left; left|by left; right|].
    rewrite Hb in Hn. cbn in Hn. rewrite Hq in Hn. cbn in Hn. apply bool_decide_eq_false in Hn. left. right.
    destruct (decide (Some u = resolvedAutolockSessionUuid e)); [done|by destruct Hn].
  - cbn in Hs. apply andb_true_iff in Hs as [[Ht Hs]%andb_true_iff _].
    rewrite (asked_stable readers readers' q e (with_autolock uuid None e)) by done. rewrite !andb_true_iff.
    intros [Hd Ha]. split; [|done]. unfold ofSession, shas, autolockKeys, uuidKeys in *. cbn [call resolvedAutolockSessionUuid
      provisionalAutolockSessionUuid with_autolock]. rewrite !orb_true_iff, !bool_decide_eq_true in *. rewrite <- Hr in *.
    destruct Hd as [[Hd|Hd]|Hd]; [by left; left|by left; right|].
    rewrite Hd in Hn. cbn in Hn. rewrite Ht in Hn. cbn in Hn. apply bool_decide_eq_false in Hn. left. right.
    destruct (decide (Some s = resolvedAutolockSessionUuid e)) as [<-|]; [|by destruct Hn].
    cbn. rewrite Ht. cbn. by left.
Qed.

(** ** No wait is forgotten *)

Definition noReaders : nat → option Z := λ _, None.
Definition awaited (target : WaitTarget) (t : ExecutionTracker) : Prop :=
  ∃ x e, jget x (executions t) = Some e ∧ counts noReaders target e = true.
Definition awake (t : ExecutionTracker) : Prop :=
  ∀ w, w ∈ executionEndListeners t → stableTarget (wait_on w) = true → awaited (wait_on w) t.

Lemma awaited_active readers target t :
  tracker_ok t → stableTarget target = true → isActive readers target t = true ↔ awaited target t.
Proof.
  intros Ht Hs. rewrite isActive_spec by done. unfold awaited.
  split; intros (x & e & E & Hc); exists x, e; (split; [done|]); by eapply (still_refl e).
Qed.

(** The listeners and the calls they wait for are kept. *)
Definition keeps (t t' : ExecutionTracker) : Prop :=
  executionEndListeners t' = executionEndListeners t ∧
  ∀ x e, jget x (executions t) = Some e → ∃ e', jget x (executions t') = Some e' ∧ still e e'.
Lemma waits_kept_refl t : keeps t t.
Proof. split; [done|]. intros x e E. exists e. split; [done|apply still_refl]. Qed.
Lemma keeps_same t t' :
  executionEndListeners t' = executionEndListeners t → executions t' = executions t → keeps t t'.
Proof. intros H1 H2. split; [done|]. rewrite H2. by apply waits_kept_refl. Qed.
Lemma waits_kept_trans t1 t2 t3 : keeps t1 t2 → keeps t2 t3 → keeps t1 t3.
Proof.
  intros [L1 K1] [L2 K2]. split; [congruence|]. intros x e E. apply K1 in E as (e1 & E1 & S1).
  apply K2 in E1 as (e2 & E2 & S2). exists e2. split; [done|]. intros r r' tg Hs Hc.
  apply (S2 r r' tg Hs). by apply (S1 r r tg Hs).
Qed.
Lemma keeps_awake t t' : keeps t t' → awake t → awake t'.
Proof.
  intros [HL HK] H w Hw Hs. rewrite HL in Hw. destruct (H w Hw Hs) as (x & e & E & Hc).
  destruct (HK x e E) as (e' & E' & Hst). exists x, e'. split; [done|]. by apply (Hst noReaders).
Qed.
Lemma waits_kept_set x e e' t :
  jget x (executions t) = Some e → still e e' → keeps t (with_executions (jset x e') t).
Proof.
  intros E Hs. split; [done|]. intros y e0 E0. cbn. rewrite jget_set. case_decide as Hy.
  - subst y. rewrite E in E0. injection E0 as <-. by exists e'.
  - exists e0. split; [done|apply still_refl].
Qed.
Lemma keeps_on x f t : (∀ e, still e (f e)) → keeps t (onExecution x f t).
Proof.
  intros Hf. unfold onExecution. destruct (jget x (executions t)) eqn:E; [|apply waits_kept_refl]. by eapply waits_kept_set.
Qed.

Lemma notify_ok_inv readers t : tracker_ok (notifyExecutionEnd readers t) → tracker_ok t.
Proof. intros H. apply (frame_ok (notifyExecutionEnd readers t)); try done. apply (ok_fences _ H). Qed.
Lemma notify_awake readers t : tracker_ok t → awake (notifyExecutionEnd readers t).
Proof.
  intros Ht w Hw Hs. cbn in Hw. apply list_elem_of_filter in Hw as [Ha _]. cbn.
  destruct (proj1 (awaited_active readers (wait_on w) t Ht Hs) Ha) as (x & e & E & Hc). by exists x, e.
Qed.

Lemma cancelStep_keeps reason options n t x : keeps t (cancelStep reason options (n, t) x).2.
Proof.
  unfold cancelStep. destruct (jget x (executions t)) as [e|] eqn:E; [|apply waits_kept_refl].
  destruct (isCancelled options e); [|apply waits_kept_refl]. cbn [snd]. apply (waits_kept_set x e); [done|by apply grown_still].
Qed.
Lemma cancel_keeps ids reason options t : keeps t (cancelExecutionIds ids reason options t).2.
Proof.
  unfold cancelExecutionIds. generalize 0%nat. revert t. induction ids as [|x ids IH]; intros t n; [apply waits_kept_refl|].
  cbn [foldl]. pose proof (cancelStep_keeps reason options n t x) as H.
  destruct (cancelStep reason options (n, t) x) as [n1 t1]. by eapply waits_kept_trans.
Qed.
Lemma sessionless_keeps isAborted d excluded t : keeps t (cancelSessionlessDeviceUse isAborted d excluded t).2.
Proof.
  unfold cancelSessionlessDeviceUse. generalize 0%nat. generalize (jkeys (executions t)) as ids. intros ids. revert t.
  induction ids as [|x ids IH]; intros t n; [apply waits_kept_refl|]. cbn [foldl].
  assert (keeps t (sessionlessStep isAborted d excluded (n, t) x).2) as H.
  { unfold sessionlessStep. destruct (jget x (executions t)) as [e|] eqn:E; [|apply waits_kept_refl].
    destruct (_ || _); [apply waits_kept_refl|]. destruct (shas d _); cbn [snd];
      [apply (waits_kept_set x e); [done|by apply grown_still]|].
    destruct (cancelReadReadiness _ _ _ _); [apply waits_kept_refl|by apply keeps_same]. }
  destruct (sessionlessStep isAborted d excluded (n, t) x) as [n1 t1]. by eapply waits_kept_trans.
Qed.
Lemma revoke_keeps d reason options t : keeps t (revokeSessionDeviceBindings d reason options t).
Proof.
  split; [done|]. intros x e E.
  set (f := λ e, if isRevoked d options e then with_devices (revokeBinding d (revocationOf reason)) e else e).
  exists (f e). split; [change (jget x ((λ e, (e.1, f e.2)) <$> executions t) = Some (f e)); by rewrite jget_fmap, E|].
  apply grown_still. unfold f. by destruct (isRevoked d options e).
Qed.

Lemma end_awake readers now x t : tracker_ok t → awake t → awake (endExecution readers now x t).
Proof.
  intros Ht Ha. pose proof (end_ok readers now x t Ht) as Hok. unfold endExecution in *.
  destruct (jget x (executions t)) as [e|]; [|done]. apply notify_awake. by eapply notify_ok_inv.
Qed.
Lemma resolved_awake readers x uuid t : tracker_ok t → awake t → awake (setResolvedAutolockSessionUuid readers x uuid t).
Proof.
  intros Ht Ha. pose proof (resolved_ok readers x uuid t Ht) as Hok. unfold setResolvedAutolockSessionUuid in *.
  destruct (jget x (executions t)) as [e|] eqn:E; [|done]. case_bool_decide as Hr.
  - destruct (_ && _) eqn:Hn; [apply notify_awake; by eapply notify_ok_inv|].
    eapply keeps_awake; [|done]. apply (waits_kept_set x e); [done|]. by apply resolve_still.
  - apply notify_awake. by eapply notify_ok_inv.
Qed.

Lemma bind_keeps x d skip now t : keeps t (bindDeviceExecution x d skip now t).2.
Proof.
  unfold bindDeviceExecution. destruct (jget x (executions t)) as [e|] eqn:E; [|apply waits_kept_refl].
  destruct (jget d (revokedDeviceBindings (devices e))); [destruct skip; apply waits_kept_refl|]. cbn [snd].
  set (e' := with_devices _ e). apply (waits_kept_trans _ (with_executions (jset x e') t)); [|by apply keeps_same].
  apply (waits_kept_set x e); [done|]. apply grown_still. split_and!; try done. cbn. intros y Hy. apply elem_of_sadd. by right.
Qed.
Lemma start_keeps x now offset resolver tool s u tr un t :
  jget x (executions t) = None → keeps t (startExecution x now offset resolver tool s u tr un t).2.
Proof.
  intros Hx. unfold startExecution. destruct (_ || _); [apply waits_kept_refl|]. cbn [snd].
  eapply (waits_kept_trans _ (with_executions (jset x _) t)); [|apply keeps_same; by case_bool_decide].
  split; [done|]. intros y e E. cbn. rewrite jget_set. case_decide; [congruence|]. exists e. split; [done|apply still_refl].
Qed.
Lemma deadline_keeps x reader offset sub t : keeps t (setExecutionDeadline x reader offset sub t).
Proof.
  unfold setExecutionDeadline. destruct (jget x (executions t)) as [e|] eqn:E; [|apply waits_kept_refl].
  set (e' := with_deadline _ e). apply (waits_kept_trans _ (with_executions (jset x e') t)).
  - apply (waits_kept_set x e); [done|by apply grown_still].
  - apply keeps_same; unfold unsubscribe; by destruct (unsubscribeDeadlineExtensions (deadline e)).
Qed.

(** The operations that do not end or start a wait. *)
Definition aboutWaits (op : TrackerOp) : bool :=
  match op with End_ _ _ | Resolve _ _ | AwaitEnd _ _ | WaitTimeout _ => true | _ => false end.
Lemma apply_op_keeps readers op t : fresh_op op t → aboutWaits op = false → keeps t (apply_op readers op t).
Proof.
  intros Hfresh Hop. destruct op; try done; cbn [apply_op fresh_op] in *;
    try apply cancel_keeps; try (apply keeps_on; intros e; by apply grown_still); try by apply keeps_same.
  - by apply start_keeps.
  - apply bind_keeps.
  - unfold prepareForDaemonRestart, prepareForDaemonRestartAdmission. repeat case_match; by apply keeps_same.
  - unfold prepareForAdmittedDaemonRestart, prepareForDaemonRestartAdmission. repeat case_match; by apply keeps_same.
  - unfold prepareForDaemonMaintenance. repeat case_match; by apply keeps_same.
  - apply deadline_keeps.
  - apply keeps_on. intros e. apply grown_still. by case_bool_decide.
  - apply keeps_on. intros e. apply grown_still. by destruct (_ && _).
  - apply keeps_on. intros e. apply grown_still. split_and!; try done. cbn. by destruct (sdel _ _).
  - unfold cancelDeviceExecutions.
    destruct (onlySessionUuid options); [eapply waits_kept_trans; [apply revoke_keeps|apply cancel_keeps]|apply cancel_keeps].
  - apply sessionless_keeps.
Qed.
Lemma apply_op_awake readers op t : fresh_op op t → tracker_ok t → awake t → awake (apply_op readers op t).
Proof.
  intros Hfresh Ht Ha. destruct (aboutWaits op) eqn:Hop; [|by apply (keeps_awake t); [apply apply_op_keeps|]].
  destruct op; try done; cbn [apply_op].
  - by apply end_awake.
  - by apply resolved_awake.
  - unfold startWait. destruct (isActive readers target t) eqn:Hact; [|by apply (keeps_awake t); [apply keeps_same|]].
    intros w Hw Hs. cbn in Hw. apply elem_of_app in Hw as [Hw| ->%list_elem_of_singleton]; [by apply Ha|].
    exact (proj1 (awaited_active readers target t Ht Hs) Hact).
  - unfold waitTimeout. case_bool_decide; [|done]. intros w Hw Hs. cbn in Hw. apply list_elem_of_filter in Hw as [_ Hw].
    by apply Ha.
Qed.
Lemma lives_awake t : lives t → awake t.
Proof.
  induction 1 as [|readers op t Ht IH Hf]; [by intros w ?%elem_of_nil|]. apply apply_op_awake; [done| |done]. by apply lives_ok.
Qed.

(** A wait leaves the listeners drained, or at its timeout. *)
Definition listens (readers : nat → option Z) (w : Wait) (t : ExecutionTracker) : Prop :=
  w ∈ executionEndListeners t ∨
  isActive readers (wait_on w) t = false ∧ WaitSettled (wait_id w) true ∈ events t.
Lemma listens_keeps readers w t t' : keeps t t' → w ∈ executionEndListeners t → listens readers w t'.
Proof. intros [HL _] Hw. left. by rewrite HL. Qed.
Lemma notify_listens readers w t : w ∈ executionEndListeners t → listens readers w (notifyExecutionEnd readers t).
Proof.
  intros Hw. unfold listens. cbn. destruct (isActive readers (wait_on w) t) eqn:Ha.
  - left. by apply list_elem_of_filter.
  - right. split; [done|]. apply elem_of_app. right. apply list_elem_of_fmap. exists w. split; [done|].
    by apply list_elem_of_filter.
Qed.
Lemma end_listens readers now x w t : w ∈ executionEndListeners t → listens readers w (endExecution readers now x t).
Proof.
  intros Hw. unfold endExecution. destruct (jget x (executions t)) as [e|]; [|by left]. apply notify_listens.
  unfold notifySessionExecutionEnded. rewrite unregister_eq. unfold unsubscribe.
  destruct (newSet _), (bool_decide _), (unsubscribeDeadlineExtensions (deadline e)); exact Hw.
Qed.
Lemma resolved_listens readers x uuid w t :
  w ∈ executionEndListeners t → listens readers w (setResolvedAutolockSessionUuid readers x uuid t).
Proof.
  intros Hw. unfold setResolvedAutolockSessionUuid. destruct (jget x (executions t)) as [e|]; [|by left].
  case_bool_decide; [destruct (_ && _); [|by left]|]; by apply notify_listens.
Qed.
Lemma apply_op_listens readers op w t :
  fresh_op op t → w ∈ executionEndListeners t → op ≠ WaitTimeout (wait_id w) → listens readers w (apply_op readers op t).
Proof.
  intros Hf Hw Hop. destruct (aboutWaits op) eqn:Ha; [|by apply (listens_keeps readers w t); [apply apply_op_keeps|]].
  destruct op; try done; cbn [apply_op].
  - by apply end_listens.
  - by apply resolved_listens.
  - unfold startWait. destruct (isActive readers target t); left; [|done]. cbn. apply elem_of_app. by left.
  - unfold waitTimeout. case_bool_decide; [|by left]. left. cbn. apply list_elem_of_filter. split; [congruence|done].
Qed.
