(* ===== verification/ExecutionChanges.v ===== *)
(** * What happens to a running call

    Between its start and its end a call of the execution tracker changes only in a
    few ways: it is bound, revoked, marked, resolved or aborted.  Sequences of
    operations, and what they cannot undo. *)
From S2P Require Import Prelude JsString JsMap ExecutionTracker ExecutionIndexes.
From stdpp Require Import list sets.
Local Open Scope Z_scope.

(** ** Changes of a call *)

(** A device controlled or read into readiness is a device used. *)
Definition coherent (d : ExecutionDevices) : Prop :=
  sessionlessControlUse d ⊆ sessionlessDeviceUse d ∧ jkeys (sessionlessReadReadiness d) ⊆ sessionlessDeviceUse d.
Lemma coherent_new : coherent (mkDevices [] [] [] [] []).
Proof. done. Qed.

Definition bound (deviceId : string) (d : ExecutionDevices) : ExecutionDevices :=
  mkDevices (sadd deviceId (deviceIds d)) (revokedDeviceBindings d) (sessionlessDeviceUse d) (sessionlessControlUse d)
    (sessionlessReadReadiness d).

Inductive change : ActiveExecution → ActiveExecution → Prop :=
| change_none e : change e e
| change_then e1 e2 e3 : change e1 e2 → change e2 e3 → change e1 e3
| change_autolock r p e : change e (with_autolock r p e)
| change_deadline d e : change e (with_deadline d e)
| change_flags f e : change e (with_flags f e)
| change_abort reason e : change e (with_abort (abortExecution reason) e)
| change_bind d e : jget d (revokedDeviceBindings (devices e)) = None → change e (with_devices (bound d) e)
| change_revoke d r e : change e (with_devices (revokeBinding d r) e)
| change_use f e :
    (∀ d, deviceIds (f d) = deviceIds d) → (∀ d, revokedDeviceBindings (f d) = revokedDeviceBindings d) →
    (∀ d, coherent d → coherent (f d)) → change e (with_devices f e).
#[local] Hint Constructors change : automobile.

Lemma change_call e e' : change e e' → call e' = call e.
Proof. induction 1; try done. congruence. Qed.
Lemma change_coherent e e' : change e e' → coherent (devices e) → coherent (devices e').
Proof. induction 1; intros Hc; eauto; cbn; auto. Qed.
Lemma change_aborted e e' : change e e' → aborted e = true → aborted e' = true.
Proof.
  induction 1; intros Ha; try done; eauto. unfold aborted in *. cbn. unfold abortExecution, abortSignal.
  destruct (isDeviceLossCancellationReason reason), reason, (signal (abort e)); done.
Qed.

(** A revocation is never withdrawn, and a revoked device is not bound. *)
Definition revokedOn (d : string) (e : ActiveExecution) : Prop := is_Some (jget d (revokedDeviceBindings (devices e))).
Lemma change_revoked d e e' :
  change e e' → revokedOn d e → revokedOn d e' ∧ (d ∈ deviceIds (devices e') → d ∈ deviceIds (devices e)).
Proof.
  unfold revokedOn. induction 1 as [|e1 e2 e3 _ IH1 _ IH2| | | | |d' e Hn|d' r e|f e Hd Hr _]; intros H; try done.
  - destruct (IH1 H) as [H1 I1]. destruct (IH2 H1) as [H2 I2]. auto.
  - cbn. split; [done|]. rewrite elem_of_sadd. intros [->|]; [|done]. rewrite Hn in H. by destruct H.
  - cbn. split; [|done]. rewrite jget_set. by case_decide.
  - cbn. by rewrite Hd, Hr.
Qed.

(** ** Changes by operations *)

(** Every call that ran still runs, changed; no call appears. *)
Definition evolves (t t' : ExecutionTracker) : Prop :=
  ∀ x e, jget x (executions t) = Some e → ∃ e', jget x (executions t') = Some e' ∧ change e e'.
Definition changes (t t' : ExecutionTracker) : Prop :=
  evolves t t' ∧ ∀ x, jget x (executions t) = None → jget x (executions t') = None.
Lemma changes_same t t' : executions t' = executions t → changes t t'.
Proof. intros He. split; [intros x e E|intros x E]; rewrite He; eauto with automobile. Qed.
Lemma changes_trans t1 t2 t3 : changes t1 t2 → changes t2 t3 → changes t1 t3.
Proof.
  intros [H1 N1] [H2 N2]. split; [|auto]. intros x e E. apply H1 in E as (e1 & E1 & C1). apply H2 in E1 as (e2 & E2 & C2).
  eauto with automobile.
Qed.
Lemma changes_set x e e' t : jget x (executions t) = Some e → change e e' → changes t (with_executions (jset x e') t).
Proof.
  intros E Hc. split; intros y; [intros e0 E0|intros E0]; cbn; rewrite jget_set; case_decide as Hy; try congruence;
    [subst y|eauto with automobile]. rewrite E in E0. injection E0 as <-. eauto.
Qed.
Lemma changes_on x f t : (∀ e, change e (f e)) → changes t (onExecution x f t).
Proof. intros Hf. unfold onExecution. destruct (jget x (executions t)) eqn:E; [by eapply changes_set|by apply changes_same]. Qed.

(** Changes that leave the fences; a fold of such steps. *)
Definition fences (t : ExecutionTracker) : bool * bool := (daemonRestartPrepared t, daemonMaintenancePrepared t).
Definition changesOnly (t t' : ExecutionTracker) : Prop := changes t t' ∧ fences t' = fences t.
Lemma changesOnly_same t t' : executions t' = executions t → fences t' = fences t → changesOnly t t'.
Proof. split; [by apply changes_same|done]. Qed.
Lemma changesOnly_trans t1 t2 t3 : changesOnly t1 t2 → changesOnly t2 t3 → changesOnly t1 t3.
Proof. intros [H1 F1] [H2 F2]. split; [by eapply changes_trans|congruence]. Qed.
Lemma changesOnly_on x f t : (∀ e, change e (f e)) → changesOnly t (onExecution x f t).
Proof.
  intros Hf. split; [by apply changes_on|]. unfold onExecution. by destruct (jget x (executions t)).
Qed.
Lemma changesOnly_fold {A} (step : A * ExecutionTracker → string → A * ExecutionTracker) ids a t :
  (∀ a t x, changesOnly t (step (a, t) x).2) → changesOnly t (foldl step (a, t) ids).2.
Proof.
  intros Hs. revert a t. induction ids as [|x ids IH]; intros a t; [by apply changesOnly_same|]. cbn [foldl].
  pose proof (Hs a t x) as H. destruct (step (a, t) x) as [a1 t1]. by eapply changesOnly_trans.
Qed.

Lemma cancelStep_changes reason options n t x : changesOnly t (cancelStep reason options (n, t) x).2.
Proof.
  unfold cancelStep. destruct (jget x (executions t)) as [e|] eqn:E; [|by apply changesOnly_same].
  destruct (isCancelled options e); [|by apply changesOnly_same]. split; [|done]. apply (changes_set x e); auto with automobile.
Qed.
Lemma cancel_changes ids reason options t : changesOnly t (cancelExecutionIds ids reason options t).2.
Proof. apply changesOnly_fold. intros. apply cancelStep_changes. Qed.
Lemma sessionlessStep_changes isAborted d excluded n t x : changesOnly t (sessionlessStep isAborted d excluded (n, t) x).2.
Proof.
  unfold sessionlessStep. destruct (jget x (executions t)) as [e|] eqn:E; [|by apply changesOnly_same].
  destruct (_ || _); [by apply changesOnly_same|]. destruct (shas d _).
  - split; [|done]. apply (changes_set x e); auto with automobile.
  - destruct (cancelReadReadiness _ _ _ _); by apply changesOnly_same.
Qed.
Lemma sessionless_changes isAborted d excluded t : changesOnly t (cancelSessionlessDeviceUse isAborted d excluded t).2.
Proof. apply changesOnly_fold. intros. apply sessionlessStep_changes. Qed.
Lemma revoke_changes d reason options t : changesOnly t (revokeSessionDeviceBindings d reason options t).
Proof.
  split; [|done]. set (f := λ e, if isRevoked d options e then with_devices (revokeBinding d (revocationOf reason)) e else e).
  change (changes t (with_executions (fmap (λ e, (e.1, f e.2))) t)). split; intros x; cbn; rewrite jget_fmap.
  - intros e ->. exists (f e). split; [done|]. unfold f. destruct (isRevoked d options e); auto with automobile.
  - by intros ->.
Qed.
Lemma cancelDevice_changes d reason options t : changesOnly t (cancelDeviceExecutions d reason options t).2.
Proof.
  unfold cancelDeviceExecutions.
  destruct (onlySessionUuid options); [eapply changesOnly_trans; [apply revoke_changes|]|]; apply cancel_changes.
Qed.
Lemma bind_changes x d skip now t : changesOnly t (bindDeviceExecution x d skip now t).2.
Proof.
  unfold bindDeviceExecution. destruct (jget x (executions t)) as [e|] eqn:E; [|by apply changesOnly_same].
  destruct (jget d (revokedDeviceBindings (devices e))) eqn:Er; [destruct skip; by apply changesOnly_same|]. cbn [snd].
  split; [|done]. apply (changes_trans _ (with_executions (jset x (with_devices (bound d) e)) t)); [|by apply changes_same].
  apply (changes_set x e); auto with automobile.
Qed.
Lemma deadline_changes x reader offset sub t : changesOnly t (setExecutionDeadline x reader offset sub t).
Proof.
  unfold setExecutionDeadline. destruct (jget x (executions t)) as [e|] eqn:E; [|by apply changesOnly_same].
  set (e' := with_deadline _ e). apply (changesOnly_trans _ (with_executions (jset x e') t)).
  - split; [|done]. apply (changes_set x e); [done|]. constructor.
  - apply changesOnly_same; unfold unsubscribe; by destruct (unsubscribeDeadlineExtensions (deadline e)).
Qed.
Lemma resolved_changes readers x uuid t : changesOnly t (setResolvedAutolockSessionUuid readers x uuid t).
Proof.
  unfold setResolvedAutolockSessionUuid. destruct (jget x (executions t)) as [e|] eqn:E; [|by apply changesOnly_same].
  apply (changesOnly_trans _ (with_executions (jset x (with_autolock uuid None e)) t)).
  - split; [|done]. apply (changes_set x e); [done|]. constructor.
  - case_bool_decide; [destruct (_ && _)|]; by apply changesOnly_same.
Qed.

(** The start and the end of a call. *)
Lemma start_lookup x now offset resolver tool s u tr un t y e :
  jget y (executions (startExecution x now offset resolver tool s u tr un t).2) = Some e →
  jget y (executions t) = Some e ∨ (y = x ∧ devices e = mkDevices [] [] [] [] []).
Proof.
  unfold startExecution. destruct (_ || _); [by left|]. cbn [snd].
  match goal with |- context [with_uuids ?f (if ?b then ?t1 else ?t2)] =>
    replace (executions (with_uuids f (if b then t1 else t2))) with (executions t1) by (by destruct b) end.
  cbn. rewrite jget_set. case_decide; [intros [= <-]; by right|by left].
Qed.
Lemma start_evolves x now offset resolver tool s u tr un t :
  jget x (executions t) = None → evolves t (startExecution x now offset resolver tool s u tr un t).2.
Proof.
  intros Hx y e E. exists e. split; [|auto with automobile]. unfold startExecution. destruct (_ || _); [done|]. cbn [snd].
  match goal with |- context [with_uuids ?f (if ?b then ?t1 else ?t2)] =>
    replace (executions (with_uuids f (if b then t1 else t2))) with (executions t1) by (by destruct b) end.
  cbn. rewrite jget_set. case_decide; congruence.
Qed.
Lemma end_lookup readers now x t y :
  jget y (executions (endExecution readers now x t)) = if decide (x = y) then None else jget y (executions t).
Proof.
  unfold endExecution. destruct (jget x (executions t)) as [e|] eqn:E; [|case_decide; congruence].
  cbn [notifyExecutionEnd executions tell with_waits]. unfold notifySessionExecutionEnded. rewrite unregister_eq.
  transitivity (jget y (jdel x (executions t))); [|by rewrite jget_del]. f_equal.
  unfold unsubscribe. destruct (newSet _), (bool_decide _), (unsubscribeDeadlineExtensions (deadline e)); done.
Qed.
Lemma end_fences readers now x t : fences (endExecution readers now x t) = fences t.
Proof.
  unfold endExecution. destruct (jget x (executions t)) as [e|] eqn:E; [|done].
  unfold notifySessionExecutionEnded. rewrite unregister_eq. unfold unsubscribe.
  destruct (newSet _), (bool_decide _), (unsubscribeDeadlineExtensions (deadline e)); done.
Qed.

(** The fences: who raises and lowers them. *)
Lemma fences_changes restart maintenance t : changes t (with_fences restart maintenance t).
Proof. by apply changes_same. Qed.
Lemma prepareRestart_changes admitted provisioning t : changes t (prepareForDaemonRestartAdmission admitted provisioning t).2.
Proof. unfold prepareForDaemonRestartAdmission. repeat case_match; by apply changes_same. Qed.

Definition isStart (op : TrackerOp) : bool := match op with Start _ _ _ _ _ _ _ _ _ => true | _ => false end.
Definition isFence (op : TrackerOp) : bool :=
  match op with PrepareRestart _ | PrepareAdmittedRestart _ | ClearRestart | PrepareMaintenance _ | ClearMaintenance => true | _ => false end.
Definition endsCall (x : string) (op : TrackerOp) : bool := match op with End_ _ y => bool_decide (y = x) | _ => false end.

(** Marks keep the sessionless use coherent. *)
Ltac mark_use :=
  apply changesOnly_on; intros e; apply change_use; [done|done|];
  intros d [Hc Hr]; unfold coherent, jkeys in *; cbn in *.
Lemma marks_changes op readers t :
  match op with
  | MarkSessionless _ _ | UnmarkSessionless _ _ | MarkReadiness _ _ _ | UnmarkReadiness _ _ _ => True
  | _ => False
  end → changesOnly t (apply_op readers op t).
Proof.
  destruct op; try done; intros _; cbn [apply_op].
  - mark_use. split; intros y; rewrite ?elem_of_sadd; [intros [->|Hy]; [by left|right; by apply Hc]|intros Hy; right; by apply Hr].
  - mark_use. destruct (jhas deviceId (sessionlessReadReadiness d)) eqn:Hh.
    + split; [|done]. intros y [_ Hy]%elem_of_sdel. by apply Hc.
    + apply jhas_false in Hh. split; intros y; rewrite !elem_of_sdel; [intros [? Hy]; split; [done|by apply Hc]|].
      intros Hy. split; [by intros ->|by apply Hr].
  - mark_use. split; intros y; rewrite ?elem_of_sadd; [intros Hy; right; by apply Hc|].
    change (y ∈ jkeys (jset deviceId (sadd controller (default [] (jget deviceId (sessionlessReadReadiness d))))
      (sessionlessReadReadiness d)) → y = deviceId ∨ y ∈ sessionlessDeviceUse d).
    rewrite jkeys_set. destruct (jhas _ _); [intros Hy; right; by apply Hr|].
    rewrite elem_of_app, list_elem_of_singleton. intros [Hy|Hy]; [right; by apply Hr|by left].
  - apply changesOnly_on; intros e. apply change_use; [intros d; by destruct (sdel _ _)..|].
    intros d [Hc Hr]. destruct (sdel controller _) as [|c l] eqn:Es; unfold coherent; cbn [sessionlessDeviceUse
      sessionlessControlUse sessionlessReadReadiness].
    + assert (∀ y, y ∈ jkeys (jdel deviceId (sessionlessReadReadiness d)) → y ≠ deviceId ∧ y ∈ sessionlessDeviceUse d) as Hk.
      { intros y. rewrite jkeys_del, elem_of_sdel. intros [? Hy]. split; [done|by apply Hr]. }
      destruct (shas _ _) eqn:Eh; [by split; [|intros y Hy; apply Hk in Hy as [_ ?]]|].
      apply bool_decide_eq_false in Eh. split; intros y Hy; apply elem_of_sdel; [|by apply Hk].
      split; [congruence|by apply Hc].
    + split; [done|]. intros y. rewrite jkeys_set. destruct (jhas _ _) eqn:Eh; [apply Hr|].
      exfalso. rewrite jhas_get in Eh. apply bool_decide_eq_false in Eh.
      destruct (jget deviceId (sessionlessReadReadiness d)); [by apply Eh|done].
Qed.

Lemma other_changes readers op t :
  isStart op = false → isFence op = false → (∀ x, endsCall x op = false) → changesOnly t (apply_op readers op t).
Proof.
  intros Hs Hf He. destruct op; try done; cbn [apply_op];
    try (apply changesOnly_on; auto with automobile; fail); try apply cancel_changes.
  - specialize (He executionId). cbn in He. by rewrite bool_decide_eq_true_2 in He.
  - apply resolved_changes.
  - apply bind_changes.
  - apply deadline_changes.
  - apply changesOnly_on. intros e. case_bool_decide; auto with automobile.
  - apply changesOnly_on. intros e. destruct (_ && _); auto with automobile.
  - by apply (marks_changes (MarkSessionless _ _) readers).
  - by apply (marks_changes (UnmarkSessionless _ _) readers).
  - by apply (marks_changes (MarkReadiness _ _ _) readers).
  - by apply (marks_changes (UnmarkReadiness _ _ _) readers).
  - apply cancelDevice_changes.
  - apply sessionless_changes.
  - unfold startWait. destruct (isActive _ _ _); by apply changesOnly_same.
  - unfold waitTimeout. case_bool_decide; by apply changesOnly_same.
Qed.
Lemma other_none readers op t x :
  isStart op = false → isFence op = false → (∀ x, endsCall x op = false) → jget x (executions t) = None →
  jget x (executions (apply_op readers op t)) = None.
Proof. intros H1 H2 H3. by apply (other_changes readers op t H1 H2 H3). Qed.
Lemma fence_changes readers op t : isFence op = true → changes t (apply_op readers op t).
Proof.
  intros Hf. destruct op; try done; cbn [apply_op].
  - apply prepareRestart_changes.
  - unfold prepareForAdmittedDaemonRestart. destruct (negb _); [by apply changes_same|apply prepareRestart_changes].
  - apply fences_changes.
  - unfold prepareForDaemonMaintenance. repeat case_match; by apply changes_same.
  - apply fences_changes.
Qed.

(** A call changes until it ends. *)
Lemma apply_op_evolves readers op t x e :
  fresh_op op t → endsCall x op = false → jget x (executions t) = Some e →
  ∃ e', jget x (executions (apply_op readers op t)) = Some e' ∧ change e e'.
Proof.
  intros Hf He E. destruct (isFence op) eqn:H1; [by apply (fence_changes readers op t)|].
  destruct op; try done; try (apply (other_changes readers); done).
  - by apply start_evolves.
  - cbn in *. apply bool_decide_eq_false in He. rewrite end_lookup, decide_False by done. eauto with automobile.
Qed.
(** A call that is there started so, or was there. *)
Lemma apply_op_from readers op t x e :
  fresh_op op t → jget x (executions (apply_op readers op t)) = Some e →
  devices e = mkDevices [] [] [] [] [] ∨ ∃ e0, jget x (executions t) = Some e0 ∧ change e0 e.
Proof.
  intros Hf E. destruct (jget x (executions t)) as [e0|] eqn:E0.
  - destruct (endsCall x op) eqn:He.
    + destruct op; try done. cbn in *. apply bool_decide_eq_true in He as ->. by rewrite end_lookup, decide_True in E by done.
    + right. destruct (apply_op_evolves readers op t x e0 Hf He E0) as (e' & E' & Hc). exists e0. split; [done|congruence].
  - left. destruct (isFence op) eqn:H1; [rewrite (proj2 (fence_changes readers op t H1) x E0) in E; done|].
    destruct op; try done; try (rewrite other_none in E; done).
    + cbn [apply_op] in E. apply start_lookup in E as [E|[_ E]]; [congruence|done].
    + cbn [apply_op] in E. rewrite end_lookup in E. case_decide; congruence.
Qed.

Definition all_coherent (t : ExecutionTracker) : Prop := ∀ x e, jget x (executions t) = Some e → coherent (devices e).
Lemma lives_coherent t : lives t → all_coherent t.
Proof.
  induction 1 as [|readers op t _ IH Hf]; [done|]. intros x e E.
  apply apply_op_from in E as [->|(e0 & E0 & Hc)]; [apply coherent_new| |done].
  apply (change_coherent e0); [done|by apply (IH x)].
Qed.

(** ** Sequences of operations *)

Inductive later (allowed : TrackerOp → Prop) (t : ExecutionTracker) : ExecutionTracker → Prop :=
| later_now : later allowed t t
| later_op readers op t' :
    later allowed t t' → fresh_op op t' → allowed op → later allowed t (apply_op readers op t').
Lemma later_lives allowed t t' : lives t → later allowed t t' → lives t'.
Proof. intros Ht. induction 1; [done|by constructor]. Qed.

Lemma later_change x t t' e :
  later (λ op, endsCall x op = false) t t' → jget x (executions t) = Some e →
  ∃ e', jget x (executions t') = Some e' ∧ change e e'.
Proof.
  intros H E. induction H as [|readers op t' _ (e1 & E1 & C1) Hf Ha]; [eauto with automobile|].
  destruct (apply_op_evolves readers op t' x e1 Hf Ha E1) as (e2 & E2 & C2). eauto with automobile.
Qed.

(** A fence stays up until it is cleared. *)
Lemma start_fences x now offset resolver tool s u tr un t :
  fences (startExecution x now offset resolver tool s u tr un t).2 = fences t.
Proof. unfold startExecution. destruct (_ || _) eqn:Hp; [done|]. cbn [snd]. by case_bool_decide. Qed.
Lemma apply_op_fences readers op t : isFence op = false → fences (apply_op readers op t) = fences t.
Proof.
  intros H1. destruct op; try done; try (by apply other_changes).
  - apply start_fences.
  - apply end_fences.
Qed.
Lemma restart_stays t t' :
  daemonRestartPrepared t = true → later (λ op, op ≠ ClearRestart) t t' → daemonRestartPrepared t' = true.
Proof.
  intros H. induction 1 as [|readers op t' _ IH _ Ha]; [done|]. destruct (isFence op) eqn:Hf.
  - destruct op; try done; cbn [apply_op].
    + unfold prepareForDaemonRestart, prepareForDaemonRestartAdmission. by rewrite IH.
    + unfold prepareForAdmittedDaemonRestart, prepareForDaemonRestartAdmission. rewrite IH. by destruct (negb _).
    + unfold prepareForDaemonMaintenance. rewrite IH. repeat case_match; done.
  - pose proof (apply_op_fences readers op t' Hf) as [= -> _]. done.
Qed.
Lemma maintenance_stays t t' :
  daemonMaintenancePrepared t = true → later (λ op, op ≠ ClearMaintenance) t t' → daemonMaintenancePrepared t' = true.
Proof.
  intros H. induction 1 as [|readers op t' _ IH _ Ha]; [done|]. destruct (isFence op) eqn:Hf.
  - destruct op; try done; cbn [apply_op].
    + unfold prepareForDaemonRestart, prepareForDaemonRestartAdmission. repeat case_match; done.
    + unfold prepareForAdmittedDaemonRestart, prepareForDaemonRestartAdmission. repeat case_match; done.
    + unfold prepareForDaemonMaintenance. by rewrite IH.
  - pose proof (apply_op_fences readers op t' Hf) as [= _ ->]. done.
Qed.
