(* ===== verification/ExecutionCancellation.v ===== *)
(** * Cancellation in the execution tracker

    What a cancellation of [ExecutionTracker] aborts and counts, and what it leaves
    on the calls: the revoked device bindings and the sessionless use of a device. *)
From S2P Require Import Prelude JsString JsMap ExecutionTracker ExecutionIndexes ExecutionQueries ExecutionChanges.
From stdpp Require Import list sets.
Local Open Scope Z_scope.

(** Every running call that passes a test is replaced. *)
Definition onRunning (p : ActiveExecution → bool) (f : ActiveExecution → ActiveExecution) (t : ExecutionTracker) :
    ExecutionTracker :=
  with_executions (fmap (λ entry, (entry.1, if p entry.2 then f entry.2 else entry.2))) t.
Definition countRunning (p : ActiveExecution → bool) (t : ExecutionTracker) : nat :=
  length (filter (λ e, p e = true) (running t)).

(** ** Cancelling a set of calls *)

Section Cancel.
Context (reason : ExecutionCancellationReason) (options : ExecutionCancellationOptions).
Let kill : ActiveExecution → ActiveExecution := with_abort (abortExecution reason).
Let hit (ids : list string) (e : ActiveExecution) : bool := shas (id (call e)) ids && isCancelled options e.

Lemma jset_same_fmap (x : string) e (f : ActiveExecution → ActiveExecution) m :
  jwf m → jget x m = Some e → jset x (f e) m = (λ y, (y.1, if decide (y.1 = x) then f y.2 else y.2)) <$> m.
Proof.
  intros Hw E. pose proof (jget_in_keys _ _ _ E) as Hin. unfold jset.
  rewrite (proj2 (jhas_true x m) Hin). apply list_fmap_ext. intros i [y e'] Hi. cbn.
  destruct (decide (y = x)) as [->|]; [|done]. f_equal.
  apply list_elem_of_lookup_2, (jget_wf_in _ _ _ Hw) in Hi. rewrite E in Hi. by injection Hi as ->.
Qed.

Lemma filter_cons_hit x ids e t :
  tracker_ok t → x ∉ ids → jget x (executions t) = Some e → isCancelled options e = true →
  countRunning (hit (x :: ids)) t = S (countRunning (hit ids) t).
Proof.
  intros Ht Hx E Hc. unfold countRunning.
  assert (Permutation (idsOf t (hit (x :: ids))) (x :: idsOf t (hit ids))) as HP.
  { apply NoDup_Permutation.
    - by apply idsOf_NoDup.
    - constructor; [|by apply idsOf_NoDup]. rewrite elem_of_idsOf by done. intros (e' & E' & Hh).
      unfold hit, shas in Hh. apply andb_true_iff in Hh as [Hh%bool_decide_eq_true _].
      by rewrite (ok_ids t Ht x e' E') in Hh.
    - intros y. rewrite elem_of_cons, !elem_of_idsOf by done. unfold hit, shas.
      setoid_rewrite andb_true_iff. setoid_rewrite bool_decide_eq_true. setoid_rewrite elem_of_cons. split.
      + intros (e' & E' & [Hy|Hy] & Hc'); [left; by rewrite <- Hy, (ok_ids t Ht y e' E')|right; by exists e'].
      + intros [->|(e' & E' & Hy & Hc')]; [exists e|exists e']; split_and!; try done; [|by right].
        left. by apply (ok_ids t Ht). }
  apply Permutation_length in HP. unfold idsOf in HP. cbn [length] in HP. rewrite !length_fmap in HP. exact HP.
Qed.
Lemma hit_cons_none x ids t :
  tracker_ok t → (∀ e, jget x (executions t) = Some e → isCancelled options e = false) →
  ∀ e, e ∈ running t → hit (x :: ids) e = hit ids e.
Proof.
  intros Ht Hn e Hin. unfold hit, shas. apply eq_true_iff_eq. rewrite !andb_true_iff, !bool_decide_eq_true, elem_of_cons.
  apply running_lookup in Hin; [|done]. split; [|tauto]. intros [[Hx|Hx] Hc]; [|done].
  rewrite Hx in Hin. apply Hn in Hin. congruence.
Qed.
Lemma onRunning_ext p q f t : (∀ e, e ∈ running t → p e = q e) → onRunning p f t = onRunning q f t.
Proof.
  intros H. unfold onRunning, with_executions. f_equal. apply list_fmap_ext. intros i [y e] Hi. cbn.
  rewrite (H e); [done|]. unfold running. apply list_elem_of_fmap. exists (y, e). split; [done|].
  by eapply list_elem_of_lookup_2.
Qed.
Lemma countRunning_ext p q t : (∀ e, e ∈ running t → p e = q e) → countRunning p t = countRunning q t.
Proof.
  intros H. unfold countRunning. induction (running t) as [|e l IH]; [done|]. rewrite !filter_cons.
  rewrite (H e) by (by left). case_decide; cbn; rewrite IH; try done; intros; apply H; by right.
Qed.

(** One call aborted does not change what a test by identifiers finds. *)
Lemma kill_count x e ids t :
  tracker_ok t → jget x (executions t) = Some e →
  countRunning (hit ids) (with_executions (jset x (kill e)) t) = countRunning (hit ids) t.
Proof.
  intros Ht E. unfold countRunning, running. cbn [executions with_executions]. rewrite jset_same_fmap by (done || apply Ht).
  clear. induction (executions t) as [|[y e0] l IH]; [done|]. rewrite !fmap_cons, !filter_cons. cbn [fst snd].
  assert (hit ids (if decide (y = x) then kill e0 else e0) = hit ids e0) as -> by (by case_decide).
  case_decide; cbn [length]; by rewrite IH.
Qed.
Lemma kill_rest x e ids t :
  tracker_ok t → x ∉ ids → jget x (executions t) = Some e → isCancelled options e = true →
  onRunning (hit ids) kill (with_executions (jset x (kill e)) t) = onRunning (hit (x :: ids)) kill t.
Proof.
  intros Ht Hx E Hc. unfold onRunning, with_executions. cbn -[fmap jset]. f_equal.
  rewrite jset_same_fmap by (done || apply Ht). rewrite <- list_fmap_compose.
  apply list_fmap_ext. intros i [y e0] Hi%list_elem_of_lookup_2. cbn [compose fst snd]. f_equal.
  apply (jget_wf_in _ _ _ (ok_wf t Ht)) in Hi. pose proof (ok_ids t Ht y e0 Hi) as Hid. unfold hit, shas. rewrite Hid.
  destruct (decide (y = x)) as [->|Hne].
  - rewrite E in Hi. injection Hi as <-. rewrite Hc.
    rewrite (bool_decide_eq_true_2 (x ∈ x :: ids)) by (by left). rewrite bool_decide_eq_false_2; [done|]. cbn. by rewrite Hid.
  - rewrite Hid. assert (bool_decide (y ∈ x :: ids) = bool_decide (y ∈ ids)) as ->; [|done].
    apply bool_decide_ext. rewrite elem_of_cons. naive_solver.
Qed.
Lemma cancelExecutionIds_from n ids t :
  tracker_ok t → NoDup ids →
  foldl (cancelStep reason options) (n, t) ids = ((n + countRunning (hit ids) t)%nat, onRunning (hit ids) kill t).
Proof.
  revert n t. induction ids as [|x ids IH]; intros n t Ht Hd.
  - cbn [foldl]. assert (∀ e, hit [] e = false) as Hn by done. f_equal.
    + unfold countRunning. assert (filter (λ e, hit [] e = true) (running t) = []) as ->; [|cbn; lia].
      induction (running t) as [|e l IH]; [done|]. by rewrite filter_cons.
    + destruct t. unfold onRunning, with_executions. cbn. f_equal. rewrite <- (list_fmap_id executions) at 1.
      apply list_fmap_ext. by intros i [? ?] _.
  - apply NoDup_cons in Hd as [Hx Hd]. cbn [foldl]. unfold cancelStep at 2.
    destruct (jget x (executions t)) as [e|] eqn:E; [destruct (isCancelled options e) eqn:Hc|].
    + rewrite IH; [|by apply (set_execution_ok x e)|done].
      by rewrite (filter_cons_hit x ids e), kill_count, kill_rest, Nat.add_succ_r by done.
    + rewrite IH by done. assert (∀ e0, e0 ∈ running t → hit (x :: ids) e0 = hit ids e0) as Hh.
      { apply hit_cons_none; [done|]. rewrite E. by intros ? [= <-]. }
      by rewrite (countRunning_ext _ _ _ Hh), (onRunning_ext _ _ kill _ Hh).
    + rewrite IH by done. assert (∀ e0, e0 ∈ running t → hit (x :: ids) e0 = hit ids e0) as Hh.
      { apply hit_cons_none; [done|]. by rewrite E. }
      by rewrite (countRunning_ext _ _ _ Hh), (onRunning_ext _ _ kill _ Hh).
Qed.

(** The calls of a test are those whose identifiers are given: each is counted and
    aborted once, and nothing else changes. *)
Lemma cancel_exact ids f t :
  tracker_ok t → NoDup ids → (∀ e, e ∈ running t → id (call e) ∈ ids ↔ f e = true) →
  cancelExecutionIds ids reason options t =
  (countRunning (λ e, f e && isCancelled options e) t, onRunning (λ e, f e && isCancelled options e) kill t).
Proof.
  intros Ht Hd Hf. unfold cancelExecutionIds. rewrite cancelExecutionIds_from by done.
  assert (∀ e, e ∈ running t → hit ids e = f e && isCancelled options e) as Hh.
  { intros e Hin. unfold hit, shas. f_equal. apply eq_true_iff_eq. rewrite bool_decide_eq_true. by apply Hf. }
  by rewrite (countRunning_ext _ _ _ Hh), (onRunning_ext _ _ kill _ Hh).
Qed.
Lemma cancel_index_exact keys m k t :
  tracker_ok t → indexes keys (executions t) m →
  cancelExecutionIds (default [] (jget k m)) reason options t =
  (countRunning (λ e, shas k (keys e) && isCancelled options e) t,
   onRunning (λ e, shas k (keys e) && isCancelled options e) kill t).
Proof.
  intros Ht [Hw Hi]. apply cancel_exact; [done|apply Hw|]. intros e Hin. rewrite (running_lookup t Ht) in Hin.
  specialize (Hi k (id (call e))). unfold members in Hi. rewrite Hi. unfold shas. rewrite bool_decide_eq_true.
  split; [|by exists e]. intros (e' & E & Hk). rewrite Hin in E. by injection E as <-.
Qed.
Lemma cancel_session_exact s t :
  tracker_ok t →
  cancelDeviceSessionExecutions s reason options t =
  (countRunning (λ e, ofSession s e && isCancelled options e) t,
   onRunning (λ e, ofSession s e && isCancelled options e) kill t).
Proof.
  intros Ht. change (cancelDeviceSessionExecutions s reason options t) with (cancelExecutionIds (sessionIds t s) reason options t).
  apply cancel_exact; [done|apply newSet_NoDup|]. intros e Hin. rewrite (running_lookup t Ht) in Hin.
  rewrite (sessionIds_perm t Ht s), (elem_of_idsOf t Ht). split; [|by exists e].
  intros (e' & E & Hk). rewrite Hin in E. by injection E as <-.
Qed.
Lemma cancel_tool_exact n t :
  tracker_ok t →
  cancelExecutionIds ((λ e, id (call e.2)) <$> filter (λ e, toolOf e.2 = n) (executions t)) reason options t =
  (countRunning (λ e, bool_decide (toolOf e = n) && isCancelled options e) t,
   onRunning (λ e, bool_decide (toolOf e = n) && isCancelled options e) kill t).
Proof.
  intros Ht. set (ids := _ <$> filter _ _).
  assert (ids = idsOf t (λ e, bool_decide (toolOf e = n))) as ->.
  { unfold ids, idsOf, running. induction (executions t) as [|[x e] l IH]; [done|]. rewrite fmap_cons, !filter_cons. cbn [snd].
    case_decide as H1; case_decide as H2; try (rewrite !fmap_cons; by rewrite IH); try done; exfalso;
      rewrite bool_decide_eq_true in H2; tauto. }
  apply cancel_exact; [done|by apply idsOf_NoDup|]. intros e Hin. rewrite (running_lookup t Ht) in Hin.
  rewrite (elem_of_idsOf t Ht). split; [|by exists e]. intros (e' & E & Hk). rewrite Hin in E. by injection E as <-.
Qed.
End Cancel.

(** ** Sessionless use *)

Section Sessionless.
Context (isAborted : nat → bool) (d : string) (excluded : option string).

(** Nothing of the call uses the device any more: the call is aborted, or it only
    waited to read and its waits are aborted. *)
Definition stopped (t : ExecutionTracker) (e : ActiveExecution) : Prop :=
  excluded = Some (id (call e)) ∨ d ∉ sessionlessDeviceUse (devices e) ∨ aborted e = true ∨
  (d ∉ sessionlessControlUse (devices e) ∧
   ∀ c, c ∈ default [] (jget d (sessionlessReadReadiness (devices e))) → controllerAborted isAborted t c = true).

Lemma controllerAborted_tell es t c :
  controllerAborted isAborted t c = true → controllerAborted isAborted (tell es t) c = true.
Proof.
  unfold controllerAborted. rewrite !orb_true_iff. cbn [events tell]. rewrite existsb_app, orb_true_iff. tauto.
Qed.
Lemma readiness_told t e reason c :
  c ∈ default [] (jget d (sessionlessReadReadiness (devices e))) →
  controllerAborted isAborted (tell (cancelReadReadiness (controllerAborted isAborted t) e d reason) t) c = true.
Proof.
  intros Hc. destruct (controllerAborted isAborted t c) eqn:Ha; [by apply controllerAborted_tell|].
  unfold controllerAborted. rewrite orb_true_iff. right. cbn [events tell]. rewrite existsb_app, orb_true_iff. right.
  apply existsb_exists. exists (ControllerAborted c reason). split; [|by apply bool_decide_eq_true].
  apply list_elem_of_In, list_elem_of_fmap. exists c. split; [done|]. by apply list_elem_of_filter.
Qed.

(** A step stops its call and lets no other go on. *)
Lemma abort_aborts reason e : aborted (with_abort (abortExecution reason) e) = true.
Proof.
  unfold aborted, with_abort, abortExecution, abortSignal. destruct reason as [s|err]; cbn [isDeviceLossCancellationReason];
    [destruct (String.prefix _ s)|]; cbn; by destruct (signal (abort e)).
Qed.
Lemma step_stops n t x e :
  jget x (executions (sessionlessStep isAborted d excluded (n, t) x).2) = Some e →
  stopped (sessionlessStep isAborted d excluded (n, t) x).2 e.
Proof.
  unfold sessionlessStep. destruct (jget x (executions t)) as [e0|] eqn:E; [|cbn; congruence].
  destruct (_ || _) eqn:Hskip; [|destruct (shas d (sessionlessControlUse _)) eqn:Hctl].
  - cbn [snd]. rewrite E. intros [= <-]. rewrite !orb_true_iff, negb_true_iff, bool_decide_eq_true in Hskip.
    unfold shas in Hskip. rewrite bool_decide_eq_false in Hskip. unfold stopped. tauto.
  - cbn. rewrite jget_set, decide_True by done. intros [= <-]. right. right. left. apply abort_aborts.
  - apply bool_decide_eq_false in Hctl.
    pose proof (readiness_told t e0 (InputDeviceOwnedError (toolOf e0) d)) as Hr.
    destruct (cancelReadReadiness _ _ _ _) eqn:Hes; cbn [snd]; [|change (executions (tell _ t)) with (executions t)]; rewrite E;
      intros [= <-]; right; right; right; (split; [done|]); intros c Hc; specialize (Hr c Hc).
    + unfold controllerAborted in *. cbn [events tell] in Hr. by rewrite app_nil_r in Hr.
    + exact Hr.
Qed.
Lemma step_keeps_stopped n t x y :
  (∀ e, jget y (executions t) = Some e → stopped t e) →
  ∀ e, jget y (executions (sessionlessStep isAborted d excluded (n, t) x).2) = Some e →
       stopped (sessionlessStep isAborted d excluded (n, t) x).2 e.
Proof.
  intros H e He. destruct (decide (y = x)) as [->|Hne]; [by apply (step_stops n t x)|]. revert He.
  unfold sessionlessStep. destruct (jget x (executions t)) as [e0|] eqn:E; [|apply H].
  destruct (_ || _); [apply H|]. destruct (shas d _); cbn [snd].
  - cbn. rewrite jget_set, decide_False by done. apply H.
  - destruct (cancelReadReadiness _ _ _ _) as [|ev es]; [apply H|]. cbn. intros He.
    destruct (H e He) as [?|[?|[?|[? Hc]]]]; unfold stopped; try tauto. right. right. right. split; [done|].
    intros c Hin. by apply controllerAborted_tell, Hc.
Qed.
Lemma sessionless_stops n t ids :
  (∀ y e, y ∉ ids → jget y (executions t) = Some e → stopped t e) →
  ∀ y e, jget y (executions (foldl (sessionlessStep isAborted d excluded) (n, t) ids).2) = Some e →
         stopped (foldl (sessionlessStep isAborted d excluded) (n, t) ids).2 e.
Proof.
  revert n t. induction ids as [|x ids IH]; intros n t H; cbn [foldl]; [intros y e; apply H; by intros ?%elem_of_nil|].
  pose proof (step_stops n t x) as Hx. pose proof (step_keeps_stopped n t x) as Hk.
  destruct (sessionlessStep isAborted d excluded (n, t) x) as [n1 t1]. apply IH. intros y e Hy E.
  destruct (decide (y = x)) as [->|Hne]; [by apply Hx|]. apply (Hk y); [|done]. intros e' E'. apply (H y); [|done].
  intros [?|?]%elem_of_cons; done.
Qed.
End Sessionless.
