(* ===== verification/ExecutionProperties.v ===== *)
(** * Properties of the execution tracker

    What the registry of running calls promises over its whole life: exact answers,
    fences that hold, cancellations that reach exactly their calls, waits that do not
    hang. *)
From S2P Require Import Prelude JsString JsMap ExecutionTracker ExecutionIndexes ExecutionQueries ExecutionWaits.
From S2P Require Import ExecutionChanges ExecutionCancellation.
From stdpp Require Import list sets.
Local Open Scope Z_scope.

(** ** Concrete trackers *)

Definition startOn (x tool : string) (uuid autolock : option string) : TrackerOp :=
  Start x 100 5 (λ _, autolock) tool (Some "socket"%string) uuid (Some "http"%string) (Some "mcp"%string).
Definition life (ops : list TrackerOp) : ExecutionTracker := foldl (λ t op, apply_op noReaders op t) newTracker ops.
(** A life where every start has a fresh identifier. *)
Fixpoint fresh_ops (t : ExecutionTracker) (ops : list TrackerOp) : bool :=
  match ops with
  | [] => true
  | op :: ops =>
      match op with
      | Start x _ _ _ _ _ _ _ _ => match jget x (executions t) with None => true | Some _ => false end
      | _ => true
      end && fresh_ops (apply_op noReaders op t) ops
  end.
Lemma life_lives ops : fresh_ops newTracker ops = true → lives (life ops).
Proof.
  unfold life. assert (∀ t, lives t → fresh_ops t ops = true → lives (foldl (λ t op, apply_op noReaders op t) t ops)) as H;
    [|apply H; constructor].
  induction ops as [|op ops IH]; intros t Ht Hf; [done|]. cbn [foldl]. cbn [fresh_ops] in Hf.
  apply andb_true_iff in Hf as [H1 H2]. apply IH; [|done]. constructor; [done|]. destruct op; try done. cbn.
  by destruct (jget executionId (executions t)).
Qed.

Definition callA : TrackerOp := startOn "a" "tapOn" (Some "s1"%string) None.
Definition callB : TrackerOp := startOn "b" "observe" None (Some "s1"%string).
Definition two : list TrackerOp := [callA; callB; Bind "a" "emulator-1" false 120].
Definition rebind : ExecutionCancellationOptions := mkCancellation None None (Some "s1"%string) [].

(** ** The queries *)

(** The activity queries and the counts of the tracker, answered from its
    indexes, are exactly those of the running calls: a call counts for a device it is
    bound to, for its transport sessions, and for a device session that it names, that
    routing resolved for it, or that it is still provisionally mapped to. *)
Theorem activity_queries_exact readers t (Hlives : lives t) :
  (∀ d query, hasActiveDeviceExecutions readers d query t =
     existsb (λ e, shas d (deviceIds (devices e)) && asked readers query e &&
                   belongsToSessionFilter e (query_onlySessionUuid query)) (running t)) ∧
  (∀ s query, hasActiveSessionExecutions readers s query t =
     existsb (λ e, shas s (sessionKeys e) && asked readers query e &&
                   belongsToSessionFilter e (query_onlySessionUuid query)) (running t)) ∧
  (∀ s query, query_onlySessionUuid query = None →
     hasActiveDeviceSessionExecutions readers s query t = existsb (λ e, ofSession s e && asked readers query e) (running t)) ∧
  (∀ n s, hasActiveToolExecution n (mkScope false None (Some s)) t =
     existsb (λ e, implb (truthy s) (shas s (uuidKeys e)) && bool_decide (toolOf e = n)) (running t)) ∧
  (∀ s, getActiveDeviceSessionExecutionCount s t = countRunning (ofSession s) t) ∧
  (∀ d, getActiveDeviceExecutionCount d t = countRunning (λ e, shas d (deviceIds (devices e))) t).
Proof.
  pose proof (lives_ok t Hlives) as Hok. split_and!.
  - intros d query. by apply (hasActiveExecutionsForKey_spec readers t Hok deviceKeys), Hok.
  - intros s query. by apply (hasActiveExecutionsForKey_spec readers t Hok sessionKeys), Hok.
  - intros s query Hq. apply hasActiveDeviceSession_spec; [done|by left].
  - intros n s. unfold hasActiveToolExecution, keyOf. cbn. destruct (truthy s); cbn [implb].
    + by apply (tool_for_key t Hok uuidKeys), Hok.
    + apply tool_global.
  - intros s. by apply session_count.
  - intros d. rewrite device_count by done. unfold countRunning, shas. f_equal. apply list_filter_iff. intros e.
    by rewrite bool_decide_eq_true.
Qed.
Lemma activity_queries_exact_witness :
  lives (life two) ∧ hasActiveDeviceSessionExecutions noReaders "s1" None (life two) = true ∧
  getActiveDeviceSessionExecutionCount "s1" (life two) = 2%nat.
Proof.
  pose proof (life_lives two eq_refl) as H. split; [exact H|]. destruct (activity_queries_exact noReaders _ H) as (_ & _ & Hs & _ & Hc & _).
  split; [rewrite (Hs "s1"%string None eq_refl)|rewrite Hc]; vm_compute; reflexivity.
Defined.

(** ** The fences *)

(** C26. A restart is accepted exactly when no call runs, no provisioning runs and no
    fence is up, and maintenance exactly when there is no session either.  Once
    accepted, whatever happens until the fence is cleared, no call runs and every
    start is refused and changes nothing. *)
Theorem fences_hold_until_cleared t provisioning sessions (Hlives : lives t) :
  ((prepareForDaemonRestart provisioning t).1 = RestartAccepted ↔
     executions t = [] ∧ provisioning = false ∧ fences t = (false, false)) ∧
  ((prepareForDaemonMaintenance sessions t).1 = MaintenanceAccepted ↔
     executions t = [] ∧ sessions <= 0 ∧ fences t = (false, false)) ∧
  ∀ t' x now offset resolver tool s u tr un,
    ((prepareForDaemonRestart provisioning t).1 = RestartAccepted ∧
     later (λ op, op ≠ ClearRestart) (prepareForDaemonRestart provisioning t).2 t') ∨
    ((prepareForDaemonMaintenance sessions t).1 = MaintenanceAccepted ∧
     later (λ op, op ≠ ClearMaintenance) (prepareForDaemonMaintenance sessions t).2 t') →
    executions t' = [] ∧ startExecution x now offset resolver tool s u tr un t' = (Throws DaemonRestartPendingError, t').
Proof.
  assert (∀ t', lives t' → daemonRestartPrepared t' || daemonMaintenancePrepared t' = true →
    ∀ x now offset resolver tool s u tr un, executions t' = [] ∧
      startExecution x now offset resolver tool s u tr un t' = (Throws DaemonRestartPendingError, t')) as Hshut.
  { intros t' Ht' Hp *. split; [by apply (ok_fences t'); [apply lives_ok|]|]. unfold startExecution. by rewrite Hp. }
  split_and!.
  - unfold prepareForDaemonRestart, prepareForDaemonRestartAdmission, fences.
    destruct (daemonRestartPrepared t), (daemonMaintenancePrepared t), (executions t), provisioning; naive_solver.
  - unfold prepareForDaemonMaintenance, fences. destruct (0 <? sessions) eqn:E; [apply Z.ltb_lt in E|apply Z.ltb_ge in E];
      destruct (daemonRestartPrepared t), (daemonMaintenancePrepared t), (executions t); cbn; naive_solver lia.
  - intros t' * [[Ha Hl]|[Ha Hl]]; apply Hshut.
    + eapply later_lives; [|exact Hl]. exact (lives_op noReaders (PrepareRestart provisioning) t Hlives I).
    + apply orb_true_iff. left. eapply restart_stays; [|exact Hl]. revert Ha. unfold prepareForDaemonRestart,
        prepareForDaemonRestartAdmission. repeat case_match; done.
    + eapply later_lives; [|exact Hl]. exact (lives_op noReaders (PrepareMaintenance sessions) t Hlives I).
    + apply orb_true_iff. right. eapply maintenance_stays; [|exact Hl]. revert Ha. unfold prepareForDaemonMaintenance.
      repeat case_match; done.
Qed.
Lemma fences_hold_until_cleared_witness :
  lives newTracker ∧
  (startExecution "a" 0 0 (λ _, None) "tapOn" None None None None
     (apply_op noReaders callA (prepareForDaemonRestart false newTracker).2)).1 = Throws DaemonRestartPendingError.
Proof.
  split; [constructor|]. destruct (fences_hold_until_cleared newTracker false 0 lives_new) as (_ & _ & H).
  set (t1 := (prepareForDaemonRestart false newTracker).2).
  assert (later (λ op, op ≠ ClearRestart) t1 (apply_op noReaders callA t1)) as Hl.
  { apply later_op; [apply later_now|reflexivity|discriminate]. }
  rewrite (proj2 (H _ "a"%string 0 0 (λ _, None) "tapOn"%string None None None None (or_introl (conj eq_refl Hl)))). reflexivity.
Defined.

(** ** Cancellation *)

(** C28. Cancelling the work of a device session, of a device, of a transport session
    or of a tool aborts with the reason exactly the running calls in scope, each once,
    returns how many they are, and changes nothing else. *)
Theorem cancellation_exact reason options t (Hlives : lives t) :
  let killed (p : ActiveExecution → bool) :=
    (countRunning p t, onRunning p (with_abort (abortExecution reason)) t) in
  (∀ s, cancelDeviceSessionExecutions s reason options t = killed (λ e, ofSession s e && isCancelled options e)) ∧
  (∀ d, onlySessionUuid options = None →
     cancelDeviceExecutions d reason options t = killed (λ e, shas d (deviceIds (devices e)) && isCancelled options e)) ∧
  (∀ s, cancelSessionUuidExecutions s reason options t = killed (λ e, shas s (uuidKeys e) && isCancelled options e)) ∧
  (∀ s, cancelSessionExecutions s reason t = killed (λ e, shas s (sessionKeys e) && isCancelled noOptions e)) ∧
  (∀ n, cancelToolExecutions n reason t = killed (λ e, bool_decide (toolOf e = n) && isCancelled noOptions e)).
Proof.
  intros killed. pose proof (lives_ok t Hlives) as Hok. split_and!.
  - intros s. by apply cancel_session_exact.
  - intros d Ho. unfold cancelDeviceExecutions. rewrite Ho. by apply (cancel_index_exact reason options deviceKeys), Hok.
  - intros s. by apply (cancel_index_exact reason options uuidKeys), Hok.
  - intros s. by apply (cancel_index_exact reason noOptions sessionKeys), Hok.
  - intros n. by apply cancel_tool_exact.
Qed.
Lemma cancellation_exact_witness :
  lives (life two) ∧ (cancelDeviceSessionExecutions "s1" (ReasonText "device-disconnected:emulator-1") noOptions (life two)).1 = 2%nat.
Proof.
  pose proof (life_lives two eq_refl) as H. split; [exact H|].
  rewrite (proj1 (cancellation_exact (ReasonText "device-disconnected:emulator-1") noOptions _ H)). vm_compute. reflexivity.
Defined.

(** When the cancellation of a device's work is scoped to a session, every call of
    the session is fenced off the device: whatever happens until the call ends, binding
    it to the device is refused, and it is among the device's calls only if it was. *)
Theorem revoked_binding_stays_refused t t' d reason options s x e skip now
    (Hlives : lives t) (Hscope : onlySessionUuid options = Some s)
    (Hrun : jget x (executions t) = Some e) (Hrevoked : isRevoked d options e = true)
    (Hlater : later (λ op, endsCall x op = false) (cancelDeviceExecutions d reason options t).2 t') :
  (∃ revocation, bindDeviceExecution x d false now t' = (Throws revocation, t')) ∧
  bindDeviceExecution x d true now t' = (Returns (), t') ∧
  (x ∈ members d (deviceExecutions (bindDeviceExecution x d skip now t').2) → x ∈ members d (deviceExecutions t)).
Proof.
  set (t0 := revokeSessionDeviceBindings d reason options t).
  assert (jget x (executions t0) = Some (with_devices (revokeBinding d (revocationOf reason)) e)) as E0.
  { set (f := λ e, if isRevoked d options e then with_devices (revokeBinding d (revocationOf reason)) e else e).
    change (jget x ((λ e, (e.1, f e.2)) <$> executions t) = Some (with_devices (revokeBinding d (revocationOf reason)) e)).
    rewrite jget_fmap, Hrun. cbn. unfold f. by rewrite Hrevoked. }
  assert (lives (cancelDeviceExecutions d reason options t).2) as Hl1 by exact (lives_op noReaders (CancelDevice d reason options) t Hlives I).
  assert (∃ e1, jget x (executions (cancelDeviceExecutions d reason options t).2) = Some e1 ∧
    change (with_devices (revokeBinding d (revocationOf reason)) e) e1) as (e1 & E1 & C1).
  { unfold cancelDeviceExecutions. rewrite Hscope. by apply cancel_changes. }
  destruct (later_change x _ t' e1 Hlater E1) as (e2 & E2 & C2).
  pose proof (change_then _ _ _ C1 C2) as C. destruct (change_revoked d _ _ C) as [Hr Hd].
  { unfold revokedOn. cbn. rewrite jget_set, decide_True by done. by eexists. }
  destruct Hr as [r Hr]. assert (∀ k, bindDeviceExecution x d k now t' = (if k then Returns () else Throws r, t')) as Hb.
  { intros []; unfold bindDeviceExecution; by rewrite E2, Hr. }
  split; [exists r; apply Hb|]. split; [apply Hb|]. rewrite Hb. cbn [snd].
  pose proof (lives_ok _ (later_lives _ _ _ Hl1 Hlater)) as Hok2.
  rewrite (proj2 (ok_devices t' Hok2)), (proj2 (ok_devices t (lives_ok t Hlives))).
  intros (e3 & E3 & Hin). rewrite E2 in E3. injection E3 as <-. exists e. split; [done|]. by apply Hd.
Qed.
Lemma revoked_binding_stays_refused_witness :
  ∃ r, bindDeviceExecution "b" "emulator-1" false 200
    (apply_op noReaders (Resolve "b" (Some "s2"%string)) (cancelDeviceExecutions "emulator-1" (ReasonText "rebound") rebind (life two)).2) =
  (Throws r, apply_op noReaders (Resolve "b" (Some "s2"%string)) (cancelDeviceExecutions "emulator-1" (ReasonText "rebound") rebind (life two)).2).
Proof.
  destruct (jget "b"%string (executions (life two))) as [e|] eqn:E; [|discriminate E].
  refine (proj1 (revoked_binding_stays_refused (life two) _ "emulator-1" (ReasonText "rebound") rebind "s1" "b" e false 200
    (life_lives two eq_refl) eq_refl E _ (later_op _ _ noReaders (Resolve "b" (Some "s2"%string)) _ (later_now _ _) I eq_refl))).
  revert E. vm_compute. intros [= <-]. reflexivity.
Defined.

(** When a session has acquired a device, every other call that controls the device
    without a session is aborted, and of a call that only reads it, every wait for
    readiness is. *)
Theorem sessionless_use_ended isAborted d excluded t x e (Hlives : lives t)
    (Hrun : jget x (executions (cancelSessionlessDeviceUse isAborted d excluded t).2) = Some e)
    (Hother : excluded ≠ Some x) :
  (d ∈ sessionlessControlUse (devices e) → aborted e = true) ∧
  (∀ controllers c, jget d (sessionlessReadReadiness (devices e)) = Some controllers → c ∈ controllers → aborted e = false →
     controllerAborted isAborted (cancelSessionlessDeviceUse isAborted d excluded t).2 c = true).
Proof.
  pose proof (lives_op noReaders (CancelSessionless isAborted d excluded) t Hlives I) as Hl. cbn [apply_op] in Hl.
  pose proof (lives_coherent _ Hl x e Hrun) as [Hc Hr]. pose proof (ok_ids _ (lives_ok _ Hl) x e Hrun) as Hid.
  assert (stopped isAborted d excluded (cancelSessionlessDeviceUse isAborted d excluded t).2 e) as Hs.
  { apply (sessionless_stops isAborted d excluded 0 t (jkeys (executions t))) with (y := x); [|exact Hrun].
    intros y e0 Hy E0. by apply jget_in_keys in E0. }
  destruct Hs as [Hs|[Hs|[Hs|[Hs Hq]]]]; [by rewrite Hid in Hs| | |].
  - split; [intros Hin; by apply Hc in Hin|]. intros cs c E _ _. apply jget_in_keys in E. by apply Hr in E.
  - split; [done|]. congruence.
  - split; [done|]. intros cs c E Hin _. apply Hq. by rewrite E.
Qed.
Lemma sessionless_use_ended_witness :
  lives (life [callA; MarkSessionless "a" "emulator-1"]) ∧
  ∃ e, jget "a" (executions (cancelSessionlessDeviceUse (λ _, false) "emulator-1" None
                   (life [callA; MarkSessionless "a" "emulator-1"])).2) = Some e ∧ aborted e = true.
Proof.
  pose proof (life_lives [callA; MarkSessionless "a" "emulator-1"] eq_refl) as H. split; [exact H|].
  eexists. split; [vm_compute; reflexivity|].
  refine (proj1 (sessionless_use_ended (λ _, false) "emulator-1" None _ "a" _ H _ _) _); [vm_compute; reflexivity|discriminate|].
  vm_compute. left.
Defined.

(** ** Waits *)

(** C27. A wait for calls to end, with a query of what cannot change silently, is settled
    by the very operation that leaves it nothing to wait for, and until then goes on
    listening: after any operation except its timeout, it listens when something it
    asks about is active and is settled as drained when nothing is. *)
Theorem no_wait_is_forgotten readers op t w (Hlives : lives t) (Hfresh : fresh_op op t)
    (Hwait : w ∈ executionEndListeners t) (Hstable : stableTarget (wait_on w) = true)
    (Htimeout : op ≠ WaitTimeout (wait_id w)) :
  if isActive readers (wait_on w) (apply_op readers op t)
  then w ∈ executionEndListeners (apply_op readers op t)
  else WaitSettled (wait_id w) true ∈ events (apply_op readers op t).
Proof.
  pose proof (lives_op readers op t Hlives Hfresh) as Hl. pose proof (lives_awake _ Hl w) as Hawake.
  assert (w ∈ executionEndListeners (apply_op readers op t) ∨
          isActive readers (wait_on w) (apply_op readers op t) = false ∧
          WaitSettled (wait_id w) true ∈ events (apply_op readers op t)) as [Hin|[-> ?]]; [| |done].
  - destruct (apply_op_listens readers op w t) as [?|?]; auto.
  - by rewrite (proj2 (awaited_active readers _ _ (lives_ok _ Hl) Hstable) (Hawake Hin Hstable)).
Qed.
Lemma no_wait_is_forgotten_witness :
  let t := life (two ++ [AwaitEnd 7 (OnDevice "emulator-1" None)]) in
  lives t ∧ WaitSettled 7 true ∈ events (apply_op noReaders (End_ 300 "a") t).
Proof.
  intros t. pose proof (life_lives (two ++ [AwaitEnd 7 (OnDevice "emulator-1" None)]) eq_refl) as H. split; [exact H|].
  refine (no_wait_is_forgotten noReaders (End_ 300 "a") t (mkWait 7 (OnDevice "emulator-1" None)) H I _ eq_refl _); [vm_compute; left|discriminate].
Defined.

(** ** Deadlines *)

(** The latest deadline of a device session is unknown when no call of it counts,
    infinite when some call that counts has no deadline, and otherwise the greatest of
    their deadlines. *)
Theorem latest_deadline_is_max readers s onSessionClock excludeReads t (Hlives : lives t) :
  let counted e := e ∈ running t ∧ ofSession s e = true ∧ excludeReads && isReadExecution e = false in
  let latest := getLatestSessionExecutionDeadlineMs readers s onSessionClock excludeReads t in
  (latest = None ↔ ∀ e, ¬ counted e) ∧
  (latest = Some None ↔ ∃ e, counted e ∧ executionDeadlineMs readers e onSessionClock = None) ∧
  (∀ m, latest = Some (Some m) ↔
     (∃ e, counted e ∧ executionDeadlineMs readers e onSessionClock = Some m) ∧
     ∀ e, counted e → ∃ d, executionDeadlineMs readers e onSessionClock = Some d ∧ d <= m).
Proof.
  intros counted latest. unfold latest. rewrite latest_spec by (by apply lives_ok). set (l := filter _ _).
  assert (∀ e, e ∈ l ↔ counted e) as Hl.
  { intros e. unfold l, counted. rewrite list_elem_of_filter, andb_true_iff, negb_true_iff. tauto. }
  split_and!.
  - rewrite latestOf_none. setoid_rewrite <- Hl. destruct l as [|e l']; cbn; split; try done.
    + by intros _ e ?%elem_of_nil.
    + intros H. destruct (H e). by left.
  - rewrite latestOf_infinite, list_elem_of_fmap. setoid_rewrite Hl. naive_solver.
  - intros m. rewrite latestOf_finite, list_elem_of_fmap. setoid_rewrite list_elem_of_fmap. setoid_rewrite Hl. naive_solver.
Qed.
Lemma latest_deadline_is_max_witness :
  lives (life (two ++ [SetDeadline "a" 0 5 None])) ∧
  getLatestSessionExecutionDeadlineMs (λ _, Some 900) "s1" true true (life (two ++ [SetDeadline "a" 0 5 None])) = Some None.
Proof.
  pose proof (life_lives (two ++ [SetDeadline "a" 0 5 None]) eq_refl) as H. split; [exact H|].
  destruct (latest_deadline_is_max (λ _, Some 900) "s1" true true _ H) as (_ & Hi & _). apply Hi.
  destruct (jget "b"%string (executions (life (two ++ [SetDeadline "a" 0 5 None])))) as [e|] eqn:E; [|discriminate E].
  exists e. revert E. vm_compute. intros [= <-]. split; [|reflexivity]. split; [right; left|split; reflexivity].
Defined.
