(* ===== verification/DeviceBinding.v ===== *)
(** * Pooled devices and their binding

    [src/src/daemon/deviceBinding.ts], the binding fields of [devicePoolTypes.ts] and
    the table of [deviceTable.ts].  An entry is an object: two entries with the same
    serial are different incarnations, so the table maps a serial to a reference into
    a heap of entries. *)
From Stdlib Require Import Strings.String.
From S2P Require Import Prelude JsString JsMap.
Local Open Scope Z_scope.

Inductive BindingStatus := idle | busy.
Inductive DeviceHealth := ok | error.
#[export] Instance BindingStatus_eq_dec : EqDecision BindingStatus.
Proof. solve_decision. Defined.
#[export] Instance DeviceHealth_eq_dec : EqDecision DeviceHealth.
Proof. solve_decision. Defined.

(** [health] may be absent. *)
Record BindingFields := mkBinding { sessionId : option string; status : BindingStatus; health : option DeviceHealth }.
Record PooledDevice := mkDevice {
  id : string; platform : string; binding : BindingFields; lastUsedAt : Z; assignmentCount : Z; errorCount : Z;
  autolockSessionId : option string }.
Definition with_binding f d := mkDevice (id d) (platform d) (f (binding d)) (lastUsedAt d) (assignmentCount d) (errorCount d)
  (autolockSessionId d).

Definition holderOf (d : PooledDevice) : option string := sessionId (binding d).
Inductive DeviceStatus := Idle | Busy | Errored.
Definition statusOf (d : PooledDevice) : DeviceStatus :=
  if bool_decide (health (binding d) = Some error) then Errored
  else match status (binding d) with idle => Idle | busy => Busy end.
Definition isErrored (d : PooledDevice) : bool := bool_decide (health (binding d) = Some error).
Definition isIdle (d : PooledDevice) : bool := bool_decide (status (binding d) = idle) && negb (isErrored d).
Definition isBusy (d : PooledDevice) : bool := bool_decide (status (binding d) = busy) && negb (isErrored d).

Definition bindDevice (session : string) : PooledDevice → PooledDevice :=
  with_binding (λ _, mkBinding (Some session) busy (Some ok)).
(** [expectedSessionId] is [None] when it is not given; [keep] keeps the status. *)
Definition unbindDevice (expectedSessionId : option (option string)) (keep : bool) (d : PooledDevice) : bool * PooledDevice :=
  match expectedSessionId with
  | Some expected =>
      if bool_decide (expected = holderOf d)
      then (true, with_binding (λ b, if keep then mkBinding None (status b) (health b) else mkBinding None idle (Some ok)) d)
      else (false, d)
  | None => (true, with_binding (λ b, if keep then mkBinding None (status b) (health b) else mkBinding None idle (Some ok)) d)
  end.
Definition markDeviceError : PooledDevice → PooledDevice :=
  with_binding (λ b, mkBinding (sessionId b) (status b) (Some error)).
Definition clearDeviceError : PooledDevice → PooledDevice :=
  with_binding (λ b, mkBinding (sessionId b) idle (Some ok)).

(** The snapshot of an assignment, and its rollback. *)
Record SessionAssignmentSnapshot := mkSnapshot {
  snap_binding : BindingFields; snap_lastUsedAt : Z; snap_assignmentCount : Z; snap_errorCount : Z;
  snap_autolock : option string }.
Definition snapshotBinding (d : PooledDevice) : BindingFields :=
  mkBinding (sessionId (binding d)) (status (binding d)) (health (binding d)).
Definition restoreBinding (snapshot : BindingFields) : PooledDevice → PooledDevice :=
  with_binding (λ _, mkBinding (sessionId snapshot) (status snapshot) (health snapshot)).
Definition snapshotSessionAssignment (d : PooledDevice) : SessionAssignmentSnapshot :=
  mkSnapshot (snapshotBinding d) (lastUsedAt d) (assignmentCount d) (errorCount d) (autolockSessionId d).
Definition restoreSessionAssignment (s : SessionAssignmentSnapshot) (d : PooledDevice) : PooledDevice :=
  let d := restoreBinding (snap_binding s) d in
  mkDevice (id d) (platform d) (binding d) (snap_lastUsedAt s) (snap_assignmentCount s) (snap_errorCount s) (snap_autolock s).

(** ** The device table *)

Section Table.
Context (objects : JsMap nat PooledDevice) (entries : JsMap string nat).
Definition table_all : list (nat * PooledDevice) :=
  omap (λ e, (λ d, (e.2, d)) <$> jget e.2 objects) entries.
Definition table_get (deviceId : string) : option (nat * PooledDevice) :=
  r ← jget deviceId entries; d ← jget r objects; Some (r, d).
Definition heldBy (session : string) : option (nat * PooledDevice) :=
  head (filter (λ e, holderOf e.2 = Some session) table_all).
Definition assigned : list (nat * PooledDevice) :=
  filter (λ e, isBusy e.2 && bool_decide (holderOf e.2 ≠ None) = true) table_all.
Definition errored : list (nat * PooledDevice) := filter (λ e, isErrored e.2 = true) table_all.
Definition byPlatform (p : string) : list (nat * PooledDevice) := filter (λ e, platform e.2 = p) table_all.
End Table.

(** ** Facts *)

Lemma restore_snapshot d d' :
  id d' = id d → platform d' = platform d → restoreSessionAssignment (snapshotSessionAssignment d) d' = d.
Proof. destruct d as [i p [s st h] l a e au], d' as [i' p' ? ? ? ? ?]. cbn. by intros -> ->. Qed.
Lemma bind_not_idle s d : isIdle (bindDevice s d) = false ∧ isBusy (bindDevice s d) = true.
Proof. done. Qed.
Lemma status_exclusive d :
  match statusOf d with
  | Idle => isIdle d = true ∧ isBusy d = false ∧ isErrored d = false
  | Busy => isIdle d = false ∧ isBusy d = true ∧ isErrored d = false
  | Errored => isIdle d = false ∧ isBusy d = false ∧ isErrored d = true
  end.
Proof. unfold statusOf, isIdle, isBusy, isErrored. by destruct (health (binding d)) as [[]|], (status (binding d)). Qed.
