(* ===== verification/DeviceAssignment.v ===== *)
(** * Assignment of pooled devices to sessions

    The part of the device pool that binds devices: [selectIdleDevice] and
    [claimSelectedDeviceForSession] of [src/src/daemon/deviceAllocation.ts],
    [explicitDeviceBind.ts] from its last check on, and [devicePoolParts/release.ts].
    A step runs from one [await] to the next; what it reads from the session manager
    and from other parts is its [Env].  [mutex] is [assignmentMutex] with what its
    holder still has to do. *)
From Stdlib Require Import Strings.String.
From S2P Require Import Prelude JsString JsMap DeviceBinding.
Local Open Scope Z_scope.

(** ** State *)

(** A session object: its reference and its UUID; the device it is assigned to can
    change and is read from the [Env]. *)
Record Session := mkSession { s_ref : nat; s_id : string }.
#[export] Instance Session_eq_dec : EqDecision Session.
Proof. solve_decision. Defined.

Record Env := mkEnv {
  getSession : string → option Session;
  assignedDevice : Session → string;
  sessionPlatform : Session → string;
  getPendingDeviceCleanup : string → option nat;
  pendingAfterLookup : string → option nat;
  bindRefused : string → string → bool;
  isPotentialAllocationSupply : nat → bool;
  isReservedForAssignment : nat → option string → bool;
  isPooledDeviceIdentityAssignable : nat → bool;
  getDeviceHealthMarker : string → bool;
  nextLastUsedAt : Z }.

Record ReleasedCapture := mkCapture { cap_device : nat; cap_deviceId : string; cap_count : Z }.
Record DeferredRelease := mkDeferred { def_object : nat; def_device : nat; def_session : string; def_count : Z; def_cleanup : nat }.

(** A creation in progress: [createSessionAndCommit] cut at its awaits. *)
Inductive CreationPhase := Creating | AwaitingRelease (s : Session) | Undoing (s : Session).
Record Creation := mkCreation {
  c_device : nat; c_snapshot : SessionAssignmentSnapshot; c_session : string; c_explicit : bool; c_phase : CreationPhase }.
Definition with_phase ph c := mkCreation (c_device c) (c_snapshot c) (c_session c) (c_explicit c) ph.
(** A rollback of a multi-device allocation: what is left, and whether it awaits
    [releaseSession] for the head. *)
Record Rollback := mkRollback { todo : list (string * (string * Session)); awaiting : bool }.
Inductive Mutex := Unlocked | InCreation (c : Creation) | InRollback (b : Rollback).

Inductive PoolEvent :=
| ClaimReleased (deviceId : string)
| WaitersNotified
| StateChanged (deviceId : string)
| CancellationDeferred (session : string)
| CancellationSettled (session : string) (committed : bool)
| SessionReleaseRequested (session : string).

Record Pool := mkPool {
  objects : JsMap nat PooledDevice;
  devices : JsMap string nat;
  releasedDeviceCaptures : JsMap string ReleasedCapture;
  deferredDeviceReleases : JsMap string DeferredRelease;
  pooledSessionIdentities : JsMap nat Session;
  lastReleasedDeviceId : option string;
  mutex : Mutex;
  nextRef : nat;
  told : list PoolEvent }.
Definition emptyPool : Pool := mkPool [] [] [] [] [] None Unlocked 0 [].
Definition with_objects f p := mkPool (f (objects p)) (devices p) (releasedDeviceCaptures p) (deferredDeviceReleases p)
  (pooledSessionIdentities p) (lastReleasedDeviceId p) (mutex p) (nextRef p) (told p).
Definition with_table f p := mkPool (objects p) (f (devices p)) (releasedDeviceCaptures p) (deferredDeviceReleases p)
  (pooledSessionIdentities p) (lastReleasedDeviceId p) (mutex p) (nextRef p) (told p).
Definition with_captures f p := mkPool (objects p) (devices p) (f (releasedDeviceCaptures p)) (deferredDeviceReleases p)
  (pooledSessionIdentities p) (lastReleasedDeviceId p) (mutex p) (nextRef p) (told p).
Definition with_deferred f p := mkPool (objects p) (devices p) (releasedDeviceCaptures p) (f (deferredDeviceReleases p))
  (pooledSessionIdentities p) (lastReleasedDeviceId p) (mutex p) (nextRef p) (told p).
Definition with_identities f p := mkPool (objects p) (devices p) (releasedDeviceCaptures p) (deferredDeviceReleases p)
  (f (pooledSessionIdentities p)) (lastReleasedDeviceId p) (mutex p) (nextRef p) (told p).
Definition with_lastReleased l p := mkPool (objects p) (devices p) (releasedDeviceCaptures p) (deferredDeviceReleases p)
  (pooledSessionIdentities p) l (mutex p) (nextRef p) (told p).
Definition with_mutex m p := mkPool (objects p) (devices p) (releasedDeviceCaptures p) (deferredDeviceReleases p)
  (pooledSessionIdentities p) (lastReleasedDeviceId p) m (nextRef p) (told p).
Definition with_next p := mkPool (objects p) (devices p) (releasedDeviceCaptures p) (deferredDeviceReleases p)
  (pooledSessionIdentities p) (lastReleasedDeviceId p) (mutex p) (S (nextRef p)) (told p).
Definition tell es p := mkPool (objects p) (devices p) (releasedDeviceCaptures p) (deferredDeviceReleases p)
  (pooledSessionIdentities p) (lastReleasedDeviceId p) (mutex p) (nextRef p) (told p ++ es).

(** Assignments to the fields of one entry. *)
Definition onObject (r : nat) (f : PooledDevice → PooledDevice) (p : Pool) : Pool :=
  match jget r (objects p) with Some d => with_objects (jset r (f d)) p | None => p end.

Definition isPooledEntryCurrent (r : nat) (d : PooledDevice) (p : Pool) : bool := bool_decide (jget (id d) (devices p) = Some r).

(** ** Selection *)

Section Step.
Context (env : Env).

Definition isIdleDeviceEligible (e : nat * PooledDevice) (forSessionId : option string) : bool :=
  isIdle e.2 && isPotentialAllocationSupply env e.1 && negb (isReservedForAssignment env e.1 forSessionId).

(** [idleDevices.sort((a, b) => a.lastUsedAt - b.lastUsedAt)], stable. *)
Fixpoint insertByUse (e : nat * PooledDevice) (l : list (nat * PooledDevice)) : list (nat * PooledDevice) :=
  match l with
  | [] => [e]
  | x :: l' => if lastUsedAt x.2 <=? lastUsedAt e.2 then x :: insertByUse e l' else e :: l
  end.
Definition sortByUse (l : list (nat * PooledDevice)) : list (nat * PooledDevice) := foldl (λ acc e, insertByUse e acc) [] l.

Definition selectIdleDevice (candidates : list (nat * PooledDevice)) (forSessionId : option string) (p : Pool) :
    option (nat * PooledDevice) :=
  let idleDevices := filter (λ e, isIdleDeviceEligible e forSessionId = true) candidates in
  match lastReleasedDeviceId p with
  | Some last =>
      if truthy last then
        match filter (λ e, id e.2 = last) idleDevices with
        | e :: _ => Some e
        | [] => head (sortByUse idleDevices)
        end
      else head (sortByUse idleDevices)
  | None => head (sortByUse idleDevices)
  end.
Definition isCurrentIdleDeviceAssignable (e : nat * PooledDevice) (forSessionId : option string) (p : Pool) : bool :=
  isPooledEntryCurrent e.1 e.2 p && bool_decide (holderOf e.2 = None) &&
  match selectIdleDevice [e] forSessionId p with Some _ => true | None => false end &&
  isPooledDeviceIdentityAssignable env e.1.

(** ** Claims *)

Inductive AssignError :=
| DeviceUnhealthyError | CleanupInProgress | AssignedToOtherSession | BindRefused.

(** The field writes of a claim, up to the first await of [createSessionOrRestore]. *)
Definition claim (r : nat) (d : PooledDevice) (session : string) (autolock resetErrors explicit : bool) (p : Pool) : Pool :=
  let snapshot := snapshotSessionAssignment d in
  let d := bindDevice session d in
  let d := mkDevice (id d) (platform d) (binding d) (nextLastUsedAt env) (assignmentCount d + 1)
    (if resetErrors then 0 else errorCount d) (if autolock then Some session else autolockSessionId d) in
  let p := with_objects (jset r d) p in
  let p := if truthy session then tell [CancellationDeferred session] p else p in
  with_mutex (InCreation (mkCreation r snapshot session explicit Creating)) p.
(** The turn that validates the selected device for the last time and claims it. *)
Definition claimSelectedDeviceForSession (session : string) (e : nat * PooledDevice) (autolock : bool) (p : Pool) :
    outcome AssignError () * Pool :=
  if getDeviceHealthMarker env (id e.2) then (Throws DeviceUnhealthyError, p)
  else (Returns (), claim e.1 e.2 session autolock true false p).

(** An explicit bind from its check of the pooled entry on.  [retained] is what
    [assertRetainedRebindOwner] asks of the caller's receipt; [pendingAfterLookup] is
    the cleanup pending once the holder was looked up, which can start the release of
    an expired session; [bindRefused] is what the checks on the caller's label and on
    the session to recover answer. *)
Inductive BindResult := Reused | Bound | EntryReplaced.
Definition assignDeviceToBoundSession (r : nat) (d : PooledDevice) (session : string) (p : Pool) :
    outcome AssignError BindResult * Pool :=
  if bindRefused env session (id d) then (Throws BindRefused, p)
  else (Returns Bound, claim r d session false true true p).
Definition explicitBind (r : nat) (d : PooledDevice) (session : string) (retained : bool) (p : Pool) :
    outcome AssignError BindResult * Pool :=
  if negb (isPooledEntryCurrent r d p) then (Returns EntryReplaced, p)
  else match getPendingDeviceCleanup env (id d) with
  | Some _ => (Throws CleanupInProgress, p)
  | None =>
      match holderOf d with
      | None => assignDeviceToBoundSession r d session p
      | Some holder =>
          if negb (truthy holder) then assignDeviceToBoundSession r d session p
          else match getSession env holder with
          | Some existing =>
              if bool_decide (assignedDevice env existing = id d) && bool_decide (sessionPlatform env existing = platform d)
              then (Returns Reused, p)
              else if bool_decide (s_id existing = session) && retained
              then assignDeviceToBoundSession r d session p
              else (Throws AssignedToOtherSession, p)
          | None =>
              match pendingAfterLookup env (id d) with
              | Some _ => (Throws CleanupInProgress, p)
              | None =>
                  let d := (unbindDevice None false d).2 in
                  assignDeviceToBoundSession r d session (tell [StateChanged (id d)] (with_objects (jset r d) p))
              end
          end
      end
  end.

(** ** The commit of a creation *)

Definition restoreIfHeld (c : Creation) (p : Pool) : Pool :=
  match jget (c_device c) (objects p) with
  | Some d =>
      if isPooledEntryCurrent (c_device c) d p && bool_decide (holderOf d = Some (c_session c))
      then onObject (c_device c) (restoreSessionAssignment (c_snapshot c)) p else p
  | None => p
  end.
(** The end of [createSessionOrRestore]; [held] when an allocation of several devices
    settles the cancellation. *)
Definition settle (c : Creation) (committed held : bool) (p : Pool) : Pool :=
  with_mutex Unlocked
    (if truthy (c_session c) && negb (committed && held) then tell [CancellationSettled (c_session c) committed] p else p).
(** The [catch] of [createSessionAndCommit]. *)
Definition creationFailed (c : Creation) (p : Pool) : Pool := settle c false false (restoreIfHeld c p).

Definition isSessionAssignmentCurrent (r : nat) (d : PooledDevice) (s : Session) (p : Pool) : bool :=
  isPooledEntryCurrent r d p && bool_decide (holderOf d = Some (s_id s)) && isBusy d &&
  bool_decide (getSession env (s_id s) = Some s).

(** [createSession()] resolved. *)
Definition sessionCreated (c : Creation) (s : Session) (held : bool) (p : Pool) : Pool :=
  match jget (c_device c) (objects p) with
  | None => p
  | Some d =>
      if bool_decide (assignedDevice env s ≠ id d) then
        let p := restoreIfHeld c p in
        let p := settle c true held p in
        if c_explicit c then tell [StateChanged (id d)] p
        else onObject (c_device c) (restoreSessionAssignment (c_snapshot c)) p
      else
        match getSession env (s_id s) with
        | Some current =>
            if bool_decide (current ≠ s) && bool_decide (assignedDevice env current = id d)
            then tell [StateChanged (id d)] (settle c true held p)
            else with_mutex (InCreation (with_phase (AwaitingRelease s) c)) p
        | None => with_mutex (InCreation (with_phase (AwaitingRelease s) c)) p
        end
  end.
(** [waitForSessionReleaseWithin] resolved. *)
Definition releaseAwaited (c : Creation) (s : Session) (settled held : bool) (p : Pool) : Pool :=
  match jget (c_device c) (objects p) with
  | None => p
  | Some d =>
      if negb settled then creationFailed c p
      else if negb (isSessionAssignmentCurrent (c_device c) d s p) then
        tell [SessionReleaseRequested (s_id s)] (with_mutex (InCreation (with_phase (Undoing s) c)) p)
      else
        let p := settle c true held (with_identities (jset (c_device c) s) p) in
        if negb (c_explicit c) && bool_decide (assignedDevice env s ≠ id d)
        then onObject (c_device c) (restoreSessionAssignment (c_snapshot c)) p
        else tell [StateChanged (id d)] p
  end.

(** ** Release *)

Definition isCapturedReleaseCurrent (r : nat) (d : PooledDevice) (expectedSessionId : string) (expectedCount : Z) (p : Pool) : bool :=
  isPooledEntryCurrent r d p && bool_decide (assignmentCount d = expectedCount) &&
  bool_decide (holderOf d = Some expectedSessionId) && truthy expectedSessionId.

Definition clearExpiredAutolockStateWhenIdle (session : string) (r : nat) (expectedCount : Z) (p : Pool) : Pool :=
  match jget r (objects p) with
  | Some d =>
      if isPooledEntryCurrent r d p && bool_decide (assignmentCount d = expectedCount) && bool_decide (holderOf d = None) &&
         bool_decide (autolockSessionId d = Some session)
      then onObject r (λ d, mkDevice (id d) (platform d) (binding d) (lastUsedAt d) (assignmentCount d) (errorCount d) None) p
      else p
  | None => p
  end.
Definition freeDevice (r : nat) (d : PooledDevice) (session : string) (expectedCount : Z) (p : Pool) : Pool :=
  let p := onObject r (λ d, let d := (unbindDevice None false d).2 in
    mkDevice (id d) (platform d) (binding d) (lastUsedAt d) (assignmentCount d) 0 (autolockSessionId d)) p in
  let p := clearExpiredAutolockStateWhenIdle session r expectedCount p in
  tell [ClaimReleased (id d); WaitersNotified; StateChanged (id d)] (with_lastReleased (Some (id d)) p).
Definition deferRelease (r : nat) (d : PooledDevice) (session : string) (expectedCount : Z) (cleanup : nat) (p : Pool) : Pool :=
  with_next (with_deferred (jset (id d) (mkDeferred (nextRef p) r session expectedCount cleanup)) p).
Definition releaseCapturedDevice (r : nat) (expectedSessionId : string) (expectedCount : Z) (p : Pool) : Pool :=
  match jget r (objects p) with
  | None => p
  | Some d =>
      if negb (isCapturedReleaseCurrent r d expectedSessionId expectedCount p) then p
      else
        let proceed p :=
          match getPendingDeviceCleanup env (id d) with
          | Some cleanup => deferRelease r d expectedSessionId expectedCount cleanup p
          | None => freeDevice r d expectedSessionId expectedCount p
          end in
        match jget (id d) (deferredDeviceReleases p) with
        | Some x =>
            if bool_decide (def_device x = r) && bool_decide (def_session x = expectedSessionId) &&
               bool_decide (def_count x = expectedCount)
            then p else proceed (with_deferred (jdel (id d)) p)
        | None => proceed p
        end
  end.
Definition releaseDevice (deviceId expectedSessionId : string) (p : Pool) : Pool :=
  let ordinary p :=
    match table_get (objects p) (devices p) deviceId with
    | Some (r, d) => releaseCapturedDevice r expectedSessionId (assignmentCount d) p
    | None => p
    end in
  match jget expectedSessionId (releasedDeviceCaptures p) with
  | Some capture =>
      if bool_decide (cap_deviceId capture = deviceId) then
        releaseCapturedDevice (cap_device capture) expectedSessionId (cap_count capture)
          (with_captures (jdel expectedSessionId) p)
      else ordinary p
  | None => ordinary p
  end.
Definition captureReleasedDevice (session deviceId : string) (p : Pool) : Pool :=
  match table_get (objects p) (devices p) deviceId with
  | Some (r, d) =>
      if bool_decide (holderOf d = Some session)
      then with_captures (jset session (mkCapture r deviceId (assignmentCount d))) p else p
  | None => p
  end.
(** The cleanup a deferred release waits for settled. *)
Definition cleanupSettled (deviceId : string) (x : DeferredRelease) (p : Pool) : Pool :=
  match jget deviceId (deferredDeviceReleases p), jget (def_device x) (objects p) with
  | Some x', Some d =>
      if bool_decide (def_object x' ≠ def_object x) || bool_decide (assignmentCount d ≠ def_count x) then p
      else releaseCapturedDevice (def_device x) (def_session x) (def_count x) (with_deferred (jdel deviceId) p)
  | _, _ => p
  end.

(** ** The rollback of an allocation *)

(** The head of the loop up to its await. *)
Fixpoint rollbackLoop (items : list (string * (string * Session))) (p : Pool) : Pool :=
  match items with
  | [] => with_mutex Unlocked p
  | (session, (deviceId, allocated)) :: rest =>
      match table_get (objects p) (devices p) deviceId with
      | None => rollbackLoop rest p
      | Some (r, d) =>
          if bool_decide (holderOf d ≠ Some session) then rollbackLoop rest p
          else if bool_decide (getSession env session ≠ Some allocated) then
            match getSession env session with
            | Some current =>
                if bool_decide (assignedDevice env current = deviceId) then rollbackLoop rest p
                else rollbackLoop rest (releaseDevice deviceId session p)
            | None => rollbackLoop rest (releaseDevice deviceId session p)
            end
          else if bool_decide (assignedDevice env allocated ≠ deviceId) then rollbackLoop rest (releaseDevice deviceId session p)
          else tell [SessionReleaseRequested session] (with_mutex (InRollback (mkRollback items true)) p)
      end
  end.
(** [releaseSession] of the head resolved. *)
Definition rollbackReleased (b : Rollback) (p : Pool) : Pool :=
  match todo b with
  | [] => with_mutex Unlocked p
  | (session, (deviceId, allocated)) :: rest =>
      match getSession env session with
      | Some replacement =>
          if bool_decide (assignedDevice env replacement = deviceId) then rollbackLoop rest p
          else rollbackLoop rest (releaseDevice deviceId session p)
      | None => rollbackLoop rest (releaseDevice deviceId session p)
      end
  end.
End Step.

(** ** Membership and errors *)

Definition MAX_DEVICE_ERRORS : Z := 5.
Definition newEntry (deviceId platform : string) (now : Z) : PooledDevice :=
  mkDevice deviceId platform (mkBinding None idle (Some ok)) now 0 0 None.
(** [initializeWithDevices], one device: the entry of a serial is replaced. *)
Definition initializeDevice (deviceId platform : string) (now : Z) (p : Pool) : Pool :=
  with_next (with_table (jset deviceId (nextRef p)) (with_objects (jset (nextRef p) (newEntry deviceId platform now)) p)).
Definition addDevice (deviceId platform : string) (now : Z) (p : Pool) : Pool :=
  match table_get (objects p) (devices p) deviceId with
  | None => initializeDevice deviceId platform now p
  | Some (r, d) =>
      if isErrored d && negb (truthy_opt (holderOf d)) then
        let d := clearDeviceError d in
        tell [StateChanged deviceId] (with_objects (jset r
          (mkDevice (id d) (DeviceBinding.platform d) (binding d) now (assignmentCount d) 0 (autolockSessionId d))) p)
      else p
  end.
Definition removeDevice (deviceId : string) (expectedDevice : option nat) (keepDeviceClaim : bool) (p : Pool) : Pool :=
  match table_get (objects p) (devices p) deviceId with
  | None => p
  | Some (r, d) =>
      if match expectedDevice with Some e => bool_decide (r ≠ e) | None => false end then p
      else if truthy_opt (holderOf d) then p
      else
        let p := with_table (jdel deviceId) p in
        let p := if keepDeviceClaim then p else tell [ClaimReleased deviceId] p in
        let p := with_deferred (jdel deviceId) p in
        let p := with_captures (filter (λ e, cap_deviceId e.2 ≠ deviceId)) p in
        if bool_decide (lastReleasedDeviceId p = Some deviceId) then with_lastReleased None p else p
  end.
Definition recordDeviceError (deviceId : string) (p : Pool) : Pool :=
  match table_get (objects p) (devices p) deviceId with
  | None => p
  | Some (r, d) =>
      let d := mkDevice (id d) (platform d) (binding d) (lastUsedAt d) (assignmentCount d) (errorCount d + 1) (autolockSessionId d) in
      if MAX_DEVICE_ERRORS <=? errorCount d
      then tell [StateChanged deviceId] (with_objects (jset r (markDeviceError d)) p)
      else with_objects (jset r d) p
  end.
Definition clearErrorCount (deviceId : string) (p : Pool) : Pool :=
  match table_get (objects p) (devices p) deviceId with
  | None => p
  | Some (r, d) =>
      with_objects (jset r (mkDevice (id d) (platform d) (binding d) (lastUsedAt d) (assignmentCount d) 0 (autolockSessionId d))) p
  end.

(** ** Steps *)

Inductive PoolOp :=
| Allocate (session : string) (device : nat) (autolock : bool)
| ExplicitBind (session : string) (device : nat) (retained : bool)
| CreationResolved (s : Session) (held : bool)
| CreationRejected
| ReleaseAwaited (settled held : bool)
| UndoSettled
| Release (deviceId session : string)
| ReleaseCaptured (device : nat) (session : string) (count : Z)
| Capture (session deviceId : string)
| DiscardCapture (session : string)
| CleanupSettled (deviceId : string) (x : DeferredRelease)
| StartRollback (items : list (string * (string * Session)))
| RollbackReleased
| RollbackRejected
| Initialize (deviceId platform : string) (now : Z)
| AddDevice (deviceId platform : string) (now : Z)
| Remove (deviceId : string) (expectedDevice : option nat) (keepDeviceClaim : bool)
| RecordError (deviceId : string)
| ClearErrors (deviceId : string)
(** [unbindDevice] with [status: "keep"], by the parts that handle a lost device. *)
| Detach (device : nat).

Definition step (env : Env) (op : PoolOp) (p : Pool) : Pool :=
  match op with
  | Allocate session r autolock =>
      match mutex p, jget r (objects p) with
      | Unlocked, Some d =>
          if isCurrentIdleDeviceAssignable env (r, d) (Some session) p
          then (claimSelectedDeviceForSession env session (r, d) autolock p).2 else p
      | _, _ => p
      end
  | ExplicitBind session r retained =>
      match mutex p, jget r (objects p) with
      | Unlocked, Some d => (explicitBind env r d session retained p).2
      | _, _ => p
      end
  | CreationResolved s held =>
      match mutex p with
      | InCreation (mkCreation _ _ _ _ Creating as c) => sessionCreated env c s held p
      | _ => p
      end
  | CreationRejected =>
      match mutex p with
      | InCreation (mkCreation _ _ _ _ Creating as c) => creationFailed c p
      | _ => p
      end
  | ReleaseAwaited settled held =>
      match mutex p with
      | InCreation (mkCreation _ _ _ _ (AwaitingRelease s) as c) => releaseAwaited env c s settled held p
      | _ => p
      end
  | UndoSettled =>
      match mutex p with
      | InCreation (mkCreation _ _ _ _ (Undoing _) as c) => creationFailed c p
      | _ => p
      end
  | Release deviceId session => releaseDevice env deviceId session p
  | ReleaseCaptured r session count => releaseCapturedDevice env r session count p
  | Capture session deviceId => captureReleasedDevice session deviceId p
  | DiscardCapture session => with_captures (jdel session) p
  | CleanupSettled deviceId x => cleanupSettled env deviceId x p
  | StartRollback items => match mutex p with Unlocked => rollbackLoop env items p | _ => p end
  | RollbackReleased => match mutex p with InRollback b => rollbackReleased env b p | _ => p end
  | RollbackRejected => match mutex p with InRollback _ => with_mutex Unlocked p | _ => p end
  | Initialize deviceId platform now => initializeDevice deviceId platform now p
  | AddDevice deviceId platform now => addDevice deviceId platform now p
  | Remove deviceId e keep => removeDevice deviceId e keep p
  | RecordError deviceId => recordDeviceError deviceId p
  | ClearErrors deviceId => clearErrorCount deviceId p
  | Detach r => onObject r (λ d, (unbindDevice None true d).2) p
  end.

(** Session UUIDs are not empty. *)
Definition named (op : PoolOp) : Prop :=
  match op with Allocate s _ _ | ExplicitBind s _ _ => truthy s = true | _ => True end.
(** The session manager keys its sessions by their UUID. *)
Definition env_ok (env : Env) : Prop := ∀ i s, getSession env i = Some s → s_id s = i.
Inductive later (p : Pool) : Pool → Prop :=
| later_now : later p p
| later_step env op p' : later p p' → env_ok env → named op → later p (step env op p').
Definition reachable (p : Pool) : Prop := later emptyPool p.
