(* ===== verification/DeviceAssignmentProofs.v ===== *)
(** * Invariants of device assignment

    Entries keep their serial, a claim in progress keeps what it needs to roll back,
    and how each operation changes the holder and the assignment count of an entry. *)
From Stdlib Require Import Strings.String.
From S2P Require Import Prelude JsString JsMap DeviceBinding DeviceAssignment.
From stdpp Require Import list sets.
Local Open Scope Z_scope.

Definition holder (p : Pool) (r : nat) : option string := d ← jget r (objects p); holderOf d.
Definition count (p : Pool) (r : nat) : option Z := assignmentCount <$> jget r (objects p).

(** ** Frames: operations that change one entry's binding at most *)

Lemma onObject_get r f p r' :
  jget r' (objects (onObject r f p)) = if decide (r' = r) then f <$> jget r (objects p) else jget r' (objects p).
Proof.
  unfold onObject. destruct (jget r (objects p)) as [d|] eqn:E; cbn [objects with_objects].
  - rewrite jget_set. repeat case_decide; subst; done.
  - case_decide; subst; [by rewrite E|done].
Qed.
Lemma onObject_other r f p :
  devices (onObject r f p) = devices p ∧ mutex (onObject r f p) = mutex p ∧ nextRef (onObject r f p) = nextRef p ∧
  releasedDeviceCaptures (onObject r f p) = releasedDeviceCaptures p ∧
  deferredDeviceReleases (onObject r f p) = deferredDeviceReleases p.
Proof. unfold onObject. by destruct (jget r (objects p)). Qed.

(** ** Operations that only free devices *)

Notation obj p r := (jget r (objects p)).
(** [session] held the entry, and nobody does now. *)
Definition freed (session : string) (o o' : option PooledDevice) : Prop :=
  ∃ d d', o = Some d ∧ o' = Some d' ∧ id d' = id d ∧ assignmentCount d' = assignmentCount d ∧
          holderOf d = Some session ∧ holderOf d' = None.
Record calm (who : string → Prop) (p p' : Pool) : Prop := {
  calm_devices : devices p' = devices p;
  calm_next : (nextRef p <= nextRef p')%nat;
  calm_obj : ∀ r, obj p' r = obj p r ∨ ∃ s, who s ∧ freed s (obj p r) (obj p' r) }.

Lemma calm_refl who p : calm who p p.
Proof. split; auto. Qed.
Lemma calm_trans who p1 p2 p3 : calm who p1 p2 → calm who p2 p3 → calm who p1 p3.
Proof.
  intros [D1 N1 O1] [D2 N2 O2]. split; [congruence|lia|]. intros r.
  destruct (O1 r) as [E1|(s1 & W1 & d1 & d1' & E1 & E1' & I1 & C1 & H1 & H1')],
    (O2 r) as [E2|(s2 & W2 & d2 & d2' & E2 & E2' & I2 & C2 & H2 & H2')].
  - left. congruence.
  - right. exists s2. split; [done|]. exists d2, d2'. rewrite <- E1. done.
  - right. exists s1. split; [done|]. exists d1, d1'. rewrite E2. done.
  - rewrite E1' in E2. injection E2 as <-. congruence.
Qed.
Lemma calm_weaken (who who' : string → Prop) p p' : (∀ s, who s → who' s) → calm who p p' → calm who' p p'.
Proof. intros H [D N O]. split; [done|done|]. intros r. destruct (O r) as [?|(s & W & F)]; [by left|right; eauto]. Qed.
Lemma calm_same who p p' : objects p' = objects p → devices p' = devices p → (nextRef p <= nextRef p')%nat → calm who p p'.
Proof. intros H1 H2 H3. split; [done|done|]. intros r. left. by rewrite H1. Qed.

(** A release frees the entry when it is the assignment it names, and nothing pends. *)
Lemma clear_autolock_get session r n p r' :
  obj (clearExpiredAutolockStateWhenIdle session r n p) r' = obj p r' ∨
  r' = r ∧ ∃ d, obj p r' = Some d ∧ obj (clearExpiredAutolockStateWhenIdle session r n p) r' =
    Some (mkDevice (id d) (platform d) (binding d) (lastUsedAt d) (assignmentCount d) (errorCount d) None).
Proof.
  unfold clearExpiredAutolockStateWhenIdle. destruct (obj p r) as [d|] eqn:E; [|by left]. destruct (_ && _); [|by left].
  rewrite onObject_get. case_decide as Hr; [subst r'; right; split; [done|]; exists d; by rewrite E|by left].
Qed.
Lemma clear_autolock_other session r n p :
  devices (clearExpiredAutolockStateWhenIdle session r n p) = devices p ∧
  mutex (clearExpiredAutolockStateWhenIdle session r n p) = mutex p ∧
  nextRef (clearExpiredAutolockStateWhenIdle session r n p) = nextRef p.
Proof.
  unfold clearExpiredAutolockStateWhenIdle. destruct (obj p r) as [d|]; [|done]. destruct (_ && _); [|done].
  match goal with |- context [onObject r ?f p] => pose proof (onObject_other r f p) as (? & ? & ? & _) end. done.
Qed.
Definition unheld (d : PooledDevice) : PooledDevice :=
  mkDevice (id d) (platform d) (mkBinding None idle (Some ok)) (lastUsedAt d) (assignmentCount d) 0 (autolockSessionId d).
Lemma freeDevice_get r d session n p r' :
  obj (freeDevice r d session n p) r' = obj p r' ∧ r' ≠ r ∨
  r' = r ∧ match obj p r with
           | None => obj (freeDevice r d session n p) r = None
           | Some d0 => ∃ a, obj (freeDevice r d session n p) r =
               Some (mkDevice (id d0) (platform d0) (mkBinding None idle (Some ok)) (lastUsedAt d0) (assignmentCount d0) 0 a)
           end.
Proof.
  unfold freeDevice. set (f := λ d, _). set (p1 := onObject r f p). cbn [objects tell with_lastReleased].
  assert (obj p1 r' = if decide (r' = r) then f <$> obj p r else obj p r') as E1 by apply onObject_get.
  destruct (decide (r' = r)) as [->|Hne].
  - right. split; [done|]. destruct (obj p r) as [d0|]; destruct (clear_autolock_get session r n p1 r) as [E|(_ & d1 & E & E')];
      cbn in E1.
    + eexists. rewrite E, E1. done.
    + rewrite E1 in E. injection E as <-. eexists. rewrite E'. done.
    + by rewrite E, E1.
    + congruence.
  - left. split; [|done]. destruct (clear_autolock_get session r n p1 r') as [E|[? _]]; [by rewrite E, E1|done].
Qed.
Lemma freeDevice_other r d session n p :
  devices (freeDevice r d session n p) = devices p ∧ mutex (freeDevice r d session n p) = mutex p ∧
  nextRef (freeDevice r d session n p) = nextRef p.
Proof.
  unfold freeDevice. cbn [devices mutex nextRef tell with_lastReleased].
  match goal with |- context [clearExpiredAutolockStateWhenIdle session r n ?q] =>
    pose proof (clear_autolock_other session r n q) as (-> & -> & ->) end.
  match goal with |- context [onObject r ?f p] => pose proof (onObject_other r f p) as (? & ? & ? & _) end. done.
Qed.

Section Env.
Context (env : Env).

Lemma releaseCaptured_calm r session n p :
  calm (λ s, s = session) p (releaseCapturedDevice env r session n p) ∧
  mutex (releaseCapturedDevice env r session n p) = mutex p ∧
  ∀ r', r' ≠ r → obj (releaseCapturedDevice env r session n p) r' = obj p r'.
Proof.
  unfold releaseCapturedDevice. destruct (obj p r) as [d|] eqn:E; [|split_and!; [apply calm_refl|done..]].
  destruct (isCapturedReleaseCurrent r d session n p) eqn:Hcur; cbn [negb]; [|split_and!; [apply calm_refl|done..]].
  unfold isCapturedReleaseCurrent in Hcur. rewrite !andb_true_iff, !bool_decide_eq_true in Hcur.
  destruct Hcur as [[[_ Hn] Hh] _].
  assert (∀ q, objects q = objects p → devices q = devices p → mutex q = mutex p → nextRef q = nextRef p →
    let q' := match getPendingDeviceCleanup env (id d) with
      | Some cleanup => deferRelease r d session n cleanup q | None => freeDevice r d session n q end in
    calm (λ s, s = session) p q' ∧ mutex q' = mutex p ∧ ∀ r', r' ≠ r → obj q' r' = obj p r') as H.
  { intros q Ho Hd Hm Hx. destruct (getPendingDeviceCleanup env (id d)) as [cleanup|].
    - split_and!; [apply calm_same; [done|done|cbn; lia]|done|]. intros r' _. cbn. by rewrite Ho.
    - cbn zeta. pose proof (freeDevice_other r d session n q) as (D & M & N). split_and!; [split|congruence|].
      + congruence.
      + lia.
      + intros r'. destruct (freeDevice_get r d session n q r') as [[-> _]|[-> Hf]]; [left; by rewrite Ho|].
        rewrite Ho, E in Hf. destruct Hf as (a & Hf). right. exists session. split; [done|]. rewrite E, Hf.
        eexists d, _. done.
      + intros r' Hne. destruct (freeDevice_get r d session n q r') as [[-> _]|[-> _]]; [by rewrite Ho|done]. }
  destruct (jget (id d) (deferredDeviceReleases p)) as [x|]; [destruct (_ && _)|].
  - split_and!; [apply calm_refl|done..].
  - by apply H.
  - by apply H.
Qed.
Lemma releaseDevice_calm i session p :
  calm (λ s, s = session) p (releaseDevice env i session p) ∧ mutex (releaseDevice env i session p) = mutex p.
Proof.
  assert (∀ q, calm (λ s, s = session) q
    match table_get (objects q) (devices q) i with
    | Some (r, d) => releaseCapturedDevice env r session (assignmentCount d) q | None => q end ∧
    mutex match table_get (objects q) (devices q) i with
    | Some (r, d) => releaseCapturedDevice env r session (assignmentCount d) q | None => q end = mutex q) as H.
  { intros q. destruct (table_get _ _ _) as [[r d]|]; [|split; [apply calm_refl|done]].
    destruct (releaseCaptured_calm r session (assignmentCount d) q) as (? & ? & _). done. }
  unfold releaseDevice. destruct (jget session (releasedDeviceCaptures p)) as [c|]; [|apply H].
  destruct (bool_decide _); [|apply H].
  destruct (releaseCaptured_calm (cap_device c) session (cap_count c) (with_captures (jdel session) p)) as (Hc & Hm & _).
  split; [|done]. destruct Hc as [D N O]. split; [done|done|]. exact O.
Qed.
Lemma cleanupSettled_calm i x p :
  calm (λ s, s = def_session x) p (cleanupSettled env i x p) ∧ mutex (cleanupSettled env i x p) = mutex p ∧
  ∀ r, r ≠ def_device x → obj (cleanupSettled env i x p) r = obj p r.
Proof.
  unfold cleanupSettled. destruct (jget i _) as [x'|]; [|split_and!; [apply calm_refl|done..]].
  destruct (obj p (def_device x)) as [d|]; [|split_and!; [apply calm_refl|done..]].
  destruct (_ || _); [split_and!; [apply calm_refl|done..]|].
  destruct (releaseCaptured_calm (def_device x) (def_session x) (def_count x) (with_deferred (jdel i) p)) as ([D N O] & Hm & Hr).
  split_and!; [split; done|done|done].
Qed.
Definition notCreating (m : Mutex) : Prop := match m with InCreation _ => False | _ => True end.
Lemma rollbackLoop_calm items p :
  calm (λ s, s ∈ items.*1) p (rollbackLoop env items p) ∧ notCreating (mutex (rollbackLoop env items p)).
Proof.
  revert p. induction items as [|[session [i a]] rest IH]; intros p; cbn [rollbackLoop]; [split; [by apply calm_same|done]|].
  assert (∀ q, calm (λ s, s = session) p q → calm (λ s, s ∈ ((session, (i, a)) :: rest).*1) p (rollbackLoop env rest q) ∧
    notCreating (mutex (rollbackLoop env rest q))) as H.
  { intros q Hq. destruct (IH q) as [Hc Hm]. split; [|done]. eapply calm_trans.
    - eapply calm_weaken; [|exact Hq]. intros s ->. cbn. by left.
    - eapply calm_weaken; [|exact Hc]. intros s Hs. cbn. by right. }
  pose proof (H p (calm_refl _ p)) as H0. pose proof (H _ (proj1 (releaseDevice_calm i session p))) as H1.
  destruct (table_get _ _ _) as [[r d]|]; [|done]. destruct (bool_decide (holderOf d ≠ _)); [done|].
  destruct (bool_decide (getSession env session ≠ _)).
  - destruct (getSession env session) as [c|]; [destruct (bool_decide _)|]; done.
  - destruct (bool_decide _); [done|]. split; [by apply calm_same|done].
Qed.
Lemma rollbackReleased_calm b p :
  calm (λ s, s ∈ (todo b).*1) p (rollbackReleased env b p) ∧ notCreating (mutex (rollbackReleased env b p)).
Proof.
  unfold rollbackReleased. destruct (todo b) as [|[session [i a]] rest]; [split; [by apply calm_same|done]|].
  assert (∀ q, calm (λ s, s = session) p q → calm (λ s, s ∈ ((session, (i, a)) :: rest).*1) p (rollbackLoop env rest q) ∧
    notCreating (mutex (rollbackLoop env rest q))) as H.
  { intros q Hq. destruct (rollbackLoop_calm rest q) as [Hc Hm]. split; [|done]. eapply calm_trans.
    - eapply calm_weaken; [|exact Hq]. intros s ->. cbn. by left.
    - eapply calm_weaken; [|exact Hc]. intros s Hs. cbn. by right. }
  pose proof (H p (calm_refl _ p)) as H0. pose proof (H _ (proj1 (releaseDevice_calm i session p))) as H1.
  destruct (getSession env session); [destruct (bool_decide _)|]; done.
Qed.
End Env.

(** ** The invariant *)

(** A creation in progress: nobody but its session holds the entry, its claim is one
    assignment after the snapshot, and the snapshot was taken from an entry that was
    free, or that the same session held. *)
Record creation_ok (p : Pool) (c : Creation) (d : PooledDevice) : Prop := {
  cr_named : truthy (c_session c) = true;
  cr_object : obj p (c_device c) = Some d;
  cr_count : assignmentCount d = snap_assignmentCount (c_snapshot c) + 1;
  cr_holder : holderOf d = None ∨ holderOf d = Some (c_session c);
  cr_snapshot : sessionId (snap_binding (c_snapshot c)) = None ∨ sessionId (snap_binding (c_snapshot c)) = Some (c_session c) }.
Record pool_ok (p : Pool) : Prop := {
  ok_refs : ∀ r d, obj p r = Some d → (r < nextRef p)%nat;
  ok_table : ∀ i r, jget i (devices p) = Some r → ∃ d, obj p r = Some d ∧ id d = i;
  ok_named : ∀ r d s, obj p r = Some d → holderOf d = Some s → truthy s = true;
  ok_creation : ∀ c, mutex p = InCreation c → ∃ d, creation_ok p c d }.
Lemma empty_ok : pool_ok emptyPool.
Proof. by split. Qed.

(** Every entry is still there, with the same serial and count, held as before or free. *)
Definition mild (p p' : Pool) : Prop :=
  ∀ r d, obj p r = Some d → ∃ d', obj p' r = Some d' ∧ id d' = id d ∧ assignmentCount d' = assignmentCount d ∧
    (holderOf d' = holderOf d ∨ holderOf d' = None).
Lemma calm_mild who p p' : calm who p p' → mild p p'.
Proof.
  intros [_ _ O] r d E. destruct (O r) as [->|(s & _ & d1 & d' & E1 & -> & I & C & _ & H)]; [by exists d; auto|].
  rewrite E in E1. injection E1 as <-. exists d'. auto.
Qed.
(** Entries that appear are new and free. *)
Definition grows (p p' : Pool) : Prop :=
  ∀ r d', obj p' r = Some d' → (r < nextRef p')%nat ∧ ((∃ d, obj p r = Some d) ∨ holderOf d' = None).
Lemma calm_grows who p p' : pool_ok p → calm who p p' → grows p p'.
Proof.
  intros Hok [_ N O] r d' E. destruct (O r) as [E1|(s & _ & d & d1 & E1 & _)].
  - rewrite E1 in E. split; [pose proof (ok_refs p Hok r d' E); lia|]. left. by exists d'.
  - split; [pose proof (ok_refs p Hok r d E1); lia|]. left. by exists d.
Qed.
Lemma mild_ok p p' :
  pool_ok p → mild p p' → grows p p' → (∀ i r, jget i (devices p') = Some r → ∃ d, obj p' r = Some d ∧ id d = i) →
  mutex p' = mutex p ∨ notCreating (mutex p') → pool_ok p'.
Proof.
  intros Hok Hm Hg Ht Hmx. split; [apply Hg|done| |].
  - intros r d' s E H. destruct (Hg r d' E) as [_ [(d & E0)|Hn]]; [|congruence].
    destruct (Hm r d E0) as (d1 & E1 & _ & _ & [Hh|Hh]); [|congruence]. rewrite E in E1. injection E1 as <-.
    apply (ok_named p Hok r d); congruence.
  - intros c Hc. destruct Hmx as [Hmx|Hmx]; [|by rewrite Hc in Hmx]. rewrite Hmx in Hc.
    destruct (ok_creation p Hok c Hc) as (d & [Hnm E Hn Hh Hs]). destruct (Hm _ _ E) as (d' & E' & _ & Hn' & Hh').
    exists d'. split; [done|done|congruence| |done]. destruct Hh' as [->| ->]; [done|by left].
Qed.
Lemma table_mild p p' :
  pool_ok p → mild p p' → devices p' = devices p → ∀ i r, jget i (devices p') = Some r → ∃ d, obj p' r = Some d ∧ id d = i.
Proof.
  intros Hok Hm Hd i r. rewrite Hd. intros Hi. destruct (ok_table p Hok i r Hi) as (d & E & <-).
  destruct (Hm r d E) as (d' & E' & I & _). by exists d'.
Qed.
Lemma calm_ok who p p' : pool_ok p → calm who p p' → mutex p' = mutex p ∨ notCreating (mutex p') → pool_ok p'.
Proof.
  intros Hok Hc. apply (mild_ok p); [done|by eapply calm_mild|by eapply calm_grows|].
  apply (table_mild p); [done|by eapply calm_mild|apply Hc].
Qed.

(** An update of one entry that keeps its serial and count, and its holder or frees it. *)
Lemma update_mild r f p :
  (∀ d, obj p r = Some d → id (f d) = id d ∧ assignmentCount (f d) = assignmentCount d ∧
    (holderOf (f d) = holderOf d ∨ holderOf (f d) = None)) → mild p (onObject r f p).
Proof.
  intros Hf r' d E. rewrite onObject_get. case_decide as Hr; [subst r'; rewrite E|exists d; auto].
  exists (f d). destruct (Hf d E) as (? & ? & ?). auto.
Qed.
Lemma entry_update_ok r f p p' :
  pool_ok p →
  (∀ d, obj p r = Some d → id (f d) = id d ∧ assignmentCount (f d) = assignmentCount d ∧
    (holderOf (f d) = holderOf d ∨ holderOf (f d) = None)) →
  objects p' = objects (onObject r f p) → devices p' = devices p → nextRef p' = nextRef p → mutex p' = mutex p → pool_ok p'.
Proof.
  intros Hok Hf Ho Hd Hn Hmx. pose proof (update_mild r f p Hf) as Hm.
  assert (mild p p') as Hm' by (unfold mild; by rewrite Ho). apply (mild_ok p); [done|done| |by apply (table_mild p)|by left].
  intros r' d'. rewrite Ho, Hn, onObject_get. case_decide as Hr; [subst r'|].
  - destruct (obj p r) as [d|] eqn:E; [|done]. intros [= <-]. split; [by eapply ok_refs|left; by exists d].
  - intros E. split; [by eapply ok_refs|left; by exists d'].
Qed.

(** ** Creations *)

Lemma restoreIfHeld_get c p r :
  obj (restoreIfHeld c p) r = obj p r ∨
  r = c_device c ∧ ∃ d, obj p r = Some d ∧ holderOf d = Some (c_session c) ∧ isPooledEntryCurrent r d p = true ∧
    obj (restoreIfHeld c p) r = Some (restoreSessionAssignment (c_snapshot c) d).
Proof.
  unfold restoreIfHeld. destruct (obj p (c_device c)) as [d|] eqn:E; [|by left]. destruct (_ && _) eqn:Hc; [|by left].
  apply andb_true_iff in Hc as [H1 H2%bool_decide_eq_true]. rewrite onObject_get. case_decide as Hr; [|by left].
  right. subst r. split; [done|]. exists d. by rewrite E.
Qed.
Lemma restoreIfHeld_other c p :
  devices (restoreIfHeld c p) = devices p ∧ mutex (restoreIfHeld c p) = mutex p ∧ nextRef (restoreIfHeld c p) = nextRef p.
Proof.
  unfold restoreIfHeld. destruct (obj p (c_device c)) as [d|]; [|done]. destruct (_ && _); [|done].
  pose proof (onObject_other (c_device c) (restoreSessionAssignment (c_snapshot c)) p) as (? & ? & ? & _). done.
Qed.
Lemma settle_frame c b h p :
  objects (settle c b h p) = objects p ∧ devices (settle c b h p) = devices p ∧ nextRef (settle c b h p) = nextRef p ∧
  mutex (settle c b h p) = Unlocked.
Proof. unfold settle. by destruct (_ && _). Qed.
Lemma restore_again snap d : restoreSessionAssignment snap (restoreSessionAssignment snap d) = restoreSessionAssignment snap d.
Proof. by destruct d. Qed.

(** What the turns of a creation do to its entry, and to the mutex. *)
Record creation_turn (c : Creation) (p p' : Pool) : Prop := {
  turn_devices : devices p' = devices p;
  turn_next : nextRef p' = nextRef p;
  turn_others : ∀ r, r ≠ c_device c → obj p' r = obj p r;
  turn_object : obj p' (c_device c) = obj p (c_device c) ∨
    mutex p' = Unlocked ∧ ∃ d, obj p (c_device c) = Some d ∧ obj p' (c_device c) = Some (restoreSessionAssignment (c_snapshot c) d);
  turn_mutex : mutex p' = Unlocked ∨ ∃ ph, mutex p' = InCreation (with_phase ph c) }.
Lemma failed_turn c p : creation_turn c p (creationFailed c p).
Proof.
  unfold creationFailed. destruct (settle_frame c false false (restoreIfHeld c p)) as (Ho & Hd & Hn & Hm).
  destruct (restoreIfHeld_other c p) as (Rd & _ & Rn). split; try (congruence || by left).
  - intros r Hr. rewrite Ho. by destruct (restoreIfHeld_get c p r) as [?|[? _]].
  - rewrite Ho, Hm. destruct (restoreIfHeld_get c p (c_device c)) as [?|(_ & d & E & _ & _ & E')]; [by left|].
    right. split; [done|]. by exists d.
Qed.
Lemma phase_turn c ph p es : creation_turn c p (tell es (with_mutex (InCreation (with_phase ph c)) p)).
Proof. split; try done; [by left|right; by exists ph]. Qed.
Lemma silent_phase_turn c ph p : creation_turn c p (with_mutex (InCreation (with_phase ph c)) p).
Proof. split; try done; [by left|right; by exists ph]. Qed.
Lemma committed_turn c b h p q es :
  objects q = objects p → devices q = devices p → nextRef q = nextRef p → creation_turn c p (tell es (settle c b h q)).
Proof.
  intros H1 H2 H3. destruct (settle_frame c b h q) as (Ho & Hd & Hn & Hm).
  split; cbn [tell devices objects nextRef mutex]; [congruence|congruence|intros r _; congruence|left; congruence|by left].
Qed.
(** A rollback after the commit's own, or of a session that moved meanwhile. *)
Lemma restored_turn c b h p q :
  (∀ r, r ≠ c_device c → obj q r = obj p r) →
  (obj q (c_device c) = obj p (c_device c) ∨
   ∃ d, obj p (c_device c) = Some d ∧ obj q (c_device c) = Some (restoreSessionAssignment (c_snapshot c) d)) →
  devices q = devices p → nextRef q = nextRef p →
  creation_turn c p (onObject (c_device c) (restoreSessionAssignment (c_snapshot c)) (settle c b h q)).
Proof.
  intros Hr Hc Hd Hn. destruct (settle_frame c b h q) as (Ho & Sd & Sn & Sm).
  pose proof (onObject_other (c_device c) (restoreSessionAssignment (c_snapshot c)) (settle c b h q)) as (Od & Om & On & _).
  split; [congruence|congruence| | |left; congruence].
  - intros r Hne. rewrite onObject_get, decide_False by done. rewrite Ho. by apply Hr.
  - rewrite onObject_get, decide_True, Ho by done. destruct Hc as [->|(d & E & ->)].
    + destruct (obj p (c_device c)) as [d|] eqn:E; [|by left]. right. split; [congruence|]. by exists d.
    + right. split; [congruence|]. exists d. split; [done|]. cbn. by rewrite restore_again.
Qed.

Lemma created_turn env c s h p : mutex p = InCreation c → creation_turn c p (sessionCreated env c s h p).
Proof.
  intros Hmx. unfold sessionCreated. destruct (obj p (c_device c)) as [d|] eqn:E.
  2:{ split; try done; [by left|right; exists (c_phase c); by destruct c]. }
  destruct (bool_decide _).
  - destruct (restoreIfHeld_other c p) as (Rd & _ & Rn).
    assert (∀ r, r ≠ c_device c → obj (restoreIfHeld c p) r = obj p r) as Hr.
    { intros r Hr. by destruct (restoreIfHeld_get c p r) as [?|[? _]]. }
    assert (obj (restoreIfHeld c p) (c_device c) = obj p (c_device c) ∨ ∃ d0, obj p (c_device c) = Some d0 ∧
      obj (restoreIfHeld c p) (c_device c) = Some (restoreSessionAssignment (c_snapshot c) d0)) as Hc.
    { destruct (restoreIfHeld_get c p (c_device c)) as [?|(_ & d0 & E0 & _ & _ & E')]; [by left|right; by exists d0]. }
    destruct (c_explicit c); [|by apply restored_turn].
    destruct (settle_frame c true h (restoreIfHeld c p)) as (Ho & Hd & Hn & Hm).
    split; cbn [tell devices objects nextRef mutex]; [congruence|congruence|intros r Hne; rewrite Ho; by apply Hr| |by left].
    rewrite Ho, Hm. destruct Hc as [?|?]; [by left|right; by split].
  - destruct (getSession env (s_id s)) as [cur|]; [destruct (_ && _)|]; [by apply committed_turn|apply silent_phase_turn..].
Qed.
Lemma awaited_turn env c s b h p : mutex p = InCreation c → creation_turn c p (releaseAwaited env c s b h p).
Proof.
  intros Hmx. unfold releaseAwaited. destruct (obj p (c_device c)) as [d|] eqn:E.
  2:{ split; try done; [by left|right; exists (c_phase c); by destruct c]. }
  destruct b; cbn [negb]; [|apply failed_turn]. destruct (negb _); [apply phase_turn|].
  destruct (_ && _); [apply restored_turn; auto|by apply committed_turn].
Qed.

Lemma creation_turn_ok c p p' : pool_ok p → mutex p = InCreation c → creation_turn c p p' → pool_ok p'.
Proof.
  intros Hok Hmx [Td Tn Tr To Tm]. destruct (ok_creation p Hok c Hmx) as (d & [Ht E Hn Hh Hs]). rewrite E in To.
  assert (∀ r d', obj p' r = Some d' → obj p r = Some d' ∨
    r = c_device c ∧ mutex p' = Unlocked ∧ d' = restoreSessionAssignment (c_snapshot c) d) as Hobj.
  { intros r d' E'. destruct (decide (r = c_device c)) as [->|Hr]; [|left; by rewrite <- Tr].
    destruct To as [To|(Hu & d0 & [= <-] & To)]; [left; congruence|right]. rewrite To in E'. by injection E' as <-. }
  split.
  - intros r d' E'. rewrite Tn. destruct (Hobj r d' E') as [E0|(-> & _ & _)]; by eapply ok_refs.
  - intros i r. rewrite Td. intros Hi. destruct (ok_table p Hok i r Hi) as (d0 & E0 & <-).
    destruct (decide (r = c_device c)) as [->|Hr]; [|exists d0; by rewrite Tr].
    rewrite E in E0. injection E0 as <-. destruct To as [->|(_ & d1 & [= <-] & ->)]; by eexists.
  - intros r d' s E' Hd'. destruct (Hobj r d' E') as [E0|(-> & _ & ->)]; [by eapply ok_named|].
    cbn in Hd'. destruct Hs as [Hs|Hs]; rewrite Hs in Hd'; [done|]. by injection Hd' as <-.
  - intros c' Hc'. destruct Tm as [Tm|(ph & Tm)]; [congruence|]. rewrite Tm in Hc'. injection Hc' as <-. exists d.
    split; try done. cbn. destruct To as [To|(Hu & _)]; congruence.
Qed.

(** A claim: one more assignment, in progress. *)
Lemma claim_ok env r d d0 session a e x p :
  pool_ok p → obj p r = Some d0 → id d = id d0 → holderOf d = None ∨ holderOf d = Some session →
  truthy session = true → pool_ok (claim env r d session a e x p).
Proof.
  intros Hok E Hi Hh Ht. unfold claim. rewrite Ht. split; cbn.
  - intros r' d'. rewrite jget_set. case_decide; [intros _; subst; by eapply ok_refs|by eapply ok_refs].
  - intros i r' Hi'. destruct (ok_table p Hok i r' Hi') as (d1 & E1 & <-). rewrite jget_set. case_decide; [|by exists d1].
    subst r'. rewrite E in E1. injection E1 as <-. by eexists.
  - intros r' d' s. rewrite jget_set. case_decide; [intros [= <-]; cbn; by intros [= <-]|by eapply ok_named].
  - intros c [= <-]. eexists. split; cbn; [done|rewrite jget_set, decide_True by done; reflexivity|done|by right|exact Hh].
Qed.

(** ** Every operation keeps the invariant *)

Lemma table_get_spec p i r d :
  pool_ok p → table_get (objects p) (devices p) i = Some (r, d) → jget i (devices p) = Some r ∧ obj p r = Some d ∧ id d = i.
Proof.
  intros Hok. unfold table_get. destruct (jget i (devices p)) as [r'|] eqn:Hi; [|done]. cbn.
  destruct (obj p r') as [d'|] eqn:E; [|done]. cbn. intros [= <- <-].
  destruct (ok_table p Hok i r' Hi) as (d0 & E0 & <-). split_and!; [done|done|congruence].
Qed.
Lemma initialize_ok i pl now p : pool_ok p → pool_ok (initializeDevice i pl now p).
Proof.
  intros Hok. split; cbn.
  - intros r d. rewrite jget_set. case_decide; [lia|]. intros E. pose proof (ok_refs p Hok r d E). lia.
  - intros j r. rewrite !jget_set. case_decide as Hj; [intros [= <-]; rewrite decide_True by done; subst; by eexists|].
    intros Hr. destruct (ok_table p Hok j r Hr) as (d & E & <-). case_decide as Hx; [|by exists d].
    subst r. pose proof (ok_refs p Hok _ d E). lia.
  - intros r d s. rewrite jget_set. case_decide; [by intros [= <-]|by apply (ok_named p Hok)].
  - intros c Hc. destruct (ok_creation p Hok c Hc) as (d & [Ht E Hn Hh Hs]). exists d. split; try done. cbn. rewrite jget_set.
    case_decide as Hx; [|done]. pose proof (ok_refs p Hok _ d E). lia.
Qed.
Lemma set_is_update r d d' p : obj p r = Some d → jset r d' (objects p) = objects (onObject r (λ _, d') p).
Proof. intros E. unfold onObject. by rewrite E. Qed.

(** An explicit bind does nothing, claims the entry for a session that may take it, or
    finds the holder's session gone. *)
Lemma assign_cases (P : Pool → Prop) env r d session q :
  P q → P (claim env r d session false true true q) → P (assignDeviceToBoundSession env r d session q).2.
Proof. intros H1 H2. unfold assignDeviceToBoundSession. by destruct (bindRefused env session (id d)). Qed.
Lemma explicit_cases env r d session ret p (P : Pool → Prop) :
  env_ok env → pool_ok p → obj p r = Some d → P p →
  (holderOf d = None ∨ holderOf d = Some session → P (claim env r d session false true true p)) →
  (∀ h, holderOf d = Some h → getSession env h = None → getPendingDeviceCleanup env (id d) = None →
    pendingAfterLookup env (id d) = None →
    let d1 := (unbindDevice None false d).2 in let q := tell [StateChanged (id d)] (with_objects (jset r d1) p) in
    P q ∧ P (claim env r d1 session false true true q)) →
  P (explicitBind env r d session ret p).2.
Proof.
  intros He Hok E H0 Hc Hf. unfold explicitBind. destruct (negb _); [done|].
  destruct (getPendingDeviceCleanup _ _) eqn:Hp; [done|]. destruct (holderOf d) as [h|] eqn:Hh; [|apply assign_cases; auto].
  destruct (negb (truthy h)) eqn:Hth; [pose proof (ok_named p Hok r d h E Hh) as Hx; by rewrite Hx in Hth|].
  destruct (getSession env h) as [ex|] eqn:Hg.
  - destruct (_ && _); [done|]. destruct (bool_decide _ && _) eqn:Hr; [|done].
    apply andb_true_iff in Hr as [Hs%bool_decide_eq_true _]. apply He in Hg. apply assign_cases; [done|].
    apply Hc. right. congruence.
  - destruct (pendingAfterLookup _ _) eqn:Hl; [done|]. destruct (Hf h eq_refl Hg eq_refl eq_refl). by apply assign_cases.
Qed.
Lemma explicit_ok env r d session ret p :
  env_ok env → truthy session = true → pool_ok p → obj p r = Some d → pool_ok (explicitBind env r d session ret p).2.
Proof.
  intros He Ht Hok E. apply explicit_cases; [done..| |].
  - intros Hh. by apply (claim_ok _ _ _ d).
  - intros h _ _ _ _ d1 q.
    assert (pool_ok q) as Hq.
    { apply (entry_update_ok r (λ _, d1) p); [done| |by apply (set_is_update _ d)|done|done|done].
      intros d0 E0. rewrite E in E0. injection E0 as <-. split_and!; [done|done|by right]. }
    split; [done|]. apply (claim_ok env r d1 d1); [done|cbn; by rewrite jget_set, decide_True by done|done|by left|done].
Qed.
Lemma captures_ok f p : pool_ok p → pool_ok (with_captures f p).
Proof. intros Hok. eapply (calm_ok (λ _, False)); [done|by apply calm_same|by left]. Qed.

Lemma add_ok i pl now p : pool_ok p → pool_ok (addDevice i pl now p).
Proof.
  intros Hok. unfold addDevice. destruct (table_get _ _ _) as [[r d]|] eqn:Hg; [|by apply initialize_ok].
  destruct (table_get_spec p i r d Hok Hg) as (_ & E & _). destruct (_ && _); [|done].
  eapply (entry_update_ok r); [exact Hok| |by apply (set_is_update _ d)|done|done|done].
  intros d0 E0. rewrite E in E0. injection E0 as <-. split_and!; [done|done|by left].
Qed.
Lemma remove_ok i e k p : pool_ok p → pool_ok (removeDevice i e k p).
Proof.
  intros Hok. unfold removeDevice. destruct (table_get _ _ _) as [[r d]|] eqn:Hg; [|done].
  destruct (match e with Some _ => _ | None => _ end); [done|]. destruct (truthy_opt (holderOf d)); [done|].
  assert (∀ q, objects q = objects p → devices q = jdel i (devices p) → nextRef q = nextRef p → mutex q = mutex p → pool_ok q) as H.
  { intros q Ho Hd Hn Hm. destruct Hok as [H1 H2 H3 H4]. split; rewrite ?Ho, ?Hd, ?Hn, ?Hm; try done.
    - intros j r'. rewrite jget_del. case_decide; [done|]. apply H2.
    - intros c Hc. destruct (H4 c Hc) as (d0 & [? ? ? ? ?]). exists d0. split; try done. by rewrite Ho. }
  destruct k, (bool_decide _); by apply H.
Qed.
Lemma error_ok i p : pool_ok p → pool_ok (recordDeviceError i p).
Proof.
  intros Hok. unfold recordDeviceError. destruct (table_get _ _ _) as [[r d]|] eqn:Hg; [|done].
  destruct (table_get_spec p i r d Hok Hg) as (_ & E & _).
  destruct (_ <=? _); (eapply (entry_update_ok r); [exact Hok| |by apply (set_is_update _ d)|done|done|done]);
    intros d0 E0; rewrite E in E0; injection E0 as <-; split_and!; [done|done|by left|done|done|by left].
Qed.
Lemma clear_ok i p : pool_ok p → pool_ok (clearErrorCount i p).
Proof.
  intros Hok. unfold clearErrorCount. destruct (table_get _ _ _) as [[r d]|] eqn:Hg; [|done].
  destruct (table_get_spec p i r d Hok Hg) as (_ & E & _).
  eapply (entry_update_ok r); [exact Hok| |by apply (set_is_update _ d)|done|done|done].
  intros d0 E0. rewrite E in E0. injection E0 as <-. split_and!; [done|done|by left].
Qed.

Lemma assignable_holder env r d s p : isCurrentIdleDeviceAssignable env (r, d) s p = true → holderOf d = None.
Proof. unfold isCurrentIdleDeviceAssignable. rewrite !andb_true_iff, bool_decide_eq_true. cbn. tauto. Qed.

Lemma assignment_step_ok env op p : env_ok env → named op → pool_ok p → pool_ok (step env op p).
Proof.
  intros He Hn Hok. destruct op; cbn [step named] in *.
  - destruct (mutex p) eqn:Hm; try done. destruct (obj p device) as [d|] eqn:E; [|done].
    destruct (isCurrentIdleDeviceAssignable _ _ _ _) eqn:Ha; [|done]. unfold claimSelectedDeviceForSession.
    destruct (getDeviceHealthMarker env _); [done|]. apply (claim_ok _ _ _ d); try done. left. by eapply assignable_holder.
  - destruct (mutex p); try done. destruct (obj p device) as [d|] eqn:E; [|done]. by apply explicit_ok.
  - destruct (mutex p) as [|[? ? ? ? []]|] eqn:Hm; try done. eapply creation_turn_ok; [done|done|by apply created_turn].
  - destruct (mutex p) as [|[? ? ? ? []]|] eqn:Hm; try done. eapply creation_turn_ok; [done|done|apply failed_turn].
  - destruct (mutex p) as [|[? ? ? ? []]|] eqn:Hm; try done. eapply creation_turn_ok; [done|done|by apply awaited_turn].
  - destruct (mutex p) as [|[? ? ? ? []]|] eqn:Hm; try done. eapply creation_turn_ok; [done|done|apply failed_turn].
  - destruct (releaseDevice_calm env deviceId session p) as [Hc Hm]. eapply calm_ok; [done|done|by left].
  - destruct (releaseCaptured_calm env device session count0 p) as (Hc & Hm & _). eapply calm_ok; [done|done|by left].
  - unfold captureReleasedDevice. destruct (table_get _ _ _) as [[r d]|]; [|done]. destruct (bool_decide _); [by apply captures_ok|done].
  - by apply captures_ok.
  - destruct (cleanupSettled_calm env deviceId x p) as (Hc & Hm & _). eapply calm_ok; [done|done|by left].
  - destruct (mutex p); try done. destruct (rollbackLoop_calm env items p). eapply calm_ok; [done|done|by right].
  - destruct (mutex p) as [| |b] eqn:Hm; try done. destruct (rollbackReleased_calm env b p). eapply calm_ok; [done|done|by right].
  - destruct (mutex p) as [| |b] eqn:Hm; try done. eapply (calm_ok (λ _, False)); [done|by apply calm_same|by right].
  - by apply initialize_ok.
  - by apply add_ok.
  - by apply remove_ok.
  - by apply error_ok.
  - by apply clear_ok.
  - eapply (entry_update_ok device); [exact Hok| |done|apply onObject_other..]. intros d _. split_and!; [done|done|by right].
Qed.
Lemma later_ok p p' : pool_ok p → later p p' → pool_ok p'.
Proof. intros Hok. induction 1 as [|env op p' _ IH He Hn]; [done|by apply assignment_step_ok]. Qed.
Lemma reachable_ok p : reachable p → pool_ok p.
Proof. apply later_ok, empty_ok. Qed.
