(* ===== verification/DeviceAssignmentProperties.v ===== *)
(** * Properties of device assignment

    No session loses its device to another, a release frees exactly the assignment it
    is about, a failed claim leaves no trace, and devices are chosen as intended. *)
From Stdlib Require Import Strings.String.
From S2P Require Import Prelude JsString JsMap DeviceBinding DeviceAssignment DeviceAssignmentProofs.
From stdpp Require Import list sets.
Local Open Scope Z_scope.

(** ** Who may end an assignment *)

(** The operations that may take an entry from the session that holds it: a release
    or a rollback in that session's name, the failure of its own creation, the loss of
    the device. *)
Definition ends (op : PoolOp) (p : Pool) (r : nat) (session : string) : Prop :=
  match op with
  | Release _ s => s = session
  | ReleaseCaptured r' s _ => r' = r ∧ s = session
  | CleanupSettled _ x => def_device x = r ∧ def_session x = session
  | StartRollback items => mutex p = Unlocked ∧ session ∈ items.*1
  | RollbackReleased => ∃ b, mutex p = InRollback b ∧ session ∈ (todo b).*1
  | CreationResolved _ _ | CreationRejected | ReleaseAwaited _ _ | UndoSettled =>
      ∃ c, mutex p = InCreation c ∧ c_device c = r ∧ c_session c = session ∧ sessionId (snap_binding (c_snapshot c)) = None
  | Detach r' => r' = r
  | _ => False
  end.

Lemma holder_calm who p p' r s :
  calm who p p' → holder p r = Some s → holder p' r = Some s ∨ holder p' r = None ∧ who s.
Proof.
  intros [_ _ O] H. unfold holder in *. destruct (O r) as [->|(s' & W & d & d' & E & -> & _ & _ & Hd & Hd')]; [by left|].
  right. rewrite E in H. cbn in *. split; [done|]. congruence.
Qed.
Lemma calm_elsewhere p p' r r' s :
  (∀ x, x ≠ r' → jget x (objects p') = jget x (objects p)) → r ≠ r' → holder p r = Some s → holder p' r = Some s.
Proof. intros H Hne. unfold holder. by rewrite (H r Hne). Qed.
Lemma holder_turn c p p' r s :
  pool_ok p → mutex p = InCreation c → creation_turn c p p' → holder p r = Some s →
  holder p' r = Some s ∨ holder p' r = None ∧ c_device c = r ∧ c_session c = s ∧ sessionId (snap_binding (c_snapshot c)) = None.
Proof.
  intros Hok Hm [_ _ Tr To _] H. destruct (ok_creation p Hok c Hm) as (d & [_ E _ Hh Hs]).
  destruct (decide (r = c_device c)) as [->|Hr]; [|left; unfold holder; by rewrite Tr].
  unfold holder in *. rewrite E in H. cbn in H. destruct To as [->|(_ & d1 & E1 & ->)]; [left; by rewrite E|].
  rewrite E in E1. injection E1 as <-. cbn. unfold holderOf. cbn. destruct Hh as [Hh|Hh]; [congruence|]. rewrite Hh in H.
  injection H as <-. destruct Hs as [Hs|Hs]; rewrite Hs; [by right|by left].
Qed.
Lemma holder_claim env r d session a e x p r' :
  holder (claim env r d session a e x p) r' = if decide (r' = r) then Some session else holder p r'.
Proof.
  unfold claim, holder. destruct (truthy session); cbn; rewrite jget_set; repeat case_decide; subst; done.
Qed.

(** The operations of the table keep every holder and count. *)
Definition kept (p p' : Pool) (r : nat) : Prop :=
  ∀ d, jget r (objects p) = Some d → ∃ d', jget r (objects p') = Some d' ∧ assignmentCount d' = assignmentCount d ∧
    holderOf d' = holderOf d.
Lemma kept_same p p' r : jget r (objects p') = jget r (objects p) → kept p p' r.
Proof. intros H d E. exists d. by rewrite H. Qed.
Lemma kept_set r d d' p p' r' :
  jget r (objects p) = Some d → objects p' = jset r d' (objects p) → assignmentCount d' = assignmentCount d →
  holderOf d' = holderOf d → kept p p' r'.
Proof.
  intros E Ho Hc Hd d0 E0. rewrite Ho, jget_set. case_decide as Hr; [subst r'|by exists d0].
  rewrite E in E0. injection E0 as <-. by exists d'.
Qed.
Definition onTable (op : PoolOp) : Prop :=
  match op with Initialize _ _ _ | AddDevice _ _ _ | Remove _ _ _ | RecordError _ | ClearErrors _ => True | _ => False end.
Lemma membership_keeps env op p r : pool_ok p → onTable op → kept p (step env op p) r ∧ mutex (step env op p) = mutex p.
Proof.
  intros Hok Hop.
  assert (∀ i pl now, kept p (initializeDevice i pl now p) r) as Hi.
  { intros i pl now d E. cbn. rewrite jget_set. case_decide as Hx; [|by exists d].
    subst r. pose proof (ok_refs p Hok _ d E). lia. }
  destruct op; try done; cbn [step].
  - split; [apply Hi|done].
  - unfold addDevice. destruct (table_get _ _ _) as [[r' d]|] eqn:Hg; [|split; [apply Hi|done]].
    destruct (table_get_spec p _ r' d Hok Hg) as (_ & E & _). destruct (_ && _); [|by split; [apply kept_same|]].
    split; [|done]. eapply (kept_set r' d _ p); [exact E|reflexivity|done|done].
  - unfold removeDevice. split; [apply kept_same|]; repeat case_match; done.
  - unfold recordDeviceError. destruct (table_get _ _ _) as [[r' d]|] eqn:Hg; [|by split; [apply kept_same|]].
    destruct (table_get_spec p _ r' d Hok Hg) as (_ & E & _).
    destruct (_ <=? _); (split; [eapply (kept_set r' d _ p); [exact E|reflexivity|done|done]|done]).
  - unfold clearErrorCount. destruct (table_get _ _ _) as [[r' d]|] eqn:Hg; [|by split; [apply kept_same|]].
    destruct (table_get_spec p _ r' d Hok Hg) as (_ & E & _). split; [eapply (kept_set r' d _ p); [exact E|reflexivity|done|done]|done].
Qed.
Lemma holder_membership env op p r s :
  pool_ok p → holder p r = Some s → onTable op → holder (step env op p) r = Some s.
Proof.
  intros Hok H Hop. destruct (membership_keeps env op p r Hok Hop) as [Hk _]. unfold holder in *.
  destruct (jget r (objects p)) as [d|] eqn:E; [|done]. destruct (Hk d E) as (d' & -> & _ & Hh). cbn in *. congruence.
Qed.

Lemma holder_explicit env r d session ret p r' s :
  env_ok env → pool_ok p → jget r (objects p) = Some d → holder p r' = Some s →
  holder (explicitBind env r d session ret p).2 r' = Some s ∨
  r' = r ∧ getSession env s = None ∧ pendingAfterLookup env (id d) = None ∧
  (holder (explicitBind env r d session ret p).2 r' = Some session ∨ holder (explicitBind env r d session ret p).2 r' = None).
Proof.
  intros He Hok E H. assert (r' = r → holderOf d = Some s) as Hd by (intros ->; unfold holder in H; by rewrite E in H).
  apply (explicit_cases env r d session ret p); [done..|by left| |].
  - intros Hh. rewrite holder_claim. case_decide as Hx; [left; destruct Hh; specialize (Hd Hx); congruence|by left].
  - intros h Hh Hg _ Hl d1 q. assert (holder q r' = if decide (r' = r) then None else Some s) as Hq.
    { unfold holder in *. cbn. rewrite jget_set. case_decide; [subst r'; by rewrite decide_True by done|].
      by rewrite decide_False by congruence. }
    rewrite holder_claim, Hq. destruct (decide (r' = r)) as [Hx|]; [|by split; left]. specialize (Hd Hx).
    assert (s = h) as -> by congruence. split; right; auto.
Qed.


(** ** Generations *)

(** The count an entry falls back to when the claim in progress fails; whether the
    entry is free, or is being claimed from being free. *)
Definition base (p : Pool) (r : nat) : option Z :=
  match mutex p with
  | InCreation c => if decide (c_device c = r) then Some (snap_assignmentCount (c_snapshot c)) else count p r
  | _ => count p r
  end.
Definition fresh (p : Pool) (r : nat) : Prop :=
  match mutex p with
  | InCreation c => if decide (c_device c = r) then sessionId (snap_binding (c_snapshot c)) = None else holder p r = None
  | _ => holder p r = None
  end.
Definition advances (p p' : Pool) (r : nat) : Prop :=
  ∀ n, base p r = Some n → ∃ n', base p' r = Some n' ∧ (n + 1 <= n' ∨ n' = n ∧ (fresh p r → fresh p' r)).

Lemma mild_advances p p' r :
  mild p p' → mutex p' = mutex p ∨ notCreating (mutex p) ∧ notCreating (mutex p') → advances p p' r.
Proof.
  intros Hm Hmx n. assert (∀ n, count p r = Some n → count p' r = Some n) as Hc.
  { intros k. unfold count. destruct (jget r (objects p)) as [d|] eqn:E; [|done].
    destruct (Hm r d E) as (d' & -> & _ & Hn & _). cbn. congruence. }
  assert (is_Some (count p r) → holder p r = None → holder p' r = None) as Hh.
  { intros [k Hk]. unfold holder, count in *. destruct (jget r (objects p)) as [d|] eqn:E; [|done].
    destruct (Hm r d E) as (d' & -> & _ & _ & [Hd|Hd]); cbn; congruence. }
  intros Hb. exists n. unfold base, fresh in *. destruct Hmx as [->|[H1 H2]].
  - destruct (mutex p) as [|c|]; [split; [by apply Hc|right; split; [done|apply Hh; by eexists]]| |
      split; [by apply Hc|right; split; [done|apply Hh; by eexists]]].
    destruct (decide (c_device c = r)); [split; [done|by right]|]. split; [by apply Hc|right; split; [done|apply Hh; by eexists]].
  - destruct (mutex p) as [|c|], (mutex p') as [|c'|]; try done; (split; [by apply Hc|right; split; [done|apply Hh; by eexists]]).
Qed.
Lemma kept_mild p p' : (∀ r, kept p p' r) → (∀ r d d', jget r (objects p) = Some d → jget r (objects p') = Some d' → id d' = id d) →
  mild p p'.
Proof. intros Hk Hi r d E. destruct (Hk r d E) as (d' & E' & Hc & Hh). exists d'. split_and!; eauto. Qed.
Lemma kept_advances p p' r : kept p p' r → mutex p' = mutex p → advances p p' r.
Proof.
  intros Hk Hmx n Hb. exists n. unfold base, fresh, count, holder in *. rewrite Hmx.
  destruct (mutex p) as [|c|]; [|destruct (decide (c_device c = r)); [split; [done|by right]|]|];
    (destruct (jget r (objects p)) as [d|] eqn:E; [|done]; destruct (Hk d E) as (d' & -> & Hc & Hh); cbn in *;
     split; [congruence|right; split; [done|congruence]]).
Qed.
Lemma claim_advances env r d d0 session a e x p r' :
  mutex p = Unlocked → jget r (objects p) = Some d0 → assignmentCount d = assignmentCount d0 →
  holderOf d = holderOf d0 ∨ holderOf d = None → advances p (claim env r d session a e x p) r'.
Proof.
  intros Hm E Hc Hh n Hb. exists n. unfold base, fresh in *. rewrite Hm in *.
  assert (mutex (claim env r d session a e x p) = InCreation (mkCreation r (snapshotSessionAssignment d) session x Creating)) as -> by done.
  cbn [c_device c_snapshot]. destruct (decide (r = r')) as [<-|Hr].
  - unfold count in Hb. rewrite E in Hb. cbn in Hb. split; [cbn; congruence|]. right. split; [done|]. unfold holder. rewrite E. cbn.
    intros H. destruct Hh as [Hh|Hh]; unfold holderOf in *; congruence.
  - assert (jget r' (objects (claim env r d session a e x p)) = jget r' (objects p)) as E'.
    { unfold claim. destruct (truthy session); cbn; by rewrite jget_set, decide_False by congruence. }
    unfold count, holder in *. rewrite E'. split; [done|by right].
Qed.
Lemma turn_advances c p p' r : pool_ok p → mutex p = InCreation c → creation_turn c p p' → advances p p' r.
Proof.
  intros Hok Hm [_ _ Tr To Tm] n Hb. destruct (ok_creation p Hok c Hm) as (d & [_ E Hn _ _]).
  unfold base, fresh in *. rewrite Hm in *. destruct (decide (c_device c = r)) as [<-|Hr].
  - injection Hb as <-. destruct Tm as [Tm|(ph & Tm)]; rewrite Tm.
    + unfold count, holder. destruct To as [->|(_ & d1 & E1 & ->)].
      * rewrite E. cbn. eexists. split; [done|]. left. lia.
      * eexists. split; [done|]. right. split; [done|]. done.
    + cbn. rewrite decide_True by done. eexists. split; [done|]. right. split; [done|]. intros H. by rewrite decide_True by done.
  - exists n. unfold count, holder in *. destruct Tm as [Tm|(ph & Tm)]; rewrite Tm.
    + rewrite Tr by congruence. split; [done|by right].
    + cbn. rewrite decide_False by done. rewrite Tr by congruence. split; [done|right; split; [done|]]. intros H. by rewrite decide_False by done.
Qed.
Lemma explicit_advances env r d session ret p r' :
  env_ok env → pool_ok p → mutex p = Unlocked → jget r (objects p) = Some d → advances p (explicitBind env r d session ret p).2 r'.
Proof.
  intros He Hok Hm E. apply explicit_cases; [done..|apply mild_advances; [intros x y Hx; by exists y; auto|by left]| |].
  - intros _. eapply claim_advances; [done|exact E|done|by left].
  - intros h _ _ _ _ d1 q.
    assert (mild p q) as Hq.
    { assert (mild p (onObject r (λ _, d1) p)) as H; [|unfold mild in *; by rewrite <- (set_is_update r d d1 p E) in H].
      apply update_mild. intros d0 E0. rewrite E in E0. injection E0 as <-. split_and!; [done|done|by right]. }
    split; [apply mild_advances; [done|by left]|].
    assert (advances p (claim env r d1 session false true true p) r') as H
      by (eapply claim_advances; [done|exact E|done|by right]).
    assert (∀ x, jget x (objects (claim env r d1 session false true true q)) = jget x (objects (claim env r d1 session false true true p))) as Ho.
    { intros x. unfold claim. destruct (truthy session); cbn; rewrite !jget_set; by case_decide. }
    intros n Hb. destruct (H n Hb) as (n' & Hb' & Hf). exists n'. unfold base, fresh, count, holder in *. rewrite Ho. split; [exact Hb'|exact Hf].
Qed.

Lemma step_advances env op p r : env_ok env → named op → pool_ok p → advances p (step env op p) r.
Proof.
  intros He Hn Hok. assert (advances p p r) as Hrefl by (apply mild_advances; [intros x y Hx; by exists y; auto|by left]).
  assert (onTable op → advances p (step env op p) r) as Ht.
  { intros Hop. destruct (membership_keeps env op p r Hok Hop) as [Hk Hm]. by apply kept_advances. }
  destruct op; try (by apply Ht); cbn [step]; clear Ht.
  - destruct (mutex p) eqn:Hm; try done. destruct (jget device (objects p)) as [d|] eqn:E; [|done].
    destruct (isCurrentIdleDeviceAssignable _ _ _ _); [|done]. unfold claimSelectedDeviceForSession.
    destruct (getDeviceHealthMarker env _); [done|]. eapply claim_advances; [done|exact E|done|by left].
  - destruct (mutex p) eqn:Hm; try done. destruct (jget device (objects p)) as [d|] eqn:E; [|done]. by apply explicit_advances.
  - destruct (mutex p) as [|[? ? ? ? []]|] eqn:Hm; try done. eapply turn_advances; [done|done|by apply created_turn].
  - destruct (mutex p) as [|[? ? ? ? []]|] eqn:Hm; try done. eapply turn_advances; [done|done|apply failed_turn].
  - destruct (mutex p) as [|[? ? ? ? []]|] eqn:Hm; try done. eapply turn_advances; [done|done|by apply awaited_turn].
  - destruct (mutex p) as [|[? ? ? ? []]|] eqn:Hm; try done. eapply turn_advances; [done|done|apply failed_turn].
  - destruct (releaseDevice_calm env deviceId session p) as [Hc Hm]. apply mild_advances; [by eapply calm_mild|by left].
  - destruct (releaseCaptured_calm env device session count p) as (Hc & Hm & _). apply mild_advances; [by eapply calm_mild|by left].
  - unfold captureReleasedDevice. destruct (table_get _ _ _) as [[? ?]|]; [|done]. case_bool_decide; done.
  - done.
  - destruct (cleanupSettled_calm env deviceId x p) as (Hc & Hm & _). apply mild_advances; [by eapply calm_mild|by left].
  - destruct (mutex p) eqn:Hm; try done. destruct (rollbackLoop_calm env items p) as [Hc Hx].
    apply mild_advances; [by eapply calm_mild|right; by rewrite Hm].
  - destruct (mutex p) as [| |b] eqn:Hm; try done. destruct (rollbackReleased_calm env b p) as [Hc Hx].
    apply mild_advances; [by eapply calm_mild|right; by rewrite Hm].
  - destruct (mutex p) as [| |b] eqn:Hm; try done. apply mild_advances; [intros x y Hx; by exists y; auto|right; by rewrite Hm].
  - apply mild_advances; [|left; apply onObject_other]. apply update_mild. intros d _. split_and!; [done|done|by right].
Qed.

(** The claim in progress, if any, is on another entry. *)
Definition unclaimed (p : Pool) (r : nat) : Prop := ∀ c, mutex p = InCreation c → c_device c ≠ r.
(** Assignment [n] of the entry is over: a later one began, or none can begin but a later one. *)
Definition past (n : Z) (p : Pool) (r : nat) : Prop :=
  ∃ b, base p r = Some b ∧ (n + 1 <= b ∨ b = n ∧ fresh p r).

Lemma unclaimed_base p r : unclaimed p r → base p r = count p r ∧ (fresh p r ↔ holder p r = None).
Proof.
  unfold unclaimed, base, fresh. intros H. destruct (mutex p) as [|c|]; [done| |done].
  rewrite decide_False by (by apply H). destruct (decide (c_device c = r)) as [e|]; [by apply H in e|done].
Qed.
Lemma later_base p p' r n : pool_ok p → later p p' → base p r = Some n → ∃ n', base p' r = Some n' ∧ n <= n'.
Proof.
  intros Hok Hl Hb. induction Hl as [|env op p' Hl IH He Hn]; [by exists n|]. destruct IH as (n' & Hb' & Hle).
  destruct (step_advances env op p' r He Hn (later_ok p p' Hok Hl) n' Hb') as (n2 & Hb2 & Hc). exists n2. split; [done|lia].
Qed.
Lemma later_past n p p' r : pool_ok p → later p p' → past n p r → past n p' r.
Proof.
  intros Hok Hl Hb. induction Hl as [|env op p' Hl IH He Hn]; [done|]. destruct IH as (b & Hb' & Hc).
  destruct (step_advances env op p' r He Hn (later_ok p p' Hok Hl) b Hb') as (b2 & Hb2 & Hc2). exists b2. split; [done|].
  destruct Hc as [?|[-> Hf]]; [left; lia|]. destruct Hc2 as [?|[-> Hf2]]; [by left|right; auto].
Qed.
Lemma past_release n p r d s :
  pool_ok p → past n p r → jget r (objects p) = Some d → isCapturedReleaseCurrent r d s n p = false ∧ (assignmentCount d = n → holderOf d = None).
Proof.
  intros Hok (b & Hb & Hc) E.
  assert (assignmentCount d = n → holderOf d = None) as H.
  { intros Hn. unfold base, fresh in *. destruct (mutex p) as [|c|] eqn:Hm;
      [|destruct (decide (c_device c = r)) as [<-|Hr]|];
      try (unfold count, holder in *; rewrite E in *; cbn in *; injection Hb as <-; destruct Hc as [?|[_ ?]]; [lia|done]).
    destruct (ok_creation p Hok c Hm) as (d0 & [_ E0 Hn0 _ _]). rewrite E in E0. injection E0 as <-.
    injection Hb as <-. destruct Hc as [?|[? _]]; lia. }
  split; [|exact H]. unfold isCapturedReleaseCurrent. case_bool_decide as H1; [|by rewrite andb_false_r].
  rewrite (H H1). by rewrite !andb_false_r.
Qed.


(** ** Failed claims *)

Definition failure (op : PoolOp) (ph : CreationPhase) : bool :=
  match op, ph with
  | CreationRejected, Creating | ReleaseAwaited false _, AwaitingRelease _ | UndoSettled, Undoing _ => true
  | _, _ => false
  end.


(** ** Releases and pending cleanups *)

Lemma freeDevice_holder r d session n p d0 :
  jget r (objects p) = Some d0 → holder (freeDevice r d session n p) r = None ∧
  lastReleasedDeviceId (freeDevice r d session n p) = Some (id d) ∧
  (∃ d', jget r (objects (freeDevice r d session n p)) = Some d' ∧ isIdle d' = true ∧ errorCount d' = 0) ∧
  ClaimReleased (id d) ∈ told (freeDevice r d session n p) ∧ WaitersNotified ∈ told (freeDevice r d session n p).
Proof.
  intros E. destruct (freeDevice_get r d session n p r) as [[_ ?]|[_ H]]; [done|]. rewrite E in H. destruct H as (a & H).
  split_and!; [unfold holder; by rewrite H|done|by eexists| |]; unfold freeDevice; cbn [told tell];
    rewrite elem_of_app; right; set_solver.
Qed.

Lemma freeDevice_deferred r d session n p : deferredDeviceReleases (freeDevice r d session n p) = deferredDeviceReleases p.
Proof.
  unfold freeDevice, clearExpiredAutolockStateWhenIdle. cbn [deferredDeviceReleases tell with_lastReleased].
  destruct (jget r (objects (onObject _ _ _))); [destruct (_ && _)|]; by rewrite !(proj2 (proj2 (proj2 (proj2 (onObject_other _ _ _))))).
Qed.

(** C15. A release of the current assignment frees the device at once, as the last one
    released, and wakes the waiters; but while a cleanup of the device is pending the
    entry stays exactly as it is, one deferred release waits, and repeating the release
    changes nothing.  When the cleanup settles and the assignment is still current, the
    deferred release frees the device. *)
Theorem release_waits_for_cleanup env env2 p p2 r d session
    (Hentry : jget r (objects p) = Some d) (Hcurrent : isCapturedReleaseCurrent r d session (assignmentCount d) p = true)
    (Hnone : jget (id d) (deferredDeviceReleases p) = None)
    (Hnow : getPendingDeviceCleanup env2 (id d) = None) :
  let p1 := releaseCapturedDevice env r session (assignmentCount d) p in
  match getPendingDeviceCleanup env (id d) with
  | None =>
      holder p1 r = None ∧ lastReleasedDeviceId p1 = Some (id d) ∧
      (∃ d', jget r (objects p1) = Some d' ∧ isIdle d' = true ∧ errorCount d' = 0) ∧
      ClaimReleased (id d) ∈ told p1 ∧ WaitersNotified ∈ told p1
  | Some _ =>
      objects p1 = objects p ∧ told p1 = told p ∧ releaseCapturedDevice env r session (assignmentCount d) p1 = p1 ∧
      ∃ x, jget (id d) (deferredDeviceReleases p1) = Some x ∧
        (jget (id d) (deferredDeviceReleases p2) = Some x → jget r (objects p2) = Some d →
         isCapturedReleaseCurrent r d session (assignmentCount d) p2 = true →
         let p3 := cleanupSettled env2 (id d) x p2 in
         holder p3 r = None ∧ jget (id d) (deferredDeviceReleases p3) = None ∧ lastReleasedDeviceId p3 = Some (id d) ∧
         WaitersNotified ∈ told p3)
  end.
Proof.
  intros p1. assert (p1 = match getPendingDeviceCleanup env (id d) with
    | Some cleanup => deferRelease r d session (assignmentCount d) cleanup p
    | None => freeDevice r d session (assignmentCount d) p end) as ->.
  { subst p1. unfold releaseCapturedDevice. by rewrite Hentry, Hcurrent, Hnone. }
  destruct (getPendingDeviceCleanup env (id d)) as [k|]; [|by eapply freeDevice_holder].
  split_and!; [done|done| |].
  - set (q := deferRelease _ _ _ _ _ _).
    assert (isCapturedReleaseCurrent r d session (assignmentCount d) q = true) as Hq by exact Hcurrent.
    unfold releaseCapturedDevice.
    assert (jget r (objects q) = Some d) as -> by exact Hentry. rewrite Hq.
    assert (jget (id d) (deferredDeviceReleases q) = Some (mkDeferred (nextRef p) r session (assignmentCount d) k)) as ->
      by (cbn; by rewrite jget_set, decide_True by done). by rewrite !bool_decide_eq_true_2 by done.
  - eexists. split; [cbn; by rewrite jget_set, decide_True by done|]. intros Hx E2 Hc2 p3.
    assert (p3 = freeDevice r d session (assignmentCount d) (with_deferred (jdel (id d)) p2)) as ->.
    { subst p3. unfold cleanupSettled. cbn. rewrite Hx, E2. rewrite !bool_decide_eq_false_2 by (intros H; by apply H).
      cbn. unfold releaseCapturedDevice. cbn. rewrite E2.
      assert (isCapturedReleaseCurrent r d session (assignmentCount d) (with_deferred (jdel (id d)) p2) = true) as -> by exact Hc2.
      cbn. rewrite jget_del, decide_True by done. by rewrite Hnow. }
    destruct (freeDevice_holder r d session (assignmentCount d) (with_deferred (jdel (id d)) p2) d) as (? & ? & _ & _ & ?);
      [done|]. split_and!; [done| |done|done].
    rewrite freeDevice_deferred. cbn. by rewrite jget_del, decide_True by done.
Qed.

(** ** Selection *)

Lemma insertByUse_perm e l : insertByUse e l ≡ₚ e :: l.
Proof. induction l as [|x l IH]; [done|]. cbn. case_match; [|done]. rewrite IH. by constructor. Qed.
Lemma sortByUse_app l acc : foldl (λ acc e, insertByUse e acc) acc l ≡ₚ acc ++ l.
Proof. revert acc. induction l as [|e l IH]; intros acc; cbn; [by rewrite app_nil_r|]. rewrite IH, insertByUse_perm. by rewrite <- Permutation_middle. Qed.
Definition leastFirst (l : list (nat * PooledDevice)) : Prop :=
  ∀ e, head l = Some e → ∀ e', e' ∈ l → lastUsedAt e.2 <= lastUsedAt e'.2.
Lemma insertByUse_least e l : leastFirst l → leastFirst (insertByUse e l).
Proof.
  intros Hl. destruct l as [|x l]; cbn.
  - intros ? [= <-] e'. rewrite list_elem_of_singleton. by intros ->.
  - destruct (lastUsedAt x.2 <=? lastUsedAt e.2) eqn:Hle; intros y [= <-] e' He'.
    + apply elem_of_cons in He' as [->|He']; [done|]. rewrite insertByUse_perm in He'.
      apply elem_of_cons in He' as [->|He']; [lia|]. apply (Hl x eq_refl). by right.
    + apply elem_of_cons in He' as [->|He']; [done|]. pose proof (Hl x eq_refl e' He'). lia.
Qed.
Lemma sortByUse_least l : leastFirst (sortByUse l).
Proof.
  assert (∀ acc, leastFirst acc → leastFirst (foldl (λ acc e, insertByUse e acc) acc l)) as H; [|by apply H].
  induction l as [|e l IH]; intros acc Hacc; cbn; [done|]. by apply IH, insertByUse_least.
Qed.
Lemma sortByUse_head l : match head (sortByUse l) with None => l = [] | Some e => e ∈ l ∧ ∀ e', e' ∈ l → lastUsedAt e.2 <= lastUsedAt e'.2 end.
Proof.
  pose proof (sortByUse_app l []) as Hp. fold (sortByUse l) in Hp. cbn in Hp. pose proof (sortByUse_least l) as Hl.
  destruct (sortByUse l) as [|e s]; cbn; [by apply Permutation_nil in Hp|]. split.
  - rewrite <- Hp. by left.
  - intros e' He'. apply (Hl e eq_refl). by rewrite Hp.
Qed.

(** The pool offers an idle, supplied and unreserved device whenever a candidate is
    one: the most recently released one if it is among them, and otherwise one that no
    other was used less recently than. *)
Theorem selection_prefers_recent_then_least_used env candidates forSession p :
  match selectIdleDevice env candidates forSession p with
  | None => ∀ e, e ∈ candidates → isIdleDeviceEligible env e forSession = false
  | Some e =>
      e ∈ candidates ∧ isIdleDeviceEligible env e forSession = true ∧
      (Some (id e.2) = lastReleasedDeviceId p ∧ truthy (id e.2) = true ∨
       (∀ e', e' ∈ candidates → isIdleDeviceEligible env e' forSession = true →
          (truthy (id e'.2) = true → Some (id e'.2) ≠ lastReleasedDeviceId p) ∧ lastUsedAt e.2 <= lastUsedAt e'.2))
  end.
Proof.
  unfold selectIdleDevice. set (idle := filter _ candidates).
  assert (∀ e, e ∈ idle ↔ isIdleDeviceEligible env e forSession = true ∧ e ∈ candidates) as Hidle by (intros e; unfold idle; by rewrite list_elem_of_filter).
  pose proof (sortByUse_head idle) as Hs.
  assert ((∀ e', e' ∈ idle → truthy (id e'.2) = true → Some (id e'.2) ≠ lastReleasedDeviceId p) →
    match head (sortByUse idle) with
    | None => ∀ e, e ∈ candidates → isIdleDeviceEligible env e forSession = false
    | Some e => e ∈ candidates ∧ isIdleDeviceEligible env e forSession = true ∧
      (Some (id e.2) = lastReleasedDeviceId p ∧ truthy (id e.2) = true ∨
       (∀ e', e' ∈ candidates → isIdleDeviceEligible env e' forSession = true →
          (truthy (id e'.2) = true → Some (id e'.2) ≠ lastReleasedDeviceId p) ∧ lastUsedAt e.2 <= lastUsedAt e'.2))
    end) as Hdef.
  { intros Hno. destruct (head (sortByUse idle)) as [e|].
    - destruct Hs as [Hin Hmin]. apply Hidle in Hin as [He Hc]. split_and!; [done..|]. right. intros e' Hc' He'.
      assert (e' ∈ idle) as Hi by (by apply Hidle). split; [by apply Hno|by apply Hmin].
    - intros e Hc. destruct (isIdleDeviceEligible env e forSession) eqn:He; [|done].
      assert (e ∈ idle) as Hi by (by apply Hidle). rewrite Hs in Hi. by apply not_elem_of_nil in Hi. }
  destruct (lastReleasedDeviceId p) as [last|] eqn:Hl; [|by apply Hdef].
  destruct (truthy last) eqn:Ht; [|apply Hdef; intros e' _ Ht' [= <-]; congruence].
  destruct (filter (λ e, id e.2 = last) idle) as [|e f] eqn:Hf.
  - apply Hdef. intros e' Hi' _ [= He']. assert (e' ∈ filter (λ e, id e.2 = last) idle) as Hx by (by rewrite list_elem_of_filter).
    rewrite Hf in Hx. by apply not_elem_of_nil in Hx.
  - assert (e ∈ filter (λ e, id e.2 = last) idle) as Hx by (rewrite Hf; by left).
    rewrite list_elem_of_filter in Hx. destruct Hx as [<- Hx]. apply Hidle in Hx as [He Hc]. split_and!; [done..|]. by left.
Qed.

(** ** Witnesses *)

Definition wSession : Session := mkSession 7 "s1".
Definition wEnv : Env :=
  mkEnv (λ i, if decide (i = "s1") then Some wSession else None) (λ _, "dev") (λ _, "android") (λ _, None) (λ _, None)
    (λ _ _, false) (λ _, true) (λ _ _, false) (λ _, true) (λ _, false) 5.
Definition wBusy : Env :=
  mkEnv (λ _, None) (λ _, "dev") (λ _, "android") (λ _, Some 1%nat) (λ _, None) (λ _ _, false) (λ _, true) (λ _ _, false)
    (λ _, true) (λ _, false) 5.
Definition wFree : Pool := step wEnv (Initialize "dev" "android" 0) emptyPool.
Definition wClaimed : Pool := step wEnv (Allocate "s1" 0 false) wFree.
Definition wHeld : Pool := step wEnv (ReleaseAwaited true false) (step wEnv (CreationResolved wSession false) wClaimed).
Definition wReleased : Pool := step wEnv (Release "dev" "s1") wHeld.
Definition wReclaimed : Pool := step wEnv (Allocate "s1" 0 false) wReleased.

Lemma wEnv_ok : env_ok wEnv.
Proof. intros i s. cbn. case_decide; [intros [= <-]; by subst|done]. Qed.
Lemma wHeld_reachable : reachable wHeld.
Proof.
  unfold wHeld, wClaimed, wFree.
  repeat (apply later_step; [|exact wEnv_ok|exact I || reflexivity]). apply later_now.
Qed.




Definition wEntry : PooledDevice := mkDevice "dev" "android" (mkBinding (Some "s1"%string) busy (Some ok)) 5 1 0 None.
Lemma release_waits_for_cleanup_witness :
  let p1 := releaseCapturedDevice wBusy 0 "s1" 1 wHeld in
  objects p1 = objects wHeld ∧ holder p1 0 = Some "s1"%string ∧
  holder (cleanupSettled wEnv "dev" (mkDeferred 1 0 "s1" 1 1) p1) 0 = None.
Proof.
  intros p1.
  destruct (release_waits_for_cleanup wBusy wEnv wHeld p1 0 wEntry "s1") as (Ho & _ & _ & x & Hx & Hlate);
    [vm_compute; reflexivity..|].
  split; [exact Ho|]. split; [vm_compute; reflexivity|].
  assert (x = mkDeferred 1 0 "s1" 1 1) as -> by (vm_compute in Hx; injection Hx as <-; reflexivity).
  apply Hlate; vm_compute; reflexivity.
Defined.

(** A capture taken while a claim is in progress outlives the claim's rollback, which
    rewinds the count, and then matches the retry of the same session. *)
Example capture_of_a_failed_claim_matches_the_retry :
  let p := step wEnv (Capture "s1" "dev") wClaimed in
  let retried := step wEnv (Allocate "s1" 0 false) (step wEnv CreationRejected p) in
  holder retried 0 = Some "s1"%string ∧ holder (step wEnv (Release "dev" "s1") retried) 0 = None.
Proof. split; vm_compute; reflexivity. Qed.
