(* ===== verification/BootLedger.v ===== *)
(** * Ledger of admitted boots

    [src/src/devices/bootAdmission/BootAdmissionGate.ts] and [SampleWindow.ts]: boots
    admitted and not yet visible in the platform's listing, and the decision of one
    boot.  Entries are keyed by tokens; a window keeps the entries that end while it
    is open, here beside their tokens. *)
From Stdlib Require Import Strings.String.
From S2P Require Import Prelude JsString JsMap.
Local Open Scope Z_scope.

Inductive BootAdmissionReason := reset | create | restart.
#[export] Instance BootAdmissionReason_eq_dec : EqDecision BootAdmissionReason.
Proof. solve_decision. Defined.

(** An absent [replacement] or [handedOff] is [false]. *)
Record LedgerEntry := mkLedgerEntry {
  reason : option BootAdmissionReason; deviceId : option string; replacement : bool; processId : option Z;
  handedOffUntilMs : option Z; handedOff : bool }.
Abbreviation Tokened := (nat * LedgerEntry)%type.

Record BootAdmissionLedger := mkLedger {
  entries : JsMap nat LedgerEntry;
  openWindows : list nat;
  ended : JsMap nat (list Tokened);
  nextToken : nat;
  nextWindow : nat }.
Definition emptyLedger : BootAdmissionLedger := mkLedger [] [] [] 0 0.
Definition with_entries f l := mkLedger (f (entries l)) (openWindows l) (ended l) (nextToken l) (nextWindow l).

(** ** Admissions *)

Definition admitBoot (device : option string) (replacing : bool) (why : BootAdmissionReason) (l : BootAdmissionLedger) :
    nat * BootAdmissionLedger :=
  (nextToken l, mkLedger (jset (nextToken l) (mkLedgerEntry (Some why) device replacing None None false) (entries l))
     (openWindows l) (ended l) (S (nextToken l)) (nextWindow l)).
Definition bind (token : nat) (bound : option string) (l : BootAdmissionLedger) : BootAdmissionLedger :=
  match jget token (entries l) with
  | Some e => with_entries (jset token
      (mkLedgerEntry (reason e) bound false (processId e) (handedOffUntilMs e) (handedOff e))) l
  | None => l
  end.
Definition orElse {A} (a b : option A) : option A := match a with Some _ => a | None => b end.
Definition handOff (token : nat) (device : option string) (untilMs : Z) (process : option Z) (l : BootAdmissionLedger) :
    BootAdmissionLedger :=
  match jget token (entries l) with
  | Some e => with_entries (jset token
      (mkLedgerEntry None (orElse device (deviceId e)) false (orElse process (processId e)) (Some untilMs) true)) l
  | None => l
  end.
(** [SampleWindow.ended]. *)
Definition endedIn (w : nat) (l : BootAdmissionLedger) : list Tokened := default [] (jget w (ended l)).
Definition keptEntry (listed : bool) (e : LedgerEntry) : LedgerEntry :=
  if listed then mkLedgerEntry (reason e) (deviceId e) (replacement e) (processId e) None (handedOff e) else e.
Definition endEntry (token : nat) (listed : bool) (l : BootAdmissionLedger) : BootAdmissionLedger :=
  match jget token (entries l) with
  | None => l
  | Some e =>
      mkLedger (jdel token (entries l)) (openWindows l)
        (foldl (λ m w, jset w (default [] (jget w m) ++ [(token, keptEntry listed e)]) m) (ended l) (openWindows l))
        (nextToken l) (nextWindow l)
  end.
Definition release (token : nat) : BootAdmissionLedger → BootAdmissionLedger := endEntry token false.
Definition admissionsByReason (why : BootAdmissionReason) (l : BootAdmissionLedger) : Z :=
  Z.of_nat (length (filter (λ e, default create (reason e.2) = why) (entries l))).

Definition beginSample (l : BootAdmissionLedger) : nat * BootAdmissionLedger :=
  (nextWindow l, mkLedger (entries l) (sadd (nextWindow l) (openWindows l)) (jset (nextWindow l) [] (ended l))
     (nextToken l) (S (nextWindow l))).
Definition closeWindow (w : nat) (l : BootAdmissionLedger) : BootAdmissionLedger :=
  mkLedger (entries l) (sdel w (openWindows l)) (ended l) (nextToken l) (nextWindow l).

(** ** Boots in flight *)

Record InFlightBootMemory := mkInFlightBoot {
  boot_deviceId : option string; boot_replacement : bool; boot_processId : option Z; boot_handedOff : bool }.
Record InFlightBootView := mkView {
  boots : list InFlightBootMemory; count : Z; withListedProcess : Z; listedWithoutProcess : Z }.

Section View.
Context (visible : list string) (exclude : option string) (listedProcessIds : list Z) (now : Z).
Definition hasListedProcess (e : LedgerEntry) : bool :=
  match processId e with Some pid => bool_decide (pid ∈ listedProcessIds) | None => false end.
Definition isVisible (e : LedgerEntry) : bool :=
  match deviceId e with Some d => bool_decide (d ∈ visible) | None => false end.
Definition expired (e : LedgerEntry) : bool := match handedOffUntilMs e with Some u => u <=? now | None => false end.
Definition notExcluded (e : LedgerEntry) : bool := bool_decide (exclude = None) || bool_decide (deviceId e ≠ exclude).
Definition endedDuringSample (window : list Tokened) : list Tokened :=
  filter (λ e, negb (expired e.2) && negb (isVisible e.2) && notExcluded e.2 = true) window.

Definition viewStep (acc : BootAdmissionLedger * (list Tokened * Z)) (e : Tokened) : BootAdmissionLedger * (list Tokened * Z) :=
  let '(l, (found, listed)) := acc in
  if match handedOffUntilMs e.2 with Some u => isVisible e.2 || (u <=? now) | None => false end
  then (endEntry e.1 (isVisible e.2) l, (found, listed))
  else if negb (isVisible e.2) && notExcluded e.2
  then (l, (found ++ [e], listed + if hasListedProcess e.2 then 1 else 0))
  else acc.
Definition inFlightView (window : option nat) (l : BootAdmissionLedger) : InFlightBootView * BootAdmissionLedger :=
  let windowEnded := match window with Some w => endedIn w l | None => [] end in
  let kept := endedDuringSample windowEnded in
  let known := windowEnded ++ entries l in
  let without := length (filter (λ e, isVisible e.2 && negb (hasListedProcess e.2) && bool_decide (deviceId e.2 ≠ exclude) &&
    negb (replacement e.2) = true) known) in
  let '(l', (found, listed)) := foldl viewStep
    (l, (kept, Z.of_nat (length (filter (λ e, hasListedProcess e.2 = true) kept)))) (entries l) in
  (mkView ((λ e, mkInFlightBoot (deviceId e.2) (replacement e.2) (processId e.2) (handedOff e.2)) <$> found)
     (Z.of_nat (length found)) listed (Z.of_nat without), l').
End View.
Definition inFlightCount (visible : list string) (exclude : option string) (now : Z) (window : option nat)
    (l : BootAdmissionLedger) : Z * BootAdmissionLedger :=
  let '(v, l') := inFlightView visible exclude [] now window l in (count v, l').

(** ** The decision *)

Inductive MaxBootedSource := env | derived.
Record CapacityLimits := mkLimits { maxBooted : Z; source : MaxBootedSource; warning : option string }.
Record RefusedCapacityDecision := mkRefused {
  limits : CapacityLimits; bootedCount : Z; retryAfterMs : Z; externalDevices : list string; heldDevices : list string;
  ownershipUnknown : bool }.
Definition atCapacityDecision (booted : Z) (lim : CapacityLimits) (retryAfter : Z) (external held : list string)
    (unknown : bool) : option RefusedCapacityDecision :=
  if booted <? maxBooted lim then None else Some (mkRefused lim booted retryAfter external held unknown).

Inductive BootAdmissionError :=
| Aborted
| DiscoveryIncomplete
| CapacityExhausted (limit booted retryAfter : Z) (external held : list string) (unknown : bool).
(** [admitBootNow] after its only await: the sample arrived, failed or timed out.  The
    gate's state is whatever holds its ledger; [close] closes the sample's window. *)
Definition admitAfterSample {S D G} (close : G → G) (sample : option S) (aborted : bool)
    (decide : S → G → outcome BootAdmissionError (D + RefusedCapacityDecision) * G) (admitted : D → G → nat * G) (g : G) :
    outcome BootAdmissionError ((D * nat) + RefusedCapacityDecision) * G :=
  let g := close g in
  match sample with
  | None => (Throws (if aborted then Aborted else DiscoveryIncomplete), g)
  | Some s =>
      if aborted then (Throws Aborted, g)
      else match decide s g with
      | (Throws e, g) => (Throws e, g)
      | (Returns (inr refused), g) => (Returns (inr refused), g)
      | (Returns (inl d), g) => let '(token, g) := admitted d g in (Returns (inl (d, token)), g)
      end
  end.
Definition assertBootCapacityGranted {D} (decision : D + RefusedCapacityDecision) : outcome BootAdmissionError () :=
  match decision with
  | inl _ => Returns ()
  | inr r => Throws (CapacityExhausted (maxBooted (limits r)) (bootedCount r) (retryAfterMs r) (externalDevices r)
      (heldDevices r) (ownershipUnknown r))
  end.

(** [isBootCapacityGateEnabled]; the variables are read and trimmed by the caller. *)
Definition isBootCapacityGateEnabled (ios : bool) (override shared : option string) : bool :=
  match (if ios then override else None) with
  | Some v => if bool_decide (v = "0"%string) || bool_decide (v = "1"%string) then bool_decide (v = "1"%string)
              else bool_decide (shared ≠ Some "0"%string)
  | None => bool_decide (shared ≠ Some "0"%string)
  end.
