(* ===== verification/BootGates.v ===== *)
(** * Boot gates of the platforms

    The decisions of [src/src/features/iosSimFleet/CapacityGate.ts] (with what they
    use of [FleetCostCollector.ts] and [capacityPolicy.ts]) and of
    [src/src/features/bootAdmission/AndroidBootAdmissionGate.ts], the bookkeeping of
    the devices a gate started, and a reservation ([BootSlotReservation.ts]).  The
    limit is an argument: it is derived from host numbers in floating point. *)
From Stdlib Require Import Strings.String.
From S2P Require Import Prelude JsString JsMap BootLedger.
Local Open Scope Z_scope.

(** ** iOS simulators *)

Record SimulatorCost := mkSim {
  udid : string; state : string; runtime : string; deviceTypeIdentifier : option string; profileId : option string }.
Record FleetReport := mkReport {
  simulators : list SimulatorCost; inventoryFailed : bool; hostRead : bool; ownershipReadFailed : bool }.
Definition BOOTED_STATE : string := "Booted".
Definition SLOT_OCCUPYING_STATES : list string := [BOOTED_STATE; "Booting"; "Shutting Down"]%string.
Definition occupyingUdids (report : FleetReport) (exclude : option string) : list string :=
  udid <$> filter (λ sim, bool_decide (state sim ∈ SLOT_OCCUPYING_STATES) && bool_decide (Some (udid sim) ≠ exclude) = true)
    (simulators report).

Record WarmDeviceRequest := mkWarm {
  w_deviceTypeIdentifier : option string; w_runtime : option string; w_profileId : option string; excludeUdids : list string }.
Definition asked {A} `{EqDecision A} (wanted value : option A) : bool :=
  bool_decide (wanted = None) || bool_decide (value = wanted).
Definition findWarmCompatibleDevices (report : FleetReport) (request : WarmDeviceRequest) : list SimulatorCost :=
  if bool_decide (w_deviceTypeIdentifier request = None) && bool_decide (w_runtime request = None) &&
     bool_decide (w_profileId request = None) then []
  else filter (λ sim, bool_decide (state sim = BOOTED_STATE) && negb (bool_decide (udid sim ∈ excludeUdids request)) &&
    asked (w_deviceTypeIdentifier request) (deviceTypeIdentifier sim) && asked (w_runtime request) (Some (runtime sim)) &&
    asked (w_profileId request) (profileId sim) = true) (simulators report).

(** What the gate remembers of the simulators it booted.  The record of a UDID is an
    object: a UDID forgotten and started again has another. *)
Record BootTally := mkTally { unreleased : Z; succeeded : bool }.
Record IosGate := mkIosGate {
  startedUdids : list string; seenStartedUdids : list string; bootsByUdid : JsMap string nat;
  tallies : JsMap nat BootTally; nextTally : nat; admittedBoots : BootAdmissionLedger }.
Definition with_ledger l g := mkIosGate (startedUdids g) (seenStartedUdids g) (bootsByUdid g) (tallies g) (nextTally g) l.
Definition forgetStarted (u : string) (g : IosGate) : IosGate :=
  mkIosGate (sdel u (startedUdids g)) (sdel u (seenStartedUdids g)) (jdel u (bootsByUdid g)) (tallies g) (nextTally g)
    (admittedBoots g).
Definition exitedStep (occupied : list string) (g : IosGate) (u : string) : IosGate :=
  if bool_decide (u ∈ occupied)
  then mkIosGate (startedUdids g) (sadd u (seenStartedUdids g)) (bootsByUdid g) (tallies g) (nextTally g) (admittedBoots g)
  else if shas u (seenStartedUdids g)
  then forgetStarted u (mkIosGate (startedUdids g) (sdel u (seenStartedUdids g)) (bootsByUdid g) (tallies g) (nextTally g)
    (admittedBoots g))
  else g.
Definition forgetExitedStarted (report : FleetReport) (g : IosGate) : IosGate :=
  foldl (exitedStep (occupyingUdids report None)) g (startedUdids g).

(** [recordAdmission] up to its release; the handle holds the token and the tally. *)
Record BootHandle := mkHandle { h_udid : option string; h_tally : option nat; h_token : nat; h_released : bool }.
Definition recordAdmission (device : option string) (reserved : option nat) (why : option BootAdmissionReason) (g : IosGate) :
    BootHandle * IosGate :=
  let '(tally, g) := match device with
    | Some u =>
        if truthy u then
          let '(k, g) := match jget u (bootsByUdid g) with
            | Some k => (k, g)
            | None => (nextTally g, mkIosGate (startedUdids g) (seenStartedUdids g) (bootsByUdid g)
                (jset (nextTally g) (mkTally 0 false) (tallies g)) (S (nextTally g)) (admittedBoots g))
            end in
          let t := default (mkTally 0 false) (jget k (tallies g)) in
          (Some k, mkIosGate (sadd u (startedUdids g)) (seenStartedUdids g) (jset u k (bootsByUdid g))
            (jset k (mkTally (unreleased t + 1) (succeeded t)) (tallies g)) (nextTally g) (admittedBoots g))
        else (None, g)
    | None => (None, g)
    end in
  match reserved with
  | Some token => (mkHandle device tally token false, g)
  | None =>
      let '(token, l) := admitBoot device false (default create why) (admittedBoots g) in
      (mkHandle device tally token false, with_ledger l g)
  end.
Definition releaseAdmission (h : BootHandle) (bootFailed : bool) (g : IosGate) : BootHandle * IosGate :=
  if h_released h then (h, g)
  else
    let h := mkHandle (h_udid h) (h_tally h) (h_token h) true in
    let g := with_ledger (release (h_token h) (admittedBoots g)) g in
    match h_udid h, h_tally h with
    | Some u, Some k =>
        if bool_decide (jget u (bootsByUdid g) ≠ Some k) then (h, g)
        else
          let t := default (mkTally 0 false) (jget k (tallies g)) in
          let t := mkTally (unreleased t - 1) (succeeded t || negb bootFailed) in
          let g := mkIosGate (startedUdids g) (seenStartedUdids g) (bootsByUdid g) (jset k t (tallies g)) (nextTally g)
            (admittedBoots g) in
          if bool_decide (unreleased t = 0) && negb (succeeded t) && negb (shas u (seenStartedUdids g))
          then (h, forgetStarted u g) else (h, g)
    | _, _ => (h, g)
    end.

Inductive CapacityDecision := ReuseWarm (u : string) | Allow (lim : CapacityLimits) (booted : Z).
Section Ios.
Context (limitsOf : FleetReport → list InFlightBootMemory → CapacityLimits) (retryAfter : Z) (now : Z)
  (isAutoMobileOwned : string → bool).

Definition limitsFor (report : FleetReport) (window : option nat) (g : IosGate) : CapacityLimits * IosGate :=
  if hostRead report then
    let '(v, l) := inFlightView [] None [] now window (admittedBoots g) in (limitsOf report (boots v), with_ledger l g)
  else (limitsOf report [], g).
Definition iosDecide (report : FleetReport) (request : option WarmDeviceRequest) (substitute : bool) (bootUdid : option string)
    (window : option nat) (carriesOwnSlot : bool) (g : IosGate) :
    outcome BootAdmissionError (CapacityDecision + RefusedCapacityDecision) * IosGate :=
  if inventoryFailed report then (Throws DiscoveryIncomplete, g)
  else
    let heldUdids := filter (λ u, isAutoMobileOwned u = true) (udid <$> simulators report) in
    let request := default (mkWarm None None None []) request in
    let warmRequest := if substitute then request
      else mkWarm (w_deviceTypeIdentifier request) (w_runtime request) (w_profileId request)
             (excludeUdids request ++ heldUdids) in
    let warm := head (findWarmCompatibleDevices report warmRequest) in
    match warm, substitute with
    | Some sim, true => (Returns (inl (ReuseWarm (udid sim))), g)
    | _, _ =>
        let '(lim, g) := limitsFor report window g in
        let occupied := occupyingUdids report bootUdid in
        let g := forgetExitedStarted report g in
        let '(inFlight, l) := inFlightCount (occupyingUdids report None) bootUdid now window (admittedBoots g) in
        let g := with_ledger l g in
        let booted := Z.of_nat (length occupied) + inFlight in
        if carriesOwnSlot then (Returns (inl (Allow lim booted)), g)
        else
          let owned u := bool_decide (u ∈ startedUdids g) || bool_decide (u ∈ heldUdids) in
          match atCapacityDecision booted lim retryAfter (filter (λ u, owned u = false) occupied)
                  (filter (λ u, owned u = true) occupied) (ownershipReadFailed report) with
          | Some refused => (Returns (inr refused), g)
          | None => (Returns (inl match warm with Some sim => ReuseWarm (udid sim) | None => Allow lim booted end), g)
          end
    end.
End Ios.

(** ** Android emulators *)

Record AndroidCapacitySample := mkSample {
  emulatorSerials : list string; serialListingFailed : bool; emulatorProcesses : option Z;
  emulatorProcessIds : list (Z * Z) }.
Record HostBootAdmissionRecord := mkPeer {
  peer_id : string; peer_deviceId : option string; peer_processId : option Z; admittedUntilMs : option Z;
  peer_handedOffUntilMs : option Z; peer_replacement : bool }.
Record AndroidGate := mkAndroidGate {
  startedSerials : list string; listedStartedSerials : list string; ledger : BootAdmissionLedger }.

(** [new Map(... => [record.id, record])]: the later read wins, in the first place. *)
Definition unionPeers (before after : list HostBootAdmissionRecord) : list HostBootAdmissionRecord :=
  (foldl (λ m r, jset (peer_id r) r m) [] (before ++ after)).*2.

Section Android.
Context (limitsOf : AndroidCapacitySample → list InFlightBootMemory → CapacityLimits) (retryAfter : Z) (now : Z).

Definition peerActive (r : HostBootAdmissionRecord) : bool :=
  match orElse (peer_handedOffUntilMs r) (admittedUntilMs r) with Some u => now <? u | None => true end.
Definition peerVisible (listed : list string) (r : HostBootAdmissionRecord) : bool :=
  match peer_deviceId r with Some d => bool_decide (d ∈ listed) | None => false end.
Definition peerMatched (pids : list Z) (r : HostBootAdmissionRecord) : bool :=
  match peer_processId r with Some p => bool_decide (p ∈ pids) | None => false end.
Definition countPeers (peers : list HostBootAdmissionRecord) (listed : list string) (pids : list Z) : InFlightBootView :=
  let active := filter (λ r, peerActive r = true) peers in
  let unlisted := filter (λ r, peerVisible listed r = false) active in
  mkView ((λ r, mkInFlightBoot None false (peer_processId r) (bool_decide (peer_handedOffUntilMs r ≠ None))) <$> unlisted)
    (Z.of_nat (length unlisted)) (Z.of_nat (length (filter (λ r, peerMatched pids r = true) unlisted)))
    (Z.of_nat (length (filter (λ r, peerVisible listed r && negb (peerMatched pids r) && negb (peer_replacement r) = true) active))).

Record AndroidCounts := mkCounts { booted : Z; inFlight : Z; effective : Z; counted_limits : CapacityLimits }.
Definition androidCount (sample : AndroidCapacitySample) (window : option nat) (peers : list HostBootAdmissionRecord)
    (l : BootAdmissionLedger) : AndroidCounts * BootAdmissionLedger :=
  let listed := Z.of_nat (length (emulatorSerials sample)) in
  let processes := default 0 (emulatorProcesses sample) in
  let pids := mjoin ((λ ids, [ids.1; ids.2]) <$> emulatorProcessIds sample) in
  let '(v, l) := inFlightView (emulatorSerials sample) None pids now window l in
  let p := countPeers peers (emulatorSerials sample) pids in
  let c := count v + count p in
  let unseen := c - withListedProcess v - withListedProcess p in
  let base := Z.max listed processes in
  let reported := Z.max (listed + c) (processes + unseen) in
  (mkCounts base (reported - base)
     (Z.max (listed + c) (processes + unseen + listedWithoutProcess v + listedWithoutProcess p))
     (limitsOf sample (boots v ++ boots p)), l).

Definition serialStep (listed : list string) (g : AndroidGate) (s : string) : AndroidGate :=
  if bool_decide (s ∈ listed) then mkAndroidGate (startedSerials g) (sadd s (listedStartedSerials g)) (ledger g)
  else if shas s (listedStartedSerials g)
  then mkAndroidGate (sdel s (startedSerials g)) (sdel s (listedStartedSerials g)) (ledger g) else g.
Definition forgetExitedSerials (sample : AndroidCapacitySample) (g : AndroidGate) : AndroidGate :=
  if serialListingFailed sample then g else foldl (serialStep (emulatorSerials sample)) g (startedSerials g).

Definition androidDecide (sample : AndroidCapacitySample) (window : option nat) (peers : list HostBootAdmissionRecord)
    (replacingDeviceId : option string) (g : AndroidGate) : (CapacityLimits * Z + RefusedCapacityDecision) * AndroidGate :=
  let g := forgetExitedSerials sample g in
  let '(c, l) := androidCount sample window peers (ledger g) in
  let g := mkAndroidGate (startedSerials g) (listedStartedSerials g) l in
  let credit := match replacingDeviceId with
    | Some d => if bool_decide (d ∈ emulatorSerials sample) then 1 else 0 | None => 0 end in
  if effective c - credit <? maxBooted (counted_limits c) then (inl (counted_limits c, effective c), g)
  else match atCapacityDecision (effective c) (counted_limits c) retryAfter
         (filter (λ s, negb (bool_decide (s ∈ startedSerials g)) = true) (emulatorSerials sample)) [] false with
       | Some refused => (inr refused, g)
       | None => (inl (counted_limits c, effective c), g)
       end.
End Android.

(** ** Reservations

    [BootReservationScope.hold]: a slot admitted before the boot that takes it. *)
Record PendingBoot := mkPending { active : bool; slot : nat }.
Definition takeReservation (bound : option string) (p : PendingBoot) (l : BootAdmissionLedger) : option nat * PendingBoot * BootAdmissionLedger :=
  if active p then (Some (slot p), mkPending false (slot p), bind (slot p) bound l) else (None, p, l).
Definition releaseReservation (p : PendingBoot) (l : BootAdmissionLedger) : PendingBoot * BootAdmissionLedger :=
  if active p then (mkPending false (slot p), release (slot p) l) else (p, l).
Definition markReplacedDeviceGone (p : PendingBoot) (l : BootAdmissionLedger) : BootAdmissionLedger :=
  if active p then bind (slot p) None l else l.
(** [run]: starting the operation, and its end. *)
Definition runStart (p : PendingBoot) : outcome () () := if active p then Returns () else Throws ().
Definition runEnd (succeeded : bool) (p : PendingBoot) (l : BootAdmissionLedger) : PendingBoot * BootAdmissionLedger :=
  if succeeded then (p, l) else releaseReservation p l.
