(* ===== verification/BootLedgerProofs.v ===== *)
(** * Facts of the ledger of boots

    Its invariant, what each operation does to entries and windows, what judging a
    sample may do to it, and what a view counts. *)
From Stdlib Require Import Strings.String.
From S2P Require Import Prelude JsString JsMap BootLedger.
From stdpp Require Import list sets.
Local Open Scope Z_scope.

(** ** The ledger *)

Abbreviation entryAt l b := (jget b (entries l)).
Record ledger_ok (l : BootAdmissionLedger) : Prop := {
  lo_wf : jwf (entries l);
  lo_tokens : ∀ b e, entryAt l b = Some e → (b < nextToken l)%nat;
  lo_open : ∀ w, w ∈ openWindows l → (w < nextWindow l)%nat;
  lo_open_nodup : NoDup (openWindows l);
  lo_known : ∀ w, is_Some (jget w (ended l)) → (w < nextWindow l)%nat;
  lo_ended : ∀ w, NoDup (endedIn w l).*1;
  lo_gone : ∀ w b, b ∈ (endedIn w l).*1 → entryAt l b = None ∧ (b < nextToken l)%nat }.
Lemma emptyLedger_ok : ledger_ok emptyLedger.
Proof.
  split; try done.
  - constructor.
  - intros w ?%elem_of_nil. done.
  - constructor.
  - intros w [x Hx]. done.
  - intros w. constructor.
  - intros w b ?%elem_of_nil. done.
Qed.

Lemma pushed_get (token : nat) (e : LedgerEntry) (ws : list nat) (m : JsMap nat (list Tokened)) w :
  NoDup ws →
  jget w (foldl (λ m w, jset w (default [] (jget w m) ++ [(token, e)]) m) m ws) =
  if decide (w ∈ ws) then Some (default [] (jget w m) ++ [(token, e)]) else jget w m.
Proof.
  revert m. induction ws as [|x ws IH]; intros m Hn; cbn [foldl]; [by rewrite decide_False by apply not_elem_of_nil|].
  apply NoDup_cons in Hn as [Hx Hn]. rewrite IH by done. rewrite !jget_set.
  destruct (decide (x = w)) as [->|Hne].
  - rewrite (decide_False (P := w ∈ ws)), decide_True by (done || by left). done.
  - destruct (decide (w ∈ ws)) as [Hw|Hw]; [by rewrite decide_True by (by right)|].
    rewrite decide_False; [done|]. rewrite elem_of_cons. naive_solver.
Qed.
Lemma endEntry_get token listed l b :
  entryAt (endEntry token listed l) b = if decide (token = b) then None else entryAt l b.
Proof.
  unfold endEntry. destruct (entryAt l token) as [e|] eqn:E; cbn [entries]; [by rewrite jget_del|].
  case_decide; [by subst|done].
Qed.
Lemma endEntry_ended token listed l w :
  ledger_ok l → endedIn w (endEntry token listed l) =
    match entryAt l token with
    | Some e => if decide (w ∈ openWindows l) then endedIn w l ++ [(token, keptEntry listed e)] else endedIn w l
    | None => endedIn w l
    end.
Proof.
  intros Hok. unfold endEntry. destruct (entryAt l token) as [e|]; [|done]. unfold endedIn. cbn [ended].
  rewrite pushed_get by apply (lo_open_nodup l Hok). by case_decide.
Qed.
Lemma endEntry_fixed token listed l :
  openWindows (endEntry token listed l) = openWindows l ∧ nextToken (endEntry token listed l) = nextToken l ∧
  nextWindow (endEntry token listed l) = nextWindow l.
Proof. unfold endEntry. by destruct (entryAt l token). Qed.
Lemma endEntry_ok token listed l : ledger_ok l → ledger_ok (endEntry token listed l).
Proof.
  intros Hok. destruct (endEntry_fixed token listed l) as (Hw & Ht & Hn). destruct (entryAt l token) as [e|] eqn:E;
    [|unfold endEntry; by rewrite E].
  split; rewrite ?Hw, ?Ht, ?Hn; try apply Hok.
  - unfold endEntry. rewrite E. apply jdel_wf, Hok.
  - intros b e'. rewrite endEntry_get. case_decide; [done|apply Hok].
  - intros w. unfold endEntry. rewrite E. cbn [ended]. rewrite pushed_get by apply Hok.
    case_decide as Hx; [intros _; by apply Hok|apply Hok].
  - intros w. rewrite endEntry_ended, E by done. case_decide; [|apply Hok]. rewrite fmap_app. apply NoDup_app.
    split_and!; [apply Hok| |apply NoDup_singleton]. intros b Hb ->%list_elem_of_singleton.
    destruct (lo_gone l Hok w _ Hb) as [Hx _]. cbn in Hx. congruence.
  - intros w b. rewrite endEntry_ended, E, endEntry_get by done.
    assert (b ∈ (endedIn w l).*1 → (if decide (token = b) then None else entryAt l b) = None ∧ (b < nextToken l)%nat) as H.
    { intros Hb. destruct (lo_gone l Hok w b Hb) as [-> ?]. by case_decide. }
    destruct (decide (w ∈ openWindows l)); [|done]. rewrite fmap_app, elem_of_app. intros [Hb|Hb]; [by apply H|].
    apply list_elem_of_singleton in Hb as ->. cbn. rewrite decide_True by done. split; [done|by eapply Hok].
Qed.

(** Changes of one present entry, and a new one. *)
Lemma bind_get token bound l b :
  entryAt (bind token bound l) b = if decide (token = b) then
    (λ e, mkLedgerEntry (reason e) bound false (processId e) (handedOffUntilMs e) (handedOff e)) <$> entryAt l b else entryAt l b.
Proof.
  unfold bind. destruct (entryAt l token) as [e|] eqn:E; cbn [entries with_entries]; [rewrite jget_set|];
    (case_decide; [subst; by rewrite E|done]).
Qed.
Lemma handOff_get token d until pid l b :
  entryAt (handOff token d until pid l) b = if decide (token = b) then
    (λ e, mkLedgerEntry None (orElse d (deviceId e)) false (orElse pid (processId e)) (Some until) true) <$> entryAt l b
    else entryAt l b.
Proof.
  unfold handOff. destruct (entryAt l token) as [e|] eqn:E; cbn [entries with_entries]; [rewrite jget_set|];
    (case_decide; [subst; by rewrite E|done]).
Qed.
(** Only what an entry says changes. *)
Record same_shape (l l' : BootAdmissionLedger) : Prop := {
  ss_open : openWindows l' = openWindows l; ss_ended : ended l' = ended l;
  ss_token : nextToken l' = nextToken l; ss_window : nextWindow l' = nextWindow l;
  ss_wf : jwf (entries l) → jwf (entries l');
  ss_keys : ∀ b, is_Some (entryAt l' b) ↔ is_Some (entryAt l b) }.
Lemma same_shape_ok l l' : same_shape l l' → ledger_ok l → ledger_ok l'.
Proof.
  intros [Ho He Ht Hw Hf Hk] [A B C D E F G]. unfold endedIn in *. split; unfold endedIn; rewrite ?Ho, ?He, ?Ht, ?Hw; auto.
  - intros b e Hb. destruct (proj1 (Hk b)) as [e' He']; [by eexists|]. by eapply B.
  - intros w b Hb. destruct (G w b Hb) as [Hn Hl]. split; [|done]. destruct (entryAt l' b) as [e|] eqn:Eb; [|done].
    destruct (proj1 (Hk b)) as [e' He']; [by eexists|congruence].
Qed.
Lemma bind_shape token bound l : same_shape l (bind token bound l).
Proof.
  split; try (unfold bind; by destruct (entryAt l token)).
  - unfold bind. destruct (entryAt l token); [apply jset_wf|done].
  - intros b. rewrite bind_get. case_decide; [by rewrite fmap_is_Some|done].
Qed.
Lemma handOff_shape token d until pid l : same_shape l (handOff token d until pid l).
Proof.
  split; try (unfold handOff; by destruct (entryAt l token)).
  - unfold handOff. destruct (entryAt l token); [apply jset_wf|done].
  - intros b. rewrite handOff_get. case_decide; [by rewrite fmap_is_Some|done].
Qed.
Lemma admit_get d rep why l b :
  entryAt (admitBoot d rep why l).2 b =
    if decide (nextToken l = b) then Some (mkLedgerEntry (Some why) d rep None None false) else entryAt l b.
Proof. cbn [admitBoot snd entries]. by rewrite jget_set. Qed.
Lemma admit_ok d rep why l : ledger_ok l → ledger_ok (admitBoot d rep why l).2.
Proof.
  intros [A B C D E F G]. split; cbn [admitBoot snd entries openWindows ended nextToken nextWindow]; auto.
  - by apply jset_wf.
  - intros b e. rewrite jget_set. case_decide; [lia|]. intros Hb. specialize (B b e Hb). lia.
  - intros w b Hb. destruct (G w b Hb) as [Hn Hl]. rewrite jget_set, decide_False by lia. split; [done|lia].
Qed.
Lemma beginSample_ended l w : ledger_ok l → endedIn w (beginSample l).2 = endedIn w l.
Proof.
  intros Hok. unfold endedIn. cbn [beginSample snd ended]. rewrite jget_set. case_decide as Hw; [|done]. subst w.
  destruct (jget (nextWindow l) (ended l)) as [x|] eqn:E; [|done].
  assert (nextWindow l < nextWindow l)%nat by (apply (lo_known l Hok); by eexists). lia.
Qed.
Lemma beginSample_ok l : ledger_ok l → ledger_ok (beginSample l).2.
Proof.
  intros Hok. pose proof (beginSample_ended l) as He. destruct Hok as [A B C D E F G].
  assert (ledger_ok l) as Hok by (by split).
  split; cbn [beginSample snd entries openWindows nextToken nextWindow]; try done.
  - intros w. rewrite elem_of_sadd. intros [->|Hw]; [lia|]. specialize (C w Hw). lia.
  - by apply sadd_NoDup.
  - intros w. cbn [ended]. rewrite jget_set. case_decide as Hw; [intros _; lia|]. intros Hx. specialize (E w Hx). lia.
  - intros w. change (NoDup (endedIn w (beginSample l).2).*1). by rewrite He.
  - intros w b. change (b ∈ (endedIn w (beginSample l).2).*1 → entryAt l b = None ∧ (b < nextToken l)%nat). rewrite He by done.
    apply G.
Qed.
Lemma closeWindow_ok w l : ledger_ok l → ledger_ok (closeWindow w l).
Proof.
  intros [A B C D E F G]. split; cbn [closeWindow entries openWindows ended nextToken nextWindow]; auto.
  - intros v. rewrite elem_of_sdel. intros [_ Hv]. by apply C.
  - unfold sdel. by apply NoDup_filter.
Qed.

(** What a decision may do to the ledger: end entries handed off that its listing shows,
    or whose window passed. *)
Inductive swept (now : Z) (listing : list string) (l : BootAdmissionLedger) : BootAdmissionLedger → Prop :=
| swept_nil : swept now listing l l
| swept_end l' b e listed :
    swept now listing l l' → entryAt l' b = Some e → handedOffUntilMs e ≠ None →
    (isVisible listing e = true ∨ expired now e = true) → swept now listing l (endEntry b listed l').
Lemma swept_ok now listing l l' : swept now listing l l' → ledger_ok l → ledger_ok l'.
Proof. induction 1; [done|]. intros Hok. by apply endEntry_ok, IHswept. Qed.
Lemma swept_entries now listing l l' : swept now listing l l' → ∀ b e, entryAt l' b = Some e → entryAt l b = Some e.
Proof. induction 1 as [|l' b e lst H IH E Hh Hv]; [done|]. intros b' e'. rewrite endEntry_get. case_decide; [done|]. apply IH. Qed.
Lemma swept_kept now listing l l' :
  swept now listing l l' → ∀ b e, entryAt l b = Some e →
  (handedOffUntilMs e ≠ None → isVisible listing e = false ∧ expired now e = false) → entryAt l' b = Some e.
Proof.
  induction 1 as [|l' b e lst H IH E Hh Hv]; [done|]. intros b' e' E' Hn. rewrite endEntry_get. specialize (IH b' e' E' Hn).
  case_decide as Hb; [|done]. subst b'. rewrite E in IH. injection IH as <-. destruct (Hn Hh) as [H1 H2].
  destruct Hv as [Hv|Hv]; congruence.
Qed.
Lemma swept_open now listing l l' : swept now listing l l' → openWindows l' = openWindows l.
Proof. induction 1 as [|l' b e lst H IH E Hh Hv]; [done|]. destruct (endEntry_fixed b lst l') as (-> & _). done. Qed.
Lemma swept_next now listing l l' : swept now listing l l' → nextToken l' = nextToken l ∧ nextWindow l' = nextWindow l.
Proof. induction 1 as [|l' b e lst H IH E Hh Hv]; [done|]. destruct (endEntry_fixed b lst l') as (_ & -> & ->). done. Qed.
(** An entry that goes is kept by every open window, with the same device. *)
Lemma swept_ended now listing l l' :
  swept now listing l l' → ledger_ok l → ∀ w, w ∈ openWindows l → ∀ b e,
    (entryAt l b = Some e ∨ (b, e) ∈ endedIn w l) →
    ∃ e', deviceId e' = deviceId e ∧ (entryAt l' b = Some e' ∨ (b, e') ∈ endedIn w l').
Proof.
  induction 1 as [|l' b0 e0 lst H IH E Hh Hv]; intros Hok w Hw b e Hbe; [by exists e|].
  destruct (IH Hok w Hw b e Hbe) as (e' & Hd & He'). pose proof (swept_ok _ _ _ _ H Hok) as Hok'.
  rewrite <- (swept_open _ _ _ _ H) in Hw.
  pose proof (endEntry_get b0 lst l' b) as Hg.
  pose proof (endEntry_ended b0 lst l' w Hok') as Hn. rewrite E, decide_True in Hn by done.
  destruct He' as [He'|He'].
  - destruct (decide (b0 = b)) as [->|]; [|exists e'; rewrite Hg; auto]. rewrite E in He'. injection He' as ->.
    exists (keptEntry lst e'). split; [by destruct lst|]. right. rewrite Hn.
    apply elem_of_app. right. by left.
  - exists e'. split; [done|]. right. rewrite Hn. apply elem_of_app. by left.
Qed.

(** ** What a view counts, and what it ends *)

Definition stillPending (now : Z) (listing : list string) (exclude : option string) (e : LedgerEntry) : bool :=
  negb (expired now e) && negb (isVisible listing e) && notExcluded exclude e.
Definition pendingIn (now : Z) (listing : list string) (exclude : option string) (w : nat) (l : BootAdmissionLedger) : list Tokened :=
  filter (λ e, stillPending now listing exclude e.2 = true) (endedIn w l ++ entries l).
Definition others (exclude : option string) (listing : list string) : list string := filter (λ d, Some d ≠ exclude) listing.

Lemma expired_handedOff now e : expired now e = true → handedOffUntilMs e ≠ None.
Proof. unfold expired. by destruct (handedOffUntilMs e). Qed.
Lemma view_fold visible exclude pids now es :
  ∀ l0 l found n, swept now visible l0 l →
  (∀ b e, (b, e) ∈ es → entryAt l b = Some e ∨ entryAt l b = None) →
  let r := foldl (viewStep visible exclude pids now) (l, (found, n)) es in
  swept now visible l0 r.1 ∧ r.2.1 = found ++ filter (λ e, stillPending now visible exclude e.2 = true) es.
Proof.
  induction es as [|[b e] es IH]; intros l0 l found n Hs Hes; cbn [foldl]; [by rewrite app_nil_r|].
  assert (∀ lst b' e', (b', e') ∈ es → entryAt (endEntry b lst l) b' = Some e' ∨ entryAt (endEntry b lst l) b' = None) as Hend.
  { intros lst b' e' Hin. rewrite endEntry_get. case_decide; [by right|]. apply Hes. by right. }
  assert (∀ b' e', (b', e') ∈ es → entryAt l b' = Some e' ∨ entryAt l b' = None) as Hsame by (intros; apply Hes; by right).
  assert (∀ lst, handedOffUntilMs e ≠ None → isVisible visible e = true ∨ expired now e = true →
    swept now visible l0 (endEntry b lst l)) as Hsw.
  { intros lst Hh Hv. destruct (Hes b e ltac:(by left)) as [E|E]; [by eapply swept_end|]. unfold endEntry. by rewrite E. }
  assert (∀ lst, viewStep visible exclude pids now (l, (found, n)) (b, e) = (endEntry b lst l, (found, n)) →
    handedOffUntilMs e ≠ None → isVisible visible e = true ∨ expired now e = true →
    stillPending now visible exclude e = false →
    let r := foldl (viewStep visible exclude pids now) (viewStep visible exclude pids now (l, (found, n)) (b, e)) es in
    swept now visible l0 r.1 ∧ r.2.1 = found ++ filter (λ e, stillPending now visible exclude e.2 = true) ((b, e) :: es)) as Hgone.
  { intros lst -> Hh Hv Hp. rewrite filter_cons. cbn [snd]. rewrite decide_False by congruence. apply IH; [by apply Hsw|apply Hend]. }
  assert (stillPending now visible exclude e = false → viewStep visible exclude pids now (l, (found, n)) (b, e) = (l, (found, n)) →
    let r := foldl (viewStep visible exclude pids now) (viewStep visible exclude pids now (l, (found, n)) (b, e)) es in
    swept now visible l0 r.1 ∧ r.2.1 = found ++ filter (λ e, stillPending now visible exclude e.2 = true) ((b, e) :: es)) as Hskip.
  { intros Hp ->. rewrite filter_cons. cbn [snd]. rewrite decide_False by congruence. by apply IH. }
  assert (stillPending now visible exclude e = true → (∃ m, viewStep visible exclude pids now (l, (found, n)) (b, e) = (l, (found ++ [(b, e)], m))) →
    let r := foldl (viewStep visible exclude pids now) (viewStep visible exclude pids now (l, (found, n)) (b, e)) es in
    swept now visible l0 r.1 ∧ r.2.1 = found ++ filter (λ e, stillPending now visible exclude e.2 = true) ((b, e) :: es)) as Hkeep.
  { intros Hp [m ->]. rewrite filter_cons. cbn [snd]. rewrite decide_True by done.
    destruct (IH l0 l (found ++ [(b, e)]) m Hs Hsame) as [H1 H2]. split; [done|]. by rewrite H2, <- app_assoc. }
  unfold viewStep, stillPending, expired in Hgone, Hskip, Hkeep |- *. cbn [fst snd] in Hgone, Hskip, Hkeep |- *.
  destruct (handedOffUntilMs e) as [u|]; destruct (isVisible visible e), (notExcluded exclude e); try destruct (u <=? now);
    cbn [negb andb orb] in *; eauto.
Qed.
Lemma inFlightView_spec visible exclude pids now w l :
  ledger_ok l →
  swept now visible l (inFlightView visible exclude pids now (Some w) l).2 ∧
  count (inFlightView visible exclude pids now (Some w) l).1 = Z.of_nat (length (pendingIn now visible exclude w l)).
Proof.
  intros Hok. unfold inFlightView. set (kept := endedDuringSample visible exclude now (endedIn w l)). set (n := Z.of_nat _).
  pose proof (view_fold visible exclude pids now (entries l) l l kept n (swept_nil _ _ _)) as Hf.
  specialize (Hf ltac:(intros b e Hin; left; apply jget_wf_in; [apply Hok|done])).
  destruct (foldl _ _ _) as [l' [found m]]. cbn in Hf |- *. destruct Hf as [Hs ->]. split; [done|].
  unfold pendingIn, kept. by rewrite filter_app.
Qed.

(** Entries that ran out of their window are not pending: ending them changes no count. *)
Lemma filter_jdel (P : Tokened → Prop) `{∀ e, Decision (P e)} b e (m : JsMap nat LedgerEntry) :
  jwf m → jget b m = Some e → ¬ P (b, e) → filter P (jdel b m) = filter P m.
Proof.
  intros Hwf Hb Hn. assert (∀ e', (b, e') ∈ m → e' = e) as Hu.
  { intros e' Hin. apply jget_wf_in in Hin; [|done]. congruence. }
  clear Hwf Hb. unfold jdel. induction m as [|[b' e'] m IH]; [done|]. rewrite !filter_cons. cbn [fst].
  specialize (IH ltac:(intros; apply Hu; by right)). destruct (decide (b' ≠ b)) as [Hne|Heq].
  - rewrite filter_cons. by rewrite IH.
  - apply dec_stable in Heq as ->. rewrite (Hu e') by by left. rewrite decide_False by done. exact IH.
Qed.
Lemma swept_expired_pending now listing exclude w l l' :
  swept now [] l l' → ledger_ok l → w ∉ openWindows l →
  pendingIn now listing exclude w l' = pendingIn now listing exclude w l.
Proof.
  induction 1 as [|l' b e lst H IH E Hh Hv]; intros Hok Hw; [done|]. rewrite <- IH by done.
  pose proof (swept_ok _ _ _ _ H Hok) as Hok'. unfold pendingIn. rewrite endEntry_ended, E by done.
  rewrite decide_False by (by rewrite (swept_open _ _ _ _ H)). rewrite !filter_app. f_equal.
  unfold endEntry. rewrite E. cbn [entries]. apply (filter_jdel _ b e); [apply Hok'|done|]. cbn [snd]. unfold stillPending.
  destruct Hv as [Hv| ->]; [|done]. unfold isVisible in Hv. by destruct (deviceId e).
Qed.
Lemma swept_expired_weaken now listing l l' : swept now [] l l' → swept now listing l l'.
Proof.
  induction 1 as [|l' b e lst H IH E Hh Hv]; [constructor|]. eapply swept_end; [done..|]. right.
  destruct Hv as [Hv|Hv]; [|done]. unfold isVisible in Hv. by destruct (deviceId e).
Qed.
Lemma swept_trans now listing l l1 l2 : swept now listing l l1 → swept now listing l1 l2 → swept now listing l l2.
Proof. intros H1. induction 1; [done|]. by eapply swept_end. Qed.
