(* ===== verification/BootCapacity.v ===== *)
(** * No boot is admitted past the limit

    The interface a gate offers the admission ([BootPolicy]): how it counts, and what
    it does to its ledger.  Against it, the host: devices that run, boots that may
    still start one, listings that are taken at some moment of a sample and judged
    later, any number of samples at a time. *)
From Stdlib Require Import Strings.String.
From S2P Require Import Prelude JsString JsMap BootLedger BootLedgerProofs.
From stdpp Require Import list sets gmap fin_sets.
Local Open Scope Z_scope.

(** ** What a gate offers *)

(** A gate judges samples of type [S] with a state of type [G] around the ledger: the
    devices of a sample, the limit it derives, and its verdict on one more boot. *)
Class BootPolicy (S G : Type) := {
  gateLedger : G → BootAdmissionLedger;
  onLedger : (BootAdmissionLedger → BootAdmissionLedger) → G → G;
  listing : S → list string;
  limitOf : Z → S → nat → option string → G → Z;
  judge : Z → option string → nat → S → G → outcome BootAdmissionError (() + RefusedCapacityDecision) * G }.
Class BootPolicyLaws (S G : Type) `{BootPolicy S G} := {
  onLedger_ledger f g : gateLedger (onLedger f g) = f (gateLedger g);
  judge_sweeps now s w x g : ledger_ok (gateLedger g) → swept now (listing s) (gateLedger g) (gateLedger (judge now x w s g).2);
  (** An admission counted every listed device and every pending boot, but the target's own. *)
  judge_counts now s w x g : ledger_ok (gateLedger g) → w ∉ openWindows (gateLedger g) → (judge now x w s g).1 = Returns (inl ()) →
    Z.of_nat (length (others x (listing s))) + Z.of_nat (length (pendingIn now (listing s) x w (gateLedger g))) <
    limitOf now s w x g }.

Section Host.
Context {S G : Type} `{BootPolicyLaws S G}.

Definition admitOn (device : option string) (replacing : bool) (why : BootAdmissionReason) (g : G) : nat * G :=
  (nextToken (gateLedger g), onLedger (λ l, (admitBoot device replacing why l).2) g).

(** The devices that run, the boots that may still start one, the device each boot
    started, and the listings taken but not judged yet. *)
Record Host := mkHost {
  gate : G; running : gset string; live : gset nat; startedAs : gmap nat string; listings : gmap nat (gset string) }.
Abbreviation led h := (gateLedger (gate h)).
Definition with_gate f h := mkHost (f (gate h)) (running h) (live h) (startedAs h) (listings h).

Definition judged (now : Z) (w : nat) (s : S) (device : option string) (replacing : bool) (why : BootAdmissionReason) (h : Host) :
    outcome BootAdmissionError ((() * nat) + RefusedCapacityDecision) * Host :=
  let '(res, g) := admitAfterSample (onLedger (closeWindow w)) (Some s) false (judge now device w)
    (λ _, admitOn device replacing why) (gate h) in
  (res, mkHost g (running h) (match res with Returns (inl (_, token)) => {[token]} ∪ live h | _ => live h end) (startedAs h)
          (delete w (listings h))).

(** What is assumed of hand-offs when a listing is judged: a boot handed off that may
    still start a device has not run out of its window, and a listing that shows its
    device shows the boot; a device whose boot has run out of its window is listed. *)
Definition handOffs_settled (now : Z) (w : nat) (L : gset string) (h : Host) : Prop :=
  (∀ b e, b ∈ live h → entryAt (led h) b = Some e → handedOffUntilMs e ≠ None →
     expired now e = false ∧ ∀ d, deviceId e = Some d → d ∉ L) ∧
  (∀ b e d, (entryAt (led h) b = Some e ∨ (b, e) ∈ endedIn w (led h)) → expired now e = true →
     startedAs h !! b = Some d → d ∈ running h → d ∈ L).
Definition names (bound : option string) (b : nat) (h : Host) : Prop :=
  ∀ d d', bound = Some d → startedAs h !! b = Some d' → d = d'.

Inductive HostEvent :=
| Sampled
| Listed (w : nat)
| Judged (now : Z) (w : nat) (s : S) (device : option string) (replacing : bool) (why : BootAdmissionReason)
| SampleFailed (w : nat)
| Bound (b : nat) (bound : option string)
| HandedOff (b : nat) (device : option string) (untilMs : Z) (process : option Z)
| Started (b : nat) (d : string)
| Released (b : nat)
| Stopped (d : string)
(** A device the gate did not grant, while no listing waits to be judged. *)
| StartedOutside (d : string).
Inductive host_step : HostEvent → Host → Host → Prop :=
| step_sample h : host_step Sampled h (with_gate (onLedger (λ l, (beginSample l).2)) h)
| step_list h w :
    w ∈ openWindows (led h) → listings h !! w = None →
    host_step (Listed w) h (mkHost (gate h) (running h) (live h) (startedAs h) (<[w := running h]> (listings h)))
| step_judge h now w s L device replacing why :
    listings h !! w = Some L → list_to_set (listing s) = L → handOffs_settled now w L h →
    host_step (Judged now w s device replacing why) h (judged now w s device replacing why h).2
| step_fail h w :
    host_step (SampleFailed w) h
      (mkHost (onLedger (closeWindow w) (gate h)) (running h) (live h) (startedAs h) (delete w (listings h)))
| step_bind h b bound : names bound b h → host_step (Bound b bound) h (with_gate (onLedger (bind b bound)) h)
| step_handOff h b device until pid :
    names device b h → host_step (HandedOff b device until pid) h (with_gate (onLedger (handOff b device until pid)) h)
| step_start h b e d :
    b ∈ live h → entryAt (led h) b = Some e → (deviceId e = None ∨ deviceId e = Some d) →
    host_step (Started b d) h
      (mkHost (gate h) ({[d]} ∪ running h) (live h ∖ {[b]}) (<[b := d]> (startedAs h)) (listings h))
| step_release h b :
    host_step (Released b) h
      (mkHost (onLedger (release b) (gate h)) (running h) (live h ∖ {[b]}) (startedAs h) (listings h))
| step_stop h d : host_step (Stopped d) h (mkHost (gate h) (running h ∖ {[d]}) (live h) (startedAs h) (listings h))
| step_outside h d :
    listings h = ∅ → host_step (StartedOutside d) h (mkHost (gate h) ({[d]} ∪ running h) (live h) (startedAs h) (listings h)).

(** ** The load

    The devices that run or that a live boot is for, and the live boots of no known device. *)
Definition isLive (h : Host) (e : Tokened) : bool := bool_decide (e.1 ∈ live h).
Definition named (h : Host) : gset string :=
  list_to_set (omap (λ e, deviceId e.2) (filter (λ e, isLive h e = true) (entries (led h)))).
Definition anonymous (h : Host) : gset nat :=
  list_to_set (filter (λ e, isLive h e && bool_decide (deviceId e.2 = None) = true) (entries (led h))).*1.
Definition load (h : Host) : Z := Z.of_nat (size (running h ∪ named h) + size (anonymous h)).

(** ** The invariant *)

Record host_ok (h : Host) : Prop := {
  ho_ledger : ledger_ok (led h);
  ho_live : ∀ b, b ∈ live h → is_Some (entryAt (led h) b);
  ho_started : ∀ b d, startedAs h !! b = Some d →
    b ∉ live h ∧ (b < nextToken (led h))%nat ∧
    (∀ e, entryAt (led h) b = Some e → deviceId e = None ∨ deviceId e = Some d) ∧
    (∀ w e, (b, e) ∈ endedIn w (led h) → deviceId e = None ∨ deviceId e = Some d);
  ho_open : ∀ w L, listings h !! w = Some L → w ∈ openWindows (led h);
  ho_seen : ∀ w L d, listings h !! w = Some L → d ∈ running h → d ∉ L →
    ∃ b e, startedAs h !! b = Some d ∧ (entryAt (led h) b = Some e ∨ (b, e) ∈ endedIn w (led h)) }.

(** A judgement: the ledger is swept, and on admission holds one more entry. *)
Lemma judged_spec now w s device replacing why h :
  host_ok h →
  let l0 := closeWindow w (led h) in let h' := (judged now w s device replacing why h).2 in
  ∃ l1, swept now (listing s) l0 l1 ∧ running h' = running h ∧ startedAs h' = startedAs h ∧ listings h' = delete w (listings h) ∧
    match (judged now w s device replacing why h).1 with
    | Returns (inl (_, token)) =>
        token = nextToken l0 ∧ led h' = (admitBoot device replacing why l1).2 ∧ live h' = {[token]} ∪ live h ∧
        Z.of_nat (length (others device (listing s))) + Z.of_nat (length (pendingIn now (listing s) device w l0)) <
        limitOf now s w device (onLedger (closeWindow w) (gate h))
    | _ => led h' = l1 ∧ live h' = live h
    end.
Proof.
  intros Hok. set (g0 := onLedger (closeWindow w) (gate h)). cbn zeta.
  pose proof (judge_sweeps now s w device g0) as Hs. pose proof (judge_counts now s w device g0) as Hc.
  assert (gateLedger g0 = closeWindow w (led h)) as Hg by apply onLedger_ledger. rewrite Hg in Hs, Hc.
  specialize (Hs (closeWindow_ok w _ (ho_ledger h Hok))). specialize (Hc (closeWindow_ok w _ (ho_ledger h Hok))).
  specialize (Hc ltac:(cbn; rewrite elem_of_sdel; tauto)).
  exists (gateLedger (judge now device w s g0).2). unfold judged, admitAfterSample, admitOn. fold g0.
  destruct (judge now device w s g0) as [[[[]|r]|e] g1]; cbn in *; split_and!; try done.
  - by destruct (swept_next _ _ _ _ Hs) as [-> _].
  - by rewrite onLedger_ledger.
  - by apply Hc.
Qed.

Lemma judged_ok now w s L device replacing why h :
  host_ok h → listings h !! w = Some L → handOffs_settled now w L h → list_to_set (listing s) = L →
  host_ok (judged now w s device replacing why h).2.
Proof.
  intros Hok Hw Hset HL. destruct (judged_spec now w s device replacing why h Hok) as (l1 & Hs & Hr & Ha & Hl & Hres).
  destruct Hok as [K1 K2 K3 K4 K5]. set (h' := (judged now w s device replacing why h).2) in *.
  assert (ledger_ok (closeWindow w (led h))) as K0 by by apply closeWindow_ok.
  pose proof (swept_ok _ _ _ _ Hs K0) as Kl. destruct (swept_next _ _ _ _ Hs) as [Hnt Hnw]. cbn in Hnt, Hnw.
  assert (∀ b, b ∈ live h → is_Some (entryAt l1 b)) as H2.
  { intros b Hb. destruct (K2 b Hb) as [e He]. exists e. apply (swept_kept _ _ _ _ Hs); [exact He|]. intros Hh.
    destruct (proj1 Hset b e Hb He Hh) as [Hx Hd]. split; [|done]. unfold isVisible. destruct (deviceId e) as [d|]; [|done].
    apply bool_decide_eq_false. intros Hin. apply (Hd d eq_refl). rewrite <- HL. by apply elem_of_list_to_set. }
  assert (∀ b d, startedAs h !! b = Some d → (∀ e, entryAt l1 b = Some e → deviceId e = None ∨ deviceId e = Some d) ∧
    (∀ v e, (b, e) ∈ endedIn v l1 → deviceId e = None ∨ deviceId e = Some d)) as H3.
  { intros b d Hb. destruct (K3 b d Hb) as (_ & _ & He & Hd). clear -He Hd Hs K0.
    induction Hs as [|l' b0 e0 lst Hs IH E Hh Hv]; [done|]. destruct IH as [I1 I2]. split.
    - intros e. rewrite endEntry_get. case_decide; [done|]. apply I1.
    - intros v e. rewrite endEntry_ended by (by eapply swept_ok). rewrite E. case_decide; [|apply I2].
      rewrite elem_of_app, list_elem_of_singleton. intros [?|[= -> ->]]; [by eapply I2|].
      destruct (I1 _ E) as [Hi|Hi]; [left|right]; by destruct lst. }
  assert (∀ v L' d, listings h' !! v = Some L' → d ∈ running h → d ∉ L' →
    v ∈ openWindows l1 ∧ ∃ b e, startedAs h !! b = Some d ∧ (entryAt l1 b = Some e ∨ (b, e) ∈ endedIn v l1)) as H5.
  { intros v L' d. rewrite Hl, lookup_delete_Some. intros [Hv HL'] Hd Hn.
    assert (v ∈ openWindows (closeWindow w (led h))) as Hv' by (apply elem_of_sdel; split; [done|by eapply K4]).
    split; [by rewrite (swept_open _ _ _ _ Hs)|]. destruct (K5 v L' d HL' Hd Hn) as (b & e & Hb & He).
    destruct (swept_ended _ _ _ _ Hs K0 v Hv' b e He) as (e' & _ & He'). by exists b, e'. }
  assert (∀ v L', listings h' !! v = Some L' → v ∈ openWindows l1) as H4.
  { intros v L'. rewrite Hl, lookup_delete_Some, (swept_open _ _ _ _ Hs). intros [Hv HL']. apply elem_of_sdel.
    split; [done|by eapply K4]. }
  destruct (judged now w s device replacing why h).1 as [[[[] token]|r]|e].
  - destruct Hres as (-> & Hled & Hlive & _). cbn [closeWindow nextToken] in Hlive.
    assert (∀ b, b ∈ live h ∨ (∃ d, startedAs h !! b = Some d) → nextToken l1 ≠ b) as Hne.
    { intros b [Hb|[d Hb]] <-; [destruct (K2 _ Hb) as [e He]; pose proof (lo_tokens _ K1 _ e He)|destruct (K3 _ d Hb) as (_ & ? & _)]; lia. }
    split; rewrite ?Hled, ?Ha, ?Hr, ?Hlive.
    + by apply admit_ok.
    + intros b. rewrite elem_of_union, elem_of_singleton, admit_get, Hnt. case_decide; [by intros _; eexists|].
      intros [->|Hb]; [done|]. by apply H2.
    + intros b d Hb. destruct (K3 b d Hb) as (Hnl & Hlt & _ & _). destruct (H3 b d Hb) as [I1 I2].
      assert (nextToken l1 ≠ b) as Hx by (apply Hne; right; by eexists). split_and!.
      * rewrite elem_of_union, elem_of_singleton. intros [->|?]; [lia|done].
      * cbn. lia.
      * intros e. rewrite admit_get, decide_False by done. apply I1.
      * exact I2.
    + exact H4.
    + intros v L' d Hv Hd Hn. destruct (H5 v L' d Hv Hd Hn) as (_ & b & e & Hb & He). exists b, e. split; [done|].
      rewrite admit_get, decide_False by (apply Hne; right; by eexists). exact He.
  - destruct Hres as (Hled & Hlive). split; rewrite ?Hled, ?Ha, ?Hr, ?Hlive; try done.
    + intros b d Hb. destruct (K3 b d Hb) as (Hnl & Hlt & _ & _). destruct (H3 b d Hb) as [I1 I2]. split_and!; [done|lia|done|done].
    + intros v L' d Hv Hd Hn. by destruct (H5 v L' d Hv Hd Hn) as (_ & ?).
  - destruct Hres as (Hled & Hlive). split; rewrite ?Hled, ?Ha, ?Hr, ?Hlive; try done.
    + intros b d Hb. destruct (K3 b d Hb) as (Hnl & Hlt & _ & _). destruct (H3 b d Hb) as [I1 I2]. split_and!; [done|lia|done|done].
    + intros v L' d Hv Hd Hn. by destruct (H5 v L' d Hv Hd Hn) as (_ & ?).
Qed.

(** Changes inside entries, and entries that end outside a judgement. *)
Lemma reshaped_ok f h :
  host_ok h → same_shape (led h) (f (led h)) →
  (∀ b d e', startedAs h !! b = Some d → entryAt (f (led h)) b = Some e' → deviceId e' = None ∨ deviceId e' = Some d) →
  host_ok (with_gate (onLedger f) h).
Proof.
  intros [K1 K2 K3 K4 K5] Hs Hd. pose proof (same_shape_ok _ _ Hs K1) as Kl. destruct Hs as [Ho He Ht Hw _ Hk].
  split; cbn [gate with_gate running live startedAs listings]; rewrite ?onLedger_ledger; try done.
  - intros b Hb. by apply Hk, K2.
  - intros b d Hb. destruct (K3 b d Hb) as (Hn & Hl & _ & Hi). split_and!; [done|lia|exact (λ e, Hd b d e Hb)|].
    unfold endedIn. rewrite He. apply Hi.
  - intros w L HL. rewrite Ho. by eapply K4.
  - intros w L d HL Hr Hn. destruct (K5 w L d HL Hr Hn) as (b & e & Hb & Hbe). destruct Hbe as [Hbe|Hbe].
    + destruct (proj2 (Hk b)) as [e' He']; [by eexists|]. exists b, e'. auto.
    + exists b, e. split; [done|]. right. unfold endedIn. by rewrite He.
Qed.
Lemma release_ok b h :
  host_ok h → host_ok (mkHost (onLedger (release b) (gate h)) (running h) (live h ∖ {[b]}) (startedAs h) (listings h)).
Proof.
  intros [K1 K2 K3 K4 K5]. unfold release. destruct (endEntry_fixed b false (led h)) as (Ho & Ht & Hw).
  split; cbn [gate running live startedAs listings]; rewrite ?onLedger_ledger.
  - by apply endEntry_ok.
  - intros b' Hb. apply elem_of_difference in Hb as [Hb Hn]. rewrite endEntry_get, decide_False by set_solver. by apply K2.
  - intros b' d Hb. destruct (K3 b' d Hb) as (Hn & Hl & He & Hi). split_and!; [set_solver|lia| |].
    + intros e. rewrite endEntry_get. case_decide; [done|apply He].
    + intros w e. rewrite endEntry_ended by done. destruct (entryAt (led h) b) as [e0|] eqn:E; [|apply Hi].
      case_decide; [|apply Hi]. rewrite elem_of_app, list_elem_of_singleton. intros [?|[= -> ->]]; [by eapply Hi|by apply He].
  - intros w L HL. rewrite Ho. by eapply K4.
  - intros w L d HL Hr Hn. destruct (K5 w L d HL Hr Hn) as (b' & e & Hb & Hbe). exists b', e. split; [done|].
    rewrite endEntry_get, endEntry_ended by done. destruct (entryAt (led h) b) as [e0|] eqn:E.
    + rewrite (decide_True (P := w ∈ openWindows (led h))) by (by eapply K4). destruct Hbe as [Hbe|Hbe]; [|right; apply elem_of_app; by left].
      case_decide; [|by left]. subst b'. rewrite E in Hbe. injection Hbe as ->. right. apply elem_of_app. right. by left.
    + case_decide; [|done]. subst b'. destruct Hbe as [Hbe|Hbe]; [congruence|by right].
Qed.

Lemma host_step_ok ev h h' : host_ok h → host_step ev h h' → host_ok h'.
Proof.
  intros Hok Hstep.
  destruct Hstep as [h|h w Hw Hl|h now w s L dev rep why HL Hs Hset|h w|h b bound Hname|h b dev until pid Hname|h b e d Hb He Hde|h b|h d|h d Hnone].
  - destruct Hok as [K1 K2 K3 K4 K5]. pose proof (beginSample_ended (led h)) as He.
    split; cbn [gate with_gate running live startedAs listings]; rewrite ?onLedger_ledger; try done.
    + by apply beginSample_ok.
    + intros b d Hb. destruct (K3 b d Hb) as (? & ? & ? & Hi). split_and!; try done. intros w e. rewrite He by done. apply Hi.
    + intros w L HL. cbn. apply elem_of_sadd. right. by eapply K4.
    + intros w L d HL Hr Hn. rewrite He by done. by apply (K5 w L).
  - destruct Hok as [K1 K2 K3 K4 K5]. split; cbn [gate running live startedAs listings]; try done.
    + intros v L. rewrite lookup_insert_Some. intros [[<- _]|[_ HL]]; [done|by eapply K4].
    + intros v L d. rewrite lookup_insert_Some. intros [[<- <-]|[_ HL]] Hr Hn; [done|by eapply K5].
  - by eapply judged_ok.
  - destruct Hok as [K1 K2 K3 K4 K5]. split; cbn [gate running live startedAs listings]; rewrite ?onLedger_ledger; try done.
    + by apply closeWindow_ok.
    + intros v L. rewrite lookup_delete_Some. intros [Hv HL]. apply elem_of_sdel. split; [done|by eapply K4].
    + intros v L d. rewrite lookup_delete_Some. intros [Hv HL]. by apply K5.
  - apply reshaped_ok; [done|apply bind_shape|]. intros b' d e' Hb'. rewrite bind_get. case_decide as Hx.
    + subst b'. destruct (entryAt (led h) b) as [e|]; [|done]. intros [= <-]. cbn. destruct bound as [x|]; [|by left].
      right. f_equal. by eapply Hname.
    + intros E. by apply (ho_started h Hok b' d Hb').
  - apply reshaped_ok; [done|apply handOff_shape|]. intros b' d e' Hb'. rewrite handOff_get. case_decide as Hx.
    + subst b'. destruct (entryAt (led h) b) as [e|] eqn:E; [|done]. intros [= <-]. cbn. destruct dev as [x|].
      * right. cbn. f_equal. by eapply Hname.
      * by apply (ho_started h Hok b d Hb').
    + intros E. by apply (ho_started h Hok b' d Hb').
  - destruct Hok as [K1 K2 K3 K4 K5]. split; cbn [gate running live startedAs listings]; try done.
    + intros b' Hb0. apply K2. set_solver.
    + intros b' d'. rewrite lookup_insert_Some. intros [[<- <-]|[Hne Hb']].
      * split_and!; [set_solver|by eapply (lo_tokens _ K1)| |].
        -- intros e' E'. rewrite He in E'. by injection E' as <-.
        -- intros w e' E'. assert (b ∈ (endedIn w (led h)).*1) as Hin by (apply list_elem_of_fmap; by exists (b, e')).
           destruct (lo_gone _ K1 w b Hin) as [Hx _]. cbn in Hx. congruence.
      * destruct (K3 b' d' Hb') as (? & ? & ? & ?). split_and!; [set_solver|done..].
    + intros w L d' HL. rewrite elem_of_union, elem_of_singleton. intros [->|Hr] Hn.
      * exists b, e. rewrite lookup_insert_eq. auto.
      * destruct (K5 w L d' HL Hr Hn) as (b' & e' & Hb' & He'). exists b', e'. split; [|done].
        rewrite lookup_insert_ne; [done|]. intros <-. by destruct (K3 b d' Hb').
  - by apply release_ok.
  - destruct Hok as [K1 K2 K3 K4 K5]. split; cbn [gate running live startedAs listings]; try done.
    intros w L d' HL Hr Hn. apply (K5 w L d'); [done|set_solver|done].
  - destruct Hok as [K1 K2 K3 K4 K5]. split; cbn [gate running live startedAs listings]; try done.
    intros w L d' HL. rewrite Hnone in HL. by rewrite lookup_empty in HL.
Qed.

(** ** Counting *)

Lemma elem_of_named h d :
  jwf (entries (led h)) → d ∈ named h ↔ ∃ b e, b ∈ live h ∧ entryAt (led h) b = Some e ∧ deviceId e = Some d.
Proof.
  intros Hwf. unfold named, isLive. rewrite elem_of_list_to_set, list_elem_of_omap. split.
  - intros ([b e] & Hin & Hd). rewrite list_elem_of_filter, bool_decide_eq_true in Hin. destruct Hin as [Hl Hin].
    exists b, e. split_and!; [done|by apply jget_wf_in|done].
  - intros (b & e & Hl & He & Hd). exists (b, e). split; [|done]. rewrite list_elem_of_filter, bool_decide_eq_true.
    split; [done|by apply jget_in].
Qed.
Lemma elem_of_anonymous h b :
  jwf (entries (led h)) → b ∈ anonymous h ↔ b ∈ live h ∧ ∃ e, entryAt (led h) b = Some e ∧ deviceId e = None.
Proof.
  intros Hwf. unfold anonymous, isLive. rewrite elem_of_list_to_set, list_elem_of_fmap. split.
  - intros ([b' e] & -> & Hin). rewrite list_elem_of_filter, andb_true_iff, !bool_decide_eq_true in Hin.
    destruct Hin as [[Hl Hd] Hin]. split; [done|]. exists e. split; [by apply jget_wf_in|done].
  - intros (Hl & e & He & Hd). exists (b, e). split; [done|]. rewrite list_elem_of_filter, andb_true_iff, !bool_decide_eq_true.
    split; [done|by apply jget_in].
Qed.
Lemma omap_small {A B} (f : A → option B) (l : list A) : (length (omap f l) <= length l)%nat.
Proof. induction l as [|x l IH]; [done|]. cbn. destruct (f x); cbn; lia. Qed.
Lemma list_to_set_small {A} `{Countable A} (l : list A) : (size (list_to_set l : gset A) <= length l)%nat.
Proof.
  induction l as [|x l IH]; [cbn; rewrite size_empty; lia|]. cbn [list_to_set length].
  assert (size ({[x]} ∪ list_to_set l : gset A) <= size ({[x]} : gset A) + size (list_to_set l : gset A))%nat as Hs.
  { rewrite size_union_alt. apply Nat.add_le_mono_l. apply subseteq_size. set_solver. }
  rewrite size_singleton in Hs. lia.
Qed.

Definition target (device : option string) : gset string := match device with Some d => {[d]} | None => ∅ end.
(** Everything of the host but the target's own is listed or pending. *)
Lemma load_is_counted now w L s device h :
  host_ok h → listings h !! w = Some L → list_to_set (listing s) = L → handOffs_settled now w L h →
  (size ((running h ∪ named h) ∖ target device) + size (anonymous h) <=
   length (others device (listing s)) + length (pendingIn now (listing s) device w (closeWindow w (led h))))%nat.
Proof.
  intros [K1 K2 K3 K4 K5] Hw HL [Hset1 Hset2]. pose proof (lo_wf _ K1) as Hwf.
  set (P := pendingIn now (listing s) device w (closeWindow w (led h))).
  set (anon := λ e : Tokened, e.1 ∈ live h ∧ deviceId e.2 = None).
  assert (length P = length (filter anon P) + length (filter (λ e, ¬ anon e) P))%nat as ->.
  { rewrite <- length_app. apply Permutation_length. symmetry. apply filter_app_complement. }
  assert (∀ b e d, (entryAt (led h) b = Some e ∨ (b, e) ∈ endedIn w (led h)) → d ∉ L → Some d ≠ device →
    (deviceId e = None ∨ deviceId e = Some d) → expired now e = false → (b, e) ∈ P) as HP.
  { intros b e d Hbe Hd Hdev Hid Hexp. unfold P, pendingIn. rewrite list_elem_of_filter, elem_of_app. split.
    - cbn [snd]. unfold stillPending, isVisible, notExcluded. rewrite Hexp. destruct Hid as [-> | ->]; cbn.
      + by destruct device.
      + rewrite bool_decide_eq_false_2; [cbn; by rewrite (bool_decide_eq_true_2 (Some d ≠ device)), orb_true_r|].
        rewrite <- HL, elem_of_list_to_set in Hd. done.
    - destruct Hbe as [Hbe|Hbe]; [right; by apply jget_in|by left]. }
  assert (∀ b e, b ∈ live h → entryAt (led h) b = Some e → expired now e = false) as Hexp.
  { intros b e Hb He. destruct (handedOffUntilMs e) as [u|] eqn:Hu; [|unfold expired; by rewrite Hu].
    apply (Hset1 b e Hb He). by rewrite Hu. }
  assert (anonymous h ⊆ list_to_set (filter anon P).*1) as Hanon.
  { intros b. rewrite elem_of_anonymous by done. intros (Hb & e & He & Hd). rewrite elem_of_list_to_set, list_elem_of_fmap.
    exists (b, e). split; [done|]. rewrite list_elem_of_filter. split; [done|]. unfold P, pendingIn.
    rewrite list_elem_of_filter, elem_of_app. split; [|right; by apply jget_in]. cbn. unfold stillPending, isVisible, notExcluded.
    rewrite (Hexp b e Hb He), Hd. by destruct device. }
  set (dev := λ e : Tokened, match startedAs h !! e.1 with Some d => Some d | None => deviceId e.2 end).
  assert ((running h ∪ named h) ∖ target device ⊆
    list_to_set (others device (listing s)) ∪ list_to_set (omap dev (filter (λ e, ¬ anon e) P))) as Hdev.
  { intros d. rewrite elem_of_difference, !elem_of_union, !elem_of_list_to_set. intros [Hd Ht].
    assert (Some d ≠ device) as Hne by (intros <-; apply Ht; cbn; set_solver).
    destruct (decide (d ∈ L)) as [HdL|HdL].
    { left. unfold others. rewrite list_elem_of_filter. split; [done|]. by rewrite <- HL, elem_of_list_to_set in HdL. }
    right. rewrite list_elem_of_omap. destruct (decide (d ∈ running h)) as [Hr|Hr].
    - destruct (K5 w L d Hw Hr HdL) as (b & e & Hb & Hbe). destruct (K3 b d Hb) as (Hnl & _ & Hi1 & Hi2).
      exists (b, e). split; [|unfold dev; cbn; by rewrite Hb]. rewrite list_elem_of_filter. split; [unfold anon; cbn; tauto|].
      apply (HP b e d); try done; [destruct Hbe; eauto|]. destruct (expired now e) eqn:Hx; [|done].
      destruct HdL. by eapply Hset2.
    - destruct Hd as [?|Hd]; [done|]. apply elem_of_named in Hd as (b & e & Hb & He & Hid); [|done].
      assert (startedAs h !! b = None) as Hs.
      { destruct (startedAs h !! b) as [d'|] eqn:E; [|done]. by destruct (K3 b d' E) as [? _]. }
      exists (b, e). split; [|unfold dev; cbn; by rewrite Hs]. rewrite list_elem_of_filter.
      split; [unfold anon; cbn; intros [_ ?]; congruence|]. apply (HP b e d); auto. by apply (Hexp b). }
  apply subseteq_size in Hanon. apply subseteq_size in Hdev.
  pose proof (list_to_set_small (filter anon P).*1) as H1. rewrite length_fmap in H1.
  pose proof (list_to_set_small (others device (listing s))) as H2.
  pose proof (list_to_set_small (omap dev (filter (λ e, ¬ anon e) P))) as H3.
  assert (length (omap dev (filter (λ e, ¬ anon e) P)) <= length (filter (λ e, ¬ anon e) P))%nat as H4 by apply omap_small.
  assert (size (list_to_set (others device (listing s)) ∪ list_to_set (omap dev (filter (λ e, ¬ anon e) P)) : gset string) <=
    size (list_to_set (others device (listing s)) : gset string) +
    size (list_to_set (omap dev (filter (λ e, ¬ anon e) P)) : gset string))%nat as H5.
  { rewrite size_union_alt. apply Nat.add_le_mono_l. apply subseteq_size. set_solver. }
  lia.
Qed.

Lemma union_size_le {A} `{Countable A} (X Y : gset A) : (size (X ∪ Y) <= size X + size Y)%nat.
Proof. rewrite size_union_alt. apply Nat.add_le_mono_l. apply subseteq_size. set_solver. Qed.

(** After an admission the load is what was counted, and one more. *)
Lemma admitted_load now w L s device replacing why h token :
  host_ok h → listings h !! w = Some L → list_to_set (listing s) = L → handOffs_settled now w L h →
  (judged now w s device replacing why h).1 = Returns (inl ((), token)) →
  load (judged now w s device replacing why h).2 <= limitOf now s w device (onLedger (closeWindow w) (gate h)).
Proof.
  intros Hok Hw HL Hset Hadm. destruct (judged_spec now w s device replacing why h Hok) as (l1 & Hs & Hr & _ & _ & Hres).
  pose proof (load_is_counted now w L s device h Hok Hw HL Hset) as Hcount.
  pose proof (judged_ok now w s L device replacing why h Hok Hw Hset HL) as [K1' _ _ _ _]. pose proof (ho_ledger h Hok) as K1.
  rewrite Hadm in Hres. set (h' := (judged now w s device replacing why h).2) in *.
  destruct Hres as (-> & Hled & Hlive & Hfit). cbn [closeWindow nextToken] in Hlive.
  assert (∀ b e, entryAt (led h') b = Some e → b ∈ live h' →
    b = nextToken (led h) ∧ deviceId e = device ∨ b ∈ live h ∧ entryAt (led h) b = Some e) as Hent.
  { intros b e. rewrite Hled, Hlive, admit_get. destruct (swept_next _ _ _ _ Hs) as [-> _]. cbn [closeWindow nextToken].
    case_decide as Hb; [intros [= <-] _; by left|]. intros E. rewrite elem_of_union, elem_of_singleton. intros [->|Hl]; [done|].
    right. split; [done|]. by apply (swept_entries _ _ _ _ Hs) in E. }
  assert (running h' ∪ named h' ⊆ ((running h ∪ named h) ∖ target device) ∪ target device) as Hn.
  { intros d. rewrite Hr, elem_of_union. rewrite elem_of_named by apply K1'. intros [Hd|(b & e & Hb & He & Hd)].
    - destruct (decide (d ∈ target device)); set_solver.
    - destruct (Hent b e He Hb) as [[_ Hx]|[Hl Hx]].
      + rewrite Hd in Hx. subst device. set_solver.
      + assert (d ∈ named h) by (apply elem_of_named; [apply K1|eauto]). destruct (decide (d ∈ target device)); set_solver. }
  assert (anonymous h' ⊆ anonymous h ∪ match device with Some _ => ∅ | None => {[nextToken (led h)]} end) as Ha.
  { intros b. rewrite elem_of_anonymous by apply K1'. intros (Hb & e & He & Hd). destruct (Hent b e He Hb) as [[-> Hx]|[Hl Hx]].
    - rewrite Hd in Hx. subst device. set_solver.
    - apply elem_of_union. left. apply elem_of_anonymous; [apply K1|eauto]. }
  apply subseteq_size in Hn. apply subseteq_size in Ha.
  pose proof (union_size_le ((running h ∪ named h) ∖ target device) (target device)) as Hn2.
  pose proof (union_size_le (anonymous h) match device with Some _ => ∅ | None => {[nextToken (led h)]} end) as Ha2.
  unfold load. destruct device as [d|]; cbn [target] in *; rewrite ?size_singleton, ?size_empty in *; lia.
Qed.

(** ** The load between admissions *)

(** A binding to another device, or to none, comes after the device it names is gone. *)
Definition vacated (b : nat) (bound : option string) (h : Host) : Prop :=
  ∀ e d, b ∈ live h → entryAt (led h) b = Some e → deviceId e = Some d → bound ≠ Some d →
    d ∉ running h ∧ ∀ b' e', b' ∈ live h → entryAt (led h) b' = Some e' → deviceId e' = Some d → b' = b.

(** One live boot that changes what it names, or stops being live. *)
Lemma load_moves h h' (b : nat) (was aft : option string) :
  jwf (entries (led h)) → jwf (entries (led h')) → running h' = running h → live h' = live h →
  (∀ b' e', b' ≠ b → entryAt (led h') b' = Some e' → ∃ e, entryAt (led h) b' = Some e ∧ deviceId e = deviceId e') →
  (∀ e', entryAt (led h') b = Some e' → ∃ e, entryAt (led h) b = Some e ∧ deviceId e = was ∧ deviceId e' = aft) →
  (∀ d, b ∈ live h → was = Some d → aft ≠ Some d →
     d ∉ running h ∧ ∀ b' e', b' ∈ live h → entryAt (led h) b' = Some e' → deviceId e' = Some d → b' = b) →
  load h' <= load h.
Proof.
  intros Hw Hw' Hr Hl Ho Hb Hv.
  destruct (decide (b ∈ live h ∧ is_Some (entryAt (led h') b) ∧ was ≠ aft)) as [(Hbl & [e' He'] & Hne)|Hsame].
  - destruct (Hb e' He') as (e & He & Hwas & His).
    assert (∀ d, d ∈ named h' → d ∈ named h ∧ Some d ≠ was ∨ aft = Some d) as Hnamed.
    { intros d. rewrite !elem_of_named by done. rewrite Hl. intros (b' & e1 & Hb' & He1 & Hd). destruct (decide (b' = b)) as [->|Hx].
      - right. congruence.
      - destruct (Ho b' e1 Hx He1) as (e2 & He2 & Hd2).
        destruct (decide (Some d = was)) as [Hdw|Hdw]; [|left; split; [exists b', e2; split_and!; congruence|done]].
        destruct (decide (aft = Some d)); [by right|]. exfalso. apply Hx. eapply (Hv d); eauto. congruence. }
    assert (anonymous h' ⊆ (anonymous h ∖ {[b]}) ∪ match aft with None => {[b]} | Some _ => ∅ end) as Ha.
    { intros b'. rewrite elem_of_anonymous, Hl by done. intros (Hb' & e1 & He1 & Hd). destruct (decide (b' = b)) as [->|Hx].
      - rewrite He' in He1. injection He1 as <-. rewrite Hd in His. subst aft. set_solver.
      - destruct (Ho b' e1 Hx He1) as (e2 & He2 & Hd2). apply elem_of_union. left. apply elem_of_difference.
        split; [|set_solver]. apply elem_of_anonymous; [done|]. split; [done|]. exists e2. split; [done|congruence]. }
    assert (running h' ∪ named h' ⊆ ((running h ∪ named h) ∖ target was) ∪ target aft) as Hn.
    { intros d. rewrite elem_of_union, Hr. intros [Hd|Hd].
      - destruct was as [x|]; [|set_solver]. destruct (decide (aft = Some x)) as [->|Hx]; [done|].
        destruct (Hv x Hbl eq_refl Hx) as [Hxr _]. set_solver.
      - destruct (Hnamed d Hd) as [[Hd' Hx]|Hx]; [|subst aft; set_solver]. destruct was as [x|]; [|set_solver].
        assert (d ≠ x) by congruence. set_solver. }
    apply subseteq_size in Hn. apply subseteq_size in Ha.
    pose proof (union_size_le ((running h ∪ named h) ∖ target was) (target aft)) as Hn2.
    pose proof (union_size_le (anonymous h ∖ {[b]}) match aft with None => {[b]} | Some _ => ∅ end) as Ha2.
    assert (size (anonymous h ∖ {[b]}) <= size (anonymous h))%nat as Ha3 by (apply subseteq_size; set_solver).
    assert (size ((running h ∪ named h) ∖ target was) + size (target was) <= size (running h ∪ named h))%nat as Hn3.
    { assert (target was ⊆ running h ∪ named h) as Ht.
      { destruct was as [x|]; [|set_solver]. intros d Hd. cbn in Hd. apply elem_of_singleton in Hd as ->. apply elem_of_union. right.
        apply elem_of_named; [done|]. exists b, e. done. }
      rewrite <- (size_union ((running h ∪ named h) ∖ target was) (target was)) by set_solver. apply subseteq_size. set_solver. }
    assert (was = None → size (anonymous h ∖ {[b]}) + 1 <= size (anonymous h))%nat as Ha4.
    { intros Hnone. assert (b ∈ anonymous h) as Hin by (apply elem_of_anonymous; [done|]; split; [done|]; exists e; split; congruence).
      pose proof (size_union (anonymous h ∖ {[b]}) ({[b]} : gset nat) ltac:(set_solver)) as Hu. rewrite size_singleton in Hu.
      rewrite <- Hu. apply subseteq_size. set_solver. }
    unfold load. destruct was as [x|], aft as [y|]; cbn [target] in *; rewrite ?size_singleton, ?size_empty in *; try lia; try done.
    all: specialize (Ha4 eq_refl); lia.
  - assert (∀ b' e1, b' ∈ live h → entryAt (led h') b' = Some e1 → ∃ e, entryAt (led h) b' = Some e ∧ deviceId e = deviceId e1) as H1.
    { intros b' e1 Hb' He1. destruct (decide (b' = b)) as [->|]; [|by eapply Ho]. destruct (Hb e1 He1) as (e & He & Hx & Hy).
      exists e. split; [done|]. destruct (decide (was = aft)); [congruence|]. exfalso. apply Hsame. split_and!; [done|by eexists|done]. }
    assert (named h' ⊆ named h) as Hn.
    { intros d. rewrite !elem_of_named, Hl by done. intros (b' & e1 & Hb' & He1 & Hd). destruct (H1 b' e1 Hb' He1) as (e2 & ? & ?).
      exists b', e2. split_and!; congruence. }
    assert (anonymous h' ⊆ anonymous h) as Ha.
    { intros b'. rewrite !elem_of_anonymous, Hl by done. intros (Hb' & e1 & He1 & Hd). destruct (H1 b' e1 Hb' He1) as (e2 & ? & ?).
      split; [done|]. exists e2. split; congruence. }
    unfold load. rewrite Hr. apply subseteq_size in Ha. assert (size (running h ∪ named h') <= size (running h ∪ named h))%nat
      by (apply subseteq_size; set_solver). lia.
Qed.

(** What starts a device, or ends a boot, moves load and adds none. *)
Lemma started_load b e d h :
  host_ok h → b ∈ live h → entryAt (led h) b = Some e → (deviceId e = None ∨ deviceId e = Some d) →
  load (mkHost (gate h) ({[d]} ∪ running h) (live h ∖ {[b]}) (<[b := d]> (startedAs h)) (listings h)) <= load h.
Proof.
  intros Hok Hb He Hd. pose proof (lo_wf _ (ho_ledger h Hok)) as Hwf. set (h' := mkHost _ _ _ _ _).
  assert (named h' ⊆ named h) as Hn.
  { intros x. rewrite !elem_of_named by done. cbn. intros (b' & e' & Hb' & He' & Hx). exists b', e'. set_solver. }
  assert (anonymous h' ⊆ anonymous h ∖ {[b]}) as Ha.
  { intros x. rewrite elem_of_difference, !elem_of_anonymous by done. cbn. intros (Hx & e' & He' & Hx'). set_solver. }
  apply subseteq_size in Ha. unfold load. cbn [running h']. destruct Hd as [Hd|Hd].
  - assert (b ∈ anonymous h) as Hin by (apply elem_of_anonymous; eauto).
    pose proof (size_union (anonymous h ∖ {[b]}) ({[b]} : gset nat) ltac:(set_solver)) as Hu. rewrite size_singleton in Hu.
    assert (size (anonymous h ∖ {[b]} ∪ {[b]}) <= size (anonymous h))%nat by (apply subseteq_size; set_solver).
    assert (size ({[d]} ∪ running h ∪ named h') <= size ({[d]} ∪ (running h ∪ named h)))%nat by (apply subseteq_size; set_solver).
    pose proof (union_size_le {[d]} (running h ∪ named h)) as Hs. rewrite size_singleton in Hs. lia.
  - assert (d ∈ named h) as Hin by (apply elem_of_named; eauto).
    assert (size ({[d]} ∪ running h ∪ named h') <= size (running h ∪ named h))%nat by (apply subseteq_size; set_solver).
    assert (size (anonymous h ∖ {[b]}) <= size (anonymous h))%nat by (apply subseteq_size; set_solver). lia.
Qed.
(** Fewer live boots, entries or running devices. *)
Lemma shrunk_load h h' :
  jwf (entries (led h)) → jwf (entries (led h')) → running h' ⊆ running h → live h' ⊆ live h →
  (∀ b e, b ∈ live h' → entryAt (led h') b = Some e → entryAt (led h) b = Some e) → load h' <= load h.
Proof.
  intros Hw Hw' Hr Hl He. assert (named h' ⊆ named h) as Hn.
  { intros x. rewrite !elem_of_named by done. intros (b & e & Hb & Hbe & Hx). exists b, e. split_and!; auto. }
  assert (anonymous h' ⊆ anonymous h) as Ha.
  { intros x. rewrite !elem_of_anonymous by done. intros (Hx & e & Hbe & Hd). split; [auto|]. exists e. auto. }
  apply subseteq_size in Ha. assert (size (running h' ∪ named h') <= size (running h ∪ named h))%nat
    by (apply subseteq_size; set_solver). unfold load. lia.
Qed.

(** The first admission aside, an orderly host: no device from outside, limits of at
    most [n], and a boot that is bound anew was bound to a device that is gone. *)
Definition orderly (n : Z) (ev : HostEvent) (h : Host) : Prop :=
  match ev with
  | Judged now w s device _ _ => limitOf now s w device (onLedger (closeWindow w) (gate h)) <= n
  | Bound b bound => vacated b bound h
  | HandedOff b (Some d) _ _ => vacated b (Some d) h
  | StartedOutside _ => False
  | _ => True
  end.
Lemma bound_load b bound f h :
  host_ok h → same_shape (led h) (f (led h)) → vacated b bound h →
  (∀ b', entryAt (f (led h)) b' = if decide (b = b') then entryAt (f (led h)) b else entryAt (led h) b') →
  (∀ e', entryAt (f (led h)) b = Some e' → is_Some (entryAt (led h) b) ∧ deviceId e' = bound) →
  load (with_gate (onLedger f) h) <= load h.
Proof.
  intros Hok Hs Hv Hf Hb. pose proof (lo_wf _ (ho_ledger h Hok)) as Hwf.
  apply (load_moves h _ b (entryAt (led h) b ≫= deviceId) bound); cbn [gate with_gate running live]; rewrite ?onLedger_ledger; try done.
  - by apply Hs.
  - intros b' e' Hne. rewrite Hf, decide_False by congruence. intros He'. by exists e'.
  - intros e' He'. destruct (Hb e' He') as [[e He] Hd]. exists e. by rewrite He.
  - intros d Hbl Hd Hne. destruct (entryAt (led h) b) as [e|] eqn:E; [|done]. by apply (Hv e d).
Qed.
Lemma orderly_load n ev h h' : host_ok h → host_step ev h h' → orderly n ev h → load h <= n → load h' <= n.
Proof.
  intros Hok Hstep Hord Hn. pose proof (host_step_ok ev h h' Hok Hstep) as Hok'.
  pose proof (lo_wf _ (ho_ledger h Hok)) as Hwf. pose proof (lo_wf _ (ho_ledger h' Hok')) as Hwf'.
  destruct Hstep as [h|h w Hw Hl|h now w s L dev rep why HL Hs Hset|h w|h b bound Hname|h b dev until pid Hname|h b e d Hb He Hde|h b|h d|h d Hnone];
    cbn [orderly] in Hord.
  - transitivity (load h); [|done]. apply shrunk_load; try done. cbn [gate with_gate live]. rewrite onLedger_ledger. done.
  - done.
  - destruct (judged_spec now w s dev rep why h Hok) as (l1 & Hsw & Hr & _ & _ & Hres).
    destruct (judged now w s dev rep why h).1 as [[[[] token]|r]|err] eqn:Hadm.
    + pose proof (admitted_load now w L s dev rep why h token Hok HL Hs Hset Hadm). lia.
    + destruct Hres as [Hled Hlive]. transitivity (load h); [|done]. apply shrunk_load; [done|done|by rewrite Hr|by rewrite Hlive|].
      intros b e _. rewrite Hled. intros E. by apply (swept_entries _ _ _ _ Hsw) in E.
    + destruct Hres as [Hled Hlive]. transitivity (load h); [|done]. apply shrunk_load; [done|done|by rewrite Hr|by rewrite Hlive|].
      intros b e _. rewrite Hled. intros E. by apply (swept_entries _ _ _ _ Hsw) in E.
  - transitivity (load h); [|done]. apply shrunk_load; try done. cbn [gate live]. rewrite onLedger_ledger. done.
  - transitivity (load h); [|done]. apply (bound_load b bound); [done|apply bind_shape|done| |].
    + intros b'. rewrite bind_get. case_decide; [subst; by rewrite bind_get, decide_True|done].
    + intros e'. rewrite bind_get, decide_True by done. destruct (entryAt (led h) b); [|done]. by intros [= <-].
  - transitivity (load h); [|done]. set (bound := orElse dev (entryAt (led h) b ≫= deviceId)).
    apply (bound_load b bound); [done|apply handOff_shape| | |].
    + destruct dev as [x|]; [exact Hord|]. intros e d Hb He Hd Hne. unfold bound in Hne. rewrite He in Hne. cbn in Hne. congruence.
    + intros b'. rewrite handOff_get. case_decide; [subst; by rewrite handOff_get, decide_True|done].
    + intros e'. rewrite handOff_get, decide_True by done. unfold bound. destruct (entryAt (led h) b); [|done]. by intros [= <-].
  - transitivity (load h); [|done]. by eapply started_load.
  - transitivity (load h); [|done]. apply shrunk_load; try done; cbn [gate live]; [set_solver|].
    intros b' e _. rewrite onLedger_ledger. unfold release. rewrite endEntry_get. by case_decide.
  - transitivity (load h); [|done]. apply shrunk_load; try done. cbn. set_solver.
  - done.
Qed.
End Host.
