(* ===== verification/BootConcurrency.v ===== *)
(** * Boot permits

    [src/src/features/iosSimFleet/BootConcurrencyGate.ts]: first-come permits for the
    boots of simulators.  Waiters are numbered by arrival; what became of each is its
    promise, with the flag of the permit's own [release]. *)
From S2P Require Import Prelude JsMap.
From stdpp Require Import list sorting.
Local Open Scope Z_scope.

Inductive BootPermit := Held (released : bool) | Refused.
#[export] Instance BootPermit_eq_dec : EqDecision BootPermit.
Proof. solve_decision. Defined.
(** [granted] lists the waiters in the order of their grants. *)
Record BootConcurrencyGate := mkGate {
  limit : Z; running : Z; waiters : list nat; promises : JsMap nat BootPermit; granted : list nat; arrivals : nat }.

Definition grant (w : nat) (rest : list nat) (g : BootConcurrencyGate) : BootConcurrencyGate :=
  mkGate (limit g) (running g + 1) rest (jset w (Held false) (promises g)) (granted g ++ [w]) (arrivals g).
(** [drain] shifts the waiters one by one. *)
Fixpoint drainFrom (ws : list nat) (g : BootConcurrencyGate) : BootConcurrencyGate :=
  match ws with
  | [] => g
  | w :: rest => if running g <? limit g then drainFrom rest (grant w rest g) else g
  end.
Definition drain (g : BootConcurrencyGate) : BootConcurrencyGate := drainFrom (waiters g) g.

Inductive GateError := PermitAborted | RangeError.
Definition MAX_SAFE_INTEGER : Z := 2 ^ 53 - 1.
Definition setLimit (n : Z) (g : BootConcurrencyGate) : outcome GateError () * BootConcurrencyGate :=
  if (n <? 1) || (MAX_SAFE_INTEGER <? n) then (Throws RangeError, g)
  else (Returns (), drain (mkGate n (running g) (waiters g) (promises g) (granted g) (arrivals g))).
(** The constructor. *)
Definition newGate (n : Z) : outcome GateError () * BootConcurrencyGate := setLimit n (mkGate n 0 [] [] [] 0).
Definition acquire (aborted : bool) (g : BootConcurrencyGate) : outcome GateError nat * BootConcurrencyGate :=
  if aborted then (Throws PermitAborted, g)
  else (Returns (arrivals g),
        drain (mkGate (limit g) (running g) (waiters g ++ [arrivals g]) (promises g) (granted g) (S (arrivals g)))).
(** The signal of a waiter aborts; once granted it is no longer listened to. *)
Definition abortWaiter (w : nat) (g : BootConcurrencyGate) : BootConcurrencyGate :=
  if bool_decide (w ∈ waiters g)
  then mkGate (limit g) (running g) (filter (λ x, x ≠ w) (waiters g)) (jset w Refused (promises g)) (granted g) (arrivals g)
  else g.
Definition releasePermit (w : nat) (g : BootConcurrencyGate) : BootConcurrencyGate :=
  if bool_decide (jget w (promises g) = Some (Held false))
  then drain (mkGate (limit g) (running g - 1) (waiters g) (jset w (Held true) (promises g)) (granted g) (arrivals g))
  else g.
Definition status (g : BootConcurrencyGate) : Z * Z * Z := (limit g, running g, Z.of_nat (length (waiters g))).

Inductive PermitOp := SetLimit (n : Z) | Acquire (aborted : bool) | AbortWaiter (w : nat) | ReleasePermit (w : nat).
Definition permitStep (op : PermitOp) (g : BootConcurrencyGate) : BootConcurrencyGate :=
  match op with
  | SetLimit n => (setLimit n g).2
  | Acquire aborted => (acquire aborted g).2
  | AbortWaiter w => abortWaiter w g
  | ReleasePermit w => releasePermit w g
  end.

(** ** The invariant *)

Definition held (g : BootConcurrencyGate) : list nat := (filter (λ e, e.2 = Held false) (promises g)).*1.
(** All but the last: what holds while [drain] is still to run. *)
Record gate_sound (g : BootConcurrencyGate) : Prop := {
  gs_wf : jwf (promises g);
  gs_running : running g = Z.of_nat (length (held g));
  gs_order : StronglySorted lt (granted g ++ waiters g);
  gs_arrived : ∀ w, w ∈ granted g ++ waiters g → (w < arrivals g)%nat;
  gs_promised : ∀ w, is_Some (jget w (promises g)) → (w < arrivals g)%nat ∧ w ∉ waiters g;
  gs_granted : ∀ w, w ∈ granted g ↔ ∃ b, jget w (promises g) = Some (Held b) }.
Definition conserving (g : BootConcurrencyGate) : Prop := waiters g ≠ [] → limit g <= running g.

Lemma filter_jset_new (P : nat * BootPermit → Prop) `{∀ e, Decision (P e)} w p (m : JsMap nat BootPermit) :
  jget w m = None → filter P (jset w p m) = filter P m ++ filter P [(w, p)].
Proof. intros Hn. unfold jset. rewrite jhas_get, Hn, bool_decide_eq_false_2 by (by intros [? ?]). apply filter_app. Qed.
Lemma held_jset_same w p p' (m : JsMap nat BootPermit) :
  jwf m → jget w m = Some p →
  Z.of_nat (length (filter (λ e, e.2 = Held false) (jset w p' m))) =
  Z.of_nat (length (filter (λ e, e.2 = Held false) m)) - (if decide (p = Held false) then 1 else 0) +
    (if decide (p' = Held false) then 1 else 0).
Proof.
  intros Hwf Hw. unfold jset. rewrite jhas_get, Hw, bool_decide_eq_true_2 by (by eexists).
  revert Hwf Hw. induction m as [|[k v] m IH]; [done|]. unfold jwf, jkeys in *. rewrite fmap_cons. cbn [fst]. rewrite NoDup_cons.
  intros [Hk Hwf]. rewrite jget_cons, fmap_cons. cbn [fst]. destruct (decide (k = w)) as [->|Hne].
  - intros [= ->]. assert ((λ e : nat * BootPermit, if decide (e.1 = w) then (w, p') else e) <$> m = m) as ->.
    { transitivity (id <$> m); [|apply list_fmap_id]. apply list_fmap_ext. intros i [k' v'] Hi. cbn [fst id].
      destruct (decide (k' = w)) as [->|]; [|done]. destruct Hk. apply list_elem_of_fmap. exists (w, v').
      split; [done|]. by eapply list_elem_of_lookup_2. }
    rewrite !filter_cons. cbn [snd]. repeat case_decide; cbn [length]; try lia; congruence.
  - intros Hw. specialize (IH Hwf Hw). rewrite !filter_cons. cbn [snd].
    destruct (decide (v = Held false)); cbn [length]; repeat case_decide; lia.
Qed.
Lemma grant_sound w rest g : gate_sound g → waiters g = w :: rest → gate_sound (grant w rest g).
Proof.
  intros [K1 K2 K3 K4 K5 K6] Hw. rewrite Hw in *.
  assert (jget w (promises g) = None) as Hn.
  { destruct (jget w (promises g)) as [p|] eqn:E; [|done]. destruct (K5 w) as [_ Hx]; [by eexists|]. destruct Hx. by left. }
  assert (granted g ++ w :: rest = (granted g ++ [w]) ++ rest) as He by by rewrite <- app_assoc.
  split; cbn [grant limit running waiters promises granted arrivals].
  - by apply jset_wf.
  - unfold held in *. cbn [grant promises]. rewrite filter_jset_new by done. rewrite length_fmap in *. rewrite length_app, K2.
    rewrite (filter_cons _ (w, Held false)), decide_True by done. cbn [length filter list_filter]. lia.
  - by rewrite <- He.
  - intros x Hx. apply K4. by rewrite He.
  - intros x. rewrite jget_set. case_decide as Hx; [subst x; intros _|].
    + split; [apply K4, elem_of_app; right; by left|]. apply StronglySorted_app in K3 as (_ & _ & K3).
      apply StronglySorted_cons in K3 as [K3 _]. rewrite Forall_forall in K3. intros Hin. specialize (K3 w Hin). lia.
    + intros Hs. destruct (K5 x Hs) as [Hl Hx']. split; [done|]. intros Hin. apply Hx'. by right.
  - intros x. rewrite elem_of_app, list_elem_of_singleton, jget_set, K6. case_decide as Hx; [subst x|].
    + split; [intros _; by eexists|by right].
    + split; [intros [?|?]; [done|congruence]|by left].
Qed.
Lemma drain_sound g : gate_sound g → gate_sound (drain g) ∧ conserving (drain g) ∧ limit (drain g) = limit g ∧
  running (drain g) <= Z.max (running g) (limit g).
Proof.
  unfold drain. remember (waiters g) as ws eqn:Hws. symmetry in Hws. revert g Hws.
  induction ws as [|w ws IH]; intros g Hws Hg; cbn [drainFrom].
  - split_and!; [done|by intros ?|done|lia].
  - destruct (running g <? limit g) eqn:Hlt.
    + destruct (IH (grant w ws g) eq_refl (grant_sound w ws g Hg Hws)) as (H1 & H2 & H3 & H4). cbn [grant running limit] in *.
      split_and!; [done|done|done|lia].
    + split_and!; [done|intros _; lia|done|lia].
Qed.
Lemma arrivals_snoc (l : list nat) n : StronglySorted lt l → (∀ x, x ∈ l → (x < n)%nat) → StronglySorted lt (l ++ [n]).
Proof.
  intros Hs Hn. apply StronglySorted_app. split_and!; [|done|by repeat constructor]. intros x y Hx Hy%list_elem_of_singleton. subst y. auto.
Qed.
Lemma arrivals_filter (P : nat → Prop) `{∀ x, Decision (P x)} (l : list nat) : StronglySorted lt l → StronglySorted lt (filter P l).
Proof.
  induction l as [|x l IH]; [done|]. rewrite StronglySorted_cons, filter_cons, Forall_forall. intros [Hx Hl].
  case_decide; [|by apply IH]. apply StronglySorted_cons. split; [|by apply IH]. apply Forall_forall. intros y Hy.
  apply list_elem_of_filter in Hy as [_ Hy]. by apply Hx.
Qed.
Lemma permitStep_sound op g :
  gate_sound g → conserving g → gate_sound (permitStep op g) ∧ conserving (permitStep op g) ∧
  running (permitStep op g) <= Z.max (running g) (limit (permitStep op g)).
Proof.
  intros Hg Hc. destruct op as [n|aborted|w|w]; cbn [permitStep].
  - unfold setLimit. destruct (_ || _); cbn [snd]; [split_and!; [done|done|lia]|].
    set (g1 := mkGate _ _ _ _ _ _). assert (gate_sound g1) as H1 by by destruct Hg.
    destruct (drain_sound g1 H1) as (? & ? & -> & ?). split_and!; done.
  - unfold acquire. destruct aborted; cbn [snd]; [split_and!; [done|done|lia]|]. set (g1 := mkGate _ _ _ _ _ _).
    assert (gate_sound g1) as H1.
    { destruct Hg as [K1 K2 K3 K4 K5 K6]. split; cbn [g1 limit running waiters promises granted arrivals]; try done.
      - rewrite app_assoc. by apply arrivals_snoc.
      - intros x. rewrite app_assoc, elem_of_app, list_elem_of_singleton. intros [Hx| ->]; [|lia]. specialize (K4 x Hx). lia.
      - intros x Hx. destruct (K5 x Hx) as [Hl Hn]. split; [lia|]. rewrite elem_of_app, list_elem_of_singleton. intros [?| ->]; [done|lia]. }
    destruct (drain_sound g1 H1) as (? & ? & -> & ?). split_and!; done.
  - unfold abortWaiter. case_bool_decide as Hw; [|split_and!; [done|done|lia]]. split_and!; [| |cbn; lia].
    + destruct Hg as [K1 K2 K3 K4 K5 K6]. assert (jget w (promises g) = None) as Hn.
      { destruct (jget w (promises g)) as [p|] eqn:E; [|done]. destruct (K5 w) as [_ Hx]; [by eexists|done]. }
      split; cbn [limit running waiters promises granted arrivals].
      * by apply jset_wf.
      * unfold held in *. cbn [promises]. rewrite filter_jset_new by done. by rewrite app_nil_r.
      * apply StronglySorted_app in K3 as (H1 & H2 & H3). apply StronglySorted_app. split_and!; [|done|].
        -- intros x y Hx Hy. apply H1; [done|]. apply list_elem_of_filter in Hy. tauto.
        -- by apply arrivals_filter.
      * intros x. rewrite elem_of_app, list_elem_of_filter. intros [Hx|[_ Hx]]; apply K4, elem_of_app; auto.
      * intros x. rewrite jget_set, list_elem_of_filter. case_decide as Hx.
        -- subst x. intros _. split; [apply K4, elem_of_app; by right|tauto].
        -- intros Hs. destruct (K5 x Hs). tauto.
      * intros x. rewrite jget_set, K6. case_decide as Hx; [|done]. subst x. rewrite Hn. split; [by intros [? ?]|by intros [? ?]].
    + intros Hne. cbn [limit running waiters] in *. apply Hc. intros E. apply Hne. by rewrite E.
  - unfold releasePermit. case_bool_decide as Hw; [|split_and!; [done|done|lia]]. set (g1 := mkGate _ _ _ _ _ _).
    assert (gate_sound g1) as H1.
    { destruct Hg as [K1 K2 K3 K4 K5 K6]. split; cbn [g1 limit running waiters promises granted arrivals]; try done.
      - by apply jset_wf.
      - unfold held in *. cbn [g1 promises]. rewrite length_fmap in *. rewrite (held_jset_same w (Held false)) by done.
        rewrite decide_True, decide_False by done. lia.
      - intros x. rewrite jget_set. case_decide as Hx; [intros _; apply K5; subst x; by eexists|apply K5].
      - intros x. rewrite jget_set, K6. case_decide as Hx; [|done]. subst x. rewrite Hw. split; intros _; by eexists. }
    destruct (drain_sound g1 H1) as (? & ? & -> & ?). cbn [g1 running limit] in *. split_and!; [done|done|lia].
Qed.

(** ** Permits *)

Inductive permitsReach (n : Z) : BootConcurrencyGate → Prop :=
| reach_new : permitsReach n (newGate n).2
| reach_step op g : permitsReach n g → permitsReach n (permitStep op g).
Lemma newGate_sound n : gate_sound (newGate n).2 ∧ conserving (newGate n).2.
Proof.
  unfold newGate, setLimit. assert (∀ m, gate_sound (mkGate m 0 [] [] [] 0)) as H.
  { intros m. split; cbn; try done.
    - constructor.
    - constructor.
    - by intros w ?%elem_of_nil.
    - by intros w [? ?].
    - intros w. split; [by intros ?%elem_of_nil|by intros [? ?]]. }
  destruct (_ || _); cbn [snd]; [split; [apply H|by intros ?]|]. destruct (drain_sound _ (H n)) as (? & ? & _). done.
Qed.
Lemma permitsReach_sound n g : permitsReach n g → gate_sound g ∧ conserving g.
Proof.
  induction 1 as [|op g _ [IH1 IH2]]; [apply newGate_sound|]. by destruct (permitStep_sound op g IH1 IH2) as (? & ? & _).
Qed.
Lemma drainFrom_promise ws g w : w ∉ ws → jget w (promises (drainFrom ws g)) = jget w (promises g).
Proof.
  revert g. induction ws as [|x ws IH]; intros g Hw; [done|]. cbn [drainFrom]. rewrite not_elem_of_cons in Hw. destruct Hw as [Hx Hw].
  destruct (_ <? _); [|done]. rewrite IH by done. cbn [grant promises]. by rewrite jget_set, decide_False by done.
Qed.


Definition wGate : BootConcurrencyGate := permitStep (Acquire false) (permitStep (Acquire false) (newGate 1).2).
