(* ===== verification/BootProperties.v ===== *)
(** * Properties of boot admission

    Both gates implement [BootPolicy], so no host is taken past its limit by an
    admission of theirs; a slot given back is free; a reservation settles once. *)
From Stdlib Require Import Strings.String.
From S2P Require Import Prelude JsString JsMap BootLedger BootLedgerProofs BootGates BootCapacity.
From stdpp Require Import list sets gmap fin_sets.
Local Open Scope Z_scope.

(** ** The gates *)

Definition verdict {D} (r : outcome BootAdmissionError (D + RefusedCapacityDecision)) :
    outcome BootAdmissionError (() + RefusedCapacityDecision) :=
  match r with Returns (inl _) => Returns (inl ()) | Returns (inr x) => Returns (inr x) | Throws e => Throws e end.

Section Ios.
Context (limitsOf : FleetReport → list InFlightBootMemory → CapacityLimits) (retryAfter : Z) (owned : string → bool).

(** [admitBoot]: a warm match is a hint only, and the target has no slot of its own. *)
#[export] Instance ios_policy : BootPolicy (FleetReport * option WarmDeviceRequest) IosGate := {
  gateLedger := admittedBoots;
  onLedger f g := with_ledger (f (admittedBoots g)) g;
  listing s := occupyingUdids s.1 None;
  limitOf now s w _ g := maxBooted (limitsFor limitsOf now s.1 (Some w) g).1;
  judge now device w s g :=
    let '(r, g') := iosDecide limitsOf retryAfter now owned s.1 s.2 false device (Some w) false g in (verdict r, g') }.

Lemma limitsFor_sweeps now report w g :
  ledger_ok (admittedBoots g) →
  swept now [] (admittedBoots g) (admittedBoots (limitsFor limitsOf now report (Some w) g).2).
Proof.
  intros Hok. unfold limitsFor. destruct (hostRead report); [|constructor].
  destruct (inFlightView_spec [] None [] now w (admittedBoots g) Hok) as [Hs _]. by destruct (inFlightView _ _ _ _ _ _).
Qed.
Lemma forgetExited_ledger report g : admittedBoots (forgetExitedStarted report g) = admittedBoots g.
Proof.
  unfold forgetExitedStarted. generalize (startedUdids g). intros us. revert g.
  induction us as [|u us IH]; intros g; [done|]. cbn [foldl]. rewrite IH. unfold exitedStep.
  destruct (bool_decide _); [done|]. by destruct (shas _ _).
Qed.
Lemma occupying_others report device : length (occupyingUdids report device) = length (others device (occupyingUdids report None)).
Proof.
  unfold occupyingUdids, others. induction (simulators report) as [|sim sims IH]; [done|]. rewrite !filter_cons.
  destruct (bool_decide (state sim ∈ SLOT_OCCUPYING_STATES)); cbn [andb].
  - rewrite (decide_True (P := bool_decide (Some (udid sim) ≠ None) = true)) by by rewrite bool_decide_eq_true.
    cbn [fmap list_fmap]. rewrite filter_cons. destruct (decide (Some (udid sim) ≠ device)) as [Hd|Hd].
    + rewrite decide_True by by rewrite bool_decide_eq_true. cbn. f_equal. exact IH.
    + rewrite decide_False by by rewrite bool_decide_eq_true. exact IH.
  - rewrite !decide_False by done. exact IH.
Qed.

#[export] Instance ios_laws : BootPolicyLaws (FleetReport * option WarmDeviceRequest) IosGate.
Proof.
  split; [done|..]; intros now [report request] w device g Hok; cbn [gateLedger judge listing limitOf ios_policy fst snd] in *.
  - unfold iosDecide. destruct (inventoryFailed report); [constructor|]. set (warm := head _). cbn [snd].
    pose proof (limitsFor_sweeps now report w g Hok) as Hl.
    destruct (limitsFor limitsOf now report (Some w) g) as [lim g1]. cbn [snd] in Hl.
    pose proof (swept_ok _ _ _ _ Hl Hok) as Hok1. rewrite <- (forgetExited_ledger report g1) in Hok1, Hl.
    destruct (inFlightView_spec (occupyingUdids report None) device [] now w (admittedBoots (forgetExitedStarted report g1)) Hok1) as [Hs _].
    unfold inFlightCount. destruct (inFlightView _ _ _ _ _ _) as [v l']. cbn [snd] in Hs.
    assert (swept now (occupyingUdids report None) (admittedBoots g) l') as H by (eapply swept_trans; [by apply swept_expired_weaken|done]).
    destruct warm; destruct (atCapacityDecision _ _ _ _ _ _); exact H.
  - intros Hw. unfold iosDecide. destruct (inventoryFailed report); [done|]. set (warm := head _).
    pose proof (limitsFor_sweeps now report w g Hok) as Hl.
    destruct (limitsFor limitsOf now report (Some w) g) as [lim g1]. cbn [fst snd] in Hl |- *.
    pose proof (swept_ok _ _ _ _ Hl Hok) as Hok1. pose proof (swept_expired_pending now (occupyingUdids report None) device w _ _ Hl Hok Hw) as Hp.
    rewrite <- (forgetExited_ledger report g1) in Hok1, Hp.
    destruct (inFlightView_spec (occupyingUdids report None) device [] now w (admittedBoots (forgetExitedStarted report g1)) Hok1) as [_ Hc].
    unfold inFlightCount. destruct (inFlightView _ _ _ _ _ _) as [v l']. cbn [fst] in Hc. rewrite Hp in Hc.
    rewrite <- (occupying_others report device), <- Hc. unfold atCapacityDecision.
    destruct (_ <? maxBooted lim) eqn:Hlt; [|by destruct warm]. intros _. apply Z.ltb_lt in Hlt. exact Hlt.
Qed.
End Ios.

Section Android.
Context (limitsOf : AndroidCapacitySample → list InFlightBootMemory → CapacityLimits) (retryAfter : Z).

(** [admitNew]: the device to be replaced has its credit, peers come with the sample. *)
#[export] Instance android_policy : BootPolicy (AndroidCapacitySample * list HostBootAdmissionRecord) AndroidGate := {
  gateLedger := ledger;
  onLedger f g := mkAndroidGate (startedSerials g) (listedStartedSerials g) (f (ledger g));
  listing s := emulatorSerials s.1;
  limitOf now s w _ g := maxBooted (counted_limits (androidCount limitsOf now s.1 (Some w) s.2 (ledger g)).1);
  judge now device w s g :=
    let '(r, g') := androidDecide limitsOf retryAfter now s.1 (Some w) s.2 device g in (verdict (Returns r), g') }.

Lemma forgetExitedSerials_ledger sample g : ledger (forgetExitedSerials sample g) = ledger g.
Proof.
  unfold forgetExitedSerials. destruct (serialListingFailed sample); [done|]. generalize (startedSerials g). intros us. revert g.
  induction us as [|u us IH]; intros g; [done|]. cbn [foldl]. rewrite IH. unfold serialStep.
  destruct (bool_decide _); [done|]. by destruct (shas _ _).
Qed.
Lemma androidCount_spec now sample w peers l :
  ledger_ok l →
  swept now (emulatorSerials sample) l (androidCount limitsOf now sample (Some w) peers l).2 ∧
  Z.of_nat (length (emulatorSerials sample)) + Z.of_nat (length (pendingIn now (emulatorSerials sample) None w l)) <=
    effective (androidCount limitsOf now sample (Some w) peers l).1.
Proof.
  intros Hok. unfold androidCount. set (pids := mjoin _).
  destruct (inFlightView_spec (emulatorSerials sample) None pids now w l Hok) as [Hs Hc].
  destruct (inFlightView _ _ _ _ _ _) as [v l']. cbn in *. split; [done|]. rewrite Hc in *. lia.
Qed.
Lemma pending_less now L device w l : (length (pendingIn now L device w l) <= length (pendingIn now L None w l))%nat.
Proof.
  assert (∀ e, stillPending now L device e = true → stillPending now L None e = true) as Hi.
  { intros e. unfold stillPending. destruct (negb _ && negb _); [|done]. done. }
  unfold pendingIn. induction (endedIn w l ++ entries l) as [|e es IH]; [done|]. rewrite !filter_cons.
  specialize (Hi e.2). destruct (decide (stillPending now L device e.2 = true)) as [Hd|Hd].
  - rewrite decide_True by auto. cbn. lia.
  - case_decide; cbn; lia.
Qed.
Lemma others_credit L device :
  Z.of_nat (length (others device L)) <=
  Z.of_nat (length L) - match device with Some d => if bool_decide (d ∈ L) then 1 else 0 | None => 0 end.
Proof.
  unfold others. assert ((length (filter (λ d, Some d ≠ device) L) <= length L)%nat) as H.
  { induction L as [|x L IH]; [done|]. rewrite filter_cons. case_decide; cbn; lia. }
  destruct device as [d|]; [|lia]. case_bool_decide as Hd; [|lia].
  cut ((length (filter (λ x, Some x ≠ Some d) L) < length L)%nat); [lia|]. clear H.
  induction L as [|x L IH]; [by apply not_elem_of_nil in Hd|]. rewrite filter_cons. apply elem_of_cons in Hd as [->|Hd].
  - rewrite decide_False by tauto. cbn. apply Nat.lt_succ_r. clear IH. induction L as [|y L IH]; [done|]. rewrite filter_cons. case_decide; cbn; lia.
  - specialize (IH Hd). case_decide; cbn; lia.
Qed.
#[export] Instance android_laws : BootPolicyLaws (AndroidCapacitySample * list HostBootAdmissionRecord) AndroidGate.
Proof.
  split; [done|..]; intros now [sample peers] w device g Hok; cbn [gateLedger judge listing limitOf android_policy fst snd] in *.
  - unfold androidDecide. rewrite forgetExitedSerials_ledger.
    destruct (androidCount_spec now sample w peers (ledger g) Hok) as [Hs _]. destruct (androidCount _ _ _ _ _ _) as [c l'].
    cbn [snd] in Hs. destruct (_ <? _); [done|]. by destruct (atCapacityDecision _ _ _ _ _ _).
  - intros _. unfold androidDecide. rewrite forgetExitedSerials_ledger.
    destruct (androidCount_spec now sample w peers (ledger g) Hok) as [_ Hc]. destruct (androidCount _ _ _ _ _ _) as [c l'].
    cbn [fst snd] in *. pose proof (pending_less now (emulatorSerials sample) device w (ledger g)).
    pose proof (others_credit (emulatorSerials sample) device) as Ho. set (credit := match device with Some _ => _ | None => _ end) in *.
    assert (0 <= credit) by (unfold credit; destruct device; [case_bool_decide; lia|lia]).
    destruct (_ <? _) eqn:Hlt; [intros _; lia|]. unfold atCapacityDecision. destruct (effective c <? _) eqn:Hlt2; [lia|done].
Qed.
End Android.

(** ** Any lawful gate *)

Section Host.
Context {S G : Type} `{BootPolicyLaws S G}.

(** Nothing admitted yet: only devices that run already. *)
Definition starts (h : Host) : Prop :=
  gateLedger (gate h) = emptyLedger ∧ live h = ∅ ∧ startedAs h = ∅ ∧ listings h = ∅.
Inductive runs (h0 : Host) : Host → Prop :=
| runs_here : runs h0 h0
| runs_on ev h h' : runs h0 h → host_step ev h h' → runs h0 h'.
Inductive orderly_runs (n : Z) (h0 : Host) : Host → Prop :=
| orderly_here : orderly_runs n h0 h0
| orderly_on ev h h' : orderly_runs n h0 h → host_step ev h h' → orderly n ev h → orderly_runs n h0 h'.

Lemma starts_ok h : starts h → host_ok h.
Proof.
  intros (Hl & Hv & Hs & Hn). split; rewrite ?Hl, ?Hv, ?Hs, ?Hn.
  - apply emptyLedger_ok.
  - intros b Hb. set_solver.
  - intros b d Hb. by rewrite lookup_empty in Hb.
  - intros w L Hw. by rewrite lookup_empty in Hw.
  - intros w L d Hw. by rewrite lookup_empty in Hw.
Qed.
Lemma runs_ok h0 h : host_ok h0 → runs h0 h → host_ok h.
Proof. intros Hok. induction 1 as [|ev h h' _ IH Hs]; [done|by eapply host_step_ok]. Qed.
Lemma orderly_runs_load n h0 h : host_ok h0 → load h0 <= n → orderly_runs n h0 h → host_ok h ∧ load h <= n.
Proof.
  intros Hok Hn. induction 1 as [|ev h h' _ [IH1 IH2] Hs Ho]; [done|]. split; [by eapply host_step_ok|by eapply orderly_load].
Qed.

(** What is gone from the ledger stays gone, and no later window gets it. *)
Lemma endEntry_gone b b0 lst w l :
  ledger_ok l → entryAt l b = None → b ∉ (endedIn w l).*1 →
  entryAt (endEntry b0 lst l) b = None ∧ b ∉ (endedIn w (endEntry b0 lst l)).*1.
Proof.
  intros Hok Hb Hw. rewrite endEntry_get, endEntry_ended by done. split; [by case_decide|].
  destruct (entryAt l b0) as [e|] eqn:E; [|done]. case_decide; [|done].
  rewrite fmap_app, elem_of_app. cbn. rewrite list_elem_of_singleton. intros [?| ->]; [done|congruence].
Qed.
Lemma swept_gone now L b w l l' :
  swept now L l l' → ledger_ok l → entryAt l b = None → b ∉ (endedIn w l).*1 →
  entryAt l' b = None ∧ b ∉ (endedIn w l').*1.
Proof.
  induction 1 as [|l' b0 e lst Hs IH E Hh Hv]; [done|]. intros Hok Hb Hw. destruct (IH Hok Hb Hw).
  apply endEntry_gone; [by eapply swept_ok|done..].
Qed.
Lemma shape_gone b w l l' :
  same_shape l l' → entryAt l b = None → b ∉ (endedIn w l).*1 → entryAt l' b = None ∧ b ∉ (endedIn w l').*1.
Proof.
  intros [_ He _ _ _ Hk] Hb Hw. split; [|by unfold endedIn; rewrite He].
  destruct (entryAt l' b) as [e|] eqn:E; [|done]. destruct (proj1 (Hk b)) as [e' ?]; [by eexists|congruence].
Qed.
Definition gone (b w : nat) (h : Host) : Prop :=
  (b < nextToken (gateLedger (gate h)))%nat ∧ entryAt (gateLedger (gate h)) b = None ∧
  b ∉ (endedIn w (gateLedger (gate h))).*1.
Lemma host_step_gone ev b w h h' : host_ok h → host_step ev h h' → gone b w h → gone b w h'.
Proof.
  intros Hok Hstep (Hlt & Hb & Hw). pose proof (ho_ledger h Hok) as Kl. unfold gone.
  destruct Hstep as [h|h v Hv Hl|h now v s L dev rep why HL Hs Hset|h v|h b0 bound Hname|h b0 dev until pid Hname|h b0 e d Hb0 He Hde|h b0|h d|h d Hnone];
    cbn [gate with_gate]; rewrite ?onLedger_ledger; try done.
  - by rewrite beginSample_ended.
  - destruct (judged_spec now v s dev rep why h Hok) as (l1 & Hsw & _ & _ & _ & Hres).
    assert (ledger_ok (closeWindow v (gateLedger (gate h)))) as K0 by by apply closeWindow_ok.
    destruct (swept_gone now _ b w _ _ Hsw K0 Hb Hw) as [Hb1 Hw1]. destruct (swept_next _ _ _ _ Hsw) as [Ht _]. cbn in Ht.
    destruct (judged now v s dev rep why h).1 as [[[[] token]|r]|err].
    + destruct Hres as (_ & Hled & _). rewrite Hled, admit_get. cbn [admitBoot snd nextToken]. rewrite decide_False by lia.
      split_and!; [lia|done|exact Hw1].
    + destruct Hres as [-> _]. split_and!; [lia|done..].
    + destruct Hres as [-> _]. split_and!; [lia|done..].
  - destruct (shape_gone b w _ _ (bind_shape b0 bound (gateLedger (gate h))) Hb Hw). split_and!; [|done..].
    by rewrite (ss_token _ _ (bind_shape b0 bound _)).
  - destruct (shape_gone b w _ _ (handOff_shape b0 dev until pid (gateLedger (gate h))) Hb Hw). split_and!; [|done..].
    by rewrite (ss_token _ _ (handOff_shape b0 dev until pid _)).
  - destruct (endEntry_gone b b0 false w _ Kl Hb Hw). split_and!; [|done..].
    unfold release. by rewrite (proj1 (proj2 (endEntry_fixed b0 false _))).
Qed.
Lemma runs_gone b w h h' : host_ok h → runs h h' → gone b w h → gone b w h'.
Proof.
  intros Hok Hr Hg. induction Hr as [|ev h1 h2 Hr IH Hs]; [done|]. eapply host_step_gone; [by eapply runs_ok|done|done].
Qed.



(** A slot given back is free: once a boot is released, no sample begun afterwards
    counts it, whatever else happens in between. *)
Theorem released_slot_is_free (h0 h h' h'' : Host) b w e
    (Hstart : starts h0) (Hruns : runs h0 h) (Hentry : entryAt (gateLedger (gate h)) b = Some e)
    (Hrelease : host_step (Released b) h h') (Hnew : w = nextWindow (gateLedger (gate h'))) (Hlater : runs h' h'') now L device :
  b ∉ (pendingIn now L device w (gateLedger (gate h''))).*1.
Proof.
  pose proof (runs_ok h0 h (starts_ok h0 Hstart) Hruns) as Hok. pose proof (host_step_ok _ _ _ Hok Hrelease) as Hok'.
  assert (gone b w h') as Hg.
  { pose proof (ho_ledger h' Hok') as Kl. inversion Hrelease; subst. cbn [gate] in *. rewrite onLedger_ledger in *. unfold gone. cbn [gate].
    rewrite onLedger_ledger. unfold release in *. split_and!.
    - rewrite (proj1 (proj2 (endEntry_fixed b false _))). by eapply (lo_tokens _ (ho_ledger h Hok)).
    - by rewrite endEntry_get, decide_True.
    - unfold endedIn at 1. destruct (jget _ (ended _)) as [x|] eqn:E; [|by apply not_elem_of_nil].
      pose proof (lo_known _ Kl _ (ltac:(by eexists) : is_Some (jget _ _))) as Hlt. lia. }
  destruct (runs_gone b w h' h'' Hok' Hlater Hg) as (_ & Hb & Hw). unfold pendingIn.
  rewrite list_elem_of_fmap. intros ([b' e'] & -> & Hin). rewrite list_elem_of_filter, elem_of_app in Hin. cbn [fst] in *.
  destruct Hin as [_ [Hin|Hin]]; [apply Hw, list_elem_of_fmap; by exists (b', e')|].
  pose proof (runs_ok _ _ Hok' Hlater) as Hok''. apply jget_wf_in in Hin; [congruence|apply Hok''].
Qed.
End Host.

(** ** Reservations *)

(** A reservation is consumed or released once; after that it touches no entry. *)
Lemma reservation_settles_once bound p l :
  (active p = true →
     (takeReservation bound p l).1.1 = Some (slot p) ∧ active (takeReservation bound p l).1.2 = false ∧
     active (releaseReservation p l).1 = false ∧ entryAt (releaseReservation p l).2 (slot p) = None) ∧
  (active p = false →
     takeReservation bound p l = (None, p, l) ∧ releaseReservation p l = (p, l) ∧ markReplacedDeviceGone p l = l ∧
     (∀ ok, runEnd ok p l = (p, l)) ∧ runStart p = Throws ()).
Proof.
  unfold takeReservation, releaseReservation, markReplacedDeviceGone, runEnd, runStart, releaseReservation.
  split; intros ->; [|split_and!; try done; by intros []]. split_and!; [done..|]. cbn [snd]. unfold release.
  by rewrite endEntry_get, decide_True.
Qed.

(** ** Witnesses

    Two simulators run, the limit is three; two boots are judged on listings taken
    before either was admitted. *)
Definition wLimits (_ : FleetReport) (_ : list InFlightBootMemory) : CapacityLimits := mkLimits 3 env None.
Definition wSim (u : string) : SimulatorCost := mkSim u "Booted" "iOS-18" None None.
Definition wReport : FleetReport := mkReport [wSim "A"; wSim "B"] false true false.
Definition wGate : IosGate := mkIosGate [] [] [] [] 0 emptyLedger.
#[local] Instance wPolicy : BootPolicy (FleetReport * option WarmDeviceRequest) IosGate := ios_policy wLimits 5000 (λ _, false).
#[local] Instance wLaws : BootPolicyLaws (FleetReport * option WarmDeviceRequest) IosGate := ios_laws wLimits 5000 (λ _, false).
Definition wStart : Host (G := IosGate) := mkHost wGate {["A"; "B"]}%string ∅ ∅ ∅.
Definition wListed (w : nat) (h : Host (G := IosGate)) : Host (G := IosGate) :=
  mkHost (gate h) (running h) (live h) (startedAs h) (<[w := running h]> (listings h)).
Definition wBegun (h : Host (G := IosGate)) : Host (G := IosGate) := with_gate (onLedger (λ l, (beginSample l).2)) h.
Definition wSampled : Host (G := IosGate) := wListed 1 (wListed 0 (wBegun (wBegun wStart))).
Definition wFirst : Host (G := IosGate) := (judged 0 0 (wReport, None) (Some "C"%string) false create wSampled).2.

Lemma wSampled_runs : runs wStart wSampled.
Proof.
  apply (runs_on _ (Listed 1) (wListed 0 (wBegun (wBegun wStart)))).
  - apply (runs_on _ (Listed 0) (wBegun (wBegun wStart))).
    + apply (runs_on _ Sampled (wBegun wStart)); [|exact (step_sample (wBegun wStart))].
      apply (runs_on _ Sampled wStart); [constructor|exact (step_sample wStart)].
    + apply (step_list (wBegun (wBegun wStart)) 0); [vm_compute; set_solver|reflexivity].
  - apply (step_list (wListed 0 (wBegun (wBegun wStart))) 1); [vm_compute; set_solver|reflexivity].
Qed.
Lemma wStart_starts : starts wStart.
Proof. repeat split. Qed.
Lemma wSettled : handOffs_settled 0 0 {["A"; "B"]} wSampled.
Proof. split; [intros b e Hb; set_solver|]. intros b e d He. intros _ Hs. by vm_compute in Hs. Qed.


Lemma wFirst_step : host_step (Judged 0 0 (wReport, None) (Some "C"%string) false create) wSampled wFirst.
Proof. apply (step_judge wSampled 0 0 (wReport, None) {["A"; "B"]}); [reflexivity|reflexivity|exact wSettled]. Qed.
Lemma wOrderly : orderly_runs 3 wStart wFirst.
Proof.
  apply (orderly_on _ _ (Judged 0 0 (wReport, None) (Some "C"%string) false create) wSampled); [|exact wFirst_step|vm_compute; congruence].
  apply (orderly_on _ _ (Listed 1) (wListed 0 (wBegun (wBegun wStart)))); [| |exact I].
  - apply (orderly_on _ _ (Listed 0) (wBegun (wBegun wStart))); [| |exact I].
    + apply (orderly_on _ _ Sampled (wBegun wStart)); [|exact (step_sample (wBegun wStart))|exact I].
      apply (orderly_on _ _ Sampled wStart); [constructor|exact (step_sample wStart)|exact I].
    + apply (step_list (wBegun (wBegun wStart)) 0); [vm_compute; set_solver|reflexivity].
  - apply (step_list (wListed 0 (wBegun (wBegun wStart))) 1); [vm_compute; set_solver|reflexivity].
Qed.

(** Released before the second listing is judged, it still counts there; for a sample
    begun later it does not. *)
Definition wReleased : Host (G := IosGate) :=
  mkHost (onLedger (release 0) (gate wFirst)) (running wFirst) (live wFirst ∖ {[0%nat]}) (startedAs wFirst) (listings wFirst).
Lemma released_slot_is_free_witness :
  (0%nat ∈ (pendingIn 0 ["A"; "B"]%string None 1 (gateLedger (gate wReleased))).*1) ∧
  (0%nat ∉ (pendingIn 0 ["A"; "B"]%string None 2 (gateLedger (gate (wBegun wReleased)))).*1).
Proof.
  split; [vm_compute; set_solver|].
  apply (released_slot_is_free wStart wFirst wReleased (wBegun wReleased) 0 2 (mkLedgerEntry (Some create) (Some "C"%string) false None None false)
    wStart_starts).
  - eapply runs_on; [exact wSampled_runs|exact wFirst_step].
  - vm_compute. reflexivity.
  - exact (step_release wFirst 0).
  - vm_compute. reflexivity.
  - eapply runs_on; [constructor|exact (step_sample wReleased)].
Defined.
