(* ===== verification/Matching.v ===== *)
(** * Distinct devices for several claims

    [hasCompleteMatching] of [src/src/daemon/multiDeviceAllocation.ts]: Kuhn's
    augmenting paths over a [Map] from a device to the claim that has it, and a [Set]
    of the devices a search has seen, which the calls of one search share.  It answers
    whether the claims have a system of distinct representatives. *)
From S2P Require Import Prelude JsMap.
From stdpp Require Import sets.

Section Matching.
Context {D : Type} `{EqDecision D}.
Implicit Types (d : D) (ids seen : list D) (candidates : list (list D)) (owner : JsMap D nat).

(** [Array.prototype.some] with a callback that has effects: it stops at the first [true]. *)
Fixpoint jsome {A St} (f : A → St → bool * St) (l : list A) (st : St) : bool * St :=
  match l with
  | [] => (false, st)
  | x :: l => let '(b, st) := f x st in if b then (true, st) else jsome f l st
  end.

(** [augment]; the state is [(seen, owner)]. *)
Definition tryDevice (augment : nat → list D * JsMap D nat → bool * (list D * JsMap D nat)) (index : nat) (deviceId : D)
    (st : list D * JsMap D nat) : bool * (list D * JsMap D nat) :=
  let '(seen, owner) := st in
  if shas deviceId seen then (false, st)
  else
    let seen := sadd deviceId seen in
    let '(free, (seen, owner)) := match jget deviceId owner with
      | None => (true, (seen, owner))
      | Some current => augment current (seen, owner)
      end in
    if free : bool then (true, (seen, jset deviceId index owner)) else (false, (seen, owner)).
Fixpoint augment (fuel : nat) candidates (index : nat) (st : list D * JsMap D nat) : bool * (list D * JsMap D nat) :=
  match fuel with
  | 0 => (false, st)
  | S fuel => jsome (tryDevice (augment fuel candidates) index) (default [] (candidates !! index)) st
  end.

(** One pass sees a device at most once, so the candidates bound the recursion. *)
Definition searchFuel candidates : nat := S (length (mjoin candidates)).
Fixpoint matchFrom (candidates : list (list D)) (indices : list nat) owner : bool :=
  match indices with
  | [] => true
  | index :: indices =>
      let '(found, (_, owner)) := augment (searchFuel candidates) candidates index ([], owner) in
      if found then matchFrom candidates indices owner else false
  end.
Definition hasCompleteMatching candidates : bool := matchFrom candidates (seq 0 (length candidates)) [].

(** ** What it decides *)

Definition representatives candidates (chosen : list D) : Prop :=
  NoDup chosen ∧ Forall2 (λ ids d, d ∈ ids) candidates chosen.
Definition matchable candidates : Prop := ∃ chosen, representatives candidates chosen.

(** More candidates keep a matching. *)
Lemma matchable_mono candidates candidates' :
  Forall2 (λ ids ids', ids ⊆ ids') candidates candidates' → matchable candidates → matchable candidates'.
Proof.
  intros Hsub (chosen & Hnd & Hc). exists chosen. split; [done|]. revert chosen Hnd Hc.
  induction Hsub as [|ids ids' l l' Hi _ IH]; intros chosen Hnd Hc; inversion Hc; subst; constructor; [by apply Hi|].
  apply IH; [by inversion Hnd|done].
Qed.

(** ** The invariant of a search *)

Section Search.
Context (candidates : list (list D)).

(** A device is owned by a claim it is a candidate of; away from [seen], no claim
    has two devices. *)
Definition owned_by_candidate owner : Prop :=
  ∀ d c, jget d owner = Some c → ∃ ids, candidates !! c = Some ids ∧ d ∈ ids.
Definition one_each seen owner : Prop :=
  ∀ d1 d2 c, d1 ∉ seen → d2 ∉ seen → jget d1 owner = Some c → jget d2 owner = Some c → d1 = d2.
Definition has_device seen owner (c : nat) : Prop := ∃ d, d ∉ seen ∧ jget d owner = Some c.

(** What a successful search for [index] does, away from [seen]. *)
Record augmented seen owner owner' (index : nat) : Prop := {
  au_cand : owned_by_candidate owner';
  au_one : one_each seen owner';
  au_same : ∀ d, d ∈ seen → jget d owner' = jget d owner;
  au_has : ∀ c, has_device seen owner' c ↔ c = index ∨ has_device seen owner c }.

(** A failed search: the devices it saw are owned by claims it visited, and the
    candidates of those claims are all among what it saw. *)
Definition closed_under owner seen seen' : Prop :=
  ∀ d, d ∈ seen' → d ∉ seen → ∃ c, jget d owner = Some c ∧ default [] (candidates !! c) ⊆ seen'.

Lemma one_each_weaken seen seen' owner : seen ⊆ seen' → one_each seen owner → one_each seen' owner.
Proof. intros Hs Ho d1 d2 c ? ?. apply Ho; set_solver. Qed.

(** A success away from more devices is a success away from fewer. *)
Lemma augmented_lift seen seen1 owner owner' index :
  seen ⊆ seen1 → one_each seen owner → ¬ has_device seen owner index → augmented seen1 owner owner' index →
  augmented seen owner owner' index.
Proof.
  intros Hsub Hone Hno [A B C E].
  assert (Hx : ∀ d1 d2 c, d1 ∉ seen → d1 ∈ seen1 → d2 ∉ seen1 → jget d1 owner' = Some c → jget d2 owner' = Some c → False).
  { intros d1 d2 c H1 H1' H2 G1 G2. rewrite C in G1 by done.
    destruct (proj1 (E c)) as [->|(d3 & H3 & G3)]; [by exists d2|by apply Hno; exists d1|].
    assert (d1 = d3) as -> by (eapply Hone; [done|set_solver|done|done]). done. }
  split; [done| |set_solver|].
  - intros d1 d2 c H1 H2 G1 G2. destruct (decide (d1 ∈ seen1)) as [I1|I1], (decide (d2 ∈ seen1)) as [I2|I2].
    + rewrite C in G1, G2 by done. by eapply Hone.
    + by destruct (Hx d1 d2 c).
    + by destruct (Hx d2 d1 c).
    + by eapply B.
  - intros c. split.
    + intros (d & Hd & G). destruct (decide (d ∈ seen1)) as [I|I]; [right; exists d; by rewrite <- C|].
      destruct (proj1 (E c)) as [->|(d' & H' & G')]; [by exists d|by left|]. right. exists d'. set_solver.
    + intros [->|(d & Hd & G)].
      * destruct (proj2 (E index)) as (d & Hd & G); [by left|]. exists d. set_solver.
      * destruct (decide (d ∈ seen1)) as [I|I]; [exists d; by rewrite C|].
        destruct (proj2 (E c)) as (d' & H' & G'); [right; by exists d|]. exists d'. set_solver.
Qed.

(** Taking a free device, and taking one whose owner found another. *)
Lemma augmented_take seen owner index d :
  owned_by_candidate owner → one_each seen owner → ¬ has_device seen owner index → d ∉ seen →
  d ∈ default [] (candidates !! index) → jget d owner = None → augmented seen owner (jset d index owner) index.
Proof.
  intros Hc Hone Hno Hd Hin Hfree.
  assert (Hi : ∃ ids, candidates !! index = Some ids ∧ d ∈ ids) by (destruct (candidates !! index); [eauto|by apply elem_of_nil in Hin]).
  split.
  - intros d' c. rewrite jget_set. case_decide; [intros [= <-]; by subst|apply Hc].
  - intros d1 d2 c H1 H2. rewrite !jget_set. repeat case_decide; subst; try done.
    + intros [= <-] G. destruct Hno. by exists d2.
    + intros G [= <-]. destruct Hno. by exists d1.
    + by apply Hone.
  - intros d' Hd'. rewrite jget_set. by case_decide; subst.
  - intros c. split.
    + intros (d' & H' & G). rewrite jget_set in G. case_decide; [left; congruence|right; by exists d'].
    + intros [->|(d' & H' & G)]; [exists d; by rewrite jget_set, decide_True|].
      exists d'. rewrite jget_set. case_decide; [congruence|done].
Qed.
Lemma augmented_steal seen owner owner' index d c :
  one_each seen owner → ¬ has_device seen owner index → d ∉ seen → d ∈ default [] (candidates !! index) →
  jget d owner = Some c → augmented (sadd d seen) owner owner' c → augmented seen owner (jset d index owner') index.
Proof.
  intros Hone Hno Hd Hin Hown [A B C E].
  assert (Hi : ∃ ids, candidates !! index = Some ids ∧ d ∈ ids) by (destruct (candidates !! index); [eauto|by apply elem_of_nil in Hin]).
  assert (Hne : c ≠ index) by (intros ->; apply Hno; by exists d).
  assert (Hno' : ∀ d', d' ∉ seen → d' ≠ d → jget d' owner' = Some index → False).
  { intros d' H' Hn G. destruct (proj1 (E index)) as [?|(d2 & H2 & G2)]; [exists d'; rewrite elem_of_sadd; naive_solver|done|].
    apply Hno. exists d2. rewrite elem_of_sadd in H2. naive_solver. }
  split.
  - intros d' c'. rewrite jget_set. case_decide; [intros [= <-]; by subst|apply A].
  - intros d1 d2 c' H1 H2. rewrite !jget_set. repeat case_decide; subst; try done.
    + intros [= <-] G. destruct (Hno' d2); [done|congruence|done].
    + intros G [= <-]. destruct (Hno' d1); [done|congruence|done].
    + apply B; rewrite elem_of_sadd; naive_solver.
  - intros d' Hd'. rewrite jget_set. case_decide; [by subst|]. apply C. apply elem_of_sadd. by right.
  - intros c'. split.
    + intros (d' & H' & G). rewrite jget_set in G. case_decide; [left; congruence|].
      destruct (proj1 (E c')) as [->|(d2 & H2 & G2)]; [exists d'; rewrite elem_of_sadd; naive_solver|right; by exists d|].
      right. exists d2. rewrite elem_of_sadd in H2. naive_solver.
    + intros [->|(d' & H' & G)]; [exists d; by rewrite jget_set, decide_True|].
      destruct (decide (c' = c)) as [->|Hc'].
      * destruct (proj2 (E c)) as (d2 & H2 & G2); [by left|]. exists d2. rewrite elem_of_sadd in H2. rewrite jget_set.
        case_decide; naive_solver.
      * assert (d' ≠ d) by congruence. destruct (proj2 (E c')) as (d2 & H2 & G2);
          [right; exists d'; rewrite elem_of_sadd; naive_solver|].
        exists d2. rewrite elem_of_sadd in H2. rewrite jget_set. case_decide; naive_solver.
Qed.

(** ** The search *)

(** The devices not seen yet bound the recursion. *)
Definition unseen (seen : list D) : nat := length (filter (λ d, d ∉ seen) (mjoin candidates)).

Lemma unseen_le seen seen' : seen ⊆ seen' → unseen seen' ≤ unseen seen.
Proof.
  intros Hs. unfold unseen. induction (mjoin candidates) as [|d l IH]; [done|].
  rewrite !filter_cons. repeat case_decide; simpl; [lia|set_solver|lia|done].
Qed.
Lemma unseen_lt seen d : d ∈ mjoin candidates → d ∉ seen → unseen (sadd d seen) < unseen seen.
Proof.
  intros Hin Hd. pose proof (elem_of_sadd d) as Hadd. unfold unseen. induction (mjoin candidates) as [|x l IH]; [by apply elem_of_nil in Hin|].
  assert (Hle : length (filter (λ x, x ∉ sadd d seen) l) ≤ length (filter (λ x, x ∉ seen) l)).
  { clear IH Hin. induction l as [|y l IH]; [done|]. rewrite !filter_cons. specialize (Hadd y seen).
    repeat case_decide; simpl; [lia|tauto|lia|done]. }
  rewrite !filter_cons. pose proof (Hadd x seen). apply elem_of_cons in Hin as [->|Hin].
  - rewrite decide_False by tauto. rewrite decide_True by done. simpl. lia.
  - specialize (IH Hin). repeat case_decide; simpl; [lia|tauto|lia|done].
Qed.

Lemma candidate_in_universe index d : d ∈ default [] (candidates !! index) → d ∈ mjoin candidates.
Proof.
  intros H. destruct (candidates !! index) as [ids|] eqn:E; [|by apply elem_of_nil in H].
  apply list_elem_of_join. exists ids. split; [done|]. by eapply list_elem_of_lookup_2.
Qed.

(** What one search establishes, from the devices in [ids] on. *)
Definition search_post (index : nat) ids (seen : list D) owner (r : bool * (list D * JsMap D nat)) : Prop :=
  let '(found, (seen', owner')) := r in
  if found then augmented seen owner owner' index
  else owner' = owner ∧ NoDup seen' ∧ seen ⊆ seen' ∧ ids ⊆ seen' ∧ closed_under owner seen seen'.

Definition search_pre (index : nat) (seen : list D) owner : Prop :=
  owned_by_candidate owner ∧ one_each seen owner ∧ ¬ has_device seen owner index ∧ NoDup seen.

(** The loop of [some], given the recursive calls. *)
Lemma search_loop (recur : nat → list D * JsMap D nat → bool * (list D * JsMap D nat)) index n :
  (∀ c seen owner, search_pre c seen owner → unseen seen < n →
    search_post c (default [] (candidates !! c)) seen owner (recur c (seen, owner))) →
  ∀ ids seen owner, search_pre index seen owner → unseen seen ≤ n → ids ⊆ default [] (candidates !! index) →
    search_post index ids seen owner (jsome (tryDevice recur index) ids (seen, owner)).
Proof.
  intros Hrec. induction ids as [|d ids IH]; intros seen owner Hpre Hn Hids.
  { split; [done|]. split; [apply Hpre|]. split; [done|]. split; [by intros ? ?%elem_of_nil|]. by intros ? ?. }
  pose proof Hpre as (Hc & Hone & Hno & Hnd). cbn [jsome]. unfold tryDevice at 1, shas. case_bool_decide as Hd.
  { specialize (IH seen owner Hpre Hn ltac:(set_solver)). destruct (jsome _ ids _) as [[] [s' o']]; [done|].
    unfold search_post in *. naive_solver set_solver. }
  assert (Hin : d ∈ default [] (candidates !! index)) by (apply Hids; by left).
  assert (Hlt : unseen (sadd d seen) < unseen seen) by (eapply unseen_lt, Hd; by eapply candidate_in_universe).
  assert (Hsub : seen ⊆ sadd d seen) by (intros x Hx; apply elem_of_sadd; by right).
  destruct (jget d owner) as [c|] eqn:Hown; [|by apply augmented_take].
  assert (Hpre' : search_pre c (sadd d seen) owner).
  { split_and!; [done|by eapply one_each_weaken| |by apply sadd_NoDup].
    intros (d' & H' & G). rewrite elem_of_sadd in H'. apply H'. left. eapply Hone; [|done|done|done]. tauto. }
  pose proof (Hrec c (sadd d seen) owner Hpre' ltac:(lia)) as Hr.
  destruct (recur c (sadd d seen, owner)) as [[] [s' o']]; cbn in Hr.
  { by eapply augmented_steal. }
  destruct Hr as (-> & Hnd' & Hs' & Hcs & Hcl).
  assert (Hpre2 : search_pre index s' owner).
  { split_and!; [done|eapply one_each_weaken; [|done]; set_solver| |done]. intros (d' & H' & G). apply Hno. exists d'. set_solver. }
  assert (Hs2 : seen ⊆ s') by set_solver.
  specialize (IH s' owner Hpre2 ltac:(pose proof (unseen_le seen s' Hs2); lia) ltac:(set_solver)).
  destruct (jsome _ ids _) as [[] [s2 o2]]; cbn in IH |- *.
  { by eapply augmented_lift. }
  destruct IH as (-> & Hnd2 & Hss & Hi & Hcl2). split_and!; [done|done|set_solver| |].
  - intros x [->|Hx]%elem_of_cons; [apply Hss, Hs', elem_of_sadd; by left|by apply Hi].
  - intros x Hx Hxs. destruct (decide (x ∈ s')) as [Hx'|Hx']; [|by apply Hcl2].
    destruct (decide (x = d)) as [->|Hxd]; [exists c; split; [done|set_solver]|].
    destruct (Hcl x Hx') as (c' & G & Hsub'); [rewrite elem_of_sadd; tauto|]. exists c'. split; [done|set_solver].
Qed.

Lemma augment_spec fuel index seen owner :
  search_pre index seen owner → unseen seen < fuel →
  search_post index (default [] (candidates !! index)) seen owner (augment fuel candidates index (seen, owner)).
Proof.
  revert index seen owner. induction fuel as [|fuel IH]; intros index seen owner Hpre Hf; [lia|].
  apply (search_loop _ _ fuel); [exact IH|done|lia|done].
Qed.
Lemma unseen_searchFuel seen : unseen seen < searchFuel candidates.
Proof. unfold unseen, searchFuel. pose proof (length_filter (λ d, d ∉ seen) (mjoin candidates)). lia. Qed.

(** ** Hall's condition *)

(** A failed search from claims that all have devices finds a set of claims with one
    candidate too few. *)
Lemma failed_search_unmatchable index seen' owner :
  one_each [] owner → NoDup seen' → (∀ d, d ∈ seen' → jget d owner ≠ Some index) → index < length candidates →
  default [] (candidates !! index) ⊆ seen' → closed_under owner [] seen' →
  owned_by_candidate owner → ¬ matchable candidates.
Proof.
  intros Hone Hnd Hidx Hlen Hsub Hcl Hcand (chosen & Hch & Hin).
  set (claims := index :: omap (λ d, jget d owner) seen').
  assert (Hcl' : ∀ c, c ∈ claims → c < length candidates ∧ default [] (candidates !! c) ⊆ seen').
  { intros c [->|(d & Hd & G)%list_elem_of_omap]%elem_of_cons; [done|].
    destruct (Hcl d Hd ltac:(by intros ?%elem_of_nil)) as (c' & G' & ?). simplify_eq.
    destruct (Hcand _ _ G) as (ids & Hi & _). split; [|done]. by eapply lookup_lt_Some. }
  assert (Hclaims : NoDup claims).
  { constructor; [intros (d & Hd & G)%list_elem_of_omap; by eapply Hidx|]. clear Hidx Hsub Hcl Hcl' claims.
    induction Hnd as [|d l Hd Hl IH]; cbn; [constructor|]. destruct (jget d owner) as [c|] eqn:G; [|done].
    constructor; [|done]. intros (d' & Hd' & G')%list_elem_of_omap. apply Hd.
    by rewrite (Hone d d' c) by (done || apply not_elem_of_nil). }
  assert (Hlc : length claims = S (length seen')).
  { unfold claims. cbn. f_equal. clear -Hcl. assert (∀ d, d ∈ seen' → is_Some (jget d owner)) as Hs.
    { intros d Hd. destruct (Hcl d Hd ltac:(by intros ?%elem_of_nil)) as (c & G & _). by exists c. }
    clear Hcl. induction seen' as [|d l IH]; [done|]. cbn. destruct (Hs d ltac:(by left)) as [c ->]. cbn. f_equal.
    apply IH. intros. apply Hs. by right. }
  assert (Hlook : ∀ c, c ∈ claims → ∃ d, chosen !! c = Some d ∧ d ∈ seen').
  { intros c Hc. destruct (Hcl' c Hc) as [Hlt Hs]. destruct (lookup_lt_is_Some_2 _ _ Hlt) as [ids Hi].
    destruct (Forall2_lookup_l _ _ _ _ _ Hin Hi) as (d & Hd & ?). exists d. split; [done|]. apply Hs. by rewrite Hi. }
  assert (Hpick : ∀ l, NoDup l → l ⊆ claims → NoDup (omap (λ c, chosen !! c) l) ∧ length (omap (λ c, chosen !! c) l) = length l).
  { induction 1 as [|c l Hc Hl IH]; intros Hs; [by repeat constructor|]. cbn.
    destruct (Hlook c (Hs c ltac:(by left))) as (d & Hd & _). rewrite Hd.
    destruct (IH ltac:(intros x Hx; apply Hs; by right)) as [A B]. split; [|cbn; by rewrite B].
    constructor; [|done]. intros (c' & Hc' & G)%list_elem_of_omap. apply Hc. by rewrite (NoDup_lookup _ _ _ _ Hch Hd G). }
  destruct (Hpick claims Hclaims ltac:(done)) as [A B].
  assert (Hs : omap (λ c, chosen !! c) claims ⊆+ seen').
  { apply NoDup_submseteq; [done|]. intros d (c & Hc & G)%list_elem_of_omap. destruct (Hlook c Hc) as (d' & ? & ?). congruence. }
  apply submseteq_length in Hs. lia.
Qed.

(** ** The loop over the claims *)

(** The first [k] claims have a device each, and no other claim has one. *)
Definition matched_up_to (k : nat) owner : Prop :=
  owned_by_candidate owner ∧ one_each [] owner ∧ ∀ c, has_device [] owner c ↔ c < k.

Lemma matched_up_to_all owner : matched_up_to (length candidates) owner → matchable candidates.
Proof.
  intros (Hc & Hone & Hhas).
  assert (Hl : ∀ k, k ≤ length candidates → ∃ chosen, length chosen = k ∧ ∀ c d, chosen !! c = Some d → jget d owner = Some c).
  { induction k as [|k IH]; intros Hk; [by exists []|]. destruct (IH ltac:(lia)) as (l & Hl & Hd).
    destruct (proj2 (Hhas k)) as (d & _ & G); [lia|]. exists (l ++ [d]). split; [rewrite length_app, Hl; cbn; lia|].
    intros c x [Hx|[Hx Hy]]%lookup_app_Some; [by apply Hd|]. apply list_lookup_singleton_Some in Hy as [? <-].
    rewrite G. f_equal. lia. }
  destruct (Hl _ (le_n _)) as (chosen & Hlen & Hd). exists chosen. split.
  - apply NoDup_alt. intros i j d Hi Hj. pose proof (Hd _ _ Hi). pose proof (Hd _ _ Hj). congruence.
  - apply Forall2_same_length_lookup_2; [done|]. intros c ids d Hi Hx. destruct (Hc _ _ (Hd _ _ Hx)) as (ids' & ? & ?).
    congruence.
Qed.

Lemma matchFrom_spec n k owner :
  k + n = length candidates → matched_up_to k owner → matchFrom candidates (seq k n) owner = true ↔ matchable candidates.
Proof.
  revert k owner. induction n as [|n IH]; intros k owner Hn Hm.
  { split; [|done]. intros _. rewrite Nat.add_0_r in Hn. subst. by eapply matched_up_to_all. }
  cbn [seq matchFrom]. pose proof Hm as (Hc & Hone & Hhas).
  assert (Hno : ¬ has_device [] owner k) by (rewrite Hhas; lia).
  pose proof (augment_spec (searchFuel candidates) k [] owner) as Hs.
  specialize (Hs ltac:(split_and!; [done..|constructor]) (unseen_searchFuel [])).
  destruct (augment _ candidates k ([], owner)) as [[] [seen' owner']]; cbn in Hs.
  - destruct Hs as [A B _ E]. apply IH; [lia|]. split_and!; [done|done|]. intros c. rewrite E, Hhas. lia.
  - destruct Hs as (-> & Hnd & _ & Hsub & Hcl). split; [done|]. intros Hmat. exfalso.
    eapply (failed_search_unmatchable k seen' owner); [done|done| |lia|done|done|done|done].
    intros d Hd G. apply Hno. exists d. split; [by apply not_elem_of_nil|done].
Qed.
End Search.

Lemma hasCompleteMatching_spec candidates : hasCompleteMatching candidates = true ↔ matchable candidates.
Proof.
  unfold hasCompleteMatching. apply matchFrom_spec; [done|]. split_and!; [done|done|]. intros c. split; [|lia].
  intros (d & _ & G). by rewrite jget_nil in G.
Qed.
Lemma hasCompleteMatching_false candidates : hasCompleteMatching candidates = false ↔ ¬ matchable candidates.
Proof. rewrite <- hasCompleteMatching_spec. by destruct (hasCompleteMatching candidates). Qed.
#[global] Instance matchable_dec candidates : Decision (matchable candidates).
Proof. refine (cast_if (decide (hasCompleteMatching candidates = true))); by rewrite <- hasCompleteMatching_spec. Defined.
End Matching.
