(* ===== verification/StronglyConnected.v ===== *)
(** * The cycle a node is on

    [stronglyConnectedWith] of [src/src/daemon/multiDeviceAllocation.ts]: a walk with
    a stack of pending nodes, once forward from the start and once from every node it
    reaches. *)
From S2P Require Import Prelude JsMap.
From stdpp Require Import sets relations.

Section Walk.
Context {T : Type} `{EqDecision T} (successors : T → list T).
Implicit Types (seen pending : list T).

(** [pending] is kept with its top first: [push(...l)] puts the last of [l] on top. *)
Fixpoint walk (fuel : nat) seen pending : list T :=
  match fuel, pending with
  | S fuel, next :: pending =>
      if shas next seen then walk fuel seen pending
      else walk fuel (sadd next seen) (reverse (successors next) ++ pending)
  | _, _ => seen
  end.

(** [nodes] are the nodes that have successors.  They bound the walk: every node is
    expanded once, so all that is ever pushed is counted. *)
Definition pushes (nodes : list T) : nat := sum_list (length ∘ successors <$> nodes).
Definition reachableFrom (nodes : list T) (from : T) : list T :=
  walk (length (successors from) + pushes nodes) [] (reverse (successors from)).
Definition stronglyConnectedWith (nodes : list T) (start : T) : list T :=
  let forward := reachableFrom nodes start in
  if negb (shas start forward) then newSet [start]
  else newSet (filter (λ node, bool_decide (node = start) || shas start (reachableFrom nodes node) = true) forward).

(** ** What it computes *)

Definition edge (x y : T) : Prop := y ∈ successors x.
(** Two nodes on a common cycle. *)
Definition on_cycle (x y : T) : Prop := tc edge x y ∧ tc edge y x.

(** What a walk from [from] keeps: what it has met is reachable, and the successors of
    what it has expanded are met. *)
Record walked (from : T) seen pending : Prop := {
  wa_sound : ∀ x, x ∈ seen ∨ x ∈ pending → tc edge from x;
  wa_start : ∀ x, edge from x → x ∈ seen ∨ x ∈ pending;
  wa_closed : ∀ x y, x ∈ seen → edge x y → y ∈ seen ∨ y ∈ pending }.

Section Bound.
Context (nodes : list T).
(** What may still be pushed. *)
Definition unpushed seen : nat := sum_list (length ∘ successors <$> filter (λ x, x ∉ seen) nodes).

Lemma unpushed_pushes : unpushed [] = pushes nodes.
Proof.
  unfold unpushed, pushes. assert (filter (λ x, x ∉ []) nodes = nodes) as ->; [|done]. apply filter_all. intros. apply not_elem_of_nil.
Qed.
Lemma unpushed_sadd seen x : x ∉ seen → x ∈ nodes → unpushed (sadd x seen) + length (successors x) ≤ unpushed seen.
Proof.
  intros Hx Hin. pose proof (elem_of_sadd x) as Hadd. unfold unpushed.
  assert (Hle : ∀ l, sum_list (length ∘ successors <$> filter (λ y, y ∉ sadd x seen) l) ≤
                     sum_list (length ∘ successors <$> filter (λ y, y ∉ seen) l)).
  { induction l as [|y l IH]; [done|]. rewrite !filter_cons. specialize (Hadd y seen).
    repeat case_decide; cbn; [lia|tauto|lia|done]. }
  induction nodes as [|y l IH]; [by apply elem_of_nil in Hin|]. rewrite !filter_cons. pose proof (Hadd y seen).
  specialize (Hle l). apply elem_of_cons in Hin as [->|Hin].
  - rewrite decide_False by tauto. rewrite decide_True by done. cbn. lia.
  - specialize (IH Hin). repeat case_decide; cbn; [lia|tauto|lia|done].
Qed.

Lemma walk_spec fuel from seen pending :
  (∀ x, successors x ≠ [] → x ∈ nodes) → walked from seen pending → length pending + unpushed seen ≤ fuel →
  walked from (walk fuel seen pending) [].
Proof.
  intros Hnodes. revert seen pending. induction fuel as [|fuel IH]; intros seen pending Hw Hf.
  { destruct pending; [done|cbn in Hf; lia]. }
  destruct pending as [|next pending]; [done|]. cbn in Hf |- *. destruct Hw as [A B C]. unfold shas. case_bool_decide as Hs.
  - apply IH; [|lia]. split.
    + intros x Hx. apply A. rewrite elem_of_cons. tauto.
    + intros x Hx. destruct (B x Hx) as [?|[->|?]%elem_of_cons]; auto.
    + intros x y Hx Hy. destruct (C x y Hx Hy) as [?|[->|?]%elem_of_cons]; auto.
  - assert (Hn : tc edge from next) by (apply A; right; by left). apply IH.
    + split.
      * intros x. rewrite elem_of_sadd, elem_of_app, elem_of_reverse. intros [[->|Hx]|[Hx|Hx]]; [done|by apply A; left| |].
        -- eapply tc_transitive; [done|by apply tc_once].
        -- apply A. right. by right.
      * intros x Hx. rewrite elem_of_sadd, elem_of_app, elem_of_reverse.
        destruct (B x Hx) as [?|[->|?]%elem_of_cons]; auto.
      * intros x y Hx Hy. rewrite elem_of_sadd, elem_of_app, elem_of_reverse. apply elem_of_sadd in Hx as [->|Hx].
        -- right. by left.
        -- destruct (C x y Hx Hy) as [?|[->|?]%elem_of_cons]; auto.
    + rewrite length_app, length_reverse. destruct (decide (next ∈ nodes)) as [Hi|Hi].
      * pose proof (unpushed_sadd seen next Hs Hi). lia.
      * destruct (successors next) as [|s l] eqn:E; [|destruct Hi; apply Hnodes; by rewrite E].
        assert (Hle : unpushed (sadd next seen) ≤ unpushed seen); [|cbn; lia]. unfold unpushed. clear -Hs Hi.
        pose proof (elem_of_sadd next) as Hadd. induction nodes as [|y l IH]; [done|]. rewrite !filter_cons.
        pose proof (Hadd y seen). apply not_elem_of_cons in Hi as [Hy Hi]. specialize (IH Hi).
        repeat case_decide; cbn; [lia|tauto|lia|done].
Qed.

Lemma elem_of_reachableFrom from x :
  (∀ x, successors x ≠ [] → x ∈ nodes) → x ∈ reachableFrom nodes from ↔ tc edge from x.
Proof.
  intros Hnodes. unfold reachableFrom.
  destruct (walk_spec (length (successors from) + pushes nodes) from [] (reverse (successors from))) as [A B C]; [done| | |].
  - split.
    + intros y [Hy|Hy]; [by apply elem_of_nil in Hy|]. rewrite elem_of_reverse in Hy. by apply tc_once.
    + intros y Hy. right. by rewrite elem_of_reverse.
    + by intros ? ? ?%elem_of_nil.
  - rewrite length_reverse, unpushed_pushes. lia.
  - split; [intros Hx; apply A; by left|]. set (seen := walk _ _ _) in *.
    assert (Hcl : ∀ y, y ∈ seen → ∀ z, tc edge y z → z ∈ seen).
    { intros y Hy z Hz. induction Hz as [y z Hyz|y w z Hyw _ IH].
      - destruct (C y z Hy Hyz) as [?|?%elem_of_nil]; done.
      - apply IH. destruct (C y w Hy Hyw) as [?|?%elem_of_nil]; done. }
    intros Hx. destruct Hx as [y z Hyz|y w z Hyw Hz].
    + destruct (B z Hyz) as [?|?%elem_of_nil]; done.
    + apply (Hcl w); [|done]. destruct (B w Hyw) as [?|?%elem_of_nil]; done.
Qed.

Lemma elem_of_stronglyConnectedWith start x :
  (∀ x, successors x ≠ [] → x ∈ nodes) → x ∈ stronglyConnectedWith nodes start ↔ x = start ∨ on_cycle start x.
Proof.
  intros Hnodes. unfold stronglyConnectedWith, shas. case_bool_decide as Hs; cbn [negb].
  - rewrite elem_of_newSet, list_elem_of_filter, orb_true_iff, !bool_decide_eq_true, !elem_of_reachableFrom by done.
    rewrite elem_of_reachableFrom in Hs by done. unfold on_cycle. naive_solver.
  - rewrite elem_of_newSet, list_elem_of_singleton. split; [by left|]. intros [->|[A B]]; [done|]. destruct Hs.
    rewrite elem_of_reachableFrom by done. by eapply tc_transitive.
Qed.
Lemma stronglyConnectedWith_NoDup start : NoDup (stronglyConnectedWith nodes start).
Proof. unfold stronglyConnectedWith. destruct (negb _); apply newSet_NoDup. Qed.
End Bound.
End Walk.
