(* ===== verification/MultiDeviceAllocation.v ===== *)
(** * The queue of multi-device allocations

    [src/src/daemon/multiDeviceAllocation.ts]: requests for several devices wait in one
    queue, behind earlier requests they may conflict with; a request that waits in a
    cycle that no release can end is failed.  Tickets are objects, compared by identity:
    the queue holds references.  The pool is the port, read afresh by every operation. *)
From Stdlib Require Import Strings.String.
From S2P Require Import Prelude JsString JsMap Matching StronglyConnected.
From stdpp Require Import sets sorting.
Local Open Scope Z_scope.

(** [Platform], and the requests of [DeviceCriteriaMatcher.ts]. *)
Inductive Platform := android | ios | watchos | tvos | visionos.
#[export] Instance RequestPlatform_eq_dec : EqDecision Platform.
Proof. solve_decision. Defined.
Record DeviceAllocationCriteria := mkCriteria {
  platform : option Platform; simulatorType : option string; iosVersion : option string }.
Record DeviceAllocationRequest := mkRequest { sessionId : string; criteria : option DeviceAllocationCriteria }.

Inductive MultiDeviceAllocationBlock := queued | busy | contention.
Record MultiDeviceAllocationTicket := mkTicket {
  requests : list DeviceAllocationRequest; heldSessionIds : option (list string) }.
Record PinnedDeviceHolder := mkHolder { h_ticket : nat; h_session : string }.
Record PinnedDeviceWait := mkPinnedWait {
  pw_request : DeviceAllocationRequest; pw_device : string; pw_holders : list PinnedDeviceHolder }.
Record DeadlockWait := mkWait { queuedBehind : list nat; blockedOn : list PinnedDeviceWait }.

(** What the queue reads of the pool. *)
Class MultiDeviceAllocationQueuePort (Device : Type) := {
  device_id : Device → string;
  deviceHeldByExistingSession : string → option Device;
  heldDeviceDisqualification : DeviceAllocationRequest → Device → option string;
  getDevicesMatchingCriteria : option DeviceAllocationCriteria → list Device;
  hasPendingAndroidRecoveryMatching : option DeviceAllocationCriteria → bool;
  potentialSupplyFor : DeviceAllocationRequest → list Device }.

(** The queue, the objects its references name, and the retry waits under way: when
    each timer is due and whether its promise is resolved. *)
Record RetryWait := mkRetry { due : Z; resolved : bool }.
Record MultiDeviceAllocationQueue := mkQueue {
  tickets : JsMap nat MultiDeviceAllocationTicket; queue : list nat; waiters : JsMap nat RetryWait }.
Definition ticketOf (st : MultiDeviceAllocationQueue) (t : nat) : MultiDeviceAllocationTicket :=
  default (mkTicket [] None) (jget t (tickets st)).
Definition heldIds (ticket : MultiDeviceAllocationTicket) : list string := default [] (heldSessionIds ticket).

(** ** Order *)

Definition indexOf (l : list nat) (t : nat) : option nat := fst <$> list_find (λ x, x = t) l.
Definition conflicting (prior request : DeviceAllocationRequest) : bool :=
  match criteria prior ≫= platform, criteria request ≫= platform with
  | Some p, Some q => bool_decide (p = q)
  | _, _ => true
  end.
Definition conflictsWith (waiter ticket : MultiDeviceAllocationTicket) : bool :=
  existsb (λ prior, existsb (conflicting prior) (requests ticket)) (requests waiter).
(** [indexOf] of a ticket not in the queue is -1, and the slice then leaves out the last. *)
Definition earlierConflictingTickets (st : MultiDeviceAllocationQueue) (t : nat) : list nat :=
  let earlier := match indexOf (queue st) t with
    | Some i => take i (queue st)
    | None => take (length (queue st) - 1) (queue st)
    end in
  filter (λ waiter, conflictsWith (ticketOf st waiter) (ticketOf st t) = true) earlier.
Definition isQueuedBehindConflictingRequest (st : MultiDeviceAllocationQueue) (t : nat) : bool :=
  bool_decide (earlierConflictingTickets st t ≠ []).
Definition multiDeviceAllocationBlock (st : MultiDeviceAllocationQueue) (t : nat) : MultiDeviceAllocationBlock :=
  if isQueuedBehindConflictingRequest st t then queued else busy.

(** ** Waiting for the next round *)

(** [waitForMultiDeviceRetry] up to its await: there may be no time left, or the caller's
    signal may be aborted already, and then the race throws before the wait begins. *)
Inductive RetryStart := NoTimeLeft | AbortedBefore | WaitBegins (st : MultiDeviceAllocationQueue).
Definition waitForMultiDeviceRetry (interval deadlineMs now : Z) (aborted : bool) (w : nat) (st : MultiDeviceAllocationQueue) : RetryStart :=
  let delay := Z.min interval (deadlineMs - now) in
  if delay <=? 0 then NoTimeLeft
  else if aborted then AbortedBefore
  else WaitBegins (mkQueue (tickets st) (queue st) (jset w (mkRetry (now + delay) false) (waiters st))).
Definition notify (st : MultiDeviceAllocationQueue) : MultiDeviceAllocationQueue :=
  mkQueue (tickets st) (queue st) ((λ e, (e.1, mkRetry (due e.2) true)) <$> waiters st).
(** The timer of a wait fires; and the wait ends (resolved, or aborted): its [finally]. *)
Definition timerFires (now : Z) (w : nat) (st : MultiDeviceAllocationQueue) : MultiDeviceAllocationQueue :=
  match jget w (waiters st) with
  | Some wait => if due wait <=? now then mkQueue (tickets st) (queue st) (jset w (mkRetry (due wait) true) (waiters st)) else st
  | None => st
  end.
Definition waitEnds (aborted : bool) (w : nat) (st : MultiDeviceAllocationQueue) : MultiDeviceAllocationQueue :=
  match jget w (waiters st) with
  | Some wait => if resolved wait || aborted then mkQueue (tickets st) (queue st) (jdel w (waiters st)) else st
  | None => st
  end.

Section Queue.
Context {Device : Type} `{!MultiDeviceAllocationQueuePort Device}.
Implicit Types (st : MultiDeviceAllocationQueue) (t : nat).

Definition recordHeldSessions t st : MultiDeviceAllocationQueue :=
  match jget t (tickets st) with
  | Some ticket =>
      let held := newSet (filter (λ s, deviceHeldByExistingSession s ≠ None) (sessionId <$> requests ticket)) in
      mkQueue (jset t (mkTicket (requests ticket) (Some held)) (tickets st)) (queue st) (waiters st)
  | None => st
  end.
(** [ticket] is a new object: [t] is not in the heap. *)
Definition enqueue t (ticket : MultiDeviceAllocationTicket) st : MultiDeviceAllocationQueue :=
  let st := recordHeldSessions t (mkQueue (jset t ticket (tickets st)) (queue st) (waiters st)) in
  mkQueue (tickets st) (queue st ++ [t]) (waiters st).
Definition removeTicket t st : MultiDeviceAllocationQueue :=
  match indexOf (queue st) t with
  | Some i => notify (mkQueue (tickets st) (take i (queue st) ++ drop (S i) (queue st)) (waiters st))
  | None => st
  end.

(** ** Who waits for what *)

Definition pinSession t (pinned : JsMap string (list PinnedDeviceHolder)) (session : string) :
    JsMap string (list PinnedDeviceHolder) :=
  match deviceHeldByExistingSession session with
  | Some device => jset (device_id device) (default [] (jget (device_id device) pinned) ++ [mkHolder t session]) pinned
  | None => pinned
  end.
Definition pinnedDevicesByTicket st : JsMap string (list PinnedDeviceHolder) :=
  foldl (λ pinned t, foldl (pinSession t) pinned (heldIds (ticketOf st t))) [] (queue st).

(** The loop over the requests: [None] is the early return. *)
Fixpoint openClaims (held : list string) (rs : list DeviceAllocationRequest) : option (list DeviceAllocationRequest) :=
  match rs with
  | [] => Some []
  | request :: rs =>
      match deviceHeldByExistingSession (sessionId request) with
      | Some device =>
          if default false (truthy <$> heldDeviceDisqualification request device) then None
          else if shas (sessionId request) held then openClaims held rs
          else (request ::.) <$> openClaims held rs
      | None => (request ::.) <$> openClaims held rs
      end
  end.
Definition unknowable (request : DeviceAllocationRequest) : bool :=
  bool_decide (getDevicesMatchingCriteria (criteria request) = []) || hasPendingAndroidRecoveryMatching (criteria request).
Definition unmetMultiDeviceClaims st t : option (list DeviceAllocationRequest) :=
  claims ← openClaims (heldIds (ticketOf st t)) (requests (ticketOf st t));
  if bool_decide (claims = []) || existsb unknowable claims then None else Some claims.

Definition pinnedBy (pinned : JsMap string (list PinnedDeviceHolder)) (deviceId : string) (by_ : nat → bool) : bool :=
  existsb (λ holder, by_ (h_ticket holder)) (default [] (jget deviceId pinned)).
Definition candidatesFor (pinned : JsMap string (list PinnedDeviceHolder)) t (claims : list DeviceAllocationRequest) :
    list (list string) :=
  (λ request, filter (λ d, pinnedBy pinned d (λ other, bool_decide (other = t)) = false) (device_id <$> potentialSupplyFor request))
    <$> claims.
Definition supplyWithout (pinned : JsMap string (list PinnedDeviceHolder)) (blockers : list nat) (candidates : list (list string)) :
    list (list string) :=
  filter (λ d, pinnedBy pinned d (λ other, shas other blockers) = false) <$> candidates.
Definition isDeviceBlockedBy t (claims : list DeviceAllocationRequest) (blockers : list nat)
    (pinned : JsMap string (list PinnedDeviceHolder)) : bool :=
  let candidates := candidatesFor pinned t claims in
  let supply := supplyWithout pinned blockers candidates in
  negb (hasCompleteMatching supply) && hasCompleteMatching candidates.

Definition claimsByTicket st : JsMap nat (list DeviceAllocationRequest) :=
  foldl (λ m t, match unmetMultiDeviceClaims st t with Some claims => jset t claims m | None => m end) [] (queue st).
Definition stuck st (pinned : JsMap string (list PinnedDeviceHolder)) (deadlocked : list nat) t : bool :=
  existsb (λ other, shas other deadlocked) (earlierConflictingTickets st t) ||
  isDeviceBlockedBy t (default [] (jget t (claimsByTicket st))) deadlocked pinned.
(** The loop [while (changed)]: every pass but the last releases a ticket. *)
Fixpoint releaseLoop (fuel : nat) st (pinned : JsMap string (list PinnedDeviceHolder)) (deadlocked : list nat) : list nat :=
  match fuel with
  | 0%nat => deadlocked
  | S fuel =>
      let released := filter (λ t, stuck st pinned deadlocked t = false) deadlocked in
      let rest := foldl (λ s t, sdel t s) deadlocked released in
      if bool_decide (released = []) then rest else releaseLoop fuel st pinned rest
  end.
Definition findDeadlockedTickets st (pinned : JsMap string (list PinnedDeviceHolder)) : JsMap nat (list DeviceAllocationRequest) :=
  let waiting := jkeys (claimsByTicket st) in
  (λ t, (t, default [] (jget t (claimsByTicket st)))) <$> releaseLoop (S (length waiting)) st pinned waiting.

Definition pinnedWaits (pinned : JsMap string (list PinnedDeviceHolder)) (members : list nat) t (request : DeviceAllocationRequest) :
    list PinnedDeviceWait :=
  potentialSupplyFor request ≫= λ device,
    let holders := filter (λ h, h_ticket h ≠ t ∧ h_ticket h ∈ members) (default [] (jget (device_id device) pinned)) in
    if bool_decide (holders = []) then [] else [mkPinnedWait request (device_id device) holders].
Definition deadlockWaits st (deadlocked : JsMap nat (list DeviceAllocationRequest))
    (pinned : JsMap string (list PinnedDeviceHolder)) : JsMap nat DeadlockWait :=
  let members := jkeys deadlocked in
  (λ e, (e.1, mkWait
    (filter (λ other, other ∈ members) (earlierConflictingTickets st e.1))
    (if isDeviceBlockedBy e.1 e.2 members pinned then e.2 ≫= pinnedWaits pinned members e.1 else []))) <$> deadlocked.

(** ** Failing a request that waits in a cycle *)

(** What [formatAllocationDeadlock] puts into its text: what every request of the cycle
    holds and what it waits for within the cycle. *)
Record CycleMember := mkMember {
  cm_ticket : nat; cm_holds : list (string * string); cm_blockedOn : list PinnedDeviceWait; cm_queued : list nat }.
Record AllocationDeadlock := mkDeadlock { own : CycleMember; others : list CycleMember }.

Definition waitSuccessors (waits : JsMap nat DeadlockWait) (from : nat) : list nat :=
  match jget from waits with
  | Some wait => queuedBehind wait ++ (blockedOn wait ≫= λ entry, h_ticket <$> pw_holders entry)
  | None => []
  end.
Definition queueIndex st t : Z := match indexOf (queue st) t with Some i => Z.of_nat i | None => -1 end.
Definition queuedBefore st (a b : nat) : Prop := queueIndex st a <= queueIndex st b.
#[global] Instance queuedBefore_dec st : RelDecision (queuedBefore st).
Proof. intros a b. apply Z_le_dec. Defined.
Definition cycleMember st (cycle : list nat) (waits : JsMap nat DeadlockWait) t : CycleMember :=
  let wait := default (mkWait [] []) (jget t waits) in
  mkMember t
    (heldIds (ticketOf st t) ≫= λ session,
      match deviceHeldByExistingSession session with Some device => [(device_id device, session)] | None => [] end)
    (blockedOn wait ≫= λ entry,
      let holders := filter (λ h, h_ticket h ∈ cycle) (pw_holders entry) in
      if bool_decide (holders = []) then [] else [mkPinnedWait (pw_request entry) (pw_device entry) holders])
    (filter (λ other, other ∈ cycle) (queuedBehind wait)).
Definition formatAllocationDeadlock st t (others : list nat) (cycle : list nat) (waits : JsMap nat DeadlockWait) : AllocationDeadlock :=
  mkDeadlock (cycleMember st cycle waits t) (cycleMember st cycle waits <$> others).

Definition throwIfMultiDeviceAllocationDeadlocked st t : outcome AllocationDeadlock unit :=
  let pinned := pinnedDevicesByTicket st in
  let deadlocked := findDeadlockedTickets st pinned in
  if negb (jhas t deadlocked) then Returns tt
  else
    let waits := deadlockWaits st deadlocked pinned in
    let cycle := stronglyConnectedWith (waitSuccessors waits) (jkeys waits) t in
    if (length cycle <? 2)%nat || existsb (λ other, queueIndex st t <? queueIndex st other) cycle then Returns tt
    else
      let others := merge_sort (queuedBefore st) (filter (λ other, other ≠ t) cycle) in
      Throws (formatAllocationDeadlock st t others cycle waits).
End Queue.

(** The attempts of an allocation that ran out of time, as its message gives them. *)
Inductive BlockNote := StillQueued | TooFewIdle.
Definition describeMultiDeviceAllocationAttempts (attempts : Z) (lastBlock : option MultiDeviceAllocationBlock) :
    Z * option BlockNote :=
  match lastBlock with
  | Some queued => (attempts, Some StillQueued)
  | Some busy => (attempts, Some TooFewIdle)
  | _ => (attempts, None)
  end.
