(* ===== verification/AllocationCycles.v ===== *)
(** * Cycles of waiting requests

    The wait-for graph of [deadlockWaits] and what [throwIfMultiDeviceAllocationDeadlocked]
    does with it, in [src/src/daemon/multiDeviceAllocation.ts]. *)
From Stdlib Require Import Strings.String.
From S2P Require Import Prelude JsString JsMap Matching StronglyConnected MultiDeviceAllocation AllocationDeadlock.
From stdpp Require Import sets sorting relations finite.
Local Open Scope nat_scope.

(** ** Finite graphs *)

Section Graph.
Context {T : Type} `{EqDecision T} (R : T → T → Prop).

Lemma path_between (l : list T) : (∀ i x y, l !! i = Some x → l !! S i = Some y → R x y) →
  ∀ i j x y, i < j → l !! i = Some x → l !! j = Some y → tc R x y.
Proof.
  intros Hl i j x y Hij Hx. revert y. induction Hij as [|j Hij IH]; intros y Hy; [apply tc_once; eauto|].
  destruct (lookup_lt_is_Some_2 l j) as [z Hz]; [apply lookup_lt_Some in Hy; lia|].
  eapply tc_r; [by apply IH|by eapply Hl].
Qed.

(** Where every node has an edge to another, some node is on a cycle. *)
Lemma cycle_exists (nodes : list T) x0 :
  (∀ x, x ∈ nodes → ∃ y, y ∈ nodes ∧ R x y ∧ y ≠ x) → x0 ∈ nodes →
  ∃ x y, x ∈ nodes ∧ x ≠ y ∧ tc R x y ∧ tc R y x.
Proof.
  intros Hout Hx0.
  assert (Hp : ∀ n, ∃ l, length l = S n ∧ l ⊆ nodes ∧
    ∀ i x y, l !! i = Some x → l !! S i = Some y → R x y ∧ y ≠ x).
  { induction n as [|n (l & Hl & Hs & Hr)].
    - exists [x0]. split_and!; [done|by intros ? ->%list_elem_of_singleton|]. intros i ? ? ? Hy%lookup_lt_Some. cbn in Hy. lia.
    - destruct l as [|x l]; [done|]. destruct (last_is_Some (x :: l)) as [_ Hlast].
      destruct (Hlast ltac:(done)) as [z Hz]. destruct (Hout z) as (y & Hy & Hry & Hyz).
      { apply Hs. rewrite last_lookup in Hz. by eapply list_elem_of_lookup_2. }
      exists ((x :: l) ++ [y]). split_and!; [rewrite length_app, Hl; cbn; lia| |].
      + intros u [?| ->%list_elem_of_singleton]%elem_of_app; [by apply Hs|done].
      + intros i a b [Ha|[Ha Ha']]%lookup_app_Some [Hb|[Hb Hb']]%lookup_app_Some.
        * by apply (Hr i).
        * apply list_lookup_singleton_Some in Hb' as [Hi <-]. rewrite last_lookup in Hz.
          assert (i = pred (length (x :: l))) as -> by lia. assert (a = z) as -> by congruence. done.
        * apply lookup_lt_Some in Hb. lia.
        * apply list_lookup_singleton_Some in Ha' as [? _], Hb' as [? _]. lia. }
  destruct (Hp (length nodes)) as (l & Hl & Hs & Hr).
  destruct (list_pigeonhole l nodes) as (i & j & x & Hij & Hi & Hj); [done|lia|].
  destruct (lookup_lt_is_Some_2 l (S i)) as [y Hy]; [apply lookup_lt_Some in Hj; lia|].
  destruct (Hr i x y Hi Hy) as [Hxy Hne]. exists x, y. split_and!; [|done|by apply tc_once|].
  { apply Hs. by eapply list_elem_of_lookup_2. }
  destruct (decide (j = S i)) as [-> |Hj']; [congruence|].
  eapply (path_between l); [|..|exact Hy|exact Hj]; [|lia]. intros k a b Ha Hb. by apply (Hr k).
Qed.

Lemma last_by (f : T → Z) (l : list T) : l ≠ [] → ∃ m, m ∈ l ∧ ∀ x, x ∈ l → (f x <= f m)%Z.
Proof.
  induction l as [|x l IH]; [done|]. intros _. destruct l as [|y l].
  - exists x. split; [by left|]. by intros ? ->%list_elem_of_singleton.
  - destruct IH as (m & Hm & Hx); [done|]. destruct (Z.le_gt_cases (f m) (f x)).
    + exists x. split; [by left|]. intros z [-> |Hz]%elem_of_cons; [lia|]. specialize (Hx z Hz). lia.
    + exists m. split; [by right|]. intros z [-> |Hz]%elem_of_cons; [lia|]. by apply Hx.
Qed.
End Graph.

Lemma NoDup_two {A} (l : list A) x : NoDup l → x ∈ l → (2 ≤ length l ↔ ∃ y, y ∈ l ∧ y ≠ x).
Proof.
  intros Hnd Hx. split.
  - intros Hl. destruct l as [|a [|b l]]; cbn in Hl; [lia..|]. apply NoDup_cons in Hnd as [Ha _].
    destruct (proj1 (elem_of_cons _ _ _) Hx) as [-> |Hb].
    + exists b. split; [right; by left|]. intros ->. apply Ha. by left.
    + exists a. split; [by left|]. by intros ->.
  - intros (y & Hy & Hne). destruct l as [|a [|b l]]; cbn; [by apply elem_of_nil in Hx| |lia].
    apply list_elem_of_singleton in Hx as ->. by apply list_elem_of_singleton in Hy as ->.
Qed.

Section Cycles.
Context {Device : Type} `{!MultiDeviceAllocationQueuePort Device}.
Implicit Types (st : MultiDeviceAllocationQueue) (t u : nat) (pinned : JsMap string (list PinnedDeviceHolder)).

(** ** The wait-for graph *)

Definition deadlockedTickets st : list nat := jkeys (findDeadlockedTickets st (pinnedDevicesByTicket st)).
Definition waitsOf st : JsMap nat DeadlockWait :=
  deadlockWaits st (findDeadlockedTickets st (pinnedDevicesByTicket st)) (pinnedDevicesByTicket st).
Definition claimsOf st t : list DeviceAllocationRequest := default [] (unmetMultiDeviceClaims st t).

(** A deadlocked request waits for another one it is queued behind, or, being short of
    devices, for one that pins a device it could use. *)
Definition pins st t u : Prop :=
  ∃ request device holder, request ∈ claimsOf st t ∧ device ∈ potentialSupplyFor request ∧
    holder ∈ default [] (jget (device_id device) (pinnedDevicesByTicket st)) ∧ h_ticket holder = u.
Definition waitsFor st t u : Prop :=
  t ∈ deadlockedTickets st ∧ u ∈ deadlockedTickets st ∧
  (u ∈ earlierConflictingTickets st t ∨
   u ≠ t ∧ shortOfDevices (pinnedDevicesByTicket st) t (claimsOf st t) (deadlockedTickets st) ∧ pins st t u).

Lemma deadlocked_claims st t : t ∈ deadlockedTickets st →
  t ∈ queue st ∧ jget t (claimsByTicket st) = Some (claimsOf st t) ∧
  jget t (findDeadlockedTickets st (pinnedDevicesByTicket st)) = Some (claimsOf st t).
Proof.
  intros Ht. pose proof (gs_sub _ _ _ _ (findDeadlocked_greatest st (pinnedDevicesByTicket st)) _ Ht) as Hw.
  apply waiting_has_claims in Hw as [c Hc]. pose proof Hc as Hu. rewrite claimsByTicket_get in Hu. case_decide; [|done].
  unfold claimsOf. rewrite Hu. split_and!; [done|done|]. rewrite findDeadlocked_get, decide_True by done. done.
Qed.

Lemma waitsOf_get st t : jget t (waitsOf st) =
  if decide (t ∈ deadlockedTickets st) then Some (mkWait
    (filter (λ other, other ∈ deadlockedTickets st) (earlierConflictingTickets st t))
    (if isDeviceBlockedBy t (claimsOf st t) (deadlockedTickets st) (pinnedDevicesByTicket st)
     then claimsOf st t ≫= pinnedWaits (pinnedDevicesByTicket st) (deadlockedTickets st) t else [])) else None.
Proof.
  unfold waitsOf, deadlockWaits. fold (deadlockedTickets st). case_decide as Ht.
  - destruct (deadlocked_claims st t Ht) as (_ & _ & Hc). apply jget_wf_in.
    + unfold jwf, jkeys. rewrite <- list_fmap_compose. apply (gs_nodup _ _ _ _ (findDeadlocked_greatest st _)).
    + apply jget_in in Hc. apply list_elem_of_fmap. exists (t, claimsOf st t). by split.
  - destruct (jget t _) as [w|] eqn:E; [|done]. apply jget_in_keys in E. unfold jkeys in E. rewrite <- list_fmap_compose in E. done.
Qed.
Lemma waitsOf_keys st : jkeys (waitsOf st) = deadlockedTickets st.
Proof. unfold waitsOf, deadlockWaits, jkeys. by rewrite <- list_fmap_compose. Qed.

Lemma elem_of_pinnedWaits pinned members t request e :
  e ∈ pinnedWaits pinned members t request ↔ ∃ device, device ∈ potentialSupplyFor request ∧
    e = mkPinnedWait request (device_id device)
      (filter (λ h, h_ticket h ≠ t ∧ h_ticket h ∈ members) (default [] (jget (device_id device) pinned))) ∧ pw_holders e ≠ [].
Proof.
  unfold pinnedWaits. rewrite list_elem_of_bind. split.
  - intros (device & He & Hd). case_bool_decide; [by apply elem_of_nil in He|]. apply list_elem_of_singleton in He as ->.
    exists device. by split_and!.
  - intros (device & Hd & -> & Hne). exists device. split; [|done]. cbn in Hne. rewrite bool_decide_eq_false_2 by done. by left.
Qed.

Lemma waitSuccessors_spec st t u : edge (waitSuccessors (waitsOf st)) t u ↔ waitsFor st t u.
Proof.
  unfold edge, waitSuccessors, waitsFor. rewrite waitsOf_get. case_decide as Ht; [|split; [by intros ?%elem_of_nil|naive_solver]].
  cbn. rewrite elem_of_app, list_elem_of_filter. split.
  - intros [[Hu Hq]|Hb]; [by split_and!; [| |left]|].
    apply list_elem_of_bind in Hb as (e & Hu & He). apply list_elem_of_fmap in Hu as (h & -> & Hh).
    destruct (isDeviceBlockedBy _ _ _ _) eqn:Hblocked; [|by apply elem_of_nil in He].
    apply isDeviceBlockedBy_spec in Hblocked. apply list_elem_of_bind in He as (r & He & Hr).
    apply elem_of_pinnedWaits in He as (device & Hd & -> & _). cbn in Hh. apply list_elem_of_filter in Hh as [[Hne Hm] Hh].
    split_and!; [done|done|right]. split_and!; [done|done|]. by exists r, device, h.
  - intros (_ & Hu & [Hq|(Hne & Hs & r & device & h & Hr & Hd & Hh & <-)]); [by left|right].
    apply isDeviceBlockedBy_spec in Hs. rewrite Hs.
    assert (Hin : h ∈ filter (λ h', h_ticket h' ≠ t ∧ h_ticket h' ∈ deadlockedTickets st)
      (default [] (jget (device_id device) (pinnedDevicesByTicket st)))) by by apply list_elem_of_filter.
    apply list_elem_of_bind. exists (mkPinnedWait r (device_id device) (filter (λ h', h_ticket h' ≠ t ∧ h_ticket h' ∈ deadlockedTickets st)
      (default [] (jget (device_id device) (pinnedDevicesByTicket st))))). split; [apply list_elem_of_fmap; by exists h|].
    apply list_elem_of_bind. exists r. split; [|done]. apply elem_of_pinnedWaits. exists device. split_and!; [done|done|].
    cbn [pw_holders]. intros Hnil. rewrite Hnil in Hin. by apply elem_of_nil in Hin.
Qed.

Lemma waitsFor_ne st t u : waitsFor st t u → u ≠ t.
Proof. intros (_ & _ & [[? _]%earlier_ne|[? _]]); done. Qed.

(** A request short of devices waits for a holder of one of them. *)
Lemma short_pinned st t D : shortOfDevices (pinnedDevicesByTicket st) t (claimsOf st t) D →
  ∃ u, u ≠ t ∧ u ∈ D ∧ pins st t u.
Proof.
  intros [Hno Hyes]. set (pinned := pinnedDevicesByTicket st) in *. set (cands := candidatesFor pinned t (claimsOf st t)) in *.
  destruct (decide (Exists (λ ids, Exists (λ d, pinnedBy pinned d (λ o, shas o D) = true) ids) cands)) as [Hex|Hnex].
  - apply Exists_exists in Hex as (ids & Hids & Hex). apply Exists_exists in Hex as (d & Hd & Hp).
    unfold cands, candidatesFor in Hids. apply list_elem_of_fmap in Hids as (r & -> & Hr).
    apply list_elem_of_filter in Hd as [Hself Hd]. apply list_elem_of_fmap in Hd as (device & -> & Hdev).
    unfold pinnedBy in *. apply existsb_exists in Hp as (h & Hh & Hs). apply bool_decide_eq_true in Hs. apply list_elem_of_In in Hh.
    exists (h_ticket h). split_and!; [|done|by exists r, device, h].
    intros Heq. apply not_true_iff_false in Hself. apply Hself, existsb_exists. exists h.
    split; [by apply list_elem_of_In|]. by apply bool_decide_eq_true.
  - destruct Hno. assert (supplyWithout pinned D cands = cands) as ->; [|done]. unfold supplyWithout.
    clear Hyes. induction cands as [|ids l IH]; [done|]. cbn. rewrite Exists_cons in Hnex. rewrite IH by tauto. f_equal.
    apply filter_all. intros d Hd. apply not_true_iff_false. intros Hp. apply Hnex. left. apply Exists_exists. by exists d.
Qed.

Lemma every_deadlocked_waits st t : t ∈ deadlockedTickets st → ∃ u, u ∈ deadlockedTickets st ∧ waitsFor st t u ∧ u ≠ t.
Proof.
  intros Ht. destruct (deadlocked_claims st t Ht) as (_ & Hc & _).
  pose proof (gs_stuck _ _ _ _ (findDeadlocked_greatest st (pinnedDevicesByTicket st)) _ Ht) as Hs.
  apply (stuck_spec _ _ _ _ _ Hc) in Hs as [(u & Hu & Hd)|Hs].
  - exists u. split_and!; [done| |by apply earlier_ne in Hu as []]. split_and!; [done|done|by left].
  - destruct (short_pinned st t _ Hs) as (u & Hne & Hu & Hp). exists u. split_and!; [done| |done].
    split_and!; [done|done|right]. by split_and!.
Qed.

(** ** Cycles *)

(** Two requests each of which waits, through others, for the other. *)
Definition sharesCycle st t u : Prop := tc (waitsFor st) t u ∧ tc (waitsFor st) u t.

Lemma sharesCycle_sym st t u : sharesCycle st t u → sharesCycle st u t.
Proof. by intros []. Qed.
Lemma sharesCycle_trans st t u v : sharesCycle st t u → sharesCycle st u v → sharesCycle st t v.
Proof. intros [] []. split; by eapply tc_transitive. Qed.
Lemma waits_tc_deadlocked st t u : tc (waitsFor st) t u → t ∈ deadlockedTickets st ∧ u ∈ deadlockedTickets st.
Proof. induction 1 as [t u (? & ? & _)|t u v (? & _ & _) _ [_ ?]]; done. Qed.

Definition cycleOf st t : list nat := stronglyConnectedWith (waitSuccessors (waitsOf st)) (jkeys (waitsOf st)) t.
Lemma elem_of_cycleOf st t u : u ∈ cycleOf st t ↔ u = t ∨ sharesCycle st t u.
Proof.
  unfold cycleOf. rewrite elem_of_stronglyConnectedWith.
  - unfold on_cycle, sharesCycle. assert (H : ∀ x y, tc (edge (waitSuccessors (waitsOf st))) x y ↔ tc (waitsFor st) x y).
    { intros x y. split; (induction 1 as [x y H|x y z H _ IH]; [apply tc_once|eapply tc_l; [|exact IH]]); by apply waitSuccessors_spec. }
    by rewrite !H.
  - intros x Hx. rewrite waitsOf_keys. unfold waitSuccessors in Hx. rewrite waitsOf_get in Hx. by case_decide.
Qed.
Lemma cycleOf_NoDup st t : NoDup (cycleOf st t).
Proof. apply stronglyConnectedWith_NoDup. Qed.

(** The last queued member of a cycle of at least two requests. *)
Definition lastOfCycle st t : Prop :=
  t ∈ deadlockedTickets st ∧ (∃ u, u ≠ t ∧ sharesCycle st t u) ∧ ∀ u, sharesCycle st t u → (queueIndex st u <= queueIndex st t)%Z.

Lemma queueIndex_inj st t u : t ∈ queue st → queueIndex st t = queueIndex st u → t = u.
Proof.
  intros Ht. unfold queueIndex. destruct (indexOf_is_Some _ _ Ht) as [i Hi]. rewrite Hi.
  destruct (indexOf (queue st) u) as [j|] eqn:Hj; [|lia]. intros ?. assert (i = j) as -> by lia.
  apply indexOf_Some in Hi as [Hi _], Hj as [Hj _]. congruence.
Qed.

Lemma cycle_test st t : t ∈ deadlockedTickets st →
  (length (cycleOf st t) <? 2) || existsb (λ other, (queueIndex st t <? queueIndex st other)%Z) (cycleOf st t) = false ↔
  lastOfCycle st t.
Proof.
  intros Ht. rewrite orb_false_iff, Nat.ltb_ge, (NoDup_two _ t (cycleOf_NoDup st t)) by (apply elem_of_cycleOf; by left).
  rewrite <- not_true_iff_false, existsb_exists. unfold lastOfCycle. setoid_rewrite elem_of_cycleOf. split.
  - intros [(u & Hu & Hne) Hmax]. split_and!; [done| |].
    + exists u. split; [done|]. by destruct Hu.
    + intros v Hv. apply Z.nlt_ge. intros Hlt. apply Hmax. exists v. rewrite <- list_elem_of_In, elem_of_cycleOf, Z.ltb_lt. auto.
  - intros (_ & (u & Hne & Hu) & Hmax). split; [exists u; auto|]. intros (v & Hv & Hlt).
    apply list_elem_of_In, elem_of_cycleOf in Hv. apply Z.ltb_lt in Hlt. destruct Hv as [->|Hv]; [lia|]. apply Hmax in Hv. lia.
Qed.

(** The other members of the cycle of [t], in the order of the queue. *)
Definition otherMembers st t : list nat := merge_sort (queuedBefore st) (filter (λ other, other ≠ t) (cycleOf st t)).

Lemma throwIf_spec st t :
  throwIfMultiDeviceAllocationDeadlocked st t =
    Throws (formatAllocationDeadlock st t (otherMembers st t) (cycleOf st t) (waitsOf st)) ∧ lastOfCycle st t ∨
  throwIfMultiDeviceAllocationDeadlocked st t = Returns tt ∧ ¬ lastOfCycle st t.
Proof.
  unfold throwIfMultiDeviceAllocationDeadlocked. fold (waitsOf st). fold (cycleOf st t). fold (otherMembers st t).
  destruct (jhas t (findDeadlockedTickets st (pinnedDevicesByTicket st))) eqn:Hd; cbn [negb].
  - apply jhas_true in Hd. fold (deadlockedTickets st) in Hd. pose proof (cycle_test st t Hd) as Htest.
    destruct (_ || _); [right|left]; (split; [done|]); [|by apply Htest]. intros Hl. by apply Htest in Hl.
  - right. split; [done|]. intros [Ht _]. by apply jhas_false in Hd.
Qed.

Lemma elem_of_otherMembers st t u : u ∈ otherMembers st t ↔ u ≠ t ∧ sharesCycle st t u.
Proof. unfold otherMembers. rewrite merge_sort_Permutation, list_elem_of_filter, elem_of_cycleOf. naive_solver. Qed.

(** A member of a cycle waits for another member of it. *)
Lemma member_waits st t u : sharesCycle st t u → ∃ v, waitsFor st t v ∧ sharesCycle st t v.
Proof.
  intros [Htu Hut]. destruct Htu as [t u H|t v u H Hvu].
  - exists u. split; [done|]. split; [by apply tc_once|done].
  - exists v. split; [done|]. split; [by apply tc_once|by eapply tc_transitive].
Qed.
Lemma member_reason st t c u : sharesCycle st t u → (∀ v, sharesCycle st t v → v ∈ c) →
  cm_blockedOn (cycleMember st c (waitsOf st) t) ≠ [] ∨ cm_queued (cycleMember st c (waitsOf st) t) ≠ [].
Proof.
  intros (v & Hw & Hs)%member_waits Hc. apply Hc in Hs. apply waitSuccessors_spec in Hw. unfold edge, waitSuccessors in Hw.
  unfold cycleMember. cbn [cm_blockedOn cm_queued]. destruct (jget t (waitsOf st)) as [w|]; [|by apply elem_of_nil in Hw].
  cbn [default id]. apply elem_of_app in Hw as [Hq|(e & Hv & He)%list_elem_of_bind].
  - right. intros Hnil. assert (Hin : v ∈ filter (λ o, o ∈ c) (queuedBehind w)) by by apply list_elem_of_filter.
    rewrite Hnil in Hin. by apply elem_of_nil in Hin.
  - left. apply list_elem_of_fmap in Hv as (h & -> & Hh).
    assert (Hin : h ∈ filter (λ h, h_ticket h ∈ c) (pw_holders e)) by by apply list_elem_of_filter.
    intros Hnil.
    assert (Hb : mkPinnedWait (pw_request e) (pw_device e) (filter (λ h, h_ticket h ∈ c) (pw_holders e)) ∈ ([] : list PinnedDeviceWait)).
    { rewrite <- Hnil. apply list_elem_of_bind. exists e. split; [|done]. rewrite bool_decide_eq_false_2; [by left|].
      intros Hf. rewrite Hf in Hin. by apply elem_of_nil in Hin. }
    by apply elem_of_nil in Hb.
Qed.

Lemma deadlock_has_last st : deadlockedTickets st ≠ [] → ∃ t, lastOfCycle st t.
Proof.
  intros Hne. destruct (deadlockedTickets st) as [|x0 l] eqn:E; [done|].
  destruct (cycle_exists (waitsFor st) (deadlockedTickets st) x0) as (x & y & Hx & Hxy & H1 & H2).
  - intros t Ht. destruct (every_deadlocked_waits st t Ht) as (u & ? & ? & ?). by exists u.
  - rewrite E. by left.
  - destruct (last_by (queueIndex st) (cycleOf st x)) as (m & Hm & Hmax).
    { intros Hn. assert (x ∈ cycleOf st x) as Hin by (apply elem_of_cycleOf; by left). rewrite Hn in Hin. by apply elem_of_nil in Hin. }
    assert (Hs : sharesCycle st x y) by done. apply elem_of_cycleOf in Hm.
    assert (Hxx : sharesCycle st x x) by (eapply sharesCycle_trans; [done|by apply sharesCycle_sym]).
    assert (Hmx : sharesCycle st m x) by (apply sharesCycle_sym; by destruct Hm as [->|?]).
    exists m. split_and!.
    + by destruct (waits_tc_deadlocked st m x (proj1 Hmx)).
    + destruct (decide (x = m)) as [<-|Hne']; [exists y; by split; [done|]|]. exists x. by split.
    + intros u Hu. apply Hmax, elem_of_cycleOf. right. eapply sharesCycle_trans; [|done]. by apply sharesCycle_sym.
Qed.
End Cycles.
