(* ===== verification/AllocationClaims.v ===== *)
(** * Claiming several devices

    The pool behind the queue of multi-device allocations: the matcher of
    [src/src/daemon/DeviceCriteriaMatcher.ts], and what [devicePoolParts/multiAllocation.ts]
    decides before it claims.  The pool is a snapshot [AllocationPool], read at each step;
    [pool_port] makes it the port of the queue.  The last part shows how the claim check
    meets the deadlock analysis: the idle devices it counts are supply there too. *)
From Stdlib Require Import Strings.String Strings.Ascii.
From S2P Require Import Prelude JsString JsMap DeviceBinding Matching StronglyConnected MultiDeviceAllocation AllocationDeadlock.
From S2P Require Import AllocationCycles.
From stdpp Require Import sets sorting relations.
Local Open Scope Z_scope.

(** A pooled device with the fields the matcher reads. *)
Record Candidate := mkCandidate {
  entry : PooledDevice; d_name : string; d_simulatorType : option string; d_iosVersion : option string }.
Definition d_id (d : Candidate) : string := DeviceBinding.id (entry d).

(** ** The matcher *)

Definition platformName (p : Platform) : string :=
  match p with android => "android" | ios => "ios" | watchos => "watchos" | tvos => "tvos" | visionos => "visionos" end.
Definition matchesPlatformSelector (p : string) (requested : option Platform) : bool :=
  match requested with
  | None => bool_decide (p = "android"%string) || bool_decide (p = "ios"%string)
  | Some r => bool_decide (p = platformName r)
  end.

(** [toLowerCase] below code unit 256. *)
Definition lower_char (c : ascii) : ascii :=
  let n := nat_of_ascii c in
  if (65 <=? n)%nat && (n <=? 90)%nat || (192 <=? n)%nat && (n <=? 222)%nat && negb (n =? 215)%nat
  then ascii_of_nat (n + 32) else c.
Fixpoint toLowerCase (s : string) : string :=
  match s with EmptyString => EmptyString | String c s => String (lower_char c) (toLowerCase s) end.
Definition normalizeValue (value : option string) : option string :=
  v ← value; let trimmed := js_trim v in
  if bool_decide (trimmed = EmptyString) then None else Some (toLowerCase trimmed).

Definition matchesCriteria (c : option DeviceAllocationCriteria) (d : Candidate) : bool :=
  matchesPlatformSelector (DeviceBinding.platform (entry d)) (c ≫= platform) &&
  match normalizeValue (c ≫= simulatorType) with
  | Some wanted => bool_decide (wanted ∈ omap normalizeValue [Some (d_name d); d_simulatorType d])
  | None => true
  end &&
  match normalizeValue (c ≫= iosVersion) with
  | Some wanted => bool_decide (normalizeValue (d_iosVersion d) = Some wanted)
  | None => true
  end.
Definition filterDevices (devices : list Candidate) (c : option DeviceAllocationCriteria) : list Candidate :=
  filter (λ d, matchesCriteria c d = true) devices.

(** [score], and the stable sort by descending score. *)
Definition score (c : option DeviceAllocationCriteria) : Z :=
  match c with
  | None => 0
  | Some c => (if bool_decide (is_Some (platform c)) then 1 else 0) + (if truthy_opt (simulatorType c) then 1 else 0) +
      (if truthy_opt (iosVersion c) then 1 else 0)
  end.
Fixpoint insertBySpecificity (r : DeviceAllocationRequest) (l : list DeviceAllocationRequest) : list DeviceAllocationRequest :=
  match l with
  | [] => [r]
  | x :: l' => if score (criteria r) <=? score (criteria x) then x :: insertBySpecificity r l' else r :: l
  end.
Definition sortBySpecificity (requests : list DeviceAllocationRequest) : list DeviceAllocationRequest :=
  foldl (λ acc r, insertBySpecificity r acc) [] requests.

Definition formatCriteriaSummary (c : option DeviceAllocationCriteria) : string :=
  match c with
  | None => EmptyString
  | Some c =>
      let parts := (match platform c with Some p => ["platform=" +:+ platformName p] | None => [] end ++
        match simulatorType c with Some s => if truthy s then ["simulatorType=" +:+ s] else [] | None => [] end ++
        match iosVersion c with Some s => if truthy s then ["iosVersion=" +:+ s] else [] | None => [] end)%list in
      match parts with [] => EmptyString | _ => " (" +:+ String.concat ", " parts +:+ ")" end
  end%string.

(** ** The pool *)

(** What the decision reads: the devices in the order of the table, the device each
    session has, health markers ([reason], [since]), and the judgements of other parts. *)
Record AllocationPool := mkAllocationPool {
  getAllDevices : list Candidate;
  assignedDevice : string → option string;
  getDeviceHealthMarker : string → option (string * string);
  isAssignable : Candidate → bool;
  isReservedForAssignment : Candidate → bool;
  isBindingDevice : Candidate → bool;
  isDrivenByForeignDaemon : Candidate → bool;
  hasPendingRecovery : option DeviceAllocationCriteria → bool;
  lastReleasedDeviceId : option string }.

Inductive AllocationError :=
| DeviceUnhealthy (devices : list string)
| Deadlocked (d : AllocationDeadlock)
| Cancelled
| RefreshFailed
| AttemptFailed.

Section Pool.
Context (pool : AllocationPool).

Definition heldByExistingSession (session : string) : option Candidate :=
  deviceId ← assignedDevice pool session;
  d ← head (filter (λ d, d_id d = deviceId) (getAllDevices pool));
  if bool_decide (holderOf (entry d) = Some session) then Some d else None.
Definition disqualification (request : DeviceAllocationRequest) (device : Candidate) : option string :=
  if bool_decide (filterDevices [device] (criteria request) = [])
  then Some ("it does not match the requested criteria" +:+ formatCriteriaSummary (criteria request))%string
  else if isErrored (entry device) then Some "the device is in an error state"%string
  else '(reason, since) ← getDeviceHealthMarker pool (d_id device);
    Some ("the device is unhealthy (" +:+ reason +:+ ", since " +:+ since +:+ ")")%string.
Definition matchingDevices (c : option DeviceAllocationCriteria) : list Candidate := filterDevices (getAllDevices pool) c.
Definition isPotentialAllocationSupply (d : Candidate) : bool :=
  negb (isErrored (entry d)) && isAssignable pool d && negb (bool_decide (is_Some (getDeviceHealthMarker pool (d_id d)))).
Definition potentialSupply (request : DeviceAllocationRequest) : list Candidate :=
  filter (λ d, isPotentialAllocationSupply d = true) (matchingDevices (criteria request)).

#[export] Instance pool_port : MultiDeviceAllocationQueuePort Candidate := {|
  device_id := d_id;
  deviceHeldByExistingSession := heldByExistingSession;
  heldDeviceDisqualification := disqualification;
  getDevicesMatchingCriteria := matchingDevices;
  hasPendingAndroidRecoveryMatching := hasPendingRecovery pool;
  potentialSupplyFor := potentialSupply |}.

(** ** Idle devices *)

Definition isIdleDeviceEligible (d : Candidate) : bool :=
  isIdle (entry d) && isPotentialAllocationSupply d && negb (isReservedForAssignment pool d).
Fixpoint insertByLastUse (d : Candidate) (l : list Candidate) : list Candidate :=
  match l with
  | [] => [d]
  | x :: l' => if lastUsedAt (entry x) <=? lastUsedAt (entry d) then x :: insertByLastUse d l' else d :: l
  end.
Definition selectIdleDevice (candidates : list Candidate) : option Candidate :=
  let idleDevices := filter (λ d, isIdleDeviceEligible d = true) candidates in
  let least := head (foldl (λ acc d, insertByLastUse d acc) [] idleDevices) in
  match lastReleasedDeviceId pool with
  | Some last =>
      if truthy last then match head (filter (λ d, d_id d = last) idleDevices) with Some d => Some d | None => least end
      else least
  | None => least
  end.
Definition assertHealthyAllocationPossible (candidates : list Candidate) (selected : option Candidate) : outcome AllocationError unit :=
  match selected with
  | Some _ => Returns tt
  | None =>
      let marked d := bool_decide (is_Some (getDeviceHealthMarker pool (d_id d))) in
      let healthyBusy := existsb (λ d, negb (marked d) && (isBusy (entry d) || isReservedForAssignment pool d)) candidates in
      if negb healthyBusy && existsb marked candidates then Throws (DeviceUnhealthy (d_id <$> candidates)) else Returns tt
  end.
Definition countBusyDevices (candidates : list Candidate) : Z :=
  Z.of_nat (length (filter (λ d, isBusy (entry d) || isReservedForAssignment pool d = true) candidates)).
Definition shouldWaitForDevice (busyDevices : Z) (pendingRecovery : bool) : bool := (0 <? busyDevices) || pendingRecovery.

(** ** May the ticket claim? *)

(** The first loop: the claims, or [None] for the early return. *)
Fixpoint newClaims (rs : list DeviceAllocationRequest) : option (list DeviceAllocationRequest) :=
  match rs with
  | [] => Some []
  | request :: rs =>
      match heldByExistingSession (sessionId request) with
      | None => (request ::.) <$> newClaims rs
      | Some held => if truthy_opt (disqualification request held) then None else newClaims rs
      end
  end.
(** The second loop, over the sorted claims; [available] are the devices counted so far. *)
Fixpoint countAvailable (available : list string) (canClaim : bool) (claims : list DeviceAllocationRequest) :
    outcome AllocationError bool :=
  match claims with
  | [] => Returns canClaim
  | request :: claims =>
      let matching := filter (λ d, isBindingDevice pool d = false) (matchingDevices (criteria request)) in
      let candidates := filter (λ d, isDrivenByForeignDaemon pool d = false) matching in
      match head (filter (λ d, isIdleDeviceEligible d && negb (shas (d_id d) available) = true) candidates) with
      | Some device => countAvailable (sadd (d_id device) available) canClaim claims
      | None =>
          let idle := selectIdleDevice candidates in
          _ ← (if bool_decide (length matching = length candidates) then assertHealthyAllocationPossible candidates idle
               else Returns tt);
          if bool_decide (idle = None) &&
             negb (shouldWaitForDevice (countBusyDevices candidates + Z.of_nat (length matching - length candidates))
               (hasPendingRecovery pool (criteria request)))
          then Returns true
          else countAvailable available false claims
      end
  end.
Definition canClaimMultiDeviceAllocation (st : MultiDeviceAllocationQueue) (t : nat) : outcome AllocationError bool :=
  match newClaims (requests (ticketOf st t)) with
  | None => Returns true
  | Some claims =>
      if bool_decide (claims = []) then Returns true
      else if isQueuedBehindConflictingRequest st t then Returns false
      else countAvailable [] true (sortBySpecificity claims)
  end.
(** The keys of [getDevicesMatchingAnyRequest]. *)
Definition devicesMatchingAnyRequest (rs : list DeviceAllocationRequest) : list string :=
  newSet (rs ≫= λ request, d_id <$> matchingDevices (criteria request)).
(** [refreshMultiDeviceInventory] refreshes. *)
Definition needsRefresh (ticket : MultiDeviceAllocationTicket) : bool :=
  (length (devicesMatchingAnyRequest (requests ticket)) <? length (requests ticket))%nat ||
  existsb (λ request, bool_decide (matchingDevices (criteria request) = [])) (requests ticket).
End Pool.

(** ** The rounds of one allocation *)

(** [executeMultiDeviceAllocation], cut at its awaits: the wait for the next round, the
    refresh of the inventory, the refresh of what other daemons own, and the attempt. *)
Inductive RoundPhase :=
| RetryWaiting
| Refreshing
| ReadingOwnership
| Attempting
| Succeeded
| TimedOut
| Failed (e : AllocationError).
Record AllocationRun := mkRun { phase : RoundPhase; waited : bool; attempts : Z; lastBlock : option MultiDeviceAllocationBlock }.
Definition in_phase (r : AllocationRun) (p : RoundPhase) : AllocationRun := mkRun p (waited r) (attempts r) (lastBlock r).

(** From the top of the loop body, after the wait of a later round. *)
Definition roundStarts (deadlineMs now : Z) (aborted : bool) (r : AllocationRun) : AllocationRun :=
  if aborted then in_phase r (Failed Cancelled)
  else if (deadlineMs <=? now) && waited r then in_phase r TimedOut
  else mkRun ReadingOwnership true (attempts r) (lastBlock r).
Definition startRun (deadlineMs now : Z) (aborted : bool) : AllocationRun :=
  roundStarts deadlineMs now aborted (mkRun ReadingOwnership false 0 None).
(** The wait is over. *)
Definition waitOver (pool : AllocationPool) (deadlineMs now : Z) (aborted : bool) (t : nat) (st : MultiDeviceAllocationQueue)
    (r : AllocationRun) : AllocationRun :=
  if needsRefresh pool (ticketOf st t) then in_phase r Refreshing else roundStarts deadlineMs now aborted r.
(** Ownership is read: the claim check and what follows without an await. *)
Definition claimCheck (pool : AllocationPool) (deadlineMs now : Z) (t : nat) (st : MultiDeviceAllocationQueue) (r : AllocationRun) :
    MultiDeviceAllocationQueue * AllocationRun :=
  let st := @recordHeldSessions _ (pool_port pool) t st in
  match canClaimMultiDeviceAllocation pool st t with
  | Throws e => (st, in_phase r (Failed e))
  | Returns true => (st, mkRun Attempting (waited r) (attempts r + 1) (Some contention))
  | Returns false =>
      let r := mkRun (phase r) (waited r) (attempts r) (Some (multiDeviceAllocationBlock st t)) in
      match @throwIfMultiDeviceAllocationDeadlocked _ (pool_port pool) st t with
      | Throws d => (st, in_phase r (Failed (Deadlocked d)))
      | Returns _ => (st, in_phase r (if deadlineMs <=? now then TimedOut else RetryWaiting))
      end
  end.
(** The wait is aborted, or a refresh rejects. *)
Definition roundThrows (e : AllocationError) (r : AllocationRun) : AllocationRun := in_phase r (Failed e).
(** The attempt settles: [Some true] is success, [Some false] a retryable failure. *)
Definition attemptSettles (result : option bool) (r : AllocationRun) : AllocationRun :=
  match result with
  | Some true => in_phase r Succeeded
  | Some false => in_phase r RetryWaiting
  | None => in_phase r (Failed AttemptFailed)
  end.

(** ** When a request may claim: the decision and the deadlock analysis *)

Section Turns.
Context (pool : AllocationPool).
Implicit Types (request : DeviceAllocationRequest) (d : Candidate) (st : MultiDeviceAllocationQueue) (t : nat).

(** A device the claim check would count for a request; and a request for which no
    device is idle, in use or being recovered, which is left to the attempt to report. *)
Definition usable request d : Prop :=
  d ∈ matchingDevices pool (criteria request) ∧ isBindingDevice pool d = false ∧ isDrivenByForeignDaemon pool d = false ∧
  isIdleDeviceEligible pool d = true.
Definition absent request : Prop :=
  hasPendingRecovery pool (criteria request) = false ∧
  ∀ d, d ∈ matchingDevices pool (criteria request) → isBindingDevice pool d = false →
    isDrivenByForeignDaemon pool d = false ∧ isIdleDeviceEligible pool d = false ∧
    isBusy (entry d) = false ∧ isReservedForAssignment pool d = false.
(** Distinct devices for all the claims. *)
Definition served (claims : list DeviceAllocationRequest) (ids : list string) : Prop :=
  NoDup ids ∧ Forall2 (λ request i, ∃ d, usable request d ∧ d_id d = i) claims ids.

Lemma insertByLastUse_ne d l : insertByLastUse d l ≠ [].
Proof. destruct l; cbn; [done|]. by case_match. Qed.
Lemma selectIdleDevice_None candidates :
  selectIdleDevice pool candidates = None → ∀ d, d ∈ candidates → isIdleDeviceEligible pool d = false.
Proof.
  intros Hn d Hd. apply not_true_iff_false. intros He.
  set (idleDevices := filter (λ d, isIdleDeviceEligible pool d = true) candidates) in *.
  assert (Hin : d ∈ idleDevices) by by apply list_elem_of_filter.
  assert (Hl : head (foldl (λ acc d, insertByLastUse d acc) [] idleDevices) ≠ None).
  { destruct idleDevices as [|x l] using rev_ind; [by apply elem_of_nil in Hin|]. rewrite foldl_app. cbn.
    pose proof (insertByLastUse_ne x (foldl (λ acc d, insertByLastUse d acc) [] l)). by destruct (insertByLastUse _ _). }
  unfold selectIdleDevice in Hn. fold idleDevices in Hn.
  destruct (lastReleasedDeviceId pool) as [last|]; [|done]. destruct (truthy last); [|done]. by destruct (head (filter _ idleDevices)).
Qed.

Lemma countBusy_zero candidates : countBusyDevices pool candidates <= 0 →
  ∀ d, d ∈ candidates → isBusy (entry d) = false ∧ isReservedForAssignment pool d = false.
Proof.
  unfold countBusyDevices. intros H d Hd. apply orb_false_iff, not_true_iff_false. intros Ht.
  assert (Hin : d ∈ filter (λ d, isBusy (entry d) || isReservedForAssignment pool d = true) candidates) by by apply list_elem_of_filter.
  destruct (filter _ candidates); [by apply elem_of_nil in Hin|cbn in H; lia].
Qed.

Lemma countAvailable_cases claims available ok :
  match countAvailable pool available ok claims with
  | Returns true => (∃ request, request ∈ claims ∧ absent request) ∨
      (ok = true ∧ ∃ ids, served claims ids ∧ ∀ i, i ∈ ids → i ∉ available)
  | Returns false => True
  | Throws e => ∃ ds, e = DeviceUnhealthy ds
  end.
Proof.
  revert available ok. induction claims as [|request claims IH]; intros available ok; cbn [countAvailable].
  { destruct ok; [|done]. right. split; [done|]. exists []. split; [by split; constructor|by intros ? ?%elem_of_nil]. }
  set (matching := filter (λ d, isBindingDevice pool d = false) (matchingDevices pool (criteria request))).
  set (candidates := filter (λ d, isDrivenByForeignDaemon pool d = false) matching).
  destruct (head (filter _ candidates)) as [d|] eqn:Hhead.
  - apply head_Some_elem_of in Hhead. apply list_elem_of_filter in Hhead as [[He Hav]%andb_true_iff Hd].
    apply negb_true_iff, bool_decide_eq_false in Hav. apply list_elem_of_filter in Hd as [Hf [Hb Hm]%list_elem_of_filter].
    specialize (IH (sadd (d_id d) available) ok). destruct (countAvailable _ _ _ _) as [[]|]; [|done|done].
    destruct IH as [(r & Hr & Ha)|(-> & ids & [Hnd Hall] & Hfresh)]; [left; exists r; by split; [right|]|].
    right. split; [done|]. exists (d_id d :: ids). split; [split|].
    + constructor; [|done]. intros Hin. apply (Hfresh _ Hin), elem_of_sadd. by left.
    + constructor; [|done]. by exists d.
    + intros i [->|Hi]%elem_of_cons; [done|]. intros Hx. apply (Hfresh i Hi), elem_of_sadd. by right.
  - assert (Hthrow : ∀ e, (if bool_decide (length matching = length candidates)
        then assertHealthyAllocationPossible pool candidates (selectIdleDevice pool candidates) else Returns tt) = Throws e →
        ∃ ds, e = DeviceUnhealthy ds).
    { intros e. case_bool_decide; [|done]. unfold assertHealthyAllocationPossible. destruct (selectIdleDevice _ _); [done|].
      case_match; [|done]. intros [= <-]. eauto. }
    destruct (if bool_decide _ then _ else _) as [[]|e]; cbn; [|by apply Hthrow].
    destruct (bool_decide _ && negb _) eqn:Habs.
    + left. exists request. split; [by left|]. apply andb_true_iff in Habs as [Hidle Hwait].
      apply bool_decide_eq_true in Hidle. apply negb_true_iff in Hwait. unfold shouldWaitForDevice in Hwait.
      apply orb_false_iff in Hwait as [Hb Hp]. apply Z.ltb_ge in Hb. split; [done|]. intros d Hd Hbind.
      assert (Hm : d ∈ matching) by by apply list_elem_of_filter.
      assert (Hbusy : countBusyDevices pool candidates >= 0) by (unfold countBusyDevices; lia).
      assert (Hforeign : isDrivenByForeignDaemon pool d = false).
      { apply not_true_iff_false. intros Hf. assert (length candidates < length matching)%nat; [|lia].
        apply (length_filter_lt _ _ d Hm). by rewrite Hf. }
      assert (Hc : d ∈ candidates) by by apply list_elem_of_filter. split; [done|].
      split; [by eapply selectIdleDevice_None|]. apply (countBusy_zero candidates); [lia|done].
    + specialize (IH available false). destruct (countAvailable _ _ _ _) as [[]|]; [|done|done].
      destruct IH as [(r & Hr & Ha)|[? _]]; [|done]. left. exists r. by split; [right|].
Qed.

Lemma insertBySpecificity_perm r l : insertBySpecificity r l ≡ₚ r :: l.
Proof.
  induction l as [|x l IH]; cbn; [done|]. case_match; [|done]. rewrite IH. constructor.
Qed.
Lemma sortBySpecificity_perm l : sortBySpecificity l ≡ₚ l.
Proof.
  unfold sortBySpecificity. assert (H : ∀ acc, foldl (λ acc r, insertBySpecificity r acc) acc l ≡ₚ acc ++ l).
  { induction l as [|x l IH]; intros acc; cbn; [by rewrite app_nil_r|]. rewrite IH, insertBySpecificity_perm. cbn.
    by rewrite Permutation_middle. }
  by rewrite H.
Qed.
Lemma served_perm claims claims' ids : claims ≡ₚ claims' → served claims ids → ∃ ids', served claims' ids'.
Proof.
  intros Hp [Hnd Hall]. destruct (Permutation_Forall2 Hp Hall) as (ids' & Hp' & Hall'). exists ids'.
  split; [by rewrite <- Hp'|done].
Qed.

(** What an answer of the claim check means. *)
Lemma canClaim_cases st t :
  match canClaimMultiDeviceAllocation pool st t with
  | Returns true =>
      newClaims pool (requests (ticketOf st t)) = None ∨ newClaims pool (requests (ticketOf st t)) = Some [] ∨
      earlierConflictingTickets st t = [] ∧ ∃ claims, newClaims pool (requests (ticketOf st t)) = Some claims ∧
        ((∃ request, request ∈ claims ∧ absent request) ∨ ∃ ids, served claims ids)
  | Returns false => True
  | Throws e => ∃ ds, e = DeviceUnhealthy ds
  end.
Proof.
  unfold canClaimMultiDeviceAllocation, isQueuedBehindConflictingRequest.
  destruct (newClaims pool _) as [claims|]; [|by left]. case_bool_decide as Hn; [right; left; by subst|].
  case_bool_decide as Hq; [done|]. assert (Hq' : earlierConflictingTickets st t = []) by (destruct (earlierConflictingTickets st t); [done|destruct Hq; done]).
  pose proof (countAvailable_cases (sortBySpecificity claims) [] true) as H.
  destruct (countAvailable _ _ _ _) as [[]|]; [|done|done]. right. right. split; [done|]. exists claims. split; [done|].
  destruct H as [(r & Hr & Ha)|(_ & ids & Hs & _)]; [left; exists r; by rewrite <- (sortBySpecificity_perm claims)|].
  right. eapply served_perm; [apply sortBySpecificity_perm|done].
Qed.

(** ** The claim check and the analysis *)

(** Identifiers are unique in the table, and an idle device has no holder. *)
Definition pool_ok : Prop :=
  NoDup (d_id <$> getAllDevices pool) ∧ Forall (λ d, isIdle (entry d) = true → holderOf (entry d) = None) (getAllDevices pool).

Lemma pinned_is_held st i h :
  h ∈ default [] (jget i (@pinnedDevicesByTicket _ (pool_port pool) st)) →
  ∃ device, heldByExistingSession pool (h_session h) = Some device ∧ d_id device = i.
Proof.
  unfold pinnedDevicesByTicket. set (pin := @pinSession _ (pool_port pool)).
  set (good := λ (m : JsMap string (list PinnedDeviceHolder)), ∀ i h, h ∈ default [] (jget i m) →
    ∃ device, heldByExistingSession pool (h_session h) = Some device ∧ d_id device = i).
  assert (Hpin : ∀ t m s, good m → good (pin t m s)).
  { intros t m s Hm. unfold pin, pinSession. cbn. destruct (heldByExistingSession pool s) as [device|] eqn:E; [|done].
    intros j h'. rewrite jget_set. case_decide as Hj; [|apply Hm]. cbn.
    intros [Hh| ->%list_elem_of_singleton]%elem_of_app; [by apply Hm; rewrite <- Hj|]. exists device. by rewrite <- Hj. }
  assert (Hl : ∀ t l m, good m → good (foldl (pin t) m l)) by (intros t l; induction l; intros m Hm; cbn; eauto).
  assert (Hall : ∀ l m, good m → good (foldl (λ pinned t, foldl (pin t) pinned (heldIds (ticketOf st t))) m l)).
  { induction l; intros m Hm; cbn; eauto. }
  apply Hall. intros j h'. rewrite jget_nil. by intros ?%elem_of_nil.
Qed.

Lemma eligible_not_pinned request d st by_ : pool_ok → usable request d →
  pinnedBy (@pinnedDevicesByTicket _ (pool_port pool) st) (d_id d) by_ = false.
Proof.
  intros [Hnd Hidle] (Hm & _ & _ & He). apply not_true_iff_false. unfold pinnedBy. intros (h & Hh & _)%existsb_exists.
  apply list_elem_of_In, pinned_is_held in Hh as (device & Hheld & Hid).
  unfold heldByExistingSession in Hheld. apply bind_Some in Hheld as (i & _ & Hheld).
  apply bind_Some in Hheld as (d' & Hd' & Hheld). apply head_Some_elem_of, list_elem_of_filter in Hd' as [_ Hd'].
  case_bool_decide as Hholder; [|done]. simplify_eq. unfold matchingDevices, filterDevices in Hm. apply list_elem_of_filter in Hm as [_ Hm].
  assert (device = d) as ->.
  { apply list_elem_of_lookup in Hd' as [a Ha], Hm as [b Hb].
    assert (a = b) as ->; [|congruence]. eapply NoDup_lookup; [exact Hnd| |]; rewrite list_lookup_fmap; [by rewrite Ha|].
    rewrite Hb. cbn. by rewrite Hid. }
  unfold isIdleDeviceEligible in He. apply andb_true_iff in He as [He _]. apply andb_true_iff in He as [He _].
  rewrite Forall_forall in Hidle. rewrite (Hidle d Hm He) in Hholder. done.
Qed.

(** Devices the check can count serve the claims whatever stays pinned. *)
Lemma served_matchable st t blockers claims ids : pool_ok → served claims ids →
  matchable (supplyWithout (@pinnedDevicesByTicket _ (pool_port pool) st) blockers
    (@candidatesFor _ (pool_port pool) (@pinnedDevicesByTicket _ (pool_port pool) st) t claims)).
Proof.
  intros Hok [Hnd Hall]. exists ids. split; [done|]. clear Hnd. unfold supplyWithout, candidatesFor. rewrite <- list_fmap_compose.
  apply Forall2_fmap_l. eapply Forall2_impl; [exact Hall|]. cbn. intros request i (d & Hu & <-).
  apply list_elem_of_filter. split; [by eapply eligible_not_pinned|]. apply list_elem_of_filter. split; [by eapply eligible_not_pinned|].
  apply list_elem_of_fmap. exists d. split; [done|]. destruct Hu as (Hm & _ & _ & He).
  apply list_elem_of_filter. split; [|done]. unfold isIdleDeviceEligible in He. apply andb_true_iff in He as [He _].
  by apply andb_true_iff in He as [_ He].
Qed.

(** After [recordHeldSessions] the analysis and the claim check see the same claims. *)
Lemma openClaims_newClaims held rs :
  (∀ r, r ∈ rs → heldByExistingSession pool (sessionId r) ≠ None → sessionId r ∈ held) →
  @openClaims _ (pool_port pool) held rs = newClaims pool rs.
Proof.
  induction rs as [|r rs IH]; intros Hh; [done|]. cbn.
  assert (IH' : @openClaims _ (pool_port pool) held rs = newClaims pool rs) by (apply IH; intros; apply Hh; [by right|done]).
  destruct (heldByExistingSession pool (sessionId r)) as [d|] eqn:E; [|by rewrite IH'].
  assert (Hin : sessionId r ∈ held) by (apply Hh; [by left|by rewrite E]). unfold shas. rewrite bool_decide_eq_true_2 by done. rewrite IH'.
  by destruct (disqualification pool r d).
Qed.
Lemma recorded_claims st t : jget t (tickets st) ≠ None →
  let st' := @recordHeldSessions _ (pool_port pool) t st in
  @openClaims _ (pool_port pool) (heldIds (ticketOf st' t)) (requests (ticketOf st' t)) = newClaims pool (requests (ticketOf st' t)).
Proof.
  intros Ht. unfold recordHeldSessions. destruct (jget t (tickets st)) as [ticket|] eqn:E; [|done]. cbn.
  unfold ticketOf. cbn. rewrite jget_set, decide_True by done. cbn. apply openClaims_newClaims.
  intros r Hr Hheld. apply elem_of_newSet, list_elem_of_filter. split; [done|]. apply list_elem_of_fmap. by exists r.
Qed.

(** A deadlocked request is not let through, unless nothing at all can serve a claim. *)
Lemma deadlocked_cannot_claim st t :
  let st' := @recordHeldSessions _ (pool_port pool) t st in
  pool_ok → t ∈ @deadlockedTickets _ (pool_port pool) st' → canClaimMultiDeviceAllocation pool st' t = Returns true →
  ∃ request, request ∈ requests (ticketOf st' t) ∧ absent request.
Proof.
  intros st' Hok Ht Hcan. pose proof (canClaim_cases st' t) as Hcases. rewrite Hcan in Hcases.
  destruct (@deadlocked_claims _ (pool_port pool) st' t Ht) as (Hq & Hc & _). rewrite claimsByTicket_get, decide_True in Hc by done.
  set (claims := @claimsOf _ (pool_port pool) st' t) in *. clearbody claims. pose proof Hc as Hunmet. unfold unmetMultiDeviceClaims in Hunmet.
  apply bind_Some in Hunmet as (claims' & Hopen & Hrest). case_match eqn:Hbad; [done|]. assert (claims' = claims) as -> by congruence. apply orb_false_iff in Hbad as [Hne _].
  apply bool_decide_eq_false in Hne.
  assert (Hheap : jget t (tickets st) ≠ None).
  { intros Hn. apply Hne. clear -Hopen Hn. unfold ticketOf in Hopen. unfold st' in Hopen.
    assert (Hr : @recordHeldSessions _ (pool_port pool) t st = st) by (unfold recordHeldSessions; by rewrite Hn).
    rewrite Hr, Hn in Hopen. cbn in Hopen. by injection Hopen. }
  pose proof (recorded_claims st t Hheap) as Hnew. cbv zeta in Hnew. fold st' in Hnew. rewrite Hopen in Hnew. symmetry in Hnew.
  assert (Hsub : claims ⊆ requests (ticketOf st' t)).
  { clear -Hnew. revert Hnew. generalize claims. induction (requests (ticketOf st' t)) as [|r rs IH]; intros c Hc; cbn in Hc; [by simplify_eq|].
    destruct (heldByExistingSession pool (sessionId r)); [destruct (truthy_opt _); [done|]; intros x Hx; right; by eapply IH|].
    destruct (newClaims pool rs) as [c'|]; [|done]. cbn in Hc. simplify_eq. intros x [->|Hx]%elem_of_cons; [by left|]. right. by eapply IH. }
  destruct Hcases as [?|[?|(Hearlier & claims' & Hc' & Hres)]]; [congruence|congruence|]. assert (claims' = claims) as -> by congruence.
  destruct Hres as [(r & Hr & Ha)|(ids & Hs)]; [exists r; split; [by apply Hsub|done]|]. exfalso.
  pose proof (gs_stuck _ _ _ _ (@findDeadlocked_greatest _ (pool_port pool) st' (@pinnedDevicesByTicket _ (pool_port pool) st')) _ Ht) as Hstuck.
  assert (Hget : jget t (@claimsByTicket _ (pool_port pool) st') = Some claims) by by rewrite claimsByTicket_get, decide_True.
  apply (stuck_spec _ _ _ _ _ Hget) in Hstuck as [(u & Hu & _)|[Hno _]].
  - rewrite Hearlier in Hu. by apply elem_of_nil in Hu.
  - apply Hno. by eapply served_matchable.
Qed.
End Turns.
