(* ===== verification/AllocationProperties.v ===== *)
(** * What the multi-device allocations promise

    The theorems about [src/src/daemon/multiDeviceAllocation.ts] and the claim checks of
    [devicePoolParts/multiAllocation.ts]. *)
From Stdlib Require Import Strings.String.
From S2P Require Import Prelude JsString JsMap DeviceBinding Matching StronglyConnected MultiDeviceAllocation AllocationDeadlock.
From S2P Require Import AllocationCycles AllocationClaims.
From stdpp Require Import sets sorting relations.
Local Open Scope Z_scope.

(** ** The analysis *)

(** C21. The search answers yes exactly when every claim can get a distinct one of its
    candidates. *)
Theorem matching_is_exact (candidates : list (list string)) :
  hasCompleteMatching candidates = true ↔ ∃ chosen, NoDup chosen ∧ Forall2 (λ ids d, d ∈ ids) candidates chosen.
Proof. apply hasCompleteMatching_spec. Qed.

(** C17. The requests found deadlocked are exactly those that no order of completions of
    the others lets through: every run of [leaves] from the queue keeps them. *)
Theorem deadlock_is_exact {Device} `{!MultiDeviceAllocationQueuePort Device} st pinned t :
  t ∈ jkeys (findDeadlockedTickets st pinned) ↔ t ∈ queue st ∧ ∀ W, rtc (leaves st pinned) (queue st) W → t ∈ W.
Proof.
  set (D := jkeys (findDeadlockedTickets st pinned)).
  assert (HD : D ⊆ queue st).
  { intros u Hu. apply (gs_sub _ _ _ _ (findDeadlocked_greatest st pinned)), waiting_has_claims in Hu as [c Hc].
    rewrite claimsByTicket_get in Hc. by case_decide. }
  split.
  - intros Ht. split; [by apply HD|]. intros W HW. by apply (deadlocked_never_leave st pinned (queue st)).
  - intros [_ Hall]. destruct (others_leave st pinned (queue st)) as (W & HW & Hs); [done|done|]. by apply Hs, Hall.
Qed.

(** ** The failure *)

Definition member_of_cycle_waits (m : CycleMember) : Prop := cm_blockedOn m ≠ [] ∨ cm_queued m ≠ [].

(** C18. A request fails exactly when it is the last queued member of a cycle of at least
    two; the error names the others in queue order, and for each of them, and for the
    request, something it waits for within the cycle. *)
Theorem last_of_a_cycle_fails {Device} `{!MultiDeviceAllocationQueuePort Device} st t :
  match throwIfMultiDeviceAllocationDeadlocked st t with
  | Throws d =>
      lastOfCycle st t ∧ cm_ticket (own d) = t ∧
      (∀ u, u ∈ cm_ticket <$> others d ↔ u ≠ t ∧ sharesCycle st t u) ∧
      StronglySorted (queuedBefore st) (cm_ticket <$> others d) ∧
      Forall member_of_cycle_waits (own d :: others d)
  | Returns _ => ¬ lastOfCycle st t
  end.
Proof.
  destruct (throwIf_spec st t) as [[-> Hl]|[-> Hl]]; [|done]. cbn [own others formatAllocationDeadlock].
  assert (Hids : cm_ticket <$> (cycleMember st (cycleOf st t) (waitsOf st) <$> otherMembers st t) = otherMembers st t).
  { rewrite <- list_fmap_compose. by rewrite list_fmap_id. }
  rewrite Hids. split_and!; [done|done|by intros u; apply elem_of_otherMembers| |].
  - apply StronglySorted_merge_sort. intros a b c. unfold queuedBefore. lia.
    intros a b. unfold queuedBefore. lia.
  - destruct Hl as (_ & (u & Hne & Hu) & _).
    assert (Ht : ∀ x v, x = t ∨ sharesCycle st t x → sharesCycle st x v → v ∈ cycleOf st t).
    { intros x v Hx Hv. apply elem_of_cycleOf. right. destruct Hx as [->|Hx]; [done|by eapply sharesCycle_trans]. }
    constructor; [|apply Forall_fmap, Forall_forall; intros x Hx; apply elem_of_otherMembers in Hx as [_ Hx]].
    + apply (member_reason _ _ _ u Hu). intros v Hv. apply (Ht t); [by left|done].
    + apply (member_reason _ _ _ t); [by apply sharesCycle_sym|]. intros v Hv. apply (Ht x); [by right|done].
Qed.

(** A request fails and leaves the queue. *)
Inductive fails {Device} `{!MultiDeviceAllocationQueuePort Device} : MultiDeviceAllocationQueue → MultiDeviceAllocationQueue → Prop :=
| request_fails st t d : throwIfMultiDeviceAllocationDeadlocked st t = Throws d → fails st (removeTicket t st).

Lemma remove_shorter st t : t ∈ queue st → length (queue st) = S (length (queue (removeTicket t st))).
Proof.
  intros Ht. unfold removeTicket. destruct (indexOf_is_Some _ _ Ht) as [i Hi]. rewrite Hi. apply indexOf_Some in Hi as [Hi _].
  cbn. rewrite length_app, length_take, length_drop. apply lookup_lt_Some in Hi. lia.
Qed.
Lemma fails_shorter {Device} `{!MultiDeviceAllocationQueuePort Device} st st' :
  fails st st' → length (queue st) = S (length (queue st')).
Proof.
  intros [st0 t d Hd]. apply remove_shorter. destruct (throwIf_spec st0 t) as [[_ [Ht _]]|[Hr _]]; [|congruence].
  by apply deadlocked_claims in Ht as [? _].
Qed.

(** C19. Whenever requests are deadlocked one of them fails, and only then; one member of a
    cycle fails; failures end after at most as many as are queued, without a deadlock. *)
Theorem every_deadlock_is_broken {Device} `{!MultiDeviceAllocationQueuePort Device} st :
  (deadlockedTickets st ≠ [] ↔ ∃ st', fails st st') ∧
  (∀ t u, lastOfCycle st t → lastOfCycle st u → sharesCycle st t u → t = u) ∧
  (∀ n st', nsteps fails n st st' → (n ≤ length (queue st))%nat) ∧
  ∃ st', rtc fails st st' ∧ deadlockedTickets st' = [].
Proof.
  assert (Hiff : ∀ st, deadlockedTickets st ≠ [] ↔ ∃ st', fails st st').
  { intros s. split.
    - intros (t & Ht)%deadlock_has_last. exists (removeTicket t s). destruct (throwIf_spec s t) as [[Hr _]|[_ Hn]]; [by econstructor|done].
    - intros (s' & [s0 t d Hd]). destruct (throwIf_spec s0 t) as [[_ [Ht _]]|[Hr _]]; [|congruence].
      intros Hnil. rewrite Hnil in Ht. by apply elem_of_nil in Ht. }
  split_and!; [done| | |].
  - intros t u (Ht & _ & Hmt) (Hu & _ & Hmu) Hs. apply (queueIndex_inj st); [by apply deadlocked_claims in Ht as [? _]|].
    apply Z.le_antisymm; [apply Hmu; by apply sharesCycle_sym|by apply Hmt].
  - intros n st' H. induction H as [|n s1 s2 s3 H _ IH]; [lia|]. apply fails_shorter in H. lia.
  - remember (length (queue st)) as n eqn:Hn. revert st Hn. induction n as [|n IH]; intros st Hn.
    + exists st. split; [done|]. destruct (decide (deadlockedTickets st = [])) as [|Hne]; [done|].
      apply Hiff in Hne as (st' & Hf). apply fails_shorter in Hf. lia.
    + destruct (decide (deadlockedTickets st = [])) as [He|Hne]; [by exists st|].
      apply Hiff in Hne as (st1 & Hf). pose proof (fails_shorter _ _ Hf). destruct (IH st1) as (st' & Hr & He); [lia|].
      exists st'. split; [by eapply rtc_l|done].
Qed.

(** ** The claim check *)

Lemma newClaims_None pool rs : newClaims pool rs = None →
  ∃ request held, request ∈ rs ∧ heldByExistingSession pool (sessionId request) = Some held ∧
    truthy_opt (disqualification pool request held) = true.
Proof.
  induction rs as [|r rs IH]; cbn; [done|]. destruct (heldByExistingSession pool (sessionId r)) as [d|] eqn:E.
  - destruct (truthy_opt _) eqn:Hd; [intros _; exists r, d; split; [by left|done]|].
    intros (r' & d' & ? & ? & ?)%IH. exists r', d'. split; [by right|done].
  - destruct (newClaims pool rs); [done|]. intros _. destruct IH as (r' & d' & ? & ? & ?); [done|]. exists r', d'. split; [by right|done].
Qed.
Lemma newClaims_nil pool rs : newClaims pool rs = Some [] →
  ∀ request, request ∈ rs → heldByExistingSession pool (sessionId request) ≠ None.
Proof.
  induction rs as [|r rs IH]; cbn; [by intros _ ? ?%elem_of_nil|]. destruct (heldByExistingSession pool (sessionId r)) as [d|] eqn:E.
  - destruct (truthy_opt _); [done|]. intros H request [->|Hr]%elem_of_cons; [by rewrite E|by apply IH].
  - by destruct (newClaims pool rs).
Qed.

(** An attempt begins only when a held device is disqualified (the attempt reports it),
    when no new device is claimed, or when no earlier request that may conflict waits
    and distinct idle devices serve the claims (or one has nothing to wait for). *)
Theorem claims_are_taken_in_turn pool deadlineMs now t st r :
  phase (claimCheck pool deadlineMs now t st r).2 = Attempting →
  let st' := @recordHeldSessions _ (pool_port pool) t st in
  (∃ request held, request ∈ requests (ticketOf st' t) ∧ heldByExistingSession pool (sessionId request) = Some held ∧
     truthy_opt (disqualification pool request held) = true) ∨
  (∀ request, request ∈ requests (ticketOf st' t) → heldByExistingSession pool (sessionId request) ≠ None) ∨
  earlierConflictingTickets st' t = [] ∧ ∃ claims, newClaims pool (requests (ticketOf st' t)) = Some claims ∧
    ((∃ request, request ∈ claims ∧ absent pool request) ∨ ∃ ids, served pool claims ids).
Proof.
  intros Hp st'. unfold claimCheck in Hp. fold st' in Hp. pose proof (canClaim_cases pool st' t) as Hc.
  destruct (canClaimMultiDeviceAllocation pool st' t) as [[]|]; [|by repeat case_match|done].
  destruct Hc as [Hn|[Hn|Hc]]; [left; by apply newClaims_None|right; left; by apply newClaims_nil|by right; right].
Qed.

(** C20. At its claim check the last member of a cycle fails, naming the cycle, or for
    unhealthy devices; it goes on only where one of its claims has nothing to wait for. *)
Theorem cycle_ends_at_its_last_check pool deadlineMs now t st r :
  let st' := @recordHeldSessions _ (pool_port pool) t st in
  pool_ok pool → @lastOfCycle _ (pool_port pool) st' t →
  match phase (claimCheck pool deadlineMs now t st r).2 with
  | Failed (Deadlocked d) => ∀ u, u ∈ cm_ticket <$> others d ↔ u ≠ t ∧ @sharesCycle _ (pool_port pool) st' t u
  | Failed (DeviceUnhealthy _) => True
  | Attempting => ∃ request, request ∈ requests (ticketOf st' t) ∧ absent pool request
  | _ => False
  end.
Proof.
  intros st' Hok Hlast. unfold claimCheck. fold st'. pose proof (canClaim_cases pool st' t) as Hc.
  destruct (canClaimMultiDeviceAllocation pool st' t) as [[]|e] eqn:E.
  - cbn. by apply deadlocked_cannot_claim; [|destruct Hlast|].
  - destruct (@throwIf_spec _ (pool_port pool) st' t) as [[-> _]|[_ ?]]; [|done]. cbn. intros u.
    rewrite <- list_fmap_compose, list_fmap_id. apply elem_of_otherMembers.
  - by destruct Hc as (ds & ->).
Qed.

(** ** The rounds of a request *)

(** One step of a request's loop, with the time it reads; between steps the queue and
    the pool are whatever others made of them. *)
Inductive round (deadlineMs : Z) (t : nat) : Z * AllocationRun → Z * AllocationRun → Prop :=
| round_wait_over pool st now now' aborted r : phase r = RetryWaiting →
    round deadlineMs t (now, r) (now', waitOver pool deadlineMs now' aborted t st r)
| round_refreshed now now' aborted r : phase r = Refreshing → round deadlineMs t (now, r) (now', roundStarts deadlineMs now' aborted r)
| round_throws e now now' r : phase r = RetryWaiting ∨ phase r = Refreshing ∨ phase r = ReadingOwnership →
    round deadlineMs t (now, r) (now', roundThrows e r)
| round_check pool st now now' r : phase r = ReadingOwnership →
    round deadlineMs t (now, r) (now', (claimCheck pool deadlineMs now' t st r).2)
| round_settles result now now' r : phase r = Attempting → round deadlineMs t (now, r) (now', attemptSettles result r).

(** What the counters of a run say. *)
Definition run_ok (deadlineMs now : Z) (r : AllocationRun) : Prop :=
  0 <= attempts r ∧ (lastBlock r = Some contention → 1 <= attempts r) ∧
  (lastBlock r = None → attempts r = 0 ∧ match phase r with ReadingOwnership | Failed _ => True | _ => False end) ∧
  (phase r = TimedOut → deadlineMs <= now).

Lemma roundStarts_ok deadlineMs now now' aborted r :
  run_ok deadlineMs now r → lastBlock r ≠ None → run_ok deadlineMs now' (roundStarts deadlineMs now' aborted r).
Proof.
  intros (A & B & C & D) Hl. unfold roundStarts, run_ok, in_phase. destruct aborted; cbn; [naive_solver|].
  destruct (deadlineMs <=? now') eqn:Hd, (waited r); cbn; [apply Z.leb_le in Hd|..]; naive_solver.
Qed.
Lemma round_ok deadlineMs t x y : round deadlineMs t x y → run_ok deadlineMs x.1 x.2 → run_ok deadlineMs y.1 y.2.
Proof.
  intros H. pose proof roundStarts_ok as Hrs. destruct H as [pool st now now' ab r Hp|now now' ab r Hp|e now now' r Hp|pool st now now' r Hp|res now now' r Hp]; cbn; intros Hok;
    pose proof Hok as (A & B & C & D).
  - assert (lastBlock r ≠ None) by (intros Hn; rewrite Hp in C; naive_solver).
    unfold waitOver. destruct (needsRefresh _ _); [|by eapply Hrs]. unfold run_ok, in_phase. cbn. naive_solver.
  - eapply Hrs; [done|]. intros Hn. rewrite Hp in C. naive_solver.
  - unfold roundThrows, run_ok, in_phase. cbn. naive_solver.
  - unfold claimCheck. destruct (canClaimMultiDeviceAllocation _ _ _) as [[]|e]; cbn.
    + unfold run_ok. cbn. split_and!; [lia|lia|done|done].
    + assert (Hb : ∀ st', multiDeviceAllocationBlock st' t ≠ contention) by (intros; unfold multiDeviceAllocationBlock; by destruct (isQueuedBehindConflictingRequest _ _)).
      destruct (throwIfMultiDeviceAllocationDeadlocked _ _); cbn; unfold run_ok, in_phase; cbn.
      * destruct (deadlineMs <=? now') eqn:Hd; [apply Z.leb_le in Hd|]; split_and!; naive_solver.
      * split_and!; naive_solver.
    + unfold run_ok, in_phase. cbn. naive_solver.
  - assert (lastBlock r ≠ None) by (intros Hn; rewrite Hp in C; naive_solver).
    unfold attemptSettles, run_ok, in_phase. destruct res as [[]|]; cbn; naive_solver.
Qed.

Lemma rounds_ok deadlineMs t x y : rtc (round deadlineMs t) x y → run_ok deadlineMs x.1 x.2 → run_ok deadlineMs y.1 y.2.
Proof. induction 1 as [|x y z H _ IH]; [done|]. intros Hx. apply IH. by eapply round_ok. Qed.

(** A request that times out does so at or after its deadline, after at least one check,
    and its report gives the outcome of the last one. *)
Theorem timeout_report_is_true deadlineMs start aborted t now r :
  rtc (round deadlineMs t) (start, startRun deadlineMs start aborted) (now, r) → phase r = TimedOut →
  deadlineMs <= now ∧
  match describeMultiDeviceAllocationAttempts (attempts r) (lastBlock r) with
  | (count, None) => 1 <= count
  | (count, Some note) => 0 <= count ∧ (lastBlock r = Some queued ↔ note = StillQueued) ∧ (lastBlock r = Some busy ↔ note = TooFewIdle)
  end.
Proof.
  intros Hr Hp. assert (Hok : run_ok deadlineMs now r).
  { apply rounds_ok in Hr; [done|]. unfold startRun, roundStarts, run_ok, in_phase. cbn.
    destruct aborted; cbn; [naive_solver|]. rewrite andb_false_r. cbn. naive_solver. }
  destruct Hok as (A & B & C & D). split; [by apply D|]. destruct (lastBlock r) as [[]|] eqn:E; cbn.
  - split_and!; [done|by split|by split].
  - split_and!; [done|by split|by split].
  - by apply B.
  - rewrite Hp in C. naive_solver.
Qed.

(** ** Waking *)

(** A request that leaves the queue resolves every wait under way; a wait is due within
    the interval and by the deadline, and ends once it is resolved. *)
Theorem removal_wakes_every_wait st t w : t ∈ queue st →
  jkeys (waiters (removeTicket t st)) = jkeys (waiters st) ∧
  (∀ wait, jget w (waiters (removeTicket t st)) = Some wait → resolved wait = true) ∧
  jget w (waiters (waitEnds false w (removeTicket t st))) = None.
Proof.
  intros Ht. unfold removeTicket. destruct (indexOf_is_Some _ _ Ht) as [i Hi]. rewrite Hi. cbn.
  assert (Hres : ∀ wait, jget w ((λ e, (e.1, mkRetry (due e.2) true)) <$> waiters st) = Some wait → resolved wait = true).
  { intros wait Hw. apply jget_in, list_elem_of_fmap in Hw as (e & [= _ ->] & _). done. }
  split_and!; [exact (jkeys_fmap (λ x, mkRetry (due x) true) (waiters st))|done|].
  unfold waitEnds. cbn. destruct (jget w _) as [wait|] eqn:E; [|done]. rewrite (Hres _ eq_refl). cbn.
  by rewrite jget_del, decide_True.
Qed.
Lemma wait_is_bounded interval deadlineMs now w st st' wait :
  waitForMultiDeviceRetry interval deadlineMs now false w st = WaitBegins st' → jget w (waiters st') = Some wait →
  now < due wait <= now + interval ∧ due wait <= deadlineMs ∧ resolved wait = false.
Proof.
  unfold waitForMultiDeviceRetry. destruct (_ <=? 0) eqn:E; [done|]. apply Z.leb_gt in E. intros [= <-]. cbn.
  rewrite jget_set, decide_True by done. intros [= <-]. cbn. split; [lia|]. split; [lia|done].
Qed.

(** ** Concrete pools *)

Definition phone (name : string) (holder : option string) (version : string) : Candidate :=
  mkCandidate (DeviceBinding.mkDevice name "ios" (mkBinding holder (match holder with Some _ => DeviceBinding.busy | None => idle end) None) 0 0 0 None)
    "iPhone 15" None (Some version).
Definition poolOf (devices : list Candidate) (sessions : list (string * string)) : AllocationPool :=
  mkAllocationPool devices (λ s, jget s sessions) (λ _, None) (λ _, true) (λ _, false) (λ _, false) (λ _, false) (λ _, false) None.
Definition wants (session : string) : DeviceAllocationRequest := mkRequest session (Some (mkCriteria (Some ios) None None)).

(** Two requests, each with a session that holds a device and one that wants another. *)
Definition crossed : AllocationPool :=
  poolOf [phone "A" (Some "s1"%string) "17.5"; phone "B" (Some "s2"%string) "18"] [("s1"%string, "A"%string); ("s2"%string, "B"%string)].
Definition crossed_queue : MultiDeviceAllocationQueue :=
  @enqueue _ (pool_port crossed) 1 (mkTicket [wants "s2"; wants "s4"] None)
    (@enqueue _ (pool_port crossed) 0 (mkTicket [wants "s1"; wants "s3"] None) (mkQueue [] [] [])).

Example crossed_first_waits : phase (claimCheck crossed 1000 0 0 crossed_queue (startRun 1000 0 false)).2 = RetryWaiting.
Proof. vm_compute. reflexivity. Qed.
Lemma cycle_ends_at_its_last_check_witness :
  (∃ d, phase (claimCheck crossed 1000 0 1 crossed_queue (startRun 1000 0 false)).2 = Failed (Deadlocked d) ∧
    cm_ticket <$> others d = [0%nat]) ∧
  match phase (claimCheck crossed 1000 0 1 crossed_queue (startRun 1000 0 false)).2 with
  | Failed (Deadlocked d) => ∀ u, u ∈ cm_ticket <$> others d ↔ u ≠ 1%nat ∧
      @sharesCycle _ (pool_port crossed) (@recordHeldSessions _ (pool_port crossed) 1 crossed_queue) 1 u
  | Failed (DeviceUnhealthy _) => True
  | Attempting => ∃ request, request ∈ requests (ticketOf (@recordHeldSessions _ (pool_port crossed) 1 crossed_queue) 1) ∧ absent crossed request
  | _ => False
  end.
Proof.
  split; [eexists; split; [vm_compute; reflexivity|reflexivity]|].
  apply (cycle_ends_at_its_last_check crossed 1000 0 1 crossed_queue (startRun 1000 0 false)).
  - split; [apply (bool_decide_unpack _); vm_compute; exact I|]. repeat constructor; vm_compute; done.
  - destruct (@throwIf_spec _ (pool_port crossed) (@recordHeldSessions _ (pool_port crossed) 1 crossed_queue) 1) as [[_ H]|[E _]]; [exact H|].
    exfalso. vm_compute in E. discriminate E.
Defined.

(** Nothing waits before it and both devices are idle: the attempt is made. *)
Definition free_pool : AllocationPool := poolOf [phone "A" None "17.5"; phone "B" None "18"] [].
Definition free_queue : MultiDeviceAllocationQueue :=
  @enqueue _ (pool_port free_pool) 0 (mkTicket [wants "s1"; wants "s2"] None) (mkQueue [] [] []).
Lemma claims_are_taken_in_turn_witness :
  let st' := @recordHeldSessions _ (pool_port free_pool) 0 free_queue in
  phase (claimCheck free_pool 1000 0 0 free_queue (startRun 1000 0 false)).2 = Attempting ∧
  ((∃ request held, request ∈ requests (ticketOf st' 0) ∧ heldByExistingSession free_pool (sessionId request) = Some held ∧
     truthy_opt (disqualification free_pool request held) = true) ∨
   (∀ request, request ∈ requests (ticketOf st' 0) → heldByExistingSession free_pool (sessionId request) ≠ None) ∨
   earlierConflictingTickets st' 0 = [] ∧ ∃ claims, newClaims free_pool (requests (ticketOf st' 0)) = Some claims ∧
     ((∃ request, request ∈ claims ∧ absent free_pool request) ∨ ∃ ids, served free_pool claims ids)).
Proof.
  intros st'. split; [vm_compute; reflexivity|].
  apply (claims_are_taken_in_turn free_pool 1000 0 0 free_queue (startRun 1000 0 false)). vm_compute. reflexivity.
Defined.

(** The first of the crossed requests, checked at its deadline. *)
Lemma timeout_report_is_true_witness :
  let r := (claimCheck crossed 1000 1000 0 crossed_queue (startRun 1000 0 false)).2 in
  phase r = TimedOut ∧ 1000 <= 1000 ∧
  match describeMultiDeviceAllocationAttempts (attempts r) (lastBlock r) with
  | (count, None) => 1 <= count
  | (count, Some note) => 0 <= count ∧ (lastBlock r = Some queued ↔ note = StillQueued) ∧ (lastBlock r = Some busy ↔ note = TooFewIdle)
  end.
Proof.
  intros r. split; [vm_compute; reflexivity|].
  apply (timeout_report_is_true 1000 0 false 0 1000 r); [|vm_compute; reflexivity].
  apply rtc_once. apply (round_check 1000 0 crossed crossed_queue 0 1000 (startRun 1000 0 false)). reflexivity.
Defined.

(** The count of idle devices is greedy: two requests with one criterion each take the
    devices in the order of the table, so a request that both idle devices could serve
    together is told that too few are idle, round after round. *)
Definition asks (session : string) (type_ version : option string) : DeviceAllocationRequest :=
  mkRequest session (Some (mkCriteria (Some ios) type_ version)).
Definition greedy_queue : MultiDeviceAllocationQueue :=
  @enqueue _ (pool_port free_pool) 0
    (mkTicket [asks "s1" (Some "iPhone 15"%string) None; asks "s2" None (Some "17.5"%string)] None) (mkQueue [] [] []).
Lemma greedy_check_refuses_a_served_request :
  canClaimMultiDeviceAllocation free_pool greedy_queue 0 = Returns false ∧
  hasCompleteMatching ((λ r, d_id <$> filter (λ d, isIdleDeviceEligible free_pool d = true) (matchingDevices free_pool (criteria r)))
    <$> requests (ticketOf greedy_queue 0)) = true ∧
  phase (claimCheck free_pool 1000 1000 0 greedy_queue (startRun 1000 0 false)).2 = TimedOut.
Proof. vm_compute. done. Qed.
