(* ===== verification/ReadinessLock.v ===== *)
(** * The readiness lock of a device

    [src/src/utils/deviceReadinessLock.ts]: a lock per device that the acquisition and the
    upgrade of a session share, handed over in order of arrival, and the markers of the
    acquisitions that still have to record their readiness.  Locks, waiters and release
    functions are objects; a waiter may be abandoned by its timer or signal at any time. *)
From Stdlib Require Import Strings.String.
From S2P Require Import Prelude JsString JsMap.
From stdpp Require Import sets sorting.

(** ** The lock *)

Inductive WaitOutcome := Granted (handle : nat) | Abandoned.
Record ReadinessWaiter := mkWaiter { w_lock : nat; active : bool; w_outcome : option WaitOutcome }.
Record ReadinessLock := mkLock { locked : bool; lockWaiters : list nat }.
(** A release function, with its [released] flag. *)
Record LockRelease := mkRelease { r_key : string; r_lock : nat; released : bool }.
Record ReadinessLocks := mkLocks {
  readinessLocksByDevice : JsMap string nat; lockObjects : JsMap nat ReadinessLock;
  waiterObjects : JsMap nat ReadinessWaiter; releases : JsMap nat LockRelease; nextObject : nat }.
Definition noLocks : ReadinessLocks := mkLocks [] [] [] [] 0.

Definition with_byDevice f s := mkLocks (f (readinessLocksByDevice s)) (lockObjects s) (waiterObjects s) (releases s) (nextObject s).
Definition with_locks f s := mkLocks (readinessLocksByDevice s) (f (lockObjects s)) (waiterObjects s) (releases s) (nextObject s).
Definition with_waiters f s := mkLocks (readinessLocksByDevice s) (lockObjects s) (f (waiterObjects s)) (releases s) (nextObject s).
Definition with_releases f s := mkLocks (readinessLocksByDevice s) (lockObjects s) (waiterObjects s) (f (releases s)) (nextObject s).
Definition fresh s := mkLocks (readinessLocksByDevice s) (lockObjects s) (waiterObjects s) (releases s) (S (nextObject s)).

Definition isDeviceReadinessLocked (key : string) (s : ReadinessLocks) : bool :=
  match jget key (readinessLocksByDevice s) ≫= λ l, jget l (lockObjects s) with Some lock => locked lock | None => false end.
Definition createRelease (key : string) (l : nat) (s : ReadinessLocks) : nat * ReadinessLocks :=
  (nextObject s, fresh (with_releases (jset (nextObject s) (mkRelease key l false)) s)).

(** What [acquireDeviceReadinessLock] returns at once: nothing for an aborted signal, a
    release function, or a wait.  The signal is read again after the waiter is queued, in
    the same turn, when it cannot have been aborted; a later abort is [abandon]. *)
Inductive Acquisition := Refused | Acquired (handle : nat) | Queued (waiter : nat).
Definition lockFor (key : string) (s : ReadinessLocks) : nat * ReadinessLocks :=
  match jget key (readinessLocksByDevice s) with
  | Some l => (l, s)
  | None => (nextObject s,
      fresh (with_locks (jset (nextObject s) (mkLock false [])) (with_byDevice (jset key (nextObject s)) s)))
  end.
Definition acquireDeviceReadinessLock (key : string) (aborted : bool) (s : ReadinessLocks) : Acquisition * ReadinessLocks :=
  if aborted then (Refused, s)
  else
    let '(l, s) := lockFor key s in
    let lock := default (mkLock false []) (jget l (lockObjects s)) in
    if negb (locked lock) then
      let '(h, s) := createRelease key l (with_locks (jset l (mkLock true (lockWaiters lock))) s) in (Acquired h, s)
    else
      let w := nextObject s in
      (Queued w, fresh (with_locks (jset l (mkLock (locked lock) (lockWaiters lock ++ [w])))
        (with_waiters (jset w (mkWaiter l true None)) s))).
(** [abandon], called by the timer or the signal of a waiter. *)
Definition abandon (w : nat) (s : ReadinessLocks) : ReadinessLocks :=
  match jget w (waiterObjects s) with
  | Some waiter =>
      if negb (active waiter) then s
      else with_locks (λ m, match jget (w_lock waiter) m with
          | Some lock => jset (w_lock waiter) (mkLock (locked lock) (filter (λ x, x ≠ w) (lockWaiters lock))) m
          | None => m end)
        (with_waiters (jset w (mkWaiter (w_lock waiter) false (Some Abandoned))) s)
  | None => s
  end.
(** The loop that shifts waiters: the first active one, and those behind it. *)
Fixpoint shiftActive (objects : JsMap nat ReadinessWaiter) (ws : list nat) : option nat * list nat :=
  match ws with
  | [] => (None, [])
  | w :: ws => if default false (active <$> jget w objects) then (Some w, ws) else shiftActive objects ws
  end.
Definition release (h : nat) (s : ReadinessLocks) : ReadinessLocks :=
  match jget h (releases s) with
  | None => s
  | Some r =>
      if released r then s
      else
        let s := with_releases (jset h (mkRelease (r_key r) (r_lock r) true)) s in
        let lock := default (mkLock false []) (jget (r_lock r) (lockObjects s)) in
        match shiftActive (waiterObjects s) (lockWaiters lock) with
        | (Some w, rest) =>
            let '(h', s) := createRelease (r_key r) (r_lock r) (with_locks (jset (r_lock r) (mkLock (locked lock) rest)) s) in
            with_waiters (jset w (mkWaiter (r_lock r) false (Some (Granted h')))) s
        | (None, rest) =>
            let s := with_locks (jset (r_lock r) (mkLock false rest)) s in
            if bool_decide (jget (r_key r) (readinessLocksByDevice s) = Some (r_lock r))
            then with_byDevice (jdel (r_key r)) s else s
        end
  end.

(** The operations, in any order. *)
Inductive LockOp := Acquire (key : string) (aborted : bool) | Abandon (w : nat) | Release (h : nat).
Definition lockStep (op : LockOp) (s : ReadinessLocks) : ReadinessLocks :=
  match op with
  | Acquire key aborted => (acquireDeviceReadinessLock key aborted s).2
  | Abandon w => abandon w s
  | Release h => release h s
  end.
Definition lockReachable (s : ReadinessLocks) : Prop := ∃ ops, s = foldl (λ s op, lockStep op s) noLocks ops.

(** ** The markers *)

(** The acquisitions in flight for each key, and those that have settled. *)
Record Markers := mkMarkers { pendingFor : JsMap string (list nat); inFlight : list nat; nextMarker : nat }.
Definition noMarkers : Markers := mkMarkers [] [] 0.
Definition setAcquisitionReadinessPending (key : string) (pending : list nat) (m : JsMap string (list nat)) : JsMap string (list nat) :=
  if bool_decide (pending = []) then jdel key m else jset key pending m.
(** [trackDeviceAcquisitionReadiness] up to its await, and its [finally]. *)
Definition trackStart (key : string) (s : Markers) : Markers :=
  let marker := nextMarker s in
  mkMarkers (setAcquisitionReadinessPending key (default [] (jget key (pendingFor s)) ++ [marker]) (pendingFor s))
    (inFlight s ++ [marker]) (S marker).
Definition dropMarker (marker : nat) (m : JsMap string (list nat)) (e : string * list nat) : JsMap string (list nat) :=
  if bool_decide (marker ∈ e.2) then setAcquisitionReadinessPending e.1 (filter (λ p, p ≠ marker) e.2) m else m.
Definition trackEnd (marker : nat) (s : Markers) : Markers :=
  mkMarkers (foldl (dropMarker marker) (pendingFor s) (pendingFor s)) (sdel marker (inFlight s)) (nextMarker s).
Definition moveDeviceAcquisitionReadiness (fromKey toKey : string) (s : Markers) : Markers :=
  match jget fromKey (pendingFor s) with
  | None => s
  | Some from =>
      if bool_decide (fromKey = toKey) then s
      else
        let merged := match jget toKey (pendingFor s) with
          | Some existing => existing ++ filter (λ p, p ∉ existing) from
          | None => from
          end in
        mkMarkers (setAcquisitionReadinessPending toKey merged (pendingFor s)) (inFlight s) (nextMarker s)
  end.
(** The promise a caller awaits settles when all of these have. *)
Definition getDeviceAcquisitionReadiness (key : string) (s : Markers) : option (list nat) := jget key (pendingFor s).

Inductive MarkerOp := TrackStart (key : string) | TrackEnd (marker : nat) | Move (fromKey toKey : string).
Definition markerStep (op : MarkerOp) (s : Markers) : Markers :=
  match op with TrackStart key => trackStart key s | TrackEnd a => trackEnd a s | Move a b => moveDeviceAcquisitionReadiness a b s end.
Definition markersReachable (s : Markers) : Prop := ∃ ops, s = foldl (λ s op, markerStep op s) noMarkers ops.

(** ** The invariant of the lock *)

Definition holds (s : ReadinessLocks) (h : nat) (key : string) (l : nat) : Prop := jget h (releases s) = Some (mkRelease key l false).

Record locks_ok (s : ReadinessLocks) : Prop := {
  lo_fresh_lock : ∀ l lock, jget l (lockObjects s) = Some lock → l < nextObject s;
  lo_fresh_waiter : ∀ w waiter, jget w (waiterObjects s) = Some waiter → w < nextObject s;
  lo_fresh_release : ∀ h r, jget h (releases s) = Some r → h < nextObject s;
  (** A lock in the map is held through exactly one release function. *)
  lo_entry : ∀ key l, jget key (readinessLocksByDevice s) = Some l →
    (∃ ws, jget l (lockObjects s) = Some (mkLock true ws)) ∧ ∃ h, holds s h key l;
  lo_held : ∀ h key l, holds s h key l → jget key (readinessLocksByDevice s) = Some l;
  lo_one : ∀ h1 h2 k1 k2 l, holds s h1 k1 l → holds s h2 k2 l → h1 = h2;
  (** Its waiters are those that still wait, in the order they came. *)
  lo_queue : ∀ l lock, jget l (lockObjects s) = Some lock →
    StronglySorted lt (lockWaiters lock) ∧ ∀ w, w ∈ lockWaiters lock → jget w (waiterObjects s) = Some (mkWaiter l true None);
  lo_waiting : ∀ w waiter, jget w (waiterObjects s) = Some waiter → active waiter = true →
    w_outcome waiter = None ∧ ∃ key ws, jget key (readinessLocksByDevice s) = Some (w_lock waiter) ∧
      jget (w_lock waiter) (lockObjects s) = Some (mkLock true ws) ∧ w ∈ ws }.

Lemma strongly_sorted_filter {A} (R : A → A → Prop) (P : A → Prop) `{∀ x, Decision (P x)} (l : list A) :
  StronglySorted R l → StronglySorted R (filter P l).
Proof.
  induction 1 as [|x l _ IH Hx]; [constructor|]. rewrite filter_cons. case_decide; [|done]. constructor; [done|].
  apply Forall_forall. intros y [_ Hy]%list_elem_of_filter. by eapply Forall_forall in Hx.
Qed.
Lemma shiftActive_queue objects l ws : (∀ w, w ∈ ws → jget w objects = Some (mkWaiter l true None)) →
  shiftActive objects ws = match ws with [] => (None, []) | w :: rest => (Some w, rest) end.
Proof. intros H. destruct ws as [|w ws]; [done|]. cbn. by rewrite (H w) by (by left). Qed.

Lemma lo_same_key s k1 k2 l : locks_ok s → jget k1 (readinessLocksByDevice s) = Some l → jget k2 (readinessLocksByDevice s) = Some l → k1 = k2.
Proof.
  intros Hok (_ & h1 & H1)%(lo_entry _ Hok) (_ & h2 & H2)%(lo_entry _ Hok). assert (h1 = h2) as -> by by eapply lo_one.
  unfold holds in *. congruence.
Qed.

(** What each operation does to a state of that shape. *)
Lemma acquire_free s key : jget key (readinessLocksByDevice s) = None →
  acquireDeviceReadinessLock key false s = (Acquired (S (nextObject s)),
    mkLocks (jset key (nextObject s) (readinessLocksByDevice s))
      (jset (nextObject s) (mkLock true []) (jset (nextObject s) (mkLock false []) (lockObjects s))) (waiterObjects s)
      (jset (S (nextObject s)) (mkRelease key (nextObject s) false) (releases s)) (S (S (nextObject s)))).
Proof.
  intros Hk. unfold acquireDeviceReadinessLock, lockFor. rewrite Hk. cbn [fresh with_locks with_byDevice lockObjects].
  rewrite jget_set, decide_True by done. done.
Qed.
Lemma acquire_queues s key l ws : jget key (readinessLocksByDevice s) = Some l → jget l (lockObjects s) = Some (mkLock true ws) →
  acquireDeviceReadinessLock key false s = (Queued (nextObject s),
    mkLocks (readinessLocksByDevice s) (jset l (mkLock true (ws ++ [nextObject s])) (lockObjects s))
      (jset (nextObject s) (mkWaiter l true None) (waiterObjects s)) (releases s) (S (nextObject s))).
Proof. intros Hk Hl. unfold acquireDeviceReadinessLock, lockFor. rewrite Hk. by rewrite Hl. Qed.
Lemma abandon_queued s w l ws : jget w (waiterObjects s) = Some (mkWaiter l true None) → jget l (lockObjects s) = Some (mkLock true ws) →
  abandon w s = mkLocks (readinessLocksByDevice s) (jset l (mkLock true (filter (λ x, x ≠ w) ws)) (lockObjects s))
    (jset w (mkWaiter l false (Some Abandoned)) (waiterObjects s)) (releases s) (nextObject s).
Proof. intros Hw Hl. unfold abandon. rewrite Hw. cbn. unfold with_locks, with_waiters. cbn. by rewrite Hl. Qed.
Lemma release_hands_over s h key l w ws : locks_ok s → holds s h key l → jget l (lockObjects s) = Some (mkLock true (w :: ws)) →
  release h s = mkLocks (readinessLocksByDevice s) (jset l (mkLock true ws) (lockObjects s))
    (jset w (mkWaiter l false (Some (Granted (nextObject s)))) (waiterObjects s))
    (jset (nextObject s) (mkRelease key l false) (jset h (mkRelease key l true) (releases s))) (S (nextObject s)).
Proof.
  intros Hok Hh Hl. unfold release. rewrite Hh. cbn. rewrite Hl. cbn.
  rewrite (proj2 (lo_queue _ Hok _ _ Hl) w) by (by left). done.
Qed.
Lemma release_frees s h key l : locks_ok s → holds s h key l → jget l (lockObjects s) = Some (mkLock true []) →
  release h s = mkLocks (jdel key (readinessLocksByDevice s)) (jset l (mkLock false []) (lockObjects s)) (waiterObjects s)
    (jset h (mkRelease key l true) (releases s)) (nextObject s).
Proof.
  intros Hok Hh Hl. unfold release. rewrite Hh. cbn. rewrite Hl. cbn. rewrite bool_decide_eq_true_2 by by eapply lo_held. done.
Qed.

Ltac lock_decide := let E := fresh "Hd" in case_decide as E; subst.
Ltac lock_cases := repeat (rewrite !jget_set || rewrite !jget_del || lock_decide).

Lemma acquire_free_ok s key : locks_ok s → jget key (readinessLocksByDevice s) = None →
  locks_ok (acquireDeviceReadinessLock key false s).2.
Proof.
  intros Hok Hk. rewrite acquire_free by done. destruct Hok as [FL FW FR EN HE ON QU WA].
  assert (Hnl : ∀ k, jget k (readinessLocksByDevice s) ≠ Some (nextObject s)).
  { intros k (( ws & Hw) & _)%EN. apply FL in Hw. lia. }
  split; cbn [snd lockObjects waiterObjects releases readinessLocksByDevice nextObject].
  - intros l lock. lock_cases; [lia|]. intros ?%FL. lia.
  - intros w waiter H%FW. lia.
  - intros h r. lock_cases; [lia|]. intros ?%FR. lia.
  - intros k l. unfold holds. cbn [releases]. rewrite jget_set. case_decide as Hd; subst.
    + intros [= <-]. split; [exists []; by rewrite jget_set, decide_True|]. exists (S (nextObject s)). by rewrite jget_set, decide_True.
    + intros H. destruct (EN _ _ H) as ((ws & Hw) & h & Hh). pose proof (FL _ _ Hw). pose proof (FR _ _ Hh).
      split; [exists ws; lock_cases; [lia|done]|]. exists h. rewrite jget_set, decide_False by lia. done.
  - unfold holds. cbn [releases]. intros h k l. rewrite !jget_set. case_decide as Hd; subst.
    + intros [= <- <-]. by rewrite decide_True.
    + intros H. pose proof (HE _ _ _ H) as Hin. lock_decide; [congruence|done].
  - unfold holds. cbn [releases]. intros h1 h2 k1 k2 l. rewrite !jget_set. repeat lock_decide; subst; try done.
    + intros [= <- <-] H%HE. by apply Hnl in H.
    + intros H%HE [= <- <-]. by apply Hnl in H.
    + apply ON.
  - intros l lock. lock_cases; [intros [= <-]; split; [constructor|by intros ? ?%elem_of_nil]|]. apply QU.
  - intros w waiter Hw Ha. destruct (WA _ _ Hw Ha) as (Ho & k & ws & Hb & Hl & Hin). split; [done|].
    exists k, ws. pose proof (FL _ _ Hl). rewrite !jget_set, !decide_False by (congruence || lia). done.
Qed.

Lemma acquire_queues_ok s key l ws : locks_ok s → jget key (readinessLocksByDevice s) = Some l → jget l (lockObjects s) = Some (mkLock true ws) →
  locks_ok (acquireDeviceReadinessLock key false s).2.
Proof.
  intros Hok Hk Hl. erewrite acquire_queues by done. destruct Hok as [FL FW FR EN HE ON QU WA].
  destruct (QU _ _ Hl) as [Hsort Hws]. cbn in Hsort, Hws.
  split; cbn [snd lockObjects waiterObjects releases readinessLocksByDevice nextObject].
  - intros l' lock. lock_cases; [apply FL in Hl; lia|]. intros ?%FL. lia.
  - intros w waiter. lock_cases; [lia|]. intros ?%FW. lia.
  - intros h r H%FR. lia.
  - intros k l' H. destruct (EN _ _ H) as ((ws' & Hw) & h & Hh). split; [|by exists h]. lock_cases; eauto.
  - done.
  - done.
  - intros l' lock. lock_cases.
    + intros [= <-]. cbn. split.
      * apply StronglySorted_app. split_and!; [|done|repeat constructor]. intros x y Hx ->%list_elem_of_singleton. by eapply FW, Hws.
      * intros w [Hw| ->%list_elem_of_singleton]%elem_of_app; lock_cases; [done|by apply Hws|done|done].
    + intros H. destruct (QU _ _ H) as [A B]. split; [done|]. intros w Hw. pose proof (B w Hw) as Hb. pose proof (FW _ _ Hb).
      rewrite jget_set, decide_False by lia. done.
  - intros w waiter. rewrite jget_set. lock_decide.
    + intros [= <-] _. split; [done|]. exists key, (ws ++ [nextObject s]). cbn. rewrite jget_set, decide_True by done.
      split_and!; [done|done|]. apply elem_of_app. right. by left.
    + intros Hw Ha. destruct (WA _ _ Hw Ha) as (Ho & k & ws' & Hb & Hlw & Hin). split; [done|]. exists k. rewrite jget_set.
      lock_decide; [|by exists ws']. exists (ws ++ [nextObject s]). split_and!; [done|done|]. apply elem_of_app. left. congruence.
Qed.

Lemma abandon_ok s w : locks_ok s → locks_ok (abandon w s).
Proof.
  intros Hok. destruct (jget w (waiterObjects s)) as [[l a o]|] eqn:Hw; [|unfold abandon; by rewrite Hw].
  destruct a; [|unfold abandon; by rewrite Hw]. destruct (lo_waiting _ Hok _ _ Hw eq_refl) as (Ho & key & ws & Hk & Hl & Hin).
  cbn in Ho, Hk, Hl, Hin. subst o. erewrite abandon_queued by done. destruct Hok as [FL FW FR EN HE ON QU WA].
  destruct (QU _ _ Hl) as [Hsort Hws]. cbn in Hsort, Hws.
  split; cbn [lockObjects waiterObjects releases readinessLocksByDevice nextObject].
  - intros l' lock. lock_cases; [by intros _; eapply FL|by apply FL].
  - intros w' waiter. lock_cases; [by intros _; eapply FW|by apply FW].
  - done.
  - intros k l' H. destruct (EN _ _ H) as ((ws' & Hw') & h & Hh). split; [|by exists h]. lock_cases; eauto.
  - done.
  - done.
  - intros l' lock. lock_cases.
    + intros [= <-]. cbn. split; [by apply strongly_sorted_filter|]. intros w' [Hne Hw']%list_elem_of_filter.
      rewrite jget_set, decide_False by done. by apply Hws.
    + intros H. destruct (QU _ _ H) as [A B]. split; [done|]. intros w' Hw'. pose proof (B w' Hw') as Hb.
      rewrite jget_set. lock_decide; congruence.
  - intros w' waiter. rewrite jget_set. lock_decide; [by intros [= <-]|].
    intros Hw' Ha. destruct (WA _ _ Hw' Ha) as (Ho & k & ws' & Hb & Hlw & Hin'). split; [done|]. exists k. rewrite jget_set.
    lock_decide; [|by exists ws']. exists (filter (λ x, x ≠ w) ws). split_and!; [done|done|]. apply list_elem_of_filter.
    split; [done|congruence].
Qed.

Lemma release_keeps_locks s h : locks_ok s → locks_ok (release h s).
Proof.
  intros Hok. destruct (jget h (releases s)) as [[key l rel]|] eqn:Hr; [|unfold release; by rewrite Hr].
  destruct rel; [unfold release; by rewrite Hr|]. pose proof (lo_held _ Hok _ _ _ Hr) as Hk.
  destruct (lo_entry _ Hok _ _ Hk) as ((ws & Hl) & _). pose proof (lo_same_key s) as Hsame.
  destruct ws as [|w ws]; [erewrite release_frees by done|erewrite release_hands_over by done]; pose proof Hok as [FL FW FR EN HE ON QU WA].
  - split; cbn [lockObjects waiterObjects releases readinessLocksByDevice nextObject].
    + intros l' lock. lock_cases; [by intros _; eapply FL|by apply FL].
    + done.
    + intros h' r. lock_cases; [by intros _; eapply FR|by apply FR].
    + intros k l'. unfold holds. cbn [releases]. rewrite jget_del. lock_decide; [done|]. intros H.
      assert (l' ≠ l) by (intros ->; by apply (Hsame k key l Hok) in H).
      destruct (EN _ _ H) as (Hws & h' & Hh'). rewrite jget_set, decide_False by done. split; [done|]. exists h'.
      rewrite jget_set, decide_False; [done|]. intros <-. unfold holds in Hh'. congruence.
    + unfold holds. cbn [releases]. intros h' k l'. rewrite jget_set. lock_decide; [done|]. intros H. pose proof (HE _ _ _ H) as Hin.
      rewrite jget_del. lock_decide; [|done]. subst. assert (l' = l) as -> by congruence. by destruct (ON _ _ _ _ _ H Hr).
    + unfold holds. cbn [releases]. intros h1 h2 k1 k2 l'. rewrite !jget_set. repeat lock_decide; try done. apply ON.
    + intros l' lock. lock_cases; [intros [= <-]; split; [constructor|by intros ? ?%elem_of_nil]|]. apply QU.
    + intros w waiter Hw Ha. destruct (WA _ _ Hw Ha) as (Ho & k & ws & Hb & Hlw & Hin). split; [done|]. exists k, ws.
      assert (w_lock waiter ≠ l). { intros Hx. rewrite Hx in Hlw. rewrite Hl in Hlw. simplify_eq. by apply elem_of_nil in Hin. }
      rewrite jget_del, jget_set. rewrite (decide_False (P := l = _)) by done. lock_decide; [congruence|done].
  - destruct (QU _ _ Hl) as [Hsort Hws]. cbn in Hsort, Hws. apply StronglySorted_inv in Hsort as [Hsort Hlt].
    rewrite Forall_forall in Hlt.
    split; cbn [lockObjects waiterObjects releases readinessLocksByDevice nextObject].
    + intros l' lock. lock_cases; [intros _; apply FL in Hl; lia|]. intros ?%FL. lia.
    + intros w' waiter. lock_cases; [intros _; pose proof (FW _ _ (Hws w' ltac:(by left))); lia|]. intros ?%FW. lia.
    + intros h' r. lock_cases; [lia|intros _; apply FR in Hr; lia|]. intros ?%FR. lia.
    + intros k l' H. unfold holds. cbn [releases]. destruct (EN _ _ H) as ((ws' & Hw') & h' & Hh'). pose proof (FR _ _ Hh').
      destruct (decide (l' = l)) as [->|Hne].
      * assert (k = key) as -> by by apply (Hsame k key l Hok). rewrite jget_set, decide_True by done. split; [by exists ws|].
        exists (nextObject s). by rewrite jget_set, decide_True.
      * rewrite jget_set, decide_False by done. split; [by exists ws'|]. exists h'. rewrite !jget_set, decide_False by lia.
        rewrite decide_False; [done|]. intros <-. unfold holds in Hh'. congruence.
    + unfold holds. cbn [releases]. intros h' k l'. rewrite !jget_set. repeat lock_decide; [by intros [= <- <-]|done|apply HE].
    + unfold holds. cbn [releases]. intros h1 h2 k1 k2 l'. rewrite !jget_set. repeat lock_decide; subst; try done.
      * intros [= <- <-] H. by destruct (ON _ _ _ _ _ H Hr).
      * intros H [= <- <-]. by destruct (ON _ _ _ _ _ H Hr).
      * apply ON.
    + intros l' lock. lock_cases.
      * intros [= <-]. cbn. split; [done|]. intros w' Hw'. rewrite jget_set, decide_False by (intros ->; apply Hlt in Hw'; lia).
        apply Hws. by right.
      * intros H. destruct (QU _ _ H) as [A B]. split; [done|]. intros w' Hw'. pose proof (B w' Hw') as Hb.
        rewrite jget_set. lock_decide; [|done]. subst. rewrite (Hws w' ltac:(by left)) in Hb. congruence.
    + intros w' waiter. rewrite jget_set. lock_decide; [by intros [= <-]|].
      intros Hw' Ha. destruct (WA _ _ Hw' Ha) as (Ho & k & ws' & Hb & Hlw & Hin'). split; [done|]. exists k. rewrite jget_set.
      lock_decide; [|by exists ws']. exists ws. split_and!; [done|done|]. assert (ws' = w :: ws) as -> by congruence.
      apply elem_of_cons in Hin' as [->|?]; done.
Qed.

Lemma lockStep_ok op s : locks_ok s → locks_ok (lockStep op s).
Proof.
  intros Hok. destruct op as [key [] | w | h]; cbn [lockStep]; [done| |by apply abandon_ok|by apply release_keeps_locks].
  destruct (jget key (readinessLocksByDevice s)) as [l|] eqn:Hk; [|by apply acquire_free_ok].
  destruct (lo_entry _ Hok _ _ Hk) as ((ws & Hl) & _). by eapply acquire_queues_ok.
Qed.
Lemma lockReachable_ok s : lockReachable s → locks_ok s.
Proof.
  intros (ops & ->). assert (H : ∀ s0, locks_ok s0 → locks_ok (foldl (λ s op, lockStep op s) s0 ops)).
  { induction ops as [|op ops IH]; intros s0 H0; [done|]. cbn. apply IH. by apply lockStep_ok. }
  apply H. split; unfold holds; cbn; intros; by rewrite ?jget_nil in *.
Qed.

(** ** What the lock promises *)

(** At most one release function of a key is unreleased, and the key counts as locked
    exactly while one is. *)
Theorem readiness_lock_is_exclusive s : lockReachable s →
  (∀ h1 h2 key l1 l2, holds s h1 key l1 → holds s h2 key l2 → h1 = h2) ∧
  ∀ key, isDeviceReadinessLocked key s = true ↔ ∃ h l, holds s h key l.
Proof.
  intros Hok%lockReachable_ok. split.
  - intros h1 h2 key l1 l2 H1 H2. assert (l1 = l2) as ->; [|by eapply lo_one].
    pose proof (lo_held _ Hok _ _ _ H1). pose proof (lo_held _ Hok _ _ _ H2). congruence.
  - intros key. unfold isDeviceReadinessLocked. split.
    + intros H. destruct (jget key (readinessLocksByDevice s)) as [l|] eqn:Hk; [|done].
      destruct (lo_entry _ Hok _ _ Hk) as (_ & h & Hh). by exists h, l.
    + intros (h & l & Hh). pose proof (lo_held _ Hok _ _ _ Hh) as Hk. rewrite Hk. destruct (lo_entry _ Hok _ _ Hk) as ((ws & Hl) & _).
      cbn. by rewrite Hl.
Qed.

(** [w] waits for the lock held through [h], behind [n] others. *)
Definition waitsBehind s w n h : Prop := ∃ key l ws1 ws2, holds s h key l ∧
  jget l (lockObjects s) = Some (mkLock true (ws1 ++ w :: ws2)) ∧ length ws1 = n.
Definition wasGranted s w : Prop := ∃ h key l, jget w (waiterObjects s) = Some (mkWaiter l false (Some (Granted h))) ∧ holds s h key l.

Lemma waiter_waits s w waiter : locks_ok s → jget w (waiterObjects s) = Some waiter → active waiter = true → ∃ n h, waitsBehind s w n h.
Proof.
  intros Hok Hw Ha. destruct (lo_waiting _ Hok _ _ Hw Ha) as (_ & key & ws & Hk & Hl & Hin).
  destruct (lo_entry _ Hok _ _ Hk) as (_ & h & Hh). apply list_elem_of_split in Hin as (ws1 & ws2 & ->).
  exists (length ws1), h, key, (w_lock waiter), ws1, ws2. done.
Qed.

Lemma acquire_keeps_place s w n h key aborted : locks_ok s → waitsBehind s w n h →
  waitsBehind (acquireDeviceReadinessLock key aborted s).2 w n h.
Proof.
  intros Hok (k & l & ws1 & ws2 & Hh & Hl & Hn). destruct aborted; [by exists k, l, ws1, ws2|].
  pose proof (lo_fresh_lock _ Hok _ _ Hl) as Hfl. pose proof (lo_fresh_release _ Hok _ _ Hh) as Hfr.
  destruct (jget key (readinessLocksByDevice s)) as [l'|] eqn:Hk.
  - destruct (lo_entry _ Hok _ _ Hk) as ((ws & Hl') & _). erewrite acquire_queues by done. cbn [snd].
    exists k, l. destruct (decide (l' = l)) as [->|Hne].
    + exists ws1, (ws2 ++ [nextObject s]). split_and!; [done| |done]. cbn. rewrite jget_set, decide_True by done.
      assert (ws = ws1 ++ w :: ws2) as -> by congruence. by rewrite <- app_assoc.
    + exists ws1, ws2. split_and!; [done| |done]. cbn. by rewrite jget_set, decide_False.
  - rewrite acquire_free by done. cbn [snd]. exists k, l, ws1, ws2. unfold holds. cbn.
    rewrite !jget_set, !decide_False by lia. done.
Qed.
Lemma abandon_keeps_place s w w' n h : locks_ok s → w' ≠ w → waitsBehind s w n h →
  ∃ m, waitsBehind (abandon w' s) w m h ∧ m ≤ n.
Proof.
  intros Hok Hne Hb. pose proof Hb as (k & l & ws1 & ws2 & Hh & Hl & Hn).
  destruct (jget w' (waiterObjects s)) as [[l' a o]|] eqn:Hw; [|exists n; split; [unfold abandon; by rewrite Hw|done]].
  destruct a; [|exists n; split; [unfold abandon; by rewrite Hw|done]].
  destruct (lo_waiting _ Hok _ _ Hw eq_refl) as (Ho & key & ws & Hk & Hl' & Hin). cbn in Ho, Hk, Hl'. subst o.
  erewrite abandon_queued by done. destruct (decide (l' = l)) as [->|Hl2].
  - exists (length (filter (λ x, x ≠ w') ws1)). split; [|rewrite <- Hn; apply length_filter].
    exists k, l, (filter (λ x, x ≠ w') ws1), (filter (λ x, x ≠ w') ws2). split_and!; [done| |done]. cbn.
    rewrite jget_set, decide_True by done. assert (ws = ws1 ++ w :: ws2) as -> by congruence.
    by rewrite filter_app, filter_cons_True by done.
  - exists n. split; [|done]. exists k, l, ws1, ws2. split_and!; [done| |done]. cbn. by rewrite jget_set, decide_False.
Qed.
Lemma release_advances s w n h h0 : locks_ok s → waitsBehind s w n h →
  (wasGranted (release h0 s) w ∧ n = 0 ∧ h0 = h) ∨
  ∃ m h', waitsBehind (release h0 s) w m h' ∧ m ≤ n ∧ (h0 = h → m < n).
Proof.
  intros Hok Hb. pose proof Hb as (k & l & ws1 & ws2 & Hh & Hl & Hn). destruct (decide (h0 = h)) as [->|Hne].
  - destruct ws1 as [|w1 ws1]; erewrite release_hands_over by done; cbn in Hn.
    + left. split_and!; [|done|done]. exists (nextObject s), k, l. unfold holds. cbn. by rewrite !jget_set, !decide_True.
    + right. exists (length ws1), (nextObject s). split; [|lia]. exists k, l, ws1, ws2. unfold holds. cbn.
      by rewrite !jget_set, !decide_True.
  - right. exists n. destruct (jget h0 (releases s)) as [[key l' rel]|] eqn:Hr; [|exists h; unfold release; by rewrite Hr].
    destruct rel; [exists h; unfold release; by rewrite Hr|]. exists h. split; [|done].
    assert (Hll : l' ≠ l) by (intros ->; by destruct (Hne (lo_one _ Hok _ _ _ _ _ Hr Hh))).
    pose proof (lo_held _ Hok _ _ _ Hr) as Hk. destruct (lo_entry _ Hok _ _ Hk) as ((ws & Hl') & _).
    pose proof (lo_fresh_release _ Hok _ _ Hh). exists k, l, ws1, ws2. unfold holds.
    destruct ws; [erewrite release_frees by done|erewrite release_hands_over by done]; cbn; rewrite !jget_set, !decide_False by (done || lia); done.
Qed.

(** C25. A caller that waits stands behind a number of others in front of a live holder; no
    operation but its own abandonment moves it back, every release of the holder moves it
    forward, and the one it is next to hands it the lock. *)
Theorem readiness_lock_is_fair s w waiter : lockReachable s → jget w (waiterObjects s) = Some waiter → active waiter = true →
  ∃ n h, waitsBehind s w n h ∧
    ∀ op, op ≠ Abandon w →
      (wasGranted (lockStep op s) w ∧ n = 0 ∧ op = Release h) ∨
      ∃ m h', waitsBehind (lockStep op s) w m h' ∧ m ≤ n ∧ (op = Release h → m < n).
Proof.
  intros Hok%lockReachable_ok Hw Ha. destruct (waiter_waits s w waiter Hok Hw Ha) as (n & h & Hb). exists n, h. split; [done|].
  intros op Hop. destruct op as [key aborted|w'|h0]; cbn [lockStep].
  - right. exists n, h. split; [by apply acquire_keeps_place|done].
  - right. destruct (abandon_keeps_place s w w' n h Hok) as (m & Hm & Hle); [congruence|done|]. by exists m, h.
  - destruct (release_advances s w n h h0 Hok Hb) as [(Hg & -> & ->)|(m & h' & Hm & Hle & Hlt)]; [by left|].
    right. exists m, h'. split_and!; [done|done|]. intros [= ->]. by apply Hlt.
Qed.

(** ** What the markers promise *)

Definition pendingAt (key : string) (s : Markers) : list nat := default [] (getDeviceAcquisitionReadiness key s).
Record markers_ok (s : Markers) : Prop := {
  mo_keys : jwf (pendingFor s);
  mo_fresh : ∀ a, a ∈ inFlight s → a < nextMarker s;
  mo_entry : ∀ key pending, jget key (pendingFor s) = Some pending → pending ≠ [] ∧ NoDup pending ∧ pending ⊆ inFlight s }.

Lemma setPending_get key k pending m :
  default [] (jget k (setAcquisitionReadinessPending key pending m)) = if decide (key = k) then pending else default [] (jget k m).
Proof.
  unfold setAcquisitionReadinessPending. case_bool_decide; [rewrite jget_del|rewrite jget_set]; case_decide; [by subst|done|done|done].
Qed.
Lemma setPending_wf key pending m : jwf m → jwf (setAcquisitionReadinessPending key pending m).
Proof. intros Hm. unfold setAcquisitionReadinessPending. case_bool_decide; [by apply jdel_wf|by apply jset_wf]. Qed.
Lemma setPending_some key pending m k v :
  jget k (setAcquisitionReadinessPending key pending m) = Some v → (k = key ∧ v = pending ∧ pending ≠ []) ∨ (k ≠ key ∧ jget k m = Some v).
Proof.
  unfold setAcquisitionReadinessPending. case_bool_decide; [rewrite jget_del|rewrite jget_set]; case_decide; subst; [done| | |];
    intros; simplify_eq; auto.
Qed.

(** The [finally] takes the marker out of every key it reached. *)
Lemma drop_all_get a (es m : JsMap string (list nat)) k : NoDup es.*1 →
  default [] (jget k (foldl (dropMarker a) m es)) =
    match jget k es with
    | Some v => if bool_decide (a ∈ v) then filter (λ p, p ≠ a) v else default [] (jget k m)
    | None => default [] (jget k m)
    end.
Proof.
  revert m. induction es as [|[key v] es IH]; intros m Hnd; [by rewrite jget_nil|]. cbn in Hnd. apply NoDup_cons in Hnd as [Hk Hnd].
  cbn [foldl]. rewrite IH by done. rewrite jget_cons. case_decide as Hkey.
  - subst. destruct (jget k es) as [v'|] eqn:E; [by apply jget_in_keys in E|]. unfold dropMarker. cbn.
    case_bool_decide; [|done]. by rewrite setPending_get, decide_True.
  - assert (Hsame : default [] (jget k (dropMarker a m (key, v))) = default [] (jget k m)).
    { unfold dropMarker. cbn. case_bool_decide; [|done]. by rewrite setPending_get, decide_False. }
    by rewrite Hsame.
Qed.
Lemma drop_all_wf a (es m : JsMap string (list nat)) : jwf m → jwf (foldl (dropMarker a) m es).
Proof.
  revert m. induction es as [|e es IH]; intros m Hm; [done|]. cbn. apply IH. unfold dropMarker. case_bool_decide; [by apply setPending_wf|done].
Qed.
Lemma drop_all_nonempty a (es m : JsMap string (list nat)) k v :
  (∀ k v, jget k m = Some v → v ≠ []) → jget k (foldl (dropMarker a) m es) = Some v → v ≠ [].
Proof.
  revert m. induction es as [|e es IH]; intros m Hm; [by apply Hm|]. cbn. apply IH. intros k' v'. unfold dropMarker.
  case_bool_decide; [|apply Hm]. intros [(_ & -> & ?)|(_ & ?)]%setPending_some; [done|by eapply Hm].
Qed.

Lemma trackEnd_pending a s key : markers_ok s → pendingAt key (trackEnd a s) = filter (λ p, p ≠ a) (pendingAt key s).
Proof.
  intros Hok. unfold pendingAt, getDeviceAcquisitionReadiness, trackEnd. cbn. rewrite drop_all_get by apply (mo_keys _ Hok).
  destruct (jget key (pendingFor s)) as [v|]; [|done]. cbn. case_bool_decide as Ha; [done|]. symmetry. apply filter_all.
  intros x Hx. congruence.
Qed.
Lemma markerStep_ok op s : markers_ok s → markers_ok (markerStep op s).
Proof.
  intros Hok. pose proof Hok as [K F E]. destruct op as [key|a|from to]; cbn [markerStep].
  - split; cbn.
    + by apply setPending_wf.
    + intros a [Ha| ->%list_elem_of_singleton]%elem_of_app; [apply F in Ha|]; lia.
    + intros k v [(-> & -> & _)|(_ & H)]%setPending_some; [|destruct (E _ _ H) as (? & ? & ?); split_and!; set_solver].
      destruct (jget key (pendingFor s)) as [p|] eqn:Hp; cbn; [destruct (E _ _ Hp) as (_ & Hnd & Hsub)|split_and!; [done|by repeat constructor; apply not_elem_of_nil|set_solver]].
      split_and!; [by destruct p| |set_solver]. apply NoDup_app. split_and!; [done| |apply NoDup_singleton].
      intros x Hx ->%list_elem_of_singleton. apply Hsub, F in Hx. lia.
  - split; cbn; [by apply drop_all_wf|intros x [_ Hx]%elem_of_sdel; by apply F|]. intros k v Hv.
    split; [eapply drop_all_nonempty; [|exact Hv]; intros ? ? H; by apply E in H as (? & _)|].
    pose proof (trackEnd_pending a s k Hok) as Hp. unfold pendingAt, getDeviceAcquisitionReadiness, trackEnd in Hp. cbn in Hp.
    rewrite Hv in Hp. cbn in Hp. subst v. destruct (jget k (pendingFor s)) as [p|] eqn:Hk; cbn; [|split; [constructor|set_solver]].
    destruct (E _ _ Hk) as (_ & Hnd & Hsub). split; [by apply NoDup_filter|].
    intros x [Hne Hx]%list_elem_of_filter. apply elem_of_sdel. auto.
  - unfold moveDeviceAcquisitionReadiness. destruct (jget from (pendingFor s)) as [p|] eqn:Hf; [|done]. case_bool_decide; [done|].
    destruct (E _ _ Hf) as (Hne & Hnd & Hsub). split; cbn; [by apply setPending_wf|done|].
    intros k v [(-> & -> & _)|(_ & Hv)]%setPending_some; [|by apply (E k)].
    destruct (jget to (pendingFor s)) as [e|] eqn:Ht; [|done]. destruct (E _ _ Ht) as (Hne' & Hnd' & Hsub').
    split_and!; [by destruct e| |]; [apply NoDup_app; split_and!; [done| |by apply NoDup_filter]; intros x Hx [Hx' _]%list_elem_of_filter; done|].
    intros x [Hx|[_ Hx]%list_elem_of_filter]%elem_of_app; auto.
Qed.
Lemma markersReachable_ok s : markersReachable s → markers_ok s.
Proof.
  intros (ops & ->). assert (H : ∀ s0, markers_ok s0 → markers_ok (foldl (λ s op, markerStep op s) s0 ops)).
  { induction ops as [|op ops IH]; intros s0 H0; [done|]. cbn. apply IH. by apply markerStep_ok. }
  apply H. split; cbn; [constructor|by intros ? ?%elem_of_nil|done].
Qed.

(** A key has a marker exactly while acquisitions started on it, or moved to it, are in
    flight; an acquisition leaves a key only when it ends, and then it leaves all of them. *)
Theorem markers_cover_acquisitions s : markersReachable s →
  (∀ key pending, getDeviceAcquisitionReadiness key s = Some pending → pending ≠ [] ∧ NoDup pending ∧ pending ⊆ inFlight s) ∧
  (∀ key, nextMarker s ∈ pendingAt key (trackStart key s)) ∧
  (∀ from to, pendingAt from s ⊆ pendingAt to (moveDeviceAcquisitionReadiness from to s)) ∧
  (∀ op key a, a ∈ pendingAt key s → op ≠ TrackEnd a → a ∈ pendingAt key (markerStep op s)) ∧
  (∀ key a, pendingAt key (trackEnd a s) = filter (λ p, p ≠ a) (pendingAt key s)).
Proof.
  intros Hok%markersReachable_ok. pose proof Hok as [K F E]. unfold getDeviceAcquisitionReadiness.
  assert (Hmove : ∀ from to key, pendingAt key s ⊆ pendingAt key (moveDeviceAcquisitionReadiness from to s)).
  { intros from to key. unfold moveDeviceAcquisitionReadiness, pendingAt, getDeviceAcquisitionReadiness.
    destruct (jget from (pendingFor s)) as [p|]; [|done]. case_bool_decide; [done|]. cbn. rewrite setPending_get.
    case_decide; [|done]. subst. destruct (jget key (pendingFor s)) as [e|]; cbn; [|by intros ? ?%elem_of_nil].
    intros x Hx. apply elem_of_app. by left. }
  split_and!.
  - done.
  - intros key. unfold pendingAt, getDeviceAcquisitionReadiness, trackStart. cbn. rewrite setPending_get, decide_True by done.
    apply elem_of_app. right. by left.
  - intros from to. unfold moveDeviceAcquisitionReadiness, pendingAt, getDeviceAcquisitionReadiness.
    destruct (jget from (pendingFor s)) as [p|] eqn:Hf; [|by intros ? ?%elem_of_nil]. case_bool_decide; [subst; by rewrite Hf|]. cbn.
    rewrite setPending_get, decide_True by done. destruct (jget to (pendingFor s)) as [e|]; [|done].
    intros x Hx. apply elem_of_app. destruct (decide (x ∈ e)); [by left|right]. by apply list_elem_of_filter.
  - intros op key a Ha Hop. destruct op as [key'|a'|from to]; cbn [markerStep].
    + unfold trackStart, pendingAt, getDeviceAcquisitionReadiness in *. cbn. rewrite setPending_get. case_decide; [|done]. subst.
      apply elem_of_app. by left.
    + rewrite trackEnd_pending by done. apply list_elem_of_filter. split; [congruence|done].
    + by apply Hmove.
  - intros key a. by apply trackEnd_pending.
Qed.

(** ** A run *)

Definition handover : list LockOp := [Acquire "android:A"%string false; Acquire "android:A"%string false; Acquire "android:A"%string false; Abandon 2].
Lemma readiness_lock_is_exclusive_witness :
  let s := foldl (λ s op, lockStep op s) noLocks handover in
  (∀ h1 h2 key l1 l2, holds s h1 key l1 → holds s h2 key l2 → h1 = h2) ∧
  ∀ key, isDeviceReadinessLocked key s = true ↔ ∃ h l, holds s h key l.
Proof. intros s. apply (readiness_lock_is_exclusive s). exists handover. reflexivity. Defined.
Lemma readiness_lock_is_fair_witness :
  let s := foldl (λ s op, lockStep op s) noLocks handover in
  ∃ n h, waitsBehind s 3 n h ∧ ∀ op, op ≠ Abandon 3 →
    (wasGranted (lockStep op s) 3 ∧ n = 0 ∧ op = Release h) ∨
    ∃ m h', waitsBehind (lockStep op s) 3 m h' ∧ m ≤ n ∧ (op = Release h → m < n).
Proof.
  intros s. apply (readiness_lock_is_fair s 3 (mkWaiter 0 true None)); [exists handover; reflexivity|vm_compute; reflexivity|reflexivity].
Defined.
Lemma markers_cover_acquisitions_witness :
  let s := foldl (λ s op, markerStep op s) noMarkers [TrackStart "android:A"%string; Move "android:A"%string "android:B"%string; TrackStart "android:B"%string] in
  pendingAt "android:B"%string s = [0; 1] ∧ pendingAt "android:B"%string (trackEnd 0 s) = filter (λ p, p ≠ 0) (pendingAt "android:B"%string s).
Proof.
  intros s. split; [vm_compute; reflexivity|].
  apply (markers_cover_acquisitions s). by exists [TrackStart "android:A"%string; Move "android:A"%string "android:B"%string; TrackStart "android:B"%string].
Defined.
