(* ===== verification/DbWriteBarrier.v ===== *)
(** * The write barrier of the database

    [InMemoryDbWriteBarrier] of [src/src/db/dbWriteBarrier.ts]: best-effort writes are
    counted, and the shutdown waits for those counted, with a bound.  A write is an
    object; the idle promise is made anew when the count leaves zero. *)
From S2P Require Import Prelude JsMap.
From stdpp Require Import sets.
Local Open Scope Z_scope.

(** A promise handed to [#idle] is a reference; [idleResolved] lists those resolved.  The
    first one, of the field's initializer, is resolved from the start. *)
Record DbWriteBarrier := mkBarrier {
  inFlight : Z; draining : bool; idle : nat; resolveIdle : option nat; nextIdle : nat; idleResolved : list nat;
  counted : list nat; drains : JsMap nat (nat + bool) }.
Definition newBarrier : DbWriteBarrier := mkBarrier 0 false 0 None 1 [0%nat] [] [].

Definition enter (b : DbWriteBarrier) : DbWriteBarrier :=
  if inFlight b =? 0
  then mkBarrier (inFlight b + 1) (draining b) (nextIdle b) (Some (nextIdle b)) (S (nextIdle b)) (idleResolved b) (counted b) (drains b)
  else mkBarrier (inFlight b + 1) (draining b) (idle b) (resolveIdle b) (nextIdle b) (idleResolved b) (counted b) (drains b).
Definition leave (b : DbWriteBarrier) : DbWriteBarrier :=
  if inFlight b - 1 =? 0
  then mkBarrier (inFlight b - 1) (draining b) (idle b) None (nextIdle b)
    (match resolveIdle b with Some p => p :: idleResolved b | None => idleResolved b end) (counted b) (drains b)
  else mkBarrier (inFlight b - 1) (draining b) (idle b) (resolveIdle b) (nextIdle b) (idleResolved b) (counted b) (drains b).
Definition on_counted f (b : DbWriteBarrier) : DbWriteBarrier :=
  mkBarrier (inFlight b) (draining b) (idle b) (resolveIdle b) (nextIdle b) (idleResolved b) (f (counted b)) (drains b).
Definition on_drains f (b : DbWriteBarrier) : DbWriteBarrier :=
  mkBarrier (inFlight b) (draining b) (idle b) (resolveIdle b) (nextIdle b) (idleResolved b) (counted b) (f (drains b)).

(** [track] up to its await (whether the work is started), [trackExisting], and the end
    of a counted write, however it settles. *)
Definition track (w : nat) (b : DbWriteBarrier) : bool * DbWriteBarrier :=
  if draining b then (false, b) else (true, on_counted (sadd w) (enter b)).
Definition trackExisting (w : nat) (b : DbWriteBarrier) : DbWriteBarrier :=
  if draining b then b else on_counted (sadd w) (enter b).
Definition writeSettles (w : nat) (b : DbWriteBarrier) : DbWriteBarrier :=
  if shas w (counted b) then leave (on_counted (sdel w) b) else b.
Definition beginDrain (b : DbWriteBarrier) : DbWriteBarrier :=
  mkBarrier (inFlight b) true (idle b) (resolveIdle b) (nextIdle b) (idleResolved b) (counted b) (drains b).
(** [drain] up to its await: it answers at once, or waits for the idle promise it reads. *)
Definition drain (d : nat) (b : DbWriteBarrier) : DbWriteBarrier :=
  let b := beginDrain b in
  on_drains (jset d (if inFlight b =? 0 then inr true else inl (idle b))) b.
(** The race ends: the promise has resolved, or the bound has elapsed. *)
Definition drainResolves (d : nat) (b : DbWriteBarrier) : DbWriteBarrier :=
  match jget d (drains b) with
  | Some (inl p) => if bool_decide (p ∈ idleResolved b) then on_drains (jset d (inr true)) b else b
  | _ => b
  end.
Definition drainTimesOut (d : nat) (b : DbWriteBarrier) : DbWriteBarrier :=
  match jget d (drains b) with Some (inl _) => on_drains (jset d (inr false)) b | _ => b end.

(** The events, in any order; a write and a drain are new objects. *)
Inductive BarrierOp := Track (w : nat) | TrackExisting (w : nat) | Settles (w : nat) | BeginDrain | Drain (d : nat) | Resolves (d : nat) | TimesOut (d : nat).
Definition barrierStep (op : BarrierOp) (b : DbWriteBarrier) : DbWriteBarrier :=
  match op with
  | Track w => (track w b).2 | TrackExisting w => trackExisting w b | Settles w => writeSettles w b | BeginDrain => beginDrain b
  | Drain d => drain d b | Resolves d => drainResolves d b | TimesOut d => drainTimesOut d b
  end.
Definition allowed (op : BarrierOp) (b : DbWriteBarrier) : Prop :=
  match op with Track w | TrackExisting w => w ∉ counted b | Drain d => jget d (drains b) = None | _ => True end.
Inductive barrierReachable : DbWriteBarrier → Prop :=
| barrier_new : barrierReachable newBarrier
| barrier_step op b : barrierReachable b → allowed op b → barrierReachable (barrierStep op b).

(** ** The invariant *)

Record barrier_ok (b : DbWriteBarrier) : Prop := {
  bo_count : inFlight b = Z.of_nat (length (counted b));
  bo_nodup : NoDup (counted b);
  bo_fresh : (idle b < nextIdle b)%nat ∧ ∀ p, p ∈ idleResolved b → (p < nextIdle b)%nat;
  (** The idle promise is resolved exactly while nothing is counted. *)
  bo_idle : if inFlight b =? 0 then resolveIdle b = None ∧ idle b ∈ idleResolved b
    else resolveIdle b = Some (idle b) ∧ idle b ∉ idleResolved b;
  bo_drains : ∀ d, match jget d (drains b) with
    | Some (inl p) => draining b = true ∧ p = idle b
    | Some (inr true) => draining b = true ∧ counted b = []
    | Some (inr false) => draining b = true
    | None => True
    end }.

Lemma enter_ok w b : barrier_ok b → draining b = false → w ∉ counted b → barrier_ok (on_counted (sadd w) (enter b)).
Proof.
  intros [C N [F F'] I D] Hd Hw. unfold enter.
  assert (HD : ∀ d, jget d (drains b) = None).
  { intros d. specialize (D d). destruct (jget d (drains b)) as [[p|[]]|]; [destruct D; congruence|destruct D; congruence|congruence|done]. }
  assert (Hadd : sadd w (counted b) = counted b ++ [w]) by (unfold sadd; by rewrite bool_decide_eq_false_2).
  assert (Hn : NoDup (counted b ++ [w])) by (rewrite <- Hadd; by apply sadd_NoDup).
  assert (Hlen : Z.of_nat (length (counted b ++ [w])) = inFlight b + 1) by (rewrite length_app; cbn; lia).
  assert (Hpos : (inFlight b + 1 =? 0) = false) by (apply Z.eqb_neq; lia).
  destruct (inFlight b =? 0) eqn:E; split; cbn; rewrite ?Hadd; try (by symmetry); try done; rewrite ?Hpos.
  - split; [lia|]. intros p Hp%F'. lia.
  - split; [done|]. intros Hp%F'. lia.
  - intros d. by rewrite HD.
  - exact I.
  - intros d. by rewrite HD.
Qed.

Lemma settle_ok w b : barrier_ok b → barrier_ok (writeSettles w b).
Proof.
  intros Hok. unfold writeSettles, shas. case_bool_decide as Hw; [|done]. destruct Hok as [C N [F F'] I D].
  assert (Hn : NoDup (sdel w (counted b))) by by apply NoDup_filter.
  assert (Hlen : length (counted b) = S (length (sdel w (counted b)))).
  { clear -N Hw. unfold sdel. induction N as [|x l Hx Hl IH]; [by apply elem_of_nil in Hw|]. rewrite filter_cons.
    apply elem_of_cons in Hw as [->|Hw].
    - rewrite decide_False by tauto. cbn. f_equal. rewrite filter_all; [done|]. by intros y Hy ->.
    - rewrite decide_True by (by intros ->). cbn. by rewrite IH. }
  assert (Hpos : (inFlight b =? 0) = false) by (apply Z.eqb_neq; lia). rewrite Hpos in I. destruct I as [I1 I2].
  assert (Hnil : ∀ d, jget d (drains b) ≠ Some (inr true)).
  { intros d Hd. specialize (D d). rewrite Hd in D. destruct D as [_ D]. rewrite D in Hw. by apply elem_of_nil in Hw. }
  unfold leave. cbn. destruct (inFlight b - 1 =? 0) eqn:E; split; cbn; rewrite ?E, ?I1; try lia; try done.
  - split; [done|]. intros p [->|Hp]%elem_of_cons; [done|by apply F'].
  - split; [done|by left].
  - intros d. specialize (D d). specialize (Hnil d). destruct (jget d (drains b)) as [[p|[]]|]; done.
  - intros d. specialize (D d). specialize (Hnil d). destruct (jget d (drains b)) as [[p|[]]|]; done.
Qed.

Lemma leave_counted b : counted (leave b) = counted b.
Proof. unfold leave. by destruct (inFlight b - 1 =? 0). Qed.
Lemma leave_draining b : draining (leave b) = draining b.
Proof. unfold leave. by destruct (inFlight b - 1 =? 0). Qed.
Lemma barrierStep_ok op b : barrier_ok b → allowed op b → barrier_ok (barrierStep op b).
Proof.
  intros Hok Ha. destruct op as [w|w|w| |d|d|d]; cbn [barrierStep allowed] in *.
  - unfold track. destruct (draining b) eqn:Hd; [done|by apply enter_ok].
  - unfold trackExisting. destruct (draining b) eqn:Hd; [done|by apply enter_ok].
  - by apply settle_ok.
  - destruct Hok as [C N F I D]. split; try done. intros d. specialize (D d). cbn. destruct (jget d (drains b)) as [[p|[]]|]; naive_solver.
  - destruct Hok as [C N F I D]. unfold drain. split; cbn; try done. intros d'. rewrite jget_set. case_decide.
    + destruct (inFlight b =? 0) eqn:E; [|done]. split; [done|]. destruct (counted b); [done|cbn in C; apply Z.eqb_eq in E; lia].
    + specialize (D d'). destruct (jget d' (drains b)) as [[p|[]]|]; naive_solver.
  - unfold drainResolves. destruct (jget d (drains b)) as [[p|[]]|] eqn:Hd; [|done..]. case_bool_decide as Hp; [|done].
    destruct Hok as [C N F I D]. split; cbn; try done. intros d'. rewrite jget_set. case_decide; [|apply D]. subst.
    pose proof (D d') as Hdd. rewrite Hd in Hdd. destruct Hdd as [Hdr ->]. split; [done|].
    destruct (inFlight b =? 0) eqn:E; [|naive_solver]. apply Z.eqb_eq in E. destruct (counted b); [done|cbn in C; lia].
  - unfold drainTimesOut. destruct (jget d (drains b)) as [[p|[]]|] eqn:Hd; [|done..].
    destruct Hok as [C N F I D]. split; cbn; try done. intros d'. rewrite jget_set. case_decide; [|apply D]. subst.
    pose proof (D d') as Hdd. rewrite Hd in Hdd. by destruct Hdd.
Qed.
Lemma barrierReachable_ok b : barrierReachable b → barrier_ok b.
Proof.
  induction 1 as [|op b _ IH Ha]; [|by apply barrierStep_ok]. split; cbn; [done|constructor| |split; [done|by left]|done].
  split; [lia|]. intros p ->%list_elem_of_singleton. lia.
Qed.

(** ** What the drain promises *)

(** Once a drain has begun nothing new is counted and no tracked work is started; a
    drain that answers [true] finds every counted write settled, and they stay so; a
    drain that still waits resolves [true] as soon as none is counted. *)
Theorem drain_is_exact b : barrierReachable b →
  inFlight b = Z.of_nat (length (counted b)) ∧
  (draining b = true → ∀ op, counted (barrierStep op b) ⊆ counted b ∧ draining (barrierStep op b) = true ∧ ∀ w, (track w b).1 = false) ∧
  (∀ d, jget d (drains b) = Some (inr true) → counted b = []) ∧
  (∀ d p, jget d (drains b) = Some (inl p) →
    if bool_decide (counted b = []) then jget d (drains (drainResolves d b)) = Some (inr true) else drainResolves d b = b).
Proof.
  intros Hok%barrierReachable_ok. pose proof Hok as [C N F I D]. split_and!; [done| | |].
  - intros Hd op. assert (Ht : ∀ w, (track w b).1 = false) by (intros w; unfold track; by rewrite Hd).
    split_and!; [| |done]; destruct op as [w|w|w| |d|d|d]; cbn [barrierStep]; unfold track, trackExisting; rewrite ?Hd; cbn; try done.
    + unfold writeSettles. destruct (shas w (counted b)); [|done]. rewrite leave_counted. intros x Hx. by apply elem_of_sdel in Hx as [_ ?].
    + unfold drainResolves. destruct (jget d (drains b)) as [[p|?]|]; [case_bool_decide|..]; done.
    + unfold drainTimesOut. destruct (jget d (drains b)) as [[p|?]|]; done.
    + unfold writeSettles. destruct (shas w (counted b)); [|done]. by rewrite leave_draining.
    + unfold drainResolves. destruct (jget d (drains b)) as [[p|?]|]; [case_bool_decide|..]; done.
    + unfold drainTimesOut. destruct (jget d (drains b)) as [[p|?]|]; done.
  - intros d Hd. specialize (D d). rewrite Hd in D. by destruct D.
  - intros d p Hd. pose proof (D d) as Hdd. rewrite Hd in Hdd. destruct Hdd as [_ ->]. unfold drainResolves. rewrite Hd.
    case_bool_decide as Hc.
    + assert (E : (inFlight b =? 0) = true) by (rewrite C, Hc; done). rewrite E in I. destruct I as [_ I].
      rewrite bool_decide_eq_true_2 by done. cbn. by rewrite jget_set, decide_True.
    + assert (E : (inFlight b =? 0) = false). { apply Z.eqb_neq. destruct (counted b); [done|cbn in C; lia]. }
      rewrite E in I. destruct I as [_ I]. by rewrite bool_decide_eq_false_2.
Qed.
Lemma drain_is_exact_witness :
  let b := barrierStep (Settles 1) (barrierStep (Drain 0) (barrierStep (TrackExisting 1) newBarrier)) in
  jget 0%nat (drains b) = Some (inl 1%nat) ∧ counted b = [] ∧
  (∀ d, jget d (drains b) = Some (inr true) → counted b = []) ∧
  (∀ d p, jget d (drains b) = Some (inl p) →
    if bool_decide (counted b = []) then jget d (drains (drainResolves d b)) = Some (inr true) else drainResolves d b = b).
Proof.
  intros b. split; [vm_compute; reflexivity|]. split; [vm_compute; reflexivity|].
  destruct (drain_is_exact b) as (_ & _ & H1 & H2); [|split; [exact H1|exact H2]].
  repeat constructor; vm_compute; try done. by intros ?%elem_of_nil.
Defined.
