(* ===== verification/StableNodes.v ===== *)
(** * Stable identifiers of view nodes

    [src/src/features/observe/android/StableNodeIdentity.ts] and the classification of
    elements it uses, [features/utility/elementProperties.ts]: generated view identifiers
    are replaced by identifiers derived from the content of a node.  The digest of a
    canonical description (SHA-256 of its JSON text) is a parameter. *)
From Stdlib Require Import Strings.String Strings.Ascii.
From S2P Require Import Prelude JsString JsMap.
From stdpp Require Import sets pretty.

(** ** Nodes *)

(** An attribute; [null] and absence are the same to [??]. *)
Inductive Value := Str (s : string) | Bool (b : bool) | Num (z : Z) | Null | Strings (l : list string).
#[export] Instance Value_eq_dec : EqDecision Value.
Proof. solve_decision. Defined.
Record Extras := mkExtras { sdkSource : option string; imePackage : bool }.
(** The attributes, wherever they are kept; the [extras] among them, and the [extras]
    beside the [$] slot (iOS); the children, however the slot holds them. *)
Inductive Node := mkNode (attributes : JsMap string Value) (extras : option Extras) (outerExtras : option Extras) (children : list Node).
Definition attributesOf (n : Node) : JsMap string Value := let 'mkNode a _ _ _ := n in a.
Definition attributeExtras (n : Node) : option Extras := let 'mkNode _ e _ _ := n in e.
Definition nodeExtras (n : Node) : option Extras := let 'mkNode _ e o _ := n in match o with Some x => Some x | None => e end.
Definition toChildArray (n : Node) : list Node := let 'mkNode _ _ _ l := n in l.

Lemma Node_induction (P : Node → Prop) :
  (∀ a e o l, Forall P l → P (mkNode a e o l)) → ∀ n, P n.
Proof.
  intros H. fix IH 1. intros [a e o l]. apply H. induction l as [|n l IHl]; constructor; [apply IH|exact IHl].
Qed.

Definition isSdkInjectedNode (n : Node) : bool :=
  match nodeExtras n with Some x => bool_decide (sdkSource x = Some "sdkWalker"%string) | None => false end.
Definition isInImeWindow (n : Node) (parentIsInImeWindow : bool) : bool :=
  parentIsInImeWindow || match attributeExtras n with Some x => imePackage x | None => false end.

(** [a ?? b] on attributes. *)
Definition present (v : option Value) : option Value := match v with Some Null => None | _ => v end.
Definition orElse (a b : option Value) : option Value := match present a with Some v => Some v | None => b end.
Definition attributeValue (a : JsMap string Value) (field : string) : option Value :=
  (if bool_decide (field = "resource-id") then orElse (jget "resource-id" a) (jget "resourceId" a)
   else if bool_decide (field = "content-desc") then orElse (jget "content-desc" a) (jget "contentDesc" a)
   else if bool_decide (field = "test-tag") then orElse (jget "test-tag" a) (jget "testTag" a)
   else if bool_decide (field = "view-id") then orElse (jget "view-id" a) (jget "viewId" a)
   else jget field a)%string.
Definition setStableViewId (stable : string) (a : JsMap string Value) : JsMap string Value :=
  jdel "viewId"%string (jset "view-id"%string (Str stable) a).

(** ** Classification *)

Definition isTruthyFlag (v : option Value) : bool :=
  match v with Some (Bool b) => b | Some (Str s) => bool_decide (s = "true"%string) | _ => false end.
Definition nonBlank (v : option Value) : bool :=
  match v with Some (Str s) => negb (bool_decide (js_trim s = EmptyString)) | _ => false end.
(** Whether [getToggleContentDescription] answers (its text is never empty). *)
Definition isNamedToggle (a : JsMap string Value) : bool :=
  isTruthyFlag (jget "checkable"%string a) && nonBlank (jget "content-desc"%string a).
Definition hasAccessibilityAction (v : option Value) (action : string) : bool :=
  match v with Some (Strings l) => bool_decide (action ∈ l) | _ => false end.
Definition isClickableElementProperties (a : JsMap string Value) : bool :=
  isTruthyFlag (jget "clickable"%string a) || hasAccessibilityAction (jget "actions"%string a) "click".
Definition ANDROID_INPUT_CLASSES : list string :=
  ["android.widget.EditText"; "android.widget.AutoCompleteTextView"; "android.widget.MultiAutoCompleteTextView";
   "androidx.appcompat.widget.AppCompatEditText"]%string.
(** [String.prototype.includes]. *)
Fixpoint includes (needle s : string) : bool :=
  String.prefix needle s || match s with EmptyString => false | String _ s' => includes needle s' end.
Definition isEditableElementProperties (a : JsMap string Value) : bool :=
  match orElse (jget "class"%string a) (jget "className"%string a) with
  | Some (Str c) => existsb (λ k, includes k c) ANDROID_INPUT_CLASSES
  | _ => false
  end ||
  hasAccessibilityAction (jget "actions"%string a) "set_text" ||
  isTruthyFlag (jget "focusable"%string a) && nonBlank (jget "input-type"%string a).

(** [value.replace(/\p{Nd}+/gu, "0")] below code unit 256. *)
Definition is_digit (c : ascii) : bool := (48 <=? nat_of_ascii c)%nat && (nat_of_ascii c <=? 57)%nat.
Fixpoint replaceDigits (inRun : bool) (s : string) : string :=
  match s with
  | EmptyString => EmptyString
  | String c s => if is_digit c then (if inRun then replaceDigits true s else String "0" (replaceDigits true s))
                  else String c (replaceDigits false s)
  end.
Definition normalizeDigits (v : Value) : Value := match v with Str s => Str (replaceDigits false s) | _ => v end.

(** ** Hashes *)

(** What is encoded as JSON and hashed. *)
Record Canonical := mkCanonical { c_sdk : bool; c_class : Value; c_fields : list Value; c_kids : list string }.
#[export] Instance Canonical_eq_dec : EqDecision Canonical.
Proof. solve_decision. Defined.
Definition CONTENT_FIELDS : list string := ["resource-id"; "content-desc"; "text"; "test-tag"]%string.
Definition STRUCTURAL_FIELDS : list string := ["resource-id"; "content-desc"; "test-tag"]%string.
Definition STABLE_VIEW_ID_HASH_LENGTH : nat := 16.
Definition STABLE_VIEW_ID_TEXT_HASH_LENGTH : nat := 8.
Definition STABLE_VIEW_ID_PREFIX : string := "s2-".

(** [GENERATED_VIEW_ID_PATTERN]: groups of 8, 4, 4, 4 and 12 hexadecimal digits. *)
Definition is_hex (c : ascii) : bool :=
  let n := nat_of_ascii c in
  is_digit c || (97 <=? n)%nat && (n <=? 102)%nat || (65 <=? n)%nat && (n <=? 70)%nat.
Fixpoint matchesShape (shape : list bool) (s : string) : bool :=
  match shape, s with
  | [], EmptyString => true
  | hex :: shape, String c s => (if hex : bool then is_hex c else bool_decide (c = "-"%char)) && matchesShape shape s
  | _, _ => false
  end.
Definition isGeneratedViewId (s : string) : bool :=
  matchesShape (replicate 8 true ++ false :: replicate 4 true ++ false :: replicate 4 true ++ false :: replicate 4 true ++
    false :: replicate 12 true) s.

Section Hashes.
Context (digest : Canonical → string) (excludeSdkInjectedNodes : bool).

(** [nodeIsSdkInjected]; the children that count for identity. *)
Definition isInjected (parentIsSdkInjected : bool) (n : Node) : bool :=
  excludeSdkInjectedNodes && (parentIsSdkInjected || isSdkInjectedNode n).
Definition identityChildrenOf (injected : bool) (n : Node) : list Node :=
  filter (λ c, injected || negb (isInjected injected c) = true) (toChildArray n).

(** The value of a field; text that is state is left out, and an input is known by its
    hint or by the label beside it. *)
Definition labelOf (children : list Node) : Value :=
  match head (filter (λ a, negb (isEditableElementProperties a) && negb (isClickableElementProperties a) &&
      match jget "text"%string a with Some (Str s) => negb (bool_decide (s = EmptyString)) | _ => false end = true)
    (attributesOf <$> children)) with
  | Some a => default (Str EmptyString) (present (jget "text"%string a))
  | None => Str EmptyString
  end.
Definition fieldValue (injected : bool) (n : Node) (field : string) : Value :=
  let a := attributesOf n in
  if bool_decide (field = "text"%string) then
    if isNamedToggle a then Str EmptyString
    else if isEditableElementProperties a then
      match present (jget "hint-text"%string a) with Some hint => hint | None => labelOf (identityChildrenOf injected n) end
    else default (Str EmptyString) (present (attributeValue a field))
  else default (Str EmptyString) (present (attributeValue a field)).
Definition hashCanonical (injected : bool) (fields : list string) (n : Node) (kids : list string) (normalize sdkIdentity : bool) : string :=
  let a := attributesOf n in
  String.substring 0 STABLE_VIEW_ID_HASH_LENGTH (digest (mkCanonical sdkIdentity
    (default (Str EmptyString) (present (orElse (jget "class"%string a) (jget "className"%string a))))
    ((λ f, let v := fieldValue injected n f in if normalize then normalizeDigits v else v) <$> fields) kids)).

(** [compute]: the hashes a node contributes to its ancestors. *)
Fixpoint compute (parentIsSdkInjected : bool) (n : Node) : string * string :=
  let 'mkNode _ _ _ l := n in
  let injected := isInjected parentIsSdkInjected n in
  let hashes := (fix go (l : list Node) : list (string * string) :=
    match l with
    | [] => []
    | c :: l => (if injected || negb (isInjected injected c) then [compute injected c] else []) ++ go l
    end) l in
  (hashCanonical injected STRUCTURAL_FIELDS n hashes.*1 false false,
   hashCanonical injected ["content-desc"; "text"]%string n hashes.*2 true false).
Definition childHashes (injected : bool) (n : Node) : list (string * string) :=
  compute injected <$> identityChildrenOf injected n.
Definition contentHash (injected : bool) (n : Node) : string :=
  hashCanonical injected CONTENT_FIELDS n (childHashes injected n).*1 false injected.
Definition descendantTextHash (injected : bool) (n : Node) : string :=
  String.substring 0 STABLE_VIEW_ID_TEXT_HASH_LENGTH (hashCanonical injected [] n (childHashes injected n).*2 false false).

(** ** The two passes *)

(** A node that is rewritten, as the passes see it in document order. *)
Record Target := mkTarget { t_hash : string; t_ime : bool; t_text : string; t_viewId : string }.
Definition generatedId (n : Node) : option string :=
  match attributeValue (attributesOf n) "view-id" with
  | Some (Str s) => if isGeneratedViewId s then Some s else None
  | _ => None
  end.
Definition targetOf (ime injected : bool) (n : Node) : option Target :=
  viewId ← generatedId n; Some (mkTarget (contentHash injected n) ime (descendantTextHash injected n) viewId).
Fixpoint targets (parentIme parentIsSdkInjected : bool) (n : Node) : list Target :=
  let 'mkNode _ _ _ l := n in
  let ime := isInImeWindow n parentIme in
  let injected := isInjected parentIsSdkInjected n in
  option_list (targetOf ime injected n) ++
  (fix go (l : list Node) : list Target := match l with [] => [] | c :: l => targets ime injected c ++ go l end) l.

(** The counters of the passes; [(outside, inside)] the input method's windows. *)
Definition bump (ime : bool) (c : nat * nat) : nat * nat := if ime then (c.1, S c.2) else (S c.1, c.2).
Definition slot (ime : bool) (c : nat * nat) : nat := if ime then c.2 else c.1.
Definition countTarget (t : Target) (m : JsMap string (nat * nat)) : JsMap string (nat * nat) :=
  jset (t_hash t) (bump (t_ime t) (default (0, 0) (jget (t_hash t) m))) m.
Definition textKey (t : Target) : string * bool * string := (t_hash t, t_ime t, t_text t).
Definition rewrittenCounts (ts : list Target) : JsMap string (nat * nat) := foldl (λ m t, countTarget t m) [] ts.
Definition descendantTextCounts (ts : list Target) : JsMap (string * bool * string) nat :=
  foldl (λ m t, jset (textKey t) (S (default 0 (jget (textKey t) m))) m) [] ts.

Definition stableViewId (ts : list Target) (t : Target) (seen : nat) : string :=
  (if (slot (t_ime t) (default (0, 0) (jget (t_hash t) (rewrittenCounts ts))) <=? 1)%nat
   then STABLE_VIEW_ID_PREFIX +:+ t_hash t
   else if bool_decide (jget (textKey t) (descendantTextCounts ts) = Some 1)
   then STABLE_VIEW_ID_PREFIX +:+ t_hash t +:+ "~" +:+ t_text t
   else STABLE_VIEW_ID_PREFIX +:+ t_hash t +:+ "-" +:+ pretty seen)%string.

(** [assign]: the identifiers in document order, the counts of peers seen so far threaded. *)
Record AssignState := mkAssign { occurrences : JsMap string (nat * nat); rewrittenViewIds : JsMap string string }.
Definition assignTarget (ts : list Target) (t : Target) (st : AssignState) : string * AssignState :=
  let occ := countTarget t (occurrences st) in
  let stable := stableViewId ts t (slot (t_ime t) (default (0, 0) (jget (t_hash t) occ))) in
  (stable, mkAssign occ (jset (t_viewId t) stable (rewrittenViewIds st))).
Fixpoint assign (ts : list Target) (parentIme parentIsSdkInjected : bool) (n : Node) (st : AssignState) : Node * AssignState :=
  let 'mkNode a e o l := n in
  let ime := isInImeWindow n parentIme in
  let injected := isInjected parentIsSdkInjected n in
  let '(a, st) := match targetOf ime injected n with
    | Some t => let '(stable, st) := assignTarget ts t st in (setStableViewId stable a, st)
    | None => (a, st)
    end in
  let '(l, st) := (fix go (l : list Node) (st : AssignState) : list Node * AssignState :=
    match l with
    | [] => ([], st)
    | c :: l => let '(c, st) := assign ts ime injected c st in let '(l, st) := go l st in (c :: l, st)
    end) l st in
  (mkNode a e o l, st).

(** [applyStableViewIdRewrites]. *)
Definition rewriteField (rewrites : JsMap string string) (key : string) (a : JsMap string Value) : JsMap string Value :=
  match jget key a with
  | Some (Str s) => match jget s rewrites with Some stable => if truthy stable then jset key (Str stable) a else a | None => a end
  | _ => a
  end.
Definition applyRewrite (rewrites : JsMap string string) (a : JsMap string Value) : JsMap string Value :=
  let a := match attributeValue a "view-id" with
    | Some (Str s) => match jget s rewrites with Some stable => if truthy stable then setStableViewId stable a else a | None => a end
    | _ => a
    end in
  rewriteField rewrites "occluded-by-view-id" (rewriteField rewrites "occludedByViewId" a).
Fixpoint applyStableViewIdRewrites (rewrites : JsMap string string) (n : Node) : Node :=
  let 'mkNode a e o l := n in mkNode (applyRewrite rewrites a) e o (applyStableViewIdRewrites rewrites <$> l).
Definition assignStableViewIds (root : Node) : Node * JsMap string string :=
  let ts := targets false false root in
  let '(n, st) := assign ts false false root (mkAssign [] []) in
  (if bool_decide (rewrittenViewIds st = []) then n else applyStableViewIdRewrites (rewrittenViewIds st) n, rewrittenViewIds st).
End Hashes.
