(* ===== verification/StableNodeProperties.v ===== *)
(** * What the stable identifiers promise

    The theorems on [assignStableViewIds] of [StableNodes].  Within the windows of the app,
    and within those of the input method, the identifiers given are pairwise distinct; a
    bare one was unique; text that only counts up leaves them alone; and a second pass
    changes nothing. *)
From Stdlib Require Import Strings.String Strings.Ascii.
From S2P Require Import Prelude JsString JsMap StableNodes.
From stdpp Require Import sets pretty.

(** ** Counters *)

Lemma slot_bump ime ime' c : slot ime (bump ime' c) = if decide (ime = ime') then S (slot ime c) else slot ime c.
Proof. by destruct ime, ime'. Qed.

(** The peers of a target: same hash, same windows. *)
Definition peer (t u : Target) : Prop := t_hash u = t_hash t ∧ t_ime u = t_ime t.
#[export] Instance peer_dec t u : Decision (peer t u).
Proof. unfold peer. apply _. Defined.
Definition peers (t : Target) (ts : list Target) : nat := length (filter (peer t) ts).

Lemma countTarget_slot t u m :
  slot (t_ime t) (default (0, 0) (jget (t_hash t) (countTarget u m))) =
    slot (t_ime t) (default (0, 0) (jget (t_hash t) m)) + (if decide (peer t u) then 1 else 0).
Proof.
  unfold countTarget. rewrite jget_set. destruct (decide (t_hash u = t_hash t)) as [He|He]; cbn.
  - rewrite slot_bump, He. unfold peer. destruct (decide (t_ime t = t_ime u)), (decide _) as [[]|Hp]; try lia; congruence || (exfalso; apply Hp; auto).
  - rewrite decide_False by (intros [? _]; done). lia.
Qed.
Lemma counts_peers t ts m :
  slot (t_ime t) (default (0, 0) (jget (t_hash t) (foldl (λ m u, countTarget u m) m ts))) =
    slot (t_ime t) (default (0, 0) (jget (t_hash t) m)) + peers t ts.
Proof.
  revert m. induction ts as [|u ts IH]; intros m; cbn [foldl]; [unfold peers; cbn; lia|].
  rewrite IH, countTarget_slot. unfold peers. rewrite filter_cons. case_decide; cbn; lia.
Qed.
Lemma rewrittenCounts_peers t ts : slot (t_ime t) (default (0, 0) (jget (t_hash t) (rewrittenCounts ts))) = peers t ts.
Proof. unfold rewrittenCounts. rewrite counts_peers, jget_nil. cbn. by destruct (t_ime t). Qed.
Lemma textCounts_peers t ts : default 0 (jget (textKey t) (descendantTextCounts ts)) = length (filter (λ u, textKey u = textKey t) ts).
Proof.
  unfold descendantTextCounts.
  assert (H : ∀ m, default 0 (jget (textKey t) (foldl (λ m u, jset (textKey u) (S (default 0 (jget (textKey u) m))) m) m ts)) =
    default 0 (jget (textKey t) m) + length (filter (λ u, textKey u = textKey t) ts)).
  { induction ts as [|u ts IH]; intros m; cbn [foldl]; [cbn; lia|]. rewrite IH, jget_set, filter_cons.
    destruct (decide (textKey u = textKey t)) as [He|He]; cbn; [rewrite He|]; lia. }
  by rewrite H, jget_nil.
Qed.

(** ** The identifiers in document order *)

Fixpoint emit (all ts : list Target) (st : AssignState) : list string * AssignState :=
  match ts with
  | [] => ([], st)
  | t :: ts => let '(stable, st) := assignTarget all t st in let '(l, st) := emit all ts st in (stable :: l, st)
  end.
Lemma emit_app all ts1 ts2 st :
  emit all (ts1 ++ ts2) st =
    ((emit all ts1 st).1 ++ (emit all ts2 (emit all ts1 st).2).1, (emit all ts2 (emit all ts1 st).2).2).
Proof.
  revert st. induction ts1 as [|t ts1 IH]; intros st; cbn; [by destruct (emit all ts2 st)|].
  rewrite IH. by destruct (emit all ts1 _).
Qed.
Lemma emit_occurrences all ts st : occurrences (emit all ts st).2 = foldl (λ m t, countTarget t m) (occurrences st) ts.
Proof. revert st. induction ts as [|t ts IH]; intros st; [done|]. cbn. rewrite (surjective_pairing (emit all ts _)). cbn. by rewrite IH. Qed.
Lemma emit_lookup all ts st i : (emit all ts st).1 !! i =
  (λ t, stableViewId all t (slot (t_ime t) (default (0, 0) (jget (t_hash t) (occurrences st))) + S (peers t (take i ts)))) <$> ts !! i.
Proof.
  revert st i. induction ts as [|t ts IH]; intros st i; [done|]. cbn [emit assignTarget].
  rewrite (surjective_pairing (emit all ts _)). cbn [fst]. destruct i as [|i]; cbn [lookup list_lookup fmap option_fmap option_map].
  - rewrite countTarget_slot, decide_True by done. cbn. by rewrite Nat.add_1_r.
  - rewrite IH. destruct (ts !! i) as [u|]; [|done]. cbn [fmap option_fmap option_map occurrences take]. do 2 f_equal.
    rewrite countTarget_slot. unfold peers. rewrite filter_cons. case_decide; cbn; lia.
Qed.

Lemma peers_take_lt t ts i j : ts !! i = Some t → i < j → peers t (take i ts) < peers t (take j ts).
Proof.
  intros Hi Hij. unfold peers. assert (Hj : take j ts = take i ts ++ t :: drop (S i) (take j ts)).
  { rewrite <- (take_drop_middle (take j ts) i t) at 1; [|by rewrite lookup_take_lt by lia]. by rewrite take_take, Nat.min_l by lia. }
  rewrite Hj, filter_app, length_app, filter_cons, decide_True by done. cbn. lia.
Qed.
Lemma two_in_filter {A} (P : A → Prop) `{∀ x, Decision (P x)} (l : list A) i j x y :
  l !! i = Some x → l !! j = Some y → P x → P y → i ≠ j → 2 ≤ length (filter P l).
Proof.
  revert i j. induction l as [|z l IH]; intros i j Hi Hj Hx Hy Hne; [done|]. rewrite filter_cons.
  destruct i as [|i], j as [|j]; cbn in Hi, Hj; simplify_eq.
  - rewrite decide_True by done. cbn. assert (y ∈ filter P l) as Hin by (apply list_elem_of_filter; split; [done|by eapply list_elem_of_lookup_2]).
    destruct (filter P l); [by apply elem_of_nil in Hin|cbn; lia].
  - rewrite decide_True by done. cbn. assert (x ∈ filter P l) as Hin by (apply list_elem_of_filter; split; [done|by eapply list_elem_of_lookup_2]).
    destruct (filter P l); [by apply elem_of_nil in Hin|cbn; lia].
  - specialize (IH i j Hi Hj Hx Hy ltac:(lia)). case_decide; cbn; lia.
Qed.

(** ** Their shape *)

Lemma append_inj_length a b x y : String.length a = String.length b → (a +:+ x)%string = (b +:+ y)%string → a = b ∧ x = y.
Proof.
  revert b. induction a as [|c a IH]; intros [|d b] Hl He; try done. cbn in Hl, He. simplify_eq.
  destruct (IH b) as [-> ->]; auto.
Qed.
Lemma append_empty s : (s +:+ EmptyString)%string = s.
Proof. induction s as [|c s IH]; [done|exact (f_equal (String c) IH)]. Qed.
Lemma substring_length n s : n ≤ String.length s → String.length (String.substring 0 n s) = n.
Proof. revert n. induction s as [|c s IH]; intros [|n] Hn; cbn in *; try lia. by rewrite IH by lia. Qed.

Section Ids.
Context (digest : Canonical → string) (exclude : bool).
Hypothesis digest_length : ∀ c, String.length (digest c) = 64.

Lemma hash_length injected fields n kids normalize sdk : String.length (hashCanonical digest exclude injected fields n kids normalize sdk) = 16.
Proof. unfold hashCanonical. apply substring_length. rewrite digest_length. unfold STABLE_VIEW_ID_HASH_LENGTH. lia. Qed.

Lemma targets_hash_length ime injected n t : t ∈ targets digest exclude ime injected n → String.length (t_hash t) = 16.
Proof.
  revert ime injected. induction n as [a e o l IH] using Node_induction. intros ime injected. cbn [targets].
  rewrite elem_of_app. intros [Ht|Ht].
  - unfold targetOf in Ht. destruct (generatedId _); cbn in Ht; [|by apply elem_of_nil in Ht]. apply list_elem_of_singleton in Ht as ->. apply hash_length.
  - revert Ht. generalize (isInImeWindow (mkNode a e o l) ime) (isInjected exclude injected (mkNode a e o l)). intros i1 i2.
    induction IH as [|c l Hc Hl IHl]; [by intros ?%elem_of_nil|]. rewrite elem_of_app. intros [Ht|Ht]; [by eapply Hc|by apply IHl].
Qed.

Lemma stableViewId_cases ts t seen : ∃ rest, stableViewId ts t seen = (STABLE_VIEW_ID_PREFIX +:+ t_hash t +:+ rest)%string ∧
  (if peers t ts <=? 1 then rest = EmptyString
   else if decide (length (filter (λ u, textKey u = textKey t) ts) = 1) then rest = ("~" +:+ t_text t)%string
   else rest = ("-" +:+ pretty seen)%string).
Proof.
  unfold stableViewId. rewrite rewrittenCounts_peers. destruct (peers t ts <=? 1) eqn:E.
  - exists EmptyString. by rewrite append_empty.
  - pose proof (textCounts_peers t ts) as Hc. case_bool_decide as Hb.
    + rewrite Hb in Hc. cbn in Hc. eexists. split; [reflexivity|]. rewrite decide_True by lia. done.
    + eexists. split; [reflexivity|]. rewrite decide_False; [done|]. intros Hf. apply Hb.
      destruct (jget (textKey t) (descendantTextCounts ts)); cbn in Hc; [congruence|lia].
Qed.

Definition emitted (ts : list Target) : list string := (emit ts ts (mkAssign [] [])).1.
Lemma emitted_lookup ts i : emitted ts !! i = (λ t, stableViewId ts t (S (peers t (take i ts)))) <$> ts !! i.
Proof. unfold emitted. rewrite emit_lookup. cbn. destruct (ts !! i) as [t|]; [|done]. cbn. rewrite jget_nil. by destruct (t_ime t). Qed.

Lemma emitted_inj ts i j t u : (∀ t, t ∈ ts → String.length (t_hash t) = 16) → ts !! i = Some t → ts !! j = Some u →
  t_ime t = t_ime u → emitted ts !! i = emitted ts !! j → i = j.
Proof.
  intros Hlen Hi Hj Hime. rewrite !emitted_lookup, Hi, Hj. cbn. intros [= He].
  destruct (stableViewId_cases ts t (S (peers t (take i ts)))) as (r1 & E1 & C1).
  destruct (stableViewId_cases ts u (S (peers u (take j ts)))) as (r2 & E2 & C2).
  rewrite E1, E2 in He. apply append_inj_length in He as [_ He]; [|done].
  apply append_inj_length in He as [Hh ->]; [|rewrite !Hlen by (by eapply list_elem_of_lookup_2); done].
  destruct (decide (i = j)) as [|Hne]; [done|]. exfalso.
  assert (Hpeers : ∀ l, peers u l = peers t l).
  { intros l. unfold peers. f_equal. apply filter_agree. intros x _. unfold peer. by rewrite Hh, Hime. }
  assert (Htwo : 2 ≤ peers t ts) by (apply (two_in_filter _ _ i j t u); [done|done|done|by split|done]).
  rewrite Hpeers in C2. assert (Hle : (peers t ts <=? 1) = false) by (apply Nat.leb_gt; lia). rewrite Hle in C1, C2.
  destruct (decide (length (filter (λ x, textKey x = textKey t) ts) = 1)) as [T1|T1], (decide (length (filter (λ x, textKey x = textKey u) ts) = 1)) as [T2|T2].
  - rewrite C1 in C2. injection C2 as Htext. change (t_text t = t_text u) in Htext. assert (Hk : textKey u = textKey t) by (unfold textKey; by rewrite Hh, Hime, Htext).
    pose proof (two_in_filter (λ x, textKey x = textKey t) ts i j t u Hi Hj eq_refl Hk Hne). lia.
  - rewrite C1 in C2. discriminate C2.
  - rewrite C1 in C2. discriminate C2.
  - rewrite C1 in C2. injection C2 as Hs. change (pretty (S (peers t (take i ts))) = pretty (S (peers u (take j ts)))) in Hs. apply (inj pretty) in Hs. rewrite Hpeers in Hs. injection Hs as Hs.
    destruct (Nat.lt_total i j) as [Hlt|[?|Hlt]]; [|done|].
    + pose proof (peers_take_lt t ts i j Hi Hlt). lia.
    + pose proof (peers_take_lt u ts j i Hj Hlt) as Hp. rewrite !Hpeers in Hp. lia.
Qed.

(** ** The tree *)

(** The view identifiers in document order, and the generated ones replaced in turn. *)
Fixpoint allViewIds (n : Node) : list (option Value) :=
  let 'mkNode a _ _ l := n in attributeValue a "view-id" :: (fix go (l : list Node) := match l with [] => [] | c :: l => allViewIds c ++ go l end) l.
Definition isGenerated (v : option Value) : bool := match v with Some (Str s) => isGeneratedViewId s | _ => false end.
Fixpoint substitute (vs : list (option Value)) (ids : list string) : list (option Value) * list string :=
  match vs with
  | [] => ([], ids)
  | v :: vs =>
      let '(v, ids) := if isGenerated v then match ids with i :: ids => (Some (Str i), ids) | [] => (v, []) end else (v, ids) in
      let '(vs, ids) := substitute vs ids in (v :: vs, ids)
  end.
Lemma substitute_app vs1 vs2 ids : substitute (vs1 ++ vs2) ids =
  ((substitute vs1 ids).1 ++ (substitute vs2 (substitute vs1 ids).2).1, (substitute vs2 (substitute vs1 ids).2).2).
Proof.
  revert ids. induction vs1 as [|v vs1 IH]; intros ids; cbn; [by destruct (substitute vs2 ids)|].
  destruct (if isGenerated v then _ else _) as [v' ids']. rewrite IH. by destruct (substitute vs1 ids').
Qed.
Lemma setStable_value stable a : attributeValue (setStableViewId stable a) "view-id" = Some (Str stable).
Proof. unfold attributeValue, setStableViewId. cbn. unfold orElse. rewrite !jget_del, !jget_set. cbn. done. Qed.

Lemma targetOf_generated ime injected a e o l :
  targetOf digest exclude ime injected (mkNode a e o l) = None ∧ isGenerated (attributeValue a "view-id") = false ∨
  ∃ t, targetOf digest exclude ime injected (mkNode a e o l) = Some t ∧ isGenerated (attributeValue a "view-id") = true.
Proof.
  unfold targetOf, generatedId, isGenerated. change (attributesOf (mkNode a e o l)) with a.
  destruct (attributeValue a "view-id") as [[s| | | |]|]; try (by left; split).
  destruct (isGeneratedViewId s); [right; eexists; split; reflexivity|by left; split].
Qed.

Lemma assign_spec all n ime injected st rest :
  let ts := targets digest exclude ime injected n in
  (assign digest exclude all ime injected n st).2 = (emit all ts st).2 ∧
  substitute (allViewIds n) ((emit all ts st).1 ++ rest) = (allViewIds (assign digest exclude all ime injected n st).1, rest).
Proof.
  revert ime injected st rest. induction n as [a e o l IH] using Node_induction. intros ime injected st rest.
  cbn [targets assign allViewIds]. generalize (isInImeWindow (mkNode a e o l) ime) (isInjected exclude injected (mkNode a e o l)).
  intros im inj.
  set (go1 := fix go (l : list Node) : list Target := match l with [] => [] | c :: l => targets digest exclude im inj c ++ go l end).
  set (go2 := fix go (l : list Node) (st : AssignState) : list Node * AssignState := match l with [] => ([], st)
    | c :: l => let '(c, st) := assign digest exclude all im inj c st in let '(l, st) := go l st in (c :: l, st) end).
  set (go3 := fix go (l : list Node) := match l with [] => [] | c :: l => allViewIds c ++ go l end).
  assert (Hkids : ∀ st rest, (go2 l st).2 = (emit all (go1 l) st).2 ∧
    substitute (go3 l) ((emit all (go1 l) st).1 ++ rest) = (go3 (go2 l st).1, rest)).
  { clear st rest. induction IH as [|c l Hc Hl IHl]; intros st rest; [done|].
    change (go1 (c :: l)) with (targets digest exclude im inj c ++ go1 l). change (go3 (c :: l)) with (allViewIds c ++ go3 l).
    assert (E2 : go2 (c :: l) st = ((assign digest exclude all im inj c st).1 :: (go2 l (assign digest exclude all im inj c st).2).1,
      (go2 l (assign digest exclude all im inj c st).2).2)).
    { cbn. destruct (assign _ _ _ _ _ c st) as [c' st']. cbn [fst snd]. by rewrite (surjective_pairing (go2 l st')). }
    rewrite E2, emit_app. clear E2. clearbody go1 go2.
    destruct (Hc im inj st ((emit all (go1 l) (emit all (targets digest exclude im inj c) st).2).1 ++ rest)) as [A B].
    rewrite A. destruct (IHl (emit all (targets digest exclude im inj c) st).2 rest) as [A' B']. cbn [fst snd]. split; [done|].
    rewrite <- app_assoc, substitute_app, B. cbn [fst snd]. by rewrite B'. }
  clearbody go1 go2. destruct (targetOf_generated im inj a e o l) as [[Ht Hg]|(t & Ht & Hg)]; rewrite Ht.
  - change (option_list None ++ go1 l) with (go1 l). destruct (Hkids st rest) as [A B]. rewrite (surjective_pairing (go2 l st)). cbn [fst snd allViewIds substitute]. fold go3.
    split; [done|]. rewrite Hg, B. done.
  - change (option_list (Some t) ++ go1 l) with (t :: go1 l). cbn [emit]. destruct (assignTarget all t st) as [stable st1]. destruct (Hkids st1 rest) as [A B].
    rewrite (surjective_pairing (go2 l st1)), (surjective_pairing (emit all (go1 l) st1)). cbn [fst snd allViewIds substitute app].
    fold go3. split; [done|]. by rewrite Hg, B, setStable_value.
Qed.
End Ids.

(** ** Attributes that differ in the digits of the text *)

Definition sameButText (a b : JsMap string Value) : Prop :=
  (∀ k, k ≠ "text"%string → jget k a = jget k b) ∧
  normalizeDigits <$> jget "text"%string a = normalizeDigits <$> jget "text"%string b.

Section Attributes.
Context {a b : JsMap string Value} (H : sameButText a b).
Lemma same_key k : k ≠ "text"%string → jget k a = jget k b.
Proof. apply H. Qed.
Lemma same_editable : isEditableElementProperties a = isEditableElementProperties b.
Proof. unfold isEditableElementProperties. by rewrite !same_key. Qed.
Lemma same_clickable : isClickableElementProperties a = isClickableElementProperties b.
Proof. unfold isClickableElementProperties. by rewrite !same_key. Qed.
Lemma same_toggle : isNamedToggle a = isNamedToggle b.
Proof. unfold isNamedToggle. by rewrite !same_key. Qed.
Lemma same_value f : f ≠ "text"%string → attributeValue a f = attributeValue b f.
Proof. intros Hf. unfold attributeValue. by repeat (case_bool_decide; [by rewrite !same_key|]); apply same_key. Qed.
Lemma same_text : normalizeDigits (default (Str EmptyString) (present (jget "text"%string a))) =
  normalizeDigits (default (Str EmptyString) (present (jget "text"%string b))).
Proof.
  destruct H as [_ Ht]. destruct (jget _ a) as [v|], (jget _ b) as [w|]; cbn in Ht; simplify_eq; [|done].
  destruct v, w; cbn in Ht |- *; congruence.
Qed.
Lemma replaceDigits_empty s r : replaceDigits r s = EmptyString → r = false → s = EmptyString.
Proof. intros Hs ->. destruct s as [|c s]; [done|]. cbn in Hs. by destruct (is_digit c). Qed.
Definition hasText (a : JsMap string Value) : bool :=
  match jget "text"%string a with Some (Str s) => negb (bool_decide (s = EmptyString)) | _ => false end.
Lemma same_hasText : hasText a = hasText b.
Proof.
  destruct H as [_ Ht]. unfold hasText. destruct (jget _ a) as [v|], (jget _ b) as [w|]; try discriminate; [|done].
  destruct v, w; cbn in Ht; try discriminate; try done. injection Ht as Ht. do 2 case_bool_decide; subst; try done.
  - symmetry in Ht. by apply replaceDigits_empty in Ht.
  - by apply replaceDigits_empty in Ht.
Qed.
End Attributes.

Lemma Forall2_filter_agree {A B} (R : A → B → Prop) (f : A → bool) (g : B → bool) l m :
  (∀ x y, R x y → f x = g y) → Forall2 R l m → Forall2 R (filter (λ x, f x = true) l) (filter (λ y, g y = true) m).
Proof.
  intros Hfg. induction 1 as [|x y l m Hxy Hlm IH]; [constructor|]. rewrite !filter_cons. specialize (Hfg x y Hxy).
  repeat case_decide; try congruence; by constructor.
Qed.

(** ** Trees *)

(** A generated identifier stands at a node whose own description is the same: its text,
    and, when it is an input, a hint of its own. *)
Inductive Ticks : Node → Node → Prop :=
  | ticks_node a b e o l m :
      sameButText a b →
      (generatedId (mkNode a e o l) ≠ None → jget "text"%string a = jget "text"%string b ∧
        (isEditableElementProperties a = true → present (jget "hint-text"%string a) ≠ None)) →
      Forall2 Ticks l m → Ticks (mkNode a e o l) (mkNode b e o m).

Section Ticking.
Context (digest : Canonical → string) (exclude : bool).

Lemma ticks_attributes n m : Ticks n m → sameButText (attributesOf n) (attributesOf m).
Proof. by destruct 1. Qed.
Lemma ticks_injected p n m : Ticks n m → isInjected exclude p n = isInjected exclude p m.
Proof. by destruct 1. Qed.
Lemma ticks_ime p n m : Ticks n m → isInImeWindow n p = isInImeWindow m p.
Proof. by destruct 1. Qed.
Lemma ticks_children inj n m : Ticks n m → Forall2 Ticks (identityChildrenOf exclude inj n) (identityChildrenOf exclude inj m).
Proof.
  destruct 1 as [a b e o l m Hab Hg Hlm]. unfold identityChildrenOf. cbn [toChildArray].
  apply Forall2_filter_agree; [|done]. intros x y Hxy. by rewrite (ticks_injected inj x y).
Qed.

Lemma ticks_label l m : Forall2 Ticks l m → normalizeDigits (labelOf l) = normalizeDigits (labelOf m).
Proof.
  intros Hlm. unfold labelOf.
  assert (Hattrs : Forall2 sameButText (attributesOf <$> l) (attributesOf <$> m)).
  { apply Forall2_fmap. eapply Forall2_impl; [done|]. intros x y. apply ticks_attributes. }
  apply (Forall2_filter_agree sameButText
    (λ a, negb (isEditableElementProperties a) && negb (isClickableElementProperties a) && hasText a)
    (λ a, negb (isEditableElementProperties a) && negb (isClickableElementProperties a) && hasText a)) in Hattrs.
  - unfold hasText in Hattrs. by destruct Hattrs as [|a b l' m' Hab _]; [|cbn [head]; apply same_text].
  - intros a b Hab. by rewrite (same_editable Hab), (same_clickable Hab), (same_hasText Hab).
Qed.
Lemma ticks_field inj n m f : Ticks n m → f ≠ "text"%string → fieldValue exclude inj n f = fieldValue exclude inj m f.
Proof.
  intros H Hf. unfold fieldValue. rewrite !bool_decide_eq_false_2 by done. by rewrite (same_value (ticks_attributes n m H)).
Qed.
Lemma ticks_normal_field inj n m f : Ticks n m →
  normalizeDigits (fieldValue exclude inj n f) = normalizeDigits (fieldValue exclude inj m f).
Proof.
  intros H. destruct (decide (f = "text"%string)) as [->|Hf]; [|by rewrite (ticks_field inj n m f H Hf)].
  pose proof (ticks_attributes n m H) as Ha. unfold fieldValue. rewrite !bool_decide_eq_true_2 by done.
  rewrite (same_toggle Ha), (same_editable Ha), (same_key Ha "hint-text") by done.
  destruct (isNamedToggle _); [done|]. destruct (isEditableElementProperties _).
  - destruct (present _); [done|]. by apply ticks_label, ticks_children.
  - apply (same_text Ha).
Qed.
Lemma ticks_hash inj n m fields kids normalize sdk : Ticks n m →
  (normalize = false → ∀ f, f ∈ fields → fieldValue exclude inj n f = fieldValue exclude inj m f) →
  hashCanonical digest exclude inj fields n kids normalize sdk = hashCanonical digest exclude inj fields m kids normalize sdk.
Proof.
  intros H Hf. unfold hashCanonical. pose proof (ticks_attributes n m H) as Ha. rewrite !(same_key Ha) by done.
  do 3 f_equal. apply list_fmap_ext. intros i f Hi. destruct normalize; [by apply ticks_normal_field|].
  apply Hf; [done|]. by eapply list_elem_of_lookup_2.
Qed.

Lemma compute_unfold p n : compute digest exclude p n =
  let inj := isInjected exclude p n in let hashes := childHashes digest exclude inj n in
  (hashCanonical digest exclude inj STRUCTURAL_FIELDS n hashes.*1 false false,
   hashCanonical digest exclude inj ["content-desc"; "text"]%string n hashes.*2 true false).
Proof.
  destruct n as [a e o l]. cbn [compute]. cbv zeta. generalize (isInjected exclude p (mkNode a e o l)). intros inj.
  set (go := fix go (l : list Node) : list (string * string) := match l with [] => []
    | c :: l => (if inj || negb (isInjected exclude inj c) then [compute digest exclude inj c] else []) ++ go l end).
  assert (E : go l = childHashes digest exclude inj (mkNode a e o l)); [|by rewrite E].
  unfold childHashes, identityChildrenOf. cbn [toChildArray]. induction l as [|c l IH]; [done|].
  change (go (c :: l)) with ((if inj || negb (isInjected exclude inj c) then [compute digest exclude inj c] else []) ++ go l).
  rewrite filter_cons, IH. by destruct (inj || _) eqn:E; [rewrite decide_True|rewrite decide_False by done].
Qed.

Lemma ticks_compute n m : Ticks n m → ∀ p, compute digest exclude p n = compute digest exclude p m.
Proof.
  revert m. induction n as [a e o l IH] using Node_induction. intros m H p. rewrite !compute_unfold. cbv zeta.
  rewrite (ticks_injected p _ _ H). set (inj := isInjected _ _ m).
  assert (E : childHashes digest exclude inj (mkNode a e o l) = childHashes digest exclude inj m).
  { unfold childHashes. pose proof (ticks_children inj _ _ H) as Hc. unfold identityChildrenOf in Hc at 1. cbn [toChildArray] in Hc.
    assert (IH' : Forall (λ c, ∀ m, Ticks c m → ∀ p, compute digest exclude p c = compute digest exclude p m)
      (filter (λ c, inj || negb (isInjected exclude inj c) = true) l)).
    { apply Forall_forall. intros x [_ Hx]%list_elem_of_filter. by apply (proj1 (Forall_forall _ _) IH). }
    unfold identityChildrenOf at 1. cbn [toChildArray]. revert IH' Hc. clear IH. generalize (identityChildrenOf exclude inj m).
    generalize (filter (λ c, inj || negb (isInjected exclude inj c) = true) l). intros l1 l2 IH Hc.
    induction Hc as [|x y l1 l2 Hxy Hc IHc]; [done|]. apply Forall_cons in IH as [Hx IH]. cbn. f_equal; [by apply Hx|by apply IHc]. }
  rewrite E. f_equal; apply ticks_hash; try done. intros _ f Hf. apply ticks_field; [done|]. intros ->. by apply (bool_decide_eq_true_2 (_ ∈ _)) in Hf; vm_compute in Hf.
Qed.
Lemma ticks_childHashes inj n m : Ticks n m → childHashes digest exclude inj n = childHashes digest exclude inj m.
Proof.
  intros H. unfold childHashes. pose proof (ticks_children inj n m H) as Hc.
  induction Hc as [|x y l1 l2 Hxy Hc IHc]; [done|]. cbn. f_equal; [by apply ticks_compute|done].
Qed.
End Ticking.


(** ** No generated identifier is left *)

Lemma stable_not_generated ts t seen : isGeneratedViewId (stableViewId ts t seen) = false.
Proof. unfold stableViewId. by destruct (_ <=? 1); [|case_bool_decide]. Qed.
Lemma emit_not_generated all ts st : Forall (λ i, isGeneratedViewId i = false) (emit all ts st).1.
Proof.
  revert st. induction ts as [|t ts IH]; intros st; [constructor|]. cbn.
  rewrite (surjective_pairing (emit all ts _)). cbn. constructor; [apply stable_not_generated|apply IH].
Qed.
Lemma substitute_not_generated vs ids i rest vs' : substitute vs ids = (vs', i :: rest) →
  Forall (λ i, isGeneratedViewId i = false) ids → Forall (λ v, isGenerated v = false) vs'.
Proof.
  revert ids vs'. induction vs as [|v vs IH]; intros ids vs' H Hids; cbn in H; [by simplify_eq|].
  destruct (isGenerated v) eqn:Hv; [destruct ids as [|x ids]|].
  - exfalso. clear -H. assert (E : (substitute vs []).2 = []).
    { clear. induction vs as [|v vs IH]; [done|]. cbn. destruct (isGenerated v); by destruct (substitute vs []). }
    destruct (substitute vs []); cbn in E; simplify_eq.
  - apply Forall_cons in Hids as [Hx Hids]. destruct (substitute vs ids) as [vs1 ids1] eqn:E. simplify_eq.
    constructor; [done|by eapply IH].
  - destruct (substitute vs ids) as [vs1 ids1] eqn:E. simplify_eq. constructor; [done|by eapply IH].
Qed.

Section Passes.
Context (digest : Canonical → string) (exclude : bool).

Lemma assign_not_generated all ime inj n st :
  Forall (λ v, isGenerated v = false) (allViewIds (assign digest exclude all ime inj n st).1).
Proof.
  destruct (assign_spec digest exclude all n ime inj st [EmptyString]) as [_ H].
  eapply substitute_not_generated; [exact H|]. apply Forall_app. split; [apply emit_not_generated|by constructor].
Qed.

Lemma targets_none n ime inj : Forall (λ v, isGenerated v = false) (allViewIds n) → targets digest exclude ime inj n = [].
Proof.
  revert ime inj. induction n as [a e o l IH] using Node_induction. intros ime inj [Hv H]%Forall_cons. cbn [targets].
  destruct (targetOf_generated digest exclude (isInImeWindow (mkNode a e o l) ime) (isInjected exclude inj (mkNode a e o l)) a e o l)
    as [[-> _]|(t & _ & Hg)]; [|congruence].
  change (option_list (@None Target) ++ ?x) with x. revert H.
  generalize (isInImeWindow (mkNode a e o l) ime) (isInjected exclude inj (mkNode a e o l)). intros i1 i2.
  induction IH as [|c l Hc Hl IHl]; [done|]. intros [H1 H2]%Forall_app. rewrite Hc, app_nil_l by done. by apply IHl.
Qed.
Lemma assign_none all n ime inj st : targets digest exclude ime inj n = [] → assign digest exclude all ime inj n st = (n, st).
Proof.
  revert ime inj. induction n as [a e o l IH] using Node_induction. intros ime inj. cbn [targets assign].
  generalize (isInImeWindow (mkNode a e o l) ime) (isInjected exclude inj (mkNode a e o l)). intros i1 i2 [Ht Hk]%app_eq_nil.
  destruct (targetOf _ _ _ _ _); [discriminate Ht|].
  set (go := fix go (l : list Node) (st : AssignState) : list Node * AssignState := match l with [] => ([], st)
    | c :: l => let '(c, st) := assign digest exclude all i1 i2 c st in let '(l, st) := go l st in (c :: l, st) end).
  assert (E : go l st = (l, st)); [|by rewrite E].
  revert Hk. induction IH as [|c l Hc Hl IHl]; [done|]. intros [H1 H2]%app_eq_nil. cbn. by rewrite Hc, IHl.
Qed.

(** The second half only follows occlusion links: no identifier is generated any more. *)
Lemma rewriteField_get rewrites key k a : k ≠ key → jget k (rewriteField rewrites key a) = jget k a.
Proof.
  intros Hk. unfold rewriteField. destruct (jget key a) as [[s| | | |]|]; try done. destruct (jget s rewrites); [|done].
  destruct (truthy _); [|done]. by rewrite jget_set, decide_False.
Qed.
Definition generatedKeys (rewrites : JsMap string string) : Prop := ∀ k v, jget k rewrites = Some v → isGeneratedViewId k = true.
Lemma applyRewrite_value rewrites a : generatedKeys rewrites → isGenerated (attributeValue a "view-id") = false →
  attributeValue (applyRewrite rewrites a) "view-id" = attributeValue a "view-id".
Proof.
  intros Hk. unfold applyRewrite. intros Hg.
  assert (E : match attributeValue a "view-id" with
    | Some (Str s) => match jget s rewrites with Some stable => if truthy stable then setStableViewId stable a else a | None => a end
    | _ => a end = a).
  { revert Hg. destruct (attributeValue a "view-id") as [[s| | | |]|]; try done. destruct (jget s rewrites) as [v|] eqn:E; [|done].
    intros Hg. apply Hk in E. change (isGeneratedViewId s = false) in Hg. congruence. }
  rewrite E. unfold attributeValue. cbn. by rewrite !rewriteField_get.
Qed.
Lemma apply_keeps rewrites n : generatedKeys rewrites → Forall (λ v, isGenerated v = false) (allViewIds n) →
  allViewIds (applyStableViewIdRewrites rewrites n) = allViewIds n.
Proof.
  intros Hk. induction n as [a e o l IH] using Node_induction. intros [Hv H]%Forall_cons. cbn [applyStableViewIdRewrites allViewIds].
  rewrite applyRewrite_value by done. f_equal. induction IH as [|c l Hc Hl IHl]; [done|].
  apply Forall_app in H as [H1 H2]. cbn. rewrite Hc by done. f_equal. by apply IHl.
Qed.
Lemma emit_keys all ts st : (∀ t, t ∈ ts → isGeneratedViewId (t_viewId t) = true) → generatedKeys (rewrittenViewIds st) →
  generatedKeys (rewrittenViewIds (emit all ts st).2).
Proof.
  revert st. induction ts as [|t ts IH]; intros st Ht Hk; [done|]. cbn. rewrite (surjective_pairing (emit all ts _)). cbn.
  apply IH; [intros u Hu; apply Ht; by right|]. intros k v. cbn. rewrite jget_set. case_decide; [|by apply Hk].
  intros _. subst. apply Ht. by left.
Qed.
Lemma targets_generated n ime inj t : t ∈ targets digest exclude ime inj n → isGeneratedViewId (t_viewId t) = true.
Proof.
  revert ime inj. induction n as [a e o l IH] using Node_induction. intros ime inj. cbn [targets]. rewrite elem_of_app. intros [Ht|Ht].
  - unfold targetOf, generatedId in Ht. destruct (attributeValue _ _) as [[s| | | |]|]; try (by apply elem_of_nil in Ht).
    destruct (isGeneratedViewId s) eqn:E; [|by apply elem_of_nil in Ht]. by apply list_elem_of_singleton in Ht as ->.
  - revert Ht. generalize (isInImeWindow (mkNode a e o l) ime) (isInjected exclude inj (mkNode a e o l)). intros i1 i2.
    induction IH as [|c l Hc Hl IHl]; [by intros ?%elem_of_nil|]. rewrite elem_of_app. intros [Ht|Ht]; [by eapply Hc|by apply IHl].
Qed.

(** The view identifiers after the whole pass. *)
Lemma assignStableViewIds_ids n : allViewIds (assignStableViewIds digest exclude n).1 =
  (substitute (allViewIds n) (emitted (targets digest exclude false false n))).1 ∧
  (assignStableViewIds digest exclude n).2 =
    rewrittenViewIds (emit (targets digest exclude false false n) (targets digest exclude false false n) (mkAssign [] [])).2 ∧
  Forall (λ v, isGenerated v = false) (allViewIds (assignStableViewIds digest exclude n).1) ∧
  (substitute (allViewIds n) (emitted (targets digest exclude false false n))).2 = [].
Proof.
  unfold assignStableViewIds. set (ts := targets digest exclude false false n).
  destruct (assign_spec digest exclude ts n false false (mkAssign [] []) []) as [Hst Hsub]. fold ts in Hst, Hsub.
  rewrite app_nil_r in Hsub. pose proof (assign_not_generated ts false false n (mkAssign [] [])) as Hng.
  destruct (assign digest exclude ts false false n (mkAssign [] [])) as [n' st'] eqn:E. cbn [fst snd] in *. subst st'.
  unfold emitted. rewrite Hsub. cbn [fst snd].
  assert (Hk : generatedKeys (rewrittenViewIds (emit ts ts (mkAssign [] [])).2)).
  { apply emit_keys; [intros t; apply targets_generated|]. by intros k v ?. }
  case_bool_decide; [done|]. rewrite apply_keeps by done. done.
Qed.
End Passes.

(** ** Ticking text *)

Section Ticking.
Context (digest : Canonical → string) (exclude : bool).

Lemma ticks_target ime inj a b e o l m : Ticks (mkNode a e o l) (mkNode b e o m) →
  targetOf digest exclude ime inj (mkNode a e o l) = targetOf digest exclude ime inj (mkNode b e o m).
Proof.
  intros H. inversion_clear H as [? ? ? ? ? ? Hab Hg Hlm]. pose proof (ticks_node a b e o l m Hab Hg Hlm) as H.
  assert (Eg : generatedId (mkNode a e o l) = generatedId (mkNode b e o m)).
  { unfold generatedId. cbn [attributesOf]. by rewrite (same_value Hab). }
  unfold targetOf. rewrite <- Eg. destruct (generatedId (mkNode a e o l)) as [v|]; [|done].
  destruct (Hg ltac:(done)) as [Htext Hhint]. cbn [mbind option_bind]. do 2 f_equal.
  - unfold contentHash. rewrite (ticks_childHashes digest exclude inj _ _ H). apply ticks_hash; [done|]. intros _ f _.
    destruct (decide (f = "text"%string)) as [->|Hf]; [|by apply ticks_field]. unfold fieldValue. cbn [attributesOf].
    rewrite !bool_decide_eq_true_2, <- (same_toggle Hab), <- (same_editable Hab), <- (same_key Hab "hint-text") by done.
    destruct (isNamedToggle a); [done|]. destruct (isEditableElementProperties a).
    + destruct (present (jget "hint-text" a)) eqn:E; [done|]. by destruct (Hhint eq_refl).
    + unfold attributeValue. cbn. by rewrite Htext.
  - unfold descendantTextHash. rewrite (ticks_childHashes digest exclude inj _ _ H). f_equal. by apply ticks_hash; [|intros _ f ?%elem_of_nil].
Qed.
Lemma ticks_targets n m ime inj : Ticks n m → targets digest exclude ime inj n = targets digest exclude ime inj m.
Proof.
  revert m ime inj. induction n as [a e o l IH] using Node_induction. intros m ime inj H.
  pose proof (ticks_ime ime _ _ H) as Hi. pose proof (ticks_injected exclude inj _ _ H) as Hj.
  inversion H as [? b ? ? ? m' Hab Hg Hlm]; subst. cbn [targets]. rewrite Hi, Hj. f_equal; [by rewrite (ticks_target _ _ a b e o l m')|].
  clear Hi Hj H. generalize (isInImeWindow (mkNode b e o m') ime) (isInjected exclude inj (mkNode b e o m')). intros i1 i2.
  induction Hlm as [|x y l m Hxy Hlm IHl]; [done|]. apply Forall_cons in IH as [Hx IH].
  f_equal; [by apply Hx|]. apply IHl; [done|]. intros Hgen. exact (Hg Hgen).
Qed.
Lemma ticks_ids n m : Ticks n m → allViewIds n = allViewIds m.
Proof.
  revert m. induction n as [a e o l IH] using Node_induction. intros m H. inversion H as [? b ? ? ? m' Hab Hg Hlm]; subst.
  cbn [allViewIds]. rewrite (same_value Hab) by done. f_equal. clear H Hg.
  induction Hlm as [|x y l m Hxy Hlm IHl]; [done|]. apply Forall_cons in IH as [Hx IH]. f_equal; [by apply Hx|by apply IHl].
Qed.
End Ticking.

(** ** Bare identifiers *)

Lemma bare_unique ts i t : ts !! i = Some t →
  emitted ts !! i = Some (STABLE_VIEW_ID_PREFIX +:+ t_hash t)%string ↔ ∀ j u, ts !! j = Some u → peer t u → j = i.
Proof.
  intros Hi. rewrite emitted_lookup, Hi. cbn. destruct (stableViewId_cases ts t (S (peers t (take i ts)))) as (r & -> & C).
  assert (Hr : Some (STABLE_VIEW_ID_PREFIX +:+ t_hash t +:+ r)%string = Some (STABLE_VIEW_ID_PREFIX +:+ t_hash t)%string ↔ r = EmptyString).
  { split; [|by intros ->; rewrite append_empty]. intros [= He]. rewrite <- (append_empty (t_hash t)) in He at 2.
    apply append_inj_length in He as [_ He]; [|done]. by apply append_inj_length in He as [_ He]. }
  rewrite Hr. clear Hr. destruct (peers t ts <=? 1) eqn:E.
  - split; [|done]. intros _ j u Hj Hu. destruct (decide (j = i)) as [|Hne]; [done|]. apply Nat.leb_le in E. exfalso.
    pose proof (two_in_filter (peer t) ts i j t u Hi Hj ltac:(by split) Hu ltac:(done)). unfold peers in E. lia.
  - apply Nat.leb_gt in E. split; [destruct (decide _); by intros ->|]. intros Hu. exfalso. unfold peers in E.
    assert (Hdrop : length (filter (peer t) ts) ≤ 1); [|lia].
    rewrite <- (take_drop_middle ts i t Hi), filter_app, filter_cons, decide_True, length_app by by split. cbn.
    assert (Z1 : filter (peer t) (take i ts) = []).
    { apply elem_of_nil_inv. intros x [Hx [j Hj]%list_elem_of_lookup]%list_elem_of_filter. apply lookup_take_Some in Hj as [Hj Hlt]. specialize (Hu j x Hj Hx). lia. }
    assert (Z2 : filter (peer t) (drop (S i) ts) = []).
    { apply elem_of_nil_inv. intros x [Hx [j Hj]%list_elem_of_lookup]%list_elem_of_filter. rewrite lookup_drop in Hj. specialize (Hu _ x Hj Hx). lia. }
    rewrite Z1, Z2. cbn. lia.
Qed.

(** ** The properties *)


(** Every generated identifier is replaced, whether or not nodes compete; a second pass,
    with whatever digest, changes nothing. *)
Theorem second_pass_changes_nothing digest exclude digest' exclude' n :
  let n' := (assignStableViewIds digest exclude n).1 in assignStableViewIds digest' exclude' n' = (n', []).
Proof.
  cbv zeta. destruct (assignStableViewIds_ids digest exclude n) as (_ & _ & H & _).
  unfold assignStableViewIds at 1. rewrite (targets_none digest' exclude' _ false false H).
  by rewrite (assign_none _ _ _ _ _ _ _ (targets_none digest' exclude' _ false false H)).
Qed.

(** C36. Within the windows of the app, and within those of the input method, the
    identifiers given are pairwise distinct, one to each generated identifier in document
    order; and an identifier is bare exactly when the content it names was unique there. *)
Theorem stable_ids_are_distinct digest exclude n (Hdigest : ∀ c, String.length (digest c) = 64) :
  let ts := targets digest exclude false false n in
  ∃ ids, substitute (allViewIds n) ids = (allViewIds (assignStableViewIds digest exclude n).1, []) ∧
    length ids = length ts ∧ NoDup (zip (t_ime <$> ts) ids) ∧
    ∀ i t, ts !! i = Some t →
      ids !! i = Some (STABLE_VIEW_ID_PREFIX +:+ t_hash t)%string ↔
        ∀ j u, ts !! j = Some u → t_hash u = t_hash t → t_ime u = t_ime t → j = i.
Proof.
  intros ts. exists (emitted ts). destruct (assignStableViewIds_ids digest exclude n) as (-> & _ & _ & <-).
  assert (Hlen : length (emitted ts) = length ts).
  { assert (E : emitted ts = imap (λ i t, stableViewId ts t (S (peers t (take i ts)))) ts).
    { apply list_eq. intros i. by rewrite emitted_lookup, list_lookup_imap. }
    by rewrite E, length_imap. }
  split; [apply surjective_pairing|]. split; [done|]. split.
  - apply NoDup_alt. intros i j [ime id] Hi Hj.
    apply lookup_zip_with_Some in Hi as (ime1 & id1 & [= <- <-] & Hi1 & Hi2).
    apply lookup_zip_with_Some in Hj as (ime2 & id2 & [= <- <-] & Hj1 & Hj2).
    apply list_lookup_fmap_Some in Hi1 as (t & -> & Ht), Hj1 as (u & Hime & Hu).
    apply (emitted_inj ts i j t u); [|done..|congruence].
    intros x. apply (targets_hash_length digest exclude Hdigest).
  - intros i t Hi. rewrite bare_unique by done. split.
    + intros H j u Hj Hh Hm. apply (H j u Hj). by split.
    + intros H j u Hj [Hh Hm]. by apply (H j u).
Qed.

(** ** Witnesses *)

(** A digest of 64 characters that shows what it was given. *)
Definition showValue (v : Value) : string := match v with Str s => s | _ => "?"%string end.
Definition sampleDigest (c : Canonical) : string :=
  String.substring 0 64 (String.concat "." (showValue (c_class c) :: (showValue <$> c_fields c) ++ (String.substring 0 6 <$> c_kids c)) +:+
    String.concat EmptyString (replicate 64 "0"))%string.
Lemma sampleDigest_length c : String.length (sampleDigest c) = 64.
Proof.
  apply substring_length. generalize (String.concat "." (showValue (c_class c) :: (showValue <$> c_fields c) ++ (String.substring 0 6 <$> c_kids c))).
  intros s. induction s as [|x s IH]; [by vm_compute; lia|].
  change (64 ≤ S (String.length (s +:+ String.concat EmptyString (replicate 64 "0"%string))%string)). lia.
Qed.
Definition sampleId (last : string) : Value := Str ("00000000-0000-0000-0000-00000000000" +:+ last)%string.
Definition sampleRow (last text : string) (kids : list Node) : Node :=
  mkNode [("class", Str "R"); ("view-id", sampleId last); ("text", Str text)]%string None None kids.
Definition sampleLabel (text : string) : Node := mkNode [("class", Str "T"); ("text", Str text)]%string None None [].
(** Three rows, two of them alike, one wrapping a timer. *)
Definition sampleScreen (timer : string) : Node :=
  mkNode [("class", Str "S")]%string None None
    [sampleRow "1" "a" [sampleLabel timer]; sampleRow "2" "b" []; sampleRow "3" "b" []].

Example sample_ids : snd (assignStableViewIds sampleDigest false (sampleScreen "9 s")) =
  [("00000000-0000-0000-0000-000000000001", "s2-R...a..T...00000"); ("00000000-0000-0000-0000-000000000002", "s2-R...b.0000000000-1");
   ("00000000-0000-0000-0000-000000000003", "s2-R...b.0000000000-2")]%string.
Proof. vm_compute. reflexivity. Qed.

Lemma sample_same : sameButText [("class", Str "T"); ("text", Str "9 s")]%string [("class", Str "T"); ("text", Str "10 s")]%string.
Proof. split; [|reflexivity]. intros k Hk. rewrite !jget_cons. repeat case_decide; subst; done. Qed.
Lemma same_refl a : sameButText a a.
Proof. done. Qed.
Lemma sample_ticks : Ticks (sampleScreen "9 s") (sampleScreen "10 s").
Proof.
  repeat (constructor; try apply same_refl; try apply sample_same; try done).
Qed.
Lemma stable_ids_are_distinct_witness :
  let ts := targets sampleDigest false false false (sampleScreen "9 s") in
  ∃ ids, substitute (allViewIds (sampleScreen "9 s")) ids = (allViewIds (assignStableViewIds sampleDigest false (sampleScreen "9 s")).1, []) ∧
    length ids = 3 ∧ NoDup (zip (t_ime <$> ts) ids).
Proof.
  intros ts. destruct (stable_ids_are_distinct sampleDigest false (sampleScreen "9 s") sampleDigest_length) as (ids & H1 & H2 & H3 & _).
  exists ids. split; [exact H1|]. split; [exact H2|exact H3].
Defined.
